(* ===== verification/_CoqProject ===== *)
-Q . S2P
Prelude.v
WireTypes.v
Bits.v
Reader.v
Arena.v
Writer.v
Arrays.v
RoundTrip.v
Any.v
MessageIndex.v
MessageSpec.v
MessageQuery.v
MessageProps.v
MessageWriter.v
MessageEncode.v
MessageRoundTrip.v
Uuid.v
Hash.v
SwissMap.v
SwissTable.v
SwissProps.v
SwissSpec.v
Unicode.v
CArena.v
Intern.v
Scanner.v
ScannerProps.v
ScannerSpec.v
CompilerContext.v
Literals.v
Calendar.v
Fuzzy.v
Schema.v
Toposort.v
TopoProps.v
Validate.v
ValidateProps.v
Diagnostics.v
Sema.v
SemaProps.v
Services.v
Imports.v
Registry.v
RegistryProps.v
Resolve.v
ResolveProps.v
FullNames.v
Decorate.v
DecorateProps.v
Parser.v
ParserProps.v
ParseType.v
ParseTypeProps.v
ParseTypeSpec.v
ParseExpr.v
ParseExprProps.v
FloatText.v
ParseLiteral.v
ParseMember.v
ParseMacro.v
ParseFile.v
ParseSteps.v
ParseRules.v
ParsePartProps.v
ParseDefRules.v
ParseBodyProps.v
ParseMacroProps.v
ParseFileProps.v
ParseUnionProps.v
ParseTotal.v
FrontEnd.v
Paths.v
Glob.v
GlobProps.v
PathProps.v
Emit.v
EmitSpec.v
EmitProps.v
EmitLiterals.v
EmitExamples.v
