(* ===== verification/Prelude.v ===== *)
(** * Bebop: the wire library and the front end of the schema compiler

    Bebop is a serialization system.  A compiler reads schemas and generates code; the
    generated code encodes and decodes records through a C wire library.  This development
    models the wire library, [bebop/src/bebop_wire.c] with its two headers, and the front
    end of the compiler under [bebop/src]: its arena, its string pool, its UTF-8 and
    escape coders, its scanner, the parsers of its literals, its parser, the checks made while
    a schema is parsed, and validation: imports, names, services, decorators, the order of
    definitions and their sizes, and the emitter that writes a schema as source again.  Of the
    compiler's driver, under [bebopc/src], it models how
    file patterns and paths lead to the files of a compilation.

    ** How the parts work together

    Wire library.  A context owns an arena of blocks from a host allocator.  A writer
    appends to a buffer that grows in the context's arena; a reader is a cursor over a
    buffer with a limit.  An indexed message is a directory of field boundaries followed by
    the fields: the reader parses it into an index, which answers lookups and iterates; the
    message writer appends the directory behind fields already written.  Maps with their
    own hash functions hold decoded map fields.

    Schema compiler.  The context of a compilation owns an arena of chunks and a string
    pool in it.  The driver hands it the files that paths and patterns name.  The scanner turns a source into tokens with the trivia around
    them; the texts of tokens are handles into the pool.  The parser, a cursor over the tokens with a
    flag for panic and a stack of frames, one for each definition that is open, makes
    definitions of them in the registry, and asks the analyser of names, indices and values
    about each part.  Validation looks up imports, the names in types and
    the names of decorators, compares the arguments of decorators with their parameters, puts the definitions in an order in which each one follows those it
    depends on, gives structs their sizes, and hands each schema its definitions.  The emitter
    walks over the definitions of a schema and the trivia of its tokens, and writes the text of
    the schema into a buffer that grows in the context's arena.

    ** Files

    - [Prelude]: the monad [C S A] of functions on a state (the answer [None] is undefined
      behaviour: a load outside of an object, the release of storage that is not live, or
      fuel that ran out), widths of integers, bytes and loads, arithmetic tactics.
    - [WireTypes]: result codes, views, scalar records, and the class [Platform] of the two
      builds of the library (memory copies on a little-endian host, byte-wise stores else).
    - [Bits]: population count, trailing zeros, loads and stores of one to four bytes.
    - [Arena]: host allocator (class), arena and context: allocation, reallocation, reset,
      release, decode depth. [bebop_wire.c] up to line 460.
    - [Reader], [Writer], [Arrays]: cursor, limits, scalars, strings, counted and fixed
      arrays, growth of the output; [RoundTrip]: what one writes the other reads.
    - [MessageIndex] (parser, lookup, iterator), [MessageSpec] (a description of
      well-formed messages as a list of tags and sizes), [MessageQuery], [MessageProps];
      [MessageWriter], [MessageEncode], [MessageRoundTrip]: the writer and its round trip.
    - [Any]: values packed with a type URL and unpacked ([bebop_any_pack] and its companions),
      on the operations of [Reader] and [Writer].
    - [Uuid]: the text form of UUIDs. [Hash]: wyhash and the hash and equality of each kind
      of map key.
    - [SwissMap] (the table of control bytes and slots), [SwissTable] (the eight-byte
      matches in one word, invariant, search, insertion) and [SwissProps] (the operations,
      growth), [SwissSpec] (iteration, refinement of an abstract map).
    - [Unicode]: UTF-8 and escape sequences ([bebop_utils.c]).
    - [CArena]: the arena of the compiler ([bebop_arena.c]), on the allocator of [Arena].
    - [Intern]: the string pool ([bebop_str.c]).
    - [Scanner] (definitions), [ScannerProps] (contract of each part), [ScannerSpec] (the
      token stream): [bebop_scanner.c].  [CompilerContext] implements the class the scanner
      uses with [CArena] and [Intern], and evaluates a concrete scan.
    - [Literals] (integers, shapes of numbers, UUIDs), [Calendar] (days, timestamps,
      durations), [Fuzzy] (edit distance, nearest name): the rest of [bebop_utils.c].
    - [Schema]: definitions, types and their sizes on the wire ([bebop.c]).  [Toposort]: the
      dependencies of definitions, their order, the report of a cycle, [TopoProps] its
      proof.  [Validate]: the end of [bebop_validate], from the map of names to the sorted
      definitions of each schema; [ValidateProps] its proof and concrete programs.
    - [Diagnostics]: reports, labels, counts and the status of a validation
      ([bebop_schema.c]).  [Sema]: the checks made while definitions are parsed
      ([bebop_sema.c]); [SemaProps]: what they let pass.
    - [Registry]: schemas, definitions and their full names ([bebop_schema.c],
      [bebop_result.c]); [RegistryProps]: their invariant.  [Resolve]: the names in types
      and what they lead to; [ResolveProps]: what resolution promises.  [Decorate]: the names
      of decorators, and their arguments against the parameters of their definitions;
      [DecorateProps]: what is true of the decorators of a program without a report.
    - [Parser]: the base of the parser ([bebop_parser.c], to line 448): cursor, errors,
      where it takes up again, names, documentation comments; [ParserProps]: what its
      operations promise.  [ParseType]: the parser of types, a machine with a stack of its
      own; [ParseTypeProps]: it is a recursive function; [ParseTypeSpec]: the grammar of
      types, and that it reads exactly them.  [ParseExpr]: the values of enum members,
      [ParseExprProps] their grammar and proof.
    - [FloatText]: floating-point literals, with the [strtod] of the C library.
      [ParseLiteral]: environment variables in strings, literals and the arguments of
      decorators.  [ParseMember]: members of enums, fields and methods.  [ParseMacro]:
      definitions of decorators.  [ParseFile]: the machine over a file, one definition for
      each state of [bebop__parse_file] ([step_file] to [step_const]).
    - The parser as a whole.  [ParseSteps]: what it asks of a stream ([scanned]), the state
      between two parts ([ok]), backward rules for the parts that read tokens or report;
      [ParseRules]: rules for names, comments, types, the registry, and the tactics that
      apply them.  [ParsePartProps], [ParseDefRules], [ParseBodyProps], [ParseMacroProps]: a
      rule for each part of a definition.  [ParseFileProps], [ParseUnionProps]: each state of
      the machine keeps the stack well-formed and brings it nearer to its end.
      [ParseTotal]: the machine ends.  [FrontEnd]: a scan gives a stream of that kind, and
      scanner and parser together read every text to its end.
    - [Imports]: the schemas that the imports of schemas lead to; [Services]: the checks of
      services and their mixins; [FullNames]: the report of full names that several schemas
      define ([bebop_validate.c]).
    - The emitter ([bebop_emit.c], and [bebop_emit_def] of [bebop.c]).  [Emit]: its buffer,
      trivia, literals, decorators, the machine with a stack that writes types, one definition
      for each part of a schema.  [EmitSpec]: the text of a schema as a function of its data.
      [EmitProps]: the emitter writes that text.  [EmitLiterals]: numbers, UUIDs,
      timestamps, durations and strings it writes are read back by the parsers of literals and
      the scanner.  [EmitExamples]: schemas on which the emitter is evaluated.
    - [Paths]: the paths of [bebopc/src/bebopc_dir.c]; [PathProps]: their normal form, and that a
      relative path leads back.  [Glob]: patterns, their search in directories
      ([bebopc_glob.c]) and the files of a compilation ([bebopc_collect_files] of
      [bebopc_compile.c]); [GlobProps]: what they match and find.

    ** Interfaces

    Code outside of the repository, and third-party code it vendors, is a class with the laws of
    its documentation: [HostAllocator] with [HostAllocatorOk] (regions do not overlap and are
    aligned); [InternMap] with [InternMapOk] and [IdxMap] with [IdxMapOk] and [DefMap] with
    [DefMapOk] (the hash table cwisstable under [vendor/cwisstable] is a map; when the arena has no
    memory for a table its callback [bebop__cwiss_alloc] ends the process).  The class [Malloc] of the
    driver says which requests the host grants; the directories of the host are a parameter of
    the search.  The Lua of decorators is a parameter too: which blocks it has compiled; its calls are events of the model.  [Platform] with [PlatformOk] is the host's byte order.  [MapKeyOk] is what the map asks of its hash
    and equality callbacks, and [Hash] provides it for each kind of key.  [Context] with
    [ContextOk] is what the scanner asks of the compiler, and [CompilerContext] provides it;
    [ContextKeeps] is what the emitter asks of it: its arena leaves the texts of the pool alone.
    Each class has a concrete instance, on which the witnesses evaluate.

    ** What the theorems show

    - Round trips: every scalar, string and array read back as written, framed records,
      indexed messages from the writer through the parser to every field, UUID text, packed
      dynamic values, relative paths.
    - The index: the parser accepts exactly the encodings of well-formed messages, lazily
      or not; lookups, slices, block masks and iteration agree with the description; the
      encoder refuses exactly what cannot be encoded, picks the smallest widths, and the
      directory that docs/WIRE.md prescribes when several have the same size.
    - Safety: the reader never leaves its buffer for any sequence of calls; arena grants
      are aligned, disjoint and inside of live blocks; a context gives back every block.
    - Maps: the table refines a finite map for every operation; iteration ends and yields
      each pair once; insertion fails only for lack of storage or of probes.
    - Strings: decoding and validation of UTF-8 are exact; equal strings have equal handles
      and handles keep their meaning through growth, collisions and failure.
    - Scanner: it ends on every source; its spans cover the source without gap; lines and
      columns are those of a count over the source; lexemes resolve to the texts of tokens,
      words are longest matches, keywords are recognised exactly.
    - Literals: numerals, timestamps and UUIDs parse to their values; the seconds of a timestamp
      are those of an independent calendar, and dates that it does not have are refused;
      durations are sums of their parts or are refused; the search for the nearest name finds
      the first candidate of least edit distance.
    - Validation: the order is defined for every program and every refusal of the arena; it
      puts each definition behind its dependencies or there is a cycle; sizes of structs are
      those of their encodings; dependents and schemas get exactly their definitions.
    - Checks: the bodies of messages and enums pass without an error exactly when names,
      indices and values are as the language wants them, as long as no diagnostic is lost.
    - Names: every registry that is built by the operations is well-formed; full names are
      the names of what is around, joined by dots; the pass over all types ends, and without
      a report every name leads to a definition that is visible and may stand there.
    - Imports lead to a schema of their path exactly when there is one; the checks of a
      service end with no report exactly when its mixins are services, its methods collide
      with none the checks look at and carry records, if no mixin leads back to itself.
    - Decorators: the passes over all decorators end; without a report every decorator leads to
      a visible decorator that may stand there, its arguments are values of distinct or named
      parameters, and the required ones are there.
    - File patterns: a path matches a pattern exactly when it does by the rules of segments,
      stars and question marks, whatever the memo table of the matcher holds; the files of a
      compilation are those named and those found whose path matches, without those excluded.
    - Parser: after an error it takes up again at the next statement, never behind the end
      of the stream; the machine for types is a recursive function, and reads exactly the
      types of a grammar; that for enum values computes exactly the value a grammar with
      precedence gives.
    - Front end: for every text the scanner returns, and on its stream the parser returns,
      with a well-formed registry, at the end of the stream unless definitions are nested too
      deep; the only exceptions are values that C leaves undefined.
    - Emitter: from an arena that grants what it asks for, the emitter ends and its text is
      that of the printer of [EmitSpec], for every schema whose types are not nested deeper than its
      stack; of the literals it writes, integers, escapes, timestamps and durations read back as
      the values they were written for, and UUIDs with the order of their bytes changed.
    - Some theorems state what the code does where it departs from what it means to do, and
      are named by the findings of the manifest.

    ** Bounds and fuel

    Sizes are those of an LP64 host.  Loops that are not structural take fuel: the number of
    bytes left (scanner, readers), the number of blocks or entries (index, pool), of
    probes (maps, whose loop has that bound in the code), of definitions (order; twice
    that for the search of a cycle), of segments (patterns), or of tokens (parser; three times that for types, which
    can take three steps at a token, twice for expressions, and eight times for the
    machine over a file, which can open and close a definition at a token).  Running out of fuel is [None],
    and the theorems show that it does not happen. The scanner is proved for sources below
    [2^32 - 1] bytes, beyond which the 32-bit spans wrap; interning for fewer than [2^31]
    strings, where the 32-bit capacity wraps; paths for fewer than [2^32 - 2] bytes; the emitter
    for texts below [2^62] bytes, beyond which the doubling of its buffer wraps.  The
    emitter's machine for types takes three steps for each part of a type, and its stack has the
    128 frames of the code.  The search
    for files goes 64 directories deep, as the code does.

    ** Not modelled

    - Concurrency: the arena's compare-and-swap loops are modelled for one thread.
    - Bytes of arena memory: addresses and sizes are modelled, and values are passed along;
      that regions are disjoint is proved.
    - The array structs of generated code.
    - Of the compiler: descriptors and the accessors; the Lua macros, the options and
      processes of the driver, its watcher and the plugin protocol (interfaces to other
      programs); the code generators and what they generate; the text of diagnostics.
    - The Swift and TypeScript parts, the language server, tests and benchmarks. *)
From Stdlib Require Import ZArith Lia.
From stdpp Require Export base list numbers option gmap.

#[global] Open Scope Z_scope.

(** ** The monad of the C code

    A C function that works on a piece of mutable state [S] is a function
    [S -> option (A * S)].  [None] is undefined behaviour: a load or a store
    outside of the object its pointer points into, or the release of storage
    that is not live.  The error codes of the library are ordinary results, so
    a function that fails after it moved a cursor keeps the moved cursor, as
    the C code does. *)
Definition C (S A : Type) : Type := S → option (A * S).

#[global] Instance C_ret {S} : MRet (C S) := λ A a s, Some (a, s).
#[global] Instance C_bind {S} : MBind (C S) :=
  λ A B k c s, match c s with Some (a, s') => k a s' | None => None end.

(** Undefined behaviour. *)
Definition ub {S A} : C S A := λ _, None.
(** Reads a component of the state. *)
Definition gets {S A} (f : S → A) : C S A := λ s, Some (f s, s).
(** Updates the state. *)
Definition modify {S} (f : S → S) : C S unit := λ s, Some (tt, f s).
(** Lifts a computation without state: [None] stays undefined behaviour. *)
Definition lift {S A} (o : option A) : C S A :=
  λ s, match o with Some a => Some (a, s) | None => None end.

(** A pointer argument whose only use is the NULL test of the callee. *)
Inductive ptr : Set := NULL | PTR.
Definition is_null (p : ptr) : bool := match p with NULL => true | PTR => false end.

(** ** Fixed-width integers *)

Definition u8 (z : Z) : Z := z mod 2 ^ 8.
Definition u16 (z : Z) : Z := z mod 2 ^ 16.
Definition u32 (z : Z) : Z := z mod 2 ^ 32.
Definition u64 (z : Z) : Z := z mod 2 ^ 64.

(** Reinterpretation of an unsigned [w]-bit pattern as two's complement, and
    back (the conversion to an unsigned type). *)
Definition to_signed (w z : Z) : Z := if z <? 2 ^ (w - 1) then z else z - 2 ^ w.
Definition to_unsigned (w z : Z) : Z := z mod 2 ^ w.

Definition UINT8_MAX : Z := 2 ^ 8 - 1.
Definition UINT16_MAX : Z := 2 ^ 16 - 1.
Definition UINT32_MAX : Z := 2 ^ 32 - 1.
(** [size_t] has 64 bits. *)
Definition SIZE_MAX : Z := 2 ^ 64 - 1.

(** ** Bytes and memory *)

Definition byte_ok (b : Z) : Prop := 0 ≤ b < 256.
Abbreviation bytes_ok := (Forall byte_ok).

(** Length of a list, in Z. *)
Definition zlen {A} (l : list A) : Z := Z.of_nat (length l).

(** Load of one byte at an offset; [None] outside of the object. *)
Definition load (mem : list Z) (off : Z) : option Z :=
  if off <? 0 then None else mem !! Z.to_nat off.

(** [memcpy] out of an object: [n] bytes from offset [off]. *)
Definition load_bytes (mem : list Z) (off n : Z) : option (list Z) :=
  if (off <? 0) || (n <? 0) || (zlen mem <? off + n) then None
  else Some (take (Z.to_nat n) (drop (Z.to_nat off) mem)).

(** [strlen] stops at the first zero byte. *)
Fixpoint c_string (str : list Z) : list Z :=
  match str with
  | [] => []
  | c :: str => if c =? 0 then [] else c :: c_string str
  end.

(** The bytes of an unsigned integer, least significant first, and back. *)
Fixpoint le_bytes (n : nat) (z : Z) : list Z :=
  match n with
  | O => []
  | S n' => z mod 256 :: le_bytes n' (z / 256)
  end.

Fixpoint le_value (l : list Z) : Z :=
  match l with
  | [] => 0
  | b :: l' => b + 256 * le_value l'
  end.

(** ** Lemmas shared by the components *)

Create HintDb bebop.
Create Rewrite HintDb bebop.

Lemma zlen_nil {A} : zlen (@nil A) = 0.
Proof. reflexivity. Qed.

Lemma zlen_cons {A} (x : A) l : zlen (x :: l) = 1 + zlen l.
Proof. unfold zlen; simpl; lia. Qed.

Lemma zlen_app {A} (l k : list A) : zlen (l ++ k) = zlen l + zlen k.
Proof. unfold zlen; rewrite length_app; lia. Qed.

Lemma zlen_nonneg {A} (l : list A) : 0 ≤ zlen l.
Proof. unfold zlen; lia. Qed.

Lemma zlen_take {A} (n : Z) (l : list A) :
  0 ≤ n ≤ zlen l → zlen (take (Z.to_nat n) l) = n.
Proof. unfold zlen; intros; rewrite length_take; lia. Qed.

Lemma zlen_drop {A} (n : Z) (l : list A) :
  0 ≤ n ≤ zlen l → zlen (drop (Z.to_nat n) l) = zlen l - n.
Proof. unfold zlen; intros; rewrite length_drop; lia. Qed.

Lemma zlen_map {A B} (f : A → B) l : zlen (map f l) = zlen l.
Proof. unfold zlen; by rewrite length_map. Qed.

#[export] Hint Rewrite @zlen_nil @zlen_cons @zlen_app @zlen_map : bebop.
#[export] Hint Resolve zlen_nonneg : bebop.

(** Arithmetic on list lengths. *)
Ltac zlen_pos :=
  repeat match goal with
  | |- context [zlen ?l] => lazymatch goal with
                            | _ : 0 ≤ zlen l |- _ => fail
                            | _ => pose proof (zlen_nonneg l) end
  | _ : context [zlen ?l] |- _ => lazymatch goal with
                            | _ : 0 ≤ zlen l |- _ => fail
                            | _ => pose proof (zlen_nonneg l) end
  end.
Ltac zlia := autorewrite with bebop in *; zlen_pos; lia.

(** Proves the first of several conjuncts. *)
Tactic Notation "conjunct" tactic3(t) := (apply conj; [t|]).

(** Boolean comparisons of the code as propositions. *)
Ltac zbool :=
  repeat match goal with
  | H : (_ <? _) = true |- _ => apply Z.ltb_lt in H
  | H : (_ <? _) = false |- _ => apply Z.ltb_ge in H
  | H : (_ <=? _) = true |- _ => apply Z.leb_le in H
  | H : (_ <=? _) = false |- _ => apply Z.leb_gt in H
  | H : (_ =? _) = true |- _ => apply Z.eqb_eq in H
  | H : (_ =? _) = false |- _ => apply Z.eqb_neq in H
  | H : (_ || _) = true |- _ => apply orb_true_iff in H
  | H : (_ || _) = false |- _ => apply orb_false_iff in H; destruct H
  | H : (_ && _) = true |- _ => apply andb_true_iff in H; destruct H
  | H : (_ && _) = false |- _ => apply andb_false_iff in H
  | H : negb _ = true |- _ => apply negb_true_iff in H
  | H : negb _ = false |- _ => apply negb_false_iff in H
  end.

Lemma u64_small z : 0 ≤ z < 2 ^ 64 → u64 z = z.
Proof. apply Z.mod_small. Qed.
Lemma u32_nonneg z : 0 ≤ u32 z.
Proof. apply Z.mod_pos_bound. lia. Qed.
Lemma u32_small z : 0 ≤ z < 2 ^ 32 → u32 z = z.
Proof. apply Z.mod_small. Qed.
Lemma u16_small z : 0 ≤ z < 2 ^ 16 → u16 z = z.
Proof. apply Z.mod_small. Qed.
Lemma u8_small z : 0 ≤ z < 2 ^ 8 → u8 z = z.
Proof. apply Z.mod_small. Qed.

Lemma u8_byte_ok z : byte_ok (u8 z).
Proof. unfold byte_ok, u8. pose proof (Z.mod_pos_bound z (2 ^ 8)). lia. Qed.
#[export] Hint Resolve u8_byte_ok : bebop.

Lemma to_signed_unsigned w v :
  0 < w → - 2 ^ (w - 1) ≤ v < 2 ^ (w - 1) → to_signed w (to_unsigned w v) = v.
Proof.
  intros Hw Hv. unfold to_signed, to_unsigned.
  assert (E : 2 ^ w = 2 * 2 ^ (w - 1)) by (rewrite <- Z.pow_succ_r by lia; f_equal; lia).
  destruct (Z_lt_dec v 0) as [Hn|Hp].
  - replace (v mod 2 ^ w) with (v + 2 ^ w).
    2: { apply Z.mod_unique with (-1); lia. }
    destruct (Z.ltb_spec (v + 2 ^ w) (2 ^ (w - 1))); lia.
  - rewrite Z.mod_small by lia. destruct (Z.ltb_spec v (2 ^ (w - 1))); lia.
Qed.

Lemma to_signed_range w z :
  0 < w → 0 ≤ z < 2 ^ w → - 2 ^ (w - 1) ≤ to_signed w z < 2 ^ (w - 1).
Proof.
  intros Hw Hz. unfold to_signed.
  assert (E : 2 ^ w = 2 * 2 ^ (w - 1)) by (rewrite <- Z.pow_succ_r by lia; f_equal; lia).
  destruct (Z.ltb_spec z (2 ^ (w - 1))); lia.
Qed.

Lemma to_unsigned_range w z : 0 ≤ w → 0 ≤ to_unsigned w z < 2 ^ w.
Proof. intros. apply Z.mod_pos_bound. lia. Qed.

(** *** Little-endian bytes *)

Lemma length_le_bytes n z : length (le_bytes n z) = n.
Proof. revert z; induction n; simpl; auto. Qed.

Lemma zlen_le_bytes n z : zlen (le_bytes n z) = Z.of_nat n.
Proof. unfold zlen. by rewrite length_le_bytes. Qed.

Lemma le_bytes_ok n z : bytes_ok (le_bytes n z).
Proof.
  revert z; induction n; intros; simpl; constructor; auto.
  unfold byte_ok. pose proof (Z.mod_pos_bound z 256). lia.
Qed.

#[export] Hint Rewrite zlen_le_bytes length_le_bytes : bebop.
#[export] Hint Resolve le_bytes_ok : bebop.

Lemma le_value_bound l : bytes_ok l → 0 ≤ le_value l < 256 ^ zlen l.
Proof.
  induction 1 as [|b l Hb _ IH]; simpl.
  - unfold zlen; simpl; lia.
  - rewrite zlen_cons, Z.pow_add_r by zlia. unfold byte_ok in Hb. lia.
Qed.

Lemma pow256 n : 0 ≤ n → 256 ^ n = 2 ^ (8 * n).
Proof. intros. change 256 with (2 ^ 8). rewrite <- Z.pow_mul_r by lia. done. Qed.

Lemma le_value_le_bytes n z : le_value (le_bytes n z) = z mod 256 ^ Z.of_nat n.
Proof.
  revert z; induction n as [|n IH]; intros z; simpl le_bytes; simpl le_value.
  - by rewrite Z.mod_1_r.
  - rewrite IH, Nat2Z.inj_succ, Z.pow_succ_r by lia.
    rewrite Z.rem_mul_r by lia. lia.
Qed.

Lemma le_value_le_bytes_small n z :
  0 ≤ z < 256 ^ Z.of_nat n → le_value (le_bytes n z) = z.
Proof. intros. rewrite le_value_le_bytes. by apply Z.mod_small. Qed.

Lemma le_bytes_le_value l : bytes_ok l → le_bytes (length l) (le_value l) = l.
Proof.
  induction 1 as [|b l Hb _ IH]; simpl; auto.
  unfold byte_ok in Hb. rewrite (Z.mul_comm 256).
  rewrite Z.mod_add, Z.mod_small, Z.div_add, Z.div_small by lia.
  by rewrite Z.add_0_l, IH.
Qed.

Lemma le_value_app l k : le_value (l ++ k) = le_value l + 256 ^ zlen l * le_value k.
Proof.
  induction l as [|b l IH]; simpl; rewrite ?zlen_cons.
  - unfold zlen; simpl; lia.
  - rewrite IH, Z.pow_add_r by zlia. lia.
Qed.

Lemma le_bytes_app m n z :
  le_bytes (m + n) z = le_bytes m z ++ le_bytes n (z / 256 ^ Z.of_nat m).
Proof.
  revert z; induction m as [|m IH]; intros z; simpl.
  - by rewrite Z.div_1_r.
  - rewrite IH, Z.div_div by lia. do 3 f_equal. rewrite <- Z.pow_succ_r by lia.
    f_equal; lia.
Qed.

Lemma le_bytes_mod n z : le_bytes n (z mod 256 ^ Z.of_nat n) = le_bytes n z.
Proof.
  rewrite <- le_value_le_bytes, <- (length_le_bytes n z) at 1.
  apply le_bytes_le_value, le_bytes_ok.
Qed.

(** The byte-wise stores. *)
Lemma le_bytes2 z : le_bytes 2 z = [u8 z; u8 (Z.shiftr z 8)].
Proof. unfold u8. rewrite !Z.shiftr_div_pow2 by lia. cbn [le_bytes]. done. Qed.

Lemma le_bytes4 z :
  le_bytes 4 z = [u8 z; u8 (Z.shiftr z 8); u8 (Z.shiftr z 16); u8 (Z.shiftr z 24)].
Proof.
  unfold u8. rewrite !Z.shiftr_div_pow2 by lia. cbn [le_bytes]. rewrite !Z.div_div by lia. done.
Qed.

Lemma le_bytes8 z :
  le_bytes 8 z = [u8 z; u8 (Z.shiftr z 0x08); u8 (Z.shiftr z 0x10); u8 (Z.shiftr z 0x18);
                  u8 (Z.shiftr z 0x20); u8 (Z.shiftr z 0x28); u8 (Z.shiftr z 0x30); u8 (Z.shiftr z 0x38)].
Proof.
  unfold u8. rewrite !Z.shiftr_div_pow2 by lia. cbn [le_bytes]. rewrite !Z.div_div by lia. done.
Qed.

(** A property of every byte, by evaluation. *)
Lemma byte_forall (P : Z → bool) : forallb P (seqZ 0 256) = true → ∀ c, byte_ok c → P c = true.
Proof.
  intros H c Hc. rewrite forallb_forall in H. apply H. apply list_elem_of_In, elem_of_seqZ.
  unfold byte_ok in Hc. lia.
Qed.

(** *** Loads *)

Lemma load_Some mem off b :
  load mem off = Some b ↔ 0 ≤ off ∧ mem !! Z.to_nat off = Some b.
Proof. unfold load. destruct (Z.ltb_spec off 0); intuition (lia || congruence). Qed.

Lemma load_in mem off : 0 ≤ off < zlen mem → ∃ b, load mem off = Some b.
Proof.
  intros H. unfold load. destruct (Z.ltb_spec off 0); [lia|].
  destruct (lookup_lt_is_Some_2 mem (Z.to_nat off)) as [b Hb]; [unfold zlen in *; lia|].
  eauto.
Qed.

Lemma load_ok mem off b : bytes_ok mem → load mem off = Some b → byte_ok b.
Proof.
  intros Hm [_ Hb]%load_Some. eapply Forall_lookup_1; eauto.
Qed.

Lemma load_bytes_Some mem off n l :
  load_bytes mem off n = Some l ↔
  0 ≤ off ∧ 0 ≤ n ∧ off + n ≤ zlen mem ∧ l = take (Z.to_nat n) (drop (Z.to_nat off) mem).
Proof.
  unfold load_bytes.
  destruct (Z.ltb_spec off 0), (Z.ltb_spec n 0), (Z.ltb_spec (zlen mem) (off + n));
    simpl; intuition (lia || congruence).
Qed.

Lemma load_bytes_in mem off n :
  0 ≤ off → 0 ≤ n → off + n ≤ zlen mem →
  load_bytes mem off n = Some (take (Z.to_nat n) (drop (Z.to_nat off) mem)).
Proof. intros. by apply load_bytes_Some. Qed.

Lemma load_bytes_zlen mem off n l : load_bytes mem off n = Some l → zlen l = n.
Proof.
  intros (?&?&?&->)%load_bytes_Some. rewrite zlen_take; [done|].
  rewrite zlen_drop; lia.
Qed.

Lemma load_bytes_ok mem off n l :
  bytes_ok mem → load_bytes mem off n = Some l → bytes_ok l.
Proof.
  intros Hm (?&?&?&->)%load_bytes_Some. by apply Forall_take, Forall_drop.
Qed.

Lemma load_bytes_app pre l post :
  load_bytes (pre ++ l ++ post) (zlen pre) (zlen l) = Some l.
Proof.
  apply load_bytes_Some. split_and!; try zlia.
  unfold zlen. rewrite !Nat2Z.id, drop_app_length, take_app_length. done.
Qed.

Lemma load_app pre b post : load (pre ++ b :: post) (zlen pre) = Some b.
Proof.
  apply load_Some. split; [zlia|]. unfold zlen. rewrite Nat2Z.id.
  by apply list_lookup_middle.
Qed.

Lemma load_bytes_all mem : load_bytes mem 0 (zlen mem) = Some mem.
Proof.
  apply load_bytes_Some. split_and!; try zlia. unfold zlen. rewrite Nat2Z.id. cbn.
  by rewrite firstn_all.
Qed.

(** *** Monad laws used by symbolic execution *)

Lemma C_bind_Some {S A B} (c : C S A) (k : A → C S B) s a s' :
  c s = Some (a, s') → (c ≫= k) s = k a s'.
Proof. intros H. unfold mbind, C_bind. by rewrite H. Qed.

Lemma C_lift_bind {S A B} (o : option A) (k : A → C S B) s a :
  o = Some a → (lift o ≫= k) s = k a s.
Proof. by intros ->. Qed.

Lemma C_bind_inv {S A B} (c : C S A) (k : A → C S B) s r :
  (c ≫= k) s = Some r → ∃ a s', c s = Some (a, s') ∧ k a s' = Some r.
Proof.
  unfold mbind, C_bind. destruct (c s) as [[a s']|]; naive_solver.
Qed.

(** *** Bitwise operations as arithmetic *)

(** A disjunction of disjoint bit ranges is a sum. *)
Lemma lor_add x y k :
  0 ≤ k → x mod 2 ^ k = 0 → 0 ≤ y < 2 ^ k → Z.lor x y = x + y.
Proof.
  intros Hk Hx Hy. symmetry. rewrite <- Z.lxor_lor, Z.add_nocarry_lxor; [done|..];
    apply Z.bits_inj'; intros n Hn; rewrite Z.land_spec, Z.bits_0.
  1,2: destruct (Z_lt_dec n k) as [Hlt|Hge];
    [ replace (Z.testbit x n) with false; [done|];
      rewrite <- (Z.mod_pow2_bits_low x k) by lia; by rewrite Hx, Z.bits_0
    | replace (Z.testbit y n) with false; [by rewrite andb_false_r|];
      rewrite <- (Z.mod_small y (2 ^ k)) by lia; by rewrite Z.mod_pow2_bits_high by lia ].
Qed.

Lemma shiftl_mul z k : 0 ≤ k → Z.shiftl z k = z * 2 ^ k.
Proof. apply Z.shiftl_mul_pow2. Qed.

Lemma lor_add' x y m k :
  m = 2 ^ k → 0 ≤ k → x mod m = 0 → 0 ≤ y < m → Z.lor x y = x + y.
Proof. intros ->. apply lor_add. Qed.

(** [lia] with division and remainder by constants. *)
Ltac dlia := Z.to_euclidean_division_equations; lia.

(** Replaces the powers of two with constant exponents by their values. *)
Ltac pow_consts :=
  repeat match goal with
  | |- context [2 ^ Z.pos ?k] =>
      let v := eval vm_compute in (2 ^ Z.pos k) in change (2 ^ Z.pos k) with v
  end.

(** Evaluates a chain of shifted, disjoint bytes. *)
Ltac lor_bytes :=
  rewrite ?Z.shiftl_mul_pow2 by lia; pow_consts;
  repeat match goal with
  | |- context [Z.lor ?x ?y] =>
      lazymatch x with context [Z.lor] => fail | _ => idtac end;
      first [ rewrite (lor_add' x y 0x100 8 eq_refl) by dlia
            | rewrite (lor_add' x y 0x10000 16 eq_refl) by dlia
            | rewrite (lor_add' x y 0x1000000 24 eq_refl) by dlia
            | rewrite (lor_add' x y 0x100000000 32 eq_refl) by dlia
            | rewrite (lor_add' x y 0x10000000000 40 eq_refl) by dlia
            | rewrite (lor_add' x y 0x1000000000000 48 eq_refl) by dlia
            | rewrite (lor_add' x y 0x100000000000000 56 eq_refl) by dlia
            | rewrite (lor_add' x y 0x10000000000000000 64 eq_refl) by dlia ]
  end.

(** *** Computations that return *)

Definition computes {S A} (c : C S A) (Q : A → S → Prop) (s : S) : Prop := ∃ a s', c s = Some (a, s') ∧ Q a s'.
Lemma computes_bind {S A B} (c : C S A) (k : A → C S B) P Q s :
  computes c P s → (∀ a s', P a s' → computes (k a) Q s') → computes (c ≫= k) Q s.
Proof.
  intros (a&s'&E&HP) Hk. destruct (Hk a s' HP) as (b&s''&E'&HQ). exists b, s''. split; [|done].
  unfold mbind, C_bind. by rewrite E.
Qed.
Lemma computes_weaken {S A} (c : C S A) (P Q : A → S → Prop) s : computes c P s → (∀ a s', P a s' → Q a s') → computes c Q s.
Proof. intros (a&s'&E&HP) HQ. exists a, s'. auto. Qed.
Lemma computes_ret {S A} (a : A) (Q : A → S → Prop) s : Q a s → computes (mret a) Q s.
Proof. intros HQ. by exists a, s. Qed.
Lemma computes_gets {S A} (f : S → A) (Q : A → S → Prop) s : Q (f s) s → computes (gets f) Q s.
Proof. intros HQ. by exists (f s), s. Qed.
Lemma computes_modify {S} (f : S → S) (Q : unit → S → Prop) s : Q tt (f s) → computes (modify f) Q s.
Proof. intros HQ. by exists tt, (f s). Qed.
Lemma computes_lift {S A} (o : option A) a (Q : A → S → Prop) s : o = Some a → Q a s → computes (lift o) Q s.
Proof. intros -> HQ. by exists a, s. Qed.
Create HintDb computes.
#[export] Hint Resolve computes_ret computes_gets computes_modify : computes.
(** A part of a computation whose result is known. *)
Lemma computes_step {S A B} (c : C S A) (k : A → C S B) Q s a s' : c s = Some (a, s') → computes (k a) Q s' → computes (c ≫= k) Q s.
Proof. intros E (b&s''&E'&HQ). exists b, s''. by rewrite (C_bind_Some _ _ _ _ _ E). Qed.

(** *** Computations that may be undefined *)

Definition ensures {S A} (c : C S A) (Q : A → S → Prop) (s : S) : Prop := ∀ a s', c s = Some (a, s') → Q a s'.
Lemma ensures_bind {S A B} (c : C S A) (k : A → C S B) P Q s :
  ensures c P s → (∀ a s', P a s' → ensures (k a) Q s') → ensures (c ≫= k) Q s.
Proof. intros Hc Hk b s'' E. unfold mbind, C_bind in E. destruct (c s) as [[a s']|] eqn:Ec; [|done]. by apply (Hk a s'); [apply Hc|]. Qed.
Lemma ensures_step {S A B} (c : C S A) (k : A → C S B) Q s a s' : c s = Some (a, s') → ensures (k a) Q s' → ensures (c ≫= k) Q s.
Proof. intros E Hk b s'' E'. rewrite (C_bind_Some _ _ _ _ _ E) in E'. by apply Hk. Qed.
Lemma ensures_ret {S A} (a : A) (Q : A → S → Prop) s : Q a s → ensures (mret a) Q s.
Proof. by intros HQ b s' [= <- <-]. Qed.
Lemma ensures_lift {S A B} (o : option A) (k : A → C S B) Q s : (∀ a, o = Some a → ensures (k a) Q s) → ensures (lift o ≫= k) Q s.
Proof. intros H. destruct o as [a|]; [|by intros b s' E]. eapply ensures_step; [reflexivity|by apply H]. Qed.
Lemma computes_ensures {S A} (c : C S A) Q s : computes c Q s → ensures c Q s.
Proof. intros (a&s'&E&HQ) b s'' E'. by simplify_eq. Qed.
Lemma ensures_weaken {S A} (c : C S A) (P Q : A → S → Prop) s : ensures c P s → (∀ a s', P a s' → Q a s') → ensures c Q s.
Proof. intros H HPQ a s' E. by apply HPQ, H. Qed.
