(* ===== verification/WireTypes.v ===== *)
(** Data types of the wire runtime ([bebop/include/bebop_wire.h]): result codes,
    wire sizes, the scalar types, the platform parameters that select the
    preprocessor branches, and the codec interface: what the wire format
    promises for one scalar type, against which the readers and the writers are
    specified. *)
From S2P Require Import Prelude.

(** ** Result codes and wire sizes *)

Inductive Bebop_Result : Set :=
  | BEBOP_RESULT_OK
  | BEBOP_RESULT_MALFORMED
  | BEBOP_RESULT_OVERFLOW
  | BEBOP_RESULT_OOM
  | BEBOP_RESULT_NULL
  | BEBOP_RESULT_INVALID.

#[global] Instance Bebop_Result_eq_dec : EqDecision Bebop_Result.
Proof. solve_decision. Defined.

(** [result == BEBOP_RESULT_OK]. *)
Definition is_ok (r : Bebop_Result) : bool :=
  match r with BEBOP_RESULT_OK => true | _ => false end.

Definition BEBOP_WIRE_SIZE_LEN : Z := 4.

(** ** The platform

    [HOST_LE] is the byte order of the machine, [BEBOP_WIRE_ASSUME_LE] the
    build option that selects [memcpy] of multi-byte values instead of the
    portable byte-wise code.  The option may only be set on a little-endian
    machine, which is [PlatformOk]. *)
Class Platform := { HOST_LE : bool; BEBOP_WIRE_ASSUME_LE : bool }.

Class PlatformOk `{Platform} : Prop :=
  platform_ok : BEBOP_WIRE_ASSUME_LE = true → HOST_LE = true.

(** The default build: [BEBOP_WIRE_ASSUME_LE] is 1 unless it is overridden. *)
Definition default_platform : Platform := {| HOST_LE := true; BEBOP_WIRE_ASSUME_LE := true |}.
(** The portable build on a big-endian machine. *)
Definition big_endian_platform : Platform := {| HOST_LE := false; BEBOP_WIRE_ASSUME_LE := false |}.

#[export] Instance default_platform_ok : @PlatformOk default_platform.
Proof. done. Qed.
#[export] Instance big_endian_platform_ok : @PlatformOk big_endian_platform.
Proof. done. Qed.

(** The value of an integer object whose bytes were set by [memcpy], and the
    bytes of an integer object. *)
Definition host_value `{Platform} (l : list Z) : Z :=
  if HOST_LE then le_value l else le_value (rev l).
Definition host_bytes `{Platform} (n : nat) (z : Z) : list Z :=
  if HOST_LE then le_bytes n z else rev (le_bytes n z).

(** ** Scalar types *)

(** [int64_t seconds; int32_t nanos; int32_t offset_ms] *)
Record Bebop_Timestamp : Set := mkTimestamp {
  ts_seconds : Z;
  ts_nanos : Z;
  ts_offset_ms : Z
}.

(** [int64_t seconds; int32_t nanos], packed. *)
Record Bebop_Duration : Set := mkDuration {
  du_seconds : Z;
  du_nanos : Z
}.

(** [uint8_t bytes[16]] *)
Record Bebop_UUID : Set := mkUUID { uuid_bytes : list Z }.

Definition int_ok (w v : Z) : Prop := - 2 ^ (w - 1) ≤ v < 2 ^ (w - 1).
Definition uint_ok (w v : Z) : Prop := 0 ≤ v < 2 ^ w.

Definition timestamp_ok (t : Bebop_Timestamp) : Prop :=
  int_ok 64 (ts_seconds t) ∧ int_ok 32 (ts_nanos t) ∧ int_ok 32 (ts_offset_ms t).
Definition duration_ok (d : Bebop_Duration) : Prop :=
  int_ok 64 (du_seconds d) ∧ int_ok 32 (du_nanos d).
Definition uuid_ok (u : Bebop_UUID) : Prop :=
  length (uuid_bytes u) = 16%nat ∧ bytes_ok (uuid_bytes u).

(** The object representation of the two structs, as [memcpy] sees it. *)
Definition timestamp_host_bytes `{Platform} (t : Bebop_Timestamp) : list Z :=
  host_bytes 8 (to_unsigned 64 (ts_seconds t)) ++
  host_bytes 4 (to_unsigned 32 (ts_nanos t)) ++
  host_bytes 4 (to_unsigned 32 (ts_offset_ms t)).
Definition timestamp_of_host_bytes `{Platform} (l : list Z) : Bebop_Timestamp :=
  mkTimestamp (to_signed 64 (host_value (take 8 l)))
              (to_signed 32 (host_value (take 4 (drop 8 l))))
              (to_signed 32 (host_value (take 4 (drop 12 l)))).
Definition duration_host_bytes `{Platform} (d : Bebop_Duration) : list Z :=
  host_bytes 8 (to_unsigned 64 (du_seconds d)) ++
  host_bytes 4 (to_unsigned 32 (du_nanos d)).
Definition duration_of_host_bytes `{Platform} (l : list Z) : Bebop_Duration :=
  mkDuration (to_signed 64 (host_value (take 8 l)))
             (to_signed 32 (host_value (take 4 (drop 8 l)))).

(** ** Views

    [Bebop_String], [Bebop_Bytes] and [Bebop_View] are the same struct, a data
    pointer and a length.  The pointer is an offset into the object it points
    into ([view_mem]); [None] is NULL. *)
Record Bebop_View : Type := mkView {
  view_mem : list Z;
  view_data : option Z;
  view_length : Z
}.

(** A view a caller may pass: [view_length] bytes can be read at the pointer. *)
Definition view_ok (v : Bebop_View) : Prop :=
  ∃ d, view_data v = Some d ∧ 0 ≤ d ∧ 0 ≤ view_length v ∧
       d + view_length v ≤ zlen (view_mem v) ∧ zlen (view_mem v) < 2 ^ 63 ∧
       bytes_ok (view_mem v).

(** The bytes a view denotes. *)
Definition view_bytes (v : Bebop_View) : list Z :=
  match view_data v with
  | Some d => take (Z.to_nat (view_length v)) (drop (Z.to_nat d) (view_mem v))
  | None => []
  end.

(** ** The codec interface *)

(** What the wire format document promises for a scalar type [A]: its size, the
    values it can hold, its encoding and its decoding, with their laws. *)
Record codec (A : Type) := Codec {
  cd_size : nat;
  cd_valid : A → Prop;
  cd_enc : A → list Z;
  cd_dec : list Z → A;
  cd_enc_length : ∀ v, cd_valid v → length (cd_enc v) = cd_size;
  cd_enc_ok : ∀ v, cd_valid v → bytes_ok (cd_enc v);
  cd_dec_enc : ∀ v, cd_valid v → cd_dec (cd_enc v) = v;
  cd_dec_valid : ∀ l, length l = cd_size → bytes_ok l → cd_valid (cd_dec l)
}.
Arguments cd_size {A} _.
Arguments cd_valid {A} _.
Arguments cd_enc {A} _.
Arguments cd_dec {A} _.

#[local] Obligation Tactic := idtac.

Lemma le_value_uint_ok l n w :
  length l = n → w = 8 * Z.of_nat n → bytes_ok l → uint_ok w (le_value l).
Proof.
  intros Hl Hw Hb. pose proof (le_value_bound l Hb) as H.
  rewrite pow256 in H by zlia. unfold zlen in H. unfold uint_ok. subst. lia.
Qed.

(** Unsigned integers of [n] bytes, little-endian. *)
Program Definition uint_codec (n : nat) : codec Z := {|
  cd_size := n;
  cd_valid := uint_ok (8 * Z.of_nat n);
  cd_enc v := le_bytes n v;
  cd_dec l := le_value l
|}.
Next Obligation. intros. apply length_le_bytes. Qed.
Next Obligation. intros. apply le_bytes_ok. Qed.
Next Obligation.
  intros n v Hv. apply le_value_le_bytes_small. by rewrite pow256 by lia.
Qed.
Next Obligation. intros. eapply le_value_uint_ok; eauto. Qed.

(** Signed integers of [n] bytes, little-endian two's complement. *)
Program Definition int_codec (n : nat) (Hn : (0 < n)%nat) : codec Z := {|
  cd_size := n;
  cd_valid := int_ok (8 * Z.of_nat n);
  cd_enc v := le_bytes n (to_unsigned (8 * Z.of_nat n) v);
  cd_dec l := to_signed (8 * Z.of_nat n) (le_value l)
|}.
Next Obligation. intros. apply length_le_bytes. Qed.
Next Obligation. intros. apply le_bytes_ok. Qed.
Next Obligation.
  intros n Hn v Hv. cbn beta. rewrite le_value_le_bytes_small.
  - apply to_signed_unsigned; [lia|done].
  - rewrite pow256 by lia. apply to_unsigned_range; lia.
Qed.
Next Obligation.
  intros n Hn l Hl Hb. apply to_signed_range; [lia|].
  by eapply le_value_uint_ok.
Qed.

Definition i8_codec : codec Z := int_codec 1 (Nat.lt_0_succ 0).
Definition i16_codec : codec Z := int_codec 2 (Nat.lt_0_succ 1).
Definition i32_codec : codec Z := int_codec 4 (Nat.lt_0_succ 3).
Definition i64_codec : codec Z := int_codec 8 (Nat.lt_0_succ 7).
Definition i128_codec : codec Z := int_codec 16 (Nat.lt_0_succ 15).

(** Booleans: one byte, any nonzero byte is true. *)
Program Definition bool_codec : codec bool := {|
  cd_size := 1;
  cd_valid _ := True;
  cd_enc b := [if b then 1 else 0];
  cd_dec l := match l with b :: _ => negb (b =? 0) | [] => false end
|}.
Next Obligation. done. Qed.
Next Obligation. intros []; repeat constructor; unfold byte_ok; lia. Qed.
Next Obligation. by intros []. Qed.
Next Obligation. done. Qed.

(** UUIDs: sixteen raw bytes. *)
Program Definition uuid_codec : codec Bebop_UUID := {|
  cd_size := 16;
  cd_valid := uuid_ok;
  cd_enc u := uuid_bytes u;
  cd_dec l := mkUUID l
|}.
Next Obligation. by intros v []. Qed.
Next Obligation. by intros v []. Qed.
Next Obligation. by intros []. Qed.
Next Obligation. done. Qed.

Definition timestamp_enc (t : Bebop_Timestamp) : list Z :=
  le_bytes 8 (to_unsigned 64 (ts_seconds t)) ++
  le_bytes 4 (to_unsigned 32 (ts_nanos t)) ++
  le_bytes 4 (to_unsigned 32 (ts_offset_ms t)).
Definition timestamp_dec (l : list Z) : Bebop_Timestamp :=
  mkTimestamp (to_signed 64 (le_value (take 8 l)))
              (to_signed 32 (le_value (take 4 (drop 8 l))))
              (to_signed 32 (le_value (take 4 (drop 12 l)))).
Definition duration_enc (d : Bebop_Duration) : list Z :=
  le_bytes 8 (to_unsigned 64 (du_seconds d)) ++
  le_bytes 4 (to_unsigned 32 (du_nanos d)).
Definition duration_dec (l : list Z) : Bebop_Duration :=
  mkDuration (to_signed 64 (le_value (take 8 l)))
             (to_signed 32 (le_value (take 4 (drop 8 l)))).

Lemma int_field n v k :
  (0 < n)%nat → int_ok (8 * Z.of_nat n) v →
  to_signed (8 * Z.of_nat n) (le_value (take n (le_bytes n (to_unsigned (8 * Z.of_nat n) v) ++ k))) = v.
Proof.
  intros Hn Hv. rewrite take_app_le by (rewrite length_le_bytes; lia).
  rewrite take_ge by (rewrite length_le_bytes; lia).
  apply (cd_dec_enc _ (int_codec n Hn) v Hv).
Qed.

Lemma drop_le_bytes n z k : drop n (le_bytes n z ++ k) = k.
Proof. apply drop_app_length'. by rewrite length_le_bytes. Qed.

Lemma slice_uint_ok l i n w :
  bytes_ok l → (i + n ≤ length l)%nat → w = 8 * Z.of_nat n →
  uint_ok w (le_value (take n (drop i l))).
Proof.
  intros Hb Hl Hw. eapply le_value_uint_ok; [|exact Hw|by apply Forall_take, Forall_drop].
  rewrite length_take, length_drop. lia.
Qed.

Program Definition timestamp_codec : codec Bebop_Timestamp := {|
  cd_size := 16; cd_valid := timestamp_ok; cd_enc := timestamp_enc; cd_dec := timestamp_dec
|}.
Next Obligation. intros. unfold timestamp_enc. by rewrite !length_app, !length_le_bytes. Qed.
Next Obligation. intros. unfold timestamp_enc. rewrite !Forall_app. auto with bebop. Qed.
Next Obligation.
  intros [s n o] (Hs & Hn & Ho). unfold timestamp_dec, timestamp_enc. cbn [ts_seconds ts_nanos ts_offset_ms] in *.
  change 12%nat with (8 + 4)%nat. rewrite <- drop_drop, !drop_le_bytes.
  rewrite <- (app_nil_r (le_bytes 4 (to_unsigned 32 o))).
  f_equal; [apply (int_field 8)|apply (int_field 4)|apply (int_field 4)]; done || lia.
Qed.
Next Obligation.
  intros l Hl Hb. unfold timestamp_dec, timestamp_ok; cbn [ts_seconds ts_nanos ts_offset_ms].
  split_and!; (apply to_signed_range; [lia|]);
    [apply (slice_uint_ok l 0 8)|apply (slice_uint_ok l 8 4)|apply (slice_uint_ok l 12 4)]; done || lia.
Qed.

Program Definition duration_codec : codec Bebop_Duration := {|
  cd_size := 12; cd_valid := duration_ok; cd_enc := duration_enc; cd_dec := duration_dec
|}.
Next Obligation. intros. unfold duration_enc. by rewrite !length_app, !length_le_bytes. Qed.
Next Obligation. intros. unfold duration_enc. rewrite !Forall_app. auto with bebop. Qed.
Next Obligation.
  intros [s n] (Hs & Hn). unfold duration_dec, duration_enc. cbn [du_seconds du_nanos] in *.
  rewrite !drop_le_bytes. rewrite <- (app_nil_r (le_bytes 4 (to_unsigned 32 n))).
  f_equal; [apply (int_field 8)|apply (int_field 4)]; done || lia.
Qed.
Next Obligation.
  intros l Hl Hb. unfold duration_dec, duration_ok; cbn [du_seconds du_nanos].
  split_and!; (apply to_signed_range; [lia|]);
    [apply (slice_uint_ok l 0 8)|apply (slice_uint_ok l 8 4)]; done || lia.
Qed.

(** ** Host byte order *)

Lemma host_value_bytes `{Platform} n z :
  0 ≤ z < 256 ^ Z.of_nat n → host_value (host_bytes n z) = z.
Proof.
  intros. unfold host_value, host_bytes. destruct HOST_LE;
    rewrite ?rev_involutive; by apply le_value_le_bytes_small.
Qed.

Lemma host_value_le `{PlatformOk} l :
  BEBOP_WIRE_ASSUME_LE = true → host_value l = le_value l.
Proof. intros E. unfold host_value. by rewrite platform_ok. Qed.

Lemma host_bytes_le `{PlatformOk} n z :
  BEBOP_WIRE_ASSUME_LE = true → host_bytes n z = le_bytes n z.
Proof. intros E. unfold host_bytes. by rewrite platform_ok. Qed.

Lemma zlen_host_bytes `{Platform} n z : zlen (host_bytes n z) = Z.of_nat n.
Proof. unfold host_bytes. destruct HOST_LE; unfold zlen; rewrite ?length_rev, ?length_le_bytes; done. Qed.

Lemma host_bytes_ok `{Platform} n z : bytes_ok (host_bytes n z).
Proof. unfold host_bytes. destruct HOST_LE; [|apply Forall_rev]; apply le_bytes_ok. Qed.

#[export] Hint Rewrite @zlen_host_bytes : bebop.
#[export] Hint Resolve @host_bytes_ok : bebop.

Lemma timestamp_host_le `{Platform} :
  HOST_LE = true → timestamp_host_bytes = timestamp_enc ∧ timestamp_of_host_bytes = timestamp_dec.
Proof.
  unfold timestamp_host_bytes, timestamp_of_host_bytes, host_bytes, host_value.
  by intros ->.
Qed.

Lemma duration_host_le `{Platform} :
  HOST_LE = true → duration_host_bytes = duration_enc ∧ duration_of_host_bytes = duration_dec.
Proof.
  unfold duration_host_bytes, duration_of_host_bytes, host_bytes, host_value.
  by intros ->.
Qed.
