(* ===== verification/Bits.v ===== *)
(** The bit helpers at the top of [bebop/src/bebop_wire.c]: population count,
    count of trailing zeros, and the little-endian load and store of one, two or
    four bytes.  The set bits of a mask, in increasing order, are the list [bits];
    the lemmas relate the helpers to it. *)
From stdpp Require Export sorting.
From S2P Require Import Prelude.

#[global] Open Scope Z_scope.

(** ** Definitions *)

(** The positions of the bits of [v] that are set, below [n]. *)
Definition bits (n v : Z) : list Z := filter (λ i, Z.testbit v i = true) (seqZ 0 n).

(** [__builtin_popcount] on 32 bits: the number of set bits. *)
Definition bebop_wire_popcount32 (value : Z) : Z := zlen (bits 32 value).

(** The portable branch of the same function. *)
Definition popcount32_portable (value : Z) : Z :=
  let value := u32 (value - Z.land (Z.shiftr value 1) 0x55555555) in
  let value := u32 (Z.land value 0x33333333 + Z.land (Z.shiftr value 2) 0x33333333) in
  let value := Z.land (u32 (value + Z.shiftr value 4)) 0x0f0f0f0f in
  Z.shiftr (u32 (value * 0x01010101)) 24.

(** [__builtin_ctz]: the lowest set bit, undefined for zero. *)
Definition bebop_wire_ctz32 (value : Z) : option Z := head (bits 32 value).

(** The portable branch of the same function, a loop that does not end for zero. *)
Fixpoint ctz32_portable (fuel : nat) (value count : Z) : option Z :=
  match fuel with
  | O => None
  | S fuel => if Z.land value 1 =? 0 then ctz32_portable fuel (Z.shiftr value 1) (u32 (count + 1))
              else Some count
  end.

Definition bebop_wire_load_le (mem : list Z) (data width : Z) : option Z :=
  b0 ← load mem data;
  if 1 <? width then
    b1 ← load mem (data + 1);
    let value := Z.lor b0 (Z.shiftl b1 8) in
    if 2 <? width then
      b2 ← load mem (data + 2);
      b3 ← load mem (data + 3);
      Some (Z.lor (Z.lor value (Z.shiftl b2 16)) (u32 (Z.shiftl b3 24)))
    else Some value
  else Some b0.

(** The bytes the store leaves at the destination, which it advances by their number. *)
Definition bebop_wire_store_le (value width : Z) : list Z :=
  [u8 value] ++
  (if 1 <? width then
     [u8 (Z.shiftr value 8)] ++
     (if 2 <? width then [u8 (Z.shiftr value 16); u8 (Z.shiftr value 24)] else [])
   else []).

(** ** Lists of set bits *)

Lemma elem_of_bits n v i : i ∈ bits n v ↔ Z.testbit v i = true ∧ 0 ≤ i < n.
Proof. unfold bits. by rewrite list_elem_of_filter, elem_of_seqZ, Z.add_0_l. Qed.

Lemma seqZ_split m n i : 0 ≤ i < n → seqZ m n = seqZ m i ++ (m + i) :: seqZ (m + i + 1) (n - i - 1).
Proof.
  intros Hi. replace n with (i + (n - i)) at 1 by lia. rewrite seqZ_app by lia.
  f_equal. rewrite seqZ_cons by lia. do 2 f_equal; lia.
Qed.

Lemma StronglySorted_seqZ m n : StronglySorted Z.lt (seqZ m n).
Proof.
  unfold seqZ. generalize (Z.to_nat n). intros k. generalize 0%nat as s.
  induction k as [|k IH]; intros s; cbn; constructor; [apply IH|].
  apply Forall_fmap, Forall_forall. intros x Hx%list_elem_of_In%in_seq. cbn. lia.
Qed.

Lemma StronglySorted_filter' {A} (R : A → A → Prop) (P : A → Prop) `{∀ x, Decision (P x)} (l : list A) :
  StronglySorted R l → StronglySorted R (filter P l).
Proof.
  induction 1 as [|x l Hs IH Hf]; [constructor|].
  rewrite filter_cons. case_decide; [|done]. constructor; [done|].
  rewrite Forall_forall in Hf |- *. intros y Hy. apply Hf. by apply list_elem_of_filter in Hy as [_ Hy].
Qed.

Lemma bits_sorted n v : StronglySorted Z.lt (bits n v).
Proof. apply StronglySorted_filter', StronglySorted_seqZ. Qed.

Lemma filter_ext_in {A} (P Q : A → Prop) `{∀ x, Decision (P x)} `{∀ x, Decision (Q x)} (l : list A) :
  (∀ x, x ∈ l → P x ↔ Q x) → filter P l = filter Q l.
Proof.
  induction l as [|x l IH]; intros Hx; [done|]. rewrite !filter_cons.
  rewrite IH by (intros; apply Hx; by right). specialize (Hx x ltac:(by left)).
  repeat case_decide; tauto || done.
Qed.

Lemma filter_none {A} (P : A → Prop) `{∀ x, Decision (P x)} (l : list A) : (∀ x, x ∈ l → ¬ P x) → filter P l = [].
Proof.
  induction l as [|x l IH]; intros Hx; [done|]. rewrite filter_cons_False by (apply Hx; by left).
  apply IH. intros; apply Hx. by right.
Qed.

Lemma filter_all {A} (P : A → Prop) `{∀ x, Decision (P x)} (l : list A) : (∀ x, x ∈ l → P x) → filter P l = l.
Proof.
  induction l as [|x l IH]; intros Hx; [done|]. rewrite filter_cons_True by (apply Hx; by left).
  f_equal. apply IH. intros; apply Hx. by right.
Qed.

(** A mask without bits from [n] on has all its bits below [n]. *)
Lemma bits_widen n m v : 0 ≤ n ≤ m → 0 ≤ v < 2 ^ n → bits m v = bits n v.
Proof.
  intros Hn Hv. unfold bits. replace m with (n + (m - n)) by lia. rewrite seqZ_app, filter_app by lia.
  rewrite (filter_none _ (seqZ (0 + n) (m - n))); [by rewrite app_nil_r|].
  intros i Hi%elem_of_seqZ. rewrite <- (Z.mod_small v (2 ^ n)) by done.
  rewrite Z.mod_pow2_bits_high by lia. done.
Qed.

Lemma bits_nil_inv n v : 0 ≤ n → 0 ≤ v < 2 ^ n → bits n v = [] → v = 0.
Proof.
  intros Hn Hv E. apply Z.bits_inj'. intros i Hi. rewrite Z.bits_0.
  destruct (Z.testbit v i) eqn:Ei; [|done]. exfalso.
  assert (i ∈ bits n v) as Hin; [|rewrite E in Hin; by apply not_elem_of_nil in Hin].
  apply elem_of_bits. split; [done|]. split; [done|].
  destruct (Z_lt_dec i n); [done|]. rewrite <- (Z.mod_small v (2 ^ n)) in Ei by done.
  rewrite Z.mod_pow2_bits_high in Ei by lia. done.
Qed.

Lemma bits_0 n : bits n 0 = [].
Proof. apply filter_none. intros i _. by rewrite Z.bits_0. Qed.

(** The bits below a bit: [mask & (bit - 1)]. *)
Lemma bits_below n v i : 0 ≤ i ≤ n → bits n (Z.land v (2 ^ i - 1)) = filter (λ j, j < i) (bits n v).
Proof.
  intros Hi. unfold bits. rewrite list_filter_filter. apply filter_ext_in. intros j Hj%elem_of_seqZ.
  rewrite Z.land_spec, andb_true_iff. change (2 ^ i - 1) with (2 ^ i + -1).
  replace (2 ^ i + -1) with (Z.ones i) by (rewrite Z.ones_equiv; lia).
  destruct (Z_lt_dec j i).
  - rewrite Z.ones_spec_low by lia. tauto.
  - rewrite Z.ones_spec_high by lia. split; [by intros []|lia].
Qed.

(** [mask & bit] tests one bit. *)
Lemma land_bit v i : 0 ≤ i → (Z.land v (Z.shiftl 1 i) =? 0) = negb (Z.testbit v i).
Proof.
  intros Hi. rewrite Z.shiftl_1_l. destruct (Z.testbit v i) eqn:E; cbn.
  - apply Z.eqb_neq. intros H0. assert (Z.testbit (Z.land v (2 ^ i)) i = false) by (by rewrite H0, Z.bits_0).
    rewrite Z.land_spec, E, Z.pow2_bits_true in *; done.
  - apply Z.eqb_eq, Z.bits_inj'. intros j Hj. rewrite Z.land_spec, Z.bits_0.
    destruct (Z.eq_dec i j) as [->|Hne]; [by rewrite E|]. by rewrite Z.pow2_bits_false, andb_false_r.
Qed.

(** Clearing the lowest bit: [mask & (mask - 1)]. *)
Lemma testbit_split v c i :
  0 ≤ c → 0 ≤ i → (∀ j, 0 ≤ j < c → Z.testbit v j = false) → Z.testbit v c = true →
  Z.testbit (Z.land v (v - 1)) i = Z.testbit v i && negb (i =? c).
Proof.
  intros Hc Hi Hlow Hbit. rewrite Z.land_spec.
  assert (Hv : v = 2 ^ c * (2 * (v / 2 ^ (c + 1)) + 1)).
  { assert (Hm : v mod 2 ^ c = 0).
    { apply Z.bits_inj'. intros j Hj. rewrite Z.bits_0. destruct (Z_lt_dec j c).
      - rewrite Z.mod_pow2_bits_low by lia. apply Hlow; lia.
      - by rewrite Z.mod_pow2_bits_high by lia. }
    rewrite (Z.div_mod v (2 ^ c)) at 1 by lia. rewrite Hm, Z.add_0_r. f_equal.
    rewrite Z.pow_add_r, <- Z.div_div by lia. change (2 ^ 1) with 2.
    rewrite (Z.div_mod (v / 2 ^ c) 2) at 1 by lia. f_equal.
    rewrite <- Z.bit0_mod, <- Z.shiftr_div_pow2, Z.shiftr_spec by lia.
    replace (0 + c) with c by lia. by rewrite Hbit. }
  destruct (Z_lt_dec i c) as [Hlt|Hge]; [by rewrite Hlow by lia|].
  assert (Hp : 0 < 2 ^ c) by (apply Z.pow_pos_nonneg; lia).
  assert (Hq : ∃ q, v / 2 ^ (c + 1) = q ∧ v = 2 ^ c * (2 * q + 1)) by eauto.
  destruct Hq as (q&Eq&Ev). clear Hv. rewrite Z.pow_add_r in Eq by lia. change (2 ^ 1) with 2 in Eq.
  destruct (Z.eqb_spec i c) as [->|Hne]; cbn [negb].
  - rewrite andb_false_r. apply andb_false_iff; right.
    rewrite Z.testbit_eqb by lia. replace ((v - 1) / 2 ^ c) with (q * 2).
    + by rewrite Z.mod_mul.
    + apply Z.div_unique with (2 ^ c - 1); [lia|]. rewrite Ev. ring.
  - assert (E : (v - 1) / 2 ^ (c + 1) = v / 2 ^ (c + 1)).
    { rewrite Z.pow_add_r by lia. change (2 ^ 1) with 2. rewrite Eq. symmetry.
      apply Z.div_unique with (2 ^ c - 1); [lia|]. rewrite Ev. ring. }
    assert (Hs : ∀ w, Z.testbit w i = Z.testbit (w / 2 ^ (c + 1)) (i - (c + 1))).
    { intros w. rewrite <- Z.shiftr_div_pow2, Z.shiftr_spec by lia. f_equal. lia. }
    rewrite (Hs v), (Hs (v - 1)), E. by rewrite andb_diag, andb_true_r.
Qed.

Lemma head_bits n v c l :
  bits n v = c :: l → 0 ≤ c < n ∧ Z.testbit v c = true ∧ (∀ j, 0 ≤ j < c → Z.testbit v j = false).
Proof.
  intros E. assert (Hc : c ∈ bits n v) by (rewrite E; by left). apply elem_of_bits in Hc as [Hb Hc].
  split_and!; [lia|lia|done|]. intros j Hj. destruct (Z.testbit v j) eqn:Ej; [|done]. exfalso.
  assert (Hin : j ∈ bits n v) by (apply elem_of_bits; split; [done|lia]).
  pose proof (bits_sorted n v) as Hs. rewrite E in Hs, Hin.
  apply StronglySorted_inv in Hs as [_ Hf]. rewrite Forall_forall in Hf.
  apply elem_of_cons in Hin as [->|Hin]; [lia|]. specialize (Hf j Hin). lia.
Qed.

Lemma bits_clear_lowest n v c l : bits n v = c :: l → bits n (Z.land v (v - 1)) = l.
Proof.
  intros E. destruct (head_bits n v c l E) as (Hc&Hb&Hlow).
  transitivity (filter (λ j, j ≠ c) (bits n v)).
  - unfold bits. rewrite list_filter_filter. apply filter_ext_in. intros j Hj%elem_of_seqZ.
    rewrite (testbit_split v c j), andb_true_iff, negb_true_iff, Z.eqb_neq by (done || lia). tauto.
  - rewrite E, filter_cons_False by tauto. apply filter_all. intros j Hj.
    pose proof (bits_sorted n v) as Hs. rewrite E in Hs. apply StronglySorted_inv in Hs as [_ Hf].
    rewrite Forall_forall in Hf. specialize (Hf j Hj). lia.
Qed.

Lemma popcount_range v : 0 ≤ bebop_wire_popcount32 v ≤ 32.
Proof.
  unfold bebop_wire_popcount32. split; [apply zlen_nonneg|]. unfold zlen, bits.
  pose proof (length_filter (λ i, Z.testbit v i = true) (seqZ 0 32)). rewrite length_seqZ in *. lia.
Qed.

(** The bits of a mask that an [or] of single bits built. *)
Lemma testbit_or_bits l v i :
  0 ≤ i → Forall (λ x, 0 ≤ x) l →
  Z.testbit (foldl (λ m x, Z.lor m (Z.shiftl 1 x)) v l) i = Z.testbit v i || bool_decide (i ∈ l).
Proof.
  intros Hi. revert v. induction l as [|x l IH]; intros v Hl; cbn.
  - rewrite bool_decide_false by apply not_elem_of_nil. by rewrite orb_false_r.
  - apply Forall_cons in Hl as [Hx Hl]. rewrite IH by done.
    rewrite Z.lor_spec, Z.shiftl_1_l, Z.pow2_bits_eqb by done. rewrite <- orb_assoc. f_equal.
    destruct (Z.eqb_spec x i) as [->|Hne]; cbn; [by rewrite bool_decide_true by by left|].
    apply bool_decide_ext. rewrite elem_of_cons. intuition congruence.
Qed.

(** ** Loads and stores *)

(** A byte above the bytes already loaded. *)
Lemma lor_shift x b k : 0 ≤ k → 0 ≤ x < 2 ^ k → Z.lor x (Z.shiftl b k) = x + 2 ^ k * b.
Proof.
  intros Hk Hx. rewrite Z.lor_comm, Z.shiftl_mul_pow2 by done.
  rewrite (lor_add _ _ k); [lia|done|by apply Z.mod_mul, Z.pow_nonzero|done].
Qed.

Lemma load_le_bytes mem data width l :
  bytes_ok mem → (width = 1 ∨ width = 2 ∨ width = 4) → load_bytes mem data width = Some l →
  bebop_wire_load_le mem data width = Some (le_value l).
Proof.
  intros Hm Hw El. pose proof (load_bytes_ok _ _ _ _ Hm El) as Hb.
  pose proof El as (Hd&_&Hl&->)%load_bytes_Some.
  assert (Hld : ∀ i, 0 ≤ i < width → ∃ b, load mem (data + i) = Some b ∧ drop (Z.to_nat (data + i)) mem = b :: drop (Z.to_nat (data + i + 1)) mem).
  { intros i Hi. destruct (load_in mem (data + i)) as [b Eb]; [lia|]. exists b. split; [done|].
    apply load_Some in Eb as [_ Eb]. replace (Z.to_nat (data + i + 1)) with (S (Z.to_nat (data + i))) by lia.
    by apply drop_S. }
  destruct (Hld 0 ltac:(lia)) as (b0&L0&D0). rewrite Z.add_0_r in L0, D0.
  unfold bebop_wire_load_le. rewrite L0. cbn [mbind option_bind].
  destruct Hw as [->|[->| ->]].
  - cbn [Z.ltb Z.compare Pos.compare Pos.compare_cont]. rewrite D0.
    change (Z.to_nat 1) with 1%nat. cbn. rewrite take_0. cbn. f_equal. lia.
  - destruct (Hld 1 ltac:(lia)) as (b1&L1&D1). rewrite D0, D1 in *. rewrite L1.
    change (Z.to_nat 2) with 2%nat in *. cbn in Hb |- *. rewrite take_0 in *. cbn.
    decompose_Forall_hyps. unfold byte_ok in *. f_equal. rewrite lor_shift by lia. lia.
  - destruct (Hld 1 ltac:(lia)) as (b1&L1&D1), (Hld 2 ltac:(lia)) as (b2&L2&D2), (Hld 3 ltac:(lia)) as (b3&L3&D3).
    replace (data + 1 + 1) with (data + 2) in D1 by lia. replace (data + 2 + 1) with (data + 3) in D2 by lia.
    rewrite D0, D1, D2, D3 in *. rewrite L1, L2, L3.
    change (Z.to_nat 4) with 4%nat in *. cbn in Hb |- *. rewrite take_0 in *. cbn.
    decompose_Forall_hyps. unfold byte_ok in *. f_equal.
    rewrite (lor_shift b0 b1 8), (lor_shift _ b2 16) by lia.
    rewrite u32_small by (rewrite Z.shiftl_mul_pow2 by lia; lia). rewrite (lor_shift _ b3 24) by lia. lia.
Qed.

Lemma store_le_spec value width :
  (width = 1 ∨ width = 2 ∨ width = 4) → bebop_wire_store_le value width = le_bytes (Z.to_nat width) value.
Proof.
  intros [->|[->| ->]]; [done|by rewrite le_bytes2|by rewrite le_bytes4].
Qed.
