(* ===== verification/Reader.v ===== *)
(** The reader of [bebop/src/bebop_wire.c]: a bounds-checked cursor over a
    buffer.  Each [bebop_reader_*] function is a definition over the state
    [Bebop_Reader]; its result is the returned [Bebop_Result] together with the
    value stored through the output pointer, if one was stored. *)
From S2P Require Import Prelude.
From S2P Require Import WireTypes.

(** The three pointers are offsets into the buffer [rd_mem]. *)
Record Bebop_Reader : Type := mkReader {
  rd_mem : list Z;
  rd_start : Z;
  rd_current : Z;
  rd_end : Z;
  rd_context : ptr
}.

Definition set_current (z : Z) (r : Bebop_Reader) : Bebop_Reader :=
  mkReader (rd_mem r) (rd_start r) z (rd_end r) (rd_context r).
Definition set_end (z : Z) (r : Bebop_Reader) : Bebop_Reader :=
  mkReader (rd_mem r) (rd_start r) (rd_current r) z (rd_context r).

(** What a reader operation that stores an [A] returns. *)
Abbreviation RD A := (C Bebop_Reader (Bebop_Result * option A)).

(** [(size_t)(reader->end - reader->current)] *)
Definition rd_avail : C Bebop_Reader Z := gets (λ r, u64 (rd_end r - rd_current r)).
(** [memcpy(_, reader->current, n)] *)
Definition rd_copy (n : Z) : C Bebop_Reader (list Z) :=
  λ r, lift (load_bytes (rd_mem r) (rd_current r) n) r.
(** [reader->current += n] *)
Definition rd_advance (n : Z) : C Bebop_Reader unit :=
  modify (λ r, set_current (rd_current r + n) r).
(** [*reader->current++] *)
Definition rd_next : C Bebop_Reader Z :=
  b ← (λ r, lift (load (rd_mem r) (rd_current r)) r);
  rd_advance 1;;
  mret b.

(** The NULL test and the bounds test every fixed-width read starts with. *)
Definition rd_guarded {A} (reader out : ptr) (n : Z) (body : C Bebop_Reader A) : RD A :=
  if is_null reader || is_null out then mret (BEBOP_RESULT_NULL, None)
  else
    avail ← rd_avail;
    if avail <? n then mret (BEBOP_RESULT_MALFORMED, None)
    else v ← body; mret (BEBOP_RESULT_OK, Some v).

(** ** Initialisation and cursor *)

Definition bebop_reader_init (reader context : ptr) (source : Bebop_View) : C Bebop_Reader Bebop_Result :=
  if is_null reader then mret BEBOP_RESULT_NULL
  else match view_data source with
  | None => mret BEBOP_RESULT_NULL
  | Some d =>
      modify (λ _, mkReader (view_mem source) d d (d + view_length source) context);;
      mret BEBOP_RESULT_OK
  end.

Definition bebop_reader_reset (reader : ptr) (source : Bebop_View) : C Bebop_Reader unit :=
  if is_null reader then mret tt
  else match view_data source with
  | None => mret tt
  | Some d => modify (λ r, mkReader (view_mem source) d d (d + view_length source) (rd_context r))
  end.

Definition bebop_reader_seek (reader : ptr) (position : Z) : C Bebop_Reader unit :=
  if is_null reader then mret tt
  else modify (λ r, if (rd_start r <=? position) && (position <=? rd_end r)
                    then set_current position r else r).

Definition bebop_reader_skip (reader : ptr) (amount : Z) : C Bebop_Reader unit :=
  if is_null reader then mret tt
  else modify (λ r, if amount <=? u64 (rd_end r - rd_current r)
                    then set_current (rd_current r + amount) r else r).

Definition bebop_reader_position (reader : ptr) : C Bebop_Reader Z :=
  if is_null reader then mret 0 else gets (λ r, u64 (rd_current r - rd_start r)).

Definition bebop_reader_data (reader : ptr) : C Bebop_Reader (option Z) :=
  if is_null reader then mret None else gets (λ r, Some (rd_current r)).

Definition bebop_reader_remaining (reader : ptr) : C Bebop_Reader Z :=
  if is_null reader then mret 0 else gets (λ r, u64 (rd_end r - rd_current r)).

(** [old_end] receives the previous end. *)
Definition bebop_reader_push_limit (reader : ptr) (len : Z) (old_end : ptr) : RD Z :=
  if is_null reader || is_null old_end then mret (BEBOP_RESULT_NULL, None)
  else
    avail ← rd_avail;
    if avail <? len then mret (BEBOP_RESULT_MALFORMED, None)
    else
      old ← gets rd_end;
      modify (λ r, set_end (rd_current r + len) r);;
      mret (BEBOP_RESULT_OK, Some old).

Definition bebop_reader_pop_limit (reader : ptr) (old_end : option Z) : C Bebop_Reader unit :=
  if is_null reader then mret tt
  else match old_end with
  | None => mret tt
  | Some e => modify (λ r, if rd_end r <=? e then set_end e r else r)
  end.

(** ** Scalars *)

(** The outcome of a read through a pointer cast: same result, reinterpreted value. *)
Definition cast_out {A B} (f : A → B) (c : RD A) : RD B :=
  '(result, v) ← c; mret (result, f <$> v).

Section Scalars.
Context `{Platform}.

Definition bebop_reader_read_byte (reader out : ptr) : RD Z :=
  rd_guarded reader out 1 rd_next.

Definition bebop_reader_read_u16 (reader out : ptr) : RD Z :=
  rd_guarded reader out 2
    (if BEBOP_WIRE_ASSUME_LE then
       l ← rd_copy 2; rd_advance 2;; mret (host_value l)
     else
       b0 ← rd_next; b1 ← rd_next;
       mret (Z.lor (Z.shiftl b1 8) b0)).

Definition bebop_reader_read_u32 (reader out : ptr) : RD Z :=
  rd_guarded reader out 4
    (if BEBOP_WIRE_ASSUME_LE then
       l ← rd_copy 4; rd_advance 4;; mret (host_value l)
     else
       b0 ← rd_next; b1 ← rd_next; b2 ← rd_next; b3 ← rd_next;
       mret (Z.lor (Z.lor (Z.lor (u32 (Z.shiftl b3 24)) (Z.shiftl b2 16)) (Z.shiftl b1 8)) b0)).

Definition bebop_reader_read_u64 (reader out : ptr) : RD Z :=
  rd_guarded reader out 8
    (if BEBOP_WIRE_ASSUME_LE then
       l ← rd_copy 8; rd_advance 8;; mret (host_value l)
     else
       b0 ← rd_next; b1 ← rd_next; b2 ← rd_next; b3 ← rd_next;
       b4 ← rd_next; b5 ← rd_next; b6 ← rd_next; b7 ← rd_next;
       mret (Z.lor (Z.lor (Z.lor (Z.lor (Z.lor (Z.lor (Z.lor
               (u64 (Z.shiftl b7 0x38)) (u64 (Z.shiftl b6 0x30))) (Z.shiftl b5 0x28))
               (Z.shiftl b4 0x20)) (Z.shiftl b3 0x18)) (Z.shiftl b2 0x10))
               (Z.shiftl b1 0x08)) b0)).

Definition bebop_reader_read_i8 (reader out : ptr) : RD Z :=
  cast_out (to_signed 8) (bebop_reader_read_byte reader out).
Definition bebop_reader_read_i16 (reader out : ptr) : RD Z :=
  cast_out (to_signed 16) (bebop_reader_read_u16 reader out).
Definition bebop_reader_read_i32 (reader out : ptr) : RD Z :=
  cast_out (to_signed 32) (bebop_reader_read_u32 reader out).
Definition bebop_reader_read_i64 (reader out : ptr) : RD Z :=
  cast_out (to_signed 64) (bebop_reader_read_u64 reader out).

Definition bebop_reader_read_bool (reader out : ptr) : RD bool :=
  if is_null reader || is_null out then mret (BEBOP_RESULT_NULL, None)
  else
    '(result, byte) ← bebop_reader_read_byte reader PTR;
    if is_ok result then mret (result, (λ b, negb (b =? 0)) <$> byte)
    else mret (result, None).

(** [Bebop_Float16] and [Bebop_BFloat16] values are their 16-bit patterns. *)
Definition bebop_reader_read_f16 (reader out : ptr) : RD Z :=
  rd_guarded reader out 2
    (if BEBOP_WIRE_ASSUME_LE then
       l ← rd_copy 2; rd_advance 2;; mret (host_value l)
     else
       b0 ← rd_next; b1 ← rd_next;
       let bits := Z.lor (Z.shiftl b1 8) b0 in
       mret (host_value (host_bytes 2 bits))).

Definition bebop_reader_read_bf16 (reader out : ptr) : RD Z :=
  rd_guarded reader out 2
    (if BEBOP_WIRE_ASSUME_LE then
       l ← rd_copy 2; rd_advance 2;; mret (host_value l)
     else
       b0 ← rd_next; b1 ← rd_next;
       let bits := Z.lor (Z.shiftl b1 8) b0 in
       mret (host_value (host_bytes 2 bits))).

(** [float] and [double] values are their bit patterns: the code only moves
    them with [memcpy]. *)
Definition bebop_reader_read_f32 (reader out : ptr) : RD Z :=
  if is_null reader || is_null out then mret (BEBOP_RESULT_NULL, None)
  else
    '(result, bits) ← bebop_reader_read_u32 reader PTR;
    if is_ok result then mret (result, (λ b, host_value (host_bytes 4 b)) <$> bits)
    else mret (result, None).

Definition bebop_reader_read_f64 (reader out : ptr) : RD Z :=
  if is_null reader || is_null out then mret (BEBOP_RESULT_NULL, None)
  else
    '(result, bits) ← bebop_reader_read_u64 reader PTR;
    if is_ok result then mret (result, (λ b, host_value (host_bytes 8 b)) <$> bits)
    else mret (result, None).

(** 128-bit integers, compiled with [BEBOP_WIRE_HAS_I128]. *)
Definition bebop_reader_read_u128 (reader out : ptr) : RD Z :=
  rd_guarded reader out 16
    (low ← rd_copy 8;
     high ← (λ r, lift (load_bytes (rd_mem r) (rd_current r + 8) 8) r);
     rd_advance 16;;
     mret (Z.lor (host_value low) (Z.shiftl (host_value high) 64))).

Definition bebop_reader_read_i128 (reader out : ptr) : RD Z :=
  rd_guarded reader out 16
    (low ← rd_copy 8;
     high ← (λ r, lift (load_bytes (rd_mem r) (rd_current r + 8) 8) r);
     rd_advance 16;;
     mret (to_signed 128 (Z.lor (host_value low) (Z.shiftl (host_value high) 64)))).

Definition bebop_reader_read_uuid (reader out : ptr) : RD Bebop_UUID :=
  rd_guarded reader out 16
    (l ← rd_copy 16; rd_advance 16;; mret (mkUUID l)).

Definition bebop_reader_read_timestamp (reader out : ptr) : RD Bebop_Timestamp :=
  rd_guarded reader out 16
    (l ← rd_copy 16; rd_advance 16;; mret (timestamp_of_host_bytes l)).

Definition bebop_reader_read_duration (reader out : ptr) : RD Bebop_Duration :=
  rd_guarded reader out 12
    (l ← rd_copy 12; rd_advance 12;; mret (duration_of_host_bytes l)).

(** ** Lengths, strings and byte arrays *)

(** The length is stored even when it is then rejected. *)
Definition bebop_reader_read_length (reader out : ptr) : RD Z :=
  '(result, v) ← bebop_reader_read_u32 reader out;
  match is_ok result, v with
  | true, Some len =>
      avail ← rd_avail;
      if avail <? len then mret (BEBOP_RESULT_MALFORMED, v) else mret (result, v)
  | _, _ => mret (result, v)
  end.

(** A view of [n] bytes at the cursor. *)
Definition rd_view (n : Z) : C Bebop_Reader Bebop_View :=
  gets (λ r, mkView (rd_mem r) (Some (rd_current r)) n).

Definition bebop_reader_read_string (reader out : ptr) : RD Bebop_View :=
  if is_null reader || is_null out then mret (BEBOP_RESULT_NULL, None)
  else
    '(result, v) ← bebop_reader_read_u32 reader PTR;
    match is_ok result, v with
    | true, Some length =>
        remaining ← rd_avail;
        if remaining <=? length then mret (BEBOP_RESULT_MALFORMED, None)
        else
          nul ← (λ r, lift (load (rd_mem r) (rd_current r + length)) r);
          if negb (nul =? 0) then mret (BEBOP_RESULT_MALFORMED, None)
          else
            let total := u64 (length + 1) in
            out ← rd_view length;
            rd_advance total;;
            mret (BEBOP_RESULT_OK, Some out)
    | _, _ => mret (result, None)
    end.

Definition bebop_reader_read_bytes (reader out : ptr) : RD Bebop_View :=
  if is_null reader || is_null out then mret (BEBOP_RESULT_NULL, None)
  else
    '(result, v) ← bebop_reader_read_length reader PTR;
    match is_ok result, v with
    | true, Some length =>
        out ← rd_view length;
        rd_advance length;;
        mret (BEBOP_RESULT_OK, Some out)
    | _, _ => mret (result, None)
    end.

Definition bebop_reader_read_fixed_bytes (reader : ptr) (byte_count : Z) (out : ptr) : RD Bebop_View :=
  if is_null reader || is_null out then mret (BEBOP_RESULT_NULL, None)
  else
    avail ← rd_avail;
    if avail <? byte_count then mret (BEBOP_RESULT_MALFORMED, None)
    else
      out ← rd_view byte_count;
      rd_advance byte_count;;
      mret (BEBOP_RESULT_OK, Some out).

End Scalars.

(** ** Invariant and specification *)

Record reader_ok (r : Bebop_Reader) : Prop := {
  ro_start : 0 ≤ rd_start r ≤ rd_current r;
  ro_current : rd_current r ≤ rd_end r;
  ro_end : rd_end r ≤ zlen (rd_mem r);
  ro_size : zlen (rd_mem r) < 2 ^ 63;
  ro_bytes : bytes_ok (rd_mem r)
}.

(** The bytes a reader can still read. *)
Definition rd_rest (r : Bebop_Reader) : list Z :=
  take (Z.to_nat (rd_end r - rd_current r)) (drop (Z.to_nat (rd_current r)) (rd_mem r)).

(** The reader after [n] more bytes. *)
Definition rd_adv (n : Z) (r : Bebop_Reader) : Bebop_Reader :=
  set_current (rd_current r + n) r.

(** [op] reads exactly one value encoded with [c]: it fails with
    [BEBOP_RESULT_MALFORMED] and leaves the reader alone when too few bytes are
    left, and otherwise consumes the encoding and stores the decoded value. *)
Definition reads_as {A} (op : RD A) (c : codec A) : Prop :=
  ∀ r, reader_ok r →
    (zlen (rd_rest r) < Z.of_nat (cd_size c) → op r = Some ((BEBOP_RESULT_MALFORMED, None), r)) ∧
    (∀ l k, rd_rest r = l ++ k → length l = cd_size c →
       op r = Some ((BEBOP_RESULT_OK, Some (cd_dec c l)), rd_adv (Z.of_nat (cd_size c)) r)).

Lemma zlen_rd_rest r : reader_ok r → zlen (rd_rest r) = rd_end r - rd_current r.
Proof.
  intros []. unfold rd_rest. rewrite zlen_take; [lia|]. rewrite zlen_drop; lia.
Qed.

Lemma rd_rest_ok r : reader_ok r → bytes_ok (rd_rest r).
Proof. intros []. by apply Forall_take, Forall_drop. Qed.

Lemma rd_adv_0 r : rd_adv 0 r = r.
Proof. destruct r; unfold rd_adv, set_current; simpl. f_equal. lia. Qed.

Lemma rd_adv_adv n m r : rd_adv m (rd_adv n r) = rd_adv (n + m) r.
Proof. unfold rd_adv, set_current; simpl. f_equal. lia. Qed.

Lemma rd_adv_ok n r :
  reader_ok r → 0 ≤ n ≤ zlen (rd_rest r) → reader_ok (rd_adv n r).
Proof.
  intros Hr Hn. rewrite zlen_rd_rest in Hn by done. destruct Hr. constructor; simpl; auto; lia.
Qed.

Lemma rd_rest_adv n r :
  reader_ok r → 0 ≤ n ≤ zlen (rd_rest r) → rd_rest (rd_adv n r) = drop (Z.to_nat n) (rd_rest r).
Proof.
  intros Hr Hn. pose proof (zlen_rd_rest r Hr) as E. rewrite E in Hn. destruct Hr.
  unfold rd_rest, rd_adv; simpl. rewrite skipn_firstn_comm, drop_drop. f_equal; [|f_equal]; lia.
Qed.

Lemma rd_rest_adv_app r l k :
  reader_ok r → rd_rest r = l ++ k → rd_rest (rd_adv (zlen l) r) = k.
Proof.
  intros Hr E. rewrite rd_rest_adv; [|done|rewrite E; zlia].
  unfold zlen. rewrite Nat2Z.id, E. apply drop_app_length.
Qed.

Lemma rd_adv_app_ok r l k :
  reader_ok r → rd_rest r = l ++ k → reader_ok (rd_adv (zlen l) r).
Proof. intros Hr E. apply rd_adv_ok; [done|]. rewrite E. zlia. Qed.

Lemma rd_avail_spec r : reader_ok r → rd_avail r = Some (zlen (rd_rest r), r).
Proof.
  intros Hr. pose proof (zlen_rd_rest r Hr) as E. destruct Hr.
  unfold rd_avail, gets. rewrite u64_small, E; [done|lia].
Qed.

Lemma rd_rest_load r i b :
  reader_ok r → 0 ≤ i → rd_rest r !! Z.to_nat i = Some b →
  load (rd_mem r) (rd_current r + i) = Some b.
Proof.
  intros [] Hi Hb. apply load_Some. split; [lia|].
  unfold rd_rest in Hb. apply lookup_take_Some in Hb as [Hb _]. rewrite lookup_drop in Hb.
  rewrite <- Hb. f_equal. lia.
Qed.

Lemma rd_copy_at r l1 l2 k :
  reader_ok r → rd_rest r = l1 ++ l2 ++ k →
  load_bytes (rd_mem r) (rd_current r + zlen l1) (zlen l2) = Some l2.
Proof.
  intros Hr E. pose proof (zlen_rd_rest r Hr) as Hz. rewrite E, !zlen_app in Hz. destruct Hr.
  apply load_bytes_Some. split_and!; try zlia.
  assert (E2 : drop (length l1) (rd_rest r) = l2 ++ k) by (rewrite E; apply drop_app_length).
  unfold rd_rest in E2. rewrite skipn_firstn_comm, drop_drop in E2.
  transitivity (take (length l2) (l2 ++ k)); [by rewrite take_app_length|].
  rewrite <- E2, take_take. unfold zlen in *. f_equal; [lia|]. f_equal. lia.
Qed.

Lemma rd_copy_spec r l k :
  reader_ok r → rd_rest r = l ++ k → rd_copy (zlen l) r = Some (l, r).
Proof.
  intros Hr E. unfold rd_copy. pose proof (rd_copy_at r [] l k Hr E) as H.
  unfold zlen in H at 1. simpl in H. rewrite Z.add_0_r in H. by rewrite H.
Qed.

Lemma rd_next_spec r b k :
  reader_ok r → rd_rest r = b :: k → rd_next r = Some (b, rd_adv 1 r).
Proof.
  intros Hr E. unfold rd_next, mbind, C_bind.
  pose proof (rd_rest_load r 0 b Hr ltac:(lia)) as H. rewrite E, Z.add_0_r in H.
  by rewrite H by done.
Qed.

(** *** Symbolic execution *)

Lemma rd_next_bind {B} r b k (K : Z → C Bebop_Reader B) :
  reader_ok r → rd_rest r = b :: k → (rd_next ≫= K) r = K b (rd_adv 1 r).
Proof. intros Hr E. by rewrite (C_bind_Some _ _ _ _ _ (rd_next_spec r b k Hr E)). Qed.

Lemma rd_next_inv r b k :
  reader_ok r → rd_rest r = b :: k → reader_ok (rd_adv 1 r) ∧ rd_rest (rd_adv 1 r) = k.
Proof.
  intros Hr E. split; [apply (rd_adv_app_ok r [b] k)|apply (rd_rest_adv_app r [b] k)]; done.
Qed.

(** Runs one [*reader->current++]. *)
Ltac rd_next_step :=
  match goal with
  | Hr : reader_ok ?r, E : rd_rest ?r = ?b :: ?k |- (rd_next ≫= _) ?r = _ =>
      rewrite (rd_next_bind r b k _ Hr E);
      let Hr' := fresh "Hr" in let E' := fresh "E" in
      destruct (rd_next_inv r b k Hr E) as [Hr' E']; clear Hr E
  end.

Lemma rd_memcpy_spec {A} r l k n (f : list Z → A) :
  reader_ok r → rd_rest r = l ++ k → n = zlen l →
  (l ← rd_copy n; rd_advance n;; mret (f l)) r = Some (f l, rd_adv n r).
Proof.
  intros Hr E ->. by rewrite (C_bind_Some _ _ _ _ _ (rd_copy_spec r l k Hr E)).
Qed.

Lemma rd_avail_bind {B} r (K : Z → C Bebop_Reader B) :
  reader_ok r → (rd_avail ≫= K) r = K (zlen (rd_rest r)) r.
Proof. intros Hr. by rewrite (C_bind_Some _ _ _ _ _ (rd_avail_spec r Hr)). Qed.

Lemma rd_guarded_reads {A} (c : codec A) n (body : C Bebop_Reader A) :
  n = Z.of_nat (cd_size c) →
  (∀ r l k, reader_ok r → rd_rest r = l ++ k → length l = cd_size c →
     body r = Some (cd_dec c l, rd_adv n r)) →
  reads_as (rd_guarded PTR PTR n body) c.
Proof.
  intros -> Hbody r Hr. unfold rd_guarded. cbn [is_null orb]. split.
  - intros Hs. rewrite rd_avail_bind by done.
    by destruct (Z.ltb_spec (zlen (rd_rest r)) (Z.of_nat (cd_size c))); [|lia].
  - intros l k E Hl. rewrite rd_avail_bind, E by done.
    destruct (Z.ltb_spec (zlen (l ++ k)) (Z.of_nat (cd_size c))) as [Hs|_].
    { unfold zlen in Hs. rewrite length_app in Hs. lia. }
    by rewrite (C_bind_Some _ _ _ _ _ (Hbody r l k Hr E Hl)).
Qed.

Lemma cast_out_reads {A B} (f : A → B) (op : RD A) (c : codec A) (c' : codec B) :
  reads_as op c → cd_size c' = cd_size c → (∀ l, cd_dec c' l = f (cd_dec c l)) →
  reads_as (cast_out f op) c'.
Proof.
  intros Hop Hs Hd r Hr. destruct (Hop r Hr) as [H1 H2]. unfold cast_out. rewrite Hs. split.
  - intros Hn. by rewrite (C_bind_Some _ _ _ _ _ (H1 Hn)).
  - intros l k E Hl. rewrite (C_bind_Some _ _ _ _ _ (H2 l k E Hl)). simpl. by rewrite Hd.
Qed.

(** A read that post-processes the value of another read on success. *)
Lemma map_ok_reads {A B} (f : A → B) (op : RD A) (c : codec A) (c' : codec B) :
  reads_as op c → cd_size c' = cd_size c → (∀ l, bytes_ok l → length l = cd_size c → cd_dec c' l = f (cd_dec c l)) →
  reads_as ('(result, v) ← op; if is_ok result then mret (result, f <$> v) else mret (result, None)) c'.
Proof.
  intros Hop Hs Hd r Hr. destruct (Hop r Hr) as [H1 H2]. rewrite Hs. split.
  - intros Hn. by rewrite (C_bind_Some _ _ _ _ _ (H1 Hn)).
  - intros l k E Hl. rewrite (C_bind_Some _ _ _ _ _ (H2 l k E Hl)). simpl. rewrite Hd; [done| |done].
    pose proof (rd_rest_ok r Hr) as Hb. rewrite E, Forall_app in Hb. tauto.
Qed.

(** *** The scalar readers *)

Section ScalarSpecs.
Context `{PlatformOk}.

Lemma read_byte_spec : reads_as (bebop_reader_read_byte PTR PTR) (uint_codec 1).
Proof.
  apply rd_guarded_reads; [done|]. intros r l k Hr E Hl. destruct l as [|b [|]]; try done.
  rewrite (rd_next_spec r b k Hr E). cbn [cd_dec uint_codec le_value]. do 2 f_equal. lia.
Qed.

Lemma le_value2 b0 b1 : byte_ok b0 → byte_ok b1 → Z.lor (Z.shiftl b1 8) b0 = le_value [b0; b1].
Proof. unfold byte_ok. intros. lor_bytes. cbn [le_value]. lia. Qed.

Ltac bytes_of Hr E :=
  let Hb := fresh "Hb" in pose proof (rd_rest_ok _ Hr) as Hb; rewrite E in Hb; simpl in Hb;
  decompose_Forall_hyps.

Lemma read_u16_body (f : Z → Z) :
  (∀ z, 0 ≤ z < 2 ^ 16 → f z = z) →
  reads_as (rd_guarded PTR PTR 2
    (if BEBOP_WIRE_ASSUME_LE then
       l ← rd_copy 2; rd_advance 2;; mret (host_value l)
     else
       b0 ← rd_next; b1 ← rd_next; mret (f (Z.lor (Z.shiftl b1 8) b0)))) (uint_codec 2).
Proof.
  intros Hf. apply rd_guarded_reads; [done|]. intros r l k Hr E Hl.
  destruct BEBOP_WIRE_ASSUME_LE eqn:EL.
  - rewrite (rd_memcpy_spec r l k) by (unfold zlen; rewrite ?Hl; done). by rewrite host_value_le.
  - destruct l as [|b0 [|b1 [|]]]; try done. simpl in E. bytes_of Hr E.
    do 2 rd_next_step. rewrite le_value2, Hf, !rd_adv_adv by
      (try done; unfold byte_ok in *; cbn [le_value]; lia). done.
Qed.

Lemma read_u16_spec : reads_as (bebop_reader_read_u16 PTR PTR) (uint_codec 2).
Proof. by apply (read_u16_body (λ z, z)). Qed.

Lemma read_f16_spec : reads_as (bebop_reader_read_f16 PTR PTR) (uint_codec 2).
Proof. apply (read_u16_body (λ z, host_value (host_bytes 2 z))). intros. by apply host_value_bytes. Qed.

Lemma read_bf16_spec : reads_as (bebop_reader_read_bf16 PTR PTR) (uint_codec 2).
Proof. apply read_f16_spec. Qed.

Lemma read_u32_spec : reads_as (bebop_reader_read_u32 PTR PTR) (uint_codec 4).
Proof.
  apply rd_guarded_reads; [done|]. intros r l k Hr E Hl. destruct BEBOP_WIRE_ASSUME_LE eqn:EL.
  - rewrite (rd_memcpy_spec r l k) by (unfold zlen; rewrite ?Hl; done). by rewrite host_value_le.
  - do 5 (destruct l as [|? l]; try done). simpl in E. bytes_of Hr E.
    do 4 rd_next_step. rewrite !rd_adv_adv. unfold byte_ok in *.
    rewrite u32_small by (rewrite Z.shiftl_mul_pow2; lia).
    unfold mret, C_ret. do 2 f_equal. lor_bytes. cbn [cd_dec uint_codec le_value]. lia.
Qed.

Lemma read_u64_spec : reads_as (bebop_reader_read_u64 PTR PTR) (uint_codec 8).
Proof.
  apply rd_guarded_reads; [done|]. intros r l k Hr E Hl. destruct BEBOP_WIRE_ASSUME_LE eqn:EL.
  - rewrite (rd_memcpy_spec r l k) by (unfold zlen; rewrite ?Hl; done). by rewrite host_value_le.
  - do 9 (destruct l as [|? l]; try done). simpl in E. bytes_of Hr E.
    do 8 rd_next_step. rewrite !rd_adv_adv. unfold byte_ok in *.
    rewrite !u64_small by (rewrite Z.shiftl_mul_pow2; lia).
    unfold mret, C_ret. do 2 f_equal. lor_bytes. cbn [cd_dec uint_codec le_value]. lia.
Qed.

Lemma read_i8_spec : reads_as (bebop_reader_read_i8 PTR PTR) i8_codec.
Proof. by apply (cast_out_reads _ _ (uint_codec 1)); [apply read_byte_spec|..]. Qed.
Lemma read_i16_spec : reads_as (bebop_reader_read_i16 PTR PTR) i16_codec.
Proof. by apply (cast_out_reads _ _ (uint_codec 2)); [apply read_u16_spec|..]. Qed.
Lemma read_i32_spec : reads_as (bebop_reader_read_i32 PTR PTR) i32_codec.
Proof. by apply (cast_out_reads _ _ (uint_codec 4)); [apply read_u32_spec|..]. Qed.
Lemma read_i64_spec : reads_as (bebop_reader_read_i64 PTR PTR) i64_codec.
Proof. by apply (cast_out_reads _ _ (uint_codec 8)); [apply read_u64_spec|..]. Qed.

Lemma read_bool_spec : reads_as (bebop_reader_read_bool PTR PTR) bool_codec.
Proof.
  apply (map_ok_reads _ _ (uint_codec 1)); [apply read_byte_spec|done|].
  intros [|b [|]] _ Hl; try done. cbn [cd_dec bool_codec uint_codec le_value].
  do 2 f_equal. lia.
Qed.

Lemma read_f32_spec : reads_as (bebop_reader_read_f32 PTR PTR) (uint_codec 4).
Proof.
  apply (map_ok_reads _ _ (uint_codec 4)); [apply read_u32_spec|done|].
  intros l Hb Hl. cbn [cd_dec uint_codec]. rewrite host_value_bytes; [done|].
  pose proof (le_value_bound l Hb) as B. unfold zlen in B. by rewrite Hl in B.
Qed.

Lemma read_f64_spec : reads_as (bebop_reader_read_f64 PTR PTR) (uint_codec 8).
Proof.
  apply (map_ok_reads _ _ (uint_codec 8)); [apply read_u64_spec|done|].
  intros l Hb Hl. cbn [cd_dec uint_codec]. rewrite host_value_bytes; [done|].
  pose proof (le_value_bound l Hb) as B. unfold zlen in B. by rewrite Hl in B.
Qed.

Lemma read_uuid_spec : reads_as (bebop_reader_read_uuid PTR PTR) uuid_codec.
Proof.
  apply rd_guarded_reads; [done|]. intros r l k Hr E Hl.
  by rewrite (rd_memcpy_spec r l k) by (unfold zlen; rewrite ?Hl; done).
Qed.

(** These are copied with [memcpy] whatever the build option is, so the wire
    format is only met on a little-endian machine. *)
Lemma read_timestamp_spec :
  HOST_LE = true → reads_as (bebop_reader_read_timestamp PTR PTR) timestamp_codec.
Proof.
  intros HL. apply rd_guarded_reads; [done|]. intros r l k Hr E Hl.
  rewrite (rd_memcpy_spec r l k) by (unfold zlen; rewrite ?Hl; done).
  by rewrite (proj2 (timestamp_host_le HL)).
Qed.

Lemma read_duration_spec :
  HOST_LE = true → reads_as (bebop_reader_read_duration PTR PTR) duration_codec.
Proof.
  intros HL. apply rd_guarded_reads; [done|]. intros r l k Hr E Hl.
  rewrite (rd_memcpy_spec r l k) by (unfold zlen; rewrite ?Hl; done).
  by rewrite (proj2 (duration_host_le HL)).
Qed.

Lemma read_128_body (f : Z → Z) :
  HOST_LE = true → ∀ r l k, reader_ok r → rd_rest r = l ++ k → length l = 16%nat →
  (low ← rd_copy 8;
   high ← (λ r, lift (load_bytes (rd_mem r) (rd_current r + 8) 8) r);
   rd_advance 16;;
   mret (f (Z.lor (host_value low) (Z.shiftl (host_value high) 64)))) r
  = Some (f (le_value l), rd_adv 16 r).
Proof.
  intros HL r l k Hr E Hl. pose proof (rd_rest_ok r Hr) as Hb. rewrite E in Hb.
  apply Forall_app in Hb as [Hb _].
  rewrite <- (take_drop 8 l) in E, Hb |- *. rewrite <- app_assoc in E.
  assert (H1 : zlen (take 8 l) = 8) by (unfold zlen; rewrite length_take; lia).
  assert (H2 : zlen (drop 8 l) = 8) by (unfold zlen; rewrite length_drop; lia).
  generalize dependent (take 8 l); intros lo. generalize dependent (drop 8 l); intros hi.
  intros H2 E Hb H1. apply Forall_app in Hb as [Hb1 Hb2].
  pose proof (rd_copy_spec r lo (hi ++ k) Hr E) as C1. rewrite H1 in C1.
  rewrite (C_bind_Some _ _ _ _ _ C1).
  pose proof (rd_copy_at r lo hi k Hr E) as C2. rewrite H1, H2 in C2.
  unfold mbind, C_bind at 1. rewrite C2. cbn.
  unfold host_value. rewrite HL, le_value_app, H1.
  pose proof (le_value_bound lo Hb1). pose proof (le_value_bound hi Hb2). rewrite H1, H2 in *.
  rewrite Z.lor_comm. rewrite Z.shiftl_mul_pow2 by lia.
  change (256 ^ 8) with (2 ^ 64) in *.
  rewrite (lor_add _ _ 64); [|lia|by apply Z.mod_mul|done].
  rewrite Z.add_comm, (Z.mul_comm (le_value hi)). done.
Qed.

Lemma read_u128_spec : HOST_LE = true → reads_as (bebop_reader_read_u128 PTR PTR) (uint_codec 16).
Proof. intros HL. apply rd_guarded_reads; [done|]. by apply (read_128_body (λ z, z)). Qed.

Lemma read_i128_spec :
  HOST_LE = true → reads_as (bebop_reader_read_i128 PTR PTR) i128_codec.
Proof. intros HL. apply rd_guarded_reads; [done|]. by apply (read_128_body (to_signed 128)). Qed.
End ScalarSpecs.

(** *** Lengths, strings and byte arrays, on every branch *)

(** The length prefix at the cursor and the bytes behind it. *)
Definition rd_prefix (r : Bebop_Reader) : Z := le_value (take 4 (rd_rest r)).
Definition rd_body (r : Bebop_Reader) : list Z := drop 4 (rd_rest r).

Section LengthSpecs.
Context `{PlatformOk}.

Lemma read_u32_branches r :
  reader_ok r →
  bebop_reader_read_u32 PTR PTR r =
  Some (if zlen (rd_rest r) <? 4 then ((BEBOP_RESULT_MALFORMED, None), r)
        else ((BEBOP_RESULT_OK, Some (rd_prefix r)), rd_adv 4 r)).
Proof.
  intros Hr. destruct (read_u32_spec r Hr) as [H1 H2].
  destruct (Z.ltb_spec (zlen (rd_rest r)) 4) as [Hs|Hs]; [by apply H1|].
  apply (H2 (take 4 (rd_rest r)) (drop 4 (rd_rest r))).
  - by rewrite take_drop.
  - rewrite length_take. unfold zlen in Hs. change (cd_size (uint_codec 4)) with 4%nat. lia.
Qed.

Lemma rd_prefix_range r : reader_ok r → 4 ≤ zlen (rd_rest r) → 0 ≤ rd_prefix r < 2 ^ 32.
Proof.
  intros Hr Hl. pose proof (le_value_bound (take 4 (rd_rest r)) ltac:(by apply Forall_take, rd_rest_ok)) as Hb.
  unfold zlen in *. rewrite length_take in Hb. unfold rd_prefix.
  rewrite Nat.min_l in Hb by lia. exact Hb.
Qed.

Lemma rd_adv4 r :
  reader_ok r → 4 ≤ zlen (rd_rest r) → reader_ok (rd_adv 4 r) ∧ rd_rest (rd_adv 4 r) = rd_body r.
Proof.
  intros Hr Hl. split; [apply rd_adv_ok; [done|lia]|].
  rewrite rd_rest_adv by (done || lia). done.
Qed.

Lemma read_length_branches r :
  reader_ok r →
  bebop_reader_read_length PTR PTR r =
  Some (if zlen (rd_rest r) <? 4 then ((BEBOP_RESULT_MALFORMED, None), r)
        else ((if zlen (rd_body r) <? rd_prefix r then BEBOP_RESULT_MALFORMED else BEBOP_RESULT_OK,
               Some (rd_prefix r)), rd_adv 4 r)).
Proof.
  intros Hr. unfold bebop_reader_read_length.
  unfold mbind, C_bind. rewrite (read_u32_branches r Hr).
  destruct (Z.ltb_spec (zlen (rd_rest r)) 4) as [Hs|Hs]; [done|]. cbn [is_ok].
  destruct (rd_adv4 r Hr Hs) as [Hr' E'].
  rewrite (rd_avail_spec _ Hr'), E'.
  by destruct (zlen (rd_body r) <? rd_prefix r).
Qed.

Lemma read_string_branches r :
  reader_ok r →
  bebop_reader_read_string PTR PTR r =
  Some (if zlen (rd_rest r) <? 4 then ((BEBOP_RESULT_MALFORMED, None), r)
        else if (zlen (rd_body r) <=? rd_prefix r) ||
                negb (default 0 (rd_body r !! Z.to_nat (rd_prefix r)) =? 0)
        then ((BEBOP_RESULT_MALFORMED, None), rd_adv 4 r)
        else ((BEBOP_RESULT_OK, Some (mkView (rd_mem r) (Some (rd_current r + 4)) (rd_prefix r))),
              rd_adv (4 + rd_prefix r + 1) r)).
Proof.
  intros Hr. unfold bebop_reader_read_string. cbn [is_null orb].
  unfold mbind, C_bind. rewrite (read_u32_branches r Hr).
  destruct (Z.ltb_spec (zlen (rd_rest r)) 4) as [Hs|Hs]; [done|]. cbn [is_ok].
  destruct (rd_adv4 r Hr Hs) as [Hr' E']. pose proof (rd_prefix_range r Hr Hs) as Hp.
  rewrite (rd_avail_spec _ Hr'), E'.
  destruct (Z.leb_spec (zlen (rd_body r)) (rd_prefix r)) as [Hl|Hl]; [done|]. cbn [orb].
  destruct (lookup_lt_is_Some_2 (rd_body r) (Z.to_nat (rd_prefix r))) as [b Hb];
    [unfold zlen in Hl; lia|].
  rewrite Hb. cbn [default].
  rewrite <- E' in Hb. rewrite (rd_rest_load _ (rd_prefix r) b Hr' ltac:(lia) Hb). cbn.
  destruct (negb (b =? 0)); [done|]. cbn.
  rewrite u64_small by lia. unfold mret, C_ret, rd_adv, set_current; cbn. do 3 f_equal. lia.
Qed.

Lemma read_bytes_branches r :
  reader_ok r →
  bebop_reader_read_bytes PTR PTR r =
  Some (if zlen (rd_rest r) <? 4 then ((BEBOP_RESULT_MALFORMED, None), r)
        else if zlen (rd_body r) <? rd_prefix r
        then ((BEBOP_RESULT_MALFORMED, None), rd_adv 4 r)
        else ((BEBOP_RESULT_OK, Some (mkView (rd_mem r) (Some (rd_current r + 4)) (rd_prefix r))),
              rd_adv (4 + rd_prefix r) r)).
Proof.
  intros Hr. unfold bebop_reader_read_bytes. cbn [is_null orb].
  unfold mbind, C_bind. rewrite (read_length_branches r Hr).
  destruct (Z.ltb_spec (zlen (rd_rest r)) 4) as [Hs|Hs]; [done|].
  destruct (zlen (rd_body r) <? rd_prefix r); [done|]. cbn.
  unfold mret, C_ret, rd_adv, set_current; cbn. do 3 f_equal. lia.
Qed.

Lemma read_fixed_bytes_branches r n :
  reader_ok r →
  bebop_reader_read_fixed_bytes PTR n PTR r =
  Some (if zlen (rd_rest r) <? n then ((BEBOP_RESULT_MALFORMED, None), r)
        else ((BEBOP_RESULT_OK, Some (mkView (rd_mem r) (Some (rd_current r)) n)), rd_adv n r)).
Proof.
  intros Hr. unfold bebop_reader_read_fixed_bytes. cbn [is_null orb].
  rewrite rd_avail_bind by done. by destruct (zlen (rd_rest r) <? n).
Qed.
End LengthSpecs.

(** A view taken from a reader denotes the bytes at its place in the rest. *)
Lemma rd_view_bytes r i n :
  reader_ok r → 0 ≤ i → 0 ≤ n → i + n ≤ zlen (rd_rest r) →
  view_bytes (mkView (rd_mem r) (Some (rd_current r + i)) n) =
  take (Z.to_nat n) (drop (Z.to_nat i) (rd_rest r)).
Proof.
  intros Hr Hi Hn Hl. rewrite zlen_rd_rest in Hl by done. destruct Hr.
  unfold view_bytes, rd_rest; cbn [view_data view_length view_mem].
  rewrite skipn_firstn_comm, take_take, drop_drop. f_equal; [lia|]. f_equal. lia.
Qed.

Lemma rd_view_ok r i n :
  reader_ok r → 0 ≤ i → 0 ≤ n → i + n ≤ zlen (rd_rest r) →
  view_ok (mkView (rd_mem r) (Some (rd_current r + i)) n).
Proof.
  intros Hr Hi Hn Hl. rewrite zlen_rd_rest in Hl by done. destruct Hr.
  exists (rd_current r + i). cbn. split_and!; auto; lia.
Qed.

(** ** Safety of arbitrary call sequences *)

(** A call a decoder makes.  [CallPush] keeps the limit it replaces on a stack,
    from which [CallPop] takes it back, as generated decoders do. *)
Inductive reader_call : Set :=
  | CallByte | CallU16 | CallU32 | CallU64 | CallI8 | CallI16 | CallI32 | CallI64 | CallBool
  | CallF16 | CallBF16 | CallF32 | CallF64 | CallU128 | CallI128
  | CallUuid | CallTimestamp | CallDuration
  | CallLength | CallString | CallBytes | CallFixedBytes (n : Z)
  | CallSeek (position : Z) | CallSkip (n : Z)
  | CallPush (len : Z) | CallPop.

Section Calls.
Context `{Platform}.

(** Drops the result of a read. *)
Definition quiet {A} (c : C Bebop_Reader A) (st : list Z) : C Bebop_Reader (list Z) := c;; mret st.

Definition run_call (c : reader_call) (st : list Z) : C Bebop_Reader (list Z) :=
  match c with
  | CallByte => quiet (bebop_reader_read_byte PTR PTR) st
  | CallU16 => quiet (bebop_reader_read_u16 PTR PTR) st
  | CallU32 => quiet (bebop_reader_read_u32 PTR PTR) st
  | CallU64 => quiet (bebop_reader_read_u64 PTR PTR) st
  | CallI8 => quiet (bebop_reader_read_i8 PTR PTR) st
  | CallI16 => quiet (bebop_reader_read_i16 PTR PTR) st
  | CallI32 => quiet (bebop_reader_read_i32 PTR PTR) st
  | CallI64 => quiet (bebop_reader_read_i64 PTR PTR) st
  | CallBool => quiet (bebop_reader_read_bool PTR PTR) st
  | CallF16 => quiet (bebop_reader_read_f16 PTR PTR) st
  | CallBF16 => quiet (bebop_reader_read_bf16 PTR PTR) st
  | CallF32 => quiet (bebop_reader_read_f32 PTR PTR) st
  | CallF64 => quiet (bebop_reader_read_f64 PTR PTR) st
  | CallU128 => quiet (bebop_reader_read_u128 PTR PTR) st
  | CallI128 => quiet (bebop_reader_read_i128 PTR PTR) st
  | CallUuid => quiet (bebop_reader_read_uuid PTR PTR) st
  | CallTimestamp => quiet (bebop_reader_read_timestamp PTR PTR) st
  | CallDuration => quiet (bebop_reader_read_duration PTR PTR) st
  | CallLength => quiet (bebop_reader_read_length PTR PTR) st
  | CallString => quiet (bebop_reader_read_string PTR PTR) st
  | CallBytes => quiet (bebop_reader_read_bytes PTR PTR) st
  | CallFixedBytes n => quiet (bebop_reader_read_fixed_bytes PTR n PTR) st
  | CallSeek p => quiet (bebop_reader_seek PTR p) st
  | CallSkip n => quiet (bebop_reader_skip PTR n) st
  | CallPush len =>
      '(result, old) ← bebop_reader_push_limit PTR len PTR;
      mret (match is_ok result, old with true, Some e => e :: st | _, _ => st end)
  | CallPop =>
      match st with
      | [] => mret []
      | e :: st => bebop_reader_pop_limit PTR (Some e);; mret st
      end
  end.

Fixpoint run_calls (cs : list reader_call) (st : list Z) : C Bebop_Reader (list Z) :=
  match cs with
  | [] => mret st
  | c :: cs => st ← run_call c st; run_calls cs st
  end.

(** The unsigned arguments of a call. *)
Definition call_ok (c : reader_call) : Prop :=
  match c with
  | CallFixedBytes n | CallSkip n | CallPush n => 0 ≤ n
  | _ => True
  end.

(** The limits on the stack are nested: each one contains the next, and the
    outermost one is the end of the input. *)
Fixpoint limits (e : Z) (st : list Z) (base : Z) : Prop :=
  match st with
  | [] => e = base
  | e' :: st => e ≤ e' ∧ limits e' st base
  end.

Lemma limits_le e st base : limits e st base → e ≤ base.
Proof. revert e; induction st as [|e' st IH]; intros e; cbn; [lia|]. intros [? ?%IH]. lia. Qed.

(** A call that only moves the cursor inside of the limit. *)
Definition moves (r r' : Bebop_Reader) : Prop :=
  reader_ok r' ∧ rd_mem r' = rd_mem r ∧ rd_start r' = rd_start r ∧ rd_end r' = rd_end r.

Definition tame {A} (c : C Bebop_Reader A) : Prop :=
  ∀ r, reader_ok r → ∃ a r', c r = Some (a, r') ∧ moves r r'.

Lemma tame_result {A} (c : C Bebop_Reader A) r p :
  c r = Some p → moves r p.2 → ∃ a r', c r = Some (a, r') ∧ moves r r'.
Proof. intros E Hm. exists p.1, p.2. by rewrite <- surjective_pairing. Qed.

Lemma moves_adv n r : reader_ok r → 0 ≤ n ≤ zlen (rd_rest r) → moves r (rd_adv n r).
Proof. intros Hr Hn. split_and!; try done. by apply rd_adv_ok. Qed.

Lemma moves_refl r : reader_ok r → moves r r.
Proof. intros Hr. by split_and!. Qed.

(** Whatever a fixed-width body stores, it is defined when enough bytes are left. *)
Lemma tame_guarded {A} n (body : C Bebop_Reader A) :
  0 ≤ n → (∀ r, reader_ok r → n ≤ zlen (rd_rest r) → ∃ v, body r = Some (v, rd_adv n r)) →
  tame (rd_guarded PTR PTR n body).
Proof.
  intros Hn Hb r Hr. unfold rd_guarded. cbn [is_null orb]. rewrite rd_avail_bind by done.
  destruct (Z.ltb_spec (zlen (rd_rest r)) n).
  - eexists _, r. split; [done|by apply moves_refl].
  - destruct (Hb r Hr) as [v E]; [lia|]. rewrite (C_bind_Some _ _ _ _ _ E).
    eexists _, _. split; [done|]. by apply moves_adv.
Qed.

Lemma tame_reads {A} (op : RD A) (c : codec A) : reads_as op c → tame op.
Proof.
  intros Hop r Hr. destruct (Hop r Hr) as [H1 H2].
  destruct (Z_lt_dec (zlen (rd_rest r)) (Z.of_nat (cd_size c))) as [Hs|Hs].
  - eexists _, r. split; [by apply H1|by apply moves_refl].
  - eexists _, _. split.
    + apply (H2 (take (cd_size c) (rd_rest r)) (drop (cd_size c) (rd_rest r))); [by rewrite take_drop|].
      rewrite length_take. unfold zlen in Hs. lia.
    + apply moves_adv; [done|lia].
Qed.

Lemma tame_quiet {A} (c : C Bebop_Reader A) st : tame c →
  ∀ r, reader_ok r → ∃ r', quiet c st r = Some (st, r') ∧ moves r r'.
Proof.
  intros Hc r Hr. destruct (Hc r Hr) as (a&r'&E&Hm). exists r'. split; [|done].
  unfold quiet. by rewrite (C_bind_Some _ _ _ _ _ E).
Qed.

Lemma rest_split r n :
  0 ≤ n ≤ zlen (rd_rest r) →
  ∃ l k, rd_rest r = l ++ k ∧ zlen l = n.
Proof.
  intros Hn. exists (take (Z.to_nat n) (rd_rest r)), (drop (Z.to_nat n) (rd_rest r)).
  split; [by rewrite take_drop|by apply zlen_take].
Qed.

Lemma tame_memcpy {A} n (f : list Z → A) : 0 ≤ n →
  tame (rd_guarded PTR PTR n (l ← rd_copy n; rd_advance n;; mret (f l))).
Proof.
  intros Hn. apply tame_guarded; [done|]. intros r Hr Hl.
  destruct (rest_split r n ltac:(lia)) as (l&k&E&Hz).
  exists (f l). by rewrite (rd_memcpy_spec r l k) by done.
Qed.

Lemma tame_halves {A} (f : Z → Z → A) :
  tame (rd_guarded PTR PTR 16
    (low ← rd_copy 8;
     high ← (λ r, lift (load_bytes (rd_mem r) (rd_current r + 8) 8) r);
     rd_advance 16;;
     mret (f (host_value low) (host_value high)))).
Proof.
  apply tame_guarded; [lia|]. intros r Hr Hl.
  destruct (rest_split r 8 ltac:(lia)) as (lo&k&E&Hz). rewrite zlen_rd_rest in Hl by done.
  pose proof (rd_copy_spec r lo k Hr E) as C1. rewrite Hz in C1.
  eexists. rewrite (C_bind_Some _ _ _ _ _ C1). destruct Hr.
  unfold mbind at 1, C_bind at 1. rewrite load_bytes_in by lia. done.
Qed.
End Calls.

Section Safety.
Context `{PlatformOk}.

Lemma rd_body_zlen r : reader_ok r → 4 ≤ zlen (rd_rest r) → zlen (rd_body r) = zlen (rd_rest r) - 4.
Proof. intros Hr Hl. unfold rd_body. change 4%nat with (Z.to_nat 4). apply zlen_drop. lia. Qed.

Lemma tame_length : tame (bebop_reader_read_length PTR PTR).
Proof.
  intros r1 Hr1. eapply tame_result; [by apply read_length_branches|].
  destruct (Z.ltb_spec (zlen (rd_rest r1)) 4); [by apply moves_refl|apply moves_adv; [done|lia]].
Qed.

Lemma tame_string : tame (bebop_reader_read_string PTR PTR).
Proof.
  intros r1 Hr1. eapply tame_result; [by apply read_string_branches|].
  destruct (Z.ltb_spec (zlen (rd_rest r1)) 4); [by apply moves_refl|].
  destruct (Z.leb_spec (zlen (rd_body r1)) (rd_prefix r1)); cbn [orb]; [apply moves_adv; [done|lia]|].
  rewrite rd_body_zlen in * by done. pose proof (rd_prefix_range r1 Hr1 ltac:(lia)).
  destruct (negb _); apply moves_adv; done || lia.
Qed.

Lemma tame_bytes : tame (bebop_reader_read_bytes PTR PTR).
Proof.
  intros r1 Hr1. eapply tame_result; [by apply read_bytes_branches|].
  destruct (Z.ltb_spec (zlen (rd_rest r1)) 4); [by apply moves_refl|].
  pose proof (rd_prefix_range r1 Hr1 ltac:(lia)). rewrite rd_body_zlen in * by done.
  destruct (Z.ltb_spec (zlen (rd_rest r1) - 4) (rd_prefix r1)); apply moves_adv; done || lia.
Qed.

Lemma tame_fixed_bytes n : 0 ≤ n → tame (bebop_reader_read_fixed_bytes PTR n PTR).
Proof.
  intros Hc.
  intros r1 Hr1. eapply tame_result; [by apply read_fixed_bytes_branches|].
  destruct (Z.ltb_spec (zlen (rd_rest r1)) n); [by apply moves_refl|apply moves_adv; [done|lia]].
Qed.

Lemma tame_seek position : tame (bebop_reader_seek PTR position).
Proof.
  intros r1 Hr1. unfold bebop_reader_seek, modify. cbn [is_null]. eexists _, _. split; [done|].
  destruct (Z.leb_spec (rd_start r1) position), (Z.leb_spec position (rd_end r1)); cbn [andb];
    try by apply moves_refl. split_and!; try done. destruct Hr1. constructor; cbn; auto; lia.
Qed.

Lemma tame_skip n : 0 ≤ n → tame (bebop_reader_skip PTR n).
Proof.
  intros Hc.
  intros r1 Hr1. unfold bebop_reader_skip, modify. cbn [is_null]. eexists _, _. split; [done|].
  pose proof (zlen_rd_rest r1 Hr1) as E. pose proof Hr1 as []. rewrite u64_small by lia.
  destruct (Z.leb_spec n (rd_end r1 - rd_current r1)); [|by apply moves_refl].
  apply (moves_adv n r1 Hr1). lia.
Qed.

Lemma run_call_safe c st r base :
  call_ok c → reader_ok r → limits (rd_end r) st base → base ≤ zlen (rd_mem r) →
  ∃ st' r', run_call c st r = Some (st', r') ∧ reader_ok r' ∧ rd_mem r' = rd_mem r ∧
            rd_start r' = rd_start r ∧ limits (rd_end r') st' base.
Proof.
  intros Hc Hr Hl Hbase.
  assert (Hq : ∀ A (op : C Bebop_Reader A), tame op → ∃ st' r', quiet op st r = Some (st', r') ∧
            reader_ok r' ∧ rd_mem r' = rd_mem r ∧ rd_start r' = rd_start r ∧ limits (rd_end r') st' base).
  { intros A op Ht. destruct (tame_quiet op st Ht r Hr) as (r'&E&Ho&Em&Es&Ee).
    exists st, r'. by rewrite Ee. }
  destruct c; cbn [run_call call_ok] in *; try (apply Hq; clear Hq).
  - eapply tame_reads, read_byte_spec.
  - eapply tame_reads, read_u16_spec.
  - eapply tame_reads, read_u32_spec.
  - eapply tame_reads, read_u64_spec.
  - eapply tame_reads, read_i8_spec.
  - eapply tame_reads, read_i16_spec.
  - eapply tame_reads, read_i32_spec.
  - eapply tame_reads, read_i64_spec.
  - eapply tame_reads, read_bool_spec.
  - eapply tame_reads, read_f16_spec.
  - eapply tame_reads, read_bf16_spec.
  - eapply tame_reads, read_f32_spec.
  - eapply tame_reads, read_f64_spec.
  - apply (tame_halves (λ lo hi, Z.lor lo (Z.shiftl hi 64))).
  - apply (tame_halves (λ lo hi, to_signed 128 (Z.lor lo (Z.shiftl hi 64)))).
  - by apply tame_memcpy.
  - by apply tame_memcpy.
  - by apply tame_memcpy.
  - by apply tame_length.
  - by apply tame_string.
  - by apply tame_bytes.
  - by apply tame_fixed_bytes.
  - by apply tame_seek.
  - by apply tame_skip.
  - unfold bebop_reader_push_limit. cbn [is_null orb]. unfold mbind at 1, C_bind at 1.
    rewrite rd_avail_bind by done. pose proof (zlen_rd_rest r Hr) as E.
    destruct (Z.ltb_spec (zlen (rd_rest r)) len); [by exists st, r|]. cbn.
    eexists _, _. split; [done|]. cbn. split_and!; auto; [|lia]. destruct Hr. constructor; cbn; auto; lia.
  - destruct st as [|e st]; [by exists [], r|]. cbn in Hl. destruct Hl as [He Hl].
    pose proof (limits_le _ _ _ Hl). cbn. eexists _, _. split; [done|].
    destruct (Z.leb_spec (rd_end r) e); [|lia]. cbn.
    split_and!; auto. destruct Hr. constructor; cbn; auto; lia.
Qed.

Lemma run_calls_safe cs st r base :
  Forall call_ok cs → reader_ok r → limits (rd_end r) st base → base ≤ zlen (rd_mem r) →
  ∃ st' r', run_calls cs st r = Some (st', r') ∧ reader_ok r' ∧ rd_mem r' = rd_mem r ∧
            rd_start r' = rd_start r ∧ limits (rd_end r') st' base.
Proof.
  intros Hc. revert st r. induction Hc as [|c cs Hc _ IH]; intros st r Hr Hl Hb; cbn.
  - exists st, r. by split_and!.
  - destruct (run_call_safe c st r base Hc Hr Hl Hb) as (st1&r1&E&Hr1&Em&Es&Hl1).
    rewrite (C_bind_Some _ _ _ _ _ E).
    destruct (IH st1 r1 Hr1 Hl1 ltac:(by rewrite Em)) as (st2&r2&E2&Hr2&Em2&Es2&Hl2).
    exists st2, r2. split_and!; auto; congruence.
Qed.

(** C5: no input makes a decoder read outside of its buffer.  On an arbitrary byte
    string, every sequence of reads, seeks, skips and nested limits, whatever
    results it ignores, is defined; the cursor stays between the start and the
    current limit, and the limits on the stack stay nested inside of the
    input, so that the input's end is back once every limit is popped. *)
Theorem reader_never_leaves_buffer mem context cs :
  bytes_ok mem → zlen mem < 2 ^ 63 → Forall call_ok cs →
  ∃ r0 st r, bebop_reader_init PTR context (mkView mem (Some 0) (zlen mem)) (mkReader [] 0 0 0 NULL)
               = Some (BEBOP_RESULT_OK, r0) ∧
    run_calls cs [] r0 = Some (st, r) ∧ rd_mem r = mem ∧
    0 ≤ rd_current r ≤ rd_end r ∧ limits (rd_end r) st (zlen mem).
Proof.
  intros Hb Hz Hc. pose proof (zlen_nonneg mem). set (r0 := mkReader mem 0 0 (zlen mem) context).
  assert (Hr0 : reader_ok r0) by (constructor; cbn; auto; lia).
  destruct (run_calls_safe cs [] r0 (zlen mem) Hc Hr0 eq_refl ltac:(cbn; lia)) as (st&r&E&Hr&Em&Es&Hl).
  exists r0, st, r. split_and!; [done|done|done| | |done]; destruct Hr; cbn in *; lia.
Qed.

(** every scalar reader implements its wire codec, in the [memcpy] build and in
    the byte-wise build: it fails with [BEBOP_RESULT_MALFORMED] and moves nothing
    when too few bytes are left, and otherwise consumes exactly the encoding and
    stores the value it decodes to.  The readers that copy structs or 64-bit
    halves in host order need a little-endian machine. *)
Theorem scalar_readers_correct :
  reads_as (bebop_reader_read_byte PTR PTR) (uint_codec 1) ∧
  reads_as (bebop_reader_read_u16 PTR PTR) (uint_codec 2) ∧
  reads_as (bebop_reader_read_u32 PTR PTR) (uint_codec 4) ∧
  reads_as (bebop_reader_read_u64 PTR PTR) (uint_codec 8) ∧
  reads_as (bebop_reader_read_i8 PTR PTR) i8_codec ∧
  reads_as (bebop_reader_read_i16 PTR PTR) i16_codec ∧
  reads_as (bebop_reader_read_i32 PTR PTR) i32_codec ∧
  reads_as (bebop_reader_read_i64 PTR PTR) i64_codec ∧
  reads_as (bebop_reader_read_bool PTR PTR) bool_codec ∧
  reads_as (bebop_reader_read_f16 PTR PTR) (uint_codec 2) ∧
  reads_as (bebop_reader_read_bf16 PTR PTR) (uint_codec 2) ∧
  reads_as (bebop_reader_read_f32 PTR PTR) (uint_codec 4) ∧
  reads_as (bebop_reader_read_f64 PTR PTR) (uint_codec 8) ∧
  reads_as (bebop_reader_read_uuid PTR PTR) uuid_codec ∧
  (HOST_LE = true →
   reads_as (bebop_reader_read_u128 PTR PTR) (uint_codec 16) ∧
   reads_as (bebop_reader_read_i128 PTR PTR) i128_codec ∧
   reads_as (bebop_reader_read_timestamp PTR PTR) timestamp_codec ∧
   reads_as (bebop_reader_read_duration PTR PTR) duration_codec).
Proof.
  split_and!; try exact read_byte_spec; try exact read_u16_spec; try exact read_u32_spec;
    try exact read_u64_spec.
  - exact read_i8_spec.
  - exact read_i16_spec.
  - exact read_i32_spec.
  - exact read_i64_spec.
  - exact read_bool_spec.
  - exact read_f16_spec.
  - exact read_bf16_spec.
  - exact read_f32_spec.
  - exact read_f64_spec.
  - exact read_uuid_spec.
  - intros HL. split_and!; [by apply read_u128_spec|by apply read_i128_spec
      |by apply read_timestamp_spec|by apply read_duration_spec].
Qed.

(** [bebop_reader_read_string] on every branch: a truncated length, a length
    that leaves no room for the terminator, or a byte other than NUL behind the
    text are rejected (the cursor stays behind the length once that was read);
    otherwise the view denotes exactly the bytes between the length and the
    terminator, and the cursor moves behind the terminator. *)
Theorem read_string_correct r :
  reader_ok r →
  bebop_reader_read_string PTR PTR r =
    Some (if zlen (rd_rest r) <? 4 then ((BEBOP_RESULT_MALFORMED, None), r)
          else if (zlen (rd_body r) <=? rd_prefix r) ||
                  negb (default 0 (rd_body r !! Z.to_nat (rd_prefix r)) =? 0)
          then ((BEBOP_RESULT_MALFORMED, None), rd_adv 4 r)
          else ((BEBOP_RESULT_OK, Some (mkView (rd_mem r) (Some (rd_current r + 4)) (rd_prefix r))),
                rd_adv (4 + rd_prefix r + 1) r)) ∧
  (4 ≤ zlen (rd_rest r) → rd_prefix r < zlen (rd_body r) →
   view_ok (mkView (rd_mem r) (Some (rd_current r + 4)) (rd_prefix r)) ∧
   view_bytes (mkView (rd_mem r) (Some (rd_current r + 4)) (rd_prefix r)) =
     take (Z.to_nat (rd_prefix r)) (rd_body r)).
Proof.
  intros Hr. split; [by apply read_string_branches|]. intros H4 Hlt.
  pose proof (rd_prefix_range r Hr H4). rewrite rd_body_zlen in Hlt by done.
  split; [apply rd_view_ok; done || lia|]. rewrite rd_view_bytes by (done || lia). done.
Qed.
End Safety.

(** ** Witnesses *)

Definition demo_input : list Z := [2; 0; 0; 0; 104; 105; 0; 9].

Lemma demo_input_ok : bytes_ok demo_input.
Proof. repeat constructor; cbn; lia. Qed.

Lemma reader_never_leaves_buffer_witness :
  ∃ r0 st r, bebop_reader_init PTR NULL (mkView demo_input (Some 0) (zlen demo_input)) (mkReader [] 0 0 0 NULL)
               = Some (BEBOP_RESULT_OK, r0) ∧
    @run_calls default_platform [CallPush 7; CallString; CallU64; CallPop; CallU16] [] r0 = Some (st, r) ∧
    rd_mem r = demo_input ∧ 0 ≤ rd_current r ≤ rd_end r ∧ limits (rd_end r) st 8.
Proof.
  apply (@reader_never_leaves_buffer default_platform _ demo_input NULL
           [CallPush 7; CallString; CallU64; CallPop; CallU16]).
  - exact demo_input_ok.
  - unfold zlen; cbn; lia.
  - repeat constructor; cbn; lia.
Defined.

Lemma read_string_witness :
  @bebop_reader_read_string default_platform PTR PTR (mkReader demo_input 0 0 8 NULL) =
    Some ((BEBOP_RESULT_OK, Some (mkView demo_input (Some 4) 2)), mkReader demo_input 0 7 8 NULL).
Proof.
  rewrite (proj1 (@read_string_correct default_platform _ (mkReader demo_input 0 0 8 NULL)
    ltac:(constructor; cbn; try (unfold zlen; cbn; lia); exact demo_input_ok))).
  reflexivity.
Defined.

(** The byte-wise build on a big-endian machine reads the little-endian value. *)
Lemma scalar_readers_witness :
  @bebop_reader_read_u32 big_endian_platform PTR PTR (mkReader demo_input 0 0 8 NULL) =
    Some ((BEBOP_RESULT_OK, Some 2), mkReader demo_input 0 4 8 NULL).
Proof.
  destruct (@scalar_readers_correct big_endian_platform _) as (_&_&H&_).
  refine (proj2 (H (mkReader demo_input 0 0 8 NULL) _) [2; 0; 0; 0] [104; 105; 0; 9] eq_refl eq_refl).
  constructor; cbn; try (unfold zlen; cbn; lia). exact demo_input_ok.
Defined.
