(* ===== verification/Arena.v ===== *)
(** The arena and the context of [bebop/src/bebop_wire.c], for one thread.

    The host allocator is code outside of the repository: it is the class
    [HostAllocator], with the documented behaviour of [malloc] as the class
    [HostAllocatorOk].  The heap records which regions are live with which
    size, so that a release of storage that is not live, or with another size
    than it was allocated with, is undefined behaviour of the model.  Sizes
    are those of an LP64 platform. *)
From S2P Require Import Prelude.
From S2P Require Import WireTypes.

(** ** The host heap *)

(** Answers the [t]-th request for [size] bytes while [live] maps the address
    of each live region to its size: an address, or NULL. *)
Class HostAllocator := host_alloc : ∀ (t : nat) (live : gmap Z Z) (size : Z), option Z.

(** [malloc] returns storage aligned for every type that overlaps no live region. *)
Class HostAllocatorOk `{HostAllocator} : Prop :=
  host_alloc_ok : ∀ t live size a,
    host_alloc t live size = Some a →
    0 < a ∧ a mod 16 = 0 ∧ a + size ≤ 2 ^ 64 ∧
    ∀ a' size', live !! a' = Some size' → a + size ≤ a' ∨ a' + size' ≤ a.

Record Heap : Type := mkHeap { hp_time : nat; hp_live : gmap Z Z }.

(** [alloc(NULL, 0, size, ctx)] of the allocation callback. *)
Definition alloc_new `{HostAllocator} (size : Z) : C Heap (option Z) :=
  λ h, match host_alloc (hp_time h) (hp_live h) size with
       | Some a => Some (Some a, mkHeap (S (hp_time h)) (<[a := size]> (hp_live h)))
       | None => Some (None, mkHeap (S (hp_time h)) (hp_live h))
       end.

(** [alloc(ptr, old_size, 0, ctx)] of the allocation callback. *)
Definition alloc_free (p old_size : Z) : C Heap unit :=
  λ h, if decide (hp_live h !! p = Some old_size)
       then Some (tt, mkHeap (hp_time h) (delete p (hp_live h)))
       else None.

(** ** Data *)

Record bebop_wire_arena_block_impl_t : Type := mkBlock {
  blk_addr : Z;
  blk_used : Z;
  blk_capacity : Z
}.

(** [sizeof] of the block header, of the arena and of the context. *)
Definition BEBOP_ARENA_OVERHEAD : Z := 24.
Definition sizeof_arena : Z := 72.
Definition sizeof_context : Z := 64.
(** [_Alignof(max_align_t)] *)
Definition BEBOP_ARENA_ALIGN : Z := 16.

Record Bebop_ArenaOptions : Type := mkArenaOptions {
  initial_block_size : Z;
  max_block_size : Z
}.

(** The list of blocks starts at [current_block] and follows [next]. *)
Record bebop_wire_arena_impl_t : Type := mkArena {
  ar_addr : Z;
  ar_blocks : list bebop_wire_arena_block_impl_t;
  ar_total_allocated : Z;
  ar_total_used : Z;
  ar_options : Bebop_ArenaOptions
}.

Record Bebop_ContextOptions : Type := mkContextOptions {
  arena_options : Bebop_ArenaOptions;
  initial_writer_size : Z;
  max_decode_depth : Z
}.

Record Bebop_Context : Type := mkContext {
  cx_addr : Z;
  cx_arena : bebop_wire_arena_impl_t;
  cx_options : Bebop_ContextOptions;
  cx_decode_depth : Z
}.

Definition set_blocks bs ar :=
  mkArena (ar_addr ar) bs (ar_total_allocated ar) (ar_total_used ar) (ar_options ar).
Definition set_totals a u ar :=
  mkArena (ar_addr ar) (ar_blocks ar) a u (ar_options ar).
Definition set_arena ar cx :=
  mkContext (cx_addr cx) ar (cx_options cx) (cx_decode_depth cx).
Definition set_depth d cx :=
  mkContext (cx_addr cx) (cx_arena cx) (cx_options cx) d.

Definition BEBOP_WIRE_DEFAULT_MAX_DECODE_DEPTH : Z := 64.

Definition bebop_context_options : Bebop_ContextOptions :=
  mkContextOptions (mkArenaOptions 4096 1048576) 1024 BEBOP_WIRE_DEFAULT_MAX_DECODE_DEPTH.

(** ** The arena *)

(** [(size + alignment - 1) & ~(alignment - 1)] in [size_t]. *)
Definition bebop_wire_align_size (size alignment : Z) : Z :=
  Z.land (u64 (size + alignment - 1)) (u64 (Z.lnot (alignment - 1))).

Section Arena.
Context `{HostAllocator}.

(** State of the arena functions: the heap and the arena. *)
Abbreviation AS := (Heap * bebop_wire_arena_impl_t)%type.

Definition on_heap {A S} (c : C Heap A) : C (Heap * S) A :=
  λ '(h, s), match c h with Some (a, h') => Some (a, (h', s)) | None => None end.
Definition get_arena : C AS bebop_wire_arena_impl_t := gets snd.
Definition modify_arena (f : bebop_wire_arena_impl_t → bebop_wire_arena_impl_t) : C AS unit :=
  modify (λ '(h, ar), (h, f ar)).

Definition bebop_wire_arena_allocate_block (arena : bebop_wire_arena_impl_t) (min_size : Z)
  : C Heap (option bebop_wire_arena_block_impl_t) :=
  let capacity := initial_block_size (ar_options arena) in
  let required := bebop_wire_align_size min_size BEBOP_ARENA_ALIGN in
  if max_block_size (ar_options arena) <? required then mret None
  else
    let capacity := if capacity <? required then required else capacity in
    let capacity := if max_block_size (ar_options arena) <? capacity
                    then max_block_size (ar_options arena) else capacity in
    let total_size := u64 (BEBOP_ARENA_OVERHEAD + capacity) in
    block ← alloc_new total_size;
    mret ((λ a, mkBlock a 0 capacity) <$> block).

(** [options] is NULL when it is [None]. *)
Definition bebop_wire_arena_create (options : option Bebop_ArenaOptions)
  : C Heap (option bebop_wire_arena_impl_t) :=
  match options with
  | None => mret None
  | Some o =>
      arena ← alloc_new sizeof_arena;
      mret ((λ a, mkArena a [] 0 0 o) <$> arena)
  end.

(** The loop of [bebop_wire_arena_destroy] and [bebop_wire_arena_reset]. *)
Fixpoint free_blocks (bs : list bebop_wire_arena_block_impl_t) : C Heap unit :=
  match bs with
  | [] => mret tt
  | b :: next =>
      alloc_free (blk_addr b) (u64 (BEBOP_ARENA_OVERHEAD + blk_capacity b));;
      free_blocks next
  end.

Definition bebop_wire_arena_destroy (arena : bebop_wire_arena_impl_t) : C Heap unit :=
  free_blocks (ar_blocks arena);;
  alloc_free (ar_addr arena) sizeof_arena.

Definition bebop_wire_arena_reset : C AS unit :=
  arena ← get_arena;
  on_heap (free_blocks (ar_blocks arena));;
  modify_arena (λ ar, set_totals 0 0 (set_blocks [] ar)).

(** [!current || used + aligned_size > current->capacity] *)
Definition needs_block (arena : bebop_wire_arena_impl_t) (aligned_size : Z) : bool :=
  match ar_blocks arena with
  | [] => true
  | current :: _ => blk_capacity current <? u64 (blk_used current + aligned_size)
  end.

(** First half of a round of [bebop_wire_arena_alloc]: install a new block when
    the current one is full; [false] when there is no storage for it. *)
Definition ensure_block (aligned_size : Z) : C AS bool :=
  arena ← get_arena;
  if needs_block arena aligned_size then
    new_block ← on_heap (bebop_wire_arena_allocate_block arena aligned_size);
    match new_block with
    | None => mret false
    | Some b =>
        modify_arena (λ ar,
          set_totals (u64 (ar_total_allocated ar + (BEBOP_ARENA_OVERHEAD + blk_capacity b)))
                     (ar_total_used ar) (set_blocks (b :: ar_blocks ar) ar));;
        mret true
    end
  else mret true.

(** Second half: take the bytes from the current block, or go round again. *)
Definition take_bytes (aligned_size : Z) (again : C AS (option Z)) : C AS (option Z) :=
  arena ← get_arena;
  match ar_blocks arena with
  | [] => ub
  | current :: next =>
      let old_used := blk_used current in
      if u64 (old_used + aligned_size) <=? blk_capacity current then
        modify_arena (λ ar,
          set_totals (ar_total_allocated ar) (u64 (ar_total_used ar + aligned_size))
            (set_blocks (mkBlock (blk_addr current) (u64 (old_used + aligned_size))
                                 (blk_capacity current) :: next) ar));;
        mret (Some (blk_addr current + BEBOP_ARENA_OVERHEAD + old_used))
      else again
  end.

(** The [while (true)] of [bebop_wire_arena_alloc]; running out of fuel is
    undefined, and [arena_alloc_spec] shows that one round is enough when no
    other thread interferes. *)
Fixpoint arena_alloc_loop (fuel : nat) (aligned_size : Z) : C AS (option Z) :=
  match fuel with
  | O => ub
  | S fuel =>
      ok ← ensure_block aligned_size;
      if (ok : bool) then take_bytes aligned_size (arena_alloc_loop fuel aligned_size)
      else mret None
  end.

Definition bebop_wire_arena_alloc (size : Z) : C AS (option Z) :=
  if size =? 0 then mret None
  else arena_alloc_loop 2 (bebop_wire_align_size size BEBOP_ARENA_ALIGN).

(** Returns the pointer and the [memcpy] it performed: destination, source and
    length. *)
Definition bebop_wire_arena_realloc (p : option Z) (old_size new_size : Z)
  : C AS (option Z * option (Z * Z * Z)) :=
  match p with
  | None => q ← bebop_wire_arena_alloc new_size; mret (q, None)
  | Some p =>
      if new_size =? 0 then mret (None, None)
      else if new_size <=? old_size then mret (Some p, None)
      else
        let aligned_old := bebop_wire_align_size old_size BEBOP_ARENA_ALIGN in
        let aligned_new := bebop_wire_align_size new_size BEBOP_ARENA_ALIGN in
        let move :=
          q ← bebop_wire_arena_alloc new_size;
          mret (q, (λ q, (q, p, old_size)) <$> q) in
        arena ← get_arena;
        match ar_blocks arena with
        | [] => move
        | current :: next =>
            let used := blk_used current in
            if p + aligned_old =? blk_addr current + BEBOP_ARENA_OVERHEAD + used then
              let extra := u64 (aligned_new - aligned_old) in
              if u64 (used + extra) <=? blk_capacity current then
                modify_arena (λ ar,
                  set_totals (ar_total_allocated ar) (u64 (ar_total_used ar + extra))
                    (set_blocks (mkBlock (blk_addr current) (u64 (used + extra))
                                         (blk_capacity current) :: next) ar));;
                mret (Some p, None)
              else move
            else move
        end
  end.

(** ** The context *)

(** [options] is NULL when it is [None]; the allocator of the options is the
    host allocator. *)
Definition bebop_context_new (options : option Bebop_ContextOptions) : C Heap (option Bebop_Context) :=
  let resolved := default bebop_context_options options in
  context ← alloc_new sizeof_context;
  match context with
  | None => mret None
  | Some a =>
      arena ← bebop_wire_arena_create (Some (arena_options resolved));
      match arena with
      | None => alloc_free a sizeof_context;; mret None
      | Some ar => mret (Some (mkContext a ar resolved 0))
      end
  end.

Definition bebop_context_free (context : option Bebop_Context) : C Heap unit :=
  match context with
  | None => mret tt
  | Some cx =>
      bebop_wire_arena_destroy (cx_arena cx);;
      alloc_free (cx_addr cx) sizeof_context
  end.

(** State of the functions on a live context. *)
Abbreviation CS := (Heap * Bebop_Context)%type.

Definition on_arena {A} (c : C AS A) : C CS A :=
  λ '(h, cx), match c (h, cx_arena cx) with
              | Some (a, (h', ar)) => Some (a, (h', set_arena ar cx))
              | None => None
              end.

Definition bebop_context_reset (context : ptr) : C CS unit :=
  if is_null context then mret tt
  else
    on_arena bebop_wire_arena_reset;;
    modify (λ '(h, cx), (h, set_depth 0 cx)).

Definition bebop_context_enter_decode (context : ptr) : C CS Bebop_Result :=
  if is_null context then mret BEBOP_RESULT_NULL
  else
    cx ← gets snd;
    let max_depth := max_decode_depth (cx_options cx) in
    let max_depth := if max_depth =? 0 then BEBOP_WIRE_DEFAULT_MAX_DECODE_DEPTH else max_depth in
    if max_depth <=? cx_decode_depth cx then mret BEBOP_RESULT_MALFORMED
    else
      modify (λ '(h, cx), (h, set_depth (u32 (cx_decode_depth cx + 1)) cx));;
      mret BEBOP_RESULT_OK.

Definition bebop_context_leave_decode (context : ptr) : C CS unit :=
  if is_null context then mret tt
  else modify (λ '(h, cx), (h, if 0 <? cx_decode_depth cx
                               then set_depth (cx_decode_depth cx - 1) cx else cx)).

Definition bebop_context_allocated (context : ptr) : C CS Z :=
  if is_null context then mret 0 else gets (λ s, ar_total_allocated (cx_arena s.2)).
Definition bebop_context_used (context : ptr) : C CS Z :=
  if is_null context then mret 0 else gets (λ s, ar_total_used (cx_arena s.2)).

Definition bebop_context_alloc (context : ptr) (size : Z) : C CS (option Z) :=
  if is_null context then mret None else on_arena (bebop_wire_arena_alloc size).

Definition bebop_context_realloc (context : ptr) (p : option Z) (old_size new_size : Z)
  : C CS (option Z * option (Z * Z * Z)) :=
  if is_null context then mret (None, None)
  else on_arena (bebop_wire_arena_realloc p old_size new_size).

Definition bebop_context_alloc_array (context : ptr) (count elem_size : Z) : C CS (option Z) :=
  if is_null context || (negb (elem_size =? 0) && (SIZE_MAX / elem_size <? count)) then mret None
  else on_arena (bebop_wire_arena_alloc (u64 (count * elem_size))).

End Arena.

(** ** Invariants *)

(** Live regions are nonempty, do not wrap around and do not overlap. *)
Definition heap_ok (live : gmap Z Z) : Prop :=
  ∀ a s, live !! a = Some s →
    0 < a ∧ 0 < s ∧ a + s ≤ 2 ^ 64 ∧
    ∀ a' s', live !! a' = Some s' → a ≠ a' → a + s ≤ a' ∨ a' + s' ≤ a.

Definition options_ok (o : Bebop_ArenaOptions) : Prop :=
  0 ≤ initial_block_size o < 2 ^ 63 ∧ 0 ≤ max_block_size o < 2 ^ 61.

Definition block_ok (o : Bebop_ArenaOptions) (b : bebop_wire_arena_block_impl_t) : Prop :=
  0 ≤ blk_used b ≤ blk_capacity b ∧ blk_capacity b ≤ max_block_size o ∧
  blk_used b mod 16 = 0 ∧ blk_addr b mod 16 = 0.

(** The storage a block and an arena own. *)
Definition block_region (b : bebop_wire_arena_block_impl_t) : Z * Z :=
  (blk_addr b, BEBOP_ARENA_OVERHEAD + blk_capacity b).
Definition footprint (ar : bebop_wire_arena_impl_t) : list (Z * Z) :=
  map block_region (ar_blocks ar) ++ [(ar_addr ar, sizeof_arena)].

Definition zsum (l : list Z) : Z := foldr Z.add 0 l.

(** The arena owns its footprint in the heap, next to the regions [L] of others. *)
Record arena_ok (L live : gmap Z Z) (ar : bebop_wire_arena_impl_t) : Prop := {
  ak_heap : heap_ok live;
  ak_live : live = list_to_map (footprint ar) ∪ L;
  ak_nodup : NoDup (footprint ar).*1;
  ak_frame : Forall (λ a, L !! a = None) (footprint ar).*1;
  ak_blocks : Forall (block_ok (ar_options ar)) (ar_blocks ar);
  ak_allocated : ar_total_allocated ar = u64 (zsum (map (snd ∘ block_region) (ar_blocks ar)));
  ak_used : ar_total_used ar = u64 (zsum (map blk_used (ar_blocks ar)));
  ak_options : options_ok (ar_options ar)
}.

Record context_ok (L live : gmap Z Z) (cx : Bebop_Context) : Prop := {
  ck_arena : arena_ok (<[cx_addr cx := sizeof_context]> L) live (cx_arena cx);
  ck_frame : L !! cx_addr cx = None
}.

(** The bytes handed out so far. *)
Definition granted (ar : bebop_wire_arena_impl_t) (x : Z) : Prop :=
  ∃ b, b ∈ ar_blocks ar ∧
       blk_addr b + BEBOP_ARENA_OVERHEAD ≤ x < blk_addr b + BEBOP_ARENA_OVERHEAD + blk_used b.

(** ** Lemmas *)

Lemma align16 size :
  0 ≤ size ≤ 2 ^ 64 - 16 →
  bebop_wire_align_size size BEBOP_ARENA_ALIGN = 16 * ((size + 15) / 16).
Proof.
  intros Hs. unfold bebop_wire_align_size, BEBOP_ARENA_ALIGN.
  rewrite (u64_small (size + 16 - 1)) by lia. replace (size + 16 - 1) with (size + 15) by lia.
  transitivity (Z.ldiff (size + 15) (Z.ones 4)).
  - apply Z.bits_inj'. intros n Hn. rewrite Z.land_spec, Z.ldiff_spec.
    destruct (Z_lt_dec n 64) as [Hlt|Hge].
    + unfold u64. rewrite Z.mod_pow2_bits_low by lia.
      change (16 - 1) with (Z.ones 4). by rewrite Z.lnot_spec.
    + rewrite (Z.bits_above_log2 (size + 15)); [done|lia|].
      destruct (Z.eq_dec (size + 15) 0) as [->|]; [simpl; lia|].
      apply Z.log2_lt_pow2; [lia|]. apply Z.lt_le_trans with (2 ^ 64); [lia|].
      apply Z.pow_le_mono_r; lia.
  - rewrite Z.ldiff_ones_r, Z.shiftl_mul_pow2, Z.shiftr_div_pow2 by lia.
    change (2 ^ 4) with 16. lia.
Qed.

Lemma align16_props size a :
  0 ≤ size ≤ 2 ^ 64 - 16 → a = bebop_wire_align_size size BEBOP_ARENA_ALIGN →
  size ≤ a < size + 16 ∧ a mod 16 = 0 ∧ (0 < size → 0 < a).
Proof. intros Hs ->. rewrite align16 by done. dlia. Qed.

Lemma align16_idem a :
  0 ≤ a ≤ 2 ^ 64 - 16 → a mod 16 = 0 → bebop_wire_align_size a BEBOP_ARENA_ALIGN = a.
Proof. intros Ha Hm. rewrite align16 by done. dlia. Qed.

(** Past [SIZE_MAX - 15] the rounding wraps around to zero. *)
Lemma align16_huge size :
  2 ^ 64 - 15 ≤ size < 2 ^ 64 → bebop_wire_align_size size BEBOP_ARENA_ALIGN = 0.
Proof.
  intros Hs. unfold bebop_wire_align_size, BEBOP_ARENA_ALIGN, u64.
  replace ((size + 16 - 1) mod 2 ^ 64) with (size + 15 - 2 ^ 64) by (apply Z.mod_unique with 1; lia).
  apply Z.bits_inj'. intros n Hn. rewrite Z.land_spec, Z.bits_0.
  destruct (Z_lt_dec n 4) as [Hlt|Hge].
  - rewrite Z.mod_pow2_bits_low by lia. change (16 - 1) with (Z.ones 4).
    rewrite Z.lnot_spec, Z.ones_spec_low by lia. apply andb_false_r.
  - replace (Z.testbit (size + 15 - 2 ^ 64) n) with false; [done|].
    rewrite <- (Z.mod_small (size + 15 - 2 ^ 64) (2 ^ 4)) by lia. by rewrite Z.mod_pow2_bits_high by lia.
Qed.

Lemma heap_ok_insert live a s :
  heap_ok live → 0 < a → 0 < s → a + s ≤ 2 ^ 64 →
  (∀ a' s', live !! a' = Some s' → a + s ≤ a' ∨ a' + s' ≤ a) → heap_ok (<[a := s]> live).
Proof.
  intros Hh Ha Hs Hw Hd a1 s1 Hq1. rewrite lookup_insert in Hq1. case_decide as E1; simplify_eq.
  - split_and!; auto. intros a2 s2 Hq2 Hne. rewrite lookup_insert_ne in Hq2 by done. eauto.
  - destruct (Hh _ _ Hq1) as (?&?&?&Hd1). split_and!; auto. intros a2 s2 Hq2 Hne.
    rewrite lookup_insert in Hq2. case_decide as E2; simplify_eq.
    + destruct (Hd _ _ Hq1); lia.
    + eauto.
Qed.

Lemma heap_ok_sub (live live' : gmap Z Z) : heap_ok live → live' ⊆ live → heap_ok live'.
Proof.
  intros Hh Hsub a s Ha. destruct (Hh a s) as (?&?&?&Hd); [by eapply lookup_weaken|].
  split_and!; auto. intros a' s' Ha'. apply Hd. by eapply lookup_weaken.
Qed.

Lemma heap_fresh live a s :
  heap_ok live → 0 < s →
  (∀ a' s', live !! a' = Some s' → a + s ≤ a' ∨ a' + s' ≤ a) → live !! a = None.
Proof.
  intros Hh Hs Hd. destruct (live !! a) as [s'|] eqn:E; [|done].
  destruct (Hh _ _ E) as (?&?&_). destruct (Hd _ _ E); lia.
Qed.

Section ArenaSpecs.
Context `{HostAllocatorOk}.

(** What a successful host allocation gives. *)
Lemma alloc_new_cases (size : Z) h :
  0 < size → heap_ok (hp_live h) →
  (∃ h', alloc_new size h = Some (None, h') ∧ hp_live h' = hp_live h) ∨
  (∃ a h', alloc_new size h = Some (Some a, h') ∧ hp_live h' = <[a := size]> (hp_live h) ∧
     hp_live h !! a = None ∧ a mod 16 = 0 ∧ heap_ok (hp_live h')).
Proof.
  intros Hs Hh. unfold alloc_new.
  destruct (host_alloc (hp_time h) (hp_live h) size) as [a|] eqn:E; [right|left; eauto].
  destruct (host_alloc_ok _ _ _ _ E) as (Ha&Hm&Hw&Hd).
  exists a, (mkHeap (S (hp_time h)) (<[a := size]> (hp_live h))). cbn.
  split_and!; [done|done|eauto using heap_fresh|done|by apply heap_ok_insert].
Qed.

Lemma alloc_free_live p s h :
  hp_live h !! p = Some s → alloc_free p s h = Some (tt, mkHeap (hp_time h) (delete p (hp_live h))).
Proof. intros E. unfold alloc_free. by rewrite decide_True. Qed.

Lemma heap_ok_delete live p : heap_ok live → heap_ok (delete p live).
Proof.
  intros Hh a s Ha. apply lookup_delete_Some in Ha as [_ Ha].
  destruct (Hh _ _ Ha) as (?&?&?&Hd). split_and!; auto.
  intros a' s' Ha'. apply lookup_delete_Some in Ha' as [_ Ha']. eauto.
Qed.

Lemma free_blocks_spec o bs t M :
  Forall (block_ok o) bs → options_ok o → NoDup (map block_region bs).*1 →
  Forall (λ a, M !! a = None) (map block_region bs).*1 →
  free_blocks bs (mkHeap t (list_to_map (map block_region bs) ∪ M)) = Some (tt, mkHeap t M).
Proof.
  intros Hb Ho. induction Hb as [|b bs Hb _ IH]; intros Hn Hf; cbn.
  - rewrite (left_id_L ∅ (∪)). done.
  - apply NoDup_cons in Hn as [Hn1 Hn2]. apply Forall_cons in Hf as [Hf1 Hf2].
    destruct Hb as (?&?&?), Ho as [_ ?]. unfold mbind, C_bind.
    rewrite alloc_free_live.
    + cbn. rewrite <- insert_union_l, delete_insert_id; [by apply IH|].
      apply lookup_union_None; split; [|done]. by apply not_elem_of_list_to_map_1.
    + cbn. rewrite <- insert_union_l, lookup_insert_eq.
      rewrite u64_small; [done|]. unfold BEBOP_ARENA_OVERHEAD. lia.
Qed.

Lemma block_live L live ar b :
  arena_ok L live ar → b ∈ ar_blocks ar →
  live !! blk_addr b = Some (BEBOP_ARENA_OVERHEAD + blk_capacity b).
Proof.
  intros [] Hb. rewrite ak_live0. apply lookup_union_Some_l.
  apply elem_of_list_to_map_1; [done|]. unfold footprint.
  apply elem_of_app; left. apply list_elem_of_In, in_map_iff. exists b.
  split; [done|by apply list_elem_of_In].
Qed.

Lemma u64_add_l a b : u64 (u64 a + b) = u64 (a + b).
Proof. apply Zplus_mod_idemp_l. Qed.

(** The head block after a grant of [n] more bytes. *)
Definition bump (n : Z) (ar : bebop_wire_arena_impl_t) : bebop_wire_arena_impl_t :=
  match ar_blocks ar with
  | [] => ar
  | current :: next =>
      set_totals (ar_total_allocated ar) (u64 (ar_total_used ar + n))
        (set_blocks (mkBlock (blk_addr current) (u64 (blk_used current + n))
                             (blk_capacity current) :: next) ar)
  end.

(** The arena after a new head block. *)
Definition push (b : bebop_wire_arena_block_impl_t) (ar : bebop_wire_arena_impl_t) :=
  set_totals (u64 (ar_total_allocated ar + (BEBOP_ARENA_OVERHEAD + blk_capacity b)))
             (ar_total_used ar) (set_blocks (b :: ar_blocks ar) ar).

Lemma bump_ok L live ar cur next n :
  arena_ok L live ar → ar_blocks ar = cur :: next →
  0 ≤ n → n mod 16 = 0 → blk_used cur + n ≤ blk_capacity cur →
  arena_ok L live (bump n ar).
Proof.
  intros Ho E Hn Hm Hr. unfold bump. rewrite E.
  pose proof (ak_blocks _ _ _ Ho) as Hb. rewrite E in Hb. apply Forall_cons in Hb as [Hc Hb].
  destruct Hc as (Hu & Hx & Ha & Hd). destruct (ak_options _ _ _ Ho) as [_ Hmax].
  assert (Hw : u64 (blk_used cur + n) = blk_used cur + n) by (apply u64_small; lia).
  destruct Ho as [hp lv nd fr bl al us op].
  assert (F : footprint (set_totals (ar_total_allocated ar) (u64 (ar_total_used ar + n))
    (set_blocks (mkBlock (blk_addr cur) (u64 (blk_used cur + n)) (blk_capacity cur) :: next) ar))
    = footprint ar) by (unfold footprint; cbn; by rewrite E).
  constructor; try rewrite F; cbn; auto.
  - constructor; [|done]. split_and!; cbn; try lia. rewrite Hw. dlia.
  - rewrite al, E. done.
  - rewrite us, E. cbn. rewrite Hw, u64_add_l. f_equal. lia.
Qed.

Lemma push_ok L live ar b :
  arena_ok L live ar → block_ok (ar_options ar) b → blk_used b = 0 →
  live !! blk_addr b = None → heap_ok (<[blk_addr b := BEBOP_ARENA_OVERHEAD + blk_capacity b]> live) →
  arena_ok L (<[blk_addr b := BEBOP_ARENA_OVERHEAD + blk_capacity b]> live) (push b ar).
Proof.
  intros [hp lv nd fr bl al us op] Hb Hz Hf Hh.
  assert (Hn : (list_to_map (footprint ar) : gmap Z Z) !! blk_addr b = None ∧ L !! blk_addr b = None)
    by (apply lookup_union_None; by rewrite <- lv).
  destruct Hn as [Hn HL]. constructor; cbn; auto.
  - by rewrite lv, insert_union_l.
  - apply NoDup_cons; split; [|done]. by apply not_elem_of_list_to_map_2.
  - rewrite al, u64_add_l. f_equal. apply Z.add_comm.
  - by rewrite us, Hz.
Qed.

(** The pointer the head block grants next. *)
Definition next_ptr (ar : bebop_wire_arena_impl_t) : Z :=
  match ar_blocks ar with
  | [] => 0
  | current :: _ => blk_addr current + BEBOP_ARENA_OVERHEAD + blk_used current
  end.

(** What a grant of [size] bytes at [p] promises. *)
Record fresh_region (live : gmap Z Z) (ar ar' : bebop_wire_arena_impl_t) (p size : Z) : Prop := {
  fr_new : ∀ x, p ≤ x < p + size → granted ar' x ∧ ¬ granted ar x;
  fr_old : ∀ x, granted ar x → granted ar' x;
  fr_live : ∃ a s, live !! a = Some s ∧ a < p ∧ p + size ≤ a + s;
  fr_align : p mod 16 = 8;
  fr_size : size ≤ max_block_size (ar_options ar')
}.

Lemma granted_head L live ar cur next x b :
  arena_ok L live ar → ar_blocks ar = cur :: next →
  b ∈ next → blk_addr b + BEBOP_ARENA_OVERHEAD ≤ x < blk_addr b + BEBOP_ARENA_OVERHEAD + blk_used b →
  blk_addr cur ≤ x < blk_addr cur + BEBOP_ARENA_OVERHEAD + blk_capacity cur → False.
Proof.
  intros Ho E Hb Hx Hc.
  assert (Hbl : b ∈ ar_blocks ar) by (rewrite E; by right).
  assert (Hcl : cur ∈ ar_blocks ar) by (rewrite E; by left).
  pose proof (block_live _ _ _ _ Ho Hbl) as H1. pose proof (block_live _ _ _ _ Ho Hcl) as H2.
  pose proof (ak_blocks _ _ _ Ho) as Hf. rewrite Forall_forall in Hf.
  destruct (Hf _ Hbl) as (?&_).
  assert (Hne : blk_addr b ≠ blk_addr cur).
  { pose proof (ak_nodup _ _ _ Ho) as Hn. unfold footprint in Hn. rewrite E in Hn. cbn in Hn.
    apply NoDup_cons in Hn as [Hn _]. intros Heq. apply Hn. rewrite fmap_app.
    apply elem_of_app; left. rewrite <- Heq. apply list_elem_of_fmap.
    exists (block_region b). split; [done|]. apply list_elem_of_fmap. by exists b. }
  destruct (ak_heap _ _ _ Ho _ _ H1) as (?&?&?&Hd). unfold BEBOP_ARENA_OVERHEAD in *.
  destruct (Hd _ _ H2 Hne); lia.
Qed.

Lemma bump_fresh L live ar cur next n size :
  arena_ok L live ar → ar_blocks ar = cur :: next →
  0 < size ≤ n → n mod 16 = 0 → blk_used cur + n ≤ blk_capacity cur →
  fresh_region live ar (bump n ar) (next_ptr ar) size.
Proof.
  intros Ho E Hs Hm Hr.
  pose proof (ak_blocks _ _ _ Ho) as Hb. rewrite E in Hb. apply Forall_cons in Hb as [Hc _].
  destruct Hc as (Hu & Hx & Ha & Hd). destruct (ak_options _ _ _ Ho) as [_ Hmax].
  assert (Hw : u64 (blk_used cur + n) = blk_used cur + n) by (apply u64_small; lia).
  assert (Hcl : cur ∈ ar_blocks ar) by (rewrite E; by left).
  pose proof (block_live _ _ _ _ Ho Hcl) as Hl.
  unfold next_ptr, bump. rewrite E, Hw. split.
  - intros x Hx'. split.
    + exists (mkBlock (blk_addr cur) (blk_used cur + n) (blk_capacity cur)). cbn. split; [by left|]. lia.
    + intros (b & Hb & Hbx). rewrite E in Hb. apply elem_of_cons in Hb as [->|Hb]; [lia|].
      eapply (granted_head _ _ _ _ _ x b Ho E Hb Hbx). unfold BEBOP_ARENA_OVERHEAD in *. lia.
  - intros x (b & Hb & Hbx). rewrite E in Hb. apply elem_of_cons in Hb as [->|Hb].
    + exists (mkBlock (blk_addr cur) (blk_used cur + n) (blk_capacity cur)). cbn. split; [by left|]. lia.
    + exists b. split; [by right|done].
  - eexists _, _. split; [done|]. unfold BEBOP_ARENA_OVERHEAD in *. lia.
  - unfold BEBOP_ARENA_OVERHEAD. dlia.
  - cbn. lia.
Qed.

Lemma granted_push b ar x : blk_used b = 0 → granted (push b ar) x ↔ granted ar x.
Proof.
  intros Hz. unfold granted, push; cbn. split.
  - intros (c & [->|Hc]%elem_of_cons & Hx); [lia|]. by exists c.
  - intros (c & Hc & Hx). exists c. split; [by right|done].
Qed.

Lemma fresh_region_push live b ar ar' p size :
  blk_used b = 0 → fresh_region live (push b ar) ar' p size → fresh_region live ar ar' p size.
Proof.
  intros Hz [Hn Ho Hl Ha Hm]. split; auto.
  - intros x Hx. rewrite <- (granted_push b ar) by done. auto.
  - intros x Hx. apply Ho. by apply granted_push.
Qed.

Lemma allocate_block_cases L h ar n :
  arena_ok L (hp_live h) ar → 0 < n ≤ 2 ^ 64 - 16 → n mod 16 = 0 →
  (∃ h', bebop_wire_arena_allocate_block ar n h = Some (None, h') ∧ hp_live h' = hp_live h) ∨
  (∃ b h', bebop_wire_arena_allocate_block ar n h = Some (Some b, h') ∧
     arena_ok L (hp_live h') (push b ar) ∧ blk_used b = 0 ∧ n ≤ blk_capacity b).
Proof.
  intros Ho Hn Hm. unfold bebop_wire_arena_allocate_block.
  rewrite align16_idem by lia. destruct (ak_options _ _ _ Ho) as [Hi Hx].
  destruct (Z.ltb_spec (max_block_size (ar_options ar)) n) as [|Hle]; [left; by exists h|].
  set (cap0 := if _ <? n then n else _).
  set (cap := if max_block_size _ <? cap0 then _ else _).
  assert (Hcap : n ≤ cap ≤ max_block_size (ar_options ar)).
  { subst cap cap0. repeat case_match; zbool; lia. }
  rewrite u64_small by (unfold BEBOP_ARENA_OVERHEAD; lia).
  destruct (alloc_new_cases (BEBOP_ARENA_OVERHEAD + cap) h) as [(h'&E&El)|(a&h'&E&El&Hf&Ha&Hh)];
    [unfold BEBOP_ARENA_OVERHEAD; lia|by destruct Ho|left|right].
  - exists h'. unfold mbind, C_bind. by rewrite E.
  - exists (mkBlock a 0 cap), h'. unfold mbind, C_bind. rewrite E. cbn. split_and!; auto; [|lia].
    rewrite El in Hh |- *. apply (push_ok _ _ _ (mkBlock a 0 cap)); auto. split_and!; cbn; auto; lia.
Qed.

(** What [bebop_wire_arena_alloc] promises: the arena stays well-formed, and
    either nothing was granted and nothing changed, or a fresh region was. *)
Definition alloc_post (L : gmap Z Z) (h : Heap) (ar : bebop_wire_arena_impl_t) (size : Z)
    (r : option Z) (h' : Heap) (ar' : bebop_wire_arena_impl_t) : Prop :=
  arena_ok L (hp_live h') ar' ∧
  match r with
  | None => ar' = ar ∧ hp_live h' = hp_live h
  | Some p => fresh_region (hp_live h') ar ar' p size
  end.

Lemma take_bytes_room again L h ar cur next n :
  arena_ok L (hp_live h) ar → ar_blocks ar = cur :: next →
  0 < n → blk_used cur + n ≤ blk_capacity cur →
  take_bytes n again (h, ar) = Some (Some (next_ptr ar), (h, bump n ar)).
Proof.
  intros Ho E Hn Hr.
  pose proof (ak_blocks _ _ _ Ho) as Hb. rewrite E in Hb. apply Forall_cons in Hb as [Hc _].
  destruct Hc as (Hu & Hx & _). destruct (ak_options _ _ _ Ho) as [_ Hmax].
  unfold take_bytes, get_arena, gets, mbind, C_bind, next_ptr, bump. cbn. rewrite E.
  rewrite u64_small by lia.
  by destruct (Z.leb_spec (blk_used cur + n) (blk_capacity cur)); [|lia].
Qed.

(** After the first half there is room in the current block, or nothing changed. *)
Lemma ensure_block_spec L h ar n :
  arena_ok L (hp_live h) ar → 0 < n ≤ 2 ^ 63 → n mod 16 = 0 →
  ∃ ok h' ar', ensure_block n (h, ar) = Some (ok, (h', ar')) ∧ arena_ok L (hp_live h') ar' ∧
    if (ok : bool) then
      (∃ cur next, ar_blocks ar' = cur :: next ∧ blk_used cur + n ≤ blk_capacity cur) ∧
      (∀ live ar'' p size, fresh_region live ar' ar'' p size → fresh_region live ar ar'' p size)
    else ar' = ar ∧ hp_live h' = hp_live h.
Proof.
  intros Ho Hn Hm. unfold ensure_block, get_arena, gets, mbind, C_bind. cbn [snd].
  destruct (needs_block ar n) eqn:Efull.
  - destruct (allocate_block_cases L h ar n Ho ltac:(lia) Hm)
      as [(h'&E&El)|(b&h'&E&Hp&Hz&Hc)]; unfold on_heap; rewrite E.
    + exists false, h', ar. by rewrite El.
    + exists true, h', (push b ar). split_and!; [done|done| |].
      * exists b, (ar_blocks ar). split; [done|lia].
      * intros. by eapply fresh_region_push.
  - unfold needs_block in Efull.
    destruct (ar_blocks ar) as [|cur next] eqn:Eb; [done|]. apply Z.ltb_ge in Efull.
    pose proof (ak_blocks _ _ _ Ho) as Hb. rewrite Eb in Hb. apply Forall_cons in Hb as [Hc _].
    destruct Hc as (Hu & Hx & _). destruct (ak_options _ _ _ Ho) as [_ Hmax].
    rewrite u64_small in Efull by lia.
    exists true, h, ar. split_and!; eauto.
Qed.

Lemma arena_alloc_loop_spec fuel L h ar n size :
  arena_ok L (hp_live h) ar → 0 < size ≤ n → n ≤ 2 ^ 63 → n mod 16 = 0 →
  ∃ r h' ar', arena_alloc_loop (S fuel) n (h, ar) = Some (r, (h', ar')) ∧
              alloc_post L h ar size r h' ar'.
Proof.
  intros Ho Hs Hn Hm. cbn [arena_alloc_loop].
  destruct (ensure_block_spec L h ar n Ho ltac:(lia) Hm) as (ok&h'&ar'&E&Ho'&Hok).
  rewrite (C_bind_Some _ _ _ _ _ E). destruct ok.
  - destruct Hok as [(cur&next&Eb&Hr) Hf].
    exists (Some (next_ptr ar')), h', (bump n ar'). split; [|split].
    + eapply take_bytes_room; eauto. lia.
    + eapply bump_ok; eauto. lia.
    + apply Hf. by eapply bump_fresh.
  - exists None, h', ar'. by split.
Qed.

Lemma arena_alloc_spec L h ar size :
  arena_ok L (hp_live h) ar → 0 < size ≤ 2 ^ 63 - 16 →
  ∃ r h' ar', bebop_wire_arena_alloc size (h, ar) = Some (r, (h', ar')) ∧
              alloc_post L h ar size r h' ar'.
Proof.
  intros Ho Hs. unfold bebop_wire_arena_alloc.
  destruct (Z.eqb_spec size 0); [lia|].
  destruct (align16_props size (bebop_wire_align_size size BEBOP_ARENA_ALIGN) ltac:(lia) eq_refl)
    as (?&?&?).
  apply arena_alloc_loop_spec; [done|lia|lia|done].
Qed.

(** A grant of [n] more bytes extends the granted bytes behind [next_ptr]. *)
Lemma bump_granted L live ar cur next n x :
  arena_ok L live ar → ar_blocks ar = cur :: next → 0 ≤ n → blk_used cur + n ≤ blk_capacity cur →
  granted (bump n ar) x ↔ granted ar x ∨ next_ptr ar ≤ x < next_ptr ar + n.
Proof.
  intros Ho E Hn Hr.
  pose proof (ak_blocks _ _ _ Ho) as Hb. rewrite E in Hb. apply Forall_cons in Hb as [Hc _].
  destruct Hc as (Hu & Hx & _). destruct (ak_options _ _ _ Ho) as [_ Hmax].
  unfold granted, next_ptr, bump. rewrite E. cbn. rewrite u64_small by lia. split.
  - intros (b & [->|Hb]%elem_of_cons & Hbx); cbn in *.
    + destruct (Z_lt_dec x (blk_addr cur + BEBOP_ARENA_OVERHEAD + blk_used cur)); [left|right; lia].
      exists cur. split; [by left|lia].
    + left. exists b. split; [by right|done].
  - intros [(b & [->|Hb]%elem_of_cons & Hbx)|Hx'].
    + eexists; split; [by left|]. cbn. lia.
    + exists b. split; [by right|done].
    + eexists; split; [by left|]. cbn. lia.
Qed.

(** What [bebop_wire_arena_realloc] promises for a region of [old_size] bytes:
    growth in place behind it, or a fresh region and a copy of the old bytes. *)
Definition realloc_post (L : gmap Z Z) (ar : bebop_wire_arena_impl_t) (p old_size new_size : Z)
    (r : option Z * option (Z * Z * Z)) (h' : Heap) (ar' : bebop_wire_arena_impl_t) : Prop :=
  arena_ok L (hp_live h') ar' ∧
  match r with
  | (None, copy) => ar' = ar ∧ copy = None
  | (Some q, None) =>
      q = p ∧ (∀ x, p ≤ x < p + new_size → granted ar' x) ∧
      (∀ x, granted ar x → granted ar' x) ∧
      (∀ x, p + bebop_wire_align_size old_size BEBOP_ARENA_ALIGN ≤ x < p + new_size →
            old_size < new_size → ¬ granted ar x)
  | (Some q, Some copy) => copy = (q, p, old_size) ∧ fresh_region (hp_live h') ar ar' q new_size
  end.

Lemma arena_realloc_spec L h ar p old_size new_size :
  arena_ok L (hp_live h) ar → 0 < old_size ≤ 2 ^ 63 - 16 → 0 < new_size ≤ 2 ^ 63 - 16 →
  (∀ x, p ≤ x < p + bebop_wire_align_size old_size BEBOP_ARENA_ALIGN → granted ar x) →
  ∃ r h' ar', bebop_wire_arena_realloc (Some p) old_size new_size (h, ar) = Some (r, (h', ar')) ∧
              realloc_post L ar p old_size new_size r h' ar'.
Proof.
  intros Ho Hos Hns Hg. unfold bebop_wire_arena_realloc.
  destruct (align16_props old_size (bebop_wire_align_size old_size BEBOP_ARENA_ALIGN) ltac:(lia) eq_refl)
    as (Ha1&Ha2&_).
  destruct (align16_props new_size (bebop_wire_align_size new_size BEBOP_ARENA_ALIGN) ltac:(lia) eq_refl)
    as (Hb1&Hb2&_).
  pose proof (align16 old_size ltac:(lia)) as Ea. pose proof (align16 new_size ltac:(lia)) as Eb'.
  set (aold := bebop_wire_align_size old_size _) in *.
  set (anew := bebop_wire_align_size new_size _) in *.
  destruct (Z.eqb_spec new_size 0); [lia|].
  destruct (Z.leb_spec new_size old_size) as [Hle|Hlt].
  { exists (Some p, None), h, ar. split; [done|]. split_and!; auto; [intros; apply Hg|intros]; lia. }
  assert (Hmove : ∃ r h' ar', (q ← bebop_wire_arena_alloc new_size;
             mret (q, (λ q, (q, p, old_size)) <$> q)) (h, ar) = Some (r, (h', ar')) ∧
             realloc_post L ar p old_size new_size r h' ar').
  { destruct (arena_alloc_spec L h ar new_size Ho ltac:(lia)) as (r&h'&ar'&E&Ho'&Hp).
    rewrite (C_bind_Some _ _ _ _ _ E). destruct r as [q|].
    - eexists (Some q, Some (q, p, old_size)), h', ar'. split_and!; [done|split; done].
    - destruct Hp as [-> _]. eexists (None, None), h', ar. split_and!; [done|split; done]. }
  unfold get_arena, gets. unfold mbind at 1, C_bind at 1. cbn [snd].
  destruct (ar_blocks ar) as [|cur next] eqn:Eb; [exact Hmove|].
  destruct (Z.eqb_spec (p + aold) (blk_addr cur + BEBOP_ARENA_OVERHEAD + blk_used cur)) as [Ep|]; [|exact Hmove].
  pose proof (ak_blocks _ _ _ Ho) as Hb. rewrite Eb in Hb. apply Forall_cons in Hb as [Hc _].
  destruct Hc as (Hu & Hx & _). destruct (ak_options _ _ _ Ho) as [_ Hmax].
  assert (Hx0 : 0 ≤ anew - aold) by (rewrite Ea, Eb'; dlia).
  rewrite (u64_small (anew - aold)) by lia. rewrite u64_small by lia.
  destruct (Z.leb_spec (blk_used cur + (anew - aold)) (blk_capacity cur)) as [Hroom|]; [|exact Hmove].
  exists (Some p, None), h, (bump (anew - aold) ar). split.
  { unfold bump. rewrite Eb. cbn. by rewrite (u64_small (blk_used cur + (anew - aold))) by lia. }
  assert (Hnp : next_ptr ar = p + aold) by (unfold next_ptr; by rewrite Eb).
  split; [eapply bump_ok; eauto; dlia|]. split_and!; [done| | |].
  - intros x Hxr. rewrite bump_granted by eauto.
    destruct (Z_lt_dec x (p + aold)); [left; apply Hg; lia|right; lia].
  - intros x Hxr. rewrite bump_granted by eauto. by left.
  - intros x Hxr _ Hgx. destruct (Z.eq_dec (anew - aold) 0); [lia|].
    destruct (bump_fresh L (hp_live h) ar cur next (anew - aold) (anew - aold) Ho Eb) as [Hnew _ _ _ _];
      [lia|dlia|lia|].
    apply (Hnew x); [lia|done].
Qed.
End ArenaSpecs.

(** ** The life of a context *)

(** One call on a live context, with the caller's obligations: sizes are those
    of objects, and a reallocated region was granted before. *)
Inductive context_step `{HostAllocator} : Heap * Bebop_Context → Heap * Bebop_Context → Prop :=
  | step_alloc h cx size r s' :
      0 ≤ size ≤ 2 ^ 63 - 16 →
      bebop_context_alloc PTR size (h, cx) = Some (r, s') → context_step (h, cx) s'
  | step_alloc_array h cx count elem_size r s' :
      0 ≤ count → 0 ≤ elem_size → count * elem_size ≤ 2 ^ 63 - 16 →
      bebop_context_alloc_array PTR count elem_size (h, cx) = Some (r, s') → context_step (h, cx) s'
  | step_realloc h cx p old_size new_size r s' :
      0 < old_size ≤ 2 ^ 63 - 16 → 0 < new_size ≤ 2 ^ 63 - 16 →
      (∀ x, p ≤ x < p + bebop_wire_align_size old_size BEBOP_ARENA_ALIGN → granted (cx_arena cx) x) →
      bebop_context_realloc PTR (Some p) old_size new_size (h, cx) = Some (r, s') →
      context_step (h, cx) s'
  | step_reset h cx s' :
      bebop_context_reset PTR (h, cx) = Some (tt, s') → context_step (h, cx) s'
  | step_enter h cx r s' :
      bebop_context_enter_decode PTR (h, cx) = Some (r, s') → context_step (h, cx) s'
  | step_leave h cx s' :
      bebop_context_leave_decode PTR (h, cx) = Some (tt, s') → context_step (h, cx) s'.

Section ContextSpecs.
Context `{HostAllocatorOk}.

Lemma on_arena_ok {A} L h cx (c : C (Heap * bebop_wire_arena_impl_t) A) r h' ar' :
  context_ok L (hp_live h) cx → c (h, cx_arena cx) = Some (r, (h', ar')) →
  arena_ok (<[cx_addr cx := sizeof_context]> L) (hp_live h') ar' →
  on_arena c (h, cx) = Some (r, (h', set_arena ar' cx)) ∧ context_ok L (hp_live h') (set_arena ar' cx).
Proof.
  intros [Ha Hf] E Ho. unfold on_arena. rewrite E. split; [done|]. by split.
Qed.

Lemma context_alloc_spec L h cx size :
  context_ok L (hp_live h) cx → 0 ≤ size ≤ 2 ^ 63 - 16 →
  ∃ r h' ar', bebop_context_alloc PTR size (h, cx) = Some (r, (h', set_arena ar' cx)) ∧
    context_ok L (hp_live h') (set_arena ar' cx) ∧
    match r with
    | None => ar' = cx_arena cx ∧ hp_live h' = hp_live h
    | Some p => 0 < size ∧ fresh_region (hp_live h') (cx_arena cx) ar' p size
    end.
Proof.
  intros Ho Hs. unfold bebop_context_alloc. cbn [is_null].
  destruct (Z.eq_dec size 0) as [->|Hne].
  - exists None, h, (cx_arena cx). assert (E : set_arena (cx_arena cx) cx = cx) by (by destruct cx).
    unfold on_arena; cbn. by rewrite E.
  - destruct (arena_alloc_spec _ h (cx_arena cx) size (ck_arena _ _ _ Ho) ltac:(lia))
      as (r&h'&ar'&E&Ho'&Hp).
    destruct (on_arena_ok L h cx _ r h' ar' Ho E Ho') as [E' Hc].
    exists r, h', ar'. split_and!; [done|done|]. destruct r; [split; [lia|done]|done].
Qed.

Lemma arena_reset_spec L h ar :
  arena_ok L (hp_live h) ar →
  ∃ h', bebop_wire_arena_reset (h, ar) = Some (tt, (h', set_totals 0 0 (set_blocks [] ar))) ∧
        arena_ok L (hp_live h') (set_totals 0 0 (set_blocks [] ar)) ∧ hp_live h' ⊆ hp_live h.
Proof.
  intros Ho. destruct h as [t live]. cbn in Ho.
  pose proof (ak_live _ _ _ Ho) as El. pose proof (ak_nodup _ _ _ Ho) as Hn.
  pose proof (ak_frame _ _ _ Ho) as Hf. unfold footprint in El, Hn, Hf.
  rewrite fmap_app in Hn, Hf. apply NoDup_app in Hn as (Hn1&Hn2&Hn3). apply Forall_app in Hf as [Hf1 Hf2].
  rewrite list_to_map_app, <- (assoc_L (∪)) in El.
  set (M := list_to_map [(ar_addr ar, sizeof_arena)] ∪ L) in El.
  assert (EM : M = <[ar_addr ar := sizeof_arena]> L)
    by (subst M; cbn; by rewrite <- insert_union_l, (left_id_L ∅ (∪))).
  assert (HM : Forall (λ a, M !! a = None) (map block_region (ar_blocks ar)).*1).
  { rewrite EM. apply Forall_forall. intros a Ha. rewrite Forall_forall in Hf1.
    rewrite lookup_insert_ne; [by apply Hf1|]. intros <-. apply (Hn2 (ar_addr ar)); [done|by left]. }
  exists (mkHeap t M). unfold bebop_wire_arena_reset, get_arena, gets, mbind, C_bind. cbn [snd].
  unfold on_heap. rewrite El.
  rewrite (free_blocks_spec (ar_options ar)) by (done || apply Ho).
  assert (Hsub : M ⊆ live).
  { rewrite El. apply map_union_subseteq_r. apply map_disjoint_spec. intros a x y Hx Hy.
    rewrite Forall_forall in HM. rewrite (HM a) in Hy; [done|].
    apply elem_of_list_to_map_2 in Hx. by apply list_elem_of_fmap; exists (a, x). }
  split_and!; [done| |by rewrite <- El].
  cbn [hp_live]. constructor; cbn; auto; [|apply Ho].
  eapply heap_ok_sub; [|done]. apply Ho.
Qed.

(** [bebop_wire_arena_destroy] gives back exactly the storage of the arena. *)
Lemma arena_destroy_spec L h ar :
  arena_ok L (hp_live h) ar →
  bebop_wire_arena_destroy ar h = Some (tt, mkHeap (hp_time h) L).
Proof.
  intros Ho. destruct (arena_reset_spec L h ar Ho) as (h'&E&Ho'&_).
  unfold bebop_wire_arena_reset, get_arena, gets, mbind, C_bind, on_heap in E. cbn [snd] in E.
  unfold bebop_wire_arena_destroy, mbind, C_bind.
  destruct (free_blocks (ar_blocks ar) h) as [[[] h1]|] eqn:Ef; [|done].
  injection E as <-.
  assert (Et : hp_time h1 = hp_time h).
  { clear -Ef. revert h h1 Ef. induction (ar_blocks ar) as [|b bs IH]; intros h h1 Ef; cbn in Ef.
    - by injection Ef as <-.
    - unfold mbind, C_bind, alloc_free in Ef. case_decide; [|done]. by apply IH in Ef. }
  pose proof (ak_live _ _ _ Ho') as El. pose proof (ak_frame _ _ _ Ho') as Hf.
  cbn in El, Hf. apply Forall_cons in Hf as [Hf _].
  rewrite <- insert_union_l, (left_id_L ∅ (∪)) in El.
  rewrite (alloc_free_live _ sizeof_arena) by (rewrite El; apply lookup_insert_eq).
  by rewrite Et, El, delete_insert_id.
Qed.

Lemma context_free_spec L h cx :
  context_ok L (hp_live h) cx →
  bebop_context_free (Some cx) h = Some (tt, mkHeap (hp_time h) L).
Proof.
  intros [Ha Hf]. unfold bebop_context_free, mbind, C_bind. rewrite (arena_destroy_spec _ _ _ Ha).
  rewrite (alloc_free_live _ sizeof_context) by apply lookup_insert_eq.
  cbn. by rewrite delete_insert_id.
Qed.

Lemma context_new_spec h options :
  heap_ok (hp_live h) → options_ok (arena_options (default bebop_context_options options)) →
  ∃ r h', bebop_context_new options h = Some (r, h') ∧
    match r with
    | None => hp_live h' = hp_live h
    | Some cx => context_ok (hp_live h) (hp_live h') cx ∧ cx_decode_depth cx = 0 ∧
                 cx_options cx = default bebop_context_options options ∧ ar_blocks (cx_arena cx) = []
    end.
Proof.
  intros Hh Ho. unfold bebop_context_new, mbind, C_bind.
  destruct (alloc_new_cases sizeof_context h ltac:(done) Hh) as [(h1&E1&El1)|(a&h1&E1&El1&Hf1&_&Hh1)];
    rewrite E1; [by exists None, h1|].
  unfold bebop_wire_arena_create, mbind, C_bind.
  destruct (alloc_new_cases sizeof_arena h1 ltac:(done) Hh1) as [(h2&E2&El2)|(b&h2&E2&El2&Hf2&_&Hh2)];
    rewrite E2; cbn.
  - rewrite (alloc_free_live a sizeof_context) by (rewrite El2, El1; apply lookup_insert_eq).
    eexists None, _. split; [done|]. cbn. by rewrite El2, El1, delete_insert_id.
  - eexists (Some _), h2. split; [done|]. split_and!; [|done..]. constructor; [|done].
    constructor; cbn; auto.
    + by rewrite <- insert_union_l, (left_id_L ∅ (∪)), El2, El1.
    + apply NoDup_singleton.
    + constructor; [|done]. by rewrite El1 in Hf2.
Qed.

(** Two runs of the same call agree. *)
Ltac same_run E :=
  match goal with
  | H : _ = Some (_, (?h', ?cx')) |- context_ok _ (hp_live ?h') ?cx' =>
      rewrite E in H; simplify_eq; done
  end.

Lemma context_step_ok L h cx h' cx' :
  context_ok L (hp_live h) cx → context_step (h, cx) (h', cx') → context_ok L (hp_live h') cx'.
Proof.
  intros Ho Hstep. inversion Hstep; subst.
  - destruct (context_alloc_spec L h cx size Ho ltac:(lia)) as (?&?&?&E&?&_). same_run E.
  - unfold bebop_context_alloc_array in *. cbn [is_null orb] in *.
    destruct (negb (elem_size =? 0) && (SIZE_MAX / elem_size <? count));
      [unfold mret, C_ret in *; by simplify_eq|].
    assert (0 ≤ count * elem_size) by nia. rewrite u64_small in * by lia.
    destruct (context_alloc_spec L h cx (count * elem_size) Ho ltac:(lia)) as (?&?&?&E&?&_).
    unfold bebop_context_alloc in E. cbn [is_null] in E. same_run E.
  - destruct (arena_realloc_spec _ h (cx_arena cx) p old_size new_size (ck_arena _ _ _ Ho))
      as (r'&h1&ar'&E&Ho'&_); [done..|].
    destruct (on_arena_ok L h cx _ r' h1 ar' Ho E Ho') as [E' Hc].
    unfold bebop_context_realloc in *. cbn [is_null] in *. same_run E'.
  - destruct (arena_reset_spec _ h (cx_arena cx) (ck_arena _ _ _ Ho)) as (h1&E&Ho'&_).
    destruct (on_arena_ok L h cx _ tt h1 _ Ho E Ho') as [E' Hc].
    unfold bebop_context_reset, modify, mbind, C_bind in *. cbn [is_null] in *. rewrite E' in *.
    cbn in *. simplify_eq. destruct Hc. by split.
  - unfold bebop_context_enter_decode, gets, modify, mbind, C_bind in *. cbn in *.
    case_match; unfold mret, C_ret in *; cbn in *; simplify_eq; [done|]. destruct Ho. by split.
  - unfold bebop_context_leave_decode, modify in *. cbn in *. simplify_eq. destruct Ho.
    destruct (0 <? cx_decode_depth cx); by split.
Qed.

Lemma context_steps_ok L s s' :
  rtc context_step s s' → context_ok L (hp_live s.1) s.2 → context_ok L (hp_live s'.1) s'.2.
Proof.
  induction 1 as [|[h cx] [h' cx'] s' Hstep _ IH]; [done|].
  intros Ho. apply IH. cbn. by eapply context_step_ok.
Qed.

(** The decode depth stays within the bound the options give, and the options
    never change. *)
Definition depth_limit (o : Bebop_ContextOptions) : Z :=
  if max_decode_depth o =? 0 then BEBOP_WIRE_DEFAULT_MAX_DECODE_DEPTH else max_decode_depth o.

Lemma depth_limit_range o : uint_ok 32 (max_decode_depth o) → 0 < depth_limit o < 2 ^ 32.
Proof.
  unfold depth_limit, uint_ok, BEBOP_WIRE_DEFAULT_MAX_DECODE_DEPTH.
  destruct (Z.eqb_spec (max_decode_depth o) 0); lia.
Qed.

Lemma on_arena_inv {A} (c : C (Heap * bebop_wire_arena_impl_t) A) h cx a h' cx' :
  on_arena c (h, cx) = Some (a, (h', cx')) → ∃ ar, cx' = set_arena ar cx.
Proof.
  unfold on_arena. destruct (c (h, cx_arena cx)) as [[b [h1 ar]]|]; [|done].
  intros. simplify_eq. by exists ar.
Qed.

Lemma context_step_depth h cx h' cx' :
  uint_ok 32 (max_decode_depth (cx_options cx)) →
  context_step (h, cx) (h', cx') → 0 ≤ cx_decode_depth cx ≤ depth_limit (cx_options cx) →
  cx_options cx' = cx_options cx ∧ 0 ≤ cx_decode_depth cx' ≤ depth_limit (cx_options cx).
Proof.
  intros Hm%depth_limit_range Hstep Hd. inversion Hstep; subst; clear Hstep.
  - unfold bebop_context_alloc in *. cbn [is_null] in *.
    destruct (on_arena_inv _ _ _ _ _ _ ltac:(eassumption)) as [ar ->]. done.
  - unfold bebop_context_alloc_array in *. cbn [is_null orb] in *.
    destruct (_ && _); [unfold mret, C_ret in *; by simplify_eq|].
    destruct (on_arena_inv _ _ _ _ _ _ ltac:(eassumption)) as [ar ->]. done.
  - unfold bebop_context_realloc in *. cbn [is_null] in *.
    destruct (on_arena_inv _ _ _ _ _ _ ltac:(eassumption)) as [ar ->]. done.
  - unfold bebop_context_reset in *. cbn [is_null] in *.
    match goal with H : _ = Some _ |- _ => apply C_bind_inv in H as ([] & [h1 cx1] & H1 & H2) end.
    apply on_arena_inv in H1 as [ar ->]. unfold modify in H2. simplify_eq. cbn. split; [done|lia].
  - unfold bebop_context_enter_decode, gets, modify, mbind, C_bind in *. cbn in *.
    fold (depth_limit (cx_options cx)) in *.
    destruct (Z.leb_spec (depth_limit (cx_options cx)) (cx_decode_depth cx));
      unfold mret, C_ret in *; cbn in *; simplify_eq; [done|]. cbn. split; [done|].
    rewrite u32_small by lia. lia.
  - unfold bebop_context_leave_decode, modify in *. cbn in *. simplify_eq.
    destruct (Z.ltb_spec 0 (cx_decode_depth cx)); cbn; split; done || lia.
Qed.
End ContextSpecs.

(** ** A host allocator

    Hands out the first aligned address behind every live region.  It shows that the
    documented behaviour of [malloc] can be met. *)
Definition heap_top (live : gmap Z Z) : Z := map_fold (λ a s m, Z.max (a + s) m) 16 live.

Definition bump_allocator : HostAllocator := λ _ live size,
  let a := 16 * ((heap_top live + 15) / 16) in
  if a + size <=? 2 ^ 64 then Some a else None.

Lemma heap_top_spec live :
  16 ≤ heap_top live ∧ ∀ a s, live !! a = Some s → a + s ≤ heap_top live.
Proof.
  unfold heap_top. apply (map_fold_weak_ind (λ m live, 16 ≤ m ∧ ∀ a s, live !! a = Some s → a + s ≤ m)).
  - split; [lia|]. intros a s Ha. by rewrite lookup_empty in Ha.
  - intros a s m r Ha [Hr1 Hr2]. split; [lia|]. intros a' s' Ha'.
    rewrite lookup_insert in Ha'. case_decide; simplify_eq; [lia|]. specialize (Hr2 _ _ Ha'). lia.
Qed.

#[export] Instance bump_allocator_ok : @HostAllocatorOk bump_allocator.
Proof.
  intros t live size a Ha. unfold host_alloc, bump_allocator in Ha.
  destruct (heap_top_spec live) as [Ht Hl].
  destruct (Z.leb_spec (16 * ((heap_top live + 15) / 16) + size) (2 ^ 64)); [|done]. simplify_eq.
  split_and!; [dlia|rewrite Z.mul_comm; apply Z.mod_mul; lia|done|].
  intros a' s' Ha'. specialize (Hl _ _ Ha'). right. dlia.
Qed.

(** ** Properties *)

Section Properties.
Context `{HostAllocatorOk}.

(** C6: however a program uses a live context (allocation, arrays, reallocation,
    reset, entering and leaving decodes), [bebop_context_free] is then defined,
    releases every block with the size it was allocated with, and gives the host
    heap back exactly as it was before [bebop_context_new]: nothing leaks and
    nothing foreign is released. *)
Theorem context_lifecycle_no_leak h options cx h1 h2 cx2 :
  heap_ok (hp_live h) → options_ok (arena_options (default bebop_context_options options)) →
  bebop_context_new options h = Some (Some cx, h1) →
  rtc context_step (h1, cx) (h2, cx2) →
  bebop_context_free (Some cx2) h2 = Some (tt, mkHeap (hp_time h2) (hp_live h)).
Proof.
  intros Hh Ho Hn Hs. destruct (context_new_spec h options Hh Ho) as (r&h'&E&Hr).
  rewrite E in Hn. simplify_eq. apply context_free_spec.
  by apply (context_steps_ok _ _ _ Hs), Hr.
Qed.

(** on every context a program can reach, [bebop_context_alloc] is defined;
    it returns NULL and changes nothing, or returns a region of the requested
    size inside one live block, all of whose bytes are new, and every byte
    granted before stays granted. *)
Theorem context_alloc_grants_fresh h options cx h1 h2 cx2 size :
  heap_ok (hp_live h) → options_ok (arena_options (default bebop_context_options options)) →
  bebop_context_new options h = Some (Some cx, h1) → rtc context_step (h1, cx) (h2, cx2) →
  0 < size ≤ 2 ^ 63 - 16 →
  ∃ r h3 cx3, bebop_context_alloc PTR size (h2, cx2) = Some (r, (h3, cx3)) ∧
    match r with
    | None => cx3 = cx2 ∧ hp_live h3 = hp_live h2
    | Some p =>
        (∀ x, p ≤ x < p + size → granted (cx_arena cx3) x ∧ ¬ granted (cx_arena cx2) x) ∧
        (∀ x, granted (cx_arena cx2) x → granted (cx_arena cx3) x) ∧
        (∃ a s, hp_live h3 !! a = Some s ∧ a < p ∧ p + size ≤ a + s)
    end.
Proof.
  intros Hh Ho Hn Hs Hsize. destruct (context_new_spec h options Hh Ho) as (r&h'&E&Hr).
  rewrite E in Hn. simplify_eq. destruct Hr as [Hr _].
  pose proof (context_steps_ok _ _ _ Hs Hr) as Hok.
  destruct (context_alloc_spec _ _ _ size Hok ltac:(lia)) as (r&h3&ar&E3&_&Hp).
  eexists r, h3, _. split; [done|]. destruct r.
  - destruct Hp as (_&[]). by split_and!.
  - destruct Hp as [-> ->]. by destruct cx2.
Qed.

(** [bebop_context_realloc] of a granted region is defined on every reachable
    context: it fails and changes nothing; or it keeps the address, with the
    grown tail granted for the first time; or it grants a fresh region and
    copies exactly the old bytes. *)
Theorem context_realloc_grants h options cx h1 h2 cx2 p old_size new_size :
  heap_ok (hp_live h) → options_ok (arena_options (default bebop_context_options options)) →
  bebop_context_new options h = Some (Some cx, h1) → rtc context_step (h1, cx) (h2, cx2) →
  0 < old_size ≤ 2 ^ 63 - 16 → 0 < new_size ≤ 2 ^ 63 - 16 →
  (∀ x, p ≤ x < p + bebop_wire_align_size old_size BEBOP_ARENA_ALIGN → granted (cx_arena cx2) x) →
  ∃ r h3 ar3, bebop_context_realloc PTR (Some p) old_size new_size (h2, cx2)
                = Some (r, (h3, set_arena ar3 cx2)) ∧
    realloc_post (<[cx_addr cx2 := sizeof_context]> (hp_live h)) (cx_arena cx2) p old_size new_size r h3 ar3.
Proof.
  intros Hh Ho Hn Hs Ho' Hn' Hg. destruct (context_new_spec h options Hh Ho) as (r&h'&E&Hr).
  rewrite E in Hn. simplify_eq. destruct Hr as [Hr _].
  pose proof (context_steps_ok _ _ _ Hs Hr) as Hok.
  destruct (arena_realloc_spec _ h2 (cx_arena cx2) p old_size new_size (ck_arena _ _ _ Hok))
    as (r&h3&ar&E3&Hp); [done..|].
  exists r, h3, ar. split; [|done]. unfold bebop_context_realloc, on_arena. cbn [is_null]. by rewrite E3.
Qed.

(** Nested decoding is bounded: on every reachable context the decode depth
    is at most the limit of the options (64 when they give none), and
    [bebop_context_enter_decode] succeeds exactly below that limit, and then adds
    one level. *)
Theorem decode_depth_bounded h options cx h1 h2 cx2 :
  heap_ok (hp_live h) → options_ok (arena_options (default bebop_context_options options)) →
  uint_ok 32 (max_decode_depth (default bebop_context_options options)) →
  bebop_context_new options h = Some (Some cx, h1) → rtc context_step (h1, cx) (h2, cx2) →
  let limit := depth_limit (default bebop_context_options options) in
  0 ≤ cx_decode_depth cx2 ≤ limit ∧
  bebop_context_enter_decode PTR (h2, cx2) =
    Some (if cx_decode_depth cx2 <? limit
          then (BEBOP_RESULT_OK, (h2, set_depth (cx_decode_depth cx2 + 1) cx2))
          else (BEBOP_RESULT_MALFORMED, (h2, cx2))).
Proof.
  intros Hh Ho Hm Hn Hs limit. destruct (context_new_spec h options Hh Ho) as (r&h'&E&Hr).
  rewrite E in Hn. simplify_eq. destruct Hr as (_&Hd&Hopt&_).
  pose proof (depth_limit_range _ Hm) as Hl. fold limit in Hl.
  assert (Hdep : cx_options cx2 = default bebop_context_options options ∧ 0 ≤ cx_decode_depth cx2 ≤ limit).
  { assert (Hi : cx_options cx = default bebop_context_options options ∧ 0 ≤ cx_decode_depth cx ≤ limit)
      by (rewrite Hd; split; [done|lia]).
    clear -Hs Hi Hm. remember (h1, cx) as s eqn:Es. remember (h2, cx2) as s' eqn:Es'.
    revert h1 cx h2 cx2 Es Es' Hi. induction Hs as [s|s [hm cm] s' Hst _ IH]; intros; simplify_eq; [done|].
    destruct Hi as [Hi1 Hi2]. eapply IH; [done..|].
    destruct (context_step_depth _ _ _ _ ltac:(by rewrite Hi1) Hst) as [-> Hi]; rewrite Hi1 in *; done. }
  destruct Hdep as [Hd1 Hd2]. split; [done|].
  unfold bebop_context_enter_decode, gets, modify, mbind, C_bind. cbn. rewrite Hd1.
  change (if _ =? 0 then _ else _) with limit.
  destruct (Z.leb_spec limit (cx_decode_depth cx2)), (Z.ltb_spec (cx_decode_depth cx2) limit); try lia; [done|].
  cbn. by rewrite u32_small by lia.
Qed.

(** A request between [SIZE_MAX - 14] and [SIZE_MAX] is rounded up past the
    end of [size_t], to zero: a context with a current block answers it with a
    pointer although not one byte is granted. *)
Theorem context_alloc_huge_wraps L h cx cur next size :
  context_ok L (hp_live h) cx → ar_blocks (cx_arena cx) = cur :: next →
  SIZE_MAX - 14 ≤ size ≤ SIZE_MAX →
  ∃ cx', bebop_context_alloc PTR size (h, cx) = Some (Some (next_ptr (cx_arena cx)), (h, cx')) ∧
         ∀ x, granted (cx_arena cx') x ↔ granted (cx_arena cx) x.
Proof.
  intros [Ho _] E Hs. unfold SIZE_MAX in Hs. eexists. split.
  - unfold bebop_context_alloc, on_arena, bebop_wire_arena_alloc. cbn [is_null].
    destruct (Z.eqb_spec size 0); [lia|]. rewrite align16_huge by lia.
    pose proof (ak_blocks _ _ _ Ho) as Hb. rewrite E in Hb. apply Forall_cons in Hb as [(Hu&Hx&_) _].
    destruct (ak_options _ _ _ Ho) as [_ Hmax].
    cbn [arena_alloc_loop]. unfold ensure_block, needs_block, get_arena, gets, mbind at 1, C_bind at 1.
    unfold mbind at 1, C_bind at 1. cbn [snd]. rewrite E.
    rewrite (u64_small (blk_used cur + 0)) by lia.
    destruct (Z.ltb_spec (blk_capacity cur) (blk_used cur + 0)); [lia|]. cbn [mret C_ret].
    unfold take_bytes, get_arena, gets, mbind, C_bind. cbn [snd]. rewrite E.
    rewrite (u64_small (blk_used cur + 0)) by lia.
    destruct (Z.leb_spec (blk_used cur + 0) (blk_capacity cur)); [|lia]. cbn.
    unfold next_ptr. by rewrite E.
  - intros x. cbn. unfold granted; cbn. rewrite E. split; intros (b & Hb & Hx);
      apply elem_of_cons in Hb as [->|Hb]; cbn in *.
    + exists cur. split; [by left|lia].
    + exists b. split; [by right|done].
    + eexists; split; [by left|]. cbn. lia.
    + exists b. split; [by right|done].
Qed.
End Properties.

(** ** Witnesses: a default context that allocated 100 bytes, then 20 more *)

Definition demo_heap : Heap := mkHeap 0 ∅.
Definition demo_new : option (Bebop_Context * Heap) :=
  match @bebop_context_new bump_allocator None demo_heap with
  | Some (Some cx, h) => Some (cx, h)
  | _ => None
  end.
Definition demo_cx : Bebop_Context :=
  match demo_new with Some (cx, _) => cx
  | None => mkContext 0 (mkArena 0 [] 0 0 (mkArenaOptions 0 0)) bebop_context_options 0 end.
Definition demo_h : Heap := match demo_new with Some (_, h) => h | None => demo_heap end.
Definition demo_run (c : C (Heap * Bebop_Context) (option Z)) : Heap * Bebop_Context :=
  match c (demo_h, demo_cx) with Some (_, s) => s | None => (demo_h, demo_cx) end.
Definition demo_s : Heap * Bebop_Context :=
  demo_run (@bebop_context_alloc bump_allocator PTR 100).

Lemma heap_ok_empty : heap_ok (hp_live demo_heap).
Proof. intros a s Ha. cbn in Ha. by rewrite lookup_empty in Ha. Qed.

Lemma demo_options_ok : options_ok (arena_options (default bebop_context_options None)).
Proof. cbv. split; split; congruence || done. Qed.

Lemma demo_new_eq : @bebop_context_new bump_allocator None demo_heap = Some (Some demo_cx, demo_h).
Proof. vm_compute. reflexivity. Qed.

Lemma demo_context_ok : context_ok ∅ (hp_live demo_h) demo_cx.
Proof.
  destruct (@context_new_spec bump_allocator _ demo_heap None heap_ok_empty demo_options_ok) as (r&h&E&Hr).
  rewrite demo_new_eq in E. simplify_eq. apply Hr.
Qed.

Lemma demo_steps : rtc (@context_step bump_allocator) (demo_h, demo_cx) (demo_s.1, demo_s.2).
Proof.
  apply rtc_once. apply (@step_alloc bump_allocator _ _ 100 (Some 184)); [lia|].
  vm_compute. reflexivity.
Qed.

Lemma context_lifecycle_witness :
  bebop_context_free (Some demo_s.2) demo_s.1 = Some (tt, mkHeap 3 ∅).
Proof.
  exact (context_lifecycle_no_leak demo_heap None demo_cx demo_h demo_s.1 demo_s.2
           heap_ok_empty demo_options_ok demo_new_eq demo_steps).
Defined.

Lemma context_alloc_witness :
  ∃ r h3 cx3, @bebop_context_alloc bump_allocator PTR 20 demo_s = Some (r, (h3, cx3)) ∧ r = Some 296 ∧
    ∀ x, 296 ≤ x < 316 → granted (cx_arena cx3) x ∧ ¬ granted (cx_arena demo_s.2) x.
Proof.
  destruct (context_alloc_grants_fresh demo_heap None demo_cx demo_h demo_s.1 demo_s.2 20
              heap_ok_empty demo_options_ok demo_new_eq demo_steps ltac:(lia)) as (r&h3&cx3&E&Hr).
  exists r, h3, cx3. split; [exact E|].
  vm_compute in E. simplify_eq. split; [done|]. apply Hr.
Defined.

Lemma context_realloc_witness :
  ∃ r h3 ar3, @bebop_context_realloc bump_allocator PTR (Some 184) 100 200 demo_s
                = Some (r, (h3, set_arena ar3 demo_s.2)) ∧ r = (Some 184, None) ∧
    ∀ x, 184 ≤ x < 384 → granted ar3 x.
Proof.
  destruct (context_realloc_grants demo_heap None demo_cx demo_h demo_s.1 demo_s.2 184 100 200
              heap_ok_empty demo_options_ok demo_new_eq demo_steps ltac:(lia) ltac:(lia)) as (r&h3&ar3&E&Hr).
  { intros x Hx. change (bebop_wire_align_size 100 BEBOP_ARENA_ALIGN) with 112 in Hx.
    exists (mkBlock 160 112 4096). split; [by left|]. cbn. unfold BEBOP_ARENA_OVERHEAD. lia. }
  exists r, h3, ar3. split; [exact E|].
  assert (Er : r = (Some 184, None)) by (vm_compute in E; congruence).
  split; [exact Er|]. rewrite Er in Hr. apply Hr.
Defined.

Lemma decode_depth_witness :
  bebop_context_enter_decode PTR demo_s = Some (BEBOP_RESULT_OK, (demo_s.1, set_depth 1 demo_s.2)).
Proof.
  exact (proj2 (@decode_depth_bounded bump_allocator _ demo_heap None demo_cx demo_h demo_s.1 demo_s.2
           heap_ok_empty demo_options_ok ltac:(cbv; split; congruence || done) demo_new_eq demo_steps)).
Defined.

Lemma context_alloc_huge_witness :
  ∃ cx', @bebop_context_alloc bump_allocator PTR SIZE_MAX demo_s = Some (Some 296, (demo_s.1, cx')) ∧
         ∀ x, granted (cx_arena cx') x ↔ granted (cx_arena demo_s.2) x.
Proof.
  apply (@context_alloc_huge_wraps bump_allocator ∅ demo_s.1 demo_s.2 (mkBlock 160 112 4096) [] SIZE_MAX).
  - exact (@context_steps_ok bump_allocator _ _ _ _ demo_steps demo_context_ok).
  - vm_compute. reflexivity.
  - unfold SIZE_MAX. lia.
Defined.
