(* ===== verification/Writer.v ===== *)
(** The writer of [bebop/src/bebop_wire.c]: a growing buffer in the arena of a
    context.  Each [bebop_writer_*] function is a definition over the heap, the
    context and the writer; its result is the returned [Bebop_Result].  The part
    of the buffer that was written is the list [wr_data]; bytes that were never
    written have no value in the model.  The data an argument points to is not
    part of the writer's own buffer. *)
From S2P Require Import Prelude.
From S2P Require Import WireTypes.
From S2P Require Import Reader.
From S2P Require Import Arena.

(** [current] is [buffer + zlen wr_data] and [end] is [buffer + wr_capacity]. *)
Record Bebop_Writer : Type := mkWriter {
  wr_buffer : Z;
  wr_data : list Z;
  wr_capacity : Z
}.

(** The state of the writer functions. *)
Record WriterState : Type := mkWS {
  ws_heap : Heap;
  ws_context : Bebop_Context;
  ws_writer : Bebop_Writer
}.

Definition set_writer (w : Bebop_Writer) (s : WriterState) : WriterState :=
  mkWS (ws_heap s) (ws_context s) w.
Definition set_data (l : list Z) (w : Bebop_Writer) : Bebop_Writer :=
  mkWriter (wr_buffer w) l (wr_capacity w).

(** The bytes written so far. *)
Definition ws_data (s : WriterState) : list Z := wr_data (ws_writer s).

Abbreviation WR A := (C WriterState A).

(** [(size_t)(writer->end - writer->current)] *)
Definition wr_avail : WR Z :=
  gets (λ s, u64 (wr_capacity (ws_writer s) - zlen (ws_data s))).
(** Stores at [writer->current] and advances it. *)
Definition wr_put (l : list Z) : WR unit :=
  λ s, if zlen (ws_data s) + zlen l <=? wr_capacity (ws_writer s)
       then Some (tt, set_writer (set_data (ws_data s ++ l) (ws_writer s)) s)
       else None.

Definition sizeof_writer : Z := 32.
Definition sizeof_reader : Z := 32.

Section Writer.
Context `{HostAllocator}.

(** [bebop_wire_arena_alloc(writer->context->arena, _)] *)
Definition wr_alloc (size : Z) : WR (option Z) :=
  λ s, match on_arena (bebop_wire_arena_alloc size) (ws_heap s, ws_context s) with
       | Some (r, (h, cx)) => Some (r, mkWS h cx (ws_writer s))
       | None => None
       end.

(** ** Creation *)

Definition bebop_context_reader (context : ptr) (source : Bebop_View)
  : C (Heap * Bebop_Context) (option Bebop_Reader) :=
  if is_null context then mret None
  else match view_data source with
  | None => mret None
  | Some _ =>
      reader ← on_arena (bebop_wire_arena_alloc sizeof_reader);
      match reader with
      | None => mret None
      | Some _ =>
          (* the storage of the reader is overwritten by the initialisation *)
          match bebop_reader_init PTR context source (mkReader [] 0 0 0 NULL) with
          | Some (result, rd) => mret (if is_ok result then Some rd else None)
          | None => ub
          end
      end
  end.

Definition bebop_context_writer (context : ptr) (capacity : Z)
  : C (Heap * Bebop_Context) (option Bebop_Writer) :=
  if is_null context then mret None
  else
    writer ← on_arena (bebop_wire_arena_alloc sizeof_writer);
    match writer with
    | None => mret None
    | Some _ =>
        cx ← gets snd;
        let buffer_size := if initial_writer_size (cx_options cx) <? capacity
                           then capacity else initial_writer_size (cx_options cx) in
        let buffer_size := if buffer_size =? 0 then 1 else buffer_size in
        buffer ← on_arena (bebop_wire_arena_alloc buffer_size);
        mret ((λ b, mkWriter b [] buffer_size) <$> buffer)
    end.

Definition bebop_writer_reset (writer : ptr) : WR unit :=
  if is_null writer then mret tt
  else modify (λ s, set_writer (set_data [] (ws_writer s)) s).

Definition bebop_writer_length (writer : ptr) : WR Z :=
  if is_null writer then mret 0 else gets (λ s, u64 (zlen (ws_data s))).

Definition bebop_writer_view (writer : ptr) : WR Bebop_View :=
  if is_null writer then mret (mkView [] None 0)
  else gets (λ s, mkView (ws_data s) (Some 0) (u64 (zlen (ws_data s)))).

Definition bebop_writer_available (writer : ptr) : WR Z :=
  if is_null writer then mret 0 else wr_avail.

(** ** Growth *)

(** The doubling loop of [bebop_writer_reserve]; [None] when the fuel runs out,
    which [grow_size_spec] excludes for 65 rounds. *)
Fixpoint grow_size (fuel : nat) (new_size target_size : Z) : option Z :=
  match fuel with
  | O => None
  | S fuel =>
      if new_size <? target_size then
        if SIZE_MAX / 2 <? new_size then Some target_size
        else grow_size fuel (new_size * 2) target_size
      else Some new_size
  end.

Definition bebop_writer_reserve (writer : ptr) (additional_bytes : Z) : WR Bebop_Result :=
  if is_null writer then mret BEBOP_RESULT_NULL
  else
    avail ← wr_avail;
    if additional_bytes <=? avail then mret BEBOP_RESULT_OK
    else
      w ← gets ws_writer;
      let current_size := u64 (wr_capacity w) in
      let used_size := u64 (zlen (wr_data w)) in
      if SIZE_MAX - used_size <? additional_bytes then mret BEBOP_RESULT_OVERFLOW
      else
        let target_size := used_size + additional_bytes in
        let new_size := if 0 <? current_size then current_size else 16 in
        new_size ← lift (grow_size 65 new_size target_size);
        new_buffer ← wr_alloc new_size;
        match new_buffer with
        | None => mret BEBOP_RESULT_OOM
        | Some b =>
            data ← lift (load_bytes (wr_data w) 0 used_size);
            modify (set_writer (mkWriter b data new_size));;
            mret BEBOP_RESULT_OK
        end.

(** [if (n > available) reserve]: the test in front of every store. *)
Definition wr_ensure (writer : ptr) (n : Z) : WR Bebop_Result :=
  avail ← wr_avail;
  if avail <? n then bebop_writer_reserve writer n else mret BEBOP_RESULT_OK.

(** Continues after a successful call, returns its error otherwise. *)
Definition if_ok (c : WR Bebop_Result) (k : WR Bebop_Result) : WR Bebop_Result :=
  result ← c;
  if is_ok result then k else mret result.

(** The NULL test and the growth every fixed-width write starts with. *)
Definition wr_guarded (writer : ptr) (n : Z) (body : WR unit) : WR Bebop_Result :=
  if is_null writer then mret BEBOP_RESULT_NULL
  else if_ok (wr_ensure writer n) (body;; mret BEBOP_RESULT_OK).

(** ** Scalars *)

Context `{Platform}.

Definition bebop_writer_write_byte (writer : ptr) (value : Z) : WR Bebop_Result :=
  wr_guarded writer 1 (wr_put [value]).

Definition bebop_writer_write_u16 (writer : ptr) (value : Z) : WR Bebop_Result :=
  wr_guarded writer 2
    (if BEBOP_WIRE_ASSUME_LE then wr_put (host_bytes 2 value)
     else wr_put [u8 value];; wr_put [u8 (Z.shiftr value 8)]).

Definition bebop_writer_write_u32 (writer : ptr) (value : Z) : WR Bebop_Result :=
  wr_guarded writer 4
    (if BEBOP_WIRE_ASSUME_LE then wr_put (host_bytes 4 value)
     else wr_put [u8 value];; wr_put [u8 (Z.shiftr value 8)];;
          wr_put [u8 (Z.shiftr value 16)];; wr_put [u8 (Z.shiftr value 24)]).

Definition bebop_writer_write_u64 (writer : ptr) (value : Z) : WR Bebop_Result :=
  wr_guarded writer 8
    (if BEBOP_WIRE_ASSUME_LE then wr_put (host_bytes 8 value)
     else wr_put [u8 value];; wr_put [u8 (Z.shiftr value 0x08)];;
          wr_put [u8 (Z.shiftr value 0x10)];; wr_put [u8 (Z.shiftr value 0x18)];;
          wr_put [u8 (Z.shiftr value 0x20)];; wr_put [u8 (Z.shiftr value 0x28)];;
          wr_put [u8 (Z.shiftr value 0x30)];; wr_put [u8 (Z.shiftr value 0x38)]).

Definition bebop_writer_write_i8 (writer : ptr) (value : Z) : WR Bebop_Result :=
  bebop_writer_write_byte writer (to_unsigned 8 value).
Definition bebop_writer_write_i16 (writer : ptr) (value : Z) : WR Bebop_Result :=
  bebop_writer_write_u16 writer (to_unsigned 16 value).
Definition bebop_writer_write_i32 (writer : ptr) (value : Z) : WR Bebop_Result :=
  bebop_writer_write_u32 writer (to_unsigned 32 value).
Definition bebop_writer_write_i64 (writer : ptr) (value : Z) : WR Bebop_Result :=
  bebop_writer_write_u64 writer (to_unsigned 64 value).

Definition bebop_writer_write_bool (writer : ptr) (value : bool) : WR Bebop_Result :=
  bebop_writer_write_byte writer (if value then 1 else 0).

(** Half, brain, single and double floats are their bit patterns. *)
Definition bebop_writer_write_f16 (writer : ptr) (value : Z) : WR Bebop_Result :=
  wr_guarded writer 2
    (if BEBOP_WIRE_ASSUME_LE then wr_put (host_bytes 2 value)
     else
       let bits := host_value (host_bytes 2 value) in
       wr_put [u8 bits];; wr_put [u8 (Z.shiftr bits 8)]).

Definition bebop_writer_write_bf16 (writer : ptr) (value : Z) : WR Bebop_Result :=
  wr_guarded writer 2
    (if BEBOP_WIRE_ASSUME_LE then wr_put (host_bytes 2 value)
     else
       let bits := host_value (host_bytes 2 value) in
       wr_put [u8 bits];; wr_put [u8 (Z.shiftr bits 8)]).

Definition bebop_writer_write_f32 (writer : ptr) (value : Z) : WR Bebop_Result :=
  let bits := host_value (host_bytes 4 value) in
  bebop_writer_write_u32 writer bits.

Definition bebop_writer_write_f64 (writer : ptr) (value : Z) : WR Bebop_Result :=
  let bits := host_value (host_bytes 8 value) in
  bebop_writer_write_u64 writer bits.

(** 128-bit integers, compiled with [BEBOP_WIRE_HAS_I128]. *)
Definition bebop_writer_write_i128 (writer : ptr) (value : Z) : WR Bebop_Result :=
  wr_guarded writer 16
    (let uval := to_unsigned 128 value in
     let low := u64 uval in
     let high := u64 (Z.shiftr uval 64) in
     wr_put (host_bytes 8 low ++ host_bytes 8 high)).

Definition bebop_writer_write_u128 (writer : ptr) (value : Z) : WR Bebop_Result :=
  wr_guarded writer 16
    (let low := u64 value in
     let high := u64 (Z.shiftr value 64) in
     wr_put (host_bytes 8 low ++ host_bytes 8 high)).

Definition bebop_writer_write_uuid (writer : ptr) (value : Bebop_UUID) : WR Bebop_Result :=
  wr_guarded writer 16 (wr_put (uuid_bytes value)).

Definition bebop_writer_write_timestamp (writer : ptr) (value : Bebop_Timestamp) : WR Bebop_Result :=
  wr_guarded writer 16 (wr_put (timestamp_host_bytes value)).

Definition bebop_writer_write_duration (writer : ptr) (value : Bebop_Duration) : WR Bebop_Result :=
  wr_guarded writer 12 (wr_put (duration_host_bytes value)).

(** ** Strings and byte arrays *)

Definition bebop_writer_write_string (writer : ptr) (value : Bebop_View) : WR Bebop_Result :=
  match view_data value with
  | None => mret BEBOP_RESULT_NULL
  | Some data =>
      if is_null writer then mret BEBOP_RESULT_NULL
      else if UINT32_MAX <=? view_length value then mret BEBOP_RESULT_OVERFLOW
      else
        if_ok (bebop_writer_write_u32 writer (u32 (view_length value)))
          (let total := u64 (view_length value + 1) in
           if_ok (wr_ensure writer total)
             (l ← lift (load_bytes (view_mem value) data (view_length value));
              wr_put (l ++ [0]);;
              mret BEBOP_RESULT_OK))
  end.

Definition bebop_writer_write_bytes (writer : ptr) (value : Bebop_View) : WR Bebop_Result :=
  match view_data value with
  | None => mret BEBOP_RESULT_NULL
  | Some data =>
      if is_null writer then mret BEBOP_RESULT_NULL
      else if UINT32_MAX <? view_length value then mret BEBOP_RESULT_OVERFLOW
      else
        if_ok (bebop_writer_write_u32 writer (u32 (view_length value)))
          (if 0 <? view_length value then
             if_ok (wr_ensure writer (view_length value))
               (l ← lift (load_bytes (view_mem value) data (view_length value));
                wr_put l;;
                mret BEBOP_RESULT_OK)
           else mret BEBOP_RESULT_OK)
  end.

Definition bebop_writer_write_fixed_bytes (writer : ptr) (value : Bebop_View) : WR Bebop_Result :=
  match view_data value with
  | None => mret BEBOP_RESULT_NULL
  | Some data =>
      if is_null writer then mret BEBOP_RESULT_NULL
      else if view_length value =? 0 then mret BEBOP_RESULT_OK
      else
        if_ok (wr_ensure writer (view_length value))
          (l ← lift (load_bytes (view_mem value) data (view_length value));
           wr_put l;;
           mret BEBOP_RESULT_OK)
  end.

(** ** Length prefixes *)

(** [position] receives the length of the writer. *)
Definition bebop_writer_begin_length (writer position : ptr) : WR (Bebop_Result * option Z) :=
  if is_null writer || is_null position then mret (BEBOP_RESULT_NULL, None)
  else
    p ← bebop_writer_length writer;
    result ← bebop_writer_write_u32 writer 0;
    mret (result, Some p).

(** Stores into the written part of the buffer. *)
Definition wr_store (position : Z) (l : list Z) : WR unit :=
  λ s, if (position <? 0) || (zlen (ws_data s) <? position + zlen l) then None
       else Some (tt, set_writer (set_data
              (take (Z.to_nat position) (ws_data s) ++ l ++
               drop (Z.to_nat (position + zlen l)) (ws_data s)) (ws_writer s)) s).

Definition bebop_writer_end_length (writer : ptr) (position length : Z) : WR Bebop_Result :=
  if is_null writer then mret BEBOP_RESULT_NULL
  else
    written ← bebop_writer_length writer;
    if (written <? 4) || (written - 4 <? position) then mret BEBOP_RESULT_MALFORMED
    else
      (if BEBOP_WIRE_ASSUME_LE then wr_store position (host_bytes 4 length)
       else
         wr_store position [u8 length];; wr_store (position + 1) [u8 (Z.shiftr length 8)];;
         wr_store (position + 2) [u8 (Z.shiftr length 16)];;
         wr_store (position + 3) [u8 (Z.shiftr length 24)]);;
      mret BEBOP_RESULT_OK.

End Writer.

(** ** Invariant and specification *)

(** The buffer lies in bytes that the arena granted, and the written part in the
    buffer. *)
Record writer_ok (L : gmap Z Z) (s : WriterState) : Prop := {
  wo_context : context_ok L (hp_live (ws_heap s)) (ws_context s);
  wo_capacity : 0 < wr_capacity (ws_writer s) < 2 ^ 61;
  wo_data : zlen (ws_data s) ≤ wr_capacity (ws_writer s);
  wo_bytes : bytes_ok (ws_data s);
  wo_owned : ∀ x, wr_buffer (ws_writer s) ≤ x < wr_buffer (ws_writer s) + wr_capacity (ws_writer s) →
                  granted (cx_arena (ws_context s)) x
}.

(** Bytes granted to anyone stay granted. *)
Definition ws_extends (s s' : WriterState) : Prop :=
  ∀ x, granted (cx_arena (ws_context s)) x → granted (cx_arena (ws_context s')) x.

(** The outcome of writing the bytes [l]: all of them were appended, or storage
    ran out after a prefix of them.  What was written before is untouched. *)
Definition wr_post (L : gmap Z Z) (s : WriterState) (l : list Z) (r : Bebop_Result) (s' : WriterState) : Prop :=
  writer_ok L s' ∧ ws_extends s s' ∧
  match r with
  | BEBOP_RESULT_OK => ws_data s' = ws_data s ++ l
  | BEBOP_RESULT_OOM => ∃ l1 l2, l = l1 ++ l2 ∧ ws_data s' = ws_data s ++ l1
  | _ => False
  end.

(** The call is defined and writes [l]. *)
Definition appends (L : gmap Z Z) (op : WR Bebop_Result) (s : WriterState) (l : list Z) : Prop :=
  ∃ r s', op s = Some (r, s') ∧ wr_post L s l r s'.

(** The call is defined and writes [l] or nothing. *)
Definition appends_atomic (L : gmap Z Z) (op : WR Bebop_Result) (s : WriterState) (l : list Z) : Prop :=
  ∃ r s', op s = Some (r, s') ∧ wr_post L s l r s' ∧ (is_ok r = false → ws_data s' = ws_data s).

(** [op] writes a value as the codec [c] encodes it, or nothing. *)
Definition writes_as {A} (op : A → WR Bebop_Result) (c : codec A) : Prop :=
  ∀ L s v, writer_ok L s → cd_valid c v → appends_atomic L (op v) s (cd_enc c v).

(** The state after [l] was stored at the cursor. *)
Definition ws_put (l : list Z) (s : WriterState) : WriterState :=
  set_writer (set_data (ws_data s ++ l) (ws_writer s)) s.

(** [n] more bytes fit. *)
Definition room (n : Z) (s : WriterState) : Prop :=
  zlen (ws_data s) + n ≤ wr_capacity (ws_writer s).

Lemma ws_put_put l1 l2 s : ws_put l2 (ws_put l1 s) = ws_put (l1 ++ l2) s.
Proof. unfold ws_put, set_writer, set_data, ws_data; cbn. by rewrite app_assoc. Qed.

Lemma wr_put_spec l s : room (zlen l) s → wr_put l s = Some (tt, ws_put l s).
Proof.
  unfold room, wr_put. intros Hr.
  by destruct (Z.leb_spec (zlen (ws_data s) + zlen l) (wr_capacity (ws_writer s))); [|lia].
Qed.

Lemma wr_put_bind {B} l s (k : unit → WR B) :
  room (zlen l) s → (wr_put l ≫= k) s = k tt (ws_put l s).
Proof. intros Hr. unfold mbind, C_bind. by rewrite wr_put_spec. Qed.

Lemma room_put n l s : room (zlen l + n) s → room n (ws_put l s).
Proof. unfold room, ws_put; cbn. unfold ws_data. rewrite zlen_app. lia. Qed.

Lemma writer_ok_put L s l :
  writer_ok L s → bytes_ok l → room (zlen l) s → writer_ok L (ws_put l s).
Proof.
  intros [] Hb Hr. constructor; cbn; auto.
  - unfold room in Hr. unfold ws_put, ws_data in *. cbn. rewrite zlen_app. lia.
  - by apply Forall_app.
Qed.

Lemma ws_extends_refl s : ws_extends s s.
Proof. by intros x. Qed.
Lemma ws_extends_trans s1 s2 s3 : ws_extends s1 s2 → ws_extends s2 s3 → ws_extends s1 s3.
Proof. unfold ws_extends. eauto. Qed.
#[export] Hint Resolve ws_extends_refl : bebop.

Lemma appends_of_atomic L op s l : appends_atomic L op s l → appends L op s l.
Proof. intros (r&s'&E&Hp&_). by exists r, s'. Qed.

Lemma appends_ok_nil L s : writer_ok L s → appends L (mret BEBOP_RESULT_OK) s [].
Proof.
  intros Ho. exists BEBOP_RESULT_OK, s. split; [done|]. split_and!; [done|auto with bebop|].
  by rewrite app_nil_r.
Qed.

(** Sequencing: the second call runs on what the first one left. *)
Lemma appends_if_ok L c k s l1 l2 :
  appends L c s l1 →
  (∀ s1, writer_ok L s1 → ws_extends s s1 → ws_data s1 = ws_data s ++ l1 → appends L k s1 l2) →
  appends L (if_ok c k) s (l1 ++ l2).
Proof.
  intros (r&s1&E&Ho&Hx&Hr) Hk. unfold appends, if_ok. rewrite (C_bind_Some _ _ _ _ _ E).
  destruct r; try done; cbn [is_ok].
  - destruct (Hk s1 Ho Hx Hr) as (r2&s2&E2&Ho2&Hx2&Hr2).
    exists r2, s2. split; [done|]. split_and!; [done|by eapply ws_extends_trans|].
    destruct r2; try done.
    + by rewrite Hr2, Hr, app_assoc.
    + destruct Hr2 as (l3&l4&->&E3). exists (l1 ++ l3), l4.
      by rewrite E3, Hr, !app_assoc.
  - exists BEBOP_RESULT_OOM, s1. split; [done|]. split_and!; [done..|].
    destruct Hr as (l3&l4&->&E3). exists l3, (l4 ++ l2). by rewrite app_assoc.
Qed.

(** *** Growth *)

Lemma grow_size_spec fuel new_size target :
  0 < new_size → target ≤ SIZE_MAX → SIZE_MAX / 2 < new_size * 2 ^ Z.of_nat fuel →
  ∃ r, grow_size (S fuel) new_size target = Some r ∧ target ≤ r ∧ (r = new_size ∨ r < 2 * target).
Proof.
  revert new_size. induction fuel as [|fuel IH]; intros new_size Hn Ht Hf; cbn [grow_size];
    destruct (Z.ltb_spec new_size target); try (eexists; split_and!; eauto; lia).
  - destruct (Z.ltb_spec (SIZE_MAX / 2) new_size); [|lia]. exists target. split_and!; auto; lia.
  - destruct (Z.ltb_spec (SIZE_MAX / 2) new_size); [exists target; split_and!; auto; lia|].
    rewrite Nat2Z.inj_succ, Z.pow_succ_r in Hf by lia.
    destruct (IH (new_size * 2) ltac:(lia) Ht ltac:(lia)) as (r&E&Hr&Hd).
    exists r. cbn [grow_size] in E. split_and!; [done|done|lia].
Qed.

Section WriterSpecs.
Context `{HostAllocatorOk} `{PlatformOk}.

Lemma wr_avail_spec L s :
  writer_ok L s → wr_avail s = Some (wr_capacity (ws_writer s) - zlen (ws_data s), s).
Proof. intros []. unfold wr_avail, gets. rewrite u64_small; [done|zlen_pos; lia]. Qed.

Lemma wr_avail_bind {B} L s (k : Z → WR B) :
  writer_ok L s → (wr_avail ≫= k) s = k (wr_capacity (ws_writer s) - zlen (ws_data s)) s.
Proof. intros Ho. by rewrite (C_bind_Some _ _ _ _ _ (wr_avail_spec L s Ho)). Qed.

Lemma wr_alloc_spec L s size :
  writer_ok L s → 0 < size ≤ 2 ^ 63 - 16 →
  ∃ r s', wr_alloc size s = Some (r, s') ∧ writer_ok L s' ∧ ws_extends s s' ∧ ws_writer s' = ws_writer s ∧
    match r with
    | None => True
    | Some p => size < 2 ^ 61 ∧ ∀ x, p ≤ x < p + size → granted (cx_arena (ws_context s')) x
    end.
Proof.
  intros Ho Hs. unfold wr_alloc.
  destruct (context_alloc_spec L _ _ size (wo_context _ _ Ho) ltac:(lia)) as (r&h'&ar'&E&Hc&Hp).
  unfold bebop_context_alloc in E. cbn [is_null] in E. rewrite E.
  assert (Hx : ∀ x, granted (cx_arena (ws_context s)) x → granted ar' x).
  { destruct r; [by destruct Hp as [_ []]|by destruct Hp as [-> _]]. }
  exists r, (mkWS h' (set_arena ar' (ws_context s)) (ws_writer s)). split_and!; [done| |done|done|].
  - destruct Ho. constructor; cbn; auto.
  - destruct r; [|done]. destruct Hp as [_ [Hnew _ _ _ Hsize]]. split; [|intros x Hxr; by apply Hnew].
    pose proof (proj2 (ak_options _ _ _ (ck_arena _ _ _ Hc))). cbn in *. lia.
Qed.

(** [bebop_writer_reserve] makes room or leaves the written bytes alone. *)
Lemma reserve_spec L s n :
  writer_ok L s → 0 ≤ n ≤ 2 ^ 61 - 16 →
  ∃ r s', bebop_writer_reserve PTR n s = Some (r, s') ∧ writer_ok L s' ∧ ws_extends s s' ∧
    ws_data s' = ws_data s ∧ (r = BEBOP_RESULT_OK ∧ room n s' ∨ r = BEBOP_RESULT_OOM).
Proof.
  intros Ho Hn. unfold bebop_writer_reserve. cbn [is_null]. rewrite (wr_avail_bind L) by done.
  pose proof (wo_capacity _ _ Ho) as Hc. pose proof (wo_data _ _ Ho) as Hd.
  pose proof (zlen_nonneg (ws_data s)) as Hz.
  destruct (Z.leb_spec n (wr_capacity (ws_writer s) - zlen (ws_data s))) as [Hle|Hgt].
  { exists BEBOP_RESULT_OK, s. split_and!; auto with bebop. left. split; [done|]. unfold room. lia. }
  unfold gets, mbind at 1, C_bind at 1. unfold ws_data in *.
  rewrite !u64_small by lia.
  destruct (Z.ltb_spec (SIZE_MAX - zlen (wr_data (ws_writer s))) n) as [|_]; [unfold SIZE_MAX in *; lia|].
  destruct (Z.ltb_spec 0 (wr_capacity (ws_writer s))) as [_|]; [|lia].
  destruct (grow_size_spec 64 (wr_capacity (ws_writer s)) (zlen (wr_data (ws_writer s)) + n))
    as (new&Eg&Ht&Hnew); [lia|unfold SIZE_MAX; lia| |].
  { change (SIZE_MAX / 2) with 0x7fffffffffffffff. change (2 ^ Z.of_nat 64) with 0x10000000000000000. lia. }
  rewrite (C_lift_bind _ _ _ _ Eg).
  destruct (wr_alloc_spec L s new Ho ltac:(lia)) as (p&s1&Ea&Ho1&Hx&Ew&Hp).
  rewrite (C_bind_Some _ _ _ _ _ Ea). destruct p as [p|].
  - destruct Hp as [Hsz Hg]. rewrite (C_lift_bind _ _ _ _ (load_bytes_all _)).
    eexists BEBOP_RESULT_OK, _. split_and!; [done| |done|done|].
    + destruct Ho1. constructor; cbn; auto; unfold ws_data in *; cbn; [lia|lia|by rewrite <- Ew].
    + left. split; [done|]. unfold room, ws_data; cbn. lia.
  - exists BEBOP_RESULT_OOM, s1. split_and!; auto. by rewrite Ew.
Qed.

Lemma ensure_spec L s n :
  writer_ok L s → 0 ≤ n ≤ 2 ^ 61 - 16 →
  ∃ r s', wr_ensure PTR n s = Some (r, s') ∧ writer_ok L s' ∧ ws_extends s s' ∧
    ws_data s' = ws_data s ∧ (r = BEBOP_RESULT_OK ∧ room n s' ∨ r = BEBOP_RESULT_OOM).
Proof.
  intros Ho Hn. unfold wr_ensure. rewrite (wr_avail_bind L) by done.
  destruct (Z.ltb_spec (wr_capacity (ws_writer s) - zlen (ws_data s)) n); [by apply reserve_spec|].
  exists BEBOP_RESULT_OK, s. split_and!; auto with bebop. left. split; [done|]. unfold room. lia.
Qed.

(** A store behind the growth test. *)
Lemma ensure_put_atomic L s n (body : WR Bebop_Result) l :
  writer_ok L s → bytes_ok l → zlen l ≤ n ≤ 2 ^ 61 - 16 →
  (∀ s1, writer_ok L s1 → ws_data s1 = ws_data s → room n s1 →
     body s1 = Some (BEBOP_RESULT_OK, ws_put l s1)) →
  appends_atomic L (if_ok (wr_ensure PTR n) body) s l.
Proof.
  intros Ho Hb Hn Hbody. pose proof (zlen_nonneg l).
  destruct (ensure_spec L s n Ho ltac:(lia)) as (r&s1&E&Ho1&Hx&Hd&Hr).
  unfold appends_atomic, if_ok. rewrite (C_bind_Some _ _ _ _ _ E).
  destruct Hr as [[-> Hroom]| ->]; cbn [is_ok].
  - rewrite Hbody by done. eexists _, _. split; [done|]. split; [|done]. split_and!.
    + apply writer_ok_put; auto. unfold room in *. lia.
    + done.
    + unfold ws_put, ws_data in *. cbn. by rewrite Hd.
  - eexists _, _. split; [done|]. split; [|done]. split_and!; auto. exists [], l.
    by rewrite app_nil_r.
Qed.

Lemma guarded_atomic L s n (body : WR unit) l :
  writer_ok L s → bytes_ok l → zlen l = n → n ≤ 2 ^ 61 - 16 →
  (∀ s1, room n s1 → body s1 = Some (tt, ws_put l s1)) →
  appends_atomic L (wr_guarded PTR n body) s l.
Proof.
  intros Ho Hb Hl Hn Hbody. unfold wr_guarded. cbn [is_null].
  apply ensure_put_atomic; [done..|lia|]. intros s1 _ _ Hr.
  by rewrite (C_bind_Some _ _ _ _ _ (Hbody s1 Hr)).
Qed.

(** *** The scalar writers *)

Lemma put_le s n z : room (Z.of_nat n) s →
  BEBOP_WIRE_ASSUME_LE = true → wr_put (host_bytes n z) s = Some (tt, ws_put (le_bytes n z) s).
Proof. intros Hr E. rewrite host_bytes_le by done. apply wr_put_spec. by rewrite zlen_le_bytes. Qed.

Lemma put_bytewise b l k s :
  room (1 + zlen l) s → (∀ s1, room (zlen l) s1 → k s1 = Some (tt, ws_put l s1)) →
  (wr_put [b];; k) s = Some (tt, ws_put (b :: l) s).
Proof.
  intros Hr Hk. rewrite wr_put_bind by (unfold room in *; zlia).
  rewrite Hk by (apply room_put; unfold room in *; zlia). by rewrite ws_put_put.
Qed.

(** The byte-wise stores of the portable build. *)
Ltac bytewise :=
  repeat (apply put_bytewise;
    [unfold room in *; unfold zlen in *; cbn [length] in *; lia|intros ? ?]);
  (apply wr_put_spec; assumption).

Lemma write_byte_atomic L s v :
  writer_ok L s → byte_ok v → appends_atomic L (bebop_writer_write_byte PTR v) s [v].
Proof.
  intros Ho Hv. apply guarded_atomic; [done|by constructor|done|lia|].
  intros s1 Hr. by apply wr_put_spec.
Qed.

Lemma write_u16_atomic L s v :
  writer_ok L s → appends_atomic L (bebop_writer_write_u16 PTR v) s (le_bytes 2 v).
Proof.
  intros Ho. apply guarded_atomic; [done|auto with bebop|done|lia|]. intros s1 Hr.
  destruct BEBOP_WIRE_ASSUME_LE eqn:EL; [by apply put_le|]. rewrite le_bytes2. bytewise.
Qed.

Lemma write_u32_atomic L s v :
  writer_ok L s → appends_atomic L (bebop_writer_write_u32 PTR v) s (le_bytes 4 v).
Proof.
  intros Ho. apply guarded_atomic; [done|auto with bebop|done|lia|]. intros s1 Hr.
  destruct BEBOP_WIRE_ASSUME_LE eqn:EL; [by apply put_le|]. rewrite le_bytes4. bytewise.
Qed.

Lemma write_u64_atomic L s v :
  writer_ok L s → appends_atomic L (bebop_writer_write_u64 PTR v) s (le_bytes 8 v).
Proof.
  intros Ho. apply guarded_atomic; [done|auto with bebop|done|lia|]. intros s1 Hr.
  destruct BEBOP_WIRE_ASSUME_LE eqn:EL; [by apply put_le|]. rewrite le_bytes8. bytewise.
Qed.

Lemma write_byte_writes : writes_as (bebop_writer_write_byte PTR) (uint_codec 1).
Proof.
  intros L s v Ho Hv. unfold cd_valid, uint_codec, uint_ok in Hv. cbn in Hv.
  replace (cd_enc (uint_codec 1) v) with [v] by (cbn; by rewrite Z.mod_small by lia).
  apply write_byte_atomic; [done|]. unfold byte_ok. lia.
Qed.
Lemma write_u16_writes : writes_as (bebop_writer_write_u16 PTR) (uint_codec 2).
Proof. intros L s v Ho _. by apply write_u16_atomic. Qed.
Lemma write_u32_writes : writes_as (bebop_writer_write_u32 PTR) (uint_codec 4).
Proof. intros L s v Ho _. by apply write_u32_atomic. Qed.
Lemma write_u64_writes : writes_as (bebop_writer_write_u64 PTR) (uint_codec 8).
Proof. intros L s v Ho _. by apply write_u64_atomic. Qed.
Lemma write_i8_writes : writes_as (bebop_writer_write_i8 PTR) i8_codec.
Proof.
  intros L s v Ho _. unfold bebop_writer_write_i8.
  pose proof (to_unsigned_range 8 v ltac:(lia)) as Hr.
  replace (cd_enc _ v) with [to_unsigned 8 v].
  - apply write_byte_atomic; [done|]. unfold byte_ok. lia.
  - cbn [cd_enc i8_codec int_codec le_bytes]. by rewrite Z.mod_small by done.
Qed.
Lemma write_i16_writes : writes_as (bebop_writer_write_i16 PTR) i16_codec.
Proof. intros L s v Ho _. by apply write_u16_atomic. Qed.
Lemma write_i32_writes : writes_as (bebop_writer_write_i32 PTR) i32_codec.
Proof. intros L s v Ho _. by apply write_u32_atomic. Qed.
Lemma write_i64_writes : writes_as (bebop_writer_write_i64 PTR) i64_codec.
Proof. intros L s v Ho _. by apply write_u64_atomic. Qed.

Lemma write_bool_writes : writes_as (bebop_writer_write_bool PTR) bool_codec.
Proof. intros L s v Ho _. apply write_byte_atomic; [done|]. by destruct v. Qed.

Lemma write_f16_writes : writes_as (bebop_writer_write_f16 PTR) (uint_codec 2).
Proof.
  intros L s v Ho Hv. apply guarded_atomic; [done|apply le_bytes_ok|done|lia|]. intros s1 Hr.
  destruct BEBOP_WIRE_ASSUME_LE eqn:EL; [by apply put_le|].
  rewrite host_value_bytes by done. cbn [cd_enc uint_codec]. rewrite le_bytes2. bytewise.
Qed.
Lemma write_bf16_writes : writes_as (bebop_writer_write_bf16 PTR) (uint_codec 2).
Proof. apply write_f16_writes. Qed.
Lemma write_f32_writes : writes_as (bebop_writer_write_f32 PTR) (uint_codec 4).
Proof.
  intros L s v Ho Hv. unfold bebop_writer_write_f32. rewrite host_value_bytes by done.
  by apply write_u32_atomic.
Qed.
Lemma write_f64_writes : writes_as (bebop_writer_write_f64 PTR) (uint_codec 8).
Proof.
  intros L s v Ho Hv. unfold bebop_writer_write_f64. rewrite host_value_bytes by done.
  by apply write_u64_atomic.
Qed.

(** The two 64-bit halves of a 128-bit value. *)
Lemma le_bytes_halves z : 0 ≤ z → le_bytes 8 (u64 z) ++ le_bytes 8 (u64 (Z.shiftr z 64)) = le_bytes 16 z.
Proof.
  intros Hz. change 16%nat with (8 + 8)%nat. rewrite le_bytes_app, Z.shiftr_div_pow2 by lia.
  change (2 ^ 64) with (256 ^ Z.of_nat 8). unfold u64. change (2 ^ 64) with (256 ^ Z.of_nat 8).
  by rewrite !le_bytes_mod.
Qed.

Lemma write_u128_writes : HOST_LE = true → writes_as (bebop_writer_write_u128 PTR) (uint_codec 16).
Proof.
  intros HL L s v Ho Hv. apply guarded_atomic; [done|apply le_bytes_ok|done|lia|]. intros s1 Hr.
  unfold host_bytes. rewrite HL, le_bytes_halves by apply Hv. by apply wr_put_spec.
Qed.
Lemma write_i128_writes :
  HOST_LE = true → writes_as (bebop_writer_write_i128 PTR) i128_codec.
Proof.
  intros HL L s v Ho Hv. apply guarded_atomic; [done|apply le_bytes_ok|done|lia|]. intros s1 Hr.
  unfold host_bytes. rewrite HL, le_bytes_halves by (apply to_unsigned_range; lia).
  by apply wr_put_spec.
Qed.

Lemma write_uuid_writes : writes_as (bebop_writer_write_uuid PTR) uuid_codec.
Proof.
  intros L s v Ho [Hl Hb]. assert (Hz : zlen (uuid_bytes v) = 16) by (unfold zlen; by rewrite Hl).
  apply guarded_atomic; [done..|lia|]. intros s1 Hr. apply wr_put_spec. cbn [cd_enc uuid_codec]. by rewrite Hz.
Qed.
Lemma write_timestamp_writes :
  HOST_LE = true → writes_as (bebop_writer_write_timestamp PTR) timestamp_codec.
Proof.
  intros HL L s v Ho Hv. unfold bebop_writer_write_timestamp. rewrite (proj1 (timestamp_host_le HL)).
  apply guarded_atomic; [done|by apply (cd_enc_ok _ timestamp_codec)|done|lia|].
  intros s1 Hr. by apply wr_put_spec.
Qed.
Lemma write_duration_writes :
  HOST_LE = true → writes_as (bebop_writer_write_duration PTR) duration_codec.
Proof.
  intros HL L s v Ho Hv. unfold bebop_writer_write_duration. rewrite (proj1 (duration_host_le HL)).
  apply guarded_atomic; [done|by apply (cd_enc_ok _ duration_codec)|done|lia|].
  intros s1 Hr. by apply wr_put_spec.
Qed.

(** *** Strings and byte arrays *)

Lemma view_load v d :
  view_ok v → view_data v = Some d →
  load_bytes (view_mem v) d (view_length v) = Some (view_bytes v) ∧
  bytes_ok (view_bytes v) ∧ zlen (view_bytes v) = view_length v.
Proof.
  intros (d'&E&?&?&?&?&Hb) Ed. assert (d' = d) as -> by congruence.
  assert (El : load_bytes (view_mem v) d (view_length v) = Some (view_bytes v)).
  { unfold view_bytes. rewrite Ed. by apply load_bytes_in. }
  split_and!; [done|by eapply load_bytes_ok|by eapply load_bytes_zlen].
Qed.

Lemma write_string_appends L s v :
  writer_ok L s → view_ok v → view_length v < UINT32_MAX →
  appends L (bebop_writer_write_string PTR v) s
    (le_bytes 4 (view_length v) ++ view_bytes v ++ [0]).
Proof.
  intros Ho Hv Hl. pose proof Hv as (d&Ed&_&Hn&_). unfold UINT32_MAX in Hl.
  destruct (view_load v d Hv Ed) as (El&Hb&Hz). unfold bebop_writer_write_string. rewrite Ed.
  cbn [is_null]. destruct (Z.leb_spec UINT32_MAX (view_length v)); [unfold UINT32_MAX in *; lia|].
  rewrite u32_small by lia. apply appends_if_ok; [by apply appends_of_atomic, write_u32_atomic|].
  intros s1 Ho1 _ _. cbv zeta. rewrite u64_small by lia. apply appends_of_atomic.
  apply (ensure_put_atomic L s1); [done| | |].
  - apply Forall_app; split; [done|]. by repeat constructor.
  - autorewrite with bebop. lia.
  - intros s2 _ _ Hr. rewrite (C_lift_bind _ _ _ _ El).
    by rewrite wr_put_bind by (autorewrite with bebop; by rewrite Hz, Z.add_0_r).
Qed.

Lemma write_bytes_appends L s v :
  writer_ok L s → view_ok v → view_length v ≤ UINT32_MAX →
  appends L (bebop_writer_write_bytes PTR v) s (le_bytes 4 (view_length v) ++ view_bytes v).
Proof.
  intros Ho Hv Hl. pose proof Hv as (d&Ed&_&Hn&_). unfold UINT32_MAX in Hl.
  destruct (view_load v d Hv Ed) as (El&Hb&Hz). unfold bebop_writer_write_bytes. rewrite Ed.
  cbn [is_null]. destruct (Z.ltb_spec UINT32_MAX (view_length v)); [unfold UINT32_MAX in *; lia|].
  rewrite u32_small by lia. apply appends_if_ok; [by apply appends_of_atomic, write_u32_atomic|].
  intros s1 Ho1 _ _. destruct (Z.ltb_spec 0 (view_length v)).
  - apply appends_of_atomic. apply (ensure_put_atomic L s1); [done..|lia|].
    intros s2 _ _ Hr. rewrite (C_lift_bind _ _ _ _ El). by rewrite wr_put_bind by (by rewrite Hz).
  - replace (view_bytes v) with (@nil Z); [by apply appends_ok_nil|].
    destruct (view_bytes v); [done|zlia].
Qed.

Lemma write_fixed_bytes_appends L s v :
  writer_ok L s → view_ok v → view_length v ≤ 2 ^ 61 - 16 →
  appends_atomic L (bebop_writer_write_fixed_bytes PTR v) s (view_bytes v).
Proof.
  intros Ho Hv Hl. pose proof Hv as (d&Ed&_&Hn&_).
  destruct (view_load v d Hv Ed) as (El&Hb&Hz). unfold bebop_writer_write_fixed_bytes. rewrite Ed.
  cbn [is_null]. destruct (Z.eqb_spec (view_length v) 0).
  - replace (view_bytes v) with (@nil Z) by (destruct (view_bytes v); [done|zlia]).
    destruct (appends_ok_nil L s Ho) as (r&s'&E&Hp). exists r, s'. split_and!; [done|done|].
    unfold mret, C_ret in E. by simplify_eq.
  - apply ensure_put_atomic; [done..|lia|].
    intros s2 _ _ Hr. rewrite (C_lift_bind _ _ _ _ El). by rewrite wr_put_bind by (by rewrite Hz).
Qed.

(** *** Creation, views and length prefixes *)

Lemma on_arena_alloc L h cx size :
  context_ok L (hp_live h) cx → 0 < size ≤ 2 ^ 63 - 16 →
  ∃ r h' cx', on_arena (bebop_wire_arena_alloc size) (h, cx) = Some (r, (h', cx')) ∧
    context_ok L (hp_live h') cx' ∧ cx_options cx' = cx_options cx ∧
    (∀ x, granted (cx_arena cx) x → granted (cx_arena cx') x) ∧
    match r with
    | None => True
    | Some p => size < 2 ^ 61 ∧ ∀ x, p ≤ x < p + size → granted (cx_arena cx') x ∧ ¬ granted (cx_arena cx) x
    end.
Proof.
  intros Hc Hs. destruct (context_alloc_spec L h cx size Hc ltac:(lia)) as (r&h'&ar&E&Hc'&Hp).
  exists r, h', (set_arena ar cx). split_and!; [done|done|done| |].
  - destruct r; [by destruct Hp as [_ []]|by destruct Hp as [-> _]].
  - destruct r; [|done]. destruct Hp as [_ [Hnew _ _ _ Hsize]]. split; [|done].
    pose proof (proj2 (ak_options _ _ _ (ck_arena _ _ _ Hc'))). cbn in *. lia.
Qed.

(** A new writer is empty and owns its buffer. *)
Lemma context_writer_spec L h cx capacity :
  context_ok L (hp_live h) cx → 0 ≤ capacity ≤ 2 ^ 61 → 0 ≤ initial_writer_size (cx_options cx) ≤ 2 ^ 61 →
  ∃ r h' cx', bebop_context_writer PTR capacity (h, cx) = Some (r, (h', cx')) ∧
    context_ok L (hp_live h') cx' ∧
    match r with
    | None => True
    | Some w => writer_ok L (mkWS h' cx' w) ∧ wr_data w = [] ∧ capacity ≤ wr_capacity w
    end.
Proof.
  intros Hc Hcap Hini. unfold bebop_context_writer. cbn [is_null].
  destruct (on_arena_alloc L h cx sizeof_writer Hc ltac:(done)) as (r&h1&cx1&E&Hc1&Hopt&_&_).
  rewrite (C_bind_Some _ _ _ _ _ E). destruct r as [a|]; [|by exists None, h1, cx1].
  unfold gets, mbind at 1, C_bind at 1. cbn [snd]. rewrite Hopt.
  set (size := if (if _ <? capacity then capacity else _) =? 0 then 1 else _).
  assert (Hsize : 0 < size ≤ 2 ^ 61 ∧ capacity ≤ size).
  { subst size. destruct (Z.ltb_spec (initial_writer_size (cx_options cx)) capacity);
      match goal with |- context [?x =? 0] => destruct (Z.eqb_spec x 0) end; lia. }
  destruct (on_arena_alloc L h1 cx1 size Hc1 ltac:(lia)) as (r&h2&cx2&E2&Hc2&_&_&Hp).
  rewrite (C_bind_Some _ _ _ _ _ E2). exists ((λ b, mkWriter b [] size) <$> r), h2, cx2.
  split_and!; [done|done|]. destruct r as [b|]; [|done]. destruct Hp as [Hs Hg].
  split_and!; [|done|cbn; lia]. constructor; cbn; auto; try (unfold ws_data, zlen; cbn; lia).
  intros x Hx. by apply Hg.
Qed.

Lemma writer_view_spec L s :
  writer_ok L s →
  bebop_writer_view PTR s = Some (mkView (ws_data s) (Some 0) (zlen (ws_data s)), s) ∧
  view_ok (mkView (ws_data s) (Some 0) (zlen (ws_data s))) ∧
  view_bytes (mkView (ws_data s) (Some 0) (zlen (ws_data s))) = ws_data s.
Proof.
  intros []. zlen_pos. unfold bebop_writer_view, gets. cbn [is_null]. rewrite u64_small by lia.
  split_and!; [done| |].
  - exists 0. cbn. split_and!; auto; lia.
  - cbn. unfold zlen. by rewrite Nat2Z.id, drop_0, firstn_all.
Qed.

Lemma writer_length_spec L s :
  writer_ok L s → bebop_writer_length PTR s = Some (zlen (ws_data s), s).
Proof.
  intros []. zlen_pos. unfold bebop_writer_length, gets. cbn [is_null]. by rewrite u64_small by lia.
Qed.

(** [bebop_writer_reset] forgets the written bytes and keeps the buffer. *)
Lemma writer_reset_spec L s :
  writer_ok L s → ∃ s', bebop_writer_reset PTR s = Some (tt, s') ∧ writer_ok L s' ∧ ws_data s' = [].
Proof.
  intros []. eexists. split; [done|]. split; [|done]. constructor; cbn; auto.
  unfold ws_data, zlen. cbn. lia.
Qed.

Lemma begin_length_spec L s :
  writer_ok L s →
  ∃ r s', bebop_writer_begin_length PTR PTR s = Some ((r, Some (zlen (ws_data s))), s') ∧
          wr_post L s (le_bytes 4 0) r s'.
Proof.
  intros Ho. unfold bebop_writer_begin_length. cbn [is_null orb].
  rewrite (C_bind_Some _ _ _ _ _ (writer_length_spec L s Ho)).
  destruct (write_u32_atomic L s 0 Ho) as (r&s'&E&Hp&_). exists r, s'.
  by rewrite (C_bind_Some _ _ _ _ _ E).
Qed.

(** A store of [l] at the place of [old]. *)
Definition ws_patch (pre l post : list Z) (s : WriterState) : WriterState :=
  set_writer (set_data (pre ++ l ++ post) (ws_writer s)) s.

Lemma wr_store_spec pre old l post s :
  ws_data s = pre ++ old ++ post → length l = length old →
  wr_store (zlen pre) l s = Some (tt, ws_patch pre l post s).
Proof.
  intros E Hl. assert (Hz : zlen l = zlen old) by (unfold zlen; by rewrite Hl).
  unfold wr_store. rewrite E, Hz.
  assert ((zlen pre <? 0) || (zlen (pre ++ old ++ post) <? zlen pre + zlen old) = false) as ->.
  { zlen_pos. destruct (Z.ltb_spec (zlen pre) 0); [lia|]. apply Z.ltb_ge. zlia. }
  unfold ws_patch. rewrite <- zlen_app. unfold zlen. rewrite !Nat2Z.id, take_app_length.
  by rewrite (app_assoc pre old post), drop_app_length.
Qed.

Lemma writer_ok_patch L s pre old l post :
  writer_ok L s → ws_data s = pre ++ old ++ post → length l = length old → bytes_ok l →
  writer_ok L (ws_patch pre l post s).
Proof.
  intros [] E Hl Hb. rewrite E in *. constructor; cbn; auto; unfold ws_patch, ws_data in *; cbn.
  - unfold zlen in *. rewrite !length_app in *. lia.
  - rewrite !Forall_app in *. tauto.
Qed.

Lemma store_byte s pre o b post :
  ws_data s = pre ++ o :: post →
  wr_store (zlen pre) [b] s = Some (tt, ws_patch (pre ++ [b]) [] post s).
Proof.
  intros E. rewrite (wr_store_spec pre [o] [b] post) by done. unfold ws_patch. by rewrite <- app_assoc.
Qed.

Lemma patch_patch s p1 l1 q1 p2 l2 q2 :
  ws_patch p2 l2 q2 (ws_patch p1 l1 q1 s) = ws_patch p2 l2 q2 s.
Proof. done. Qed.

Lemma bytewise_store s pre o0 o1 o2 o3 post b0 b1 b2 b3 :
  ws_data s = pre ++ [o0; o1; o2; o3] ++ post →
  (wr_store (zlen pre) [b0];; wr_store (zlen pre + 1) [b1];;
   wr_store (zlen pre + 2) [b2];; wr_store (zlen pre + 3) [b3]) s
  = Some (tt, ws_patch pre [b0; b1; b2; b3] post s).
Proof.
  intros E. cbn [app] in E.
  rewrite (C_bind_Some _ _ _ _ _ (store_byte s pre o0 b0 _ E)).
  replace (zlen pre + 1) with (zlen (pre ++ [b0])) by zlia.
  rewrite (C_bind_Some _ _ _ _ _ (store_byte (ws_patch (pre ++ [b0]) [] _ s) (pre ++ [b0]) o1 b1 (o2 :: o3 :: post) eq_refl)).
  replace (zlen pre + 2) with (zlen ((pre ++ [b0]) ++ [b1])) by zlia.
  rewrite (C_bind_Some _ _ _ _ _ (store_byte (ws_patch ((pre ++ [b0]) ++ [b1]) [] _ _) ((pre ++ [b0]) ++ [b1]) o2 b2 (o3 :: post) eq_refl)).
  replace (zlen pre + 3) with (zlen (((pre ++ [b0]) ++ [b1]) ++ [b2])) by zlia.
  rewrite (store_byte (ws_patch (((pre ++ [b0]) ++ [b1]) ++ [b2]) [] _ _) (((pre ++ [b0]) ++ [b1]) ++ [b2]) o3 b3 post eq_refl).
  rewrite !patch_patch. unfold ws_patch. by rewrite <- !app_assoc.
Qed.

(** [bebop_writer_end_length] overwrites the four bytes at [position], in both builds. *)
Lemma end_length_spec L s pre old post len :
  writer_ok L s → ws_data s = pre ++ old ++ post → length old = 4%nat →
  bebop_writer_end_length PTR (zlen pre) len s = Some (BEBOP_RESULT_OK, ws_patch pre (le_bytes 4 len) post s) ∧
  writer_ok L (ws_patch pre (le_bytes 4 len) post s).
Proof.
  intros Ho E Hl. split; [|eapply writer_ok_patch; [done|done|by rewrite length_le_bytes|auto with bebop]].
  unfold bebop_writer_end_length. cbn [is_null].
  rewrite (C_bind_Some _ _ _ _ _ (writer_length_spec L s Ho)), E.
  assert (Hz : zlen old = 4) by (unfold zlen; by rewrite Hl).
  assert ((zlen (pre ++ old ++ post) <? 4) || (zlen (pre ++ old ++ post) - 4 <? zlen pre) = false) as ->.
  { apply orb_false_iff; split; apply Z.ltb_ge; zlia. }
  destruct BEBOP_WIRE_ASSUME_LE eqn:EL.
  - rewrite host_bytes_le by done.
    by rewrite (C_bind_Some _ _ _ _ _ (wr_store_spec pre old (le_bytes 4 len) post s E
         ltac:(by rewrite length_le_bytes))).
  - destruct old as [|o0 [|o1 [|o2 [|o3 [|]]]]]; try done. rewrite le_bytes4.
    by rewrite (C_bind_Some _ _ _ _ _ (bytewise_store s pre o0 o1 o2 o3 post _ _ _ _ E)).
Qed.
End WriterSpecs.
