(* ===== verification/Arrays.v ===== *)
(** Array writers and fixed-size array readers of [bebop/src/bebop_wire.c].
    The C code repeats one text for every element type; here the text is a
    definition over the element's size, object representation and scalar
    operation, and each C function instantiates it.  An array argument is the
    list of the elements at the pointer; [None] is NULL. *)
From S2P Require Import Prelude.
From S2P Require Import WireTypes.
From S2P Require Import Reader.
From S2P Require Import Arena.
From S2P Require Import Writer.

(** [bebop_bytes(data, length)] *)
Definition bebop_bytes (data : option (list Z)) (length : Z) : Bebop_View :=
  match data with
  | Some mem => mkView mem (Some 0) length
  | None => mkView [] None length
  end.

(** ** Writers *)

Section ArrayWriters.
Context `{HostAllocator} `{Platform}.

(** [for (i = 0; i < length; i++) write(writer, data[i])] with its early return;
    reading past the array is undefined. *)
Fixpoint write_elements {A} (write : A → WR Bebop_Result) (length : nat) (data : list A) : WR Bebop_Result :=
  match length with
  | O => mret BEBOP_RESULT_OK
  | S length =>
      match data with
      | [] => ub
      | v :: data => if_ok (write v) (write_elements write length data)
      end
  end.

(** [memcpy(writer->current, data, total_bytes); writer->current += total_bytes] *)
Definition copy_elements {A} (object : A → list Z) (length : Z) (data : list A) : WR Bebop_Result :=
  if zlen data <? length then ub
  else wr_put (concat (map object (take (Z.to_nat length) data)));; mret BEBOP_RESULT_OK.

(** The element count in front of a variable-length array. *)
Definition array_header {A} (writer : ptr) (data : option (list A)) (length : Z)
    (k : list A → WR Bebop_Result) : WR Bebop_Result :=
  match data with
  | None => mret BEBOP_RESULT_NULL
  | Some data =>
      if is_null writer then mret BEBOP_RESULT_NULL
      else if UINT32_MAX <? length then mret BEBOP_RESULT_OVERFLOW
      else if_ok (bebop_writer_write_u32 writer (u32 length))
             (if length =? 0 then mret BEBOP_RESULT_OK else k data)
  end.

(** The tests in front of a fixed-size array. *)
Definition fixed_header {A} (writer : ptr) (data : option (list A)) (count : Z)
    (k : list A → WR Bebop_Result) : WR Bebop_Result :=
  match data with
  | None => mret BEBOP_RESULT_NULL
  | Some data =>
      if is_null writer then mret BEBOP_RESULT_NULL
      else if count =? 0 then mret BEBOP_RESULT_OK
      else k data
  end.

(** Room for [length] elements of [size] bytes, with the overflow test. *)
Definition array_room (writer : ptr) (length size : Z) (k : WR Bebop_Result) : WR Bebop_Result :=
  if SIZE_MAX / size <? length then mret BEBOP_RESULT_OVERFLOW
  else if_ok (wr_ensure writer (length * size)) k.

(** The elements: one copy when the host has the wire's byte order. *)
Definition array_elements {A} (object : A → list Z) (write : A → WR Bebop_Result) (length : Z) (data : list A)
  : WR Bebop_Result :=
  if BEBOP_WIRE_ASSUME_LE then copy_elements object length data
  else write_elements write (Z.to_nat length) data.

Definition write_array {A} (object : A → list Z) (write : A → WR Bebop_Result) (size : Z)
    (writer : ptr) (data : option (list A)) (length : Z) : WR Bebop_Result :=
  array_header writer data length (λ data,
    array_room writer length size (array_elements object write length data)).

Definition write_array_copy {A} (object : A → list Z) (size : Z)
    (writer : ptr) (data : option (list A)) (length : Z) : WR Bebop_Result :=
  array_header writer data length (λ data,
    array_room writer length size (copy_elements object length data)).

(** The 128-bit arrays have no overflow test of their own. *)
Definition write_array_128 {A} (object : A → list Z) (write : A → WR Bebop_Result)
    (writer : ptr) (data : option (list A)) (length : Z) : WR Bebop_Result :=
  array_header writer data length (λ data,
    if_ok (wr_ensure writer (u64 (length * 16))) (array_elements object write length data)).

Definition write_fixed_array {A} (object : A → list Z) (write : A → WR Bebop_Result) (size : Z)
    (writer : ptr) (data : option (list A)) (count : Z) : WR Bebop_Result :=
  fixed_header writer data count (λ data,
    array_room writer count size (array_elements object write count data)).

Definition write_fixed_array_copy {A} (object : A → list Z) (size : Z)
    (writer : ptr) (data : option (list A)) (count : Z) : WR Bebop_Result :=
  fixed_header writer data count (λ data,
    array_room writer count size (copy_elements object count data)).

(** Object representations. *)
Definition bool_object (b : bool) : list Z := [if b then 1 else 0].
Definition u128_object (v : Z) : list Z := host_bytes 16 v.
Definition i128_object (v : Z) : list Z := host_bytes 16 (to_unsigned 128 v).

Definition bebop_writer_write_f32_array := write_array (host_bytes 4) (bebop_writer_write_f32 PTR) 4.
Definition bebop_writer_write_f64_array := write_array (host_bytes 8) (bebop_writer_write_f64 PTR) 8.
Definition bebop_writer_write_u16_array := write_array (host_bytes 2) (bebop_writer_write_u16 PTR) 2.
Definition bebop_writer_write_i16_array (writer : ptr) (data : option (list Z)) (length : Z) :=
  bebop_writer_write_u16_array writer (map (to_unsigned 16) <$> data) length.
Definition bebop_writer_write_u32_array := write_array (host_bytes 4) (bebop_writer_write_u32 PTR) 4.
Definition bebop_writer_write_i32_array (writer : ptr) (data : option (list Z)) (length : Z) :=
  bebop_writer_write_u32_array writer (map (to_unsigned 32) <$> data) length.
Definition bebop_writer_write_u64_array := write_array (host_bytes 8) (bebop_writer_write_u64 PTR) 8.
Definition bebop_writer_write_i64_array (writer : ptr) (data : option (list Z)) (length : Z) :=
  bebop_writer_write_u64_array writer (map (to_unsigned 64) <$> data) length.
Definition bebop_writer_write_i8_array (writer : ptr) (data : option (list Z)) (length : Z) :=
  bebop_writer_write_bytes writer (bebop_bytes (map (to_unsigned 8) <$> data) length).
Definition bebop_writer_write_u8_array (writer : ptr) (data : option (list Z)) (length : Z) :=
  bebop_writer_write_bytes writer (bebop_bytes data length).
Definition bebop_writer_write_f16_array := write_array (host_bytes 2) (bebop_writer_write_f16 PTR) 2.
Definition bebop_writer_write_bf16_array := write_array (host_bytes 2) (bebop_writer_write_bf16 PTR) 2.
Definition bebop_writer_write_i128_array := write_array_128 i128_object (bebop_writer_write_i128 PTR).
Definition bebop_writer_write_u128_array := write_array_128 u128_object (bebop_writer_write_u128 PTR).

(** Each element is stored on its own, in both builds. *)
Fixpoint put_bools (length : nat) (data : list bool) : WR Bebop_Result :=
  match length with
  | O => mret BEBOP_RESULT_OK
  | S length =>
      match data with
      | [] => ub
      | b :: data => wr_put [if b then 1 else 0];; put_bools length data
      end
  end.

Definition bebop_writer_write_bool_array (writer : ptr) (data : option (list bool)) (length : Z) :=
  array_header writer data length (λ data,
    if_ok (wr_ensure writer length) (put_bools (Z.to_nat length) data)).

Definition bebop_writer_write_uuid_array := write_array_copy uuid_bytes 16.
Definition bebop_writer_write_timestamp_array := write_array_copy timestamp_host_bytes 16.
Definition bebop_writer_write_duration_array := write_array_copy duration_host_bytes 12.

Definition bebop_writer_write_fixed_u8_array (writer : ptr) (data : option (list Z)) (count : Z) :=
  bebop_writer_write_fixed_bytes writer (bebop_bytes data count).
Definition bebop_writer_write_fixed_i8_array (writer : ptr) (data : option (list Z)) (count : Z) :=
  bebop_writer_write_fixed_bytes writer (bebop_bytes (map (to_unsigned 8) <$> data) count).
Definition bebop_writer_write_fixed_bool_array (writer : ptr) (data : option (list bool)) (count : Z) :=
  fixed_header writer data count (λ data,
    if_ok (wr_ensure writer count) (copy_elements bool_object count data)).
Definition bebop_writer_write_fixed_u16_array := write_fixed_array (host_bytes 2) (bebop_writer_write_u16 PTR) 2.
Definition bebop_writer_write_fixed_i16_array (writer : ptr) (data : option (list Z)) (count : Z) :=
  bebop_writer_write_fixed_u16_array writer (map (to_unsigned 16) <$> data) count.
Definition bebop_writer_write_fixed_u32_array := write_fixed_array (host_bytes 4) (bebop_writer_write_u32 PTR) 4.
Definition bebop_writer_write_fixed_i32_array (writer : ptr) (data : option (list Z)) (count : Z) :=
  bebop_writer_write_fixed_u32_array writer (map (to_unsigned 32) <$> data) count.
Definition bebop_writer_write_fixed_u64_array := write_fixed_array (host_bytes 8) (bebop_writer_write_u64 PTR) 8.
Definition bebop_writer_write_fixed_i64_array (writer : ptr) (data : option (list Z)) (count : Z) :=
  bebop_writer_write_fixed_u64_array writer (map (to_unsigned 64) <$> data) count.
Definition bebop_writer_write_fixed_f16_array := write_fixed_array (host_bytes 2) (bebop_writer_write_f16 PTR) 2.
Definition bebop_writer_write_fixed_bf16_array := write_fixed_array (host_bytes 2) (bebop_writer_write_bf16 PTR) 2.
Definition bebop_writer_write_fixed_f32_array := write_fixed_array (host_bytes 4) (bebop_writer_write_f32 PTR) 4.
Definition bebop_writer_write_fixed_f64_array := write_fixed_array (host_bytes 8) (bebop_writer_write_f64 PTR) 8.
Definition bebop_writer_write_fixed_i128_array := write_fixed_array i128_object (bebop_writer_write_i128 PTR) 16.
Definition bebop_writer_write_fixed_u128_array := write_fixed_array u128_object (bebop_writer_write_u128 PTR) 16.
Definition bebop_writer_write_fixed_uuid_array := write_fixed_array_copy uuid_bytes 16.
Definition bebop_writer_write_fixed_timestamp_array := write_fixed_array_copy timestamp_host_bytes 16.
Definition bebop_writer_write_fixed_duration_array := write_fixed_array_copy duration_host_bytes 12.
End ArrayWriters.

(** ** Fixed-size array readers

    The value is the list of the elements stored in [out]. *)

Section ArrayReaders.
Context `{Platform}.

(** The loop over the elements, with the elements stored before it returned. *)
Fixpoint read_elements {A} (read : RD A) (count : nat) : C Bebop_Reader (Bebop_Result * list A) :=
  match count with
  | O => mret (BEBOP_RESULT_OK, [])
  | S count =>
      '(result, v) ← read;
      match is_ok result, v with
      | true, Some v =>
          '(result, vs) ← read_elements read count;
          mret (result, v :: vs)
      | _, _ => mret (result, [])
      end
  end.

(** The objects in a copied array of [count] elements of [size] bytes. *)
Fixpoint objects {A} (object : list Z → A) (size count : nat) (l : list Z) : list A :=
  match count with
  | O => []
  | S count => object (take size l) :: objects object size count (drop size l)
  end.

Definition rd_copy_elements {A} (object : list Z → A) (size count : Z) : C Bebop_Reader (Bebop_Result * list A) :=
  l ← rd_copy (count * size);
  rd_advance (count * size);;
  mret (BEBOP_RESULT_OK, objects object (Z.to_nat size) (Z.to_nat count) l).

(** The tests every fixed-size array read starts with. *)
Definition fixed_read {A} (reader out : ptr) (size count : Z)
    (k : C Bebop_Reader (Bebop_Result * list A)) : RD (list A) :=
  if is_null reader || is_null out then mret (BEBOP_RESULT_NULL, None)
  else if count =? 0 then mret (BEBOP_RESULT_OK, Some [])
  else
    avail ← rd_avail;
    if avail / size <? count then mret (BEBOP_RESULT_MALFORMED, None)
    else '(result, vs) ← k; mret (result, Some vs).

Definition read_fixed_array {A} (object : list Z → A) (read : RD A) (size : Z)
    (reader out : ptr) (count : Z) : RD (list A) :=
  fixed_read reader out size count
    (if BEBOP_WIRE_ASSUME_LE then rd_copy_elements object size count
     else read_elements read (Z.to_nat count)).

Definition read_fixed_array_copy {A} (object : list Z → A) (size : Z)
    (reader out : ptr) (count : Z) : RD (list A) :=
  fixed_read reader out size count (rd_copy_elements object size count).

Definition byte_object (l : list Z) : Z := match l with b :: _ => b | [] => 0 end.
Definition i128_of_object (l : list Z) : Z := to_signed 128 (host_value l).

Definition bebop_reader_read_fixed_u8_array := read_fixed_array_copy byte_object 1.
Definition bebop_reader_read_fixed_i8_array (reader out : ptr) (count : Z) :=
  cast_out (map (to_signed 8)) (bebop_reader_read_fixed_u8_array reader out count).
(** The elements are the raw bytes of the [bool] objects. *)
Definition bebop_reader_read_fixed_bool_array := read_fixed_array_copy byte_object 1.
Definition bebop_reader_read_fixed_u16_array := read_fixed_array host_value (bebop_reader_read_u16 PTR PTR) 2.
Definition bebop_reader_read_fixed_i16_array (reader out : ptr) (count : Z) :=
  cast_out (map (to_signed 16)) (bebop_reader_read_fixed_u16_array reader out count).
Definition bebop_reader_read_fixed_u32_array := read_fixed_array host_value (bebop_reader_read_u32 PTR PTR) 4.
Definition bebop_reader_read_fixed_i32_array (reader out : ptr) (count : Z) :=
  cast_out (map (to_signed 32)) (bebop_reader_read_fixed_u32_array reader out count).
Definition bebop_reader_read_fixed_u64_array := read_fixed_array host_value (bebop_reader_read_u64 PTR PTR) 8.
Definition bebop_reader_read_fixed_i64_array (reader out : ptr) (count : Z) :=
  cast_out (map (to_signed 64)) (bebop_reader_read_fixed_u64_array reader out count).
Definition bebop_reader_read_fixed_f16_array := read_fixed_array host_value (bebop_reader_read_f16 PTR PTR) 2.
Definition bebop_reader_read_fixed_bf16_array := read_fixed_array host_value (bebop_reader_read_bf16 PTR PTR) 2.
Definition bebop_reader_read_fixed_f32_array := read_fixed_array host_value (bebop_reader_read_f32 PTR PTR) 4.
Definition bebop_reader_read_fixed_f64_array := read_fixed_array host_value (bebop_reader_read_f64 PTR PTR) 8.
Definition bebop_reader_read_fixed_i128_array := read_fixed_array i128_of_object (bebop_reader_read_i128 PTR PTR) 16.
Definition bebop_reader_read_fixed_u128_array := read_fixed_array host_value (bebop_reader_read_u128 PTR PTR) 16.
Definition bebop_reader_read_fixed_uuid_array := read_fixed_array_copy mkUUID 16.
Definition bebop_reader_read_fixed_timestamp_array := read_fixed_array_copy timestamp_of_host_bytes 16.
Definition bebop_reader_read_fixed_duration_array := read_fixed_array_copy duration_of_host_bytes 12.
End ArrayReaders.

(** ** Specifications *)

(** The encoding of the elements one after another, and its inverse. *)
Definition enc_all {A} (c : codec A) (vs : list A) : list Z := concat (map (cd_enc c) vs).
Definition dec_all {A} (c : codec A) (count : Z) (l : list Z) : list A :=
  objects (cd_dec c) (cd_size c) (Z.to_nat count) l.

(** [op length data] writes the first [length] elements, behind [header length]. *)
Definition writes_array_as {A} `{HostAllocator} (op : option (list A) → Z → WR Bebop_Result)
    (c : codec A) (header : Z → list Z) (limit : Z) : Prop :=
  ∀ L s data length, writer_ok L s → 0 ≤ length ≤ zlen data → length ≤ limit → zlen data < 2 ^ 63 →
    Forall (cd_valid c) data →
    appends L (op (Some data) length) s (header length ++ enc_all c (take (Z.to_nat length) data)).

(** [op count] reads [count] elements, or rejects the input and moves nothing. *)
Definition reads_array_as {A} (op : Z → RD (list A)) (c : codec A) : Prop :=
  ∀ r count, reader_ok r → 0 ≤ count →
    (zlen (rd_rest r) < count * Z.of_nat (cd_size c) → op count r = Some ((BEBOP_RESULT_MALFORMED, None), r)) ∧
    (∀ l k, rd_rest r = l ++ k → zlen l = count * Z.of_nat (cd_size c) →
       op count r = Some ((BEBOP_RESULT_OK, Some (dec_all c count l)), rd_adv (count * Z.of_nat (cd_size c)) r)).

Section Codecs.
Context {A : Type} (c : codec A).

Lemma zlen_enc v : cd_valid c v → zlen (cd_enc c v) = Z.of_nat (cd_size c).
Proof. intros Hv. unfold zlen. by rewrite cd_enc_length. Qed.

Lemma zlen_enc_all vs : Forall (cd_valid c) vs → zlen (enc_all c vs) = zlen vs * Z.of_nat (cd_size c).
Proof.
  unfold enc_all. induction 1; cbn; [done|]. rewrite zlen_app, zlen_cons, zlen_enc by done. lia.
Qed.

Lemma enc_all_ok vs : Forall (cd_valid c) vs → bytes_ok (enc_all c vs).
Proof.
  unfold enc_all. induction 1; cbn; [constructor|].
  apply Forall_app. split; [by apply cd_enc_ok|done].
Qed.

Lemma dec_enc_all vs :
  Forall (cd_valid c) vs → dec_all c (zlen vs) (enc_all c vs) = vs.
Proof.
  unfold dec_all, enc_all, zlen. rewrite Nat2Z.id. induction 1 as [|v vs Hv _ IH]; cbn; [done|].
  rewrite take_app_length', drop_app_length' by (by rewrite cd_enc_length).
  by rewrite cd_dec_enc, IH.
Qed.

Lemma objects_ext (object : list Z → A) n l :
  (∀ l, length l = cd_size c → object l = cd_dec c l) → (n * cd_size c ≤ length l)%nat →
  objects object (cd_size c) n l = objects (cd_dec c) (cd_size c) n l.
Proof.
  intros Ho. revert l. induction n as [|n IH]; intros l Hl; cbn; [done|]. cbn in Hl.
  rewrite Ho, IH; [done|rewrite length_drop; lia|rewrite length_take; lia].
Qed.
End Codecs.

Section ArrayWriterSpecs.
Context `{HostAllocatorOk} `{PlatformOk} {A : Type} (c : codec A).
Context (Hsize : (0 < cd_size c ≤ 16)%nat).
Context (object : A → list Z) (write : A → WR Bebop_Result).

Lemma write_elements_appends L s n data :
  writes_as write c → writer_ok L s → (n ≤ length data)%nat → Forall (cd_valid c) data →
  appends L (write_elements write n data) s (enc_all c (take n data)).
Proof.
  intros Hw. revert s n. induction data as [|v data IH]; intros s n Ho Hn Hv.
  - destruct n; [by apply appends_ok_nil|simpl in Hn; lia].
  - destruct n as [|n]; [by apply appends_ok_nil|]. apply Forall_cons in Hv as [Hv Hvs].
    cbn. apply (appends_if_ok L _ _ s (cd_enc c v) (enc_all c (take n data))).
    + by apply appends_of_atomic, Hw.
    + intros s1 Ho1 _ _. apply IH; [done|simpl in Hn; lia|done].
Qed.

Lemma copy_elements_put s n data :
  (∀ v, cd_valid c v → object v = cd_enc c v) → Forall (cd_valid c) data → 0 ≤ n ≤ zlen data →
  room (n * Z.of_nat (cd_size c)) s →
  copy_elements object n data s = Some (BEBOP_RESULT_OK, ws_put (enc_all c (take (Z.to_nat n) data)) s).
Proof.
  intros Hobj Hv Hn Hr. unfold copy_elements. destruct (Z.ltb_spec (zlen data) n); [lia|].
  assert (Ht : Forall (cd_valid c) (take (Z.to_nat n) data)) by by apply Forall_take.
  replace (concat (map object (take (Z.to_nat n) data))) with (enc_all c (take (Z.to_nat n) data)).
  - rewrite wr_put_bind; [done|]. rewrite zlen_enc_all, zlen_take by (done || lia). done.
  - unfold enc_all. f_equal. apply map_ext_Forall. eapply Forall_impl; [done|]. intros v Hv'. by rewrite Hobj.
Qed.

(** The body of an array write, after the growth test for [total] bytes. *)
Lemma ensured_elements L s n total data body :
  writer_ok L s → 0 ≤ n ≤ zlen data → Forall (cd_valid c) data →
  total = n * Z.of_nat (cd_size c) → total ≤ 2 ^ 61 - 16 →
  (∀ s1, writer_ok L s1 → room total s1 → appends L body s1 (enc_all c (take (Z.to_nat n) data))) →
  appends L (if_ok (wr_ensure PTR total) body) s (enc_all c (take (Z.to_nat n) data)).
Proof.
  intros Ho Hn Hv Ht Htot Hbody.
  destruct (ensure_spec L s total Ho ltac:(lia)) as (r&s1&E&Ho1&Hx&Hd&Hr).
  unfold appends, if_ok. rewrite (C_bind_Some _ _ _ _ _ E).
  destruct Hr as [[-> Hroom]| ->]; cbn [is_ok].
  - destruct (Hbody s1 Ho1 Hroom) as (r2&s2&E2&Ho2&Hx2&Hr2). exists r2, s2. split; [done|].
    split_and!; [done|by eapply ws_extends_trans|]. by rewrite <- Hd.
  - exists BEBOP_RESULT_OOM, s1. split; [done|]. split_and!; [done..|].
    exists [], (enc_all c (take (Z.to_nat n) data)). by rewrite app_nil_r.
Qed.

Lemma copy_elements_appends L s n data :
  (∀ v, cd_valid c v → object v = cd_enc c v) → Forall (cd_valid c) data → 0 ≤ n ≤ zlen data →
  writer_ok L s → room (n * Z.of_nat (cd_size c)) s →
  appends L (copy_elements object n data) s (enc_all c (take (Z.to_nat n) data)).
Proof.
  intros Hobj Hv Hn Ho Hr. assert (Ht : Forall (cd_valid c) (take (Z.to_nat n) data)) by by apply Forall_take.
  eexists _, _. split; [by apply copy_elements_put|]. split_and!.
  - apply writer_ok_put; [done|by apply enc_all_ok|].
    rewrite zlen_enc_all, zlen_take by (done || lia). done.
  - by intros x.
  - done.
Qed.

Lemma array_elements_appends L s n data :
  (BEBOP_WIRE_ASSUME_LE = true → ∀ v, cd_valid c v → object v = cd_enc c v) →
  writes_as write c → Forall (cd_valid c) data → 0 ≤ n ≤ zlen data →
  writer_ok L s → room (n * Z.of_nat (cd_size c)) s →
  appends L (array_elements object write n data) s (enc_all c (take (Z.to_nat n) data)).
Proof.
  intros Hobj Hw Hv Hn Ho Hr. unfold array_elements. destruct BEBOP_WIRE_ASSUME_LE.
  - by apply copy_elements_appends; auto.
  - apply write_elements_appends; auto. unfold zlen in Hn. lia.
Qed.

(** The bound under which the code's overflow test and the growth test agree. *)
Lemma array_room_appends L s n data k :
  writer_ok L s → 0 ≤ n ≤ zlen data → n ≤ 2 ^ 56 → Forall (cd_valid c) data →
  (∀ s1, writer_ok L s1 → room (n * Z.of_nat (cd_size c)) s1 →
     appends L k s1 (enc_all c (take (Z.to_nat n) data))) →
  appends L (array_room PTR n (Z.of_nat (cd_size c)) k) s (enc_all c (take (Z.to_nat n) data)).
Proof.
  intros Ho Hn Hlim Hv Hk. unfold array_room.
  assert (n * Z.of_nat (cd_size c) ≤ 2 ^ 60) by nia.
  destruct (Z.ltb_spec (SIZE_MAX / Z.of_nat (cd_size c)) n) as [Hlt|_].
  - exfalso. assert (2 ^ 59 ≤ SIZE_MAX / Z.of_nat (cd_size c)); [|lia].
    apply Z.div_le_lower_bound; unfold SIZE_MAX; lia.
  - by apply ensured_elements; [..|lia|].
Qed.

Lemma array_header_appends (k : list A → WR Bebop_Result) L s data n :
  writer_ok L s → 0 ≤ n ≤ zlen data → n ≤ UINT32_MAX →
  (∀ s1, writer_ok L s1 → 0 < n → appends L (k data) s1 (enc_all c (take (Z.to_nat n) data))) →
  appends L (array_header PTR (Some data) n k) s (le_bytes 4 n ++ enc_all c (take (Z.to_nat n) data)).
Proof.
  intros Ho Hn Hlim Hk. unfold array_header. cbn [is_null].
  destruct (Z.ltb_spec UINT32_MAX n); [lia|]. rewrite u32_small by (unfold UINT32_MAX in *; lia).
  apply appends_if_ok; [by apply appends_of_atomic, write_u32_atomic|].
  intros s1 Ho1 _ _. destruct (Z.eqb_spec n 0) as [->|]; [by apply appends_ok_nil|].
  apply Hk; auto. lia.
Qed.
End ArrayWriterSpecs.

Section ArrayWriterResults.
Context `{HostAllocatorOk} `{PlatformOk} {A : Type} (c : codec A).
Context (Hsize : (0 < cd_size c ≤ 16)%nat).

Lemma write_array_spec object write :
  (BEBOP_WIRE_ASSUME_LE = true → ∀ v, cd_valid c v → object v = cd_enc c v) → writes_as write c →
  writes_array_as (write_array object write (Z.of_nat (cd_size c)) PTR) c (le_bytes 4) UINT32_MAX.
Proof.
  intros Hobj Hw. unfold write_array. intros L s data n Ho Hn Hlim Hmax Hv.
  apply array_header_appends; [done..|]. clear s Ho. intros s Ho _.
  apply array_room_appends; try done; [unfold UINT32_MAX in *; lia|].
  intros s1 Ho1 Hr. by apply array_elements_appends.
Qed.

Lemma write_array_copy_spec object :
  (∀ v, cd_valid c v → object v = cd_enc c v) →
  writes_array_as (write_array_copy object (Z.of_nat (cd_size c)) PTR) c (le_bytes 4) UINT32_MAX.
Proof.
  intros Hobj. unfold write_array_copy. intros L s data n Ho Hn Hlim Hmax Hv.
  apply array_header_appends; [done..|]. clear s Ho. intros s Ho _.
  apply array_room_appends; try done; [unfold UINT32_MAX in *; lia|].
  intros s1 Ho1 Hr. by apply copy_elements_appends.
Qed.

Lemma write_array_128_spec object write :
  cd_size c = 16%nat →
  (BEBOP_WIRE_ASSUME_LE = true → ∀ v, cd_valid c v → object v = cd_enc c v) → writes_as write c →
  writes_array_as (write_array_128 object write PTR) c (le_bytes 4) UINT32_MAX.
Proof.
  intros H16 Hobj Hw. unfold write_array_128. intros L s data n Ho Hn Hlim Hmax Hv.
  apply array_header_appends; [done..|]. clear s Ho. intros s Ho _.
  assert (E : n * 16 = n * Z.of_nat (cd_size c)) by (rewrite H16; lia).
  unfold UINT32_MAX in *. rewrite u64_small by lia. apply ensured_elements; try done; [lia|].
  intros s1 Ho1 Hr. rewrite E in Hr. by apply array_elements_appends.
Qed.

Lemma fixed_header_appends (k : list A → WR Bebop_Result) L s data n :
  writer_ok L s → 0 ≤ n ≤ zlen data →
  (0 < n → appends L (k data) s (enc_all c (take (Z.to_nat n) data))) →
  appends L (fixed_header PTR (Some data) n k) s (enc_all c (take (Z.to_nat n) data)).
Proof.
  intros Ho Hn Hk. unfold fixed_header. cbn [is_null].
  destruct (Z.eqb_spec n 0) as [->|]; [by apply appends_ok_nil|]. apply Hk. lia.
Qed.

Lemma write_fixed_array_spec object write :
  (BEBOP_WIRE_ASSUME_LE = true → ∀ v, cd_valid c v → object v = cd_enc c v) → writes_as write c →
  writes_array_as (write_fixed_array object write (Z.of_nat (cd_size c)) PTR) c (λ _, []) (2 ^ 56).
Proof.
  intros Hobj Hw L s data n Ho Hn Hlim Hmax Hv. cbn [app]. unfold write_fixed_array.
  apply fixed_header_appends; [done..|]. intros _.
  apply array_room_appends; try done. intros s1 Ho1 Hr. by apply array_elements_appends.
Qed.

Lemma write_fixed_array_copy_spec object :
  (∀ v, cd_valid c v → object v = cd_enc c v) →
  writes_array_as (write_fixed_array_copy object (Z.of_nat (cd_size c)) PTR) c (λ _, []) (2 ^ 56).
Proof.
  intros Hobj L s data n Ho Hn Hlim Hmax Hv. cbn [app]. unfold write_fixed_array_copy.
  apply fixed_header_appends; [done..|]. intros _.
  apply array_room_appends; try done. intros s1 Ho1 Hr. by apply copy_elements_appends.
Qed.

(** An array written through a pointer cast. *)
Lemma write_cast_spec {B} (c' : codec B) (f : B → A) op header limit :
  writes_array_as op c header limit →
  (∀ v, cd_valid c' v → cd_valid c (f v) ∧ cd_enc c (f v) = cd_enc c' v) →
  writes_array_as (λ data, op (map f <$> data)) c' header limit.
Proof.
  intros Hop Hf L s data n Ho Hn Hlim Hmax Hv. cbn.
  replace (enc_all c' (take (Z.to_nat n) data)) with (enc_all c (take (Z.to_nat n) (map f data))).
  - apply Hop; rewrite ?zlen_map; auto. apply Forall_map. eapply Forall_impl; [done|]. intros v ?. by apply Hf.
  - unfold enc_all. rewrite firstn_map, map_map. f_equal. apply map_ext_Forall.
    eapply Forall_impl; [by apply Forall_take|]. intros v ?. by apply Hf.
Qed.
End ArrayWriterResults.

Section ArrayReaderSpecs.
Context `{PlatformOk} {A : Type} (c : codec A).
Context (Hsize : (0 < cd_size c)%nat).

Lemma read_elements_spec (read : RD A) n r l k :
  reads_as read c → reader_ok r → rd_rest r = l ++ k → length l = (n * cd_size c)%nat →
  read_elements read n r =
    Some ((BEBOP_RESULT_OK, objects (cd_dec c) (cd_size c) n l), rd_adv (Z.of_nat (n * cd_size c)) r).
Proof.
  intros Hread. revert r l. induction n as [|n IH]; intros r l Hr E Hl; cbn.
  - by rewrite rd_adv_0.
  - cbn in Hl. rewrite <- (take_drop (cd_size c) l), <- app_assoc in E.
    assert (H1 : length (take (cd_size c) l) = cd_size c) by (rewrite length_take; lia).
    assert (H1' : Z.of_nat (cd_size c) = zlen (take (cd_size c) l)) by (unfold zlen; by rewrite H1).
    rewrite (C_bind_Some _ _ _ _ _ (proj2 (Hread r Hr) _ _ E H1)). cbn [is_ok].
    rewrite H1'. pose proof (rd_adv_app_ok r _ _ Hr E) as Hr1.
    pose proof (rd_rest_adv_app r _ _ Hr E) as E1.
    rewrite (C_bind_Some _ _ _ _ _ (IH _ _ Hr1 E1 ltac:(rewrite length_drop; lia))).
    rewrite rd_adv_adv. unfold mret, C_ret. do 2 f_equal. f_equal. rewrite <- H1'. lia.
Qed.

Lemma copy_read_spec object r n l k :
  (∀ l, length l = cd_size c → object l = cd_dec c l) → 0 ≤ n →
  reader_ok r → rd_rest r = l ++ k → zlen l = n * Z.of_nat (cd_size c) →
  rd_copy_elements object (Z.of_nat (cd_size c)) n r =
    Some ((BEBOP_RESULT_OK, dec_all c n l), rd_adv (n * Z.of_nat (cd_size c)) r).
Proof.
  intros Hobj Hn Hr E Hl. unfold rd_copy_elements.
  rewrite (rd_memcpy_spec r l k _ (λ l, (BEBOP_RESULT_OK, objects object (Z.to_nat (Z.of_nat (cd_size c))) (Z.to_nat n) l)))
    by done.
  rewrite Nat2Z.id, (objects_ext c) by (try done; unfold zlen in Hl; nia). done.
Qed.

Lemma fixed_read_spec (k : Z → C Bebop_Reader (Bebop_Result * list A)) :
  (∀ r n l tl, reader_ok r → 0 < n → rd_rest r = l ++ tl → zlen l = n * Z.of_nat (cd_size c) →
     k n r = Some ((BEBOP_RESULT_OK, dec_all c n l), rd_adv (n * Z.of_nat (cd_size c)) r)) →
  reads_array_as (λ n, fixed_read PTR PTR (Z.of_nat (cd_size c)) n (k n)) c.
Proof.
  intros Hk r n Hr Hn. unfold fixed_read. cbn [is_null orb]. split.
  - intros Hs. destruct (Z.eqb_spec n 0) as [->|]; [zlia|].
    rewrite rd_avail_bind by done.
    destruct (Z.ltb_spec (zlen (rd_rest r) / Z.of_nat (cd_size c)) n) as [|Hle]; [done|].
    assert (zlen (rd_rest r) / Z.of_nat (cd_size c) < n); [|lia].
    apply Z.div_lt_upper_bound; lia.
  - intros l tl E Hl. destruct (Z.eqb_spec n 0) as [->|].
    { cbn. by rewrite rd_adv_0. }
    rewrite rd_avail_bind by done.
    destruct (Z.ltb_spec (zlen (rd_rest r) / Z.of_nat (cd_size c)) n) as [Hlt|_].
    { assert (n ≤ zlen (rd_rest r) / Z.of_nat (cd_size c)); [|lia].
      apply Z.div_le_lower_bound; [lia|]. rewrite E. zlia. }
    by rewrite (C_bind_Some _ _ _ _ _ (Hk r n l tl Hr ltac:(lia) E Hl)).
Qed.

Lemma read_fixed_array_spec object read :
  (BEBOP_WIRE_ASSUME_LE = true → ∀ l, length l = cd_size c → object l = cd_dec c l) → reads_as read c →
  reads_array_as (read_fixed_array object read (Z.of_nat (cd_size c)) PTR PTR) c.
Proof.
  intros Hobj Hread. apply (fixed_read_spec (λ n, if BEBOP_WIRE_ASSUME_LE then _ else _)).
  intros r n l tl Hr Hn E Hl. cbn beta. destruct BEBOP_WIRE_ASSUME_LE.
  - eapply copy_read_spec; eauto. lia.
  - rewrite (read_elements_spec read (Z.to_nat n) r l tl) by (try done; unfold zlen in Hl; nia).
    unfold dec_all. do 2 f_equal. f_equal. lia.
Qed.

Lemma read_fixed_array_copy_spec object :
  (∀ l, length l = cd_size c → object l = cd_dec c l) →
  reads_array_as (read_fixed_array_copy object (Z.of_nat (cd_size c)) PTR PTR) c.
Proof.
  intros Hobj. apply (fixed_read_spec (λ n, rd_copy_elements object _ n)).
  intros r n l tl Hr Hn E Hl. eapply copy_read_spec; eauto. lia.
Qed.

Lemma read_cast_spec {B} (c' : codec B) (f : A → B) (op : Z → RD (list A)) :
  reads_array_as op c → cd_size c' = cd_size c → (∀ l, cd_dec c' l = f (cd_dec c l)) →
  reads_array_as (λ n, cast_out (map f) (op n)) c'.
Proof.
  intros Hop Hs Hf r n Hr Hn. destruct (Hop r n Hr Hn) as [H1 H2]. unfold cast_out. rewrite Hs. split.
  - intros Hlt. by rewrite (C_bind_Some _ _ _ _ _ (H1 Hlt)).
  - intros l k E Hl. rewrite (C_bind_Some _ _ _ _ _ (H2 l k E Hl)). cbn. unfold mret, C_ret. do 4 f_equal.
    unfold dec_all. rewrite Hs. clear -Hf. revert l. induction (Z.to_nat n) as [|m IH]; intros l; cbn; [done|].
    by rewrite IH, Hf.
Qed.
End ArrayReaderSpecs.

Section Bytes.
Context `{HostAllocatorOk} `{PlatformOk}.

Lemma bebop_bytes_ok data n :
  0 ≤ n ≤ zlen data → zlen data < 2 ^ 63 → Forall (cd_valid (uint_codec 1)) data →
  view_ok (bebop_bytes (Some data) n) ∧
  view_bytes (bebop_bytes (Some data) n) = enc_all (uint_codec 1) (take (Z.to_nat n) data).
Proof.
  intros Hn Hm Hv. split.
  - exists 0. cbn. split_and!; auto; lia.
  - cbn. rewrite drop_0. unfold enc_all. assert (Ht : Forall (cd_valid (uint_codec 1)) (take (Z.to_nat n) data))
      by by apply Forall_take.
    induction Ht as [|v l Hb _ IH]; cbn; [done|].
    unfold cd_valid, uint_codec, uint_ok in Hb. cbn in Hb. cbn in IH. by rewrite Z.mod_small, <- IH by lia.
Qed.

Lemma write_u8_array_spec :
  writes_array_as (bebop_writer_write_u8_array PTR) (uint_codec 1) (le_bytes 4) UINT32_MAX.
Proof.
  intros L s data n Ho Hn Hlim Hmax Hv. destruct (bebop_bytes_ok data n Hn Hmax Hv) as [Hok <-].
  by apply (write_bytes_appends L s (bebop_bytes (Some data) n)).
Qed.

Lemma write_fixed_u8_array_spec :
  writes_array_as (bebop_writer_write_fixed_u8_array PTR) (uint_codec 1) (λ _, []) (2 ^ 56).
Proof.
  intros L s data n Ho Hn Hlim Hmax Hv. destruct (bebop_bytes_ok data n Hn Hmax Hv) as [Hok <-].
  apply appends_of_atomic. apply (write_fixed_bytes_appends L s (bebop_bytes (Some data) n)); [done..|].
  cbn. lia.
Qed.

Lemma put_bools_spec s n data :
  (n ≤ length data)%nat → room (Z.of_nat n) s →
  put_bools n data s = Some (BEBOP_RESULT_OK, ws_put (enc_all bool_codec (take n data)) s).
Proof.
  revert s data. induction n as [|n IH]; intros s data Hn Hr; cbn [put_bools].
  - unfold ws_put, set_writer, set_data. cbn. rewrite app_nil_r. by destruct s as [? ? []].
  - destruct data as [|b data]; [simpl in Hn; lia|]. rewrite wr_put_bind by (unfold room in *; zlia).
    rewrite IH; [by rewrite ws_put_put|simpl in Hn; lia|].
    apply room_put. unfold room in *. zlia.
Qed.

Lemma write_bool_array_spec :
  writes_array_as (bebop_writer_write_bool_array PTR) bool_codec (le_bytes 4) UINT32_MAX.
Proof.
  intros L s data n Ho Hn Hlim Hmax Hv. unfold bebop_writer_write_bool_array.
  apply array_header_appends; [cbn; lia|done..|]. clear s Ho. intros s Ho _.
  apply ensured_elements; try done; [cbn; lia|cbn; lia|unfold UINT32_MAX in *; lia|].
  intros s1 Ho1 Hr. assert (Ht : Forall (cd_valid bool_codec) (take (Z.to_nat n) data)) by by apply Forall_take.
  eexists _, _. split; [apply put_bools_spec; [unfold zlen in Hn; lia|by rewrite Z2Nat.id by lia]|].
  split_and!; [|by intros x|done]. apply writer_ok_put; [done|by apply enc_all_ok|].
  rewrite zlen_enc_all, zlen_take by (done || lia). cbn. by rewrite Z.mul_1_r.
Qed.

Lemma write_fixed_bool_array_spec :
  writes_array_as (bebop_writer_write_fixed_bool_array PTR) bool_codec (λ _, []) (2 ^ 56).
Proof.
  intros L s data n Ho Hn Hlim Hmax Hv. unfold bebop_writer_write_fixed_bool_array.
  apply fixed_header_appends; [try done; cbn; lia..|]. intros _.
  apply ensured_elements; try done; [cbn; lia|cbn; lia|lia|].
  intros s1 Ho1 Hr. apply copy_elements_appends; try done; cbn; [lia|by rewrite Z.mul_1_r].
Qed.

Lemma host_object n : BEBOP_WIRE_ASSUME_LE = true →
  ∀ v, cd_valid (uint_codec n) v → host_bytes n v = cd_enc (uint_codec n) v.
Proof. intros E v _. by rewrite host_bytes_le. Qed.
Lemma host_read n : BEBOP_WIRE_ASSUME_LE = true →
  ∀ l, length l = cd_size (uint_codec n) → host_value l = cd_dec (uint_codec n) l.
Proof. intros E l _. by rewrite host_value_le. Qed.
Lemma cast_codec n Hn v :
  cd_valid (int_codec n Hn) v →
  cd_valid (uint_codec n) (to_unsigned (8 * Z.of_nat n) v) ∧
  cd_enc (uint_codec n) (to_unsigned (8 * Z.of_nat n) v) = cd_enc (int_codec n Hn) v.
Proof. intros _. split; [apply to_unsigned_range; lia|done]. Qed.
End Bytes.

(** ** Properties *)

Section Properties.
Context `{HostAllocatorOk} `{PlatformOk}.

Lemma size2 : (0 < cd_size (uint_codec 2) ≤ 16)%nat. Proof. cbn. lia. Qed.
Lemma size4 : (0 < cd_size (uint_codec 4) ≤ 16)%nat. Proof. cbn. lia. Qed.
Lemma size8 : (0 < cd_size (uint_codec 8) ≤ 16)%nat. Proof. cbn. lia. Qed.

(** Every array of integers, floats, booleans and UUIDs. *)
Definition counted_arrays_write : Prop :=
  let counted {A} (op : ptr → option (list A) → Z → WR Bebop_Result) (c : codec A) :=
    writes_array_as (op PTR) c (le_bytes 4) UINT32_MAX in
  counted bebop_writer_write_u8_array (uint_codec 1) ∧
  counted bebop_writer_write_i8_array i8_codec ∧
  counted bebop_writer_write_u16_array (uint_codec 2) ∧
  counted bebop_writer_write_i16_array i16_codec ∧
  counted bebop_writer_write_u32_array (uint_codec 4) ∧
  counted bebop_writer_write_i32_array i32_codec ∧
  counted bebop_writer_write_u64_array (uint_codec 8) ∧
  counted bebop_writer_write_i64_array i64_codec ∧
  counted bebop_writer_write_f16_array (uint_codec 2) ∧
  counted bebop_writer_write_bf16_array (uint_codec 2) ∧
  counted bebop_writer_write_f32_array (uint_codec 4) ∧
  counted bebop_writer_write_f64_array (uint_codec 8) ∧
  counted bebop_writer_write_bool_array bool_codec ∧
  counted bebop_writer_write_uuid_array uuid_codec ∧
  (HOST_LE = true →
   counted bebop_writer_write_u128_array (uint_codec 16) ∧
   counted bebop_writer_write_i128_array i128_codec ∧
   counted bebop_writer_write_timestamp_array timestamp_codec ∧
   counted bebop_writer_write_duration_array duration_codec).

Definition fixed_arrays_write : Prop :=
  let fixed {A} (op : ptr → option (list A) → Z → WR Bebop_Result) (c : codec A) :=
    writes_array_as (op PTR) c (λ _, []) (2 ^ 56) in
  fixed bebop_writer_write_fixed_u8_array (uint_codec 1) ∧
  fixed bebop_writer_write_fixed_i8_array i8_codec ∧
  fixed bebop_writer_write_fixed_u16_array (uint_codec 2) ∧
  fixed bebop_writer_write_fixed_i16_array i16_codec ∧
  fixed bebop_writer_write_fixed_u32_array (uint_codec 4) ∧
  fixed bebop_writer_write_fixed_i32_array i32_codec ∧
  fixed bebop_writer_write_fixed_u64_array (uint_codec 8) ∧
  fixed bebop_writer_write_fixed_i64_array i64_codec ∧
  fixed bebop_writer_write_fixed_f16_array (uint_codec 2) ∧
  fixed bebop_writer_write_fixed_bf16_array (uint_codec 2) ∧
  fixed bebop_writer_write_fixed_f32_array (uint_codec 4) ∧
  fixed bebop_writer_write_fixed_f64_array (uint_codec 8) ∧
  fixed bebop_writer_write_fixed_bool_array bool_codec ∧
  fixed bebop_writer_write_fixed_uuid_array uuid_codec ∧
  (HOST_LE = true →
   fixed bebop_writer_write_fixed_u128_array (uint_codec 16) ∧
   fixed bebop_writer_write_fixed_i128_array i128_codec ∧
   fixed bebop_writer_write_fixed_timestamp_array timestamp_codec ∧
   fixed bebop_writer_write_fixed_duration_array duration_codec).

Definition fixed_arrays_read : Prop :=
  let fixed {A} (op : ptr → ptr → Z → RD (list A)) (c : codec A) :=
    reads_array_as (op PTR PTR) c in
  fixed bebop_reader_read_fixed_u8_array (uint_codec 1) ∧
  fixed bebop_reader_read_fixed_i8_array i8_codec ∧
  fixed bebop_reader_read_fixed_u16_array (uint_codec 2) ∧
  fixed bebop_reader_read_fixed_i16_array i16_codec ∧
  fixed bebop_reader_read_fixed_u32_array (uint_codec 4) ∧
  fixed bebop_reader_read_fixed_i32_array i32_codec ∧
  fixed bebop_reader_read_fixed_u64_array (uint_codec 8) ∧
  fixed bebop_reader_read_fixed_i64_array i64_codec ∧
  fixed bebop_reader_read_fixed_f16_array (uint_codec 2) ∧
  fixed bebop_reader_read_fixed_bf16_array (uint_codec 2) ∧
  fixed bebop_reader_read_fixed_f32_array (uint_codec 4) ∧
  fixed bebop_reader_read_fixed_f64_array (uint_codec 8) ∧
  fixed bebop_reader_read_fixed_uuid_array uuid_codec ∧
  (HOST_LE = true →
   fixed bebop_reader_read_fixed_u128_array (uint_codec 16) ∧
   fixed bebop_reader_read_fixed_i128_array i128_codec ∧
   fixed bebop_reader_read_fixed_timestamp_array timestamp_codec ∧
   fixed bebop_reader_read_fixed_duration_array duration_codec).

Lemma object_u128 : BEBOP_WIRE_ASSUME_LE = true →
  ∀ v, cd_valid (uint_codec 16) v → u128_object v = cd_enc (uint_codec 16) v.
Proof. apply host_object. Qed.
Lemma object_i128 : BEBOP_WIRE_ASSUME_LE = true →
  ∀ v, cd_valid i128_codec v → i128_object v = cd_enc i128_codec v.
Proof. intros E v _. unfold i128_object. by rewrite host_bytes_le. Qed.

(** An array whose elements are [n]-byte integers, written by [op]. *)
Ltac by_write_array n op W :=
  refine (write_array_spec (uint_codec n) _ (host_bytes n) (op PTR) _ _);
  [cbn; lia|apply host_object|exact W].
Ltac by_fixed_array n op W :=
  refine (write_fixed_array_spec (uint_codec n) _ (host_bytes n) (op PTR) _ _);
  [cbn; lia|apply host_object|exact W].

Lemma write_u16_array_spec :
  writes_array_as (bebop_writer_write_u16_array PTR) (uint_codec 2) (le_bytes 4) UINT32_MAX.
Proof. by_write_array 2%nat bebop_writer_write_u16 write_u16_writes. Qed.
Lemma write_u32_array_spec :
  writes_array_as (bebop_writer_write_u32_array PTR) (uint_codec 4) (le_bytes 4) UINT32_MAX.
Proof. by_write_array 4%nat bebop_writer_write_u32 write_u32_writes. Qed.
Lemma write_u64_array_spec :
  writes_array_as (bebop_writer_write_u64_array PTR) (uint_codec 8) (le_bytes 4) UINT32_MAX.
Proof. by_write_array 8%nat bebop_writer_write_u64 write_u64_writes. Qed.
Lemma write_fixed_u16_array_spec :
  writes_array_as (bebop_writer_write_fixed_u16_array PTR) (uint_codec 2) (λ _, []) (2 ^ 56).
Proof. by_fixed_array 2%nat bebop_writer_write_u16 write_u16_writes. Qed.
Lemma write_fixed_u32_array_spec :
  writes_array_as (bebop_writer_write_fixed_u32_array PTR) (uint_codec 4) (λ _, []) (2 ^ 56).
Proof. by_fixed_array 4%nat bebop_writer_write_u32 write_u32_writes. Qed.
Lemma write_fixed_u64_array_spec :
  writes_array_as (bebop_writer_write_fixed_u64_array PTR) (uint_codec 8) (λ _, []) (2 ^ 56).
Proof. by_fixed_array 8%nat bebop_writer_write_u64 write_u64_writes. Qed.

Lemma write_uuid_array_spec :
  writes_array_as (bebop_writer_write_uuid_array PTR) uuid_codec (le_bytes 4) UINT32_MAX.
Proof. refine (write_array_copy_spec uuid_codec _ uuid_bytes _); [cbn; lia|done]. Qed.
Lemma write_fixed_uuid_array_spec :
  writes_array_as (bebop_writer_write_fixed_uuid_array PTR) uuid_codec (λ _, []) (2 ^ 56).
Proof. refine (write_fixed_array_copy_spec uuid_codec _ uuid_bytes _); [cbn; lia|done]. Qed.

Lemma timestamp_object : HOST_LE = true →
  ∀ v, cd_valid timestamp_codec v → timestamp_host_bytes v = cd_enc timestamp_codec v.
Proof. intros HL v _. by rewrite (proj1 (timestamp_host_le HL)). Qed.
Lemma duration_object : HOST_LE = true →
  ∀ v, cd_valid duration_codec v → duration_host_bytes v = cd_enc duration_codec v.
Proof. intros HL v _. by rewrite (proj1 (duration_host_le HL)). Qed.

(** Every variable-length array writer, in both byte-order builds, appends the
    32-bit element count and then exactly the encodings of the first [length]
    elements (or reports that storage ran out after a prefix of them). *)
Theorem counted_arrays_correct : counted_arrays_write.
Proof.
  unfold counted_arrays_write. cbv beta zeta.
  conjunct (exact write_u8_array_spec).
  conjunct (refine (write_cast_spec (uint_codec 1) _ _ _ _ _ write_u8_array_spec _); apply (cast_codec 1)).
  conjunct (exact write_u16_array_spec).
  conjunct (refine (write_cast_spec (uint_codec 2) _ _ _ _ _ write_u16_array_spec _); apply (cast_codec 2)).
  conjunct (exact write_u32_array_spec).
  conjunct (refine (write_cast_spec (uint_codec 4) _ _ _ _ _ write_u32_array_spec _); apply (cast_codec 4)).
  conjunct (exact write_u64_array_spec).
  conjunct (refine (write_cast_spec (uint_codec 8) _ _ _ _ _ write_u64_array_spec _); apply (cast_codec 8)).
  conjunct (by_write_array 2%nat bebop_writer_write_f16 write_f16_writes).
  conjunct (by_write_array 2%nat bebop_writer_write_bf16 write_bf16_writes).
  conjunct (by_write_array 4%nat bebop_writer_write_f32 write_f32_writes).
  conjunct (by_write_array 8%nat bebop_writer_write_f64 write_f64_writes).
  conjunct (exact write_bool_array_spec).
  conjunct (exact write_uuid_array_spec).
  intros HL.
  conjunct (refine (write_array_128_spec (uint_codec 16) _ u128_object (bebop_writer_write_u128 PTR) _ _ _);
              [cbn; lia|done|exact object_u128|by apply write_u128_writes]).
  conjunct (refine (write_array_128_spec i128_codec _ i128_object (bebop_writer_write_i128 PTR) _ _ _);
              [cbn; lia|done|exact object_i128|by apply write_i128_writes]).
  conjunct (refine (write_array_copy_spec timestamp_codec _ timestamp_host_bytes _); [cbn; lia|by apply timestamp_object]).
  refine (write_array_copy_spec duration_codec _ duration_host_bytes _); [cbn; lia|by apply duration_object].
Qed.

(** Every fixed-size array writer, in both byte-order builds, appends exactly
    the encodings of the first [count] elements and no count. *)
Theorem fixed_arrays_correct : fixed_arrays_write.
Proof.
  unfold fixed_arrays_write. cbv beta zeta.
  conjunct (exact write_fixed_u8_array_spec).
  conjunct (refine (write_cast_spec (uint_codec 1) _ _ _ _ _ write_fixed_u8_array_spec _); apply (cast_codec 1)).
  conjunct (exact write_fixed_u16_array_spec).
  conjunct (refine (write_cast_spec (uint_codec 2) _ _ _ _ _ write_fixed_u16_array_spec _); apply (cast_codec 2)).
  conjunct (exact write_fixed_u32_array_spec).
  conjunct (refine (write_cast_spec (uint_codec 4) _ _ _ _ _ write_fixed_u32_array_spec _); apply (cast_codec 4)).
  conjunct (exact write_fixed_u64_array_spec).
  conjunct (refine (write_cast_spec (uint_codec 8) _ _ _ _ _ write_fixed_u64_array_spec _); apply (cast_codec 8)).
  conjunct (by_fixed_array 2%nat bebop_writer_write_f16 write_f16_writes).
  conjunct (by_fixed_array 2%nat bebop_writer_write_bf16 write_bf16_writes).
  conjunct (by_fixed_array 4%nat bebop_writer_write_f32 write_f32_writes).
  conjunct (by_fixed_array 8%nat bebop_writer_write_f64 write_f64_writes).
  conjunct (exact write_fixed_bool_array_spec).
  conjunct (exact write_fixed_uuid_array_spec).
  intros HL.
  conjunct (refine (write_fixed_array_spec (uint_codec 16) _ u128_object (bebop_writer_write_u128 PTR) _ _);
              [cbn; lia|exact object_u128|by apply write_u128_writes]).
  conjunct (refine (write_fixed_array_spec i128_codec _ i128_object (bebop_writer_write_i128 PTR) _ _);
              [cbn; lia|exact object_i128|by apply write_i128_writes]).
  conjunct (refine (write_fixed_array_copy_spec timestamp_codec _ timestamp_host_bytes _); [cbn; lia|by apply timestamp_object]).
  refine (write_fixed_array_copy_spec duration_codec _ duration_host_bytes _); [cbn; lia|by apply duration_object].
Qed.

Ltac by_read_array n op W :=
  refine (read_fixed_array_spec (uint_codec n) _ host_value (op PTR PTR) _ _);
  [cbn; lia|apply host_read|exact W].

Lemma read_fixed_u8_array_spec : reads_array_as (bebop_reader_read_fixed_u8_array PTR PTR) (uint_codec 1).
Proof.
  refine (read_fixed_array_copy_spec (uint_codec 1) _ byte_object _); [cbn; lia|].
  intros [|b [|]] Hl; try done. cbn. lia.
Qed.
Lemma read_fixed_u16_array_spec : reads_array_as (bebop_reader_read_fixed_u16_array PTR PTR) (uint_codec 2).
Proof. by_read_array 2%nat bebop_reader_read_u16 read_u16_spec. Qed.
Lemma read_fixed_u32_array_spec : reads_array_as (bebop_reader_read_fixed_u32_array PTR PTR) (uint_codec 4).
Proof. by_read_array 4%nat bebop_reader_read_u32 read_u32_spec. Qed.
Lemma read_fixed_u64_array_spec : reads_array_as (bebop_reader_read_fixed_u64_array PTR PTR) (uint_codec 8).
Proof. by_read_array 8%nat bebop_reader_read_u64 read_u64_spec. Qed.

(** Every fixed-size array reader (booleans apart), in both byte-order builds,
    rejects an input with fewer than [count] elements without moving the cursor,
    and otherwise consumes exactly [count] encodings and stores what they decode
    to. *)
Theorem fixed_arrays_read_correct : fixed_arrays_read.
Proof.
  unfold fixed_arrays_read. cbv beta zeta.
  conjunct (exact read_fixed_u8_array_spec).
  conjunct (by refine (read_cast_spec (uint_codec 1) _ _ _ read_fixed_u8_array_spec _ _)).
  conjunct (exact read_fixed_u16_array_spec).
  conjunct (by refine (read_cast_spec (uint_codec 2) _ _ _ read_fixed_u16_array_spec _ _)).
  conjunct (exact read_fixed_u32_array_spec).
  conjunct (by refine (read_cast_spec (uint_codec 4) _ _ _ read_fixed_u32_array_spec _ _)).
  conjunct (exact read_fixed_u64_array_spec).
  conjunct (by refine (read_cast_spec (uint_codec 8) _ _ _ read_fixed_u64_array_spec _ _)).
  conjunct (by_read_array 2%nat bebop_reader_read_f16 read_f16_spec).
  conjunct (by_read_array 2%nat bebop_reader_read_bf16 read_bf16_spec).
  conjunct (by_read_array 4%nat bebop_reader_read_f32 read_f32_spec).
  conjunct (by_read_array 8%nat bebop_reader_read_f64 read_f64_spec).
  conjunct (refine (read_fixed_array_copy_spec uuid_codec _ mkUUID _); [cbn; lia|done]).
  intros HL.
  conjunct (refine (read_fixed_array_spec (uint_codec 16) _ host_value (bebop_reader_read_u128 PTR PTR) _ _);
              [cbn; lia|apply host_read|by apply read_u128_spec]).
  conjunct (refine (read_fixed_array_spec i128_codec _ i128_of_object
                      (bebop_reader_read_i128 PTR PTR) _ _);
              [cbn; lia|intros E l _; unfold i128_of_object; by rewrite host_value_le|by apply read_i128_spec]).
  conjunct (refine (read_fixed_array_copy_spec timestamp_codec _ timestamp_of_host_bytes _);
              [cbn; lia|intros l _; by rewrite (proj2 (timestamp_host_le HL))]).
  refine (read_fixed_array_copy_spec duration_codec _ duration_of_host_bytes _);
    [cbn; lia|intros l _; by rewrite (proj2 (duration_host_le HL))].
Qed.

(** [bebop_reader_read_fixed_bool_array] copies the bytes of the wire into the
    [bool] objects as they are: where [bebop_reader_read_bool] reads the byte 2
    as [true] (1), the array reader stores an object with the byte 2. *)
Theorem fixed_bool_array_not_normalised r k :
  reader_ok r → rd_rest r = 2 :: k →
  bebop_reader_read_fixed_bool_array PTR PTR 1 r = Some ((BEBOP_RESULT_OK, Some [2]), rd_adv 1 r) ∧
  bebop_reader_read_bool PTR PTR r = Some ((BEBOP_RESULT_OK, Some true), rd_adv 1 r).
Proof.
  intros Hr E. split.
  - exact (proj2 (read_fixed_u8_array_spec r 1 Hr ltac:(lia)) [2] k E eq_refl).
  - exact (proj2 (read_bool_spec r Hr) [2] k E eq_refl).
Qed.
End Properties.

Definition demo_reader (l : list Z) : Bebop_Reader := mkReader l 0 0 (zlen l) NULL.

Lemma fixed_bool_array_witness :
  bebop_reader_read_fixed_bool_array PTR PTR 1 (demo_reader [2; 7]) =
    Some ((BEBOP_RESULT_OK, Some [2]), rd_adv 1 (demo_reader [2; 7])).
Proof.
  apply (fixed_bool_array_not_normalised (demo_reader [2; 7]) [7]); [|reflexivity].
  constructor; cbn; try (unfold zlen; cbn; lia). repeat constructor; lia.
Defined.

Lemma fixed_arrays_read_witness :
  @bebop_reader_read_fixed_i16_array default_platform PTR PTR 2 (demo_reader [254; 255; 3; 2; 9]) =
    Some ((BEBOP_RESULT_OK, Some [-2; 515]), rd_adv 4 (demo_reader [254; 255; 3; 2; 9])).
Proof.
  destruct (@fixed_arrays_read_correct default_platform _) as (_&_&_&H&_).
  refine (proj2 (H (demo_reader [254; 255; 3; 2; 9]) 2 _ _) [254; 255; 3; 2] [9] eq_refl eq_refl); [|lia].
  constructor; cbn; try (unfold zlen; cbn; lia). repeat constructor; lia.
Defined.
