(* ===== verification/RoundTrip.v ===== *)
(** What the writer writes, the reader reads back.  The interface between the
    two is the class [Wire]: a write operation, a read operation and the
    encoding they agree on.  Every scalar, string, byte array and fixed-size
    array of [bebop/src/bebop_wire.c] is an instance; the theorems about
    sequences of fields and about length-prefixed bodies are proved against the
    class. *)
From S2P Require Import Prelude.
From S2P Require Import WireTypes.
From S2P Require Import Reader.
From S2P Require Import Arena.
From S2P Require Import Writer.
From S2P Require Import Arrays.

(** ** The interface *)

(** [wire_same] relates the written value to the value read back: equality for
    scalars, equality of the denoted bytes for views into the input. *)
Class Wire `{HostAllocator} {A : Type} (write : A → WR Bebop_Result) (read : RD A) := {
  wire_valid : A → Prop;
  wire_enc : A → list Z;
  wire_same : A → A → Prop;
  wire_write : ∀ L s v, writer_ok L s → wire_valid v → appends L (write v) s (wire_enc v);
  wire_read : ∀ r v k, reader_ok r → wire_valid v → rd_rest r = wire_enc v ++ k →
    ∃ v', read r = Some ((BEBOP_RESULT_OK, Some v'), rd_adv (zlen (wire_enc v)) r) ∧ wire_same v v'
}.

(** A value together with the operations that write and read it. *)
Inductive field `{HostAllocator} : Type :=
  | Field {A} (write : A → WR Bebop_Result) (read : RD A) (W : Wire write read) (v : A).

Section Fields.
Context `{HostAllocator}.

Definition field_valid (f : field) : Prop := match f with Field _ _ W v => wire_valid v end.
Definition field_enc (f : field) : list Z := match f with Field _ _ W v => wire_enc v end.

(** Writes the fields in order and stops at the first error, as generated
    encoders do. *)
Fixpoint write_fields (fs : list field) : WR Bebop_Result :=
  match fs with
  | [] => mret BEBOP_RESULT_OK
  | Field write _ _ v :: fs => if_ok (write v) (write_fields fs)
  end.

(** The reader finds the fields in order, each read succeeds with the written
    value, and the reader ends up as [r']. *)
Fixpoint reads_back (fs : list field) (r r' : Bebop_Reader) : Prop :=
  match fs with
  | [] => r' = r
  | Field _ read _ v :: fs =>
      ∃ v' r1, read r = Some ((BEBOP_RESULT_OK, Some v'), r1) ∧ wire_same v v' ∧ reads_back fs r1 r'
  end.

Definition fields_enc (fs : list field) : list Z := concat (map field_enc fs).

Lemma write_fields_appends L s fs :
  writer_ok L s → Forall field_valid fs → appends L (write_fields fs) s (fields_enc fs).
Proof.
  intros Ho Hv. revert s Ho. induction Hv as [|[A write read W v] fs Hv _ IH]; intros s Ho.
  - by apply appends_ok_nil.
  - cbn. apply (appends_if_ok L _ _ s (wire_enc v) (fields_enc fs)); [by apply wire_write|].
    intros s1 Ho1 _ _. by apply IH.
Qed.

Lemma fields_read_back fs r k :
  reader_ok r → Forall field_valid fs → rd_rest r = fields_enc fs ++ k →
  reads_back fs r (rd_adv (zlen (fields_enc fs)) r).
Proof.
  intros Hr Hv. revert r Hr. induction Hv as [|[A write read W v] fs Hv _ IH]; intros r Hr E.
  - cbn. by rewrite rd_adv_0.
  - unfold fields_enc in E. cbn in E. rewrite <- app_assoc in E.
    destruct (wire_read r v _ Hr Hv E) as (v'&Er&Hs). cbn. exists v', (rd_adv (zlen (wire_enc v)) r).
    split_and!; [done|done|]. unfold fields_enc. cbn. rewrite zlen_app, <- rd_adv_adv.
    apply IH; [by eapply rd_adv_app_ok|by eapply rd_rest_adv_app].
Qed.
End Fields.

(** ** Instances *)

Section Instances.
Context `{HostAllocatorOk} `{PlatformOk}.

(** A pair of scalar operations for one codec. *)
Definition wire_scalar {A} (c : codec A) (write : A → WR Bebop_Result) (read : RD A)
  (Hw : writes_as write c) (Hr : reads_as read c) : Wire write read.
Proof.
  refine {| wire_valid := cd_valid c; wire_enc := cd_enc c; wire_same := eq |}.
  - intros L s v Ho Hv. by apply appends_of_atomic, Hw.
  - intros r v k Hok Hv E. exists v. split; [|done].
    rewrite (proj2 (Hr r Hok) _ _ E (cd_enc_length _ c v Hv)), cd_dec_enc by done.
    unfold zlen. by rewrite cd_enc_length.
Defined.

#[export] Instance wire_byte : Wire (bebop_writer_write_byte PTR) (bebop_reader_read_byte PTR PTR) :=
  wire_scalar _ _ _ write_byte_writes read_byte_spec.
#[export] Instance wire_u16 : Wire (bebop_writer_write_u16 PTR) (bebop_reader_read_u16 PTR PTR) :=
  wire_scalar _ _ _ write_u16_writes read_u16_spec.
#[export] Instance wire_u32 : Wire (bebop_writer_write_u32 PTR) (bebop_reader_read_u32 PTR PTR) :=
  wire_scalar _ _ _ write_u32_writes read_u32_spec.
#[export] Instance wire_u64 : Wire (bebop_writer_write_u64 PTR) (bebop_reader_read_u64 PTR PTR) :=
  wire_scalar _ _ _ write_u64_writes read_u64_spec.
#[export] Instance wire_i8 : Wire (bebop_writer_write_i8 PTR) (bebop_reader_read_i8 PTR PTR) :=
  wire_scalar _ _ _ write_i8_writes read_i8_spec.
#[export] Instance wire_i16 : Wire (bebop_writer_write_i16 PTR) (bebop_reader_read_i16 PTR PTR) :=
  wire_scalar _ _ _ write_i16_writes read_i16_spec.
#[export] Instance wire_i32 : Wire (bebop_writer_write_i32 PTR) (bebop_reader_read_i32 PTR PTR) :=
  wire_scalar _ _ _ write_i32_writes read_i32_spec.
#[export] Instance wire_i64 : Wire (bebop_writer_write_i64 PTR) (bebop_reader_read_i64 PTR PTR) :=
  wire_scalar _ _ _ write_i64_writes read_i64_spec.
#[export] Instance wire_bool : Wire (bebop_writer_write_bool PTR) (bebop_reader_read_bool PTR PTR) :=
  wire_scalar _ _ _ write_bool_writes read_bool_spec.
#[export] Instance wire_f16 : Wire (bebop_writer_write_f16 PTR) (bebop_reader_read_f16 PTR PTR) :=
  wire_scalar _ _ _ write_f16_writes read_f16_spec.
#[export] Instance wire_bf16 : Wire (bebop_writer_write_bf16 PTR) (bebop_reader_read_bf16 PTR PTR) :=
  wire_scalar _ _ _ write_bf16_writes read_bf16_spec.
#[export] Instance wire_f32 : Wire (bebop_writer_write_f32 PTR) (bebop_reader_read_f32 PTR PTR) :=
  wire_scalar _ _ _ write_f32_writes read_f32_spec.
#[export] Instance wire_f64 : Wire (bebop_writer_write_f64 PTR) (bebop_reader_read_f64 PTR PTR) :=
  wire_scalar _ _ _ write_f64_writes read_f64_spec.
#[export] Instance wire_uuid : Wire (bebop_writer_write_uuid PTR) (bebop_reader_read_uuid PTR PTR) :=
  wire_scalar _ _ _ write_uuid_writes read_uuid_spec.
Definition wire_u128 (HL : HOST_LE = true) :
  Wire (bebop_writer_write_u128 PTR) (bebop_reader_read_u128 PTR PTR) :=
  wire_scalar _ _ _ (write_u128_writes HL) (read_u128_spec HL).
Definition wire_i128 (HL : HOST_LE = true) :
  Wire (bebop_writer_write_i128 PTR) (bebop_reader_read_i128 PTR PTR) :=
  wire_scalar _ _ _ (write_i128_writes HL) (read_i128_spec HL).
Definition wire_timestamp (HL : HOST_LE = true) :
  Wire (bebop_writer_write_timestamp PTR) (bebop_reader_read_timestamp PTR PTR) :=
  wire_scalar _ _ _ (write_timestamp_writes HL) (read_timestamp_spec HL).
Definition wire_duration (HL : HOST_LE = true) :
  Wire (bebop_writer_write_duration PTR) (bebop_reader_read_duration PTR PTR) :=
  wire_scalar _ _ _ (write_duration_writes HL) (read_duration_spec HL).

(** Views are compared by the bytes they denote. *)
Definition same_bytes (v v' : Bebop_View) : Prop := view_ok v' ∧ view_bytes v' = view_bytes v.

(** The reader in front of a length-prefixed encoding. *)
Lemma prefixed_rest r n body k :
  reader_ok r → rd_rest r = le_bytes 4 n ++ body ++ k → 0 ≤ n < 2 ^ 32 →
  4 ≤ zlen (rd_rest r) ∧ rd_prefix r = n ∧ rd_body r = body ++ k.
Proof.
  intros Hr E Hn. split_and!.
  - rewrite E. zlia.
  - unfold rd_prefix. rewrite E, take_app_length'; [by apply le_value_le_bytes_small|]. by rewrite length_le_bytes.
  - unfold rd_body. rewrite E. apply drop_le_bytes.
Qed.

#[export] Instance wire_string : Wire (bebop_writer_write_string PTR) (bebop_reader_read_string PTR PTR).
Proof.
  refine {| wire_valid v := view_ok v ∧ view_length v < UINT32_MAX;
            wire_enc v := le_bytes 4 (view_length v) ++ view_bytes v ++ [0]; wire_same := same_bytes |}.
  - intros L s v Ho [Hv Hl]. by apply write_string_appends.
  - intros r v k Hr [Hv Hl] E. pose proof Hv as (d&Ed&_&Hn&_). destruct (view_load v d Hv Ed) as (_&Hb&Hz).
    unfold UINT32_MAX in Hl. rewrite <- !app_assoc in E.
    destruct (prefixed_rest r (view_length v) (view_bytes v ++ [0]) k Hr) as (H4&Hp&Hbody);
      [by rewrite <- app_assoc|lia|].
    pose proof (rd_body_zlen r Hr H4) as Hbz. rewrite Hbody in Hbz. rewrite read_string_branches, Hp, Hbody by done.
    destruct (Z.ltb_spec (zlen (rd_rest r)) 4); [lia|].
    destruct (Z.leb_spec (zlen ((view_bytes v ++ [0]) ++ k)) (view_length v)); [zlia|].
    assert (Hnul : ((view_bytes v ++ [0]) ++ k) !! Z.to_nat (view_length v) = Some 0).
    { rewrite <- Hz. unfold zlen. rewrite Nat2Z.id, <- app_assoc. by apply list_lookup_middle. }
    rewrite Hnul. cbn [orb default negb Z.eqb]. eexists. split.
    + do 3 f_equal. rewrite !zlen_app, zlen_le_bytes, Hz, zlen_cons, zlen_nil. lia.
    + autorewrite with bebop in Hbz. zlen_pos. split; [apply rd_view_ok; done || lia|].
      rewrite rd_view_bytes by (done || lia). change (Z.to_nat 4) with 4%nat. fold (rd_body r).
      rewrite Hbody, <- app_assoc, <- Hz. unfold zlen. by rewrite Nat2Z.id, take_app_length.
Defined.

#[export] Instance wire_bytes : Wire (bebop_writer_write_bytes PTR) (bebop_reader_read_bytes PTR PTR).
Proof.
  refine {| wire_valid v := view_ok v ∧ view_length v ≤ UINT32_MAX;
            wire_enc v := le_bytes 4 (view_length v) ++ view_bytes v; wire_same := same_bytes |}.
  - intros L s v Ho [Hv Hl]. by apply write_bytes_appends.
  - intros r v k Hr [Hv Hl] E. pose proof Hv as (d&Ed&_&Hn&_). destruct (view_load v d Hv Ed) as (_&Hb&Hz).
    unfold UINT32_MAX in Hl. rewrite <- !app_assoc in E.
    destruct (prefixed_rest r (view_length v) (view_bytes v) k Hr E ltac:(lia)) as (H4&Hp&Hbody).
    pose proof (rd_body_zlen r Hr H4) as Hbz. rewrite Hbody in Hbz. rewrite read_bytes_branches, Hp, Hbody by done.
    destruct (Z.ltb_spec (zlen (rd_rest r)) 4); [lia|].
    destruct (Z.ltb_spec (zlen (view_bytes v ++ k)) (view_length v)); [zlia|]. eexists. split.
    + do 3 f_equal. rewrite !zlen_app, zlen_le_bytes, Hz. lia.
    + autorewrite with bebop in Hbz. zlen_pos. split; [apply rd_view_ok; done || lia|].
      rewrite rd_view_bytes by (done || lia). change (Z.to_nat 4) with 4%nat. fold (rd_body r).
      rewrite Hbody, <- Hz. unfold zlen. by rewrite Nat2Z.id, take_app_length.
Defined.

(** Fixed-size arrays of [count] elements. *)
Definition wire_fixed_array {A} (c : codec A) (count : Z) (write : option (list A) → Z → WR Bebop_Result)
  (read : Z → RD (list A)) (Hw : writes_array_as write c (λ _, []) (2 ^ 56)) (Hr : reads_array_as read c) :
  Wire (λ vs, write (Some vs) count) (read count).
Proof.
  refine {| wire_valid vs := zlen vs = count ∧ count ≤ 2 ^ 56 ∧ Forall (cd_valid c) vs;
            wire_enc vs := enc_all c vs; wire_same := eq |}.
  - intros L s vs Ho (Hl&Hm&Hv). subst count.
    replace (enc_all c vs) with ([] ++ enc_all c (take (Z.to_nat (zlen vs)) vs)).
    + apply (Hw L s vs (zlen vs)); auto; zlen_pos; lia.
    + unfold zlen. by rewrite Nat2Z.id, firstn_all.
  - intros r vs k Hok (Hl&Hm&Hv) E. subst count. exists vs. split; [|done].
    rewrite (proj2 (Hr r (zlen vs) Hok (zlen_nonneg vs)) _ _ E (zlen_enc_all c vs Hv)).
    by rewrite dec_enc_all, zlen_enc_all by done.
Defined.
End Instances.

(** ** Values of every type

    The scalars of the wire, strings and arrays of bytes, as a generated encoder writes them one
    behind the other, and the kinds by which a generated decoder reads them. *)
Inductive kind : Type :=
  | KByte | KU16 | KU32 | KU64 | KI8 | KI16 | KI32 | KI64 | KBool | KF16 | KBf16 | KF32 | KF64
  | KI128 | KU128 | KUuid | KTimestamp | KDuration | KString | KBytes.
Inductive value : Type :=
  | VByte (n : Z) | VU16 (n : Z) | VU32 (n : Z) | VU64 (n : Z) | VI8 (n : Z) | VI16 (n : Z) | VI32 (n : Z) | VI64 (n : Z)
  | VBool (b : bool) | VF16 (bits : Z) | VBf16 (bits : Z) | VF32 (bits : Z) | VF64 (bits : Z) | VI128 (n : Z) | VU128 (n : Z)
  | VUuid (u : Bebop_UUID) | VTimestamp (t : Bebop_Timestamp) | VDuration (d : Bebop_Duration)
  | VString (text : list Z) | VBytes (data : list Z).
Definition kind_of (v : value) : kind :=
  match v with
  | VByte _ => KByte | VU16 _ => KU16 | VU32 _ => KU32 | VU64 _ => KU64 | VI8 _ => KI8 | VI16 _ => KI16 | VI32 _ => KI32 | VI64 _ => KI64
  | VBool _ => KBool | VF16 _ => KF16 | VBf16 _ => KBf16 | VF32 _ => KF32 | VF64 _ => KF64 | VI128 _ => KI128 | VU128 _ => KU128
  | VUuid _ => KUuid | VTimestamp _ => KTimestamp | VDuration _ => KDuration | VString _ => KString | VBytes _ => KBytes
  end.

Section Values.
Context `{HostAllocator} `{Platform}.

(** The ranges of the C types. The types that are copied as a whole have the byte order of the
    host, so that they need a little-endian one. *)
Definition value_ok (v : value) : Prop :=
  match v with
  | VByte n => 0 ≤ n < 2 ^ 8
  | VU16 n | VF16 n | VBf16 n => 0 ≤ n < 2 ^ 16
  | VU32 n | VF32 n => 0 ≤ n < 2 ^ 32
  | VU64 n | VF64 n => 0 ≤ n < 2 ^ 64
  | VI8 n => - 2 ^ 7 ≤ n < 2 ^ 7
  | VI16 n => - 2 ^ 15 ≤ n < 2 ^ 15
  | VI32 n => - 2 ^ 31 ≤ n < 2 ^ 31
  | VI64 n => - 2 ^ 63 ≤ n < 2 ^ 63
  | VBool _ => True
  | VI128 n => HOST_LE = true ∧ - 2 ^ 127 ≤ n < 2 ^ 127
  | VU128 n => HOST_LE = true ∧ 0 ≤ n < 2 ^ 128
  | VUuid u => uuid_ok u
  | VTimestamp t => HOST_LE = true ∧ timestamp_ok t
  | VDuration d => HOST_LE = true ∧ duration_ok d
  | VString l => bytes_ok l ∧ zlen l < UINT32_MAX
  | VBytes l => bytes_ok l ∧ zlen l ≤ UINT32_MAX
  end.

(** A view of a whole array. *)
Definition whole (l : list Z) : Bebop_View := mkView l (Some 0) (zlen l).
Definition write_value (v : value) : WR Bebop_Result :=
  match v with
  | VByte n => bebop_writer_write_byte PTR n
  | VU16 n => bebop_writer_write_u16 PTR n
  | VU32 n => bebop_writer_write_u32 PTR n
  | VU64 n => bebop_writer_write_u64 PTR n
  | VI8 n => bebop_writer_write_i8 PTR n
  | VI16 n => bebop_writer_write_i16 PTR n
  | VI32 n => bebop_writer_write_i32 PTR n
  | VI64 n => bebop_writer_write_i64 PTR n
  | VBool b => bebop_writer_write_bool PTR b
  | VF16 n => bebop_writer_write_f16 PTR n
  | VBf16 n => bebop_writer_write_bf16 PTR n
  | VF32 n => bebop_writer_write_f32 PTR n
  | VF64 n => bebop_writer_write_f64 PTR n
  | VI128 n => bebop_writer_write_i128 PTR n
  | VU128 n => bebop_writer_write_u128 PTR n
  | VUuid u => bebop_writer_write_uuid PTR u
  | VTimestamp t => bebop_writer_write_timestamp PTR t
  | VDuration d => bebop_writer_write_duration PTR d
  | VString l => bebop_writer_write_string PTR (whole l)
  | VBytes l => bebop_writer_write_bytes PTR (whole l)
  end.

(** The encodings, as docs/WIRE.md has them. *)
Definition value_enc (v : value) : list Z :=
  match v with
  | VByte n => le_bytes 1 n
  | VU16 n | VF16 n | VBf16 n => le_bytes 2 n
  | VU32 n | VF32 n => le_bytes 4 n
  | VU64 n | VF64 n => le_bytes 8 n
  | VU128 n => le_bytes 16 n
  | VI8 n => le_bytes 1 (to_unsigned 8 n)
  | VI16 n => le_bytes 2 (to_unsigned 16 n)
  | VI32 n => le_bytes 4 (to_unsigned 32 n)
  | VI64 n => le_bytes 8 (to_unsigned 64 n)
  | VI128 n => le_bytes 16 (to_unsigned 128 n)
  | VBool b => [if b then 1 else 0]
  | VUuid u => uuid_bytes u
  | VTimestamp t => le_bytes 8 (to_unsigned 64 (ts_seconds t)) ++ le_bytes 4 (to_unsigned 32 (ts_nanos t)) ++ le_bytes 4 (to_unsigned 32 (ts_offset_ms t))
  | VDuration d => le_bytes 8 (to_unsigned 64 (du_seconds d)) ++ le_bytes 4 (to_unsigned 32 (du_nanos d))
  | VString l => le_bytes 4 (zlen l) ++ l ++ [0]
  | VBytes l => le_bytes 4 (zlen l) ++ l
  end.

(** What was read, as a value. *)
Definition read_as {A} (f : A → value) (c : RD A) : RD value := '(result, out) ← c; mret (result, f <$> out).
Definition read_value (k : kind) : RD value :=
  match k with
  | KByte => read_as VByte (bebop_reader_read_byte PTR PTR)
  | KU16 => read_as VU16 (bebop_reader_read_u16 PTR PTR)
  | KU32 => read_as VU32 (bebop_reader_read_u32 PTR PTR)
  | KU64 => read_as VU64 (bebop_reader_read_u64 PTR PTR)
  | KI8 => read_as VI8 (bebop_reader_read_i8 PTR PTR)
  | KI16 => read_as VI16 (bebop_reader_read_i16 PTR PTR)
  | KI32 => read_as VI32 (bebop_reader_read_i32 PTR PTR)
  | KI64 => read_as VI64 (bebop_reader_read_i64 PTR PTR)
  | KBool => read_as VBool (bebop_reader_read_bool PTR PTR)
  | KF16 => read_as VF16 (bebop_reader_read_f16 PTR PTR)
  | KBf16 => read_as VBf16 (bebop_reader_read_bf16 PTR PTR)
  | KF32 => read_as VF32 (bebop_reader_read_f32 PTR PTR)
  | KF64 => read_as VF64 (bebop_reader_read_f64 PTR PTR)
  | KI128 => read_as VI128 (bebop_reader_read_i128 PTR PTR)
  | KU128 => read_as VU128 (bebop_reader_read_u128 PTR PTR)
  | KUuid => read_as VUuid (bebop_reader_read_uuid PTR PTR)
  | KTimestamp => read_as VTimestamp (bebop_reader_read_timestamp PTR PTR)
  | KDuration => read_as VDuration (bebop_reader_read_duration PTR PTR)
  | KString => read_as (VString ∘ view_bytes) (bebop_reader_read_string PTR PTR)
  | KBytes => read_as (VBytes ∘ view_bytes) (bebop_reader_read_bytes PTR PTR)
  end.

(** The loops of generated code: they stop at the first error. *)
Fixpoint write_values (vs : list value) : WR Bebop_Result :=
  match vs with [] => mret BEBOP_RESULT_OK | v :: vs => if_ok (write_value v) (write_values vs) end.
Fixpoint read_values (ks : list kind) : RD (list value) :=
  match ks with
  | [] => mret (BEBOP_RESULT_OK, Some [])
  | k :: ks =>
      '(result, v) ← read_value k;
      match is_ok result, v with
      | true, Some v => '(result, vs) ← read_values ks; mret (result, cons v <$> vs)
      | _, _ => mret (result, None)
      end
  end.
End Values.

(** ** Length-prefixed bodies

    The calling sequence of the encoders and decoders that the C generator emits
    for unions: the length is patched in behind the body, and the reader reads
    the body under a limit. *)
Section Frames.
Context `{HostAllocator} `{Platform}.

Definition write_frame (fs : list field) : WR Bebop_Result :=
  '(result, position) ← bebop_writer_begin_length PTR PTR;
  match is_ok result, position with
  | true, Some position =>
      start ← bebop_writer_length PTR;
      if_ok (write_fields fs)
        (len ← bebop_writer_length PTR;
         bebop_writer_end_length PTR position (u32 (u64 (len - start))))
  | _, _ => mret result
  end.

(** Entering the frame: the limit that was replaced, and the reader inside. *)
Definition enter_frame : RD Z :=
  '(result, len) ← bebop_reader_read_u32 PTR PTR;
  match is_ok result, len with
  | true, Some len => bebop_reader_push_limit PTR len PTR
  | _, _ => mret (result, None)
  end.
End Frames.

Section Properties.
Context `{HostAllocatorOk} `{PlatformOk}.

(** A reader over what a writer holds. *)
Definition reader_over (l : list Z) : Bebop_Reader := mkReader l 0 0 (zlen l) NULL.

Lemma reader_over_ok l : bytes_ok l → zlen l < 2 ^ 63 → reader_ok (reader_over l) ∧ rd_rest (reader_over l) = l.
Proof.
  intros Hb Hl. zlen_pos. split; [constructor; cbn; auto; lia|].
  unfold rd_rest, reader_over; cbn. rewrite Z.sub_0_r. unfold zlen. by rewrite Nat2Z.id, drop_0, firstn_all.
Qed.

(** Every scalar writer implements its wire codec, in the [memcpy] build and in
    the byte-wise build: on every writer in a well-formed context it is defined,
    and it appends exactly the encoding of the value, or reports
    [BEBOP_RESULT_OOM] and leaves the written bytes alone. *)
Theorem scalar_writers_correct :
  writes_as (bebop_writer_write_byte PTR) (uint_codec 1) ∧
  writes_as (bebop_writer_write_u16 PTR) (uint_codec 2) ∧
  writes_as (bebop_writer_write_u32 PTR) (uint_codec 4) ∧
  writes_as (bebop_writer_write_u64 PTR) (uint_codec 8) ∧
  writes_as (bebop_writer_write_i8 PTR) i8_codec ∧
  writes_as (bebop_writer_write_i16 PTR) i16_codec ∧
  writes_as (bebop_writer_write_i32 PTR) i32_codec ∧
  writes_as (bebop_writer_write_i64 PTR) i64_codec ∧
  writes_as (bebop_writer_write_bool PTR) bool_codec ∧
  writes_as (bebop_writer_write_f16 PTR) (uint_codec 2) ∧
  writes_as (bebop_writer_write_bf16 PTR) (uint_codec 2) ∧
  writes_as (bebop_writer_write_f32 PTR) (uint_codec 4) ∧
  writes_as (bebop_writer_write_f64 PTR) (uint_codec 8) ∧
  writes_as (bebop_writer_write_uuid PTR) uuid_codec ∧
  (HOST_LE = true →
   writes_as (bebop_writer_write_u128 PTR) (uint_codec 16) ∧
   writes_as (bebop_writer_write_i128 PTR) i128_codec ∧
   writes_as (bebop_writer_write_timestamp PTR) timestamp_codec ∧
   writes_as (bebop_writer_write_duration PTR) duration_codec).
Proof.
  conjunct (exact write_byte_writes).
  conjunct (exact write_u16_writes).
  conjunct (exact write_u32_writes).
  conjunct (exact write_u64_writes).
  conjunct (exact write_i8_writes).
  conjunct (exact write_i16_writes).
  conjunct (exact write_i32_writes).
  conjunct (exact write_i64_writes).
  conjunct (exact write_bool_writes).
  conjunct (exact write_f16_writes).
  conjunct (exact write_bf16_writes).
  conjunct (exact write_f32_writes).
  conjunct (exact write_f64_writes).
  conjunct (exact write_uuid_writes).
  intros HL. split_and!; [by apply write_u128_writes|by apply write_i128_writes
    |by apply write_timestamp_writes|by apply write_duration_writes].
Qed.

(** Round trip of a struct body whose fields have operations of the interface [Wire]. *)
Theorem wire_fields_roundtrip L s fs :
  writer_ok L s → ws_data s = [] → Forall field_valid fs →
  ∃ result s', write_fields fs s = Some (result, s') ∧ writer_ok L s' ∧
    (result = BEBOP_RESULT_OK ∨ result = BEBOP_RESULT_OOM) ∧
    (result = BEBOP_RESULT_OK → ∃ view r r',
       bebop_writer_view PTR s' = Some (view, s') ∧
       bebop_reader_init PTR NULL view (mkReader [] 0 0 0 NULL) = Some (BEBOP_RESULT_OK, r) ∧
       reads_back fs r r' ∧ bebop_reader_remaining PTR r' = Some (0, r')).
Proof.
  intros Ho Hnil Hv. destruct (write_fields_appends L s fs Ho Hv) as (result&s'&E&Ho'&_&Hr).
  exists result, s'. split_and!; [done|done|destruct result; auto; done|]. intros ->. rewrite Hnil in Hr. cbn in Hr.
  destruct (writer_view_spec L s' Ho') as (Ev&_&_). pose proof (wo_capacity _ _ Ho'). pose proof (wo_data _ _ Ho').
  destruct (reader_over_ok (ws_data s') (wo_bytes _ _ Ho') ltac:(lia)) as [Hrd Erest].
  eexists _, (reader_over (ws_data s')), (rd_adv (zlen (ws_data s')) (reader_over (ws_data s'))).
  split_and!; [exact Ev|done| |].
  - rewrite Hr at 2. apply (fields_read_back fs _ []); [done|done|]. by rewrite Erest, Hr, app_nil_r.
  - unfold bebop_reader_remaining, gets. cbn. by rewrite Z.sub_diag.
Qed.

(** A value as a field of the interface. *)
Definition value_field (v : value) (Hv : value_ok v) : field.
Proof.
  destruct v as [n|n|n|n|n|n|n|n|b|n|n|n|n|n|n|u|t|d|l|l].
  - exact (Field _ _ wire_byte n).
  - exact (Field _ _ wire_u16 n).
  - exact (Field _ _ wire_u32 n).
  - exact (Field _ _ wire_u64 n).
  - exact (Field _ _ wire_i8 n).
  - exact (Field _ _ wire_i16 n).
  - exact (Field _ _ wire_i32 n).
  - exact (Field _ _ wire_i64 n).
  - exact (Field _ _ wire_bool b).
  - exact (Field _ _ wire_f16 n).
  - exact (Field _ _ wire_bf16 n).
  - exact (Field _ _ wire_f32 n).
  - exact (Field _ _ wire_f64 n).
  - exact (Field _ _ (wire_i128 (proj1 Hv)) n).
  - exact (Field _ _ (wire_u128 (proj1 Hv)) n).
  - exact (Field _ _ wire_uuid u).
  - exact (Field _ _ (wire_timestamp (proj1 Hv)) t).
  - exact (Field _ _ (wire_duration (proj1 Hv)) d).
  - exact (Field _ _ wire_string (whole l)).
  - exact (Field _ _ wire_bytes (whole l)).
Defined.

Lemma whole_ok l : bytes_ok l → zlen l ≤ UINT32_MAX → view_ok (whole l) ∧ view_bytes (whole l) = l.
Proof.
  intros Hl Hz. unfold UINT32_MAX in Hz. zlen_pos. split.
  - exists 0. cbn. split_and!; [done|lia|lia|lia|lia|done].
  - cbn. unfold zlen. by rewrite Nat2Z.id, firstn_all.
Qed.
Lemma value_field_valid v Hv : field_valid (value_field v Hv).
Proof.
  destruct v; cbn in *; try done; try (by destruct Hv); destruct Hv as (Hl&Hz); (split; [apply whole_ok; [done|unfold UINT32_MAX in *; lia]|done]).
Qed.
Lemma value_encoded v Hv : field_enc (value_field v Hv) = value_enc v.
Proof.
  destruct v as [| | | | | | | | | | | | | | | | | |l|l]; try done; destruct Hv as (Hl&Hz);
    cbn [value_field field_enc wire_enc wire_string wire_bytes value_enc];
    rewrite (proj2 (whole_ok l Hl ltac:(unfold UINT32_MAX in *; lia))); done.
Qed.
Lemma value_written L s v : writer_ok L s → value_ok v → appends L (write_value v) s (value_enc v).
Proof.
  intros Ho Hv. pose proof (value_field_valid v Hv) as Hok. rewrite <- (value_encoded v Hv). revert Hok.
  destruct v; cbn [value_field field_valid field_enc write_value]; intros Hok; exact (wire_write L s _ Ho Hok).
Qed.
(** What the operation of the field reads is the value. *)
Lemma value_read v Hv r k :
  reader_ok r → rd_rest r = field_enc (value_field v Hv) ++ k →
  read_value (kind_of v) r = Some ((BEBOP_RESULT_OK, Some v), rd_adv (zlen (field_enc (value_field v Hv))) r).
Proof.
  intros Hr E. pose proof (value_field_valid v Hv) as Hok. pose proof Hv as Hv'.
  destruct v as [n|n|n|n|n|n|n|n|b|n|n|n|n|n|n|u|t|d|l|l]; cbn [value_field field_valid field_enc] in *;
    destruct (wire_read r _ _ Hr Hok E) as (v'&Er&Hs); cbn [kind_of read_value]; unfold read_as;
    rewrite (C_bind_Some _ _ _ _ _ Er); try (by cbn in Hs; subst v').
  - destruct Hs as (_&Hb), Hv' as (Hl&Hz). rewrite (proj2 (whole_ok l Hl ltac:(lia))) in Hb. cbn. by rewrite Hb.
  - destruct Hs as (_&Hb), Hv' as (Hl&Hz). rewrite (proj2 (whole_ok l Hl ltac:(lia))) in Hb. cbn. by rewrite Hb.
Qed.

Lemma write_values_appends L s vs : writer_ok L s → Forall value_ok vs → appends L (write_values vs) s (concat (map value_enc vs)).
Proof.
  intros Ho Hv. revert s Ho. induction Hv as [|v vs Hv Hvs IH]; intros s Ho; [by apply appends_ok_nil|].
  apply (appends_if_ok L _ _ s); [|intros s1 Ho1 _ _; by apply IH].
  by apply value_written.
Qed.
Lemma values_read r vs k : reader_ok r → Forall value_ok vs → rd_rest r = concat (map value_enc vs) ++ k →
  read_values (map kind_of vs) r = Some ((BEBOP_RESULT_OK, Some vs), rd_adv (zlen (concat (map value_enc vs))) r).
Proof.
  intros Hr Hv. revert r Hr. induction Hv as [|v vs Hv Hvs IH]; intros r Hr E; [cbn; by rewrite rd_adv_0|].
  cbn [map concat read_values] in *. rewrite <- app_assoc in E. pose proof E as E'. rewrite <- (value_encoded v Hv) in E'.
  rewrite (C_bind_Some _ _ _ _ _ (value_read v Hv r _ Hr E')), value_encoded. cbn [is_ok].
  rewrite (C_bind_Some _ _ _ _ _ (IH (rd_adv (zlen (value_enc v)) r) ltac:(by eapply rd_adv_app_ok) ltac:(by eapply rd_rest_adv_app))).
  cbn. by rewrite rd_adv_adv, zlen_app.
Qed.

(** C4: round trip of a struct body. Writing values of any wire types, scalars, strings and
    arrays of bytes in the ranges of their C types, into an empty writer is defined and succeeds
    unless storage runs out. After success the writer holds exactly the encodings of the values
    as docs/WIRE.md has them, one behind the other, and reading values of the same types over
    [bebop_writer_view] gives exactly the values that were written, up to the end of the input.
    Integers of 128 bits, timestamps and durations, which are copied as the host has them, are
    covered on little-endian hosts. *)
Theorem fields_roundtrip L s vs :
  writer_ok L s → ws_data s = [] → Forall value_ok vs →
  ∃ result s', write_values vs s = Some (result, s') ∧ writer_ok L s' ∧
    (result = BEBOP_RESULT_OK ∨ result = BEBOP_RESULT_OOM) ∧
    (result = BEBOP_RESULT_OK → ws_data s' = concat (map value_enc vs) ∧ ∃ view r r',
       bebop_writer_view PTR s' = Some (view, s') ∧
       bebop_reader_init PTR NULL view (mkReader [] 0 0 0 NULL) = Some (BEBOP_RESULT_OK, r) ∧
       read_values (map kind_of vs) r = Some ((BEBOP_RESULT_OK, Some vs), r') ∧ bebop_reader_remaining PTR r' = Some (0, r')).
Proof.
  intros Ho Hnil Hv. destruct (write_values_appends L s vs Ho Hv) as (result&s'&E&Ho'&_&Hr).
  exists result, s'. split_and!; [done|done|destruct result; auto; done|]. intros ->. rewrite Hnil in Hr. cbn in Hr.
  destruct (writer_view_spec L s' Ho') as (Ev&_&_). pose proof (wo_capacity _ _ Ho'). pose proof (wo_data _ _ Ho').
  destruct (reader_over_ok (ws_data s') (wo_bytes _ _ Ho') ltac:(lia)) as [Hrd Erest]. split; [exact Hr|].
  eexists _, (reader_over (ws_data s')), (rd_adv (zlen (ws_data s')) (reader_over (ws_data s'))).
  split_and!; [exact Ev|done| |].
  - rewrite Hr at 2. apply (values_read _ vs []); [done|done|]. by rewrite Erest, Hr, app_nil_r.
  - unfold bebop_reader_remaining, gets. cbn. by rewrite Z.sub_diag.
Qed.

Lemma write_frame_spec L s fs :
  writer_ok L s → Forall field_valid fs →
  ∃ result s', write_frame fs s = Some (result, s') ∧ writer_ok L s' ∧
    (result = BEBOP_RESULT_OK ∧
       ws_data s' = ws_data s ++ le_bytes 4 (u32 (zlen (fields_enc fs))) ++ fields_enc fs ∨
     result = BEBOP_RESULT_OOM).
Proof.
  intros Ho Hv. unfold write_frame.
  destruct (begin_length_spec L s Ho) as (result&s1&E&Ho1&_&Hr).
  rewrite (C_bind_Some _ _ _ _ _ E).
  destruct result; try done; cbn [is_ok]; [|by eexists _, s1; split_and!; [done|done|right]].
  rewrite (C_bind_Some _ _ _ _ _ (writer_length_spec L s1 Ho1)).
  destruct (write_fields_appends L s1 fs Ho1 Hv) as (result&s2&E2&Ho2&_&Hr2).
  unfold if_ok. rewrite (C_bind_Some _ _ _ _ _ E2).
  destruct result; try done; cbn [is_ok]; [|by eexists _, s2; split_and!; [done|done|right]].
  rewrite (C_bind_Some _ _ _ _ _ (writer_length_spec L s2 Ho2)).
  rewrite Hr, <- app_assoc in Hr2.
  destruct (end_length_spec L s2 (ws_data s) (le_bytes 4 0) (fields_enc fs)
    (u32 (u64 (zlen (ws_data s2) - zlen (ws_data s1)))) Ho2 Hr2 eq_refl) as [E3 Ho3].
  eexists _, _. split; [exact E3|]. split; [done|]. left. split; [done|].
  assert (El : zlen (ws_data s2) - zlen (ws_data s1) = zlen (fields_enc fs)) by (rewrite Hr2, Hr; zlia).
  pose proof (wo_capacity _ _ Ho2). pose proof (wo_data _ _ Ho2). pose proof (zlen_nonneg (fields_enc fs)).
  pose proof (zlen_nonneg (ws_data s1)). rewrite El, u64_small by lia. done.
Qed.

(** round trip of a length-prefixed body, as generated union code writes and
    reads it.  The encoder patches the length behind the body with
    [bebop_writer_end_length]; the decoder then reads the length, limits itself
    to the body, finds every field, has nothing left under the limit, and
    after [bebop_reader_pop_limit] stands behind the body with the old limit,
    whatever follows in the input. *)
Theorem frame_roundtrip L s fs k :
  writer_ok L s → ws_data s = [] → Forall field_valid fs →
  zlen (fields_enc fs) ≤ UINT32_MAX → bytes_ok k → zlen k < 2 ^ 62 →
  ∃ result s', write_frame fs s = Some (result, s') ∧
    (result = BEBOP_RESULT_OK ∨ result = BEBOP_RESULT_OOM) ∧
    (result = BEBOP_RESULT_OK →
     let input := ws_data s' ++ k in
     ∃ r1 r2, enter_frame (reader_over input) = Some ((BEBOP_RESULT_OK, Some (zlen input)), r1) ∧
       reads_back fs r1 r2 ∧ bebop_reader_remaining PTR r2 = Some (0, r2) ∧
       bebop_reader_pop_limit PTR (Some (zlen input)) r2 =
         Some (tt, rd_adv (zlen (ws_data s')) (reader_over input))).
Proof.
  intros Ho Hnil Hv Hlen Hk Hkl. destruct (write_frame_spec L s fs Ho Hv) as (result&s'&E&Ho'&Hr).
  exists result, s'. split_and!; [done|tauto|]. intros ->.
  destruct Hr as [[_ Hd]|]; [|done]. rewrite Hnil in Hd. cbn [app] in Hd. unfold UINT32_MAX in Hlen.
  pose proof (zlen_nonneg (fields_enc fs)) as Hz. rewrite u32_small in Hd by lia.
  intros input. subst input. pose proof (wo_capacity _ _ Ho') as Hc. pose proof (wo_data _ _ Ho') as Hdl.
  assert (Hbytes : bytes_ok (ws_data s' ++ k)) by (apply Forall_app; split; [apply (wo_bytes _ _ Ho')|done]).
  destruct (reader_over_ok (ws_data s' ++ k) Hbytes) as [Hrd Erest]; [zlia|].
  pose proof Erest as Er. rewrite Hd in Er at 2. rewrite <- app_assoc in Er.
  destruct (prefixed_rest _ _ _ _ Hrd Er ltac:(lia)) as (H4&Hp&Hbody).
  destruct (rd_adv4 _ Hrd H4) as [Hr4 E4]. rewrite Hbody in E4.
  set (r4 := rd_adv 4 (reader_over (ws_data s' ++ k))) in *.
  exists (set_end (rd_current r4 + zlen (fields_enc fs)) r4).
  exists (rd_adv (zlen (fields_enc fs)) (set_end (rd_current r4 + zlen (fields_enc fs)) r4)).
  assert (Hz4 : zlen (rd_rest r4) = zlen (fields_enc fs) + zlen k) by (rewrite E4; zlia).
  pose proof (zlen_rd_rest r4 Hr4) as Hz4'. pose proof (zlen_nonneg k).
  split_and!.
  - unfold enter_frame, mbind at 1, C_bind at 1. rewrite read_u32_branches by done.
    destruct (Z.ltb_spec (zlen (rd_rest (reader_over (ws_data s' ++ k)))) 4); [lia|]. cbn [is_ok].
    unfold bebop_reader_push_limit. cbn [is_null orb]. rewrite rd_avail_bind by done. rewrite Hp.
    fold r4. destruct (Z.ltb_spec (zlen (rd_rest r4)) (zlen (fields_enc fs))); [lia|done].
  - apply (fields_read_back fs _ []); [|done|].
    + destruct Hr4. constructor; cbn [set_end rd_mem rd_start rd_current rd_end] in *; auto; lia.
    + rewrite app_nil_r. unfold rd_rest in E4 |- *. cbn [set_end rd_mem rd_current rd_end].
      replace (rd_current r4 + zlen (fields_enc fs) - rd_current r4) with (zlen (fields_enc fs)) by lia.
      assert (Ht : take (Z.to_nat (zlen (fields_enc fs))) (rd_rest r4) = fields_enc fs)
        by (unfold rd_rest; rewrite E4; unfold zlen; rewrite Nat2Z.id; apply take_app_length).
      rewrite <- Ht at 2. unfold rd_rest. rewrite take_take. f_equal. lia.
  - unfold bebop_reader_remaining, gets. cbn. by rewrite Z.sub_diag.
  - unfold bebop_reader_pop_limit, modify. cbn [is_null rd_adv set_current set_end rd_end].
    destruct (Z.leb_spec (rd_current r4 + zlen (fields_enc fs)) (zlen (ws_data s' ++ k))) as [_|Hgt].
    + subst r4. unfold rd_adv, set_current, set_end, reader_over; cbn. do 3 f_equal. rewrite Hd. zlia.
    + subst r4. cbn in Hgt, Hz4'. lia.
Qed.
End Properties.

(** ** Witnesses *)

#[local] Existing Instance bump_allocator.
#[local] Existing Instance default_platform.

(** An empty writer in a default context. *)
Definition demo_ws : WriterState :=
  match bebop_context_writer PTR 64 (demo_h, demo_cx) with
  | Some (Some w, (h, cx)) => mkWS h cx w
  | _ => mkWS demo_h demo_cx (mkWriter 0 [] 0)
  end.

Lemma demo_ws_ok : writer_ok ∅ demo_ws ∧ ws_data demo_ws = [].
Proof.
  destruct (context_writer_spec ∅ demo_h demo_cx 64 demo_context_ok) as (r&h&cx&E&_&Hr);
    [lia|vm_compute; split; congruence|].
  assert (Es : bebop_context_writer PTR 64 (demo_h, demo_cx) = Some (Some (ws_writer demo_ws), (ws_heap demo_ws, ws_context demo_ws)))
    by (vm_compute; reflexivity).
  rewrite Es in E. simplify_eq. destruct Hr as (Hr&Hd&_). by destruct demo_ws.
Qed.

(** The bytes of the string "hi". *)
Definition demo_string : Bebop_View := mkView [104; 105] (Some 0) 2.

Lemma demo_string_ok : view_ok demo_string ∧ view_length demo_string < UINT32_MAX.
Proof.
  split; [|done]. exists 0. unfold zlen. cbn. split_and!; try lia; try done.
  repeat constructor; unfold byte_ok; lia.
Qed.

Definition demo_fields : list field :=
  [Field _ _ wire_u32 3735928559; Field _ _ wire_string demo_string; Field _ _ wire_i16 (-2);
   Field _ _ wire_bool true].

Lemma demo_fields_ok : Forall field_valid demo_fields.
Proof.
  repeat constructor; cbn; try (unfold uint_ok, int_ok; lia); apply demo_string_ok.
Qed.

Definition demo_values : list value := [VU32 3735928559; VString [104; 105]; VI16 (-2); VBool true; VBytes [7]].

Lemma fields_roundtrip_witness :
  ∃ s', write_values demo_values demo_ws = Some (BEBOP_RESULT_OK, s') ∧
    ws_data s' = [239; 190; 173; 222; 2; 0; 0; 0; 104; 105; 0; 254; 255; 1; 1; 0; 0; 0; 7] ∧
    ∃ view r r', bebop_writer_view PTR s' = Some (view, s') ∧
      bebop_reader_init PTR NULL view (mkReader [] 0 0 0 NULL) = Some (BEBOP_RESULT_OK, r) ∧
      read_values [KU32; KString; KI16; KBool; KBytes] r = Some ((BEBOP_RESULT_OK, Some demo_values), r') ∧
      bebop_reader_remaining PTR r' = Some (0, r').
Proof.
  destruct (fields_roundtrip ∅ demo_ws demo_values (proj1 demo_ws_ok) (proj2 demo_ws_ok)) as (result&s'&E&_&_&Hr).
  { repeat constructor; cbn; unfold byte_ok, UINT32_MAX, zlen; cbn; lia. }
  exists s'. assert (Hc : result = BEBOP_RESULT_OK) by (vm_compute in E; by injection E).
  subst result. destruct (Hr eq_refl) as (Hd&Hv). split_and!; [exact E|exact Hd|exact Hv].
Defined.

Lemma frame_roundtrip_witness :
  ∃ s' r1 r2, write_frame demo_fields demo_ws = Some (BEBOP_RESULT_OK, s') ∧
    enter_frame (reader_over (ws_data s' ++ [7])) = Some ((BEBOP_RESULT_OK, Some 19), r1) ∧
    reads_back demo_fields r1 r2 ∧
    bebop_reader_pop_limit PTR (Some 19) r2 = Some (tt, rd_adv 18 (reader_over (ws_data s' ++ [7]))).
Proof.
  destruct (frame_roundtrip ∅ demo_ws demo_fields [7] (proj1 demo_ws_ok) (proj2 demo_ws_ok) demo_fields_ok)
    as (result&s'&E&_&Hr).
  - vm_compute. congruence.
  - repeat constructor; cbn; lia.
  - unfold zlen. cbn. lia.
  - exists s'. assert (Hc : result = BEBOP_RESULT_OK ∧ zlen (ws_data s') = 18).
    { vm_compute in E. injection E as <- <-. split; reflexivity. }
    destruct Hc as [-> Hd]. destruct (Hr eq_refl) as (r1&r2&H1&H2&_&H3).
    rewrite zlen_app, Hd in *. exists r1, r2. split_and!; [exact E|exact H1|exact H2|exact H3].
Defined.

(** Two 16-bit numbers as an array with and without a count. *)
Lemma counted_arrays_witness :
  ∃ r s', bebop_writer_write_u16_array PTR (Some [1; 515]) 2 demo_ws = Some (r, s') ∧
    wr_post ∅ demo_ws [2; 0; 0; 0; 1; 0; 3; 2] r s'.
Proof.
  destruct (counted_arrays_correct) as (_&_&H&_).
  apply (H ∅ demo_ws [1; 515] 2 (proj1 demo_ws_ok)); unfold UINT32_MAX, zlen; cbn; try lia.
  repeat constructor; unfold uint_ok; cbn; lia.
Defined.

Lemma fixed_arrays_witness :
  ∃ r s', bebop_writer_write_fixed_u16_array PTR (Some [1; 515]) 2 demo_ws = Some (r, s') ∧
    wr_post ∅ demo_ws [1; 0; 3; 2] r s'.
Proof.
  destruct (fixed_arrays_correct) as (_&_&H&_).
  apply (H ∅ demo_ws [1; 515] 2 (proj1 demo_ws_ok)); unfold zlen; cbn; try lia.
  repeat constructor; unfold uint_ok; cbn; lia.
Defined.

Lemma scalar_writers_witness :
  ∃ r s', bebop_writer_write_i16 PTR (-2) demo_ws = Some (r, s') ∧
    wr_post ∅ demo_ws [254; 255] r s' ∧ (is_ok r = false → ws_data s' = ws_data demo_ws).
Proof.
  destruct (scalar_writers_correct) as (_&_&_&_&_&H&_).
  apply (H ∅ demo_ws (-2) (proj1 demo_ws_ok)). vm_compute. split; congruence.
Defined.
