(* ===== verification/Any.v ===== *)
(** Dynamic values ([bebop/src/bebop_wire.c], the region on [Bebop_Any]): a record packed
    with the name of its type.  The functions that measure, encode and decode a record are
    those of generated code; they are fields of the description of its type. *)
From Stdlib Require Import String Ascii.
From S2P Require Import Prelude.
From S2P Require Import WireTypes.
From S2P Require Import Reader.
From S2P Require Import Arena.
From S2P Require Import Writer.
From S2P Require Import RoundTrip.

(** Strings of C are their bytes, without the zero at the end. *)
Definition str_bytes (s : string) : list Z := map (λ c, Z.of_N (N_of_ascii c)) (list_ascii_of_string s).
Definition BEBOP_TYPE_URL_PREFIX : list Z := str_bytes "type.bebop.sh/"%string.

Record Bebop_TypeInfo (R : Type) : Type := mkTypeInfo {
  ti_type_fqn : option (list Z);
  ti_prefix : option (list Z);
  ti_size_fn : option (R → Z);
  ti_encode_fn : option (R → C WriterState Bebop_Result);
  ti_decode_fn : option (R → C ((Heap * Bebop_Context) * Bebop_Reader) (Bebop_Result * R))
}.
Arguments mkTypeInfo {_} _ _ _ _ _.
Arguments ti_type_fqn {_} _.
Arguments ti_prefix {_} _.
Arguments ti_size_fn {_} _.
Arguments ti_encode_fn {_} _.
Arguments ti_decode_fn {_} _.

(** [bebop_any_layout] *)
Record Bebop_Any : Type := mkAny { any_type_url : Bebop_View; any_value : Bebop_View }.

(** The place behind the last slash. *)
Fixpoint last_slash (data : list Z) (i : Z) (n : nat) (found : option Z) : option (option Z) :=
  match n with
  | O => Some found
  | S n => b ← load data i; last_slash data (i + 1) n (if b =? 47 then Some i else found)
  end.
(** The pointer into the URL, as an offset; the outer option is a load outside of it. *)
Definition bebop_any_type_name (any : option Bebop_Any) : option (option Z) :=
  match any with
  | None => Some None
  | Some a =>
      match view_data (any_type_url a) with
      | None => Some None
      | Some d =>
          if view_length (any_type_url a) =? 0 then Some None
          else
            slash ← last_slash (view_mem (any_type_url a)) d (Z.to_nat (view_length (any_type_url a))) None;
            Some (option_map (Z.add 1) slash)
      end
  end.
Definition bebop_any_is (any : option Bebop_Any) (type_fqn : option (list Z)) : option bool :=
  match any, type_fqn with
  | Some a, Some fqn =>
      name ← bebop_any_type_name any;
      match name, view_data (any_type_url a) with
      | Some name, Some d =>
          let url_end := d + view_length (any_type_url a) in
          let name_len := u64 (url_end - name) in
          if negb (name_len =? zlen fqn) then Some false
          else bytes ← load_bytes (view_mem (any_type_url a)) name (zlen fqn); Some (bool_decide (bytes = fqn))
      | _, _ => Some false
      end
  | _, _ => Some false
  end.

Section Any.
Context `{HostAllocator} {R : Type}.

(** An operation on a writer of its own. *)
Definition on_writer {A} (w : Bebop_Writer) (c : C WriterState A) : C (Heap * Bebop_Context) (A * Bebop_Writer) :=
  λ '(h, cx), match c (mkWS h cx w) with Some (a, s) => Some ((a, ws_writer s), (ws_heap s, ws_context s)) | None => None end.

Definition on_reader {A} (rd : Bebop_Reader) (c : C ((Heap * Bebop_Context) * Bebop_Reader) A) : C (Heap * Bebop_Context) (A * Bebop_Reader) :=
  λ s, match c (s, rd) with Some (a, (s, rd)) => Some ((a, rd), s) | None => None end.

(** The value comes back as it is left. *)
Definition bebop_any_pack (context : ptr) (any : option Bebop_Any) (record : option R) (type_info : option (Bebop_TypeInfo R))
  : C (Heap * Bebop_Context) (Bebop_Result * option Bebop_Any) :=
  match is_null context, any, record, type_info with
  | false, Some a, Some record, Some ti =>
      match ti_type_fqn ti, ti_size_fn ti, ti_encode_fn ti with
      | Some fqn, Some size_fn, Some encode_fn =>
          let prefix := default BEBOP_TYPE_URL_PREFIX (ti_prefix ti) in
          let url_len := u64 (zlen prefix + zlen fqn) in
          url_buf ← bebop_context_alloc context (u64 (url_len + 1));
          match url_buf with
          | None => mret (BEBOP_RESULT_OOM, any)
          | Some _ =>
              let any := mkAny (mkView (prefix ++ fqn ++ [0]) (Some 0) url_len) (any_value a) in
              w ← bebop_context_writer context (size_fn record);
              match w with
              | None => mret (BEBOP_RESULT_OOM, Some any)
              | Some w =>
                  '(r, w) ← on_writer w (encode_fn record);
                  if is_ok r then
                    mret (BEBOP_RESULT_OK, Some (mkAny (any_type_url any) (mkView (wr_data w) (Some 0) (u64 (zlen (wr_data w))))))
                  else mret (r, Some any)
              end
          end
      | _, _, _ => mret (BEBOP_RESULT_NULL, any)
      end
  | _, _, _, _ => mret (BEBOP_RESULT_NULL, any)
  end.

(** The record comes back as it is left. *)
Definition bebop_any_unpack (context : ptr) (any : option Bebop_Any) (record : option R) (type_info : option (Bebop_TypeInfo R))
  : C (Heap * Bebop_Context) (Bebop_Result * option R) :=
  match is_null context, any, record, type_info with
  | false, Some a, Some record, Some ti =>
      match ti_decode_fn ti with
      | None => mret (BEBOP_RESULT_NULL, Some record)
      | Some decode_fn =>
          match view_data (any_value a) with
          | None => mret (BEBOP_RESULT_NULL, Some record)
          | Some _ =>
              rd ← bebop_context_reader context (any_value a);
              match rd with
              | None => mret (BEBOP_RESULT_OOM, Some record)
              | Some rd => '(r, record, _) ← on_reader rd (decode_fn record); mret (r, Some record)
              end
          end
      end
  | _, _, _, _ => mret (BEBOP_RESULT_NULL, record)
  end.
End Any.

(** ** The name of a type *)

Lemma last_slash_app pre x y i found : zlen pre = i → ∀ post, (last_slash (pre ++ x ++ 47 :: y ++ post) i (length (x ++ 47 :: y)) found = Some (Some (i + zlen x)) ∨ 47 ∈ y).
Proof.
  intros Hi post. destruct (decide (47 ∈ y)) as [|Hno]; [by right|]. left. revert pre i Hi found.
  assert (Hrest : ∀ y pre i found, 47 ∉ y → zlen pre = i → last_slash (pre ++ y ++ post) i (length y) found = Some found).
  { induction y0 as [|c y0 IH]; intros pre i found Hy Hi; cbn [app length last_slash]; [done|]. apply not_elem_of_cons in Hy as (Hc&Hy).
    rewrite <- Hi, load_app. cbn. destruct (Z.eqb_spec c 47); [congruence|].
    rewrite (cons_middle c pre (y0 ++ post)), app_assoc. apply IH; [done|]. rewrite zlen_app, zlen_cons, zlen_nil. lia. }
  induction x as [|c x IH]; intros pre i Hi found; cbn [app length last_slash].
  - rewrite <- Hi, load_app. cbn. rewrite zlen_nil, Z.add_0_r.
    rewrite (cons_middle 47 pre (y ++ post)), app_assoc. apply Hrest; [done|]. rewrite zlen_app, zlen_cons, zlen_nil. lia.
  - rewrite <- Hi, load_app. cbn.
    rewrite (cons_middle c pre (x ++ 47 :: y ++ post)), app_assoc. rewrite IH; [by rewrite zlen_cons; do 2 f_equal; lia|]. rewrite zlen_app, zlen_cons, zlen_nil. lia.
Qed.

Lemma type_name_exact p fqn v :
  47 ∉ fqn → let url := p ++ 47 :: fqn in zlen url < 2 ^ 63 →
  bebop_any_type_name (Some (mkAny (mkView (url ++ [0]) (Some 0) (zlen url)) v)) = Some (Some (zlen p + 1)).
Proof.
  intros Hf url Hl. unfold bebop_any_type_name. cbn [any_type_url view_data view_length view_mem].
  assert (Hpos : 0 < zlen url) by (unfold url; rewrite zlen_app, zlen_cons; zlen_pos; lia). destruct (Z.eqb_spec (zlen url) 0); [lia|].
  destruct (last_slash_app [] p fqn 0 None eq_refl [0]) as [E|]; [|done]. cbn [app] in E.
  assert (Eu : url ++ [0] = p ++ 47 :: fqn ++ [0]) by (unfold url; by rewrite <- app_assoc). rewrite Eu. unfold zlen at 1. rewrite Nat2Z.id. unfold url. rewrite E. cbn. do 2 f_equal. lia.
Qed.
Lemma any_is_exact p fqn v f :
  47 ∉ fqn → let url := p ++ 47 :: fqn in zlen url < 2 ^ 63 → zlen f < 2 ^ 63 →
  bebop_any_is (Some (mkAny (mkView (url ++ [0]) (Some 0) (zlen url)) v)) (Some f) = Some (bool_decide (fqn = f)).
Proof.
  intros Hf url Hl Hlf. unfold bebop_any_is. unfold url in *. rewrite (type_name_exact p fqn v Hf Hl). cbn [mbind option_bind any_type_url view_data view_length view_mem].
  assert (En : 0 + zlen (p ++ 47 :: fqn) - (zlen p + 1) = zlen fqn) by (rewrite zlen_app, zlen_cons; lia). rewrite En.
  assert (Hs : zlen fqn < 2 ^ 63) by (rewrite zlen_app, zlen_cons in Hl; pose proof (zlen_nonneg p); lia). pose proof (zlen_nonneg fqn). rewrite u64_small by lia.
  destruct (Z.eqb_spec (zlen fqn) (zlen f)) as [E|Hne]; cbn [negb].
  - assert (Eb : load_bytes ((p ++ 47 :: fqn) ++ [0]) (zlen p + 1) (zlen f) = Some fqn).
    { rewrite <- E. replace ((p ++ 47 :: fqn) ++ [0]) with ((p ++ [47]) ++ fqn ++ [0]) by (by rewrite <- !app_assoc). replace (zlen p + 1) with (zlen (p ++ [47])) by (by rewrite zlen_app).
      apply load_bytes_app. }
    by rewrite Eb.
  - rewrite bool_decide_false; [done|]. intros ->. done.
Qed.

Section Props.
Context `{HostAllocatorOk} {R : Type}.

(** A name that is a string of C and can be the end of a URL. *)
Record names_ok (ti : Bebop_TypeInfo R) (p fqn : list Z) : Prop := {
  no_prefix : default BEBOP_TYPE_URL_PREFIX (ti_prefix ti) = p ++ [47];
  no_fqn : ti_type_fqn ti = Some fqn;
  no_slash : 47 ∉ fqn;
  no_size : zlen p + zlen fqn < 2 ^ 60
}.
(** A record is encoded as [enc], and [enc] is decoded to it. *)
Definition encodes (L : gmap Z Z) (ti : Bebop_TypeInfo R) (record : R) (enc : list Z) : Prop :=
  (∃ size_fn, ti_size_fn ti = Some size_fn ∧ 0 ≤ size_fn record ≤ 2 ^ 61) ∧
  ∃ encode_fn, ti_encode_fn ti = Some encode_fn ∧
    ∀ s, writer_ok L s → ws_data s = [] → ∃ r s', encode_fn record s = Some (r, s') ∧ writer_ok L s' ∧ (r = BEBOP_RESULT_OK → ws_data s' = enc).
Definition decodes (ti : Bebop_TypeInfo R) (record : R) (enc : list Z) : Prop :=
  ∃ decode_fn, ti_decode_fn ti = Some decode_fn ∧
    ∀ r0 s, ∃ s' rd', decode_fn r0 (s, mkReader enc 0 0 (zlen enc) PTR) = Some ((BEBOP_RESULT_OK, record), (s', rd')).

Lemma any_pack_spec L h cx any record ti p fqn enc :
  context_ok L (hp_live h) cx → 0 ≤ initial_writer_size (cx_options cx) ≤ 2 ^ 61 → names_ok ti p fqn → encodes L ti record enc →
  ∃ r any' h' cx', bebop_any_pack PTR (Some any) (Some record) (Some ti) (h, cx) = Some ((r, Some any'), (h', cx')) ∧ context_ok L (hp_live h') cx' ∧
    (r = BEBOP_RESULT_OK → let url := p ++ 47 :: fqn in any' = mkAny (mkView (url ++ [0]) (Some 0) (zlen url)) (mkView enc (Some 0) (zlen enc)) ∧ zlen enc < 2 ^ 61).
Proof.
  intros Hc Hini [Hp Hf Hslash Hsize] ((size_fn&Es&Hs)&encode_fn&Ee&Henc). unfold bebop_any_pack. cbn [is_null]. rewrite Hf, Es, Ee, Hp.
  assert (Hz : zlen (p ++ [47]) + zlen fqn = zlen (p ++ 47 :: fqn)) by (rewrite !zlen_app, !zlen_cons, zlen_nil; lia). rewrite Hz.
  assert (Hzb : 0 ≤ zlen (p ++ 47 :: fqn) < 2 ^ 61) by (rewrite zlen_app, zlen_cons; zlen_pos; lia). rewrite (u64_small (zlen _)) by lia. rewrite u64_small by lia.
  destruct (context_alloc_spec L h cx (zlen (p ++ 47 :: fqn) + 1) Hc ltac:(lia)) as (url_buf&h1&ar1&E1&Hc1&_). rewrite (C_bind_Some _ _ _ _ _ E1).
  destruct url_buf as [url_buf|]; [|by eexists _, any, h1, _; split_and!].
  destruct (context_writer_spec L h1 (Arena.set_arena ar1 cx) (size_fn record) Hc1 Hs Hini) as (w&h2&cx2&E2&Hc2&Hw). rewrite (C_bind_Some _ _ _ _ _ E2).
  destruct w as [w|]; [|by eexists _, _, h2, cx2; split_and!]. destruct Hw as (Hw&Hnil&_).
  destruct (Henc (mkWS h2 cx2 w) Hw Hnil) as (r&s'&E3&Hw'&Hr).
  assert (E3' : on_writer w (encode_fn record) (h2, cx2) = Some ((r, ws_writer s'), (ws_heap s', ws_context s'))) by (unfold on_writer; by rewrite E3). rewrite (C_bind_Some _ _ _ _ _ E3').
  destruct (is_ok r) eqn:Er.
  - assert (r = BEBOP_RESULT_OK) as -> by (by destruct r). specialize (Hr eq_refl). eexists _, _, _, _. split; [reflexivity|]. split; [apply Hw'|]. intros _.
    pose proof (wo_data _ _ Hw') as H1. pose proof (wo_capacity _ _ Hw') as H2. rewrite Hr in H1. pose proof (zlen_nonneg enc). unfold ws_data in Hr. cbn [any_type_url]. rewrite Hr, u64_small by lia.
    split; [|lia]. f_equal. f_equal. by rewrite <- !app_assoc.
  - eexists r, _, _, _. split; [reflexivity|]. split; [apply Hw'|]. intros ->. done.
Qed.

Lemma any_unpack_spec L h cx url enc r0 record ti :
  context_ok L (hp_live h) cx → decodes ti record enc →
  ∃ r rec s', bebop_any_unpack PTR (Some (mkAny url (mkView enc (Some 0) (zlen enc)))) (Some r0) (Some ti) (h, cx) = Some ((r, Some rec), s') ∧
    (r = BEBOP_RESULT_OK ∧ rec = record ∨ r = BEBOP_RESULT_OOM ∧ rec = r0).
Proof.
  intros Hc (decode_fn&Ed&Hdec). unfold bebop_any_unpack. cbn [is_null]. rewrite Ed. cbn [any_value view_data]. unfold bebop_context_reader. cbn [is_null view_data].
  destruct (on_arena_alloc L h cx sizeof_reader Hc ltac:(done)) as (r&h1&cx1&E1&_). 
  destruct r as [a|].
  - assert (Er : (reader ← on_arena (bebop_wire_arena_alloc sizeof_reader);
        match reader with None => mret None | Some _ => match bebop_reader_init PTR PTR (mkView enc (Some 0) (zlen enc)) (mkReader [] 0 0 0 NULL) with
          Some (result, rd) => mret (if is_ok result then Some rd else None) | None => ub end end) (h, cx) = Some (Some (mkReader enc 0 0 (zlen enc) PTR), (h1, cx1))).
    { rewrite (C_bind_Some _ _ _ _ _ E1). reflexivity. }
    rewrite (C_bind_Some _ _ _ _ _ Er). destruct (Hdec r0 (h1, cx1)) as (s'&rd'&E3).
    assert (E4 : on_reader (mkReader enc 0 0 (zlen enc) PTR) (decode_fn r0) (h1, cx1) = Some ((BEBOP_RESULT_OK, record, rd'), s')) by (unfold on_reader; by rewrite E3).
    rewrite (C_bind_Some _ _ _ _ _ E4). eexists _, _, s'. split; [reflexivity|]. by left.
  - assert (Er : (reader ← on_arena (bebop_wire_arena_alloc sizeof_reader);
        match reader with None => mret None | Some _ => match bebop_reader_init PTR PTR (mkView enc (Some 0) (zlen enc)) (mkReader [] 0 0 0 NULL) with
          Some (result, rd) => mret (if is_ok result then Some rd else None) | None => ub end end) (h, cx) = Some (None, (h1, cx1))).
    { rewrite (C_bind_Some _ _ _ _ _ E1). reflexivity. }
    rewrite (C_bind_Some _ _ _ _ _ Er). eexists _, _, _. split; [reflexivity|]. by right.
Qed.
End Props.


Module AnyExamples.
#[local] Existing Instance bump_allocator.
#[local] Existing Instance default_platform.
(** A record of one number. *)
Definition number_info : Bebop_TypeInfo Z := mkTypeInfo (Some (str_bytes "app.Count"%string)) None (Some (λ _, 4))
  (Some (bebop_writer_write_u32 PTR))
  (Some (λ r0 '(s, rd), match bebop_reader_read_u32 PTR PTR rd with Some ((r, v), rd) => Some ((r, default r0 v), (s, rd)) | None => None end)).
End AnyExamples.
