(* ===== verification/MessageIndex.v ===== *)
(** The indexed messages of [bebop/src/bebop_wire.c]: parsing the index at the
    end of a message body ([bebop_message_index_parse], [_begin]), looking
    fields up in it, and iterating over them.  A pointer into the message is an
    offset into the memory of the encoded view; a load outside of it is
    undefined, [None]. *)
From S2P Require Import Prelude.
From S2P Require Import WireTypes.
From S2P Require Import Bits.
From S2P Require Import Reader.

(** ** Data *)

Definition BEBOP_MESSAGE_DIRECTORY_EMPTY : Z := 0.
Definition BEBOP_MESSAGE_DIRECTORY_TINY1 : Z := 1.
Definition BEBOP_MESSAGE_DIRECTORY_TINY2 : Z := 2.
Definition BEBOP_MESSAGE_DIRECTORY_TINY3 : Z := 3.
Definition BEBOP_MESSAGE_DIRECTORY_MASK8 : Z := 4.
Definition BEBOP_MESSAGE_DIRECTORY_MASK16 : Z := 5.
Definition BEBOP_MESSAGE_DIRECTORY_MASK32 : Z := 6.
Definition BEBOP_MESSAGE_DIRECTORY_BLOCKS : Z := 7.

Record Bebop_MessageIndex : Type := mkIndex {
  mi_encoded : Bebop_View;
  mi_boundaries : Z;
  mi_directory : Z;
  mi_field_count : Z;
  mi_offset_width : Z;
  mi_directory_kind : Z
}.

(** [encoded.data], which a parsed index never has as NULL. *)
Definition mi_data (index : Bebop_MessageIndex) : Z := default 0 (view_data (mi_encoded index)).
Definition mi_mem (index : Bebop_MessageIndex) : list Z := view_mem (mi_encoded index).

Definition is_tiny (kind : Z) : bool :=
  (BEBOP_MESSAGE_DIRECTORY_TINY1 <=? kind) && (kind <=? BEBOP_MESSAGE_DIRECTORY_TINY3).
Definition is_mask (kind : Z) : bool :=
  (BEBOP_MESSAGE_DIRECTORY_MASK8 <=? kind) && (kind <=? BEBOP_MESSAGE_DIRECTORY_MASK32).

(** ** Parsing *)

(** Outcome of a step that may reject the message. *)
Inductive step (A : Type) : Type := Go (a : A) | Reject.
Arguments Go {A} _.
Arguments Reject {A}.

(** What a parser returns: the result and the index stored in [out]. *)
Abbreviation PARSED := (option (Bebop_Result * option Bebop_MessageIndex)).
Definition malformed : PARSED := Some (BEBOP_RESULT_MALFORMED, None).

(** The byte the loads [end[-1]] and [end[-2]] read. *)
Definition load_back (mem : list Z) (e n : Z) : option Z := load mem (e - n).

(** The [switch (kind)] of [bebop_message_index_parse]: the directory size and the
    field count known so far. *)
Definition parse_directory_size (mem : list Z) (e body_length kind : Z) : option (step (Z * Z)) :=
  if kind =? BEBOP_MESSAGE_DIRECTORY_EMPTY then Some (Go (0, 0))
  else if is_tiny kind then Some (Go (kind, kind))
  else if kind =? BEBOP_MESSAGE_DIRECTORY_MASK8 then Some (Go (1, 0))
  else if kind =? BEBOP_MESSAGE_DIRECTORY_MASK16 then Some (Go (2, 0))
  else if kind =? BEBOP_MESSAGE_DIRECTORY_MASK32 then Some (Go (4, 0))
  else if kind =? BEBOP_MESSAGE_DIRECTORY_BLOCKS then
    if body_length <? 2 then Some Reject
    else
      top ← load_back mem e 2;
      Some (Go (1 + 5 * bebop_wire_popcount32 top, 0))
  else Some Reject.

(** The loop over the eight blocks, from [block] on; returns the rank at the end. *)
Fixpoint parse_blocks (n : nat) (mem : list Z) (block_mask block entry rank : Z) : option (step Z) :=
  match n with
  | O => Some (Go rank)
  | S n =>
      if Z.land block_mask (u8 (Z.shiftl 1 block)) =? 0
      then parse_blocks n mem block_mask (block + 1) entry rank
      else
        r ← load mem entry;
        if negb (r =? rank) then Some Reject
        else
          mask ← bebop_wire_load_le mem (entry + 1) 4;
          if (mask =? 0) || ((block =? 7) && negb (Z.land mask 0x80000000 =? 0)) then Some Reject
          else parse_blocks n mem block_mask (block + 1) (entry + 5) (u16 (rank + bebop_wire_popcount32 mask))
  end.

(** The field count of the directory, where the kind does not give it. *)
Definition parse_field_count (mem : list Z) (directory directory_size field_count kind : Z) : option (step Z) :=
  if is_mask kind then
    mask ← bebop_wire_load_le mem directory (u8 directory_size);
    Some (Go (u16 (bebop_wire_popcount32 mask)))
  else if kind =? BEBOP_MESSAGE_DIRECTORY_BLOCKS then
    block_mask ← load mem (directory + (directory_size - 1));
    if block_mask =? 0 then Some Reject
    else parse_blocks 8 mem block_mask 0 directory 0
  else Some (Go field_count).

(** [directory[i] <= directory[i - 1]] for [i] up to the field count. *)
Fixpoint tiny_sorted (n : nat) (mem : list Z) (directory i : Z) : option bool :=
  match n with
  | O => Some true
  | S n =>
      a ← load mem (directory + i);
      b ← load mem (directory + (i - 1));
      if a <=? b then Some false else tiny_sorted n mem directory (i + 1)
  end.

Definition tiny_valid (mem : list Z) (directory field_count : Z) : option bool :=
  first ← load mem directory;
  if first =? 0 then Some false
  else tiny_sorted (Z.to_nat (field_count - 1)) mem directory 1.

(** The loop over the boundaries. *)
Fixpoint boundaries_valid (n : nat) (mem : list Z) (boundaries width payload_size i previous : Z) : option bool :=
  match n with
  | O => Some true
  | S n =>
      boundary ← bebop_wire_load_le mem (boundaries + i * width) width;
      if (boundary <? previous) || (payload_size <? boundary) then Some false
      else boundaries_valid n mem boundaries width payload_size (i + 1) boundary
  end.

Definition bebop_message_index_parse (out : ptr) (encoded : Bebop_View) : PARSED :=
  match view_data encoded with
  | None => Some (BEBOP_RESULT_NULL, None)
  | Some data =>
    let mem := view_mem encoded in
    if is_null out then Some (BEBOP_RESULT_NULL, None)
    else if view_length encoded <? BEBOP_WIRE_SIZE_LEN + 1 then malformed
    else
    body_length ← bebop_wire_load_le mem data 4;
    if negb (body_length =? view_length encoded - BEBOP_WIRE_SIZE_LEN) || (body_length =? 0) then malformed
    else
    let body := data + BEBOP_WIRE_SIZE_LEN in
    let e := data + view_length encoded in
    control ← load_back mem e 1;
    let width_code := Z.land control 3 in
    let kind := Z.land (Z.shiftr control 2) 7 in
    if negb (Z.land control 0xe0 =? 0) || (width_code =? 3) then malformed
    else
    let width := u8 (Z.shiftl 1 width_code) in
    sized ← parse_directory_size mem e body_length kind;
    match sized with
    | Reject => malformed
    | Go (directory_size, field_count) =>
    if body_length <? directory_size + 1 then malformed
    else
    let directory := e - 1 - directory_size in
    counted ← parse_field_count mem directory directory_size field_count kind;
    match counted with
    | Reject => malformed
    | Go field_count =>
    if (field_count =? 0) && negb (kind =? BEBOP_MESSAGE_DIRECTORY_EMPTY) then malformed
    else if negb (field_count =? 0) && (kind =? BEBOP_MESSAGE_DIRECTORY_EMPTY) then malformed
    else
    tiny_ok ← (if is_tiny kind then tiny_valid mem directory field_count else Some true);
    if negb tiny_ok then malformed
    else
    let boundary_count := if field_count =? 0 then 0 else field_count - 1 in
    if (SIZE_MAX - directory_size - 1) / width <? boundary_count then malformed
    else
    let boundary_size := boundary_count * width in
    if body_length <? boundary_size + directory_size + 1 then malformed
    else
    let boundaries := directory - boundary_size in
    let payload_size := boundaries - body in
    bounds_ok ← boundaries_valid (Z.to_nat boundary_count) mem boundaries width payload_size 0 0;
    if negb bounds_ok then malformed
    else if (field_count =? 0) && negb (payload_size =? 0) then malformed
    else
    Some (BEBOP_RESULT_OK, Some (mkIndex encoded boundaries directory (u8 field_count) width kind))
    end
    end
  end.

Definition bebop_message_index_init (out : ptr) (encoded : Bebop_View) : PARSED :=
  bebop_message_index_parse out encoded.

(** [index] is NULL when it is [None]. *)
Definition bebop_message_index_validate (index : option Bebop_MessageIndex) : option Bebop_Result :=
  match index with
  | None => Some BEBOP_RESULT_NULL
  | Some index => '(result, _) ← bebop_message_index_parse PTR (mi_encoded index); Some result
  end.

(** The [switch (kind)] of [bebop_message_index_begin], which rejects an empty top
    mask at once. *)
Definition begin_directory_size (mem : list Z) (e body_length kind : Z) : option (step (Z * Z)) :=
  if kind =? BEBOP_MESSAGE_DIRECTORY_EMPTY then Some (Go (0, 0))
  else if is_tiny kind then Some (Go (kind, kind))
  else if kind =? BEBOP_MESSAGE_DIRECTORY_MASK8 then Some (Go (1, 0))
  else if kind =? BEBOP_MESSAGE_DIRECTORY_MASK16 then Some (Go (2, 0))
  else if kind =? BEBOP_MESSAGE_DIRECTORY_MASK32 then Some (Go (4, 0))
  else if kind =? BEBOP_MESSAGE_DIRECTORY_BLOCKS then
    if body_length <? 2 then Some Reject
    else
      top ← load_back mem e 2;
      if top =? 0 then Some Reject
      else Some (Go (1 + 5 * bebop_wire_popcount32 top, 0))
  else Some Reject.

(** The block loop of [bebop_message_index_begin]. *)
Fixpoint begin_blocks (n : nat) (mem : list Z) (block_mask block entry rank : Z) : option (step Z) :=
  match n with
  | O => Some (Go rank)
  | S n =>
      if Z.land block_mask (u8 (Z.shiftl 1 block)) =? 0
      then begin_blocks n mem block_mask (block + 1) entry rank
      else
        mask ← bebop_wire_load_le mem (entry + 1) 4;
        r ← load mem entry;
        if negb (r =? rank) || (mask =? 0) || ((block =? 7) && negb (Z.land mask 0x80000000 =? 0))
        then Some Reject
        else begin_blocks n mem block_mask (block + 1) (entry + 5) (u16 (rank + bebop_wire_popcount32 mask))
  end.

Definition begin_field_count (mem : list Z) (directory directory_size field_count kind : Z) : option (step Z) :=
  if is_mask kind then
    mask ← bebop_wire_load_le mem directory (u8 directory_size);
    Some (Go (u16 (bebop_wire_popcount32 mask)))
  else if kind =? BEBOP_MESSAGE_DIRECTORY_BLOCKS then
    block_mask ← load mem (directory + (directory_size - 1));
    begin_blocks 8 mem block_mask 0 directory 0
  else Some (Go field_count).

(** The index without the validation of the boundaries. *)
Definition bebop_message_index_begin (out : ptr) (encoded : Bebop_View) : PARSED :=
  match view_data encoded with
  | None => Some (BEBOP_RESULT_NULL, None)
  | Some data =>
    let mem := view_mem encoded in
    if is_null out then Some (BEBOP_RESULT_NULL, None)
    else if view_length encoded <? BEBOP_WIRE_SIZE_LEN + 1 then malformed
    else
    body_length ← bebop_wire_load_le mem data 4;
    if negb (body_length =? view_length encoded - BEBOP_WIRE_SIZE_LEN) || (body_length =? 0) then malformed
    else
    let e := data + view_length encoded in
    control ← load_back mem e 1;
    let width_code := Z.land control 3 in
    let kind := Z.land (Z.shiftr control 2) 7 in
    if negb (Z.land control 0xe0 =? 0) || (width_code =? 3) then malformed
    else
    let width := u8 (Z.shiftl 1 width_code) in
    sized ← begin_directory_size mem e body_length kind;
    match sized with
    | Reject => malformed
    | Go (directory_size, field_count) =>
    if body_length <? directory_size + 1 then malformed
    else
    let directory := e - 1 - directory_size in
    counted ← begin_field_count mem directory directory_size field_count kind;
    match counted with
    | Reject => malformed
    | Go field_count =>
    if (field_count =? 0) && negb (kind =? BEBOP_MESSAGE_DIRECTORY_EMPTY) then malformed
    else
    tiny_ok ← (if is_tiny kind then tiny_valid mem directory field_count else Some true);
    if negb tiny_ok then malformed
    else
    let boundary_size := if field_count =? 0 then 0 else (field_count - 1) * width in
    if (if field_count =? 0 then negb (body_length =? 1)
        else body_length <? boundary_size + directory_size + 1) then malformed
    else
    Some (BEBOP_RESULT_OK,
          Some (mkIndex encoded (directory - boundary_size) directory (u8 field_count) width kind))
    end
    end
  end.

(** ** Reading an index *)

(** The common text of [bebop_reader_read_message_index] and
    [bebop_reader_begin_message_index]; [parse] is the parser they call. *)
Section ReadIndex.
Context `{Platform}.

Definition read_index_with (parse : ptr → Bebop_View → PARSED) (reader out : ptr) : RD Bebop_MessageIndex :=
  if is_null reader || is_null out then mret (BEBOP_RESULT_NULL, None)
  else
    start ← gets rd_current;
    '(result, v) ← bebop_reader_read_length reader PTR;
    match is_ok result, v with
    | true, Some body_length =>
        remaining ← bebop_reader_remaining reader;
        if remaining <? body_length then
          modify (set_current start);; mret (BEBOP_RESULT_MALFORMED, None)
        else
          mem ← gets rd_mem;
          let encoded := mkView mem (Some start) (body_length + BEBOP_WIRE_SIZE_LEN) in
          '(result, index) ← lift (parse out encoded);
          if is_ok result then
            modify (set_current (start + view_length encoded));; mret (result, index)
          else mret (result, None)
    | _, _ => modify (set_current start);; mret (result, None)
    end.

Definition bebop_reader_read_message_index : ptr → ptr → RD Bebop_MessageIndex :=
  read_index_with bebop_message_index_parse.
Definition bebop_reader_begin_message_index : ptr → ptr → RD Bebop_MessageIndex :=
  read_index_with bebop_message_index_begin.
End ReadIndex.

(** ** Queries *)

(** A NULL view, as [(Bebop_View) {NULL, 0}]. *)
Definition null_view : Bebop_View := mkView [] None 0.

(** What [field] holds afterwards, if it was stored. *)
Definition bebop_message_field_at_rank (index : Bebop_MessageIndex) (rank : Z)
  : option (Bebop_Result * option Bebop_View) :=
  if mi_field_count index <=? rank then Some (BEBOP_RESULT_INVALID, None)
  else
    let width := mi_offset_width index in
    let body := mi_data index + BEBOP_WIRE_SIZE_LEN in
    start ← (if rank =? 0 then Some 0
             else bebop_wire_load_le (mi_mem index) (mi_boundaries index + (rank - 1) * width) width);
    e ← (if u16 rank + 1 =? mi_field_count index then Some (u32 (mi_boundaries index - body))
         else bebop_wire_load_le (mi_mem index) (mi_boundaries index + rank * width) width);
    if (e <? start) || (mi_boundaries index - body <? e) then Some (BEBOP_RESULT_MALFORMED, None)
    else Some (BEBOP_RESULT_OK, Some (mkView (mi_mem index) (Some (body + start)) (e - start))).

(** [index] is NULL when it is [None]. *)
Definition bebop_message_index_field_at (index : option Bebop_MessageIndex) (rank : Z) (field : ptr)
  : option (Bebop_Result * option Bebop_View) :=
  match index with
  | None => Some (BEBOP_RESULT_NULL, None)
  | Some index => if is_null field then Some (BEBOP_RESULT_NULL, None)
                  else bebop_message_field_at_rank index rank
  end.

(** The linear search in a tiny directory: the rank, or [None] when the tag is absent. *)
Fixpoint tiny_rank (n : nat) (mem : list Z) (directory rank tag : Z) : option (option Z) :=
  match n with
  | O => Some None
  | S n =>
      t ← load mem (directory + rank);
      if t =? tag then Some (Some rank)
      else if tag <? t then Some None
      else tiny_rank n mem directory (rank + 1) tag
  end.

(** The [switch] of [bebop_message_index_field]: the rank of a present tag. *)
Definition field_rank (index : Bebop_MessageIndex) (tag : Z) : option (step (option Z)) :=
  let kind := mi_directory_kind index in
  let mem := mi_mem index in
  if is_tiny kind then
    r ← tiny_rank (Z.to_nat (mi_field_count index)) mem (mi_directory index) 0 tag;
    Some (Go r)
  else if is_mask kind then
    let mask_width := u8 (Z.shiftl 1 (kind - BEBOP_MESSAGE_DIRECTORY_MASK8)) in
    if mask_width * 8 <? tag then Some (Go None)
    else
      mask ← bebop_wire_load_le mem (mi_directory index) mask_width;
      let bit := Z.shiftl 1 (tag - 1) in
      if Z.land mask bit =? 0 then Some (Go None)
      else Some (Go (Some (bebop_wire_popcount32 (Z.land mask (bit - 1)))))
  else if kind =? BEBOP_MESSAGE_DIRECTORY_BLOCKS then
    let block := Z.shiftr (tag - 1) 5 in
    let block_bit := u8 (Z.shiftl 1 block) in
    top_mask ← load mem (mi_data index + view_length (mi_encoded index) - 2);
    if Z.land top_mask block_bit =? 0 then Some (Go None)
    else
      let entry := mi_directory index + 5 * bebop_wire_popcount32 (Z.land top_mask (block_bit - 1)) in
      mask ← bebop_wire_load_le mem (entry + 1) 4;
      let bit := Z.shiftl 1 (Z.land (tag - 1) 31) in
      if Z.land mask bit =? 0 then Some (Go None)
      else
        r ← load mem entry;
        Some (Go (Some (r + bebop_wire_popcount32 (Z.land mask (bit - 1)))))
  else Some Reject.

(** The result, [*field] and [*present]. *)
Definition bebop_message_index_field (index : option Bebop_MessageIndex) (tag : Z) (field present : ptr)
  : option (Bebop_Result * option (Bebop_View * bool)) :=
  match index with
  | None => Some (BEBOP_RESULT_NULL, None)
  | Some index =>
      if is_null field || is_null present then Some (BEBOP_RESULT_NULL, None)
      else if (tag =? 0) || (mi_field_count index =? 0) then Some (BEBOP_RESULT_OK, Some (null_view, false))
      else
        ranked ← field_rank index tag;
        match ranked with
        | Reject => Some (BEBOP_RESULT_MALFORMED, Some (null_view, false))
        | Go None => Some (BEBOP_RESULT_OK, Some (null_view, false))
        | Go (Some rank) =>
            '(result, view) ← bebop_message_field_at_rank index (u8 rank);
            Some (result, Some (default null_view view, is_ok result))
        end
  end.

Fixpoint load_masks (n : nat) (mem : list Z) (top_mask block entry : Z) : option (list Z) :=
  match n with
  | O => Some []
  | S n =>
      if Z.land top_mask (u8 (Z.shiftl 1 block)) =? 0 then
        masks ← load_masks n mem top_mask (block + 1) entry; Some (0 :: masks)
      else
        mask ← bebop_wire_load_le mem (entry + 1) 4;
        masks ← load_masks n mem top_mask (block + 1) (entry + 5);
        Some (mask :: masks)
  end.

Definition bebop_message_index_block_masks (index : option Bebop_MessageIndex) (masks : ptr)
  : option (Bebop_Result * option (list Z)) :=
  match index with
  | None => Some (BEBOP_RESULT_NULL, None)
  | Some index =>
      if is_null masks then Some (BEBOP_RESULT_NULL, None)
      else if negb (mi_directory_kind index =? BEBOP_MESSAGE_DIRECTORY_BLOCKS)
      then Some (BEBOP_RESULT_INVALID, None)
      else
        top_mask ← load (mi_mem index) (mi_data index + view_length (mi_encoded index) - 2);
        masks ← load_masks 8 (mi_mem index) top_mask 0 (mi_directory index);
        Some (BEBOP_RESULT_OK, Some masks)
  end.

(** ** Iteration *)

Record Bebop_MessageFieldIterator : Type := mkIterator {
  it_index : option Bebop_MessageIndex;
  it_block_entry : Z;
  it_pending_tags : Z;
  it_rank : Z;
  it_block : Z;
  it_tag_base : Z
}.

(** The new contents of [*iterator]; a NULL iterator is left alone. *)
Definition bebop_message_field_iterator_init (index : option Bebop_MessageIndex) : option Bebop_MessageFieldIterator :=
  match index with
  | None => Some (mkIterator None 0 0 0 0 0)
  | Some i =>
      if is_mask (mi_directory_kind i) then
        let width := u8 (Z.shiftl 1 (mi_directory_kind i - BEBOP_MESSAGE_DIRECTORY_MASK8)) in
        pending ← bebop_wire_load_le (mi_mem i) (mi_directory i) width;
        Some (mkIterator index (mi_directory i) pending 0 0 0)
      else Some (mkIterator index (mi_directory i) 0 0 0 0)
  end.

(** The inner loop that looks for the next block. *)
Fixpoint next_block (n : nat) (top_mask block : Z) : Z :=
  match n with
  | O => block
  | S n => if (block <? 8) && (Z.land top_mask (u8 (Z.shiftl 1 block)) =? 0)
           then next_block n top_mask (block + 1) else block
  end.

Definition set_pending (z : Z) (it : Bebop_MessageFieldIterator) : Bebop_MessageFieldIterator :=
  mkIterator (it_index it) (it_block_entry it) z (it_rank it) (it_block it) (it_tag_base it).
Definition set_rank (z : Z) (it : Bebop_MessageFieldIterator) : Bebop_MessageFieldIterator :=
  mkIterator (it_index it) (it_block_entry it) (it_pending_tags it) z (it_block it) (it_tag_base it).
Definition set_block (z : Z) (it : Bebop_MessageFieldIterator) : Bebop_MessageFieldIterator :=
  mkIterator (it_index it) (it_block_entry it) (it_pending_tags it) (it_rank it) z (it_tag_base it).

(** The [while (iterator->pending_tags == 0)] loop: [false] when there is no later
    block.  Nine rounds are enough, since each one moves to a later block. *)
Fixpoint refill (n : nat) (i : Bebop_MessageIndex) (it : Bebop_MessageFieldIterator)
  : option (bool * Bebop_MessageFieldIterator) :=
  match n with
  | O => None
  | S n =>
      if it_pending_tags it =? 0 then
        top_mask ← load (mi_mem i) (mi_data i + view_length (mi_encoded i) - 2);
        let block := next_block 8 top_mask (it_block it) in
        if block =? 8 then Some (false, set_block block it)
        else
          mask ← bebop_wire_load_le (mi_mem i) (it_block_entry it + 1) 4;
          refill n i (mkIterator (it_index it) (it_block_entry it + 5) mask (it_rank it)
                                 (u8 (block + 1)) (u8 (block * 32)))
      else Some (true, it)
  end.

(** Takes the lowest pending tag. *)
Definition take_pending (it : Bebop_MessageFieldIterator) (base : Z) : option (Z * Bebop_MessageFieldIterator) :=
  bit ← bebop_wire_ctz32 (it_pending_tags it);
  Some (u8 (base + bit + 1),
        set_pending (Z.land (it_pending_tags it) (u32 (it_pending_tags it - 1))) it).

(** The result, the tag if one was stored (which is when [*present] is true), and
    the iterator. *)
Definition bebop_message_field_iterator_next_tag (it : Bebop_MessageFieldIterator)
  : option (Bebop_Result * option Z * Bebop_MessageFieldIterator) :=
  match it_index it with
  | None => Some (BEBOP_RESULT_NULL, None, it)
  | Some i =>
      if it_rank it =? mi_field_count i then Some (BEBOP_RESULT_OK, None, it)
      else
        let found (tag : Z) (it : Bebop_MessageFieldIterator) :=
          Some (BEBOP_RESULT_OK, Some tag, set_rank (u8 (it_rank it + 1)) it) in
        if is_tiny (mi_directory_kind i) then
          tag ← load (mi_mem i) (mi_directory i + it_rank it);
          found tag it
        else if is_mask (mi_directory_kind i) then
          '(tag, it) ← take_pending it 0;
          found tag it
        else if mi_directory_kind i =? BEBOP_MESSAGE_DIRECTORY_BLOCKS then
          '(filled, it) ← refill 9 i it;
          if (filled : bool) then '(tag, it) ← take_pending it (it_tag_base it); found tag it
          else Some (BEBOP_RESULT_MALFORMED, None, it)
        else Some (BEBOP_RESULT_MALFORMED, None, it)
  end.

Definition bebop_message_field_iterator_next (it : Bebop_MessageFieldIterator)
  : option (Bebop_Result * option (Z * Bebop_View) * Bebop_MessageFieldIterator) :=
  '(result, tag, it) ← bebop_message_field_iterator_next_tag it;
  match is_ok result, tag, it_index it with
  | true, Some tag, Some i =>
      '(result, view) ← bebop_message_field_at_rank i (u8 (it_rank it - 1));
      Some (result, Some (tag, default null_view view), it)
  | _, _, _ => Some (result, None, it)
  end.
