(* ===== verification/MessageSpec.v ===== *)
(** What an accepted message index is.  [index_ok] states, without reference to
    the parser, that an index describes the directory, the boundaries and the
    payload of its encoded message; [index_tags] lists the tags it contains.
    The parser is shown to accept exactly the well-formed indexes. *)
From S2P Require Import Prelude.
From S2P Require Import WireTypes.
From S2P Require Import Bits.
From S2P Require Import Reader.
From S2P Require Import MessageIndex.

(** ** Total views of the memory *)

Definition byte_at (mem : list Z) (off : Z) : Z := default 0 (load mem off).
Definition word_at (mem : list Z) (off w : Z) : Z := default 0 (bebop_wire_load_le mem off w).

Lemma load_byte_at mem off : 0 ≤ off < zlen mem → load mem off = Some (byte_at mem off).
Proof. intros H. unfold byte_at. by destruct (load_in mem off H) as [b ->]. Qed.

Lemma byte_at_ok mem off : bytes_ok mem → byte_ok (byte_at mem off).
Proof.
  intros Hm. unfold byte_at. destruct (load mem off) as [b|] eqn:E; [by eapply load_ok|].
  unfold byte_ok. cbn. lia.
Qed.

Definition width_ok (w : Z) : Prop := w = 1 ∨ w = 2 ∨ w = 4.

Lemma load_word_at mem off w :
  bytes_ok mem → width_ok w → 0 ≤ off → off + w ≤ zlen mem →
  bebop_wire_load_le mem off w = Some (word_at mem off w) ∧ 0 ≤ word_at mem off w < 2 ^ (8 * w).
Proof.
  intros Hm Hw Ho Hl. unfold word_at.
  pose proof (load_bytes_in mem off w Ho ltac:(destruct Hw as [->|[->| ->]]; lia) Hl) as El.
  rewrite (load_le_bytes mem off w _ Hm Hw El). split; [done|]. cbn.
  pose proof (le_value_bound _ (load_bytes_ok _ _ _ _ Hm El)) as B.
  rewrite (load_bytes_zlen _ _ _ _ El) in B. rewrite pow256 in B by (destruct Hw as [->|[->| ->]]; lia). done.
Qed.

(** ** The directory *)

Definition tags_of_mask (base mask : Z) : list Z := map (λ j, base + j + 1) (bits 32 mask).

(** The number of block entries in front of the entry of [block]. *)
Definition entries_before (top block : Z) : Z := bebop_wire_popcount32 (Z.land top (2 ^ block - 1)).
Definition mask_of_block (mem : list Z) (dir top block : Z) : Z :=
  if Z.testbit top block then word_at mem (dir + 5 * entries_before top block + 1) 4 else 0.
(** The tags of [n] blocks from [block] on. *)
Definition tags_of_blocks (mem : list Z) (dir top block n : Z) : list Z :=
  concat (map (λ b, tags_of_mask (32 * b) (mask_of_block mem dir top b)) (seqZ block n)).

(** The entry of a nonempty block: the rank of its first tag, and a mask of tags. *)
Definition block_ok (mem : list Z) (dir top b : Z) : Prop :=
  Z.testbit top b = true →
  byte_at mem (dir + 5 * entries_before top b) = zlen (tags_of_blocks mem dir top 0 b) ∧
  mask_of_block mem dir top b ≠ 0 ∧ (b = 7 → Z.testbit (mask_of_block mem dir top b) 31 = false).

Definition mask_width (kind : Z) : Z := Z.shiftl 1 (kind - BEBOP_MESSAGE_DIRECTORY_MASK8).

(** The size of the directory in front of the control byte at [e - 1]. *)
Definition dir_size (mem : list Z) (e kind : Z) : Z :=
  if kind =? BEBOP_MESSAGE_DIRECTORY_EMPTY then 0
  else if is_tiny kind then kind
  else if is_mask kind then mask_width kind
  else 1 + 5 * bebop_wire_popcount32 (byte_at mem (e - 2)).

(** The tags in the directory at [dir]. *)
Definition dir_tags (mem : list Z) (dir e kind : Z) : list Z :=
  if kind =? BEBOP_MESSAGE_DIRECTORY_EMPTY then []
  else if is_tiny kind then map (λ j, byte_at mem (dir + j)) (seqZ 0 kind)
  else if is_mask kind then tags_of_mask 0 (word_at mem dir (mask_width kind))
  else tags_of_blocks mem dir (byte_at mem (e - 2)) 0 8.

Definition mi_end (i : Bebop_MessageIndex) : Z := mi_data i + view_length (mi_encoded i).
Definition mi_top (i : Bebop_MessageIndex) : Z := byte_at (mi_mem i) (mi_end i - 2).

(** The tags an index contains, in ascending order. *)
Definition index_tags (i : Bebop_MessageIndex) : list Z :=
  dir_tags (mi_mem i) (mi_directory i) (mi_end i) (mi_directory_kind i).

Definition tags_ok (tags : list Z) : Prop := StronglySorted Z.lt tags ∧ Forall (λ t, 1 ≤ t ≤ 255) tags.

Definition boundary_count (count : Z) : Z := if count =? 0 then 0 else count - 1.
Definition width_code_of (width : Z) : Z := if width =? 1 then 0 else if width =? 2 then 1 else 2.

Record index_ok (i : Bebop_MessageIndex) : Prop := {
  io_view : view_ok (mi_encoded i);
  io_length : 5 ≤ view_length (mi_encoded i);
  io_body : word_at (mi_mem i) (mi_data i) 4 = view_length (mi_encoded i) - 4;
  io_kind : 0 ≤ mi_directory_kind i ≤ 7;
  io_width : width_ok (mi_offset_width i);
  io_control : byte_at (mi_mem i) (mi_end i - 1) = 4 * mi_directory_kind i + width_code_of (mi_offset_width i);
  io_directory : mi_directory i = mi_end i - 1 - dir_size (mi_mem i) (mi_end i) (mi_directory_kind i);
  io_count : mi_field_count i = zlen (index_tags i);
  io_boundaries : mi_boundaries i = mi_directory i - boundary_count (mi_field_count i) * mi_offset_width i;
  io_fits : mi_data i + 4 ≤ mi_boundaries i;
  io_tags : tags_ok (index_tags i);
  io_empty : mi_field_count i = 0 ↔ mi_directory_kind i = BEBOP_MESSAGE_DIRECTORY_EMPTY;
  io_no_payload : mi_field_count i = 0 → mi_boundaries i = mi_data i + 4;
  io_blocks : mi_directory_kind i = BEBOP_MESSAGE_DIRECTORY_BLOCKS →
    mi_top i ≠ 0 ∧ ∀ b, 0 ≤ b < 8 → block_ok (mi_mem i) (mi_directory i) (mi_top i) b
}.

Definition mi_boundary (i : Bebop_MessageIndex) (k : Z) : Z :=
  word_at (mi_mem i) (mi_boundaries i + k * mi_offset_width i) (mi_offset_width i).
Definition payload_size (i : Bebop_MessageIndex) : Z := mi_boundaries i - (mi_data i + 4).

(** The boundaries are nondecreasing and lie in the payload. *)
Definition bounds_ok (i : Bebop_MessageIndex) : Prop :=
  ∀ k, 0 ≤ k < mi_field_count i - 1 →
    (if k =? 0 then 0 else mi_boundary i (k - 1)) ≤ mi_boundary i k ≤ payload_size i.

(** ** Masks *)

Lemma popcount_tags base mask : bebop_wire_popcount32 mask = zlen (tags_of_mask base mask).
Proof. unfold tags_of_mask. by rewrite zlen_map. Qed.

Lemma tags_of_mask_sorted base mask : StronglySorted Z.lt (tags_of_mask base mask).
Proof.
  unfold tags_of_mask. pose proof (bits_sorted 32 mask) as Hs. induction Hs as [|x l _ IH Hf]; cbn; constructor; [done|].
  apply Forall_map. eapply Forall_impl; [done|]. cbn. lia.
Qed.

Lemma elem_of_tags_of_mask base mask t :
  t ∈ tags_of_mask base mask ↔ Z.testbit mask (t - base - 1) = true ∧ base + 1 ≤ t ≤ base + 32.
Proof.
  unfold tags_of_mask. rewrite list_elem_of_fmap. split.
  - intros (j&->&Hj%elem_of_bits). replace (base + j + 1 - base - 1) with j by lia. split; [tauto|lia].
  - intros [Hb Ht]. exists (t - base - 1). rewrite elem_of_bits. split; [lia|]. split; [done|lia].
Qed.

(** [rank = popcount(mask & (bit - 1))] counts the smaller tags. *)
Lemma popcount_below base mask t :
  base + 1 ≤ t ≤ base + 32 →
  bebop_wire_popcount32 (Z.land mask (2 ^ (t - base - 1) - 1)) = zlen (filter (λ u, u < t) (tags_of_mask base mask)).
Proof.
  intros Ht. unfold bebop_wire_popcount32. rewrite bits_below by lia. unfold tags_of_mask.
  induction (bits 32 mask) as [|j l IH]; [done|]. cbn [map]. rewrite !filter_cons.
  repeat case_decide; try lia; rewrite ?zlen_cons; lia.
Qed.

(** In a sorted list the rank of an element is the number of smaller ones. *)
Lemma sorted_rank l x :
  StronglySorted Z.lt l → x ∈ l → l !! length (filter (λ u, u < x) l) = Some x.
Proof.
  induction 1 as [|y l Hs IH Hf]; intros Hx; [by apply not_elem_of_nil in Hx|].
  rewrite Forall_forall in Hf. apply elem_of_cons in Hx as [->|Hx].
  - rewrite filter_none; [done|]. intros z [->|Hz]%elem_of_cons; [lia|]. specialize (Hf z Hz). lia.
  - rewrite filter_cons_True by (by apply Hf). cbn. by apply IH.
Qed.

(** ** Blocks *)

Lemma land_block_bit v b : 0 ≤ b < 8 → (Z.land v (u8 (Z.shiftl 1 b)) =? 0) = negb (Z.testbit v b).
Proof.
  intros Hb. rewrite <- land_bit by lia. unfold u8. rewrite Z.mod_small; [done|].
  rewrite Z.shiftl_1_l. split; [lia|]. apply Z.pow_lt_mono_r; lia.
Qed.

Lemma entries_before_0 top : entries_before top 0 = 0.
Proof. unfold entries_before. cbn. by rewrite Z.land_0_r. Qed.

Lemma entries_before_eq top b :
  0 ≤ b ≤ 32 → entries_before top b = zlen (bits b top).
Proof.
  intros Hb. unfold entries_before, bebop_wire_popcount32. rewrite bits_below by lia. f_equal.
  unfold bits. rewrite list_filter_filter. replace 32 with (b + (32 - b)) by lia.
  rewrite seqZ_app, filter_app by lia. rewrite (filter_none _ (seqZ (0 + b) _)).
  - rewrite app_nil_r. apply filter_ext_in. intros x Hx%elem_of_seqZ. split; [tauto|]. intros; split; [lia|done].
  - intros x Hx%elem_of_seqZ. lia.
Qed.

Lemma bits_succ v b : 0 ≤ b → bits (b + 1) v = bits b v ++ (if Z.testbit v b then [b] else []).
Proof.
  intros Hb. unfold bits. rewrite seqZ_app, filter_app by lia. f_equal. rewrite Z.add_0_l.
  change (seqZ b 1) with [b]. rewrite filter_cons. cbn.
  destruct (Z.testbit v b); by repeat case_decide.
Qed.

Lemma entries_before_succ top b :
  0 ≤ b < 32 → entries_before top (b + 1) = entries_before top b + (if Z.testbit top b then 1 else 0).
Proof.
  intros Hb. rewrite !entries_before_eq, bits_succ, zlen_app by lia. f_equal. by destruct (Z.testbit top b).
Qed.

Lemma entries_before_mono top b c : 0 ≤ b ≤ c → c ≤ 32 → entries_before top b ≤ entries_before top c.
Proof.
  intros Hb Hc. rewrite !entries_before_eq by lia. replace c with (b + (c - b)) by lia.
  unfold bits. rewrite seqZ_app, filter_app by lia. zlia.
Qed.

Lemma entries_before_8 top : 0 ≤ top < 256 → entries_before top 8 = bebop_wire_popcount32 top.
Proof. intros Ht. rewrite entries_before_eq by lia. unfold bebop_wire_popcount32. by rewrite (bits_widen 8 32). Qed.

Lemma tags_of_blocks_app mem dir top b m n :
  0 ≤ m → 0 ≤ n → tags_of_blocks mem dir top b (m + n) =
  tags_of_blocks mem dir top b m ++ tags_of_blocks mem dir top (b + m) n.
Proof. intros. unfold tags_of_blocks. by rewrite seqZ_app, map_app, concat_app by lia. Qed.

Lemma tags_of_blocks_one mem dir top b :
  tags_of_blocks mem dir top b 1 = tags_of_mask (32 * b) (mask_of_block mem dir top b).
Proof. unfold tags_of_blocks. change (seqZ b 1) with [b]. cbn. apply app_nil_r. Qed.

Lemma zlen_tags_of_mask base mask : 0 ≤ zlen (tags_of_mask base mask) ≤ 32.
Proof. rewrite <- popcount_tags. apply popcount_range. Qed.

Lemma zlen_tags_of_blocks mem dir top b n : 0 ≤ n → 0 ≤ zlen (tags_of_blocks mem dir top b n) ≤ 32 * n.
Proof.
  intros Hn. revert b. pattern n. apply natlike_ind; [| |done].
  - intros b. replace (zlen (tags_of_blocks mem dir top b 0)) with 0 by reflexivity. lia.
  - intros m Hm IH b. unfold Z.succ. rewrite Z.add_comm, tags_of_blocks_app, zlen_app, tags_of_blocks_one by lia.
    specialize (IH (b + 1)). pose proof (zlen_tags_of_mask (32 * b) (mask_of_block mem dir top b)). lia.
Qed.

Lemma elem_of_tags_of_blocks mem dir top b n t :
  t ∈ tags_of_blocks mem dir top b n ↔
  ∃ c, b ≤ c < b + n ∧ t ∈ tags_of_mask (32 * c) (mask_of_block mem dir top c).
Proof.
  unfold tags_of_blocks. rewrite list_elem_of_In, in_concat. split.
  - intros (l&Hl&Ht). apply in_map_iff in Hl as (c&<-&Hc). exists c.
    apply list_elem_of_In, elem_of_seqZ in Hc. rewrite list_elem_of_In. by split; [lia|].
  - intros (c&Hc&Ht). eexists. split; [apply in_map_iff; exists c; split; [done|]|by apply list_elem_of_In].
    apply list_elem_of_In, elem_of_seqZ. lia.
Qed.

Section Blocks.
Context (mem : list Z) (dir top : Z).
Context (Hmem : bytes_ok mem) (Hdir : 0 ≤ dir) (Htop : 0 ≤ top < 256).
Context (Hfit : dir + 5 * bebop_wire_popcount32 top ≤ zlen mem).

Lemma entry_fits b : 0 ≤ b < 8 → Z.testbit top b = true → dir + 5 * entries_before top b + 5 ≤ zlen mem.
Proof.
  intros Hb Ht. pose proof (entries_before_mono top (b + 1) 8 ltac:(lia) ltac:(lia)) as Hm.
  rewrite entries_before_succ, Ht, entries_before_8 in Hm by lia. lia.
Qed.

Lemma entries_before_nonneg b : 0 ≤ b ≤ 32 → 0 ≤ entries_before top b.
Proof. intros Hb. rewrite entries_before_eq by lia. apply zlen_nonneg. Qed.

(** The loads of one entry. *)
Lemma load_entry b :
  0 ≤ b < 8 → Z.testbit top b = true →
  load mem (dir + 5 * entries_before top b) = Some (byte_at mem (dir + 5 * entries_before top b)) ∧
  bebop_wire_load_le mem (dir + 5 * entries_before top b + 1) 4 = Some (mask_of_block mem dir top b) ∧
  0 ≤ mask_of_block mem dir top b < 2 ^ 32.
Proof.
  intros Hb Ht. pose proof (entry_fits b Hb Ht). pose proof (entries_before_nonneg b ltac:(lia)).
  split; [apply load_byte_at; lia|]. unfold mask_of_block. rewrite Ht.
  apply (load_word_at mem _ 4); [done|by right; right|lia|lia].
Qed.

Lemma tags_of_blocks_succ b :
  0 ≤ b → tags_of_blocks mem dir top 0 (b + 1) =
          tags_of_blocks mem dir top 0 b ++ tags_of_mask (32 * b) (mask_of_block mem dir top b).
Proof. intros Hb. by rewrite tags_of_blocks_app, tags_of_blocks_one, Z.add_0_l by lia. Qed.

Lemma tags_of_empty_block b : Z.testbit top b = false → tags_of_mask (32 * b) (mask_of_block mem dir top b) = [].
Proof. intros Ht. unfold mask_of_block. rewrite Ht. unfold tags_of_mask. by rewrite bits_0. Qed.

(** The tests of one entry, as a boolean. *)
Definition block_okb (b : Z) : bool :=
  negb (Z.testbit top b) ||
  ((byte_at mem (dir + 5 * entries_before top b) =? zlen (tags_of_blocks mem dir top 0 b)) &&
   negb (mask_of_block mem dir top b =? 0) &&
   negb ((b =? 7) && Z.testbit (mask_of_block mem dir top b) 31)).

Lemma block_okb_spec b : block_okb b = true ↔ block_ok mem dir top b.
Proof.
  clear Hmem Hdir Htop Hfit. unfold block_okb, block_ok. rewrite orb_true_iff, negb_true_iff, !andb_true_iff, Z.eqb_eq, !negb_true_iff,
    Z.eqb_neq, andb_false_iff, Z.eqb_neq.
  destruct (Z.testbit top b), (Z.testbit (mask_of_block mem dir top b) 31); intuition congruence.
Qed.

Definition blocks_okb (b : Z) (n : nat) : bool := forallb block_okb (seqZ b (Z.of_nat n)).

Lemma seqZ_S b n : seqZ b (Z.of_nat (S n)) = b :: seqZ (b + 1) (Z.of_nat n).
Proof. rewrite seqZ_cons by lia. do 2 f_equal; lia. Qed.

Lemma land_top_bit mask : (Z.land mask 0x80000000 =? 0) = negb (Z.testbit mask 31).
Proof. apply (land_bit mask 31). lia. Qed.

Lemma entries_step b : 0 ≤ b < 8 → Z.testbit top b = true →
  dir + 5 * entries_before top b + 5 = dir + 5 * entries_before top (b + 1).
Proof. intros Hb Ht. rewrite entries_before_succ, Ht by lia. lia. Qed.

Lemma rank_step b : 0 ≤ b < 8 →
  u16 (zlen (tags_of_blocks mem dir top 0 b) + bebop_wire_popcount32 (mask_of_block mem dir top b)) =
  zlen (tags_of_blocks mem dir top 0 (b + 1)).
Proof.
  intros Hb. rewrite tags_of_blocks_succ, zlen_app, (popcount_tags (32 * b)) by lia. apply u16_small.
  pose proof (zlen_tags_of_blocks mem dir top 0 b ltac:(lia)).
  pose proof (zlen_tags_of_mask (32 * b) (mask_of_block mem dir top b)). lia.
Qed.

(** Both block loops decide that every entry is well-formed and count the tags. *)
Lemma parse_blocks_spec n b :
  b + Z.of_nat n = 8 → 0 ≤ b →
  parse_blocks n mem top b (dir + 5 * entries_before top b) (zlen (tags_of_blocks mem dir top 0 b)) =
  Some (if blocks_okb b n then Go (zlen (tags_of_blocks mem dir top 0 8)) else Reject).
Proof.
  revert b. induction n as [|n IH]; intros b Hn Hb; cbn [parse_blocks].
  - replace b with 8 by lia. done.
  - unfold blocks_okb. rewrite seqZ_S. cbn [forallb]. rewrite land_block_bit by lia.
    specialize (IH (b + 1) ltac:(lia) ltac:(lia)). fold (blocks_okb (b + 1) n).
    unfold block_okb. destruct (Z.testbit top b) eqn:Et; cbn [negb orb].
    + destruct (load_entry b ltac:(lia) Et) as (E1&E2&_). rewrite E1. cbn [mbind option_bind].
      destruct (_ =? zlen _); cbn [negb andb]; [|done]. rewrite E2. cbn [mbind option_bind].
      rewrite land_top_bit, negb_involutive.
      destruct (mask_of_block mem dir top b =? 0); cbn [negb orb andb]; [done|].
      destruct ((b =? 7) && Z.testbit (mask_of_block mem dir top b) 31); cbn [negb andb]; [done|].
      rewrite entries_step, rank_step by (done || lia). exact IH.
    + rewrite entries_before_succ, Et, Z.add_0_r, tags_of_blocks_succ, tags_of_empty_block, app_nil_r in IH by (done || lia).
      exact IH.
Qed.

Lemma begin_blocks_spec n b :
  b + Z.of_nat n = 8 → 0 ≤ b →
  begin_blocks n mem top b (dir + 5 * entries_before top b) (zlen (tags_of_blocks mem dir top 0 b)) =
  Some (if blocks_okb b n then Go (zlen (tags_of_blocks mem dir top 0 8)) else Reject).
Proof.
  revert b. induction n as [|n IH]; intros b Hn Hb; cbn [begin_blocks].
  - replace b with 8 by lia. done.
  - unfold blocks_okb. rewrite seqZ_S. cbn [forallb]. rewrite land_block_bit by lia.
    specialize (IH (b + 1) ltac:(lia) ltac:(lia)). fold (blocks_okb (b + 1) n).
    unfold block_okb. destruct (Z.testbit top b) eqn:Et; cbn [negb orb].
    + destruct (load_entry b ltac:(lia) Et) as (E1&E2&_). rewrite E2. cbn [mbind option_bind]. rewrite E1. cbn [mbind option_bind].
      destruct (_ =? zlen _); cbn [negb andb orb]; [|done].
      rewrite land_top_bit, negb_involutive.
      destruct (mask_of_block mem dir top b =? 0); cbn [negb orb andb]; [done|].
      destruct ((b =? 7) && Z.testbit (mask_of_block mem dir top b) 31); cbn [negb andb]; [done|].
      rewrite entries_step, rank_step by (done || lia). exact IH.
    + rewrite entries_before_succ, Et, Z.add_0_r, tags_of_blocks_succ, tags_of_empty_block, app_nil_r in IH by (done || lia).
      exact IH.
Qed.

Lemma blocks_okb_all : blocks_okb 0 8 = true ↔ ∀ b, 0 ≤ b < 8 → block_ok mem dir top b.
Proof.
  clear Hmem Hdir Htop Hfit. unfold blocks_okb. rewrite forallb_forall. split.
  - intros H b Hb. apply block_okb_spec, H, list_elem_of_In, elem_of_seqZ. lia.
  - intros H b Hb%list_elem_of_In%elem_of_seqZ. apply block_okb_spec, H. lia.
Qed.

(** The tags of well-formed blocks are sorted and in range. *)
Lemma tags_of_blocks_ok :
  (∀ b, 0 ≤ b < 8 → block_ok mem dir top b) → tags_ok (tags_of_blocks mem dir top 0 8).
Proof.
  intros Hb. split.
  - assert (Hs : ∀ n, 0 ≤ n → StronglySorted Z.lt (tags_of_blocks mem dir top 0 n) ∧
                              Forall (λ t, t ≤ 32 * n) (tags_of_blocks mem dir top 0 n)).
    { intros n Hn. pattern n. apply natlike_ind; [by split; constructor| |done].
      intros m Hm [IH1 IH2]. unfold Z.succ. rewrite tags_of_blocks_succ by done. split.
      - apply StronglySorted_app_2; [|done|apply tags_of_mask_sorted].
        intros x y Hx [_ Hy]%elem_of_tags_of_mask. rewrite Forall_forall in IH2. specialize (IH2 x Hx). lia.
      - apply Forall_app; split; [eapply Forall_impl; [done|cbn; lia]|].
        apply Forall_forall. intros y [_ Hy]%elem_of_tags_of_mask. lia. }
    by apply Hs.
  - apply Forall_forall. intros t (c&Hc&Ht)%elem_of_tags_of_blocks.
    apply elem_of_tags_of_mask in Ht as [Hbit Ht]. split; [lia|].
    destruct (Z.eq_dec t 256) as [->|]; [|lia]. exfalso. assert (c = 7) as -> by lia.
    specialize (Hb 7 ltac:(lia)). unfold block_ok in Hb. unfold mask_of_block in Hbit at 1.
    destruct (Z.testbit top 7) eqn:E7; [|by rewrite Z.bits_0 in Hbit].
    destruct (Hb eq_refl) as (_&_&H31). unfold mask_of_block in H31. rewrite E7 in H31.
    change (256 - 32 * 7 - 1) with 31 in Hbit. by rewrite H31 in Hbit.
Qed.
End Blocks.

(** ** The parser accepts exactly the well-formed indexes *)

Definition kind_of (control : Z) : Z := Z.land (Z.shiftr control 2) 7.
Definition width_of (control : Z) : Z := u8 (Z.shiftl 1 (Z.land control 3)).

(** The index the control byte of a message asks for. *)
Definition candidate (enc : Bebop_View) : Bebop_MessageIndex :=
  let mem := view_mem enc in
  let e := default 0 (view_data enc) + view_length enc in
  let control := byte_at mem (e - 1) in
  let kind := kind_of control in
  let width := width_of control in
  let dir := e - 1 - dir_size mem e kind in
  let count := zlen (dir_tags mem dir e kind) in
  mkIndex enc (dir - boundary_count count * width) dir count width kind.

(** What the tests on the control byte decide. *)
Lemma control_spec c :
  byte_ok c →
  0 ≤ kind_of c ≤ 7 ∧
  (negb (Z.land c 0xe0 =? 0) || (Z.land c 3 =? 3) = false →
   width_ok (width_of c) ∧ c = 4 * kind_of c + width_code_of (width_of c)) ∧
  (negb (Z.land c 0xe0 =? 0) || (Z.land c 3 =? 3) = true →
   ¬ c = 4 * kind_of c + width_code_of (width_of c)).
Proof.
  intros Hc.
  pose proof (byte_forall (λ c, (0 <=? kind_of c) && (kind_of c <=? 7) &&
    (if negb (Z.land c 0xe0 =? 0) || (Z.land c 3 =? 3)
     then negb (c =? 4 * kind_of c + width_code_of (width_of c))
     else ((width_of c =? 1) || (width_of c =? 2) || (width_of c =? 4)) &&
          (c =? 4 * kind_of c + width_code_of (width_of c)))) eq_refl c Hc) as H.
  cbn beta in H. zbool. split; [lia|].
  destruct (negb (Z.land c 0xe0 =? 0) || (Z.land c 3 =? 3)); zbool; (split; [|intros ?]); try done; intros _.
  split; [|done]. unfold width_ok. match goal with H : (_ ∨ _) |- _ => destruct H as [H|H] end; zbool; [|lia].
  match goal with H : (_ ∨ _) |- _ => destruct H as [H|H] end; zbool; lia.
Qed.

(** The control byte determines the kind and the width. *)
Lemma control_inv kind width :
  0 ≤ kind ≤ 7 → width_ok width →
  kind_of (4 * kind + width_code_of width) = kind ∧ width_of (4 * kind + width_code_of width) = width.
Proof.
  intros Hk Hw.
  assert (Hall : ∀ k, byte_ok k → (if k <=? 7 then (kind_of (4 * k) =? k) && (width_of (4 * k) =? 1) &&
     (kind_of (4 * k + 1) =? k) && (width_of (4 * k + 1) =? 2) &&
     (kind_of (4 * k + 2) =? k) && (width_of (4 * k + 2) =? 4) else true) = true)
    by (apply byte_forall; reflexivity).
  specialize (Hall kind ltac:(unfold byte_ok; lia)). cbn beta in Hall.
  destruct (Z.leb_spec kind 7); [|lia]. zbool.
  destruct Hw as [->|[->| ->]]; cbn [width_code_of Z.eqb Pos.eqb]; rewrite ?Z.add_0_r; done.
Qed.

Lemma index_ok_candidate i : index_ok i → candidate (mi_encoded i) = i.
Proof.
  intros [(d&Ed&_) _ _ Hk Hw Hc Hd Hn Hb _ _ _ _ _]. destruct i as [enc bnd dir count width kind].
  unfold candidate, mi_end, mi_data, mi_mem, index_tags in *. cbn [mi_encoded mi_boundaries mi_directory
    mi_field_count mi_offset_width mi_directory_kind] in *. unfold mi_end, mi_mem, mi_data in *.
  cbn [mi_encoded] in *. rewrite Hc. destruct (control_inv kind width Hk Hw) as [-> ->].
  rewrite <- Hd, <- Hn, <- Hb. done.
Qed.

Lemma kind_cases k : 0 ≤ k ≤ 7 → k ∈ [0; 1; 2; 3; 4; 5; 6; 7].
Proof. intros Hk. change [0; 1; 2; 3; 4; 5; 6; 7] with (seqZ 0 8). apply elem_of_seqZ. lia. Qed.

(** Case analysis on the eight directory kinds. *)
Ltac kinds H :=
  let Hin := fresh "Hin" in
  pose proof (kind_cases _ H) as Hin;
  repeat (apply elem_of_cons in Hin as [Hin|Hin]; [rewrite Hin in *|]); [..|by apply not_elem_of_nil in Hin].

(** The code's [switch] gives the size of the directory. *)
Lemma parse_directory_size_eq mem e body_length kind :
  0 ≤ e - 2 < zlen mem → 0 ≤ kind ≤ 7 →
  parse_directory_size mem e body_length kind =
  Some (if (kind =? 7) && (body_length <? 2) then Reject
        else Go (dir_size mem e kind, if is_tiny kind then kind else 0)).
Proof.
  intros He Hk. unfold parse_directory_size, load_back. rewrite load_byte_at by done. kinds Hk; try done.
  cbn. by destruct (body_length <? 2).
Qed.

Lemma begin_directory_size_eq mem e body_length kind :
  0 ≤ e - 2 < zlen mem → 0 ≤ kind ≤ 7 →
  begin_directory_size mem e body_length kind =
  Some (if (kind =? 7) && ((body_length <? 2) || (byte_at mem (e - 2) =? 0)) then Reject
        else Go (dir_size mem e kind, if is_tiny kind then kind else 0)).
Proof.
  intros He Hk. unfold begin_directory_size, load_back. rewrite load_byte_at by done. kinds Hk; try done.
  cbn. destruct (body_length <? 2); cbn; [done|]. by destruct (byte_at mem (e - 2) =? 0).
Qed.

Lemma dir_size_range mem e kind : 0 ≤ kind ≤ 7 → 0 ≤ dir_size mem e kind ≤ 161.
Proof.
  intros Hk. pose proof (popcount_range (byte_at mem (e - 2))).
  kinds Hk; match goal with
  | |- context [dir_size mem e 7] =>
      change (dir_size mem e 7) with (1 + 5 * bebop_wire_popcount32 (byte_at mem (e - 2))); lia
  | _ => split; vm_compute; discriminate
  end.
Qed.

(** The boundary loop. *)
Lemma boundaries_valid_spec mem bnd width size n k prev :
  bytes_ok mem → width_ok width → 0 ≤ bnd → 0 ≤ k → bnd + (k + Z.of_nat n) * width ≤ zlen mem →
  let at_ k := word_at mem (bnd + k * width) width in
  prev = (if k =? 0 then 0 else at_ (k - 1)) →
  ∃ ok, boundaries_valid n mem bnd width size k prev = Some ok ∧
    (ok = true ↔ ∀ j, k ≤ j < k + Z.of_nat n → (if j =? 0 then 0 else at_ (j - 1)) ≤ at_ j ≤ size).
Proof.
  intros Hm Hw Hb Hk Hl at_. revert k prev Hk Hl. induction n as [|n IH]; intros k prev Hk Hl Hp; cbn [boundaries_valid].
  - exists true. split; [done|]. split; [intros _ j ?; lia|done].
  - destruct (load_word_at mem (bnd + k * width) width Hm Hw) as [E _];
      [destruct Hw as [->|[->| ->]]; lia|destruct Hw as [->|[->| ->]]; lia|].
    rewrite E. cbn [mbind option_bind]. fold (at_ k).
    destruct ((at_ k <? prev) || (size <? at_ k)) eqn:Et.
    + exists false. split; [done|]. split; [done|]. intros Hall. specialize (Hall k ltac:(lia)).
      rewrite <- Hp in Hall. apply orb_true_iff in Et as [Et|Et]; zbool; lia.
    + apply orb_false_iff in Et as [Et1 Et2]. zbool.
      destruct (IH (k + 1) (at_ k) ltac:(lia) ltac:(lia)) as (ok&E2&Hok).
      { destruct (Z.eqb_spec (k + 1) 0); [lia|]. f_equal. lia. }
      exists ok. split; [done|]. rewrite Hok. split; intros Hall j Hj.
      * destruct (Z.eq_dec j k) as [->|]; [rewrite <- Hp; lia|]. apply Hall. lia.
      * apply Hall. lia.
Qed.

Lemma sorted_NoDup (l : list Z) : StronglySorted Z.lt l → NoDup l.
Proof.
  induction 1 as [|x l _ IH Hx]; constructor; [|done]. intros Hin. rewrite Forall_forall in Hx.
  specialize (Hx x Hin). lia.
Qed.

Lemma sorted_lookup_inj (l : list Z) m n x :
  StronglySorted Z.lt l → l !! m = Some x → l !! n = Some x → m = n.
Proof. intros Hs. apply NoDup_lookup, sorted_NoDup, Hs. Qed.

Lemma tags_ok_length tags : tags_ok tags → zlen tags ≤ 255.
Proof.
  intros [Hs Hf]. assert (Hsub : tags ⊆+ seqZ 1 255).
  { apply NoDup_submseteq; [by apply sorted_NoDup|].
    intros x Hx. rewrite Forall_forall in Hf. specialize (Hf x Hx). apply elem_of_seqZ. lia. }
  apply submseteq_length in Hsub. rewrite length_seqZ in Hsub. unfold zlen. lia.
Qed.

(** The test of a tiny directory. *)
Lemma tiny_valid_spec mem dir kind :
  bytes_ok mem → 0 ≤ dir → 1 ≤ kind ≤ 3 → dir + kind ≤ zlen mem →
  ∃ ok, tiny_valid mem dir kind = Some ok ∧
        (ok = true ↔ tags_ok (map (λ j, byte_at mem (dir + j)) (seqZ 0 kind))).
Proof.
  intros Hm Hd Hk Hl.
  pose proof (byte_at_ok mem dir Hm) as B0. pose proof (byte_at_ok mem (dir + 1) Hm) as B1.
  pose proof (byte_at_ok mem (dir + 2) Hm) as B2. unfold byte_ok in *.
  assert (Hkk : kind = 1 ∨ kind = 2 ∨ kind = 3) by lia. unfold tiny_valid.
  rewrite load_byte_at by lia. cbn [mbind option_bind].
  destruct Hkk as [->|[->| ->]].
  - change (map _ (seqZ 0 1)) with [byte_at mem (dir + 0)]. rewrite Z.add_0_r.
    destruct (Z.eqb_spec (byte_at mem dir) 0); (eexists; split; [done|]).
    + split; [done|]. intros [_ Hf]. decompose_Forall_hyps. lia.
    + split; [|done]. intros _. split; repeat constructor; lia.
  - change (map _ (seqZ 0 2)) with [byte_at mem (dir + 0); byte_at mem (dir + 1)]. rewrite Z.add_0_r.
    destruct (Z.eqb_spec (byte_at mem dir) 0).
    { eexists; split; [done|]. split; [done|]. intros [_ Hf]. decompose_Forall_hyps. lia. }
    change (Z.to_nat (2 - 1)) with 1%nat. cbn [tiny_sorted]. rewrite !load_byte_at by lia. cbn [mbind option_bind].
    change (1 - 1) with 0. rewrite Z.add_0_r.
    destruct (Z.leb_spec (byte_at mem (dir + 1)) (byte_at mem dir)); (eexists; split; [done|]).
    + split; [done|]. intros [Hs _]. apply StronglySorted_inv in Hs as [_ Hs]. decompose_Forall_hyps. lia.
    + split; [|done]. intros _. split; repeat constructor; lia.
  - change (map _ (seqZ 0 3)) with [byte_at mem (dir + 0); byte_at mem (dir + 1); byte_at mem (dir + 2)].
    rewrite Z.add_0_r. destruct (Z.eqb_spec (byte_at mem dir) 0).
    { eexists; split; [done|]. split; [done|]. intros [_ Hf]. decompose_Forall_hyps. lia. }
    change (Z.to_nat (3 - 1)) with 2%nat. cbn [tiny_sorted]. rewrite !load_byte_at by lia. cbn [mbind option_bind].
    change (1 - 1) with 0. change (1 + 1) with 2. change (2 - 1) with 1. rewrite Z.add_0_r.
    destruct (Z.leb_spec (byte_at mem (dir + 1)) (byte_at mem dir)).
    { eexists; split; [done|]. split; [done|]. intros [Hs _].
      apply StronglySorted_inv in Hs as [_ Hs]. decompose_Forall_hyps. lia. }
    destruct (Z.leb_spec (byte_at mem (dir + 2)) (byte_at mem (dir + 1))); (eexists; split; [done|]).
    + split; [done|]. intros [Hs _]. apply StronglySorted_inv in Hs as [Hs _].
      apply StronglySorted_inv in Hs as [_ Hs]. decompose_Forall_hyps. lia.
    + split; [|done]. intros _. split; repeat constructor; lia.
Qed.

(** The field count the code computes from the directory. *)
Lemma field_count_eq mem e kind :
  let dir := e - 1 - dir_size mem e kind in
  bytes_ok mem → 0 ≤ kind ≤ 7 → 0 ≤ dir → 0 ≤ e - 2 → e ≤ zlen mem →
  parse_field_count mem dir (dir_size mem e kind) (if is_tiny kind then kind else 0) kind =
    Some (if (kind =? 7) && negb (negb (byte_at mem (e - 2) =? 0) && blocks_okb mem dir (byte_at mem (e - 2)) 0 8)
          then Reject else Go (zlen (dir_tags mem dir e kind))) ∧
  begin_field_count mem dir (dir_size mem e kind) (if is_tiny kind then kind else 0) kind =
    Some (if (kind =? 7) && negb (blocks_okb mem dir (byte_at mem (e - 2)) 0 8)
          then Reject else Go (zlen (dir_tags mem dir e kind))).
Proof.
  intros dir Hm Hk Hd He Hl. subst dir. pose proof (byte_at_ok mem (e - 2) Hm) as Htop. unfold byte_ok in Htop.
  destruct (is_mask kind) eqn:Ekm.
  - assert (Hw : width_ok (mask_width kind) ∧ dir_size mem e kind = mask_width kind ∧
                 dir_tags mem (e - 1 - dir_size mem e kind) e kind =
                   tags_of_mask 0 (word_at mem (e - 1 - dir_size mem e kind) (mask_width kind)) ∧ (kind =? 7) = false).
    { kinds Hk; try done; unfold width_ok; split_and!; try done; vm_compute; auto. }
    destruct Hw as (Hw&Es&Et&E7). unfold parse_field_count, begin_field_count. rewrite Ekm, E7, Et. cbn [andb].
    rewrite Es in *. destruct (load_word_at mem (e - 1 - mask_width kind) (mask_width kind) Hm Hw Hd ltac:(lia)) as [El _].
    rewrite (u8_small (mask_width kind)) by (destruct Hw as [->|[->| ->]]; lia). rewrite El. cbn [mbind option_bind].
    rewrite (popcount_tags 0), u16_small; [done|].
    pose proof (zlen_tags_of_mask 0 (word_at mem (e - 1 - mask_width kind) (mask_width kind))). lia.
  - unfold parse_field_count, begin_field_count. rewrite Ekm. change BEBOP_MESSAGE_DIRECTORY_BLOCKS with 7.
    destruct (Z.eqb_spec kind 7) as [->|Hne]; cbn [andb].
    + change (dir_size mem e 7) with (1 + 5 * bebop_wire_popcount32 (byte_at mem (e - 2))) in *.
      change (dir_tags mem ?x e 7) with (tags_of_blocks mem x (byte_at mem (e - 2)) 0 8).
      set (top := byte_at mem (e - 2)) in *. set (dir := e - 1 - _) in *.
      pose proof (popcount_range top).
      assert (Ed : dir + (1 + 5 * bebop_wire_popcount32 top - 1) = e - 2) by (subst dir; lia).
      rewrite Ed, load_byte_at by lia. cbn [mbind option_bind]. fold top.
      pose proof (parse_blocks_spec mem dir top Hm Hd ltac:(lia) ltac:(subst dir; lia) 8 0 eq_refl ltac:(lia)) as Hp.
      pose proof (begin_blocks_spec mem dir top Hm Hd ltac:(lia) ltac:(subst dir; lia) 8 0 eq_refl ltac:(lia)) as Hb.
      rewrite entries_before_0, Z.mul_0_r, Z.add_0_r in Hp, Hb.
      change (zlen (tags_of_blocks mem dir top 0 0)) with 0 in Hp, Hb. rewrite Hp, Hb.
      split; [|by destruct (blocks_okb mem dir top 0 8)].
      destruct (top =? 0); [done|]. by destruct (blocks_okb mem dir top 0 8).
    + split; do 2 f_equal; kinds Hk; done.
Qed.

(** The remaining tests, once the directory is known to be well-formed. *)
Lemma tiny_test mem e kind :
  let dir := e - 1 - dir_size mem e kind in
  bytes_ok mem → 0 ≤ kind ≤ 7 → 0 ≤ dir → e ≤ zlen mem →
  (kind = 7 → blocks_okb mem dir (byte_at mem (e - 2)) 0 8 = true) →
  ∃ ok, (if is_tiny kind then tiny_valid mem dir (zlen (dir_tags mem dir e kind)) else Some true) = Some ok ∧
        (ok = true ↔ tags_ok (dir_tags mem dir e kind)).
Proof.
  intros dir Hm Hk Hd Hl Hblk. subst dir.
  destruct (is_tiny kind) eqn:Et.
  - assert (H13 : 1 ≤ kind ≤ 3 ∧ dir_size mem e kind = kind ∧
      dir_tags mem (e - 1 - dir_size mem e kind) e kind =
        map (λ j, byte_at mem (e - 1 - dir_size mem e kind + j)) (seqZ 0 kind)).
    { kinds Hk; try done. }
    destruct H13 as (H13&Es&Ed). rewrite Ed. rewrite Es in *.
    replace (zlen (map (λ j, byte_at mem (e - 1 - kind + j)) (seqZ 0 kind))) with kind
      by (rewrite zlen_map; unfold zlen; rewrite length_seqZ; lia).
    apply tiny_valid_spec; done || lia.
  - exists true. split; [done|]. split; [|done]. intros _.
    destruct (is_mask kind) eqn:Ekm.
    + assert (Ed : dir_tags mem (e - 1 - dir_size mem e kind) e kind =
                   tags_of_mask 0 (word_at mem (e - 1 - dir_size mem e kind) (mask_width kind)))
        by (kinds Hk; done).
      rewrite Ed. split; [apply tags_of_mask_sorted|]. apply Forall_forall. intros t [_ Ht]%elem_of_tags_of_mask. lia.
    + assert (Hk2 : kind = 0 ∨ kind = 7) by (kinds Hk; auto; done). destruct Hk2 as [->| ->].
      * repeat constructor.
      * pose proof (byte_at_ok mem (e - 2) Hm) as Htop. unfold byte_ok in Htop.
        apply (tags_of_blocks_ok mem (e - 1 - dir_size mem e 7) (byte_at mem (e - 2))).
        by apply blocks_okb_all, Hblk.
Qed.

Lemma dir_tags_empty mem dir e : dir_tags mem dir e 0 = [].
Proof. done. Qed.

Section Candidate.
Context (enc : Bebop_View) (d : Z) (Ed : view_data enc = Some d) (Hv : view_ok enc).
Context (Hn : 5 ≤ view_length enc).

Let mem := view_mem enc.
Let e := d + view_length enc.
Let c := byte_at mem (e - 1).
Let kind := kind_of c.
Let width := width_of c.
Let dir := e - 1 - dir_size mem e kind.
Let tags := dir_tags mem dir e kind.
Let count := zlen tags.
Let bnd := dir - boundary_count count * width.

Lemma view_facts : 0 ≤ d ∧ e ≤ zlen mem ∧ zlen mem < 2 ^ 63 ∧ bytes_ok mem ∧ byte_ok c ∧ 0 ≤ kind ≤ 7.
Proof.
  destruct Hv as (d'&Ed'&?&?&?&?&Hb). assert (d' = d) as -> by congruence.
  pose proof (byte_at_ok mem (e - 1) Hb) as Hc. pose proof (control_spec c Hc) as [Hk _].
  fold kind in Hk. by split_and!; try apply Hk.
Qed.

Lemma candidate_eq : candidate enc = mkIndex enc bnd dir count width kind.
Proof. unfold candidate. rewrite Ed. done. Qed.

(** The tests of the two parsers, as one proposition about the header. *)
Definition header_ok : Prop :=
  word_at mem d 4 = view_length enc - 4 ∧
  negb (Z.land c 0xe0 =? 0) || (Z.land c 3 =? 3) = false ∧
  dir_size mem e kind + 1 ≤ view_length enc - 4 ∧
  (kind = 7 → (byte_at mem (e - 2) =? 0) = false ∧ blocks_okb mem dir (byte_at mem (e - 2)) 0 8 = true) ∧
  (count = 0 ↔ kind = 0) ∧ tags_ok tags ∧
  boundary_count count * width + dir_size mem e kind + 1 ≤ view_length enc - 4 ∧
  (count = 0 → bnd = d + 4).

Lemma header_ok_iff : header_ok ↔ index_ok (candidate enc).
Proof.
  destruct view_facts as (Hd&He&Hz&Hm&Hc&Hk). destruct (control_spec c Hc) as (_&Hgood&Hbad).
  rewrite candidate_eq. unfold header_ok. split.
  - intros (H1&H2&H3&H4&H5&H6&H7&H8). destruct (Hgood H2) as [Hw Ec].
    constructor; unfold mi_end, mi_mem, mi_data, mi_top, index_tags, mi_end, mi_mem, mi_data;
      cbn [mi_encoded mi_boundaries mi_directory mi_field_count mi_offset_width mi_directory_kind];
      rewrite ?Ed; cbn [from_option id]; try done.
    + subst bnd dir. lia.
    + intros H70. destruct (H4 H70) as [Ht Hb]. split; [by apply Z.eqb_neq|]. by apply blocks_okb_all.
  - intros [_ _ H1 _ Hw H2 _ _ _ H3 H4 H5 H6 H7].
    unfold mi_end, mi_mem, mi_data, mi_top, index_tags, mi_end, mi_mem, mi_data in *.
    cbn [mi_encoded mi_boundaries mi_directory mi_field_count mi_offset_width mi_directory_kind] in *.
    rewrite Ed in *. cbn [from_option id] in *. fold mem e in H1, H2, H4, H7 |- *. fold c in H2. fold tags in H4.
    pose proof (dir_size_range mem e kind Hk).
    assert (Hbc : 0 ≤ boundary_count count * width).
    { pose proof (zlen_nonneg tags). subst count. unfold boundary_count. destruct (Z.eqb_spec (zlen tags) 0); [lia|].
      destruct Hw as [->|[->| ->]]; lia. }
    split_and!; try done.
    + destruct (negb (Z.land c 0xe0 =? 0) || (Z.land c 3 =? 3)); [|done]. exfalso. by apply Hbad.
    + subst bnd dir e. lia.
    + intros H70. destruct (H7 H70) as [Ht Hb]. split; [by apply Z.eqb_neq|]. by apply blocks_okb_all.
    + subst bnd dir e. lia.
Qed.

Lemma boundary_count_range : 0 ≤ boundary_count count.
Proof. pose proof (zlen_nonneg tags). subst count. unfold boundary_count. destruct (Z.eqb_spec (zlen tags) 0); lia. Qed.

(** The empty-kind tests. *)
Lemma empty_tests :
  ((count =? 0) && negb (kind =? 0) = true ∨ negb (count =? 0) && (kind =? 0) = true) ↔ ¬ (count = 0 ↔ kind = 0).
Proof. destruct (Z.eqb_spec count 0), (Z.eqb_spec kind 0); cbn; intuition congruence. Qed.

Lemma empty_kind : kind = 0 → count = 0.
Proof. intros E0. subst count tags. rewrite E0. done. Qed.

(** What [bebop_message_index_begin] decides. *)
Lemma begin_spec :
  ∃ r, bebop_message_index_begin PTR enc = Some r ∧
    (r = (BEBOP_RESULT_OK, Some (candidate enc)) ∧ header_ok ∨
     r = (BEBOP_RESULT_MALFORMED, None) ∧ ¬ header_ok).
Proof.
  destruct view_facts as (Hd&He&Hz&Hm&Hc&Hk). destruct (control_spec c Hc) as (_&Hgood&_).
  unfold bebop_message_index_begin. rewrite Ed. cbn [is_null]. unfold BEBOP_WIRE_SIZE_LEN, malformed.
  fold mem e. destruct (Z.ltb_spec (view_length enc) (4 + 1)); [lia|].
  destruct (load_word_at mem d 4 Hm) as [E4 _]; [by right; right|lia|subst e; lia|].
  rewrite E4. cbn [mbind option_bind].
  destruct (Z.eqb_spec (word_at mem d 4) (view_length enc - 4)) as [Hbl|Hbl]; cbn [negb orb];
    [|eexists; split; [done|]; right; split; [done|]; by intros []].
  destruct (Z.eqb_spec (word_at mem d 4) 0) as [|_]; [lia|].
  unfold load_back at 1. rewrite load_byte_at by (subst e; lia). cbn [mbind option_bind]. fold c.
  destruct (negb (Z.land c 0xe0 =? 0) || (Z.land c 3 =? 3)) eqn:Ectl;
    [eexists; split; [done|]; right; split; [done|]; intros (_&Hx&_); congruence|].
  destruct (Hgood eq_refl) as [Hw _]. fold width in Hw |- *. fold (kind_of c) (width_of c). fold kind width.
  rewrite begin_directory_size_eq by (done || subst e; lia). cbn [mbind option_bind].
  destruct ((kind =? 7) && ((word_at mem d 4 <? 2) || (byte_at mem (e - 2) =? 0))) eqn:E7.
  { eexists; split; [done|]; right; split; [done|]. intros (_&_&Hs&Ht&_). apply andb_true_iff in E7 as [E7 Eb].
    apply Z.eqb_eq in E7. destruct (Ht E7) as [Htop _]. rewrite Htop, orb_false_r in Eb. zbool.
    pose proof (popcount_range (byte_at mem (e - 2))). rewrite E7 in Hs.
    change (dir_size mem e 7) with (1 + 5 * bebop_wire_popcount32 (byte_at mem (e - 2))) in Hs. lia. }
  destruct (Z.ltb_spec (word_at mem d 4) (dir_size mem e kind + 1)) as [Hsz|Hsz].
  { eexists; split; [done|]; right; split; [done|]. intros (_&_&Hs&_). lia. }
  pose proof (dir_size_range mem e kind Hk) as Hdr.
  destruct (field_count_eq mem e kind Hm Hk) as [_ Ec]; [subst e; lia|subst e; lia|done|].
  cbv zeta in Ec. fold dir in Ec |- *. rewrite Ec. cbn [mbind option_bind]. clear Ec.
  destruct ((kind =? 7) && negb (blocks_okb mem dir (byte_at mem (e - 2)) 0 8)) eqn:Eblk.
  { eexists; split; [done|]; right; split; [done|]. intros (_&_&_&Ht&_). apply andb_true_iff in Eblk as [E7' Eb].
    apply Z.eqb_eq in E7'. destruct (Ht E7') as [_ Hb]. by rewrite Hb in Eb. }
  fold tags count. change BEBOP_MESSAGE_DIRECTORY_EMPTY with 0.
  assert (Hblk : kind = 7 → (byte_at mem (e - 2) =? 0) = false ∧ blocks_okb mem dir (byte_at mem (e - 2)) 0 8 = true).
  { intros ->. cbn [Z.eqb Pos.eqb andb] in *. apply orb_false_iff in E7 as [_ E7]. split; [done|].
    by apply negb_false_iff in Eblk. }
  destruct ((count =? 0) && negb (kind =? 0)) eqn:Ee1.
  { eexists; split; [done|]; right; split; [done|]. intros (_&_&_&_&Hx&_).
    apply (proj1 empty_tests); auto. }
  destruct (tiny_test mem e kind Hm Hk) as (tiny&Et&Htiny); [subst e; lia|done|intros E; by apply Hblk|].
  cbv zeta in Et. fold dir tags count in Et, Htiny. rewrite Et. cbn [mbind option_bind].
  destruct tiny; cbn [negb].
  2:{ eexists; split; [done|]; right; split; [done|]. intros (_&_&_&_&_&Hx&_). by apply Htiny in Hx. }
  assert (Hempty : count = 0 ↔ kind = 0).
  { split; [|apply empty_kind]. intros H0. rewrite H0 in Ee1. cbn in Ee1. zbool. done. }
  pose proof (tags_ok_length tags (proj1 Htiny eq_refl)) as Hlen. fold count in Hlen.
  assert (Hu : u8 count = count) by (apply u8_small; pose proof (zlen_nonneg tags); lia). rewrite Hu.
  assert (Hbs : (if count =? 0 then 0 else (count - 1) * width) = boundary_count count * width)
    by (unfold boundary_count; by destruct (count =? 0)).
  rewrite Hbs. fold bnd. rewrite candidate_eq. fold mem e c kind width dir tags count bnd.
  destruct (Z.eqb_spec count 0) as [E0|E0].
  - assert (Hk0 : kind = 0) by tauto. assert (Hds : dir_size mem e kind = 0) by (by rewrite Hk0).
    assert (Hbc : boundary_count count = 0) by (by rewrite E0).
    destruct (Z.eqb_spec (word_at mem d 4) 1) as [H1|H1]; cbn [negb].
    + eexists; split; [done|]; left; split; [done|].
      split_and!; try done; try lia; try apply Hempty; by apply Htiny.
    + eexists; split; [done|]; right; split; [done|]. intros (_&_&_&_&_&_&_&Hx). specialize (Hx E0).
      subst bnd dir e. lia.
  - destruct (Z.ltb_spec (word_at mem d 4) (boundary_count count * width + dir_size mem e kind + 1)) as [Hf|Hf].
    + eexists; split; [done|]; right; split; [done|]. intros (_&_&_&_&_&_&Hx&_). lia.
    + eexists; split; [done|]; left; split; [done|].
      split_and!; try done; try lia; try apply Hempty; try by apply Htiny.
Qed.

(** What [bebop_message_index_parse] decides. *)
Lemma parse_spec :
  ∃ r, bebop_message_index_parse PTR enc = Some r ∧
    (r = (BEBOP_RESULT_OK, Some (candidate enc)) ∧ header_ok ∧ bounds_ok (candidate enc) ∨
     r = (BEBOP_RESULT_MALFORMED, None) ∧ ¬ (header_ok ∧ bounds_ok (candidate enc))).
Proof.
  destruct view_facts as (Hd&He&Hz&Hm&Hc&Hk). destruct (control_spec c Hc) as (_&Hgood&_).
  unfold bebop_message_index_parse. rewrite Ed. cbn [is_null]. unfold BEBOP_WIRE_SIZE_LEN, malformed.
  fold mem e. destruct (Z.ltb_spec (view_length enc) (4 + 1)); [lia|].
  destruct (load_word_at mem d 4 Hm) as [E4 _]; [by right; right|lia|subst e; lia|].
  rewrite E4. cbn [mbind option_bind].
  destruct (Z.eqb_spec (word_at mem d 4) (view_length enc - 4)) as [Hbl|Hbl]; cbn [negb orb];
    [|eexists; split; [done|]; right; split; [done|]; by intros [[] _]].
  destruct (Z.eqb_spec (word_at mem d 4) 0) as [|_]; [lia|].
  unfold load_back at 1. rewrite load_byte_at by (subst e; lia). cbn [mbind option_bind]. fold c.
  destruct (negb (Z.land c 0xe0 =? 0) || (Z.land c 3 =? 3)) eqn:Ectl;
    [eexists; split; [done|]; right; split; [done|]; intros [(_&Hx&_) _]; congruence|].
  destruct (Hgood eq_refl) as [Hw _]. fold width in Hw |- *. fold (kind_of c) (width_of c). fold kind width.
  rewrite parse_directory_size_eq by (done || subst e; lia). cbn [mbind option_bind].
  destruct ((kind =? 7) && (word_at mem d 4 <? 2)) eqn:E7.
  { eexists; split; [done|]; right; split; [done|]. intros [(_&_&Hs&_) _]. apply andb_true_iff in E7 as [E7 Eb].
    apply Z.eqb_eq in E7. apply Z.ltb_lt in Eb.
    pose proof (popcount_range (byte_at mem (e - 2))). rewrite E7 in Hs.
    change (dir_size mem e 7) with (1 + 5 * bebop_wire_popcount32 (byte_at mem (e - 2))) in Hs. lia. }
  destruct (Z.ltb_spec (word_at mem d 4) (dir_size mem e kind + 1)) as [Hsz|Hsz].
  { eexists; split; [done|]; right; split; [done|]. intros [(_&_&Hs&_) _]. lia. }
  pose proof (dir_size_range mem e kind Hk) as Hdr.
  destruct (field_count_eq mem e kind Hm Hk) as [Ec _]; [subst e; lia|subst e; lia|done|].
  cbv zeta in Ec. fold dir in Ec |- *. rewrite Ec. cbn [mbind option_bind]. clear Ec.
  destruct ((kind =? 7) && negb (negb (byte_at mem (e - 2) =? 0) && blocks_okb mem dir (byte_at mem (e - 2)) 0 8)) eqn:Eblk.
  { eexists; split; [done|]; right; split; [done|]. intros [(_&_&_&Ht&_) _]. apply andb_true_iff in Eblk as [E7' Eb].
    apply Z.eqb_eq in E7'. destruct (Ht E7') as [Ht' Hb]. by rewrite Ht', Hb in Eb. }
  fold tags count. change BEBOP_MESSAGE_DIRECTORY_EMPTY with 0.
  assert (Hblk : kind = 7 → (byte_at mem (e - 2) =? 0) = false ∧ blocks_okb mem dir (byte_at mem (e - 2)) 0 8 = true).
  { intros ->. cbn [Z.eqb Pos.eqb andb] in *. apply negb_false_iff, andb_true_iff in Eblk as [E1 E2].
    by apply negb_true_iff in E1. }
  destruct ((count =? 0) && negb (kind =? 0)) eqn:Ee1.
  { eexists; split; [done|]; right; split; [done|]. intros [(_&_&_&_&Hx&_) _].
    apply (proj1 empty_tests); auto. }
  destruct (negb (count =? 0) && (kind =? 0)) eqn:Ee2.
  { eexists; split; [done|]; right; split; [done|]. intros [(_&_&_&_&Hx&_) _].
    apply (proj1 empty_tests); auto. }
  destruct (tiny_test mem e kind Hm Hk) as (tiny&Et&Htiny); [subst e; lia|done|intros E; by apply Hblk|].
  cbv zeta in Et. fold dir tags count in Et, Htiny. rewrite Et. cbn [mbind option_bind].
  destruct tiny; cbn [negb].
  2:{ eexists; split; [done|]; right; split; [done|]. intros [(_&_&_&_&_&Hx&_) _]. by apply Htiny in Hx. }
  assert (Hempty : count = 0 ↔ kind = 0).
  { split; [|apply empty_kind]. intros H0. rewrite H0 in Ee1. cbn in Ee1. zbool. done. }
  pose proof (tags_ok_length tags (proj1 Htiny eq_refl)) as Hlen. fold count in Hlen.
  assert (Hu : u8 count = count) by (apply u8_small; pose proof (zlen_nonneg tags); lia). rewrite Hu.
  fold (boundary_count count). pose proof boundary_count_range as Hbc.
  assert (Hbc' : boundary_count count ≤ 255) by (unfold boundary_count; destruct (Z.eqb_spec count 0); lia).
  destruct (Z.ltb_spec ((SIZE_MAX - dir_size mem e kind - 1) / width) (boundary_count count)) as [Hov|_].
  { exfalso. assert (255 ≤ (SIZE_MAX - dir_size mem e kind - 1) / width); [|lia].
    apply Z.div_le_lower_bound; destruct Hw as [->|[->| ->]]; unfold SIZE_MAX; lia. }
  destruct (Z.ltb_spec (word_at mem d 4) (boundary_count count * width + dir_size mem e kind + 1)) as [Hf|Hf].
  { eexists; split; [done|]; right; split; [done|]. intros [(_&_&_&_&_&_&Hx&_) _]. lia. }
  fold bnd. rewrite candidate_eq. fold mem e c kind width dir tags count bnd.
  assert (Hbw : 0 ≤ boundary_count count * width) by (destruct Hw as [->|[->| ->]]; lia).
  destruct (boundaries_valid_spec mem bnd width (bnd - (d + 4)) (Z.to_nat (boundary_count count)) 0 0 Hm Hw)
    as (ok&Ev&Hok); [subst bnd dir e; lia|done|rewrite Z2Nat.id by lia; subst bnd dir e; lia|done|].
  cbv zeta in Hok. rewrite Ev. cbn [mbind option_bind].
  assert (Hbounds : ok = true ↔ bounds_ok (mkIndex enc bnd dir count width kind)).
  { rewrite Hok. unfold bounds_ok, mi_boundary, payload_size, mi_mem, mi_data.
    cbn [mi_encoded mi_boundaries mi_directory mi_field_count mi_offset_width mi_directory_kind].
    rewrite Ed, Z2Nat.id by lia. cbn [from_option id]. unfold boundary_count.
    destruct (Z.eqb_spec count 0) as [->|].
    - split; intros _ k Hk'; lia.
    - rewrite Z.add_0_l. done. }
  destruct ok; cbn [negb].
  2:{ eexists; split; [done|]; right; split; [done|]. intros [_ Hx]. by apply Hbounds in Hx. }
  destruct (Z.eqb_spec count 0) as [E0|E0]; cbn [andb];
    [destruct (Z.eqb_spec (bnd - (d + 4)) 0) as [H0|H0]; cbn [negb]|].
  - eexists; split; [done|]; left; split; [done|]. split; [|by apply Hbounds].
    split_and!; try done; try lia; try apply Hempty; try by apply Htiny.
  - eexists; split; [done|]; right; split; [done|]. intros [(_&_&_&_&_&_&_&Hx) _]. specialize (Hx E0). lia.
  - eexists; split; [done|]; left; split; [done|]. split; [|by apply Hbounds].
    split_and!; try done; try lia; try apply Hempty; try by apply Htiny.
Qed.
End Candidate.
