(* ===== verification/MessageQuery.v ===== *)
(** Queries on a well-formed index: field lookup by tag and by rank, block masks
    and iteration, specified by the list of tags and the slices of the payload. *)
From S2P Require Import Prelude.
From S2P Require Import WireTypes.
From S2P Require Import Bits.
From S2P Require Import Reader.
From S2P Require Import MessageIndex.
From S2P Require Import MessageSpec.

(** ** Slices *)

(** Start and end of the field of rank [r], relative to the payload. *)
Definition slice_start (i : Bebop_MessageIndex) (r : Z) : Z :=
  if r =? 0 then 0 else mi_boundary i (r - 1).
Definition slice_end (i : Bebop_MessageIndex) (r : Z) : Z :=
  if r + 1 =? mi_field_count i then payload_size i else mi_boundary i r.
(** The view of the field of rank [r]. *)
Definition slice (i : Bebop_MessageIndex) (r : Z) : Bebop_View :=
  mkView (mi_mem i) (Some (mi_data i + 4 + slice_start i r)) (slice_end i r - slice_start i r).
(** The boundaries around rank [r] are in order and in the payload. *)
Definition slice_okb (i : Bebop_MessageIndex) (r : Z) : bool :=
  negb ((slice_end i r <? slice_start i r) || (payload_size i <? slice_end i r)).

(** The number of tags below [tag]: the rank of [tag] when it is present. *)
Definition rank_of (i : Bebop_MessageIndex) (tag : Z) : Z := zlen (filter (λ u, u < tag) (index_tags i)).

(** The payload of a message. *)
Definition payload (i : Bebop_MessageIndex) : list Z :=
  take (Z.to_nat (payload_size i)) (drop (Z.to_nat (mi_data i + 4)) (mi_mem i)).

Section Queries.
Context (i : Bebop_MessageIndex) (Hi : index_ok i).

Lemma ix_mem :
  0 ≤ mi_data i ∧ mi_end i ≤ zlen (mi_mem i) ∧ zlen (mi_mem i) < 2 ^ 63 ∧ bytes_ok (mi_mem i).
Proof.
  destruct (io_view i Hi) as (d&Ed&?&?&?&?&?). unfold mi_end, mi_data, mi_mem. rewrite Ed. by cbn.
Qed.

Lemma ix_count : 0 ≤ mi_field_count i ≤ 255.
Proof.
  rewrite (io_count i Hi). pose proof (tags_ok_length _ (io_tags i Hi)). zlen_pos. lia.
Qed.

Lemma ix_range :
  mi_data i + 4 ≤ mi_boundaries i ∧ mi_boundaries i ≤ mi_directory i ∧
  mi_directory i + dir_size (mi_mem i) (mi_end i) (mi_directory_kind i) + 1 = mi_end i ∧
  mi_boundaries i + boundary_count (mi_field_count i) * mi_offset_width i = mi_directory i ∧
  0 ≤ dir_size (mi_mem i) (mi_end i) (mi_directory_kind i) ≤ 161.
Proof.
  pose proof (dir_size_range (mi_mem i) (mi_end i) _ (io_kind i Hi)). pose proof ix_count.
  pose proof (io_directory i Hi). pose proof (io_boundaries i Hi). pose proof (io_fits i Hi).
  assert (0 ≤ boundary_count (mi_field_count i) * mi_offset_width i).
  { unfold boundary_count. destruct (Z.eqb_spec (mi_field_count i) 0); [lia|].
    destruct (io_width i Hi) as [->|[->| ->]]; lia. }
  split_and!; lia.
Qed.

(** *** By rank *)

Lemma load_boundary k :
  0 ≤ k < mi_field_count i - 1 →
  bebop_wire_load_le (mi_mem i) (mi_boundaries i + k * mi_offset_width i) (mi_offset_width i) = Some (mi_boundary i k) ∧
  0 ≤ mi_boundary i k.
Proof.
  intros Hk. pose proof ix_mem as (Hd&He&_&Hm). pose proof ix_range as (H1&H2&H3&H4&H5).
  pose proof (io_width i Hi) as Hw. unfold boundary_count in H4. destruct (Z.eqb_spec (mi_field_count i) 0); [lia|].
  unfold mi_boundary. destruct (load_word_at (mi_mem i) (mi_boundaries i + k * mi_offset_width i) (mi_offset_width i) Hm Hw)
    as [E Hr]; [destruct Hw as [->|[->| ->]]; lia|destruct Hw as [Hw|[Hw|Hw]]; rewrite Hw in *; lia|].
  split; [done|lia].
Qed.

Lemma payload_range : 0 ≤ payload_size i < 2 ^ 32.
Proof.
  pose proof ix_mem as (Hd&He&_&Hm). pose proof ix_range as (H1&H2&H3&H4&H5). unfold payload_size.
  split; [lia|]. pose proof (io_body i Hi) as Hb. pose proof (io_length i Hi).
  destruct (load_word_at (mi_mem i) (mi_data i) 4 Hm) as [_ Hr]; [by right; right|lia|unfold mi_end in *; lia|].
  unfold mi_end in *. lia.
Qed.

Lemma field_at_rank_spec r :
  0 ≤ r < 256 →
  bebop_message_field_at_rank i r =
  Some (if mi_field_count i <=? r then (BEBOP_RESULT_INVALID, None)
        else if slice_okb i r then (BEBOP_RESULT_OK, Some (slice i r))
        else (BEBOP_RESULT_MALFORMED, None)).
Proof.
  intros Hr. unfold bebop_message_field_at_rank. destruct (Z.leb_spec (mi_field_count i) r); [done|].
  pose proof payload_range as Hp. unfold BEBOP_WIRE_SIZE_LEN.
  assert (E1 : (if r =? 0 then Some 0 else bebop_wire_load_le (mi_mem i)
     (mi_boundaries i + (r - 1) * mi_offset_width i) (mi_offset_width i)) = Some (slice_start i r)).
  { unfold slice_start. destruct (Z.eqb_spec r 0); [done|]. apply load_boundary. lia. }
  rewrite E1. cbn [mbind option_bind]. rewrite u16_small by lia.
  assert (E2 : (if r + 1 =? mi_field_count i then Some (u32 (mi_boundaries i - (mi_data i + 4)))
     else bebop_wire_load_le (mi_mem i) (mi_boundaries i + r * mi_offset_width i) (mi_offset_width i)) = Some (slice_end i r)).
  { unfold slice_end. destruct (Z.eqb_spec (r + 1) (mi_field_count i)).
    - unfold payload_size in *. by rewrite u32_small by lia.
    - apply load_boundary. lia. }
  rewrite E2. cbn [mbind option_bind]. fold (payload_size i). unfold slice_okb, slice.
  by destruct ((slice_end i r <? slice_start i r) || (payload_size i <? slice_end i r)).
Qed.

(** With validated boundaries every rank has a slice. *)
Lemma slice_ok r : bounds_ok i → 0 ≤ r < mi_field_count i →
  slice_okb i r = true ∧ 0 ≤ slice_start i r ≤ slice_end i r ∧ slice_end i r ≤ payload_size i.
Proof.
  intros Hb Hr. pose proof payload_range as Hp. unfold bounds_ok in Hb.
  assert (H : 0 ≤ slice_start i r ≤ slice_end i r ∧ slice_end i r ≤ payload_size i).
  { unfold slice_start, slice_end.
    destruct (Z.eqb_spec r 0) as [Hr0|Hr0], (Z.eqb_spec (r + 1) (mi_field_count i)) as [He|He]; [lia|..].
    - specialize (Hb r ltac:(lia)). rewrite Hr0 in *. cbn [Z.eqb] in Hb. lia.
    - specialize (Hb (r - 1) ltac:(lia)). pose proof (load_boundary (r - 1) ltac:(lia)). lia.
    - specialize (Hb r ltac:(lia)). destruct (Z.eqb_spec r 0); [lia|].
      pose proof (load_boundary (r - 1) ltac:(lia)). lia. }
  split; [|done]. unfold slice_okb. apply negb_true_iff, orb_false_iff. split; apply Z.ltb_ge; lia.
Qed.

(** Consecutive slices touch. *)
Lemma slice_view_ok r : bounds_ok i → 0 ≤ r < mi_field_count i → view_ok (slice i r).
Proof.
  intros Hb Hr. destruct (slice_ok r Hb Hr) as (_&H1&H2). pose proof ix_mem as (Hd&He&Hm).
  pose proof ix_range as (R1&R2&R3&_&R5). unfold payload_size in H2. exists (mi_data i + 4 + slice_start i r).
  cbn. split_and!; try lia; done || apply Hm.
Qed.

Lemma slice_next r : 0 ≤ r → r + 1 < mi_field_count i → slice_end i r = slice_start i (r + 1).
Proof.
  intros Hr Hn. unfold slice_end, slice_start. destruct (Z.eqb_spec (r + 1) (mi_field_count i)); [lia|].
  destruct (Z.eqb_spec (r + 1) 0); [lia|]. f_equal. lia.
Qed.

Lemma view_bytes_slice r : bounds_ok i → 0 ≤ r < mi_field_count i →
  view_bytes (slice i r) =
  take (Z.to_nat (slice_end i r - slice_start i r)) (drop (Z.to_nat (slice_start i r)) (payload i)).
Proof.
  intros Hb Hr. destruct (slice_ok r Hb Hr) as (_&H1&H2). pose proof ix_mem as (Hd&_).
  unfold view_bytes, slice, payload. cbn [view_data view_length view_mem].
  rewrite skipn_firstn_comm, take_take, drop_drop. f_equal; [lia|]. f_equal. lia.
Qed.

(** The slices of the first [n] ranks are the beginning of the payload. *)
Lemma slices_prefix n : bounds_ok i → 0 ≤ n < mi_field_count i →
  concat (map (λ r, view_bytes (slice i r)) (seqZ 0 n)) = take (Z.to_nat (slice_start i n)) (payload i).
Proof.
  intros Hb. intros [Hn0 Hn]. revert Hn. pattern n. apply natlike_ind; [| |done].
  - intros _. unfold slice_start. cbn. by rewrite take_0.
  - intros m Hm IH Hlt. unfold Z.succ in *. rewrite seqZ_app, map_app, concat_app, IH by lia.
    change (seqZ (0 + m) 1) with [0 + m]. rewrite Z.add_0_l. cbn [map concat]. rewrite app_nil_r, view_bytes_slice by (done || lia).
    destruct (slice_ok m Hb ltac:(lia)) as (_&H1&H2). rewrite slice_next in * by lia.
    destruct (slice_ok (m + 1) Hb ltac:(lia)) as (_&H3&_).
    replace (Z.to_nat (slice_start i (m + 1))) with
      (Z.to_nat (slice_start i m) + Z.to_nat (slice_start i (m + 1) - slice_start i m))%nat by lia.
    by rewrite take_take_drop.
Qed.

Lemma slices_tile : bounds_ok i → 0 < mi_field_count i →
  concat (map (λ r, view_bytes (slice i r)) (seqZ 0 (mi_field_count i))) = payload i.
Proof.
  intros Hb Hc. set (n := mi_field_count i) in *. replace n with ((n - 1) + 1) by lia.
  rewrite seqZ_app, map_app, concat_app, slices_prefix by (done || lia).
  replace (seqZ (0 + (n - 1)) 1) with [n - 1] by (rewrite Z.add_0_l; done).
  cbn [map concat]. rewrite app_nil_r, view_bytes_slice by (done || lia).
  assert (Ee : slice_end i (n - 1) = payload_size i).
  { unfold slice_end. fold n. destruct (Z.eqb_spec (n - 1 + 1) n); [done|lia]. }
  destruct (slice_ok (n - 1) Hb ltac:(lia)) as (_&H1&H2). rewrite Ee.
  rewrite <- (take_drop (Z.to_nat (slice_start i (n - 1))) (payload i)) at 3. f_equal.
  apply take_ge. rewrite length_drop. unfold payload. rewrite length_take. lia.
Qed.

(** *** By tag *)

Lemma tiny_rank_spec mem dir n r tag :
  0 ≤ dir → 0 ≤ r → dir + r + Z.of_nat n ≤ zlen mem →
  let l := map (λ j, byte_at mem (dir + j)) (seqZ r (Z.of_nat n)) in
  StronglySorted Z.lt l →
  tiny_rank n mem dir r tag =
  Some (if bool_decide (tag ∈ l) then Some (r + zlen (filter (λ u, u < tag) l)) else None).
Proof.
  intros Hd. revert r. induction n as [|n IH]; intros r Hr Hl; cbn zeta; cbn [tiny_rank].
  { intros _. by rewrite bool_decide_false by apply not_elem_of_nil. }
  rewrite seqZ_S. cbn [map]. intros Hs. apply StronglySorted_inv in Hs as [Hs Hf].
  rewrite load_byte_at by lia. cbn [mbind option_bind]. rewrite Forall_forall in Hf.
  destruct (Z.eqb_spec (byte_at mem (dir + r)) tag) as [<-|Hne].
  - rewrite bool_decide_true by by left. rewrite filter_none; [do 2 f_equal; rewrite zlen_nil; lia|].
    intros x [->|Hx]%elem_of_cons; [lia|]. specialize (Hf x Hx). lia.
  - destruct (Z.ltb_spec tag (byte_at mem (dir + r))) as [Hlt|Hge].
    + rewrite bool_decide_false; [done|]. intros [->|Hx]%elem_of_cons; [lia|]. specialize (Hf tag Hx). lia.
    + rewrite (IH (r + 1)) by (done || lia). cbn zeta. rewrite filter_cons_True, zlen_cons by lia.
      rewrite (bool_decide_ext (tag ∈ byte_at mem (dir + r) :: _)
                 (tag ∈ map (λ j, byte_at mem (dir + j)) (seqZ (r + 1) (Z.of_nat n)))).
      * destruct (bool_decide _); [|done]. do 2 f_equal. lia.
      * rewrite elem_of_cons. intuition congruence.
Qed.

Lemma mask_kind_facts kind : 0 ≤ kind ≤ 7 → is_mask kind = true →
  width_ok (mask_width kind) ∧ u8 (mask_width kind) = mask_width kind ∧
  is_tiny kind = false ∧ (kind =? 0) = false ∧ (kind =? 7) = false.
Proof. intros Hk Hm. kinds Hk; try done; unfold width_ok; split_and!; try done; vm_compute; auto. Qed.

(** The tags and the directory of an index, by kind. *)
Lemma tags_tiny : is_tiny (mi_directory_kind i) = true →
  index_tags i = map (λ j, byte_at (mi_mem i) (mi_directory i + j)) (seqZ 0 (mi_directory_kind i)) ∧
  mi_field_count i = mi_directory_kind i ∧ 1 ≤ mi_directory_kind i ≤ 3 ∧
  dir_size (mi_mem i) (mi_end i) (mi_directory_kind i) = mi_directory_kind i.
Proof.
  intros Ht. pose proof (io_count i Hi) as Hc. unfold index_tags, dir_tags, dir_size in *. rewrite Ht in *.
  pose proof (io_kind i Hi) as Hk. unfold is_tiny, BEBOP_MESSAGE_DIRECTORY_TINY1, BEBOP_MESSAGE_DIRECTORY_TINY3 in Ht.
  zbool. change BEBOP_MESSAGE_DIRECTORY_EMPTY with 0 in *.
  destruct (Z.eqb_spec (mi_directory_kind i) 0); [lia|]. split_and!; try done.
  rewrite Hc, zlen_map. unfold zlen. rewrite length_seqZ. lia.
Qed.

Lemma tags_mask : is_mask (mi_directory_kind i) = true →
  index_tags i = tags_of_mask 0 (word_at (mi_mem i) (mi_directory i) (mask_width (mi_directory_kind i))) ∧
  bebop_wire_load_le (mi_mem i) (mi_directory i) (mask_width (mi_directory_kind i)) =
    Some (word_at (mi_mem i) (mi_directory i) (mask_width (mi_directory_kind i))) ∧
  0 ≤ word_at (mi_mem i) (mi_directory i) (mask_width (mi_directory_kind i)) < 2 ^ (8 * mask_width (mi_directory_kind i)).
Proof.
  intros Hm. destruct (mask_kind_facts _ (io_kind i Hi) Hm) as (Hw&_&Et&E0&E7).
  pose proof ix_mem as (Hd&He&_&Hb). pose proof ix_range as (H1&H2&H3&_).
  unfold index_tags, dir_tags, dir_size in *. change BEBOP_MESSAGE_DIRECTORY_EMPTY with 0 in *.
  rewrite E0, Et, Hm in *. split; [done|].
  apply load_word_at; try done; [lia|destruct Hw as [Hw|[Hw|Hw]]; rewrite Hw in *; lia].
Qed.

Lemma kind_blocks : is_tiny (mi_directory_kind i) = false → is_mask (mi_directory_kind i) = false →
  mi_field_count i ≠ 0 → mi_directory_kind i = 7.
Proof.
  intros Ht Hm Hc. pose proof (io_empty i Hi) as He. change BEBOP_MESSAGE_DIRECTORY_EMPTY with 0 in He.
  pose proof (io_kind i Hi) as Hk. assert (Hne : mi_directory_kind i ≠ 0) by tauto.
  clear He. kinds Hk; done.
Qed.

Lemma tags_blocks : mi_directory_kind i = 7 →
  index_tags i = tags_of_blocks (mi_mem i) (mi_directory i) (mi_top i) 0 8 ∧
  0 ≤ mi_directory i ∧ 0 ≤ mi_top i < 256 ∧
  mi_directory i + 5 * bebop_wire_popcount32 (mi_top i) ≤ zlen (mi_mem i) ∧
  load (mi_mem i) (mi_data i + view_length (mi_encoded i) - 2) = Some (mi_top i) ∧
  ∀ b, 0 ≤ b < 8 → block_ok (mi_mem i) (mi_directory i) (mi_top i) b.
Proof.
  intros Hk. pose proof ix_mem as (Hd&He&_&Hb). pose proof ix_range as (H1&H2&H3&_).
  pose proof (byte_at_ok (mi_mem i) (mi_end i - 2) Hb) as Ht. unfold byte_ok in Ht.
  destruct (io_blocks i Hi Hk) as [Hne Hblk]. pose proof (popcount_range (mi_top i)).
  unfold index_tags. rewrite Hk in *.
  change (dir_size (mi_mem i) (mi_end i) 7) with (1 + 5 * bebop_wire_popcount32 (mi_top i)) in H3.
  split_and!; try done; try lia.
  - apply Ht.
  - apply Ht.
  - fold (mi_end i). unfold mi_top. apply load_byte_at. pose proof (io_length i Hi). unfold mi_end in *. lia.
Qed.

(** The rank of a tag of block [b]: the tags of earlier blocks, and the smaller
    tags of its own block. *)
Lemma rank_blocks b tag : mi_directory_kind i = 7 → 0 ≤ b < 8 → 32 * b + 1 ≤ tag ≤ 32 * b + 32 →
  rank_of i tag = zlen (tags_of_blocks (mi_mem i) (mi_directory i) (mi_top i) 0 b) +
    zlen (filter (λ u, u < tag) (tags_of_mask (32 * b) (mask_of_block (mi_mem i) (mi_directory i) (mi_top i) b))).
Proof.
  intros Hk Hb Ht. destruct (tags_blocks Hk) as (Et&_). unfold rank_of. rewrite Et.
  replace 8 with (b + (1 + (7 - b))) by lia. rewrite tags_of_blocks_app, tags_of_blocks_app, tags_of_blocks_one by lia.
  rewrite !filter_app, !zlen_app, Z.add_0_l.
  rewrite (filter_all _ (tags_of_blocks _ _ _ 0 b)).
  - rewrite (filter_none _ (tags_of_blocks _ _ _ (b + 1) _)); [change (zlen (@nil Z)) with 0; lia|].
    intros u (c&Hc&Hu)%elem_of_tags_of_blocks. apply elem_of_tags_of_mask in Hu as [_ Hu]. lia.
  - intros u (c&Hc&Hu)%elem_of_tags_of_blocks. apply elem_of_tags_of_mask in Hu as [_ Hu]. lia.
Qed.

Lemma elem_of_blocks b tag : mi_directory_kind i = 7 → 0 ≤ b < 8 → 32 * b + 1 ≤ tag ≤ 32 * b + 32 →
  tag ∈ index_tags i ↔
  Z.testbit (mask_of_block (mi_mem i) (mi_directory i) (mi_top i) b) (tag - 32 * b - 1) = true.
Proof.
  intros Hk Hb Ht. destruct (tags_blocks Hk) as (Et&_). rewrite Et, elem_of_tags_of_blocks. split.
  - intros (c&Hc&Hu). pose proof Hu as Hu'. apply elem_of_tags_of_mask in Hu as [Hu Hr].
    assert (c = b) as -> by lia. done.
  - intros Hbit. exists b. split; [lia|]. apply elem_of_tags_of_mask. split; [done|lia].
Qed.

Lemma field_rank_spec tag :
  1 ≤ tag ≤ 255 → mi_field_count i ≠ 0 →
  field_rank i tag = Some (Go (if bool_decide (tag ∈ index_tags i) then Some (rank_of i tag) else None)).
Proof.
  intros Ht Hc. unfold field_rank, rank_of.
  destruct (is_tiny (mi_directory_kind i)) eqn:Et; [|destruct (is_mask (mi_directory_kind i)) eqn:Em].
  - destruct (tags_tiny Et) as (E&Ec&Hk&Es). pose proof ix_mem as (_&He&_&_). pose proof ix_range as (H1&H2&H3&_).
    pose proof (proj1 (io_tags i Hi)) as Hs. rewrite E in Hs |- *. rewrite Ec. pose proof ix_mem as (Hd&_).
    replace (seqZ 0 (mi_directory_kind i)) with (seqZ 0 (Z.of_nat (Z.to_nat (mi_directory_kind i)))) in * by (f_equal; lia).
    by rewrite (tiny_rank_spec _ _ _ 0) by (done || lia).
  - destruct (mask_kind_facts _ (io_kind i Hi) Em) as (Hw&Eu&_&_&_). destruct (tags_mask Em) as (E&El&Hr).
    fold (mask_width (mi_directory_kind i)). rewrite Eu, E. set (mask := word_at _ _ _) in *.
    destruct (Z.ltb_spec (mask_width (mi_directory_kind i) * 8) tag) as [Hlt|Hge].
    + rewrite bool_decide_false; [done|]. intros [Hb _]%elem_of_tags_of_mask.
      rewrite <- (Z.mod_small mask (2 ^ (8 * mask_width (mi_directory_kind i)))) in Hb by done.
      rewrite Z.mod_pow2_bits_high in Hb; [done|]. destruct Hw as [Hw|[Hw|Hw]]; rewrite Hw in *; lia.
    + rewrite El. cbn [mbind option_bind]. rewrite land_bit by lia.
      assert (H32 : tag ≤ 32) by (destruct Hw as [Hw|[Hw|Hw]]; rewrite Hw in *; lia).
      rewrite Z.shiftl_1_l. pose proof (popcount_below 0 mask tag ltac:(lia)) as Hp. rewrite Z.sub_0_r in Hp. rewrite Hp.
      rewrite (bool_decide_ext _ (Z.testbit mask (tag - 1) = true)).
      * destruct (Z.testbit mask (tag - 1)); done.
      * rewrite elem_of_tags_of_mask, Z.sub_0_r. split; [tauto|]. intros; split; [done|lia].
  - pose proof (kind_blocks Et Em Hc) as Hk. destruct (tags_blocks Hk) as (_&Hd&Htop&Hfit&El&Hblk).
    rewrite Hk. change (7 =? BEBOP_MESSAGE_DIRECTORY_BLOCKS) with true. cbn iota. rewrite El. cbn [mbind option_bind].
    set (b := Z.shiftr (tag - 1) 5). pose proof ix_mem as (_&_&_&Hm).
    assert (Hb : 0 ≤ b < 8 ∧ Z.land (tag - 1) 31 = tag - 32 * b - 1 ∧ 32 * b + 1 ≤ tag ≤ 32 * b + 32).
    { subst b. rewrite Z.shiftr_div_pow2 by lia. change 31 with (Z.ones 5). rewrite Z.land_ones by lia.
      change (2 ^ 5) with 32. dlia. }
    destruct Hb as (Hb&Eb&Htb). rewrite land_block_bit by lia.
    rewrite (bool_decide_ext _ _ (elem_of_blocks b tag Hk Hb Htb)). fold (rank_of i tag). rewrite (rank_blocks b tag Hk Hb Htb).
    destruct (Z.testbit (mi_top i) b) eqn:Ebit; cbn [negb].
    2:{ rewrite bool_decide_false; [done|]. unfold mask_of_block. rewrite Ebit, Z.bits_0. done. }
    assert (E2b : u8 (Z.shiftl 1 b) - 1 = 2 ^ b - 1).
    { rewrite Z.shiftl_1_l, u8_small; [done|]. split; [lia|]. apply Z.pow_lt_mono_r; lia. }
    rewrite E2b. fold (entries_before (mi_top i) b).
    destruct (load_entry _ _ _ Hm Hd Htop Hfit b Hb Ebit) as (L1&L2&_). rewrite L2. cbn [mbind option_bind].
    rewrite Eb, land_bit by lia.
    destruct (Z.testbit (mask_of_block (mi_mem i) (mi_directory i) (mi_top i) b) (tag - 32 * b - 1)) eqn:Etag; cbn [negb];
      [|by rewrite bool_decide_false].
    rewrite bool_decide_true by done. rewrite L1. cbn [mbind option_bind]. rewrite Z.shiftl_1_l.
    rewrite popcount_below by lia. destruct (Hblk b Hb Ebit) as (Er&_). by rewrite Er.
Qed.

Lemma rank_of_range tag : tag ∈ index_tags i → 0 ≤ rank_of i tag < mi_field_count i ∧
  index_tags i !! Z.to_nat (rank_of i tag) = Some tag.
Proof.
  intros Ht. pose proof (sorted_rank _ _ (proj1 (io_tags i Hi)) Ht) as Hl. unfold rank_of.
  assert (E : Z.to_nat (zlen (filter (λ u, u < tag) (index_tags i))) = length (filter (λ u, u < tag) (index_tags i)))
    by (unfold zlen; lia).
  rewrite E. split; [|done]. apply lookup_lt_Some in Hl. rewrite (io_count i Hi). unfold zlen in *. lia.
Qed.

Lemma index_field_spec tag :
  0 ≤ tag ≤ 255 →
  bebop_message_index_field (Some i) tag PTR PTR =
  Some (if bool_decide (tag ∈ index_tags i)
        then if slice_okb i (rank_of i tag) then (BEBOP_RESULT_OK, Some (slice i (rank_of i tag), true))
             else (BEBOP_RESULT_MALFORMED, Some (null_view, false))
        else (BEBOP_RESULT_OK, Some (null_view, false))).
Proof.
  intros Ht. unfold bebop_message_index_field. cbn [is_null orb].
  destruct (Z.eqb_spec tag 0) as [->|Hne]; cbn [orb].
  { rewrite bool_decide_false; [done|]. intros Hin. pose proof (proj2 (io_tags i Hi)) as Hf.
    rewrite Forall_forall in Hf. specialize (Hf 0 Hin). lia. }
  destruct (Z.eqb_spec (mi_field_count i) 0) as [E0|E0].
  { rewrite bool_decide_false; [done|]. rewrite (io_count i Hi) in E0. intros Hin.
    destruct (index_tags i); [by apply not_elem_of_nil in Hin|]. zlia. }
  rewrite field_rank_spec by (done || lia). cbn [mbind option_bind].
  destruct (bool_decide_reflect (tag ∈ index_tags i)) as [Hin|]; [|done].
  destruct (rank_of_range tag Hin) as [Hr _]. pose proof ix_count.
  rewrite u8_small, field_at_rank_spec by lia. destruct (Z.leb_spec (mi_field_count i) (rank_of i tag)); [lia|].
  by destruct (slice_okb i (rank_of i tag)).
Qed.

Lemma rank_of_lookup tag r : index_tags i !! Z.to_nat r = Some tag → 0 ≤ r → rank_of i tag = r.
Proof.
  intros Hr Hr0. destruct (rank_of_range tag (list_elem_of_lookup_2 _ _ _ Hr)) as [Hrk Hlook].
  pose proof (sorted_lookup_inj _ _ _ _ (proj1 (io_tags i Hi)) Hr Hlook). lia.
Qed.

(** With validated boundaries a present tag is found. *)
Lemma index_field_present tag r :
  bounds_ok i → index_tags i !! Z.to_nat r = Some tag → 0 ≤ r → 0 ≤ tag ≤ 255 →
  bebop_message_index_field (Some i) tag PTR PTR = Some (BEBOP_RESULT_OK, Some (slice i r, true)).
Proof.
  intros Hb Hr Hr0 Ht. pose proof (list_elem_of_lookup_2 _ _ _ Hr) as Hin.
  rewrite (index_field_spec tag Ht), bool_decide_true, (rank_of_lookup tag r) by done.
  destruct (rank_of_range tag Hin) as [Hrk _]. rewrite (rank_of_lookup tag r) in Hrk by done.
  by destruct (slice_ok r Hb Hrk) as [-> _].
Qed.

(** *** Block masks *)

Lemma load_masks_spec n b : mi_directory_kind i = 7 → b + Z.of_nat n = 8 → 0 ≤ b →
  load_masks n (mi_mem i) (mi_top i) b (mi_directory i + 5 * entries_before (mi_top i) b) =
  Some (map (mask_of_block (mi_mem i) (mi_directory i) (mi_top i)) (seqZ b (Z.of_nat n))).
Proof.
  intros Hk. destruct (tags_blocks Hk) as (_&Hd&Htop&Hfit&_). pose proof ix_mem as (_&_&_&Hm).
  revert b. induction n as [|n IH]; intros b Hn Hb; cbn [load_masks]; [done|].
  rewrite seqZ_S, land_block_bit by lia. cbn [map]. specialize (IH (b + 1) ltac:(lia) ltac:(lia)).
  destruct (Z.testbit (mi_top i) b) eqn:Eb; cbn [negb].
  - destruct (load_entry _ _ _ Hm Hd Htop Hfit b ltac:(lia) Eb) as (_&L2&_). rewrite L2. cbn [mbind option_bind].
    rewrite (entries_step _ _ b) by (done || lia). by rewrite IH.
  - rewrite entries_before_succ, Eb, Z.add_0_r in IH by lia. rewrite IH. cbn [mbind option_bind].
    unfold mask_of_block at 2. by rewrite Eb.
Qed.
End Queries.

(** ** Iteration *)

(** The loop of a client: all the fields the iterator yields, until it says that
    there is none left; [None] when a call is undefined or fails. *)
Fixpoint collect (fuel : nat) (it : Bebop_MessageFieldIterator) : option (list (Z * Bebop_View)) :=
  match fuel with
  | O => None
  | S fuel =>
      '(result, found, it) ← bebop_message_field_iterator_next it;
      match result, found with
      | BEBOP_RESULT_OK, None => Some []
      | BEBOP_RESULT_OK, Some f => fs ← collect fuel it; Some (f :: fs)
      | _, _ => None
      end
  end.

Section Iteration.
Context (i : Bebop_MessageIndex) (Hi : index_ok i).

(** The tags still to come. *)
Definition it_rest (it : Bebop_MessageFieldIterator) : list Z :=
  if is_tiny (mi_directory_kind i) then drop (Z.to_nat (it_rank it)) (index_tags i)
  else if is_mask (mi_directory_kind i) then tags_of_mask 0 (it_pending_tags it)
  else if mi_directory_kind i =? 7 then
    tags_of_mask (it_tag_base it) (it_pending_tags it) ++
    tags_of_blocks (mi_mem i) (mi_directory i) (mi_top i) (it_block it) (8 - it_block it)
  else [].

Record iter_ok (it : Bebop_MessageFieldIterator) : Prop := {
  iu_index : it_index it = Some i;
  iu_rank : 0 ≤ it_rank it ≤ mi_field_count i;
  iu_rest : it_rest it = drop (Z.to_nat (it_rank it)) (index_tags i);
  iu_pending : 0 ≤ it_pending_tags it < 2 ^ 32;
  iu_block : mi_directory_kind i = 7 → 0 ≤ it_block it ≤ 8 ∧ 0 ≤ it_tag_base it ≤ 224 ∧
    it_block_entry it = mi_directory i + 5 * entries_before (mi_top i) (it_block it)
}.

Lemma zlen_tags : zlen (index_tags i) = mi_field_count i.
Proof. by rewrite (io_count i Hi). Qed.

(** No tags are left exactly when the rank has reached the field count. *)
Lemma rest_nil it : iter_ok it → it_rank it = mi_field_count i ↔ it_rest it = [].
Proof.
  intros []. rewrite iu_rest0. pose proof zlen_tags as Hz. unfold zlen in Hz. split; intros H.
  - apply drop_ge. lia.
  - assert (Hl : length (drop (Z.to_nat (it_rank it)) (index_tags i)) = 0%nat) by by rewrite H.
    rewrite length_drop in Hl. lia.
Qed.

Lemma rest_cons_range it t l : iter_ok it → it_rest it = t :: l →
  1 ≤ t ≤ 255 ∧ it_rank it < mi_field_count i ∧ l = drop (Z.to_nat (it_rank it + 1)) (index_tags i) ∧
  index_tags i !! Z.to_nat (it_rank it) = Some t.
Proof.
  intros Hit E. pose proof (rest_nil it Hit) as Hnil. destruct Hit. rewrite iu_rest0 in E.
  assert (Hlt : it_rank it < mi_field_count i).
  { destruct (Z.eq_dec (it_rank it) (mi_field_count i)) as [He|]; [|lia].
    apply Hnil in He. rewrite iu_rest0, E in He. done. }
  assert (Hl : index_tags i !! Z.to_nat (it_rank it) = Some t).
  { pose proof (lookup_drop (index_tags i) (Z.to_nat (it_rank it)) 0) as H0. rewrite E in H0. cbn in H0.
    by rewrite Nat.add_0_r in H0. }
  split_and!; try done.
  - pose proof (proj2 (io_tags i Hi)) as Hf. apply (Forall_lookup_1 _ _ _ _ Hf Hl).
  - pose proof (proj2 (io_tags i Hi)) as Hf. apply (Forall_lookup_1 _ _ _ _ Hf Hl).
  - rewrite (drop_S _ _ _ Hl) in E. injection E as <-. f_equal. lia.
Qed.

Lemma land_u32_lt a b : 0 ≤ a < 2 ^ 32 → Z.land a b < 2 ^ 32.
Proof.
  intros Ha. rewrite <- (Z.mod_small a (2 ^ 32)), <- Z.land_ones, <- Z.land_assoc, (Z.land_comm _ b), Z.land_assoc, Z.land_ones by lia.
  by apply Z.mod_pos_bound.
Qed.

(** Taking the lowest pending tag. *)
Lemma take_pending_spec it base t l :
  0 ≤ it_pending_tags it < 2 ^ 32 → tags_of_mask base (it_pending_tags it) = t :: l → 0 ≤ t < 256 →
  ∃ p, take_pending it base = Some (t, set_pending p it) ∧ 0 ≤ p < 2 ^ 32 ∧ tags_of_mask base p = l.
Proof.
  intros Hp Et Ht. unfold tags_of_mask in Et. destruct (bits 32 (it_pending_tags it)) as [|c bs] eqn:Eb; [done|].
  cbn in Et. injection Et as Et El. exists (Z.land (it_pending_tags it) (u32 (it_pending_tags it - 1))).
  assert (Hne : it_pending_tags it ≠ 0) by (intros E0; rewrite E0 in Eb; by rewrite bits_0 in Eb).
  split_and!.
  - unfold take_pending, bebop_wire_ctz32. rewrite Eb. cbn [head mbind option_bind]. by rewrite Et, u8_small.
  - apply Z.land_nonneg. lia.
  - by apply land_u32_lt.
  - rewrite u32_small by lia. unfold tags_of_mask. by rewrite (bits_clear_lowest _ _ _ _ Eb).
Qed.

Lemma next_block_spec n b : b + Z.of_nat n = 8 → 0 ≤ b →
  let c := next_block n (mi_top i) b in
  b ≤ c ≤ 8 ∧ (c < 8 → Z.testbit (mi_top i) c = true) ∧
  entries_before (mi_top i) c = entries_before (mi_top i) b ∧
  tags_of_blocks (mi_mem i) (mi_directory i) (mi_top i) b (8 - b) =
  tags_of_blocks (mi_mem i) (mi_directory i) (mi_top i) c (8 - c).
Proof.
  revert b. induction n as [|n IH]; intros b Hn Hb; cbn zeta; cbn [next_block].
  - split_and!; auto; lia.
  - destruct (Z.ltb_spec b 8); [|lia]. cbn [andb]. rewrite land_block_bit by lia.
    destruct (Z.testbit (mi_top i) b) eqn:Eb; cbn [negb].
    + split_and!; auto; lia.
    + destruct (IH (b + 1) ltac:(lia) ltac:(lia)) as (H1&H2&H3&H4). split_and!; [lia|lia|done| |].
      * rewrite H3, entries_before_succ, Eb by lia. lia.
      * rewrite <- H4. replace (8 - b) with (1 + (8 - (b + 1))) by lia.
        by rewrite tags_of_blocks_app, tags_of_blocks_one, tags_of_empty_block by (done || lia).
Qed.

(** More fuel does not change where the search ends. *)
Lemma next_block_fuel n b : b + Z.of_nat n = 8 → 0 ≤ b → ∀ m, next_block (n + m) (mi_top i) b = next_block n (mi_top i) b.
Proof.
  revert b. induction n as [|n IH]; intros b Hn Hb m.
  - replace b with 8 by lia. by destruct m.
  - cbn [Nat.add next_block]. destruct (_ && _); [|done]. apply IH; lia.
Qed.

Lemma next_block_8 b : 0 ≤ b ≤ 8 → next_block 8 (mi_top i) b = next_block (Z.to_nat (8 - b)) (mi_top i) b.
Proof.
  intros Hb. replace 8%nat with (Z.to_nat (8 - b) + Z.to_nat b)%nat at 1 by lia.
  apply next_block_fuel; lia.
Qed.

Lemma it_rest_blocks it : mi_directory_kind i = 7 →
  it_rest it = tags_of_mask (it_tag_base it) (it_pending_tags it) ++
    tags_of_blocks (mi_mem i) (mi_directory i) (mi_top i) (it_block it) (8 - it_block it).
Proof. intros Hk. unfold it_rest. rewrite Hk. reflexivity. Qed.

Lemma refill_S n j it : refill (S n) j it =
  if it_pending_tags it =? 0 then
    top_mask ← load (mi_mem j) (mi_data j + view_length (mi_encoded j) - 2);
    let block := next_block 8 top_mask (it_block it) in
    if block =? 8 then Some (false, set_block block it)
    else
      mask ← bebop_wire_load_le (mi_mem j) (it_block_entry it + 1) 4;
      refill n j (mkIterator (it_index it) (it_block_entry it + 5) mask (it_rank it)
                             (u8 (block + 1)) (u8 (block * 32)))
  else Some (true, it).
Proof. reflexivity. Qed.

(** After refilling, the pending mask holds the next tag. *)
Lemma refill_spec it t l : iter_ok it → mi_directory_kind i = 7 → it_rest it = t :: l →
  ∃ it' l1, refill 9 i it = Some (true, it') ∧ iter_ok it' ∧ it_rank it' = it_rank it ∧
    tags_of_mask (it_tag_base it') (it_pending_tags it') = t :: l1 ∧
    l = l1 ++ tags_of_blocks (mi_mem i) (mi_directory i) (mi_top i) (it_block it') (8 - it_block it').
Proof.
  intros Hit Hk Er. pose proof Hit as []. destruct (iu_block0 Hk) as (Hb&Htb&He).
  destruct (tags_blocks i Hi Hk) as (_&Hd&Htop&Hfit&Hload&Hblk). pose proof (ix_mem i Hi) as (_&_&_&Hm).
  pose proof (fun it => it_rest_blocks it Hk) as Erest.
  rewrite Erest in Er. rewrite refill_S. destruct (Z.eqb_spec (it_pending_tags it) 0) as [E0|Hne].
  - rewrite Hload. cbn [mbind option_bind]. rewrite next_block_8 by lia.
    destruct (next_block_spec (Z.to_nat (8 - it_block it)) (it_block it)) as (Hc1&Hc2&Hc3&Hc4); [lia|lia|].
    set (c := next_block _ _ _) in *. rewrite E0, Hc4 in Er. change (tags_of_mask _ 0) with (@nil Z) in Er. cbn [app] in Er.
    destruct (Z.eqb_spec c 8) as [E8|Hc8]; [by rewrite E8 in Er|].
    specialize (Hc2 ltac:(lia)). rewrite He, <- Hc3.
    destruct (load_entry _ _ _ Hm Hd Htop Hfit c ltac:(lia) Hc2) as (_&L2&Hmr). rewrite L2. cbn [mbind option_bind]. rewrite refill_S. cbn [it_pending_tags].
    destruct (Hblk c ltac:(lia) Hc2) as (_&Hmne&_).
    destruct (Z.eqb_spec (mask_of_block (mi_mem i) (mi_directory i) (mi_top i) c) 0) as [|_]; [done|].
    rewrite !u8_small, (Z.mul_comm c) by lia. replace (8 - c) with (1 + (8 - (c + 1))) in Er by lia.
    rewrite tags_of_blocks_app, tags_of_blocks_one in Er by lia.
    destruct (tags_of_mask (32 * c) (mask_of_block (mi_mem i) (mi_directory i) (mi_top i) c)) as [|t' l1] eqn:Em.
    { apply map_eq_nil in Em. by apply bits_nil_inv in Em; [|lia|done]. }
    cbn in Er. injection Er as -> <-. eexists _, l1. split; [done|]. split_and!; try done. constructor; try done.
    + cbn [it_rank]. rewrite <- iu_rest0, !Erest. cbn [it_tag_base it_pending_tags it_block]. rewrite E0, Hc4.
      change (tags_of_mask _ 0) with (@nil Z). cbn [app].
      replace (8 - c) with (1 + (8 - (c + 1))) by lia. by rewrite tags_of_blocks_app, tags_of_blocks_one by lia.
    + intros _. cbn. split_and!; try lia. rewrite entries_before_succ, Hc2 by lia. lia.
  - destruct (tags_of_mask (it_tag_base it) (it_pending_tags it)) as [|t' l1] eqn:Em.
    { apply map_eq_nil in Em. by apply bits_nil_inv in Em; [|lia|done]. }
    cbn in Er. injection Er as -> <-. by exists it, l1.
Qed.

Lemma next_tag_spec it : iter_ok it →
  match it_rest it with
  | [] => bebop_message_field_iterator_next_tag it = Some (BEBOP_RESULT_OK, None, it)
  | t :: l => ∃ it', bebop_message_field_iterator_next_tag it = Some (BEBOP_RESULT_OK, Some t, it') ∧
                iter_ok it' ∧ it_rest it' = l ∧ it_rank it' = it_rank it + 1
  end.
Proof.
  intros Hit. pose proof (rest_nil it Hit) as Hnil. pose proof (ix_count i Hi) as Hc.
  unfold bebop_message_field_iterator_next_tag. rewrite (iu_index it Hit).
  destruct (it_rest it) as [|t l] eqn:Er.
  { rewrite (proj2 Hnil eq_refl), Z.eqb_refl. done. }
  destruct (rest_cons_range it t l Hit Er) as (Ht&Hr&El&Hlook). pose proof (iu_rank it Hit) as Hrk.
  destruct (Z.eqb_spec (it_rank it) (mi_field_count i)); [lia|].
  destruct (is_tiny (mi_directory_kind i)) eqn:Et; [|destruct (is_mask (mi_directory_kind i)) eqn:Em].
  - destruct (tags_tiny i Hi Et) as (E&Ec&Hk&Es). pose proof (ix_mem i Hi) as (Hd&He&_&_).
    pose proof (ix_range i Hi) as (H1&H2&H3&_).
    rewrite load_byte_at by lia. cbn [mbind option_bind]. rewrite u8_small by lia.
    assert (Ht' : byte_at (mi_mem i) (mi_directory i + it_rank it) = t).
    { rewrite E in Hlook. rewrite list_lookup_fmap in Hlook. rewrite lookup_seqZ_lt in Hlook by lia.
      cbn in Hlook. injection Hlook as <-. do 2 f_equal. lia. }
    rewrite Ht'. eexists. split; [done|].
    assert (Er' : it_rest (set_rank (it_rank it + 1) it) = l) by (unfold it_rest; rewrite Et; by rewrite El).
    split_and!; try done. destruct Hit. constructor; cbn; auto; [lia|by rewrite Er'].
  - assert (Er' : tags_of_mask 0 (it_pending_tags it) = t :: l) by (rewrite <- Er; unfold it_rest; by rewrite Et, Em).
    destruct (take_pending_spec it 0 t l (iu_pending it Hit) Er' ltac:(lia)) as (p&E&Hp&Hl).
    rewrite E. cbn [mbind option_bind]. cbn [set_pending it_rank]. rewrite u8_small by lia. eexists. split; [done|].
    assert (Er2 : it_rest (set_rank (it_rank it + 1) (set_pending p it)) = l) by (unfold it_rest; by rewrite Et, Em).
    split_and!; try done. destruct Hit. constructor; cbn; auto; [lia|by rewrite Er2].
  - pose proof (kind_blocks i Hi Et Em ltac:(lia)) as Hk. rewrite Hk.
    change (7 =? BEBOP_MESSAGE_DIRECTORY_BLOCKS) with true. cbn iota.
    destruct (refill_spec it t l Hit Hk Er) as (it1&l1&E1&Hit1&Er1&Em1&El1).
    rewrite E1. cbn [mbind option_bind].
    destruct (take_pending_spec it1 (it_tag_base it1) t l1 (iu_pending it1 Hit1) Em1 ltac:(lia)) as (p&E2&Hp&Hl1).
    rewrite E2. cbn [mbind option_bind]. cbn [set_pending it_rank]. rewrite Er1, u8_small by lia. eexists. split; [done|].
    assert (Er2 : it_rest (set_rank (it_rank it + 1) (set_pending p it1)) = l)
      by (unfold it_rest; rewrite Et, Em, Hk; cbn; by rewrite Hl1, El1).
    split_and!; try done. destruct Hit1. constructor; cbn; auto; [lia|by rewrite Er2].
Qed.

Lemma iterator_init_spec :
  ∃ it, bebop_message_field_iterator_init (Some i) = Some it ∧ iter_ok it ∧ it_rank it = 0.
Proof.
  pose proof (ix_count i Hi) as Hc. unfold bebop_message_field_iterator_init.
  destruct (is_mask (mi_directory_kind i)) eqn:Em.
  - destruct (mask_kind_facts _ (io_kind i Hi) Em) as (Hw&Eu&Et&_&E7). destruct (tags_mask i Hi Em) as (E&El&Hr).
    fold (mask_width (mi_directory_kind i)). rewrite Eu, El. cbn [mbind option_bind].
    eexists. split; [done|]. split; [|done]. constructor; cbn; auto; try lia.
    + unfold it_rest. by rewrite Et, Em, E.
    + split; [lia|]. destruct Hw as [Hw|[Hw|Hw]]; rewrite Hw in *; lia.
  - eexists. split; [done|]. split; [|done]. constructor; cbn; auto; try lia.
    + rewrite drop_0. unfold it_rest. rewrite Em. destruct (is_tiny (mi_directory_kind i)) eqn:Et; [by rewrite drop_0|].
      destruct (Z.eqb_spec (mi_directory_kind i) 7) as [Hk|Hk].
      * destruct (tags_blocks i Hi Hk) as (E&_). by rewrite E.
      * destruct (Z.eq_dec (mi_field_count i) 0) as [H0|Hne]; [|by rewrite (kind_blocks i Hi Et Em Hne) in Hk].
        pose proof zlen_tags as Hz. rewrite H0 in Hz. destruct (index_tags i); [done|zlia].
    + intros _. split_and!; try lia. rewrite entries_before_0. lia.
Qed.

(** The fields of an index in order: each tag with its slice. *)
Definition index_fields (r : Z) : list (Z * Bebop_View) :=
  zip (drop (Z.to_nat r) (index_tags i)) (map (slice i) (seqZ r (mi_field_count i - r))).

Lemma collect_spec fuel it :
  bounds_ok i → iter_ok it → mi_field_count i - it_rank it < Z.of_nat fuel →
  collect fuel it = Some (index_fields (it_rank it)).
Proof.
  intros Hb. pose proof (ix_count i Hi) as Hc. revert it. induction fuel as [|fuel IH]; intros it Hit Hf.
  { pose proof (iu_rank it Hit). lia. }
  cbn [collect]. unfold bebop_message_field_iterator_next. pose proof (next_tag_spec it Hit) as Hn.
  destruct (it_rest it) as [|t l] eqn:Er.
  - rewrite Hn. cbn [mbind option_bind is_ok]. unfold index_fields. by rewrite <- (iu_rest it Hit), Er.
  - destruct Hn as (it'&E&Hit'&Er'&Hrk). rewrite E. cbn [mbind option_bind is_ok]. rewrite (iu_index it' Hit'), Hrk.
    destruct (rest_cons_range it t l Hit Er) as (Ht&Hr&El&Hlook). pose proof (iu_rank it Hit).
    replace (it_rank it + 1 - 1) with (it_rank it) by lia. rewrite u8_small, field_at_rank_spec by (done || lia).
    destruct (Z.leb_spec (mi_field_count i) (it_rank it)); [lia|].
    destruct (slice_ok i Hi (it_rank it) Hb ltac:(lia)) as [-> _]. cbn [mbind option_bind].
    rewrite (IH it' Hit') by lia. rewrite Hrk. cbn [mbind option_bind]. f_equal. unfold index_fields.
    rewrite <- (iu_rest it Hit), Er, El. rewrite (seqZ_cons (it_rank it)) by lia. cbn [map zip zip_with from_option].
    unfold Z.succ. do 4 f_equal. lia.
Qed.
End Iteration.
