(* ===== verification/MessageProps.v ===== *)
(** What the message index promises to its clients: exactly the well-formed messages
    are accepted, and lookup, iteration and block masks agree with the directory. *)
From S2P Require Import Prelude.
From S2P Require Import WireTypes.
From S2P Require Import Bits.
From S2P Require Import Reader.
From S2P Require Import MessageIndex.
From S2P Require Import MessageSpec.
From S2P Require Import MessageQuery.

(** ** Parsing *)

(** A well-formed message, as docs/WIRE.md describes it, and its index. *)
Definition index_of (enc : Bebop_View) (i : Bebop_MessageIndex) : Prop :=
  mi_encoded i = enc ∧ index_ok i ∧ bounds_ok i.

Section Parsing.
Context (enc : Bebop_View) (Hv : view_ok enc).

Lemma short_malformed : view_length enc < 5 →
  bebop_message_index_parse PTR enc = malformed ∧ bebop_message_index_begin PTR enc = malformed.
Proof.
  intros Hn. destruct Hv as (d&Ed&_). unfold bebop_message_index_parse, bebop_message_index_begin.
  rewrite Ed. cbn [is_null]. unfold BEBOP_WIRE_SIZE_LEN. destruct (Z.ltb_spec (view_length enc) (4 + 1)); [done|lia].
Qed.

Lemma parse_cases :
  ∃ r, bebop_message_index_parse PTR enc = Some r ∧
    (r = (BEBOP_RESULT_OK, Some (candidate enc)) ∧ index_of enc (candidate enc) ∨
     r = (BEBOP_RESULT_MALFORMED, None) ∧ ∀ i, ¬ index_of enc i).
Proof.
  destruct (Z.ltb_spec (view_length enc) 5) as [Hn|Hn].
  - eexists. split; [by apply short_malformed|]. right. split; [done|].
    intros i (E&Hi&_). pose proof (io_length i Hi). rewrite E in *. lia.
  - pose proof Hv as (d&Ed&_). destruct (parse_spec enc d Ed Hv Hn) as (r&Er&Hr). exists r. split; [done|].
    rewrite (header_ok_iff enc d Ed Hv Hn) in Hr. destruct Hr as [(->&Hi&Hb)|(->&Hno)]; [left|right]; split; try done.
    intros i (E&Hi&Hb). apply Hno. rewrite <- E, (index_ok_candidate i Hi). done.
Qed.

Lemma begin_cases :
  ∃ r, bebop_message_index_begin PTR enc = Some r ∧
    (r = (BEBOP_RESULT_OK, Some (candidate enc)) ∧ mi_encoded (candidate enc) = enc ∧ index_ok (candidate enc) ∨
     r = (BEBOP_RESULT_MALFORMED, None) ∧ ∀ i, ¬ (mi_encoded i = enc ∧ index_ok i)).
Proof.
  destruct (Z.ltb_spec (view_length enc) 5) as [Hn|Hn].
  - eexists. split; [by apply short_malformed|]. right. split; [done|].
    intros i (E&Hi). pose proof (io_length i Hi). rewrite E in *. lia.
  - pose proof Hv as (d&Ed&_). destruct (begin_spec enc d Ed Hv Hn) as (r&Er&Hr). exists r. split; [done|].
    rewrite (header_ok_iff enc d Ed Hv Hn) in Hr. destruct Hr as [(->&Hi)|(->&Hno)]; [left|right]; split; try done.
    intros i (E&Hi). apply Hno. rewrite <- E, (index_ok_candidate i Hi). done.
Qed.

Lemma index_of_candidate i : index_of enc i → i = candidate enc.
Proof. intros (E&Hi&_). by rewrite <- E, index_ok_candidate. Qed.

Lemma parse_ok_iff i :
  bebop_message_index_parse PTR enc = Some (BEBOP_RESULT_OK, Some i) ↔ index_of enc i.
Proof.
  destruct parse_cases as (r&Er&[[-> Hc]|[-> Hno]]); rewrite Er; split; intros H.
  - by injection H as <-.
  - by rewrite (index_of_candidate i H).
  - done.
  - by destruct (Hno i).
Qed.

Lemma begin_ok_iff i :
  bebop_message_index_begin PTR enc = Some (BEBOP_RESULT_OK, Some i) ↔ mi_encoded i = enc ∧ index_ok i.
Proof.
  destruct begin_cases as (r&Er&[[-> Hc]|[-> Hno]]); rewrite Er; split; intros H.
  - by injection H as <-.
  - destruct H as [E Hi]. by rewrite <- (index_ok_candidate i Hi), E.
  - done.
  - by destruct (Hno i).
Qed.

(** C3: [bebop_message_index_parse] accepts exactly the well-formed messages: it
    never reads outside the view, it returns the index of the message when there
    is one, and BEBOP_RESULT_MALFORMED when there is none. *)
Theorem index_parse_exact :
  (∀ i, bebop_message_index_parse PTR enc = Some (BEBOP_RESULT_OK, Some i) ↔ index_of enc i) ∧
  ((∀ i, ¬ index_of enc i) → bebop_message_index_parse PTR enc = Some (BEBOP_RESULT_MALFORMED, None)) ∧
  (∀ i j, index_of enc i → index_of enc j → i = j).
Proof.
  split_and!; [exact parse_ok_iff| |].
  - intros Hno. destruct parse_cases as (r&Er&[[-> Hc]|[-> _]]); [by destruct (Hno _ Hc)|done].
  - intros i j Hi Hj. by rewrite (index_of_candidate i Hi), (index_of_candidate j Hj).
Qed.

(** [bebop_message_index_begin] is [bebop_message_index_parse] without the
    boundaries: it accepts a message exactly when the header, the directory and the
    sizes are well formed, and the complete parser accepts exactly those of them
    whose boundaries are in order, with the same index. *)
Theorem index_begin_exact :
  (∀ i, bebop_message_index_begin PTR enc = Some (BEBOP_RESULT_OK, Some i) ↔ mi_encoded i = enc ∧ index_ok i) ∧
  ((∀ i, ¬ (mi_encoded i = enc ∧ index_ok i)) →
     bebop_message_index_begin PTR enc = Some (BEBOP_RESULT_MALFORMED, None)) ∧
  (∀ i, bebop_message_index_parse PTR enc = Some (BEBOP_RESULT_OK, Some i) ↔
        bebop_message_index_begin PTR enc = Some (BEBOP_RESULT_OK, Some i) ∧ bounds_ok i).
Proof.
  split_and!; [exact begin_ok_iff| |].
  - intros Hno. destruct begin_cases as (r&Er&[[-> Hc]|[-> _]]); [by destruct (Hno _ Hc)|done].
  - intros i. rewrite parse_ok_iff, begin_ok_iff. unfold index_of. tauto.
Qed.
End Parsing.

(** ** Lookup *)

Section Lookup.
Context (enc : Bebop_View) (i : Bebop_MessageIndex) (Hv : view_ok enc).

(** On an index that [bebop_message_index_begin] made, looking up a tag finds
    nothing exactly when the directory does not contain it, and otherwise finds the
    slice of its rank, or reports a malformed message when the boundaries around that
    slice are out of order; with a complete parse the slice is always there. *)
Theorem index_field_correct tag :
  bebop_message_index_begin PTR enc = Some (BEBOP_RESULT_OK, Some i) → 0 ≤ tag ≤ 255 →
  (tag ∉ index_tags i →
     bebop_message_index_field (Some i) tag PTR PTR = Some (BEBOP_RESULT_OK, Some (null_view, false))) ∧
  (∀ r, index_tags i !! Z.to_nat r = Some tag → 0 ≤ r →
     bebop_message_index_field (Some i) tag PTR PTR =
       Some (if slice_okb i r then (BEBOP_RESULT_OK, Some (slice i r, true))
             else (BEBOP_RESULT_MALFORMED, Some (null_view, false))) ∧
     (bounds_ok i → bebop_message_index_field (Some i) tag PTR PTR = Some (BEBOP_RESULT_OK, Some (slice i r, true)))).
Proof.
  intros Hb Ht. apply begin_ok_iff in Hb as [E Hi]; [|done]. rewrite (index_field_spec i Hi tag Ht). split.
  - intros Hno. by rewrite bool_decide_false.
  - intros r Hr Hr0. pose proof (list_elem_of_lookup_2 _ _ _ Hr) as Hin. rewrite bool_decide_true by done.
    destruct (rank_of_range i Hi tag Hin) as [Hrk _]. rewrite (rank_of_lookup i Hi tag r) in * by done.
    split; [by destruct (slice_okb i r)|]. intros Hbo. by destruct (slice_ok i Hi r Hbo Hrk) as [-> _].
Qed.

(** The fields of a message by rank: [bebop_message_index_field_at] yields the
    slice of every rank below the field count, INVALID for the others, and on a
    completely parsed message the slices, in order, are the payload. *)
Theorem index_slices_tile :
  bebop_message_index_parse PTR enc = Some (BEBOP_RESULT_OK, Some i) →
  mi_field_count i = zlen (index_tags i) ∧
  (∀ r, 0 ≤ r < 256 → bebop_message_index_field_at (Some i) r PTR =
     Some (if r <? mi_field_count i then (BEBOP_RESULT_OK, Some (slice i r)) else (BEBOP_RESULT_INVALID, None))) ∧
  (∀ r, 0 ≤ r < mi_field_count i → view_ok (slice i r)) ∧
  concat (map (λ r, view_bytes (slice i r)) (seqZ 0 (mi_field_count i))) = payload i.
Proof.
  intros Hp. apply parse_ok_iff in Hp as (E&Hi&Hb); [|done]. split_and!.
  - apply io_count, Hi.
  - intros r Hr. cbn [bebop_message_index_field_at is_null]. rewrite (field_at_rank_spec i Hi r Hr).
    destruct (Z.leb_spec (mi_field_count i) r), (Z.ltb_spec r (mi_field_count i)); try lia; [done|].
    by destruct (slice_ok i Hi r Hb ltac:(lia)) as [-> _].
  - intros r Hr. by apply slice_view_ok.
  - destruct (Z.eq_dec (mi_field_count i) 0) as [E0|Hne].
    + rewrite E0. unfold payload, payload_size. rewrite (io_no_payload i Hi E0).
      replace (mi_data i + 4 - (mi_data i + 4)) with 0 by lia. by rewrite take_0.
    + apply slices_tile; [done..|]. pose proof (ix_count i Hi). lia.
Qed.

(** C37: Iteration over a completely parsed message yields every tag of the directory
    exactly once, in ascending order, with its slice, and then ends; 256 calls are
    enough. *)
Theorem index_iteration_complete :
  bebop_message_index_parse PTR enc = Some (BEBOP_RESULT_OK, Some i) →
  tags_ok (index_tags i) ∧
  ∃ it, bebop_message_field_iterator_init (Some i) = Some it ∧
    collect 256 it = Some (zip (index_tags i) (map (slice i) (seqZ 0 (mi_field_count i)))).
Proof.
  intros Hp. apply parse_ok_iff in Hp as (E&Hi&Hb); [|done]. split; [apply io_tags, Hi|].
  destruct (iterator_init_spec i Hi) as (it&Ei&Hit&E0). exists it. split; [done|].
  pose proof (ix_count i Hi). rewrite (collect_spec i Hi 256 it Hb Hit) by lia. rewrite E0. unfold index_fields.
  by rewrite drop_0, Z.sub_0_r.
Qed.

(** The block masks of a block directory have a bit for exactly the tags of the
    directory; for the other directories the query is refused. *)
Theorem index_block_masks_correct :
  bebop_message_index_begin PTR enc = Some (BEBOP_RESULT_OK, Some i) →
  (mi_directory_kind i ≠ 7 → bebop_message_index_block_masks (Some i) PTR = Some (BEBOP_RESULT_INVALID, None)) ∧
  (mi_directory_kind i = 7 → ∃ masks,
     bebop_message_index_block_masks (Some i) PTR = Some (BEBOP_RESULT_OK, Some masks) ∧ length masks = 8%nat ∧
     ∀ b bit, 0 ≤ b < 8 → 0 ≤ bit < 32 →
       Z.testbit (default 0 (masks !! Z.to_nat b)) bit = bool_decide (32 * b + bit + 1 ∈ index_tags i)).
Proof.
  intros Hb. apply begin_ok_iff in Hb as [E Hi]; [|done]. cbn [bebop_message_index_block_masks is_null].
  change BEBOP_MESSAGE_DIRECTORY_BLOCKS with 7. split; intros Hk; [by rewrite (proj2 (Z.eqb_neq _ _) Hk)|].
  rewrite Hk. cbn [Z.eqb Pos.eqb negb]. destruct (tags_blocks i Hi Hk) as (_&_&_&_&Hl&_). rewrite Hl. cbn [mbind option_bind].
  pose proof (load_masks_spec i Hi 8 0 Hk eq_refl ltac:(lia)) as Hm.
  rewrite entries_before_0, Z.mul_0_r, Z.add_0_r in Hm. rewrite Hm. cbn [mbind option_bind].
  eexists. split; [done|]. split; [by rewrite length_map|]. intros b bit Hb Hbit.
  rewrite list_lookup_fmap, lookup_seqZ_lt by lia. cbn [fmap option_fmap option_map default].
  pose proof (elem_of_blocks i Hi b (32 * b + bit + 1) Hk Hb ltac:(lia)) as He.
  replace (32 * b + bit + 1 - 32 * b - 1) with bit in He by lia. rewrite Z2Nat.id, Z.add_0_l by lia.
  cbn [from_option id]. apply eq_true_iff_eq. rewrite bool_decide_eq_true. by symmetry.
Qed.
End Lookup.

(** ** Messages in a stream *)

Section Stream.
Context `{PlatformOk}.

(** The message at the cursor: the length prefix and the bytes it counts. *)
Definition message_view (r : Bebop_Reader) : Bebop_View :=
  mkView (rd_mem r) (Some (rd_current r)) (rd_prefix r + BEBOP_WIRE_SIZE_LEN).

Lemma read_index_eq parse r :
  reader_ok r → 4 ≤ zlen (rd_rest r) → rd_prefix r ≤ zlen (rd_body r) →
  view_ok (message_view r) ∧
  read_index_with parse PTR PTR r =
    ('(result, index) ← parse PTR (message_view r);
     Some (if is_ok result then ((result, index), rd_adv (4 + rd_prefix r) r) else ((result, None), rd_adv 4 r))).
Proof.
  intros Hr H4 Hp. pose proof (rd_prefix_range r Hr H4) as Hpr.
  assert (Hl : zlen (rd_body r) = zlen (rd_rest r) - 4) by by apply rd_body_zlen.
  pose proof (rd_view_ok r 0 (rd_prefix r + 4) Hr ltac:(lia) ltac:(lia) ltac:(lia)) as Hv.
  rewrite Z.add_0_r in Hv. split; [exact Hv|].
  unfold read_index_with. cbn [is_null orb]. unfold mbind at 1, C_bind at 1. cbn [gets].
  unfold mbind at 1, C_bind at 1. rewrite (read_length_branches r Hr).
  destruct (Z.ltb_spec (zlen (rd_rest r)) 4); [lia|]. destruct (Z.ltb_spec (zlen (rd_body r)) (rd_prefix r)); [lia|].
  cbn [is_ok]. unfold bebop_reader_remaining. cbn [is_null]. unfold mbind at 1, C_bind at 1. cbn [gets].
  destruct (rd_adv4 r Hr H4) as [Hr4 E4]. pose proof (zlen_rd_rest _ Hr4) as Er4. rewrite E4 in Er4.
  pose proof (ro_size _ Hr4). pose proof (ro_end _ Hr4). pose proof (ro_start _ Hr4).
  rewrite u64_small by lia. destruct (Z.ltb_spec (rd_end (rd_adv 4 r) - rd_current (rd_adv 4 r)) (rd_prefix r)); [lia|].
  change (rd_mem (rd_adv 4 r)) with (rd_mem r). unfold mbind at 1, C_bind at 1. cbn [gets]. 
  unfold message_view, BEBOP_WIRE_SIZE_LEN.
  change (rd_mem (rd_adv 4 r)) with (rd_mem r).
  unfold mbind at 1, C_bind at 1, lift. destruct (parse PTR _) as [[result index]|]; [|done]. cbn [mbind option_bind].
  rewrite (Z.add_comm (rd_prefix r) 4). by destruct (is_ok result).
Qed.

(** [bebop_reader_read_message_index] takes the message at the cursor when its
    length prefix and its body are there and well formed, and moves past it. When the
    length does not fit it leaves the cursor at the start of the message, and when the
    message is malformed it leaves it behind the length prefix. *)
Theorem read_message_index_correct r :
  reader_ok r →
  (zlen (rd_rest r) < 4 ∨ zlen (rd_body r) < rd_prefix r →
     bebop_reader_read_message_index PTR PTR r = Some ((BEBOP_RESULT_MALFORMED, None), r)) ∧
  (4 ≤ zlen (rd_rest r) → rd_prefix r ≤ zlen (rd_body r) →
     (∀ i, index_of (message_view r) i →
        bebop_reader_read_message_index PTR PTR r =
          Some ((BEBOP_RESULT_OK, Some i), rd_adv (4 + rd_prefix r) r) ∧ reader_ok (rd_adv (4 + rd_prefix r) r)) ∧
     ((∀ i, ¬ index_of (message_view r) i) →
        bebop_reader_read_message_index PTR PTR r = Some ((BEBOP_RESULT_MALFORMED, None), rd_adv 4 r))).
Proof.
  intros Hr. split.
  - intros Hs. unfold bebop_reader_read_message_index, read_index_with. cbn [is_null orb].
    unfold mbind at 1, C_bind at 1. cbn [gets]. unfold mbind at 1, C_bind at 1. rewrite (read_length_branches r Hr).
    destruct (Z.ltb_spec (zlen (rd_rest r)) 4) as [H4|H4].
    { cbn. unfold mret, C_ret, set_current. by destruct r. }
    destruct (Z.ltb_spec (zlen (rd_body r)) (rd_prefix r)) as [Hp|Hp]; [|lia].
    cbn. unfold mret, C_ret, set_current. by destruct r.
  - intros H4 Hp. pose proof (rd_prefix_range r Hr H4). pose proof (rd_body_zlen r Hr H4).
    destruct (read_index_eq bebop_message_index_parse r Hr H4 Hp) as [Hv E].
    unfold bebop_reader_read_message_index. rewrite E. destruct (parse_cases _ Hv) as (x&->&Hx). split.
    + intros i Hi. destruct Hx as [[-> _]|[_ Hno]]; [|by destruct (Hno i)]. rewrite (index_of_candidate _ i Hi).
      split; [done|]. apply rd_adv_ok; [done|lia].
    + intros Hno. by destruct Hx as [[_ Hi]|[-> _]]; [destruct (Hno _ Hi)|].
Qed.
End Stream.

(** ** Witnesses: the message of docs/WIRE.md with both fields *)

Definition demo_message : list Z := [8; 0; 0; 0; 42; 0; 0; 0; 1; 4; 3; 16].
Definition demo_message_view : Bebop_View := mkView demo_message (Some 0) 12.
Definition demo_index : Bebop_MessageIndex := mkIndex demo_message_view 9 10 2 1 4.

Lemma demo_message_ok : bytes_ok demo_message.
Proof. repeat constructor; cbn; lia. Qed.

Lemma demo_message_view_ok : view_ok demo_message_view.
Proof. exists 0. split_and!; try done; try exact demo_message_ok. Qed.

Lemma demo_parse : bebop_message_index_parse PTR demo_message_view = Some (BEBOP_RESULT_OK, Some demo_index).
Proof. vm_compute. reflexivity. Qed.

Lemma demo_begin : bebop_message_index_begin PTR demo_message_view = Some (BEBOP_RESULT_OK, Some demo_index).
Proof. vm_compute. reflexivity. Qed.

Lemma index_parse_witness : index_of demo_message_view demo_index.
Proof. apply (index_parse_exact demo_message_view demo_message_view_ok). vm_compute. reflexivity. Defined.

Lemma index_begin_witness : index_ok demo_index ∧ bounds_ok demo_index.
Proof.
  destruct (index_begin_exact demo_message_view demo_message_view_ok) as (H1&_&H3).
  split; [apply H1|apply H3]; vm_compute; reflexivity.
Defined.

(** Tag 2 is the byte at offset 8, and tag 3 is absent. *)
Lemma index_field_witness :
  bebop_message_index_field (Some demo_index) 2 PTR PTR =
    Some (BEBOP_RESULT_OK, Some (mkView demo_message (Some 8) 1, true)) ∧
  bebop_message_index_field (Some demo_index) 3 PTR PTR = Some (BEBOP_RESULT_OK, Some (null_view, false)).
Proof.
  split.
  - destruct (index_field_correct demo_message_view demo_index demo_message_view_ok 2 demo_begin ltac:(lia)) as [_ H].
    destruct (H 1 eq_refl ltac:(lia)) as [-> _]. vm_compute. reflexivity.
  - apply (index_field_correct demo_message_view demo_index demo_message_view_ok 3 demo_begin ltac:(lia)).
    apply (bool_decide_eq_false_1 (3 ∈ index_tags demo_index)). vm_compute. reflexivity.
Defined.

Lemma index_slices_witness :
  concat (map (λ r, view_bytes (slice demo_index r)) (seqZ 0 2)) = [42; 0; 0; 0; 1].
Proof. apply (index_slices_tile demo_message_view demo_index demo_message_view_ok demo_parse). Defined.

Lemma index_iteration_witness :
  ∃ it, bebop_message_field_iterator_init (Some demo_index) = Some it ∧
    collect 256 it = Some [(1, mkView demo_message (Some 4) 4); (2, mkView demo_message (Some 8) 1)].
Proof. apply (index_iteration_complete demo_message_view demo_index demo_message_view_ok demo_parse). Defined.

(** A message with the tags 3 and 200, which have no bytes, in a block directory. *)
Definition demo_blocks : list Z := [13; 0; 0; 0; 0; 0; 4; 0; 0; 0; 1; 128; 0; 0; 0; 65; 28].
Definition demo_blocks_view : Bebop_View := mkView demo_blocks (Some 0) 17.
Definition demo_blocks_index : Bebop_MessageIndex := mkIndex demo_blocks_view 4 5 2 1 7.

Lemma demo_blocks_view_ok : view_ok demo_blocks_view.
Proof. exists 0. split_and!; try done. repeat constructor; cbn; lia. Qed.

Lemma index_block_masks_witness :
  ∃ masks, bebop_message_index_block_masks (Some demo_blocks_index) PTR = Some (BEBOP_RESULT_OK, Some masks) ∧
    length masks = 8%nat ∧ Z.testbit (default 0 (masks !! 6%nat)) 7 = true.
Proof.
  destruct (index_block_masks_correct demo_blocks_view demo_blocks_index demo_blocks_view_ok) as [_ H];
    [vm_compute; reflexivity|].
  destruct (H eq_refl) as (masks&E&Hl&Hb). exists masks. split; [exact E|]. split; [exact Hl|].
  exact (Hb 6 7 ltac:(lia) ltac:(lia)).
Defined.

Lemma read_message_index_witness :
  let r := mkReader (demo_message ++ [9]) 0 0 13 NULL in
  @bebop_reader_read_message_index default_platform PTR PTR r =
    Some ((BEBOP_RESULT_OK, Some (mkIndex (mkView (demo_message ++ [9]) (Some 0) 12) 9 10 2 1 4)), rd_adv 12 r).
Proof.
  intros r. assert (Hr : reader_ok r).
  { constructor; cbn; try lia; [unfold zlen; cbn; lia..|]. repeat constructor; cbn; lia. }
  destruct (@read_message_index_correct default_platform _ r Hr) as [_ H].
  assert (H4 : 4 ≤ zlen (rd_rest r)) by (vm_compute; discriminate).
  assert (Hp : rd_prefix r ≤ zlen (rd_body r)) by (vm_compute; discriminate).
  destruct (H H4 Hp) as [Hi _]. apply (Hi (mkIndex (mkView (demo_message ++ [9]) (Some 0) 12) 9 10 2 1 4)).
  apply (parse_ok_iff (message_view r)); [apply (@read_index_eq default_platform _ bebop_message_index_parse r Hr H4 Hp)|]. vm_compute. reflexivity.
Defined.
