(* ===== verification/MessageWriter.v ===== *)
(** The writer of the message index in [bebop/src/bebop_wire.c]: the validation of
    the tags, the choice of the directory, [bebop_indexed_message_size] and
    [bebop_writer_end_indexed_message].  Array arguments are lists, [None] is NULL,
    and reading past the end of one is undefined. *)
From S2P Require Import Prelude.
From S2P Require Import WireTypes.
From S2P Require Import Bits.
From S2P Require Import Arena.
From S2P Require Import Writer.
From S2P Require Import MessageIndex.

(** ** Definitions *)

(** [UINT32_C(1) << n], undefined when the count is not below the width. *)
Definition shl32 (n : Z) : option Z :=
  if (0 <=? n) && (n <? 32) then Some (Z.shiftl 1 n) else None.

Record bebop_message_directory_layout_t : Type := mkLayout {
  ly_kind : Z;
  ly_size : Z;
  ly_block_mask : Z
}.

Definition bebop_message_tags_valid (tags : option (list Z)) (count : Z) : option bool :=
  if count =? 0 then Some true
  else
    match tags with
    | None => Some false
    | Some tags =>
        first ← load tags 0;
        if first =? 0 then Some false
        else tiny_sorted (Z.to_nat (count - 1)) tags 0 1
    end.

(** The loop that collects the mask of nonempty blocks. *)
Fixpoint layout_blocks (n : nat) (tags : list Z) (i block_mask : Z) : option Z :=
  match n with
  | O => Some block_mask
  | S n =>
      t ← load tags i;
      b ← shl32 (Z.shiftr (u32 (t - 1)) 5);
      layout_blocks n tags (i + 1) (Z.lor block_mask (u8 b))
  end.

Definition bebop_message_directory_layout (tags : option (list Z)) (count : Z)
  : option bebop_message_directory_layout_t :=
  if count =? 0 then Some (mkLayout BEBOP_MESSAGE_DIRECTORY_EMPTY 0 0)
  else
    tags ← tags;
    block_mask ← layout_blocks (Z.to_nat count) tags 0 0;
    let block_size := u8 (1 + 5 * bebop_wire_popcount32 block_mask) in
    max_tag ← load tags (count - 1);
    let layout :=
      if (max_tag <=? 8) && (1 <=? block_size) then mkLayout BEBOP_MESSAGE_DIRECTORY_MASK8 1 block_mask
      else if (max_tag <=? 16) && (2 <=? block_size) then mkLayout BEBOP_MESSAGE_DIRECTORY_MASK16 2 block_mask
      else if (max_tag <=? 32) && (4 <=? block_size) then mkLayout BEBOP_MESSAGE_DIRECTORY_MASK32 4 block_mask
      else mkLayout BEBOP_MESSAGE_DIRECTORY_BLOCKS block_size block_mask in
    Some (if (count <=? 3) && (count <? ly_size layout) then mkLayout count count block_mask else layout).

(** [payload_size <= UINT8_MAX ? 1 : payload_size <= UINT16_MAX ? 2 : 4] *)
Definition offset_width_for (payload_size : Z) : Z :=
  if payload_size <=? UINT8_MAX then 1 else if payload_size <=? UINT16_MAX then 2 else 4.

(** [1u + directory.size + boundary_count * width] *)
Definition metadata_size_of (directory : bebop_message_directory_layout_t) (field_count width : Z) : Z :=
  1 + ly_size directory + (if field_count =? 0 then 0 else field_count - 1) * width.

Definition bebop_indexed_message_size (payload_size : Z) (sorted_tags : option (list Z)) (field_count : Z)
  : option Z :=
  valid ← bebop_message_tags_valid sorted_tags field_count;
  if negb valid || (UINT32_MAX <? payload_size) then Some SIZE_MAX
  else
    let width := offset_width_for payload_size in
    directory ← bebop_message_directory_layout sorted_tags field_count;
    let metadata_size := metadata_size_of directory field_count width in
    if (UINT32_MAX - metadata_size <? payload_size) ||
       (SIZE_MAX - BEBOP_WIRE_SIZE_LEN - metadata_size <? payload_size)
    then Some SIZE_MAX
    else Some (BEBOP_WIRE_SIZE_LEN + payload_size + metadata_size).

(** [i == 0 ? payload_offsets[0] == 0], then the loop over the offsets. *)
Fixpoint offsets_valid (n : nat) (payload_offsets : list Z) (payload_size i : Z) : option bool :=
  match n with
  | O => Some true
  | S n =>
      o ← load payload_offsets i;
      if payload_size <? o then Some false
      else
        decreases ← (if i =? 0 then Some false
                     else p ← load payload_offsets (i - 1); Some (o <? p));
        if (decreases : bool) then Some false
        else offsets_valid n payload_offsets payload_size (i + 1)
  end.

Definition first_offset_zero (payload_offsets : list Z) : option bool :=
  o ← load payload_offsets 0; Some (o =? 0).

(** The boundaries: the offsets of the second and later fields. *)
Fixpoint boundary_bytes (n : nat) (payload_offsets : list Z) (width i : Z) : option (list Z) :=
  match n with
  | O => Some []
  | S n =>
      o ← load payload_offsets i;
      l ← boundary_bytes n payload_offsets width (i + 1);
      Some (bebop_wire_store_le o width ++ l)
  end.

(** The mask of a mask directory. *)
Fixpoint tag_mask (n : nat) (sorted_tags : list Z) (i mask : Z) : option Z :=
  match n with
  | O => Some mask
  | S n =>
      t ← load sorted_tags i;
      b ← shl32 (u32 (t - 1));
      tag_mask n sorted_tags (i + 1) (Z.lor mask b)
  end.

(** The inner loop over the tags of one block; [n] tags are left from [next] on. *)
Fixpoint fill_mask (n : nat) (sorted_tags : list Z) (first_tag block_limit next mask : Z) : option (Z * Z) :=
  match n with
  | O => Some (next, mask)
  | S n =>
      t ← load sorted_tags next;
      if t <? block_limit then
        b ← shl32 (t - first_tag);
        fill_mask n sorted_tags first_tag block_limit (next + 1) (Z.lor mask b)
      else Some (next, mask)
  end.

(** The loop over the blocks. *)
Fixpoint block_entries (n : nat) (sorted_tags : list Z) (field_count block_mask block next rank : Z)
  : option (list Z) :=
  match n with
  | O => Some []
  | S n =>
      if Z.land block_mask (u8 (Z.shiftl 1 block)) =? 0
      then block_entries n sorted_tags field_count block_mask (block + 1) next rank
      else
        let first_tag := u8 (block * 32 + 1) in
        let block_limit := u16 (first_tag + 32) in
        '(next, mask) ← fill_mask (Z.to_nat (field_count - next)) sorted_tags first_tag block_limit next 0;
        l ← block_entries n sorted_tags field_count block_mask (block + 1) next
              (u8 (rank + bebop_wire_popcount32 mask));
        Some (rank :: bebop_wire_store_le mask 4 ++ l)
  end.

(** The [switch (directory.kind)]. *)
Definition directory_bytes (directory : bebop_message_directory_layout_t) (sorted_tags : list Z) (field_count : Z)
  : option (step (list Z)) :=
  let kind := ly_kind directory in
  if kind =? BEBOP_MESSAGE_DIRECTORY_EMPTY then Some (Go [])
  else if is_tiny kind then
    l ← load_bytes sorted_tags 0 field_count; Some (Go l)
  else if is_mask kind then
    mask ← tag_mask (Z.to_nat field_count) sorted_tags 0 0;
    Some (Go (bebop_wire_store_le mask (ly_size directory)))
  else if kind =? BEBOP_MESSAGE_DIRECTORY_BLOCKS then
    l ← block_entries 8 sorted_tags field_count (ly_block_mask directory) 0 0 0;
    Some (Go (l ++ [ly_block_mask directory]))
  else Some Reject.

(** What the function stores behind the payload. *)
Definition index_bytes (directory : bebop_message_directory_layout_t) (sorted_tags payload_offsets : list Z)
    (field_count width : Z) : option (step (list Z)) :=
  let width_code := if width =? 1 then 0 else if width =? 2 then 1 else 2 in
  bounds ← boundary_bytes (Z.to_nat (field_count - 1)) payload_offsets width 1;
  dir ← directory_bytes directory sorted_tags field_count;
  match dir with
  | Reject => Some Reject
  | Go dir => Some (Go (bounds ++ dir ++ [u8 (Z.lor (Z.shiftl (ly_kind directory) 2) width_code)]))
  end.

Definition no_array (a : option (list Z)) : bool := match a with Some _ => false | None => true end.

Section EndMessage.
Context `{HostAllocator} `{Platform}.

Definition bebop_writer_end_indexed_message (writer : ptr) (length_position payload_start : Z)
    (sorted_tags payload_offsets : option (list Z)) (field_count : Z) : WR Bebop_Result :=
  if is_null writer || (negb (field_count =? 0) && (no_array sorted_tags || no_array payload_offsets))
  then mret BEBOP_RESULT_NULL
  else
    valid ← lift (bebop_message_tags_valid sorted_tags field_count);
    if negb valid then mret BEBOP_RESULT_INVALID
    else
    written ← bebop_writer_length writer;
    if (SIZE_MAX - BEBOP_WIRE_SIZE_LEN <? length_position) ||
       negb (length_position + BEBOP_WIRE_SIZE_LEN =? payload_start) || (written <? payload_start)
    then mret BEBOP_RESULT_INVALID
    else
    let payload_size := written - payload_start in
    if UINT32_MAX <? payload_size then mret BEBOP_RESULT_OVERFLOW
    else if (field_count =? 0) && negb (payload_size =? 0) then mret BEBOP_RESULT_INVALID
    else
    let tags := default [] sorted_tags in
    let offsets := default [] payload_offsets in
    first ← lift (if field_count =? 0 then Some true else first_offset_zero offsets);
    if negb first then mret BEBOP_RESULT_INVALID
    else
    ordered ← lift (offsets_valid (Z.to_nat field_count) offsets payload_size 0);
    if negb ordered then mret BEBOP_RESULT_INVALID
    else
    let width := offset_width_for payload_size in
    directory ← lift (bebop_message_directory_layout sorted_tags field_count);
    let metadata_size := metadata_size_of directory field_count width in
    if UINT32_MAX - metadata_size <? payload_size then mret BEBOP_RESULT_OVERFLOW
    else
    if_ok (bebop_writer_reserve writer metadata_size)
      (output ← lift (index_bytes directory tags offsets field_count width);
       match output with
       | Reject => mret BEBOP_RESULT_INVALID
       | Go output =>
           wr_put output;;
           bebop_writer_end_length writer length_position (u32 (payload_size + metadata_size))
       end).
End EndMessage.
