(* ===== verification/MessageEncode.v ===== *)
(** The encoder of the message index against the decoder: the directory that
    [bebop_writer_end_indexed_message] writes contains exactly the tags it was given. *)
From S2P Require Import Prelude.
From S2P Require Import WireTypes.
From S2P Require Import Bits.
From S2P Require Import Reader.
From S2P Require Import Arena.
From S2P Require Import Writer.
From S2P Require Import MessageIndex.
From S2P Require Import MessageSpec.
From S2P Require Import MessageQuery.
From S2P Require Import MessageProps.
From S2P Require Import MessageWriter.

(** ** Sorted lists *)

#[export] Instance Z_lt_antisymm : AntiSymm (=) Z.lt.
Proof. intros x y ? ?. lia. Qed.

(** A strictly increasing list is determined by its elements. *)
Lemma sorted_ext (l k : list Z) :
  StronglySorted Z.lt l → StronglySorted Z.lt k → (∀ x, x ∈ l ↔ x ∈ k) → l = k.
Proof.
  intros Hl Hk Hx. apply (StronglySorted_unique Z.lt); [done..|].
  apply NoDup_Permutation; [by apply sorted_NoDup..|done].
Qed.

Lemma sorted_split (l : list Z) c : StronglySorted Z.lt l →
  l = filter (λ t, t < c) l ++ filter (λ t, c ≤ t) l.
Proof.
  induction 1 as [|x l Hs IH Hf]; [done|]. rewrite !filter_cons. repeat case_decide; try lia.
  - cbn. by f_equal.
  - rewrite filter_none; [cbn; f_equal|].
    + symmetry. apply filter_all. intros y Hy. rewrite Forall_forall in Hf. specialize (Hf y Hy). lia.
    + intros y Hy. rewrite Forall_forall in Hf. specialize (Hf y Hy). lia.
Qed.

Lemma sorted_filter (P : Z → Prop) `{∀ x, Decision (P x)} (l : list Z) :
  StronglySorted Z.lt l → StronglySorted Z.lt (filter P l).
Proof. apply StronglySorted_filter'. Qed.

(** ** Masks from tags *)

(** The mask of the tags of [l], of which [base + 1] has bit 0. *)
Definition mask_of (base : Z) (l : list Z) : Z :=
  foldl (λ m x, Z.lor m (Z.shiftl 1 x)) 0 (map (λ t, t - base - 1) l).

Lemma lor_range n a b : 0 ≤ n → 0 ≤ a < 2 ^ n → 0 ≤ b < 2 ^ n → 0 ≤ Z.lor a b < 2 ^ n.
Proof.
  intros Hn Ha Hb. rewrite <- (Z.mod_small a (2 ^ n)), <- (Z.mod_small b (2 ^ n)) by done.
  rewrite <- !Z.land_ones, <- Z.land_lor_distr_l, Z.land_ones by done. apply Z.mod_pos_bound. lia.
Qed.

Lemma or_bits_range n l v : 0 ≤ n → 0 ≤ v < 2 ^ n → Forall (λ x, 0 ≤ x < n) l →
  0 ≤ foldl (λ m x, Z.lor m (Z.shiftl 1 x)) v l < 2 ^ n.
Proof.
  intros Hn Hv Hl. revert v Hv. induction Hl as [|x l Hx _ IH]; intros v Hv; [done|]. cbn. apply IH.
  apply lor_range; [done..|]. rewrite Z.shiftl_1_l. split; [lia|]. apply Z.pow_lt_mono_r; lia.
Qed.

Section Masks.
Context (base n : Z) (l : list Z) (Hn : 0 ≤ n ≤ 32) (Hs : StronglySorted Z.lt l).
Context (Hl : Forall (λ t, base + 1 ≤ t ≤ base + n) l).

Lemma mask_of_range : 0 ≤ mask_of base l < 2 ^ n.
Proof.
  apply or_bits_range; [lia|lia|]. apply Forall_map. eapply Forall_impl; [exact Hl|]. cbn. lia.
Qed.

Lemma tags_of_mask_of : tags_of_mask base (mask_of base l) = l.
Proof.
  apply sorted_ext; [apply tags_of_mask_sorted|done|]. intros t. rewrite elem_of_tags_of_mask.
  assert (Hb : base + 1 ≤ t → Z.testbit (mask_of base l) (t - base - 1) = bool_decide (t - base - 1 ∈ map (λ t, t - base - 1) l)).
  { intros Ht. unfold mask_of. rewrite testbit_or_bits, Z.bits_0; [done|lia|].
    apply Forall_map. eapply Forall_impl; [exact Hl|]. cbn. lia. }
  split.
  - intros [Ht Hr]. rewrite Hb, bool_decide_eq_true, list_elem_of_fmap in Ht by lia. destruct Ht as (u&Hu&Hin).
    by replace t with u by lia.
  - intros Ht. pose proof (proj1 (Forall_forall _ _) Hl t Ht) as Hr. cbn in Hr. split; [|lia].
    rewrite Hb, bool_decide_eq_true, list_elem_of_fmap by lia. by exists t.
Qed.
End Masks.

(** ** The loops *)

Lemma to_nat_zlen {A} (l : list A) : Z.to_nat (zlen l) = length l.
Proof. apply Nat2Z.id. Qed.

Lemma load_mid {pre x post} (mem : list Z) i : mem = pre ++ x :: post → i = zlen pre → load mem i = Some x.
Proof. intros -> ->. apply load_app. Qed.

Lemma shl32_small x : 0 ≤ x < 32 → shl32 x = Some (Z.shiftl 1 x).
Proof. intros Hx. unfold shl32. destruct (Z.leb_spec 0 x), (Z.ltb_spec x 32); lia || done. Qed.

Lemma tag_mask_spec pre rest mask :
  Forall (λ t, 1 ≤ t ≤ 32) rest →
  tag_mask (length rest) (pre ++ rest) (zlen pre) mask =
  Some (foldl (λ m x, Z.lor m (Z.shiftl 1 x)) mask (map (λ t, t - 0 - 1) rest)).
Proof.
  revert pre mask. induction rest as [|t rest IH]; intros pre mask Hf; [done|]. cbn [length tag_mask map foldl].
  apply Forall_cons in Hf as [Ht Hf]. rewrite load_app. cbn [mbind option_bind].
  rewrite u32_small, shl32_small by lia. cbn [mbind option_bind].
  replace (zlen pre + 1) with (zlen (pre ++ [t])) by zlia. rewrite (cons_middle t pre rest), (app_assoc pre [t] rest), IH by done.
  by rewrite Z.sub_0_r.
Qed.

Lemma fill_mask_spec pre inb rest first limit mask :
  limit = first + 32 → Forall (λ t, first ≤ t < limit) inb → Forall (λ t, limit ≤ t) rest →
  fill_mask (length (inb ++ rest)) (pre ++ inb ++ rest) first limit (zlen pre) mask =
  Some (zlen (pre ++ inb), foldl (λ m x, Z.lor m (Z.shiftl 1 x)) mask (map (λ t, t - (first - 1) - 1) inb)).
Proof.
  intros -> Hi Hr. revert pre mask. induction Hi as [|t inb Ht Hi IH]; intros pre mask.
  - rewrite app_nil_r. cbn [map foldl]. destruct rest as [|t rest]; [done|]. cbn [length app fill_mask].
    rewrite load_app. cbn [mbind option_bind]. apply Forall_cons in Hr as [Ht _].
    destruct (Z.ltb_spec t (first + 32)); [lia|done].
  - cbn [length app fill_mask map foldl]. rewrite load_app. cbn [mbind option_bind].
    destruct (Z.ltb_spec t (first + 32)); [|lia]. rewrite shl32_small by lia. cbn [mbind option_bind].
    replace (zlen pre + 1) with (zlen (pre ++ [t])) by zlia.
    rewrite (cons_middle t pre (inb ++ rest)), (app_assoc pre [t] (inb ++ rest)), IH. replace (t - (first - 1) - 1) with (t - first) by lia.
    by rewrite <- (app_assoc pre [t] inb).
Qed.

Lemma layout_blocks_spec pre rest mask :
  Forall (λ t, 1 ≤ t ≤ 255) rest →
  layout_blocks (length rest) (pre ++ rest) (zlen pre) mask =
  Some (foldl (λ m x, Z.lor m (Z.shiftl 1 x)) mask (map (λ t, (t - 1) / 32) rest)).
Proof.
  revert pre mask. induction rest as [|t rest IH]; intros pre mask Hf; [done|]. cbn [length layout_blocks map foldl].
  apply Forall_cons in Hf as [Ht Hf]. rewrite load_app. cbn [mbind option_bind].
  rewrite u32_small, Z.shiftr_div_pow2 by lia. change (2 ^ 5) with 32.
  assert (Hb : 0 ≤ (t - 1) / 32 < 8) by (split; [apply Z.div_pos|apply Z.div_lt_upper_bound]; lia).
  rewrite shl32_small by lia. cbn [mbind option_bind].
  rewrite u8_small by (rewrite Z.shiftl_1_l; split; [lia|apply (Z.pow_lt_mono_r 2 _ 8); lia]).
  replace (zlen pre + 1) with (zlen (pre ++ [t])) by zlia. by rewrite (cons_middle t pre rest), (app_assoc pre [t] rest), IH.
Qed.

(** ** Block directories *)

Section BlockEncoding.
Context (tags : list Z) (Ht : tags_ok tags).

Definition below (b : Z) : list Z := filter (λ t, t < 32 * b + 1) tags.
Definition block_tags (b : Z) : list Z := filter (λ t, 32 * b + 1 ≤ t < 32 * b + 33) tags.
Definition above (b : Z) : list Z := filter (λ t, 32 * b + 1 ≤ t) tags.
Definition entry_of (b : Z) : list Z := zlen (below b) :: le_bytes 4 (mask_of (32 * b) (block_tags b)).
Definition top_of : Z := foldl (λ m x, Z.lor m (Z.shiftl 1 x)) 0 (map (λ t, (t - 1) / 32) tags).

Lemma tag_range t : t ∈ tags → 1 ≤ t ≤ 255.
Proof. intros Hin. pose proof (proj1 (Forall_forall _ _) (proj2 Ht) t Hin). done. Qed.

Lemma tags_split b : tags = below b ++ above b.
Proof. apply sorted_split, Ht. Qed.

Lemma above_split b : above b = block_tags b ++ above (b + 1).
Proof.
  rewrite (sorted_split (above b) (32 * b + 33)) by apply sorted_filter, Ht. unfold above, block_tags.
  rewrite !list_filter_filter. f_equal; apply filter_ext_in; intros; lia.
Qed.

Lemma below_succ b : below (b + 1) = below b ++ block_tags b.
Proof.
  rewrite (sorted_split (below (b + 1)) (32 * b + 1)) by apply sorted_filter, Ht. unfold below, block_tags.
  rewrite !list_filter_filter. f_equal; apply filter_ext_in; intros; lia.
Qed.

Lemma below_0 : below 0 = [].
Proof. apply filter_none. intros t Hin%tag_range. lia. Qed.
Lemma below_8 : below 8 = tags.
Proof. apply filter_all. intros t Hin%tag_range. lia. Qed.

Lemma below_length b : zlen (below b) ≤ 255.
Proof. apply tags_ok_length. split; [apply sorted_filter, Ht|]. apply Forall_forall. by intros t [_ Hin%tag_range]%list_elem_of_filter. Qed.

Lemma block_tags_range b : Forall (λ t, 32 * b + 1 ≤ t ≤ 32 * b + 32) (block_tags b).
Proof. apply Forall_forall. intros t [Hr _]%list_elem_of_filter. lia. Qed.

Lemma block_mask_range b : 0 ≤ mask_of (32 * b) (block_tags b) < 2 ^ 32.
Proof. apply (mask_of_range (32 * b) 32); [lia|]. apply block_tags_range. Qed.

Lemma block_mask_tags b : tags_of_mask (32 * b) (mask_of (32 * b) (block_tags b)) = block_tags b.
Proof. apply (tags_of_mask_of (32 * b) 32); [lia|apply sorted_filter, Ht|apply block_tags_range]. Qed.

Lemma top_bit b : 0 ≤ b → Z.testbit top_of b = true ↔ block_tags b ≠ [].
Proof.
  intros Hb. unfold top_of. rewrite testbit_or_bits, Z.bits_0, orb_false_l, bool_decide_eq_true, list_elem_of_fmap; [|done|].
  - split.
    + intros (t&->&Hin) E. apply (not_elem_of_nil t). rewrite <- E. apply list_elem_of_filter. split; [|done].
      pose proof (Z.div_mod (t - 1) 32 ltac:(lia)). pose proof (Z.mod_pos_bound (t - 1) 32 ltac:(lia)). lia.
    + destruct (block_tags b) as [|t l] eqn:E; [done|]. intros _. exists t.
      assert (Hin : t ∈ block_tags b) by (rewrite E; by left). apply list_elem_of_filter in Hin as [Hr Hin]. split; [|done].
      apply (Z.div_unique_pos _ _ _ (t - 1 - 32 * b)); lia.
  - apply Forall_map, Forall_forall. intros t Hin%tag_range. cbn. apply Z.div_pos; lia.
Qed.

Lemma top_range : 0 ≤ top_of < 256.
Proof.
  apply (or_bits_range 8); [lia|lia|]. apply Forall_map, Forall_forall. intros t Hin%tag_range. cbn.
  split; [apply Z.div_pos|apply Z.div_lt_upper_bound]; lia.
Qed.

Lemma block_tags_empty b : 0 ≤ b → Z.testbit top_of b = false → block_tags b = [].
Proof.
  intros Hb Hf. destruct (block_tags b) as [|t l] eqn:E; [done|]. assert (Hn : block_tags b ≠ []) by by rewrite E.
  apply (top_bit b Hb) in Hn. congruence.
Qed.

Lemma block_entries_spec n b :
  b + Z.of_nat n = 8 → 0 ≤ b →
  block_entries n tags (zlen tags) top_of b (zlen (below b)) (zlen (below b)) =
  Some (concat (map entry_of (filter (λ c, Z.testbit top_of c = true) (seqZ b (Z.of_nat n))))).
Proof.
  revert b. induction n as [|n IH]; intros b Hn Hb; [done|]. cbn [block_entries].
  rewrite seqZ_S, filter_cons, land_block_bit by lia. specialize (IH (b + 1) ltac:(lia) ltac:(lia)).
  destruct (Z.testbit top_of b) eqn:Eb; cbn [negb].
  - rewrite decide_True by done. rewrite (u8_small (b * 32 + 1)), u16_small by lia.
    pose proof (fill_mask_spec (below b) (block_tags b) (above (b + 1)) (b * 32 + 1) (b * 32 + 1 + 32) 0 eq_refl) as Ef.
    rewrite <- above_split, <- tags_split in Ef.
    replace (length (above b)) with (Z.to_nat (zlen tags - zlen (below b))) in Ef
      by (rewrite (tags_split b) at 1; unfold zlen; rewrite length_app; lia).
    rewrite Ef; cycle 1.
    { eapply Forall_impl; [apply block_tags_range|]. cbn. lia. }
    { apply Forall_forall. intros t [Hr _]%list_elem_of_filter. lia. }
    cbn [mbind option_bind].
    replace (foldl _ 0 (map (λ t, t - (b * 32 + 1 - 1) - 1) (block_tags b))) with (mask_of (32 * b) (block_tags b))
      by (unfold mask_of; f_equal; apply map_ext; intros; lia).
    rewrite (popcount_tags (32 * b)), block_mask_tags, <- zlen_app, <- below_succ.
    pose proof (below_length (b + 1)). rewrite u8_small by zlia. rewrite IH. cbn [mbind option_bind map concat].
    rewrite store_le_spec by auto. done.
  - rewrite decide_False by congruence. rewrite <- IH. rewrite below_succ, block_tags_empty, app_nil_r by done. done.
Qed.

(** The entries in front of the entry of block [b]. *)
Lemma zlen_entries l : zlen (concat (map entry_of l)) = 5 * zlen l.
Proof.
  induction l as [|x l IH]; [done|]. cbn [map concat]. rewrite zlen_app, IH, zlen_cons. unfold entry_of.
  rewrite zlen_cons, zlen_le_bytes. lia.
Qed.

Lemma entries_ok l : bytes_ok (concat (map entry_of l)).
Proof.
  induction l as [|x l IH]; [constructor|]. cbn [map concat]. apply Forall_app. split; [|done].
  constructor; [|apply le_bytes_ok]. pose proof (below_length x). unfold byte_ok. zlia.
Qed.

Lemma entries_at b : 0 ≤ b < 8 → Z.testbit top_of b = true →
  ∃ post, concat (map entry_of (bits 8 top_of)) =
          concat (map entry_of (bits b top_of)) ++ entry_of b ++ post ∧
          zlen (concat (map entry_of (bits b top_of))) = 5 * entries_before top_of b.
Proof.
  intros Hb Et. unfold bits at 1. rewrite (seqZ_split 0 8 b) by lia. rewrite filter_app, filter_cons, Z.add_0_l.
  rewrite decide_True by done. rewrite map_app, concat_app. cbn [map concat].
  eexists. split; [reflexivity|]. rewrite zlen_entries, entries_before_eq by lia. done.
Qed.
End BlockEncoding.

(** ** Directories *)

(** The bytes [dir] are a directory of kind [kind] for [tags], wherever they are. *)
Definition dir_encodes (kind : Z) (dir tags : list Z) : Prop :=
  bytes_ok dir ∧ ∀ a c, bytes_ok a → byte_ok c →
    let mem := a ++ dir ++ [c] in
    dir_size mem (zlen mem) kind = zlen dir ∧ dir_tags mem (zlen a) (zlen mem) kind = tags ∧
    (kind = 7 → byte_at mem (zlen mem - 2) ≠ 0 ∧
       ∀ b, 0 ≤ b < 8 → block_ok mem (zlen a) (byte_at mem (zlen mem - 2)) b).

Lemma byte_at_app a x b : byte_at (a ++ x :: b) (zlen a) = x.
Proof. unfold byte_at. by rewrite load_app. Qed.

Lemma word_at_app a w v b : width_ok w → bytes_ok (a ++ le_bytes (Z.to_nat w) v ++ b) → 0 ≤ v < 2 ^ (8 * w) →
  word_at (a ++ le_bytes (Z.to_nat w) v ++ b) (zlen a) w = v.
Proof.
  intros Hw Hb Hv. unfold word_at.
  assert (El : load_bytes (a ++ le_bytes (Z.to_nat w) v ++ b) (zlen a) w = Some (le_bytes (Z.to_nat w) v)).
  { clear Hb Hv. destruct Hw as [->|[->| ->]]; exact (load_bytes_app a (le_bytes _ v) b). }
  rewrite (load_le_bytes _ _ _ _ Hb Hw El). cbn [default from_option]. unfold id. apply le_value_le_bytes_small.
  destruct Hw as [->|[->| ->]]; exact Hv.
Qed.

Lemma map_byte_at a l b : map (λ j, byte_at (a ++ l ++ b) (zlen a + j)) (seqZ 0 (zlen l)) = l.
Proof.
  apply list_eq. intros n. rewrite list_lookup_fmap. destruct (l !! n) as [x|] eqn:E.
  - pose proof (lookup_lt_Some _ _ _ E) as Hn. rewrite lookup_seqZ_lt by (unfold zlen; lia). cbn. f_equal.
    apply list_elem_of_split_length in E as (l1&l2&->&->). rewrite <- app_assoc, app_assoc. cbn [app].
    replace (zlen a + (0 + Z.of_nat (length l1))) with (zlen (a ++ l1)) by (unfold zlen; rewrite length_app; lia).
    apply byte_at_app.
  - apply lookup_ge_None in E. rewrite lookup_seqZ_ge by (unfold zlen; lia). done.
Qed.

Section Directories.
Context (tags : list Z) (Ht : tags_ok tags).

Lemma tags_bytes_ok : bytes_ok tags.
Proof. apply Forall_forall. intros t Hin%(tag_range _ Ht). unfold byte_ok. lia. Qed.

Lemma empty_encodes : dir_encodes 0 [] [].
Proof. split; [constructor|]. intros a c _ _. cbn zeta. split_and!; done. Qed.

Lemma tiny_encodes : 1 ≤ zlen tags ≤ 3 → dir_encodes (zlen tags) tags tags.
Proof.
  intros Hz. split; [apply tags_bytes_ok|]. intros a c _ _. cbn zeta. unfold dir_size, dir_tags.
  change BEBOP_MESSAGE_DIRECTORY_EMPTY with 0. destruct (Z.eqb_spec (zlen tags) 0); [lia|].
  assert (is_tiny (zlen tags) = true) as ->
    by (unfold is_tiny, BEBOP_MESSAGE_DIRECTORY_TINY1, BEBOP_MESSAGE_DIRECTORY_TINY3; lia).
  split_and!; [done|apply map_byte_at|lia].
Qed.

Lemma mask_encodes kind : 4 ≤ kind ≤ 6 → Forall (λ t, t ≤ 8 * mask_width kind) tags →
  dir_encodes kind (le_bytes (Z.to_nat (mask_width kind)) (mask_of 0 tags)) tags.
Proof.
  intros Hk Hm. split; [apply le_bytes_ok|]. intros a c Ha Hc. cbn zeta.
  assert (Hmk : is_mask kind = true)
    by (unfold is_mask, BEBOP_MESSAGE_DIRECTORY_MASK8, BEBOP_MESSAGE_DIRECTORY_MASK32; lia).
  destruct (mask_kind_facts kind ltac:(lia) Hmk) as (Hw&_&Et&E0&_). unfold dir_size, dir_tags.
  change BEBOP_MESSAGE_DIRECTORY_EMPTY with 0. rewrite Et, E0, Hmk.
  assert (Hn : 0 ≤ 8 * mask_width kind ≤ 32) by (destruct Hw as [->|[->| ->]]; lia).
  assert (Hf : Forall (λ t, 0 + 1 ≤ t ≤ 0 + 8 * mask_width kind) tags).
  { apply Forall_forall. intros t Hin. pose proof (tag_range _ Ht t Hin).
    pose proof (proj1 (Forall_forall _ _) Hm t Hin). cbn in *. lia. }
  split_and!; [rewrite zlen_le_bytes; lia| |lia].
  rewrite word_at_app; [by apply (tags_of_mask_of 0 _ _ Hn); [apply Ht|]|done| |by apply (mask_of_range 0 _ _ Hn)].
  apply Forall_app. split; [done|]. apply Forall_app. split; [apply le_bytes_ok|by constructor].
Qed.

(** A block directory between [a] and the control byte. *)
Section BlockDirectory.
Context (a : list Z) (c : Z) (Ha : bytes_ok a) (Hc : byte_ok c).

Definition block_entries_of : list Z := concat (map (entry_of tags) (bits 8 (top_of tags))).
Definition block_mem : list Z := a ++ (block_entries_of ++ [top_of tags]) ++ [c].

Lemma block_dir_ok : bytes_ok (block_entries_of ++ [top_of tags]).
Proof.
  apply Forall_app. split; [by apply entries_ok|]. constructor; [by apply top_range|constructor].
Qed.

Lemma block_mem_ok : bytes_ok block_mem.
Proof. repeat (apply Forall_app; split; try done); [apply entries_ok, Ht|constructor; [by apply top_range|constructor]|by constructor]. Qed.

Lemma block_mem_top : byte_at block_mem (zlen block_mem - 2) = top_of tags.
Proof.
  replace (zlen block_mem - 2) with (zlen (a ++ block_entries_of)) by (unfold block_mem; zlia).
  replace block_mem with ((a ++ block_entries_of) ++ top_of tags :: [c]) by (unfold block_mem; by rewrite <- !app_assoc).
  apply byte_at_app.
Qed.

(** The place of the entry of block [b]. *)
Lemma block_mem_entry b : 0 ≤ b < 8 → Z.testbit (top_of tags) b = true →
  ∃ pre post, block_mem = pre ++ entry_of tags b ++ post ∧ zlen pre = zlen a + 5 * entries_before (top_of tags) b.
Proof.
  intros Hb Eb. destruct (entries_at tags b Hb Eb) as (post&E&El).
  exists (a ++ concat (map (entry_of tags) (bits b (top_of tags)))), (post ++ [top_of tags; c]).
  unfold block_mem, block_entries_of. rewrite E, zlen_app, El. split; [|done]. by rewrite <- !app_assoc.
Qed.

Lemma block_mem_mask b : 0 ≤ b < 8 →
  mask_of_block block_mem (zlen a) (top_of tags) b = mask_of (32 * b) (block_tags tags b).
Proof.
  intros Hb. unfold mask_of_block. destruct (Z.testbit (top_of tags) b) eqn:Eb.
  - destruct (block_mem_entry b Hb Eb) as (pre&post&E&<-). pose proof block_mem_ok as Hok. rewrite E in *.
    unfold entry_of in *. cbn [app] in *. rewrite cons_middle, app_assoc in *.
    replace (zlen pre + 1) with (zlen (pre ++ [zlen (below tags b)])) by zlia.
    apply (word_at_app _ 4); [by right; right|done|by apply block_mask_range].
  - by rewrite block_tags_empty by (done || lia).
Qed.

Lemma block_mem_rank b : 0 ≤ b < 8 → Z.testbit (top_of tags) b = true →
  byte_at block_mem (zlen a + 5 * entries_before (top_of tags) b) = zlen (below tags b).
Proof.
  intros Hb Eb. destruct (block_mem_entry b Hb Eb) as (pre&post&E&<-). rewrite E. apply byte_at_app.
Qed.

Lemma block_mem_tags n : 0 ≤ n ≤ 8 → tags_of_blocks block_mem (zlen a) (top_of tags) 0 n = below tags n.
Proof.
  intros [Hn0 Hn8]. revert Hn8. pattern n. apply natlike_ind; [by rewrite below_0| |done].
  intros m Hm IH Hm8. unfold Z.succ in *.
  by rewrite tags_of_blocks_succ, IH, block_mem_mask, block_mask_tags, below_succ by (done || lia).
Qed.

Lemma block_mem_block_ok b : 0 ≤ b < 8 → block_ok block_mem (zlen a) (top_of tags) b.
Proof.
  intros Hb Eb. rewrite block_mem_mask, block_mem_tags by lia. split_and!.
  - by apply block_mem_rank.
  - intros E0. apply (top_bit tags Ht b) in Eb; [|lia]. apply Eb. by rewrite <- (block_mask_tags tags Ht b), E0.
  - intros ->. apply not_true_iff_false. intros Hbit.
    assert (Hin : 256 ∈ tags_of_mask (32 * 7) (mask_of (32 * 7) (block_tags tags 7))).
    { apply elem_of_tags_of_mask. split; [exact Hbit|lia]. }
    rewrite (block_mask_tags tags Ht) in Hin. apply list_elem_of_filter in Hin as [_ Hin].
    pose proof (tag_range tags Ht 256 Hin). lia.
Qed.
End BlockDirectory.

(** A tag is in the block of its upper bits. *)
Lemma tag_block t : t ∈ tags → t ∈ block_tags tags ((t - 1) / 32) ∧ Z.testbit (top_of tags) ((t - 1) / 32) = true.
Proof.
  intros Hin. pose proof (tag_range tags Ht t Hin) as Hr.
  assert (Hbt : t ∈ block_tags tags ((t - 1) / 32)).
  { apply list_elem_of_filter. split; [|done].
    pose proof (Z.div_mod (t - 1) 32 ltac:(lia)). pose proof (Z.mod_pos_bound (t - 1) 32 ltac:(lia)). lia. }
  split; [done|]. apply top_bit; [done|apply Z.div_pos; lia|]. intros E. rewrite E in Hbt. by apply not_elem_of_nil in Hbt.
Qed.

Lemma top_nonzero : tags ≠ [] → top_of tags ≠ 0.
Proof.
  intros Hne E0. destruct (exists_last Hne) as (l&t&E). assert (Hin : t ∈ tags) by (rewrite E; apply elem_of_app; right; by left).
  destruct (tag_block t Hin) as [_ Hb]. by rewrite E0, Z.bits_0 in Hb.
Qed.

Lemma blocks_encode : tags ≠ [] → dir_encodes 7 (block_entries_of ++ [top_of tags]) tags.
Proof.
  intros Hne. split; [apply block_dir_ok|]. intros a c Ha Hc. cbn zeta. fold (block_mem a c).
  unfold dir_size, dir_tags. cbn [Z.eqb BEBOP_MESSAGE_DIRECTORY_EMPTY]. change (is_tiny 7) with false.
  change (is_mask 7) with false. cbn iota. rewrite block_mem_top by done. split_and!.
  - rewrite zlen_app. unfold block_entries_of. rewrite zlen_entries. unfold bebop_wire_popcount32.
    rewrite (bits_widen 8 32) by (lia || by apply top_range). zlia.
  - rewrite block_mem_tags by (done || lia). by apply below_8.
  - intros _. split; [by apply top_nonzero|]. intros b Hb. by apply block_mem_block_ok.
Qed.
End Directories.

(** ** The layout *)

Section Layout.
Context (tags : list Z) (Ht : tags_ok tags) (Hne : tags ≠ []).

(** The number of tags and the largest one. *)
Lemma last_tag : ∃ m, load tags (zlen tags - 1) = Some m ∧ m ∈ tags ∧ Forall (λ t, t ≤ m) tags.
Proof.
  destruct (exists_last Hne) as (l&m&E). exists m. split_and!.
  - apply (load_mid (pre := l) (post := [])); [by rewrite E|]. rewrite E. zlia.
  - rewrite E. apply elem_of_app. right. by left.
  - pose proof (proj1 Ht) as Hs. rewrite E in Hs |- *. apply Forall_app. split; [|by constructor].
    clear -Hs. induction l as [|x l IH]; [constructor|]. cbn in Hs. apply StronglySorted_inv in Hs as [Hs Hf].
    constructor; [|by apply IH]. apply Forall_app in Hf as [_ Hf]. apply Forall_cons in Hf as [Hf _]. lia.
Qed.

Lemma zlen_tags_pos : 1 ≤ zlen tags ≤ 255.
Proof. pose proof (tags_ok_length tags Ht). destruct tags; [done|zlia]. Qed.

Lemma popcount_top : bebop_wire_popcount32 (top_of tags) = zlen (bits 8 (top_of tags)) ∧
  1 ≤ bebop_wire_popcount32 (top_of tags) ≤ 8.
Proof.
  unfold bebop_wire_popcount32. rewrite (bits_widen 8 32) by (lia || by apply top_range). split; [done|]. split.
  - destruct (bits 8 (top_of tags)) as [|x l] eqn:E; [|zlia]. exfalso. apply (top_nonzero tags Ht Hne).
    apply (bits_nil_inv 8); [lia|by apply top_range|done].
  - unfold zlen, bits. pose proof (length_filter (λ i, Z.testbit (top_of tags) i = true) (seqZ 0 8)) as Hl.
    rewrite length_seqZ in Hl. lia.
Qed.

(** The three shapes of a nonempty directory. *)
Definition layout_shape (ly : bebop_message_directory_layout_t) : Prop :=
  (ly_kind ly = zlen tags ∧ zlen tags ≤ 3 ∧ ly_size ly = zlen tags) ∨
  (4 ≤ ly_kind ly ≤ 6 ∧ ly_size ly = mask_width (ly_kind ly) ∧ Forall (λ t, t ≤ 8 * ly_size ly) tags) ∨
  (ly_kind ly = 7 ∧ ly_size ly = 1 + 5 * bebop_wire_popcount32 (top_of tags)).

Lemma layout_spec :
  ∃ ly, bebop_message_directory_layout (Some tags) (zlen tags) = Some ly ∧
    ly_block_mask ly = top_of tags ∧ layout_shape ly.
Proof.
  pose proof zlen_tags_pos as Hz. pose proof popcount_top as [_ Hp]. destruct last_tag as (m&Em&_&Hm).
  unfold bebop_message_directory_layout. destruct (Z.eqb_spec (zlen tags) 0); [lia|]. cbn [mbind option_bind].
  pose proof (layout_blocks_spec [] tags 0 (proj2 Ht)) as El. change (zlen (@nil Z)) with 0 in El. cbn [app] in El.
  rewrite to_nat_zlen, El. cbn [mbind option_bind]. fold (top_of tags). rewrite Em. cbn [mbind option_bind].
  rewrite u8_small by lia. set (size := 1 + 5 * _) in *.
  assert (Hf : ∀ k, m ≤ k → Forall (λ t, t ≤ k) tags)
    by (intros k Hk; eapply Forall_impl; [exact Hm|]; cbn; lia).
  eexists. split; [reflexivity|]. unfold layout_shape.
  destruct ((m <=? 8) && (1 <=? size)) eqn:C8; [|destruct ((m <=? 16) && (2 <=? size)) eqn:C16;
    [|destruct ((m <=? 32) && (4 <=? size)) eqn:C32]]; cbn [ly_size];
    destruct ((zlen tags <=? 3) && _) eqn:C3; cbn [ly_kind ly_size ly_block_mask]; (split; [done|]);
    try (left; split_and!; [done|lia|done]);
    right; [left|left|left|right; done]; (split_and!; [done|done|done|apply Hf; cbn; lia]).
Qed.

Lemma directory_bytes_spec ly : ly_block_mask ly = top_of tags → layout_shape ly →
  ∃ dir, directory_bytes ly tags (zlen tags) = Some (Go dir) ∧ dir_encodes (ly_kind ly) dir tags ∧
    zlen dir = ly_size ly ∧ 1 ≤ ly_kind ly ≤ 7.
Proof.
  intros Eb Hs. pose proof zlen_tags_pos as Hz. pose proof popcount_top as [Ep Hp]. unfold directory_bytes.
  change BEBOP_MESSAGE_DIRECTORY_EMPTY with 0. destruct Hs as [(Ek&Hc&Es)|[(Hk&Es&Hf)|(Ek&Es)]].
  - destruct (Z.eqb_spec (ly_kind ly) 0); [lia|].
    assert (is_tiny (ly_kind ly) = true) as ->
      by (unfold is_tiny, BEBOP_MESSAGE_DIRECTORY_TINY1, BEBOP_MESSAGE_DIRECTORY_TINY3; lia).
    rewrite load_bytes_all. cbn [mbind option_bind]. exists tags. rewrite Ek, Es. split_and!; try done; try lia.
    apply tiny_encodes; [done|lia].
  - assert (Hmk : is_mask (ly_kind ly) = true)
      by (unfold is_mask, BEBOP_MESSAGE_DIRECTORY_MASK8, BEBOP_MESSAGE_DIRECTORY_MASK32; lia).
    destruct (mask_kind_facts (ly_kind ly) ltac:(lia) Hmk) as (Hw&_&Et&E0&_). rewrite E0, Et, Hmk.
    assert (Hf32 : Forall (λ t, 1 ≤ t ≤ 32) tags).
    { apply Forall_forall. intros t Hin. pose proof (tag_range _ Ht t Hin).
      pose proof (proj1 (Forall_forall _ _) Hf t Hin) as Hle. cbn in Hle. rewrite Es in Hle.
      destruct Hw as [Hw|[Hw|Hw]]; rewrite Hw in Hle; lia. }
    pose proof (tag_mask_spec [] tags 0 Hf32) as Em. change (zlen (@nil Z)) with 0 in Em. cbn [app] in Em.
    rewrite to_nat_zlen, Em. cbn [mbind option_bind]. fold (mask_of 0 tags).
    rewrite Es, store_le_spec by exact Hw. rewrite Es in Hf. eexists. split; [reflexivity|]. split_and!; [|rewrite zlen_le_bytes|lia..].
    + by apply mask_encodes.
    + destruct Hw as [->|[->| ->]]; done.
  - rewrite Ek. change (is_tiny 7) with false. change (is_mask 7) with false. cbn [Z.eqb]. cbn iota.
    rewrite Eb. pose proof (block_entries_spec tags Ht 8 0 eq_refl ltac:(lia)) as Ee.
    rewrite below_0 in Ee by done. change (zlen (@nil Z)) with 0 in Ee. rewrite Ee. cbn [mbind option_bind].
    eexists. split; [reflexivity|]. split_and!; [by apply blocks_encode| |lia..].
    rewrite zlen_app. change (seqZ 0 (Z.of_nat 8)) with (seqZ 0 8). fold (bits 8 (top_of tags)).
    rewrite zlen_entries, Es, Ep. zlia.
Qed.
End Layout.

(** ** Validation *)

Lemma tiny_sorted_spec pre x rest :
  ∃ ok, tiny_sorted (length rest) (pre ++ x :: rest) 0 (zlen pre + 1) = Some ok ∧
        (ok = true ↔ StronglySorted Z.lt (x :: rest)).
Proof.
  revert pre x. induction rest as [|y rest IH]; intros pre x; cbn [length tiny_sorted].
  - exists true. split; [done|]. split; [|done]. intros _. by repeat constructor.
  - rewrite !Z.add_0_l.
    rewrite (load_mid (pre := pre ++ [x]) (x := y) (post := rest) _ (zlen pre + 1));
      [|by rewrite <- app_assoc|unfold zlen; rewrite length_app; cbn; lia].
    cbn [mbind option_bind]. replace (zlen pre + 1 - 1) with (zlen pre) by lia. rewrite load_app. cbn [mbind option_bind].
    destruct (Z.leb_spec y x) as [Hle|Hlt].
    + exists false. split; [done|]. split; [done|]. intros [_ Hf]%StronglySorted_inv.
      apply Forall_cons in Hf as [Hf _]. lia.
    + destruct (IH (pre ++ [x]) y) as (ok&E&Hok). rewrite <- app_assoc in E. cbn [app] in E.
      replace (zlen (pre ++ [x]) + 1) with (zlen pre + 1 + 1) in E by zlia. exists ok. split; [done|]. rewrite Hok. split.
      * intros Hs. constructor; [done|]. pose proof Hs as [_ Hf]%StronglySorted_inv. constructor; [done|].
        eapply Forall_impl; [exact Hf|]. cbn. lia.
      * by intros [Hs _]%StronglySorted_inv.
Qed.

(** [bebop_message_tags_valid] decides [tags_ok] on arrays of bytes. *)
Lemma tags_valid_spec tags : bytes_ok tags →
  ∃ ok, bebop_message_tags_valid (Some tags) (zlen tags) = Some ok ∧ (ok = true ↔ tags_ok tags).
Proof.
  intros Hb. unfold bebop_message_tags_valid. destruct tags as [|x rest].
  { exists true. split; [done|]. split; [|done]. intros _. split; constructor. }
  destruct (Z.eqb_spec (zlen (x :: rest)) 0) as [E0|_]; [zlia|]. change (load (x :: rest) 0) with (Some x). cbn [mbind option_bind].
  destruct (Z.eqb_spec x 0) as [->|Hx].
  - exists false. split; [done|]. split; [done|]. intros [_ Hf]. apply Forall_cons in Hf as [Hf _]. lia.
  - destruct (tiny_sorted_spec [] x rest) as (ok&E&Hok). cbn [app] in E. change (zlen (@nil Z) + 1) with 1 in E.
    replace (Z.to_nat (zlen (x :: rest) - 1)) with (length rest) by (unfold zlen; cbn; lia).
    exists ok. split; [done|]. rewrite Hok. unfold tags_ok. split; [|by intros [? _]]. intros Hs. split; [done|].
    apply Forall_cons in Hb as [Hbx Hb]. unfold byte_ok in *. pose proof Hs as [_ Hf]%StronglySorted_inv.
    constructor; [lia|]. apply Forall_forall. intros t Hin. pose proof (proj1 (Forall_forall _ _) Hf t Hin).
    pose proof (proj1 (Forall_forall _ _) Hb t Hin). cbn in *. lia.
Qed.

(** ** Offsets and boundaries *)

(** The offsets the fields start at, in a payload of [size] bytes. *)
Definition offsets_ok (size : Z) (offsets : list Z) : Prop :=
  Forall (λ o, 0 ≤ o ≤ size) offsets ∧ StronglySorted Z.le offsets ∧ default 0 (head offsets) = 0.

Lemma offsets_valid_rest size pre x rest :
  x ≤ size →
  ∃ ok, offsets_valid (length rest) (pre ++ x :: rest) size (zlen pre + 1) = Some ok ∧
        (ok = true ↔ Forall (λ o, o ≤ size) rest ∧ StronglySorted Z.le (x :: rest)).
Proof.
  revert pre x. induction rest as [|y rest IH]; intros pre x Hx; cbn [length offsets_valid].
  - exists true. split; [done|]. split; [|done]. intros _. split; [constructor|by repeat constructor].
  - rewrite (load_mid (pre := pre ++ [x]) (x := y) (post := rest) _ (zlen pre + 1));
      [|by rewrite <- app_assoc|unfold zlen; rewrite length_app; cbn; lia].
    cbn [mbind option_bind]. destruct (Z.ltb_spec size y) as [Hlt|Hy].
    { exists false. split; [done|]. split; [done|]. intros [Hf _]. apply Forall_cons in Hf as [Hf _]. lia. }
    destruct (Z.eqb_spec (zlen pre + 1) 0); [zlia|].
    replace (zlen pre + 1 - 1) with (zlen pre) by lia. rewrite load_app. cbn [mbind option_bind].
    destruct (Z.ltb_spec y x) as [Hlt|Hle].
    + exists false. split; [done|]. split; [done|]. intros [_ [_ Hf]%StronglySorted_inv].
      apply Forall_cons in Hf as [Hf _]. lia.
    + destruct (IH (pre ++ [x]) y Hy) as (ok&E&Hok). rewrite <- app_assoc in E. cbn [app] in E.
      replace (zlen (pre ++ [x]) + 1) with (zlen pre + 1 + 1) in E by zlia. exists ok. split; [done|]. rewrite Hok. split.
      * intros [Hf Hs]. split; [by constructor|]. constructor; [done|]. pose proof Hs as [_ Hg]%StronglySorted_inv.
        constructor; [done|]. eapply Forall_impl; [exact Hg|]. cbn. lia.
      * intros [Hf Hs]. apply Forall_cons in Hf as [_ Hf]. by apply StronglySorted_inv in Hs as [Hs _].
Qed.

(** The two tests of the offsets decide [offsets_ok] on arrays of unsigned numbers. *)
Lemma offsets_valid_spec size offsets : Forall (λ o, 0 ≤ o) offsets → offsets ≠ [] →
  ∃ first ok, first_offset_zero offsets = Some first ∧
    offsets_valid (Z.to_nat (zlen offsets)) offsets size 0 = Some ok ∧
    (first = true ∧ ok = true ↔ offsets_ok size offsets).
Proof.
  intros Hpos Hne. rewrite to_nat_zlen. destruct offsets as [|x rest]; [done|]. exists (x =? 0).
  unfold first_offset_zero. cbn [length offsets_valid]. change (load (x :: rest) 0) with (Some x). cbn [mbind option_bind].
  apply Forall_cons in Hpos as [Hx Hpos].
  destruct (Z.ltb_spec size x) as [Hlt|Hle]; cbn [Z.eqb].
  - exists false. split_and!; [done|done|]. split; [by intros []|]. intros [Hf _]. apply Forall_cons in Hf as [Hf _]. lia.
  - cbn iota. destruct (offsets_valid_rest size [] x rest Hle) as (ok&E&Hok). cbn [app] in E.
    change (zlen (@nil Z) + 1) with (0 + 1) in E. cbn [mbind option_bind]. exists ok. split_and!; [done|done|].
    rewrite Hok, Z.eqb_eq. unfold offsets_ok. cbn [head default from_option]. unfold id. split.
    + intros (->&Hf&Hs). split_and!; [constructor; [lia|]|done|done]. apply Forall_and. by split.
    + intros (Hf&Hs&->). apply Forall_cons in Hf as [_ Hf]. split_and!; [done| |done]. eapply Forall_impl; [exact Hf|]. cbn. lia.
Qed.

Section Boundaries.
Context (width : Z) (Hw : width_ok width).

Definition boundaries_of (l : list Z) : list Z := concat (map (le_bytes (Z.to_nat width)) l).

Lemma boundary_bytes_spec pre rest :
  boundary_bytes (length rest) (pre ++ rest) width (zlen pre) = Some (boundaries_of rest).
Proof.
  revert pre. induction rest as [|o rest IH]; intros pre; [done|]. cbn [length boundary_bytes].
  rewrite load_app. cbn [mbind option_bind]. replace (zlen pre + 1) with (zlen (pre ++ [o])) by zlia.
  rewrite (cons_middle o pre rest), (app_assoc pre [o] rest), IH. cbn [mbind option_bind].
  by rewrite store_le_spec by exact Hw.
Qed.

Lemma boundaries_ok l : bytes_ok (boundaries_of l).
Proof.
  unfold boundaries_of. induction l as [|o l IH]; [constructor|]. cbn [map concat]. apply Forall_app. split; [apply le_bytes_ok|done].
Qed.

Lemma zlen_boundaries l : zlen (boundaries_of l) = zlen l * width.
Proof.
  unfold boundaries_of. induction l as [|o l IH]; [done|]. cbn [map concat]. rewrite zlen_app, IH, zlen_le_bytes, zlen_cons.
  destruct Hw as [->|[->| ->]]; lia.
Qed.

Lemma boundary_at a l b k o :
  bytes_ok (a ++ boundaries_of l ++ b) → l !! k = Some o → 0 ≤ o < 2 ^ (8 * width) →
  word_at (a ++ boundaries_of l ++ b) (zlen a + Z.of_nat k * width) width = o.
Proof.
  intros Hb Hk Ho. apply list_elem_of_split_length in Hk as (l1&l2&->&->).
  assert (E : a ++ boundaries_of (l1 ++ o :: l2) ++ b =
              (a ++ boundaries_of l1) ++ le_bytes (Z.to_nat width) o ++ (boundaries_of l2 ++ b)).
  { unfold boundaries_of. rewrite map_app, concat_app. cbn [map concat]. by rewrite <- !app_assoc. }
  rewrite E in Hb |- *. replace (zlen a + Z.of_nat (length l1) * width) with (zlen (a ++ boundaries_of l1))
    by (rewrite zlen_app, zlen_boundaries; done).
  by apply word_at_app.
Qed.
End Boundaries.

(** ** The encoded message *)

Section Encoded.
Context (pre payload tags offsets dir : list Z) (kind width : Z).
Context (Hpre : bytes_ok pre) (Hpay : bytes_ok payload) (Ht : tags_ok tags) (Ho : offsets_ok (zlen payload) offsets).
Context (Hlen : zlen offsets = zlen tags) (Hk : 0 ≤ kind ≤ 7) (Hd : dir_encodes kind dir tags) (Hw : width_ok width).
Context (Hempty : tags = [] ↔ kind = 0) (Hnil : tags = [] → payload = []) (Hpw : zlen payload < 2 ^ (8 * width)).

Definition en_bounds : list Z := boundaries_of width (tail offsets).
Definition en_control : Z := 4 * kind + width_code_of width.
Definition en_body : list Z := payload ++ en_bounds ++ dir ++ [en_control].
Definition en_mem : list Z := pre ++ le_bytes 4 (zlen en_body) ++ en_body.
Context (Hsize : zlen en_body < 2 ^ 32) (Hmem : zlen en_mem < 2 ^ 63).

Definition en_view : Bebop_View := mkView en_mem (Some (zlen pre)) (4 + zlen en_body).
Definition en_index : Bebop_MessageIndex :=
  mkIndex en_view (zlen pre + 4 + zlen payload) (zlen pre + 4 + zlen payload + zlen en_bounds) (zlen tags) width kind.

Lemma en_control_ok : byte_ok en_control.
Proof. unfold byte_ok, en_control, width_code_of. destruct (width =? 1), (width =? 2); lia. Qed.

Lemma en_mem_ok : bytes_ok en_mem.
Proof.
  pose proof en_control_ok. pose proof (proj1 Hd). unfold en_mem, en_body.
  repeat (apply Forall_app; split; [done || apply le_bytes_ok || apply boundaries_ok|]). by constructor.
Qed.

Lemma zlen_en_bounds : zlen en_bounds = boundary_count (zlen tags) * width.
Proof.
  unfold en_bounds, boundary_count. rewrite zlen_boundaries by done. rewrite <- Hlen.
  destruct offsets as [|o l]; [done|]. rewrite zlen_cons. cbn [tail].
  destruct (Z.eqb_spec (1 + zlen l) 0); [zlia|]. f_equal. lia.
Qed.

Lemma zlen_en_mem : zlen en_mem = zlen pre + 4 + zlen en_body.
Proof. unfold en_mem. rewrite !zlen_app, zlen_le_bytes. lia. Qed.

Lemma zlen_en_body : zlen en_body = zlen payload + zlen en_bounds + zlen dir + 1.
Proof. unfold en_body. zlia. Qed.

(** The directory and the control byte are the end of the message. *)
Definition en_front : list Z := pre ++ le_bytes 4 (zlen en_body) ++ payload ++ en_bounds.

Lemma en_mem_dir : en_mem = en_front ++ dir ++ [en_control].
Proof. unfold en_mem, en_body, en_front. by rewrite <- !app_assoc. Qed.

Lemma en_front_ok : bytes_ok en_front.
Proof. pose proof en_mem_ok as Hm. rewrite en_mem_dir in Hm. by apply Forall_app in Hm as [Hm _]. Qed.

Lemma zlen_en_front : zlen en_front = zlen pre + 4 + zlen payload + zlen en_bounds.
Proof. unfold en_front. rewrite !zlen_app, zlen_le_bytes. lia. Qed.

Lemma en_end : mi_end en_index = zlen en_mem.
Proof. unfold mi_end, mi_data. cbn. rewrite zlen_en_mem. lia. Qed.

Lemma en_dir :
  dir_size en_mem (zlen en_mem) kind = zlen dir ∧ index_tags en_index = tags ∧
  (kind = 7 → byte_at en_mem (zlen en_mem - 2) ≠ 0 ∧
     ∀ b, 0 ≤ b < 8 → block_ok en_mem (zlen en_front) (byte_at en_mem (zlen en_mem - 2)) b).
Proof.
  destruct (proj2 Hd en_front en_control en_front_ok en_control_ok) as (H1&H2&H3).
  cbv zeta in H1, H2, H3. rewrite <- en_mem_dir in H1, H2, H3. split_and!; [done| |done].
  unfold index_tags. rewrite en_end. change (mi_mem en_index) with en_mem. cbn [mi_directory mi_directory_kind en_index].
  rewrite <- zlen_en_front. exact H2.
Qed.

Lemma en_mi_mem : mi_mem en_index = en_mem.
Proof. done. Qed.
Lemma en_mi_data : mi_data en_index = zlen pre.
Proof. done. Qed.

Lemma en_payload_size : payload_size en_index = zlen payload.
Proof. unfold MessageSpec.payload_size. rewrite en_mi_data. cbn. lia. Qed.

Lemma en_payload : MessageQuery.payload en_index = payload.
Proof.
  unfold MessageQuery.payload. rewrite en_payload_size, en_mi_data, en_mi_mem.
  assert (Ez : zlen pre + 4 = zlen (pre ++ le_bytes 4 (zlen en_body))) by (rewrite zlen_app, zlen_le_bytes; lia).
  rewrite Ez, !to_nat_zlen. unfold en_mem. rewrite app_assoc, drop_app_length. apply take_app_length.
Qed.

(** The boundaries of the index are the offsets of the second and later fields. *)
Lemma en_boundary k o : tail offsets !! Z.to_nat k = Some o → 0 ≤ k → mi_boundary en_index k = o.
Proof.
  intros Hk0 Hk1. unfold mi_boundary. rewrite en_mi_mem. cbn [mi_boundaries mi_offset_width en_index].
  pose proof en_mem_ok as Hm.
  assert (E : en_mem = (pre ++ le_bytes 4 (zlen en_body) ++ payload) ++ boundaries_of width (tail offsets) ++ dir ++ [en_control]).
  { unfold en_mem, en_body, en_bounds. by rewrite <- !app_assoc. }
  rewrite E in Hm |- *.
  replace (zlen pre + 4 + zlen payload + k * width) with
    (zlen (pre ++ le_bytes 4 (zlen en_body) ++ payload) + Z.of_nat (Z.to_nat k) * width)
    by (rewrite !zlen_app, zlen_le_bytes, Z2Nat.id; lia).
  apply boundary_at; [done..|].
  assert (Hin : o ∈ offsets) by (destruct offsets; [done|]; right; by eapply list_elem_of_lookup_2).
  pose proof (proj1 (Forall_forall _ _) (proj1 Ho) o Hin) as Hr. cbn in Hr. lia.
Qed.

Lemma en_slice_start r o : offsets !! Z.to_nat r = Some o → 0 ≤ r → slice_start en_index r = o.
Proof.
  intros Hr Hr0. unfold slice_start. destruct (Z.eqb_spec r 0) as [->|Hne].
  - destruct Ho as (_&_&Hh). destruct offsets as [|x l]; [done|]. change (Z.to_nat 0) with 0%nat in Hr. cbn in Hr, Hh. congruence.
  - apply en_boundary; [|lia]. destruct offsets as [|x l]; [done|]. cbn [tail].
    replace (Z.to_nat r) with (S (Z.to_nat (r - 1))) in Hr by lia. exact Hr.
Qed.

Lemma offset_le a b x y : offsets !! a = Some x → offsets !! b = Some y → (a ≤ b)%nat → x ≤ y.
Proof.
  intros Ha Hb Hab. destruct (decide (a = b)) as [->|Hne]; [assert (x = y) by congruence; lia|].
  pose proof (proj1 (proj2 Ho)) as Hs. apply list_elem_of_split_length in Hb as (l1&l2&E&->).
  rewrite E in Hs, Ha. rewrite lookup_app_l in Ha by lia. apply list_elem_of_lookup_2 in Ha.
  clear -Hs Ha. induction l1 as [|z l1 IH]; [by apply not_elem_of_nil in Ha|]. cbn in Hs.
  apply StronglySorted_inv in Hs as [Hs Hf]. apply elem_of_cons in Ha as [->|Ha]; [|by apply IH].
  apply Forall_app in Hf as [_ Hf]. by apply Forall_cons in Hf as [Hf _].
Qed.

Lemma en_bounds_ok : bounds_ok en_index.
Proof.
  intros k Hkr. cbn [mi_field_count en_index] in Hkr. rewrite en_payload_size.
  destruct (lookup_lt_is_Some_2 offsets (Z.to_nat (k + 1))) as [o Eo]; [unfold zlen in *; lia|].
  destruct (lookup_lt_is_Some_2 offsets (Z.to_nat k)) as [p Ep]; [unfold zlen in *; lia|].
  assert (Et : mi_boundary en_index k = o).
  { apply en_boundary; [|lia]. destruct offsets as [|x l]; [done|]. cbn [tail].
    replace (Z.to_nat (k + 1)) with (S (Z.to_nat k)) in Eo by lia. exact Eo. }
  pose proof (en_slice_start k p Ep ltac:(lia)) as Es. unfold slice_start in Es. rewrite Es, Et. split.
  - apply (offset_le (Z.to_nat k) (Z.to_nat (k + 1))); [done..|lia].
  - pose proof (proj1 (Forall_forall _ _) (proj1 Ho) o (list_elem_of_lookup_2 _ _ _ Eo)) as Hr. cbn in Hr. lia.
Qed.

Lemma en_view_ok : view_ok en_view.
Proof.
  exists (zlen pre). cbn [view_data view_length view_mem en_view]. rewrite zlen_en_mem in *. zlen_pos.
  split_and!; try done; try lia. apply en_mem_ok.
Qed.

Lemma en_length : word_at en_mem (zlen pre) 4 = zlen en_body.
Proof.
  pose proof en_mem_ok as Hm. unfold en_mem in *. apply (word_at_app pre 4); [by right; right|done|]. zlen_pos. lia.
Qed.

Lemma en_byte_control : byte_at en_mem (zlen en_mem - 1) = en_control.
Proof.
  rewrite en_mem_dir, app_assoc. replace (zlen ((en_front ++ dir) ++ [en_control]) - 1) with (zlen (en_front ++ dir)) by zlia.
  apply byte_at_app.
Qed.

Lemma en_index_ok : index_ok en_index.
Proof.
  destruct en_dir as (H1&H2&H3). pose proof zlen_en_body. pose proof zlen_en_bounds. zlen_pos.
  pose proof zlen_en_mem. pose proof en_end.
  constructor; rewrite ?en_end, ?en_mi_mem, ?en_mi_data; cbn [mi_encoded mi_boundaries mi_directory mi_field_count mi_offset_width mi_directory_kind view_length en_index en_view].
  - apply en_view_ok.
  - pose proof (zlen_nonneg payload). pose proof (zlen_nonneg dir). pose proof (zlen_nonneg en_bounds). lia.
  - rewrite en_length. lia.
  - done.
  - done.
  - apply en_byte_control.
  - lia.
  - by rewrite H2.
  - lia.
  - pose proof (zlen_nonneg payload). lia.
  - by rewrite H2.
  - change BEBOP_MESSAGE_DIRECTORY_EMPTY with 0. rewrite <- Hempty. destruct tags; [done|]. split; [zlia|done].
  - intros E0. assert (En : tags = []) by (destruct tags; [done|zlia]). rewrite (Hnil En). rewrite zlen_nil. lia.
  - intros Hk7. unfold mi_top. rewrite en_end, en_mi_mem, <- zlen_en_front. by apply H3.
Qed.
End Encoded.
