(* ===== verification/MessageRoundTrip.v ===== *)
(** Round trip of messages: what [bebop_writer_end_indexed_message] writes is read
    back by the message index, field by field. *)
From S2P Require Import Prelude.
From S2P Require Import WireTypes.
From S2P Require Import Bits.
From S2P Require Import Reader.
From S2P Require Import Arena.
From S2P Require Import Writer.
From S2P Require Import RoundTrip.
From S2P Require Import MessageIndex.
From S2P Require Import MessageSpec.
From S2P Require Import MessageQuery.
From S2P Require Import MessageProps.
From S2P Require Import MessageWriter.
From S2P Require Import MessageEncode.

(** ** The layout of any list of tags *)

Lemma layout_any tags : tags_ok tags →
  ∃ ly dir, bebop_message_directory_layout (Some tags) (zlen tags) = Some ly ∧
    directory_bytes ly tags (zlen tags) = Some (Go dir) ∧ dir_encodes (ly_kind ly) dir tags ∧
    zlen dir = ly_size ly ∧ 0 ≤ ly_kind ly ≤ 7 ∧ (tags = [] ↔ ly_kind ly = 0) ∧ 0 ≤ ly_size ly ≤ 41.
Proof.
  intros Ht. destruct (decide (tags = [])) as [->|Hne].
  - exists (mkLayout 0 0 0), []. split_and!; try done.
  - destruct (layout_spec tags Ht Hne) as (ly&El&Eb&Hs).
    destruct (directory_bytes_spec tags Ht Hne ly Eb Hs) as (dir&Ed&He&Hz&Hk). exists ly, dir.
    split_and!; try done; try lia.
    + split; [done|lia].
    + rewrite <- Hz. zlia.
    + pose proof (zlen_tags_pos tags Ht Hne). pose proof (popcount_top tags Ht Hne) as [_ Hp].
      destruct Hs as [(_&Hc&->)|[(Hk'&->&_)|(_&->)]]; [lia| |lia].
      destruct (mask_kind_facts (ly_kind ly) ltac:(lia)) as (Hw&_);
        [unfold is_mask, BEBOP_MESSAGE_DIRECTORY_MASK8, BEBOP_MESSAGE_DIRECTORY_MASK32; lia|].
      destruct Hw as [->|[->| ->]]; lia.
Qed.

Lemma offset_width_facts n : 0 ≤ n ≤ UINT32_MAX →
  width_ok (offset_width_for n) ∧ n < 2 ^ (8 * offset_width_for n).
Proof.
  intros Hn. unfold offset_width_for, UINT8_MAX, UINT16_MAX, UINT32_MAX, width_ok in *.
  destruct (Z.leb_spec n (2 ^ 8 - 1)); [split; [auto|lia]|]. destruct (Z.leb_spec n (2 ^ 16 - 1)); (split; [auto|lia]).
Qed.

Lemma control_eq kind width : 0 ≤ kind ≤ 7 →
  u8 (Z.lor (Z.shiftl kind 2) (if width =? 1 then 0 else if width =? 2 then 1 else 2)) =
  4 * kind + width_code_of width.
Proof.
  intros Hk. unfold width_code_of. assert (Hc : kind ∈ seqZ 0 8) by (apply elem_of_seqZ; lia).
  destruct (width =? 1), (width =? 2); repeat (apply elem_of_cons in Hc as [->|Hc]; [done|]); by apply not_elem_of_nil in Hc.
Qed.

(** *** The size of a message *)

Lemma indexed_message_size_spec payload_size tags ly :
  tags_ok tags → bebop_message_directory_layout (Some tags) (zlen tags) = Some ly → 0 ≤ payload_size →
  let meta := metadata_size_of ly (zlen tags) (offset_width_for payload_size) in
  bebop_indexed_message_size payload_size (Some tags) (zlen tags) =
  Some (if UINT32_MAX - meta <? payload_size then SIZE_MAX else 4 + payload_size + meta) ∧ 1 ≤ meta ≤ 1058.
Proof.
  intros Ht El Hn meta.
  assert (Hmeta : 1 ≤ meta ≤ 1058).
  { destruct (layout_any tags Ht) as (ly'&dir&El'&_&_&Hz&_&_&Hs). assert (ly' = ly) as -> by congruence.
    pose proof (tags_ok_length tags Ht). subst meta. unfold metadata_size_of, offset_width_for. zlen_pos.
    destruct (payload_size <=? UINT8_MAX), (payload_size <=? UINT16_MAX), (Z.eqb_spec (zlen tags) 0); lia. }
  split; [|done]. unfold bebop_indexed_message_size.
  destruct (tags_valid_spec tags (tags_bytes_ok tags Ht)) as (ok&Ev&Hok). rewrite Ev. cbn [mbind option_bind].
  rewrite (proj2 Hok Ht). cbn [negb orb]. destruct (Z.ltb_spec UINT32_MAX payload_size) as [Hlt|Hle].
  - destruct (Z.ltb_spec (UINT32_MAX - meta) payload_size); [done|lia].
  - rewrite El. cbn [mbind option_bind]. fold meta.
    assert ((SIZE_MAX - BEBOP_WIRE_SIZE_LEN - meta <? payload_size) = false) as ->
      by (unfold BEBOP_WIRE_SIZE_LEN, SIZE_MAX, UINT32_MAX in *; lia).
    rewrite orb_false_r.
    by destruct (_ <? payload_size).
Qed.

(** *** The bytes of the index *)

Lemma index_bytes_spec ly tags offsets dir width :
  width_ok width → zlen offsets = zlen tags → 0 ≤ ly_kind ly ≤ 7 → directory_bytes ly tags (zlen tags) = Some (Go dir) →
  index_bytes ly tags offsets (zlen tags) width =
  Some (Go (boundaries_of width (tail offsets) ++ dir ++ [4 * ly_kind ly + width_code_of width])).
Proof.
  intros Hw Hl Hk Ed. unfold index_bytes. rewrite Ed, control_eq by done. rewrite <- Hl.
  assert (Eb : boundary_bytes (Z.to_nat (zlen offsets - 1)) offsets width 1 = Some (boundaries_of width (tail offsets))).
  { destruct offsets as [|o l]; [done|]. cbn [tail].
    replace (Z.to_nat (zlen (o :: l) - 1)) with (length l) by (unfold zlen; cbn; lia).
    exact (boundary_bytes_spec width Hw [o] l). }
  rewrite Eb. done.
Qed.

(** ** The writer *)

Section EndMessage.
Context `{HostAllocatorOk} `{PlatformOk}.

(** The decoder's view of the message behind [pre], and what it finds there. *)
Definition holds_message (data pre : list Z) (size : Z) (tags offsets payload : list Z) : Prop :=
  take (length pre) data = pre ∧ zlen data = zlen pre + size ∧
  ∃ i, index_of (mkView data (Some (zlen pre)) size) i ∧ index_tags i = tags ∧ MessageQuery.payload i = payload ∧
    ∀ r o, offsets !! Z.to_nat r = Some o → 0 ≤ r → slice_start i r = o.

(** All the tests pass: what remains is growing the buffer and storing. *)
Lemma end_message_checks L s position tags offsets payload_size ly :
  writer_ok L s → zlen (ws_data s) = position + 4 + payload_size → 0 ≤ position → 0 ≤ payload_size →
  tags_ok tags → offsets_ok payload_size offsets → zlen offsets = zlen tags → (tags = [] → payload_size = 0) →
  bebop_message_directory_layout (Some tags) (zlen tags) = Some ly →
  let meta := metadata_size_of ly (zlen tags) (offset_width_for payload_size) in
  1 ≤ meta → payload_size ≤ UINT32_MAX - meta →
  bebop_writer_end_indexed_message PTR position (position + 4) (Some tags) (Some offsets) (zlen tags) s =
  if_ok (bebop_writer_reserve PTR meta)
    (output ← lift (index_bytes ly tags offsets (zlen tags) (offset_width_for payload_size));
     match output with
     | Reject => mret BEBOP_RESULT_INVALID
     | Go output => wr_put output;; bebop_writer_end_length PTR position (u32 (payload_size + meta))
     end) s.
Proof.
  intros Hs Hz Hp Hn Ht Hof Hl Hnil El meta Hm Hfit. unfold bebop_writer_end_indexed_message.
  assert (is_null PTR || (negb (zlen tags =? 0) && (no_array (Some tags) || no_array (Some offsets))) = false) as ->
    by (cbn; apply andb_false_r).
  destruct (tags_valid_spec tags (tags_bytes_ok tags Ht)) as (ok&Ev&Hok).
  rewrite (C_lift_bind _ _ _ _ Ev), (proj2 Hok Ht). cbn [negb].
  rewrite (C_bind_Some _ _ _ _ _ (writer_length_spec L s Hs)), Hz. pose proof (wo_capacity _ _ Hs). pose proof (wo_data _ _ Hs).
  rewrite Z.eqb_refl. cbn [negb]. rewrite orb_false_r. unfold BEBOP_WIRE_SIZE_LEN at 1.
  assert ((SIZE_MAX - 4 <? position) || (position + 4 + payload_size <? position + 4) = false) as ->
    by (unfold SIZE_MAX; lia).
  replace (position + 4 + payload_size - (position + 4)) with payload_size by lia.
  destruct (Z.ltb_spec UINT32_MAX payload_size); [lia|].
  assert ((zlen tags =? 0) && negb (payload_size =? 0) = false) as ->.
  { destruct (Z.eqb_spec (zlen tags) 0) as [E0|]; [|done]. destruct tags; [|zlia]. by rewrite Hnil. }
  cbn [default from_option]. unfold id.
  assert (Hoff : ∃ first, (if zlen tags =? 0 then Some true else first_offset_zero offsets) = Some first ∧ first = true ∧
             offsets_valid (Z.to_nat (zlen tags)) offsets payload_size 0 = Some true).
  { destruct (decide (offsets = [])) as [->|Hne].
    - change (zlen []) with 0 in Hl. rewrite <- Hl. by exists true.
    - assert (Hpos : Forall (λ o, 0 ≤ o) offsets) by (eapply Forall_impl; [apply Hof|]; cbn; lia).
      destruct (offsets_valid_spec payload_size offsets Hpos Hne) as (first&ok2&Ef&Eo&Hiff).
      destruct (proj2 Hiff Hof) as [-> ->]. exists true. rewrite <- Hl. split_and!; [|done|done].
      destruct (Z.eqb_spec (zlen offsets) 0); [|done]. destruct offsets; [done|zlia]. }
  destruct Hoff as (first&Ef&->&Eo). rewrite (C_lift_bind _ _ _ _ Ef). cbn [negb].
  rewrite (C_lift_bind _ _ _ _ Eo). cbn [negb]. rewrite (C_lift_bind _ _ _ _ El). fold meta. by destruct (Z.ltb_spec (UINT32_MAX - meta) payload_size); [lia|].
Qed.

(** The message behind [pre], with the length prefix in place. *)
Lemma holds_encoded pre payload tags offsets dir kind width :
  bytes_ok pre → bytes_ok payload → tags_ok tags → offsets_ok (zlen payload) offsets → zlen offsets = zlen tags →
  0 ≤ kind ≤ 7 → dir_encodes kind dir tags → width_ok width → (tags = [] ↔ kind = 0) → (tags = [] → payload = []) →
  zlen payload < 2 ^ (8 * width) → zlen (en_body payload offsets dir kind width) < 2 ^ 32 →
  zlen (en_mem pre payload offsets dir kind width) < 2 ^ 63 →
  holds_message (en_mem pre payload offsets dir kind width) pre
    (4 + zlen (en_body payload offsets dir kind width)) tags offsets payload.
Proof.
  intros Hpre Hpay Ht Hof Hl Hk He Hw Hempty Hnil Hpw Hsize Hmem. unfold holds_message. split_and!.
  - apply take_app_length.
  - rewrite zlen_en_mem. lia.
  - exists (en_index pre payload tags offsets dir kind width). split_and!.
    + split; [done|]. split; [by apply en_index_ok|by apply en_bounds_ok].
    + by apply en_dir.
    + by apply en_payload.
    + intros r o Hr Hr0. by apply en_slice_start.
Qed.

Lemma end_message_spec L s pre old payload tags offsets size :
  writer_ok L s → ws_data s = pre ++ old ++ payload → length old = 4%nat →
  tags_ok tags → offsets_ok (zlen payload) offsets → zlen offsets = zlen tags → (tags = [] → payload = []) →
  bebop_indexed_message_size (zlen payload) (Some tags) (zlen tags) = Some size → size ≠ SIZE_MAX →
  ∃ result s', bebop_writer_end_indexed_message PTR (zlen pre) (zlen pre + 4) (Some tags) (Some offsets) (zlen tags) s
      = Some (result, s') ∧ writer_ok L s' ∧
    (result = BEBOP_RESULT_OOM ∧ ws_data s' = ws_data s ∨
     result = BEBOP_RESULT_OK ∧ holds_message (ws_data s') pre size tags offsets payload).
Proof.
  intros Hs Ed Hold Ht Hof Hl Hnil Esz Hsz. destruct (layout_any tags Ht) as (ly&dir&El&Edir&He&Hzd&Hk&Hempty&_).
  zlen_pos. destruct (indexed_message_size_spec (zlen payload) tags ly Ht El ltac:(lia)) as [Es Hmeta].
  rewrite Es in Esz. injection Esz as Esz. set (meta := metadata_size_of _ _ _) in *.
  destruct (Z.ltb_spec (UINT32_MAX - meta) (zlen payload)) as [|Hfit]; [done|].
  assert (Hz4 : zlen old = 4) by (unfold zlen; by rewrite Hold).
  destruct (offset_width_facts (zlen payload) ltac:(lia)) as [Hw Hpw].
  rewrite (end_message_checks L s _ tags offsets (zlen payload) ly);
    [|done|rewrite Ed; zlia|lia|lia|done|done|done|intros Hn; by rewrite Hnil|done|subst meta; lia|done].
  fold meta. set (width := offset_width_for (zlen payload)) in *.
  destruct (reserve_spec L s meta Hs ltac:(lia)) as (r&s1&Er&Hs1&_&Ed1&Hr).
  unfold if_ok. rewrite (C_bind_Some _ _ _ _ _ Er). destruct Hr as [[-> Hroom]| ->]; cbn [is_ok];
    [|exists BEBOP_RESULT_OOM, s1; split_and!; [done|done|left; by split]].
  rewrite (C_lift_bind _ _ _ _ (index_bytes_spec ly tags offsets dir width Hw Hl Hk Edir)).
  set (output := boundaries_of _ _ ++ _).
  assert (Ebody : en_body payload offsets dir (ly_kind ly) width = payload ++ output) by done.
  assert (Hout : zlen output = meta).
  { pose proof (zlen_en_bounds pre payload tags offsets dir (ly_kind ly) width Hof Hl Hw) as Hbn. unfold en_bounds in Hbn. subst output meta.
    rewrite !zlen_app, Hbn, Hzd. unfold metadata_size_of, boundary_count. fold width. zlia. }
  assert (Hob : bytes_ok output).
  { subst output. apply Forall_app; split; [apply boundaries_ok|]. apply Forall_app; split; [apply He|].
    constructor; [by apply en_control_ok|constructor]. }
  rewrite wr_put_bind by (by rewrite Hout).
  assert (Hs2 : writer_ok L (ws_put output s1)) by (apply writer_ok_put; [done..|by rewrite Hout]).
  assert (Ed2 : ws_data (ws_put output s1) = pre ++ old ++ (payload ++ output)).
  { change (ws_data (ws_put output s1)) with (ws_data s1 ++ output). rewrite Ed1, Ed. by rewrite <- !app_assoc. }
  destruct (end_length_spec L _ pre old _ (u32 (zlen payload + meta)) Hs2 Ed2 Hold) as [Ee Hs3].
  rewrite Ee. eexists BEBOP_RESULT_OK, _. split; [done|]. split; [done|]. right. split; [done|].
  pose proof (wo_bytes _ _ Hs3) as Hb3. pose proof (wo_capacity _ _ Hs2) as Hc3. pose proof (wo_data _ _ Hs3) as Hd3.
  revert Hb3 Hd3. change (ws_data (ws_patch ?a ?b ?c ?x)) with (a ++ b ++ c). intros Hb3 Hd3.
  assert (Ezb : zlen payload + meta = zlen (en_body payload offsets dir (ly_kind ly) width))
    by (rewrite Ebody, zlen_app, Hout; done).
  rewrite u32_small in * by (unfold UINT32_MAX in *; lia). rewrite Ezb in Hd3 |- *.
  replace size with (4 + zlen (en_body payload offsets dir (ly_kind ly) width)) by lia.
  change (zlen (en_mem pre payload offsets dir (ly_kind ly) width) ≤ wr_capacity (ws_writer (ws_put output s1))) in Hd3.
  assert (Hpre : bytes_ok pre ∧ bytes_ok payload).
  { pose proof (wo_bytes _ _ Hs) as Hb. rewrite Ed in Hb. apply Forall_app in Hb as [? Hb]. by apply Forall_app in Hb as [_ ?]. }
  apply (holds_encoded pre payload tags offsets dir (ly_kind ly) width); try done; try apply Hpre.
  - rewrite <- Ezb. unfold UINT32_MAX in *. lia.
  - lia.
Qed.
End EndMessage.

(** ** Typed messages *)

(** A field of a message: its tag and the values of its encoding. *)
Abbreviation message_field := (Z * list field)%type.

Section TypedMessages.
Context `{HostAllocatorOk} `{PlatformOk}.

(** The encoder of a message, as generated code calls the library: each present field
    notes its offset and is written, and the index is written at the end. *)
Fixpoint write_message_fields (start : Z) (fs : list message_field) : WR (Bebop_Result * list Z) :=
  match fs with
  | [] => mret (BEBOP_RESULT_OK, [])
  | (_, f) :: fs =>
      n ← bebop_writer_length PTR;
      let offset := u64 (n - start) in
      if UINT32_MAX <? offset then mret (BEBOP_RESULT_OVERFLOW, [])
      else
        result ← write_fields f;
        if is_ok result then
          '(result, offsets) ← write_message_fields start fs;
          mret (result, u32 offset :: offsets)
        else mret (result, [])
  end.

Definition write_message (fs : list message_field) : WR Bebop_Result :=
  '(result, position) ← bebop_writer_begin_length PTR PTR;
  match is_ok result, position with
  | true, Some p =>
      start ← bebop_writer_length PTR;
      '(result, offsets) ← write_message_fields start fs;
      if is_ok result then
        bebop_writer_end_indexed_message PTR p start (Some (map fst fs)) (Some offsets) (zlen fs)
      else mret result
  | _, _ => mret result
  end.

Definition message_payload (fs : list message_field) : list Z := concat (map (λ f, fields_enc f.2) fs).

(** The offsets of the fields, the first one at [n]. *)
Fixpoint field_offsets (n : Z) (fs : list message_field) : list Z :=
  match fs with
  | [] => []
  | (_, f) :: fs => n :: field_offsets (n + zlen (fields_enc f)) fs
  end.

Lemma zlen_field_offsets n fs : zlen (field_offsets n fs) = zlen fs.
Proof. revert n. induction fs as [|[t f] fs IH]; intros n; [done|]. cbn [field_offsets]. by rewrite !zlen_cons, IH. Qed.

Lemma field_offsets_range n fs :
  Forall (λ o, n ≤ o ≤ n + zlen (message_payload fs)) (field_offsets n fs) ∧ StronglySorted Z.le (field_offsets n fs).
Proof.
  revert n. induction fs as [|[t f] fs IH]; intros n; [split; constructor|]. cbn [field_offsets].
  unfold message_payload in *. cbn [map concat snd]. rewrite zlen_app. destruct (IH (n + zlen (fields_enc f))) as [Hf Hs].
  zlen_pos. split; constructor; [lia| |done|]; eapply Forall_impl; [exact Hf| |exact Hf|]; cbn; lia.
Qed.

Lemma field_offsets_ok fs : offsets_ok (zlen (message_payload fs)) (field_offsets 0 fs).
Proof.
  destruct (field_offsets_range 0 fs) as [Hf Hs]. split_and!; [eapply Forall_impl; [exact Hf|]; cbn; lia|done|].
  by destruct fs as [|[]].
Qed.

(** The field of rank [r] is the part of the payload between two offsets. *)
Lemma field_offset_at n fs r t f : fs !! r = Some (t, f) →
  ∃ front post, message_payload fs = front ++ fields_enc f ++ post ∧
    field_offsets n fs !! r = Some (n + zlen front) ∧
    (field_offsets n fs !! S r = Some (n + zlen front + zlen (fields_enc f)) ∨ S r = length fs ∧ post = []).
Proof.
  revert n r. induction fs as [|[t' f'] fs IH]; intros n [|r] Hr; try done.
  - cbn in Hr. injection Hr as -> ->. exists [], (message_payload fs). rewrite zlen_nil, Z.add_0_r.
    split_and!; [done|done|]. destruct fs as [|[t1 f1] fs]; [by right|by left].
  - cbn in Hr. destruct (IH (n + zlen (fields_enc f')) r Hr) as (front&post&E&E1&E2).
    exists (fields_enc f' ++ front), post. unfold message_payload in *. cbn [map concat snd field_offsets]. rewrite E.
    change ((n :: field_offsets (n + zlen (fields_enc f')) fs) !! S r) with (field_offsets (n + zlen (fields_enc f')) fs !! r).
    change ((n :: field_offsets (n + zlen (fields_enc f')) fs) !! S (S r)) with (field_offsets (n + zlen (fields_enc f')) fs !! S r).
    rewrite E1. split_and!; [by rewrite <- app_assoc|f_equal; zlia|]. destruct E2 as [E2|[E2 ->]].
    + left. rewrite E2. f_equal. zlia.
    + right. cbn. by rewrite E2.
Qed.

Lemma write_message_fields_spec L s start fs :
  writer_ok L s → Forall (λ f, Forall field_valid f.2) fs → 0 ≤ start ≤ zlen (ws_data s) →
  zlen (ws_data s) - start + zlen (message_payload fs) ≤ UINT32_MAX →
  ∃ result offsets s', write_message_fields start fs s = Some ((result, offsets), s') ∧ writer_ok L s' ∧
    (result = BEBOP_RESULT_OOM ∨
     result = BEBOP_RESULT_OK ∧ ws_data s' = ws_data s ++ message_payload fs ∧
       offsets = field_offsets (zlen (ws_data s) - start) fs).
Proof.
  intros Ho Hv Hst Hfit. revert s Ho Hst Hfit. induction Hv as [|[t f] fs Hf Hv IH]; intros s Ho Hst Hfit.
  - eexists _, _, s. split; [done|]. split; [done|]. right. split_and!; [done|by rewrite app_nil_r|done].
  - cbn [write_message_fields]. rewrite (C_bind_Some _ _ _ _ _ (writer_length_spec L s Ho)). cbn zeta.
    unfold message_payload in Hfit. cbn [map concat snd] in Hfit. fold (message_payload fs) in Hfit.
    rewrite zlen_app in Hfit. unfold UINT32_MAX in *. zlen_pos.
    rewrite u64_small by lia. destruct (Z.ltb_spec (2 ^ 32 - 1) (zlen (ws_data s) - start)); [lia|].
    destruct (write_fields_appends L s f Ho Hf) as (r&s1&E&Ho1&_&Hr). rewrite (C_bind_Some _ _ _ _ _ E).
    destruct r; try done; cbn [is_ok]; [|eexists _, _, s1; split; [done|]; split; [done|by left]].
    destruct (IH s1 Ho1) as (r&offsets&s2&E2&Ho2&Hr2); [rewrite Hr; zlia|rewrite Hr; zlia|].
    rewrite (C_bind_Some _ _ _ _ _ E2). eexists _, _, s2. split; [done|]. split; [done|].
    destruct Hr2 as [->|(->&Hd&->)]; [by left|right]. split_and!; [done| |].
    + rewrite Hd, Hr. unfold message_payload. cbn [map concat snd]. by rewrite app_assoc.
    + cbn [field_offsets]. rewrite u32_small by lia. f_equal. f_equal. rewrite Hr. zlia.
Qed.

Lemma write_message_spec L s fs size :
  writer_ok L s → tags_ok (map fst fs) → Forall (λ f, Forall field_valid f.2) fs →
  bebop_indexed_message_size (zlen (message_payload fs)) (Some (map fst fs)) (zlen fs) = Some size → size ≠ SIZE_MAX →
  ∃ result s', write_message fs s = Some (result, s') ∧ writer_ok L s' ∧
    (result = BEBOP_RESULT_OOM ∨
     result = BEBOP_RESULT_OK ∧
       holds_message (ws_data s') (ws_data s) size (map fst fs) (field_offsets 0 fs) (message_payload fs)).
Proof.
  intros Ho Ht Hv Hsize Hne. unfold write_message. destruct (begin_length_spec L s Ho) as (r&s1&E&Ho1&_&Hr).
  rewrite (C_bind_Some _ _ _ _ _ E).
  destruct r; try done; cbn [is_ok]; [|by eexists _, s1; split_and!; [done|done|left]].
  assert (Hfit : zlen (message_payload fs) ≤ UINT32_MAX).
  { destruct (layout_any _ Ht) as (ly&dir&El&_). zlen_pos. rewrite <- (zlen_map fst) in Hsize.
    destruct (indexed_message_size_spec (zlen (message_payload fs)) _ ly Ht El ltac:(lia)) as [Es Hm].
    rewrite Es in Hsize. destruct (Z.ltb_spec (UINT32_MAX - metadata_size_of ly (zlen (map fst fs)) (offset_width_for (zlen (message_payload fs)))) (zlen (message_payload fs))); [|lia].
    by injection Hsize as <-. }
  rewrite (C_bind_Some _ _ _ _ _ (writer_length_spec L s1 Ho1)). zlen_pos.
  assert (Hz1 : zlen (ws_data s1) = zlen (ws_data s) + 4) by (rewrite Hr, zlen_app, zlen_le_bytes; lia).
  destruct (write_message_fields_spec L s1 (zlen (ws_data s1)) fs Ho1 Hv) as (r&offsets&s2&E2&Ho2&Hr2); [lia|lia|].
  rewrite (C_bind_Some _ _ _ _ _ E2). destruct Hr2 as [->|(->&Hd&->)]; cbn [is_ok];
    [by eexists _, s2; split_and!; [done|done|left]|].
  rewrite Z.sub_diag, Hz1. rewrite Hr, <- app_assoc in Hd.
  rewrite <- (zlen_map fst) in Hsize |- *.
  destruct (end_message_spec L s2 (ws_data s) (le_bytes 4 0) (message_payload fs) (map fst fs) (field_offsets 0 fs) size)
    as (r&s3&E3&Ho3&Hr3); try done.
  - apply field_offsets_ok.
  - by rewrite zlen_field_offsets, zlen_map.
  - by destruct fs.
  - exists r, s3. split_and!; [done|done|]. destruct Hr3 as [[-> _]|Hr3]; [by left|by right].
Qed.
End TypedMessages.

(** ** Properties *)

Section Properties.
Context `{HostAllocatorOk} `{PlatformOk}.

(** A fresh reader over a view reads the bytes of the view. *)
Lemma reader_init_view v : view_ok v →
  ∃ r, bebop_reader_init PTR NULL v (mkReader [] 0 0 0 NULL) = Some (BEBOP_RESULT_OK, r) ∧ reader_ok r ∧
       rd_rest r = view_bytes v ∧ zlen (rd_rest r) = view_length v.
Proof.
  intros Hv. pose proof Hv as (d&Ed&Hd&Hl&Hfit&Hsz&Hb). eexists. split.
  - unfold bebop_reader_init. cbn [is_null]. rewrite Ed. reflexivity.
  - assert (Hr : reader_ok (mkReader (view_mem v) d d (d + view_length v) NULL)) by (constructor; cbn; auto; lia).
    split_and!; [done| |rewrite zlen_rd_rest by done; cbn; lia].
    unfold rd_rest, view_bytes. cbn. rewrite Ed. do 2 f_equal. lia.
Qed.

(** The slice of a field holds its encoding. *)
Lemma slice_bytes (data pre : list Z) size fs i r t f :
  index_of (mkView data (Some (zlen pre)) size) i → index_tags i = map fst fs →
  MessageQuery.payload i = message_payload fs →
  (∀ r o, field_offsets 0 fs !! Z.to_nat r = Some o → 0 ≤ r → slice_start i r = o) →
  fs !! r = Some (t, f) → view_bytes (slice i (Z.of_nat r)) = fields_enc f.
Proof.
  intros (E&Hi&Hb) Et Ep Hs Hr. destruct (field_offset_at 0 fs r t f Hr) as (front&post&Ef&E1&E2).
  assert (Hc : mi_field_count i = zlen fs) by (rewrite (io_count i Hi), Et; by rewrite zlen_map).
  pose proof (lookup_lt_Some _ _ _ Hr) as Hlt.
  assert (Hrange : 0 ≤ Z.of_nat r < mi_field_count i) by (rewrite Hc; unfold zlen; lia).
  rewrite (view_bytes_slice i Hi _ Hb Hrange), Ep, Ef.
  assert (Hstart : slice_start i (Z.of_nat r) = zlen front) by (apply Hs; [rewrite Nat2Z.id; exact E1|lia]).
  assert (Hend : slice_end i (Z.of_nat r) = zlen front + zlen (fields_enc f)).
  { destruct E2 as [E2|[E2 ->]].
    - assert (Hlt2 : (S r < length fs)%nat).
      { apply lookup_lt_Some in E2. pose proof (zlen_field_offsets 0 fs). unfold zlen in *. lia. }
      rewrite (slice_next i (Z.of_nat r)) by (rewrite ?Hc; unfold zlen; lia).
      replace (Z.of_nat r + 1) with (Z.of_nat (S r)) by lia. apply Hs; [rewrite Nat2Z.id; exact E2|lia].
    - unfold slice_end. rewrite Hc. destruct (Z.eqb_spec (Z.of_nat r + 1) (zlen fs)) as [_|Hne]; [|unfold zlen in *; lia].
      assert (Hz : zlen (MessageQuery.payload i) = MessageSpec.payload_size i).
      { pose proof (payload_range i Hi). pose proof (ix_mem i Hi) as (Hd&He&_). pose proof (ix_range i Hi) as (R1&R2&R3&_&R5).
        unfold MessageQuery.payload. rewrite zlen_take; [done|]. unfold MessageSpec.payload_size in *. rewrite zlen_drop; lia. }
      rewrite <- Hz, Ep, Ef. zlia. }
  rewrite Hstart, Hend. replace (zlen front + zlen (fields_enc f) - zlen front) with (zlen (fields_enc f)) by lia.
  rewrite !to_nat_zlen, drop_app_length. apply take_app_length.
Qed.

(** C2: round trip of messages.  A message with any strictly increasing tags and any
    values, encoded the way generated code calls the library, succeeds unless storage
    runs out; the result has exactly the size [bebop_indexed_message_size] announced,
    it parses, every field is found under its tag and reads back completely with its
    values, and no other tag is found. *)
Theorem message_roundtrip L s fs size :
  writer_ok L s → ws_data s = [] → tags_ok (map fst fs) → Forall (λ f, Forall field_valid f.2) fs →
  bebop_indexed_message_size (zlen (message_payload fs)) (Some (map fst fs)) (zlen fs) = Some size → size ≠ SIZE_MAX →
  ∃ result s', write_message fs s = Some (result, s') ∧ (result = BEBOP_RESULT_OK ∨ result = BEBOP_RESULT_OOM) ∧
    (result = BEBOP_RESULT_OK → ∃ view i,
       bebop_writer_view PTR s' = Some (view, s') ∧ view_length view = size ∧
       bebop_message_index_init PTR view = Some (BEBOP_RESULT_OK, Some i) ∧
       (∀ tag f, (tag, f) ∈ fs → ∃ v r r',
          bebop_message_index_field (Some i) tag PTR PTR = Some (BEBOP_RESULT_OK, Some (v, true)) ∧
          bebop_reader_init PTR NULL v (mkReader [] 0 0 0 NULL) = Some (BEBOP_RESULT_OK, r) ∧
          reads_back f r r' ∧ bebop_reader_remaining PTR r' = Some (0, r')) ∧
       (∀ tag, 0 ≤ tag ≤ 255 → tag ∉ map fst fs →
          bebop_message_index_field (Some i) tag PTR PTR = Some (BEBOP_RESULT_OK, Some (null_view, false)))).
Proof.
  intros Ho Hnil Ht Hv Hsize Hne. destruct (write_message_spec L s fs size Ho Ht Hv Hsize Hne) as (result&s'&E&Ho'&Hr).
  exists result, s'. split_and!; [done|tauto|]. intros ->. destruct Hr as [|[_ (_&Hz&i&Hi&Et&Ep&Hs)]]; [done|].
  rewrite Hnil in *. change (zlen (@nil Z)) with 0 in *. rewrite Z.add_0_l in Hz.
  destruct (writer_view_spec L s' Ho') as (Ev&Hvok&_). rewrite Hz in Ev, Hvok.
  exists (mkView (ws_data s') (Some 0) size), i. pose proof Hi as (_&Hiok&Hb). split_and!; [done|done| | |].
  - by apply parse_ok_iff.
  - intros tag f Hin. apply list_elem_of_lookup in Hin as (r&Hr).
    assert (Htag : index_tags i !! r = Some tag) by (rewrite Et, list_lookup_fmap, Hr; done).
    pose proof (tag_range _ (io_tags i Hiok) tag (list_elem_of_lookup_2 _ _ _ Htag)) as Htr.
    pose proof (lookup_lt_Some _ _ _ Htag) as Hlt.
    assert (Hrange : 0 ≤ Z.of_nat r < mi_field_count i) by (rewrite (io_count i Hiok); unfold zlen; lia).
    destruct (reader_init_view _ (slice_view_ok i Hiok (Z.of_nat r) Hb Hrange)) as (rd&Er&Hrd&Erest&Hzr).
    exists (slice i (Z.of_nat r)), rd, (rd_adv (zlen (fields_enc f)) rd).
    rewrite (slice_bytes (ws_data s') [] size fs i r tag f Hi Et Ep Hs Hr) in Erest.
    split_and!; [apply index_field_present; try done; [by rewrite Nat2Z.id|lia|lia]|done| |].
    + apply (fields_read_back f rd []); [done| |by rewrite app_nil_r].
      exact (proj1 (Forall_forall _ _) Hv (tag, f) (list_elem_of_lookup_2 _ _ _ Hr)).
    + pose proof (zlen_rd_rest rd Hrd) as Hl. rewrite Erest in Hl. unfold bebop_reader_remaining, gets. cbn.
      replace (rd_end rd - (rd_current rd + zlen (fields_enc f))) with 0 by lia. done.
  - intros tag Htr Hno. rewrite (index_field_spec i Hiok tag Htr), bool_decide_false; [done|by rewrite Et].
Qed.

(** The arguments [bebop_writer_end_indexed_message] accepts when [n] bytes are written. *)
Definition end_args_ok (n position start : Z) (tags offsets : list Z) : Prop :=
  tags_ok tags ∧ start = position + 4 ∧ start ≤ n ∧ (tags = [] → n = start) ∧ offsets_ok (n - start) offsets.

(** C39: [bebop_writer_end_indexed_message] rejects every other argument with
    BEBOP_RESULT_INVALID and writes nothing: tags out of order or zero, a payload that
    does not start behind the length prefix or lies outside of what was written, a
    payload without fields, offsets that do not start at zero, decrease or leave the
    payload. *)
Theorem end_message_refuses L s position start tags offsets :
  writer_ok L s → bytes_ok tags → Forall (λ o, 0 ≤ o) offsets → zlen offsets = zlen tags →
  0 ≤ position → 0 ≤ start ≤ SIZE_MAX → zlen (ws_data s) - start ≤ UINT32_MAX →
  ¬ end_args_ok (zlen (ws_data s)) position start tags offsets →
  bebop_writer_end_indexed_message PTR position start (Some tags) (Some offsets) (zlen tags) s =
    Some (BEBOP_RESULT_INVALID, s).
Proof.
  intros Ho Hb Hpos Hl Hp Hst Hfit Hbad. unfold end_args_ok in Hbad. unfold bebop_writer_end_indexed_message.
  assert (is_null PTR || (negb (zlen tags =? 0) && (no_array (Some tags) || no_array (Some offsets))) = false) as ->
    by (cbn; apply andb_false_r).
  destruct (tags_valid_spec tags Hb) as (ok&Ev&Hok). rewrite (C_lift_bind _ _ _ _ Ev).
  destruct ok; [|done]. cbn [negb]. pose proof (proj1 Hok eq_refl) as Ht.
  rewrite (C_bind_Some _ _ _ _ _ (writer_length_spec L s Ho)). unfold BEBOP_WIRE_SIZE_LEN.
  destruct (Z.ltb_spec (SIZE_MAX - 4) position) as [|Hp4]; [done|]. cbn [orb].
  destruct (Z.eqb_spec (position + 4) start) as [Es|]; [|done]. cbn [negb orb].
  destruct (Z.ltb_spec (zlen (ws_data s)) start) as [|Hsn]; [done|].
  destruct (Z.ltb_spec UINT32_MAX (zlen (ws_data s) - start)); [lia|].
  destruct (Z.eqb_spec (zlen tags) 0) as [E0|E0]; cbn [andb].
  - destruct (Z.eqb_spec (zlen (ws_data s) - start) 0) as [Ez|]; [|done]. exfalso. apply Hbad.
    destruct tags; [|zlia]. destruct offsets; [|zlia]. split_and!; try done; try lia. split_and!; [constructor|constructor|done].
  - cbn [default from_option]. unfold id. assert (Hne : offsets ≠ []) by (intros ->; by rewrite <- Hl in E0).
    destruct (offsets_valid_spec (zlen (ws_data s) - start) offsets Hpos Hne) as (first&ok&Ef&Eo&Hiff).
    rewrite <- Hl. rewrite (C_lift_bind _ _ _ _ Ef). destruct first; [|done]. cbn [negb].
    rewrite (C_lift_bind _ _ _ _ Eo). destruct ok; [|done]. exfalso. apply Hbad.
    split_and!; try done. + intros ->. done. + by apply Hiff.
Qed.
End Properties.

(** ** Canonical size *)

Section Canonical.
Context (i : Bebop_MessageIndex) (Hi : index_ok i).

(** The size the layout chooses. *)
Lemma layout_size_bound ly m :
  index_tags i ≠ [] → bebop_message_directory_layout (Some (index_tags i)) (zlen (index_tags i)) = Some ly →
  load (index_tags i) (zlen (index_tags i) - 1) = Some m →
  (zlen (index_tags i) ≤ 3 → ly_size ly ≤ zlen (index_tags i)) ∧ (m ≤ 8 → ly_size ly ≤ 1) ∧ (m ≤ 16 → ly_size ly ≤ 2) ∧
  (m ≤ 32 → ly_size ly ≤ 4) ∧ ly_size ly ≤ 1 + 5 * bebop_wire_popcount32 (top_of (index_tags i)).
Proof.
  intros Hne El Em. pose proof (io_tags i Hi) as Ht. pose proof (zlen_tags_pos _ Ht Hne) as Hz.
  pose proof (popcount_top _ Ht Hne) as [_ Hp]. unfold bebop_message_directory_layout in El.
  destruct (Z.eqb_spec (zlen (index_tags i)) 0); [lia|]. cbn [mbind option_bind] in El.
  pose proof (layout_blocks_spec [] (index_tags i) 0 (proj2 Ht)) as Eb. change (zlen (@nil Z)) with 0 in Eb. cbn [app] in Eb.
  rewrite to_nat_zlen, Eb in El. cbn [mbind option_bind] in El. fold (top_of (index_tags i)) in El. rewrite Em in El.
  cbn [mbind option_bind] in El. rewrite u8_small in El by lia. injection El as <-.
  destruct (Z.leb_spec m 8), (Z.leb_spec m 16), (Z.leb_spec m 32),
    (Z.leb_spec 1 (1 + 5 * bebop_wire_popcount32 (top_of (index_tags i)))),
    (Z.leb_spec 2 (1 + 5 * bebop_wire_popcount32 (top_of (index_tags i)))),
    (Z.leb_spec 4 (1 + 5 * bebop_wire_popcount32 (top_of (index_tags i)))); try lia; cbn [andb ly_size];
    match goal with |- context [(?a <=? 3) && (?a <? ?b)] => destruct (Z.leb_spec a 3), (Z.ltb_spec a b) end;
    cbn [andb ly_size]; lia.
Qed.

(** Every block with a tag has an entry. *)
Lemma popcount_top_le : mi_directory_kind i = 7 →
  bebop_wire_popcount32 (top_of (index_tags i)) ≤ bebop_wire_popcount32 (mi_top i).
Proof.
  intros Hk. pose proof (io_tags i Hi) as Ht. destruct (tags_blocks i Hi Hk) as (_&_&Htop&_).
  unfold bebop_wire_popcount32. rewrite !(bits_widen 8 32) by (lia || by apply top_range).
  unfold zlen. apply Nat2Z.inj_le, submseteq_length, NoDup_submseteq; [apply sorted_NoDup, bits_sorted|].
  intros b [Hb Hr]%elem_of_bits. apply elem_of_bits. split; [|done]. apply (top_bit _ Ht b ltac:(lia)) in Hb.
  destruct (block_tags (index_tags i) b) as [|t l] eqn:E; [done|].
  assert (Hin : t ∈ block_tags (index_tags i) b) by (rewrite E; by left). apply list_elem_of_filter in Hin as [Htr Hin].
  apply (elem_of_blocks i Hi b t Hk Hr ltac:(lia)) in Hin. unfold mask_of_block in Hin.
  destruct (Z.testbit (mi_top i) b); [done|]. by rewrite Z.bits_0 in Hin.
Qed.

Lemma layout_minimal ly :
  bebop_message_directory_layout (Some (index_tags i)) (zlen (index_tags i)) = Some ly →
  ly_size ly ≤ dir_size (mi_mem i) (mi_end i) (mi_directory_kind i).
Proof.
  intros El. pose proof (ix_range i Hi) as (_&_&_&_&Hdz). pose proof (io_tags i Hi) as Ht.
  destruct (decide (index_tags i = [])) as [E|Hne].
  { rewrite E in El. cbn in El. injection El as <-. cbn. lia. }
  destruct (last_tag _ Ht Hne) as (m&Em&Hm&Hmax). pose proof (tag_range _ Ht m Hm) as Hmr.
  destruct (layout_size_bound ly m Hne El Em) as (B0&B1&B2&B4&B7).
  destruct (is_tiny (mi_directory_kind i)) eqn:Et; [|destruct (is_mask (mi_directory_kind i)) eqn:Emk].
  - destruct (tags_tiny i Hi Et) as (_&Ec&Hk&->). rewrite (io_count i Hi) in Ec. lia.
  - destruct (mask_kind_facts _ (io_kind i Hi) Emk) as (Hw&_&_&E0&_). destruct (tags_mask i Hi Emk) as (Etags&_&Hr).
    assert (Ed : dir_size (mi_mem i) (mi_end i) (mi_directory_kind i) = mask_width (mi_directory_kind i)).
    { unfold dir_size. change BEBOP_MESSAGE_DIRECTORY_EMPTY with 0. by rewrite E0, Et, Emk. }
    rewrite Ed. rewrite Etags in Hm. apply elem_of_tags_of_mask in Hm as [Hbit Hm32].
    assert (Hle : m ≤ 8 * mask_width (mi_directory_kind i)).
    { destruct (Z.leb_spec m (8 * mask_width (mi_directory_kind i))) as [|Hgt]; [done|]. exfalso.
      rewrite <- (Z.mod_small (word_at _ _ _) (2 ^ (8 * mask_width (mi_directory_kind i)))), Z.mod_pow2_bits_high in Hbit; [done| |done].
      destruct Hw as [Hw|[Hw|Hw]]; rewrite Hw in *; lia. }
    destruct Hw as [Hw|[Hw|Hw]]; rewrite Hw in *; lia.
  - assert (Hc0 : mi_field_count i ≠ 0) by (rewrite (io_count i Hi); destruct (index_tags i); [done|zlia]).
    pose proof (kind_blocks i Hi Et Emk Hc0) as Hk. rewrite Hk. pose proof (popcount_top_le Hk).
    change (dir_size (mi_mem i) (mi_end i) 7) with (1 + 5 * bebop_wire_popcount32 (mi_top i)). lia.
Qed.

(** The rule of docs/WIRE.md for the kind and the size of a directory, step by step: the
    block representation; the mask that holds the greatest tag, when it is no larger; the tags
    themselves, when they are at most three and strictly smaller. *)
Definition blocks_used (tags : list Z) : list Z := filter (λ b, Exists (λ t, (t - 1) / 32 = b) tags) (seqZ 0 8).
Definition canonical_mask (max_tag : Z) : option (Z * Z) :=
  if max_tag <=? 8 then Some (4, 1) else if max_tag <=? 16 then Some (5, 2) else if max_tag <=? 32 then Some (6, 4) else None.
Definition canonical_directory (tags : list Z) : Z * Z :=
  match last tags with
  | None => (0, 0)
  | Some max_tag =>
      let blocks := (7, 1 + 5 * zlen (blocks_used tags)) in
      let chosen := match canonical_mask max_tag with Some mask => if mask.2 <=? blocks.2 then mask else blocks | None => blocks end in
      if (zlen tags <=? 3) && (zlen tags <? chosen.2) then (zlen tags, zlen tags) else chosen
  end.
(** The smallest width of a boundary that represents a size. *)
Definition least_width (n : Z) : Z := if n <? 2 ^ 8 then 1 else if n <? 2 ^ 16 then 2 else 4.

Lemma blocks_used_count tags : tags_ok tags → bebop_wire_popcount32 (top_of tags) = zlen (blocks_used tags).
Proof.
  intros Ht. unfold bebop_wire_popcount32. rewrite (bits_widen 8 32) by (lia || by apply top_range).
  unfold zlen. f_equal. apply Permutation_length, NoDup_Permutation.
  - apply sorted_NoDup, bits_sorted.
  - apply NoDup_filter, NoDup_seqZ.
  - intros b. unfold blocks_used. rewrite elem_of_bits, list_elem_of_filter, elem_of_seqZ, Exists_exists. split; intros (Hb&Hr); (split; [|lia]).
    + apply (top_bit tags Ht b ltac:(lia)) in Hb. destruct (block_tags tags b) as [|t l] eqn:E; [done|].
      assert (Hin : t ∈ block_tags tags b) by (rewrite E; by left). apply list_elem_of_filter in Hin as [Hrange Hin].
      exists t. split; [done|]. symmetry. apply (Z.div_unique_pos _ _ _ (t - 1 - 32 * b)); lia.
    + destruct Hb as (t&Hin&Hd). apply (top_bit tags Ht b ltac:(lia)). intros E. apply (not_elem_of_nil t). rewrite <- E.
      apply list_elem_of_filter. split; [|done]. pose proof (Z.div_mod (t - 1) 32 ltac:(lia)). pose proof (Z.mod_pos_bound (t - 1) 32 ltac:(lia)). lia.
Qed.

Lemma layout_canonical tags : tags_ok tags → tags ≠ [] → ∃ mask,
  bebop_message_directory_layout (Some tags) (zlen tags) = Some (mkLayout (canonical_directory tags).1 (canonical_directory tags).2 mask).
Proof.
  intros Ht Hne. pose proof (zlen_tags_pos _ Ht Hne) as Hz. pose proof (popcount_top _ Ht Hne) as [_ Hp].
  destruct (last_tag _ Ht Hne) as (m&Em&_&_). exists (top_of tags).
  assert (El : last tags = Some m).
  { unfold load in Em. destruct (Z.ltb_spec (zlen tags - 1) 0); [done|]. rewrite last_lookup, <- Em. f_equal. unfold zlen in *. lia. }
  unfold canonical_directory, canonical_mask. rewrite El, <- blocks_used_count by done. unfold bebop_message_directory_layout.
  destruct (Z.eqb_spec (zlen tags) 0); [lia|]. cbn [mbind option_bind].
  pose proof (layout_blocks_spec [] tags 0 (proj2 Ht)) as Eb. change (zlen (@nil Z)) with 0 in Eb. cbn [app] in Eb.
  rewrite to_nat_zlen, Eb. cbn [mbind option_bind]. fold (top_of tags). rewrite Em. cbn [mbind option_bind]. rewrite u8_small by lia.
  set (blocks := 1 + 5 * bebop_wire_popcount32 (top_of tags)) in *.
  destruct (Z.leb_spec m 8), (Z.leb_spec m 16), (Z.leb_spec m 32); try lia; cbn [fst snd andb];
    destruct (Z.leb_spec 1 blocks), (Z.leb_spec 2 blocks), (Z.leb_spec 4 blocks); try lia; cbn [fst snd andb ly_size];
    match goal with |- context [(?a <=? 3) && ?b] => by destruct ((a <=? 3) && b) end.
Qed.

(** C38: the encoding is canonical in the sense of docs/WIRE.md. For the tags and the payload of
    any well-formed message whose boundary width can represent its payload, the encoder chooses
    the directory by the rule of the document, ties included, and the smallest width of
    boundaries; the size that [bebop_indexed_message_size] announces is the sum of the length,
    the payload, the boundaries, that directory and the control byte, or [SIZE_MAX] when what
    follows the length has no 32-bit size; and no well-formed message with the same tags and
    payload size is smaller. *)
Theorem encoding_minimal :
  payload_size i < 2 ^ (8 * mi_offset_width i) →
  let tags := index_tags i in
  let '(kind, dir) := canonical_directory tags in
  let size := 4 + payload_size i + boundary_count (mi_field_count i) * least_width (payload_size i) + dir + 1 in
  (∃ mask, bebop_message_directory_layout (Some tags) (mi_field_count i) = Some (mkLayout kind dir mask)) ∧
  bebop_indexed_message_size (payload_size i) (Some tags) (mi_field_count i) = Some (if UINT32_MAX <? size - 4 then SIZE_MAX else size) ∧
  size ≤ view_length (mi_encoded i).
Proof.
  intros Hpw. pose proof (io_tags i Hi) as Ht. pose proof (payload_range i Hi) as Hp. cbv zeta.
  assert (Hly : ∃ mask, bebop_message_directory_layout (Some (index_tags i)) (zlen (index_tags i)) =
    Some (mkLayout (canonical_directory (index_tags i)).1 (canonical_directory (index_tags i)).2 mask)).
  { destruct (decide (index_tags i = [])) as [->|Hne]; [by exists 0|by apply layout_canonical]. }
  destruct (canonical_directory (index_tags i)) as [kind dir]. cbn [fst snd] in Hly. rewrite (io_count i Hi).
  destruct Hly as (mask&El). split; [by exists mask|].
  destruct (indexed_message_size_spec (payload_size i) _ _ Ht El ltac:(lia)) as [Es Hm].
  pose proof (layout_minimal _ El) as Hly. cbn [ly_size] in Hly.
  pose proof (ix_range i Hi) as (R1&R2&R3&R4&R5). unfold payload_size in *.
  assert (Ew : offset_width_for (mi_boundaries i - (mi_data i + 4)) = least_width (mi_boundaries i - (mi_data i + 4))).
  { unfold offset_width_for, least_width, UINT8_MAX, UINT16_MAX. set (n := _ - _).
    destruct (Z.leb_spec n (2 ^ 8 - 1)), (Z.ltb_spec n (2 ^ 8)), (Z.leb_spec n (2 ^ 16 - 1)), (Z.ltb_spec n (2 ^ 16)); lia. }
  assert (Hwl : least_width (mi_boundaries i - (mi_data i + 4)) ≤ mi_offset_width i).
  { unfold least_width. destruct (io_width i Hi) as [Hw|[Hw|Hw]]; rewrite Hw in *;
      destruct (Z.ltb_spec (mi_boundaries i - (mi_data i + 4)) (2 ^ 8)), (Z.ltb_spec (mi_boundaries i - (mi_data i + 4)) (2 ^ 16)); lia. }
  assert (Hbc : 0 ≤ boundary_count (mi_field_count i)).
  { unfold boundary_count. pose proof (ix_count i Hi). destruct (Z.eqb_spec (mi_field_count i) 0); lia. }
  unfold metadata_size_of in *. rewrite <- (io_count i Hi) in *. fold (boundary_count (mi_field_count i)) in *. cbn [ly_size] in *.
  rewrite Ew in Es. unfold mi_end in *.
  assert (Hmul : boundary_count (mi_field_count i) * least_width (mi_boundaries i - (mi_data i + 4)) ≤
                 boundary_count (mi_field_count i) * mi_offset_width i) by (by apply Z.mul_le_mono_nonneg_l).
  split; [|lia]. rewrite Es. do 2 f_equal.
  match goal with |- (if ?a <? ?b then _ else _) = (if ?c <? ?d then _ else _) => destruct (Z.ltb_spec a b), (Z.ltb_spec c d) end; lia.
Qed.
End Canonical.

(** ** Witnesses *)

#[local] Existing Instance bump_allocator.
#[local] Existing Instance default_platform.

(** [UserRequest { user_id: 42, include_profile: true }] of docs/WIRE.md, and a field
    with tag 200. *)
Definition demo_message_fields : list message_field :=
  [(1, [Field _ _ wire_i32 42]); (2, [Field _ _ wire_bool true]); (200, [Field _ _ wire_string demo_string])].

Lemma message_roundtrip_witness :
  ∃ s', write_message demo_message_fields demo_ws = Some (BEBOP_RESULT_OK, s') ∧ zlen (ws_data s') = 22 ∧
    ∃ view i, bebop_writer_view PTR s' = Some (view, s') ∧ view_length view = 22 ∧
      bebop_message_index_init PTR view = Some (BEBOP_RESULT_OK, Some i) ∧
      bebop_message_index_field (Some i) 3 PTR PTR = Some (BEBOP_RESULT_OK, Some (null_view, false)).
Proof.
  destruct (message_roundtrip ∅ demo_ws demo_message_fields 22 (proj1 demo_ws_ok) (proj2 demo_ws_ok))
    as (result&s'&E&_&Hr).
  - change (tags_ok [1; 2; 200]). split; repeat constructor; lia.
  - repeat constructor; cbn; try (unfold uint_ok, int_ok; lia); apply demo_string_ok.
  - vm_compute. reflexivity.
  - vm_compute. congruence.
  - exists s'. assert (Hc : result = BEBOP_RESULT_OK ∧ zlen (ws_data s') = 22).
    { vm_compute in E. injection E as <- <-. split; reflexivity. }
    destruct Hc as [-> Hz]. destruct (Hr eq_refl) as (view&i&H1&H2&H3&_&H5).
    split_and!; [exact E|exact Hz|]. exists view, i. split_and!; [exact H1|exact H2|exact H3|]. apply H5; [lia|].
    apply (bool_decide_eq_false_1 (3 ∈ map fst demo_message_fields)). vm_compute. reflexivity.
Defined.

(** Tags out of order. *)
Lemma end_message_refuses_witness :
  bebop_writer_end_indexed_message PTR 0 0 (Some [2; 1]) (Some [0; 0]) 2 demo_ws = Some (BEBOP_RESULT_INVALID, demo_ws).
Proof.
  refine (end_message_refuses ∅ demo_ws 0 0 [2; 1] [0; 0] (proj1 demo_ws_ok) _ _ eq_refl _ _ _ _).
  - repeat constructor; lia.
  - repeat constructor; lia.
  - lia.
  - vm_compute. split; congruence.
  - vm_compute. congruence.
  - intros (_&Hs&_). lia.
Defined.

Lemma encoding_minimal_witness :
  canonical_directory [1; 2] = (4, 1) ∧ (∃ mask, bebop_message_directory_layout (Some [1; 2]) 2 = Some (mkLayout 4 1 mask)) ∧
  bebop_indexed_message_size 5 (Some [1; 2]) 2 = Some 12 ∧ 12 ≤ 12.
Proof.
  split; [vm_compute; reflexivity|]. refine (encoding_minimal demo_index _ _).
  - apply (parse_ok_iff demo_message_view demo_message_view_ok). vm_compute. reflexivity.
  - vm_compute. reflexivity.
Defined.
