(* ===== verification/Uuid.v ===== *)
(** UUIDs of [bebop/src/bebop_wire.c]: parsing and formatting of the text form, and
    the comparison of UUIDs and strings.  A C string is a memory with a terminating
    zero byte and an offset into it; reading past the end of the memory is undefined. *)
From S2P Require Import Prelude.
From S2P Require Import WireTypes.
From S2P Require Import Bits.

(** ** Definitions *)

Definition bebop__wire_ascii_to_hex : list Z :=
  [0; 0; 0; 0; 0; 0; 0; 0; 0; 0; 0; 0; 0; 0; 0; 0; 0; 0; 0; 0; 0; 0; 0; 0; 0; 0;
   0; 0; 0; 0; 0; 0; 0; 0; 0; 0; 0; 0; 0; 0; 0; 0; 0; 0; 0; 0; 0; 0; 0; 1; 2; 3;
   4; 5; 6; 7; 8; 9; 0; 0; 0; 0; 0; 0; 0; 10; 11; 12; 13; 14; 15; 0; 0; 0; 0; 0; 0; 0;
   0; 0; 0; 0; 0; 0; 0; 0; 0; 0; 0; 0; 0; 0; 0; 0; 0; 0; 0; 10; 11; 12; 13; 14; 15; 0;
   0; 0; 0; 0; 0; 0; 0; 0; 0; 0; 0; 0; 0; 0; 0; 0; 0; 0; 0; 0; 0; 0; 0; 0; 0; 0] ++
  replicate 126 0.

Definition bebop__wire_hex_chars : list Z := [48; 49; 50; 51; 52; 53; 54; 55; 56; 57; 97; 98; 99; 100; 101; 102].

(** [isxdigit] of the C locale. *)
Definition isxdigit (c : Z) : bool :=
  ((48 <=? c) && (c <=? 57)) || ((65 <=? c) && (c <=? 70)) || ((97 <=? c) && (c <=? 102)).

Definition uuid_zero : Bebop_UUID := mkUUID (replicate 16 0).
Definition DASH : Z := 45.

(** The loop of [bebop_uuid_parse] at [s] with the bytes found so far; [Some None] is
    the early return of the zero UUID.  Each round moves on, so that the length of
    the memory is enough fuel. *)
Fixpoint uuid_parse_loop (fuel : nat) (mem : list Z) (s : Z) (bytes : list Z) : option (option (list Z)) :=
  match fuel with
  | O => None
  | S fuel =>
      c ← load mem s;
      if negb (c =? 0) && (zlen bytes <? 16) then
        if c =? DASH then uuid_parse_loop fuel mem (s + 1) bytes
        else
          d ← load mem (s + 1);
          if d =? 0 then Some None
          else if negb (isxdigit c) || negb (isxdigit d) then Some None
          else
            high ← load bebop__wire_ascii_to_hex c;
            low ← load bebop__wire_ascii_to_hex d;
            uuid_parse_loop fuel mem (s + 2) (bytes ++ [u8 (Z.lor (Z.shiftl high 4) low)])
      else Some (Some bytes)
  end.

(** [str] is NULL when it is [None]. *)
Definition bebop_uuid_parse (str : option (list Z)) : option Bebop_UUID :=
  match str with
  | None => Some uuid_zero
  | Some mem =>
      r ← uuid_parse_loop (S (length mem)) mem 0 [];
      match r with
      | None => Some uuid_zero
      | Some bytes => Some (if zlen bytes =? 16 then mkUUID bytes else uuid_zero)
      end
  end.

Definition BEBOP_WIRE_UUID_STR_LEN : Z := 36.

(** The characters the loop of [bebop_uuid_format] stores from byte [i] on. *)
Fixpoint uuid_format_loop (n : nat) (bytes : list Z) (i : Z) : option (list Z) :=
  match n with
  | O => Some []
  | S n =>
      b ← load bytes i;
      high ← load bebop__wire_hex_chars (Z.land (Z.shiftr b 4) 0xF);
      low ← load bebop__wire_hex_chars (Z.land b 0xF);
      l ← uuid_format_loop n bytes (i + 1);
      Some ((if (i =? 4) || (i =? 6) || (i =? 8) || (i =? 10) then [DASH] else []) ++ [high; low] ++ l)
  end.

(** The number of characters and what was stored in the buffer. *)
Definition bebop_uuid_format (uuid : Bebop_UUID) (buf : ptr) (len : Z) : option (Z * list Z) :=
  if is_null buf || (len <? BEBOP_WIRE_UUID_STR_LEN + 1) then Some (0, [])
  else
    l ← uuid_format_loop 16 (uuid_bytes uuid) 0;
    Some (BEBOP_WIRE_UUID_STR_LEN, l ++ [0]).

(** ** The parser *)

(** What the parser makes of the characters in front of the terminating zero. *)
Fixpoint uuid_scan (fuel : nat) (str bytes : list Z) : option (list Z) :=
  match fuel with
  | O => None
  | S fuel =>
      match str with
      | [] => Some bytes
      | c :: str =>
          if 16 <=? zlen bytes then Some bytes
          else if c =? DASH then uuid_scan fuel str bytes
          else
            match str with
            | [] => None
            | d :: str =>
                if isxdigit c && isxdigit d
                then uuid_scan fuel str (bytes ++ [16 * default 0 (bebop__wire_ascii_to_hex !! Z.to_nat c) +
                                                   default 0 (bebop__wire_ascii_to_hex !! Z.to_nat d)])
                else None
            end
      end
  end.

Definition hex_value (c : Z) : Z := default 0 (bebop__wire_ascii_to_hex !! Z.to_nat c).

Lemma isxdigit_forall (P : Z → bool) : forallb (λ c, negb (isxdigit c) || P c) (seqZ 0 256) = true →
  ∀ c, isxdigit c = true → P c = true.
Proof.
  intros H c Hc. rewrite forallb_forall in H. specialize (H c). rewrite Hc in H. apply H.
  apply list_elem_of_In, elem_of_seqZ. unfold isxdigit in Hc. lia.
Qed.

Lemma hex_lookup c : isxdigit c = true → load bebop__wire_ascii_to_hex c = Some (hex_value c) ∧ 0 ≤ hex_value c < 16.
Proof.
  intros Hc.
  pose proof (isxdigit_forall (λ c, match load bebop__wire_ascii_to_hex c with
    | Some v => (v =? hex_value c) && (0 <=? v) && (v <? 16) | None => false end) eq_refl c Hc) as H.
  cbn beta in H. destruct (load bebop__wire_ascii_to_hex c); [|done]. zbool. split; [f_equal|]; lia.
Qed.

Lemma hex_pair h l : 0 ≤ h < 16 → 0 ≤ l < 16 → u8 (Z.lor (Z.shiftl h 4) l) = 16 * h + l.
Proof. intros Hh Hl. rewrite Z.lor_comm, lor_shift by lia. rewrite u8_small; lia. Qed.

(** The parser never reads behind the terminating zero and computes [uuid_scan]. *)
Lemma uuid_parse_loop_spec fuel pre str post bytes :
  Forall (λ c, c ≠ 0) str → (length str < fuel)%nat →
  uuid_parse_loop fuel (pre ++ str ++ 0 :: post) (zlen pre) bytes = Some (uuid_scan fuel str bytes).
Proof.
  revert pre str bytes. induction fuel as [|fuel IH]; intros pre str bytes Hnz Hf; [lia|].
  cbn [uuid_parse_loop uuid_scan]. destruct str as [|c str]; cbn [app].
  { by rewrite load_app. }
  rewrite load_app. cbn [mbind option_bind]. apply Forall_cons in Hnz as [Hc Hnz].
  destruct (Z.eqb_spec c 0); [done|]. cbn [negb andb]. cbn [length] in Hf.
  destruct (Z.ltb_spec (zlen bytes) 16) as [Hlt|Hge], (Z.leb_spec 16 (zlen bytes)) as [Hge'|Hlt']; try lia; [|done].
  destruct (Z.eqb_spec c DASH) as [->|Hd].
  { rewrite cons_middle, app_assoc. replace (zlen pre + 1) with (zlen (pre ++ [DASH])) by zlia. apply IH; [done|lia]. }
  rewrite cons_middle, app_assoc. replace (zlen pre + 1) with (zlen (pre ++ [c])) by zlia.
  destruct str as [|d str]; cbn [app]; rewrite load_app; cbn [mbind option_bind]; [done|].
  apply Forall_cons in Hnz as [Hd0 Hnz]. destruct (Z.eqb_spec d 0); [done|].
  destruct (isxdigit c) eqn:Ec; cbn [negb orb andb]; [|done]. destruct (isxdigit d) eqn:Ed; cbn [negb]; [|done].
  destruct (hex_lookup c Ec) as [-> Hh], (hex_lookup d Ed) as [-> Hl]. cbn [mbind option_bind].
  rewrite hex_pair by done. rewrite cons_middle, app_assoc.
  replace (zlen pre + 2) with (zlen ((pre ++ [c]) ++ [d])) by zlia. cbn [length] in Hf. apply IH; [done|lia].
Qed.

(** *** Round trip *)

Definition hex_char (d : Z) : Z := default 0 (bebop__wire_hex_chars !! Z.to_nat d).
Definition byte_text (b : Z) : list Z := [hex_char (b / 16); hex_char (b mod 16)].

Lemma hex_char_spec d : 0 ≤ d < 16 → load bebop__wire_hex_chars d = Some (hex_char d) ∧ isxdigit (hex_char d) = true ∧
  hex_value (hex_char d) = d ∧ hex_char d ≠ 0 ∧ hex_char d ≠ DASH.
Proof.
  intros Hd. assert (Hin : d ∈ seqZ 0 16) by (apply elem_of_seqZ; lia).
  repeat (apply elem_of_cons in Hin as [->|Hin]; [split_and!; done|]). by apply not_elem_of_nil in Hin.
Qed.

Lemma format_step b : byte_ok b →
  load bebop__wire_hex_chars (Z.land (Z.shiftr b 4) 0xF) = Some (hex_char (b / 16)) ∧
  load bebop__wire_hex_chars (Z.land b 0xF) = Some (hex_char (b mod 16)).
Proof.
  intros Hb. unfold byte_ok in Hb. change 0xF with (Z.ones 4). rewrite !Z.land_ones, Z.shiftr_div_pow2 by lia.
  change (2 ^ 4) with 16. rewrite (Z.mod_small (b / 16) 16) by (split; [apply Z.div_pos|apply Z.div_lt_upper_bound]; lia).
  split; apply hex_char_spec; [|apply Z.mod_pos_bound; lia].
  split; [apply Z.div_pos|apply Z.div_lt_upper_bound]; lia.
Qed.

Definition dash_at (i : Z) : list Z := if (i =? 4) || (i =? 6) || (i =? 8) || (i =? 10) then [DASH] else [].
(** The text of the bytes [bytes] of which the first one has index [i]. *)
Fixpoint uuid_text (i : Z) (bytes : list Z) : list Z :=
  match bytes with
  | [] => []
  | b :: bytes => dash_at i ++ byte_text b ++ uuid_text (i + 1) bytes
  end.

Lemma uuid_format_loop_spec pre rest : bytes_ok rest →
  uuid_format_loop (length rest) (pre ++ rest) (zlen pre) = Some (uuid_text (zlen pre) rest).
Proof.
  revert pre. induction rest as [|b rest IH]; intros pre Hb; [done|]. cbn [length uuid_format_loop uuid_text].
  apply Forall_cons in Hb as [Hb Hr]. rewrite load_app. cbn [mbind option_bind].
  destruct (format_step b Hb) as [-> ->]. cbn [mbind option_bind].
  rewrite cons_middle, app_assoc. replace (zlen pre + 1) with (zlen (pre ++ [b])) by zlia. by rewrite IH.
Qed.

(** Scanning a byte and the dash that may stand in front of it. *)
Lemma scan_byte fuel i b str bytes : byte_ok b → zlen bytes < 16 → (length (dash_at i ++ byte_text b ++ str) < fuel)%nat →
  ∃ fuel', (length str < fuel')%nat ∧ uuid_scan fuel (dash_at i ++ byte_text b ++ str) bytes = uuid_scan fuel' str (bytes ++ [b]).
Proof.
  intros Hb Hlt Hf.
  assert (Hpair : ∀ fuel, uuid_scan (S fuel) (byte_text b ++ str) bytes = uuid_scan fuel str (bytes ++ [b])).
  { intros n. unfold byte_ok in Hb. cbn [uuid_scan byte_text app].
    destruct (hex_char_spec (b / 16)) as (_&X1&V1&_&D1); [split; [apply Z.div_pos|apply Z.div_lt_upper_bound]; lia|].
    destruct (hex_char_spec (b mod 16)) as (_&X2&V2&_&_); [apply Z.mod_pos_bound; lia|].
    destruct (Z.leb_spec 16 (zlen bytes)); [lia|]. destruct (Z.eqb_spec (hex_char (b / 16)) DASH); [done|].
    rewrite X1, X2. cbn [andb]. fold (hex_value (hex_char (b / 16))) (hex_value (hex_char (b mod 16))). rewrite V1, V2.
    by rewrite <- Z.div_mod by lia. }
  unfold dash_at in *. destruct ((i =? 4) || (i =? 6) || (i =? 8) || (i =? 10)).
  - destruct fuel as [|[|fuel]]; cbn in Hf; try lia. exists fuel. split; [lia|]. rewrite <- Hpair.
    cbn [app uuid_scan]. destruct (Z.leb_spec 16 (zlen bytes)); [lia|]. done.
  - destruct fuel as [|fuel]; cbn in Hf; [lia|]. exists fuel. split; [lia|]. apply Hpair.
Qed.

Lemma scan_text rest i str bytes fuel : bytes_ok rest → zlen bytes + zlen rest = 16 →
  (length (uuid_text i rest ++ str) < fuel)%nat → uuid_scan fuel (uuid_text i rest ++ str) bytes = Some (bytes ++ rest).
Proof.
  revert i bytes fuel. induction rest as [|b rest IH]; intros i bytes fuel Hb Hz Hf; cbn [uuid_text] in *.
  - destruct fuel; [lia|]. rewrite app_nil_r. cbn [app uuid_scan]. destruct str; [done|]. rewrite zlen_nil in Hz.
    destruct (Z.leb_spec 16 (zlen bytes)); [done|lia].
  - apply Forall_cons in Hb as [Hb Hr]. rewrite <- !app_assoc in *.
    destruct (scan_byte fuel i b (uuid_text (i + 1) rest ++ str) bytes Hb) as (fuel'&Hf'&->); [zlia|done|].
    rewrite IH; [by rewrite <- app_assoc|done|zlia|done].
Qed.

Lemma uuid_text_nonzero i bytes : bytes_ok bytes → Forall (λ c, c ≠ 0) (uuid_text i bytes).
Proof.
  intros Hb. revert i. induction Hb as [|b bytes Hb _ IH]; intros i; [constructor|]. unfold byte_ok in Hb. cbn [uuid_text].
  apply Forall_app; split; [unfold dash_at; destruct (_ || _); repeat constructor; done|]. apply Forall_app; split; [|apply IH].
  repeat constructor; apply hex_char_spec; [split; [apply Z.div_pos|apply Z.div_lt_upper_bound]; lia|apply Z.mod_pos_bound; lia].
Qed.

(** [bebop_uuid_parse] reads the text [bebop_uuid_format] stores as the same UUID;
    it is defined on every terminated string and never reads behind the zero; and it
    ignores whatever follows the thirty-second digit. *)
Theorem uuid_roundtrip uuid len tail post :
  uuid_ok uuid → 37 ≤ len → Forall (λ c, c ≠ 0) tail →
  ∃ text, bebop_uuid_format uuid PTR len = Some (36, text ++ [0]) ∧ zlen text = 36 ∧
    bebop_uuid_parse (Some (text ++ tail ++ 0 :: post)) = Some uuid.
Proof.
  intros [Hl Hb] Hlen Ht. destruct uuid as [bytes]. cbn [uuid_bytes] in *.
  pose proof (uuid_format_loop_spec [] bytes Hb) as Ef. rewrite Hl in Ef. cbn [app] in Ef. change (zlen (@nil Z)) with 0 in Ef.
  exists (uuid_text 0 bytes). split_and!.
  - unfold bebop_uuid_format, BEBOP_WIRE_UUID_STR_LEN. cbn [is_null orb uuid_bytes].
    destruct (Z.ltb_spec len (36 + 1)); [lia|]. by rewrite Ef.
  - do 16 (destruct bytes as [|? bytes]; [done|]). by destruct bytes.
  - unfold bebop_uuid_parse. rewrite (app_assoc _ tail).
    pose proof (uuid_parse_loop_spec (S (length ((uuid_text 0 bytes ++ tail) ++ 0 :: post))) [] (uuid_text 0 bytes ++ tail) post []) as Ep.
    cbn [app] in Ep. change (zlen (@nil Z)) with 0 in Ep. rewrite Ep; [|apply Forall_app; split; [by apply uuid_text_nonzero|done]|].
    2:{ rewrite !length_app. cbn. lia. }
    cbn [mbind option_bind]. rewrite scan_text; [|done|unfold zlen; rewrite Hl; done|rewrite !length_app; cbn; lia].
    cbn [app]. unfold zlen. by rewrite Hl.
Qed.

(** Fuel beyond the length of the string changes nothing. *)
Lemma uuid_scan_fuel m n str bytes : (length str < m)%nat → (length str < n)%nat → uuid_scan m str bytes = uuid_scan n str bytes.
Proof.
  revert n str bytes. induction m as [|m IH]; intros n str bytes Hm Hn; [lia|]. destruct n as [|n]; [lia|]. cbn [uuid_scan].
  destruct str as [|c str]; [done|]. cbn [length] in *. destruct (16 <=? zlen bytes); [done|].
  destruct (c =? DASH); [apply IH; lia|]. destruct str as [|d str]; [done|]. cbn [length] in *.
  destruct (isxdigit c && isxdigit d); [apply IH; lia|done].
Qed.

(** [bebop_uuid_parse] is total and safe on every terminated string: it yields a
    UUID of sixteen bytes that depends on the characters in front of the terminating
    zero only, and it yields the zero UUID when a character is neither a dash nor a
    hexadecimal digit. *)
Theorem uuid_parse_safe str post :
  Forall (λ c, c ≠ 0) str →
  ∃ uuid, bebop_uuid_parse (Some (str ++ 0 :: post)) = Some uuid ∧ length (uuid_bytes uuid) = 16%nat ∧
    (∀ post', bebop_uuid_parse (Some (str ++ 0 :: post')) = Some uuid) ∧
    (∀ c t, str = c :: t → c ≠ DASH → isxdigit c = false → uuid = uuid_zero).
Proof.
  intros Hnz. set (bytes := uuid_scan (S (length str)) str []).
  set (u := match bytes with None => uuid_zero | Some b => if zlen b =? 16 then mkUUID b else uuid_zero end).
  assert (Hp : ∀ post, bebop_uuid_parse (Some (str ++ 0 :: post)) = Some u).
  { intros p. unfold bebop_uuid_parse.
    pose proof (uuid_parse_loop_spec (S (length (str ++ 0 :: p))) [] str p [] Hnz) as E. cbn [app] in E.
    change (zlen (@nil Z)) with 0 in E. rewrite E by (rewrite length_app; lia). cbn [mbind option_bind].
    rewrite (uuid_scan_fuel _ (S (length str))) by (rewrite ?length_app; cbn; lia). fold bytes. subst u. by destruct bytes. }
  exists u. split_and!; [done| |done|].
  - subst u. destruct bytes as [b|]; [|done]. destruct (Z.eqb_spec (zlen b) 16) as [E|]; [|done]. cbn. unfold zlen in E. lia.
  - intros c t -> Hc Hx. subst u bytes. cbn [uuid_scan length]. change (16 <=? zlen (@nil Z)) with false. cbn iota.
    destruct (Z.eqb_spec c DASH); [done|]. destruct t; [done|]. by rewrite Hx.
Qed.

(** ** Strings *)

Fixpoint strlen (fuel : nat) (mem : list Z) (s n : Z) : option Z :=
  match fuel with
  | O => None
  | S fuel => c ← load mem (s + n); if c =? 0 then Some n else strlen fuel mem s (n + 1)
  end.

Definition bebop_string (str : option (list Z)) : option Bebop_View :=
  match str with
  | None => Some (mkView [] None 0)
  | Some mem => n ← strlen (S (length mem)) mem 0 0; Some (mkView mem (Some 0) n)
  end.

(** [memcmp(a, b, n) == 0] *)
Definition memcmp_equal (a b : list Z) : bool := bool_decide (a = b).

Definition view_load (v : Bebop_View) : option (list Z) :=
  d ← view_data v; load_bytes (view_mem v) d (view_length v).

Definition bebop_string_equal (a b : Bebop_View) : option bool :=
  if negb (view_length a =? view_length b) then Some false
  else if view_length a =? 0 then Some true
  else la ← view_load a; lb ← view_load b; Some (memcmp_equal la lb).

Definition bebop_uuid_equal (a b : Bebop_UUID) : bool := memcmp_equal (uuid_bytes a) (uuid_bytes b).

Lemma view_load_ok v : view_ok v → view_load v = Some (view_bytes v) ∧ zlen (view_bytes v) = view_length v.
Proof.
  intros (d&Ed&Hd&Hn&Hl&_). unfold view_load, view_bytes. rewrite Ed. cbn [mbind option_bind].
  rewrite load_bytes_in by done. split; [done|]. rewrite zlen_take; [done|]. rewrite zlen_drop; lia.
Qed.

Lemma strlen_spec fuel pre str post :
  Forall (λ c, c ≠ 0) str → (length str < fuel)%nat →
  strlen fuel (pre ++ str ++ 0 :: post) 0 (zlen pre) = Some (zlen pre + zlen str).
Proof.
  revert pre str. induction fuel as [|fuel IH]; intros pre str Hnz Hf; [lia|]. cbn [strlen]. rewrite Z.add_0_l.
  destruct str as [|c str]; cbn [app].
  - rewrite load_app. cbn. f_equal. zlia.
  - rewrite load_app. cbn [mbind option_bind]. apply Forall_cons in Hnz as [Hc Hnz]. destruct (Z.eqb_spec c 0); [done|].
    rewrite cons_middle, app_assoc. replace (zlen pre + 1) with (zlen (pre ++ [c])) by zlia. cbn [length] in Hf.
    rewrite IH by (done || lia). f_equal. zlia.
Qed.

(** String and UUID comparison decide equality of the bytes; the view
    [bebop_string] makes of a terminated string is the string without its zero. *)
Theorem string_equal_correct :
  (∀ a b, view_ok a → view_ok b → bebop_string_equal a b = Some (bool_decide (view_bytes a = view_bytes b))) ∧
  (∀ a b, bebop_uuid_equal a b = true ↔ a = b) ∧
  (∀ str post, Forall (λ c, c ≠ 0) str → ∃ v, bebop_string (Some (str ++ 0 :: post)) = Some v ∧ view_bytes v = str).
Proof.
  split_and!.
  - intros a b Ha Hb. destruct (view_load_ok a Ha) as [La Za], (view_load_ok b Hb) as [Lb Zb]. unfold bebop_string_equal.
    destruct (Z.eqb_spec (view_length a) (view_length b)) as [E|Hne]; cbn [negb].
    + destruct (Z.eqb_spec (view_length a) 0) as [E0|_].
      * rewrite bool_decide_true; [done|]. destruct (view_bytes a), (view_bytes b); [done|zlia..].
      * by rewrite La, Lb.
    + rewrite bool_decide_false; [done|]. intros Eb. rewrite Eb in Za. lia.
  - intros [a] [b]. unfold bebop_uuid_equal, memcmp_equal. cbn. rewrite bool_decide_eq_true. split; [by intros ->|by intros [=]].
  - intros str post Hnz. eexists. split.
    + unfold bebop_string. pose proof (strlen_spec (S (length (str ++ 0 :: post))) [] str post Hnz) as E. cbn [app] in E.
      change (zlen (@nil Z)) with 0 in E. rewrite E by (rewrite length_app; lia). reflexivity.
    + cbn. unfold zlen. replace (Z.to_nat (0 + Z.of_nat (length str))) with (length str) by lia. rewrite drop_0. apply take_app_length.
Qed.

(** ** Witnesses *)

Definition demo_uuid : Bebop_UUID := mkUUID [1; 35; 69; 103; 137; 171; 205; 239; 0; 17; 34; 51; 68; 85; 102; 255].

Lemma uuid_roundtrip_witness :
  ∃ text, bebop_uuid_format demo_uuid PTR 37 = Some (36, text ++ [0]) ∧ zlen text = 36 ∧
    bebop_uuid_parse (Some (text ++ [33] ++ [0])) = Some demo_uuid.
Proof.
  apply (uuid_roundtrip demo_uuid 37 [33] []).
  - split; [reflexivity|]. repeat constructor; cbn; lia.
  - lia.
  - repeat constructor. lia.
Defined.

Lemma uuid_parse_safe_witness : ∃ uuid, bebop_uuid_parse (Some [52; 50; 0]) = Some uuid ∧ length (uuid_bytes uuid) = 16%nat.
Proof.
  destruct (uuid_parse_safe [52; 50] []) as (u&E&Hl&_); [repeat constructor; lia|]. exists u. split; [exact E|exact Hl].
Defined.

Lemma string_equal_witness :
  bebop_string_equal (mkView [104; 105] (Some 0) 2) (mkView [7; 104; 105] (Some 1) 2) = Some true.
Proof.
  rewrite (proj1 string_equal_correct); [reflexivity|exists 0|exists 1]; split_and!; try done; repeat constructor; cbn; lia.
Defined.
