(* ===== verification/Hash.v ===== *)
(** The key types of the hash map in [bebop/src/bebop_wire.c]: the hash (wyhash) and
    the comparison of every key kind, and the interface [MapKey] they give the map.  A
    key is the content of the object the key pointer points to. *)
From S2P Require Import Prelude.
From S2P Require Import WireTypes.
From S2P Require Import Bits.
From S2P Require Import Uuid.

(** ** wyhash *)

Definition bebop__wyrot (x : Z) : Z := Z.lor (Z.shiftr x 32) (u64 (Z.shiftl x 32)).

(** The low and the high half of the product, with 128-bit integers. *)
Definition bebop__wymum (a b : Z) : Z * Z :=
  let r := a * b in (u64 r, u64 (Z.shiftr r 64)).

(** The branch of the same function for compilers without 128-bit integers. *)
Definition wymum_portable (a b : Z) : Z * Z :=
  let ha := Z.shiftr a 32 in let la := u32 a in
  let hb := Z.shiftr b 32 in let lb := u32 b in
  let rh := u64 (ha * hb) in let rl := u64 (la * lb) in
  let rm0 := u64 (ha * lb) in let rm1 := u64 (hb * la) in
  let t := u64 (rl + u64 (Z.shiftl rm0 32)) in
  let c := if t <? rl then 1 else 0 in
  let lo := u64 (t + u64 (Z.shiftl rm1 32)) in
  let c := c + (if lo <? t then 1 else 0) in
  let hi := u64 (rh + Z.shiftr rm0 32 + Z.shiftr rm1 32 + c) in
  (lo, hi).

Definition bebop__wymix (a b : Z) : Z := let '(a, b) := bebop__wymum a b in Z.lxor a b.

Definition bebop__wyp (i : nat) : Z :=
  match i with
  | O => 0x2d358dccaa6c78a5 | 1%nat => 0x8bb84b93962eacc9 | 2%nat => 0x4b33a62ed433d4a3 | _ => 0x4d5a2da51de1aa47
  end.

(** [__builtin_bswap64] and [__builtin_bswap32] *)
Definition bswap (n : nat) (v : Z) : Z := le_value (rev (le_bytes n v)).

Section Hash.
Context `{Platform}.

Definition bebop__wyr8 (mem : list Z) (p : Z) : option Z :=
  l ← load_bytes mem p 8;
  Some (if BEBOP_WIRE_ASSUME_LE then host_value l else bswap 8 (host_value l)).

Definition bebop__wyr4 (mem : list Z) (p : Z) : option Z :=
  l ← load_bytes mem p 4;
  Some (if BEBOP_WIRE_ASSUME_LE then host_value l else bswap 4 (host_value l)).

Definition bebop__wyr3 (mem : list Z) (p k : Z) : option Z :=
  a ← load mem p;
  b ← load mem (p + Z.shiftr k 1);
  c ← load mem (p + (k - 1));
  Some (Z.lor (Z.lor (Z.shiftl a 16) (Z.shiftl b 8)) c).

(** [bebop__wymix(bebop__wyr8(p) ^ secret, bebop__wyr8(p + 8) ^ seed)] *)
Definition wymix_at (mem : list Z) (p secret seed : Z) : option Z :=
  x ← bebop__wyr8 mem p;
  y ← bebop__wyr8 mem (p + 8);
  Some (bebop__wymix (Z.lxor x secret) (Z.lxor y seed)).

(** The loop over blocks of 48 bytes; a [do] loop whose first test holds. *)
Fixpoint wyhash48 (fuel : nat) (mem : list Z) (p i seed see1 see2 : Z) : option (Z * Z * Z * Z * Z) :=
  match fuel with
  | O => None
  | S fuel =>
      seed ← wymix_at mem p (bebop__wyp 1) seed;
      see1 ← wymix_at mem (p + 16) (bebop__wyp 2) see1;
      see2 ← wymix_at mem (p + 32) (bebop__wyp 3) see2;
      if 48 <=? i - 48 then wyhash48 fuel mem (p + 48) (i - 48) seed see1 see2
      else Some (p + 48, i - 48, seed, see1, see2)
  end.

(** The loop over blocks of 16 bytes. *)
Fixpoint wyhash16 (fuel : nat) (mem : list Z) (p i seed : Z) : option (Z * Z * Z) :=
  match fuel with
  | O => None
  | S fuel =>
      if 16 <? i then
        seed ← wymix_at mem p (bebop__wyp 1) seed;
        wyhash16 fuel mem (p + 16) (i - 16) seed
      else Some (p, i, seed)
  end.

(** The input of at most 16 bytes. *)
Definition wyhash_short (mem : list Z) (p len : Z) : option (Z * Z) :=
  if 4 <=? len then
    let o := Z.shiftl (Z.shiftr len 3) 2 in
    a1 ← bebop__wyr4 mem p;
    a2 ← bebop__wyr4 mem (p + o);
    b1 ← bebop__wyr4 mem (p + len - 4);
    b2 ← bebop__wyr4 mem (p + len - 4 - o);
    Some (Z.lor (u64 (Z.shiftl a1 32)) a2, Z.lor (u64 (Z.shiftl b1 32)) b2)
  else if 0 <? len then
    a ← bebop__wyr3 mem p len; Some (a, 0)
  else Some (0, 0).

(** The start of a longer input: whole blocks of 48 bytes. *)
Definition wyhash_blocks (mem : list Z) (p len seed : Z) : option (Z * Z * Z) :=
  if 48 <=? len then
    '(p, i, seed, see1, see2) ← wyhash48 (S (Z.to_nat len)) mem p len seed seed seed;
    Some (p, i, Z.lxor seed (Z.lxor see1 see2))
  else Some (p, len, seed).

Definition wyhash_long (mem : list Z) (p len seed : Z) : option (Z * Z * Z) :=
  '(p, i, seed) ← wyhash_blocks mem p len seed;
  '(p, i, seed) ← wyhash16 (S (Z.to_nat len)) mem p i seed;
  a ← bebop__wyr8 mem (p + i - 16);
  b ← bebop__wyr8 mem (p + i - 8);
  Some (a, b, seed).

Definition bebop__wyhash (mem : list Z) (p len seed : Z) : option Z :=
  let seed := Z.lxor seed (bebop__wymix (Z.lxor seed (bebop__wyp 0)) (bebop__wyp 1)) in
  '(a, b, seed) ←
    (if len <=? 16 then '(a, b) ← wyhash_short mem p len; Some (a, b, seed)
     else wyhash_long mem p len seed);
  let a := Z.lxor a (bebop__wyp 1) in
  let b := Z.lxor b seed in
  let '(a, b) := bebop__wymum a b in
  Some (bebop__wymix (Z.lxor (Z.lxor a (bebop__wyp 0)) len) (Z.lxor b (bebop__wyp 1))).

Definition bebop__wyhash64 (a b : Z) : Z :=
  let a := Z.lxor a 0x2d358dccaa6c78a5 in
  let b := Z.lxor b 0x8bb84b93962eacc9 in
  let '(a, b) := bebop__wymum a b in
  bebop__wymix (Z.lxor a 0x2d358dccaa6c78a5) (Z.lxor b 0x8bb84b93962eacc9).

(** ** Hashes of the key kinds *)

Definition bebop_map_hash_bool (key : bool) : Z := bebop__wyhash64 (if key then 1 else 0) 0.
Definition bebop_map_hash_i8 (key : Z) : Z := bebop__wyhash64 (u64 key) 0.
Definition bebop_map_hash_u8 (key : Z) : Z := bebop__wyhash64 key 0.
Definition bebop_map_hash_i16 (key : Z) : Z := bebop__wyhash64 (u64 key) 0.
Definition bebop_map_hash_u16 (key : Z) : Z := bebop__wyhash64 key 0.
Definition bebop_map_hash_i32 (key : Z) : Z := bebop__wyhash64 (u64 key) 0.
Definition bebop_map_hash_u32 (key : Z) : Z := bebop__wyhash64 key 0.
Definition bebop_map_hash_i64 (key : Z) : Z := bebop__wyhash64 (u64 key) 0.
Definition bebop_map_hash_u64 (key : Z) : Z := bebop__wyhash64 key 0.

(** Two 64-bit loads from the sixteen bytes of an object. *)
Definition hash_object16 (object : list Z) : Z :=
  bebop__wyhash64 (host_value (take 8 object)) (host_value (take 8 (drop 8 object))).
Definition bebop_map_hash_i128 (key : Z) : Z := hash_object16 (host_bytes 16 (to_unsigned 128 key)).
Definition bebop_map_hash_u128 (key : Z) : Z := hash_object16 (host_bytes 16 key).
Definition bebop_map_hash_uuid (key : Bebop_UUID) : Z := hash_object16 (uuid_bytes key).
Definition bebop_map_hash_string (key : list Z) : option Z := bebop__wyhash key 0 (zlen key) 0.
End Hash.

(** ** Equality of the key kinds *)

Definition bebop_map_equal_bool (a b : bool) : bool := Bool.eqb a b.
Definition bebop_map_equal_i8 (a b : Z) : bool := a =? b.
Definition bebop_map_equal_u8 (a b : Z) : bool := a =? b.
Definition bebop_map_equal_i16 (a b : Z) : bool := a =? b.
Definition bebop_map_equal_u16 (a b : Z) : bool := a =? b.
Definition bebop_map_equal_i32 (a b : Z) : bool := a =? b.
Definition bebop_map_equal_u32 (a b : Z) : bool := a =? b.
Definition bebop_map_equal_i64 (a b : Z) : bool := a =? b.
Definition bebop_map_equal_u64 (a b : Z) : bool := a =? b.
Definition bebop_map_equal_i128 `{Platform} (a b : Z) : bool :=
  memcmp_equal (host_bytes 16 (to_unsigned 128 a)) (host_bytes 16 (to_unsigned 128 b)).
Definition bebop_map_equal_u128 `{Platform} (a b : Z) : bool := memcmp_equal (host_bytes 16 a) (host_bytes 16 b).
Definition bebop_map_equal_uuid (a b : Bebop_UUID) : bool := memcmp_equal (uuid_bytes a) (uuid_bytes b).
Definition bebop_map_equal_string (a b : list Z) : bool := (zlen a =? zlen b) && memcmp_equal a b.

(** ** The interface *)

(** What the map needs of its keys: a 64-bit hash and a test of equality, the
    [hash] and [eq] members of [Bebop_Map]. *)
Class MapKey (K : Type) := {
  key_hash : K → option Z;
  key_equal : K → K → bool;
  key_ok : K → Prop
}.
Class MapKeyOk (K : Type) `{MapKey K} : Prop := {
  key_hash_ok : ∀ k, key_ok k → ∃ h, key_hash k = Some h ∧ 0 ≤ h < 2 ^ 64;
  key_equal_ok : ∀ a b, key_ok a → key_ok b → key_equal a b = true ↔ a = b
}.

Inductive Bebop_MapKeyKind : Set :=
  | BEBOP_MAP_KEY_BOOL | BEBOP_MAP_KEY_I8 | BEBOP_MAP_KEY_U8 | BEBOP_MAP_KEY_I16 | BEBOP_MAP_KEY_U16
  | BEBOP_MAP_KEY_I32 | BEBOP_MAP_KEY_U32 | BEBOP_MAP_KEY_I64 | BEBOP_MAP_KEY_U64
  | BEBOP_MAP_KEY_I128 | BEBOP_MAP_KEY_U128 | BEBOP_MAP_KEY_STRING | BEBOP_MAP_KEY_UUID.

(** The type of the object a key of each kind points to. *)
Definition key_type (kind : Bebop_MapKeyKind) : Type :=
  match kind with
  | BEBOP_MAP_KEY_BOOL => bool
  | BEBOP_MAP_KEY_STRING => list Z
  | BEBOP_MAP_KEY_UUID => Bebop_UUID
  | _ => Z
  end.

(** The table [hashes] of [bebop_map_init]. *)
Definition map_hashes `{Platform} (kind : Bebop_MapKeyKind) : key_type kind → option Z :=
  match kind with
  | BEBOP_MAP_KEY_BOOL => λ k, Some (bebop_map_hash_bool k)
  | BEBOP_MAP_KEY_I8 => λ k, Some (bebop_map_hash_i8 k)
  | BEBOP_MAP_KEY_U8 => λ k, Some (bebop_map_hash_u8 k)
  | BEBOP_MAP_KEY_I16 => λ k, Some (bebop_map_hash_i16 k)
  | BEBOP_MAP_KEY_U16 => λ k, Some (bebop_map_hash_u16 k)
  | BEBOP_MAP_KEY_I32 => λ k, Some (bebop_map_hash_i32 k)
  | BEBOP_MAP_KEY_U32 => λ k, Some (bebop_map_hash_u32 k)
  | BEBOP_MAP_KEY_I64 => λ k, Some (bebop_map_hash_i64 k)
  | BEBOP_MAP_KEY_U64 => λ k, Some (bebop_map_hash_u64 k)
  | BEBOP_MAP_KEY_I128 => λ k, Some (bebop_map_hash_i128 k)
  | BEBOP_MAP_KEY_U128 => λ k, Some (bebop_map_hash_u128 k)
  | BEBOP_MAP_KEY_STRING => bebop_map_hash_string
  | BEBOP_MAP_KEY_UUID => λ k, Some (bebop_map_hash_uuid k)
  end.

(** The table [equals] of [bebop_map_init]. *)
Definition map_equals `{Platform} (kind : Bebop_MapKeyKind) : key_type kind → key_type kind → bool :=
  match kind with
  | BEBOP_MAP_KEY_BOOL => bebop_map_equal_bool
  | BEBOP_MAP_KEY_I8 => bebop_map_equal_i8
  | BEBOP_MAP_KEY_U8 => bebop_map_equal_u8
  | BEBOP_MAP_KEY_I16 => bebop_map_equal_i16
  | BEBOP_MAP_KEY_U16 => bebop_map_equal_u16
  | BEBOP_MAP_KEY_I32 => bebop_map_equal_i32
  | BEBOP_MAP_KEY_U32 => bebop_map_equal_u32
  | BEBOP_MAP_KEY_I64 => bebop_map_equal_i64
  | BEBOP_MAP_KEY_U64 => bebop_map_equal_u64
  | BEBOP_MAP_KEY_I128 => bebop_map_equal_i128
  | BEBOP_MAP_KEY_U128 => bebop_map_equal_u128
  | BEBOP_MAP_KEY_STRING => bebop_map_equal_string
  | BEBOP_MAP_KEY_UUID => bebop_map_equal_uuid
  end.

(** The values of each key type. *)
Definition key_valid (kind : Bebop_MapKeyKind) : key_type kind → Prop :=
  match kind with
  | BEBOP_MAP_KEY_BOOL => λ _, True
  | BEBOP_MAP_KEY_I8 => λ k, - 2 ^ 7 ≤ k < 2 ^ 7
  | BEBOP_MAP_KEY_U8 => λ k, 0 ≤ k < 2 ^ 8
  | BEBOP_MAP_KEY_I16 => λ k, - 2 ^ 15 ≤ k < 2 ^ 15
  | BEBOP_MAP_KEY_U16 => λ k, 0 ≤ k < 2 ^ 16
  | BEBOP_MAP_KEY_I32 => λ k, - 2 ^ 31 ≤ k < 2 ^ 31
  | BEBOP_MAP_KEY_U32 => λ k, 0 ≤ k < 2 ^ 32
  | BEBOP_MAP_KEY_I64 => λ k, - 2 ^ 63 ≤ k < 2 ^ 63
  | BEBOP_MAP_KEY_U64 => λ k, 0 ≤ k < 2 ^ 64
  | BEBOP_MAP_KEY_I128 => λ k, - 2 ^ 127 ≤ k < 2 ^ 127
  | BEBOP_MAP_KEY_U128 => λ k, 0 ≤ k < 2 ^ 128
  | BEBOP_MAP_KEY_STRING => bytes_ok
  | BEBOP_MAP_KEY_UUID => λ k, length (uuid_bytes k) = 16%nat
  end.

#[export] Instance kind_key `{Platform} kind : MapKey (key_type kind) := {
  key_hash := map_hashes kind;
  key_equal := map_equals kind;
  key_ok := key_valid kind
}.

(** ** Properties *)

Lemma u64_range z : 0 ≤ u64 z < 2 ^ 64.
Proof. unfold u64. apply Z.mod_pos_bound. lia. Qed.

Lemma lxor_range n a b : 0 ≤ n → 0 ≤ a < 2 ^ n → 0 ≤ b < 2 ^ n → 0 ≤ Z.lxor a b < 2 ^ n.
Proof.
  intros Hn Ha Hb. assert (E : Z.lxor a b = Z.lxor a b mod 2 ^ n).
  { apply Z.bits_inj'. intros i Hi. destruct (Z.ltb_spec i n).
    - by rewrite Z.mod_pow2_bits_low.
    - rewrite Z.mod_pow2_bits_high, Z.lxor_spec by lia.
      rewrite <- (Z.mod_small a (2 ^ n)), <- (Z.mod_small b (2 ^ n)), !Z.mod_pow2_bits_high by lia. done. }
  rewrite E. apply Z.mod_pos_bound. lia.
Qed.

Lemma wymix_range a b : 0 ≤ bebop__wymix a b < 2 ^ 64.
Proof. unfold bebop__wymix, bebop__wymum. apply lxor_range; [lia|apply u64_range..]. Qed.

Lemma wyhash64_range a b : 0 ≤ bebop__wyhash64 a b < 2 ^ 64.
Proof. unfold bebop__wyhash64, bebop__wymum. apply wymix_range. Qed.

(** The portable multiplication, with four products of 32-bit halves and two
    carries, computes the same two halves of the 128-bit product as the branch with
    128-bit integers, so that a hash does not depend on the compiler. *)
Theorem wymum_portable_correct a b :
  0 ≤ a < 2 ^ 64 → 0 ≤ b < 2 ^ 64 → wymum_portable a b = bebop__wymum a b.
Proof.
  intros Ha Hb. unfold wymum_portable, bebop__wymum. cbv zeta. rewrite !Z.shiftr_div_pow2 by lia.
  set (ha := a / 2 ^ 32). set (hb := b / 2 ^ 32). set (la := u32 a). set (lb := u32 b).
  assert (Ea : a = 2 ^ 32 * ha + la) by (subst ha la; unfold u32; apply Z.div_mod; lia).
  assert (Eb : b = 2 ^ 32 * hb + lb) by (subst hb lb; unfold u32; apply Z.div_mod; lia).
  assert (Hla : 0 ≤ la < 2 ^ 32) by (subst la; unfold u32; apply Z.mod_pos_bound; lia).
  assert (Hlb : 0 ≤ lb < 2 ^ 32) by (subst lb; unfold u32; apply Z.mod_pos_bound; lia).
  assert (Hha : 0 ≤ ha < 2 ^ 32) by lia. assert (Hhb : 0 ≤ hb < 2 ^ 32) by lia. clearbody ha hb la lb.
  assert (Hprod : ∀ x y, 0 ≤ x < 2 ^ 32 → 0 ≤ y < 2 ^ 32 → 0 ≤ x * y ≤ (2 ^ 32 - 1) * (2 ^ 32 - 1)) by (intros; nia).
  pose proof (Hprod ha hb Hha Hhb). pose proof (Hprod la lb Hla Hlb). pose proof (Hprod ha lb Hha Hlb).
  pose proof (Hprod hb la Hhb Hla). rewrite !(u64_small (_ * _)) by lia.
  assert (Eab : a * b = 2 ^ 64 * (ha * hb) + 2 ^ 32 * (ha * lb + hb * la) + la * lb) by (subst a b; ring).
  rewrite Eab. clear Ea Eb Eab Hprod Ha Hb.
  set (rh := ha * hb) in *. set (rl := la * lb) in *. set (rm0 := ha * lb) in *. set (rm1 := hb * la) in *.
  clearbody rh rl rm0 rm1. rewrite !Z.shiftl_mul_pow2 by lia. unfold u64.
  set (q0 := rm0 / 2 ^ 32). set (q1 := rm1 / 2 ^ 32).
  pose proof (Z.div_mod rm0 (2 ^ 32) ltac:(lia)) as E0. pose proof (Z.div_mod rm1 (2 ^ 32) ltac:(lia)) as E1.
  fold q0 in E0. fold q1 in E1. pose proof (Z.mod_pos_bound rm0 (2 ^ 32) ltac:(lia)) as R0.
  pose proof (Z.mod_pos_bound rm1 (2 ^ 32) ltac:(lia)) as R1. set (r0 := rm0 mod 2 ^ 32) in *. set (r1 := rm1 mod 2 ^ 32) in *.
  assert (Q0 : 0 ≤ q0 < 2 ^ 32) by lia. assert (Q1 : 0 ≤ q1 < 2 ^ 32) by lia. clearbody q0 q1 r0 r1.
  assert (S0 : (rm0 * 2 ^ 32) mod 2 ^ 64 = r0 * 2 ^ 32) by (symmetry; apply (Z.mod_unique_pos _ _ q0); lia).
  assert (S1 : (rm1 * 2 ^ 32) mod 2 ^ 64 = r1 * 2 ^ 32) by (symmetry; apply (Z.mod_unique_pos _ _ q1); lia).
  rewrite S0, S1. set (t := (rl + r0 * 2 ^ 32) mod 2 ^ 64). set (c0 := if t <? rl then 1 else 0).
  assert (Ht : t = rl + r0 * 2 ^ 32 - 2 ^ 64 * c0 ∧ 0 ≤ t < 2 ^ 64 ∧ 0 ≤ c0 ≤ 1).
  { pose proof (Z.div_mod (rl + r0 * 2 ^ 32) (2 ^ 64) ltac:(lia)) as Ed. fold t in Ed.
    pose proof (Z.mod_pos_bound (rl + r0 * 2 ^ 32) (2 ^ 64) ltac:(lia)) as Hr. fold t in Hr.
    assert (Hq : 0 ≤ (rl + r0 * 2 ^ 32) / 2 ^ 64 ≤ 1) by (split; [apply Z.div_pos; lia|apply Z.lt_succ_r, Z.div_lt_upper_bound; lia]).
    subst c0. destruct (Z.ltb_spec t rl); lia. }
  clearbody t c0. set (lo := (t + r1 * 2 ^ 32) mod 2 ^ 64). set (c1 := if lo <? t then 1 else 0).
  assert (Hlo : lo = t + r1 * 2 ^ 32 - 2 ^ 64 * c1 ∧ 0 ≤ lo < 2 ^ 64 ∧ 0 ≤ c1 ≤ 1).
  { pose proof (Z.div_mod (t + r1 * 2 ^ 32) (2 ^ 64) ltac:(lia)) as Ed. fold lo in Ed.
    pose proof (Z.mod_pos_bound (t + r1 * 2 ^ 32) (2 ^ 64) ltac:(lia)) as Hr. fold lo in Hr.
    assert (Hq : 0 ≤ (t + r1 * 2 ^ 32) / 2 ^ 64 ≤ 1) by (split; [apply Z.div_pos; lia|apply Z.lt_succ_r, Z.div_lt_upper_bound; lia]).
    subst c1. destruct (Z.ltb_spec lo t); lia. }
  clearbody lo c1. f_equal.
  - apply (Z.mod_unique_pos _ _ (rh + q0 + q1 + c0 + c1)); lia.
  - f_equal. apply (Z.div_unique_pos _ _ _ lo); lia.
Qed.

(** ** The hash of a string *)

Section StringHash.
Context `{Platform}.

(** A load inside of [s] does not see what is around it. *)
Lemma load_bytes_inside (pre s post : list Z) o n :
  0 ≤ o → 0 ≤ n → o + n ≤ zlen s → load_bytes (pre ++ s ++ post) (zlen pre + o) n = load_bytes s o n.
Proof.
  intros Ho Hn Hl. rewrite !load_bytes_in by zlia. f_equal.
  replace (Z.to_nat (zlen pre + o)) with (length pre + Z.to_nat o)%nat by (unfold zlen; lia).
  rewrite <- drop_drop, drop_app_length, drop_app_le by (unfold zlen in *; lia).
  rewrite take_app_le; [done|]. rewrite length_drop. unfold zlen in *. lia.
Qed.

Lemma load_inside (pre s post : list Z) o : 0 ≤ o < zlen s → load (pre ++ s ++ post) (zlen pre + o) = load s o.
Proof.
  intros Ho. unfold load. zlen_pos. destruct (Z.ltb_spec (zlen pre + o) 0), (Z.ltb_spec o 0); try lia.
  replace (Z.to_nat (zlen pre + o)) with (length pre + Z.to_nat o)%nat by (unfold zlen; lia).
  rewrite lookup_app_r by lia. replace (length pre + Z.to_nat o - length pre)%nat with (Z.to_nat o) by lia.
  rewrite lookup_app_l; [done|]. unfold zlen in *. lia.
Qed.

(** [f] reads [n] bytes at its argument: it is defined there, and what surrounds the
    string does not matter. *)
Definition reads_inside {A} (f : list Z → Z → option A) (n : Z) : Prop :=
  ∀ pre s post o, 0 ≤ o → o + n ≤ zlen s →
    f (pre ++ s ++ post) (zlen pre + o) = f s o ∧ is_Some (f s o).

Lemma wyr8_inside : reads_inside bebop__wyr8 8.
Proof.
  intros pre s post o Ho Hl. unfold bebop__wyr8. rewrite load_bytes_inside by lia.
  rewrite load_bytes_in by lia. cbn [mbind option_bind]. split; [done|by eexists].
Qed.

Lemma wyr4_inside : reads_inside bebop__wyr4 4.
Proof.
  intros pre s post o Ho Hl. unfold bebop__wyr4. rewrite load_bytes_inside by lia.
  rewrite load_bytes_in by lia. cbn [mbind option_bind]. split; [done|by eexists].
Qed.

Lemma wymix_at_inside secret seed : reads_inside (λ mem p, wymix_at mem p secret seed) 16.
Proof.
  intros pre s post o Ho Hl. unfold wymix_at. destruct (wyr8_inside pre s post o) as [-> [x ->]]; [lia..|].
  rewrite <- Z.add_assoc. destruct (wyr8_inside pre s post (o + 8)) as [-> [y ->]]; [lia..|].
  cbn [mbind option_bind]. split; [done|by eexists].
Qed.

(** Moves the cursor of a loop's result. *)
Definition moved3 (n : Z) (r : Z * Z * Z) : Z * Z * Z := let '(p, i, seed) := r in (n + p, i, seed).
Definition moved5 (n : Z) (r : Z * Z * Z * Z * Z) : Z * Z * Z * Z * Z :=
  let '(p, i, seed, see1, see2) := r in (n + p, i, seed, see1, see2).

Lemma wyhash16_inside fuel pre s post o i seed :
  0 ≤ o → 0 ≤ i → o + i = zlen s → i < Z.of_nat fuel →
  ∃ p j seed', wyhash16 fuel s o i seed = Some (p, j, seed') ∧ o ≤ p ∧ 0 ≤ j ≤ 16 ∧ p + j = zlen s ∧
    wyhash16 fuel (pre ++ s ++ post) (zlen pre + o) i seed = Some (moved3 (zlen pre) (p, j, seed')).
Proof.
  revert o i seed. induction fuel as [|fuel IH]; intros o i seed Ho Hi Hz Hf; [lia|]. cbn [wyhash16].
  destruct (Z.ltb_spec 16 i) as [Hlt|Hge].
  - destruct (wymix_at_inside (bebop__wyp 1) seed pre s post o) as [-> [x ->]]; [lia..|]. cbn [mbind option_bind].
    destruct (IH (o + 16) (i - 16) x) as (p&j&seed'&E&Hp&Hj&Hs&E2); [lia..|]. exists p, j, seed'.
    rewrite <- Z.add_assoc. split_and!; try done; lia.
  - exists o, i, seed. split_and!; try done; lia.
Qed.

Lemma wyhash48_inside fuel pre s post o i seed see1 see2 :
  0 ≤ o → 48 ≤ i → o + i = zlen s → i < Z.of_nat fuel →
  ∃ p j a b c, wyhash48 fuel s o i seed see1 see2 = Some (p, j, a, b, c) ∧ o + 48 ≤ p ∧ 0 ≤ j < 48 ∧ p + j = zlen s ∧
    wyhash48 fuel (pre ++ s ++ post) (zlen pre + o) i seed see1 see2 = Some (moved5 (zlen pre) (p, j, a, b, c)).
Proof.
  revert o i seed see1 see2. induction fuel as [|fuel IH]; intros o i seed see1 see2 Ho Hi Hz Hf; [lia|]. cbn [wyhash48].
  rewrite <- !Z.add_assoc. destruct (wymix_at_inside (bebop__wyp 1) seed pre s post o) as [-> [x ->]]; [lia..|]. cbn [mbind option_bind].
  destruct (wymix_at_inside (bebop__wyp 2) see1 pre s post (o + 16)) as [-> [y ->]]; [lia..|]. cbn [mbind option_bind].
  destruct (wymix_at_inside (bebop__wyp 3) see2 pre s post (o + 32)) as [-> [z ->]]; [lia..|]. cbn [mbind option_bind].
  destruct (Z.leb_spec 48 (i - 48)) as [Hle|Hgt].
  - destruct (IH (o + 48) (i - 48) x y z) as (p&j&a&b&c&E&Hp&Hj&Hs&E2); [lia..|]. exists p, j, a, b, c.
    split_and!; try done; lia.
  - exists (o + 48), (i - 48), x, y, z. split_and!; try done; lia.
Qed.

Lemma wyhash_short_inside : ∀ pre s post, zlen s ≤ 16 →
  wyhash_short (pre ++ s ++ post) (zlen pre) (zlen s) = wyhash_short s 0 (zlen s) ∧ is_Some (wyhash_short s 0 (zlen s)).
Proof.
  intros pre s post Hl. unfold wyhash_short. pose proof (zlen_nonneg s) as Hz.
  destruct (Z.leb_spec 4 (zlen s)) as [H4|H4].
  - set (o := Z.shiftl (Z.shiftr (zlen s) 3) 2).
    assert (Ho : 0 ≤ o ∧ o + 4 ≤ zlen s).
    { subst o. rewrite Z.shiftl_mul_pow2, Z.shiftr_div_pow2 by lia. change (2 ^ 3) with 8. change (2 ^ 2) with 4.
      pose proof (Z.div_mod (zlen s) 8 ltac:(lia)). pose proof (Z.mod_pos_bound (zlen s) 8 ltac:(lia)). lia. }
    replace (zlen pre + zlen s - 4) with (zlen pre + (0 + zlen s - 4)) by lia.
    replace (zlen pre + (0 + zlen s - 4) - o) with (zlen pre + (0 + zlen s - 4 - o)) by lia.
    rewrite <- (Z.add_0_r (zlen pre)) at 1.
    destruct (wyr4_inside pre s post 0) as [-> [a ->]]; [lia..|]. rewrite !Z.add_0_l.
    destruct (wyr4_inside pre s post o) as [-> [b ->]]; [lia..|].
    destruct (wyr4_inside pre s post (zlen s - 4)) as [-> [c ->]]; [lia..|].
    destruct (wyr4_inside pre s post (zlen s - 4 - o)) as [-> [d ->]]; [lia..|].
    cbn [mbind option_bind]. split; [done|by eexists].
  - destruct (Z.ltb_spec 0 (zlen s)) as [Hpos|Hpos]; [|split; [done|by eexists]]. unfold bebop__wyr3.
    assert (Hs : 0 ≤ Z.shiftr (zlen s) 1 < zlen s).
    { rewrite Z.shiftr_div_pow2 by lia. change (2 ^ 1) with 2. split; [apply Z.div_pos|apply Z.div_lt]; lia. }
    rewrite <- (Z.add_0_r (zlen pre)) at 1. rewrite !load_inside by lia. rewrite !Z.add_0_l.
    destruct (load_in s 0) as [a ->]; [lia|]. destruct (load_in s (Z.shiftr (zlen s) 1)) as [b ->]; [lia|].
    destruct (load_in s (zlen s - 1)) as [c ->]; [lia|]. cbn [mbind option_bind]. split; [done|by eexists].
Qed.

Lemma wyhash_long_inside pre s post seed : 16 < zlen s →
  wyhash_long (pre ++ s ++ post) (zlen pre) (zlen s) seed = wyhash_long s 0 (zlen s) seed ∧
  is_Some (wyhash_long s 0 (zlen s) seed).
Proof.
  intros Hl. unfold wyhash_long.
  assert (H1 : ∃ p i seed', wyhash_blocks s 0 (zlen s) seed = Some (p, i, seed') ∧ 0 ≤ p ∧ (16 ≤ p ∨ 16 < i) ∧ 0 ≤ i ∧ p + i = zlen s ∧
    wyhash_blocks (pre ++ s ++ post) (zlen pre) (zlen s) seed = Some (moved3 (zlen pre) (p, i, seed'))).
  { unfold wyhash_blocks. destruct (Z.leb_spec 48 (zlen s)) as [H48|H48].
    - destruct (wyhash48_inside (S (Z.to_nat (zlen s))) pre s post 0 (zlen s) seed seed seed) as (p&j&a&b&c&E&Hp&Hj&Hs&E2); [lia..|].
      rewrite Z.add_0_r in E2. rewrite E, E2. cbn. eexists _, _, _. split_and!; try reflexivity; lia.
    - eexists _, _, _. split_and!; try reflexivity; try lia. cbn. by rewrite Z.add_0_r. }
  destruct H1 as (p&i&seed'&E&Hp&Hpi&Hi&Hs&E2). rewrite E, E2. cbn [mbind option_bind moved3].
  destruct (wyhash16_inside (S (Z.to_nat (zlen s))) pre s post p i seed') as (q&j&seed2&F&Hq&Hj&Hs2&F2); [lia..|].
  rewrite F, F2. cbn [mbind option_bind moved3].
  replace (zlen pre + q + j - 16) with (zlen pre + (q + j - 16)) by lia.
  replace (zlen pre + q + j - 8) with (zlen pre + (q + j - 8)) by lia.
  destruct (wyr8_inside pre s post (q + j - 16)) as [-> [a ->]]; [lia..|].
  destruct (wyr8_inside pre s post (q + j - 8)) as [-> [b ->]]; [lia..|].
  cbn [mbind option_bind]. split; [done|by eexists].
Qed.

Lemma wyhash_inside pre s post seed :
  bebop__wyhash (pre ++ s ++ post) (zlen pre) (zlen s) seed = bebop__wyhash s 0 (zlen s) seed ∧
  ∃ h, bebop__wyhash s 0 (zlen s) seed = Some h ∧ 0 ≤ h < 2 ^ 64.
Proof.
  unfold bebop__wyhash. cbv zeta. destruct (Z.leb_spec (zlen s) 16) as [Hs|Hl].
  - destruct (wyhash_short_inside pre s post Hs) as [-> [[a b] ->]]. cbn [mbind option_bind].
    split; [done|]. eexists. split; [reflexivity|apply wymix_range].
  - destruct (wyhash_long_inside pre s post (Z.lxor seed (bebop__wymix (Z.lxor seed (bebop__wyp 0)) (bebop__wyp 1))) Hl) as [-> [[[a b] c] ->]].
    cbn [mbind option_bind]. split; [done|]. eexists. split; [reflexivity|apply wymix_range].
Qed.

(** The string hash returns for every string of every length, is a 64-bit number,
    and reads only inside of the string: what is before and after it in memory, which
    may not be readable, does not change it.  Equal strings in different buffers
    therefore have one hash. *)
Theorem wyhash_reads_only_string pre s post seed :
  ∃ h, bebop__wyhash (pre ++ s ++ post) (zlen pre) (zlen s) seed = Some h ∧
    bebop__wyhash s 0 (zlen s) seed = Some h ∧ 0 ≤ h < 2 ^ 64.
Proof.
  destruct (wyhash_inside pre s post seed) as [E (h&Eh&Hr)]. exists h. rewrite E. done.
Qed.
End StringHash.

(** ** The key kinds satisfy the interface *)

Lemma hash_object16_range `{PlatformOk} l : 0 ≤ hash_object16 l < 2 ^ 64.
Proof. apply wyhash64_range. Qed.

Lemma map_hashes_ok `{PlatformOk} kind k : ∃ h, map_hashes kind k = Some h ∧ 0 ≤ h < 2 ^ 64.
Proof.
  destruct kind; cbn [map_hashes];
    try (eexists; split; [reflexivity|first [apply wyhash64_range|apply hash_object16_range]]).
  destruct (wyhash_inside [] k [] 0) as [_ (h&E&Hr)]. exists h. split; [exact E|done].
Qed.

Lemma host_bytes_inj `{PlatformOk} n a b :
  0 ≤ a < 256 ^ Z.of_nat n → 0 ≤ b < 256 ^ Z.of_nat n → host_bytes n a = host_bytes n b → a = b.
Proof. intros Ha Hb E. by rewrite <- (host_value_bytes n a), E, host_value_bytes. Qed.

Lemma map_equals_ok `{PlatformOk} kind a b :
  key_valid kind a → key_valid kind b → map_equals kind a b = true ↔ a = b.
Proof.
  destruct kind; cbn [key_valid map_equals key_type]; intros Ha Hb; try apply Z.eqb_eq.
  - apply Bool.eqb_true_iff.
  - unfold bebop_map_equal_i128, memcmp_equal. rewrite bool_decide_eq_true. split; [|by intros ->].
    intros E%host_bytes_inj; [|unfold to_unsigned; apply Z.mod_pos_bound; lia..].
    rewrite <- (to_signed_unsigned 128 a), <- (to_signed_unsigned 128 b), E by (change (2 ^ (128 - 1)) with (2 ^ 127); lia). done.
  - unfold bebop_map_equal_u128, memcmp_equal. rewrite bool_decide_eq_true. split; [|by intros ->].
    apply host_bytes_inj; change (256 ^ Z.of_nat 16) with (2 ^ 128); lia.
  - unfold bebop_map_equal_string, memcmp_equal. rewrite andb_true_iff, Z.eqb_eq, bool_decide_eq_true.
    split; [by intros [_ ?]|by intros ->].
  - unfold bebop_map_equal_uuid, memcmp_equal. rewrite bool_decide_eq_true. destruct a, b. cbn. split; [by intros ->|by intros [=]].
Qed.

#[export] Instance kind_key_ok `{PlatformOk} kind : MapKeyOk (key_type kind).
Proof.
  split.
  - intros k _. apply map_hashes_ok.
  - intros a b. apply map_equals_ok.
Qed.

(** ** Witnesses *)

Lemma wymum_portable_witness :
  0 ≤ 2 ^ 64 - 1 < 2 ^ 64 ∧ wymum_portable (2 ^ 64 - 1) (2 ^ 64 - 1) = bebop__wymum (2 ^ 64 - 1) (2 ^ 64 - 1).
Proof. split; [lia|]. apply wymum_portable_correct; lia. Defined.

(** For each of the thirteen key kinds, the hash and the comparison that
    [bebop_map_init] installs serve the map: the hash exists and fits 64 bits, and two
    valid keys compare equal exactly if they are the same value. *)
Theorem map_key_kinds_correct `{PlatformOk} kind a b :
  key_valid kind a → key_valid kind b →
  (∃ h, map_hashes kind a = Some h ∧ 0 ≤ h < 2 ^ 64) ∧ (map_equals kind a b = true ↔ a = b).
Proof. intros Ha Hb. split; [apply map_hashes_ok|by apply map_equals_ok]. Qed.

Lemma map_key_kinds_witness :
  @PlatformOk default_platform ∧ key_valid BEBOP_MAP_KEY_I128 (- 1) ∧ key_valid BEBOP_MAP_KEY_I128 1 ∧
  (∃ h, @map_hashes default_platform BEBOP_MAP_KEY_I128 (- 1) = Some h ∧ 0 ≤ h < 2 ^ 64) ∧
  (@map_equals default_platform BEBOP_MAP_KEY_I128 (- 1) 1 = true ↔ - 1 = 1).
Proof.
  split; [exact default_platform_ok|]. split; [cbn; lia|]. split; [cbn; lia|].
  apply (@map_key_kinds_correct default_platform default_platform_ok BEBOP_MAP_KEY_I128 (- 1) 1); cbn; lia.
Defined.
