(* ===== verification/SwissMap.v ===== *)
(** The hash map of [bebop/src/bebop_wire.c] ([bebop_map_init] to
    [bebop__map_grow]): an open-addressing table with one control byte per slot, whose
    probes compare eight control bytes at a time inside a 64-bit word.

    The control bytes and the slots are arrays the map owns; keys and values are the
    objects the stored pointers point to, a value being [None] for a NULL pointer.
    Storage comes from the context, which the map threads through. *)
From S2P Require Import Prelude.
From S2P Require Import WireTypes.
From S2P Require Import Bits.
From S2P Require Import Arena.
From S2P Require Import Hash.

Definition BEBOP_MAP_GROUP_SIZE : Z := 8.
Definition BEBOP_MAP_INITIAL_CAPACITY : Z := 8.
Definition BEBOP_MAP_LOAD_FACTOR : Z := 7.
Definition CTRL_EMPTY : Z := -128.
Definition CTRL_DELETED : Z := -2.
(** [sizeof(Bebop_MapSlot)] *)
Definition sizeof_slot : Z := 16.

Definition H1 (hash : Z) : Z := Z.shiftr hash 7.
Definition H2 (hash : Z) : Z := Z.land hash 0x7F.
Definition CTRL_IS_FULL (c : Z) : bool := 0 <=? c.

(** ** Words of control bytes *)

Definition ONES : Z := 0x0101010101010101.
Definition HIGHS : Z := 0x8080808080808080.

(** [~x] of a 64-bit number *)
Definition not64 (x : Z) : Z := u64 (Z.lnot x).

Definition bebop__map_match_h2 (ctrl_word h2 : Z) : Z :=
  let broadcast := u64 (ONES * to_unsigned 8 h2) in
  let diff := Z.lxor ctrl_word broadcast in
  Z.land (Z.land (u64 (diff - ONES)) (not64 diff)) HIGHS.

Definition bebop__map_match_empty (ctrl_word : Z) : Z :=
  Z.land (Z.land ctrl_word (not64 (u64 (Z.shiftl ctrl_word 1)))) HIGHS.

Definition bebop__map_match_empty_or_deleted (ctrl_word : Z) : Z := Z.land ctrl_word HIGHS.

(** [__builtin_ctzll], undefined at 0 *)
Definition ctz64 (x : Z) : option Z := head (bits 64 x).

Definition bebop__map_match_first (mt : Z) : option Z :=
  if mt =? 0 then Some BEBOP_MAP_GROUP_SIZE else n ← ctz64 mt; Some (n / 8).

Definition bebop__map_probe_offset (i : Z) : Z := u64 (i * (i + 1)) / 2.

Definition bebop__map_clear_match (mt offset : Z) : Z :=
  let shift := (offset + 1) * 8 in
  if shift <? 64 then Z.land mt (not64 (Z.shiftl 1 shift - 1)) else 0.

(** [(start + probe_offset(probe)) & mask & ~(GROUP_SIZE - 1)] *)
Definition group_start (start probe mask : Z) : Z :=
  Z.land (Z.land (u64 (start + bebop__map_probe_offset probe)) mask) (not64 (BEBOP_MAP_GROUP_SIZE - 1)).

Section SwissMap.
Context `{Platform} `{HostAllocator} {K V : Type} `{MapKey K}.

(** [None] as a slot: never written. *)
Abbreviation slot := (option (K * option V)).

Record Bebop_Map : Type := mkMap {
  mp_ctrl : option (list Z);
  mp_slots : list slot;
  mp_length : Z;
  mp_capacity : Z;
  mp_growth_left : Z;
  mp_ctx : ptr
}.

(** The context of the map and the map. *)
Abbreviation MS := ((Heap * Bebop_Context) * Bebop_Map)%type.

Definition get_map : C MS Bebop_Map := gets snd.
Definition put_map (m : Bebop_Map) : C MS unit := modify (λ '(s, _), (s, m)).
Definition on_context {A} (c : C (Heap * Bebop_Context) A) : C MS A :=
  λ '(s, m), match c s with Some (a, s') => Some (a, (s', m)) | None => None end.

Definition bebop_map_init (context : ptr) : Bebop_Map := mkMap None [] 0 0 0 context.

(** ** Loads and stores *)

Definition ctrl_word (ctrl : list Z) (g : Z) : option Z :=
  l ← load_bytes ctrl g 8; Some (host_value (map (to_unsigned 8) l)).

Definition load_slot (slots : list slot) (idx : Z) : option (K * option V) :=
  if idx <? 0 then None else mjoin (slots !! Z.to_nat idx).

Definition store {A} (l : list A) (idx : Z) (x : A) : option (list A) :=
  if (0 <=? idx) && (idx <? zlen l) then Some (<[Z.to_nat idx := x]> l) else None.

(** ** Probing *)

(** The loop over the matches of one group; [next] is how the caller advances. *)
Fixpoint match_loop (fuel : nat) (next : Z → Z → Z) (slots : list slot) (key : K) (g mt : Z)
  : option (option Z) :=
  if mt =? 0 then Some None
  else match fuel with
  | O => None
  | S fuel =>
      offset ← bebop__map_match_first mt;
      let idx := u64 (g + offset) in
      '(k, _) ← load_slot slots idx;
      if key_equal k key then Some (Some idx)
      else match_loop fuel next slots key g (next mt offset)
  end.

(** The loop over the groups of [bebop_map_get] and [bebop_map_remove]: the index of
    the slot that holds the key. *)
Fixpoint find_loop (max_probes : nat) (next : Z → Z → Z) (ctrl : list Z) (slots : list slot) (key : K)
    (h2 mask start probe : Z) : option (option Z) :=
  match max_probes with
  | O => Some None
  | S max_probes =>
      let g := group_start start probe mask in
      word ← ctrl_word ctrl g;
      r ← match_loop 8 next slots key g (bebop__map_match_h2 word h2);
      match r with
      | Some idx => Some (Some idx)
      | None =>
          if bebop__map_match_empty word =? 0
          then find_loop max_probes next ctrl slots key h2 mask start (probe + 1)
          else Some None
      end
  end.

Definition max_probes_of (capacity : Z) : Z := capacity / BEBOP_MAP_GROUP_SIZE + 2.

Definition map_find (next : Z → Z → Z) (m : Bebop_Map) (ctrl : list Z) (key : K) : option (option Z) :=
  h ← key_hash key;
  let mask := u64 (mp_capacity m - 1) in
  find_loop (Z.to_nat (max_probes_of (mp_capacity m))) next ctrl (mp_slots m) key
    (H2 h) mask (Z.land (H1 h) mask) 0.

(** [bebop_map_get] also clears the lowest bit. *)
Definition get_next (mt offset : Z) : Z := bebop__map_clear_match (Z.land mt (u64 (mt - 1))) offset.

Definition bebop_map_get (m : ptr) (key : K) : C MS (option V) :=
  if is_null m then mret None
  else
    m ← get_map;
    match mp_ctrl m with
    | None => mret None
    | Some ctrl =>
        if mp_length m =? 0 then mret None
        else
          r ← lift (map_find get_next m ctrl key);
          match r with
          | None => mret None
          | Some idx => '(_, value) ← lift (load_slot (mp_slots m) idx); mret value
          end
    end.

Definition bebop_map_remove (m : ptr) (key : K) : C MS bool :=
  if is_null m then mret false
  else
    m ← get_map;
    match mp_ctrl m with
    | None => mret false
    | Some ctrl =>
        if mp_length m =? 0 then mret false
        else
          r ← lift (map_find bebop__map_clear_match m ctrl key);
          match r with
          | None => mret false
          | Some idx =>
              ctrl ← lift (store ctrl idx CTRL_DELETED);
              put_map (mkMap (Some ctrl) (mp_slots m) (u64 (mp_length m - 1)) (mp_capacity m)
                             (mp_growth_left m) (mp_ctx m));;
              mret true
          end
    end.

(** The loop of [bebop_map_set]: the slot that holds the key, or the first slot seen
    that can take it, [SIZE_MAX] for none. *)
Fixpoint set_loop (max_probes : nat) (ctrl : list Z) (slots : list slot) (key : K)
    (h2 mask start probe insert_idx : Z) : option (Z + Z) :=
  match max_probes with
  | O => Some (inr insert_idx)
  | S max_probes =>
      let g := group_start start probe mask in
      word ← ctrl_word ctrl g;
      r ← match_loop 8 bebop__map_clear_match slots key g (bebop__map_match_h2 word h2);
      match r with
      | Some idx => Some (inl idx)
      | None =>
          insert_idx ←
            (if insert_idx =? SIZE_MAX then
               let empty_match := bebop__map_match_empty_or_deleted word in
               if empty_match =? 0 then Some insert_idx
               else offset ← bebop__map_match_first empty_match; Some (u64 (g + offset))
             else Some insert_idx);
          if bebop__map_match_empty word =? 0
          then set_loop max_probes ctrl slots key h2 mask start (probe + 1) insert_idx
          else Some (inr insert_idx)
      end
  end.

(** [bebop_map_set] after the check for room. *)
Definition set_in_table (m : Bebop_Map) (key : K) (value : option V) : option (bool * Bebop_Map) :=
  h ← key_hash key;
  ctrl ← mp_ctrl m;
  let h2 := H2 h in
  let mask := u64 (mp_capacity m - 1) in
  r ← set_loop (Z.to_nat (max_probes_of (mp_capacity m))) ctrl (mp_slots m) key
        h2 mask (Z.land (H1 h) mask) 0 SIZE_MAX;
  match r with
  | inl idx =>
      '(k, _) ← load_slot (mp_slots m) idx;
      slots ← store (mp_slots m) idx (Some (k, value));
      Some (true, mkMap (Some ctrl) slots (mp_length m) (mp_capacity m) (mp_growth_left m) (mp_ctx m))
  | inr insert_idx =>
      if insert_idx =? SIZE_MAX then Some (false, m)
      else
        c ← load ctrl insert_idx;
        let growth_left := if c =? CTRL_EMPTY then u64 (mp_growth_left m - 1) else mp_growth_left m in
        ctrl ← store ctrl insert_idx h2;
        slots ← store (mp_slots m) insert_idx (Some (key, value));
        Some (true, mkMap (Some ctrl) slots (u64 (mp_length m + 1)) (mp_capacity m) growth_left (mp_ctx m))
  end.

Definition set_in_table_m (key : K) (value : option V) : C MS bool :=
  m ← get_map;
  '(ok, m) ← lift (set_in_table m key value);
  put_map m;;
  mret ok.

(** The rehash loop of [bebop__map_grow], from slot [i] with [n] slots to go;
    [set] is [bebop_map_set]. *)
Fixpoint rehash (set : K → option V → C MS bool) (n : nat) (i : Z) (old_ctrl : option (list Z))
    (old_slots : list slot) : C MS bool :=
  match n with
  | O => mret true
  | S n =>
      full ← lift (match old_ctrl with
                   | None => Some false
                   | Some ctrl => c ← load ctrl i; Some (CTRL_IS_FULL c)
                   end);
      if (full : bool) then
        '(k, v) ← lift (load_slot old_slots i);
        ok ← set k v;
        if negb ok then mret false else rehash set n (i + 1) old_ctrl old_slots
      else rehash set n (i + 1) old_ctrl old_slots
  end.

Definition bebop__map_grow (set : K → option V → C MS bool) : C MS bool :=
  m ← get_map;
  let new_cap := if mp_capacity m =? 0 then BEBOP_MAP_INITIAL_CAPACITY else u64 (mp_capacity m * 2) in
  let ctrl_size := u64 (new_cap + BEBOP_MAP_GROUP_SIZE) in
  let slots_size := u64 (new_cap * sizeof_slot) in
  new_ctrl ← on_context (bebop_context_alloc (mp_ctx m) ctrl_size);
  match new_ctrl with
  | None => mret false
  | Some _ =>
      new_slots ← on_context (bebop_context_alloc (mp_ctx m) slots_size);
      match new_slots with
      | None => mret false
      | Some _ =>
          put_map (mkMap (Some (replicate (Z.to_nat ctrl_size) CTRL_EMPTY))
                         (replicate (Z.to_nat new_cap) None) 0 new_cap
                         (u64 (new_cap * BEBOP_MAP_LOAD_FACTOR) / 8) (mp_ctx m));;
          rehash set (Z.to_nat (mp_capacity m)) 0 (mp_ctrl m) (mp_slots m)
      end
  end.

(** [bebop_map_set] and [bebop__map_grow] call each other; [depth] bounds the nesting. *)
Fixpoint map_set (depth : nat) (key : K) (value : option V) : C MS bool :=
  match depth with
  | O => ub
  | S depth =>
      m ← get_map;
      ok ← (if mp_growth_left m =? 0 then bebop__map_grow (map_set depth) else mret true);
      if negb ok then mret false else set_in_table_m key value
  end.

Definition bebop_map_set (m : ptr) (key : K) (value : option V) : C MS bool :=
  if is_null m then mret false else map_set 2 key value.

(** [memset(m->ctrl, CTRL_EMPTY, m->capacity)] leaves the group behind the end. *)
Definition bebop_map_clear (m : ptr) : C MS unit :=
  if is_null m then mret tt
  else
    m ← get_map;
    match mp_ctrl m with
    | None => mret tt
    | Some ctrl =>
        put_map (mkMap (Some (replicate (Z.to_nat (mp_capacity m)) CTRL_EMPTY ++
                              drop (Z.to_nat (mp_capacity m)) ctrl))
                       (mp_slots m) 0 (mp_capacity m)
                       (u64 (mp_capacity m * BEBOP_MAP_LOAD_FACTOR) / 8) (mp_ctx m))
    end.

(** ** Iteration *)

(** [it->index]; the map is the one of the state. *)
Definition bebop_map_iter_init : Z := 0.

(** From index [index] with [n] slots to go: the pair of the next full slot and the new
    index. *)
Fixpoint iter_loop (n : nat) (ctrl : list Z) (slots : list slot) (index : Z)
  : option (option (K * option V) * Z) :=
  match n with
  | O => Some (None, index)
  | S n =>
      c ← load ctrl index;
      if CTRL_IS_FULL c then
        kv ← load_slot slots index; Some (Some kv, index + 1)
      else iter_loop n ctrl slots (index + 1)
  end.

Definition bebop_map_iter_next (it it_map : ptr) (index : Z) : C MS (option (K * option V) * Z) :=
  if is_null it || is_null it_map then mret (None, index)
  else
    m ← get_map;
    match mp_ctrl m with
    | None => mret (None, index)
    | Some ctrl => lift (iter_loop (Z.to_nat (mp_capacity m - index)) ctrl (mp_slots m) index)
    end.
End SwissMap.
Arguments Bebop_Map : clear implicits.
