(* ===== verification/SwissTable.v ===== *)
(** The table of the hash map ([SwissMap]): which slots the word-parallel comparisons of control
    bytes flag and in which order the loops visit them, the invariant of the table, and what the
    probe loops find and where they insert. *)
From S2P Require Import Prelude.
From S2P Require Import WireTypes.
From S2P Require Import Bits.
From S2P Require Import Arena.
From S2P Require Import Hash.
From S2P Require Import SwissMap.

(** ** Words of control bytes *)

(** The values a control byte takes. *)
Definition ctrl_ok (c : Z) : Prop := c = CTRL_EMPTY ∨ c = CTRL_DELETED ∨ 0 ≤ c < 128.

(** The word of eight control bytes on a little-endian host. *)
Definition word_of (l : list Z) : Z := le_value (map (to_unsigned 8) l).

(** A result of the comparisons: flags in the top bits of the bytes. *)
Definition match_word (m : Z) : Prop := 0 ≤ m < 2 ^ 64 ∧ Z.land m HIGHS = m.
Definition flagged (m : Z) : list Z := filter (λ j, Z.testbit m (8 * j + 7) = true) (seqZ 0 8).

Lemma elem_of_flagged m j : j ∈ flagged m ↔ Z.testbit m (8 * j + 7) = true ∧ 0 ≤ j < 8.
Proof. unfold flagged. rewrite list_elem_of_filter, elem_of_seqZ. split; intros [? ?]; (split; [done|lia]). Qed.

Lemma flagged_sorted m : StronglySorted Z.lt (flagged m).
Proof. apply StronglySorted_filter', StronglySorted_seqZ. Qed.

Lemma highs_bits : bits 64 HIGHS = [7; 15; 23; 31; 39; 47; 55; 63].
Proof. vm_compute. reflexivity. Qed.

Lemma highs_bit i : 0 ≤ i < 64 → Z.testbit HIGHS i = true → i mod 8 = 7.
Proof.
  intros Hi Hb. assert (He : i ∈ bits 64 HIGHS) by (by apply elem_of_bits). rewrite highs_bits in He.
  rewrite !elem_of_cons in He. repeat (destruct He as [->|He]; [reflexivity|]). by apply not_elem_of_nil in He.
Qed.

Lemma highs_top j : 0 ≤ j < 8 → Z.testbit HIGHS (8 * j + 7) = true.
Proof.
  intros Hj. assert (j = 0 ∨ j = 1 ∨ j = 2 ∨ j = 3 ∨ j = 4 ∨ j = 5 ∨ j = 6 ∨ j = 7) as Hc by lia.
  repeat (destruct Hc as [->|Hc]; [reflexivity|]). by subst.
Qed.

Lemma range_of_bits n y : 0 ≤ n → (∀ i, n ≤ i → Z.testbit y i = false) → 0 ≤ y < 2 ^ n.
Proof.
  intros Hn Hb. assert (E : y = y mod 2 ^ n).
  { apply Z.bits_inj'. intros i Hi. destruct (Z.ltb_spec i n).
    - by rewrite Z.mod_pow2_bits_low.
    - rewrite Z.mod_pow2_bits_high by lia. by apply Hb. }
  rewrite E. apply Z.mod_pos_bound. lia.
Qed.

Lemma match_word_land x : match_word (Z.land x HIGHS).
Proof.
  split.
  - apply range_of_bits; [lia|]. intros i Hi. rewrite Z.land_spec.
    replace (Z.testbit HIGHS i) with false; [apply andb_false_r|].
    symmetry. rewrite <- (Z.mod_small HIGHS (2 ^ 64)) by (split; [done|reflexivity]). by rewrite Z.mod_pow2_bits_high by lia.
  - by rewrite <- Z.land_assoc, Z.land_diag.
Qed.

Lemma match_word_bit m i : match_word m → 0 ≤ i < 64 → Z.testbit m i = true → i mod 8 = 7.
Proof.
  intros [_ E] Hi Hb. apply highs_bit; [done|]. rewrite <- E, Z.land_spec in Hb. by apply andb_true_iff in Hb as [_ ?].
Qed.

(** The set bits are the top bits of the flagged bytes. *)
Lemma match_word_bits m : match_word m → bits 64 m = map (λ j, 8 * j + 7) (flagged m).
Proof.
  intros Hm. apply (StronglySorted_unique_strong Z.lt).
  - intros x y _ _. lia.
  - apply bits_sorted.
  - generalize (flagged_sorted m). induction 1 as [|j js Hs IH Hf]; cbn; constructor; [done|].
    apply Forall_map. eapply Forall_impl; [exact Hf|]. cbn. lia.
  - apply NoDup_Permutation.
    + eapply NoDup_filter, NoDup_seqZ.
    + apply NoDup_fmap_2; [intros x y ?; lia|]. apply NoDup_filter, NoDup_seqZ.
    + intros i. rewrite elem_of_bits, list_elem_of_fmap. split.
      * intros [Hb Hi]. exists (i / 8). pose proof (match_word_bit m i Hm Hi Hb). split; [dlia|].
        apply elem_of_flagged. replace (8 * (i / 8) + 7) with i by dlia. split; [done|dlia].
      * intros (j&->&[Hb Hj]%elem_of_flagged). split; [done|lia].
Qed.

Lemma flagged_nil m : match_word m → flagged m = [] → m = 0.
Proof.
  intros Hm Hf. apply (bits_nil_inv 64); [lia|apply Hm|]. by rewrite match_word_bits, Hf.
Qed.

Lemma flagged_cons m j js : match_word m → flagged m = j :: js → m ≠ 0 ∧ bebop__map_match_first m = Some j.
Proof.
  intros Hm Hf. assert (Hj : j ∈ flagged m) by (rewrite Hf; left). apply elem_of_flagged in Hj as [Hb Hj].
  assert (Hne : m ≠ 0) by (intros ->; by rewrite Z.bits_0 in Hb). split; [done|].
  unfold bebop__map_match_first, ctz64. rewrite match_word_bits, Hf by done.
  destruct (Z.eqb_spec m 0); [done|]. cbn. f_equal. dlia.
Qed.

(** How a loop over the matches may advance. *)
Definition next_ok (next : Z → Z → Z) : Prop :=
  ∀ m j js, match_word m → flagged m = j :: js → match_word (next m j) ∧ flagged (next m j) = js.

Lemma sorted_tail_filter j js : StronglySorted Z.lt (j :: js) → filter (λ i, j < i) (j :: js) = js.
Proof.
  intros Hs. apply StronglySorted_inv in Hs as [_ Hf]. cbn. rewrite decide_False by lia.
  apply filter_all. intros x Hx. rewrite Forall_forall in Hf. by apply Hf.
Qed.

Lemma flagged_ext m m' (P : Z → Prop) `{∀ j, Decision (P j)} :
  (∀ j, 0 ≤ j < 8 → Z.testbit m' (8 * j + 7) = Z.testbit m (8 * j + 7) && bool_decide (P j)) →
  flagged m' = filter P (flagged m).
Proof.
  intros Hb. unfold flagged. rewrite list_filter_filter. apply filter_ext_in. intros j Hj%elem_of_seqZ.
  rewrite Hb, andb_true_iff, bool_decide_eq_true by lia. tauto.
Qed.

Lemma not64_bits x i : 0 ≤ i < 64 → Z.testbit (not64 x) i = negb (Z.testbit x i).
Proof. intros Hi. unfold not64, u64. rewrite Z.mod_pow2_bits_low by lia. apply Z.lnot_spec. lia. Qed.

Lemma low_mask_bit n i : 0 ≤ n → 0 ≤ i → Z.testbit (Z.shiftl 1 n - 1) i = (i <? n).
Proof.
  intros Hn Hi. rewrite Z.shiftl_1_l, Z.sub_1_r, <- Z.ones_equiv. destruct (Z.ltb_spec i n).
  - apply Z.ones_spec_low. lia.
  - apply Z.ones_spec_high. lia.
Qed.

Lemma clear_match_ok : next_ok bebop__map_clear_match.
Proof.
  intros m j js Hm Hf. assert (Hj : j ∈ flagged m) by (rewrite Hf; left). apply elem_of_flagged in Hj as [Hb Hj].
  pose proof (sorted_tail_filter j js) as Ht. rewrite <- Hf in Ht. specialize (Ht (flagged_sorted m)).
  unfold bebop__map_clear_match. destruct (Z.ltb_spec ((j + 1) * 8) 64) as [Hlt|Hge].
  - split.
    + destruct Hm as [_ E]. rewrite <- E. rewrite <- Z.land_assoc, (Z.land_comm HIGHS), Z.land_assoc. apply match_word_land.
    + rewrite <- Ht. apply flagged_ext. intros i Hi. rewrite Z.land_spec, not64_bits by lia. f_equal.
      rewrite low_mask_bit by lia. destruct (Z.ltb_spec (8 * i + 7) ((j + 1) * 8)), (bool_decide_reflect (j < i)); cbn; lia.
  - split; [done|]. rewrite <- Ht. apply flagged_ext. intros i Hi. rewrite Z.bits_0.
    rewrite bool_decide_eq_false_2 by lia. by rewrite andb_false_r.
Qed.

Lemma clear_match_lowest m j js :
  match_word m → flagged m = j :: js → get_next m j = bebop__map_clear_match m j.
Proof.
  intros Hm Hf. assert (Hj : j ∈ flagged m) by (rewrite Hf; left). apply elem_of_flagged in Hj as [Hb Hj].
  unfold get_next, bebop__map_clear_match. destruct (Z.ltb_spec ((j + 1) * 8) 64) as [Hlt|Hge]; [|done].
  destruct Hm as [Hr _]. assert (m ≠ 0) by (intros ->; by rewrite Z.bits_0 in Hb).
  rewrite u64_small by lia. apply Z.bits_inj'. intros i Hi. rewrite !Z.land_spec.
  destruct (Z.ltb_spec i 64) as [H64|H64].
  2: { rewrite <- (Z.mod_small m (2 ^ 64)) by done. by rewrite !Z.mod_pow2_bits_high by lia. }
  rewrite not64_bits, low_mask_bit by lia. destruct (Z.ltb_spec i ((j + 1) * 8)) as [|Hge]; cbn; [by rewrite !andb_false_r|].
  rewrite !andb_true_r. destruct (Z.testbit m i) eqn:Ei; [|done]. cbn.
  set (s := (j + 1) * 8) in *. assert (Hmod : m mod 2 ^ s ≠ 0).
  { intros E. assert (Z.testbit (m mod 2 ^ s) (8 * j + 7) = false) as Hc by (by rewrite E, Z.bits_0).
    rewrite Z.mod_pow2_bits_low in Hc by lia. congruence. }
  assert (Hp : 0 < 2 ^ s) by lia.
  assert (Hd : (m - 1) / 2 ^ s = m / 2 ^ s).
  { symmetry. apply (Z.div_unique_pos _ _ _ (m mod 2 ^ s - 1)).
    - pose proof (Z.mod_pos_bound m (2 ^ s) Hp). lia.
    - pose proof (Z.div_mod m (2 ^ s)). lia. }
  rewrite <- (Z.sub_add s i), <- (Z.div_pow2_bits (m - 1)), Hd, Z.div_pow2_bits by lia. by rewrite Z.sub_add.
Qed.

Lemma get_next_ok : next_ok get_next.
Proof. intros m j js Hm Hf. rewrite (clear_match_lowest m j js) by done. by apply clear_match_ok. Qed.

(** ** Bytes of a word *)

Lemma le_value_testbit l j i :
  bytes_ok l → 0 ≤ j → 0 ≤ i < 8 →
  Z.testbit (le_value l) (8 * j + i) = Z.testbit (default 0 (l !! Z.to_nat j)) i.
Proof.
  intros Hl. revert j. induction Hl as [|b l Hb Hl IH]; intros j Hj Hi.
  - cbn [le_value]. rewrite lookup_nil. cbn. by rewrite !Z.bits_0.
  - cbn [le_value]. destruct (Z.eq_dec j 0) as [->|Hne].
    + replace (8 * 0 + i) with i by lia. change (Z.to_nat 0) with 0%nat. cbn [lookup list_lookup default from_option id].
      rewrite <- (Z.mod_pow2_bits_low (b + 256 * le_value l) 8) by lia. f_equal.
      symmetry. apply (Z.mod_unique_pos _ _ (le_value l)); unfold byte_ok in Hb; lia.
    + replace (8 * j + i) with (8 * (j - 1) + i + 8) by lia. rewrite <- Z.div_pow2_bits by lia.
      replace ((b + 256 * le_value l) / 2 ^ 8) with (le_value l) by (apply (Z.div_unique_pos _ _ _ b); unfold byte_ok in Hb; lia).
      rewrite IH by lia. replace (Z.to_nat j) with (S (Z.to_nat (j - 1))) by lia. done.
Qed.

Lemma ctrl_bytes_ok l : bytes_ok (map (to_unsigned 8) l).
Proof. apply Forall_map, Forall_true. intros c. unfold byte_ok. cbn. apply (to_unsigned_range 8). lia. Qed.

Lemma word_of_testbit l j i c : 0 ≤ j → 0 ≤ i < 8 → l !! Z.to_nat j = Some c →
  Z.testbit (word_of l) (8 * j + i) = Z.testbit (to_unsigned 8 c) i.
Proof.
  intros Hj Hi Hc. unfold word_of. rewrite le_value_testbit by (done || apply ctrl_bytes_ok).
  change (map (to_unsigned 8) l) with (to_unsigned 8 <$> l). by rewrite list_lookup_fmap, Hc.
Qed.

Lemma word_of_range l : length l = 8%nat → 0 ≤ word_of l < 2 ^ 64.
Proof.
  intros Hl. pose proof (le_value_bound _ (ctrl_bytes_ok l)) as Hb. rewrite zlen_map in Hb.
  unfold zlen in Hb. rewrite Hl in Hb. exact Hb.
Qed.

(** Facts on single control bytes, by cases. *)
Lemma ctrl_top c : ctrl_ok c → Z.testbit (to_unsigned 8 c) 7 = (c <? 0).
Proof.
  intros [->|[->|Hc]]; [done..|]. unfold to_unsigned. rewrite Z.mod_small by lia.
  destruct (Z.ltb_spec c 0); [lia|]. rewrite <- (Z.mod_small c (2 ^ 7)) by lia. by apply Z.mod_pow2_bits_high.
Qed.

Lemma ctrl_empty_bits c : ctrl_ok c →
  Z.testbit (to_unsigned 8 c) 7 && negb (Z.testbit (to_unsigned 8 c) 6) = (c =? CTRL_EMPTY).
Proof.
  intros Hc. rewrite ctrl_top by done. destruct Hc as [->|[->|Hc]]; [done..|].
  destruct (Z.ltb_spec c 0), (Z.eqb_spec c CTRL_EMPTY); unfold CTRL_EMPTY in *; try lia; done.
Qed.

Lemma broadcast_word h2 : 0 ≤ h2 < 128 → u64 (ONES * to_unsigned 8 h2) = word_of (replicate 8 h2).
Proof.
  intros Hh. unfold word_of. cbn [replicate map le_value]. unfold to_unsigned. rewrite Z.mod_small by lia.
  unfold ONES. rewrite u64_small by lia. lia.
Qed.

Lemma broadcast_testbit h2 j i : 0 ≤ h2 < 128 → 0 ≤ j < 8 → 0 ≤ i < 8 →
  Z.testbit (u64 (ONES * to_unsigned 8 h2)) (8 * j + i) = Z.testbit (to_unsigned 8 h2) i.
Proof.
  intros Hh Hj Hi. rewrite broadcast_word by done. apply word_of_testbit; [lia..|]. apply lookup_replicate. lia.
Qed.

(** A zero byte borrows from its top bit, whatever is below it. *)
Lemma borrow_bit j a b : 0 ≤ j < 8 → 0 ≤ a < 2 ^ (8 * j) →
  Z.testbit (a + 2 ^ (8 * j + 8) * b - ONES) (8 * j + 7) = true.
Proof.
  intros Hj Ha. assert (j = 0 ∨ j = 1 ∨ j = 2 ∨ j = 3 ∨ j = 4 ∨ j = 5 ∨ j = 6 ∨ j = 7) as Hc by lia. unfold ONES.
  repeat (destruct Hc as [->|Hc]; [rewrite Z.testbit_eqb by lia; apply Z.eqb_eq; cbn [Z.mul Z.add Z.pow] in *; dlia|]).
  subst. rewrite Z.testbit_eqb by lia. apply Z.eqb_eq. dlia.
Qed.

Section Group.
Context (l : list Z) (Hlen : length l = 8%nat) (Hok : Forall ctrl_ok l).

Lemma group_lookup j : 0 ≤ j < 8 → ∃ c, l !! Z.to_nat j = Some c ∧ ctrl_ok c.
Proof.
  intros Hj. destruct (lookup_lt_is_Some_2 l (Z.to_nat j)) as [c Hc]; [lia|]. exists c. split; [done|].
  by eapply Forall_lookup_1.
Qed.

Lemma flagged_empty_or_deleted j : 0 ≤ j < 8 →
  j ∈ flagged (bebop__map_match_empty_or_deleted (word_of l)) ↔ ∃ c, l !! Z.to_nat j = Some c ∧ c < 0.
Proof.
  intros Hj. destruct (group_lookup j Hj) as (c&Hc&Hk). unfold bebop__map_match_empty_or_deleted.
  rewrite elem_of_flagged, Z.land_spec, highs_top, andb_true_r, (word_of_testbit l j 7 c) by (done || lia).
  rewrite ctrl_top, Hc by done. split.
  - intros [Hlt _]. exists c. split; [done|lia].
  - intros (c'&[= <-]&?). split; [lia|done].
Qed.

Lemma flagged_empty j : 0 ≤ j < 8 →
  j ∈ flagged (bebop__map_match_empty (word_of l)) ↔ l !! Z.to_nat j = Some CTRL_EMPTY.
Proof.
  intros Hj. destruct (group_lookup j Hj) as (c&Hc&Hk). unfold bebop__map_match_empty.
  rewrite elem_of_flagged, !Z.land_spec, highs_top, andb_true_r, not64_bits by lia.
  unfold u64. rewrite Z.mod_pow2_bits_low, Z.shiftl_spec by lia.
  replace (8 * j + 7 - 1) with (8 * j + 6) by lia. rewrite (word_of_testbit l j 7 c), (word_of_testbit l j 6 c) by (done || lia).
  rewrite ctrl_empty_bits, Hc by done. split.
  - intros [E%Z.eqb_eq _]. by subst.
  - intros [= ->]. done.
Qed.

Lemma match_empty_zero : bebop__map_match_empty (word_of l) = 0 ↔ CTRL_EMPTY ∉ l.
Proof.
  split.
  - intros E [n Hn]%list_elem_of_lookup. pose proof (lookup_lt_Some _ _ _ Hn) as Hl.
    assert (Hf : Z.of_nat n ∈ flagged (bebop__map_match_empty (word_of l))).
    { apply flagged_empty; [lia|]. by rewrite Nat2Z.id. }
    rewrite E in Hf. apply elem_of_flagged in Hf as [Hf _]. by rewrite Z.bits_0 in Hf.
  - intros Hn. apply flagged_nil; [apply match_word_land|].
    destruct (flagged _) as [|j js] eqn:E; [done|]. exfalso. apply Hn.
    assert (Hj : j ∈ flagged (bebop__map_match_empty (word_of l))) by (rewrite E; left).
    assert (Hr : 0 ≤ j < 8) by (apply elem_of_flagged in Hj; apply Hj). apply flagged_empty in Hj; [|done].
    by apply (list_elem_of_lookup_2 l (Z.to_nat j)).
Qed.

(** A flag of [bebop__map_match_h2] points to a full slot, though, because of the borrow,
    not always to one with these seven bits. *)
Lemma flagged_h2_full h2 j : 0 ≤ h2 < 128 → 0 ≤ j < 8 →
  j ∈ flagged (bebop__map_match_h2 (word_of l) h2) → ∃ c, l !! Z.to_nat j = Some c ∧ 0 ≤ c < 128.
Proof.
  intros Hh Hj. destruct (group_lookup j Hj) as (c&Hc&Hk). unfold bebop__map_match_h2. cbv zeta.
  rewrite elem_of_flagged, !Z.land_spec, highs_top, andb_true_r, not64_bits, Z.lxor_spec by lia.
  rewrite (word_of_testbit l j 7 c) by (done || lia).
  rewrite ctrl_top by done. intros [[_ Hd]%andb_true_iff _]. exists c. split; [done|].
  rewrite (broadcast_testbit h2 j 7), (ctrl_top h2) in Hd by (lia || done || (right; right; lia)).
  destruct (Z.ltb_spec h2 0); [lia|]. destruct (Z.ltb_spec c 0); [done|]. unfold ctrl_ok, CTRL_EMPTY, CTRL_DELETED in Hk. lia.
Qed.

Lemma flagged_h2_hit h2 j : 0 ≤ h2 < 128 → 0 ≤ j < 8 →
  l !! Z.to_nat j = Some h2 → j ∈ flagged (bebop__map_match_h2 (word_of l) h2).
Proof.
  intros Hh Hj Hc. unfold bebop__map_match_h2. cbv zeta. set (diff := Z.lxor _ _).
  assert (Hz : ∀ i, 0 ≤ i < 8 → Z.testbit diff (8 * j + i) = false).
  { intros i Hi. subst diff. rewrite Z.lxor_spec, broadcast_testbit, (word_of_testbit l j i h2) by (done || lia).
    apply xorb_nilpotent. }
  rewrite elem_of_flagged, !Z.land_spec, highs_top, andb_true_r, not64_bits, Hz, andb_true_r by lia. split; [|done].
  unfold u64. rewrite Z.mod_pow2_bits_low by lia.
  assert (E : diff = diff mod 2 ^ (8 * j) + 2 ^ (8 * j + 8) * (diff / 2 ^ (8 * j + 8))).
  { rewrite (Z.div_mod diff (2 ^ (8 * j + 8))) at 1 by lia. rewrite Z.add_comm. f_equal.
    apply Z.bits_inj'. intros i Hi. destruct (Z.ltb_spec i (8 * j)).
    - by rewrite !Z.mod_pow2_bits_low by lia.
    - rewrite (Z.mod_pow2_bits_high diff (8 * j)) by lia. destruct (Z.ltb_spec i (8 * j + 8)).
      + rewrite Z.mod_pow2_bits_low by lia. replace i with (8 * j + (i - 8 * j)) by lia. apply Hz. lia.
      + by rewrite Z.mod_pow2_bits_high by lia. }
  rewrite E. apply borrow_bit; [done|]. apply Z.mod_pos_bound. lia.
Qed.
End Group.

(** ** Groups *)

(** The slots of the group that probe number [p] reads. *)
Definition probe_group (cap start p : Z) : Z := group_start start p (cap - 1).

Definition cap_ok (cap : Z) : Prop := ∃ k, cap = 2 ^ k ∧ 3 ≤ k ≤ 57.

Lemma cap_range cap : cap_ok cap → 8 ≤ cap ≤ 2 ^ 57 ∧ cap mod 8 = 0.
Proof.
  intros (k&->&Hk). split.
  - split; [apply (Z.pow_le_mono_r 2 3)|apply Z.pow_le_mono_r]; lia.
  - replace k with (k - 3 + 3) by lia. rewrite Z.pow_add_r by lia. apply Z.mod_mul. lia.
Qed.

Lemma probe_group_range cap start p :
  cap_ok cap → 0 ≤ probe_group cap start p ∧ probe_group cap start p + 8 ≤ cap ∧ probe_group cap start p mod 8 = 0.
Proof.
  intros Hc. destruct (cap_range cap Hc) as [Hr Hm]. destruct Hc as (k&Ek&Hk). unfold probe_group, group_start.
  set (x := u64 _). assert (Ey : Z.land x (cap - 1) = x mod 2 ^ k).
  { rewrite Ek, Z.sub_1_r, <- Z.ones_equiv. apply Z.land_ones. lia. }
  rewrite Ey. set (y := x mod 2 ^ k). assert (Hy : 0 ≤ y < cap) by (rewrite Ek; apply Z.mod_pos_bound; lia).
  assert (Eg : Z.land y (not64 (BEBOP_MAP_GROUP_SIZE - 1)) = 8 * (y / 8)).
  { transitivity (Z.ldiff y (Z.ones 3)).
    - apply Z.bits_inj'. intros i Hi. rewrite Z.land_spec, Z.ldiff_spec. destruct (Z.ltb_spec i 64).
      + by rewrite not64_bits by lia.
      + rewrite <- (Z.mod_small y (2 ^ 64)) by lia. by rewrite Z.mod_pow2_bits_high by lia.
    - rewrite Z.ldiff_ones_r, Z.shiftl_mul_pow2, Z.shiftr_div_pow2 by lia. change (2 ^ 3) with 8. lia. }
  rewrite Eg. dlia.
Qed.

Definition group (ctrl : list Z) (g : Z) : list Z := take 8 (drop (Z.to_nat g) ctrl).

Section Table.
Context `{Platform} {K V : Type} `{MapKeyOk K}.
Context (host_le : HOST_LE = true).
Abbreviation slot := (option (K * option V)).

Lemma group_spec ctrl g : 0 ≤ g → g + 8 ≤ zlen ctrl → Forall ctrl_ok ctrl →
  length (group ctrl g) = 8%nat ∧ Forall ctrl_ok (group ctrl g) ∧
  (∀ j, 0 ≤ j < 8 → group ctrl g !! Z.to_nat j = ctrl !! Z.to_nat (g + j)) ∧
  ctrl_word ctrl g = Some (word_of (group ctrl g)).
Proof.
  intros Hg Hl Hf. unfold zlen in Hl. unfold group. split; [|split; [|split]].
  - rewrite length_take, length_drop. lia.
  - by apply Forall_take, Forall_drop.
  - intros j Hj. rewrite lookup_take_lt, lookup_drop by lia. f_equal. lia.
  - unfold ctrl_word. rewrite load_bytes_in by (unfold zlen; lia). cbn [mbind option_bind].
    unfold host_value, word_of. by rewrite host_le.
Qed.

(** No slot of the group at [g] is empty. *)
Definition no_empty (ctrl : list Z) (g : Z) : Prop :=
  ∀ i, g ≤ i < g + 8 → ctrl !! Z.to_nat i ≠ Some CTRL_EMPTY.

Lemma match_empty_no_empty ctrl g : 0 ≤ g → g + 8 ≤ zlen ctrl → Forall ctrl_ok ctrl →
  bebop__map_match_empty (word_of (group ctrl g)) = 0 ↔ no_empty ctrl g.
Proof.
  intros Hg Hl Hf. destruct (group_spec ctrl g Hg Hl Hf) as (Hlen&Hok&Hlk&_).
  rewrite match_empty_zero by done. split.
  - intros Hn i Hi E. apply Hn. apply (list_elem_of_lookup_2 _ (Z.to_nat (i - g))). rewrite Hlk by lia.
    by replace (g + (i - g)) with i by lia.
  - intros Hn [n E]%list_elem_of_lookup_1. pose proof (lookup_lt_Some _ _ _ E).
    apply (Hn (g + Z.of_nat n)); [lia|]. rewrite <- Hlk by lia. by rewrite Nat2Z.id.
Qed.

(** ** The invariant of the table *)

(** Slot [i] holds the pair. *)
Definition entry (ctrl : list Z) (slots : list slot) (cap i : Z) (k : K) (v : option V) : Prop :=
  0 ≤ i < cap ∧ (∃ c, ctrl !! Z.to_nat i = Some c ∧ 0 ≤ c) ∧ slots !! Z.to_nat i = Some (Some (k, v)).

(** Slot [i] is in a group a probe for the hash reaches: no earlier group has an empty slot. *)
Definition reachable (ctrl : list Z) (cap h i : Z) : Prop :=
  let start := Z.land (H1 h) (cap - 1) in
  ∃ p, 0 ≤ p < max_probes_of cap ∧ probe_group cap start p ≤ i < probe_group cap start p + 8 ∧
    ∀ q, 0 ≤ q < p → no_empty ctrl (probe_group cap start q).

Record table_ok (ctrl : list Z) (slots : list slot) (cap : Z) : Prop := {
  tb_cap : cap_ok cap;
  tb_ctrl : zlen ctrl = cap + BEBOP_MAP_GROUP_SIZE;
  tb_slots : zlen slots = cap;
  tb_bytes : Forall ctrl_ok ctrl;
  tb_full : ∀ i c, 0 ≤ i < cap → ctrl !! Z.to_nat i = Some c → 0 ≤ c →
    ∃ k v h, slots !! Z.to_nat i = Some (Some (k, v)) ∧ key_ok k ∧ key_hash k = Some h ∧
      c = H2 h ∧ reachable ctrl cap h i;
  tb_unique : ∀ i j k v w, entry ctrl slots cap i k v → entry ctrl slots cap j k w → i = j
}.

Lemma H2_range h : 0 ≤ H2 h < 128.
Proof. unfold H2. change 0x7F with (Z.ones 7). rewrite Z.land_ones by lia. by apply Z.mod_pos_bound. Qed.

Lemma load_slot_lookup (slots : list slot) i kv : 0 ≤ i → load_slot slots i = Some kv ↔ slots !! Z.to_nat i = Some (Some kv).
Proof.
  intros Hi. unfold load_slot. destruct (Z.ltb_spec i 0); [lia|].
  destruct (slots !! Z.to_nat i) as [[kv'|]|]; cbn; split; congruence.
Qed.

(** ** The loop over a group *)

Lemma match_loop_spec next (slots : list slot) key g fuel mt js :
  next_ok next → key_ok key → 0 ≤ g → g + 8 < 2 ^ 64 → match_word mt → flagged mt = js → (length js ≤ fuel)%nat →
  (∀ j, j ∈ js → ∃ k v, slots !! Z.to_nat (g + j) = Some (Some (k, v)) ∧ key_ok k) →
  ∃ r, match_loop fuel next slots key g mt = Some r ∧
    match r with
    | Some idx => ∃ j v, j ∈ js ∧ idx = g + j ∧ slots !! Z.to_nat idx = Some (Some (key, v))
    | None => ∀ j v, j ∈ js → slots !! Z.to_nat (g + j) ≠ Some (Some (key, v))
    end.
Proof.
  intros Hn Hk Hg Hg2. revert fuel mt. induction js as [|j js IH]; intros fuel mt Hm Hf Hl Hs.
  - exists None. rewrite (flagged_nil mt) by done. split; [by destruct fuel|]. intros j v Hj. by apply not_elem_of_nil in Hj.
  - destruct fuel as [|fuel]; [cbn in Hl; lia|]. destruct (flagged_cons mt j js Hm Hf) as [Hne Hfst].
    assert (Hj : 0 ≤ j < 8) by (apply (elem_of_flagged mt); rewrite Hf; left).
    destruct (Hn mt j js Hm Hf) as [Hm' Hf']. destruct (Hs j ltac:(left)) as (k&v&Ek&Hkk).
    cbn [match_loop]. destruct (Z.eqb_spec mt 0); [done|]. rewrite Hfst. cbn [mbind option_bind].
    rewrite u64_small by lia. rewrite (proj2 (load_slot_lookup slots (g + j) (k, v) ltac:(lia)) Ek). cbn [mbind option_bind].
    destruct (key_equal k key) eqn:E.
    + apply key_equal_ok in E; [|done..]. subst k. exists (Some (g + j)). split; [done|]. exists j, v. split; [left|done].
    + assert (Hne' : k ≠ key) by (intros ->; rewrite (proj2 (key_equal_ok key key Hk Hk) eq_refl) in E; done).
      destruct (IH fuel (next mt j)) as (r&Er&Hr); [done|done|cbn in Hl; lia|intros i Hi; apply Hs; by right|].
      exists r. split; [done|]. destruct r as [idx|].
      * destruct Hr as (i&w&Hi&?&?). exists i, w. split; [by right|done].
      * intros i w [->|Hi]%elem_of_cons; [|by apply Hr]. rewrite Ek. congruence.
Qed.

Lemma flagged_length m : (length (flagged m) ≤ 8)%nat.
Proof. unfold flagged. etransitivity; [apply length_filter|]. by rewrite length_seqZ. Qed.

(** The search in one group of a good table. *)
Lemma group_search next ctrl slots cap key h g :
  next_ok next → table_ok ctrl slots cap → key_ok key → key_hash key = Some h →
  0 ≤ g → g + 8 ≤ cap →
  ∃ r, match_loop 8 next slots key g (bebop__map_match_h2 (word_of (group ctrl g)) (H2 h)) = Some r ∧
    match r with
    | Some idx => ∃ v, entry ctrl slots cap idx key v
    | None => ∀ i v, g ≤ i < g + 8 → ¬ entry ctrl slots cap i key v
    end.
Proof.
  intros Hn Ht Hk Hh Hg Hg2. destruct (cap_range cap (tb_cap _ _ _ Ht)) as [Hc _].
  pose proof (tb_ctrl _ _ _ Ht) as Hz. unfold BEBOP_MAP_GROUP_SIZE in Hz.
  destruct (group_spec ctrl g Hg ltac:(lia) (tb_bytes _ _ _ Ht)) as (Hlen&Hok&Hlk&_). pose proof (H2_range h) as Hh2.
  set (mt := bebop__map_match_h2 _ _).
  assert (Hfull : ∀ j, j ∈ flagged mt → 0 ≤ j < 8 ∧ ∃ c, ctrl !! Z.to_nat (g + j) = Some c ∧ 0 ≤ c).
  { intros j Hj. assert (Hr : 0 ≤ j < 8) by (apply elem_of_flagged in Hj; apply Hj).
    apply flagged_h2_full in Hj as (c&Ec&Hc0); [|done..]. rewrite Hlk in Ec by done. split; [done|]. exists c. split; [done|lia]. }
  destruct (match_loop_spec next slots key g 8 mt (flagged mt)) as (r&Er&Hr);
    [done|done|lia|lia|apply match_word_land|done|apply flagged_length| |].
  - intros j Hj. destruct (Hfull j Hj) as (Hr&c&Ec&Hc0).
    destruct (tb_full _ _ _ Ht (g + j) c ltac:(lia) Ec Hc0) as (k&v&h'&Es&Hkk&_). by exists k, v.
  - exists r. split; [done|]. destruct r as [idx|].
    + destruct Hr as (j&v&Hj&->&Es). destruct (Hfull j Hj) as (Hr&Hc'). exists v. split; [lia|done].
    + intros i v Hi (Hi2&(c&Ec&Hc0)&Es). destruct (tb_full _ _ _ Ht i c Hi2 Ec Hc0) as (k'&v'&h'&Es'&_&Hh'&Ecc&_).
      rewrite Es in Es'. simplify_eq. assert (Ei : i = g + (i - g)) by lia. rewrite Ei in Es.
      revert Es. apply Hr. apply flagged_h2_hit; [first [done|lia].. |]. rewrite Hlk, <- Ei by lia. congruence.
Qed.

(** No entry with the key is in the groups of the first [p] probes. *)
Definition not_before (ctrl : list Z) (slots : list slot) (cap start p : Z) (key : K) : Prop :=
  ∀ q i v, 0 ≤ q < p → probe_group cap start q ≤ i < probe_group cap start q + 8 → ¬ entry ctrl slots cap i key v.

(** Once a group with an empty slot, or the last probe, is reached, the key is nowhere. *)
Lemma absent_of_probes ctrl slots cap key h p :
  table_ok ctrl slots cap → key_hash key = Some h →
  not_before ctrl slots cap (Z.land (H1 h) (cap - 1)) p key →
  (p = max_probes_of cap ∨ 1 ≤ p ∧ ¬ no_empty ctrl (probe_group cap (Z.land (H1 h) (cap - 1)) (p - 1))) →
  ∀ i v, ¬ entry ctrl slots cap i key v.
Proof.
  intros Ht Hh Hb Hp i v He. pose proof He as (Hi&(c&Ec&Hc0)&Es).
  destruct (tb_full _ _ _ Ht i c Hi Ec Hc0) as (k&w&h'&Es'&_&Hh'&_&(q&Hq&Hg&Hne)).
  rewrite Es in Es'. simplify_eq. destruct (Z.ltb_spec q p) as [Hlt|Hge]; [eapply (Hb q i); [lia|done|exact He]|].
  destruct Hp as [->|[Hp He']]; [lia|]. apply He', Hne. lia.
Qed.

Lemma find_loop_spec next ctrl slots cap key h n p :
  next_ok next → table_ok ctrl slots cap → key_ok key → key_hash key = Some h →
  0 ≤ p → p + Z.of_nat n = max_probes_of cap →
  not_before ctrl slots cap (Z.land (H1 h) (cap - 1)) p key →
  ∃ r, find_loop n next ctrl slots key (H2 h) (cap - 1) (Z.land (H1 h) (cap - 1)) p = Some r ∧
    match r with
    | Some idx => ∃ v, entry ctrl slots cap idx key v
    | None => ∀ i v, ¬ entry ctrl slots cap i key v
    end.
Proof.
  intros Hn Ht Hk Hh. revert p. set (start := Z.land (H1 h) (cap - 1)).
  pose proof (tb_ctrl _ _ _ Ht) as Hz. unfold BEBOP_MAP_GROUP_SIZE in Hz.
  induction n as [|n IH]; intros p Hp Hpn Hb; cbn [find_loop].
  - exists None. split; [done|]. eapply (absent_of_probes _ _ _ _ _ p); [done..|]. left. lia.
  - fold (probe_group cap start p). destruct (probe_group_range cap start p (tb_cap _ _ _ Ht)) as (Hg&Hg2&_).
    set (g := probe_group cap start p) in *.
    destruct (group_spec ctrl g Hg ltac:(lia) (tb_bytes _ _ _ Ht)) as (_&_&_&->). cbn [mbind option_bind].
    destruct (group_search next ctrl slots cap key h g) as (r&->&Hr); [done..|]. cbn [mbind option_bind].
    destruct r as [idx|]; [by exists (Some idx)|].
    assert (Hb' : not_before ctrl slots cap start (p + 1) key).
    { intros q i v Hq Hi. destruct (Z.eq_dec q p) as [->|]; [by apply Hr|]. apply (Hb q); [lia|done]. }
    pose proof (match_empty_no_empty ctrl g Hg ltac:(lia) (tb_bytes _ _ _ Ht)) as Hem.
    destruct (Z.eqb_spec (bebop__map_match_empty (word_of (group ctrl g))) 0) as [E|E].
    + apply IH; [lia|lia|done].
    + exists None. split; [done|]. eapply (absent_of_probes _ _ _ _ _ (p + 1)); [done..|]. right. split; [lia|].
      replace (p + 1 - 1) with p by lia. fold start g. by rewrite <- Hem.
Qed.

(** ** Where a new key goes *)

Definition insert_ok (ctrl : list Z) (cap h ins : Z) : Prop :=
  ins = SIZE_MAX ∨ 0 ≤ ins < cap ∧ (∃ c, ctrl !! Z.to_nat ins = Some c ∧ c < 0) ∧ reachable ctrl cap h ins.

(** The step that remembers the first slot that can take the key. *)
Lemma insert_choice ctrl slots cap h p ins :
  table_ok ctrl slots cap → 0 ≤ p < max_probes_of cap →
  (∀ q, 0 ≤ q < p → no_empty ctrl (probe_group cap (Z.land (H1 h) (cap - 1)) q)) → insert_ok ctrl cap h ins →
  let g := probe_group cap (Z.land (H1 h) (cap - 1)) p in
  let word := word_of (group ctrl g) in
  ∃ ins', (if ins =? SIZE_MAX then
             if bebop__map_match_empty_or_deleted word =? 0 then Some ins
             else offset ← bebop__map_match_first (bebop__map_match_empty_or_deleted word); Some (u64 (g + offset))
           else Some ins) = Some ins' ∧ insert_ok ctrl cap h ins'.
Proof.
  intros Ht Hp Hne Hi g word. destruct (Z.eqb_spec ins SIZE_MAX) as [->|Hi']; [|by exists ins].
  destruct (cap_range cap (tb_cap _ _ _ Ht)) as [Hc _]. pose proof (tb_ctrl _ _ _ Ht) as Hz. unfold BEBOP_MAP_GROUP_SIZE in Hz.
  destruct (probe_group_range cap (Z.land (H1 h) (cap - 1)) p (tb_cap _ _ _ Ht)) as (Hg&Hg2&_). fold g in Hg, Hg2.
  destruct (group_spec ctrl g Hg ltac:(lia) (tb_bytes _ _ _ Ht)) as (Hlen&Hok&Hlk&_).
  destruct (Z.eqb_spec (bebop__map_match_empty_or_deleted word) 0) as [E|E]; [exists SIZE_MAX; by split|].
  assert (Hm : match_word (bebop__map_match_empty_or_deleted word)) by apply match_word_land.
  destruct (flagged (bebop__map_match_empty_or_deleted word)) as [|j js] eqn:Ef; [by apply flagged_nil in Ef|].
  destruct (flagged_cons _ _ _ Hm Ef) as [_ ->]. cbn [mbind option_bind].
  assert (Hj : j ∈ flagged (bebop__map_match_empty_or_deleted word)) by (rewrite Ef; left).
  assert (Hr : 0 ≤ j < 8) by (apply elem_of_flagged in Hj; apply Hj).
  apply flagged_empty_or_deleted in Hj as (c&Ec&Hneg); [|done..]. rewrite Hlk in Ec by done.
  rewrite u64_small by lia. exists (g + j). split; [done|]. right. split; [lia|]. split; [by exists c|].
  exists p. split; [done|]. split; [fold g; lia|done].
Qed.

Lemma set_loop_spec ctrl slots cap key h n p ins :
  table_ok ctrl slots cap → key_ok key → key_hash key = Some h →
  0 ≤ p → p + Z.of_nat n = max_probes_of cap →
  not_before ctrl slots cap (Z.land (H1 h) (cap - 1)) p key →
  (∀ q, 0 ≤ q < p → no_empty ctrl (probe_group cap (Z.land (H1 h) (cap - 1)) q)) → insert_ok ctrl cap h ins →
  ∃ r, set_loop n ctrl slots key (H2 h) (cap - 1) (Z.land (H1 h) (cap - 1)) p ins = Some r ∧
    match r with
    | inl idx => ∃ v, entry ctrl slots cap idx key v
    | inr ins => (∀ i v, ¬ entry ctrl slots cap i key v) ∧ insert_ok ctrl cap h ins
    end.
Proof.
  intros Ht Hk Hh. revert p ins. set (start := Z.land (H1 h) (cap - 1)).
  pose proof (tb_ctrl _ _ _ Ht) as Hz. unfold BEBOP_MAP_GROUP_SIZE in Hz.
  induction n as [|n IH]; intros p ins Hp Hpn Hb Hne Hi; cbn [set_loop].
  - exists (inr ins). split; [done|]. split; [|done]. eapply (absent_of_probes _ _ _ _ _ p); [done..|]. left. lia.
  - fold (probe_group cap start p). destruct (probe_group_range cap start p (tb_cap _ _ _ Ht)) as (Hg&Hg2&_).
    destruct (insert_choice ctrl slots cap h p ins Ht ltac:(lia) Hne Hi) as (ins'&Eins&Hi'). fold start in Eins. cbv zeta in Eins.
    set (g := probe_group cap start p) in *.
    destruct (group_spec ctrl g Hg ltac:(lia) (tb_bytes _ _ _ Ht)) as (_&_&_&->). cbn [mbind option_bind].
    destruct (group_search bebop__map_clear_match ctrl slots cap key h g) as (r&->&Hr); [apply clear_match_ok|done..|]. cbn [mbind option_bind].
    destruct r as [idx|]; [by exists (inl idx)|]. cbv zeta. cbn [mbind option_bind] in Eins. rewrite Eins. cbn [mbind option_bind].
    assert (Hb' : not_before ctrl slots cap start (p + 1) key).
    { intros q i v Hq Hir. destruct (Z.eq_dec q p) as [->|]; [by apply Hr|]. apply (Hb q); [lia|done]. }
    pose proof (match_empty_no_empty ctrl g Hg ltac:(lia) (tb_bytes _ _ _ Ht)) as Hem.
    destruct (Z.eqb_spec (bebop__map_match_empty (word_of (group ctrl g))) 0) as [E|E].
    + apply IH; [lia|lia|done| |done]. intros q Hq. destruct (Z.eq_dec q p) as [->|]; [by apply Hem|apply Hne; lia].
    + exists (inr ins'). split; [done|]. split; [|done]. eapply (absent_of_probes _ _ _ _ _ (p + 1)); [done..|]. right.
      split; [lia|]. replace (p + 1 - 1) with p by lia. fold start g. by rewrite <- Hem.
Qed.

(** ** Updates of the table *)

Lemma no_empty_store ctrl g i x : x ≠ CTRL_EMPTY → no_empty ctrl g → no_empty (<[i := x]> ctrl) g.
Proof.
  intros Hx Hn j Hj E. apply list_lookup_insert_Some in E as [(_&?&_)|[_ E]]; [done|]. by eapply Hn.
Qed.

Lemma reachable_store ctrl cap h i n x : x ≠ CTRL_EMPTY → reachable ctrl cap h i → reachable (<[n := x]> ctrl) cap h i.
Proof.
  intros Hx (p&Hp&Hi&Hn). exists p. split; [done|]. split; [done|]. intros q Hq. apply no_empty_store; auto.
Qed.

Section Store.
Context (ctrl : list Z) (slots : list slot) (cap : Z) (Ht : table_ok ctrl slots cap).

(** A full slot gets another value. *)
Lemma store_value i k v w (slots' := <[Z.to_nat i := Some (k, w)]> slots) :
  entry ctrl slots cap i k v →
  table_ok ctrl slots' cap ∧
  ∀ j k' v', entry ctrl slots' cap j k' v' ↔ j = i ∧ k' = k ∧ v' = w ∨ j ≠ i ∧ entry ctrl slots cap j k' v'.
Proof.
  intros He. pose proof He as (Hi&(c&Ec&Hc)&Es).
  assert (Hlk : ∀ j, 0 ≤ j → slots' !! Z.to_nat j = if decide (j = i) then Some (Some (k, w)) else slots !! Z.to_nat j).
  { intros j Hj. subst slots'. destruct (decide (j = i)) as [->|].
    - apply list_lookup_insert_eq. by eapply lookup_lt_Some.
    - apply list_lookup_insert_ne. lia. }
  assert (Hen : ∀ j k' v', entry ctrl slots' cap j k' v' ↔ j = i ∧ k' = k ∧ v' = w ∨ j ≠ i ∧ entry ctrl slots cap j k' v').
  { intros j k' v'. unfold entry. split.
    - intros (Hj&Hc'&Es'). rewrite Hlk in Es' by lia. destruct (decide (j = i)) as [->|]; [left; simplify_eq; done|right; done].
    - intros [(->&->&->)|(Hne&Hj&Hc'&Es')]; (split; [done|]); (split; [by eauto|]); rewrite Hlk by lia; [by rewrite decide_True|by rewrite decide_False]. }
  split; [|done]. destruct Ht as [T1 T2 T3 T4 T5 T6]. split; try done.
  - subst slots'. unfold zlen. by rewrite length_insert.
  - intros j c' Hj Ec' Hc'. destruct (T5 j c' Hj Ec' Hc') as (k'&v'&h&Es'&Hk&Hh&Ecc&Hre). rewrite Hlk by lia.
    destruct (decide (j = i)) as [->|]; [|by exists k', v', h]. rewrite Es in Es'. simplify_eq. by exists k', w, h.
  - intros j1 j2 k' v1 v2 [(->&->&->)|(Hn1&He1)]%Hen [(->&Ek&Ev)|(Hn2&He2)]%Hen; [done|..|by eapply T6].
    + by eapply T6.
    + subst. by eapply T6.
Qed.

(** A free slot gets a new key. *)
Lemma store_key i c k v h (ctrl' := <[Z.to_nat i := H2 h]> ctrl) (slots' := <[Z.to_nat i := Some (k, v)]> slots) :
  0 ≤ i < cap → ctrl !! Z.to_nat i = Some c → c < 0 → reachable ctrl cap h i →
  key_ok k → key_hash k = Some h → (∀ j w, ¬ entry ctrl slots cap j k w) →
  table_ok ctrl' slots' cap ∧
  ∀ j k' v', entry ctrl' slots' cap j k' v' ↔ j = i ∧ k' = k ∧ v' = v ∨ entry ctrl slots cap j k' v'.
Proof.
  intros Hi Ec Hc Hre Hk Hh Habs. pose proof (H2_range h) as Hh2. destruct Ht as [T1 T2 T3 T4 T5 T6].
  assert (Hx : H2 h ≠ CTRL_EMPTY) by (unfold CTRL_EMPTY; lia).
  assert (Hlc : ∀ j, 0 ≤ j → ctrl' !! Z.to_nat j = if decide (j = i) then Some (H2 h) else ctrl !! Z.to_nat j).
  { intros j Hj. subst ctrl'. destruct (decide (j = i)) as [->|].
    - apply list_lookup_insert_eq. by eapply lookup_lt_Some.
    - apply list_lookup_insert_ne. lia. }
  assert (Hls : ∀ j, 0 ≤ j → slots' !! Z.to_nat j = if decide (j = i) then Some (Some (k, v)) else slots !! Z.to_nat j).
  { intros j Hj. subst slots'. destruct (decide (j = i)) as [->|].
    - apply list_lookup_insert_eq. unfold zlen in T3. lia.
    - apply list_lookup_insert_ne. lia. }
  assert (Hen : ∀ j k' v', entry ctrl' slots' cap j k' v' ↔ j = i ∧ k' = k ∧ v' = v ∨ entry ctrl slots cap j k' v').
  { intros j k' v'. unfold entry. destruct (Z.eq_dec j i) as [->|Hne].
    - rewrite (Hls i), decide_True by (done || lia). split; [intros (_&_&[= -> ->]); by left|].
      intros [(_&->&->)|(_&(c'&Ec'&Hc')&_)]; [|simplify_eq; lia]. split; [done|]. split; [|done].
      exists (H2 h). rewrite Hlc, decide_True by (done || lia). split; [done|lia].
    - split.
      + intros (Hj&(c'&Ec'&Hc')&Es'). rewrite Hlc, decide_False in Ec' by (done || lia).
        rewrite Hls, decide_False in Es' by (done || lia). right. eauto.
      + intros [(?&_)|(Hj&(c'&Ec'&Hc')&Es')]; [done|]. split; [done|].
        split; [exists c'; by rewrite Hlc, decide_False by (done || lia)|by rewrite Hls, decide_False by (done || lia)]. }
  split; [|done]. split.
  - done.
  - subst ctrl'. unfold zlen. by rewrite length_insert.
  - subst slots'. unfold zlen. by rewrite length_insert.
  - apply Forall_insert; [done|]. right. right. done.
  - intros j c' Hj Ec' Hc'. rewrite Hlc in Ec' by lia. rewrite Hls by lia. destruct (decide (j = i)) as [->|].
    + simplify_eq. exists k, v, h. split_and!; try done. by apply reachable_store.
    + destruct (T5 j c' Hj Ec' Hc') as (k'&v'&h'&?&?&?&?&?). exists k', v', h'. split_and!; try done. by apply reachable_store.
  - intros j1 j2 k' v1 v2 [(->&->&->)|He1]%Hen [(->&Ek&Ev)|He2]%Hen; [done|..|by eapply T6].
    + by apply Habs in He2.
    + subst. by apply Habs in He1.
Qed.

(** A full slot is deleted. *)
Lemma store_deleted i k v (ctrl' := <[Z.to_nat i := CTRL_DELETED]> ctrl) :
  entry ctrl slots cap i k v →
  table_ok ctrl' slots cap ∧ ∀ j k' v', entry ctrl' slots cap j k' v' ↔ j ≠ i ∧ entry ctrl slots cap j k' v'.
Proof.
  intros (Hi&(c&Ec&Hc)&Es). destruct Ht as [T1 T2 T3 T4 T5 T6].
  assert (Hlc : ∀ j, 0 ≤ j → ctrl' !! Z.to_nat j = if decide (j = i) then Some CTRL_DELETED else ctrl !! Z.to_nat j).
  { intros j Hj. subst ctrl'. destruct (decide (j = i)) as [->|].
    - apply list_lookup_insert_eq. by eapply lookup_lt_Some.
    - apply list_lookup_insert_ne. lia. }
  assert (Hen : ∀ j k' v', entry ctrl' slots cap j k' v' ↔ j ≠ i ∧ entry ctrl slots cap j k' v').
  { intros j k' v'. unfold entry. split.
    - intros (Hj&(c'&Ec'&Hc')&Es'). rewrite Hlc in Ec' by lia. destruct (decide (j = i)) as [->|]; [|by eauto 10].
      unfold CTRL_DELETED in Ec'. simplify_eq. lia.
    - intros (Hne&Hj&(c'&Ec'&Hc')&Es'). split; [done|]. split; [|done]. exists c'. by rewrite Hlc, decide_False by (done || lia). }
  split; [|done]. split; try done.
  - subst ctrl'. unfold zlen. by rewrite length_insert.
  - apply Forall_insert; [done|]. right. by left.
  - intros j c' Hj Ec' Hc'. rewrite Hlc in Ec' by lia. destruct (decide (j = i)) as [->|]; [unfold CTRL_DELETED in Ec'; simplify_eq; lia|].
    destruct (T5 j c' Hj Ec' Hc') as (k'&v'&h'&?&?&?&?&?). exists k', v', h'. split_and!; try done. by apply reachable_store.
  - intros j1 j2 k' v1 v2 [_ He1]%Hen [_ He2]%Hen. by eapply T6.
Qed.
End Store.
End Table.
