(* ===== verification/SwissProps.v ===== *)
(** Correctness of the hash map ([SwissMap]): every operation refines the operation on
    an abstract map from keys to values. *)
From S2P Require Import Prelude.
From S2P Require Import WireTypes.
From S2P Require Import Bits.
From S2P Require Import Arena.
From S2P Require Import Hash.
From S2P Require Import SwissMap.
From S2P Require Import SwissTable.

(** ** Counting control bytes *)

Section Count.
Context (P : Z → Prop) `{∀ c, Decision (P c)}.

Definition count (l : list Z) : Z := zlen (filter P l).
Definition one (c : Z) : Z := if decide (P c) then 1 else 0.

Lemma count_cons c l : count (c :: l) = one c + count l.
Proof. unfold count, one. rewrite filter_cons. case_decide; by rewrite ?zlen_cons. Qed.

Lemma count_nil : count [] = 0.
Proof. done. Qed.

Lemma count_nonneg l : 0 ≤ count l.
Proof. apply zlen_nonneg. Qed.

Lemma count_app l k : count (l ++ k) = count l + count k.
Proof. unfold count. by rewrite filter_app, zlen_app. Qed.

Lemma count_insert l i x y : l !! i = Some x → count (<[i := y]> l) = count l - one x + one y.
Proof.
  intros Hx. pose proof (lookup_lt_Some _ _ _ Hx). rewrite insert_take_drop by done.
  rewrite <- (take_drop_middle l i x Hx) at 3. rewrite !count_app, !count_cons. lia.
Qed.

Lemma count_replicate n c : ¬ P c → count (replicate n c) = 0.
Proof. intros Hc. unfold count. rewrite filter_none; [done|]. by intros x [-> _]%elem_of_replicate. Qed.
End Count.

Lemma count_le (P Q : Z → Prop) `{∀ c, Decision (P c)} `{∀ c, Decision (Q c)} l :
  (∀ c, P c → Q c) → 0 ≤ count P l ≤ count Q l.
Proof.
  intros Hi. induction l as [|c l IH]; [unfold count; cbn; done|]. rewrite !count_cons. unfold one.
  repeat case_decide; try lia. exfalso; auto.
Qed.

Definition is_full (c : Z) : Prop := 0 ≤ c.
Definition is_used (c : Z) : Prop := c ≠ CTRL_EMPTY.
#[export] Instance is_full_dec c : Decision (is_full c).
Proof. unfold is_full. apply _. Defined.
#[export] Instance is_used_dec c : Decision (is_used c).
Proof. unfold is_used. apply _. Defined.

Definition full_slots (ctrl : list Z) (cap : Z) : Z := count is_full (take (Z.to_nat cap) ctrl).
Definition used_slots (ctrl : list Z) (cap : Z) : Z := count is_used (take (Z.to_nat cap) ctrl).

Lemma full_le_used ctrl cap : 0 ≤ full_slots ctrl cap ≤ used_slots ctrl cap.
Proof. apply count_le. unfold is_full, is_used, CTRL_EMPTY. lia. Qed.

Lemma slots_insert P `{∀ c, Decision (P c)} ctrl cap i c x :
  0 ≤ i < cap → ctrl !! Z.to_nat i = Some c →
  count P (take (Z.to_nat cap) (<[Z.to_nat i := x]> ctrl)) = count P (take (Z.to_nat cap) ctrl) - one P c + one P x.
Proof.
  intros Hi Hc. rewrite take_insert_lt by lia. apply count_insert. by rewrite lookup_take_lt by lia.
Qed.

Lemma arena_alloc_options `{HostAllocator} size h ar r h' ar' :
  bebop_wire_arena_alloc size (h, ar) = Some (r, (h', ar')) → ar_options ar' = ar_options ar.
Proof.
  unfold bebop_wire_arena_alloc. destruct (size =? 0); [by intros [= <- <- <-]|].
  assert (Hens : ∀ n h ar b h' ar', ensure_block n (h, ar) = Some (b, (h', ar')) → ar_options ar' = ar_options ar).
  { clear -H. intros n h ar b h' ar'. unfold ensure_block, mbind, C_bind, get_arena, gets. cbn [snd].
    destruct (needs_block ar n); [|by intros [= <- <- <-]]. unfold on_heap.
    destruct (bebop_wire_arena_allocate_block ar n h) as [[[b'|] h2]|]; [| |done]; by intros [= <- <- <-]. }
  generalize (bebop_wire_align_size size BEBOP_ARENA_ALIGN) as n. intros n. revert h ar.
  generalize 2%nat as fuel. induction fuel as [|fuel IH]; intros h ar E; [done|]. cbn [arena_alloc_loop] in E.
  unfold mbind, C_bind in E. destruct (ensure_block n (h, ar)) as [[b [h1 ar1]]|] eqn:Ee; [|done].
  apply Hens in Ee. rewrite <- Ee. destruct b; [|by injection E as <- <- <-].
  unfold take_bytes, mbind, C_bind, get_arena, gets in E. cbn [snd] in E. destruct (ar_blocks ar1) as [|cur next]; [done|].
  destruct (_ <=? _); [by injection E as <- <- <-|by eapply IH].
Qed.

Section Map.
Context `{Platform} `{HostAllocatorOk} {K V : Type} `{MapKeyOk K}.
Context (host_le : HOST_LE = true).
Abbreviation Map := (Bebop_Map K V).

(** ** The invariant of the map and the pairs it holds *)

Definition map_ok (m : Map) : Prop :=
  match mp_ctrl m with
  | None => mp_slots m = [] ∧ mp_length m = 0 ∧ mp_capacity m = 0 ∧ mp_growth_left m = 0
  | Some ctrl =>
      table_ok ctrl (mp_slots m) (mp_capacity m) ∧ mp_length m = full_slots ctrl (mp_capacity m) ∧
      0 ≤ mp_growth_left m ∧ 8 * (mp_growth_left m + used_slots ctrl (mp_capacity m)) = 7 * mp_capacity m
  end.

Definition holds (m : Map) (k : K) (v : option V) : Prop :=
  ∃ ctrl i, mp_ctrl m = Some ctrl ∧ entry ctrl (mp_slots m) (mp_capacity m) i k v.

(** [m'] holds what [m] holds, with [v] at [k]. *)
Definition updated (m : Map) (k : K) (v : option V) (m' : Map) : Prop :=
  ∀ k' v', holds m' k' v' ↔ k' = k ∧ v' = v ∨ k' ≠ k ∧ holds m k' v'.

(** The number of slots that are not free. *)
Definition used (m : Map) : Z :=
  match mp_ctrl m with None => 0 | Some ctrl => used_slots ctrl (mp_capacity m) end.

Lemma store_in {A} (l : list A) i x : 0 ≤ i < zlen l → store l i x = Some (<[Z.to_nat i := x]> l).
Proof.
  intros Hi. unfold store. destruct (Z.leb_spec 0 i); [|lia]. by destruct (Z.ltb_spec i (zlen l)); [|lia].
Qed.

Lemma load_lookup (l : list Z) i c : 0 ≤ i → l !! Z.to_nat i = Some c → load l i = Some c.
Proof. intros Hi Hc. unfold load. destruct (Z.ltb_spec i 0); [lia|done]. Qed.

Lemma holds_unique m k v w : map_ok m → holds m k v → holds m k w → v = w.
Proof.
  unfold map_ok. intros Hm (ctrl&i&E&He1) (ctrl'&j&E'&He2). rewrite E in E'. simplify_eq. rewrite E in Hm.
  destruct Hm as [Ht _]. assert (i = j) as -> by (by eapply (tb_unique _ _ _ Ht)).
  destruct He1 as (_&_&E1), He2 as (_&_&E2). congruence.
Qed.

(** ** Set without growth *)

Lemma set_in_table_spec m k v :
  map_ok m → mp_growth_left m ≠ 0 → key_ok k →
  ∃ b m', set_in_table m k v = Some (b, m') ∧ map_ok m' ∧ mp_ctx m' = mp_ctx m ∧
    mp_capacity m' = mp_capacity m ∧ used m' ≤ used m + 1 ∧ (if b then updated m k v m' else m' = m).
Proof.
  intros Hm Hg Hk. unfold map_ok in Hm. destruct m as [[ctrl|] slots len cap gl ctx]; cbn in *; [|lia].
  destruct Hm as (Ht&Hl&Hg0&Hu). destruct (key_hash_ok k Hk) as (h&Hh&_).
  pose proof (tb_ctrl _ _ _ Ht) as Hz. unfold BEBOP_MAP_GROUP_SIZE in Hz. pose proof (tb_slots _ _ _ Ht) as Hs.
  destruct (cap_range cap (tb_cap _ _ _ Ht)) as [Hc _]. pose proof (full_le_used ctrl cap) as Hfu.
  unfold set_in_table. cbv zeta. cbn [mp_ctrl mp_capacity mp_slots mp_length mp_growth_left mp_ctx]. rewrite Hh. cbn [mbind option_bind].
  rewrite (u64_small (cap - 1)) by lia.
  destruct (set_loop_spec host_le ctrl slots cap k h (Z.to_nat (max_probes_of cap)) 0 SIZE_MAX) as (r&->&Hr);
    [done..|unfold max_probes_of, BEBOP_MAP_GROUP_SIZE; dlia|intros q; lia|intros q; lia|by left|]. cbn [mbind option_bind].
  destruct r as [idx|ins].
  - destruct Hr as [w He]. pose proof He as (Hi&_&Es).
    rewrite (proj2 (load_slot_lookup slots idx (k, w) ltac:(lia)) Es). cbn [mbind option_bind].
    rewrite store_in by lia. cbn [mbind option_bind]. destruct (store_value ctrl slots cap Ht idx k w v He) as [Ht' Hen].
    eexists true, _. split; [reflexivity|]. cbn. split_and!; try done; [lia|]. intros k' v'. unfold holds. cbn. split.
    + intros (c'&j&[= <-]&[(->&->&->)|[Hne He']]%Hen); [by left|]. right. split; [|by eauto].
      intros ->. apply Hne. by eapply (tb_unique _ _ _ Ht).
    + intros [(->&->)|(Hne&(c'&j&[= <-]&He'))]; exists ctrl.
      * exists idx. split; [done|]. apply Hen. by left.
      * exists j. split; [done|]. apply Hen. right. split; [|done]. intros ->. destruct He' as (_&_&Es'). congruence.
  - destruct Hr as [Habs [->|(Hi&(c&Ec&Hneg)&Hre)]].
    { rewrite Z.eqb_refl. exists false. eexists. split; [reflexivity|]. cbn. split_and!; try done. lia. }
    destruct (Z.eqb_spec ins SIZE_MAX) as [->|_]; [unfold SIZE_MAX in Hi; lia|].
    rewrite (load_lookup ctrl ins c) by (done || lia). cbn [mbind option_bind].
    rewrite !store_in by lia. cbn [mbind option_bind].
    destruct (store_key ctrl slots cap Ht ins c k v h Hi Ec Hneg Hre Hk Hh Habs) as [Ht' Hen]. pose proof (H2_range h) as Hh2.
    eexists true, _. split; [reflexivity|]. cbn. unfold full_slots, used_slots in *.
    rewrite !(slots_insert _ ctrl cap ins c) by done. unfold one.
    rewrite (decide_False (P := is_full c)), (decide_True (P := is_full (H2 h))), (decide_True (P := is_used (H2 h)))
      by (unfold is_full, is_used, CTRL_EMPTY; lia).
    split; [split; [done|]|].
    { rewrite u64_small by lia. split; [lia|]. destruct (Z.eqb_spec c CTRL_EMPTY).
      - rewrite u64_small by lia. rewrite decide_False by (intros ?; done). lia.
      - rewrite decide_True by done. lia. }
    split_and!; try done; [repeat case_decide; lia|]. intros k' v'. unfold holds. cbn. split.
    + intros (c'&j&[= <-]&[(->&->&->)|He']%Hen); [by left|]. right. split; [|by eauto]. intros ->. by eapply Habs.
    + intros [(->&->)|(Hne&(c'&j&[= <-]&He'))]; eexists.
      * exists ins. split; [done|]. apply Hen. by left.
      * exists j. split; [done|]. apply Hen. by right.
Qed.

(** ** Growth *)

(** The context is in order and bounds its blocks, so that capacities do not overflow. *)
Definition context_fits (s : Heap * Bebop_Context) : Prop :=
  (∃ L, context_ok L (hp_live s.1) s.2) ∧ max_block_size (ar_options (cx_arena s.2)) ≤ 2 ^ 57.
Definition state_ok (s : Heap * Bebop_Context) (m : Map) : Prop :=
  map_ok m ∧ (mp_ctx m = PTR → context_fits s).

Lemma map_alloc_spec s (m : Map) size :
  (mp_ctx m = PTR → context_fits s) → 0 ≤ size ≤ 2 ^ 63 - 16 →
  ∃ r s', on_context (bebop_context_alloc (mp_ctx m) size) (s, m) = Some (r, (s', m)) ∧
    (mp_ctx m = PTR → context_fits s') ∧ (is_Some r → size ≤ 2 ^ 57).
Proof.
  intros Hc Hs. destruct (mp_ctx m) eqn:Em.
  - exists None, s. cbn. split; [by destruct s|]. split; [done|]. by intros [? ?].
  - destruct (Hc eq_refl) as [[L HL] Hmax]. destruct s as [h cx]. cbn in HL, Hmax.
    destruct (context_alloc_spec L h cx size HL Hs) as (r&h'&ar'&E&Ho&Hp). exists r, (h', set_arena ar' cx).
    unfold on_context. rewrite E. split; [done|].
    assert (Eo : ar_options ar' = ar_options (cx_arena cx)).
    { unfold bebop_context_alloc in E. cbn [is_null] in E. unfold on_arena in E.
      destruct (bebop_wire_arena_alloc size (h, cx_arena cx)) as [[a [h2 ar2]]|] eqn:Ea; [|done].
      apply arena_alloc_options in Ea. destruct cx. unfold set_arena in E. cbn in *. by simplify_eq. }
    split.
    + intros _. split; [by exists L|]. cbn. by rewrite Eo.
    + intros [p ->]. destruct Hp as [_ Hf]. pose proof (fr_size _ _ _ _ _ Hf) as Hfs. rewrite Eo in Hfs. lia.
Qed.

Lemma map_set_step d k v s (m : Map) :
  map_set (S d) k v (s, m) =
  match (if mp_growth_left m =? 0 then bebop__map_grow (map_set d) (s, m) else Some (true, (s, m))) with
  | Some (ok, st) => if negb ok then Some (false, st) else set_in_table_m k v st
  | None => None
  end.
Proof.
  cbn [map_set]. unfold mbind at 1, C_bind at 1, get_map at 1, gets at 1. cbn [snd].
  destruct (mp_growth_left m =? 0); [|reflexivity]. unfold mbind, C_bind.
  destruct (bebop__map_grow (map_set d) (s, m)) as [[[] st]|]; reflexivity.
Qed.

Lemma map_set_room d k v s (m : Map) :
  mp_growth_left m ≠ 0 → map_set (S d) k v (s, m) = set_in_table_m k v (s, m).
Proof.
  intros Hg. rewrite map_set_step. by destruct (Z.eqb_spec (mp_growth_left m) 0).
Qed.

Lemma set_in_table_m_spec k v s (m : Map) b m' :
  set_in_table m k v = Some (b, m') → set_in_table_m k v (s, m) = Some (b, (s, m')).
Proof. intros E. unfold set_in_table_m, mbind, C_bind, get_map, gets, lift. cbn [snd]. rewrite E. reflexivity. Qed.

Lemma growth_left_room m :
  map_ok m → 8 * used m < 7 * mp_capacity m → mp_growth_left m ≠ 0.
Proof.
  unfold map_ok, used. destruct (mp_ctrl m); [|lia]. intros (_&_&_&E) Hu. lia.
Qed.

Section Rehash.
Context (octrl : list Z) (oslots : list (option (K * option V))) (ocap : Z) (Ht : table_ok octrl oslots ocap).

(** The first [i] slots of the old table are in the new one. *)
Definition moved (i : Z) (m : Map) : Prop :=
  ∀ k v, holds m k v ↔ ∃ j, 0 ≤ j < i ∧ entry octrl oslots ocap j k v.

Lemma rehash_spec d n i s m :
  0 ≤ i → i + Z.of_nat n = ocap → map_ok m → 8 * full_slots octrl ocap < 7 * mp_capacity m →
  used m ≤ count is_full (take (Z.to_nat i) octrl) → moved i m →
  ∃ b m', rehash (map_set (S d)) n i (Some octrl) oslots (s, m) = Some (b, (s, m')) ∧ map_ok m' ∧
    mp_ctx m' = mp_ctx m ∧ mp_capacity m' = mp_capacity m ∧ used m' ≤ full_slots octrl ocap ∧
    (if b then moved ocap m' else ∀ k v, holds m' k v → ∃ j, entry octrl oslots ocap j k v).
Proof.
  revert i m. induction n as [|n IH]; intros i m Hi Hn Hm Hroom Hu Hmv; cbn [rehash].
  - exists true, m. replace i with ocap in * by lia. by split_and!.
  - pose proof (tb_ctrl _ _ _ Ht) as Hz. unfold BEBOP_MAP_GROUP_SIZE, zlen in Hz.
    destruct (lookup_lt_is_Some_2 octrl (Z.to_nat i)) as [c Ec]; [lia|].
    assert (Hcnt : count is_full (take (Z.to_nat (i + 1)) octrl) = count is_full (take (Z.to_nat i) octrl) + one is_full c).
    { replace (Z.to_nat (i + 1)) with (S (Z.to_nat i)) by lia. rewrite (take_S_r _ _ c) by done.
      rewrite count_app, count_cons, count_nil. lia. }
    assert (Hle : count is_full (take (Z.to_nat (i + 1)) octrl) ≤ full_slots octrl ocap).
    { unfold full_slots. replace (Z.to_nat ocap) with (Z.to_nat (i + 1) + (Z.to_nat ocap - Z.to_nat (i + 1)))%nat by lia.
      rewrite <- take_take_drop, count_app. pose proof (count_nonneg is_full (take (Z.to_nat ocap - Z.to_nat (i + 1)) (drop (Z.to_nat (i + 1)) octrl))). lia. }
    unfold mbind at 1, C_bind at 1, lift at 1. rewrite (load_lookup octrl i c) by done. cbn [mbind option_bind].
    unfold one in Hcnt. destruct (CTRL_IS_FULL c) eqn:Efull; unfold CTRL_IS_FULL in Efull.
    + rewrite decide_True in Hcnt by (unfold is_full; lia).
      destruct (tb_full _ _ _ Ht i c ltac:(lia) Ec ltac:(lia)) as (k&v&h&Es&Hk&_).
      assert (He : entry octrl oslots ocap i k v) by (split; [lia|split; [exists c; split; [done|lia]|done]]).
      unfold mbind at 1, C_bind at 1, lift at 1. rewrite (proj2 (load_slot_lookup oslots i (k, v) Hi) Es).
      assert (Hg : mp_growth_left m ≠ 0) by (apply growth_left_room; [done|lia]).
      destruct (set_in_table_spec m k v Hm Hg Hk) as (b&m1&E1&Hm1&Hx1&Hc1&Hu1&Hb).
      unfold mbind at 1, C_bind at 1. rewrite map_set_room by done. rewrite (set_in_table_m_spec _ _ _ _ _ _ E1).
      destruct b; cbn [negb].
      * destruct (IH (i + 1) m1) as (b&m'&E&Hm'&Hx&Hc&Hu'&Hb'); [lia|lia|done|by rewrite Hc1|lia| |].
        { intros k' v'. rewrite (Hb k' v'). split.
          - intros [(->&->)|(Hne&Hh)]; [exists i; split; [lia|done]|]. apply Hmv in Hh as (j&Hj&Hej). exists j. split; [lia|done].
          - intros (j&Hj&Hej). destruct (Z.eq_dec j i) as [->|Hne].
            + left. destruct Hej as (_&_&Ej). rewrite Es in Ej. by simplify_eq.
            + right. split; [|apply Hmv; exists j; split; [lia|done]]. intros ->. apply Hne. by eapply (tb_unique _ _ _ Ht). }
        exists b, m'. rewrite <- Hx1, <- Hc1. by split_and!.
      * subst m1. exists false, m. split; [done|]. split_and!; try done; [lia|]. intros k' v' (j&_&?)%Hmv. by exists j.
    + rewrite decide_False in Hcnt by (unfold is_full; lia). apply IH; [lia|lia|done|done|lia|].
      intros k v. rewrite (Hmv k v). split; intros (j&Hj&He); [exists j; split; [lia|done]|].
      exists j. split; [|done]. destruct (Z.eq_dec j i) as [->|]; [|lia]. destruct He as (_&(c'&Ec'&Hc')&_). simplify_eq. lia.
Qed.
End Rehash.

Lemma lookup_empty n (i : nat) c : replicate n CTRL_EMPTY !! i = Some c → c = CTRL_EMPTY.
Proof. intros Hc. by apply lookup_replicate in Hc as [-> _]. Qed.

(** A table without full slots. *)
Lemma empty_table ctrl (slots : list (option (K * option V))) cap :
  cap_ok cap → zlen ctrl = cap + BEBOP_MAP_GROUP_SIZE → zlen slots = cap → Forall ctrl_ok ctrl →
  take (Z.to_nat cap) ctrl = replicate (Z.to_nat cap) CTRL_EMPTY →
  table_ok ctrl slots cap ∧ (∀ i k v, ¬ entry ctrl slots cap i k v) ∧ full_slots ctrl cap = 0 ∧ used_slots ctrl cap = 0.
Proof.
  intros Hc Hz Hs Hf Ht.
  assert (Hn : ∀ i c, 0 ≤ i < cap → ctrl !! Z.to_nat i = Some c → c = CTRL_EMPTY).
  { intros i c Hi Ec. apply (lookup_empty (Z.to_nat cap) (Z.to_nat i)). rewrite <- Ht. by rewrite lookup_take_lt by lia. }
  assert (He : ∀ i k v, ¬ entry ctrl slots cap i k v).
  { intros i k v (Hi&(c&Ec&Hc0)&_). apply Hn in Ec; [|done]. unfold CTRL_EMPTY in Ec. lia. }
  split; [|split; [done|]].
  - split; try done.
    + intros i c Hi Ec Hc0. apply Hn in Ec; [|done]. unfold CTRL_EMPTY in Ec. lia.
    + intros i j k v w Hi. by apply He in Hi.
  - unfold full_slots, used_slots. rewrite Ht, !count_replicate; [done|..]; unfold is_full, is_used, CTRL_EMPTY; lia.
Qed.

Lemma new_table cap : cap_ok cap →
  table_ok (replicate (Z.to_nat (cap + 8)) CTRL_EMPTY) (replicate (Z.to_nat cap) (None : option (K * option V))) cap ∧
  (∀ i k v, ¬ entry (replicate (Z.to_nat (cap + 8)) CTRL_EMPTY) (replicate (Z.to_nat cap) (None : option (K * option V))) cap i k v) ∧
  full_slots (replicate (Z.to_nat (cap + 8)) CTRL_EMPTY) cap = 0 ∧
  used_slots (replicate (Z.to_nat (cap + 8)) CTRL_EMPTY) cap = 0.
Proof.
  intros Hc. destruct (cap_range cap Hc). apply empty_table; [done|..].
  - unfold zlen. rewrite length_replicate. unfold BEBOP_MAP_GROUP_SIZE. lia.
  - unfold zlen. rewrite length_replicate. lia.
  - apply Forall_replicate. by left.
  - rewrite take_replicate. f_equal. lia.
Qed.

Lemma load_factor cap : cap_ok cap → u64 (cap * BEBOP_MAP_LOAD_FACTOR) / 8 * 8 = 7 * cap ∧ 0 ≤ u64 (cap * BEBOP_MAP_LOAD_FACTOR) / 8.
Proof.
  intros Hc. destruct (cap_range cap Hc). unfold BEBOP_MAP_LOAD_FACTOR. rewrite u64_small by lia. dlia.
Qed.

Definition old_cap_ok (m : Map) (cap : Z) : Prop :=
  (mp_capacity m = 0 ∧ cap = 8) ∨ (cap_ok (mp_capacity m) ∧ cap = 2 * mp_capacity m).

Lemma grow_spec d s m :
  state_ok s m →
  ∃ b s' m', bebop__map_grow (map_set (S d)) (s, m) = Some (b, (s', m')) ∧ state_ok s' m' ∧
    if b then (∀ k v, holds m' k v ↔ holds m k v) ∧ mp_growth_left m' ≠ 0
    else ∀ k v, holds m' k v → holds m k v.
Proof.
  intros [Hm Hc]. unfold bebop__map_grow. unfold mbind at 1, C_bind at 1, get_map at 1, gets at 1. cbn [snd].
  set (cap := if mp_capacity m =? 0 then BEBOP_MAP_INITIAL_CAPACITY else u64 (mp_capacity m * 2)).
  assert (Hold : mp_capacity m = 0 ∧ cap = 8 ∨ cap_ok (mp_capacity m) ∧ cap = 2 * mp_capacity m).
  { subst cap. unfold map_ok in Hm. destruct (mp_ctrl m) as [ctrl|].
    - destruct Hm as (Ht&_). pose proof (tb_cap _ _ _ Ht) as Hk. destruct (cap_range _ Hk).
      destruct (Z.eqb_spec (mp_capacity m) 0); [lia|]. right. split; [done|]. rewrite u64_small by lia. lia.
    - destruct Hm as (_&_&->&_). left. by rewrite Z.eqb_refl. }
  assert (Hcr : 8 ≤ cap ≤ 2 ^ 58) by (destruct Hold as [[_ ->]|[Hk ->]]; [lia|destruct (cap_range _ Hk); lia]).
  unfold BEBOP_MAP_GROUP_SIZE, sizeof_slot. cbv zeta. rewrite (u64_small (cap + 8)), (u64_small (cap * 16)) by lia.
  destruct (map_alloc_spec s m (cap + 8) Hc ltac:(lia)) as (r1&s1&E1&Hc1&Hr1).
  unfold mbind at 1, C_bind at 1. rewrite E1. destruct r1 as [p1|].
  2: { exists false, s1, m. by split_and!. }
  assert (Hcap : cap ≤ 2 ^ 57 - 8) by (pose proof (Hr1 ltac:(eauto)); lia). clear Hr1.
  destruct (map_alloc_spec s1 m (cap * 16) Hc1 ltac:(lia)) as (r2&s2&E2&Hc2&Hr2).
  unfold mbind at 1, C_bind at 1. rewrite E2. destruct r2 as [p2|].
  2: { exists false, s2, m. by split_and!. }
  assert (Hk : cap_ok cap).
  { destruct Hold as [[_ ->]|[(k&Ek&Hk) E]]; [by exists 3|]. exists (k + 1). rewrite E, Ek. split; [rewrite Z.pow_add_r; lia|].
    assert (2 ^ k < 2 ^ 57) by lia. assert (k < 57) by (apply (Z.pow_lt_mono_r_iff 2); lia). lia. }
  destruct (new_table cap Hk) as (Ht&Hno&Hfull&Hused). destruct (load_factor cap Hk) as [Hlf Hlf0].
  set (m0 := mkMap (Some (replicate (Z.to_nat (cap + 8)) CTRL_EMPTY)) (replicate (Z.to_nat cap) (None : option (K * option V))) 0 cap
               (u64 (cap * BEBOP_MAP_LOAD_FACTOR) / 8) (mp_ctx m)).
  assert (Hm0 : map_ok m0).
  { unfold map_ok. cbn. split; [done|]. rewrite Hfull, Hused. split; [done|]. split; [done|]. lia. }
  unfold mbind at 1, C_bind at 1, put_map at 1, modify at 1. fold m0.
  assert (Hempty : ∀ k v, ¬ holds m0 k v) by (intros k v (c&i&[= <-]&He); by eapply Hno).
  unfold map_ok in Hm. destruct (mp_ctrl m) as [octrl|] eqn:Em.
  - destruct Hm as (Hto&Hl&Hg&Hu). pose proof (tb_cap _ _ _ Hto) as Hko. destruct (cap_range _ Hko).
    destruct Hold as [[? _]|[_ Ecap]]; [lia|]. pose proof (full_le_used octrl (mp_capacity m)).
    destruct (rehash_spec octrl (mp_slots m) (mp_capacity m) Hto d (Z.to_nat (mp_capacity m)) 0 s2 m0)
      as (b&m'&E&Hm'&Hx&Hcap'&Hu'&Hb); [lia|lia|done|cbn; lia|unfold used; cbn; rewrite Hused; apply count_nonneg| |].
    { intros k v. split; [by intros ?%Hempty|]. intros (j&?&_). lia. }
    exists b, s2, m'. split; [exact E|]. split; [split; [done|by rewrite Hx]|]. destruct b.
    + split.
      * intros k v. rewrite (Hb k v). split; [intros (j&Hj&He); by exists octrl, j|].
        intros (c&j&Ec&He). rewrite Em in Ec. simplify_eq. exists j. split; [apply He|done].
      * apply growth_left_room; [done|]. rewrite Hcap'. cbn. lia.
    + intros k v (j&He)%Hb. by exists octrl, j.
  - destruct Hm as (_&_&Hc0&_). rewrite Hc0. cbn [Z.to_nat rehash]. exists true, s2, m0. split; [done|].
    split; [split; [done|exact Hc2]|]. split.
    + intros k v. split; [by intros ?%Hempty|]. intros (c&j&Ec&_). congruence.
    + cbn. lia.
Qed.

Lemma map_set_spec s m k v :
  state_ok s m → key_ok k →
  ∃ b s' m', bebop_map_set PTR k v (s, m) = Some (b, (s', m')) ∧ state_ok s' m' ∧
    (if b then updated m k v m' else ∀ k v, holds m' k v → holds m k v) ∧
    (b = false → mp_growth_left m ≠ 0 → m' = m).
Proof.
  intros Hs Hk. unfold bebop_map_set. cbn [is_null]. rewrite map_set_step.
  destruct (Z.eqb_spec (mp_growth_left m) 0) as [E0|Hg].
  - destruct (grow_spec 0 s m Hs) as (b&s1&m1&E1&[Hm1 Hc1]&Hb). rewrite E1. destruct b; cbn [negb].
    + destruct Hb as [Hh Hg1]. destruct (set_in_table_spec m1 k v Hm1 Hg1 Hk) as (b&m2&E2&Hm2&Hx2&_&_&Hb).
      exists b, s1, m2. split; [by apply set_in_table_m_spec|]. split; [split; [done|by rewrite Hx2]|]. split; [|done]. destruct b.
      * intros k' v'. rewrite (Hb k' v'). by rewrite Hh.
      * subst m2. intros k' v'. apply Hh.
    + exists false, s1, m1. split; [done|]. by split.
  - destruct Hs as [Hm Hc]. destruct (set_in_table_spec m k v Hm Hg Hk) as (b&m2&E2&Hm2&Hx2&_&_&Hb).
    exists b, s, m2. split; [by apply set_in_table_m_spec|]. split; [split; [done|by rewrite Hx2]|]. destruct b; [by split|].
    subst m2. by split.
Qed.

(** ** Lookup and removal *)

Lemma map_find_spec next m ctrl k :
  next_ok next → map_ok m → mp_ctrl m = Some ctrl → key_ok k →
  ∃ r, map_find next m ctrl k = Some r ∧
    match r with
    | Some idx => ∃ v, entry ctrl (mp_slots m) (mp_capacity m) idx k v
    | None => ∀ v, ¬ holds m k v
    end.
Proof.
  intros Hn Hm Ec Hk. unfold map_ok in Hm. rewrite Ec in Hm. destruct Hm as (Ht&_).
  destruct (key_hash_ok k Hk) as (h&Hh&_). destruct (cap_range _ (tb_cap _ _ _ Ht)).
  unfold map_find. rewrite Hh. cbn [mbind option_bind]. cbv zeta. rewrite (u64_small (mp_capacity m - 1)) by lia.
  destruct (find_loop_spec host_le next ctrl (mp_slots m) (mp_capacity m) k h (Z.to_nat (max_probes_of (mp_capacity m))) 0)
    as (r&E&Hr); [done..|unfold max_probes_of, BEBOP_MAP_GROUP_SIZE; dlia|intros q; lia|]. exists r. split; [exact E|].
  destruct r; [done|]. intros v (c&i&Ec'&He). rewrite Ec in Ec'. simplify_eq. by eapply Hr.
Qed.

Lemma empty_holds m k v : map_ok m → mp_length m = 0 → ¬ holds m k v.
Proof.
  unfold map_ok. intros Hm Hl (ctrl&i&E&(Hi&(c&Ec&Hc)&_)). rewrite E in Hm. destruct Hm as (_&El&_). rewrite Hl in El.
  unfold full_slots, count in El. assert (Hin : c ∈ filter is_full (take (Z.to_nat (mp_capacity m)) ctrl)).
  { apply list_elem_of_filter. split; [done|]. apply (list_elem_of_lookup_2 _ (Z.to_nat i)). by rewrite lookup_take_lt by lia. }
  destruct (filter _ _) as [|x l]; [by apply not_elem_of_nil in Hin|]. rewrite zlen_cons in El. pose proof (zlen_nonneg l). lia.
Qed.

Lemma map_get_spec s m k :
  map_ok m → key_ok k →
  ∃ r, bebop_map_get PTR k (s, m) = Some (r, (s, m)) ∧ (holds m k r ∨ r = None ∧ ∀ v, ¬ holds m k v).
Proof.
  intros Hm Hk. unfold bebop_map_get. cbn [is_null]. unfold mbind at 1, C_bind at 1, get_map at 1, gets at 1. cbn [snd].
  destruct (mp_ctrl m) as [ctrl|] eqn:Ec.
  2: { exists None. split; [done|]. right. split; [done|]. intros v (c&i&E&_). congruence. }
  destruct (Z.eqb_spec (mp_length m) 0) as [El|_].
  { exists None. split; [done|]. right. split; [done|]. intros v. by apply empty_holds. }
  destruct (map_find_spec get_next m ctrl k get_next_ok Hm Ec Hk) as (r&E&Hr).
  unfold mbind at 1, C_bind at 1, lift at 1. rewrite E. destruct r as [idx|].
  - destruct Hr as [v He]. exists v. pose proof He as ((Hi&_)&_&Es).
    unfold mbind, C_bind, lift. rewrite (proj2 (load_slot_lookup (mp_slots m) idx (k, v) Hi) Es). split; [done|].
    left. by exists ctrl, idx.
  - exists None. split; [done|]. by right.
Qed.

Lemma map_remove_spec s m k :
  state_ok s m → key_ok k →
  ∃ b m', bebop_map_remove PTR k (s, m) = Some (b, (s, m')) ∧ state_ok s m' ∧
    (if b then (∃ v, holds m k v) ∧ ∀ k' v', holds m' k' v' ↔ k' ≠ k ∧ holds m k' v' else m' = m ∧ ∀ v, ¬ holds m k v).
Proof.
  intros [Hm Hc] Hk. unfold bebop_map_remove. cbn [is_null]. unfold mbind at 1, C_bind at 1, get_map at 1, gets at 1. cbn [snd].
  destruct (mp_ctrl m) as [ctrl|] eqn:Ec.
  2: { exists false, m. split; [done|]. split; [done|]. split; [done|]. intros v (c&i&E&_). congruence. }
  destruct (Z.eqb_spec (mp_length m) 0) as [El|Hl].
  { exists false, m. split; [done|]. split; [done|]. split; [done|]. intros v. by apply empty_holds. }
  destruct (map_find_spec bebop__map_clear_match m ctrl k clear_match_ok Hm Ec Hk) as (r&E&Hr).
  unfold mbind at 1, C_bind at 1, lift at 1. rewrite E. destruct r as [idx|]; [|exists false, m; by split_and!].
  destruct Hr as [v He]. unfold map_ok in Hm. rewrite Ec in Hm. destruct Hm as (Ht&El&Hg&Hu).
  pose proof (tb_ctrl _ _ _ Ht) as Hz. unfold BEBOP_MAP_GROUP_SIZE in Hz. destruct (cap_range _ (tb_cap _ _ _ Ht)).
  pose proof He as (Hi&(c&Ecc&Hc0)&_). pose proof (full_le_used ctrl (mp_capacity m)).
  destruct (store_deleted ctrl (mp_slots m) (mp_capacity m) Ht idx k v He) as [Ht' Hen].
  unfold mbind at 1, C_bind at 1, lift at 1. rewrite store_in by lia. eexists true, _. split; [reflexivity|].
  assert (Hused : one is_used c = 1) by (unfold one; rewrite decide_True; [done|unfold is_used, CTRL_EMPTY; lia]).
  assert (Hfull : one is_full c = 1) by (unfold one; by rewrite decide_True).
  split; [split; [|exact Hc]|].
  - unfold map_ok. cbn. split; [done|]. unfold full_slots, used_slots in *. rewrite !(slots_insert _ ctrl _ idx c) by done.
    rewrite Hused, Hfull. change (one is_full CTRL_DELETED) with 0. change (one is_used CTRL_DELETED) with 1.
    rewrite u64_small by lia. lia.
  - split; [by exists v, ctrl, idx|]. intros k' v'. unfold holds. cbn. split.
    + intros (c'&j&[= <-]&[Hne He']%Hen). split; [|by exists ctrl, j]. intros ->. apply Hne. by eapply (tb_unique _ _ _ Ht).
    + intros (Hne&c'&j&Ec'&He'). rewrite Ec in Ec'. simplify_eq. eexists _, j. split; [done|]. apply Hen. split; [|done].
      intros ->. destruct He as (_&_&E1), He' as (_&_&E2). congruence.
Qed.

Lemma map_clear_spec s m :
  state_ok s m →
  ∃ m', bebop_map_clear PTR (s, m) = Some (tt, (s, m')) ∧ state_ok s m' ∧ mp_length m' = 0 ∧ ∀ k v, ¬ holds m' k v.
Proof.
  intros [Hm Hc]. unfold bebop_map_clear. cbn [is_null]. unfold mbind at 1, C_bind at 1, get_map at 1, gets at 1. cbn [snd].
  unfold map_ok in Hm. destruct (mp_ctrl m) as [ctrl|] eqn:Ec.
  - destruct Hm as (Ht&El&Hg&Hu). pose proof (tb_cap _ _ _ Ht) as Hk. pose proof (tb_ctrl _ _ _ Ht) as Hz.
    destruct (cap_range _ Hk). unfold BEBOP_MAP_GROUP_SIZE, zlen in Hz. eexists. split; [reflexivity|].
    destruct (load_factor _ Hk) as [Hlf Hlf0].
    destruct (empty_table (replicate (Z.to_nat (mp_capacity m)) CTRL_EMPTY ++ drop (Z.to_nat (mp_capacity m)) ctrl) (mp_slots m) (mp_capacity m))
      as (Ht'&Hno&Hf&Hus).
    + done.
    + unfold zlen, BEBOP_MAP_GROUP_SIZE. rewrite length_app, length_replicate, length_drop. lia.
    + apply Ht.
    + apply Forall_app. split; [apply Forall_replicate; by left|]. apply Forall_drop, Ht.
    + rewrite take_app_le by (by rewrite length_replicate). apply take_ge. by rewrite length_replicate.
    + split; [split; [|exact Hc]|].
      * unfold map_ok. cbn. rewrite Hf, Hus. split; [done|]. split; [done|]. lia.
      * cbn. split; [done|]. intros k v (c&i&[= <-]&He). by eapply Hno.
  - exists m. split; [done|]. split; [split; [by unfold map_ok; rewrite Ec|done]|]. split; [apply Hm|].
    intros k v (c&i&E&_). congruence.
Qed.
End Map.
