(* ===== verification/SwissSpec.v ===== *)
(** The contract of the hash map ([SwissMap]): a sequence of its operations behaves as on
    an abstract map, and what is promised when an insertion fails. *)
From S2P Require Import Prelude.
From S2P Require Import WireTypes.
From S2P Require Import Bits.
From S2P Require Import Arena.
From S2P Require Import Hash.
From S2P Require Import SwissMap.
From S2P Require Import SwissTable.
From S2P Require Import SwissProps.

Section Spec.
Context `{Platform} `{HostAllocatorOk} {K V : Type} `{MapKeyOk K}.
Abbreviation Map := (Bebop_Map K V).
Abbreviation MS := ((Heap * Bebop_Context) * Bebop_Map K V)%type.

(** ** Iteration *)

(** A loop over [bebop_map_iter_next] that collects the pairs. *)
Fixpoint iterate (fuel : nat) (index : Z) : C MS (list (K * option V)) :=
  match fuel with
  | O => ub
  | S fuel =>
      '(r, index) ← bebop_map_iter_next PTR PTR index;
      match r with
      | None => mret []
      | Some kv => rest ← iterate fuel index; mret (kv :: rest)
      end
  end.

Definition iterate_all : C MS (list (K * option V)) :=
  m ← get_map; iterate (S (Z.to_nat (mp_capacity m))) bebop_map_iter_init.

Definition full_from (ctrl : list Z) (cap i : Z) : Z := count is_full (drop (Z.to_nat i) (take (Z.to_nat cap) ctrl)).

Lemma iter_loop_spec ctrl (slots : list (option (K * option V))) cap n i :
  table_ok ctrl slots cap → 0 ≤ i → i + Z.of_nat n = cap →
  ∃ r e, iter_loop n ctrl slots i = Some (r, e) ∧
    match r with
    | None => e = cap ∧ (∀ j k v, i ≤ j → ¬ entry ctrl slots cap j k v) ∧ full_from ctrl cap i = 0
    | Some (k, v) => i < e ≤ cap ∧ entry ctrl slots cap (e - 1) k v ∧
        (∀ j k v, i ≤ j < e - 1 → ¬ entry ctrl slots cap j k v) ∧ full_from ctrl cap i = 1 + full_from ctrl cap e
    end.
Proof.
  intros Ht. pose proof (tb_ctrl _ _ _ Ht) as Hz. unfold BEBOP_MAP_GROUP_SIZE, zlen in Hz.
  revert i. induction n as [|n IH]; intros i Hi Hn; cbn [iter_loop].
  - exists None, i. split; [done|]. split; [lia|]. split; [intros j k v Hj [Hj' _]; lia|].
    unfold full_from. rewrite drop_ge; [done|]. rewrite length_take. lia.
  - destruct (lookup_lt_is_Some_2 ctrl (Z.to_nat i)) as [c Ec]; [lia|]. rewrite (load_lookup ctrl i c) by done.
    cbn [mbind option_bind].
    assert (Hd : full_from ctrl cap i = one is_full c + full_from ctrl cap (i + 1)).
    { unfold full_from. rewrite (drop_S _ c (Z.to_nat i)) by (by rewrite lookup_take_lt by lia).
      rewrite count_cons. do 3 f_equal. lia. }
    unfold one in Hd. destruct (CTRL_IS_FULL c) eqn:Ef; unfold CTRL_IS_FULL in Ef.
    + rewrite decide_True in Hd by (unfold is_full; lia).
      destruct (tb_full _ _ _ Ht i c ltac:(lia) Ec ltac:(lia)) as (k&v&h&Es&_).
      rewrite (proj2 (load_slot_lookup slots i (k, v) Hi) Es). cbn [mbind option_bind]. exists (Some (k, v)), (i + 1).
      split; [done|]. split; [lia|]. replace (i + 1 - 1) with i by lia. split; [|split; [lia|done]].
      split; [lia|]. split; [exists c; split; [done|lia]|done].
    + rewrite decide_False in Hd by (unfold is_full; lia). assert (Hno : ∀ k v, ¬ entry ctrl slots cap i k v).
      { intros k v (_&(c'&Ec'&Hc')&_). simplify_eq. lia. }
      destruct (IH (i + 1)) as (r&e&E&Hr); [lia|lia|]. exists r, e. split; [done|]. destruct r as [[k v]|].
      * destruct Hr as (He&Hen&Hb&Hc). split; [lia|]. split; [done|]. split; [|lia].
        intros j k' v' Hj. destruct (Z.eq_dec j i) as [->|]; [done|]. apply Hb. lia.
      * destruct Hr as (He&Hb&Hc). split; [done|]. split; [|lia]. intros j k' v' Hj.
        destruct (Z.eq_dec j i) as [->|]; [done|]. apply Hb. lia.
Qed.

Lemma iterate_spec s m ctrl fuel i :
  mp_ctrl m = Some ctrl → table_ok ctrl (mp_slots m) (mp_capacity m) → 0 ≤ i ≤ mp_capacity m →
  mp_capacity m - i < Z.of_nat fuel →
  ∃ l, iterate fuel i (s, m) = Some (l, (s, m)) ∧ NoDup l.*1 ∧ zlen l = full_from ctrl (mp_capacity m) i ∧
    ∀ k v, (k, v) ∈ l ↔ ∃ j, i ≤ j ∧ entry ctrl (mp_slots m) (mp_capacity m) j k v.
Proof.
  intros Ec Ht. revert i. induction fuel as [|fuel IH]; intros i Hi Hf; [lia|]. cbn [iterate].
  destruct (iter_loop_spec ctrl (mp_slots m) (mp_capacity m) (Z.to_nat (mp_capacity m - i)) i Ht) as (r&e&E&Hr); [lia|lia|].
  assert (En : bebop_map_iter_next PTR PTR i (s, m) = Some ((r, e), (s, m))).
  { unfold bebop_map_iter_next. cbn [is_null orb]. unfold mbind, C_bind, get_map, gets, lift. cbn [snd]. by rewrite Ec, E. }
  unfold mbind at 1, C_bind at 1. rewrite En. destruct r as [[k v]|].
  - destruct Hr as (He&Hen&Hb&Hc). destruct (IH e) as (l&El&Hnd&Hl&Hin); [lia|lia|].
    unfold mbind, C_bind. rewrite El. exists ((k, v) :: l). split; [done|]. split; [|split].
    + cbn. apply NoDup_cons. split; [|done]. intros ([k' w]&Ek&Hw)%list_elem_of_fmap. cbn in Ek. subst k'.
      apply Hin in Hw as (j&Hj&Hej). pose proof (tb_unique _ _ _ Ht _ _ _ _ _ Hen Hej). lia.
    + rewrite zlen_cons. lia.
    + intros k' v'. rewrite elem_of_cons, Hin. split.
      * intros [[= -> ->]|(j&Hj&Hej)]; [exists (e - 1); split; [lia|done]|exists j; split; [lia|done]].
      * intros (j&Hj&Hej). destruct (Z.ltb_spec j (e - 1)); [exfalso; by eapply (Hb j)|].
        destruct (Z.eq_dec j (e - 1)) as [->|]; [|right; exists j; split; [lia|done]].
        left. destruct Hej as (_&_&E1), Hen as (_&_&E2). congruence.
  - destruct Hr as (->&Hb&Hc). exists []. split; [done|]. split; [by apply NoDup_nil|]. split; [rewrite Hc; done|].
    intros k v. split; [by intros ?%not_elem_of_nil|]. intros (j&Hj&Hej). exfalso. by eapply Hb.
Qed.

Lemma iterate_all_spec s m :
  map_ok m →
  ∃ l, iterate_all (s, m) = Some (l, (s, m)) ∧ NoDup l.*1 ∧ zlen l = mp_length m ∧ ∀ k v, (k, v) ∈ l ↔ holds m k v.
Proof.
  intros Hm. unfold iterate_all, mbind at 1, C_bind at 1, get_map at 1, gets at 1. cbn [snd]. unfold map_ok in Hm.
  unfold bebop_map_iter_init. destruct (mp_ctrl m) as [ctrl|] eqn:Ec.
  - destruct Hm as (Ht&El&_). destruct (cap_range _ (tb_cap _ _ _ Ht)).
    destruct (iterate_spec s m ctrl (S (Z.to_nat (mp_capacity m))) 0 Ec Ht) as (l&E&Hn&Hl&Hin); [lia|lia|].
    exists l. split; [done|]. split; [done|]. split; [rewrite Hl, El; by unfold full_from; rewrite drop_0|].
    intros k v. rewrite Hin. split.
    + intros (j&_&He). by exists ctrl, j.
    + intros (c&j&Ec'&He). rewrite Ec in Ec'. simplify_eq. exists j. split; [apply He|done].
  - exists []. cbn [iterate]. unfold mbind at 1, C_bind at 1. unfold bebop_map_iter_next. cbn [is_null orb].
    unfold mbind at 1, C_bind at 1, get_map at 1, gets at 1. cbn [snd]. rewrite Ec.
    split; [done|]. split; [by apply NoDup_nil|]. split; [destruct Hm as (_&->&_); done|].
    intros k v. split; [by intros ?%not_elem_of_nil|]. intros (c&j&Ec'&_). congruence.
Qed.

(** ** The abstract map *)

(** An abstract map: which value each key has. *)
Abbreviation amap := (K → option V → Prop).

Inductive map_op : Type :=
  | OpSet (key : K) (value : option V)
  | OpGet (key : K)
  | OpRemove (key : K)
  | OpClear
  | OpIterate.

Inductive map_out : Type :=
  | OutBool (b : bool)
  | OutValue (v : option V)
  | OutVoid
  | OutPairs (l : list (K * option V)).

Definition run_op (op : map_op) : C MS map_out :=
  match op with
  | OpSet k v => b ← bebop_map_set PTR k v; mret (OutBool b)
  | OpGet k => v ← bebop_map_get PTR k; mret (OutValue v)
  | OpRemove k => b ← bebop_map_remove PTR k; mret (OutBool b)
  | OpClear => bebop_map_clear PTR;; mret OutVoid
  | OpIterate => l ← iterate_all; mret (OutPairs l)
  end.

Fixpoint run_ops (ops : list map_op) : C MS (list map_out) :=
  match ops with
  | [] => mret []
  | op :: ops => out ← run_op op; outs ← run_ops ops; mret (out :: outs)
  end.

Definition same (f f' : amap) : Prop := ∀ k v, f' k v ↔ f k v.

(** What each operation may answer, and how it changes the abstract map. *)
Inductive map_step (f : amap) : map_op → map_out → amap → Prop :=
  | StepSet k v f' : (∀ k' v', f' k' v' ↔ k' = k ∧ v' = v ∨ k' ≠ k ∧ f k' v') → map_step f (OpSet k v) (OutBool true) f'
  | StepSetFail k v f' : (∀ k' v', f' k' v' → f k' v') → map_step f (OpSet k v) (OutBool false) f'
  | StepGet k v f' : f k v → same f f' → map_step f (OpGet k) (OutValue v) f'
  | StepGetNone k f' : (∀ v, ¬ f k v) → same f f' → map_step f (OpGet k) (OutValue None) f'
  | StepRemove k v f' : f k v → (∀ k' v', f' k' v' ↔ k' ≠ k ∧ f k' v') → map_step f (OpRemove k) (OutBool true) f'
  | StepRemoveNone k f' : (∀ v, ¬ f k v) → same f f' → map_step f (OpRemove k) (OutBool false) f'
  | StepClear f' : (∀ k v, ¬ f' k v) → map_step f OpClear OutVoid f'
  | StepIterate l f' : NoDup l.*1 → (∀ k v, (k, v) ∈ l ↔ f k v) → same f f' → map_step f OpIterate (OutPairs l) f'.

Inductive map_steps : amap → list map_op → list map_out → Prop :=
  | StepsNil f : map_steps f [] []
  | StepsCons f f' op out ops outs :
      map_step f op out f' → map_steps f' ops outs → map_steps f (op :: ops) (out :: outs).

Definition op_key_ok (op : map_op) : Prop :=
  match op with OpSet k _ | OpGet k | OpRemove k => key_ok k | OpClear | OpIterate => True end.

Lemma map_step_ext f g op out f' : (∀ k v, f k v ↔ g k v) → map_step f op out f' → map_step g op out f'.
Proof.
  intros Hfg Hst. destruct Hst as [k v f' Hf|k v f' Hf|k v f' Hv Hs|k f' Hv Hs|k v f' Hv Hf|k f' Hv Hs|f' Hf|l f' Hn Hl Hs].
  - constructor. intros k' v'. by rewrite Hf, Hfg.
  - constructor. intros k' v' Hv%Hf. by apply Hfg.
  - constructor; [by apply Hfg|]. intros k' v'. by rewrite (Hs k' v').
  - constructor; [intros v; by rewrite <- Hfg|]. intros k' v'. by rewrite (Hs k' v').
  - econstructor; [by apply Hfg|]. intros k' v'. by rewrite Hf, Hfg.
  - constructor; [intros v; by rewrite <- Hfg|]. intros k' v'. by rewrite (Hs k' v').
  - by constructor.
  - constructor; [done|intros k v; by rewrite Hl, Hfg|]. intros k' v'. by rewrite (Hs k' v').
Qed.

Lemma map_steps_ext f g ops outs : (∀ k v, f k v ↔ g k v) → map_steps f ops outs → map_steps g ops outs.
Proof. intros Hfg Hst. destruct Hst; econstructor; [by eapply map_step_ext|done]. Qed.

Context (host_le : HOST_LE = true).

Lemma run_op_spec s m op :
  state_ok s m → op_key_ok op →
  ∃ out s' m', run_op op (s, m) = Some (out, (s', m')) ∧ state_ok s' m' ∧ map_step (holds m) op out (holds m').
Proof.
  intros Hs Hk. unfold run_op, mbind, C_bind. destruct op as [k v|k|k| |]; cbn in Hk.
  - destruct (map_set_spec host_le s m k v Hs Hk) as (b&s'&m'&->&Hs'&Hb&_). eexists _, _, _. split; [reflexivity|].
    split; [done|]. destruct b; by constructor.
  - destruct (map_get_spec host_le s m k (proj1 Hs) Hk) as (r&->&Hr). eexists _, _, _. split; [reflexivity|].
    split; [done|]. destruct Hr as [Hr|[-> Hr]]; constructor; done.
  - destruct (map_remove_spec host_le s m k Hs Hk) as (b&m'&->&Hs'&Hb). eexists _, _, _. split; [reflexivity|].
    split; [done|]. destruct b; [destruct Hb as [[v ?] ?]; by econstructor|destruct Hb as [-> ?]; by constructor].
  - destruct (map_clear_spec s m Hs) as (m'&->&Hs'&_&Hb). eexists _, _, _. split; [reflexivity|].
    split; [done|]. by constructor.
  - destruct (iterate_all_spec s m (proj1 Hs)) as (l&->&Hn&_&Hin). eexists _, _, _. split; [reflexivity|].
    split; [done|]. by constructor.
Qed.

Lemma run_ops_spec s m ops :
  state_ok s m → Forall op_key_ok ops →
  ∃ outs s' m', run_ops ops (s, m) = Some (outs, (s', m')) ∧ state_ok s' m' ∧ map_steps (holds m) ops outs.
Proof.
  intros Hs Hk. revert s m Hs. induction Hk as [|op ops Ho Hk IH]; intros s m Hs.
  - exists [], s, m. split; [done|]. split; [done|]. constructor.
  - destruct (run_op_spec s m op Hs Ho) as (out&s1&m1&E1&Hs1&Hst). destruct (IH s1 m1 Hs1) as (outs&s2&m2&E2&Hs2&Hsts).
    exists (out :: outs), s2, m2. cbn [run_ops]. unfold mbind, C_bind. rewrite E1, E2. split; [done|]. split; [done|].
    by econstructor.
Qed.
End Spec.

(** ** Properties *)

Section Properties.
Context `{Platform} `{HostAllocatorOk} {K V : Type} `{MapKeyOk K}.

Lemma init_state_ok s context : context_fits s → state_ok s (bebop_map_init (K := K) (V := V) context).
Proof. intros Hs. split; [done|]. by intros _. Qed.

Lemma init_holds context k v : ¬ holds (bebop_map_init (K := K) (V := V) context) k v.
Proof. intros (ctrl&i&E&_). done. Qed.

(** C7: the hash map refines an abstract map.  From an empty map on a little-endian
    host, every sequence of insertions, lookups, removals, clears and iterations is
    free of undefined behaviour, whatever storage the context can give, and each
    answer is one the abstract map allows: a lookup returns the value of the key or
    NULL, an insertion that returns true changes exactly its key, a removal reports
    whether the key was there, an iteration lists every pair once.  An insertion that
    returns false adds nothing. *)
Theorem map_refines_spec s ops :
  HOST_LE = true → context_fits s → Forall op_key_ok ops →
  ∃ outs s' m', run_ops (V := V) ops (s, bebop_map_init PTR) = Some (outs, (s', m')) ∧
    map_steps (λ _ _, False) ops outs.
Proof.
  intros Hle Hs Hk. destruct (run_ops_spec Hle s (bebop_map_init PTR) ops (init_state_ok s PTR Hs) Hk) as (outs&s'&m'&E&_&Hst).
  exists outs, s', m'. split; [done|]. apply (map_steps_ext (holds (bebop_map_init PTR))); [|done].
  intros k v. split; [by intros ?%init_holds|done].
Qed.

(** Insertion.  On a good map it is defined and keeps the map good; true means that
    the key now has the value and every other key what it had, even when the table grew;
    false from a table with room left means that nothing changed, and false after a
    failed growth that no pair was added. *)
Theorem map_set_correct s m (k : K) (v : option V) :
  HOST_LE = true → state_ok s m → key_ok k →
  ∃ b s' m', bebop_map_set PTR k v (s, m) = Some (b, (s', m')) ∧ state_ok s' m' ∧
    (if b then ∀ k' v', holds m' k' v' ↔ k' = k ∧ v' = v ∨ k' ≠ k ∧ holds m k' v'
     else (∀ k' v', holds m' k' v' → holds m k' v') ∧ (mp_growth_left m ≠ 0 → m' = m)).
Proof.
  intros Hle Hs Hk. destruct (map_set_spec Hle s m k v Hs Hk) as (b&s'&m'&E&Hs'&Hb&Hg). exists b, s', m'.
  split; [done|]. split; [done|]. destruct b; [exact Hb|]. split; [exact Hb|]. intros Hne. by apply Hg.
Qed.

(** An iteration over a good map ends, visits each pair the map holds once and
    nothing else, and [length] is the number of pairs it visits. *)
Theorem map_iteration_complete s m :
  map_ok m →
  ∃ l, iterate_all (K := K) (V := V) (s, m) = Some (l, (s, m)) ∧ NoDup l.*1 ∧ zlen l = mp_length m ∧
    ∀ k v, (k, v) ∈ l ↔ holds m k v.
Proof. apply iterate_all_spec. Qed.
End Properties.

(** ** Concrete maps *)

#[local] Existing Instance default_platform.
#[local] Existing Instance bump_allocator.
(** Maps with keys of type [int32_t]. *)
Abbreviation K32 := (key_type BEBOP_MAP_KEY_I32).

Lemma host_le_default : @HOST_LE default_platform = true.
Proof. reflexivity. Qed.

Definition demo_ops : list (@map_op K32 Z) :=
  [OpSet 5 (Some 50); OpSet 6 None; OpSet 5 (Some 51); OpRemove 6; OpGet 5; OpGet 6; OpIterate].

Lemma demo_context_fits : context_fits (demo_h, demo_cx).
Proof. split; [exists ∅; exact demo_context_ok|]. vm_compute. discriminate. Qed.

Lemma demo_ops_ok : Forall op_key_ok demo_ops.
Proof. repeat constructor; cbn; lia. Qed.

Definition demo_map : Bebop_Map K32 Z :=
  match run_ops demo_ops ((demo_h, demo_cx), bebop_map_init PTR) with
  | Some (_, (_, m)) => m
  | None => bebop_map_init PTR
  end.

Lemma demo_map_ok : ∃ s, state_ok (K := K32) s demo_map.
Proof.
  destruct (run_ops_spec (K := K32) (V := Z) host_le_default (demo_h, demo_cx) (bebop_map_init PTR) demo_ops
    (init_state_ok _ PTR demo_context_fits) demo_ops_ok) as (outs&s'&m'&E&Hs&_).
  exists s'. unfold demo_map. rewrite E. exact Hs.
Qed.

Lemma map_refines_witness :
  HOST_LE = true ∧ context_fits (demo_h, demo_cx) ∧ Forall op_key_ok demo_ops ∧
  ∃ outs s' m', run_ops demo_ops ((demo_h, demo_cx), bebop_map_init PTR) = Some (outs, (s', m')) ∧
    outs = [OutBool true; OutBool true; OutBool true; OutBool true; OutValue (Some 51); OutValue None; OutPairs [(5, Some 51)]] ∧
    map_steps (λ _ _, False) demo_ops outs.
Proof.
  split; [reflexivity|]. split; [exact demo_context_fits|]. split; [exact demo_ops_ok|].
  destruct (map_refines_spec (K := K32) (V := Z) (demo_h, demo_cx) demo_ops host_le_default demo_context_fits demo_ops_ok)
    as (outs&s'&m'&E&Hst).
  exists outs, s', m'. split; [exact E|]. split; [|exact Hst]. vm_compute in E. congruence.
Defined.

Lemma map_set_witness :
  ∃ s, HOST_LE = true ∧ state_ok (K := K32) s demo_map ∧ key_ok (K := K32) 9 ∧
  ∃ b s' m', bebop_map_set (K := K32) PTR 9 (Some 90) (s, demo_map) = Some (b, (s', m')) ∧ state_ok s' m' ∧
    (if b then ∀ k' v', holds m' k' v' ↔ k' = 9 ∧ v' = Some 90 ∨ k' ≠ 9 ∧ holds demo_map k' v'
     else (∀ k' v', holds m' k' v' → holds demo_map k' v') ∧ (mp_growth_left demo_map ≠ 0 → m' = demo_map)).
Proof.
  destruct demo_map_ok as [s Hs]. exists s. split; [reflexivity|]. split; [exact Hs|]. split; [cbn; lia|].
  apply (map_set_correct (K := K32) s demo_map 9 (Some 90)); [reflexivity|exact Hs|cbn; lia].
Defined.

Lemma map_iteration_witness :
  map_ok (K := K32) demo_map ∧
  ∃ l, iterate_all (K := K32) ((demo_h, demo_cx), demo_map) = Some (l, ((demo_h, demo_cx), demo_map)) ∧
    NoDup l.*1 ∧ zlen l = mp_length demo_map ∧ ∀ k v, (k, v) ∈ l ↔ holds demo_map k v.
Proof.
  destruct demo_map_ok as [s Hs]. split; [exact (proj1 Hs)|].
  apply (map_iteration_complete (K := K32) (demo_h, demo_cx) demo_map). exact (proj1 Hs).
Defined.

(** The insertions of [keys], each with NULL. *)
Definition set_all (keys : list K32) : list (@map_op K32 Z) := map (λ k, OpSet k None) keys.

(** An insertion can fail although the table has room and storage is plentiful:
    after eight of these keys the map of capacity 16 may still take six, but the four
    probes for the ninth key all read the same full group, and the call returns
    false. *)
Theorem map_set_fails_with_room :
  ∃ s m, run_ops (set_all (seqZ 106000 8)) ((demo_h, demo_cx), bebop_map_init PTR) = Some (replicate 8 (OutBool true), (s, m)) ∧
    mp_length m = 8 ∧ mp_capacity m = 16 ∧ mp_growth_left m = 6 ∧
    bebop_map_set PTR (106008 : K32) None (s, m) = Some (false, (s, m)).
Proof.
  destruct (run_ops (set_all (seqZ 106000 8)) ((demo_h, demo_cx), bebop_map_init PTR)) as [[outs [s m]]|] eqn:E;
    vm_compute in E; [|discriminate].
  injection E as <- <- <-. eexists _, _. split; [vm_compute; reflexivity|]. repeat (split; [reflexivity|]).
  vm_compute. reflexivity.
Qed.

(** On a big-endian host the control bytes load into the word in reverse order, and a
    lookup of the only key reads a slot that was never written. *)
Lemma map_undefined_on_big_endian :
  @run_ops big_endian_platform bump_allocator K32 Z (@kind_key big_endian_platform BEBOP_MAP_KEY_I32)
    [OpSet 5 (Some 50); OpGet 5] ((demo_h, demo_cx), bebop_map_init PTR) = None.
Proof. vm_compute. reflexivity. Qed.
