(* ===== verification/Unicode.v ===== *)
(** The UTF-8 coder and the escape sequences of the schema compiler
    ([bebop/src/bebop_utils.c], with the character classes of [bebop/src/bebop.c]).
    A character is the value of its byte, 0 to 255; the classes only accept ASCII, so
    the signedness of [char] does not matter. *)
From S2P Require Import Prelude.

(** ** Character classes *)

Definition BEBOP_IS_DIGIT (c : Z) : bool := (48 <=? c) && (c <=? 57).
Definition BEBOP_HEX_VALUE (c : Z) : Z :=
  if (48 <=? c) && (c <=? 57) then c - 48
  else if (65 <=? c) && (c <=? 70) then c - 65 + 10
  else if (97 <=? c) && (c <=? 102) then c - 97 + 10
  else -1.
Definition BEBOP_IS_ALPHA (c : Z) : bool := ((65 <=? c) && (c <=? 90)) || ((97 <=? c) && (c <=? 122)).
Definition BEBOP_IS_IDENT_START (c : Z) : bool := BEBOP_IS_ALPHA c || (c =? 95).
Definition BEBOP_IS_IDENT_CHAR (c : Z) : bool := BEBOP_IS_IDENT_START c || BEBOP_IS_DIGIT c.
Definition BEBOP_TOLOWER (c : Z) : Z := if (65 <=? c) && (c <=? 90) then c + 32 else c.
Definition BEBOP_IS_WHITESPACE (c : Z) : bool := (c =? 32) || (c =? 9).
Definition BEBOP_IS_NEWLINE (c : Z) : bool := (c =? 10) || (c =? 13).

(** ** UTF-8 *)

Definition BEBOP_CP_INVALID : Z := -1.

Definition bebop_utf8_width_table : list Z :=
  [1; 1; 1; 1; 1; 1; 1; 1; 1; 1; 1; 1; 1; 1; 1; 1; 0; 0; 0; 0; 0; 0; 0; 0; 2; 2; 2; 2; 3; 3; 4; 0].

(** [(b & 0xC0) != 0x80] *)
Definition not_continuation (b : Z) : bool := negb (Z.land b 0xC0 =? 0x80).

(** The width, 0 for an error, and the code point stored in [*cp]. *)
Definition bebop_utf8_decode (mem : list Z) (s len : Z) : option (Z * Z) :=
  if len =? 0 then Some (0, BEBOP_CP_INVALID)
  else
    a ← load mem s;
    if a <? 0x80 then Some (1, a)
    else
      width ← load bebop_utf8_width_table (Z.shiftr a 3);
      if (width =? 0) || (len <? width) then Some (0, BEBOP_CP_INVALID)
      else if width =? 2 then
        b ← load mem (s + 1);
        if not_continuation b then Some (0, BEBOP_CP_INVALID)
        else
          let code := Z.lor (Z.shiftl (Z.land a 0x1F) 6) (Z.land b 0x3F) in
          if code <? 0x80 then Some (0, BEBOP_CP_INVALID) else Some (width, code)
      else if width =? 3 then
        b ← load mem (s + 1); c ← load mem (s + 2);
        if not_continuation b || not_continuation c then Some (0, BEBOP_CP_INVALID)
        else
          let code := Z.lor (Z.lor (Z.shiftl (Z.land a 0x0F) 12) (Z.shiftl (Z.land b 0x3F) 6)) (Z.land c 0x3F) in
          if code <? 0x800 then Some (0, BEBOP_CP_INVALID)
          else if (0xD800 <=? code) && (code <=? 0xDFFF) then Some (0, BEBOP_CP_INVALID)
          else Some (width, code)
      else
        b ← load mem (s + 1); c ← load mem (s + 2); d ← load mem (s + 3);
        if not_continuation b || not_continuation c || not_continuation d then Some (0, BEBOP_CP_INVALID)
        else
          let code := Z.lor (Z.lor (Z.lor (Z.shiftl (Z.land a 0x07) 18) (Z.shiftl (Z.land b 0x3F) 12))
                                   (Z.shiftl (Z.land c 0x3F) 6)) (Z.land d 0x3F) in
          if (code <? 0x10000) || (0x10FFFF <? code) then Some (0, BEBOP_CP_INVALID)
          else Some (width, code).

(** The bytes stored at [dst]; none for an error. *)
Definition bebop_utf8_encode (cp : Z) : list Z :=
  if (cp <? 0) || ((0xD800 <=? cp) && (cp <=? 0xDFFF)) || (0x10FFFF <? cp) then []
  else if cp <? 0x80 then [cp]
  else if cp <? 0x800 then [u8 (Z.lor (Z.shiftr cp 6) 0xC0); u8 (Z.lor (Z.land cp 0x3F) 0x80)]
  else if cp <? 0x10000 then
    [u8 (Z.lor (Z.shiftr cp 12) 0xE0); u8 (Z.lor (Z.land (Z.shiftr cp 6) 0x3F) 0x80);
     u8 (Z.lor (Z.land cp 0x3F) 0x80)]
  else
    [u8 (Z.lor (Z.shiftr cp 18) 0xF0); u8 (Z.lor (Z.land (Z.shiftr cp 12) 0x3F) 0x80);
     u8 (Z.lor (Z.land (Z.shiftr cp 6) 0x3F) 0x80); u8 (Z.lor (Z.land cp 0x3F) 0x80)].

(** The loop of [bebop_utf8_valid]; [fuel] bounds the bytes left. *)
Fixpoint utf8_valid_loop (fuel : nat) (mem : list Z) (s len pos : Z) : option bool :=
  if pos <? len then
    match fuel with
    | O => None
    | S fuel =>
        '(consumed, cp) ← bebop_utf8_decode mem (s + pos) (len - pos);
        if (consumed <=? 0) || (cp =? BEBOP_CP_INVALID) then Some false
        else utf8_valid_loop fuel mem s len (pos + consumed)
    end
  else Some true.

Definition bebop_utf8_valid (mem : list Z) (s len : Z) : option bool :=
  utf8_valid_loop (Z.to_nat len) mem s len 0.

(** ** Escape sequences *)

(** The loop over the digits of [\u{...}]: the position, the code point (modulo
    [2^32]) and the number of digits, or a refusal. *)
Fixpoint unescape_digits (fuel : nat) (mem : list Z) (s len pos codepoint digits : Z) : option (option (Z * Z * Z)) :=
  if pos <? len then
    c ← load mem (s + pos);
    if c =? 125 then Some (Some (pos, codepoint, digits))
    else match fuel with
    | O => None
    | S fuel =>
        let val := BEBOP_HEX_VALUE c in
        if val <? 0 then Some None
        else
          let codepoint := Z.lor (u32 (Z.shiftl codepoint 4)) val in
          if 6 <? digits + 1 then Some None
          else unescape_digits fuel mem s len (pos + 1) codepoint (digits + 1)
    end
  else Some (Some (pos, codepoint, digits)).

(** The number of bytes consumed, 0 for a refusal, and the bytes stored in [out]. *)
Definition bebop_unescape_char (mem : list Z) (s len : Z) : option (Z * list Z) :=
  if len =? 0 then Some (0, [])
  else
    c ← load mem s;
    if c =? 92 then Some (1, [92])
    else if c =? 110 then Some (1, [10])
    else if c =? 114 then Some (1, [13])
    else if c =? 116 then Some (1, [9])
    else if c =? 48 then Some (1, [0])
    else if c =? 34 then Some (1, [34])
    else if c =? 39 then Some (1, [39])
    else if c =? 120 then
      if len <? 3 then Some (0, [])
      else
        h ← load mem (s + 1); l ← load mem (s + 2);
        let hi := BEBOP_HEX_VALUE h in let lo := BEBOP_HEX_VALUE l in
        if (hi <? 0) || (lo <? 0) then Some (0, [])
        else Some (3, [u8 (Z.lor (Z.shiftl hi 4) lo)])
    else if c =? 117 then
      b ← (if len <? 3 then Some 0 else load mem (s + 1));
      if negb (b =? 123) then Some (0, [])
      else
        r ← unescape_digits 8 mem s len 2 0 0;
        match r with
        | None => Some (0, [])
        | Some (pos, codepoint, digits) =>
            e ← (if len <=? pos then Some 0 else load mem (s + pos));
            if (len <=? pos) || negb (e =? 125) || (digits =? 0) then Some (0, [])
            else
              let out := bebop_utf8_encode codepoint in
              if zlen out =? 0 then Some (0, []) else Some (pos + 1, out)
        end
    else Some (0, []).

(** ** The encoding *)

(** Unicode scalar values. *)
Definition scalar (cp : Z) : Prop := 0 ≤ cp < 0xD800 ∨ 0xE000 ≤ cp ≤ 0x10FFFF.

Definition lead_width (a : Z) : Z :=
  if a <? 128 then 1 else if a <? 192 then 0 else if a <? 224 then 2 else if a <? 240 then 3 else if a <? 248 then 4 else 0.

Lemma width_table a : byte_ok a → load bebop_utf8_width_table (Z.shiftr a 3) = Some (lead_width a).
Proof.
  intros Ha. apply (byte_forall (λ a, match load bebop_utf8_width_table (Z.shiftr a 3) with
    | Some w => w =? lead_width a | None => false end)) in Ha; [|vm_compute; reflexivity].
  destruct (load _ _); [|done]. by apply Z.eqb_eq in Ha as ->.
Qed.

Lemma not_continuation_spec b : byte_ok b → not_continuation b = negb ((128 <=? b) && (b <? 192)).
Proof.
  intros Hb. apply (byte_forall (λ b, Bool.eqb (not_continuation b) (negb ((128 <=? b) && (b <? 192))))) in Hb;
    [|vm_compute; reflexivity]. by apply Bool.eqb_prop in Hb.
Qed.

Lemma land_mask x n m : 0 ≤ n → m = 2 ^ n - 1 → Z.land x m = x mod 2 ^ n.
Proof. intros Hn ->. rewrite Z.sub_1_r, <- Z.ones_equiv. by apply Z.land_ones. Qed.

(** Disjoint bits add up. *)
Lemma lor_high x y n : 0 ≤ n → 0 ≤ y < 2 ^ n → x mod 2 ^ n = 0 → Z.lor y x = x + y.
Proof. intros Hn Hy Hx. rewrite Z.lor_comm. by apply (lor_add x y n). Qed.

Lemma u8_id z : 0 ≤ z < 256 → u8 z = z.
Proof. intros Hz. apply u8_small. lia. Qed.

Lemma cont_byte x : u8 (Z.lor (Z.land x 0x3F) 0x80) = 128 + x mod 64.
Proof.
  rewrite (land_mask x 6 0x3F) by (done || lia). pose proof (Z.mod_pos_bound x (2 ^ 6) ltac:(lia)) as Hx.
  rewrite (lor_high 0x80 _ 6) by (done || lia). change (2 ^ 6) with 64 in *. apply u8_id. lia.
Qed.

Lemma lead_byte x y n : 0 ≤ n ≤ 5 → 0 ≤ x < 2 ^ n → y mod 2 ^ n = 0 → 0 ≤ y < 256 - 2 ^ n → u8 (Z.lor x y) = y + x.
Proof. intros Hn Hx Hm Hy. rewrite (lor_high y x n) by (done || lia). apply u8_id. lia. Qed.

Lemma utf8_encode_eq cp : scalar cp →
  bebop_utf8_encode cp =
    if cp <? 0x80 then [cp]
    else if cp <? 0x800 then [192 + cp / 64; 128 + cp mod 64]
    else if cp <? 0x10000 then [224 + cp / 4096; 128 + (cp / 64) mod 64; 128 + cp mod 64]
    else [240 + cp / 262144; 128 + (cp / 4096) mod 64; 128 + (cp / 64) mod 64; 128 + cp mod 64].
Proof.
  intros Hs. unfold bebop_utf8_encode. replace (_ || _ || _) with false by (unfold scalar in Hs; symmetry; zbool; lia).
  rewrite !cont_byte, !Z.shiftr_div_pow2 by lia. pow_consts.
  destruct (Z.ltb_spec cp 0x80); [done|]. destruct (Z.ltb_spec cp 0x800).
  { rewrite (lead_byte (cp / 64) 0xC0 5) by (done || dlia). done. }
  destruct (Z.ltb_spec cp 0x10000).
  { rewrite (lead_byte (cp / 4096) 0xE0 4) by (done || dlia). done. }
  rewrite (lead_byte (cp / 262144) 0xF0 3) by (unfold scalar in Hs; done || dlia). done.
Qed.

(** ** The decoder *)

Lemma code2 a b : Z.lor (Z.shiftl (Z.land a 0x1F) 6) (Z.land b 0x3F) = 64 * (a mod 32) + b mod 64.
Proof.
  rewrite (land_mask a 5 0x1F), (land_mask b 6 0x3F), Z.shiftl_mul_pow2 by (done || lia). pow_consts.
  rewrite (lor_add' _ _ 64 6) by (done || dlia). lia.
Qed.

Lemma code3 a b c :
  Z.lor (Z.lor (Z.shiftl (Z.land a 0x0F) 12) (Z.shiftl (Z.land b 0x3F) 6)) (Z.land c 0x3F) =
  4096 * (a mod 16) + 64 * (b mod 64) + c mod 64.
Proof.
  rewrite (land_mask a 4 0x0F), (land_mask b 6 0x3F), (land_mask c 6 0x3F), !Z.shiftl_mul_pow2 by (done || lia). pow_consts.
  rewrite (lor_add' (a mod 16 * 4096) _ 4096 12) by (done || dlia). rewrite (lor_add' _ _ 64 6) by (done || dlia). lia.
Qed.

Lemma code4 a b c d :
  Z.lor (Z.lor (Z.lor (Z.shiftl (Z.land a 0x07) 18) (Z.shiftl (Z.land b 0x3F) 12)) (Z.shiftl (Z.land c 0x3F) 6)) (Z.land d 0x3F) =
  262144 * (a mod 8) + 4096 * (b mod 64) + 64 * (c mod 64) + d mod 64.
Proof.
  rewrite (land_mask a 3 0x07), (land_mask b 6 0x3F), (land_mask c 6 0x3F), (land_mask d 6 0x3F), !Z.shiftl_mul_pow2
    by (done || lia). pow_consts.
  rewrite (lor_add' (a mod 8 * 262144) _ 262144 18) by (done || dlia).
  rewrite (lor_add' (_ + _) (_ * 64) 4096 12) by (done || dlia). rewrite (lor_add' _ _ 64 6) by (done || dlia). lia.
Qed.

(** The bytes of an object from an offset on. *)
Lemma load_bytes_loads mem s n l i b :
  load_bytes mem s n = Some l → l !! i = Some b → load mem (s + Z.of_nat i) = Some b.
Proof.
  intros (Hs&Hn&Hl&->)%load_bytes_Some Hi. apply load_Some. split; [lia|].
  rewrite lookup_take in Hi. case_decide as Hlt; [|done]. rewrite lookup_drop in Hi.
  by replace (Z.to_nat (s + Z.of_nat i)) with (Z.to_nat s + i)%nat by lia.
Qed.

Lemma load_bytes_of_loads mem s l :
  0 ≤ s → (∀ i b, l !! i = Some b → load mem (s + Z.of_nat i) = Some b) → s + zlen l ≤ zlen mem →
  load_bytes mem s (zlen l) = Some l.
Proof.
  intros Hs Hl Hz. apply load_bytes_Some. split; [done|]. split; [apply zlen_nonneg|]. split; [done|].
  unfold zlen in *. rewrite Nat2Z.id. apply list_eq. intros i. destruct (decide (i < length l)%nat) as [Hi|Hi].
  - destruct (lookup_lt_is_Some_2 l i Hi) as [b Hb]. rewrite Hb. rewrite lookup_take_lt, lookup_drop by done.
    specialize (Hl i b Hb). apply load_Some in Hl as [_ Hl]. rewrite <- Hl. f_equal. lia.
  - rewrite !lookup_ge_None_2; [done| |lia]. rewrite length_take. lia.
Qed.

(** Resolves the comparisons of a goal whose outcome arithmetic decides. *)
Ltac ztest :=
  repeat match goal with
  | |- context [?a <? ?b] =>
      first [ rewrite (proj2 (Z.ltb_lt a b)) by dlia | rewrite (proj2 (Z.ltb_ge a b)) by dlia ]
  | |- context [?a <=? ?b] =>
      first [ rewrite (proj2 (Z.leb_le a b)) by dlia | rewrite (proj2 (Z.leb_gt a b)) by dlia ]
  | |- context [?a =? ?b] =>
      first [ rewrite (proj2 (Z.eqb_eq a b)) by dlia | rewrite (proj2 (Z.eqb_neq a b)) by dlia ]
  end; cbn [andb orb negb].

(** The decoder takes what the encoder writes. *)
Lemma utf8_decode_encode mem s len cp :
  scalar cp → zlen (bebop_utf8_encode cp) ≤ len → load_bytes mem s (zlen (bebop_utf8_encode cp)) = Some (bebop_utf8_encode cp) →
  bebop_utf8_decode mem s len = Some (zlen (bebop_utf8_encode cp), cp).
Proof.
  intros Hs Hl Hm. pose proof (λ i b, load_bytes_loads mem s _ _ i b Hm) as Hld. clear Hm. revert Hl Hld.
  rewrite utf8_encode_eq by done. unfold scalar in Hs. unfold bebop_utf8_decode.
  destruct (Z.ltb_spec cp 0x80); [|destruct (Z.ltb_spec cp 0x800); [|destruct (Z.ltb_spec cp 0x10000)]];
    rewrite ?zlen_cons, zlen_nil; intros Hl Hld; (destruct (Z.eqb_spec len 0); [lia|]);
    pose proof (Hld 0%nat _ eq_refl) as L0; rewrite Z.add_0_r in L0; rewrite L0; cbn [mbind option_bind].
  - by ztest.
  - rewrite (Hld 1%nat _ eq_refl : load mem (s + 1) = _). rewrite width_table by (unfold byte_ok; dlia).
    unfold lead_width. cbn [mbind option_bind]. rewrite !not_continuation_spec by (unfold byte_ok; dlia). rewrite code2.
    replace (64 * _ + _) with cp by dlia. cbn [mbind option_bind]. by ztest.
  - rewrite (Hld 1%nat _ eq_refl : load mem (s + 1) = _), (Hld 2%nat _ eq_refl : load mem (s + 2) = _).
    rewrite width_table by (unfold byte_ok; dlia).
    unfold lead_width. cbn [mbind option_bind]. rewrite !not_continuation_spec by (unfold byte_ok; dlia). rewrite code3.
    replace (4096 * _ + _ + _) with cp by dlia. cbn [mbind option_bind]. ztest.
    destruct (Z.leb_spec 0xD800 cp), (Z.leb_spec cp 0xDFFF); [lia|done..].
  - rewrite (Hld 1%nat _ eq_refl : load mem (s + 1) = _), (Hld 2%nat _ eq_refl : load mem (s + 2) = _),
      (Hld 3%nat _ eq_refl : load mem (s + 3) = _). rewrite width_table by (unfold byte_ok; dlia).
    unfold lead_width. cbn [mbind option_bind]. rewrite !not_continuation_spec by (unfold byte_ok; dlia). rewrite code4.
    replace (262144 * _ + _ + _ + _) with cp by dlia. cbn [mbind option_bind]. by ztest.
Qed.

(** Bounds on the length of a list that is written out. *)
Ltac zlit := rewrite ?zlen_cons; pose proof (@zlen_nil Z); lia.

(** A positive answer is backed by the bytes. *)
Lemma encoded_at mem s len cp l :
  0 ≤ s → s + len ≤ zlen mem → scalar cp → bebop_utf8_encode cp = l → zlen l ≤ len → 0 < zlen l →
  (∀ i b, l !! i = Some b → load mem (s + Z.of_nat i) = Some b) →
  0 < zlen l ≤ len ∧ scalar cp ∧ zlen l = zlen (bebop_utf8_encode cp) ∧ load_bytes mem s (zlen l) = Some (bebop_utf8_encode cp).
Proof. intros Hs Hz Hc -> Hl H0 Hld. split_and!; try done. apply load_bytes_of_loads; [done|done|lia]. Qed.

Lemma utf8_decode_spec mem s len :
  bytes_ok mem → 0 ≤ s → 0 ≤ len → s + len ≤ zlen mem →
  ∃ w cp, bebop_utf8_decode mem s len = Some (w, cp) ∧
    (w = 0 ∧ cp = BEBOP_CP_INVALID ∨
     0 < w ≤ len ∧ scalar cp ∧ w = zlen (bebop_utf8_encode cp) ∧ load_bytes mem s w = Some (bebop_utf8_encode cp)).
Proof.
  intros Hm Hs Hl Hz. unfold bebop_utf8_decode. destruct (Z.eqb_spec len 0); [eexists _, _; split; [done|by left]|].
  destruct (load_in mem s) as [a Ea]; [lia|]. pose proof (load_ok _ _ _ Hm Ea) as Ha. rewrite Ea. cbn [mbind option_bind].
  rewrite width_table by done. unfold byte_ok in Ha. destruct (Z.ltb_spec a 0x80).
  { eexists _, _. split; [done|]. right. apply (encoded_at mem s len a [a]); try done; try (unfold scalar; lia); try zlit.
    - rewrite utf8_encode_eq by (unfold scalar; lia). by ztest.
    - intros [|i] b Hb; [|done]. injection Hb as <-. by rewrite Z.add_0_r. }
  cbn [mbind option_bind]. destruct ((lead_width a =? 0) || (len <? lead_width a)) eqn:Ew; [eexists _, _; split; [done|by left]|].
  apply orb_false_iff in Ew as [Ew0%Z.eqb_neq Ewl%Z.ltb_ge].
  assert (Hload : ∀ i, 0 ≤ i < lead_width a → ∃ b, load mem (s + i) = Some b ∧ byte_ok b).
  { intros i Hi. destruct (load_in mem (s + i)) as [b Eb]; [lia|]. exists b. split; [done|]. by eapply load_ok. }
  destruct (Z.eqb_spec (lead_width a) 2) as [E2|N2].
  { rewrite E2 in *. assert (192 ≤ a < 224) by (unfold lead_width in E2; repeat case_match; zbool; lia).
    destruct (Hload 1 ltac:(lia)) as (b&Eb&Hb). rewrite Eb. cbn [mbind option_bind]. rewrite not_continuation_spec, code2 by done.
    destruct (Z.leb_spec 128 b), (Z.ltb_spec b 192); cbn [andb negb]; try (eexists _, _; split; [done|by left]).
    destruct (Z.ltb_spec (64 * (a mod 32) + b mod 64) 0x80); eexists _, _; (split; [done|]); [by left|right].
    apply (encoded_at mem s len _ [a; b]); try done; try (unfold scalar; dlia); try zlit.
    - rewrite utf8_encode_eq by (unfold scalar; dlia). ztest. repeat f_equal; dlia.
    - intros [|[|i]] x Hx; [..|done]; injection Hx as <-; [by rewrite Z.add_0_r|done]. }
  destruct (Z.eqb_spec (lead_width a) 3) as [E3|N3].
  { rewrite E3 in *. assert (224 ≤ a < 240) by (unfold lead_width in E3; repeat case_match; zbool; lia).
    destruct (Hload 1 ltac:(lia)) as (b&Eb&Hb), (Hload 2 ltac:(lia)) as (c&Ec&Hc). rewrite Eb, Ec. cbn [mbind option_bind].
    rewrite !not_continuation_spec, code3 by done.
    destruct (Z.leb_spec 128 b), (Z.ltb_spec b 192), (Z.leb_spec 128 c), (Z.ltb_spec c 192); cbn [andb orb negb];
      try (eexists _, _; split; [done|by left]).
    set (code := 4096 * (a mod 16) + 64 * (b mod 64) + c mod 64).
    destruct (Z.ltb_spec code 0x800); [eexists _, _; split; [done|by left]|].
    destruct (Z.leb_spec 0xD800 code), (Z.leb_spec code 0xDFFF); cbn [andb]; eexists _, _; (split; [done|]); [by left|right..|];
      try (apply (encoded_at mem s len _ [a; b; c]); try done; subst code; try (unfold scalar; dlia); try zlit;
      [ rewrite utf8_encode_eq by (unfold scalar; dlia); ztest; repeat f_equal; dlia
      | intros [|[|[|i]]] x Hx; [..|done]; injection Hx as <-; [by rewrite Z.add_0_r|done..] ]). lia. }
  assert (E4 : lead_width a = 4 ∧ 240 ≤ a < 248) by (unfold lead_width in *; repeat case_match; zbool; lia). destruct E4 as [E4 ?].
  rewrite E4 in *. destruct (Hload 1 ltac:(lia)) as (b&Eb&Hb), (Hload 2 ltac:(lia)) as (c&Ec&Hc), (Hload 3 ltac:(lia)) as (d&Ed&Hd).
  rewrite Eb, Ec, Ed. cbn [mbind option_bind]. rewrite !not_continuation_spec, code4 by done.
  destruct (Z.leb_spec 128 b), (Z.ltb_spec b 192), (Z.leb_spec 128 c), (Z.ltb_spec c 192), (Z.leb_spec 128 d), (Z.ltb_spec d 192);
    cbn [andb orb negb]; try (eexists _, _; split; [done|by left]).
  set (code := 262144 * (a mod 8) + 4096 * (b mod 64) + 64 * (c mod 64) + d mod 64).
  destruct (Z.ltb_spec code 0x10000), (Z.ltb_spec 0x10FFFF code); cbn [orb]; eexists _, _; (split; [done|]); [by left..|right].
  apply (encoded_at mem s len _ [a; b; c; d]); try done; subst code; try (unfold scalar; dlia); try zlit.
  - rewrite utf8_encode_eq by (unfold scalar; dlia). ztest. repeat f_equal; dlia.
  - intros [|[|[|[|i]]]] x Hx; [..|done]; injection Hx as <-; [by rewrite Z.add_0_r|done..].
Qed.

(** ** Validation *)

Lemma load_bytes_split mem s n l k :
  load_bytes mem s n = Some (l ++ k) ↔
  load_bytes mem s (zlen l) = Some l ∧ load_bytes mem (s + zlen l) (n - zlen l) = Some k.
Proof.
  pose proof (zlen_nonneg l) as Hl0. split.
  - intros Hm. pose proof (load_bytes_zlen _ _ _ _ Hm) as Hz. rewrite zlen_app in Hz. pose proof (zlen_nonneg k).
    apply load_bytes_Some in Hm as (Hs&Hn&Hb&E). split; apply load_bytes_Some.
    + split_and!; try lia. apply (f_equal (take (length l))) in E. rewrite take_app_length, take_take in E.
      rewrite E at 1. f_equal. unfold zlen in *. lia.
    + split_and!; try lia. apply (f_equal (drop (length l))) in E. rewrite drop_app_length in E. rewrite E.
      rewrite skipn_firstn_comm, drop_drop. unfold zlen in *. f_equal; [lia|]. f_equal. lia.
  - intros [(Hs&_&Hb&El)%load_bytes_Some (Hs'&Hn&Hb'&Ek)%load_bytes_Some]. apply load_bytes_Some. split_and!; try lia.
    rewrite El at 1. rewrite Ek. unfold zlen in *. rewrite !Nat2Z.id.
    replace (Z.to_nat n) with (length l + Z.to_nat (n - Z.of_nat (length l)))%nat by lia.
    replace (Z.to_nat (s + Z.of_nat (length l))) with (Z.to_nat s + length l)%nat by lia.
    rewrite <- drop_drop. apply take_take_drop.
Qed.

(** The text of a sequence of code points. *)
Definition utf8_text (cps : list Z) : list Z := concat (map bebop_utf8_encode cps).

Lemma utf8_encode_pos cp : scalar cp → 0 < zlen (bebop_utf8_encode cp).
Proof. intros Hs. rewrite utf8_encode_eq by done. destruct (cp <? 0x80), (cp <? 0x800), (cp <? 0x10000); zlit. Qed.

Lemma utf8_valid_loop_spec mem s len fuel pos :
  bytes_ok mem → 0 ≤ s → s + len ≤ zlen mem → 0 ≤ pos ≤ len → len - pos ≤ Z.of_nat fuel →
  ∃ b, utf8_valid_loop fuel mem s len pos = Some b ∧
    (b = true ↔ ∃ cps, Forall scalar cps ∧ load_bytes mem (s + pos) (len - pos) = Some (utf8_text cps)).
Proof.
  intros Hm Hs Hz. revert pos. induction fuel as [|fuel IH]; intros pos Hp Hf; cbn [utf8_valid_loop];
    (destruct (Z.ltb_spec pos len) as [Hlt|Hge]; [|exists true; split; [done|]; split; [intros _; exists []|done]]);
    try (split; [done|]; apply load_bytes_Some; split_and!; try lia; by replace (Z.to_nat (len - pos)) with 0%nat by lia).
  { lia. }
  destruct (utf8_decode_spec mem (s + pos) (len - pos) Hm) as (w&cp&E&Hd); [lia..|]. rewrite E. cbn [mbind option_bind].
  assert (Hfirst : ∀ cp' cps, scalar cp' → load_bytes mem (s + pos) (len - pos) = Some (utf8_text (cp' :: cps)) →
    w = zlen (bebop_utf8_encode cp') ∧ cp = cp' ∧ load_bytes mem (s + pos + w) (len - pos - w) = Some (utf8_text cps)).
  { intros cp' cps Hs' Hl. unfold utf8_text in Hl. cbn [map concat] in Hl.
    pose proof (load_bytes_zlen _ _ _ _ Hl) as Hlz. rewrite zlen_app in Hlz.
    pose proof (zlen_nonneg (concat (map bebop_utf8_encode cps))). apply load_bytes_split in Hl as [Hl1 Hl2].
    rewrite (utf8_decode_encode mem (s + pos) (len - pos) cp' Hs') in E by (done || lia). injection E as <- <-. done. }
  destruct Hd as [[-> ->]|(Hw&Hc&Ew&Hl)].
  - exists false. split; [done|]. split; [done|]. intros (cps&Hcps&Hl). exfalso. destruct Hcps as [|cp' cps Hs' Hcps].
    + apply load_bytes_zlen in Hl. change (zlen (utf8_text [])) with 0 in Hl. lia.
    + destruct (Hfirst cp' cps Hs' Hl) as (E0&_&_). pose proof (utf8_encode_pos cp' Hs'). lia.
  - assert (Hne : cp ≠ -1) by (unfold scalar in Hc; lia). unfold BEBOP_CP_INVALID.
    destruct (Z.leb_spec w 0); [lia|]. destruct (Z.eqb_spec cp (-1)); [done|]. cbn [orb].
    destruct (IH (pos + w)) as (b&Eb&Hb); [lia|lia|]. exists b. split; [done|]. rewrite Hb. split.
    + intros (cps&Hcps&Hr). exists (cp :: cps). split; [by constructor|]. unfold utf8_text. cbn [map concat].
      apply load_bytes_split. rewrite <- Ew. split; [done|]. fold (utf8_text cps). rewrite <- Hr. f_equal; lia.
    + intros (cps&Hcps&Hr). destruct Hcps as [|cp' cps Hs' Hcps].
      * apply load_bytes_zlen in Hr. change (zlen (utf8_text [])) with 0 in Hr. lia.
      * destruct (Hfirst cp' cps Hs' Hr) as (_&_&Hr'). exists cps. split; [done|]. rewrite <- Hr'. f_equal; lia.
Qed.

(** ** Properties *)

(** The standard's table: the bits of a code point behind the marks of the first and of the
    following bytes, in the least number of bytes. *)
Definition utf8_form (cp : Z) : list Z :=
  let follow n := 128 + cp / 64 ^ n mod 64 in
  if cp <? 128 then [cp]
  else if cp <? 2048 then [192 + cp / 64; follow 0]
  else if cp <? 65536 then [224 + cp / 64 ^ 2; follow 1; follow 0]
  else [240 + cp / 64 ^ 3; follow 2; follow 1; follow 0].
Lemma utf8_encode_form cp : scalar cp → bebop_utf8_encode cp = utf8_form cp.
Proof.
  intros Hs. rewrite utf8_encode_eq by done. unfold utf8_form. rewrite Z.pow_0_r, Z.div_1_r, Z.pow_1_r. done.
Qed.

(** C40: the UTF-8 coder is exact. The encoder writes every Unicode scalar value by the table of
    the standard and nothing for any other number. In any bytes, the decoder takes the form of a
    scalar value exactly when it stands there; whatever it accepts is that form, byte by byte
    and of the width it returns, so that it accepts no overlong form, no surrogate and nothing
    past U+10FFFF; and it refuses only what begins with no such form. *)
Theorem utf8_codec_exact mem s len :
  bytes_ok mem → 0 ≤ s → 0 ≤ len → s + len ≤ zlen mem →
  (∀ cp, scalar cp → bebop_utf8_encode cp = utf8_form cp) ∧ (∀ cp, ¬ scalar cp → bebop_utf8_encode cp = []) ∧
  ∃ w cp, bebop_utf8_decode mem s len = Some (w, cp) ∧
    (∀ cp', scalar cp' → zlen (utf8_form cp') ≤ len →
       (load_bytes mem s (zlen (utf8_form cp')) = Some (utf8_form cp') ↔ w = zlen (utf8_form cp') ∧ cp = cp')) ∧
    (w = 0 ∧ cp = BEBOP_CP_INVALID ∨ 0 < w ≤ len ∧ scalar cp ∧ load_bytes mem s w = Some (utf8_form cp)).
Proof.
  intros Hm Hs Hl Hz. split; [exact utf8_encode_form|]. split.
  { intros cp Hc. unfold bebop_utf8_encode, scalar in *.
    destruct (Z.ltb_spec cp 0), (Z.leb_spec 0xD800 cp), (Z.leb_spec cp 0xDFFF), (Z.ltb_spec 0x10FFFF cp); try done; lia. }
  destruct (utf8_decode_spec mem s len Hm Hs Hl Hz) as (w&cp&E&Hd). exists w, cp. split; [done|]. split.
  - intros cp' Hc Hle. rewrite <- (utf8_encode_form cp' Hc) in *. split.
    + intros Hb. rewrite (utf8_decode_encode mem s len cp' Hc Hle Hb) in E. by injection E as <- <-.
    + intros [-> ->]. destruct Hd as [[E0 _]|(_&_&_&Hb)]; [|done]. pose proof (utf8_encode_pos cp' Hc). lia.
  - destruct Hd as [Hd|(Hw&Hc&_&Hb)]; [by left|right]. rewrite <- (utf8_encode_form cp Hc). done.
Qed.

(** Validation ends on every input, reads nothing outside of it, and answers true
    exactly for the encodings of sequences of Unicode scalar values. *)
Theorem utf8_valid_exact mem s len :
  bytes_ok mem → 0 ≤ s → 0 ≤ len → s + len ≤ zlen mem →
  ∃ b, bebop_utf8_valid mem s len = Some b ∧
    (b = true ↔ ∃ cps, Forall scalar cps ∧ load_bytes mem s len = Some (utf8_text cps)).
Proof.
  intros Hm Hs Hl Hz. unfold bebop_utf8_valid.
  destruct (utf8_valid_loop_spec mem s len (Z.to_nat len) 0 Hm Hs Hz) as (b&E&Hb); [lia..|].
  rewrite Z.add_0_r, Z.sub_0_r in Hb. by exists b.
Qed.

(** ** Escape sequences *)

Lemma utf8_encode_len cp : zlen (bebop_utf8_encode cp) ≤ 4.
Proof.
  unfold bebop_utf8_encode. destruct (_ || _ || _), (cp <? 0x80), (cp <? 0x800), (cp <? 0x10000); zlit.
Qed.

Lemma hex_value_range c : BEBOP_HEX_VALUE c < 16.
Proof.
  unfold BEBOP_HEX_VALUE. destruct (Z.leb_spec 48 c), (Z.leb_spec c 57), (Z.leb_spec 65 c), (Z.leb_spec c 70),
    (Z.leb_spec 97 c), (Z.leb_spec c 102); cbn [andb]; lia.
Qed.

Lemma unescape_digits_total mem s len fuel pos codepoint digits :
  0 ≤ s → s + len ≤ zlen mem → 0 ≤ pos → 0 ≤ digits ≤ 6 → 7 ≤ digits + Z.of_nat fuel →
  ∃ r, unescape_digits fuel mem s len pos codepoint digits = Some r ∧
    match r with Some (pos', _, _) => pos ≤ pos' | None => True end.
Proof.
  intros Hs Hz. revert pos codepoint digits. induction fuel as [|fuel IH]; intros pos codepoint digits Hp Hd Hf; [lia|].
  cbn [unescape_digits]. destruct (Z.ltb_spec pos len) as [Hlt|Hge]; [|eexists; split; [done|]; cbn; lia].
  destruct (load_in mem (s + pos)) as [c Ec]; [lia|]. rewrite Ec. cbn [mbind option_bind].
  destruct (Z.eqb_spec c 125); [eexists; split; [done|]; cbn; lia|].
  destruct (BEBOP_HEX_VALUE c <? 0); [by eexists|]. destruct (Z.ltb_spec 6 (digits + 1)); [by eexists|].
  destruct (IH (pos + 1) (Z.lor (u32 (Z.shiftl codepoint 4)) (BEBOP_HEX_VALUE c)) (digits + 1)) as (r&E&Hr); [lia..|].
  exists r. split; [exact E|].
  destruct r as [[[pos' ?] ?]|]; [lia|done].
Qed.

Lemma utf8_encode_ok cp : bytes_ok (bebop_utf8_encode cp).
Proof.
  unfold bebop_utf8_encode. destruct (_ || _ || _) eqn:E; [constructor|]. zbool.
  destruct (Z.ltb_spec cp 0x80); [constructor; [unfold byte_ok; lia|constructor]|].
  destruct (cp <? 0x800), (cp <? 0x10000); repeat (constructor; [apply u8_byte_ok|]); constructor.
Qed.

(** An escape is defined on every input, consumes only what is there, and stores at most
    four bytes. *)
Lemma unescape_char_spec mem s len :
  0 ≤ s → 0 ≤ len → s + len ≤ zlen mem →
  ∃ n out, bebop_unescape_char mem s len = Some (n, out) ∧ 0 ≤ n ≤ len ∧ zlen out ≤ 4 ∧ (0 < n → 0 < zlen out) ∧ bytes_ok out.
Proof.
  intros Hs Hl Hz. unfold bebop_unescape_char. destruct (Z.eqb_spec len 0).
  { eexists _, _. split; [done|]. split_and!; try lia; try zlit. constructor. }
  destruct (load_in mem s) as [c Ec]; [lia|]. rewrite Ec. cbn [mbind option_bind].
  assert (Hone : ∀ n x, 0 ≤ n ≤ len → byte_ok x → ∃ n' out, Some (n, [x]) = Some (n', out) ∧ 0 ≤ n' ≤ len ∧ zlen out ≤ 4 ∧ (0 < n' → 0 < zlen out) ∧ bytes_ok out).
  { intros n' x Hn Hx. exists n', [x]. split; [done|]. split; [done|]. split; [zlit|]. split; [zlit|]. constructor; [done|constructor]. }
  assert (Hno : ∃ n' out, Some (0, []) = Some (n', out) ∧ 0 ≤ n' ≤ len ∧ zlen out ≤ 4 ∧ (0 < n' → 0 < zlen out) ∧ bytes_ok out).
  { exists 0, []. split; [done|]. split; [lia|]. split; [zlit|]. split; [lia|constructor]. }
  do 7 (destruct (_ =? _); [apply Hone; unfold byte_ok; lia|]).
  destruct (c =? 120).
  { destruct (Z.ltb_spec len 3); [done|]. destruct (load_in mem (s + 1)) as [h ->]; [lia|].
    destruct (load_in mem (s + 2)) as [l ->]; [lia|]. cbn [mbind option_bind].
    destruct (_ || _); [done|]. apply Hone; [lia|]. apply u8_byte_ok. }
  destruct (c =? 117); [|done].
  assert (Hb : ∃ b, (if len <? 3 then Some 0 else load mem (s + 1)) = Some b).
  { destruct (Z.ltb_spec len 3); [by eexists|]. apply load_in. lia. }
  destruct Hb as [b ->]. cbn [mbind option_bind]. destruct (negb (b =? 123)); [done|].
  destruct (unescape_digits_total mem s len 8 2 0 0) as (r&Er&Hr); [lia..|]. rewrite Er. cbn [mbind option_bind].
  destruct r as [[[pos cp] digits]|]; [|done].
  assert (He : ∃ e, (if len <=? pos then Some 0 else load mem (s + pos)) = Some e).
  { destruct (Z.leb_spec len pos); [by eexists|]. apply load_in. lia. }
  destruct He as [e ->]. cbn [mbind option_bind]. destruct (Z.leb_spec len pos); [done|]. cbn [orb].
  destruct (_ || _); [done|]. destruct (Z.eqb_spec (zlen (bebop_utf8_encode cp)) 0); [done|].
  eexists _, _. split; [done|]. pose proof (utf8_encode_len cp). pose proof (zlen_nonneg (bebop_utf8_encode cp)).
  split_and!; try lia. apply utf8_encode_ok.
Qed.

(** ** Witnesses *)

Definition demo_text : list Z := [65; 195; 169; 226; 130; 172; 240; 159; 152; 128].

Lemma demo_text_ok : bytes_ok demo_text.
Proof. repeat constructor; lia. Qed.

Lemma utf8_codec_witness :
  bytes_ok demo_text ∧ ∃ w cp, bebop_utf8_decode demo_text 3 7 = Some (w, cp) ∧ w = 3 ∧ cp = 0x20AC ∧ 0 < w ≤ 7 ∧ scalar cp ∧
    load_bytes demo_text 3 w = Some (utf8_form cp).
Proof.
  split; [exact demo_text_ok|].
  destruct (utf8_codec_exact demo_text 3 7 demo_text_ok) as (_&_&w&cp&E&_&Hd); [lia|lia|vm_compute; congruence|].
  exists w, cp. split; [exact E|]. vm_compute in E. injection E as <- <-. split; [reflexivity|]. split; [reflexivity|].
  destruct Hd as [[H _]|Hd]; [discriminate|exact Hd].
Defined.

Lemma utf8_valid_witness :
  bytes_ok demo_text ∧ ∃ b, bebop_utf8_valid demo_text 0 10 = Some b ∧
    (b = true ↔ ∃ cps, Forall scalar cps ∧ load_bytes demo_text 0 10 = Some (utf8_text cps)).
Proof.
  split; [exact demo_text_ok|].
  apply (utf8_valid_exact demo_text 0 10 demo_text_ok); [lia|lia|vm_compute; congruence].
Defined.
