(* ===== verification/CArena.v ===== *)
(** The arena of the schema compiler ([bebop/src/bebop_arena.c]): chunks from the host
    allocator, kept from the first to the current one, out of which aligned regions are
    handed out one behind the other.

    The host allocator is the one of [Arena]. *)
From S2P Require Import Prelude.
From S2P Require Import Arena.

Definition BEBOP_MAX_ALIGN : Z := 16.
Definition BEBOP_ARENA_MIN_ALIGN : Z := BEBOP_MAX_ALIGN.
Definition BEBOP_ARENA_CHUNK_SIZE : Z := 64 * 1024.
(** [sizeof(bebop__chunk_t)] *)
Definition sizeof_chunk : Z := 24.

Record bebop__chunk : Type := mkChunk { ch_addr : Z; ch_capacity : Z; ch_used : Z }.

(** The chunks from [head] on along [next]; [current] is the last one. *)
Record bebop_arena_t : Type := mkCArena { ca_chunks : list bebop__chunk }.

Definition bebop__chunk_data (chunk : bebop__chunk) : Z := ch_addr chunk + sizeof_chunk.

Definition bebop__align_up (val align : Z) : Z := Z.land (u64 (val + align - 1)) (u64 (Z.lnot (align - 1))).
Definition bebop__align_ptr (p align : Z) : Z := Z.land (u64 (p + align - 1)) (u64 (Z.lnot (align - 1))).

(** The heap and an arena in it. *)
Abbreviation CAS := (Heap * bebop_arena_t)%type.

Section CArena.
Context `{HostAllocator}.

Definition get_carena : C CAS bebop_arena_t := gets snd.
Definition put_carena (arena : bebop_arena_t) : C CAS unit := modify (λ '(h, _), (h, arena)).

Definition bebop__chunk_alloc (min_data_size : Z) (use_default : bool) : C Heap (option bebop__chunk) :=
  let header_size := bebop__align_up sizeof_chunk BEBOP_ARENA_MIN_ALIGN in
  let default_data := BEBOP_ARENA_CHUNK_SIZE - header_size in
  let data_size := if use_default && (min_data_size <? default_data) then default_data else min_data_size in
  if SIZE_MAX - header_size <? data_size then mret None
  else
    mem ← alloc_new (header_size + data_size);
    mret ((λ a, mkChunk a data_size 0) <$> mem).

Definition bebop__chunk_free (chunk : bebop__chunk) : C Heap unit :=
  let header_size := bebop__align_up sizeof_chunk BEBOP_ARENA_MIN_ALIGN in
  alloc_free (ch_addr chunk) (header_size + ch_capacity chunk).

Definition bebop_arena_init (initial : Z) : C Heap (option bebop_arena_t) :=
  let init_size := if 0 <? initial then initial else BEBOP_ARENA_CHUNK_SIZE in
  chunk ← bebop__chunk_alloc init_size (initial =? 0);
  mret ((λ c, mkCArena [c]) <$> chunk).

Fixpoint chunks_free (chunks : list bebop__chunk) : C Heap unit :=
  match chunks with
  | [] => mret tt
  | chunk :: next => bebop__chunk_free chunk;; chunks_free next
  end.

Definition bebop_arena_destroy : C CAS unit :=
  arena ← get_carena;
  on_heap (chunks_free (ca_chunks arena));;
  put_carena (mkCArena []).

Definition bebop_arena_reset : C CAS unit :=
  arena ← get_carena;
  match ca_chunks arena with
  | [] => mret tt
  | head :: next =>
      on_heap (chunks_free next);;
      put_carena (mkCArena [mkChunk (ch_addr head) (ch_capacity head) 0])
  end.

(** The aligned pointer behind what the chunk has used. *)
Definition chunk_ptr (chunk : bebop__chunk) (align : Z) : Z :=
  bebop__align_ptr (bebop__chunk_data chunk + ch_used chunk) align.

(** [chunk->used = offset + size], for the last chunk. *)
Definition use_chunk (front : list bebop__chunk) (chunk : bebop__chunk) (p size : Z) : C CAS (option Z) :=
  put_carena (mkCArena (front ++ [mkChunk (ch_addr chunk) (ch_capacity chunk) (u64 (u64 (p - bebop__chunk_data chunk) + size))]));;
  mret (Some p).

(** [align] is a power of two. *)
Definition bebop_arena_alloc (size align : Z) : C CAS (option Z) :=
  if size =? 0 then mret None
  else
    let align := if align <? BEBOP_ARENA_MIN_ALIGN then BEBOP_ARENA_MIN_ALIGN else align in
    if SIZE_MAX - align <? size then mret None
    else
      arena ← get_carena;
      match last (ca_chunks arena) with
      | None => ub
      | Some chunk =>
          let p := chunk_ptr chunk align in
          let offset := u64 (p - bebop__chunk_data chunk) in
          if (ch_capacity chunk <? offset) || (u64 (ch_capacity chunk - offset) <? size) then
            new_chunk ← on_heap (bebop__chunk_alloc (size + align) true);
            match new_chunk with
            | None => mret None
            | Some chunk => use_chunk (ca_chunks arena) chunk (chunk_ptr chunk align) size
            end
          else use_chunk (removelast (ca_chunks arena)) chunk p size
      end.

(** A copy of [size] bytes; [src] is not NULL. *)
Definition bebop_arena_dup (size : Z) : C CAS (option Z) :=
  if size =? 0 then mret None else bebop_arena_alloc size BEBOP_ARENA_MIN_ALIGN.

(** A copy of a string of [len] bytes; [str] is not NULL. *)
Definition bebop_arena_strndup (len : Z) : C CAS (option Z) :=
  if len =? SIZE_MAX then mret None else bebop_arena_alloc (len + 1) 1.

Definition bebop_arena_malloc (size : Z) : C CAS (option Z) := bebop_arena_alloc size BEBOP_MAX_ALIGN.

(** The chunk in which the region [ptr] of [old_size] bytes ends what is used, and can
    grow to [new_size]. *)
Definition extends_in_place (chunk : bebop__chunk) (ptr old_size new_size : Z) : bool :=
  let base := bebop__chunk_data chunk in
  (base <=? ptr) && (ptr - base <=? ch_capacity chunk) && (old_size <=? ch_used chunk) &&
  (ptr - base =? ch_used chunk - old_size) && (new_size <=? ch_capacity chunk - (ptr - base)).

(** The pointer and the copy [memcpy] makes, if any: destination, source and length. *)
Definition bebop_arena_realloc (ptr : option Z) (old_size new_size : Z)
  : C CAS (option Z * option (Z * Z * Z)) :=
  if new_size =? 0 then mret (None, None)
  else
    arena ← get_carena;
    let move :=
      new_ptr ← bebop_arena_malloc new_size;
      mret (new_ptr, q ← new_ptr; p ← ptr;
                     if 0 <? old_size then Some (q, p, Z.min old_size new_size) else None) in
    match ptr, last (ca_chunks arena) with
    | Some p, Some chunk =>
        if (0 <? old_size) && extends_in_place chunk p old_size new_size then
          put_carena (mkCArena (removelast (ca_chunks arena) ++
            [mkChunk (ch_addr chunk) (ch_capacity chunk) (p - bebop__chunk_data chunk + new_size)]));;
          mret (Some p, None)
        else move
    | _, _ => move
    end.

(** [bebop__arena_alloc_n], the macro [bebop_arena_new]. *)
Definition bebop__arena_alloc_n (elem_size n align : Z) : C CAS (option Z) :=
  if negb (n =? 0) && (SIZE_MAX / n <? elem_size) then mret None
  else bebop_arena_alloc (u64 (elem_size * n)) align.
End CArena.

(** ** The invariant *)

Definition chunk_ok (live : gmap Z Z) (c : bebop__chunk) : Prop :=
  live !! ch_addr c = Some (32 + ch_capacity c) ∧ ch_addr c mod 16 = 0 ∧ 0 ≤ ch_used c ≤ ch_capacity c.

Record carena_ok (live : gmap Z Z) (ar : bebop_arena_t) : Prop := {
  cr_heap : heap_ok live;
  cr_nodup : NoDup (map ch_addr (ca_chunks ar));
  cr_chunks : Forall (chunk_ok live) (ca_chunks ar);
  cr_current : ca_chunks ar ≠ []
}.

(** The bytes handed out so far. *)
Definition cgranted (ar : bebop_arena_t) (x : Z) : Prop :=
  ∃ c, c ∈ ca_chunks ar ∧ bebop__chunk_data c ≤ x < bebop__chunk_data c + ch_used c.

Lemma align_ptr_spec x k :
  0 ≤ k < 64 → bebop__align_ptr x (2 ^ k) = 2 ^ k * (u64 (x + 2 ^ k - 1) / 2 ^ k).
Proof.
  intros Hk. unfold bebop__align_ptr. set (y := u64 (x + 2 ^ k - 1)).
  assert (Hy : 0 ≤ y < 2 ^ 64) by (subst y; unfold u64; apply Z.mod_pos_bound; lia).
  transitivity (Z.ldiff y (Z.ones k)).
  - apply Z.bits_inj'. intros n Hn. rewrite Z.land_spec, Z.ldiff_spec. unfold u64. destruct (Z.ltb_spec n 64).
    + rewrite Z.mod_pow2_bits_low, Z.lnot_spec by lia. rewrite Z.sub_1_r, <- Z.ones_equiv. done.
    + rewrite <- (Z.mod_small y (2 ^ 64)) by lia. by rewrite !Z.mod_pow2_bits_high by lia.
  - rewrite Z.ldiff_ones_r, Z.shiftl_mul_pow2, Z.shiftr_div_pow2 by lia. lia.
Qed.

(** The pointer a chunk offers: aligned, and past what is used unless the address wraps
    around, in which case it lies below the chunk. *)
Lemma chunk_ptr_spec c k :
  4 ≤ k < 64 → ch_addr c mod 16 = 0 → 0 ≤ ch_addr c → 0 ≤ ch_used c ≤ ch_capacity c → ch_addr c + 32 + ch_capacity c ≤ 2 ^ 64 →
  chunk_ptr c (2 ^ k) mod 2 ^ k = 0 ∧ chunk_ptr c (2 ^ k) mod 16 = 0 ∧ 0 ≤ chunk_ptr c (2 ^ k) < 2 ^ 64 ∧
  (bebop__chunk_data c + ch_used c ≤ chunk_ptr c (2 ^ k) < bebop__chunk_data c + ch_used c + 2 ^ k ∨
   2 ^ 64 ≤ bebop__chunk_data c + ch_used c + 2 ^ k - 1 ∧ chunk_ptr c (2 ^ k) < 2 ^ k).
Proof.
  intros Hk Hm Ha Hu Hw. unfold chunk_ptr. rewrite align_ptr_spec by lia. unfold bebop__chunk_data, sizeof_chunk.
  set (x := ch_addr c + 24 + ch_used c). assert (Hp : 2 ^ k = 16 * 2 ^ (k - 4)).
  { replace k with (4 + (k - 4)) at 1 by lia. rewrite Z.pow_add_r by lia. done. }
  assert (H16 : 0 < 2 ^ (k - 4)) by lia. assert (H64 : 2 ^ k ≤ 2 ^ 63) by (apply Z.pow_le_mono_r; lia).
  set (y := u64 (x + 2 ^ k - 1)). assert (Hy : 0 ≤ y < 2 ^ 64) by (subst y; unfold u64; apply Z.mod_pos_bound; lia).
  pose proof (Z.div_mod y (2 ^ k) ltac:(lia)) as Hd. pose proof (Z.mod_pos_bound y (2 ^ k) ltac:(lia)) as Hr.
  split; [rewrite Z.mul_comm; apply Z.mod_mul; lia|]. split; [rewrite Hp, <- Z.mul_assoc, Z.mul_comm; apply Z.mod_mul; lia|].
  assert (Hb : y - 2 ^ k < 2 ^ k * (y / 2 ^ k) ≤ y) by lia. assert (Hn : 0 ≤ 2 ^ k * (y / 2 ^ k)).
  { apply Z.mul_nonneg_nonneg; [lia|]. apply Z.div_pos; lia. }
  set (q := 2 ^ k * (y / 2 ^ k)) in *. clearbody q. clear Hd Hr.
  split; [lia|]. destruct (Z.ltb_spec (x + 2 ^ k - 1) (2 ^ 64)) as [Hlt|Hge].
  - left. assert (Ey : y = x + 2 ^ k - 1) by (subst y; rewrite u64_small; lia). lia.
  - right. split; [lia|]. assert (Ey : y = x + 2 ^ k - 1 - 2 ^ 64).
    { subst y. unfold u64. symmetry. apply (Z.mod_unique_pos _ _ 1); lia. } lia.
Qed.

Section Specs.
Context `{HostAllocatorOk}.

Lemma chunk_alloc_spec size d h :
  0 < size → heap_ok (hp_live h) →
  ∃ r h', bebop__chunk_alloc size d h = Some (r, h') ∧
    match r with
    | None => hp_live h' = hp_live h
    | Some c => size ≤ ch_capacity c ∧ ch_used c = 0 ∧ hp_live h !! ch_addr c = None ∧
        hp_live h' = <[ch_addr c := 32 + ch_capacity c]> (hp_live h) ∧ chunk_ok (hp_live h') c ∧ heap_ok (hp_live h')
    end.
Proof.
  intros Hs Hh. unfold bebop__chunk_alloc. change (bebop__align_up sizeof_chunk BEBOP_ARENA_MIN_ALIGN) with 32. cbv zeta.
  set (data := if d && _ then _ else size). assert (Hd : size ≤ data).
  { subst data. destruct d; cbn [andb]; [|lia]. destruct (Z.ltb_spec size (BEBOP_ARENA_CHUNK_SIZE - 32)); lia. }
  clearbody data. destruct (SIZE_MAX - 32 <? data); [by exists None, h|]. unfold mbind, C_bind.
  destruct (alloc_new_cases (32 + data) h ltac:(lia) Hh) as [(h'&->&El)|(a&h'&->&El&Hf&Hm&Hh')].
  - by exists None, h'.
  - exists (Some (mkChunk a data 0)), h'. split; [done|]. cbn. split_and!; try done.
    unfold chunk_ok. cbn. rewrite El, lookup_insert_eq. split_and!; [done|done|lia|lia].
Qed.

Lemma chunk_fresh live c c' :
  heap_ok live → chunk_ok live c → chunk_ok live c' → ch_addr c ≠ ch_addr c' →
  ch_addr c + 32 + ch_capacity c ≤ ch_addr c' ∨ ch_addr c' + 32 + ch_capacity c' ≤ ch_addr c.
Proof.
  intros Hh (Hc&_) (Hc'&_) Hne. destruct (Hh _ _ Hc) as (_&_&_&Hd). destruct (Hd _ _ Hc' Hne); lia.
Qed.

(** Growing what the last chunk uses to [u]. *)
Lemma use_last live front c u :
  carena_ok live (mkCArena (front ++ [c])) → ch_used c ≤ u ≤ ch_capacity c →
  carena_ok live (mkCArena (front ++ [mkChunk (ch_addr c) (ch_capacity c) u])) ∧
  (∀ x, cgranted (mkCArena (front ++ [c])) x → cgranted (mkCArena (front ++ [mkChunk (ch_addr c) (ch_capacity c) u])) x) ∧
  (∀ x, bebop__chunk_data c + ch_used c ≤ x < bebop__chunk_data c + u →
     cgranted (mkCArena (front ++ [mkChunk (ch_addr c) (ch_capacity c) u])) x ∧ ¬ cgranted (mkCArena (front ++ [c])) x).
Proof.
  intros [Hh Hn Hc _] Hu. cbn in Hn, Hc. pose proof Hc as Hc2. apply Forall_app in Hc2 as [Hf Hcl]. apply Forall_singleton in Hcl as [Hlast Hused].
  split; [split|split].
  - done.
  - cbn. by rewrite map_app in *.
  - cbn. apply Forall_app. split; [done|]. apply Forall_singleton. split; [done|]. cbn. destruct Hused. split; [done|lia].
  - cbn. by destruct front.
  - intros x (c'&[Hin|Hin]%elem_of_app&Hx).
    + exists c'. split; [apply elem_of_app; by left|done].
    + apply list_elem_of_singleton in Hin. subst c'. exists (mkChunk (ch_addr c) (ch_capacity c) u).
      split; [apply elem_of_app; right; by left|]. unfold bebop__chunk_data in *. cbn. lia.
  - intros x Hx. split.
    + exists (mkChunk (ch_addr c) (ch_capacity c) u). split; [apply elem_of_app; right; by left|].
      unfold bebop__chunk_data in *. cbn. destruct Hused. lia.
    + intros (c'&[Hin|Hin]%elem_of_app&Hx').
      * rewrite Forall_forall in Hf. pose proof (Hf c' Hin) as Hc'. assert (Hne : ch_addr c ≠ ch_addr c').
        { intros E. rewrite map_app in Hn. apply NoDup_app in Hn as (_&Hd&_). apply (Hd (ch_addr c')).
          - apply list_elem_of_fmap. by exists c'.
          - cbn. rewrite E. left. }
        destruct (chunk_fresh live c c' Hh (conj Hlast Hused) Hc' Hne); destruct Hc' as (_&_&?);
          unfold bebop__chunk_data, sizeof_chunk in *; lia.
      * apply list_elem_of_singleton in Hin. subst c'. lia.
Qed.

(** A new chunk at the end. *)
Lemma append_chunk live h' ar c :
  carena_ok live ar → live !! ch_addr c = None → h' = <[ch_addr c := 32 + ch_capacity c]> live →
  chunk_ok h' c → heap_ok h' → ch_used c = 0 →
  carena_ok h' (mkCArena (ca_chunks ar ++ [c])) ∧
  (∀ x, cgranted (mkCArena (ca_chunks ar ++ [c])) x ↔ cgranted ar x).
Proof.
  intros [_ Hn Hc Hcur] Hf -> Hok Hh Hu.
  assert (Hne : ∀ c', c' ∈ ca_chunks ar → ch_addr c' ≠ ch_addr c).
  { intros c' Hin E. rewrite Forall_forall in Hc. destruct (Hc c' Hin) as (Hl&_). rewrite E, Hf in Hl. done. }
  split; [split|].
  - done.
  - cbn. rewrite map_app. apply NoDup_app. split; [done|]. split; [|apply NoDup_singleton].
    intros x (c'&->&Hin)%list_elem_of_fmap Hx%list_elem_of_singleton. by apply (Hne c').
  - cbn. apply Forall_app. split; [|by apply Forall_singleton]. rewrite Forall_forall in Hc |- *. intros c' Hin.
    destruct (Hc c' Hin) as (Hl&Hr). split; [|done]. rewrite lookup_insert_ne; [done|]. intros E. by apply (Hne c').
  - cbn. by destruct (ca_chunks ar).
  - intros x. split.
    + intros (c'&[Hin|Hin]%elem_of_app&Hx); [by exists c'|]. apply list_elem_of_singleton in Hin. subst c'. lia.
    + intros (c'&Hin&Hx). exists c'. split; [apply elem_of_app; by left|done].
Qed.

(** What an allocation promises. *)
Definition calloc_post (live : gmap Z Z) (ar : bebop_arena_t) (size align : Z)
    (r : option Z) (live' : gmap Z Z) (ar' : bebop_arena_t) : Prop :=
  carena_ok live' ar' ∧ live ⊆ live' ∧ (∀ x, cgranted ar x → cgranted ar' x) ∧
  match r with
  | None => ar' = ar ∧ live' = live
  | Some p => p mod align = 0 ∧ p mod 16 = 0 ∧ ∀ x, p ≤ x < p + size → cgranted ar' x ∧ ¬ cgranted ar x
  end.

Lemma mod_pow2_weaken p k k' : 0 ≤ k ≤ k' → p mod 2 ^ k' = 0 → p mod 2 ^ k = 0.
Proof.
  intros Hk Hp. apply Z.div_exact in Hp; [|lia]. rewrite Hp. replace k' with (k + (k' - k)) by lia.
  rewrite Z.pow_add_r, <- Z.mul_assoc, Z.mul_comm by lia. apply Z.mod_mul. lia.
Qed.

(** The last chunk takes the region at its aligned pointer. *)
Lemma use_chunk_spec h front c k size :
  carena_ok (hp_live h) (mkCArena (front ++ [c])) → 4 ≤ k < 64 → 0 < size →
  let p := chunk_ptr c (2 ^ k) in let offset := u64 (p - bebop__chunk_data c) in
  offset ≤ ch_capacity c → size ≤ ch_capacity c - offset →
  ∃ ar', (∀ ar0, use_chunk front c p size (h, ar0) = Some (Some p, (h, ar'))) ∧
    calloc_post (hp_live h) (mkCArena (front ++ [c])) size (2 ^ k) (Some p) (hp_live h) ar'.
Proof.
  intros Hok Hk Hs p offset Ho Hsz. pose proof (cr_chunks _ _ Hok) as Hc.
  apply Forall_app in Hc as [_ Hlast]. apply Forall_singleton in Hlast as (Hl&Hm&Hu). destruct (cr_heap _ _ Hok _ _ Hl) as (Ha&_&Hw&_).
  destruct (chunk_ptr_spec c k Hk Hm ltac:(lia) Hu ltac:(lia)) as (Hp1&Hp2&Hp0&Hp). fold p in Hp1, Hp2, Hp0, Hp.
  assert (Hd : bebop__chunk_data c = ch_addr c + 24) by done.
  assert (Hpc : bebop__chunk_data c + ch_used c ≤ p ∧ offset = p - bebop__chunk_data c).
  { destruct Hp as [Hp|[Hp Hp']].
    - split; [lia|]. subst offset. apply u64_small. lia.
    - exfalso. assert (Ep : p = 0) by (rewrite <- (Z.mod_small p (2 ^ k)); lia). revert Ho. subst offset. rewrite Ep.
      replace (u64 (0 - bebop__chunk_data c)) with (2 ^ 64 - bebop__chunk_data c); [lia|].
      unfold u64. apply (Z.mod_unique_pos _ _ (-1)); lia. }
  destruct Hpc as [Hge Eo]. exists (mkCArena (front ++ [mkChunk (ch_addr c) (ch_capacity c) (offset + size)])).
  destruct (use_last _ _ _ (offset + size) Hok ltac:(lia)) as (Hok'&Hg&Hnew). split.
  - intros ar0. unfold use_chunk, put_carena, modify, mbind, C_bind. fold offset. cbn. do 3 f_equal.
    rewrite u64_small; [done|lia].
  - split; [done|]. split; [done|]. split; [done|]. split; [done|]. split; [done|].
    intros x Hx. apply Hnew. lia.
Qed.

(** [bebop_arena_alloc]: the call is defined and leaves the arena well-formed; it either
    returns NULL and changes neither arena nor heap, or returns a region aligned to [align]
    and to 16, all of it inside the chunks and none of it granted before. *)
Lemma carena_alloc_spec h ar k size :
  carena_ok (hp_live h) ar → 0 ≤ k < 64 → 0 ≤ size ≤ SIZE_MAX →
  ∃ r h' ar', bebop_arena_alloc size (2 ^ k) (h, ar) = Some (r, (h', ar')) ∧
    calloc_post (hp_live h) ar size (2 ^ k) r (hp_live h') ar'.
Proof.
  intros Hok Hk Hs. unfold bebop_arena_alloc. destruct (Z.eqb_spec size 0) as [->|Hs0].
  { by exists None, h, ar. }
  set (k' := Z.max k 4). assert (Ek : (if 2 ^ k <? BEBOP_ARENA_MIN_ALIGN then BEBOP_ARENA_MIN_ALIGN else 2 ^ k) = 2 ^ k').
  { subst k'. change BEBOP_ARENA_MIN_ALIGN with (2 ^ 4). destruct (Z.ltb_spec (2 ^ k) (2 ^ 4)) as [Hl|Hl].
    - apply Z.pow_lt_mono_r_iff in Hl; [|lia|lia]. f_equal. lia.
    - apply Z.pow_le_mono_r_iff in Hl; [|lia|lia]. f_equal. lia. }
  rewrite Ek. clear Ek. assert (Hk' : 4 ≤ k' < 64) by lia. cbv zeta.
  assert (Hw : ∀ p r live' ar', calloc_post (hp_live h) ar size (2 ^ k') r live' ar' → r = p → calloc_post (hp_live h) ar size (2 ^ k) r live' ar').
  { intros p r live' ar' (H1'&H2'&H3'&H4') _. split; [done|]. split; [done|]. split; [done|]. destruct r; [|done].
    destruct H4' as (Hm&Hr). split; [|done]. apply (mod_pow2_weaken _ _ k'); [lia|done]. }
  case_match eqn:Hov; [by exists None, h, ar|]. apply Z.ltb_ge in Hov. unfold mbind at 1, C_bind, get_carena, gets. cbn [snd].
  destruct (last (ca_chunks ar)) as [c|] eqn:El.
  2:{ apply last_None in El. by destruct (cr_current _ _ Hok). }
  apply last_Some in El as [front El]. destruct ar as [chunks]. cbn in El. subst chunks. cbn [ca_chunks].
  case_match eqn:Hfit.
  - unfold on_heap, mbind, C_bind. destruct (chunk_alloc_spec (size + 2 ^ k') true h ltac:(lia) (cr_heap _ _ Hok)) as (r&h'&->&Hr).
    destruct r as [c'|].
    + destruct Hr as (Hcap&Hu&Hf&Eh&Hc'&Hh'). destruct (append_chunk _ _ _ c' Hok Hf Eh Hc' Hh' Hu) as [Hok' Hg]. cbn [ca_chunks] in Hok', Hg.
      assert (Hd : bebop__chunk_data c' = ch_addr c' + 24) by done. destruct Hc' as (Hl&Hm&_). destruct (Hh' _ _ Hl) as (Ha&_&Hw'&_).
      destruct (chunk_ptr_spec c' k' Hk' Hm ltac:(lia) ltac:(lia) ltac:(lia)) as (_&_&_&[Hp|Hp]); [|exfalso; lia].
      assert (Eo : u64 (chunk_ptr c' (2 ^ k') - bebop__chunk_data c') = chunk_ptr c' (2 ^ k') - bebop__chunk_data c') by (apply u64_small; lia).
      destruct (use_chunk_spec h' (front ++ [c]) c' k' size Hok' Hk' ltac:(lia) ltac:(cbv zeta; lia) ltac:(cbv zeta; lia)) as (ar'&Euse&Hpost).
      eexists _, h', ar'. split; [apply Euse|]. eapply Hw; [|done]. destruct Hpost as (P1&P2&P3&P4&P5&P6). split; [done|].
      split; [rewrite Eh; by apply insert_subseteq|]. split; [intros x Hx; by apply P3, Hg|]. split; [done|]. split; [done|].
      intros x Hx. destruct (P6 x Hx) as [Hin Hnot]. split; [done|]. by rewrite <- Hg.
    + eexists None, h', _. split; [done|]. rewrite Hr. split; [done|]. split; [done|]. split; [done|]. done.
  - apply orb_false_iff in Hfit as [Ho%Z.ltb_ge Hsz%Z.ltb_ge]. rewrite removelast_last.
    pose proof (cr_chunks _ _ Hok) as Hc. apply Forall_app in Hc as [_ Hc]. apply Forall_singleton in Hc as (Hl&_).
    destruct (cr_heap _ _ Hok _ _ Hl) as (Ha&_&Hw'&_).
    pose proof (Z.mod_pos_bound (chunk_ptr c (2 ^ k') - bebop__chunk_data c) (2 ^ 64) ltac:(lia)) as Hb.
    rewrite (u64_small (ch_capacity c - _)) in Hsz by (unfold u64 in *; lia).
    destruct (use_chunk_spec h front c k' size Hok Hk' ltac:(lia) Ho Hsz) as (ar'&Euse&Hpost).
    eexists _, h, ar'. split; [apply Euse|]. by eapply Hw.
Qed.

(** A request, its answer, and the bytes the answer grants. *)
Definition answered (req : Z * Z) (r : option Z) (x : Z) : Prop :=
  match r with None => False | Some p => p ≤ x < p + req.1 end.

(** A sequence of requests of a size with an alignment. *)
Fixpoint alloc_all (reqs : list (Z * Z)) : C CAS (list (option Z)) :=
  match reqs with
  | [] => mret []
  | (size, align) :: reqs' => r ← bebop_arena_alloc size align; rs ← alloc_all reqs'; mret (r :: rs)
  end.

Definition req_ok (req : Z * Z) : Prop := 0 ≤ req.1 ≤ SIZE_MAX ∧ ∃ k, 0 ≤ k < 64 ∧ req.2 = 2 ^ k.

(** C36: any sequence of [bebop_arena_alloc] calls on a well-formed arena of the schema
    compiler, with power-of-two alignments and whatever the allocation callback answers, is
    defined: every region returned is aligned as asked and to 16 and lies in the chunks of
    the arena, no region overlaps a region granted before the calls, no two regions overlap,
    and no block is given back. *)
Theorem carena_alloc_disjoint reqs h ar :
  carena_ok (hp_live h) ar → Forall req_ok reqs →
  ∃ rs h' ar', alloc_all reqs (h, ar) = Some (rs, (h', ar')) ∧ carena_ok (hp_live h') ar' ∧
    hp_live h ⊆ hp_live h' ∧ (∀ x, cgranted ar x → cgranted ar' x) ∧
    Forall2 (λ req r, ∀ p, r = Some p → p mod req.2 = 0 ∧ p mod 16 = 0) reqs rs ∧
    (∀ i req r x, reqs !! i = Some req → rs !! i = Some r → answered req r x → cgranted ar' x ∧ ¬ cgranted ar x) ∧
    ∀ i j req r req' r' x, reqs !! i = Some req → rs !! i = Some r → reqs !! j = Some req' → rs !! j = Some r' →
      (i < j)%nat → answered req r x → ¬ answered req' r' x.
Proof.
  intros Hok Hreqs. revert h ar Hok. induction Hreqs as [|[size align] reqs (Hs&k&Hk&Ek) _ IH]; intros h ar Hok.
  { exists [], h, ar. by split_and!. }
  cbn [fst snd] in Hs, Ek. subst align. cbn [alloc_all]. unfold mbind, C_bind.
  destruct (carena_alloc_spec h ar k size Hok Hk Hs) as (r&h1&ar1&->&Hok1&Hsub&Hg&Hr).
  destruct (IH h1 ar1 Hok1) as (rs&h2&ar2&->&Hok2&Hsub2&Hg2&Hal&Hin&Hdis). exists (r :: rs), h2, ar2.
  assert (Hfirst : ∀ x, answered (size, 2 ^ k) r x → cgranted ar1 x ∧ ¬ cgranted ar x).
  { destruct r as [p|]; [|done]. cbn. intros x Hx. destruct Hr as (_&_&Hr). by apply Hr. }
  split; [done|]. split; [done|]. split; [by etrans|]. split; [auto|]. split; [|split].
  - constructor; [|done]. cbn. intros p ->. destruct Hr as (?&?&_). done.
  - intros [|i] req r0 x; cbn [lookup list_lookup].
    + intros [= <-] [= <-] Hx. destruct (Hfirst x Hx). split; [auto|done].
    + intros Hi Hi' Hx. destruct (Hin i _ _ x Hi Hi' Hx) as [? Hnot]. split; [done|]. intros ?. by apply Hnot, Hg.
  - intros [|i] [|j] req r0 req' r' x; cbn [lookup list_lookup]; try lia.
    + intros [= <-] [= <-] Hj Hj' _ Hx Hx'. destruct (Hin j _ _ x Hj Hj' Hx') as [_ Hnot]. by apply Hnot, (Hfirst x Hx).
    + intros Hi Hi' Hj Hj' Hlt. eapply Hdis; eauto. lia.
Qed.

(** [bebop_arena_realloc] is defined and keeps the arena well-formed; extended in place, a
    region begins where it did and ends inside its chunk, and otherwise the bytes that fit
    are copied into a new region. *)
Lemma carena_realloc_spec h ar ptr old new :
  carena_ok (hp_live h) ar → 0 ≤ old → 0 ≤ new ≤ SIZE_MAX →
  ∃ r h' ar', bebop_arena_realloc ptr old new (h, ar) = Some (r, (h', ar')) ∧ carena_ok (hp_live h') ar' ∧
    hp_live h ⊆ hp_live h' ∧
    match r with
    | (None, copy) => copy = None
    | (Some q, None) => (old = 0 ∨ ptr = None ∨ ptr = Some q) ∧ ∀ x, q ≤ x < q + new → cgranted ar' x
    | (Some q, Some (dst, src, n)) => dst = q ∧ ptr = Some src ∧ n = Z.min old new ∧
        (∀ x, q ≤ x < q + new → cgranted ar' x ∧ ¬ cgranted ar x)
    end.
Proof.
  intros Hok Ho Hn. unfold bebop_arena_realloc. destruct (Z.eqb_spec new 0) as [->|Hn0].
  { by exists (None, None), h, ar. }
  unfold mbind at 1, C_bind, get_carena, gets. cbn [snd]. cbv zeta.
  assert (Hmove : ∃ r h' ar', (new_ptr ← bebop_arena_malloc new; mret (new_ptr, q ← new_ptr; p ← ptr;
        if 0 <? old then Some (q, p, Z.min old new) else None)) (h, ar) = Some (r, (h', ar')) ∧ carena_ok (hp_live h') ar' ∧
      hp_live h ⊆ hp_live h' ∧
      match r with
      | (None, copy) => copy = None
      | (Some q, None) => (old = 0 ∨ ptr = None ∨ ptr = Some q) ∧ ∀ x, q ≤ x < q + new → cgranted ar' x
      | (Some q, Some (dst, src, n)) => dst = q ∧ ptr = Some src ∧ n = Z.min old new ∧
          (∀ x, q ≤ x < q + new → cgranted ar' x ∧ ¬ cgranted ar x)
      end).
  { unfold bebop_arena_malloc, mbind at 1, C_bind. change BEBOP_MAX_ALIGN with (2 ^ 4).
    destruct (carena_alloc_spec h ar 4 new Hok ltac:(lia) Hn) as (r&h'&ar'&->&Hok'&Hsub&_&Hr). eexists _, h', ar'. split; [done|].
    split; [done|]. split; [done|]. destruct r as [q|]; [|done]. destruct Hr as (_&_&Hr). cbn [mbind option_bind].
    destruct ptr as [p|]; cbn [mbind option_bind]; [|split; [tauto|intros x Hx; by apply Hr]].
    destruct (Z.ltb_spec 0 old); [done|]. split; [left; lia|intros x Hx; by apply Hr]. }
  destruct ptr as [p|]; [|exact Hmove]. destruct (last (ca_chunks ar)) as [c|] eqn:El; [|exact Hmove].
  destruct ((0 <? old) && extends_in_place c p old new) eqn:Eext; [|exact Hmove]. clear Hmove.
  apply last_Some in El as [front El]. destruct ar as [chunks]. cbn in El. subst chunks. cbn [ca_chunks]. rewrite removelast_last.
  unfold extends_in_place in Eext. cbv zeta in Eext. zbool. set (used := p - bebop__chunk_data c + new).
  pose proof Hok as [Hh Hnd Hc Hcur]. apply Forall_app in Hc as [Hf Hcl]. apply Forall_singleton in Hcl as (Hl&Hm&Hu).
  exists (Some p, None), h, (mkCArena (front ++ [mkChunk (ch_addr c) (ch_capacity c) used])). split; [done|]. split; [|split; [done|]].
  - split; [done| | |by destruct front].
    + cbn in *. by rewrite map_app in *.
    + cbn. apply Forall_app. split; [done|]. apply Forall_singleton. split; [done|]. cbn. split; [done|lia].
  - split; [tauto|]. intros x Hx. exists (mkChunk (ch_addr c) (ch_capacity c) used).
    split; [apply elem_of_app; right; by left|]. unfold bebop__chunk_data in *. cbn. lia.
Qed.

(** Freeing a list of live chunks removes exactly them from the heap. *)
Lemma chunks_free_spec cs h :
  NoDup (map ch_addr cs) → Forall (chunk_ok (hp_live h)) cs →
  ∃ h', chunks_free cs h = Some (tt, h') ∧
    ∀ a, hp_live h' !! a = if decide (a ∈ map ch_addr cs) then None else hp_live h !! a.
Proof.
  revert h. induction cs as [|c cs IH]; intros h Hn Hc.
  { exists h. split; [done|]. intros a. cbn. rewrite decide_False; [done|]. apply not_elem_of_nil. }
  apply NoDup_cons in Hn as [Hn1 Hn2]. apply Forall_cons in Hc as [(Hl&_) Hc].
  cbn [chunks_free]. unfold bebop__chunk_free at 1, mbind, C_bind.
  change (bebop__align_up sizeof_chunk BEBOP_ARENA_MIN_ALIGN) with 32. rewrite (alloc_free_live _ _ _ Hl).
  destruct (IH (mkHeap (hp_time h) (delete (ch_addr c) (hp_live h))) Hn2) as (h'&->&Hl').
  { rewrite Forall_forall in Hc |- *. intros c' Hin. destruct (Hc c' Hin) as (Hc'&?). split; [|done]. cbn.
    rewrite lookup_delete_ne; [done|]. intros E. apply Hn1. rewrite E. apply list_elem_of_fmap. by exists c'. }
  exists h'. split; [done|]. intros a. rewrite Hl'. cbn [hp_live map]. destruct (decide (a = ch_addr c)) as [->|Hne].
  - rewrite (decide_True (P := _ ∈ _ :: _)) by left. case_match; [done|]. apply lookup_delete_eq.
  - rewrite lookup_delete_ne by done. destruct (decide (a ∈ map ch_addr cs)) as [Hin|Hin].
    + by rewrite decide_True by (by right).
    + rewrite decide_False; [done|]. by intros [?|?]%elem_of_cons.
Qed.

Lemma arena_init_spec h initial :
  heap_ok (hp_live h) → 0 ≤ initial < 2 ^ 64 →
  ∃ r h', bebop_arena_init initial h = Some (r, h') ∧
    match r with
    | None => hp_live h' = hp_live h
    | Some ar => carena_ok (hp_live h') ar ∧ (∀ x, ¬ cgranted ar x) ∧
        ∃ c, ca_chunks ar = [c] ∧ initial ≤ ch_capacity c ∧ hp_live h !! ch_addr c = None ∧
          hp_live h' = <[ch_addr c := 32 + ch_capacity c]> (hp_live h)
    end.
Proof.
  intros Hh Hi. unfold bebop_arena_init, mbind, C_bind. set (init := if 0 <? initial then _ else _).
  assert (Hinit : 0 < init ∧ initial ≤ init) by (subst init; destruct (Z.ltb_spec 0 initial); unfold BEBOP_ARENA_CHUNK_SIZE; lia).
  destruct (chunk_alloc_spec init (initial =? 0) h ltac:(lia) Hh) as (r&h'&->&Hr). destruct r as [c|]; [|by exists None, h'].
  destruct Hr as (Hcap&Hu&Hf&Eh&Hc&Hh'). exists (Some (mkCArena [c])), h'. split; [done|]. split_and!.
  - split; [done|apply NoDup_singleton|by apply Forall_singleton|done].
  - intros x (c'&Hin%list_elem_of_singleton&Hx). subst c'. lia.
  - exists c. split; [done|]. split; [lia|done].
Qed.

(** Whatever a well-formed arena of the schema compiler was used for,
    [bebop_arena_destroy] gives back the blocks of its chunks and no other block of the heap;
    [bebop_arena_reset] keeps the first chunk alone and leaves a well-formed arena with
    nothing granted. *)
Theorem carena_release_correct h ar :
  carena_ok (hp_live h) ar →
  (∃ h', bebop_arena_destroy (h, ar) = Some (tt, (h', mkCArena [])) ∧
     ∀ a, hp_live h' !! a = if decide (a ∈ map ch_addr (ca_chunks ar)) then None else hp_live h !! a) ∧
  ∃ h' ar', bebop_arena_reset (h, ar) = Some (tt, (h', ar')) ∧ carena_ok (hp_live h') ar' ∧
    (∀ x, ¬ cgranted ar' x) ∧
    ∀ a, hp_live h' !! a = if decide (a ∈ map ch_addr (tail (ca_chunks ar))) then None else hp_live h !! a.
Proof.
  intros [Hh Hn Hc Hcur]. split.
  - destruct (chunks_free_spec (ca_chunks ar) h Hn Hc) as (h'&Ef&Hl). exists h'. split; [|done].
    unfold bebop_arena_destroy, get_carena, gets, on_heap, mbind, C_bind. cbn [snd]. by rewrite Ef.
  - destruct ar as [[|c cs]]; [done|]. cbn [ca_chunks tail map] in *. apply NoDup_cons in Hn as [Hn1 Hn2].
    apply Forall_cons in Hc as [Hc Hcs]. destruct (chunks_free_spec cs h Hn2 Hcs) as (h'&Ef&Hl).
    exists h', (mkCArena [mkChunk (ch_addr c) (ch_capacity c) 0]).
    split; [|split; [split|split; [|done]]].
    + unfold bebop_arena_reset, get_carena, gets, on_heap, mbind, C_bind. cbn [snd ca_chunks]. by rewrite Ef.
    + intros a s Ha. rewrite Hl in Ha. case_match; [done|]. destruct (Hh _ _ Ha) as (?&?&?&Hd). split_and!; auto.
      intros a' s' Ha'. rewrite Hl in Ha'. case_match; [done|]. eauto.
    + apply NoDup_singleton.
    + apply Forall_singleton. destruct Hc as (Hlc&Hm&Hu). split; [|cbn; split; [done|lia]]. cbn. rewrite Hl. by rewrite decide_False.
    + done.
    + intros x (c'&Hin%list_elem_of_singleton&Hx). subst c'. cbn in Hx. lia.
Qed.
End Specs.

(** ** Concrete runs *)

Definition demo_carena : Heap * bebop_arena_t :=
  match @bebop_arena_init bump_allocator 0 demo_heap with
  | Some (Some ar, h) => (h, ar)
  | _ => (demo_heap, mkCArena [])
  end.

Lemma demo_carena_ok : carena_ok (hp_live demo_carena.1) demo_carena.2.
Proof.
  destruct (@arena_init_spec bump_allocator _ demo_heap 0 heap_ok_empty ltac:(lia)) as (r&h'&E&Hr).
  unfold demo_carena. rewrite E. destruct r as [ar|]; [apply Hr|]. vm_compute in E. congruence.
Qed.

Definition demo_reqs : list (Z * Z) := [(100, 64); (70000, 16); (8, 8)].
Definition demo_answers : list (option Z) :=
  match @alloc_all bump_allocator demo_reqs demo_carena with Some (rs, _) => rs | None => [] end.

Lemma carena_alloc_witness :
  demo_answers = [Some 64; Some 65616; Some 135616] ∧
  ∀ x, answered (100, 64) (Some 64) x → ¬ answered (70000, 16) (Some 65616) x.
Proof.
  destruct (@carena_alloc_disjoint bump_allocator _ demo_reqs demo_carena.1 demo_carena.2 demo_carena_ok)
    as (rs&h'&ar'&E&_&_&_&_&_&Hd).
  { repeat constructor; cbn; unfold SIZE_MAX; try lia; [exists 6|exists 4|exists 3]; split; done || lia. }
  rewrite <- surjective_pairing in E. assert (Ers : rs = demo_answers) by (unfold demo_answers; by rewrite E).
  assert (Ea : demo_answers = [Some 64; Some 65616; Some 135616]) by (vm_compute; reflexivity).
  split; [exact Ea|]. rewrite Ers, Ea in Hd. intros x. apply (Hd 0%nat 1%nat); try reflexivity. lia.
Defined.

Lemma carena_release_witness :
  ∃ h', bebop_arena_destroy demo_carena = Some (tt, (h', mkCArena [])) ∧
    ∀ a, hp_live h' !! a = if decide (a ∈ map ch_addr (ca_chunks demo_carena.2)) then None
                           else hp_live demo_carena.1 !! a.
Proof.
  destruct (carena_release_correct demo_carena.1 demo_carena.2 demo_carena_ok) as [Hd _].
  rewrite <- surjective_pairing in Hd. exact Hd.
Defined.
