(* ===== verification/Intern.v ===== *)
(** The string pool of the schema compiler ([bebop/src/bebop_str.c]): FNV-1a, interning
    with chains of strings that share a hash, and the lookup of a handle.

    The hash map from hashes to the head of their chain is [cwisstable], third-party code that the
    repository vendors under [vendor/cwisstable] and that is not modelled: it is the class [InternMap], with the behaviour of a map as [InternMapOk]
    and a map of stdpp as the instance for concrete runs.  Its tables come from the arena,
    and it ends the process when the arena has no memory ([Abort]). *)
From stdpp Require Import list gmap.
From S2P Require Import Prelude.
From S2P Require Import Arena.
From S2P Require Import CArena.

Definition BEBOP_INTERN_DEFAULT_CAPACITY : Z := 256.
Definition FNV_OFFSET_BASIS : Z := 0xcbf29ce484222325.
Definition FNV_PRIME : Z := 0x100000001b3.

(** The loop of [bebop_hash_fnv1a] over the bytes left. *)
Fixpoint fnv1a_loop (str : list Z) (hash : Z) : Z :=
  match str with
  | [] => hash
  | c :: str => fnv1a_loop str (u64 (Z.lxor hash c * FNV_PRIME))
  end.
Definition bebop_hash_fnv1a (str : list Z) : Z := fnv1a_loop str FNV_OFFSET_BASIS.

(** The process goes on, or was ended by [abort]. *)
Inductive outcome (A : Type) : Type := Abort | Done (a : A).
Arguments Abort {A}.
Arguments Done {A} a.

(** ** The hash map *)

Class InternMap := {
  bebop_internmap : Type;
  bebop_internmap_new : Z → C CAS (outcome bebop_internmap);
  bebop_internmap_find : bebop_internmap → Z → option Z;
  bebop_internmap_insert : bebop_internmap → Z → Z → C CAS (outcome bebop_internmap)
}.

(** What an operation on the arena leaves intact. *)
Definition arena_kept (s s' : CAS) : Prop :=
  carena_ok (hp_live s'.1) s'.2 ∧ hp_live s.1 ⊆ hp_live s'.1 ∧ ∀ x, cgranted s.2 x → cgranted s'.2 x.

Class InternMapOk `{InternMap} : Prop := {
  internmap_new_ok : ∀ capacity s, carena_ok (hp_live s.1) s.2 →
    ∃ o s', bebop_internmap_new capacity s = Some (o, s') ∧ arena_kept s s' ∧
      match o with Abort => True | Done m => ∀ k, bebop_internmap_find m k = None end;
  internmap_insert_ok : ∀ m k v s, carena_ok (hp_live s.1) s.2 → bebop_internmap_find m k = None →
    ∃ o s', bebop_internmap_insert m k v s = Some (o, s') ∧ arena_kept s s' ∧
      match o with
      | Abort => True
      | Done m' => ∀ k', bebop_internmap_find m' k' =
                         if k' =? k then Some v else bebop_internmap_find m k'
      end
}.

(** ** The pool *)

Section Pool.
Context `{HostAllocator, InternMap}.

(** The arrays hold their [count] entries; the room up to [capacity] is not listed. *)
Record bebop_intern_t : Type := mkIntern {
  in_strings : list (option (list Z));
  in_hashes : list Z;
  in_lengths : list Z;
  in_next : list Z;
  in_capacity : Z;
  in_lookup : bebop_internmap
}.
Definition in_count (p : bebop_intern_t) : Z := zlen (in_hashes p).

Abbreviation CIS := (CAS * bebop_intern_t)%type.

Definition in_arena {A} (c : C CAS A) : C CIS A :=
  λ '(s, p), match c s with Some (a, s') => Some (a, (s', p)) | None => None end.
Definition get_pool : C CIS bebop_intern_t := gets snd.
Definition put_pool (p : bebop_intern_t) : C CIS unit := modify (λ '(s, _), (s, p)).

(** Whether the four arrays of a pool of [capacity] entries were allocated. *)
Definition new_arrays (capacity : Z) : C CAS bool :=
  strings ← bebop__arena_alloc_n 8 capacity 8;
  hashes ← bebop__arena_alloc_n 8 capacity 8;
  lengths ← bebop__arena_alloc_n 4 capacity 4;
  next ← bebop__arena_alloc_n 4 capacity 4;
  mret (match strings, hashes, lengths, next with
        | Some _, Some _, Some _, Some _ => true
        | _, _, _, _ => false
        end).

(** The pool, or nothing when it returns false. *)
Definition bebop_intern_init (capacity : Z) : C CAS (outcome (option bebop_intern_t)) :=
  let capacity := if capacity =? 0 then BEBOP_INTERN_DEFAULT_CAPACITY else capacity in
  ok ← new_arrays capacity;
  if negb ok then mret (Done None)
  else
    m ← bebop_internmap_new capacity;
    mret (match m with
          | Abort => Abort
          | Done m => Done (Some (mkIntern [None] [0] [0] [0] capacity m))
          end).

Definition bebop__intern_grow : C CIS bool :=
  p ← get_pool;
  let new_capacity := u32 (in_capacity p * 2) in
  ok ← in_arena (new_arrays new_capacity);
  if negb ok then mret false
  else
    put_pool (mkIntern (in_strings p) (in_hashes p) (in_lengths p) (in_next p) new_capacity (in_lookup p));;
    mret true.

(** The walk along [next] from [idx]: the entry with the string, or the end of the chain. *)
Fixpoint chain_walk (fuel : nat) (p : bebop_intern_t) (str : list Z) (idx : Z) : option (Z + Z) :=
  match fuel with
  | O => None
  | S fuel =>
      length ← load (in_lengths p) idx;
      same ← (if length =? zlen str
              then content ← in_strings p !! Z.to_nat idx; content ← content;
                   Some (bool_decide (content = str))
              else Some false);
      if (same : bool) then Some (inl idx)
      else
        next ← load (in_next p) idx;
        if next =? 0 then Some (inr idx) else chain_walk fuel p str next
  end.

(** [intern->strings[idx] = copy] and the other fields of a new last entry, and the link
    to it when the chain has a tail. *)
Definition add_entry (p : bebop_intern_t) (str : list Z) (hash chain_tail : Z) : bebop_intern_t :=
  let next := in_next p ++ [0] in
  mkIntern (in_strings p ++ [Some str]) (in_hashes p ++ [hash]) (in_lengths p ++ [zlen str])
    (if chain_tail =? 0 then next else <[Z.to_nat chain_tail := in_count p]> next)
    (in_capacity p) (in_lookup p).

(** Adds a string that is not in the pool behind [chain_tail]. *)
Definition intern_new (str : list Z) (hash chain_tail : Z) : C CIS (outcome Z) :=
  p ← get_pool;
  room ← (if in_capacity p <=? in_count p then bebop__intern_grow else mret true);
  if negb room then mret (Done 0)
  else
    copy ← in_arena (bebop_arena_strndup (zlen str));
    match copy with
    | None => mret (Done 0)
    | Some _ =>
        p ← get_pool;
        let idx := in_count p in
        let p' := add_entry p str hash chain_tail in
        put_pool p';;
        if negb (chain_tail =? 0) then mret (Done idx)
        else
          m ← in_arena (bebop_internmap_insert (in_lookup p') hash idx);
          match m with
          | Abort => mret Abort
          | Done m =>
              put_pool (mkIntern (in_strings p') (in_hashes p') (in_lengths p') (in_next p') (in_capacity p') m);;
              mret (Done idx)
          end
    end.

(** [None] is a NULL string; a handle is its index, 0 is [BEBOP_STR_NULL]. *)
Definition bebop_intern_n (str : option (list Z)) : C CIS (outcome Z) :=
  match str with
  | None => mret (Done 0)
  | Some str =>
      if UINT32_MAX <? zlen str then mret (Done 0)
      else
        let hash := bebop_hash_fnv1a str in
        p ← get_pool;
        match bebop_internmap_find (in_lookup p) hash with
        | None => intern_new str hash 0
        | Some idx =>
            found ← lift (chain_walk (length (in_hashes p)) p str idx);
            match found with
            | inl idx => mret (Done idx)
            | inr chain_tail => intern_new str hash chain_tail
            end
        end
  end.

Definition bebop_intern (str : option (list Z)) : C CIS (outcome Z) :=
  bebop_intern_n (c_string <$> str).

Definition bebop_str_get (p : bebop_intern_t) (handle : Z) : option (list Z) :=
  if (handle =? 0) || (in_count p <=? handle) then None
  else default None (in_strings p !! Z.to_nat handle).

Definition bebop_str_len (p : bebop_intern_t) (handle : Z) : Z :=
  if (handle =? 0) || (in_count p <=? handle) then 0
  else default 0 (in_lengths p !! Z.to_nat handle).
End Pool.

(** ** The invariant *)

(** [z] is the first entry from [i] on whose hash is [h], and 0 when there is none. *)
Definition first_from (hs : list Z) (i : nat) (h z : Z) : Prop :=
  (z = 0 ∧ ∀ j, (i ≤ j)%nat → hs !! j ≠ Some h) ∨
  (∃ k : nat, z = Z.of_nat k ∧ (i ≤ k)%nat ∧ hs !! k = Some h ∧ ∀ j, (i ≤ j < k)%nat → hs !! j ≠ Some h).

Lemma first_from_app hs i h h' z :
  (1 ≤ i ≤ length hs)%nat → first_from hs i h z →
  first_from (hs ++ [h']) i h (if (z =? 0) && (h =? h') then zlen hs else z).
Proof.
  intros Hi [[-> Hn]|(k&->&Hk&Hh&Hn)].
  - cbn [Z.eqb andb]. destruct (Z.eqb_spec h h') as [->|Hne].
    + right. exists (length hs). split; [done|]. split; [lia|]. split; [by apply list_lookup_middle|].
      intros j Hj. rewrite lookup_app_l by lia. apply Hn. lia.
    + left. split; [done|]. intros j Hj E. apply lookup_app_Some in E as [E|[_ E]]; [by apply (Hn j)|].
      apply list_lookup_singleton_Some in E as [_ E]. congruence.
  - destruct (Z.eqb_spec (Z.of_nat k) 0) as [E|_]; [lia|]. right. exists k. cbn [andb].
    pose proof (lookup_lt_Some _ _ _ Hh). split; [done|]. split; [done|]. rewrite lookup_app_l by lia. split; [done|].
    intros j Hj. rewrite lookup_app_l by lia. by apply Hn.
Qed.

Section PoolProps.
Context `{HostAllocatorOk, InternMapOk}.
Abbreviation CIS := (CAS * bebop_intern_t)%type.

Record pool_ok (p : bebop_intern_t) : Prop := {
  pl_hashes : (1 ≤ length (in_hashes p))%nat;
  pl_strings : length (in_strings p) = length (in_hashes p);
  pl_lengths : length (in_lengths p) = length (in_hashes p);
  pl_next : length (in_next p) = length (in_hashes p);
  pl_null : in_strings p !! 0%nat = Some None;
  pl_entry : ∀ i h, (1 ≤ i)%nat → in_hashes p !! i = Some h →
    ∃ s z, in_strings p !! i = Some (Some s) ∧ h = bebop_hash_fnv1a s ∧
      in_lengths p !! i = Some (zlen s) ∧ in_next p !! i = Some z ∧ first_from (in_hashes p) (S i) h z;
  pl_lookup : ∀ h, first_from (in_hashes p) 1 h (default 0 (bebop_internmap_find (in_lookup p) h)) ∧
    bebop_internmap_find (in_lookup p) h ≠ Some 0;
  pl_distinct : ∀ i j s, in_strings p !! i = Some (Some s) → in_strings p !! j = Some (Some s) → i = j;
  pl_capacity : in_count p ≤ in_capacity p < 2 ^ 32
}.

(** No entry from [i] on holds [str]. *)
Definition not_from (p : bebop_intern_t) (i : nat) (str : list Z) : Prop :=
  ∀ j, (i ≤ j)%nat → in_strings p !! j ≠ Some (Some str).

Lemma first_none_not_from p i str :
  pool_ok p → (1 ≤ i)%nat → first_from (in_hashes p) i (bebop_hash_fnv1a str) 0 → not_from p i str.
Proof.
  intros Hp Hi [[_ Hn]|(k&Hk&?&_)]; [|lia]. intros j Hj E.
  assert (Hl : (j < length (in_hashes p))%nat) by (rewrite <- (pl_strings p Hp); by eapply lookup_lt_Some).
  apply lookup_lt_is_Some in Hl as [h Hh]. destruct (pl_entry p Hp j h ltac:(lia) Hh) as (s&z&Es&->&_).
  rewrite Es in E. simplify_eq. by apply (Hn j).
Qed.

Lemma not_from_before p (i k : nat) str :
  pool_ok p → (1 ≤ i)%nat → (∀ j, (i ≤ j < k)%nat → in_hashes p !! j ≠ Some (bebop_hash_fnv1a str)) →
  not_from p k str → not_from p i str.
Proof.
  intros Hp Hi Hno Hnf j Hj Ej. destruct (decide (j < k)%nat) as [Hlt|]; [|apply (Hnf j); [lia|done]].
  assert (Hl : (j < length (in_hashes p))%nat) by (rewrite <- (pl_strings p Hp); by eapply lookup_lt_Some).
  apply lookup_lt_is_Some in Hl as [h Hhj]. destruct (pl_entry p Hp j h ltac:(lia) Hhj) as (sj&zj&Esj&->&_).
  rewrite Esj in Ej. simplify_eq. apply (Hno j); [lia|done].
Qed.

(** The walk from an entry of the hash finds the string, or the last entry of the chain. *)
Lemma chain_walk_spec p str fuel (k : nat) :
  pool_ok p → (1 ≤ k)%nat → in_hashes p !! k = Some (bebop_hash_fnv1a str) →
  (length (in_hashes p) - k <= fuel)%nat →
  ∃ r, chain_walk fuel p str (Z.of_nat k) = Some r ∧
    match r with
    | inl idx => ∃ i : nat, idx = Z.of_nat i ∧ (1 ≤ i)%nat ∧ in_strings p !! i = Some (Some str)
    | inr idx => ∃ i : nat, idx = Z.of_nat i ∧ (k ≤ i)%nat ∧ in_hashes p !! i = Some (bebop_hash_fnv1a str) ∧
        first_from (in_hashes p) (S i) (bebop_hash_fnv1a str) 0 ∧ not_from p k str
    end.
Proof.
  intros Hp. revert k. induction fuel as [|fuel IH]; intros k Hk Hh Hf.
  { apply lookup_lt_Some in Hh. lia. }
  destruct (pl_entry p Hp k _ Hk Hh) as (s&z&Es&Eh&El&En&Hz). cbn [chain_walk].
  assert (Hload : ∀ l v, l !! k = Some v → load l (Z.of_nat k) = Some v).
  { intros l v E. apply load_Some. split; [lia|]. by rewrite Nat2Z.id. }
  rewrite (Hload _ _ El). cbn [mbind option_bind].
  assert (Hsame : (if zlen s =? zlen str then content ← in_strings p !! Z.to_nat (Z.of_nat k); content ← content; Some (bool_decide (content = str)) else Some false)
     = Some (bool_decide (s = str))).
  { destruct (Z.eqb_spec (zlen s) (zlen str)) as [Hl|Hl].
    - rewrite Nat2Z.id, Es. done.
    - rewrite bool_decide_eq_false_2; [done|]. congruence. }
  rewrite Hsame. cbn [mbind option_bind]. clear Hsame. case_bool_decide as Hs.
  { subst s. eexists. split; [done|]. by exists k. }
  rewrite (Hload _ _ En). cbn [mbind option_bind].
  assert (Hnk : in_strings p !! k ≠ Some (Some str)) by (rewrite Es; congruence).
  rewrite Eh in Hz. destruct (Z.eqb_spec z 0) as [->|Hz0].
  - eexists. split; [done|]. rewrite <- Eh in Hz. exists k. split_and!; [done|lia|done|done|].
    intros j Hj. destruct (decide (j = k)) as [->|]; [done|].
    apply (first_none_not_from p (S k)); [done|lia|done|lia].
  - destruct Hz as [[? _]|(k'&->&Hk'&Hh'&Hno)]; [lia|]. rewrite <- Eh in Hh', Hno.
    destruct (IH k' ltac:(lia) Hh' ltac:(lia)) as (r&->&Hr). exists r. split; [done|].
    destruct r as [idx|idx]; [done|]. destruct Hr as (i&->&Hi&Hhi&Hlast&Hnf).
    exists i. split_and!; [done|lia|done|done|]. intros j Hj Ej. destruct (decide (j = k)) as [->|]; [done|].
    by apply (not_from_before p (S k) k' str Hp ltac:(lia) Hno Hnf j); [lia|].
Qed.

(** *** Allocation *)

Lemma arena_kept_refl s : carena_ok (hp_live s.1) s.2 → arena_kept s s.
Proof. intros Hs. split; [done|]. split; [done|auto]. Qed.

Lemma arena_kept_trans s s' s'' : arena_kept s s' → arena_kept s' s'' → arena_kept s s''.
Proof. intros (_&H1'&H2') (H3'&H4'&H5'). split; [done|]. split; [by etrans|auto]. Qed.

Lemma arena_alloc_kept s k size :
  carena_ok (hp_live s.1) s.2 → 0 ≤ k < 64 → 0 ≤ size ≤ SIZE_MAX →
  ∃ r s', bebop_arena_alloc size (2 ^ k) s = Some (r, s') ∧ arena_kept s s'.
Proof.
  destruct s as [h ar]. intros Hs Hk Hz. destruct (carena_alloc_spec h ar k size Hs Hk Hz) as (r&h'&ar'&E&Hok&Hsub&Hg&_).
  exists r, (h', ar'). split; [done|]. split; [done|]. split; [done|done].
Qed.

Lemma alloc_n_kept s k elem n :
  carena_ok (hp_live s.1) s.2 → 0 ≤ k < 64 →
  ∃ r s', bebop__arena_alloc_n elem n (2 ^ k) s = Some (r, s') ∧ arena_kept s s'.
Proof.
  intros Hs Hk. unfold bebop__arena_alloc_n. case_match.
  - exists None, s. split; [done|]. by apply arena_kept_refl.
  - apply arena_alloc_kept; [done|done|]. pose proof (Z.mod_pos_bound (elem * n) (2 ^ 64)). unfold u64, SIZE_MAX. lia.
Qed.

Lemma new_arrays_kept s n :
  carena_ok (hp_live s.1) s.2 → ∃ ok s', new_arrays n s = Some (ok, s') ∧ arena_kept s s'.
Proof.
  intros Hs. unfold new_arrays, mbind, C_bind.
  destruct (alloc_n_kept s 3 8 n Hs ltac:(lia)) as (r1&s1&E1&K1). change (2 ^ 3) with 8 in E1. rewrite E1.
  destruct (alloc_n_kept s1 3 8 n (proj1 K1) ltac:(lia)) as (r2&s2&E2&K2). change (2 ^ 3) with 8 in E2. rewrite E2.
  destruct (alloc_n_kept s2 2 4 n (proj1 K2) ltac:(lia)) as (r3&s3&E3&K3). change (2 ^ 2) with 4 in E3. rewrite E3.
  destruct (alloc_n_kept s3 2 4 n (proj1 K3) ltac:(lia)) as (r4&s4&E4&K4). change (2 ^ 2) with 4 in E4. rewrite E4.
  eexists _, s4. split; [done|]. eauto using arena_kept_trans.
Qed.

Lemma strndup_kept s n :
  carena_ok (hp_live s.1) s.2 → 0 ≤ n ≤ SIZE_MAX →
  ∃ r s', bebop_arena_strndup n s = Some (r, s') ∧ arena_kept s s'.
Proof.
  intros Hs Hn. unfold bebop_arena_strndup. destruct (Z.eqb_spec n SIZE_MAX) as [->|Hne].
  - exists None, s. split; [done|]. by apply arena_kept_refl.
  - apply (arena_alloc_kept s 0); [done|lia|unfold SIZE_MAX in *; lia].
Qed.

(** *** Growth and new entries *)

(** A larger capacity is all growth changes. *)
Definition with_capacity (p : bebop_intern_t) (c : Z) : bebop_intern_t :=
  mkIntern (in_strings p) (in_hashes p) (in_lengths p) (in_next p) c (in_lookup p).

Lemma pool_ok_capacity p c : pool_ok p → in_count p ≤ c < 2 ^ 32 → pool_ok (with_capacity p c).
Proof. intros [] Hc. by constructor. Qed.

Lemma room_spec s p :
  carena_ok (hp_live s.1) s.2 → pool_ok p → in_count p < 2 ^ 31 →
  ∃ ok s' c, (if in_capacity p <=? in_count p then bebop__intern_grow else mret true) (s, p)
               = Some (ok, (s', with_capacity p c)) ∧ arena_kept s s' ∧
    pool_ok (with_capacity p c) ∧ (if (ok : bool) then in_count p < c else c = in_capacity p).
Proof.
  intros Hs Hp Hc. pose proof (pl_capacity p Hp) as Hcap. destruct (Z.leb_spec (in_capacity p) (in_count p)) as [Hle|Hgt].
  - unfold bebop__intern_grow, get_pool, gets, in_arena, mbind, C_bind. cbn [snd].
    destruct (new_arrays_kept s (u32 (in_capacity p * 2)) Hs) as (ok&s'&->&Hk).
    assert (H1' : 1 ≤ in_count p) by (pose proof (pl_hashes p Hp); unfold in_count, zlen; lia).
    rewrite u32_small in * by lia. destruct ok; cbn [negb].
    + exists true, s', (in_capacity p * 2). split; [done|]. split; [done|]. split; [apply pool_ok_capacity; [done|lia]|lia].
    + exists false, s', (in_capacity p). split; [by destruct p|]. split; [done|]. split; [by apply pool_ok_capacity|done].
  - exists true, s, (in_capacity p). split; [by destruct p|]. split; [by apply arena_kept_refl|].
    split; [by apply pool_ok_capacity|done].
Qed.

Lemma lookup_snoc_lt {A} (l : list A) x y (i : nat) : (i < length l)%nat → (l ++ [x]) !! i = Some y ↔ l !! i = Some y.
Proof. intros. by rewrite lookup_app_l. Qed.

(** Where the tail of a chain points, [tail = 0] for a hash without entries. *)
Definition tail_of (p : bebop_intern_t) (h tail : Z) : Prop :=
  (tail = 0 ∧ bebop_internmap_find (in_lookup p) h = None) ∨
  (∃ t : nat, tail = Z.of_nat t ∧ (1 ≤ t)%nat ∧ in_hashes p !! t = Some h ∧ first_from (in_hashes p) (S t) h 0 ∧
     bebop_internmap_find (in_lookup p) h ≠ None).

Definition with_lookup (p : bebop_intern_t) (m : bebop_internmap) : bebop_intern_t :=
  mkIntern (in_strings p) (in_hashes p) (in_lengths p) (in_next p) (in_capacity p) m.

(** The links of the old entries once a new one hangs behind [tail]. *)
Lemma add_entry_link p h tail i hi z :
  length (in_next p) = length (in_hashes p) →
  (∀ k, first_from (in_hashes p) 1 k (default 0 (bebop_internmap_find (in_lookup p) k))) →
  tail_of p h tail → (1 ≤ i < length (in_hashes p))%nat → in_hashes p !! i = Some hi →
  in_next p !! i = Some z → first_from (in_hashes p) (S i) hi z →
  (if tail =? 0 then in_next p ++ [0] else <[Z.to_nat tail := in_count p]> (in_next p ++ [0])) !! i
  = Some (if (z =? 0) && (hi =? h) then zlen (in_hashes p) else z).
Proof.
  intros Hn Hlk [[-> Hf]|(t&->&Ht&Ht'&Htl&_)] Hi Ei En Hz.
  - cbn [Z.eqb]; rewrite lookup_app_l by lia. rewrite En. f_equal. destruct (Z.eqb_spec hi h) as [->|_]; [|by rewrite andb_false_r].
    exfalso. specialize (Hlk h). rewrite Hf in Hlk. destruct Hlk as [[_ Hx]|(k&Hk&?&_)]; [apply (Hx i); [lia|done]|cbn in Hk; lia].
  - destruct (Z.eqb_spec (Z.of_nat t) 0); [lia|]. rewrite Nat2Z.id. destruct (decide (i = t)) as [->|Hit].
    + rewrite list_lookup_insert_eq by (rewrite length_app; cbn; lia). replace hi with h by congruence. rewrite Z.eqb_refl.
      assert (Eh : hi = h) by congruence. subst hi. destruct Hz as [[-> _]|(k&->&Hk&Hkh&_)]; [done|]. exfalso.
      destruct Htl as [[_ Hx]|(?&?&?&_)]; [|lia]. by apply (Hx k).
    + rewrite list_lookup_insert_ne by done. rewrite lookup_app_l by lia. rewrite En. f_equal.
      destruct (Z.eqb_spec hi h) as [->|_]; [|by rewrite andb_false_r].
      destruct (Z.eqb_spec z 0) as [->|]; [|done]. exfalso.
      destruct Hz as [[_ Hx]|(k&?&?&_)]; [|lia]. destruct (decide (i < t)%nat) as [Hlt'|Hge].
      * apply (Hx t); [lia|done].
      * destruct Htl as [[_ Hy]|(k&?&?&_)]; [|lia]. apply (Hy i); [lia|done].
Qed.

(** The entries of the pool after [add_entry], whatever map it then has. *)
Lemma add_entry_ok p str tail m :
  pool_ok p → not_from p 1 str → tail_of p (bebop_hash_fnv1a str) tail → in_count p < in_capacity p →
  (∀ k, bebop_internmap_find m k =
     if (tail =? 0) && (k =? bebop_hash_fnv1a str) then Some (in_count p) else bebop_internmap_find (in_lookup p) k) →
  pool_ok (with_lookup (add_entry p str (bebop_hash_fnv1a str) tail) m).
Proof.
  intros Hp Hno Htail Hcap Hm. set (h := bebop_hash_fnv1a str) in *.
  destruct Hp as [Hh Hs Hl Hn H0' He Hlk Hd Hc]. unfold with_lookup, add_entry. constructor; cbn [in_strings in_hashes in_lengths in_next in_capacity in_lookup in_count].
  - rewrite length_app. cbn. lia.
  - rewrite !length_app. cbn. lia.
  - rewrite !length_app. cbn. lia.
  - rewrite length_app. cbn. destruct (tail =? 0); rewrite ?length_insert, length_app; cbn; lia.
  - apply lookup_app_l_Some. done.
  - intros i hi Hi Ei. destruct (decide (i = length (in_hashes p))) as [->|Hne].
    + rewrite list_lookup_middle in Ei by done. simplify_eq. exists str, 0. split_and!.
      * by apply list_lookup_middle.
      * done.
      * by apply list_lookup_middle.
      * destruct Htail as [[-> _]|(t&->&Ht&Ht'&_)]; [by apply list_lookup_middle|].
        destruct (Z.eqb_spec (Z.of_nat t) 0); [lia|]. apply lookup_lt_Some in Ht'.
        rewrite list_lookup_insert_ne by lia. by apply list_lookup_middle.
      * left. split; [done|]. intros j Hj Ej. apply lookup_lt_Some in Ej. rewrite length_app in Ej. cbn in Ej. lia.
    + pose proof (lookup_lt_Some _ _ _ Ei) as Hlt. rewrite length_app in Hlt. cbn in Hlt.
      rewrite lookup_app_l in Ei by lia. destruct (He i hi Hi Ei) as (s&z&Es&->&El&En&Hz).
      exists s, (if (z =? 0) && (bebop_hash_fnv1a s =? h) then zlen (in_hashes p) else z). split_and!.
      * by apply lookup_app_l_Some.
      * done.
      * by apply lookup_app_l_Some.
      * apply (add_entry_link p h tail); try done; [|lia]. intros k. apply Hlk.
      * apply first_from_app; [lia|done].
  - intros k. rewrite Hm. destruct (Hlk k) as [Hfk Hnk].
    pose proof (first_from_app _ _ _ h _ (conj (le_n 1) Hh) Hfk) as Hf'. split.
    + destruct (Z.eqb_spec k h) as [->|Hkh].
      * rewrite andb_true_r in *. destruct Htail as [[-> Hnone]|(t&->&Ht&_&_&Hsome)]; cbn [Z.eqb].
        -- rewrite Hnone in Hf'. done.
        -- destruct (Z.eqb_spec (Z.of_nat t) 0); [lia|]. destruct (bebop_internmap_find (in_lookup p) h) as [z|] eqn:Ez; [|done].
           cbn in Hf' |- *. destruct (Z.eqb_spec z 0) as [->|]; [done|]. done.
      * rewrite andb_false_r in *. done.
    + destruct ((tail =? 0) && (k =? h)); [|done]. unfold in_count, zlen. intros [= E]. lia.
  - intros i j s Ei Ej.
    assert (Hcase : ∀ i, (in_strings p ++ [Some str]) !! i = Some (Some s) → i = length (in_strings p) ∧ s = str ∨ in_strings p !! i = Some (Some s)).
    { intros i' Ei'. apply lookup_app_Some in Ei' as [Ei'|[Hge Ei']]; [by right|].
      apply list_lookup_singleton_Some in Ei' as [Hz Es]. simplify_eq. left. split; [lia|done]. }
    assert (Hpos : ∀ i, in_strings p !! i = Some (Some s) → s ≠ str).
    { intros i' Ei' ->. destruct i' as [|i']; [congruence|]. apply (Hno (S i')); [lia|done]. }
    destruct (Hcase i Ei) as [[-> ->]|Hi], (Hcase j Ej) as [[-> Es]|Hj]; try done.
    + by destruct (Hpos j Hj).
    + subst s. by destruct (Hpos i Hi).
    + eauto.
  - unfold in_count. cbn [in_hashes]. rewrite zlen_app. unfold in_count in *. change (zlen [h]) with 1. lia.
Qed.

(** *** The operations *)

Lemma intern_new_spec s p str tail :
  carena_ok (hp_live s.1) s.2 → pool_ok p → in_count p < 2 ^ 31 → zlen str ≤ UINT32_MAX →
  not_from p 1 str → tail_of p (bebop_hash_fnv1a str) tail →
  ∃ o s' p', intern_new str (bebop_hash_fnv1a str) tail (s, p) = Some (o, (s', p')) ∧ arena_kept s s' ∧
    match o with
    | Abort => True
    | Done z => pool_ok p' ∧
        (z = 0 ∧ in_strings p' = in_strings p ∧ in_lengths p' = in_lengths p ∨
         z = in_count p ∧ in_strings p' = in_strings p ++ [Some str] ∧ in_lengths p' = in_lengths p ++ [zlen str])
    end.
Proof.
  intros Hs Hp Hc Hl Hno Ht. unfold intern_new, get_pool, gets, mbind at 1, C_bind. cbn [snd].
  destruct (room_spec s p Hs Hp Hc) as (ok&s1&c&E1&K1&Hp1&Hok). unfold mbind at 1, C_bind. rewrite E1. clear E1.
  assert (H1' : 1 ≤ in_count p) by (pose proof (pl_hashes p Hp); unfold in_count, zlen; lia).
  destruct ok; cbn [negb].
  2:{ eexists (Done 0), s1, _. split; [done|]. split; [done|]. split; [done|]. by left. }
  unfold in_arena, mbind, C_bind.
  destruct (strndup_kept s1 (zlen str) (proj1 K1)) as (r&s2&E2&K2); [unfold UINT32_MAX, SIZE_MAX in *; zlen_pos; lia|]. rewrite E2. clear E2.
  assert (K12 : arena_kept s s2) by eauto using arena_kept_trans. destruct r as [copy|].
  2:{ eexists (Done 0), s2, _. split; [done|]. split; [done|]. split; [done|]. by left. }
  set (p1 := with_capacity p c) in *. pose proof (add_entry_ok p1 str tail) as Hadd.
  assert (Ecount : in_count p1 = in_count p) by done. cbn [snd put_pool modify].
  destruct (Z.eqb_spec tail 0) as [->|Htail]; cbn [negb].
  - destruct Ht as [[_ Hf]|(t&?&?&_)]; [|lia].
    destruct (internmap_insert_ok (in_lookup p) (bebop_hash_fnv1a str) (in_count p) s2 (proj1 K2) Hf) as (o&s3&E3&K3&Hm).
    change (in_lookup (add_entry p1 str (bebop_hash_fnv1a str) 0)) with (in_lookup p). rewrite Ecount, E3. clear E3.
    assert (K : arena_kept s s3) by eauto using arena_kept_trans. destruct o as [|m]; [by eexists Abort, s3, _|].
    eexists (Done _), s3, _. split; [done|]. split; [done|]. split; [|by right].
    apply Hadd; [done|done|by left|done|]. intros k. rewrite Hm. cbn. done.
  - eexists (Done _), s2, _. split; [done|]. split; [done|]. split; [|by right].
    apply (Hadd (in_lookup p)); [done|done| |done|].
    + destruct Ht as [[? _]|Ht]; [done|by right].
    + intros k. destruct (Z.eqb_spec tail 0); [done|]. done.
Qed.

Lemma str_get_Some p i t :
  pool_ok p → bebop_str_get p i = Some t ↔ 1 ≤ i ∧ in_strings p !! Z.to_nat i = Some (Some t).
Proof.
  intros Hp. unfold bebop_str_get. pose proof (pl_null p Hp) as H0'. destruct (Z.eqb_spec i 0) as [->|Hi]; cbn [orb].
  { change (Z.to_nat 0) with 0%nat. rewrite H0'. intuition (lia || congruence). }
  assert (Hlen : in_count p = zlen (in_strings p)) by (unfold in_count, zlen; by rewrite (pl_strings p Hp)).
  destruct (Z.leb_spec (in_count p) i) as [Hle|Hgt].
  - split; [done|]. intros [_ E%lookup_lt_Some]. unfold zlen in Hlen. lia.
  - destruct (in_strings p !! Z.to_nat i) as [x|] eqn:E; cbn [default from_option id].
    + assert (i < 0 → x = None) by (intros; replace (Z.to_nat i) with 0%nat in E by lia; congruence).
      split; [intros ->|intros [_ ?]; congruence]. split; [|done]. destruct (Z.ltb_spec i 0); [naive_solver|lia].
    + split; [done|]. by intros [_ ?].
Qed.

(** What interning promises of the handles. *)
Definition interned (p p' : bebop_intern_t) (str : list Z) (h : Z) : Prop :=
  pool_ok p' ∧
  (if h =? 0 then ∀ i, bebop_str_get p' i = bebop_str_get p i ∧ bebop_str_get p i ≠ Some str
   else bebop_str_get p' h = Some str ∧ bebop_str_len p' h = zlen str ∧
        (∀ t, bebop_str_get p h = Some t → t = str) ∧
        ∀ i, i ≠ h → bebop_str_get p' i = bebop_str_get p i ∧ bebop_str_get p' i ≠ Some str).

Lemma str_get_ne p i str : pool_ok p → not_from p 1 str → bebop_str_get p i ≠ Some str.
Proof. intros Hp Hno [Hi E]%str_get_Some; [|done]. apply (Hno (Z.to_nat i)); [lia|done]. Qed.

Lemma str_get_ext p p' i :
  pool_ok p → pool_ok p' → (∀ t, 1 ≤ i → in_strings p' !! Z.to_nat i = Some (Some t) ↔ in_strings p !! Z.to_nat i = Some (Some t)) →
  bebop_str_get p' i = bebop_str_get p i.
Proof.
  intros Hp Hp' E. apply option_eq. intros t. rewrite !str_get_Some by done.
  split; intros [Hi ?]; (split; [done|]); by apply E.
Qed.

(** The handle of an entry. *)
Lemma interned_at p p' str (i : nat) :
  pool_ok p' → (1 ≤ i)%nat → in_strings p' !! i = Some (Some str) →
  (∀ t, bebop_str_get p (Z.of_nat i) = Some t → t = str) →
  (∀ j, j ≠ Z.of_nat i → bebop_str_get p' j = bebop_str_get p j) → interned p p' str (Z.of_nat i).
Proof.
  intros Hp' Hi Ei Hsame Hold. split; [done|]. destruct (Z.eqb_spec (Z.of_nat i) 0); [lia|].
  assert (Hlt : (i < length (in_hashes p'))%nat) by (rewrite <- (pl_strings p' Hp'); by eapply lookup_lt_Some).
  pose proof Hlt as Hx. apply lookup_lt_is_Some in Hx as [h Hh]. destruct (pl_entry p' Hp' i h Hi Hh) as (s&z&Es&_&El&_).
  split; [|split; [|split; [done|]]].
  - apply str_get_Some; [done|]. rewrite Nat2Z.id. split; [lia|done].
  - unfold bebop_str_len, in_count, zlen. destruct (Z.eqb_spec (Z.of_nat i) 0); [lia|].
    destruct (Z.leb_spec (Z.of_nat (length (in_hashes p'))) (Z.of_nat i)); [lia|]. cbn [orb]. rewrite Nat2Z.id, El. cbn.
    unfold zlen. congruence.
  - intros j Hj. split; [auto|]. intros [Hj1 Ej]%str_get_Some; [|done].
    pose proof (pl_distinct p' Hp' _ _ _ Ej Ei). lia.
Qed.

Lemma intern_new_interned s p str tail :
  carena_ok (hp_live s.1) s.2 → pool_ok p → in_count p < 2 ^ 31 → zlen str ≤ UINT32_MAX →
  not_from p 1 str → tail_of p (bebop_hash_fnv1a str) tail →
  ∃ o s' p', intern_new str (bebop_hash_fnv1a str) tail (s, p) = Some (o, (s', p')) ∧ arena_kept s s' ∧
    match o with Abort => True | Done z => interned p p' str z end.
Proof.
  intros Hs Hp Hc Hl Hno Ht. destruct (intern_new_spec s p str tail Hs Hp Hc Hl Hno Ht) as (o&s'&p'&E&K&Ho).
  exists o, s', p'. split; [done|]. split; [done|]. destruct o as [|z]; [done|].
  destruct Ho as (Hp'&[(->&Es&_)|(->&Es&_)]).
  - split; [done|]. cbn [Z.eqb]. intros i. split; [|by apply str_get_ne]. apply str_get_ext; [done|done|]. by rewrite Es.
  - unfold in_count, zlen. rewrite <- (pl_strings p Hp). pose proof (pl_hashes p Hp). pose proof (pl_strings p Hp).
    apply interned_at; [done|lia|rewrite Es; by apply list_lookup_middle| |].
    { intros t [_ Ex%lookup_lt_Some]%str_get_Some; [lia|done]. }
    intros j Hj. apply str_get_ext; [done|done|]. intros t Hj1. rewrite Es. split.
    + intros [?|[Hge Ex%list_lookup_singleton_Some]]%lookup_app_Some; [done|lia].
    + intros Ex. by apply lookup_app_l_Some.
Qed.

Lemma intern_spec s p str :
  carena_ok (hp_live s.1) s.2 → pool_ok p → in_count p < 2 ^ 31 → zlen str ≤ UINT32_MAX →
  ∃ o s' p', bebop_intern_n (Some str) (s, p) = Some (o, (s', p')) ∧ arena_kept s s' ∧
    match o with Abort => True | Done h => interned p p' str h end.
Proof.
  intros Hs Hp Hc Hl. unfold bebop_intern_n. destruct (Z.ltb_spec UINT32_MAX (zlen str)); [lia|].
  unfold get_pool, gets, mbind at 1, C_bind. cbn [snd]. destruct (pl_lookup p Hp (bebop_hash_fnv1a str)) as [Hf Hnz].
  destruct (bebop_internmap_find (in_lookup p) (bebop_hash_fnv1a str)) as [idx|] eqn:Efind; cbn [default from_option id] in Hf.
  - destruct Hf as [[-> _]|(k&->&Hk&Hh&Hno)]; [done|].
    destruct (chain_walk_spec p str (length (in_hashes p)) k Hp Hk Hh ltac:(lia)) as (r&Er&Hr).
    unfold lift, mbind, C_bind. rewrite Er. destruct r as [idx|tail].
    + destruct Hr as (i&->&Hi&Ei). exists (Done (Z.of_nat i)), s, p. split; [done|]. split; [by apply arena_kept_refl|].
      apply interned_at; try done. intros t [_ Et]%str_get_Some; [|done]. rewrite Nat2Z.id in Et. congruence.
    + destruct Hr as (t&->&Ht&Hht&Hlast&Hnf). apply intern_new_interned; [done..| |].
      * by apply (not_from_before p 1 k).
      * right. exists t. split_and!; [done|lia|done|done|congruence].
  - apply intern_new_interned; [done..| |by left]. by apply (first_none_not_from p 1).
Qed.

(** C10: [bebop_intern_n] on a well-formed pool, for any string and any answers of the
    allocation callback: the call is defined and keeps arena and pool well-formed.  It
    returns the null handle only when the string is not in the pool, and then no handle
    changes its meaning; otherwise the handle resolves to the string and its length, it is
    the handle the string already had when it had one (so that equal strings have equal
    handles), and every other handle resolves as before. Only a failure of the hash map to
    allocate ends the process. *)
Theorem intern_correct s p str :
  carena_ok (hp_live s.1) s.2 → pool_ok p → in_count p < 2 ^ 31 → zlen str ≤ UINT32_MAX →
  ∃ o s' p', bebop_intern_n (Some str) (s, p) = Some (o, (s', p')) ∧ arena_kept s s' ∧
    match o with
    | Abort => True
    | Done h => pool_ok p' ∧
        (if h =? 0 then ∀ i, bebop_str_get p' i = bebop_str_get p i ∧ bebop_str_get p i ≠ Some str
         else bebop_str_get p' h = Some str ∧ bebop_str_len p' h = zlen str ∧
              (∀ t, bebop_str_get p h = Some t → t = str) ∧
              ∀ i, i ≠ h → bebop_str_get p' i = bebop_str_get p i ∧ bebop_str_get p' i ≠ Some str)
    end.
Proof. apply intern_spec. Qed.

Lemma intern_init_spec capacity s :
  carena_ok (hp_live s.1) s.2 → 0 ≤ capacity < 2 ^ 32 →
  ∃ o s', bebop_intern_init capacity s = Some (o, s') ∧ arena_kept s s' ∧
    match o with
    | Done (Some p) => pool_ok p ∧ ∀ i, bebop_str_get p i = None
    | _ => True
    end.
Proof.
  intros Hs Hc. unfold bebop_intern_init, mbind, C_bind. set (cap := if capacity =? 0 then _ else capacity).
  assert (Hcap : 1 ≤ cap < 2 ^ 32) by (subst cap; destruct (Z.eqb_spec capacity 0); unfold BEBOP_INTERN_DEFAULT_CAPACITY; lia).
  destruct (new_arrays_kept s cap Hs) as (ok&s1&->&K1). destruct ok; cbn [negb]; [|by eexists (Done None), s1].
  destruct (internmap_new_ok cap s1 (proj1 K1)) as (o&s2&->&K2&Hm). eexists _, s2. split; [done|].
  split; [eauto using arena_kept_trans|]. destruct o as [|m]; [done|]. split.
  - constructor; cbn; try done; try lia.
    + intros i h Hi E. destruct i as [|[|i]]; [lia|done|done].
    + intros h. rewrite Hm. split; [|done]. left. split; [done|]. intros [|[|j]] Hj; [lia|done|done].
    + intros [|[|i]] [|[|j]] t; done.
  - intros i. unfold bebop_str_get. change (in_count _) with 1. cbn [in_strings]. destruct (Z.eqb_spec i 0); [done|].
    destruct (Z.leb_spec 1 i); [done|]. cbn [orb]. replace (Z.to_nat i) with 0%nat by lia. done.
Qed.
End PoolProps.

(** ** Concrete runs *)

(** A map of stdpp whose insertions take 16 bytes of the arena. *)
#[export] Instance gmap_internmap `{HostAllocator} : InternMap := {
  bebop_internmap := gmap Z Z;
  bebop_internmap_new := λ _, mret (Done ∅);
  bebop_internmap_find := λ m k, m !! k;
  bebop_internmap_insert := λ m k v,
    r ← bebop_arena_alloc 16 16; mret (match r with None => Abort | Some _ => Done (<[k := v]> m) end)
}.

#[export] Instance gmap_internmap_ok `{HostAllocatorOk} : InternMapOk.
Proof.
  split.
  - intros c s Hs. eexists (Done ∅), s. split; [done|]. split; [by apply arena_kept_refl|]. intros k. apply (lookup_empty (M := gmap Z)).
  - intros m k v s Hs _. cbn [bebop_internmap_insert bebop_internmap_find gmap_internmap]. unfold mbind, C_bind. destruct (arena_alloc_kept s 4 16 Hs ltac:(lia) ltac:(unfold SIZE_MAX; lia)) as (r&s'&E&K).
    change (2 ^ 4) with 16 in E. rewrite E. eexists _, s'. split; [done|]. split; [done|]. destruct r; [|done].
    intros k'. destruct (Z.eqb_spec k' k) as [->|]; [apply (lookup_insert_eq (M := gmap Z))|by apply (lookup_insert_ne (M := gmap Z))].
Qed.

Definition demo_pool : CAS * @bebop_intern_t (@gmap_internmap bump_allocator) :=
  match @bebop_intern_init bump_allocator (@gmap_internmap bump_allocator) 2 demo_carena with
  | Some (Done (Some p), s) => (s, p)
  | _ => (demo_carena, mkIntern [] [] [] [] 0 ∅)
  end.

Definition demo_interns : option (outcome Z * outcome Z * outcome Z * Z) :=
  match @bebop_intern_n bump_allocator (@gmap_internmap bump_allocator) (Some [97; 98]) demo_pool with
  | Some (a, s) =>
      match @bebop_intern_n bump_allocator (@gmap_internmap bump_allocator) (Some [99]) s with
      | Some (b, s) =>
          match @bebop_intern_n bump_allocator (@gmap_internmap bump_allocator) (Some [97; 98]) s with
          | Some (c, s) => Some (a, b, c, in_capacity s.2)
          | None => None
          end
      | None => None
      end
  | None => None
  end.

(** Evaluation of a run without its final state. *)
Definition answer {S A} (r : option (A * S)) : option A := match r with Some (a, _) => Some a | None => None end.
Definition succeeded {A} (o : option (outcome (option A))) : bool :=
  match o with Some (Done (Some _)) => true | _ => false end.

Lemma demo_init_succeeds :
  succeeded (answer (@bebop_intern_init bump_allocator (@gmap_internmap bump_allocator) 2 demo_carena)) = true.
Proof. vm_compute. reflexivity. Qed.

Lemma demo_pool_ok : carena_ok (hp_live demo_pool.1.1) demo_pool.1.2 ∧ pool_ok demo_pool.2.
Proof.
  destruct (@intern_init_spec bump_allocator _ (@gmap_internmap bump_allocator) _ 2 demo_carena demo_carena_ok ltac:(lia)) as (o&s'&E&K&Ho).
  pose proof demo_init_succeeds as Hd. rewrite E in Hd. unfold demo_pool. rewrite E. cbn [answer] in Hd. clear E.
  destruct o as [|[p|]]; [discriminate Hd| |discriminate Hd]. destruct Ho as [Hp _]. split; [apply K|done].
Qed.

Lemma demo_intern_first :
  answer (@bebop_intern_n bump_allocator (@gmap_internmap bump_allocator) (Some [97; 98]) demo_pool) = Some (Done 1).
Proof. vm_compute. reflexivity. Qed.

Lemma intern_witness :
  demo_interns = Some (Done 1, Done 2, Done 1, 4) ∧
  ∃ s' p', @bebop_intern_n bump_allocator (@gmap_internmap bump_allocator) (Some [97; 98]) demo_pool = Some (Done 1, (s', p')) ∧
    bebop_str_get p' 1 = Some [97; 98].
Proof.
  split; [vm_compute; reflexivity|].
  destruct (@intern_correct bump_allocator _ (@gmap_internmap bump_allocator) _ demo_pool.1 demo_pool.2 [97; 98]) as (o&s'&p'&E&_&Ho).
  - apply demo_pool_ok.
  - apply demo_pool_ok.
  - vm_compute. reflexivity.
  - vm_compute. discriminate.
  - rewrite <- surjective_pairing in E. exists s', p'. pose proof demo_intern_first as Hd. rewrite E in Hd. cbn in Hd.
    injection Hd as ->. split; [exact E|]. apply Ho.
Defined.
