(* ===== verification/Scanner.v ===== *)
(** The scanner of the schema language ([bebop/src/bebop_scanner.c]): tokens with the
    trivia around them, their source spans with lines and columns, and the decoded text of
    literals.

    What the scanner asks of the compiler's context (memory, string pool, diagnostics) is
    the class [Context]; the spans, the trivia buffer and the error flag are its own state. *)
From Stdlib Require Import String Ascii.
From stdpp Require Import list.
From S2P Require Import Prelude.
From S2P Require Import Unicode.

(** ** Tokens *)

Record bebop_span_t : Type := mkSpan {
  off : Z; len : Z; start_line : Z; start_col : Z; end_line : Z; end_col : Z
}.

Inductive bebop_token_kind_t : Set :=
  | BEBOP_TOKEN_ENUM | BEBOP_TOKEN_STRUCT | BEBOP_TOKEN_MESSAGE | BEBOP_TOKEN_MUT
  | BEBOP_TOKEN_READONLY | BEBOP_TOKEN_MAP | BEBOP_TOKEN_ARRAY | BEBOP_TOKEN_UNION
  | BEBOP_TOKEN_SERVICE | BEBOP_TOKEN_STREAM | BEBOP_TOKEN_IMPORT | BEBOP_TOKEN_EDITION
  | BEBOP_TOKEN_PACKAGE | BEBOP_TOKEN_EXPORT | BEBOP_TOKEN_LOCAL | BEBOP_TOKEN_TRUE
  | BEBOP_TOKEN_FALSE | BEBOP_TOKEN_CONST | BEBOP_TOKEN_WITH
  | BEBOP_TOKEN_IDENTIFIER | BEBOP_TOKEN_STRING | BEBOP_TOKEN_BYTES | BEBOP_TOKEN_NUMBER
  | BEBOP_TOKEN_BLOCK_COMMENT
  | BEBOP_TOKEN_LPAREN | BEBOP_TOKEN_RPAREN | BEBOP_TOKEN_LBRACE | BEBOP_TOKEN_RBRACE
  | BEBOP_TOKEN_LBRACKET | BEBOP_TOKEN_RBRACKET | BEBOP_TOKEN_LANGLE | BEBOP_TOKEN_RANGLE
  | BEBOP_TOKEN_COLON | BEBOP_TOKEN_SEMICOLON | BEBOP_TOKEN_COMMA | BEBOP_TOKEN_DOT
  | BEBOP_TOKEN_QUESTION | BEBOP_TOKEN_SLASH | BEBOP_TOKEN_EQUALS | BEBOP_TOKEN_AT
  | BEBOP_TOKEN_DOLLAR | BEBOP_TOKEN_BACKSLASH | BEBOP_TOKEN_BACKTICK | BEBOP_TOKEN_TILDE
  | BEBOP_TOKEN_AMPERSAND | BEBOP_TOKEN_PIPE | BEBOP_TOKEN_MINUS | BEBOP_TOKEN_ARROW
  | BEBOP_TOKEN_HASH | BEBOP_TOKEN_BANG | BEBOP_TOKEN_RAW_BLOCK
  | BEBOP_TOKEN_EOF | BEBOP_TOKEN_ERROR.

#[export] Instance bebop_token_kind_eq_dec : EqDecision bebop_token_kind_t.
Proof. solve_decision. Defined.

Inductive bebop_trivia_kind_t : Set :=
  | BEBOP_TRIVIA_WHITESPACE | BEBOP_TRIVIA_NEWLINE | BEBOP_TRIVIA_LINE_COMMENT
  | BEBOP_TRIVIA_BLOCK_COMMENT | BEBOP_TRIVIA_DOC_COMMENT.

Record bebop_trivia_t : Type := mkTrivia { tv_kind : bebop_trivia_kind_t; tv_span : bebop_span_t }.

(** A slice of the shared trivia buffer; [items] is resolved from [off] after the scan. *)
Record bebop_trivia_list_t : Type := mkTriviaList { tl_count : Z; tl_off : Z }.

Record bebop_token_t : Type := mkToken {
  tk_kind : bebop_token_kind_t;
  tk_span : bebop_span_t;
  tk_lexeme : Z;
  tk_leading : bebop_trivia_list_t;
  tk_trailing : bebop_trivia_list_t
}.

(** [sizeof(bebop_trivia_t)], [sizeof(bebop_token_t)] *)
Definition sizeof_trivia : Z := 28.
Definition sizeof_token : Z := 64.

Definition no_span : bebop_span_t := mkSpan 0 0 0 0 0 0.
Definition no_trivia : bebop_trivia_list_t := mkTriviaList 0 0.

(** A token whose other fields are zero. *)
Definition token (kind : bebop_token_kind_t) (span : bebop_span_t) (lexeme : Z) : bebop_token_t :=
  mkToken kind span lexeme no_trivia no_trivia.

(** The bytes of a string of the source. *)
Definition chars (s : string) : list Z := map (λ c, Z.of_N (N_of_ascii c)) (list_ascii_of_string s).

(** The keyword table ([BEBOP_KEYWORDS] of [bebop_tables.h]). *)
Definition bebop__keywords : list (string * bebop_token_kind_t) :=
  [("enum", BEBOP_TOKEN_ENUM); ("struct", BEBOP_TOKEN_STRUCT); ("message", BEBOP_TOKEN_MESSAGE);
   ("mut", BEBOP_TOKEN_MUT); ("readonly", BEBOP_TOKEN_READONLY); ("map", BEBOP_TOKEN_MAP);
   ("array", BEBOP_TOKEN_ARRAY); ("union", BEBOP_TOKEN_UNION); ("service", BEBOP_TOKEN_SERVICE);
   ("stream", BEBOP_TOKEN_STREAM); ("import", BEBOP_TOKEN_IMPORT); ("edition", BEBOP_TOKEN_EDITION);
   ("package", BEBOP_TOKEN_PACKAGE); ("export", BEBOP_TOKEN_EXPORT); ("local", BEBOP_TOKEN_LOCAL);
   ("true", BEBOP_TOKEN_TRUE); ("false", BEBOP_TOKEN_FALSE); ("const", BEBOP_TOKEN_CONST);
   ("with", BEBOP_TOKEN_WITH)]%string.

(** The loop over the table; [bebop_streqn] compares length and bytes. *)
Fixpoint lookup_keyword_in (table : list (string * bebop_token_kind_t)) (str : list Z) : bebop_token_kind_t :=
  match table with
  | [] => BEBOP_TOKEN_IDENTIFIER
  | (kw, kind) :: table => if bool_decide (chars kw = str) then kind else lookup_keyword_in table str
  end.
Definition bebop__scan_lookup_keyword (str : list Z) : bebop_token_kind_t :=
  lookup_keyword_in bebop__keywords str.

(** The diagnostics of the scanner. *)
Inductive diag_code : Set :=
  | BEBOP_DIAG_UNTERMINATED_COMMENT | BEBOP_DIAG_INVALID_ESCAPE | BEBOP_DIAG_INVALID_UTF8
  | BEBOP_DIAG_INVALID_MACRO.
Abbreviation diag := (diag_code * bebop_span_t)%type.

(** ** The context *)

Class Context := {
  ctx : Type;
  (** [bebop__arena_alloc_n] and [bebop_arena_realloc] in the arena of the context *)
  ctx_alloc_n : Z → Z → Z → ctx → option Z * ctx;
  ctx_realloc : option Z → Z → Z → ctx → option Z * ctx;
  (** [bebop_intern_n] and [bebop_str_get] in the string pool *)
  ctx_intern_n : list Z → ctx → Z * ctx;
  ctx_str : ctx → Z → option (list Z);
  (** [bebop__context_set_error] with [BEBOP_ERR_OUT_OF_MEMORY] and a message, and
      [bebop__schema_add_diagnostic] *)
  ctx_out_of_memory : string → ctx → ctx;
  ctx_add_diagnostic : diag → ctx → ctx;
  (** whether the process was ended by [abort], and what the operations rely on *)
  ctx_ended : ctx → bool;
  ctx_ok : ctx → Prop
}.

(** Handles keep their strings while the process runs. *)
Definition ctx_le `{Context} (c c' : ctx) : Prop :=
  ctx_ok c → ctx_ok c' ∧
  (ctx_ended c' = false → ctx_ended c = false ∧ ∀ i t, ctx_str c i = Some t → ctx_str c' i = Some t).

Class ContextOk `{Context} : Prop := {
  ctx_alloc_n_ok : ∀ size n k c, 0 ≤ k < 64 → ctx_le c (ctx_alloc_n size n (2 ^ k) c).2;
  ctx_realloc_ok : ∀ p old new c, ctx_le c (ctx_realloc p old new c).2;
  ctx_intern_n_ok : ∀ str c, ctx_le c (ctx_intern_n str c).2;
  ctx_intern_n_str : ∀ str c, ctx_ok c → ctx_ended (ctx_intern_n str c).2 = false →
    (ctx_intern_n str c).1 ≠ 0 → ctx_str (ctx_intern_n str c).2 (ctx_intern_n str c).1 = Some str;
  ctx_out_of_memory_ok : ∀ message c, ctx_le c (ctx_out_of_memory message c);
  ctx_add_diagnostic_ok : ∀ d c, ctx_le c (ctx_add_diagnostic d c)
}.

#[export] Instance ctx_le_preorder `{Context} : PreOrder ctx_le.
Proof.
  split.
  - intros c Hc. split; [done|]. auto.
  - intros c c' c'' H1' H2' Hc. destruct (H1' Hc) as [Hc' H1'']. destruct (H2' Hc') as [Hc'' H2''].
    split; [done|]. intros He. destruct (H2'' He) as [He' Hs']. destruct (H1'' He') as [? Hs]. auto.
Qed.

(** ** The scanner *)

Section Scanner.
Context `{Context}.
(** The source, and whether there is a schema for diagnostics. *)
Context (source : list Z) (schema : bool).

Record bebop__scanner_t : Type := mkScanner {
  sc_pos : Z; sc_line : Z; sc_col : Z;
  sc_ctx : ctx;
  sc_trivia_buf : option Z; sc_trivia : list bebop_trivia_t; sc_trivia_capacity : Z;
  sc_error : bool
}.
Abbreviation trivia_count s := (zlen (sc_trivia s)).
Definition source_len : Z := zlen source.

Definition set_place (pos line col : Z) (s : bebop__scanner_t) : bebop__scanner_t :=
  mkScanner pos line col (sc_ctx s) (sc_trivia_buf s) (sc_trivia s) (sc_trivia_capacity s) (sc_error s).
Definition set_ctx (c : ctx) (s : bebop__scanner_t) : bebop__scanner_t :=
  mkScanner (sc_pos s) (sc_line s) (sc_col s) c (sc_trivia_buf s) (sc_trivia s) (sc_trivia_capacity s) (sc_error s).
Definition set_trivia (buf : option Z) (trivia : list bebop_trivia_t) (capacity : Z) (s : bebop__scanner_t) : bebop__scanner_t :=
  mkScanner (sc_pos s) (sc_line s) (sc_col s) (sc_ctx s) buf trivia capacity (sc_error s).
Definition set_error (message : string) (s : bebop__scanner_t) : bebop__scanner_t :=
  mkScanner (sc_pos s) (sc_line s) (sc_col s) (ctx_out_of_memory message (sc_ctx s)) (sc_trivia_buf s) (sc_trivia s)
    (sc_trivia_capacity s) true.

Abbreviation M := (C bebop__scanner_t).

(** Calls into the context. *)
Definition on_ctx {A} (f : ctx → A * ctx) : M A :=
  λ s, let '(a, c) := f (sc_ctx s) in Some (a, set_ctx c s).

Definition bebop__scan_peek_char (s : bebop__scanner_t) : Z := default 0 (load source (sc_pos s)).
Definition bebop__scan_peek_char_at (offset : Z) (s : bebop__scanner_t) : Z := default 0 (load source (sc_pos s + offset)).

Definition bebop__scan_advance : M unit :=
  modify (λ s,
    if source_len <=? sc_pos s then s
    else
      let c := bebop__scan_peek_char s in
      if c =? 10 then set_place (sc_pos s + 1) (u32 (sc_line s + 1)) 1 s
      else if c =? 13 then
        let pos := sc_pos s + 1 in
        let pos := if (pos <? source_len) && (default 0 (load source pos) =? 10) then pos + 1 else pos in
        set_place pos (u32 (sc_line s + 1)) 1 s
      else set_place (sc_pos s + 1) (sc_line s) (u32 (sc_col s + 1)) s).

Definition bebop__scan_make_span (s : bebop__scanner_t) (start_pos start_line start_col : Z) : bebop_span_t :=
  mkSpan (u32 start_pos) (u32 (sc_pos s - start_pos)) start_line start_col (sc_line s) (sc_col s).

(** The span from where [s0] was. *)
Definition span_from (s0 s : bebop__scanner_t) : bebop_span_t :=
  bebop__scan_make_span s (sc_pos s0) (sc_line s0) (sc_col s0).

Definition get : M bebop__scanner_t := gets id.

(** [s->error = BEBOP_ERR_OUT_OF_MEMORY] and the error of the context. *)
Definition out_of_memory (message : string) : M unit := modify (set_error message).

Definition add_diagnostic (code : diag_code) (span : bebop_span_t) : M unit :=
  if schema then modify (λ s, set_ctx (ctx_add_diagnostic (code, span) (sc_ctx s)) s) else mret tt.

(** *** Trivia *)

Definition BEBOP_TRIVIA_INITIAL_CAPACITY : Z := 8.

Definition bebop__scan_trivia_push (kind : bebop_trivia_kind_t) (span : bebop_span_t) : M unit :=
  s ← get;
  if sc_error s then mret tt
  else
    room ← (if sc_trivia_capacity s <=? trivia_count s then
              let old_cap := sc_trivia_capacity s in
              let new_cap := if old_cap =? 0 then BEBOP_TRIVIA_INITIAL_CAPACITY else u32 (old_cap * 2) in
              new_buf ← on_ctx (ctx_realloc (sc_trivia_buf s) (old_cap * sizeof_trivia) (new_cap * sizeof_trivia));
              match new_buf with
              | None => out_of_memory "Failed to allocate trivia buffer"%string;; mret false
              | Some _ => modify (set_trivia new_buf (sc_trivia s) new_cap);; mret true
              end
            else mret true);
    if (room : bool) then
      modify (λ s, set_trivia (sc_trivia_buf s) (sc_trivia s ++ [mkTrivia kind span]) (sc_trivia_capacity s) s)
    else mret tt.

Definition bebop__scan_trivia_slice (s : bebop__scanner_t) (mark : Z) : bebop_trivia_list_t :=
  mkTriviaList (u32 (trivia_count s - mark)) mark.

(** [while (more) advance]; [fuel] bounds the bytes left. *)
Fixpoint scan_while (fuel : nat) (more : bebop__scanner_t → bool) : M unit :=
  s ← get;
  if more s then
    match fuel with
    | O => ub
    | S fuel => bebop__scan_advance;; scan_while fuel more
    end
  else mret tt.
Definition scan_fuel : nat := S (length source).

Definition bebop__scan_skip_whitespace : M unit :=
  s0 ← get;
  scan_while scan_fuel (λ s, BEBOP_IS_WHITESPACE (bebop__scan_peek_char s));;
  s ← get;
  if sc_pos s0 <? sc_pos s then bebop__scan_trivia_push BEBOP_TRIVIA_WHITESPACE (span_from s0 s) else mret tt.

Definition bebop__scan_skip_newline : M bool :=
  s0 ← get;
  if negb (BEBOP_IS_NEWLINE (bebop__scan_peek_char s0)) then mret false
  else
    bebop__scan_advance;;
    s ← get;
    bebop__scan_trivia_push BEBOP_TRIVIA_NEWLINE (span_from s0 s);;
    mret true.

Definition bebop__scan_skip_line_comment : M bool :=
  s0 ← get;
  if negb (bebop__scan_peek_char s0 =? 47) || negb (bebop__scan_peek_char_at 1 s0 =? 47) then mret false
  else
    let is_doc := bebop__scan_peek_char_at 2 s0 =? 47 in
    bebop__scan_advance;;
    bebop__scan_advance;;
    scan_while scan_fuel (λ s, negb (bebop__scan_peek_char s =? 0) && negb (BEBOP_IS_NEWLINE (bebop__scan_peek_char s)));;
    s ← get;
    bebop__scan_trivia_push (if is_doc then BEBOP_TRIVIA_DOC_COMMENT else BEBOP_TRIVIA_LINE_COMMENT) (span_from s0 s);;
    mret true.

(** The loop up to the end of a block comment; whether it was found. *)
Fixpoint block_comment_loop (fuel : nat) : M bool :=
  s ← get;
  if bebop__scan_peek_char s =? 0 then mret false
  else if (bebop__scan_peek_char s =? 42) && (bebop__scan_peek_char_at 1 s =? 47) then
    bebop__scan_advance;;
    bebop__scan_advance;;
    mret true
  else
    match fuel with
    | O => ub
    | S fuel => bebop__scan_advance;; block_comment_loop fuel
    end.

Definition bebop__scan_skip_block_comment : M bool :=
  s0 ← get;
  if negb (bebop__scan_peek_char s0 =? 47) || negb (bebop__scan_peek_char_at 1 s0 =? 42) then mret false
  else
    let is_doc := (bebop__scan_peek_char_at 2 s0 =? 42) && negb (bebop__scan_peek_char_at 3 s0 =? 47) in
    bebop__scan_advance;;
    bebop__scan_advance;;
    terminated ← block_comment_loop scan_fuel;
    s ← get;
    (if (terminated : bool) then mret tt else add_diagnostic BEBOP_DIAG_UNTERMINATED_COMMENT (span_from s0 s));;
    bebop__scan_trivia_push (if is_doc then BEBOP_TRIVIA_DOC_COMMENT else BEBOP_TRIVIA_BLOCK_COMMENT) (span_from s0 s);;
    mret true.

(** One round of the loop over leading trivia: whether it goes on. *)
Definition leading_round : M bool :=
  bebop__scan_skip_whitespace;;
  newline ← bebop__scan_skip_newline;
  if (newline : bool) then mret true
  else
    line_comment ← bebop__scan_skip_line_comment;
    if (line_comment : bool) then mret true else bebop__scan_skip_block_comment.

Fixpoint leading_loop (fuel : nat) : M unit :=
  more ← leading_round;
  if (more : bool) then
    match fuel with
    | O => ub
    | S fuel => leading_loop fuel
    end
  else mret tt.
Definition bebop__scan_skip_leading_trivia : M unit := leading_loop scan_fuel.

(** One round of the loop over trailing trivia, which a newline ends. *)
Definition trailing_round : M bool :=
  bebop__scan_skip_whitespace;;
  line_comment ← bebop__scan_skip_line_comment;
  if (line_comment : bool) then mret true
  else
    block_comment ← bebop__scan_skip_block_comment;
    if (block_comment : bool) then mret true
    else bebop__scan_skip_newline;; mret false.

Fixpoint trailing_loop (fuel : nat) : M unit :=
  more ← trailing_round;
  if (more : bool) then
    match fuel with
    | O => ub
    | S fuel => trailing_loop fuel
    end
  else mret tt.

Definition bebop__scan_collect_trailing_trivia : M bebop_trivia_list_t :=
  s0 ← get;
  trailing_loop scan_fuel;;
  s ← get;
  mret (bebop__scan_trivia_slice s (trivia_count s0)).

(** *** Identifiers, numbers *)

(** [bebop_intern_n] of [n] bytes of the source. *)
Definition intern_source (start n : Z) : M Z :=
  text ← lift (load_bytes source start n);
  on_ctx (ctx_intern_n text).

Definition bebop__scan_identifier : M bebop_token_t :=
  s0 ← get;
  scan_while scan_fuel (λ s, BEBOP_IS_IDENT_CHAR (bebop__scan_peek_char s));;
  s ← get;
  let n := sc_pos s - sc_pos s0 in
  text ← lift (load_bytes source (sc_pos s0) n);
  let kind := bebop__scan_lookup_keyword text in
  lexeme ← intern_source (sc_pos s0) n;
  mret (token kind (span_from s0 s) lexeme).

(** A minus belongs to a number behind the [e] of an exponent. *)
Definition number_more (s : bebop__scanner_t) : bool :=
  let c := bebop__scan_peek_char s in
  (BEBOP_IS_IDENT_CHAR c || (c =? 46) || (c =? 45)) &&
  negb ((c =? 45) &&
        let prev := if 0 <? sc_pos s then default 0 (load source (sc_pos s - 1)) else 0 in
        negb (prev =? 101) && negb (prev =? 69)).

Definition bebop__scan_number : M bebop_token_t :=
  s0 ← get;
  scan_while scan_fuel number_more;;
  s ← get;
  lexeme ← intern_source (sc_pos s0) (sc_pos s - sc_pos s0);
  mret (token BEBOP_TOKEN_NUMBER (span_from s0 s) lexeme).

(** *** String and bytes literals *)

(** The text decoded so far and the room for it. *)
Record literal_buf : Type := mkBuf { buf : list Z; buf_cap : Z }.

(** The buffer with more room, or nothing when memory is out. *)
Definition bebop__scan_grow_buf (b : literal_buf) : M (option literal_buf) :=
  let new_cap := if buf_cap b =? 0 then 64 else u64 (buf_cap b * 2) in
  new_buf ← on_ctx (ctx_alloc_n 1 new_cap 1);
  match new_buf with
  | None => out_of_memory "Failed to allocate string buffer"%string;; mret None
  | Some _ => mret (Some (mkBuf (buf b) new_cap))
  end.

(** Stores one byte, growing first when there is no room. *)
Definition push_byte (c : Z) (b : literal_buf) : M (option literal_buf) :=
  room ← (if buf_cap b <=? zlen (buf b) then bebop__scan_grow_buf b else mret (Some b));
  match room with
  | None => mret None
  | Some b => if buf_cap b <=? zlen (buf b) then ub else mret (Some (mkBuf (buf b ++ [c]) (buf_cap b)))
  end.

(** [while (buf_len + n > buf_cap)] grow. *)
Fixpoint grow_for (fuel : nat) (n : Z) (b : literal_buf) : M (option literal_buf) :=
  if buf_cap b <? zlen (buf b) + n then
    match fuel with
    | O => ub
    | S fuel =>
        room ← bebop__scan_grow_buf b;
        match room with None => mret None | Some b => grow_for fuel n b end
    end
  else mret (Some b).

Fixpoint advance_n (n : nat) : M unit :=
  match n with
  | O => mret tt
  | S n => bebop__scan_advance;; advance_n n
  end.

(** One round of the loop over a literal: it goes on with the buffer, is over, or meets an
    invalid escape. *)
Inductive quoted_step : Type := QMore (b : literal_buf) | QDone (b : literal_buf) | QSkip.

Definition quoted_round (quote : Z) (b : literal_buf) : M quoted_step :=
  s ← get;
  let c := bebop__scan_peek_char s in
  let or_end (r : option literal_buf) (next : M unit) : M quoted_step :=
    match r with None => mret (QDone b) | Some b => next;; mret (QMore b) end in
  if c =? quote then
    if bebop__scan_peek_char_at 1 s =? quote then
      bebop__scan_advance;;
      bebop__scan_advance;;
      r ← push_byte quote b;
      or_end r (mret tt)
    else bebop__scan_advance;; mret (QDone b)
  else if c =? 92 then
    bebop__scan_advance;;
    s1 ← get;
    '(consumed, out) ← lift (bebop_unescape_char source (sc_pos s1) (source_len - sc_pos s1));
    if consumed =? 0 then
      add_diagnostic BEBOP_DIAG_INVALID_ESCAPE (span_from s s1);;
      mret QSkip
    else
      r ← grow_for 2 (zlen out) b;
      match r with
      | None => mret (QDone b)
      | Some b =>
          advance_n (Z.to_nat consumed);;
          mret (QMore (mkBuf (buf b ++ out) (buf_cap b)))
      end
  else if BEBOP_IS_NEWLINE c then
    r ← push_byte 10 b;
    or_end r bebop__scan_advance
  else
    r ← push_byte c b;
    or_end r bebop__scan_advance.

(** The loop: the buffer at its end, or nothing when the rest has to be skipped. *)
Fixpoint quoted_loop (fuel : nat) (quote : Z) (b : literal_buf) : M (option literal_buf) :=
  s ← get;
  if (bebop__scan_peek_char s =? 0) || sc_error s then mret (Some b)
  else
    match fuel with
    | O => ub
    | S fuel =>
        r ← quoted_round quote b;
        match r with
        | QMore b => quoted_loop fuel quote b
        | QDone b => mret (Some b)
        | QSkip => mret None
        end
    end.

(** [skip_lit_to_end]. *)
Fixpoint skip_lit_to_end (fuel : nat) (quote : Z) : M unit :=
  s ← get;
  if bebop__scan_peek_char s =? 0 then mret tt
  else if (bebop__scan_peek_char s =? quote) && negb (bebop__scan_peek_char_at 1 s =? quote) then bebop__scan_advance
  else
    match fuel with
    | O => ub
    | S fuel => bebop__scan_advance;; skip_lit_to_end fuel quote
    end.

Definition error_token (s0 : bebop__scanner_t) : M bebop_token_t :=
  s ← get; mret (token BEBOP_TOKEN_ERROR (span_from s0 s) 0).

(** [done_lit]: the token of a literal decoded into [b]. *)
Definition literal_token (s0 : bebop__scanner_t) (is_bytes : bool) (b : literal_buf) : M bebop_token_t :=
  s ← get;
  if sc_error s then error_token s0
  else
    room ← (if buf_cap b <=? zlen (buf b) then
              new_buf ← on_ctx (ctx_alloc_n 1 (zlen (buf b) + 1) 1);
              match new_buf with None => out_of_memory "Failed to allocate literal buffer"%string;; mret false | Some _ => mret true end
            else mret true);
    if negb room then error_token s0
    else
      valid ← (if negb is_bytes && (0 <? zlen (buf b)) then lift (bebop_utf8_valid (buf b) 0 (zlen (buf b)))
               else mret true);
      if negb valid then
        add_diagnostic BEBOP_DIAG_INVALID_UTF8 (span_from s0 s);;
        error_token s0
      else
        lexeme ← on_ctx (ctx_intern_n (buf b));
        mret (token (if is_bytes then BEBOP_TOKEN_BYTES else BEBOP_TOKEN_STRING) (span_from s0 s) lexeme).

Definition is_quote (c : Z) : bool := (c =? 34) || (c =? 39).

Definition bebop__scan_quoted (is_bytes : bool) : M bebop_token_t :=
  s0 ← get;
  (if is_bytes then bebop__scan_advance else mret tt);;
  s1 ← get;
  if is_bytes && negb (is_quote (bebop__scan_peek_char s1)) then error_token s0
  else
    let quote := bebop__scan_peek_char s1 in
    bebop__scan_advance;;
    r ← quoted_loop scan_fuel quote (mkBuf [] 0);
    match r with
    | Some b => literal_token s0 is_bytes b
    | None => skip_lit_to_end scan_fuel quote;; error_token s0
    end.

(** *** Raw blocks *)

(** The number of [=] from [level] on. *)
Fixpoint raw_level (fuel : nat) (s : bebop__scanner_t) (level : Z) : option Z :=
  if bebop__scan_peek_char_at level s =? 61 then
    match fuel with O => None | S fuel => raw_level fuel s (level + 1) end
  else Some level.

(** [while (match <= level && ... == '=') match++]. *)
Fixpoint raw_match (fuel : nat) (s : bebop__scanner_t) (level m : Z) : option Z :=
  if (m <=? level) && (bebop__scan_peek_char_at m s =? 61) then
    match fuel with O => None | S fuel => raw_match fuel s level (m + 1) end
  else Some m.

(** The loop over the content: its length when the closing bracket was found. *)
Fixpoint raw_loop (fuel : nat) (level content_start : Z) : M (option Z) :=
  s ← get;
  if bebop__scan_peek_char s =? 0 then mret None
  else
    closed ← (if bebop__scan_peek_char s =? 93 then
                m ← lift (raw_match scan_fuel s level 1);
                mret ((m =? level + 1) && (bebop__scan_peek_char_at m s =? 93))
              else mret false);
    if (closed : bool) then
      advance_n (Z.to_nat (level + 2));;
      mret (Some (sc_pos s - content_start))
    else
      match fuel with
      | O => ub
      | S fuel => bebop__scan_advance;; raw_loop fuel level content_start
      end.

(** Behind the opening bracket. *)
Definition scan_bracket (s0 : bebop__scanner_t) : M bebop_token_t :=
  s1 ← get;
  level ← lift (raw_level scan_fuel s1 0);
  if bebop__scan_peek_char_at level s1 =? 91 then
    advance_n (Z.to_nat (level + 1));;
    s2 ← get;
    let content_start := sc_pos s2 in
    content_len ← raw_loop scan_fuel level content_start;
    s ← get;
    match content_len with
    | Some n =>
        lexeme ← intern_source content_start n;
        mret (token BEBOP_TOKEN_RAW_BLOCK (span_from s0 s) lexeme)
    | None =>
        add_diagnostic BEBOP_DIAG_INVALID_MACRO (span_from s0 s);;
        error_token s0
    end
  else mret (token BEBOP_TOKEN_LBRACKET (span_from s0 s1) 0).

(** *** Tokens *)

(** The characters that are a token of their own. *)
Definition punctuation (c : Z) : option bebop_token_kind_t :=
  match c with
  | 40 => Some BEBOP_TOKEN_LPAREN | 41 => Some BEBOP_TOKEN_RPAREN
  | 123 => Some BEBOP_TOKEN_LBRACE | 125 => Some BEBOP_TOKEN_RBRACE
  | 93 => Some BEBOP_TOKEN_RBRACKET
  | 60 => Some BEBOP_TOKEN_LANGLE | 62 => Some BEBOP_TOKEN_RANGLE
  | 58 => Some BEBOP_TOKEN_COLON | 59 => Some BEBOP_TOKEN_SEMICOLON
  | 44 => Some BEBOP_TOKEN_COMMA | 46 => Some BEBOP_TOKEN_DOT
  | 63 => Some BEBOP_TOKEN_QUESTION | 47 => Some BEBOP_TOKEN_SLASH
  | 61 => Some BEBOP_TOKEN_EQUALS | 64 => Some BEBOP_TOKEN_AT
  | 35 => Some BEBOP_TOKEN_HASH | 33 => Some BEBOP_TOKEN_BANG
  | 36 => Some BEBOP_TOKEN_DOLLAR | 92 => Some BEBOP_TOKEN_BACKSLASH
  | 96 => Some BEBOP_TOKEN_BACKTICK | 126 => Some BEBOP_TOKEN_TILDE
  | 38 => Some BEBOP_TOKEN_AMPERSAND | 124 => Some BEBOP_TOKEN_PIPE
  | _ => None
  end.

Definition bebop__scan_token : M bebop_token_t :=
  s0 ← get;
  let c := bebop__scan_peek_char s0 in
  if c =? 0 then mret (token BEBOP_TOKEN_EOF (span_from s0 s0) 0)
  else if BEBOP_IS_IDENT_START c then
    if (c =? 98) && is_quote (bebop__scan_peek_char_at 1 s0) then bebop__scan_quoted true
    else bebop__scan_identifier
  else if BEBOP_IS_DIGIT c then bebop__scan_number
  else if is_quote c then bebop__scan_quoted false
  else
    bebop__scan_advance;;
    s ← get;
    match punctuation c with
    | Some kind => mret (token kind (span_from s0 s) 0)
    | None =>
        if c =? 91 then scan_bracket s0
        else if c =? 45 then
          if bebop__scan_peek_char s =? 62 then
            bebop__scan_advance;;
            s ← get;
            mret (token BEBOP_TOKEN_ARROW (span_from s0 s) 0)
          else mret (token BEBOP_TOKEN_MINUS (span_from s0 s) 0)
        else
          lexeme ← intern_source (sc_pos s0) 1;
          mret (token BEBOP_TOKEN_ERROR (span_from s0 s) lexeme)
    end.

Definition eof_token : bebop_token_t := token BEBOP_TOKEN_EOF no_span 0.

Definition bebop__scan_next : M bebop_token_t :=
  s0 ← get;
  if sc_error s0 then mret eof_token
  else
    bebop__scan_skip_leading_trivia;;
    s1 ← get;
    if sc_error s1 then mret eof_token
    else
      let leading := bebop__scan_trivia_slice s1 (trivia_count s0) in
      tok ← bebop__scan_token;
      let tok := mkToken (tk_kind tok) (tk_span tok) (tk_lexeme tok) leading (tk_trailing tok) in
      s2 ← get;
      if negb (bool_decide (tk_kind tok = BEBOP_TOKEN_EOF)) && negb (sc_error s2) then
        trailing ← bebop__scan_collect_trailing_trivia;
        mret (mkToken (tk_kind tok) (tk_span tok) (tk_lexeme tok) leading trailing)
      else mret tok.

(** The loop over the tokens; [tokens] is the buffer at [ptr] with room for [capacity]. *)
Fixpoint scan_loop (fuel : nat) (p : option Z) (tokens : list bebop_token_t) (capacity : Z) : M (list bebop_token_t) :=
  s ← get;
  if sc_error s then mret tokens
  else
    match fuel with
    | O => ub
    | S fuel =>
        tok ← bebop__scan_next;
        let new_cap := u32 (capacity * 2) in
        room ← (if capacity <=? zlen tokens then
                  new_buf ← on_ctx (ctx_realloc p (capacity * sizeof_token) (new_cap * sizeof_token));
                  match new_buf with
                  | None => out_of_memory "Failed to allocate token buffer"%string;; mret None
                  | Some _ => mret (Some (new_buf, new_cap))
                  end
                else mret (Some (p, capacity)));
        match room with
        | None => mret tokens
        | Some (p, capacity) =>
            let tokens := tokens ++ [tok] in
            if bool_decide (tk_kind tok = BEBOP_TOKEN_EOF) then mret tokens
            else scan_loop fuel p tokens capacity
        end
    end.

(** The tokens and the scanner behind the last one, whose trivia buffer the tokens' lists
    are slices of. *)
Definition bebop__scan_with_schema (c : ctx) : option (list bebop_token_t * bebop__scanner_t) :=
  let capacity := u32 (u32 (source_len / 4) + 16) in
  (tokens ← on_ctx (ctx_alloc_n sizeof_token capacity 8);
   (match tokens with None => out_of_memory "Failed to allocate token buffer"%string | Some _ => mret tt end);;
   scan_loop (S scan_fuel) tokens [] capacity) (mkScanner 0 1 1 c None [] 0 false).
End Scanner.

(** Scanning without a schema. *)
Definition bebop_scan `{Context} (source : list Z) (c : ctx) : option (list bebop_token_t * bebop__scanner_t) :=
  bebop__scan_with_schema source false c.

Definition bebop_token_kind_name (kind : bebop_token_kind_t) : string :=
  match kind with
  | BEBOP_TOKEN_ENUM => "enum" | BEBOP_TOKEN_STRUCT => "struct" | BEBOP_TOKEN_MESSAGE => "message"
  | BEBOP_TOKEN_MUT => "mut" | BEBOP_TOKEN_READONLY => "readonly" | BEBOP_TOKEN_MAP => "map"
  | BEBOP_TOKEN_ARRAY => "array" | BEBOP_TOKEN_UNION => "union" | BEBOP_TOKEN_SERVICE => "service"
  | BEBOP_TOKEN_STREAM => "stream" | BEBOP_TOKEN_IMPORT => "import" | BEBOP_TOKEN_EDITION => "edition"
  | BEBOP_TOKEN_PACKAGE => "package" | BEBOP_TOKEN_EXPORT => "export" | BEBOP_TOKEN_LOCAL => "local"
  | BEBOP_TOKEN_TRUE => "true" | BEBOP_TOKEN_FALSE => "false" | BEBOP_TOKEN_CONST => "const"
  | BEBOP_TOKEN_WITH => "with" | BEBOP_TOKEN_IDENTIFIER => "identifier" | BEBOP_TOKEN_STRING => "string"
  | BEBOP_TOKEN_BYTES => "bytes" | BEBOP_TOKEN_NUMBER => "number"
  | BEBOP_TOKEN_BLOCK_COMMENT => "block_comment"
  | BEBOP_TOKEN_LPAREN => "(" | BEBOP_TOKEN_RPAREN => ")" | BEBOP_TOKEN_LBRACE => "{"
  | BEBOP_TOKEN_RBRACE => "}" | BEBOP_TOKEN_LBRACKET => "[" | BEBOP_TOKEN_RBRACKET => "]"
  | BEBOP_TOKEN_LANGLE => "<" | BEBOP_TOKEN_RANGLE => ">" | BEBOP_TOKEN_COLON => ":"
  | BEBOP_TOKEN_SEMICOLON => ";" | BEBOP_TOKEN_COMMA => "," | BEBOP_TOKEN_DOT => "."
  | BEBOP_TOKEN_QUESTION => "?" | BEBOP_TOKEN_SLASH => "/" | BEBOP_TOKEN_EQUALS => "="
  | BEBOP_TOKEN_AT => "@" | BEBOP_TOKEN_DOLLAR => "$" | BEBOP_TOKEN_BACKSLASH => "\"
  | BEBOP_TOKEN_BACKTICK => "`" | BEBOP_TOKEN_TILDE => "~" | BEBOP_TOKEN_AMPERSAND => "&"
  | BEBOP_TOKEN_PIPE => "|" | BEBOP_TOKEN_MINUS => "-" | BEBOP_TOKEN_ARROW => "->"
  | BEBOP_TOKEN_HASH => "#" | BEBOP_TOKEN_BANG => "!" | BEBOP_TOKEN_RAW_BLOCK => "raw_block"
  | BEBOP_TOKEN_EOF => "EOF" | BEBOP_TOKEN_ERROR => "error"
  end%string.

Definition bebop_trivia_kind_name (kind : bebop_trivia_kind_t) : string :=
  match kind with
  | BEBOP_TRIVIA_WHITESPACE => "whitespace" | BEBOP_TRIVIA_NEWLINE => "newline"
  | BEBOP_TRIVIA_LINE_COMMENT => "line_comment" | BEBOP_TRIVIA_BLOCK_COMMENT => "block_comment"
  | BEBOP_TRIVIA_DOC_COMMENT => "doc_comment"
  end%string.
