(* ===== verification/ScannerProps.v ===== *)
(** The invariant of the scanner and the contract of each of its parts: positions agree
    with a count of lines and columns over the source, what a part consumes is covered by
    spans without gap, and every loop ends within the fuel it is given. *)
From Stdlib Require Import String Ascii.
From stdpp Require Import list.
From S2P Require Import Prelude.
From S2P Require Import Unicode.
From S2P Require Import Scanner.

(** ** Runs

    [runs m s Q]: the call is defined, and its answer and final state satisfy [Q]. *)
Definition runs {S A} (m : C S A) (s : S) (Q : A → S → Prop) : Prop := ∃ a s', m s = Some (a, s') ∧ Q a s'.

Lemma runs_bind {S A B} (m : C S A) (k : A → C S B) s Q :
  runs m s (λ a s', runs (k a) s' Q) → runs (m ≫= k) s Q.
Proof. intros (a&s'&E&b&s''&E'&HQ). exists b, s''. unfold mbind, C_bind. by rewrite E. Qed.

Lemma runs_ret {S A} (a : A) (s : S) (Q : A → S → Prop) : Q a s → runs (mret a) s Q.
Proof. intros HQ. by exists a, s. Qed.

Lemma runs_mono {S A} (m : C S A) s (P Q : A → S → Prop) :
  runs m s P → (∀ a s', P a s' → Q a s') → runs m s Q.
Proof. intros (a&s'&E&HP) HPQ. exists a, s'. auto. Qed.

Lemma runs_gets {S A} (f : S → A) s (Q : A → S → Prop) : Q (f s) s → runs (gets f) s Q.
Proof. intros HQ. by exists (f s), s. Qed.

Lemma runs_modify {S} (f : S → S) s (Q : unit → S → Prop) : Q tt (f s) → runs (modify f) s Q.
Proof. intros HQ. by exists tt, (f s). Qed.

Lemma runs_lift {S A} (o : option A) a s (Q : A → S → Prop) : o = Some a → Q a s → runs (lift o) s Q.
Proof. intros -> HQ. by exists a, s. Qed.

(** Follows a call whose contract is [H]. *)
Tactic Notation "run" uconstr(H) "as" simple_intropattern(a) simple_intropattern(s) simple_intropattern(p) :=
  apply runs_bind; eapply runs_mono; [apply H|cbv beta; intros a s p].

(** ** Lines and columns

    One byte of the source: the line, the column, and whether the byte was a carriage
    return, behind which a line feed ends no second line. *)
Definition place_step (p : Z * Z * bool) (c : Z) : Z * Z * bool :=
  let '(line, col, cr) := p in
  if c =? 10 then ((if (cr : bool) then line else line + 1), 1, false)
  else if c =? 13 then (line + 1, 1, true)
  else (line, col + 1, false).
Definition place (text : list Z) : Z * Z * bool := fold_left place_step text (1, 1, false).

Lemma place_snoc text c : place (text ++ [c]) = place_step (place text) c.
Proof. unfold place. by rewrite fold_left_app. Qed.

Lemma place_bound text : 1 ≤ (place text).1.1 ≤ zlen text + 1 ∧ 1 ≤ (place text).1.2 ≤ zlen text + 1.
Proof.
  induction text as [|c text IH] using rev_ind; [done|]. rewrite place_snoc, zlen_app, zlen_cons.
  unfold place_step. destruct (place text) as [[line col] cr]. cbn [fst snd] in IH. pose proof (@zlen_nil Z).
  destruct (c =? 10), (c =? 13), cr; cbn [fst snd]; lia.
Qed.

Section Props.
Context `{ContextOk}.
Context (source : list Z) (schema : bool).
Context (Hsrc : bytes_ok source) (Hlen : zlen source < 2 ^ 32 - 1).
Abbreviation S := (@bebop__scanner_t _).
Abbreviation peek := (bebop__scan_peek_char source).
Abbreviation fuel0 := (scan_fuel source).

(** The text up to an offset. *)
Definition upto (n : Z) : list Z := take (Z.to_nat n) source.

Record inv (s : S) : Prop := {
  iv_pos : 0 ≤ sc_pos s ≤ zlen source;
  iv_place : (place (upto (sc_pos s))).1 = (sc_line s, sc_col s);
  iv_cr : (place (upto (sc_pos s))).2 = true → peek s ≠ 10
}.

(** What every part does: it moves on, keeps the trivia, and keeps the handles. *)
Record moves (s s' : S) : Prop := {
  mv_inv : inv s';
  mv_pos : sc_pos s ≤ sc_pos s';
  mv_trivia : sc_trivia s' = sc_trivia s;
  mv_error : sc_error s = true → sc_error s' = true;
  mv_ctx : ctx_le (sc_ctx s) (sc_ctx s')
}.

Lemma moves_id s : inv s → moves s s.
Proof. intros Hs. split; [done|lia|done|done|reflexivity]. Qed.

Lemma moves_trans s s' s'' : moves s s' → moves s' s'' → moves s s''.
Proof. intros [] []. split; [done|lia|congruence|auto|by etrans]. Qed.

(** A state with the same place. *)
Lemma moves_same s s' :
  inv s → sc_pos s' = sc_pos s → sc_line s' = sc_line s → sc_col s' = sc_col s → sc_trivia s' = sc_trivia s →
  (sc_error s = true → sc_error s' = true) → ctx_le (sc_ctx s) (sc_ctx s') → moves s s'.
Proof.
  intros [Hp Hl Hc] Ep El Ec Et He Hx. split; [split|lia|done|done|done].
  - by rewrite Ep.
  - by rewrite Ep, El, Ec.
  - rewrite Ep. intros Hcr. unfold bebop__scan_peek_char. rewrite Ep. by apply Hc.
Qed.

Lemma peek_in s : inv s → peek s ≠ 0 → sc_pos s < zlen source ∧ load source (sc_pos s) = Some (peek s).
Proof.
  intros [Hp _ _] Hne. unfold bebop__scan_peek_char in *. destruct (load source (sc_pos s)) as [c|] eqn:E; [|done].
  split; [|done]. apply load_Some in E as [? E%lookup_lt_Some]. unfold zlen. lia.
Qed.

Lemma upto_succ n c : load source n = Some c → upto (n + 1) = upto n ++ [c].
Proof.
  intros [Hn E]%load_Some. unfold upto. replace (Z.to_nat (n + 1)) with (Datatypes.S (Z.to_nat n)) by lia.
  by apply take_S_r.
Qed.

Lemma zlen_upto n : 0 ≤ n ≤ zlen source → zlen (upto n) = n.
Proof. apply zlen_take. Qed.

Lemma advance_runs s :
  inv s → runs (bebop__scan_advance source) s (λ _ s', moves s s' ∧ (peek s ≠ 0 → sc_pos s < sc_pos s' ∧ (peek s ≠ 13 → sc_pos s' = sc_pos s + 1))).
Proof.
  intros Hs. unfold bebop__scan_advance. apply runs_modify. unfold source_len.
  destruct (Z.leb_spec (zlen source) (sc_pos s)) as [Hge|Hlt].
  { split; [by apply moves_id|]. intros Hne. destruct (peek_in s Hs Hne). lia. }
  pose proof Hs as [Hp Hl Hcr]. destruct (load_in source (sc_pos s) ltac:(lia)) as [c Ec].
  assert (Epeek : peek s = c) by (unfold bebop__scan_peek_char; by rewrite Ec). rewrite Epeek in *.
  pose proof (upto_succ _ _ Ec) as Eu. pose proof (place_bound (upto (sc_pos s))) as Hb. rewrite (zlen_upto (sc_pos s) Hp) in Hb.
  destruct (place (upto (sc_pos s))) as [[line col] cr] eqn:Epl. cbn [fst snd] in Hl, Hb, Hcr. injection Hl as -> ->.
  assert (Ep1 : place (upto (sc_pos s + 1)) = place_step (sc_line s, sc_col s, cr) c) by (by rewrite Eu, place_snoc, Epl).
  unfold place_step in Ep1. destruct (Z.eqb_spec c 10) as [->|Hc10].
  { split; [|cbn; lia]. split; cbn; [|lia|done|done|reflexivity]. split; cbn; [lia| |rewrite Ep1; done].
    rewrite Ep1. destruct cr; [by destruct (Hcr eq_refl)|]. rewrite u32_small by lia. done. }
  destruct (Z.eqb_spec c 13) as [->|Hc13].
  - cbv zeta. destruct ((sc_pos s + 1 <? zlen source) && (default 0 (load source (sc_pos s + 1)) =? 10)) eqn:Ecrlf.
    + apply andb_true_iff in Ecrlf as [Hlt2%Z.ltb_lt Elf%Z.eqb_eq]. split; [|cbn; lia].
      destruct (load_in source (sc_pos s + 1) ltac:(lia)) as [d Ed]. rewrite Ed in Elf. cbn in Elf. subst d.
      assert (Ep2 : place (upto (sc_pos s + 1 + 1)) = (sc_line s + 1, 1, false)).
      { rewrite (upto_succ _ _ Ed), place_snoc, Ep1. done. }
      split; cbn; [|lia|done|done|reflexivity]. split; cbn; [lia|by rewrite Ep2, u32_small by lia|by rewrite Ep2].
    + split; [|cbn; lia]. split; cbn; [|lia|done|done|reflexivity]. split; cbn; [lia|by rewrite Ep1, u32_small by lia|].
      intros _. unfold bebop__scan_peek_char. cbn. apply andb_false_iff in Ecrlf as [Hge%Z.ltb_ge|Hne%Z.eqb_neq]; [|done].
      destruct (load source (sc_pos s + 1)) as [d|] eqn:Ed; [|done]. apply load_Some in Ed as [_ Ed%lookup_lt_Some]. unfold zlen in Hge. lia.
  - split; [|cbn; lia]. split; cbn; [|lia|done|done|reflexivity]. split; cbn; [lia|by rewrite Ep1, u32_small by lia|by rewrite Ep1].
Qed.

Lemma scan_while_runs fuel more s :
  inv s → (∀ s', more s' = true → peek s' ≠ 0) → (Z.to_nat (zlen source - sc_pos s) < fuel)%nat →
  runs (scan_while source fuel more) s (λ _ s', moves s s' ∧ more s' = false ∧ (more s = true → sc_pos s < sc_pos s') ∧
    ∀ P : Z → bool, (∀ s', more s' = true → P (peek s') = true) → P 13 = false →
      ∀ i, sc_pos s ≤ i < sc_pos s' → P (default 0 (load source i)) = true).
Proof.
  intros Hs Hmore. revert s Hs. induction fuel as [|fuel IH]; intros s Hs Hf; cbn [scan_while].
  { lia. }
  apply runs_bind, runs_gets. cbn [id]. destruct (more s) eqn:Em.
  - run (advance_runs s Hs) as _ s1 (Hm&Hp). destruct (peek_in s Hs (Hmore s Em)) as [Hlt Hload].
    destruct (Hp (Hmore s Em)) as [Hp1 Hp2]. eapply runs_mono; [apply (IH s1 (mv_inv _ _ Hm))|]; [lia|].
    intros _ s2 (Hm2&Hend&Hprog&Hall). pose proof (mv_pos _ _ Hm2). split; [by eapply moves_trans|].
    split; [done|]. split; [lia|]. intros P HP H13 i Hi.
    assert (Hne : peek s ≠ 13) by (intros E; specialize (HP s Em); congruence).
    destruct (decide (i = sc_pos s)) as [->|]; [by rewrite Hload; apply HP|]. apply (Hall P HP H13). specialize (Hp2 Hne). lia.
  - apply runs_ret. split; [by apply moves_id|]. split; [done|]. split; [done|]. intros. lia.
Qed.

(** ** Spans *)

Definition place_of (n : Z) : Z * Z := (place (upto n)).1.

(** A span of the source with the lines and columns of its ends. *)
Definition span_ok (sp : bebop_span_t) : Prop :=
  0 ≤ off sp ∧ 0 ≤ len sp ∧ off sp + len sp ≤ zlen source ∧
  place_of (off sp) = (start_line sp, start_col sp) ∧ place_of (off sp + len sp) = (end_line sp, end_col sp).

(** The spans lead from [a] to [b] without gap. *)
Fixpoint tiles (a : Z) (spans : list bebop_span_t) (b : Z) : Prop :=
  match spans with
  | [] => a = b
  | sp :: spans => off sp = a ∧ span_ok sp ∧ tiles (a + len sp) spans b
  end.

Lemma tiles_app a l1 b l2 c : tiles a l1 b → tiles b l2 c → tiles a (l1 ++ l2) c.
Proof.
  revert a. induction l1 as [|sp l1 IH]; intros a; cbn [tiles app].
  - by intros ->.
  - intros (?&?&?) ?. auto.
Qed.

Lemma tiles_length a l b : tiles a l b → Forall (λ sp, 0 < len sp) l → zlen l ≤ b - a.
Proof.
  revert a. induction l as [|sp l IH]; intros a; cbn [tiles].
  - intros -> _. pose proof (@zlen_nil bebop_span_t). lia.
  - intros (_&_&Ht) [Hl Hf]%Forall_cons. specialize (IH _ Ht Hf). rewrite zlen_cons. lia.
Qed.

Lemma span_from_ok s0 s : inv s0 → moves s0 s →
  off (span_from s0 s) = sc_pos s0 ∧ len (span_from s0 s) = sc_pos s - sc_pos s0 ∧ span_ok (span_from s0 s).
Proof.
  intros [Hp0 Hl0 _] [[Hp Hl _] Hle _ _ _]. unfold span_from, bebop__scan_make_span, span_ok, place_of. cbn.
  rewrite !u32_small by lia. replace (sc_pos s0 + (sc_pos s - sc_pos s0)) with (sc_pos s) by lia.
  split_and!; try lia; done.
Qed.

(** What the trivia functions do: new trivia cover what was consumed, unless memory is out. *)
Record grows (s s' : S) : Prop := {
  gr_inv : inv s';
  gr_pos : sc_pos s ≤ sc_pos s';
  gr_error : sc_error s = true → sc_error s' = true;
  gr_ctx : ctx_le (sc_ctx s) (sc_ctx s');
  gr_trivia : ∃ ts, sc_trivia s' = sc_trivia s ++ ts ∧ Forall (λ t, 0 < len (tv_span t)) ts ∧
    (sc_error s' = false → tiles (sc_pos s) (map tv_span ts) (sc_pos s'))
}.

Lemma grows_refl s : inv s → grows s s.
Proof.
  intros Hs. split; [done|lia|done|reflexivity|]. exists []. split; [by rewrite app_nil_r|]. split; [constructor|done].
Qed.

Lemma grows_trans s s' s'' : grows s s' → grows s' s'' → grows s s''.
Proof.
  intros [? ? He1 ? (ts1&E1&F1&T1)] [? ? He2 ? (ts2&E2&F2&T2)]. split; [done|lia|auto|by etrans|].
  exists (ts1 ++ ts2). split; [by rewrite E2, E1, app_assoc|]. split; [by apply Forall_app|].
  intros He. rewrite map_app. apply (tiles_app _ _ (sc_pos s')); [apply T1|by apply T2].
  destruct (sc_error s') eqn:E; [|done]. by rewrite (He2 eq_refl) in He.
Qed.

(** Calls into the context. *)
Lemma on_ctx_runs {A} (f : ctx → A * ctx) s (Q : A → S → Prop) :
  Q (f (sc_ctx s)).1 (set_ctx (f (sc_ctx s)).2 s) → runs (on_ctx f) s Q.
Proof.
  intros HQ. unfold on_ctx, runs. destruct (f (sc_ctx s)) as [a c]. by exists a, (set_ctx c s).
Qed.

Lemma moves_ctx s c : inv s → ctx_le (sc_ctx s) c → moves s (set_ctx c s).
Proof. intros Hs Hc. by apply moves_same. Qed.

Lemma moves_out_of_memory message s : inv s → moves s (set_error message s).
Proof. intros Hs. apply moves_same; try done. apply ctx_out_of_memory_ok. Qed.

Lemma trivia_push_runs kind s0 s :
  inv s0 → moves s0 s → sc_pos s0 < sc_pos s →
  runs (bebop__scan_trivia_push kind (span_from s0 s)) s (λ _ s', grows s0 s' ∧ sc_pos s' = sc_pos s).
Proof.
  intros Hs0 Hm Hlt. destruct (span_from_ok s0 s Hs0 Hm) as (Eo&El&Hok). pose proof Hm as [Hs Hle Et He Hc].
  assert (Hdrop : ∀ s', moves s s' → sc_pos s' = sc_pos s → sc_error s' = true → grows s0 s' ∧ sc_pos s' = sc_pos s).
  { intros s' [? ? ? ? ?] ? Herr. split; [|done]. split; [done|lia|auto|by etrans|].
    exists []. split; [rewrite app_nil_r; congruence|]. split; [constructor|congruence]. }
  assert (Hadd : ∀ s' b c, moves s s' → sc_pos s' = sc_pos s →
    grows s0 (set_trivia b (sc_trivia s' ++ [mkTrivia kind (span_from s0 s)]) c s') ∧
    sc_pos (set_trivia b (sc_trivia s' ++ [mkTrivia kind (span_from s0 s)]) c s') = sc_pos s).
  { intros s' b c [Hi ? Et' ? ?] Ep. split; [|done]. split; cbn; [by destruct Hi|lia|auto|by etrans|].
    exists [mkTrivia kind (span_from s0 s)]. split; [by rewrite Et', Et|]. split.
    - constructor; [|constructor]. cbn [tv_span]. lia.
    - intros _. cbn [map tiles tv_span sc_pos set_trivia]. split; [done|]. split; [done|]. lia. }
  unfold bebop__scan_trivia_push. apply runs_bind, runs_gets. cbn [id]. destruct (sc_error s) eqn:Ee.
  { apply runs_ret. apply Hdrop; [by apply moves_id|done|done]. }
  destruct (sc_trivia_capacity s <=? zlen (sc_trivia s)).
  - cbv zeta. apply runs_bind, runs_bind, on_ctx_runs. set (r := ctx_realloc _ _ _ _).
    assert (Hm1 : moves s (set_ctx r.2 s)) by (apply moves_ctx; [done|apply ctx_realloc_ok]).
    destruct r.1 as [q|].
    + apply runs_bind, runs_modify, runs_ret, runs_modify. cbn [sc_trivia set_trivia sc_trivia_buf sc_trivia_capacity set_ctx].
      apply (Hadd (set_trivia (Some q) (sc_trivia s) _ (set_ctx r.2 s))); [|done].
      destruct Hm1 as [Hi ? ? ? ?]. split; cbn; [by destruct Hi|lia|done|done|done].
    + apply runs_bind, runs_modify, runs_ret, runs_ret. apply Hdrop; [|done|done].
      eapply moves_trans; [exact Hm1|]. by apply moves_out_of_memory, Hm1.
  - apply runs_bind, runs_ret, runs_modify. apply Hadd; [by apply moves_id|done].
Qed.

(** The contract of a function that may consume trivia: progress when it says so. *)
Definition consumes (s : S) (b : bool) (s' : S) : Prop := grows s s' ∧ (b = true → sc_pos s < sc_pos s').

Lemma fuel0_enough s : inv s → (Z.to_nat (zlen source - sc_pos s) < fuel0)%nat.
Proof. intros [Hp _ _]. unfold scan_fuel, zlen in *. lia. Qed.

Lemma skip_whitespace_runs s : inv s → runs (bebop__scan_skip_whitespace source) s (λ _ s', grows s s').
Proof.
  intros Hs. unfold bebop__scan_skip_whitespace. apply runs_bind, runs_gets.
  run (scan_while_runs fuel0 _ s Hs) as _ s1 (Hm&_).
  { intros s' Hw E. unfold BEBOP_IS_WHITESPACE in Hw. by rewrite E in Hw. }
  { by apply fuel0_enough. }
  apply runs_bind, runs_gets. cbn [id]. destruct (Z.ltb_spec (sc_pos s) (sc_pos s1)) as [Hlt|Hge].
  - eapply runs_mono; [by apply trivia_push_runs|]. by intros _ s2 [Hg _].
  - apply runs_ret. destruct Hm as [? ? Et ? ?]. split; [done|lia|done|done|]. exists [].
    split; [by rewrite app_nil_r|]. split; [constructor|]. intros _. cbn. lia.
Qed.

Lemma skip_newline_runs s : inv s → runs (bebop__scan_skip_newline source) s (consumes s).
Proof.
  intros Hs. unfold bebop__scan_skip_newline. apply runs_bind, runs_gets. cbn [id].
  destruct (BEBOP_IS_NEWLINE (peek s)) eqn:En; cbn [negb]; [|apply runs_ret; split; [by apply grows_refl|done]].
  run (advance_runs s Hs) as _ s1 (Hm&Hp). apply runs_bind, runs_gets. cbn [id].
  assert (Hlt : sc_pos s < sc_pos s1) by (apply Hp; intros E; unfold BEBOP_IS_NEWLINE in En; by rewrite E in En).
  run (trivia_push_runs BEBOP_TRIVIA_NEWLINE s s1 Hs Hm Hlt) as _ s2 (Hg&Ep). apply runs_ret. split; [done|lia].
Qed.

(** Two steps over a two-byte opening. *)
Lemma advance2_runs s :
  inv s → peek s ≠ 0 →
  runs (bebop__scan_advance source;; bebop__scan_advance source) s (λ _ s', moves s s' ∧ sc_pos s < sc_pos s').
Proof.
  intros Hs Hne. run (advance_runs s Hs) as _ s1 (Hm&Hp). eapply runs_mono; [apply advance_runs, Hm|].
  intros _ s2 [Hm2 _]. pose proof (mv_pos _ _ Hm2). split; [by eapply moves_trans|]. destruct (Hp Hne). lia.
Qed.

Lemma runs_assoc {A B D} (m : C S A) (n : C S B) (k : C S D) s Q :
  runs ((m;; n);; k) s Q → runs (m;; (n;; k)) s Q.
Proof.
  unfold runs, mbind, C_bind. destruct (m s) as [[a s']|]; done.
Qed.

Lemma skip_line_comment_runs s : inv s → runs (bebop__scan_skip_line_comment source) s (consumes s).
Proof.
  intros Hs. unfold bebop__scan_skip_line_comment. apply runs_bind, runs_gets. cbn [id].
  destruct (Z.eqb_spec (peek s) 47) as [Hc|_]; cbn [negb orb]; [|apply runs_ret; split; [by apply grows_refl|done]].
  destruct (bebop__scan_peek_char_at source 1 s =? 47); cbn [negb]; [|apply runs_ret; split; [by apply grows_refl|done]].
  cbv zeta. apply runs_assoc. run (advance2_runs s Hs ltac:(lia)) as _ s1 (Hm1&Hlt1).
  run (scan_while_runs fuel0 _ s1 (mv_inv _ _ Hm1)) as _ s2 (Hm2&_).
  { intros s' Hw E. by rewrite E in Hw. }
  { by apply fuel0_enough, Hm1. }
  apply runs_bind, runs_gets. cbn [id]. pose proof (mv_pos _ _ Hm2).
  assert (Hm : moves s s2) by by eapply moves_trans.
  run (trivia_push_runs (if bebop__scan_peek_char_at source 2 s =? 47 then BEBOP_TRIVIA_DOC_COMMENT else BEBOP_TRIVIA_LINE_COMMENT) s s2 Hs Hm ltac:(lia)) as _ s3 (Hg&Ep). apply runs_ret. split; [done|lia].
Qed.

Lemma block_comment_loop_runs fuel s :
  inv s → (Z.to_nat (zlen source - sc_pos s) < fuel)%nat →
  runs (block_comment_loop source fuel) s (λ _ s', moves s s').
Proof.
  revert s. induction fuel as [|fuel IH]; intros s Hs Hf; [lia|]. cbn [block_comment_loop].
  apply runs_bind, runs_gets. cbn [id]. destruct (Z.eqb_spec (peek s) 0) as [_|Hne].
  { apply runs_ret. by apply moves_id. }
  destruct ((peek s =? 42) && _).
  - apply runs_assoc. run (advance2_runs s Hs Hne) as _ s1 (Hm&_). by apply runs_ret.
  - run (advance_runs s Hs) as _ s1 (Hm&Hp). destruct (Hp Hne) as [Hlt _]. destruct (peek_in s Hs Hne).
    eapply runs_mono; [apply (IH s1 (mv_inv _ _ Hm)); lia|]. intros b s2 Hm2. by eapply moves_trans.
Qed.

Lemma add_diagnostic_runs code span s :
  inv s → runs (add_diagnostic schema code span) s (λ _ s', moves s s' ∧ sc_pos s' = sc_pos s ∧
    ∀ s0, span_from s0 s' = span_from s0 s).
Proof.
  intros Hs. unfold add_diagnostic. destruct schema.
  - apply runs_modify. split; [|done]. apply moves_ctx; [done|]. apply ctx_add_diagnostic_ok.
  - apply runs_ret. split; [by apply moves_id|done].
Qed.

Lemma skip_block_comment_runs s : inv s → runs (bebop__scan_skip_block_comment source schema) s (consumes s).
Proof.
  intros Hs. unfold bebop__scan_skip_block_comment. apply runs_bind, runs_gets. cbn [id].
  destruct (Z.eqb_spec (peek s) 47) as [Hc|_]; cbn [negb orb]; [|apply runs_ret; split; [by apply grows_refl|done]].
  destruct (bebop__scan_peek_char_at source 1 s =? 42); cbn [negb]; [|apply runs_ret; split; [by apply grows_refl|done]].
  cbv zeta. apply runs_assoc. run (advance2_runs s Hs ltac:(lia)) as _ s1 (Hm1&Hlt1).
  run (block_comment_loop_runs fuel0 s1 (mv_inv _ _ Hm1)) as terminated s2 Hm2.
  { by apply fuel0_enough, Hm1. }
  apply runs_bind, runs_gets. cbn [id]. pose proof (mv_pos _ _ Hm2).
  assert (Hm : moves s s2) by by eapply moves_trans.
  assert (Hdiag : runs (if (terminated : bool) then mret tt else add_diagnostic schema BEBOP_DIAG_UNTERMINATED_COMMENT (span_from s s2)) s2
    (λ _ s', moves s2 s' ∧ sc_pos s' = sc_pos s2 ∧ ∀ s0, span_from s0 s' = span_from s0 s2)).
  { destruct terminated; [apply runs_ret; split; [apply moves_id, Hm|done]|apply add_diagnostic_runs, Hm]. }
  run Hdiag as _ s3 (Hm3&Ep3&Esp). rewrite <- (Esp s). assert (Hm' : moves s s3) by by eapply moves_trans.
  apply runs_bind. eapply runs_mono; [apply (trivia_push_runs _ s s3 Hs Hm' ltac:(lia))|].
  intros _ s4 (Hg&Ep). apply runs_ret. split; [done|lia].
Qed.

(** Composes two contracts. *)
Lemma consumes_after s s1 b s2 : grows s s1 → consumes s1 b s2 → consumes s b s2.
Proof. intros Hg [Hg2 Hb]. split; [by eapply grows_trans|]. intros Ht. pose proof (gr_pos _ _ Hg). specialize (Hb Ht). lia. Qed.

Lemma leading_round_runs s : inv s → runs (leading_round source schema) s (consumes s).
Proof.
  intros Hs. unfold leading_round. run (skip_whitespace_runs s Hs) as _ s1 Hg1.
  run (skip_newline_runs s1 (gr_inv _ _ Hg1)) as b s2 Hc2. pose proof (consumes_after _ _ _ _ Hg1 Hc2) as Hc. destruct b; [by apply runs_ret|].
  run (skip_line_comment_runs s2 (gr_inv _ _ (proj1 Hc2))) as b s3 Hc3.
  pose proof (consumes_after _ _ _ _ (proj1 Hc) Hc3) as Hc'. destruct b; [by apply runs_ret|].
  eapply runs_mono; [apply skip_block_comment_runs, (proj1 Hc3)|]. intros b s4 Hc4. by eapply consumes_after; [apply Hc'|].
Qed.

Lemma trailing_round_runs s : inv s → runs (trailing_round source schema) s (consumes s).
Proof.
  intros Hs. unfold trailing_round. run (skip_whitespace_runs s Hs) as _ s1 Hg1.
  run (skip_line_comment_runs s1 (gr_inv _ _ Hg1)) as b s2 Hc2. pose proof (consumes_after _ _ _ _ Hg1 Hc2) as Hc. destruct b; [by apply runs_ret|].
  run (skip_block_comment_runs s2 (gr_inv _ _ (proj1 Hc2))) as b s3 Hc3.
  pose proof (consumes_after _ _ _ _ (proj1 Hc) Hc3) as Hc'. destruct b; [by apply runs_ret|].
  run (skip_newline_runs s3 (gr_inv _ _ (proj1 Hc3))) as b s4 Hc4.
  pose proof (consumes_after _ _ _ _ (proj1 Hc') Hc4) as Hc''. apply runs_ret. split; [apply Hc''|done].
Qed.

Lemma leading_loop_runs fuel s :
  inv s → (Z.to_nat (zlen source - sc_pos s) < fuel)%nat → runs (leading_loop source schema fuel) s (λ _ s', grows s s').
Proof.
  revert s. induction fuel as [|fuel IH]; intros s Hs Hf; [lia|]. cbn [leading_loop].
  run (leading_round_runs s Hs) as b s1 (Hg&Hb). destruct b; [|by apply runs_ret].
  pose proof (iv_pos _ (gr_inv _ _ Hg)). specialize (Hb eq_refl).
  eapply runs_mono; [apply (IH s1 (gr_inv _ _ Hg)); lia|]. cbv beta. intros ? s2 Hg2. by eapply grows_trans.
Qed.

Lemma trailing_loop_runs fuel s :
  inv s → (Z.to_nat (zlen source - sc_pos s) < fuel)%nat → runs (trailing_loop source schema fuel) s (λ _ s', grows s s').
Proof.
  revert s. induction fuel as [|fuel IH]; intros s Hs Hf; [lia|]. cbn [trailing_loop].
  run (trailing_round_runs s Hs) as b s1 (Hg&Hb). destruct b; [|by apply runs_ret].
  pose proof (iv_pos _ (gr_inv _ _ Hg)). specialize (Hb eq_refl).
  eapply runs_mono; [apply (IH s1 (gr_inv _ _ Hg)); lia|]. cbv beta. intros ? s2 Hg2. by eapply grows_trans.
Qed.

(** ** Tokens *)

(** The handle stands for the text, unless interning failed. *)
Definition resolves (c : ctx) (h : Z) (t : list Z) : Prop :=
  (ctx_ended c = false → h ≠ 0 → ctx_str c h = Some t) ∧ ((∀ str c, (ctx_intern_n str c).1 ≠ 0) → h ≠ 0).

Lemma resolves_le c c' h t : ctx_ok c → ctx_le c c' → resolves c h t → resolves c' h t.
Proof. intros Hc Hle (Hr&Hn). split; [|done]. intros He Hh. destruct (Hle Hc) as [_ Hs]. destruct (Hs He) as [He' Hs']. apply Hs', Hr; done. Qed.

Definition same_place (s s' : S) : Prop := sc_pos s' = sc_pos s ∧ sc_line s' = sc_line s ∧ sc_col s' = sc_col s.

Lemma span_from_same s0 s s' : same_place s s' → span_from s0 s' = span_from s0 s.
Proof. intros (E1&E2&E3). unfold span_from, bebop__scan_make_span. by rewrite E1, E2, E3. Qed.

Lemma same_place_trans s s' s'' : same_place s s' → same_place s' s'' → same_place s s''.
Proof. intros (?&?&?) (?&?&?). split_and!; congruence. Qed.

(** Brackets of a raw block at a level. *)
Definition raw_delim (bracket level : Z) : list Z := bracket :: replicate (Z.to_nat level) 61 ++ [bracket].

(** The text of a token. *)
Definition text_ok (sp : bebop_span_t) (kind : bebop_token_kind_t) (t : list Z) : Prop :=
  match kind with
  | BEBOP_TOKEN_STRING => ∃ cps, Forall scalar cps ∧ t = utf8_text cps
  | BEBOP_TOKEN_BYTES => bytes_ok t
  | BEBOP_TOKEN_RAW_BLOCK => ∃ level, 0 ≤ level ∧
      load_bytes source (off sp) (len sp) = Some (raw_delim 91 level ++ t ++ raw_delim 93 level)
  | BEBOP_TOKEN_NUMBER => load_bytes source (off sp) (len sp) = Some t ∧ BEBOP_IS_DIGIT (default 0 (head t)) = true
  | _ => load_bytes source (off sp) (len sp) = Some t
  end.

(** The kinds whose lexeme is the text of the token. *)
Definition has_lexeme (kind : bebop_token_kind_t) : bool :=
  match kind with
  | BEBOP_TOKEN_STRING | BEBOP_TOKEN_BYTES | BEBOP_TOKEN_NUMBER | BEBOP_TOKEN_RAW_BLOCK | BEBOP_TOKEN_IDENTIFIER => true
  | _ => bool_decide (kind ∈ map snd bebop__keywords)
  end.

(** A word is as long as it can be, and its kind is the keyword it spells, if any. *)
Definition word_ok (sp : bebop_span_t) (kind : bebop_token_kind_t) : Prop :=
  kind = BEBOP_TOKEN_IDENTIFIER ∨ kind ∈ map snd bebop__keywords →
  ∃ t, load_bytes source (off sp) (len sp) = Some t ∧ Forall (λ c, BEBOP_IS_IDENT_CHAR c = true) t ∧
    BEBOP_IS_IDENT_CHAR (default 0 (load source (off sp + len sp))) = false ∧ kind = bebop__scan_lookup_keyword t.

Record token_post (s : S) (tok : bebop_token_t) (s' : S) : Prop := {
  tp_moves : moves s s';
  tp_span : tk_span tok = span_from s s';
  tp_plain : tk_trailing tok = no_trivia;
  tp_stop : peek s = 0 → sc_pos s' = sc_pos s;
  tp_eof : tk_kind tok = BEBOP_TOKEN_EOF ↔ peek s = 0;
  tp_progress : peek s ≠ 0 → sc_pos s < sc_pos s';
  tp_word : word_ok (tk_span tok) (tk_kind tok);
  tp_text : ctx_ok (sc_ctx s) → has_lexeme (tk_kind tok) = true →
    ∃ t, text_ok (tk_span tok) (tk_kind tok) t ∧ resolves (sc_ctx s') (tk_lexeme tok) t
}.

Lemma intern_runs t s :
  inv s → runs (on_ctx (ctx_intern_n t)) s (λ h s', moves s s' ∧ same_place s s' ∧
    (ctx_ok (sc_ctx s) → resolves (sc_ctx s') h t)).
Proof.
  intros Hs. apply on_ctx_runs. split; [apply moves_ctx; [done|apply ctx_intern_n_ok]|]. split; [done|].
  intros Hc. split; [|intros Hg; apply Hg]. intros He Hh. by apply ctx_intern_n_str.
Qed.

Lemma intern_source_runs start n s :
  inv s → 0 ≤ start → 0 ≤ n → start + n ≤ zlen source →
  runs (intern_source source start n) s (λ h s', moves s s' ∧ same_place s s' ∧
    ∃ t, load_bytes source start n = Some t ∧ (ctx_ok (sc_ctx s) → resolves (sc_ctx s') h t)).
Proof.
  intros Hs H1' H2' H3'. unfold intern_source. apply runs_bind. eapply runs_lift; [by apply load_bytes_in|].
  eapply runs_mono; [by apply intern_runs|]. cbv beta. intros h s' (?&?&?).
  split; [done|]. split; [done|]. eexists. split; [by apply load_bytes_in|done].
Qed.

Lemma lookup_keyword_kind t :
  bebop__scan_lookup_keyword t = BEBOP_TOKEN_IDENTIFIER ∨ bebop__scan_lookup_keyword t ∈ map snd bebop__keywords.
Proof.
  unfold bebop__scan_lookup_keyword. generalize bebop__keywords. induction l as [|[kw kind] l IH]; cbn [lookup_keyword_in map].
  - by left.
  - case_bool_decide; [right; left|]. destruct IH as [?|?]; [by left|right; by right].
Qed.

Lemma keyword_kind_lexeme kind : kind = BEBOP_TOKEN_IDENTIFIER ∨ kind ∈ map snd bebop__keywords →
  has_lexeme kind = true ∧ kind ≠ BEBOP_TOKEN_EOF ∧
  ∀ sp t, load_bytes source (off sp) (len sp) = Some t → text_ok sp kind t.
Proof.
  intros [->|Hk]; [done|].
  assert (Hall : Forall (λ kind, has_lexeme kind = true ∧ kind ≠ BEBOP_TOKEN_EOF ∧
    ∀ sp t, load_bytes source (off sp) (len sp) = Some t → text_ok sp kind t) (map snd bebop__keywords)).
  { repeat (constructor; [by split_and!|]). constructor. }
  rewrite Forall_forall in Hall. by apply Hall.
Qed.

Lemma scan_identifier_runs s :
  inv s → BEBOP_IS_IDENT_START (peek s) = true → runs (bebop__scan_identifier source) s (token_post s).
Proof.
  intros Hs Hst. assert (Hid : BEBOP_IS_IDENT_CHAR (peek s) = true) by (unfold BEBOP_IS_IDENT_CHAR; by rewrite Hst).
  assert (Hne : ∀ s', BEBOP_IS_IDENT_CHAR (peek s') = true → peek s' ≠ 0) by (intros s' Hw E; by rewrite E in Hw).
  unfold bebop__scan_identifier. apply runs_bind, runs_gets.
  run (scan_while_runs fuel0 _ s Hs Hne (fuel0_enough s Hs)) as _ s1 (Hm&Hend&Hprog&Hall).
  apply runs_bind, runs_gets. cbn [id]. specialize (Hprog Hid). pose proof (iv_pos _ Hs). pose proof (iv_pos _ (mv_inv _ _ Hm)).
  destruct (span_from_ok s s1 Hs Hm) as (Eo&El&_).
  assert (Hl : load_bytes source (sc_pos s) (sc_pos s1 - sc_pos s) = Some (take (Z.to_nat (sc_pos s1 - sc_pos s)) (drop (Z.to_nat (sc_pos s)) source)))
    by (apply load_bytes_in; lia).
  set (t := take _ _) in Hl. clearbody t. apply runs_bind. eapply runs_lift; [exact Hl|]. cbv zeta.
  run (intern_source_runs (sc_pos s) (sc_pos s1 - sc_pos s) s1 (mv_inv _ _ Hm)) as h s2 (Hm2&Hsp&t'&Ht'&Hres); [lia..|].
  rewrite Hl in Ht'. injection Ht' as <-. apply runs_ret.
  destruct (keyword_kind_lexeme _ (lookup_keyword_kind t)) as (_&Hneof&Htext). rewrite <- El, <- Eo in Hl.
  constructor; cbn [tk_kind tk_span tk_lexeme token].
  - by eapply moves_trans.
  - symmetry. by apply span_from_same.
  - done.
  - intros E. by destruct (Hne s Hid).
  - split; [done|]. intros E. by destruct (Hne s Hid).
  - intros _. destruct Hsp as (->&_). lia.
  - intros _. exists t. split; [done|]. split; [|split; [|done]].
    + apply Forall_lookup. intros i c Hc. pose proof (lookup_lt_Some _ _ _ Hc) as Hlt. pose proof (load_bytes_zlen _ _ _ _ Hl) as Hz.
      pose proof (load_bytes_loads _ _ _ _ _ _ Hl Hc) as Hload. unfold zlen in Hz.
      specialize (Hall BEBOP_IS_IDENT_CHAR ltac:(auto) eq_refl (sc_pos s + Z.of_nat i) ltac:(lia)).
      rewrite Eo in Hload. by rewrite Hload in Hall.
    + rewrite Eo, El. replace (sc_pos s + (sc_pos s1 - sc_pos s)) with (sc_pos s1) by lia. exact Hend.
  - intros Hc _. exists t. split; [by apply Htext|]. apply Hres. by apply (mv_ctx _ _ Hm).
Qed.

(** Tokens that are no words and not the end. *)
Lemma token_post_intro s s1 s' kind lexeme :
  moves s s1 → moves s1 s' → sc_pos s < sc_pos s1 → peek s ≠ 0 →
  kind ≠ BEBOP_TOKEN_EOF → bool_decide (kind = BEBOP_TOKEN_IDENTIFIER ∨ kind ∈ map snd bebop__keywords) = false →
  (ctx_ok (sc_ctx s1) → has_lexeme kind = true → ∃ t, text_ok (span_from s s') kind t ∧ resolves (sc_ctx s') lexeme t) →
  token_post s (token kind (span_from s s') lexeme) s'.
Proof.
  intros Hm Hm' Hlt Hne Heof Hword Htext. constructor; cbn [tk_kind tk_span tk_lexeme token].
  - by eapply moves_trans.
  - done.
  - done.
  - done.
  - split; [done|]. done.
  - intros _. pose proof (mv_pos _ _ Hm'). lia.
  - intros Hw. by destruct (bool_decide_eq_false_1 _ Hword Hw).
  - intros Hc Hl. apply Htext; [|done]. by apply (mv_ctx _ _ Hm).
Qed.

Lemma scan_number_runs s :
  inv s → BEBOP_IS_DIGIT (peek s) = true → runs (bebop__scan_number source) s (token_post s).
Proof.
  intros Hs Hd. unfold bebop__scan_number. apply runs_bind, runs_gets.
  assert (Hne : ∀ s', number_more source s' = true → peek s' ≠ 0) by (intros s' Hw E; unfold number_more in Hw; by rewrite E in Hw).
  assert (Hmore : number_more source s = true).
  { unfold number_more. unfold BEBOP_IS_IDENT_CHAR. rewrite Hd, orb_true_r. cbn [orb andb]. unfold BEBOP_IS_DIGIT in Hd.
    destruct (Z.eqb_spec (peek s) 45); [zbool; lia|done]. }
  run (scan_while_runs fuel0 _ s Hs Hne (fuel0_enough s Hs)) as _ s1 (Hm&_&Hprog&_).
  apply runs_bind, runs_gets. cbn [id]. specialize (Hprog Hmore). pose proof (iv_pos _ Hs). pose proof (iv_pos _ (mv_inv _ _ Hm)).
  destruct (span_from_ok s s1 Hs Hm) as (Eo&El&_).
  run (intern_source_runs (sc_pos s) (sc_pos s1 - sc_pos s) s1 (mv_inv _ _ Hm)) as h s2 (Hm2&Hsp&t&Ht&Hres); [lia..|].
  apply runs_ret. rewrite <- (span_from_same s s1 s2 Hsp). apply (token_post_intro s s1); try done; [by apply Hne|].
  intros Hc _. exists t. split; [|by apply Hres]. cbn [text_ok]. rewrite (span_from_same s s1 s2 Hsp), Eo, El. split; [done|].
  apply load_bytes_Some in Ht as (_&_&_&->). rewrite head_lookup, lookup_take_lt, lookup_drop, Nat.add_0_r by lia.
  unfold bebop__scan_peek_char, load in Hd. by destruct (Z.ltb_spec (sc_pos s) 0); [lia|].
Qed.

(** *** Literals *)

Definition room_ok (b : literal_buf) : Prop :=
  bytes_ok (buf b) ∧ zlen (buf b) ≤ buf_cap b ∧ (buf_cap b = 0 ∨ 64 ≤ buf_cap b) ∧ buf_cap b ≤ 2 ^ 40.

Lemma grow_buf_runs b s :
  inv s → room_ok b → zlen (buf b) ≤ 4 * sc_pos s → buf_cap b < zlen (buf b) + 4 →
  runs (bebop__scan_grow_buf b) s (λ r s', moves s s' ∧ same_place s s' ∧
    ∀ b', r = Some b' → buf b' = buf b ∧ zlen (buf b) + 4 ≤ buf_cap b' ∧ room_ok b').
Proof.
  intros Hs (Hb&Hz&Hc&Hmax) Hpos Hlt. pose proof (iv_pos _ Hs). unfold bebop__scan_grow_buf. cbv zeta.
  set (cap := if buf_cap b =? 0 then 64 else u64 (buf_cap b * 2)).
  assert (Hcap : cap = if buf_cap b =? 0 then 64 else buf_cap b * 2).
  { subst cap. destruct (buf_cap b =? 0); [done|]. apply u64_small. lia. }
  apply runs_bind, on_ctx_runs. set (r := ctx_alloc_n _ _ _ _).
  assert (Hm : moves s (set_ctx r.2 s)) by (apply moves_ctx; [done|by apply (ctx_alloc_n_ok _ _ 0)]).
  destruct r.1 as [q|].
  - apply runs_ret. split; [done|]. split; [done|]. intros b' [= <-]. cbn. split; [done|]. unfold room_ok. cbn.
    rewrite Hcap. destruct (Z.eqb_spec (buf_cap b) 0) as [E|E]; (split; [lia|]; split_and!; [done|lia|lia|lia]).
  - apply runs_bind, runs_modify, runs_ret. split; [|done]. eapply moves_trans; [exact Hm|]. by apply moves_out_of_memory, Hm.
Qed.

Lemma push_byte_runs c b s :
  inv s → byte_ok c → room_ok b → zlen (buf b) ≤ 4 * sc_pos s →
  runs (push_byte c b) s (λ r s', moves s s' ∧ same_place s s' ∧
    ∀ b', r = Some b' → zlen (buf b') = zlen (buf b) + 1 ∧ room_ok b').
Proof.
  intros Hs Hc Hb Hpos. unfold push_byte.
  assert (Hroom : runs (if buf_cap b <=? zlen (buf b) then bebop__scan_grow_buf b else mret (Some b)) s
    (λ r s', moves s s' ∧ same_place s s' ∧ ∀ b', r = Some b' → buf b' = buf b ∧ zlen (buf b) < buf_cap b' ∧ room_ok b')).
  { destruct (Z.leb_spec (buf_cap b) (zlen (buf b))).
    - eapply runs_mono; [apply grow_buf_runs; [done|done|done|lia]|]. cbv beta. intros r s' (?&?&Hr).
      split; [done|]. split; [done|]. intros b' Eb. destruct (Hr b' Eb) as (?&?&?). split; [done|]. split; [lia|done].
    - apply runs_ret. split; [by apply moves_id|]. split; [done|]. by intros b' [= <-]. }
  run Hroom as r s1 (Hm&Hp&Hr). destruct r as [b'|]; [|by apply runs_ret].
  destruct (Hr b' eq_refl) as (Eb&Hlt&Hb1&Hz1&Hcap1&Hmax1). rewrite Eb. destruct (Z.leb_spec (buf_cap b') (zlen (buf b))); [lia|].
  apply runs_ret. split; [done|]. split; [done|]. intros b'' [= <-]. unfold room_ok. cbn [buf buf_cap]. rewrite zlen_app.
  change (zlen [c]) with 1. rewrite Eb in Hb1. split; [done|]. split; [apply Forall_app; by split; [|constructor]|]. split; [lia|done].
Qed.

Lemma grow_for_runs n b s :
  inv s → room_ok b → zlen (buf b) ≤ 4 * sc_pos s → 0 ≤ n ≤ 4 →
  runs (grow_for 2 n b) s (λ r s', moves s s' ∧ same_place s s' ∧
    ∀ b', r = Some b' → buf b' = buf b ∧ zlen (buf b) + n ≤ buf_cap b' ∧ room_ok b').
Proof.
  intros Hs Hb Hpos Hn. cbn [grow_for]. destruct (Z.ltb_spec (buf_cap b) (zlen (buf b) + n)).
  - run (grow_buf_runs b s Hs Hb Hpos ltac:(lia)) as r s1 (Hm&Hp&Hr). destruct r as [b'|]; [|by apply runs_ret].
    destruct (Hr b' eq_refl) as (Eb&Hcap&Hb'). rewrite Eb. destruct (Z.ltb_spec (buf_cap b') (zlen (buf b) + n)); [lia|].
    apply runs_ret. split; [done|]. split; [done|]. intros b'' [= <-]. split; [done|]. split; [lia|done].
  - apply runs_ret. split; [by apply moves_id|]. split; [done|]. intros b' [= <-]. split; [done|]. split; [lia|done].
Qed.

Lemma advance_n_runs n s :
  inv s → runs (advance_n source n) s (λ _ s', moves s s' ∧
    ((∀ j, sc_pos s ≤ j < sc_pos s + Z.of_nat n → default 0 (load source j) ≠ 0 ∧ default 0 (load source j) ≠ 13) →
     sc_pos s' = sc_pos s + Z.of_nat n)).
Proof.
  revert s. induction n as [|n IH]; intros s Hs; cbn [advance_n].
  { apply runs_ret. split; [by apply moves_id|]. intros. lia. }
  run (advance_runs s Hs) as _ s1 (Hm&Hp). eapply runs_mono; [apply (IH s1 (mv_inv _ _ Hm))|]. cbv beta.
  intros _ s2 [Hm2 Hp2]. split; [by eapply moves_trans|]. intros Hall. destruct (Hall (sc_pos s) ltac:(lia)) as [H0' H13].
  destruct (Hp H0') as [_ E]. specialize (E H13). rewrite E in Hp2. rewrite Hp2; [lia|]. intros j Hj. apply Hall. lia.
Qed.

Lemma source_byte n c : load source n = Some c → byte_ok c.
Proof. by apply load_ok. Qed.

Lemma peek_byte s : byte_ok (peek s).
Proof.
  unfold bebop__scan_peek_char. destruct (load source (sc_pos s)) as [c|] eqn:E; [by eapply source_byte|]. unfold byte_ok. cbn. lia.
Qed.

Definition step_ok (s : S) (st : quoted_step) (s' : S) : Prop :=
  match st with
  | QMore b => sc_pos s < sc_pos s' ∧ room_ok b ∧ zlen (buf b) ≤ 4 * sc_pos s'
  | QDone b => room_ok b
  | QSkip => True
  end.

(** The round after a byte was pushed and the scanner moves past it. *)
Lemma quoted_push_runs c b s s1 (more : bool) :
  inv s → moves s s1 → byte_ok c → room_ok b → zlen (buf b) ≤ 4 * sc_pos s → peek s ≠ 0 →
  (more = true ∧ s1 = s ∨ more = false ∧ sc_pos s < sc_pos s1) →
  runs (r ← push_byte c b;
        match r with None => mret (QDone b) | Some b => (if more then bebop__scan_advance source else mret tt);; mret (QMore b) end)
    s1 (λ st s', moves s s' ∧ step_ok s st s').
Proof.
  intros Hs Hm Hc Hb Hpos Hne Hcase. pose proof (mv_pos _ _ Hm).
  run (push_byte_runs c b s1 (mv_inv _ _ Hm) Hc Hb ltac:(lia)) as r s2 (Hm2&Hsp&Hr).
  assert (Hm12 : moves s s2) by by eapply moves_trans. destruct r as [b'|]; [|by apply runs_ret].
  destruct (Hr b' eq_refl) as [Hz Hb']. destruct Hsp as (Ep&_). destruct Hcase as [[-> ->]|[-> Hlt]].
  - run (advance_runs s2 (mv_inv _ _ Hm2)) as _ s3 (Hm3&Hp). apply runs_ret. split; [by eapply moves_trans|].
    assert (E : peek s2 = peek s) by (unfold bebop__scan_peek_char; by rewrite Ep). rewrite E in Hp. destruct (Hp Hne) as [? _].
    split; [lia|]. split; [done|lia].
  - apply runs_bind, runs_ret, runs_ret. split; [done|]. split; [lia|]. split; [done|lia].
Qed.

Lemma quoted_round_runs quote b s :
  inv s → byte_ok quote → room_ok b → zlen (buf b) ≤ 4 * sc_pos s → peek s ≠ 0 →
  runs (quoted_round source schema quote b) s (λ st s', moves s s' ∧ step_ok s st s').
Proof.
  intros Hs Hq Hb Hpos Hne. unfold quoted_round. apply runs_bind, runs_gets. cbv zeta. cbn [id].
  destruct (Z.eqb_spec (peek s) quote) as [Eq|_]; [|destruct (Z.eqb_spec (peek s) 92) as [_|_]; [|destruct (BEBOP_IS_NEWLINE (peek s))]].
  - destruct (bebop__scan_peek_char_at source 1 s =? quote).
    + apply runs_assoc. run (advance2_runs s Hs Hne) as _ s1 (Hm&Hlt). apply (quoted_push_runs quote b s s1 false); auto.
    + run (advance_runs s Hs) as _ s1 (Hm&_). apply runs_ret. done.
  - run (advance_runs s Hs) as _ s1 (Hm&Hp). destruct (Hp Hne) as [Hlt _]. apply runs_bind, runs_gets. cbn [id].
    pose proof (iv_pos _ (mv_inv _ _ Hm)) as Hp1. pose proof (iv_pos _ Hs).
    destruct (unescape_char_spec source (sc_pos s1) (source_len source - sc_pos s1)) as (n&out&E&Hn&Hout&_&Hbytes);
      [lia|unfold source_len; lia|unfold source_len; lia|].
    apply runs_bind. eapply runs_lift; [exact E|]. cbv beta iota. destruct (Z.eqb_spec n 0).
    + run (add_diagnostic_runs BEBOP_DIAG_INVALID_ESCAPE (span_from s s1) s1 (mv_inv _ _ Hm)) as _ s2 (Hm2&_).
      apply runs_ret. split; [by eapply moves_trans|done].
    + run (grow_for_runs (zlen out) b s1 (mv_inv _ _ Hm) Hb ltac:(lia)) as r s2 (Hm2&Hsp&Hr); [pose proof (zlen_nonneg out); lia|].
      assert (Hm12 : moves s s2) by by eapply moves_trans. destruct r as [b'|]; [|by apply runs_ret].
      destruct (Hr b' eq_refl) as (Eb&Hcap&Hb'&_&Hcap'&Hmax'). destruct Hsp as (Ep&_).
      run (advance_n_runs (Z.to_nat n) s2 (mv_inv _ _ Hm2)) as _ s3 (Hm3&_). apply runs_ret. split; [by eapply moves_trans|].
      pose proof (mv_pos _ _ Hm3). split; [lia|]. unfold room_ok. cbn [buf buf_cap]. rewrite Eb in *. rewrite zlen_app.
      split; [|lia]. split; [by apply Forall_app|]. split; [lia|done].
  - apply (quoted_push_runs 10 b s s true); auto using moves_id. unfold byte_ok. lia.
  - apply (quoted_push_runs (peek s) b s s true); auto using moves_id. apply peek_byte.
Qed.

Lemma quoted_loop_runs fuel quote b s :
  inv s → byte_ok quote → room_ok b → zlen (buf b) ≤ 4 * sc_pos s → (Z.to_nat (zlen source - sc_pos s) < fuel)%nat →
  runs (quoted_loop source schema fuel quote b) s (λ r s', moves s s' ∧ ∀ b', r = Some b' → room_ok b').
Proof.
  revert b s. induction fuel as [|fuel IH]; intros b s Hs Hq Hb Hpos Hf; [lia|]. cbn [quoted_loop].
  apply runs_bind, runs_gets. cbn [id]. destruct (Z.eqb_spec (peek s) 0) as [_|Hne]; cbn [orb].
  { apply runs_ret. split; [by apply moves_id|]. by intros b' [= <-]. }
  destruct (sc_error s); [apply runs_ret; split; [by apply moves_id|]; by intros b' [= <-]|].
  run (quoted_round_runs quote b s Hs Hq Hb Hpos Hne) as st s1 (Hm&Hst). destruct (peek_in s Hs Hne). destruct st as [b'|b'|].
  - destruct Hst as (Hlt&Hb'&Hpos'). eapply runs_mono; [apply (IH b' s1 (mv_inv _ _ Hm)); try done; lia|].
    cbv beta. intros r s2 [Hm2 Hr]. split; [by eapply moves_trans|done].
  - apply runs_ret. split; [done|]. by intros b'' [= <-].
  - by apply runs_ret.
Qed.

Lemma skip_lit_to_end_runs fuel quote s :
  inv s → (Z.to_nat (zlen source - sc_pos s) < fuel)%nat →
  runs (skip_lit_to_end source fuel quote) s (λ _ s', moves s s').
Proof.
  revert s. induction fuel as [|fuel IH]; intros s Hs Hf; [lia|]. cbn [skip_lit_to_end].
  apply runs_bind, runs_gets. cbn [id]. destruct (Z.eqb_spec (peek s) 0) as [_|Hne]; [apply runs_ret; by apply moves_id|].
  destruct ((peek s =? quote) && _).
  - eapply runs_mono; [by apply advance_runs|]. cbv beta. by intros _ s1 [Hm _].
  - run (advance_runs s Hs) as _ s1 (Hm&Hp). destruct (Hp Hne). destruct (peek_in s Hs Hne).
    eapply runs_mono; [apply (IH s1 (mv_inv _ _ Hm)); lia|]. cbv beta. intros _ s2 Hm2. by eapply moves_trans.
Qed.

(** The token of a literal that began at [s0]. *)
Definition literal_post (s0 s : S) (tok : bebop_token_t) (s' : S) : Prop :=
  moves s s' ∧ ∃ kind lexeme, tok = token kind (span_from s0 s') lexeme ∧
    (kind = BEBOP_TOKEN_STRING ∨ kind = BEBOP_TOKEN_BYTES ∨ kind = BEBOP_TOKEN_ERROR) ∧
    (ctx_ok (sc_ctx s) → has_lexeme kind = true →
       ∃ t, text_ok (span_from s0 s') kind t ∧ resolves (sc_ctx s') lexeme t).

Lemma literal_post_before s0 s s1 tok s' : moves s s1 → literal_post s0 s1 tok s' → literal_post s0 s tok s'.
Proof.
  intros Hm [Hm' (kind&lexeme&E&Hk&Ht)]. split; [by eapply moves_trans|]. exists kind, lexeme.
  split; [done|]. split; [done|]. intros Hc. apply Ht. by apply (mv_ctx _ _ Hm).
Qed.

Lemma error_token_runs s0 s : inv s → runs (error_token s0) s (literal_post s0 s).
Proof.
  intros Hs. unfold error_token. apply runs_bind, runs_gets, runs_ret. split; [by apply moves_id|].
  eexists _, _. split; [done|]. split; [tauto|done].
Qed.

(** What validation of a decoded text gives. *)
Lemma validated_text is_bytes b :
  room_ok b →
  ∃ valid, (if negb is_bytes && (0 <? zlen (buf b)) then bebop_utf8_valid (buf b) 0 (zlen (buf b)) else Some true) = Some valid ∧
    (valid = true → ∀ sp, text_ok sp (if is_bytes then BEBOP_TOKEN_BYTES else BEBOP_TOKEN_STRING) (buf b)).
Proof.
  intros (Hb&_). destruct is_bytes; cbn [negb andb]; [by exists true|]. pose proof (zlen_nonneg (buf b)).
  destruct (Z.ltb_spec 0 (zlen (buf b))) as [Hlt|Hge].
  - destruct (utf8_valid_loop_spec (buf b) 0 (zlen (buf b)) (Z.to_nat (zlen (buf b))) 0 Hb ltac:(lia) ltac:(lia)) as (v&E&Hv); [lia..|].
    exists v. split; [exact E|]. intros Ev sp. apply Hv in Ev as (cps&Hs&El). rewrite Z.sub_0_r, load_bytes_all in El.
    injection El as El. by exists cps.
  - exists true. split; [done|]. intros _ sp. exists []. split; [constructor|]. destruct (buf b); [done|].
    rewrite zlen_cons in *. zlen_pos. lia.
Qed.

Lemma literal_token_runs s0 is_bytes b s :
  inv s → room_ok b → runs (literal_token schema s0 is_bytes b) s (literal_post s0 s).
Proof.
  intros Hs Hb. unfold literal_token. apply runs_bind, runs_gets. cbn [id]. destruct (sc_error s); [by apply error_token_runs|].
  assert (Hroom : runs (if buf_cap b <=? zlen (buf b) then
      new_buf ← on_ctx (ctx_alloc_n 1 (zlen (buf b) + 1) 1);
      match new_buf with None => out_of_memory "Failed to allocate literal buffer";; mret false | Some _ => mret true end else mret true) s
    (λ _ s', moves s s' ∧ same_place s s')).
  { destruct (buf_cap b <=? zlen (buf b)); [|apply runs_ret; split; [by apply moves_id|done]].
    apply runs_bind, on_ctx_runs. set (r := ctx_alloc_n _ _ _ _).
    assert (Hm : moves s (set_ctx r.2 s)) by (apply moves_ctx; [done|by apply (ctx_alloc_n_ok _ _ 0)]).
    destruct r.1; [by apply runs_ret|]. apply runs_bind, runs_modify, runs_ret. split; [|done].
    eapply moves_trans; [exact Hm|]. by apply moves_out_of_memory, Hm. }
  run Hroom as room s1 (Hm1&Hp1). clear Hroom. destruct room; cbn [negb].
  2:{ eapply runs_mono; [apply error_token_runs, Hm1|]. intros tok s2. by apply literal_post_before. }
  destruct (validated_text is_bytes b Hb) as (valid&Ev&Htext). apply runs_bind.
  assert (Hlift : runs (if negb is_bytes && (0 <? zlen (buf b)) then lift (bebop_utf8_valid (buf b) 0 (zlen (buf b))) else mret true) s1
    (λ v s', v = valid ∧ s' = s1)).
  { destruct (negb is_bytes && _); [by eapply runs_lift|]. injection Ev as <-. by apply runs_ret. }
  eapply runs_mono; [exact Hlift|]. cbv beta. intros v s' [E1 E2]. subst v s'. clear Hlift. destruct valid; cbn [negb].
  - run (intern_runs (buf b) s1 (mv_inv _ _ Hm1)) as h s2 (Hm2&Hp2&Hres). apply runs_ret.
    rewrite <- (span_from_same s0 s s2) by by eapply same_place_trans.
    split; [by eapply moves_trans|]. eexists _, _. split; [done|]. split; [destruct is_bytes; tauto|].
    intros Hc _. exists (buf b). split; [by apply Htext|]. apply Hres. by apply (mv_ctx _ _ Hm1).
  - run (add_diagnostic_runs BEBOP_DIAG_INVALID_UTF8 (span_from s0 s) s1 (mv_inv _ _ Hm1)) as _ s2 (Hm2&_).
    eapply runs_mono; [apply error_token_runs, Hm2|]. intros tok s3 Ht. do 2 (eapply literal_post_before; [eassumption|]). done.
Qed.

Lemma scan_quoted_runs is_bytes s :
  inv s → peek s ≠ 0 → runs (bebop__scan_quoted source schema is_bytes) s (token_post s).
Proof.
  intros Hs Hne. unfold bebop__scan_quoted. apply runs_bind, runs_gets. cbn [id].
  assert (Hfirst : runs (if is_bytes then bebop__scan_advance source else mret tt) s
    (λ _ s', moves s s' ∧ if is_bytes then sc_pos s < sc_pos s' else s' = s)).
  { destruct is_bytes; [|apply runs_ret; split; [by apply moves_id|done]].
    eapply runs_mono; [by apply advance_runs|]. cbv beta. intros _ s1 [Hm Hp]. split; [done|]. by apply Hp. }
  assert (Hlit : ∀ s1 tok s', moves s s1 → sc_pos s < sc_pos s1 → literal_post s s1 tok s' → token_post s tok s').
  { intros s1 tok s' Hm Hlt [Hm' (kind&lexeme&->&Hk&Ht)]. apply (token_post_intro s s1); try done;
      destruct Hk as [E | [E | E]]; subst kind; done || reflexivity. }
  run Hfirst as _ s1 (Hm1&Hp1). clear Hfirst. apply runs_bind, runs_gets. cbn [id].
  destruct (is_bytes && negb (is_quote (peek s1))) eqn:Ebytes.
  { destruct is_bytes; [|done]. eapply runs_mono; [apply error_token_runs, Hm1|]. intros tok s'. by apply Hlit. }
  cbv zeta. run (advance_runs s1 (mv_inv _ _ Hm1)) as _ s2 (Hm2&Hp2).
  assert (Hm12 : moves s s2) by by eapply moves_trans. pose proof (mv_pos _ _ Hm2) as Hle2.
  assert (Hlt2 : sc_pos s < sc_pos s2) by (destruct is_bytes; [lia|]; subst s1; by apply Hp2).
  pose proof (iv_pos _ Hs).
  run (quoted_loop_runs fuel0 (peek s1) (mkBuf [] 0) s2 (mv_inv _ _ Hm2)) as r s3 (Hm3&Hr).
  { apply peek_byte. }
  { unfold room_ok. cbn. pose proof (@zlen_nil Z). split; [constructor|lia]. }
  { cbn. pose proof (@zlen_nil Z). lia. }
  { by apply fuel0_enough, Hm2. }
  assert (Hm13 : moves s s3) by by eapply moves_trans. pose proof (mv_pos _ _ Hm3). destruct r as [b|].
  - eapply runs_mono; [apply literal_token_runs; [apply Hm3|by apply Hr]|]. intros tok s'. apply Hlit; [done|lia].
  - run (skip_lit_to_end_runs fuel0 (peek s1) s3 (mv_inv _ _ Hm3) (fuel0_enough _ (mv_inv _ _ Hm3))) as _ s4 Hm4.
    pose proof (mv_pos _ _ Hm4). eapply runs_mono; [apply error_token_runs, Hm4|]. intros tok s'. apply Hlit; [by eapply moves_trans|lia].
Qed.

(** *** Raw blocks *)

Lemma byte_at n c : c ≠ 0 → default 0 (load source n) = c → load source n = Some c.
Proof. intros Hc. destruct (load source n); cbn; congruence. Qed.

Lemma delim_load p q level :
  0 ≤ p → 0 ≤ level → load source p = Some q → (∀ j, 1 ≤ j ≤ level → load source (p + j) = Some 61) →
  load source (p + (level + 1)) = Some q →
  load_bytes source p (level + 2) = Some (raw_delim q level).
Proof.
  intros Hp Hl H1' H2' H3'. assert (Hz : zlen (raw_delim q level) = level + 2).
  { unfold raw_delim. rewrite zlen_cons, zlen_app. change (zlen [q]) with 1. unfold zlen. rewrite length_replicate. lia. }
  rewrite <- Hz. apply load_bytes_of_loads; [done| |].
  - intros i b Hi. unfold raw_delim in Hi. destruct i as [|i]; cbn [lookup list_lookup] in Hi.
    { injection Hi as <-. by rewrite Z.add_0_r. }
    apply lookup_app_Some in Hi as [[-> Hlt]%lookup_replicate|[Hge Hi]]; [apply H2'; lia|].
    rewrite length_replicate in *. apply list_lookup_singleton_Some in Hi as [Hi <-].
    rewrite <- H3'. f_equal. lia.
  - apply load_Some in H3' as [_ E%lookup_lt_Some]. unfold zlen in *. lia.
Qed.

Lemma raw_level_spec fuel s level :
  0 ≤ sc_pos s → 0 ≤ level → (Z.to_nat (zlen source - (sc_pos s + level)) < fuel)%nat →
  ∃ l, raw_level source fuel s level = Some l ∧ level ≤ l ∧
    ∀ j, level ≤ j < l → load source (sc_pos s + j) = Some 61.
Proof.
  intros Hp. revert level. induction fuel as [|fuel IH]; intros level Hl Hf; [lia|]. cbn [raw_level].
  unfold bebop__scan_peek_char_at at 1. destruct (Z.eqb_spec (default 0 (load source (sc_pos s + level))) 61) as [E|_].
  - apply byte_at in E; [|done]. pose proof E as Hin. apply load_Some in Hin as [_ Hin%lookup_lt_Some].
    destruct (IH (level + 1)) as (l&El&Hle&Hall); [lia|unfold zlen in *; lia|]. exists l. split; [done|]. split; [lia|].
    intros j Hj. destruct (decide (j = level)) as [->|]; [done|]. apply Hall. lia.
  - exists level. split; [done|]. split; [lia|]. intros. lia.
Qed.

Lemma raw_match_spec fuel s level m :
  0 ≤ sc_pos s → 0 ≤ m → (Z.to_nat (zlen source - (sc_pos s + m)) < fuel)%nat →
  ∃ m', raw_match source fuel s level m = Some m' ∧ m ≤ m' ∧
    ∀ j, m ≤ j < m' → load source (sc_pos s + j) = Some 61.
Proof.
  intros Hp. revert m. induction fuel as [|fuel IH]; intros m Hm Hf; [lia|]. cbn [raw_match].
  destruct ((m <=? level) && (bebop__scan_peek_char_at source m s =? 61)) eqn:E.
  - apply andb_true_iff in E as [_ E%Z.eqb_eq]. unfold bebop__scan_peek_char_at in E.
    apply byte_at in E; [|done]. pose proof E as Hin. apply load_Some in Hin as [_ Hin%lookup_lt_Some].
    destruct (IH (m + 1)) as (l&El&Hle&Hall); [lia|unfold zlen in *; lia|]. exists l. split; [done|]. split; [lia|].
    intros j Hj. destruct (decide (j = m)) as [->|]; [done|]. apply Hall. lia.
  - exists m. split; [done|]. split; [lia|]. intros. lia.
Qed.

Lemma raw_loop_runs fuel level start s :
  inv s → 0 ≤ level → (Z.to_nat (zlen source - sc_pos s) < fuel)%nat →
  runs (raw_loop source fuel level start) s (λ r s', moves s s' ∧
    ∀ n, r = Some n → ∃ p, n = p - start ∧ sc_pos s ≤ p ∧ sc_pos s' = p + (level + 2) ∧
      load_bytes source p (level + 2) = Some (raw_delim 93 level)).
Proof.
  revert s. induction fuel as [|fuel IH]; intros s Hs Hl Hf; [lia|]. cbn [raw_loop]. pose proof (iv_pos _ Hs).
  apply runs_bind, runs_gets. cbn [id]. destruct (Z.eqb_spec (peek s) 0) as [_|Hne].
  { apply runs_ret. split; [by apply moves_id|done]. }
  assert (Hclosed : runs (if peek s =? 93 then m ← lift (raw_match source fuel0 s level 1);
       mret ((m =? level + 1) && (bebop__scan_peek_char_at source m s =? 93)) else mret false) s
    (λ closed s', s' = s ∧ (closed = true → load_bytes source (sc_pos s) (level + 2) = Some (raw_delim 93 level)))).
  { destruct (Z.eqb_spec (peek s) 93) as [E|_]; [|by apply runs_ret].
    destruct (raw_match_spec fuel0 s level 1) as (m&Em&Hm&Hall); [lia|lia|unfold scan_fuel, zlen in *; lia|].
    apply runs_bind. eapply runs_lift; [exact Em|]. apply runs_ret. split; [done|].
    intros [Hml%Z.eqb_eq Hq%Z.eqb_eq]%andb_true_iff. subst m. apply delim_load; [lia|done|by apply byte_at| |by apply byte_at].
    intros j Hj. apply Hall. lia. }
  apply runs_bind. eapply runs_mono; [exact Hclosed|]. cbv beta. intros closed s' [Es Hc]. subst s'. clear Hclosed. destruct closed.
  - specialize (Hc eq_refl). run (advance_n_runs (Z.to_nat (level + 2)) s Hs) as _ s1 (Hm&Hp). apply runs_ret. split; [done|].
    intros n [= <-]. exists (sc_pos s). split; [done|]. split; [lia|]. split; [|done]. rewrite Hp; [lia|].
    intros j Hj. assert (Hin : ∃ c, load source j = Some c ∧ (c = 93 ∨ c = 61)).
    { pose proof (load_bytes_zlen _ _ _ _ Hc) as Hz. destruct (lookup_lt_is_Some_2 (raw_delim 93 level) (Z.to_nat (j - sc_pos s))) as [c Ec]; [unfold zlen in Hz; lia|].
      exists c. split.
      - rewrite <- (load_bytes_loads _ _ _ _ _ _ Hc Ec). f_equal. lia.
      - apply list_elem_of_lookup_2 in Ec. unfold raw_delim in Ec. apply elem_of_cons in Ec as [->|Ec]; [by left|].
        apply elem_of_app in Ec as [Ec|Ec]; [right; by apply elem_of_replicate in Ec as [-> _]|left; by apply list_elem_of_singleton in Ec]. }
    destruct Hin as (c&Ej&Hc2). rewrite Ej. cbn. lia.
  - run (advance_runs s Hs) as _ s1 (Hm&Hp). destruct (Hp Hne) as [Hlt _]. destruct (peek_in s Hs Hne).
    eapply runs_mono; [apply (IH s1 (mv_inv _ _ Hm)); [done|lia]|]. cbv beta. intros r s2 [Hm2 Hr].
    split; [by eapply moves_trans|]. intros n En. destruct (Hr n En) as (p&?&?&?&?). exists p. split; [done|]. split; [lia|done].
Qed.

Lemma scan_bracket_runs s0 s1 :
  inv s0 → moves s0 s1 → sc_pos s1 = sc_pos s0 + 1 → peek s0 = 91 →
  runs (scan_bracket source schema s0) s1 (token_post s0).
Proof.
  intros Hs0 Hm1 Ep1 Hpeek. unfold scan_bracket. pose proof (iv_pos _ Hs0). pose proof (iv_pos _ (mv_inv _ _ Hm1)).
  apply runs_bind, runs_gets. cbn [id].
  destruct (raw_level_spec fuel0 s1 0) as (level&El&Hl&Hall); [lia|lia|unfold scan_fuel, zlen in *; lia|].
  apply runs_bind. eapply runs_lift; [exact El|]. cbv beta.
  destruct (Z.eqb_spec (bebop__scan_peek_char_at source level s1) 91) as [Hopen|_].
  2:{ apply runs_ret. apply (token_post_intro s0 s1); try done; [by apply moves_id, Hm1|lia|lia]. }
  apply byte_at in Hopen; [|done].
  run (advance_n_runs (Z.to_nat (level + 1)) s1 (mv_inv _ _ Hm1)) as _ s2 (Hm2&Hp2).
  assert (Ep2 : sc_pos s2 = sc_pos s0 + (level + 2)).
  { rewrite Hp2; [lia|]. intros j Hj. destruct (decide (j = sc_pos s1 + level)) as [->|]; [by rewrite Hopen|].
    replace j with (sc_pos s1 + (j - sc_pos s1)) by lia. by rewrite Hall by lia. }
  clear Hp2. apply runs_bind, runs_gets. cbn [id]. cbv zeta.
  assert (Hm02 : moves s0 s2) by by eapply moves_trans.
  run (raw_loop_runs fuel0 level (sc_pos s2) s2 (mv_inv _ _ Hm2) Hl (fuel0_enough _ (mv_inv _ _ Hm2))) as r s3 (Hm3&Hr).
  assert (Hm03 : moves s0 s3) by by eapply moves_trans. pose proof (mv_pos _ _ Hm3). apply runs_bind, runs_gets. cbn [id].
  pose proof (iv_pos _ (mv_inv _ _ Hm3)). destruct r as [n|].
  - destruct (Hr n eq_refl) as (p&->&Hp&Ep3&Hclose).
    run (intern_source_runs (sc_pos s2) (p - sc_pos s2) s3 (mv_inv _ _ Hm3)) as h s4 (Hm4&Hp4&t&Ht&Hres); [lia..|].
    apply runs_ret. rewrite <- (span_from_same s0 s3 s4 Hp4).
    apply (token_post_intro s0 s3); try done; [lia|lia|]. intros Hc _. exists t. split; [|by apply Hres].
    rewrite (span_from_same s0 s3 s4 Hp4). destruct (span_from_ok s0 s3 Hs0 Hm03) as (Eo&Elen&_). exists level. split; [done|].
    rewrite Eo, Elen, Ep3.
    assert (Hd : load_bytes source (sc_pos s0) (level + 2) = Some (raw_delim 91 level)).
    { apply delim_load; [lia|done|apply byte_at; [done|exact Hpeek]| |rewrite <- Hopen; f_equal; lia].
      intros j Hj. rewrite <- (Hall (j - 1)) by lia. f_equal. lia. }
    pose proof (load_bytes_zlen _ _ _ _ Hd) as Hz. pose proof (load_bytes_zlen _ _ _ _ Ht) as Hzt.
    apply load_bytes_split. rewrite Hz. split; [done|]. apply load_bytes_split. rewrite Hzt, <- Ep2. split; [done|].
    rewrite <- Hclose. f_equal; lia.
  - run (add_diagnostic_runs BEBOP_DIAG_INVALID_MACRO (span_from s0 s3) s3 (mv_inv _ _ Hm3)) as _ s4 (Hm4&_).
    assert (Hm04 : moves s0 s4) by by eapply moves_trans. pose proof (mv_pos _ _ Hm4).
    unfold error_token. apply runs_bind, runs_gets, runs_ret. cbn [id].
    apply (token_post_intro s0 s4); try done; [apply moves_id, Hm4|lia|lia].
Qed.

Lemma punctuation_kind c kind : punctuation c = Some kind →
  has_lexeme kind = false ∧ kind ≠ BEBOP_TOKEN_EOF ∧
  bool_decide (kind = BEBOP_TOKEN_IDENTIFIER ∨ kind ∈ map snd bebop__keywords) = false.
Proof.
  unfold punctuation. repeat case_match; intros [=]; subst; done.
Qed.

Lemma scan_token_runs s : inv s → runs (bebop__scan_token source schema) s (token_post s).
Proof.
  intros Hs. unfold bebop__scan_token. apply runs_bind, runs_gets. cbn [id]. cbv zeta.
  destruct (Z.eqb_spec (peek s) 0) as [E0|Hne].
  { apply runs_ret. constructor; cbn [tk_kind tk_span tk_lexeme token]; [by apply moves_id|done|done|done|done|done| |done].
    intros [?|Hin]; [done|]. exfalso. by apply (bool_decide_eq_false_1 (BEBOP_TOKEN_EOF ∈ map snd bebop__keywords)). }
  destruct (BEBOP_IS_IDENT_START (peek s)) eqn:Est.
  { destruct ((peek s =? 98) && _); [by apply scan_quoted_runs|by apply scan_identifier_runs]. }
  destruct (BEBOP_IS_DIGIT (peek s)) eqn:Ed; [by apply scan_number_runs|].
  destruct (is_quote (peek s)); [by apply scan_quoted_runs|].
  run (advance_runs s Hs) as _ s1 (Hm&Hp). destruct (Hp Hne) as [Hlt Hp1]. apply runs_bind, runs_gets. cbn [id].
  pose proof (mv_inv _ _ Hm) as Hs1. pose proof (iv_pos _ Hs).
  destruct (punctuation (peek s)) as [kind|] eqn:Epunct.
  { destruct (punctuation_kind _ _ Epunct) as (Hl&Heof&Hw). apply runs_ret.
    apply (token_post_intro s s1); try done; first [by apply moves_id|congruence]. }
  destruct (Z.eqb_spec (peek s) 91) as [E91|_]; [apply scan_bracket_runs; [done|done|apply Hp1; lia|done]|].
  destruct (peek s =? 45).
  - destruct (peek s1 =? 62).
    + run (advance_runs s1 Hs1) as _ s2 (Hm2&_). apply runs_bind, runs_gets, runs_ret. cbn [id].
      by apply (token_post_intro s s1).
    + apply runs_ret. by apply (token_post_intro s s1).
  - destruct (peek_in s Hs Hne). run (intern_source_runs (sc_pos s) 1 s1 Hs1) as h s2 (Hm2&Hp2&_); [lia..|].
    apply runs_ret. rewrite <- (span_from_same s s1 s2 Hp2). by apply (token_post_intro s s1).
Qed.
End Props.
