(* ===== verification/ScannerSpec.v ===== *)
(** The token stream of the schema scanner: scanning ends on every source, its spans cover
    the source without gap, positions are those of a count over the source, and the
    lexemes are the texts of the tokens. *)
From Stdlib Require Import String Ascii.
From stdpp Require Import list.
From S2P Require Import Prelude.
From S2P Require Import Unicode.
From S2P Require Import Scanner.
From S2P Require Import ScannerProps.

(** The trivia of a list, and the spans of a token with its trivia in source order. *)
Definition slice (trivia : list bebop_trivia_t) (tl : bebop_trivia_list_t) : list bebop_trivia_t :=
  take (Z.to_nat (tl_count tl)) (drop (Z.to_nat (tl_off tl)) trivia).
Definition token_spans (trivia : list bebop_trivia_t) (tok : bebop_token_t) : list bebop_span_t :=
  map tv_span (slice trivia (tk_leading tok)) ++ tk_span tok :: map tv_span (slice trivia (tk_trailing tok)).
Definition stream_spans (trivia : list bebop_trivia_t) (tokens : list bebop_token_t) : list bebop_span_t :=
  concat (map (token_spans trivia) tokens).

Definition slice_in (trivia : list bebop_trivia_t) (tl : bebop_trivia_list_t) : Prop :=
  0 ≤ tl_off tl ∧ 0 ≤ tl_count tl ∧ tl_off tl + tl_count tl ≤ zlen trivia.
Definition slices_in (trivia : list bebop_trivia_t) (tok : bebop_token_t) : Prop :=
  slice_in trivia (tk_leading tok) ∧ slice_in trivia (tk_trailing tok).

Lemma slice_ext trivia more tl : slice_in trivia tl → slice (trivia ++ more) tl = slice trivia tl ∧ slice_in (trivia ++ more) tl.
Proof.
  intros (H1'&H2'&H3'). split.
  - unfold slice, zlen in *. rewrite drop_app_le by lia. rewrite take_app_le; [done|]. rewrite length_drop. lia.
  - unfold slice_in. rewrite zlen_app. zlen_pos. lia.
Qed.

Lemma stream_spans_ext trivia more tokens :
  Forall (slices_in trivia) tokens →
  stream_spans (trivia ++ more) tokens = stream_spans trivia tokens ∧ Forall (slices_in (trivia ++ more)) tokens.
Proof.
  induction 1 as [|tok tokens [Hl Ht] _ [IH1 IH2]]; [done|]. destruct (slice_ext _ more _ Hl) as [El ?], (slice_ext _ more _ Ht) as [Et ?].
  split; [|by constructor; [split|]]. unfold stream_spans in *. cbn [map concat]. rewrite IH1. unfold token_spans. by rewrite El, Et.
Qed.

Lemma slice_new (T ts : list bebop_trivia_t) :
  zlen (T ++ ts) < 2 ^ 32 →
  slice (T ++ ts) (mkTriviaList (u32 (zlen (T ++ ts) - zlen T)) (zlen T)) = ts ∧
  slice_in (T ++ ts) (mkTriviaList (u32 (zlen (T ++ ts) - zlen T)) (zlen T)).
Proof.
  intros Hz. rewrite zlen_app in *. zlen_pos. rewrite u32_small by lia. unfold slice, slice_in. cbn. rewrite zlen_app. split; [|lia].
  unfold zlen. rewrite Nat2Z.id, drop_app_length. rewrite take_ge; [done|lia].
Qed.

Section Stream.
Context `{ContextOk}.
Context (source : list Z) (schema : bool).
Context (Hsrc : bytes_ok source) (Hlen : zlen source < 2 ^ 32 - 1).
Abbreviation S := (@bebop__scanner_t _).
Abbreviation peek := (bebop__scan_peek_char source).
Abbreviation moves := (moves source).
Abbreviation grows := (grows source).
Abbreviation inv := (inv source).

(** No more trivia than bytes. *)
Definition count_ok (s : S) : Prop := zlen (sc_trivia s) ≤ sc_pos s.

(** Trivia collected from one state to another. *)
Lemma collected s s' :
  grows s s' → count_ok s → sc_error s' = false →
  ∃ ts, sc_trivia s' = sc_trivia s ++ ts ∧ count_ok s' ∧ Forall (λ t, 0 < len (tv_span t)) ts ∧
    tiles source (sc_pos s) (map tv_span ts) (sc_pos s') ∧
    slice (sc_trivia s') (bebop__scan_trivia_slice s' (zlen (sc_trivia s))) = ts ∧
    slice_in (sc_trivia s') (bebop__scan_trivia_slice s' (zlen (sc_trivia s))).
Proof.
  intros [Hi Hp _ _ (ts&Et&Hpos&Ht)] Hc He. specialize (Ht He). exists ts.
  assert (Hn : zlen ts ≤ sc_pos s' - sc_pos s).
  { rewrite <- (zlen_map tv_span ts). apply (tiles_length source); [done|by apply List.Forall_map]. }
  assert (Hc' : count_ok s') by (unfold count_ok in *; rewrite Et, zlen_app; lia).
  pose proof (iv_pos _ _ Hi). unfold bebop__scan_trivia_slice.
  assert (Hz : zlen (sc_trivia s ++ ts) < 2 ^ 32) by (rewrite <- Et; unfold count_ok in Hc'; lia).
  destruct (slice_new (sc_trivia s) ts Hz) as [Es Hin]. rewrite <- Et in Es, Hin. by split_and!.
Qed.

(** What is known of a token whatever the scanner does next. *)
Record token_ok (c : ctx) (tok : bebop_token_t) : Prop := {
  tk_progress : tk_kind tok ≠ BEBOP_TOKEN_EOF → 0 < len (tk_span tok);
  tk_word : word_ok source (tk_span tok) (tk_kind tok);
  tk_text : has_lexeme (tk_kind tok) = true → ∃ t, text_ok source (tk_span tok) (tk_kind tok) t ∧ resolves c (tk_lexeme tok) t
}.

Lemma token_ok_le c c' tok : ctx_ok c → ctx_le c c' → token_ok c tok → token_ok c' tok.
Proof.
  intros Hc Hle [? ? Ht]. split; [done|done|]. intros Hl. destruct (Ht Hl) as (t&?&?). exists t. split; [done|]. by eapply resolves_le.
Qed.

(** One call of [bebop__scan_next] without memory running out. *)
Record next_ok (s : S) (tok : bebop_token_t) (s' : S) : Prop := {
  nx_trivia : ∃ ts, sc_trivia s' = sc_trivia s ++ ts;
  nx_count : count_ok s';
  nx_tiles : tiles source (sc_pos s) (token_spans (sc_trivia s') tok) (sc_pos s');
  nx_slices : slices_in (sc_trivia s') tok;
  nx_token : token_ok (sc_ctx s') tok;
  nx_eof : tk_kind tok = BEBOP_TOKEN_EOF → peek s' = 0 ∧ len (tk_span tok) = 0 ∧ off (tk_span tok) = sc_pos s'
}.

Record next_post (s : S) (tok : bebop_token_t) (s' : S) : Prop := {
  np_inv : inv s';
  np_ctx : ctx_le (sc_ctx s) (sc_ctx s');
  np_progress : tk_kind tok ≠ BEBOP_TOKEN_EOF → sc_pos s < sc_pos s';
  np_ok : sc_error s' = false → count_ok s → ctx_ok (sc_ctx s) → next_ok s tok s'
}.

Definition relead (leading : bebop_trivia_list_t) (tok : bebop_token_t) : bebop_token_t :=
  mkToken (tk_kind tok) (tk_span tok) (tk_lexeme tok) leading (tk_trailing tok).

Lemma scan_next_runs s : inv s → runs (bebop__scan_next source schema) s (next_post s).
Proof.
  intros Hs. unfold bebop__scan_next. apply runs_bind, runs_gets. cbn [id]. destruct (sc_error s) eqn:Ee.
  { apply runs_ret. split; [done|reflexivity|done|congruence]. }
  run (leading_loop_runs source schema Hlen (scan_fuel source) s Hs (fuel0_enough source s Hs)) as _ s1 Hg1.
  pose proof (gr_inv _ _ _ Hg1) as Hs1. apply runs_bind, runs_gets. cbn [id]. destruct (sc_error s1) eqn:Ee1.
  { apply runs_ret. split; [done|apply Hg1|done|congruence]. }
  cbv zeta. set (leading := bebop__scan_trivia_slice s1 (zlen (sc_trivia s))).
  run (scan_token_runs source schema Hsrc Hlen s1 Hs1) as tok s2 [Hm2 Hspan Hplain Hstop Heof Hprog Hword Htext].
  pose proof (mv_inv _ _ _ Hm2) as Hs2. pose proof (gr_pos _ _ _ Hg1). pose proof (mv_pos _ _ _ Hm2).
  assert (Hle2 : ctx_le (sc_ctx s) (sc_ctx s2)) by (etrans; [apply Hg1|apply Hm2]).
  assert (Hc2 : ctx_ok (sc_ctx s) → ctx_ok (sc_ctx s1)) by (intros Hc; by apply (gr_ctx _ _ _ Hg1)).
  destruct (span_from_ok source Hlen s1 s2 Hs1 Hm2) as (Eo&El&Hok). rewrite <- Hspan in Eo, El, Hok.
  assert (Htok : ctx_ok (sc_ctx s) → token_ok (sc_ctx s2) tok).
  { intros Hc. split; [|done|by apply Htext, Hc2]. intros Hk. rewrite Heof in Hk. specialize (Hprog Hk). lia. }
  apply runs_bind, runs_gets. cbn [id tk_kind]. case_bool_decide as Hk; cbn [negb andb].
  - apply runs_ret. split; [done|done|done|]. intros He2 Hcount Hc.
    destruct (collected s s1 Hg1 Hcount) as (ts&Et&Hcount1&Hf&Ht&Es&Hin); [done|].
    assert (E2 : sc_trivia s2 = sc_trivia s1) by apply Hm2. destruct (Htok Hc) as [Hp' Hw' Ht'].
    split; [exists ts; congruence|unfold count_ok in *; rewrite E2; lia| | | |].
    + unfold token_spans. cbn [tk_leading tk_trailing tk_span]. rewrite Hplain, E2. subst leading. rewrite Es.
      apply (tiles_app source _ _ (sc_pos s1)); [done|]. change (slice _ no_trivia) with (@nil bebop_trivia_t). cbn [map tiles].
      split; [done|]. split; [done|lia].
    + rewrite E2. split; [done|]. cbn [tk_trailing]. rewrite Hplain. unfold slice_in. cbn. zlen_pos. lia.
    + by split.
    + intros _. assert (Hz : peek s1 = 0) by by apply Heof. specialize (Hstop Hz). cbn [tk_span].
      split; [|lia]. unfold bebop__scan_peek_char in *. by rewrite Hstop.
  - assert (Hne : peek s1 ≠ 0) by (intros E; by apply Hk, Heof). specialize (Hprog Hne).
    destruct (sc_error s2) eqn:Ee2; cbn [negb].
    { apply runs_ret. split; [done|done|intros _; lia|congruence]. }
    apply runs_bind. unfold bebop__scan_collect_trailing_trivia. apply runs_bind, runs_gets. cbn [id].
    run (trailing_loop_runs source schema Hlen (scan_fuel source) s2 Hs2 (fuel0_enough source s2 Hs2)) as _ s3 Hg3.
    pose proof (gr_inv _ _ _ Hg3) as Hs3. pose proof (gr_pos _ _ _ Hg3).
    assert (Hle3 : ctx_le (sc_ctx s) (sc_ctx s3)) by (etrans; [done|apply Hg3]).
    apply runs_bind, runs_gets, runs_ret, runs_ret. cbn [id tk_kind tk_span tk_lexeme]. split; [done|done|intros _; lia|].
    intros He3 Hcount Hc. destruct (collected s s1 Hg1 Hcount Ee1) as (ts&Et&Hcount1&Hf&Ht&Es&Hin).
    assert (E2 : sc_trivia s2 = sc_trivia s1) by apply Hm2.
    assert (Hcount2 : count_ok s2) by (unfold count_ok in *; rewrite E2; lia).
    destruct (collected s2 s3 Hg3 Hcount2 He3) as (ts3&Et3&Hcount3&Hf3&Ht3&Es3&Hin3). rewrite E2 in Et3.
    destruct (slice_ext (sc_trivia s1) ts3 leading Hin) as [Es' Hin']. rewrite <- Et3 in Es', Hin'.
    assert (Htok3 : token_ok (sc_ctx s3) tok).
    { apply (token_ok_le (sc_ctx s2)); [by apply Hle2|apply Hg3|by apply Htok]. }
    destruct Htok3 as [Hp' Hw' Ht']. split.
    + exists (ts ++ ts3). by rewrite Et3, Et, app_assoc.
    + done.
    + unfold token_spans. cbn [tk_leading tk_trailing tk_span]. subst leading. rewrite Es', Es, Es3.
      apply (tiles_app source _ _ (sc_pos s1)); [done|]. cbn [tiles]. split; [done|]. split; [done|].
      by replace (sc_pos s1 + len (tk_span tok)) with (sc_pos s2) by lia.
    + by split.
    + by split.
    + done.
Qed.

(** ** The stream *)

Record stream_ok (tokens : list bebop_token_t) (s : S) : Prop := {
  st_inv : inv s;
  st_count : count_ok s;
  st_tiles : tiles source 0 (stream_spans (sc_trivia s) tokens) (sc_pos s);
  st_slices : Forall (slices_in (sc_trivia s)) tokens;
  st_tokens : Forall (token_ok (sc_ctx s)) tokens;
  st_ctx : ctx_ok (sc_ctx s)
}.

(** The stream ends with the one token of the end. *)
Definition ends_eof (tokens : list bebop_token_t) (s : S) : Prop :=
  ∃ init eof, tokens = init ++ [eof] ∧ tk_kind eof = BEBOP_TOKEN_EOF ∧ len (tk_span eof) = 0 ∧ off (tk_span eof) = sc_pos s ∧
    Forall (λ tok, tk_kind tok ≠ BEBOP_TOKEN_EOF) init ∧ peek s = 0.

(** One more token. *)
Lemma stream_snoc tokens s tok s' :
  stream_ok tokens s → next_post s tok s' → sc_error s' = false → stream_ok (tokens ++ [tok]) s'.
Proof.
  intros [Hi Hc Ht Hsl Htk Hx] [Hi' Hle _ Hok] He. destruct (Hok He Hc Hx) as [(ts&Et) Hc' Ht' Hsl' Htok _].
  destruct (stream_spans_ext _ ts _ Hsl) as [Es Hsl2]. rewrite <- Et in Es, Hsl2. split; try done.
  - unfold stream_spans in *. rewrite map_app, concat_app. cbn [map concat]. rewrite app_nil_r, Es.
    by eapply (tiles_app source).
  - apply Forall_app. by split; [|constructor].
  - apply Forall_app. split; [|by constructor]. eapply Forall_impl; [exact Htk|]. intros tok' Htok'. by apply (token_ok_le (sc_ctx s)).
  - by apply Hle.
Qed.

(** A larger token buffer. *)
Lemma scan_room_runs p (tokens : list bebop_token_t) capacity s :
  inv s →
  runs (if capacity <=? zlen tokens then
          new_buf ← on_ctx (ctx_realloc p (capacity * sizeof_token) (u32 (capacity * 2) * sizeof_token));
          match new_buf with
          | None => out_of_memory "Failed to allocate token buffer";; mret None
          | Some _ => mret (Some (new_buf, u32 (capacity * 2)))
          end
        else mret (Some (p, capacity))) s
    (λ r s', moves s s' ∧ sc_pos s' = sc_pos s ∧ sc_error s' = match r with None => true | Some _ => sc_error s end).
Proof.
  intros Hs. destruct (capacity <=? zlen tokens); [|apply runs_ret; split; [by apply moves_id|done]].
  apply runs_bind, on_ctx_runs. set (r := ctx_realloc _ _ _ _).
  assert (Hm : moves s (set_ctx r.2 s)) by (apply moves_ctx; [done|apply ctx_realloc_ok]).
  destruct r.1; [by apply runs_ret|]. apply runs_bind, runs_modify, runs_ret. split; [|done].
  eapply moves_trans; [exact Hm|]. by apply moves_out_of_memory, Hm.
Qed.

Lemma stream_ok_moves tokens s s' : stream_ok tokens s → moves s s' → sc_pos s' = sc_pos s → stream_ok tokens s'.
Proof.
  intros [Hi Hc Ht Hsl Htk Hx] [Hi' _ Et _ Hle] Ep. split.
  - done.
  - unfold count_ok. by rewrite Et, Ep.
  - by rewrite Et, Ep.
  - by rewrite Et.
  - eapply Forall_impl; [exact Htk|]. intros tok' Htok'. by apply (token_ok_le (sc_ctx s)).
  - by apply Hle.
Qed.

Lemma scan_loop_runs fuel p tokens capacity s :
  inv s → (sc_error s = false → stream_ok tokens s) → Forall (λ tok, tk_kind tok ≠ BEBOP_TOKEN_EOF) tokens →
  (Z.to_nat (zlen source - sc_pos s) < fuel)%nat →
  runs (scan_loop source schema fuel p tokens capacity) s (λ tokens' s', inv s' ∧
    (sc_error s' = false → stream_ok tokens' s' ∧ ends_eof tokens' s')).
Proof.
  revert p tokens capacity s. induction fuel as [|fuel IH]; intros p tokens capacity s Hs Hst Hno Hf; [lia|].
  cbn [scan_loop]. apply runs_bind, runs_gets. cbn [id]. destruct (sc_error s) eqn:Ee.
  { apply runs_ret. split; [done|congruence]. }
  specialize (Hst eq_refl). run (scan_next_runs s Hs) as tok s1 Hn. pose proof (np_inv _ _ _ Hn) as Hs1. cbv zeta.
  run (scan_room_runs p tokens capacity s1 Hs1) as r s2 (Hm2&Ep2&Ee2). pose proof (mv_inv _ _ _ Hm2) as Hs2.
  destruct r as [[p' capacity']|]; [|apply runs_ret; split; [done|congruence]].
  assert (Hst2 : sc_error s2 = false → stream_ok (tokens ++ [tok]) s2).
  { intros He. apply (stream_ok_moves _ s1); [|done|done]. apply (stream_snoc _ s); [done|done|congruence]. }
  case_bool_decide as Hk.
  - apply runs_ret. split; [done|]. intros He. split; [by apply Hst2|].
    destruct (np_ok _ _ _ Hn ltac:(congruence) (st_count _ _ Hst) (st_ctx _ _ Hst)) as [_ _ _ _ _ Heof].
    destruct (Heof Hk) as (Hp&Hl&Ho). exists tokens, tok. split_and!; try done; [congruence|]. unfold bebop__scan_peek_char in *. by rewrite Ep2.
  - pose proof (np_progress _ _ _ Hn Hk). pose proof (iv_pos _ _ Hs1). apply IH; [done|done| |lia].
    apply Forall_app. by split; [|constructor].
Qed.

Lemma scan_spec c :
  ctx_ok c →
  ∃ tokens s, bebop__scan_with_schema source schema c = Some (tokens, s) ∧
    (sc_error s = false → stream_ok tokens s ∧ ends_eof tokens s).
Proof.
  intros Hc. pose proof (zlen_nonneg source). set (s0 := mkScanner 0 1 1 c None [] 0 false : S).
  assert (Hs0 : inv s0) by (split; [cbn; lia|done|done]).
  assert (Hrun : runs (tokens ← on_ctx (ctx_alloc_n sizeof_token (u32 (u32 (source_len source / 4) + 16)) 8);
     (match tokens with None => out_of_memory "Failed to allocate token buffer" | Some _ => mret tt end);;
     scan_loop source schema (Datatypes.S (scan_fuel source)) tokens [] (u32 (u32 (source_len source / 4) + 16))) s0
     (λ tokens' s', inv s' ∧ (sc_error s' = false → stream_ok tokens' s' ∧ ends_eof tokens' s'))).
  { apply runs_bind, on_ctx_runs. set (r := ctx_alloc_n _ _ _ _).
    assert (Hm : moves s0 (set_ctx r.2 s0)) by (apply moves_ctx; [done|by apply (ctx_alloc_n_ok _ _ 3)]). apply runs_bind.
    assert (Hst : stream_ok [] (set_ctx r.2 s0)).
    { split; [apply Hm|done|done|constructor|constructor|by apply (mv_ctx _ _ _ Hm)]. }
    destruct r.1.
    - apply runs_ret. apply scan_loop_runs; [apply Hm|done|constructor|]. unfold scan_fuel, zlen. cbn. lia.
    - apply runs_modify. apply scan_loop_runs; [by apply moves_out_of_memory, Hm|done|constructor|]. unfold scan_fuel, zlen. cbn. lia. }
  destruct Hrun as (tokens&s&E&_&Hok). exists tokens, s. split; [exact E|done].
Qed.

(** The source text of a span. *)
Definition text_of (sp : bebop_span_t) : list Z := default [] (load_bytes source (off sp) (len sp)).

Lemma tiles_text a spans b :
  0 ≤ a ≤ zlen source → tiles source a spans b →
  a ≤ b ≤ zlen source ∧ load_bytes source a (b - a) = Some (concat (map text_of spans)).
Proof.
  revert a. induction spans as [|sp spans IH]; intros a Ha; cbn [tiles map concat].
  - intros <-. split; [lia|]. apply load_bytes_Some. split_and!; try lia. by rewrite Z.sub_diag.
  - intros (Eo&(Ho&Hl&Hle&_)&Ht). destruct (IH (a + len sp) ltac:(lia) Ht) as [Hb El]. split; [lia|].
    assert (Et : load_bytes source a (len sp) = Some (text_of sp)) by (unfold text_of; rewrite Eo, load_bytes_in by lia; done).
    pose proof (load_bytes_zlen _ _ _ _ Et) as Hz. apply load_bytes_split. rewrite Hz. split; [done|]. rewrite <- El. f_equal. lia.
Qed.

Lemma tiles_spans a spans b : tiles source a spans b → Forall (span_ok source) spans.
Proof. revert a. induction spans as [|sp spans IH]; intros a; [constructor|]. intros (_&?&?). constructor; eauto. Qed.
End Stream.

(** C9: scanning any source of fewer than [2^32 - 1] bytes ends, whatever the context
    answers and with or without a schema: no loop runs out of its bound of one round for
    each byte left, nothing is read outside of the source.  Unless memory ran out, the
    stream ends with its only end token, which is empty and stands at a zero byte or at the
    end of the source; every other token takes at least one byte. *)
Theorem scan_terminates `{ContextOk} source schema c :
  bytes_ok source → zlen source < 2 ^ 32 - 1 → ctx_ok c →
  ∃ tokens s, bebop__scan_with_schema source schema c = Some (tokens, s) ∧
    (sc_error s = false →
     ∃ init eof, tokens = init ++ [eof] ∧ tk_kind eof = BEBOP_TOKEN_EOF ∧
       off (tk_span eof) = sc_pos s ∧ len (tk_span eof) = 0 ∧
       (sc_pos s = zlen source ∨ load source (sc_pos s) = Some 0) ∧
       Forall (λ tok, tk_kind tok ≠ BEBOP_TOKEN_EOF ∧ 0 < len (tk_span tok)) init).
Proof.
  intros Hsrc Hlen Hc. destruct (scan_spec source schema Hsrc Hlen c Hc) as (tokens&s&E&Hok). exists tokens, s.
  split; [done|]. intros He. destruct (Hok He) as [Hst (init&eof&->&Hk&Hl&Ho&Hno&Hp)]. exists init, eof.
  destruct Hst as [Hi _ Ht _ Htk _]. pose proof (iv_pos _ _ Hi).
  apply Forall_app in Htk as [Htk _]. split_and!; try done.
  - unfold bebop__scan_peek_char in Hp. destruct (load source (sc_pos s)) as [b|] eqn:Eb; [right; cbn in Hp; congruence|left].
    destruct (decide (sc_pos s = zlen source)) as [|Hne]; [done|]. destruct (load_in source (sc_pos s) ltac:(lia)) as [b Eb']. congruence.
  - rewrite Forall_forall in Hno, Htk |- *. intros tok Hin. split; [by apply Hno|]. apply (Htk tok Hin). by apply Hno.
Qed.

(** C8: the scan loses nothing and its positions are right. Unless memory ran out, the
    spans of the trivia and the tokens, in source order, put together are the source up to
    the end token; each is a slice of the source whose first and last line and column are
    those of a count over the source, in which a line feed, a carriage return and the pair
    of them end one line. *)
Theorem scan_lossless `{ContextOk} source schema c :
  bytes_ok source → zlen source < 2 ^ 32 - 1 → ctx_ok c →
  ∃ tokens s, bebop__scan_with_schema source schema c = Some (tokens, s) ∧
    (sc_error s = false →
     concat (map (text_of source) (stream_spans (sc_trivia s) tokens)) = take (Z.to_nat (sc_pos s)) source ∧
     Forall (λ sp, (place (take (Z.to_nat (off sp)) source)).1 = (start_line sp, start_col sp) ∧
                   (place (take (Z.to_nat (off sp + len sp)) source)).1 = (end_line sp, end_col sp))
       (stream_spans (sc_trivia s) tokens)).
Proof.
  intros Hsrc Hlen Hc. destruct (scan_spec source schema Hsrc Hlen c Hc) as (tokens&s&E&Hok). exists tokens, s.
  split; [done|]. intros He. destruct (Hok He) as [[Hi _ Ht _ _ _] _]. pose proof (zlen_nonneg source).
  destruct (tiles_text source 0 _ _ ltac:(lia) Ht) as [Hp El]. rewrite Z.sub_0_r in El. split.
  - rewrite load_bytes_in in El by lia. injection El as <-. done.
  - eapply Forall_impl; [by eapply tiles_spans|]. intros sp (_&_&_&?&?). done.
Qed.

(** C30: lexemes and keywords.  Unless memory ran out or the process ended: an identifier
    or keyword is a longest run of identifier characters, and its kind is the one the
    keyword table gives its text; a number starts with a digit; a handle that is not null resolves, in the final string
    pool, to the text of an identifier, keyword or number, to the content of a raw block
    between its brackets of one level, and for a string literal to the UTF-8 encoding of a
    sequence of Unicode scalar values. *)
Theorem scan_lexemes `{ContextOk} source schema c :
  bytes_ok source → zlen source < 2 ^ 32 - 1 → ctx_ok c →
  ∃ tokens s, bebop__scan_with_schema source schema c = Some (tokens, s) ∧
    (sc_error s = false →
     Forall (λ tok, word_ok source (tk_span tok) (tk_kind tok) ∧
       (has_lexeme (tk_kind tok) = true →
        ∃ t, text_ok source (tk_span tok) (tk_kind tok) t ∧
          (ctx_ended (sc_ctx s) = false → tk_lexeme tok ≠ 0 → ctx_str (sc_ctx s) (tk_lexeme tok) = Some t))) tokens).
Proof.
  intros Hsrc Hlen Hc. destruct (scan_spec source schema Hsrc Hlen c Hc) as (tokens&s&E&Hok). exists tokens, s.
  split; [done|]. intros He. destruct (Hok He) as [[_ _ _ _ Htk _] _]. eapply Forall_impl; [exact Htk|].
  intros tok [_ Hw Ht]. split; [done|]. intros Hl. destruct (Ht Hl) as (t&Htext&Hres&_). by exists t.
Qed.
