(* ===== verification/CompilerContext.v ===== *)
(** The context of the schema compiler as the scanner sees it, made of the arena
    ([CArena]) and the string pool ([Intern]), and concrete scans with it.

    Without a schema no diagnostic is added ([bebop_scan]).  The model of a run stops with
    the [abort] of the hash map, and at [2^31] strings, where doubling the capacity of the
    pool leaves the 32 bits it has. *)
From Stdlib Require Import String.
From stdpp Require Import list.
From S2P Require Import Prelude.
From S2P Require Import Arena.
From S2P Require Import CArena.
From S2P Require Import Intern.
From S2P Require Import Unicode.
From S2P Require Import Scanner.
From S2P Require Import ScannerProps.
From S2P Require Import ScannerSpec.

Section PoolContext.
Context `{HostAllocator, InternMap}.

(** The arena of the heap and the pool in it; nothing once the process has ended. *)
Definition bebop_context : Type := option (CAS * bebop_intern_t).

Definition ctx_arena {A} (m : C CAS (option A)) (c : bebop_context) : option A * bebop_context :=
  match c with
  | None => (None, None)
  | Some (s, p) => match m s with Some (r, s') => (r, Some (s', p)) | None => (None, None) end
  end.

Definition pool_intern (str : list Z) (c : bebop_context) : Z * bebop_context :=
  match c with
  | None => (0, None)
  | Some (s, p) =>
      if 2 ^ 31 <=? in_count p then (0, None)
      else match bebop_intern_n (Some str) (s, p) with
           | Some (Done h, sp) => (h, Some sp)
           | _ => (0, None)
           end
  end.

(** Reallocation without the copy, for sizes of type [size_t]. *)
Definition arena_realloc (p : option Z) (old new : Z) : C CAS (option Z) :=
  r ← bebop_arena_realloc p (u64 old) (u64 new); mret r.1.

#[export] Instance pool_context : Context := {
  ctx := bebop_context;
  ctx_alloc_n := λ size n align, ctx_arena (bebop__arena_alloc_n size n align);
  ctx_realloc := λ p old new, ctx_arena (arena_realloc p old new);
  ctx_intern_n := pool_intern;
  ctx_str := λ c i, '(_, p) ← c; bebop_str_get p i;
  ctx_out_of_memory := λ message c, (ctx_arena (bebop_arena_strndup (u64 (zlen (chars message)))) c).2;
  ctx_add_diagnostic := λ _ c, c;
  ctx_ended := λ c, match c with None => true | Some _ => false end;
  ctx_ok := λ c, match c with None => True | Some (s, p) => carena_ok (hp_live s.1) s.2 ∧ pool_ok p end
}.
End PoolContext.

Section PoolContextOk.
Context `{HostAllocatorOk, InternMapOk}.

(** Calls that keep the arena well-formed keep the pool. *)
Lemma ctx_arena_le {A} (m : C CAS (option A)) c :
  (∀ s, carena_ok (hp_live s.1) s.2 → ∃ r s', m s = Some (r, s') ∧ carena_ok (hp_live s'.1) s'.2) →
  ctx_le c (ctx_arena m c).2.
Proof.
  intros Hm Hc. destruct c as [[s p]|]; [|done]. destruct Hc as [Hs Hp]. cbn [ctx_arena].
  destruct (Hm s Hs) as (r&s'&->&Hs'). done.
Qed.

Lemma arena_realloc_kept s p old new : carena_ok (hp_live s.1) s.2 →
  ∃ r s', arena_realloc p old new s = Some (r, s') ∧ carena_ok (hp_live s'.1) s'.2.
Proof.
  intros Hs. destruct s as [h ar]. unfold arena_realloc, mbind, C_bind.
  pose proof (Z.mod_pos_bound old (2 ^ 64) ltac:(lia)). pose proof (Z.mod_pos_bound new (2 ^ 64) ltac:(lia)).
  destruct (carena_realloc_spec h ar p (u64 old) (u64 new) Hs) as (r&h'&ar'&->&Hok&_); [unfold u64; lia|unfold u64, SIZE_MAX; lia|].
  by exists r.1, (h', ar').
Qed.

(** Such a call leaves the strings of the pool as they are. *)
Lemma ctx_arena_str {A} (m : C CAS (option A)) (c : ctx) i :
  (∀ s, carena_ok (hp_live s.1) s.2 → ∃ r s', m s = Some (r, s') ∧ carena_ok (hp_live s'.1) s'.2) →
  ctx_ok c → ctx_str (ctx_arena m c).2 i = ctx_str c i.
Proof. intros Hm Hc. destruct c as [[s p]|]; [|done]. destruct Hc as [Hs _]. cbn [ctx_arena]. by destruct (Hm s Hs) as (r&s'&->&_). Qed.

#[export] Instance pool_context_ok : ContextOk.
Proof.
  split.
  - intros size n k c Hk. apply ctx_arena_le. intros s Hs. destruct (alloc_n_kept s k size n Hs Hk) as (r&s'&?&[? _]). eauto.
  - intros p old new c. apply ctx_arena_le. intros s Hs. by apply arena_realloc_kept.
  - intros str c Hc. destruct c as [[s p]|]; [|done]. destruct Hc as [Hs Hp]. cbn [ctx_intern_n pool_context pool_intern].
    destruct (Z.leb_spec (2 ^ 31) (in_count p)); [done|].
    destruct (Z.leb_spec (zlen str) UINT32_MAX) as [Hl|Hl].
    + destruct (intern_spec s p str Hs Hp ltac:(lia) Hl) as (o&s'&p'&->&[Hs' _]&Ho). destruct o as [|h]; [done|].
      destruct Ho as [Hp' Hh]. split; [done|]. intros _. split; [done|]. intros i t Hi. cbn in Hi |- *.
      destruct (h =? 0); [by rewrite (proj1 (Hh i))|]. destruct Hh as (Eh&_&Hsame&Hold). destruct (decide (i = h)) as [->|Hne].
      * by rewrite Eh, (Hsame t Hi).
      * by rewrite (proj1 (Hold i Hne)).
    + unfold bebop_intern_n. destruct (Z.ltb_spec UINT32_MAX (zlen str)); [|lia]. cbn. done.
  - intros str c Hc He Hh. destruct c as [[s p]|]; [|done]. destruct Hc as [Hs Hp].
    cbn [ctx_intern_n pool_context pool_intern ctx_str] in *. revert He Hh.
    destruct (Z.leb_spec (2 ^ 31) (in_count p)); [done|].
    destruct (Z.leb_spec (zlen str) UINT32_MAX) as [Hl|Hl].
    + destruct (intern_spec s p str Hs Hp ltac:(lia) Hl) as (o&s'&p'&->&_&Ho). destruct o as [|h]; [done|].
      intros _ Hh. destruct Ho as [_ Ho]. cbn in *. destruct (Z.eqb_spec h 0); [done|]. apply Ho.
    + unfold bebop_intern_n. destruct (Z.ltb_spec UINT32_MAX (zlen str)); [|lia]. cbn. done.
  - intros message c. apply ctx_arena_le. intros s Hs.
    pose proof (Z.mod_pos_bound (zlen (chars message)) (2 ^ 64) ltac:(lia)).
    destruct (strndup_kept s (u64 (zlen (chars message))) Hs) as (r&s'&?&[? _]); [unfold u64, SIZE_MAX; lia|]. eauto.
  - intros d c Hc. done.
Qed.
End PoolContextOk.

(** ** A concrete scan *)

Definition demo_internmap : InternMap := @gmap_internmap bump_allocator.
Definition demo_ctx : @bebop_context demo_internmap := Some demo_pool.
Definition demo_context : Context := @pool_context bump_allocator demo_internmap.
Definition demo_context_ok : @ContextOk demo_context := @pool_context_ok bump_allocator _ demo_internmap _.

(** Two lines with trivia, an escape, a raw block and an unterminated comment. *)
Definition demo_source : list Z :=
  chars "struct A1 { // x" ++ [13; 10] ++ chars "  s = 'a\n' [=[ ]] ]=] 1e-3 /*".

Definition demo_scan : option (list bebop_token_t * @bebop__scanner_t demo_context) :=
  @bebop_scan demo_context demo_source demo_ctx.

Definition demo_row (s : @bebop__scanner_t demo_context) (tok : bebop_token_t)
  : bebop_token_kind_t * Z * Z * Z * Z * option (list Z) :=
  (tk_kind tok, off (tk_span tok), len (tk_span tok), start_line (tk_span tok), start_col (tk_span tok),
   @ctx_str demo_context (sc_ctx s) (tk_lexeme tok)).

(** The kinds, spans and lines of the tokens, and their texts in the pool. *)
Definition demo_tokens : option (bool * list (bebop_token_kind_t * Z * Z * Z * Z * option (list Z))) :=
  '(tokens, s) ← demo_scan;
  Some (sc_error s, map (demo_row s) tokens).

Definition demo_view : list (bebop_token_kind_t * Z * Z * Z * Z * option (list Z)) :=
  [(BEBOP_TOKEN_STRUCT, 0, 6, 1, 1, Some (chars "struct"));
   (BEBOP_TOKEN_IDENTIFIER, 7, 2, 1, 8, Some (chars "A1"));
   (BEBOP_TOKEN_LBRACE, 10, 1, 1, 11, None);
   (BEBOP_TOKEN_IDENTIFIER, 20, 1, 2, 3, Some (chars "s"));
   (BEBOP_TOKEN_EQUALS, 22, 1, 2, 5, None);
   (BEBOP_TOKEN_STRING, 24, 5, 2, 7, Some [97; 10]);
   (BEBOP_TOKEN_RAW_BLOCK, 30, 10, 2, 13, Some (chars " ]] "));
   (BEBOP_TOKEN_NUMBER, 41, 4, 2, 24, Some (chars "1e-3"));
   (BEBOP_TOKEN_EOF, 48, 0, 2, 31, None)].

Lemma demo_tokens_eq : demo_tokens = Some (false, demo_view).
Proof. vm_compute. reflexivity. Qed.

Lemma demo_source_ok : bytes_ok demo_source ∧ zlen demo_source < 2 ^ 32 - 1.
Proof. split; [|vm_compute; reflexivity]. apply (bool_decide_unpack (Forall (λ b, 0 ≤ b < 256) demo_source)). vm_compute. exact I. Qed.

Lemma demo_ctx_ok : @ctx_ok demo_context demo_ctx.
Proof. exact demo_pool_ok. Qed.

(** The scan is the one evaluated above. *)
Lemma demo_scan_view tokens s :
  @bebop__scan_with_schema demo_context demo_source false demo_ctx = Some (tokens, s) →
  sc_error s = false ∧ map (demo_row s) tokens = demo_view.
Proof.
  intros E. pose proof demo_tokens_eq as Eq. unfold demo_tokens, demo_scan, bebop_scan in Eq. rewrite E in Eq.
  change (Some (sc_error s, map (demo_row s) tokens) = Some (false, demo_view)) in Eq.
  revert Eq. generalize demo_view (map (demo_row s) tokens) (sc_error s). intros v rows e Eq. injection Eq as He Hv. exact (conj He Hv).
Qed.

Lemma scan_terminates_witness :
  ∃ tokens s, @bebop__scan_with_schema demo_context demo_source false demo_ctx = Some (tokens, s) ∧
    sc_error s = false ∧ sc_pos s = zlen demo_source ∧ length tokens = 9%nat.
Proof.
  destruct (@scan_terminates demo_context demo_context_ok demo_source false demo_ctx (proj1 demo_source_ok) (proj2 demo_source_ok) demo_ctx_ok)
    as (tokens&s&E&Hs).
  destruct (demo_scan_view tokens s E) as [He Hv]. exists tokens, s. split; [exact E|]. split; [exact He|].
  destruct (Hs He) as (init&eof&_&_&_&_&[Hp|Hp]&_).
  - split; [exact Hp|]. rewrite <- (length_map (demo_row s) tokens), Hv. reflexivity.
  - exfalso. apply load_Some in Hp as [_ Hp%list_elem_of_lookup_2].
    assert (Hz : Forall (λ b, b ≠ 0) demo_source) by (apply (bool_decide_unpack _); vm_compute; exact I).
    rewrite Forall_forall in Hz. by apply (Hz 0).
Defined.

Lemma scan_lossless_witness :
  ∃ tokens s, @bebop__scan_with_schema demo_context demo_source false demo_ctx = Some (tokens, s) ∧
    concat (map (text_of demo_source) (stream_spans (sc_trivia s) tokens)) = take (Z.to_nat (sc_pos s)) demo_source.
Proof.
  destruct (@scan_lossless demo_context demo_context_ok demo_source false demo_ctx (proj1 demo_source_ok) (proj2 demo_source_ok) demo_ctx_ok)
    as (tokens&s&E&Hs).
  destruct (demo_scan_view tokens s E) as [He _]. exists tokens, s. split; [exact E|]. apply (Hs He).
Defined.

Lemma scan_lexemes_witness :
  ∃ tokens s, @bebop__scan_with_schema demo_context demo_source false demo_ctx = Some (tokens, s) ∧
    sc_error s = false ∧ Forall (λ tok, word_ok demo_source (tk_span tok) (tk_kind tok)) tokens.
Proof.
  destruct (@scan_lexemes demo_context demo_context_ok demo_source false demo_ctx (proj1 demo_source_ok) (proj2 demo_source_ok) demo_ctx_ok)
    as (tokens&s&E&Hs).
  destruct (demo_scan_view tokens s E) as [He _]. exists tokens, s. split; [exact E|]. split; [exact He|].
  eapply Forall_impl; [exact (Hs He)|]. intros tok Hw. apply Hw.
Defined.
