(* ===== verification/Literals.v ===== *)
(** Number literals of the schema compiler ([bebop/src/bebop_utils.c]): integers in decimal
    and hexadecimal, the shapes of number tokens, and UUIDs.

    A pointer into the text of a literal is the list of the bytes from it to the end. *)
From stdpp Require Import list.
From S2P Require Import Prelude.
From S2P Require Import Unicode.

(** ** Digits *)

Definition bebop__digit_val : list Z :=
  replicate 48 0xFF ++ [0; 1; 2; 3; 4; 5; 6; 7; 8; 9] ++ replicate 7 0xFF ++ [0xA; 0xB; 0xC; 0xD; 0xE; 0xF] ++
  replicate 26 0xFF ++ [0xA; 0xB; 0xC; 0xD; 0xE; 0xF] ++ replicate 153 0xFF.
(** [bebop__digit_val[(unsigned char)c]] *)
Definition digit_val (c : Z) : Z := default 0xFF (bebop__digit_val !! Z.to_nat c).

Definition INT64_MAX : Z := 2 ^ 63 - 1.
Definition UINT64_MAX : Z := 2 ^ 64 - 1.

(** The loops over digits: the accumulator, whether it ever became smaller, and the rest. *)
Fixpoint parse_decimal_loop (s : list Z) (acc : Z) (ovf : bool) : Z * bool * list Z :=
  match s with
  | c :: s' =>
      let d := digit_val c in
      if d <? 10 then
        let prev := acc in
        let acc := u64 (acc * 10 + d) in
        parse_decimal_loop s' acc (if acc <? prev then true else ovf)
      else (acc, ovf, s)
  | [] => (acc, ovf, s)
  end.
Definition bebop__util_parse_decimal (s : list Z) : Z * bool * list Z :=
  let '(acc, ovf, rest) := parse_decimal_loop s 0 false in (if ovf then UINT64_MAX else acc, ovf, rest).

Fixpoint parse_hex_loop (s : list Z) (acc : Z) (ovf : bool) : Z * bool * list Z :=
  match s with
  | c :: s' =>
      let d := digit_val c in
      if d <? 16 then
        let prev := acc in
        let acc := Z.lor (u64 (Z.shiftl acc 4)) d in
        parse_hex_loop s' acc (if acc <? prev then true else ovf)
      else (acc, ovf, s)
  | [] => (acc, ovf, s)
  end.
Definition bebop__util_parse_hex (s : list Z) : Z * bool * list Z :=
  let '(acc, ovf, rest) := parse_hex_loop s 0 false in (if ovf then UINT64_MAX else acc, ovf, rest).

(** The digits behind a sign: their value and whether it overflowed, for a text that
    consists of digits. *)
Definition parse_magnitude (p : list Z) : option (Z * bool) :=
  let finish r := let '(val, overflow, rest) := r in
    match (rest : list Z) with [] => Some (val, overflow) | _ => None end in
  match p with
  | [] => None
  | c0 :: c1 :: p' =>
      if (c0 =? 48) && ((c1 =? 120) || (c1 =? 88)) then
        match p' with
        | [] => None
        | c :: _ => if 16 <=? digit_val c then None else finish (bebop__util_parse_hex p')
        end
      else if 10 <=? digit_val c0 then None else finish (bebop__util_parse_decimal p)
  | c0 :: _ => if 10 <=? digit_val c0 then None else finish (bebop__util_parse_decimal p)
  end.

(** The outer option is undefined behaviour: the negation of the least [int64_t]. *)
Definition bebop_util_parse_int (str : list Z) : option (option Z) :=
  match str with
  | [] => Some None
  | c :: p =>
      let neg := c =? 45 in
      let p := if neg || (c =? 43) then p else str in
      match parse_magnitude p with
      | None => Some None
      | Some (uval, overflow) =>
          if overflow then Some None
          else if neg then
            if INT64_MAX + 1 <? uval then Some None
            else if uval =? INT64_MAX + 1 then None
            else Some (Some (- uval))
          else if INT64_MAX <? uval then Some None else Some (Some uval)
      end
  end.

Definition bebop_util_parse_uint (str : list Z) : option Z :=
  match str with
  | [] => None
  | c :: p =>
      if c =? 45 then None
      else
        '(val, overflow) ← parse_magnitude (if c =? 43 then p else str);
        if (overflow : bool) then None else Some val
  end.

(** ** Shapes of number tokens *)

Fixpoint skip_digits (base : Z) (p : list Z) : list Z :=
  match p with
  | c :: p' => if digit_val c <? base then skip_digits base p' else p
  | [] => []
  end.
Definition at_end (p : list Z) : bool := match p with [] => true | _ => false end.
(** [p < end && digit] *)
Definition digit_here (base : Z) (p : list Z) : bool :=
  match p with c :: _ => digit_val c <? base | [] => false end.
Definition skip_sign (p : list Z) : list Z :=
  match p with c :: p' => if (c =? 43) || (c =? 45) then p' else p | [] => [] end.

Definition bebop_util_scan_int (str : list Z) : bool :=
  let p := skip_sign str in
  match p with
  | [] => false
  | c0 :: c1 :: p' =>
      if (c0 =? 48) && ((c1 =? 120) || (c1 =? 88)) then
        if negb (digit_here 16 p') then false else at_end (skip_digits 16 p')
      else if negb (digit_here 10 p) then false else at_end (skip_digits 10 p)
  | _ => if negb (digit_here 10 p) then false else at_end (skip_digits 10 p)
  end.

Definition bebop_util_scan_float (str : list Z) : bool :=
  let p := skip_sign str in
  if at_end p then false
  else
    let has_digits := digit_here 10 p in
    let p := skip_digits 10 p in
    let '(has_dot, has_digits, p) :=
      match p with
      | c :: p' => if c =? 46 then (true, has_digits || digit_here 10 p', skip_digits 10 p') else (false, has_digits, p)
      | [] => (false, has_digits, p)
      end in
    if negb has_digits then false
    else
      match p with
      | c :: p' =>
          if (c =? 101) || (c =? 69) then
            let p := skip_sign p' in
            if negb (digit_here 10 p) then false else at_end (skip_digits 10 p)
          else false
      | [] => has_dot
      end.

(** ** UUIDs *)

Definition bebop__util_parse_hex_byte (str : list Z) (i : Z) : option (option Z) :=
  h ← load str i; l ← load str (i + 1);
  let hi := BEBOP_HEX_VALUE h in let lo := BEBOP_HEX_VALUE l in
  if (hi <? 0) || (lo <? 0) then Some None else Some (Some (u8 (Z.lor (Z.shiftl hi 4) lo))).

(** The bytes at the positions, or a refusal. *)
Fixpoint parse_hex_bytes (str : list Z) (positions : list Z) : option (option (list Z)) :=
  match positions with
  | [] => Some (Some [])
  | i :: positions =>
      b ← bebop__util_parse_hex_byte str i;
      match b with
      | None => Some None
      | Some b =>
          rest ← parse_hex_bytes str positions;
          Some (match rest with Some bs => Some (b :: bs) | None => None end)
      end
  end.

Definition dashed_positions : list Z := [0; 2; 4; 6; 9; 11; 14; 16; 19; 21; 24; 26; 28; 30; 32; 34].
Definition plain_positions : list Z := [0; 2; 4; 6; 8; 10; 12; 14; 16; 18; 20; 22; 24; 26; 28; 30].

(** The outer option is a read outside of the text. *)
Definition bebop_util_parse_uuid (str : list Z) : option (option (list Z)) :=
  if zlen str =? 36 then
    d8 ← load str 8; d13 ← load str 13; d18 ← load str 18; d23 ← load str 23;
    if negb (d8 =? 45) || negb (d13 =? 45) || negb (d18 =? 45) || negb (d23 =? 45) then Some None
    else parse_hex_bytes str dashed_positions
  else if zlen str =? 32 then parse_hex_bytes str plain_positions
  else Some None.

(** ** Numerals *)

(** The value of digits of a base. *)
Definition value_from (base acc : Z) (ds : list Z) : Z := fold_left (λ a c, a * base + digit_val c) ds acc.
Definition is_digit (base c : Z) : Prop := 0 ≤ c ∧ digit_val c < base.

(** A numeral without a sign, and its value. *)
Inductive magnitude : list Z → Z → Prop :=
  | magnitude_decimal ds : ds ≠ [] → Forall (is_digit 10) ds → magnitude ds (value_from 10 0 ds)
  | magnitude_hex x ds : x = 120 ∨ x = 88 → ds ≠ [] → Forall (is_digit 16) ds →
      magnitude (48 :: x :: ds) (value_from 16 0 ds).

Lemma digit_val_range c : 0 ≤ digit_val c < 256.
Proof.
  unfold digit_val. destruct (bebop__digit_val !! Z.to_nat c) as [d|] eqn:E; [|cbn; lia].
  assert (Hall : Forall (λ d, 0 ≤ d < 256) bebop__digit_val) by (apply (bool_decide_unpack _); vm_compute; exact I).
  rewrite Forall_lookup in Hall. exact (Hall _ _ E).
Qed.

Lemma decimal_digit c : is_digit 10 c ↔ 48 ≤ c ≤ 57.
Proof.
  unfold is_digit. split.
  - intros [H0' Hd]. destruct (Z.ltb_spec c 256) as [Hc|Hc].
    + pose proof (byte_forall (λ c, implb (digit_val c <? 10) ((48 <=? c) && (c <=? 57))) eq_refl c ltac:(unfold byte_ok; lia)) as Hb.
      cbn beta in Hb. destruct (Z.ltb_spec (digit_val c) 10); [|lia]. cbn [implb] in Hb. zbool. lia.
    + exfalso. unfold digit_val in Hd. rewrite lookup_ge_None_2 in Hd; [cbn in Hd; lia|].
      change (length bebop__digit_val) with 256%nat. lia.
  - intros Hc. split; [lia|].
    pose proof (byte_forall (λ c, implb ((48 <=? c) && (c <=? 57)) (digit_val c <? 10)) eq_refl c ltac:(unfold byte_ok; lia)) as Hb.
    cbn beta in Hb. destruct (Z.leb_spec 48 c), (Z.leb_spec c 57); lia.
Qed.

Lemma value_from_le base acc ds : 2 ≤ base → 0 ≤ acc → acc ≤ value_from base acc ds.
Proof.
  intros Hb. revert acc. induction ds as [|c ds IH]; intros acc Ha; cbn; [lia|]. pose proof (digit_val_range c).
  etrans; [|apply IH]; nia.
Qed.

(** The loops on a numeral whose value has 64 bits. *)
Lemma decimal_loop_exact ds acc ovf :
  Forall (is_digit 10) ds → 0 ≤ acc → value_from 10 acc ds < 2 ^ 64 →
  parse_decimal_loop ds acc ovf = (value_from 10 acc ds, ovf, []).
Proof.
  intros Hds. revert acc. induction Hds as [|c ds [Hc Hd] _ IH]; intros acc Ha Hv; cbn [parse_decimal_loop]; [done|].
  pose proof (digit_val_range c). destruct (Z.ltb_spec (digit_val c) 10); [|lia]. cbn in Hv.
  pose proof (value_from_le 10 (acc * 10 + digit_val c) ds ltac:(lia) ltac:(lia)).
  unfold value_from in *. rewrite u64_small by lia. destruct (Z.ltb_spec (acc * 10 + digit_val c) acc); [lia|].
  apply IH; lia.
Qed.

Lemma hex_step acc d : 0 ≤ d < 16 → Z.lor (u64 (Z.shiftl acc 4)) d = u64 (acc * 16 + d).
Proof.
  intros Hd. unfold u64. rewrite Z.shiftl_mul_pow2 by lia. change (2 ^ 4) with 16.
  replace ((acc * 16) mod 2 ^ 64) with ((acc mod 2 ^ 60) * 16).
  2:{ change (2 ^ 64) with (2 ^ 60 * 16). by rewrite Z.mul_mod_distr_r by lia. }
  replace ((acc * 16 + d) mod 2 ^ 64) with ((acc mod 2 ^ 60) * 16 + d).
  - apply (lor_add' _ _ 16 4); [done|lia| |lia]. apply Z.mod_mul. lia.
  - pose proof (Z.mod_pos_bound acc (2 ^ 60) ltac:(lia)). pose proof (Z.div_mod acc (2 ^ 60) ltac:(lia)).
    apply (Z.mod_unique_pos _ _ (acc / 2 ^ 60)); lia.
Qed.

Lemma hex_loop_exact ds acc ovf :
  Forall (is_digit 16) ds → 0 ≤ acc → value_from 16 acc ds < 2 ^ 64 →
  parse_hex_loop ds acc ovf = (value_from 16 acc ds, ovf, []).
Proof.
  intros Hds. revert acc. induction Hds as [|c ds [Hc Hd] _ IH]; intros acc Ha Hv; cbn [parse_hex_loop]; [done|].
  pose proof (digit_val_range c). destruct (Z.ltb_spec (digit_val c) 16); [|lia]. cbn in Hv.
  pose proof (value_from_le 16 (acc * 16 + digit_val c) ds ltac:(lia) ltac:(lia)).
  unfold value_from in *. rewrite hex_step by lia. rewrite u64_small by lia.
  destruct (Z.ltb_spec (acc * 16 + digit_val c) acc); [lia|]. apply IH; lia.
Qed.

Lemma value_from_mod base acc acc' ds :
  acc mod 2 ^ 64 = acc' mod 2 ^ 64 → value_from base acc ds mod 2 ^ 64 = value_from base acc' ds mod 2 ^ 64.
Proof.
  revert acc acc'. induction ds as [|c ds IH]; intros acc acc' E; cbn; [done|]. apply IH.
  rewrite Z.add_mod, Z.mul_mod, E, <- Z.mul_mod, <- Z.add_mod by lia. done.
Qed.

(** Whatever the loops read, they leave the value modulo [2^64]. *)
Lemma decimal_loop_sound s acc ovf acc' ovf' rest :
  bytes_ok s → parse_decimal_loop s acc ovf = (acc', ovf', rest) → 0 ≤ acc < 2 ^ 64 →
  ∃ ds, s = ds ++ rest ∧ Forall (is_digit 10) ds ∧ acc' = u64 (value_from 10 acc ds).
Proof.
  revert acc ovf. induction s as [|c s IH]; intros acc ovf Hs; cbn [parse_decimal_loop].
  - intros [= <- _ <-] Ha. exists []. split; [done|]. split; [constructor|]. symmetry. by apply u64_small.
  - apply Forall_cons in Hs as [Hc Hs]. destruct (Z.ltb_spec (digit_val c) 10) as [Hd|Hd].
    + intros E Ha. destruct (IH _ _ Hs E ltac:(apply Z.mod_pos_bound; lia)) as (ds&->&Hds&->).
      exists (c :: ds). split; [done|]. split; [constructor; [|done]; unfold byte_ok in Hc; split; lia|].
      change (value_from 10 acc (c :: ds)) with (value_from 10 (acc * 10 + digit_val c) ds).
      apply value_from_mod. unfold u64. by rewrite Z.mod_mod by lia.
    + intros [= <- _ <-] Ha. exists []. split; [done|]. split; [constructor|]. symmetry. by apply u64_small.
Qed.

Lemma hex_loop_sound s acc ovf acc' ovf' rest :
  bytes_ok s → parse_hex_loop s acc ovf = (acc', ovf', rest) → 0 ≤ acc < 2 ^ 64 →
  ∃ ds, s = ds ++ rest ∧ Forall (is_digit 16) ds ∧ acc' = u64 (value_from 16 acc ds).
Proof.
  revert acc ovf. induction s as [|c s IH]; intros acc ovf Hs; cbn [parse_hex_loop].
  - intros [= <- _ <-] Ha. exists []. split; [done|]. split; [constructor|]. symmetry. by apply u64_small.
  - apply Forall_cons in Hs as [Hc Hs]. pose proof (digit_val_range c). destruct (Z.ltb_spec (digit_val c) 16) as [Hd|Hd].
    + rewrite hex_step by lia. intros E Ha. destruct (IH _ _ Hs E ltac:(apply Z.mod_pos_bound; lia)) as (ds&->&Hds&->).
      exists (c :: ds). split; [done|]. split; [constructor; [|done]; unfold byte_ok in Hc; split; lia|].
      change (value_from 16 acc (c :: ds)) with (value_from 16 (acc * 16 + digit_val c) ds).
      apply value_from_mod. unfold u64. by rewrite Z.mod_mod by lia.
    + intros [= <- _ <-] Ha. exists []. split; [done|]. split; [constructor|]. symmetry. by apply u64_small.
Qed.

Lemma parse_magnitude_exact p v : magnitude p v → v < 2 ^ 64 → parse_magnitude p = Some (v, false).
Proof.
  intros [ds Hne Hds|x ds Hx Hne Hds] Hv; unfold parse_magnitude.
  - assert (E : bebop__util_parse_decimal ds = (value_from 10 0 ds, false, [])).
    { unfold bebop__util_parse_decimal. by rewrite decimal_loop_exact by (done || lia). }
    destruct ds as [|c0 ds]; [done|]. pose proof Hds as [Hc0 Hds']%Forall_cons. destruct Hc0 as [_ Hd0].
    destruct (Z.leb_spec 10 (digit_val c0)); [lia|]. destruct ds as [|c1 ds]; [by rewrite E|].
    apply Forall_cons in Hds' as [Hc1%decimal_digit _].
    destruct (Z.eqb_spec c1 120), (Z.eqb_spec c1 88); try lia. rewrite andb_false_r, E. done.
  - assert (E : bebop__util_parse_hex ds = (value_from 16 0 ds, false, [])).
    { unfold bebop__util_parse_hex. by rewrite hex_loop_exact by (done || lia). }
    replace ((48 =? 48) && ((x =? 120) || (x =? 88))) with true by (destruct Hx as [-> | ->]; done).
    destruct ds as [|c ds]; [done|]. apply Forall_cons in Hds as [[_ Hd] _].
    destruct (Z.leb_spec 16 (digit_val c)); [lia|]. by rewrite E.
Qed.

Lemma parse_magnitude_sound p v :
  bytes_ok p → parse_magnitude p = Some (v, false) → ∃ n, magnitude p n ∧ v = u64 n.
Proof.
  intros Hp. assert (Hdec : ∀ c p', p = c :: p' → digit_val c < 10 → ∀ v,
    (let '(val, overflow, rest) := bebop__util_parse_decimal p in match rest with [] => Some (val, overflow) | _ => None end) = Some (v, false) →
    ∃ n, magnitude p n ∧ v = u64 n).
  { intros c p' Ep Hd w. unfold bebop__util_parse_decimal. destruct (parse_decimal_loop p 0 false) as [[acc ovf] rest] eqn:E.
    destruct (decimal_loop_sound _ _ _ _ _ _ Hp E ltac:(lia)) as (ds&Es&Hds&->). destruct rest; [|done].
    intros [= <- ->]. rewrite app_nil_r in Es. subst ds. exists (value_from 10 0 p). split; [|done].
    apply magnitude_decimal; [by rewrite Ep|done]. }
  unfold parse_magnitude. destruct p as [|c0 [|c1 p']]; [done| |].
  - destruct (Z.leb_spec 10 (digit_val c0)); [done|]. by apply (Hdec c0 []).
  - destruct (Z.eqb_spec c0 48) as [->|]; cbn [andb]; [|destruct (Z.leb_spec 10 (digit_val c0)); [done|]; by apply (Hdec c0 (c1 :: p'))].
    destruct ((c1 =? 120) || (c1 =? 88)) eqn:Ex; [|by apply (Hdec 48 (c1 :: p'))].
    destruct p' as [|c p']; [done|]. destruct (Z.leb_spec 16 (digit_val c)); [done|]. clear Hdec.
    apply Forall_cons in Hp as [_ Hp]. apply Forall_cons in Hp as [_ Hp]. unfold bebop__util_parse_hex.
    destruct (parse_hex_loop (c :: p') 0 false) as [[acc ovf] rest] eqn:E.
    destruct (hex_loop_sound _ _ _ _ _ _ Hp E ltac:(lia)) as (ds&Es&Hds&->). destruct rest; [|done].
    intros [= <- ->]. rewrite app_nil_r in Es. subst ds. exists (value_from 16 0 (c :: p')). split; [|done].
    apply magnitude_hex; [|done|done]. zbool. destruct Ex as [Ex|Ex]; apply Z.eqb_eq in Ex; [by left|by right].
Qed.

Lemma magnitude_head p v : magnitude p v → ∃ c p', p = c :: p' ∧ c ≠ 45 ∧ c ≠ 43 ∧ 0 ≤ v.
Proof.
  assert (Hv : ∀ base ds, 2 ≤ base → 0 ≤ value_from base 0 ds) by (intros; by apply value_from_le).
  intros [ds Hne Hds|x ds Hx Hne Hds].
  - destruct ds as [|c ds]; [done|]. pose proof Hds as [Hc%decimal_digit _]%Forall_cons.
    exists c, ds. split; [done|]. split; [lia|]. split; [lia|]. by apply Hv.
  - exists 48, (x :: ds). split; [done|]. split; [done|]. split; [done|]. by apply Hv.
Qed.

(** C31: integer literals.  A numeral (digits, or hexadecimal digits behind 0x) whose value
    has 64 bits parses to its value, with or without a plus; as a signed number it parses,
    with each sign, exactly when the value fits, except that the magnitude [2^63] behind a
    minus, which does fit, negates the least [int64_t], which is undefined.  Whatever the
    unsigned parser accepts is a numeral whose value agrees with the result modulo [2^64]. *)
Theorem parse_integers_exact :
  (∀ p v, magnitude p v → v < 2 ^ 64 →
     bebop_util_parse_uint p = Some v ∧ bebop_util_parse_uint (43 :: p) = Some v ∧ bebop_util_parse_uint (45 :: p) = None ∧
     bebop_util_parse_int p = Some (if v <=? INT64_MAX then Some v else None) ∧
     bebop_util_parse_int (43 :: p) = Some (if v <=? INT64_MAX then Some v else None) ∧
     bebop_util_parse_int (45 :: p) =
       if v =? 2 ^ 63 then None else Some (if v <=? INT64_MAX then Some (- v) else None)) ∧
  ∀ str v, bytes_ok str → bebop_util_parse_uint str = Some v →
    ∃ p n, (str = p ∨ str = 43 :: p) ∧ magnitude p n ∧ v = n mod 2 ^ 64.
Proof.
  split.
  - intros p v Hm Hv. pose proof (parse_magnitude_exact p v Hm Hv) as E.
    destruct (magnitude_head p v Hm) as (c&p'&Ep&Hc1&Hc2&H0').
    assert (Esign : (if INT64_MAX <? v then Some None else Some (Some v)) = Some (if v <=? INT64_MAX then Some v else None))
      by (rewrite Z.ltb_antisym; by destruct (v <=? INT64_MAX)).
    unfold bebop_util_parse_uint, bebop_util_parse_int. change (43 =? 45) with false. change (43 =? 43) with true.
    change (45 =? 45) with true. cbn [orb]. subst p. cbv beta iota zeta. rewrite E.
    destruct (Z.eqb_spec c 45); [done|]. destruct (Z.eqb_spec c 43); [done|]. cbn [orb]. rewrite E. cbn [mbind option_bind].
    split_and!; try done. unfold INT64_MAX in *. destruct (Z.eqb_spec v (2 ^ 63)) as [->|]; [done|].
    destruct (Z.ltb_spec (2 ^ 63 - 1 + 1) v), (Z.leb_spec v (2 ^ 63 - 1)); try done; try lia.
    destruct (Z.eqb_spec v (2 ^ 63 - 1 + 1)); [lia|done].
  - intros str v Hs E. destruct str as [|c str]; [done|]. unfold bebop_util_parse_uint in E. destruct (c =? 45); [done|].
    pose proof Hs as [_ Hs']%Forall_cons. destruct (Z.eqb_spec c 43) as [->|].
    + destruct (parse_magnitude str) as [[w ovf]|] eqn:Em; [|done]. cbn in E. destruct ovf; [done|]. injection E as ->.
      destruct (parse_magnitude_sound str v Hs' Em) as (n&Hn&->). exists str, n. auto.
    + destruct (parse_magnitude (c :: str)) as [[w ovf]|] eqn:Em; [|done]. cbn in E. destruct ovf; [done|]. injection E as ->.
      destruct (parse_magnitude_sound (c :: str) v Hs Em) as (m&Hm&->). exists (c :: str), m. auto.
Qed.

(** "-0xFF" is -255. *)
Lemma parse_integers_witness : bebop_util_parse_int [45; 48; 120; 70; 70] = Some (Some (-255)).
Proof.
  refine (proj2 (proj2 (proj2 (proj2 (proj2 (proj1 parse_integers_exact [48; 120; 70; 70] 255 _ _)))))); [|reflexivity].
  change 255 with (value_from 16 0 [70; 70]). apply magnitude_hex; [by left|done|].
  repeat constructor; vm_compute; intuition discriminate.
Defined.

(** The overflow test of the digit loops, whether the accumulator became smaller,
    misses overflows: a decimal and a hexadecimal numeral of more than 64 bits parse, to
    values that are not theirs. *)
Theorem parse_uint_misses_overflow :
  let decimal := 51 :: replicate 19 48 in
  let hex := [48; 120; 49] ++ replicate 16 70 in
  magnitude decimal 30000000000000000000 ∧ bebop_util_parse_uint decimal = Some 11553255926290448384 ∧
  magnitude hex 0x1FFFFFFFFFFFFFFFF ∧ bebop_util_parse_uint hex = Some 0xFFFFFFFFFFFFFFFF.
Proof.
  cbv zeta. split_and!; [|vm_compute; reflexivity| |vm_compute; reflexivity].
  - change 30000000000000000000 with (value_from 10 0 (51 :: replicate 19 48)). apply magnitude_decimal; [done|].
    apply (bool_decide_unpack _). vm_compute. exact I.
  - change 0x1FFFFFFFFFFFFFFFF with (value_from 16 0 (49 :: replicate 16 70)).
    apply (magnitude_hex 120); [by left|done|]. apply (bool_decide_unpack _). vm_compute. exact I.
Qed.

(** *** Integer tokens *)

Lemma skip_digits_spec base s :
  bytes_ok s → ∃ ds, s = ds ++ skip_digits base s ∧ Forall (is_digit base) ds ∧
    (at_end (skip_digits base s) = true ↔ Forall (is_digit base) s).
Proof.
  induction 1 as [|c s Hc Hs (ds&E&Hds&Hend)]; cbn [skip_digits]; [by exists []|].
  destruct (Z.ltb_spec (digit_val c) base) as [Hd|Hd].
  - exists (c :: ds). split; [cbn; by rewrite <- E|]. unfold byte_ok in Hc. assert (Hdc : is_digit base c) by (split; [lia|done]).
    split; [by constructor|]. rewrite Hend, Forall_cons. tauto.
  - exists []. split; [done|]. split; [constructor|]. split; [done|]. intros [[_ ?] _]%Forall_cons. lia.
Qed.

Lemma digits_end base p :
  bytes_ok p → (if negb (digit_here base p) then false else at_end (skip_digits base p)) = true ↔ p ≠ [] ∧ Forall (is_digit base) p.
Proof.
  intros Hp. destruct (skip_digits_spec base p Hp) as (_&_&_&Hend). destruct p as [|c p]; [split; [done|by intros [? _]]|].
  cbn [digit_here]. destruct (Z.ltb_spec (digit_val c) base) as [Hd|Hd]; cbn [negb].
  - rewrite Hend. split; [by split|by intros [_ ?]].
  - split; [done|]. intros [_ [[_ ?] _]%Forall_cons]. lia.
Qed.

(** The integer shape is exactly that of the numerals with an optional sign. *)
Lemma scan_int_exact str :
  bytes_ok str →
  bebop_util_scan_int str = true ↔ ∃ p n, (str = p ∨ str = 43 :: p ∨ str = 45 :: p) ∧ magnitude p n.
Proof.
  intros Hs. assert (Hbody : ∀ p, bytes_ok p →
    (match p with
     | [] => false
     | c0 :: c1 :: p' =>
         if (c0 =? 48) && ((c1 =? 120) || (c1 =? 88)) then if negb (digit_here 16 p') then false else at_end (skip_digits 16 p')
         else if negb (digit_here 10 p) then false else at_end (skip_digits 10 p)
     | _ => if negb (digit_here 10 p) then false else at_end (skip_digits 10 p)
     end) = true ↔ ∃ n, magnitude p n).
  { intros p Hp. assert (Hdec : p ≠ [] ∧ Forall (is_digit 10) p → ∃ n, magnitude p n) by (intros [? ?]; eexists; by apply magnitude_decimal).
    assert (Hinv : ∀ n, magnitude p n → (p ≠ [] ∧ Forall (is_digit 10) p) ∨
      ∃ x ds, p = 48 :: x :: ds ∧ (x = 120 ∨ x = 88) ∧ ds ≠ [] ∧ Forall (is_digit 16) ds) by (intros n [ds ??|x ds ???]; [by left|right; eauto 8]).
    destruct p as [|c0 [|c1 p']].
    - split; [done|]. intros [n [[? _]|(?&?&?&_)]%Hinv]; done.
    - rewrite digits_end by done. split; [done|]. intros [n [?|(?&?&?&_)]%Hinv]; done.
    - destruct ((c0 =? 48) && ((c1 =? 120) || (c1 =? 88))) eqn:Ex.
      + apply Forall_cons in Hp as [_ Hp]. apply Forall_cons in Hp as [_ Hp]. rewrite digits_end by done.
        apply andb_true_iff in Ex as [->%Z.eqb_eq Ex%orb_true_iff]. rewrite !Z.eqb_eq in Ex. split.
        * intros [? ?]. eexists. by apply magnitude_hex.
        * intros [n [[_ Hd]|(x&ds&[= <- <-]&_&?&?)]%Hinv]; [|done]. apply Forall_cons in Hd as [_ Hd].
          apply Forall_cons in Hd as [Hd%decimal_digit _]. lia.
      + rewrite digits_end by done. split; [done|]. intros [n [?|(x&ds&[= -> -> ->]&Hx&_)]%Hinv]; [done|].
        destruct Hx as [-> | ->]; done. }
  assert (Hsk : bytes_ok (skip_sign str)) by (destruct str as [|c str]; [done|]; apply Forall_cons in Hs as Hs'; cbn; case_match; [apply Hs'|done]).
  unfold bebop_util_scan_int. cbv zeta. rewrite (Hbody _ Hsk). split.
  - intros [n Hn]. exists (skip_sign str), n. split; [|done]. destruct str as [|c str]; [by left|]. cbn.
    destruct (Z.eqb_spec c 43) as [->|]; [by right; left|]. destruct (Z.eqb_spec c 45) as [->|]; [by right; right|by left].
  - intros (p&n&Hstr&Hn). exists n. destruct Hstr as [-> |[-> | ->]]; [|done|done].
    destruct (magnitude_head p n Hn) as (c&p'&->&?&?&_). cbn. destruct (Z.eqb_spec c 43), (Z.eqb_spec c 45); done.
Qed.

(** ** UUID literals *)

(** The lower-case hexadecimal digit of a nibble, and the two digits of a byte. *)
Definition hex_digit (n : Z) : Z := if n <? 10 then 48 + n else 87 + n.
Definition hex_text (bs : list Z) : list Z := concat (map (λ b, [hex_digit (b / 16); hex_digit (b mod 16)]) bs).
(** The forms with 32 and with 36 characters. *)
Definition dashed_text (bs : list Z) : list Z :=
  hex_text (take 4 bs) ++ 45 :: hex_text (take 2 (drop 4 bs)) ++ 45 :: hex_text (take 2 (drop 6 bs)) ++
  45 :: hex_text (take 2 (drop 8 bs)) ++ 45 :: hex_text (drop 10 bs).

Lemma hex_byte_at str i b :
  byte_ok b → load str i = Some (hex_digit (b / 16)) → load str (i + 1) = Some (hex_digit (b mod 16)) →
  bebop__util_parse_hex_byte str i = Some (Some b).
Proof.
  intros Hb E1 E2. unfold bebop__util_parse_hex_byte. rewrite E1, E2. cbn [mbind option_bind].
  pose proof (byte_forall (λ b, (0 <=? BEBOP_HEX_VALUE (hex_digit (b / 16))) && (0 <=? BEBOP_HEX_VALUE (hex_digit (b mod 16))) &&
    (u8 (Z.lor (Z.shiftl (BEBOP_HEX_VALUE (hex_digit (b / 16))) 4) (BEBOP_HEX_VALUE (hex_digit (b mod 16)))) =? b))
    ltac:(vm_compute; reflexivity) b Hb) as Hall. cbv beta in Hall. zbool.
  destruct (Z.ltb_spec (BEBOP_HEX_VALUE (hex_digit (b / 16))) 0); [lia|].
  destruct (Z.ltb_spec (BEBOP_HEX_VALUE (hex_digit (b mod 16))) 0); [lia|]. cbn [orb]. congruence.
Qed.

Lemma parse_hex_bytes_total str positions :
  Forall (λ i, 0 ≤ i ∧ i + 1 < zlen str) positions → ∃ r, parse_hex_bytes str positions = Some r.
Proof.
  induction 1 as [|i positions [Hi Hi'] _ [r IH]]; cbn [parse_hex_bytes]; [eauto|].
  unfold bebop__util_parse_hex_byte. destruct (load_in str i ltac:(lia)) as [h ->]. destruct (load_in str (i + 1) ltac:(lia)) as [l ->].
  cbn [mbind option_bind]. case_match; [eauto|]. rewrite IH. cbn [mbind option_bind]. eauto.
Qed.

Lemma parse_hex_bytes_text str positions bs :
  Forall byte_ok bs →
  Forall2 (λ i b, load str i = Some (hex_digit (b / 16)) ∧ load str (i + 1) = Some (hex_digit (b mod 16))) positions bs →
  parse_hex_bytes str positions = Some (Some bs).
Proof.
  intros Hbs Hf. induction Hf as [|i b positions bs [E1 E2] _ IH]; [done|]. apply Forall_cons in Hbs as [Hb Hbs].
  cbn [parse_hex_bytes]. rewrite (hex_byte_at str i b Hb E1 E2). cbn [mbind option_bind]. by rewrite IH.
Qed.

(** C35: UUID literals.  The parser is defined on every text, reads nothing outside of it,
    and takes both forms of sixteen bytes, with and without dashes, back to the bytes in
    the order of the text. *)
Theorem parse_uuid_roundtrip :
  (∀ str, ∃ r, bebop_util_parse_uuid str = Some r) ∧
  ∀ bs, bytes_ok bs → zlen bs = 16 →
    bebop_util_parse_uuid (hex_text bs) = Some (Some bs) ∧ bebop_util_parse_uuid (dashed_text bs) = Some (Some bs).
Proof.
  split.
  - intros str. unfold bebop_util_parse_uuid. destruct (Z.eqb_spec (zlen str) 36) as [E|_].
    + destruct (load_in str 8 ltac:(lia)) as [a ->], (load_in str 13 ltac:(lia)) as [b ->],
        (load_in str 18 ltac:(lia)) as [c ->], (load_in str 23 ltac:(lia)) as [d ->]. cbn [mbind option_bind].
      case_match; [eauto|]. apply parse_hex_bytes_total. rewrite E. repeat (constructor; [lia|]). constructor.
    + destruct (Z.eqb_spec (zlen str) 32) as [E|_]; [|eauto]. apply parse_hex_bytes_total. rewrite E.
      repeat (constructor; [lia|]). constructor.
  - intros bs Hbs Hz. assert (Hl : length bs = 16%nat) by (unfold zlen in Hz; lia). clear Hz.
    do 16 (destruct bs as [|? bs]; [done|]). destruct bs; [|done].
    split; (apply parse_hex_bytes_text; [done|]); repeat (constructor; [by split|]); constructor.
Qed.

Lemma parse_uuid_witness :
  bebop_util_parse_uuid (dashed_text (map (λ i, Z.of_nat i * 16) (seq 0 16))) = Some (Some (map (λ i, Z.of_nat i * 16) (seq 0 16))).
Proof.
  apply (proj2 parse_uuid_roundtrip); [|reflexivity]. apply (bool_decide_unpack _). vm_compute. exact I.
Defined.
