(* ===== verification/Calendar.v ===== *)
(** Timestamp and duration literals of the schema compiler ([bebop/src/bebop_utils.c]), and
    the count of days they rest on.

    A pointer into the text of a literal is the list of the bytes from it to the end. *)
From stdpp Require Import list.
From S2P Require Import Prelude.
From S2P Require Import Literals.

(** ** Fields of digits *)

Definition bebop__util_parse_2digit (p : list Z) : option (Z * list Z) :=
  match p with
  | a :: b :: p =>
      let d0 := digit_val a in let d1 := digit_val b in
      if (10 <=? d0) || (10 <=? d1) then None else Some (d0 * 10 + d1, p)
  | _ => None
  end.

Definition bebop__util_parse_4digit (p : list Z) : option (Z * list Z) :=
  match p with
  | a :: b :: c :: d :: p =>
      let d0 := digit_val a in let d1 := digit_val b in let d2 := digit_val c in let d3 := digit_val d in
      if (10 <=? d0) || (10 <=? d1) || (10 <=? d2) || (10 <=? d3) then None
      else Some (d0 * 1000 + d1 * 100 + d2 * 10 + d3, p)
  | _ => None
  end.

(** Up to [n] digits of a fraction, scaled as if there were [n]; further digits are left. *)
Fixpoint parse_frac (n : nat) (p : list Z) (frac : Z) : Z * list Z :=
  match n, p with
  | S n', c :: p' =>
      if 10 <=? digit_val c then (frac * 10 ^ Z.of_nat n, p) else parse_frac n' p' (frac * 10 + digit_val c)
  | _, _ => (frac * 10 ^ Z.of_nat n, p)
  end.

(** [p < end && *p == c] *)
Definition is_at (c : Z) (p : list Z) : bool := match p with x :: _ => x =? c | [] => false end.
Definition expect (cs : list Z) (p : list Z) : option (list Z) :=
  match p with x :: p => if existsb (Z.eqb x) cs then Some p else None | [] => None end.

(** ** Days *)

Definition bebop__util_days_from_civil (y m d : Z) : Z :=
  let y := if m <=? 2 then y - 1 else y in
  let era := Z.quot (if 0 <=? y then y else y - 399) 400 in
  let yoe := y - era * 400 in
  let doy := Z.quot (153 * (m + (if 2 <? m then -3 else 9)) + 2) 5 + d - 1 in
  let doe := yoe * 365 + Z.quot yoe 4 - Z.quot yoe 100 + doy in
  era * 146097 + doe - 719468.

Definition leap_year (year : Z) : bool :=
  ((Z.rem year 4 =? 0) && negb (Z.rem year 100 =? 0)) || (Z.rem year 400 =? 0).
Definition bebop__month_days : list Z := [31; 28; 31; 30; 31; 30; 31; 31; 30; 31; 30; 31].
Definition max_day (year month : Z) : Z :=
  if (month =? 2) && leap_year year then 29 else default 0 (bebop__month_days !! Z.to_nat (month - 1)).

(** ** Timestamps *)

(** Two digits of at most [limit]. *)
Definition parse_field (limit : Z) (p : list Z) : option (Z * list Z) :=
  '(v, p) ← bebop__util_parse_2digit p; if limit <? v then None else Some (v, p).

(** The minutes of a zone, which may be missing, and its seconds behind a colon. *)
Definition parse_optional_field (p : list Z) : option (Z * list Z) :=
  if digit_here 10 p then parse_field 59 p else Some (0, p).

(** A zone: the offset in seconds and in milliseconds, and the rest. *)
Definition parse_zone (p : list Z) : option (Z * Z * list Z) :=
  match p with
  | [] => Some (0, 0, p)
  | c :: p' =>
      if (c =? 90) || (c =? 122) then Some (0, 0, p')
      else if (c =? 43) || (c =? 45) then
        let neg := c =? 45 in
        '(tz_hour, p) ← parse_field 23 p';
        let p := if is_at 58 p then tail p else p in
        '(tz_min, p) ← parse_optional_field p;
        '(tz_sec, p) ← (if is_at 58 p then parse_optional_field (tail p) else Some (0, p));
        let '(tz_ms, p) :=
          if is_at 46 p then let '(frac, p) := parse_frac 3 (tail p) 0 in (frac, skip_digits 10 p) else (0, p) in
        let tz_offset := tz_hour * 3600 + tz_min * 60 + tz_sec in
        let offset_ms := tz_hour * 3600000 + tz_min * 60000 + tz_sec * 1000 + tz_ms in
        let tz_offset := if neg then - tz_offset else tz_offset in
        let offset_ms := if neg then - offset_ms else offset_ms in
        if (offset_ms <? -86400000) || (86400000 <? offset_ms) then None else Some (tz_offset, offset_ms, p)
      else Some (0, 0, p)
  end.

(** Seconds, nanoseconds, and the offset in milliseconds. *)
Definition bebop_util_parse_timestamp (str : list Z) : option (Z * Z * Z) :=
  if zlen str <? 19 then None
  else
    '(year, p) ← bebop__util_parse_4digit str;
    p ← expect [45] p;
    '(month, p) ← bebop__util_parse_2digit p;
    if (month <? 1) || (12 <? month) then None
    else
      p ← expect [45] p;
      '(day, p) ← bebop__util_parse_2digit p;
      if (day <? 1) || (max_day year month <? day) then None
      else
        p ← expect [84; 116; 32] p;
        '(hour, p) ← parse_field 23 p;
        p ← expect [58] p;
        '(minute, p) ← parse_field 59 p;
        p ← expect [58] p;
        '(second, p) ← parse_field 60 p;
        let '(nanos, p) :=
          if is_at 46 p then let '(frac, p) := parse_frac 9 (tail p) 0 in (frac, skip_digits 10 p) else (0, p) in
        '(tz_offset, offset_ms, p) ← parse_zone p;
        if negb (at_end p) then None
        else
          let days := bebop__util_days_from_civil year month day in
          Some (days * 86400 + hour * 3600 + minute * 60 + second - tz_offset, nanos, offset_ms).

(** ** Durations *)

(** The digits of a number: its value and how many there are, unless it leaves 64 bits. *)
Fixpoint duration_digits (p : list Z) (val digits : Z) : option (Z * Z * list Z) :=
  match p with
  | c :: p' =>
      let d := digit_val c in
      if d <? 10 then
        if (UINT64_MAX - d) / 10 <? val then None
        else duration_digits p' (val * 10 + d) (digits + 1)
      else Some (val, digits, p)
  | [] => Some (val, digits, p)
  end.

(** The unit and the rest: nanoseconds per unit. *)
Definition duration_unit (unit : Z) (p : list Z) : option (Z * list Z) :=
  let skip_s p := if is_at 115 p || is_at 83 p then tail p else p in
  if (unit =? 104) || (unit =? 72) then Some (3600000000000, p)
  else if (unit =? 109) || (unit =? 77) then
    if is_at 115 p || is_at 83 p then Some (1000000, tail p) else Some (60000000000, p)
  else if (unit =? 115) || (unit =? 83) then Some (1000000000, p)
  else if unit =? 117 then Some (1000, skip_s p)
  else if unit =? 110 then Some (1, skip_s p)
  else None.

(** What the number and the fraction add, in a unit. *)
Definition duration_add (val frac_nanos frac_digits multiplier_ns : Z) : option Z :=
  if INT64_MAX / multiplier_ns <? val then None
  else
    let add := val * multiplier_ns in
    if 0 <? frac_digits then
      let frac_contrib :=
        if 1000000000 <=? multiplier_ns then frac_nanos * (multiplier_ns / 1000000000)
        else frac_nanos / (1000000000 / multiplier_ns) in
      if INT64_MAX - add <? frac_contrib then None else Some (add + frac_contrib)
    else Some add.

(** The loop over numbers with units; the outer option is fuel. *)
Fixpoint duration_loop (fuel : nat) (p : list Z) (total_nanos : Z) (had_value : bool) : option (option (Z * bool)) :=
  match p with
  | [] => Some (Some (total_nanos, had_value))
  | _ =>
      match fuel with
      | O => None
      | S fuel =>
          match duration_digits p 0 0 with
          | None => Some None
          | Some (val, digits, p) =>
              let '(frac_nanos, frac_digits, p) :=
                if is_at 46 p then let '(frac, p) := parse_frac 9 (tail p) 0 in (frac, 9, skip_digits 10 p)
                else (0, 0, p) in
              if (digits =? 0) && (frac_digits =? 0) then Some None
              else
                match p with
                | [] =>
                    if had_value then Some (Some (total_nanos, had_value))
                    else if INT64_MAX / 1000000000 <? val then Some None
                    else
                      let whole := val * 1000000000 in
                      if INT64_MAX - whole <? frac_nanos then Some None else Some (Some (whole + frac_nanos, true))
                | unit :: p =>
                    match duration_unit unit p with
                    | None => Some None
                    | Some (multiplier_ns, p) =>
                        match duration_add val frac_nanos frac_digits multiplier_ns with
                        | None => Some None
                        | Some add =>
                            if INT64_MAX - total_nanos <? add then Some None
                            else duration_loop fuel p (total_nanos + add) true
                        end
                    end
                end
          end
      end
  end.

Definition bebop_util_parse_duration (str : list Z) : option (option (Z * Z)) :=
  match str with
  | [] => Some None
  | c :: p' =>
      let neg := c =? 45 in
      let p := if neg || (c =? 43) then p' else str in
      if at_end p then Some None
      else
        r ← duration_loop (length p) p 0 false;
        match r with
        | Some (total_nanos, true) =>
            let total_nanos := if neg then - total_nanos else total_nanos in
            let seconds := Z.quot total_nanos 1000000000 in
            let nanos := Z.rem total_nanos 1000000000 in
            Some (Some
              (if (nanos <? 0) && (0 <? seconds) then (seconds - 1, nanos + 1000000000)
               else if (0 <? nanos) && (seconds <? 0) then (seconds + 1, nanos - 1000000000)
               else (seconds, nanos)))
        | _ => Some None
        end
  end.

(** ** The calendar *)

(** The proleptic Gregorian calendar: the day after a day. *)
Definition valid_day (y m d : Z) : Prop := 0 ≤ y ∧ 1 ≤ m ≤ 12 ∧ 1 ≤ d ≤ max_day y m.
Definition next_day (y m d : Z) : Z * Z * Z :=
  if d <? max_day y m then (y, m, d + 1) else if m <? 12 then (y, m + 1, 1) else (y + 1, 1, 1).

(** Days before the March of a year, counted from the March of year 0. *)
Definition march_days (y : Z) : Z := y / 400 * 146097 + (y mod 400 * 365 + y mod 400 / 4 - y mod 400 / 100).

Lemma march_days_succ y :
  march_days (y + 1) = march_days y + 365 + (if ((y + 1) mod 4 =? 0) && negb ((y + 1) mod 100 =? 0) || ((y + 1) mod 400 =? 0) then 1 else 0).
Proof.
  unfold march_days. pose proof (Z.div_mod y 400 ltac:(lia)) as Hy. pose proof (Z.mod_pos_bound y 400 ltac:(lia)) as Hr.
  set (e := y / 400) in *. set (r := y mod 400) in *. clearbody e r. subst y.
  assert (E4 : (400 * e + r + 1) mod 4 = (r + 1) mod 4).
  { replace (400 * e + r + 1) with (r + 1 + (100 * e) * 4) by lia. by rewrite Z.mod_add. }
  assert (E100 : (400 * e + r + 1) mod 100 = (r + 1) mod 100).
  { replace (400 * e + r + 1) with (r + 1 + (4 * e) * 100) by lia. by rewrite Z.mod_add. }
  rewrite E4, E100. destruct (Z.eqb_spec r 399) as [->|Hr'].
  - assert (Ed : (400 * e + 399 + 1) / 400 = e + 1) by (symmetry; apply (Z.div_unique_pos _ _ _ 0); lia).
    assert (Em : (400 * e + 399 + 1) mod 400 = 0) by (symmetry; apply (Z.mod_unique_pos _ _ (e + 1)); lia).
    rewrite Ed, Em. change ((399 + 1) mod 4 =? 0) with true. change ((399 + 1) mod 100 =? 0) with true. cbn [negb andb orb Z.eqb].
    change (0 / 4) with 0. change (0 / 100) with 0. change (399 / 4) with 99. change (399 / 100) with 3. lia.
  - assert (Ed : (400 * e + r + 1) / 400 = e) by (symmetry; apply (Z.div_unique_pos _ _ _ (r + 1)); lia).
    assert (Em : (400 * e + r + 1) mod 400 = r + 1) by (symmetry; apply (Z.mod_unique_pos _ _ e); lia).
    rewrite Ed, Em. destruct (Z.eqb_spec (r + 1) 0); [lia|]. rewrite orb_false_r.
    destruct (Z.eqb_spec ((r + 1) mod 4) 0), (Z.eqb_spec ((r + 1) mod 100) 0); cbn [negb andb]; Z.div_mod_to_equations; lia.
Qed.

(** The day number without truncating divisions: the year begins in March. *)
Lemma days_from_civil_eq y m d :
  0 ≤ y → 1 ≤ m ≤ 12 → 1 ≤ d →
  bebop__util_days_from_civil y m d =
    march_days (if m <=? 2 then y - 1 else y) + ((153 * (m + (if 2 <? m then -3 else 9)) + 2) / 5 + d - 1) - 719468.
Proof.
  intros Hy Hm Hd. unfold bebop__util_days_from_civil, march_days. set (y' := if m <=? 2 then y - 1 else y).
  assert (Hy' : -1 ≤ y') by (subst y'; destruct (m <=? 2); lia).
  assert (Eera : Z.quot (if 0 <=? y' then y' else y' - 399) 400 = y' / 400).
  { destruct (Z.leb_spec 0 y'); [by rewrite Z.quot_div_nonneg by lia|]. replace y' with (-1) by lia. done. }
  rewrite Eera. pose proof (Z.div_mod y' 400 ltac:(lia)). pose proof (Z.mod_pos_bound y' 400 ltac:(lia)).
  replace (y' - y' / 400 * 400) with (y' mod 400) by lia.
  assert (0 ≤ 153 * (m + (if 2 <? m then -3 else 9)) + 2) by (destruct (Z.ltb_spec 2 m); lia).
  rewrite !Z.quot_div_nonneg by lia. lia.
Qed.

Lemma leap_year_mod y : 0 ≤ y → leap_year y = ((y mod 4 =? 0) && negb (y mod 100 =? 0)) || (y mod 400 =? 0).
Proof. intros Hy. unfold leap_year. by rewrite !Z.rem_mod_nonneg by lia. Qed.

Lemma max_day_range y m : 1 ≤ m ≤ 12 → 28 ≤ max_day y m ≤ 31.
Proof.
  intros Hm. unfold max_day. assert (Hl : ∀ i, (i < 12)%nat → 28 ≤ default 0 (bebop__month_days !! i) ≤ 31).
  { intros i Hi. do 12 (destruct i as [|i]; [cbn; lia|]). lia. }
  case_match; [lia|]. apply Hl. lia.
Qed.

(** Evaluates the closed parts of the day number of a given month. *)
Ltac evaluate :=
  cbn [andb];
  repeat match goal with
  | |- context [?a <=? 2] => let v := eval vm_compute in (a <=? 2) in change (a <=? 2) with v
  | |- context [2 <? ?a] => let v := eval vm_compute in (2 <? a) in change (2 <? a) with v
  | |- context [?a =? 2] => let v := eval vm_compute in (a =? 2) in change (a =? 2) with v
  end; cbn [andb];
  repeat match goal with
  | |- context [?a `div` 5] => let v := eval vm_compute in (a `div` 5) in change (a `div` 5) with v
  | |- context [default 0 ?l] => let v := eval vm_compute in (default 0 l) in change (default 0 l) with v
  end.

(** The first of the next month. *)
Lemma days_next_month y m :
  0 ≤ y → 1 ≤ m < 12 →
  bebop__util_days_from_civil y (m + 1) 1 = bebop__util_days_from_civil y m 1 + max_day y m.
Proof.
  intros Hy Hm. rewrite !days_from_civil_eq by lia. unfold max_day.
  pose proof (march_days_succ (y - 1)) as Hsucc. replace (y - 1 + 1) with y in Hsucc by lia. rewrite <- leap_year_mod in Hsucc by lia.
  assert (Hc : m = 1 ∨ m = 2 ∨ m = 3 ∨ m = 4 ∨ m = 5 ∨ m = 6 ∨ m = 7 ∨ m = 8 ∨ m = 9 ∨ m = 10 ∨ m = 11) by lia.
  destruct Hc as [?|[?|[?|[?|[?|[?|[?|[?|[?|[?|?]]]]]]]]]]; subst m;
    revert Hsucc; generalize (leap_year y) as leap; intros leap Hsucc; evaluate; try lia.
  destruct leap; lia.
Qed.

Lemma days_next_year y : 0 ≤ y → bebop__util_days_from_civil (y + 1) 1 1 = bebop__util_days_from_civil y 12 1 + 31.
Proof.
  intros Hy. rewrite !days_from_civil_eq by lia. evaluate. replace (y + 1 - 1) with y by lia. lia.
Qed.

Lemma days_in_month y m d : 0 ≤ y → 1 ≤ m ≤ 12 → 1 ≤ d →
  bebop__util_days_from_civil y m d = bebop__util_days_from_civil y m 1 + (d - 1).
Proof. intros. rewrite !days_from_civil_eq by lia. lia. Qed.

(** The day number counts the days of the proleptic Gregorian calendar from the first
    of January 1970: it is 0 there, and goes up by one from every valid day of every year
    to the day after it, across months, leap days, years and centuries. *)
Theorem days_from_civil_correct :
  bebop__util_days_from_civil 1970 1 1 = 0 ∧
  ∀ y m d, valid_day y m d →
    let '(y', m', d') := next_day y m d in
    valid_day y' m' d' ∧ bebop__util_days_from_civil y' m' d' = bebop__util_days_from_civil y m d + 1.
Proof.
  split; [vm_compute; reflexivity|]. intros y m d (Hy&Hm&Hd). unfold next_day.
  destruct (Z.ltb_spec d (max_day y m)) as [Hlt|Hge].
  { split; [unfold valid_day; lia|]. rewrite (days_in_month y m d), (days_in_month y m (d + 1)) by lia. lia. }
  assert (Ed : d = max_day y m) by lia. subst d. pose proof (max_day_range y m Hm). rewrite (days_in_month y m (max_day y m)) by lia.
  destruct (Z.ltb_spec m 12) as [Hm12|Hm12].
  - pose proof (max_day_range y (m + 1) ltac:(lia)). split; [unfold valid_day; lia|]. rewrite days_next_month by lia. lia.
  - replace m with 12 in * by lia. pose proof (max_day_range (y + 1) 1 ltac:(lia)). split; [unfold valid_day; lia|].
    rewrite days_next_year by lia. change (max_day y 12) with 31. lia.
Qed.

(** The day after the 28th of February 2000 is a leap day. *)
Lemma days_from_civil_witness :
  bebop__util_days_from_civil 2000 2 29 = bebop__util_days_from_civil 2000 2 28 + 1.
Proof. apply (proj2 days_from_civil_correct 2000 2 28). unfold valid_day. vm_compute. intuition discriminate. Defined.

(** ** Timestamps *)

(** [n] in [k] decimal digits. *)
Fixpoint digits_of (k : nat) (n : Z) : list Z :=
  match k with O => [] | S k => digits_of k (n / 10) ++ [48 + n mod 10] end.

(** The zone of a timestamp: none, Z, or hours and minutes with a sign. *)
Inductive zone : Type := NoZone | Utc | Offset (neg : bool) (hours minutes : Z).
Definition zone_ok (z : zone) : Prop :=
  match z with Offset _ h m => 0 ≤ h ≤ 23 ∧ 0 ≤ m ≤ 59 | _ => True end.
Definition zone_text (z : zone) : list Z :=
  match z with
  | NoZone => []
  | Utc => [90]
  | Offset neg h m => (if neg then 45 else 43) :: digits_of 2 h ++ 58 :: digits_of 2 m
  end.
Definition zone_seconds (z : zone) : Z :=
  match z with Offset neg h m => (if neg then -1 else 1) * (h * 3600 + m * 60) | _ => 0 end.

(** The fraction, in nanoseconds. *)
Definition frac_text (nanos : option Z) : list Z :=
  match nanos with Some n => 46 :: digits_of 9 n | None => [] end.

Definition date_text (y m d h mi s : Z) (rest : list Z) : list Z :=
  digits_of 4 y ++ 45 :: digits_of 2 m ++ 45 :: digits_of 2 d ++ 84 :: digits_of 2 h ++ 58 :: digits_of 2 mi ++
  58 :: digits_of 2 s ++ rest.
Definition timestamp_text (y m d h mi s : Z) (nanos : option Z) (z : zone) : list Z :=
  date_text y m d h mi s (frac_text nanos ++ zone_text z).

Lemma digit_val_48 n : 0 ≤ n < 10 → digit_val (48 + n) = n.
Proof.
  intros Hn. assert (E : n = 0 ∨ n = 1 ∨ n = 2 ∨ n = 3 ∨ n = 4 ∨ n = 5 ∨ n = 6 ∨ n = 7 ∨ n = 8 ∨ n = 9) by lia.
  destruct E as [?|[?|[?|[?|[?|[?|[?|[?|[?|?]]]]]]]]]; subst n; reflexivity.
Qed.

Lemma mod10 n : 0 ≤ n mod 10 < 10.
Proof. apply Z.mod_pos_bound. lia. Qed.

Lemma parse_2digit_of n rest : 0 ≤ n < 100 → bebop__util_parse_2digit (digits_of 2 n ++ rest) = Some (n, rest).
Proof.
  intros Hn. change (digits_of 2 n) with [48 + n / 10 mod 10; 48 + n mod 10]. unfold bebop__util_parse_2digit. cbn [app].
  pose proof (mod10 n). pose proof (mod10 (n / 10)). rewrite !digit_val_48 by lia. cbv zeta.
  destruct (Z.leb_spec 10 (n / 10 mod 10)); [lia|]. destruct (Z.leb_spec 10 (n mod 10)); [lia|]. cbn [orb].
  do 2 f_equal. Z.div_mod_to_equations; lia.
Qed.

Lemma parse_4digit_of n rest : 0 ≤ n < 10000 → bebop__util_parse_4digit (digits_of 4 n ++ rest) = Some (n, rest).
Proof.
  intros Hn. change (digits_of 4 n) with [48 + n / 10 / 10 / 10 mod 10; 48 + n / 10 / 10 mod 10; 48 + n / 10 mod 10; 48 + n mod 10].
  unfold bebop__util_parse_4digit. cbn [app].
  pose proof (mod10 n). pose proof (mod10 (n / 10)). pose proof (mod10 (n / 10 / 10)). pose proof (mod10 (n / 10 / 10 / 10)).
  rewrite !digit_val_48 by lia. cbv zeta.
  do 4 (match goal with |- context [10 <=? ?a] => destruct (Z.leb_spec 10 a); [lia|] end). cbn [orb].
  do 2 f_equal. Z.div_mod_to_equations; lia.
Qed.

Lemma parse_field_of limit n rest : 0 ≤ n ≤ limit → limit < 100 → parse_field limit (digits_of 2 n ++ rest) = Some (n, rest).
Proof.
  intros Hn Hl. unfold parse_field. rewrite parse_2digit_of by lia. cbn [mbind option_bind].
  destruct (Z.ltb_spec limit n); [lia|done].
Qed.

Lemma parse_frac_digits j k n rest frac :
  0 ≤ n < 10 ^ Z.of_nat k → parse_frac (k + j) (digits_of k n ++ rest) frac = parse_frac j rest (frac * 10 ^ Z.of_nat k + n).
Proof.
  revert j n rest frac. induction k as [|k IH]; intros j n rest frac Hn.
  - cbn [digits_of app Nat.add]. change (10 ^ Z.of_nat 0) with 1 in *. f_equal. lia.
  - rewrite Nat2Z.inj_succ, Z.pow_succ_r in * by lia. cbn [digits_of]. rewrite <- app_assoc.
    replace (S k + j)%nat with (k + S j)%nat by lia.
    rewrite IH by (split; [apply Z.div_pos; lia|apply Z.div_lt_upper_bound; lia]).
    cbn [app parse_frac]. pose proof (mod10 n). rewrite digit_val_48 by lia. destruct (Z.leb_spec 10 (n mod 10)); [lia|].
    f_equal. pose proof (Z.div_mod n 10 ltac:(lia)). lia.
Qed.

Lemma parse_frac_of n rest : 0 ≤ n < 10 ^ 9 → parse_frac 9 (digits_of 9 n ++ rest) 0 = (n, rest).
Proof.
  intros Hn. change 9%nat with (9 + 0)%nat at 1. rewrite parse_frac_digits by done. destruct rest; cbn [parse_frac]; f_equal; lia.
Qed.

Lemma length_digits_of k n : length (digits_of k n) = k.
Proof. revert n. induction k as [|k IH]; intros n; [done|]. cbn [digits_of]. rewrite length_app, IH. cbn. lia. Qed.

Lemma zone_text_stops z : skip_digits 10 (zone_text z) = zone_text z ∧ is_at 46 (zone_text z) = false.
Proof. destruct z as [| |[] h m]; done. Qed.

Lemma digit_here_of k n rest : digit_here 10 (digits_of (S k) n ++ rest) = true.
Proof.
  revert n rest. induction k as [|k IH]; intros n rest.
  - cbn [digits_of app digit_here]. pose proof (mod10 n). rewrite digit_val_48 by lia. apply Z.ltb_lt; lia.
  - cbn [digits_of] in *. rewrite <- app_assoc. apply IH.
Qed.

Lemma parse_zone_of z : zone_ok z → parse_zone (zone_text z) = Some (zone_seconds z, zone_seconds z * 1000, []).
Proof.
  destruct z as [| |neg h m]; [done..|]. intros (Hh&Hm). cbn [zone_text zone_seconds]. unfold parse_zone.
  assert (Hc : let c := if neg then 45 else 43 in
    ((c =? 90) || (c =? 122)) = false ∧ ((c =? 43) || (c =? 45)) = true ∧ (c =? 45) = neg) by (destruct neg; done).
  cbn zeta in *. destruct Hc as (->&->&->). rewrite parse_field_of by lia. cbn [mbind option_bind is_at Z.eqb Pos.eqb tail].
  unfold parse_optional_field. rewrite <- (app_nil_r (digits_of 2 m)), digit_here_of, parse_field_of by lia.
  cbn [mbind option_bind is_at]. destruct neg; cbn zeta.
  - destruct (Z.ltb_spec (- (h * 3600000 + m * 60000 + 0 * 1000 + 0)) (-86400000)); [lia|].
    destruct (Z.ltb_spec 86400000 (- (h * 3600000 + m * 60000 + 0 * 1000 + 0))); [lia|]. cbn [orb].
    do 2 f_equal. f_equal; lia.
  - destruct (Z.ltb_spec (h * 3600000 + m * 60000 + 0 * 1000 + 0) (-86400000)); [lia|].
    destruct (Z.ltb_spec 86400000 (h * 3600000 + m * 60000 + 0 * 1000 + 0)); [lia|]. cbn [orb].
    do 2 f_equal. f_equal; lia.
Qed.

Lemma date_text_length y m d h mi s rest : 19 ≤ zlen (date_text y m d h mi s rest).
Proof.
  unfold date_text, zlen. repeat (rewrite ?length_app, ?length_digits_of; cbn [length]). lia.
Qed.

(** What [bebop_util_parse_timestamp] does behind a dot, if there is one. *)
Definition parse_fraction (p : list Z) : Z * list Z :=
  if is_at 46 p then let '(frac, p) := parse_frac 9 (tail p) 0 in (frac, skip_digits 10 p) else (0, p).

(** A valid day, a time, a fraction of any form and a zone. *)
Lemma timestamp_parses y m d h mi s nanos rest z :
  valid_day y m d → y ≤ 9999 → 0 ≤ h ≤ 23 → 0 ≤ mi ≤ 59 → 0 ≤ s ≤ 60 → zone_ok z → parse_fraction rest = (nanos, zone_text z) →
  bebop_util_parse_timestamp (date_text y m d h mi s rest) =
    Some (bebop__util_days_from_civil y m d * 86400 + h * 3600 + mi * 60 + s - zone_seconds z, nanos, zone_seconds z * 1000).
Proof.
  intros (Hy&Hm&Hd) Hy' Hh Hmi Hs Hz Hrest. unfold bebop_util_parse_timestamp.
  destruct (Z.ltb_spec (zlen (date_text y m d h mi s rest)) 19); [pose proof (date_text_length y m d h mi s rest); lia|].
  pose proof (max_day_range y m Hm). unfold date_text.
  rewrite parse_4digit_of by lia. cbn [mbind option_bind expect existsb Z.eqb Pos.eqb orb].
  rewrite parse_2digit_of by lia. cbn [mbind option_bind expect existsb Z.eqb Pos.eqb orb].
  destruct (Z.ltb_spec m 1); [lia|]. destruct (Z.ltb_spec 12 m); [lia|]. cbn [orb].
  rewrite parse_2digit_of by lia. cbn [mbind option_bind].
  destruct (Z.ltb_spec d 1); [lia|]. destruct (Z.ltb_spec (max_day y m) d); [lia|]. cbn [orb expect existsb Z.eqb Pos.eqb mbind option_bind].
  do 3 (rewrite parse_field_of by lia; cbn [mbind option_bind expect existsb Z.eqb Pos.eqb orb]).
  change (if is_at 46 rest then _ else _) with (parse_fraction rest). rewrite Hrest, parse_zone_of by done. done.
Qed.

(** The Gregorian calendar by its rules, counted year by year and month by month. *)
Definition gregorian_leap (y : Z) : bool := bool_decide (y mod 4 = 0 ∧ (y mod 100 ≠ 0 ∨ y mod 400 = 0)).
Definition month_length (y m : Z) : Z :=
  if m =? 2 then if gregorian_leap y then 29 else 28
  else if existsb (Z.eqb m) [4; 6; 9; 11] then 30 else 31.
Fixpoint months_before (y : Z) (n : nat) : Z :=
  match n with O => 0 | S n => months_before y n + month_length y (Z.of_nat (S n)) end.
Fixpoint years_before (n : nat) : Z :=
  match n with O => 0 | S n => years_before n + (if gregorian_leap (Z.of_nat n) then 366 else 365) end.
Definition day_number (y m d : Z) : Z := years_before (Z.to_nat y) + months_before y (Z.to_nat (m - 1)) + (d - 1).
Definition days_since_epoch (y m d : Z) : Z := day_number y m d - day_number 1970 1 1.
Definition calendar_day (y m d : Z) : Prop := 0 ≤ y ∧ 1 ≤ m ≤ 12 ∧ 1 ≤ d ≤ month_length y m.

Lemma gregorian_leap_year y : 0 ≤ y → leap_year y = gregorian_leap y.
Proof.
  intros Hy. rewrite leap_year_mod by done. unfold gregorian_leap.
  destruct (Z.eqb_spec (y mod 4) 0), (Z.eqb_spec (y mod 100) 0), (Z.eqb_spec (y mod 400) 0); cbn [negb andb orb]; case_bool_decide; try done; try lia.
  all: Z.div_mod_to_equations; lia.
Qed.
Lemma month_length_max y m : 0 ≤ y → 1 ≤ m ≤ 12 → max_day y m = month_length y m.
Proof.
  intros Hy Hm. unfold max_day, month_length. rewrite gregorian_leap_year by done.
  assert (Hc : m = 1 ∨ m = 2 ∨ m = 3 ∨ m = 4 ∨ m = 5 ∨ m = 6 ∨ m = 7 ∨ m = 8 ∨ m = 9 ∨ m = 10 ∨ m = 11 ∨ m = 12) by lia.
  destruct Hc as [?|[?|[?|[?|[?|[?|[?|[?|[?|[?|[?|?]]]]]]]]]]]; subst m; destruct (gregorian_leap y); reflexivity.
Qed.
Lemma calendar_day_valid y m d : calendar_day y m d ↔ valid_day y m d.
Proof. unfold calendar_day, valid_day. split; intros (?&?&?); pose proof (month_length_max y m ltac:(done) ltac:(done)); lia. Qed.

Lemma months_counted y (n : nat) : 0 ≤ y → (n < 12)%nat →
  bebop__util_days_from_civil y (Z.of_nat n + 1) 1 = bebop__util_days_from_civil y 1 1 + months_before y n.
Proof.
  intros Hy. induction n as [|n IH]; intros Hn; cbn [months_before]; [change (Z.of_nat 0 + 1) with 1; lia|].
  rewrite (days_next_month y (Z.of_nat (S n))), (month_length_max y) by lia.
  rewrite Nat2Z.inj_succ, <- Z.add_1_r, IH by lia. lia.
Qed.
Lemma eleven_months y : months_before y 11 = 334 + (if gregorian_leap y then 1 else 0).
Proof. unfold months_before, month_length. by destruct (gregorian_leap y). Qed.
Lemma years_counted (n : nat) : bebop__util_days_from_civil (Z.of_nat n) 1 1 = bebop__util_days_from_civil 0 1 1 + years_before n.
Proof.
  induction n as [|n IH]; cbn [years_before]; [change (Z.of_nat 0) with 0; lia|].
  rewrite Nat2Z.inj_succ, <- Z.add_1_r, days_next_year by lia.
  pose proof (months_counted (Z.of_nat n) 11 ltac:(lia) ltac:(lia)) as H. change (Z.of_nat 11 + 1) with 12 in H. rewrite H, IH.
  rewrite eleven_months. destruct (gregorian_leap (Z.of_nat n)); lia.
Qed.
(** The code's formula counts the days of the calendar. *)
Theorem days_from_civil_counts y m d : 0 ≤ y → 1 ≤ m ≤ 12 → 1 ≤ d → bebop__util_days_from_civil y m d = days_since_epoch y m d.
Proof.
  intros Hy Hm Hd. unfold days_since_epoch, day_number.
  assert (E0 : years_before (Z.to_nat 1970) + months_before 1970 (Z.to_nat (1 - 1)) + (1 - 1) = - bebop__util_days_from_civil 0 1 1) by (vm_compute; reflexivity).
  rewrite E0, days_in_month by done. pose proof (months_counted y (Z.to_nat (m - 1)) Hy ltac:(lia)) as H1.
  rewrite Z2Nat.id in H1 by lia. replace (m - 1 + 1) with m in H1 by lia. rewrite H1.
  pose proof (years_counted (Z.to_nat y)) as H2. rewrite Z2Nat.id in H2 by lia. rewrite H2. lia.
Qed.

Lemma wrong_date_refused y m d h mi s rest :
  0 ≤ y ≤ 9999 → 0 ≤ m ≤ 99 → 0 ≤ d ≤ 99 → ¬ valid_day y m d → bebop_util_parse_timestamp (date_text y m d h mi s rest) = None.
Proof.
  intros Hy Hm Hd Hday. unfold bebop_util_parse_timestamp.
  destruct (Z.ltb_spec (zlen (date_text y m d h mi s rest)) 19); [done|]. unfold date_text.
  rewrite parse_4digit_of by lia. cbn [mbind option_bind expect existsb Z.eqb Pos.eqb orb].
  rewrite parse_2digit_of by lia. cbn [mbind option_bind expect existsb Z.eqb Pos.eqb orb].
  destruct (Z.ltb_spec m 1); [done|]. destruct (Z.ltb_spec 12 m); [done|]. cbn [orb].
  rewrite parse_2digit_of by lia. cbn [mbind option_bind].
  destruct (Z.ltb_spec d 1); [done|]. destruct (Z.ltb_spec (max_day y m) d); [done|]. exfalso. apply Hday. unfold valid_day. lia.
Qed.

(** C32: timestamps. A timestamp that names a day of the Gregorian calendar of the years 0 to
    9999, a time of the day (a leap second included), a fraction of nanoseconds or none, and no
    zone, Z or an offset of hours and minutes, is parsed to the seconds since the beginning of
    1970 at Greenwich, the days counted by the lengths of years and months, the nanoseconds and
    the offset in milliseconds. A date that the calendar does not have is refused, whatever
    follows it. *)
Theorem timestamp_roundtrip y m d h mi s nanos z :
  0 ≤ y ≤ 9999 → 0 ≤ m ≤ 99 → 0 ≤ d ≤ 99 → 0 ≤ h ≤ 23 → 0 ≤ mi ≤ 59 → 0 ≤ s ≤ 60 → 0 ≤ default 0 nanos < 10 ^ 9 → zone_ok z →
  (calendar_day y m d →
   bebop_util_parse_timestamp (timestamp_text y m d h mi s nanos z) =
     Some (days_since_epoch y m d * 86400 + h * 3600 + mi * 60 + s - zone_seconds z, default 0 nanos, zone_seconds z * 1000)) ∧
  (¬ calendar_day y m d → bebop_util_parse_timestamp (timestamp_text y m d h mi s nanos z) = None).
Proof.
  intros Hy Hm Hd Hh Hmi Hs Hn Hz. split; intros Hday.
  - pose proof (proj1 (calendar_day_valid _ _ _) Hday) as Hv. rewrite <- days_from_civil_counts by (destruct Hv as (?&?&?); lia).
    apply timestamp_parses; [done|lia|done..|]. unfold parse_fraction.
    destruct (zone_text_stops z) as (Hskip&Hdot). destruct nanos as [n|]; cbn [frac_text app default from_option] in *.
    + cbn [is_at Z.eqb Pos.eqb tail]. rewrite parse_frac_of by (cbn in Hn; lia). by rewrite Hskip.
    + by rewrite Hdot.
  - rewrite calendar_day_valid in Hday. by apply wrong_date_refused.
Qed.

Lemma timestamp_roundtrip_witness :
  bebop_util_parse_timestamp (timestamp_text 2024 2 29 23 59 60 (Some 5) (Offset true 5 30)) = Some (1709271000, 5, -19800000) ∧
  bebop_util_parse_timestamp (timestamp_text 1900 2 29 0 0 0 None Utc) = None.
Proof.
  split.
  - rewrite (proj1 (timestamp_roundtrip 2024 2 29 23 59 60 (Some 5) (Offset true 5 30) ltac:(lia) ltac:(lia) ltac:(lia) ltac:(lia) ltac:(lia) ltac:(lia)
      ltac:(cbn; lia) ltac:(cbn; lia))); [vm_compute; reflexivity|vm_compute; intuition discriminate].
  - apply (proj2 (timestamp_roundtrip 1900 2 29 0 0 0 None Utc ltac:(lia) ltac:(lia) ltac:(lia) ltac:(lia) ltac:(lia) ltac:(lia) ltac:(cbn; lia) I)).
    intros (_&_&_&H). by vm_compute in H.
Defined.

(** ** Durations *)

Inductive dur_unit : Type := Hours | Minutes | Seconds | Millis | Micros | Nanos.
Definition unit_text (u : dur_unit) : list Z :=
  match u with
  | Hours => [104] | Minutes => [109] | Seconds => [115]
  | Millis => [109; 115] | Micros => [117; 115] | Nanos => [110; 115]
  end.
Definition unit_nanos (u : dur_unit) : Z :=
  match u with
  | Hours => 3600 * 10 ^ 9 | Minutes => 60 * 10 ^ 9 | Seconds => 10 ^ 9
  | Millis => 10 ^ 6 | Micros => 10 ^ 3 | Nanos => 1
  end.

(** A number of at least one digit, a fraction of nine digits or none, and a unit. *)
Record part : Type := { width : nat; number : Z; fraction : option Z; dunit : dur_unit }.
Definition part_ok (c : part) : Prop :=
  (0 < width c)%nat ∧ 0 ≤ number c < 10 ^ Z.of_nat (width c) ∧ 0 ≤ default 0 (fraction c) < 10 ^ 9.
Definition part_text (c : part) : list Z :=
  digits_of (width c) (number c) ++ frac_text (fraction c) ++ unit_text (dunit c).
(** Its length in whole nanoseconds. *)
Definition part_nanos (c : part) : Z :=
  number c * unit_nanos (dunit c) + default 0 (fraction c) * unit_nanos (dunit c) / 1000000000.

Definition parts_text (l : list part) : list Z := concat (map part_text l).
Definition parts_nanos (l : list part) : Z := foldr (λ c t, part_nanos c + t) 0 l.

Lemma digit_here_cons base p : digit_here base p = false → skip_digits base p = p.
Proof. destruct p as [|c p]; [done|]. cbn. by intros ->. Qed.

Lemma duration_digits_of k n val digits rest :
  0 ≤ n < 10 ^ Z.of_nat k → 0 ≤ val ≤ UINT64_MAX →
  duration_digits (digits_of k n ++ rest) val digits =
    if val * 10 ^ Z.of_nat k + n <=? UINT64_MAX
    then duration_digits rest (val * 10 ^ Z.of_nat k + n) (digits + Z.of_nat k) else None.
Proof.
  revert n val digits rest. induction k as [|k IH]; intros n val digits rest Hn Hval.
  - change (10 ^ Z.of_nat 0) with 1 in *. cbn [digits_of app]. destruct (Z.leb_spec (val * 1 + n) UINT64_MAX); [|lia].
    f_equal; lia.
  - rewrite Nat2Z.inj_succ, Z.pow_succ_r in * by lia. cbn [digits_of]. rewrite <- app_assoc.
    rewrite IH by (first [lia|split; [apply Z.div_pos; lia|apply Z.div_lt_upper_bound; lia]]).
    pose proof (mod10 n). pose proof (Z.div_mod n 10 ltac:(lia)). set (v := val * 10 ^ Z.of_nat k + n / 10).
    assert (Ev : val * (10 * 10 ^ Z.of_nat k) + n = v * 10 + n mod 10) by (unfold v; lia). rewrite Ev.
    assert (0 ≤ v) by (unfold v; pose proof (Z.div_pos n 10); lia). clearbody v.
    destruct (Z.leb_spec v UINT64_MAX) as [Hv|Hv].
    + cbn [app duration_digits]. rewrite digit_val_48 by lia. destruct (Z.ltb_spec (n mod 10) 10); [|lia].
      destruct (Z.ltb_spec ((UINT64_MAX - n mod 10) / 10) v) as [Ho|Ho], (Z.leb_spec (v * 10 + n mod 10) UINT64_MAX) as [Hs|Hs];
        [exfalso; Z.div_mod_to_equations; lia|done| |exfalso; Z.div_mod_to_equations; lia].
      f_equal. lia.
    + destruct (Z.leb_spec (v * 10 + n mod 10) UINT64_MAX); [lia|done].
Qed.

Lemma duration_digits_stop p val digits : digit_here 10 p = false → duration_digits p val digits = Some (val, digits, p).
Proof. destruct p as [|c p]; [done|]. cbn. by intros ->. Qed.

Lemma unit_text_stops u rest : digit_here 10 (unit_text u ++ rest) = false ∧ is_at 46 (unit_text u ++ rest) = false.
Proof. by destruct u. Qed.

(** The bytes behind a unit that could be taken for its second letter. *)
Definition starts_with_s (p : list Z) : bool := is_at 115 p || is_at 83 p.

Lemma duration_unit_of u rest : starts_with_s rest = false →
  match unit_text u ++ rest with c :: p => duration_unit c p | [] => None end = Some (unit_nanos u, rest).
Proof. unfold starts_with_s. intros Hs. destruct u; cbn; rewrite ?Hs; done. Qed.

(** A unit divides the second, or the second divides it. *)
Lemma unit_cases u : ∃ k, 0 < k ∧
  (unit_nanos u = k * 1000000000 ∧ 1000000000 <= unit_nanos u ∨ 1000000000 = k * unit_nanos u ∧ 0 < unit_nanos u < 1000000000).
Proof.
  destruct u; [exists 3600|exists 60|exists 1|exists 1000|exists 1000000|exists 1000000000];
    (split; [lia|]); cbn; lia.
Qed.

Lemma frac_contrib_eq frac u : 0 ≤ frac →
  (if 1000000000 <=? unit_nanos u then frac * (unit_nanos u / 1000000000) else frac / (1000000000 / unit_nanos u)) =
    frac * unit_nanos u / 1000000000.
Proof.
  intros Hf. destruct (unit_cases u) as (k&Hk&[(E&Hge)|(E&Hlt)]); generalize dependent (unit_nanos u); intros m.
  - intros -> Hge. destruct (Z.leb_spec 1000000000 (k * 1000000000)); [|lia].
    rewrite Z.div_mul, Z.mul_assoc, Z.div_mul by lia. done.
  - intros E Hlt. destruct (Z.leb_spec 1000000000 m); [lia|]. rewrite E, Z.div_mul by lia.
    rewrite Z.div_mul_cancel_r by lia. done.
Qed.

Lemma duration_add_eq val frac fd u :
  0 ≤ val → 0 ≤ frac → 0 ≤ fd → (fd = 0 → frac = 0) →
  duration_add val frac fd (unit_nanos u) =
    let t := val * unit_nanos u + frac * unit_nanos u / 1000000000 in
    if t <=? INT64_MAX then Some t else None.
Proof.
  intros Hval Hf Hd Hz. unfold duration_add. rewrite frac_contrib_eq by done. cbv zeta.
  assert (Hm : 0 < unit_nanos u) by (destruct (unit_cases u) as (k&?&[?|?]); lia).
  assert (Hfc : 0 ≤ frac * unit_nanos u / 1000000000) by (apply Z.div_pos; nia).
  assert (Hfz : fd = 0 → frac * unit_nanos u / 1000000000 = 0) by (intros E; by rewrite (Hz E)).
  generalize dependent (frac * unit_nanos u / 1000000000). generalize dependent (unit_nanos u).
  generalize INT64_MAX as M. intros M m Hm fc Hfc Hfz.
  assert (Hover : M / m < val ↔ M < val * m) by (split; intros; Z.div_mod_to_equations; nia).
  destruct (Z.ltb_spec (M / m) val) as [Ho|Ho].
  - destruct (Z.leb_spec (val * m + fc) M); [lia|done].
  - destruct (Z.ltb_spec 0 fd) as [Hfd|Hfd].
    + destruct (Z.ltb_spec (M - val * m) fc), (Z.leb_spec (val * m + fc) M); lia || done.
    + rewrite Hfz by lia. rewrite Z.add_0_r. destruct (Z.leb_spec (val * m) M); [done|lia].
Qed.

(** The part of the loop's body that reads one number: its value, its fraction and the rest. *)
Lemma duration_loop_part fuel c rest total had :
  part_ok c → starts_with_s rest = false → 0 ≤ total ≤ INT64_MAX →
  duration_loop (S fuel) (part_text c ++ rest) total had =
    if total + part_nanos c <=? INT64_MAX then duration_loop fuel rest (total + part_nanos c) true else Some None.
Proof.
  intros (Hw&Hn&Hf) Hs Ht. destruct (width c) as [|w] eqn:Ew; [lia|].
  assert (Hcons : ∃ x p, part_text c ++ rest = x :: p).
  { unfold part_text. rewrite Ew. cbn [digits_of]. destruct (digits_of w (number c / 10)); cbn; eauto. }
  destruct Hcons as (x&p&Ep). cbn [duration_loop]. rewrite Ep. rewrite <- Ep. clear x p Ep.
  unfold part_text. rewrite Ew, <- !app_assoc. rewrite duration_digits_of by (rewrite ?Ew in *; unfold UINT64_MAX; lia).
  pose proof (unit_text_stops (dunit c) rest) as (Hu1&Hu2). pose proof (duration_unit_of (dunit c) rest Hs) as Hu.
  assert (Hm : 1 ≤ unit_nanos (dunit c)) by (destruct (dunit c); cbn; lia).
  assert (Hfr : 0 ≤ default 0 (fraction c) * unit_nanos (dunit c) / 1000000000) by (apply Z.div_pos; lia).
  rewrite Z.mul_0_l, !Z.add_0_l. destruct (Z.leb_spec (number c) UINT64_MAX) as [Hle|Hgt].
  2: { unfold part_nanos. destruct (Z.leb_spec (total + (number c * unit_nanos (dunit c) + default 0 (fraction c) * unit_nanos (dunit c) / 1000000000)) INT64_MAX) as [H|H]; [|done].
       exfalso. unfold UINT64_MAX, INT64_MAX in *. nia. }
  rewrite duration_digits_stop by (destruct (fraction c); [done|apply Hu1]).
  set (fd := match fraction c with Some _ => 9 | None => 0 end).
  assert (Efrac : (if is_at 46 (frac_text (fraction c) ++ unit_text (dunit c) ++ rest)
     then let '(frac, p) := parse_frac 9 (tail (frac_text (fraction c) ++ unit_text (dunit c) ++ rest)) 0 in (frac, 9, skip_digits 10 p)
     else (0, 0, frac_text (fraction c) ++ unit_text (dunit c) ++ rest)) = (default 0 (fraction c), fd, unit_text (dunit c) ++ rest)).
  { destruct (fraction c) as [f|]; cbn [frac_text app default from_option] in *.
    - cbn [is_at Z.eqb Pos.eqb tail]. rewrite parse_frac_of by exact Hf. rewrite digit_here_cons by done. done.
    - by rewrite Hu2. }
  rewrite Efrac. destruct (Z.eqb_spec (Z.of_nat (S w)) 0); [lia|]. cbn [andb].
  destruct (unit_text (dunit c) ++ rest) as [|x p]; [done|]. rewrite Hu.
  rewrite duration_add_eq by (subst fd; destruct (fraction c); cbn [default from_option id] in *; lia).
  fold (part_nanos c). cbv zeta.
  assert (0 ≤ part_nanos c) by (unfold part_nanos; nia).
  destruct (Z.leb_spec (part_nanos c) INT64_MAX) as [H1|H1], (Z.leb_spec (total + part_nanos c) INT64_MAX) as [H2|H2]; try lia; try done.
  - by destruct (Z.ltb_spec (INT64_MAX - total) (part_nanos c)); [lia|].
  - by destruct (Z.ltb_spec (INT64_MAX - total) (part_nanos c)); [|lia].
Qed.

Lemma part_text_head c rest : part_ok c → starts_with_s (part_text c ++ rest) = false ∧ (2 ≤ length (part_text c))%nat.
Proof.
  intros (Hw&_). unfold part_text, starts_with_s. destruct (width c) as [|w]; [lia|]. split.
  - pose proof (digit_here_of w (number c) ((frac_text (fraction c) ++ unit_text (dunit c)) ++ rest)) as Hd.
    rewrite <- app_assoc. destruct (digits_of (S w) (number c) ++ _) as [|x p]; [done|]. cbn in *.
    destruct (Z.eqb_spec x 115); [subst; done|]. destruct (Z.eqb_spec x 83); [subst; done|]. done.
  - rewrite !length_app, length_digits_of. destruct (dunit c); cbn; lia.
Qed.

Lemma part_nanos_nonneg c : part_ok c → 0 ≤ part_nanos c.
Proof.
  intros (Hw&Hn&Hf). unfold part_nanos. assert (0 < unit_nanos (dunit c)) by (destruct (unit_cases (dunit c)) as (k&?&[?|?]); lia).
  assert (0 ≤ default 0 (fraction c) * unit_nanos (dunit c) / 1000000000) by (apply Z.div_pos; nia). nia.
Qed.

Lemma parts_nanos_nonneg l : Forall part_ok l → 0 ≤ parts_nanos l.
Proof. induction 1 as [|c l Hc Hl IH]; cbn; [lia|]. pose proof (part_nanos_nonneg c Hc). unfold parts_nanos in IH. lia. Qed.

Lemma parts_text_length l : Forall part_ok l → (2 * length l ≤ length (parts_text l))%nat.
Proof.
  induction 1 as [|c l Hc Hl IH]; [done|]. unfold parts_text in *. cbn. rewrite length_app.
  pose proof (part_text_head c [] Hc) as (_&?). lia.
Qed.

(** The loop over a list of parts: their sum is added, or it does not fit and they are refused. *)
Lemma duration_loop_parts l fuel rest total had :
  Forall part_ok l → starts_with_s rest = false → 0 ≤ total ≤ INT64_MAX →
  duration_loop (length l + fuel) (parts_text l ++ rest) total had =
    if total + parts_nanos l <=? INT64_MAX
    then duration_loop fuel rest (total + parts_nanos l) (match l with [] => had | _ => true end) else Some None.
Proof.
  intros Hl Hs. revert total had. induction Hl as [|c l Hc Hl IH]; intros total had Ht.
  - cbn. rewrite Z.add_0_r. destruct (Z.leb_spec total INT64_MAX); [done|lia].
  - unfold parts_text in *. cbn [map concat length Nat.add]. rewrite <- app_assoc.
    assert (Hh : starts_with_s (concat (map part_text l) ++ rest) = false).
    { destruct Hl as [|c' l' Hc' Hl']; [done|]. cbn. rewrite <- app_assoc. by apply part_text_head. }
    rewrite duration_loop_part by done. pose proof (part_nanos_nonneg c Hc). pose proof (parts_nanos_nonneg l Hl).
    change (parts_nanos (c :: l)) with (part_nanos c + parts_nanos l).
    destruct (Z.leb_spec (total + part_nanos c) INT64_MAX).
    + rewrite IH by lia. rewrite Z.add_assoc. by destruct l.
    + destruct (Z.leb_spec (total + (part_nanos c + parts_nanos l)) INT64_MAX); [lia|done].
Qed.

Lemma duration_digits_length p val digits v d q : duration_digits p val digits = Some (v, d, q) → (length q ≤ length p)%nat.
Proof.
  revert val digits. induction p as [|c p IH]; intros val digits; cbn [duration_digits]; [by intros [= <- <- <-]|].
  repeat case_match; [done| |by intros [= <- <- <-]]. intros E%IH. cbn. lia.
Qed.

Lemma parse_frac_length n p frac f q : parse_frac n p frac = (f, q) → (length q ≤ length p)%nat.
Proof.
  revert p frac. induction n as [|n IH]; intros p frac; destruct p as [|c p]; cbn [parse_frac]; try (intros [= <- <-]; done).
  case_match; [intros [= <- <-]; done|]. intros E%IH. cbn. lia.
Qed.

Lemma skip_digits_length base p : (length (skip_digits base p) ≤ length p)%nat.
Proof. induction p as [|c p IH]; [done|]. cbn. case_match; cbn; lia. Qed.

Lemma duration_unit_length u p m q : duration_unit u p = Some (m, q) → (length q ≤ length p)%nat.
Proof. unfold duration_unit. repeat case_match; intros [= <- <-]; try done; destruct p; cbn; lia. Qed.

(** Enough fuel: every turn of the loop consumes a byte at least. *)
Lemma duration_loop_total fuel p total had : (length p ≤ fuel)%nat → is_Some (duration_loop fuel p total had).
Proof.
  revert p total had. induction fuel as [|fuel IH]; intros p total had Hlen; destruct p as [|c p]; cbn [duration_loop]; [eauto|cbn in Hlen; lia|eauto|].
  destruct (duration_digits (c :: p) 0 0) as [[[v d] q]|] eqn:Ed; [|eauto]. apply duration_digits_length in Ed.
  set (frac := if is_at 46 q then _ else _). destruct frac as [[f fd] q'] eqn:Eq; subst frac.
  assert (Hq : (length q' ≤ length q)%nat).
  { destruct (is_at 46 q) eqn:Edot; [|by injection Eq as <- <- <-].
    destruct (parse_frac 9 (tail q) 0) as [f' q''] eqn:Ef. injection Eq as <- <- <-. apply parse_frac_length in Ef.
    pose proof (skip_digits_length 10 q''). destruct q; cbn in *; lia. }
  destruct (andb _ _); [eauto|]. destruct q' as [|u q']; [repeat case_match; eauto|].
  destruct (duration_unit u q') as [[m q'']|] eqn:Eu; [|eauto]. apply duration_unit_length in Eu.
  destruct (duration_add v f fd m) as [add|]; [|eauto]. destruct (INT64_MAX - total <? add); [eauto|]. apply IH. cbn in *. lia.
Qed.

(** More fuel does not change what the loop returns. *)
Lemma duration_loop_fuel fuel fuel' p total had r :
  duration_loop fuel p total had = Some r → (fuel ≤ fuel')%nat → duration_loop fuel' p total had = Some r.
Proof.
  revert fuel' p total had. induction fuel as [|fuel IH]; intros fuel' p total had; destruct p as [|c p];
    try (destruct fuel'; done). destruct fuel' as [|fuel']; [intros; lia|]. cbn [duration_loop].
  destruct (duration_digits (c :: p) 0 0) as [[[v d] q]|]; [|done].
  set (frac := if is_at 46 q then _ else _). destruct frac as [[f fd] q'].
  destruct (andb _ _); [done|]. destruct q' as [|u q']; [done|].
  destruct (duration_unit u q') as [[m q'']|]; [|done]. destruct (duration_add v f fd m) as [add|]; [|done].
  destruct (INT64_MAX - total <? add); [done|]. intros E Hle. apply (IH fuel'); [done|lia].
Qed.

(** The sign, and the duration as seconds and nanoseconds of the same sign. *)
Inductive sign : Type := NoSign | Plus | Minus.
Definition sign_text (s : sign) : list Z := match s with NoSign => [] | Plus => [43] | Minus => [45] end.
Definition signed (s : sign) (n : Z) : Z := match s with Minus => - n | _ => n end.
Definition split_seconds (n : Z) : Z * Z := (Z.quot n (10 ^ 9), Z.rem n (10 ^ 9)).

Definition parse_duration_body (neg : bool) (p : list Z) : option (option (Z * Z)) :=
  r ← duration_loop (length p) p 0 false;
  Some (match r with
        | Some (total, true) => Some (split_seconds (if neg then - total else total))
        | _ => None
        end).

(** The two corrections at the end never apply. *)
Lemma parse_duration_sign (s : sign) p :
  match p with c :: _ => c ≠ 43 ∧ c ≠ 45 | [] => False end →
  bebop_util_parse_duration (sign_text s ++ p) = parse_duration_body (match s with Minus => true | _ => false end) p.
Proof.
  intros Hp. assert (Hfix : ∀ n, (if (Z.rem n 1000000000 <? 0) && (0 <? Z.quot n 1000000000)
      then (Z.quot n 1000000000 - 1, Z.rem n 1000000000 + 1000000000)
      else if (0 <? Z.rem n 1000000000) && (Z.quot n 1000000000 <? 0)
      then (Z.quot n 1000000000 + 1, Z.rem n 1000000000 - 1000000000)
      else (Z.quot n 1000000000, Z.rem n 1000000000)) = split_seconds n).
  { intros n. unfold split_seconds. change (10 ^ 9) with 1000000000.
    destruct (Z.ltb_spec (Z.rem n 1000000000) 0), (Z.ltb_spec 0 (Z.quot n 1000000000)), (Z.ltb_spec 0 (Z.rem n 1000000000)),
      (Z.ltb_spec (Z.quot n 1000000000) 0); cbn [andb]; try done; exfalso; Z.quot_rem_to_equations; lia. }
  assert (Hbody : ∀ (neg : bool), (r ← duration_loop (length p) p 0 false;
      match r with
      | Some (total, true) =>
          let total := if neg then - total else total in
          let seconds := Z.quot total 1000000000 in
          let nanos := Z.rem total 1000000000 in
          Some (Some (if (nanos <? 0) && (0 <? seconds) then (seconds - 1, nanos + 1000000000)
               else if (0 <? nanos) && (seconds <? 0) then (seconds + 1, nanos - 1000000000) else (seconds, nanos)))
      | _ => Some None
      end) = parse_duration_body neg p).
  { intros neg. unfold parse_duration_body. destruct (duration_loop _ _ _ _) as [[[total []]|]|]; [|done..].
    cbn [mbind option_bind]. cbv zeta. by rewrite Hfix. }
  destruct p as [|c p]; [done|]. destruct s; cbn [sign_text app]; unfold bebop_util_parse_duration.
  - destruct (Z.eqb_spec c 45); [lia|]. destruct (Z.eqb_spec c 43); [lia|]. apply (Hbody false).
  - apply (Hbody false).
  - apply (Hbody true).
Qed.

Lemma parts_text_sign l rest : l ≠ [] → Forall part_ok l →
  match parts_text l ++ rest with c :: _ => c ≠ 43 ∧ c ≠ 45 | [] => False end.
Proof.
  intros Hne Hl. destruct Hl as [|c l (Hw&_) Hl]; [done|]. unfold parts_text. cbn [map concat]. unfold part_text.
  destruct (width c) as [|w]; [lia|]. rewrite <- !app_assoc.
  match goal with |- context [digits_of (S w) _ ++ ?r] => pose proof (digit_here_of w (number c) r) as Hd; destruct (digits_of (S w) (number c) ++ r) as [|x p] end; [done|].
  cbn in Hd. split; intros ->; done.
Qed.

(** A list of parts, and behind it what ends the loop without a change. *)
Lemma parse_duration_parts s l rest :
  l ≠ [] → Forall part_ok l → starts_with_s rest = false →
  (∀ total, duration_loop (length rest) rest total true = Some (Some (total, true))) →
  bebop_util_parse_duration (sign_text s ++ parts_text l ++ rest) =
    Some (if parts_nanos l <=? INT64_MAX then Some (split_seconds (signed s (parts_nanos l))) else None).
Proof.
  intros Hne Hl Hs Hrest. rewrite parse_duration_sign by by apply parts_text_sign. unfold parse_duration_body.
  pose proof (duration_loop_parts l (length rest) rest 0 false Hl Hs ltac:(done)) as Hloop. rewrite Z.add_0_l in Hloop.
  replace (match l with [] => false | _ => true end) with true in Hloop by by destruct l. rewrite Hrest in Hloop.
  assert (Hfuel : (length l + length rest ≤ length (parts_text l ++ rest))%nat).
  { rewrite length_app. pose proof (parts_text_length l Hl). lia. }
  destruct (parts_nanos l <=? INT64_MAX); rewrite (duration_loop_fuel _ _ _ _ _ _ Hloop Hfuel); [|done].
  cbn [mbind option_bind]. by destruct s.
Qed.

(** C33: a duration is a sign and at least one number with a unit, each of any number of
    digits and with nine digits of a fraction or none. The parser returns the sum of the
    parts in nanoseconds, the part of a fraction below a nanosecond cut off, as seconds and
    nanoseconds of the duration's sign, and refuses the text exactly when the sum leaves 63
    bits. On any text at all it returns: the loop needs no more turns than there are bytes. *)
Theorem parse_duration_correct :
  (∀ str, is_Some (bebop_util_parse_duration str)) ∧
  ∀ s l, l ≠ [] → Forall part_ok l →
    bebop_util_parse_duration (sign_text s ++ parts_text l) =
      Some (if parts_nanos l <=? INT64_MAX then Some (split_seconds (signed s (parts_nanos l))) else None).
Proof.
  split.
  - intros [|c p]; cbn [bebop_util_parse_duration]; [eauto|]. case_match; [eauto|].
    match goal with |- context [duration_loop (length ?q) ?q 0 false] => destruct (duration_loop_total (length q) q 0 false ltac:(done)) as (r&->) end.
    cbn [mbind option_bind]. repeat case_match; eauto.
  - intros s l Hne Hl. rewrite <- (app_nil_r (parts_text l)). by apply parse_duration_parts.
Qed.

Definition example_parts : list part :=
  [{| width := 1; number := 1; fraction := Some 500000000; dunit := Hours |};
   {| width := 3; number := 7; fraction := None; dunit := Millis |}].

(** -1.5h7ms *)
Lemma parse_duration_correct_witness :
  bebop_util_parse_duration (sign_text Minus ++ parts_text example_parts) = Some (Some (-5400, -7000000)).
Proof.
  rewrite (proj2 parse_duration_correct); [vm_compute; reflexivity|discriminate|].
  repeat constructor; vm_compute; intuition discriminate.
Defined.

(** A last number without a unit is dropped when another part stands before it: "1h30"
    is one hour, as "1h" is. *)
Theorem parse_duration_drops_tail s l k n :
  l ≠ [] → Forall part_ok l → (0 < k)%nat → 0 ≤ n < 10 ^ Z.of_nat k → n ≤ UINT64_MAX →
  bebop_util_parse_duration (sign_text s ++ parts_text l ++ digits_of k n) =
    bebop_util_parse_duration (sign_text s ++ parts_text l).
Proof.
  intros Hne Hl Hk Hn Hmax. rewrite <- (app_nil_r (parts_text l)) at 2. destruct k as [|k]; [lia|].
  rewrite !parse_duration_parts; try done.
  - pose proof (digit_here_of k n []) as Hd. rewrite app_nil_r in Hd. unfold starts_with_s.
    destruct (digits_of (S k) n) as [|x p]; [done|]. cbn in *.
    destruct (Z.eqb_spec x 115); [by subst|]. destruct (Z.eqb_spec x 83); [by subst|]. done.
  - intros total. pose proof (length_digits_of (S k) n) as Hlen.
    pose proof (duration_digits_of (S k) n 0 0 [] Hn ltac:(done)) as Hd. rewrite app_nil_r, Z.mul_0_l, !Z.add_0_l in Hd.
    destruct (Z.leb_spec n UINT64_MAX); [|lia]. cbn [duration_digits] in Hd. rewrite Hlen. cbn [duration_loop].
    destruct (digits_of (S k) n) as [|x p]; [done|]. rewrite Hd. cbn [is_at andb]. by destruct (Z.eqb_spec (Z.of_nat (S k)) 0); [lia|].
Qed.

Lemma parse_duration_drops_tail_witness :
  bebop_util_parse_duration ([] ++ parts_text (take 1 example_parts) ++ digits_of 2 30) = Some (Some (5400, 0)).
Proof.
  rewrite (parse_duration_drops_tail NoSign); [vm_compute; reflexivity|discriminate| |lia|lia|vm_compute; discriminate].
  repeat constructor; vm_compute; intuition discriminate.
Defined.
