(* ===== verification/Fuzzy.v ===== *)
(** The nearest name among candidates ([bebop/src/bebop_utils.c]), which the compiler offers
    for a name it does not know: the edit distance with transpositions, and the choice. *)
From stdpp Require Import list gmap.
From S2P Require Import Prelude.
From S2P Require Import Literals.

(** ** The distance *)

(** The array [d[64][64]]; a cell that was never written has no value. *)
Abbreviation table := (gmap (nat * nat) Z).

Definition store (i j : nat) (v : Z) (d : table) : option table :=
  if (i <? 64)%nat && (j <? 64)%nat then Some (<[(i, j) := v]> d) else None.

(** A loop over consecutive indices. *)
Fixpoint for_each (l : list nat) (f : nat → table → option table) (d : table) : option table :=
  match l with [] => Some d | i :: l => d ← f i d; for_each l f d end.

(** The exchange of two neighbours, if the ends of the prefixes are exchanged. *)
Definition transposition (a b : list Z) (i j : nat) (d : table) (ai bj best : Z) : option Z :=
  if (1 <? i)%nat && (1 <? j)%nat then
    ai2 ← a !! (i - 2)%nat; bj2 ← b !! (j - 2)%nat;
    if (ai =? bj2) && (ai2 =? bj) then
      t ← d !! ((i - 2)%nat, (j - 2)%nat);
      let trans := u32 (t + 1) in
      Some (if trans <? best then trans else best)
    else Some best
  else Some best.

(** The body of the two nested loops. *)
Definition levenshtein_cell (a b : list Z) (i j : nat) (d : table) : option table :=
  ai ← a !! (i - 1)%nat; bj ← b !! (j - 1)%nat;
  let cost := if ai =? bj then 0 else 1 in
  up ← d !! ((i - 1)%nat, j); left ← d !! (i, (j - 1)%nat); diag ← d !! ((i - 1)%nat, (j - 1)%nat);
  let del := u32 (up + 1) in
  let ins := u32 (left + 1) in
  let sub := u32 (diag + cost) in
  let best := if del <? ins then del else ins in
  let best := if sub <? best then sub else best in
  best ← transposition a b i j d ai bj best;
  store i j best d.

(** Nothing on a read of a cell that was not written, or outside of an array. *)
Definition bebop_util_levenshtein (a b : list Z) (max_dist : Z) : option Z :=
  let a_len := zlen a in
  let b_len := zlen b in
  if a_len =? 0 then Some (u32 b_len)
  else if b_len =? 0 then Some (u32 a_len)
  else
    let len_diff := if b_len <? a_len then a_len - b_len else b_len - a_len in
    if max_dist <? len_diff then Some (u32 (max_dist + 1))
    else if (64 <? a_len + 1) || (64 <? b_len + 1) then Some (u32 (max_dist + 1))
    else
      d ← for_each (seq 0 (S (length a))) (λ i, store i 0 (u32 (Z.of_nat i))) ∅;
      d ← for_each (seq 0 (S (length b))) (λ j, store 0 j (u32 (Z.of_nat j))) d;
      d ← for_each (seq 1 (length a)) (λ i, for_each (seq 1 (length b)) (levenshtein_cell a b i)) d;
      n ← d !! (length a, length b);
      Some (if max_dist <? n then u32 (max_dist + 1) else n).

(** The loop over the candidates, from the one at [i]: the best so far and its distance. A
    candidate is a string without its terminator, or null; the result is its index. *)
Fixpoint fuzzy_loop (input : list Z) (candidates : list (option (list Z))) (i : nat) (best : option nat) (best_dist : Z)
    : option (option nat) :=
  match candidates with
  | [] => Some best
  | None :: candidates => fuzzy_loop input candidates (S i) best best_dist
  | Some c :: candidates =>
      dist ← bebop_util_levenshtein input c (u32 (best_dist - 1));
      if dist <? best_dist then
        if dist =? 0 then Some (Some i) else fuzzy_loop input candidates (S i) (Some i) dist
      else fuzzy_loop input candidates (S i) best best_dist
  end.

Definition bebop_util_fuzzy_match (input : list Z) (candidates : list (option (list Z))) (max_distance : Z)
    : option (option nat) :=
  if at_end input || match candidates with [] => true | _ => false end then Some None
  else fuzzy_loop input candidates 0 None (u32 (max_distance + 1)).

(** ** Edit scripts *)

(** [edits a b n]: [n] edits at the ends of growing prefixes, each a substitution, a
    deletion, an insertion or the exchange of two neighbours, turn [a] into [b]. *)
Inductive edits : list Z → list Z → Z → Prop :=
  | edits_nil : edits [] [] 0
  | edits_keep x a b n : edits a b n → edits (a ++ [x]) (b ++ [x]) n
  | edits_subst x y a b n : edits a b n → edits (a ++ [x]) (b ++ [y]) (n + 1)
  | edits_delete x a b n : edits a b n → edits (a ++ [x]) b (n + 1)
  | edits_insert y a b n : edits a b n → edits a (b ++ [y]) (n + 1)
  | edits_swap x y a b n : edits a b n → edits (a ++ [x] ++ [y]) (b ++ [y] ++ [x]) (n + 1).

(** The least number of edits. *)
Definition distance (a b : list Z) (n : Z) : Prop := edits a b n ∧ ∀ m, edits a b m → n ≤ m.

Lemma edits_nonneg a b n : edits a b n → 0 ≤ n.
Proof. induction 1; lia. Qed.

Lemma edits_length a b n : edits a b n → Z.abs (zlen a - zlen b) ≤ n.
Proof. unfold zlen. induction 1; rewrite ?length_app in *; cbn [length] in *; lia. Qed.

Lemma edits_from_nil b : edits [] b (zlen b).
Proof.
  induction b as [|y b IH] using rev_ind; [constructor|]. unfold zlen in *. rewrite length_app. cbn [length].
  replace (Z.of_nat (length b + 1)) with (Z.of_nat (length b) + 1) by lia. by constructor.
Qed.

Lemma edits_all a b : edits a b (zlen a + zlen b).
Proof.
  induction a as [|x a IH] using rev_ind; [apply edits_from_nil|]. unfold zlen in *. rewrite length_app. cbn [length].
  replace (Z.of_nat (length a + 1) + Z.of_nat (length b)) with (Z.of_nat (length a) + Z.of_nat (length b) + 1) by lia. by constructor.
Qed.

Lemma distance_unique a b n m : distance a b n → distance a b m → n = m.
Proof. intros (E1&H1) (E2&H2). apply H1 in E2. apply H2 in E1. lia. Qed.

Lemma distance_range a b n : distance a b n → 0 ≤ n ≤ zlen a + zlen b.
Proof. intros (E&H). split; [by eapply edits_nonneg|apply H, edits_all]. Qed.

Lemma distance_nil_l b : distance [] b (zlen b).
Proof. split; [apply edits_from_nil|]. intros m Hm%edits_length. unfold zlen in *. cbn in Hm. lia. Qed.

Lemma edits_to_nil a : edits a [] (zlen a).
Proof. pose proof (edits_all a []). by rewrite Z.add_0_r in H. Qed.

Lemma distance_nil_r a : distance a [] (zlen a).
Proof. split; [apply edits_to_nil|]. intros m Hm%edits_length. unfold zlen in *. cbn in Hm. lia. Qed.

(** What the last edit can be. *)
Lemma edits_snoc_inv a x b y n :
  edits (a ++ [x]) (b ++ [y]) n →
  (∃ m, edits a (b ++ [y]) m ∧ n = m + 1) ∨ (∃ m, edits (a ++ [x]) b m ∧ n = m + 1) ∨
  (∃ m, edits a b m ∧ (n = m + 1 ∨ n = m ∧ x = y)) ∨
  (∃ a0 b0 m, a = a0 ++ [y] ∧ b = b0 ++ [x] ∧ edits a0 b0 m ∧ n = m + 1).
Proof.
  intros H. remember (a ++ [x]) as a' eqn:Ea. remember (b ++ [y]) as b' eqn:Eb.
  destruct H as [|z a1 b1 n H|z w a1 b1 n H|z a1 b1 n H|w a1 b1 n H|z w a1 b1 n H].
  - by destruct a.
  - apply app_inj_tail in Ea as [-> ->]. apply app_inj_tail in Eb as [-> ->]. right; right; left. eauto.
  - apply app_inj_tail in Ea as [-> ->]. apply app_inj_tail in Eb as [-> ->]. right; right; left. eauto.
  - apply app_inj_tail in Ea as [-> ->]. subst b1. left. eauto.
  - apply app_inj_tail in Eb as [-> ->]. subst a1. right; left. eauto.
  - rewrite app_assoc in Ea, Eb. apply app_inj_tail in Ea as [<- ->]. apply app_inj_tail in Eb as [<- ->].
    right; right; right. eauto 10.
Qed.

(** The least number of edits of two words from those of their prefixes. *)
Section step.
Context (a b : list Z) (x y up left diag : Z).
Hypothesis Hup : distance a (b ++ [y]) up.
Hypothesis Hleft : distance (a ++ [x]) b left.
Hypothesis Hdiag : distance a b diag.
Definition least_of_three : Z := Z.min (Z.min (up + 1) (left + 1)) (diag + if x =? y then 0 else 1).

Lemma edits_least_of_three : edits (a ++ [x]) (b ++ [y]) least_of_three.
Proof using Hup Hleft Hdiag.
  unfold least_of_three. destruct Hup as (Eu&_), Hleft as (El&_), Hdiag as (Ed&_).
  destruct (Z.min_spec (up + 1) (left + 1)) as [(_&->)|(_&->)];
    match goal with |- context [Z.min ?p ?q] => destruct (Z.min_spec p q) as [(_&->)|(_&->)] end; try by constructor.
  all: destruct (Z.eqb_spec x y) as [->|]; [rewrite Z.add_0_r|]; by constructor.
Qed.

Lemma distance_step_plain :
  (∀ a0 b0, a = a0 ++ [y] → b = b0 ++ [x] → False) → distance (a ++ [x]) (b ++ [y]) least_of_three.
Proof using Hup Hleft Hdiag.
  intros Hno. split; [apply edits_least_of_three|]. unfold least_of_three.
  destruct Hup as (_&Mu), Hleft as (_&Ml), Hdiag as (_&Md).
  intros m [(n&H%Mu&->)|[(n&H%Ml&->)|[(n&H%Md&[-> | [-> ->]])|(a0&b0&n&Ea&Eb&_)]]]%edits_snoc_inv; [lia|lia| | |by exfalso; eauto].
  - destruct (x =? y); lia.
  - rewrite Z.eqb_refl. lia.
Qed.

Lemma distance_step_swap a0 b0 t :
  a = a0 ++ [y] → b = b0 ++ [x] → distance a0 b0 t → distance (a ++ [x]) (b ++ [y]) (Z.min least_of_three (t + 1)).
Proof using Hup Hleft Hdiag.
  intros Ea Eb (Et&Mt). split.
  - destruct (Z.min_spec least_of_three (t + 1)) as [(_&->)|(_&->)]; [apply edits_least_of_three|].
    subst a b. rewrite <- !app_assoc. by constructor.
  - unfold least_of_three. destruct Hup as (_&Mu), Hleft as (_&Ml), Hdiag as (_&Md).
    intros m [(n&H%Mu&->)|[(n&H%Ml&->)|[(n&H%Md&[-> | [-> ->]])|(a1&b1&n&Ea1&Eb1&H&->)]]]%edits_snoc_inv; [lia|lia| | |].
    + destruct (x =? y); lia.
    + rewrite Z.eqb_refl. lia.
    + rewrite Ea in Ea1. rewrite Eb in Eb1. apply app_inj_tail in Ea1 as [<- _]. apply app_inj_tail in Eb1 as [<- _]. apply Mt in H. lia.
Qed.
End step.

(** ** The table *)

(** A loop keeps an invariant of its index. *)
Lemma for_each_inv (Inv : nat → table → Prop) f s n d :
  Inv s d → (∀ i d, (s ≤ i < s + n)%nat → Inv i d → ∃ d', f i d = Some d' ∧ Inv (S i) d') →
  ∃ d', for_each (seq s n) f d = Some d' ∧ Inv (s + n)%nat d'.
Proof.
  revert s d. induction n as [|n IH]; intros s d Hd Hf; cbn [seq for_each].
  - exists d. by rewrite Nat.add_0_r.
  - destruct (Hf s d) as (d1&E1&H1); [lia|done|]. rewrite E1. cbn [mbind option_bind].
    destruct (IH (S s) d1 H1) as (d2&E2&H2); [intros i d' Hi; apply Hf; lia|]. exists d2. split; [done|].
    by rewrite Nat.add_succ_r.
Qed.

(** The cells of [P] hold the distances of the prefixes. *)
Definition filled (a b : list Z) (P : nat → nat → Prop) (d : table) : Prop :=
  ∀ i j, P i j → ∃ n, d !! (i, j) = Some n ∧ distance (take i a) (take j b) n.

(** The cells written when the loops reach [(i, j)]. *)
Definition before (a b : list Z) (i j i' j' : nat) : Prop :=
  (i' ≤ length a)%nat ∧ (j' ≤ length b)%nat ∧ (i' = 0 ∨ j' = 0 ∨ i' < i ∨ i' = i ∧ j' < j)%nat.

Lemma filled_store a b P i j n d :
  filled a b P d → (i < 64)%nat → (j < 64)%nat → distance (take i a) (take j b) n →
  ∃ d', store i j n d = Some d' ∧ filled a b (λ i' j', P i' j' ∨ i' = i ∧ j' = j) d'.
Proof.
  intros Hd Hi Hj Hn. unfold store. destruct (Nat.ltb_spec i 64); [|lia]. destruct (Nat.ltb_spec j 64); [|lia].
  eexists; split; [done|]. intros i' j' H'. destruct (decide ((i', j') = (i, j))) as [[= -> ->]|Hne].
  - exists n. by rewrite lookup_insert_eq.
  - rewrite lookup_insert_ne by done. destruct H' as [H'|(-> & ->)]; [by apply Hd|done].
Qed.

Lemma filled_weaken a b (P Q : nat → nat → Prop) d : filled a b P d → (∀ i j, Q i j → P i j) → filled a b Q d.
Proof. intros Hd HQ i j H. apply Hd. by apply HQ. Qed.

Lemma take_snoc (l : list Z) i x : l !! i = Some x → take (S i) l = take i l ++ [x].
Proof. apply take_S_r. Qed.

(** The end of a prefix. *)
Lemma take_ends (l : list Z) i (p : list Z) y :
  (1 < i ≤ length l)%nat → take (i - 1) l = p ++ [y] → l !! (i - 2)%nat = Some y ∧ p = take (i - 2) l.
Proof.
  intros Hi E. assert (Hlen : length (take (i - 1) l) = S (length p)) by (rewrite E, length_app; cbn; lia).
  rewrite length_take in Hlen. assert (Hl : is_Some (l !! (i - 2)%nat)) by (apply lookup_lt_is_Some; lia).
  destruct Hl as (z&Hz). replace (i - 1)%nat with (S (i - 2)) in E by lia. rewrite (take_snoc _ _ _ Hz) in E.
  apply app_inj_tail in E as [<- ->]. done.
Qed.

Lemma distance_take_range a b i j n :
  (i < 64)%nat → (j < 64)%nat → distance (take i a) (take j b) n → 0 ≤ n < 2 ^ 31.
Proof. intros Hi Hj H%distance_range. unfold zlen in H. rewrite !length_take in H. lia. Qed.

(** The conditionals of the code take the least of three. *)
Lemma least_of_three_eq x y up left diag :
  0 ≤ up < 2 ^ 31 → 0 ≤ left < 2 ^ 31 → 0 ≤ diag < 2 ^ 31 →
  (let del := u32 (up + 1) in let ins := u32 (left + 1) in
   let sub := u32 (diag + if x =? y then 0 else 1) in
   let best := if del <? ins then del else ins in
   if sub <? best then sub else best) = least_of_three x y up left diag.
Proof.
  intros. unfold least_of_three. cbv zeta. rewrite !u32_small by (try destruct (x =? y); lia).
  destruct (Z.ltb_spec (up + 1) (left + 1)); match goal with |- context [?p <? ?q] => destruct (Z.ltb_spec p q) end; lia.
Qed.

(** A transposition considers the prefixes before the two last characters. *)
Lemma transposition_correct a b i j d x y best :
  (0 < i ≤ length a)%nat → (0 < j ≤ length b)%nat → (length a < 64)%nat → (length b < 64)%nat →
  filled a b (before a b i j) d →
  let a' := take (i - 1) a in let b' := take (j - 1) b in
  ((∀ a0 b0, a' = a0 ++ [y] → b' = b0 ++ [x] → False) → distance (a' ++ [x]) (b' ++ [y]) best) →
  (∀ a0 b0 t, a' = a0 ++ [y] → b' = b0 ++ [x] → distance a0 b0 t → distance (a' ++ [x]) (b' ++ [y]) (Z.min best (t + 1))) →
  ∃ n, transposition a b i j d x y best = Some n ∧ distance (a' ++ [x]) (b' ++ [y]) n.
Proof.
  intros Hi Hj Ha Hb Hd a' b' Hplain Hswap. unfold transposition.
  destruct (Nat.ltb_spec 1 i) as [Hi1|Hi1]; cbn [andb].
  2: { eexists; split; [done|]. apply Hplain. intros a0 b0 Ea _. subst a'. replace (i - 1)%nat with 0%nat in Ea by lia. by destruct a0. }
  destruct (Nat.ltb_spec 1 j) as [Hj1|Hj1]; cbn [andb].
  2: { eexists; split; [done|]. apply Hplain. intros a0 b0 _ Eb. subst b'. replace (j - 1)%nat with 0%nat in Eb by lia. by destruct b0. }
  destruct (lookup_lt_is_Some_2 a (i - 2)) as (x2&Ex2); [lia|]. destruct (lookup_lt_is_Some_2 b (j - 2)) as (y2&Ey2); [lia|].
  rewrite Ex2, Ey2. cbn [mbind option_bind].
  destruct ((x =? y2) && (x2 =? y)) eqn:Esw.
  - apply andb_prop in Esw as (->%Z.eqb_eq & ->%Z.eqb_eq).
    destruct (Hd (i - 2)%nat (j - 2)%nat ltac:(unfold before; lia)) as (t&Et&Ht). rewrite Et. cbn [mbind option_bind].
    pose proof (distance_take_range a b (i - 2) (j - 2) t ltac:(lia) ltac:(lia) Ht) as Hr. rewrite u32_small by lia. cbv zeta.
    eexists; split; [done|]. assert (Em : (if t + 1 <? best then t + 1 else best) = Z.min best (t + 1))
      by (destruct (Z.ltb_spec (t + 1) best); lia).
    rewrite Em. eapply Hswap; [| |exact Ht]; subst a' b'.
    + rewrite <- (take_snoc _ _ _ Ex2). f_equal. lia.
    + rewrite <- (take_snoc _ _ _ Ey2). f_equal. lia.
  - eexists; split; [done|]. apply Hplain. intros a0 b0 E1 E2. apply take_ends in E1 as (E1&_); [|lia]. apply take_ends in E2 as (E2&_); [|lia].
    rewrite Ex2 in E1. rewrite Ey2 in E2. injection E1 as ->. injection E2 as ->. by rewrite !Z.eqb_refl in Esw.
Qed.

Lemma levenshtein_cell_correct a b i j d :
  (0 < i ≤ length a)%nat → (0 < j ≤ length b)%nat → (length a < 64)%nat → (length b < 64)%nat →
  filled a b (before a b i j) d →
  ∃ d', levenshtein_cell a b i j d = Some d' ∧ filled a b (before a b i (S j)) d'.
Proof.
  intros Hi Hj Ha Hb Hd. unfold levenshtein_cell.
  destruct (lookup_lt_is_Some_2 a (i - 1)) as (x&Ex); [lia|]. destruct (lookup_lt_is_Some_2 b (j - 1)) as (y&Ey); [lia|].
  rewrite Ex, Ey. cbn [mbind option_bind].
  destruct (Hd (i - 1)%nat j ltac:(unfold before; lia)) as (up&Eup&Hup).
  destruct (Hd i (j - 1)%nat ltac:(unfold before; lia)) as (left&Eleft&Hleft).
  destruct (Hd (i - 1)%nat (j - 1)%nat ltac:(unfold before; lia)) as (diag&Ediag&Hdiag).
  rewrite Eup, Eleft, Ediag. cbn [mbind option_bind]. cbv zeta.
  pose proof (least_of_three_eq x y up left diag) as Hbest. cbv zeta in Hbest.
  rewrite Hbest by (eapply distance_take_range; [..|eassumption]; lia). clear Hbest.
  assert (Hti : take i a = take (i - 1) a ++ [x]) by (rewrite <- (take_snoc _ _ _ Ex); f_equal; lia).
  assert (Htj : take j b = take (j - 1) b ++ [y]) by (rewrite <- (take_snoc _ _ _ Ey); f_equal; lia).
  rewrite Htj in Hup. rewrite Hti in Hleft.
  destruct (transposition_correct a b i j d x y (least_of_three x y up left diag)) as (n&->&Hn); try done.
  { by apply distance_step_plain. }
  { intros a0 b0 t. by apply distance_step_swap. }
  rewrite <- Hti, <- Htj in Hn. cbn [mbind option_bind].
  destruct (filled_store a b _ i j n d Hd ltac:(lia) ltac:(lia) Hn) as (d'&->&Hd'). exists d'. split; [done|].
  apply (filled_weaken _ _ _ _ _ Hd'). unfold before. lia.
Qed.

(** The loops fill the whole table. *)
Lemma levenshtein_table a b :
  (length a < 64)%nat → (length b < 64)%nat →
  ∃ d1 d2 d3, for_each (seq 0 (S (length a))) (λ i, store i 0 (u32 (Z.of_nat i))) ∅ = Some d1 ∧
    for_each (seq 0 (S (length b))) (λ j, store 0 j (u32 (Z.of_nat j))) d1 = Some d2 ∧
    for_each (seq 1 (length a)) (λ i, for_each (seq 1 (length b)) (levenshtein_cell a b i)) d2 = Some d3 ∧
    ∃ n, d3 !! (length a, length b) = Some n ∧ distance a b n.
Proof.
  intros Ha Hb.
  destruct (for_each_inv (λ i, filled a b (λ i' j', i' < i ∧ j' = 0)%nat) (λ i, store i 0 (u32 (Z.of_nat i))) 0 (S (length a)) ∅)
    as (d1&E1&H1); [intros i' j'; lia| |].
  { intros i d Hi Hd. assert (Hn : distance (take i a) (take 0 b) (u32 (Z.of_nat i))).
    { rewrite u32_small by lia. replace (Z.of_nat i) with (zlen (take i a)) by (unfold zlen; rewrite length_take; lia). apply distance_nil_r. }
    destruct (filled_store a b _ i 0 _ d Hd ltac:(lia) ltac:(lia) Hn) as (d'&E&Hd'). exists d'. split; [done|].
    apply (filled_weaken _ _ _ _ _ Hd'). lia. }
  destruct (for_each_inv (λ j, filled a b (λ i' j', i' ≤ length a ∧ (j' = 0 ∨ i' = 0 ∧ j' < j))%nat) (λ j, store 0 j (u32 (Z.of_nat j))) 0 (S (length b)) d1)
    as (d2&E2&H2); [apply (filled_weaken _ _ _ _ _ H1); lia| |].
  { intros j d Hj Hd. assert (Hn : distance (take 0 a) (take j b) (u32 (Z.of_nat j))).
    { rewrite u32_small by lia. replace (Z.of_nat j) with (zlen (take j b)) by (unfold zlen; rewrite length_take; lia). apply distance_nil_l. }
    destruct (filled_store a b _ 0 j _ d Hd ltac:(lia) ltac:(lia) Hn) as (d'&E&Hd'). exists d'. split; [done|].
    apply (filled_weaken _ _ _ _ _ Hd'). lia. }
  destruct (for_each_inv (λ i, filled a b (before a b i 1)) (λ i, for_each (seq 1 (length b)) (levenshtein_cell a b i)) 1 (length a) d2)
    as (d3&E3&H3); [apply (filled_weaken _ _ _ _ _ H2); unfold before; lia| |].
  { intros i d Hi Hd. destruct (for_each_inv (λ j, filled a b (before a b i j)) (levenshtein_cell a b i) 1 (length b) d) as (d'&E&Hd'); [done| |].
    - intros j d' Hj. apply levenshtein_cell_correct; lia.
    - exists d'. split; [done|]. apply (filled_weaken _ _ _ _ _ Hd'). unfold before. lia. }
  exists d1, d2, d3. split_and!; [done..|].
  destruct (H3 (length a) (length b) ltac:(unfold before; lia)) as (n&En&Hn). exists n. split; [done|]. by rewrite !firstn_all in Hn.
Qed.

Lemma distance_exists a b : ∃ n, distance a b n.
Proof.
  remember (length a + length b)%nat as k eqn:Ek. revert a b Ek. induction (lt_wf k) as [k _ IH]. intros a b ->.
  destruct a as [|x a _] using rev_ind; [eauto using distance_nil_l|].
  destruct b as [|y b _] using rev_ind; [eauto using distance_nil_r|]. rewrite !length_app in IH. cbn [length] in IH.
  destruct (IH (length a + length (b ++ [y]))%nat ltac:(rewrite length_app; cbn; lia) a (b ++ [y]) eq_refl) as (up&Hup).
  destruct (IH (length (a ++ [x]) + length b)%nat ltac:(rewrite length_app; cbn; lia) (a ++ [x]) b eq_refl) as (left&Hleft).
  destruct (IH (length a + length b)%nat ltac:(lia) a b eq_refl) as (diag&Hdiag).
  destruct (decide (last a = Some y ∧ last b = Some x)) as [((a0&Ea)%last_Some&(b0&Eb)%last_Some)|Hno].
  - destruct (IH (length a0 + length b0)%nat ltac:(subst a b; rewrite !length_app; cbn; lia) a0 b0 eq_refl) as (t&Ht).
    eexists. by eapply distance_step_swap.
  - eexists. eapply distance_step_plain; [done..|]. intros a0 b0 -> ->. apply Hno. by rewrite !last_snoc.
Qed.

Definition small (a b : list Z) : bool := at_end a || at_end b || (zlen a <=? 63) && (zlen b <=? 63).

(** The bound on the distance cuts off what is above it. *)
Lemma levenshtein_value a b max_dist n :
  zlen a < 2 ^ 32 → zlen b < 2 ^ 32 → 0 ≤ max_dist < 2 ^ 32 - 1 → distance a b n →
  bebop_util_levenshtein a b max_dist =
    Some (if at_end a || at_end b then n else if small a b then Z.min n (max_dist + 1) else max_dist + 1).
Proof.
  intros Ha Hb Hmax Hn. unfold bebop_util_levenshtein, small.
  destruct a as [|x a'] eqn:Ea.
  { cbn. rewrite u32_small by (unfold zlen in *; lia). f_equal. by apply (distance_unique [] b); [apply distance_nil_l|]. }
  destruct b as [|y b'] eqn:Eb.
  { rewrite <- Ea in *. destruct (Z.eqb_spec (zlen a) 0) as [E|_]; [by rewrite Ea in E|].
    change (zlen (@nil Z) =? 0) with true. change (at_end []) with true. rewrite orb_true_r. cbn [orb]. f_equal.
    rewrite u32_small by (unfold zlen in *; lia). apply (distance_unique a []); [apply distance_nil_r|done]. }
  cbn [at_end orb]. rewrite <- Ea, <- Eb in *. assert (Hza : 0 < zlen a) by (rewrite Ea; unfold zlen; cbn; lia).
  assert (Hzb : 0 < zlen b) by (rewrite Eb; unfold zlen; cbn; lia). clear x a' Ea y b' Eb.
  destruct (Z.eqb_spec (zlen a) 0); [lia|]. destruct (Z.eqb_spec (zlen b) 0); [lia|]. rewrite (u32_small (max_dist + 1)) by lia.
  assert (Hd : (if zlen b <? zlen a then zlen a - zlen b else zlen b - zlen a) ≤ n).
  { destruct Hn as (H%edits_length&_). destruct (Z.ltb_spec (zlen b) (zlen a)); lia. }
  destruct (Z.ltb_spec max_dist (if zlen b <? zlen a then zlen a - zlen b else zlen b - zlen a)) as [Hgt|_].
  { rewrite Z.min_r by lia. by destruct (_ && _). }
  destruct (Z.ltb_spec 64 (zlen a + 1)), (Z.leb_spec (zlen a) 63), (Z.ltb_spec 64 (zlen b + 1)), (Z.leb_spec (zlen b) 63); try lia; cbn [orb andb]; try done.
  destruct (levenshtein_table a b) as (d1&d2&d3&E1&E2&E3&n'&E4&Hn'); [unfold zlen in *; lia..|].
  rewrite E1. cbn [mbind option_bind]. rewrite E2. cbn [mbind option_bind]. rewrite E3. cbn [mbind option_bind]. rewrite E4. cbn [mbind option_bind].
  rewrite (distance_unique _ _ _ _ Hn' Hn). destruct (Z.ltb_spec max_dist n); f_equal; lia.
Qed.

(** C34: the edit distance. Two words have a least number of substitutions, deletions,
    insertions and exchanges of neighbours that turn one into the other, each character
    taking part in one edit, and the table of partial distances computes it, cut off above
    the bound: every cell is written before it is read, none lies outside of the array, and
    words of more than 63 characters count as too far apart. *)
Theorem levenshtein_exact a b max_dist :
  zlen a < 2 ^ 32 → zlen b < 2 ^ 32 → 0 ≤ max_dist < 2 ^ 32 - 1 →
  ∃ n, distance a b n ∧
    bebop_util_levenshtein a b max_dist =
      Some (if at_end a || at_end b then n else if small a b then Z.min n (max_dist + 1) else max_dist + 1).
Proof.
  intros Ha Hb Hmax. destruct (distance_exists a b) as (n&Hn). exists n. split; [done|]. by apply levenshtein_value.
Qed.

(** "stirng" is one exchange away from "string". *)
Lemma levenshtein_exact_witness :
  ∃ n, distance [115; 116; 105; 114; 110; 103] [115; 116; 114; 105; 110; 103] n ∧ n = 1.
Proof.
  destruct (levenshtein_exact [115; 116; 105; 114; 110; 103] [115; 116; 114; 105; 110; 103] 3) as (n&Hn&E); [done..|].
  exists n. split; [exact Hn|].
  assert (E1 : bebop_util_levenshtein [115; 116; 105; 114; 110; 103] [115; 116; 114; 105; 110; 103] 3 = Some 1) by (vm_compute; reflexivity).
  rewrite E1 in E. change (Some 1 = Some (Z.min n 4)) in E. injection E as E. lia.
Defined.

(** ** The nearest candidate *)

(** A candidate within the bound: the distance, when the function computes it. *)
Definition offered (input c : list Z) (max_distance n : Z) : Prop :=
  small input c = true ∧ distance input c n ∧ n ≤ max_distance.

(** The best of the candidates: an offered one, the first of the least distance. *)
Definition nearest (input : list Z) (candidates : list (option (list Z))) (max_distance : Z) (best : option (nat * Z)) : Prop :=
  match best with
  | Some (k, n) =>
      ∃ c, candidates !! k = Some (Some c) ∧ offered input c max_distance n ∧
        ∀ k' c' n', candidates !! k' = Some (Some c') → offered input c' max_distance n' → n < n' ∨ n = n' ∧ (k ≤ k')%nat
  | None => ∀ k' c' n', candidates !! k' = Some (Some c') → ¬ offered input c' max_distance n'
  end.

Lemma nearest_skip input cs max_distance best :
  nearest input cs max_distance best → nearest input (cs ++ [None]) max_distance best.
Proof.
  assert (Hl : ∀ k c, (cs ++ [None]) !! k = Some (Some c) → cs !! k = Some (Some c)).
  { intros k c [H|(_&H)]%lookup_app_Some; [done|]. by destruct (k - length cs)%nat as [|[]]. }
  destruct best as [[k n]|]; cbn.
  - intros (c&Ec&Ho&Hall). exists c. split_and!; [by apply lookup_app_l_Some|done|]. eauto.
  - eauto.
Qed.

(** The loop's test on one more candidate. *)
Definition bound_of (best : option (nat * Z)) (max_distance : Z) : Z :=
  match best with Some (_, n) => n | None => max_distance + 1 end.

Lemma nearest_snoc input cs c max_distance best n :
  nearest input cs max_distance best → distance input c n →
  nearest input (cs ++ [Some c]) max_distance
    (if small input c && (n <? bound_of best max_distance) then Some (length cs, n) else best).
Proof.
  intros Hb Hn. assert (Hl : ∀ k c', (cs ++ [Some c]) !! k = Some (Some c') → cs !! k = Some (Some c') ∨ k = length cs ∧ c' = c).
  { intros k c' [H|(Hk&H)]%lookup_app_Some; [by left|]. right. destruct (k - length cs)%nat as [|n'] eqn:E; [|by destruct n'].
    injection H as ->. split; [lia|done]. }
  destruct (small input c && (n <? bound_of best max_distance)) eqn:Et.
  - apply andb_prop in Et as (Hs&Hlt%Z.ltb_lt). exists c. split_and!.
    + by rewrite lookup_app_r, Nat.sub_diag by lia.
    + split_and!; [done..|]. destruct best as [[k m]|]; cbn in *; [|lia]. destruct Hb as (c'&_&(_&_&?)&_). lia.
    + intros k' c' n' [H|(->&->)]%Hl Ho.
      * destruct best as [[k m]|]; cbn in *; [|by destruct (Hb _ _ _ H Ho)]. destruct Hb as (_&_&_&Hall). specialize (Hall _ _ _ H Ho). lia.
      * destruct Ho as (_&Hn'&_). right. split; [by eapply distance_unique|done].
  - assert (Hnot : ∀ n', offered input c max_distance n' → bound_of best max_distance ≤ n').
    { intros n' (Hs&Hn'&Hle). rewrite Hs in Et. rewrite (distance_unique _ _ _ _ Hn' Hn). apply Z.ltb_ge in Et. lia. }
    destruct best as [[k m]|]; cbn in *.
    + destruct Hb as (c0&Ec&Ho&Hall). exists c0. split_and!; [by apply lookup_app_l_Some|done|].
      intros k' c' n' [H|(->&->)]%Hl Ho'; [eauto|]. apply Hnot in Ho'. apply lookup_lt_Some in Ec. lia.
    + intros k' c' n' [H|(->&->)]%Hl Ho'; [by eapply Hb|]. pose proof (Hnot _ Ho'). destruct Ho' as (_&_&?). lia.
Qed.

(** What a call of the distance tells the loop. *)
Lemma fuzzy_test input c bound n :
  zlen input < 2 ^ 32 → zlen c < 2 ^ 32 → 0 < bound < 2 ^ 32 → distance input c n →
  ∃ dist, bebop_util_levenshtein input c (u32 (bound - 1)) = Some dist ∧
    (dist <? bound) = small input c && (n <? bound) ∧ (dist < bound → dist = n).
Proof.
  intros Hi Hc Hb Hn. rewrite u32_small by lia. rewrite (levenshtein_value _ _ _ n) by (done || lia).
  eexists; split; [done|]. unfold small. destruct (at_end input || at_end c); [by destruct (n <? bound)|]. cbn [orb].
  destruct (_ && _); replace (bound - 1 + 1) with bound by lia; cbn [andb].
  - split; [|lia]. destruct (Z.ltb_spec (n `min` bound) bound), (Z.ltb_spec n bound); lia || done.
  - split; [|lia]. by rewrite Z.ltb_irrefl.
Qed.

Lemma fuzzy_loop_correct input cs : ∀ seen best max_distance,
  zlen input < 2 ^ 32 → Forall (λ c, match c with Some c => zlen c < 2 ^ 32 | None => True end) cs →
  0 ≤ max_distance < 2 ^ 32 - 1 → nearest input seen max_distance best → 0 < bound_of best max_distance →
  ∃ best', fuzzy_loop input cs (length seen) (fst <$> best) (bound_of best max_distance) = Some (fst <$> best') ∧
    nearest input (seen ++ cs) max_distance best'.
Proof.
  induction cs as [|[c|] cs IH]; intros seen best max_distance Hi Hcs Hmax Hbest Hpos; cbn [fuzzy_loop].
  - exists best. by rewrite app_nil_r.
  - apply Forall_cons in Hcs as (Hc&Hcs). destruct (distance_exists input c) as (n&Hn).
    assert (Hbound : bound_of best max_distance < 2 ^ 32).
    { destruct best as [[k m]|]; cbn in *; [|lia]. destruct Hbest as (?&_&(_&_&?)&_). lia. }
    destruct (fuzzy_test input c (bound_of best max_distance) n) as (dist&E&Etest&Edist); [done..|]. rewrite E. cbn [mbind option_bind].
    pose proof (nearest_snoc input seen c max_distance best n Hbest Hn) as Hnext. rewrite <- Etest in Hnext.
    replace (seen ++ Some c :: cs) with ((seen ++ [Some c]) ++ cs) by by rewrite <- app_assoc.
    destruct (Z.ltb_spec dist (bound_of best max_distance)) as [Hlt|Hge].
    + specialize (Edist Hlt). subst dist. pose proof (distance_range _ _ _ Hn) as (Hn0&_).
      destruct (Z.eqb_spec n 0) as [->|Hn1].
      * exists (Some (length seen, 0)). split; [done|]. destruct Hnext as (c'&Ec&Ho&Hall). exists c'. split_and!; [by apply lookup_app_l_Some|done|].
        intros k' c'' n' Hk Ho'. destruct (decide (k' < length (seen ++ [Some c]))%nat) as [Hlt'|Hge'].
        -- rewrite lookup_app_l in Hk by done. eauto.
        -- rewrite length_app in Hge'. destruct Ho' as (_&(Hnn%edits_nonneg&_)&_). cbn in Hge'. lia.
      * destruct (IH (seen ++ [Some c]) (Some (length seen, n)) max_distance) as (best'&E'&Hb'); [done..|cbn; lia|].
        exists best'. split; [|done]. rewrite length_app, Nat.add_1_r in E'. exact E'.
    + destruct (IH (seen ++ [Some c]) best max_distance) as (best'&E'&Hb'); [done..|].
      exists best'. split; [|done]. rewrite length_app, Nat.add_1_r in E'. exact E'.
  - apply Forall_cons in Hcs as (_&Hcs).
    destruct (IH (seen ++ [None]) best max_distance) as (best'&E'&Hb'); [done..|by apply nearest_skip|done|].
    exists best'. replace (seen ++ None :: cs) with ((seen ++ [None]) ++ cs) by by rewrite <- app_assoc.
    split; [|done]. rewrite length_app, Nat.add_1_r in E'. exact E'.
Qed.

(** The search for a name close to another returns, whatever the candidates. *)
Lemma levenshtein_defined a b bound : 0 < bound < 2 ^ 32 →
  ∃ dist, bebop_util_levenshtein a b (u32 (bound - 1)) = Some dist ∧ 0 ≤ dist.
Proof.
  intros Hb. destruct (decide (zlen a < 2 ^ 32 ∧ zlen b < 2 ^ 32)) as [(Hla&Hlb)|Hlong].
  - destruct (distance_exists a b) as (n&Hn). pose proof (distance_range _ _ _ Hn) as (Hn0&_).
    destruct (fuzzy_test a b bound n) as (dist&E&_&Hd); [done..|]. exists dist. split; [done|]. destruct (decide (dist < bound)); [by rewrite Hd|lia].
  - unfold bebop_util_levenshtein. pose proof (zlen_nonneg a). pose proof (zlen_nonneg b).
    repeat match goal with |- context [if ?c then _ else _] => destruct c eqn:? end; try (eexists; split; [done|apply u32_nonneg]); lia.
Qed.
Lemma fuzzy_loop_defined input cs : ∀ i best bound, 0 < bound < 2 ^ 32 → is_Some (fuzzy_loop input cs i best bound).
Proof.
  induction cs as [|[c|] cs IH]; intros i best bound Hb; cbn [fuzzy_loop]; [by eexists| |by apply IH].
  destruct (levenshtein_defined input c bound Hb) as (dist&->&Hd). cbn [mbind option_bind].
  destruct (Z.ltb_spec dist bound); [|by apply IH]. destruct (Z.eqb_spec dist 0); [by eexists|apply IH; lia].
Qed.
Lemma fuzzy_defined input cs : is_Some (bebop_util_fuzzy_match input cs 3).
Proof. unfold bebop_util_fuzzy_match. case_match; [by eexists|]. by apply fuzzy_loop_defined. Qed.

(** The nearest name. The search returns, and what it returns is a candidate whose
    distance from the input is within the bound and least among the candidates the distance
    function computes, the first of them; it returns nothing only when none is within the
    bound. The narrowing bound and the early end do not change the choice. *)
Theorem fuzzy_match_nearest input candidates max_distance :
  input ≠ [] → zlen input < 2 ^ 32 → 0 ≤ max_distance < 2 ^ 32 - 1 →
  Forall (λ c, match c with Some c => zlen c < 2 ^ 32 | None => True end) candidates →
  ∃ best, bebop_util_fuzzy_match input candidates max_distance = Some (fst <$> best) ∧
    nearest input candidates max_distance best.
Proof.
  intros Hne Hi Hmax Hcs. unfold bebop_util_fuzzy_match. replace (at_end input) with false by by destruct input. cbn [orb].
  destruct candidates as [|c cs] eqn:Ecs; [by exists None|]. rewrite <- Ecs in *. clear c cs Ecs. rewrite u32_small by lia.
  apply (fuzzy_loop_correct input candidates [] None max_distance); [done..|cbn; lia].
Qed.

(** "strng" among "int", "string" and "sting", within two edits: "string". *)
Lemma fuzzy_match_witness :
  let input := [115; 116; 114; 110; 103] in
  let candidates := [Some [105; 110; 116]; None; Some [115; 116; 114; 105; 110; 103]; Some [115; 116; 105; 110; 103]] in
  ∃ best, Some (Some 2%nat) = Some (fst <$> best) ∧ nearest input candidates 2 best.
Proof.
  intros input candidates. destruct (fuzzy_match_nearest input candidates 2) as (best&E&H); [done|done|done| |].
  - repeat constructor.
  - exists best. split; [|exact H]. rewrite <- E. vm_compute. reflexivity.
Defined.
