(* ===== verification/Schema.v ===== *)
(** The data of a parsed schema ([bebop/src/bebop.c]) as far as semantic analysis uses it,
    and the sizes of types on the wire.

    Definitions and schemas are shared objects that point to each other.  They live in two
    stores, lists of records; a pointer is an index.  The text of diagnostics is left out:
    a diagnostic has its severity, code, span and labelled spans. *)
From stdpp Require Import list gmap.
From Stdlib Require Import SpecFloat.
From S2P Require Import Prelude.
From S2P Require Import Scanner.

(** ** Kinds *)

Inductive bebop_type_kind_t : Type :=
  | BEBOP_TYPE_UNKNOWN | BEBOP_TYPE_BOOL | BEBOP_TYPE_BYTE | BEBOP_TYPE_INT8 | BEBOP_TYPE_INT16 | BEBOP_TYPE_UINT16
  | BEBOP_TYPE_INT32 | BEBOP_TYPE_UINT32 | BEBOP_TYPE_INT64 | BEBOP_TYPE_UINT64 | BEBOP_TYPE_INT128 | BEBOP_TYPE_UINT128
  | BEBOP_TYPE_FLOAT16 | BEBOP_TYPE_FLOAT32 | BEBOP_TYPE_FLOAT64 | BEBOP_TYPE_BFLOAT16 | BEBOP_TYPE_STRING
  | BEBOP_TYPE_UUID | BEBOP_TYPE_TIMESTAMP | BEBOP_TYPE_DURATION | BEBOP_TYPE_ARRAY | BEBOP_TYPE_FIXED_ARRAY
  | BEBOP_TYPE_MAP | BEBOP_TYPE_DEFINED.
#[export] Instance type_kind_eq : EqDecision bebop_type_kind_t.
Proof. solve_decision. Defined.

Inductive bebop_def_kind_t : Type :=
  | BEBOP_DEF_UNKNOWN | BEBOP_DEF_ENUM | BEBOP_DEF_STRUCT | BEBOP_DEF_MESSAGE | BEBOP_DEF_UNION | BEBOP_DEF_SERVICE
  | BEBOP_DEF_CONST | BEBOP_DEF_DECORATOR.
#[export] Instance def_kind_eq : EqDecision bebop_def_kind_t.
Proof. solve_decision. Defined.

Inductive bebop_visibility_t : Type := BEBOP_VIS_DEFAULT | BEBOP_VIS_EXPORT | BEBOP_VIS_LOCAL.
#[export] Instance visibility_eq : EqDecision bebop_visibility_t.
Proof. solve_decision. Defined.

(** ** Types and definitions *)

Definition BEBOP_MAX_TYPE_DEPTH : Z := 64.
Definition BEBOP_DIAG_INVALID_FIELD : Z := 103.

Abbreviation def_ptr := nat (only parsing).
Abbreviation schema_ptr := nat (only parsing).

(** A handle of the string pool; 0 is the null string. *)
Definition bebop_str_is_null (s : Z) : bool := s =? 0.
Definition bebop_str_eq (a b : Z) : bool := a =? b.

(** A pointer to a type, a tree: [TNull] is the null pointer. *)
Inductive bebop_type_t : Type :=
  | TNull
  | TScalar (kind : bebop_type_kind_t)
  | TArray (element : bebop_type_t)
  | TFixedArray (element : bebop_type_t) (size : Z)
  | TMap (key value : bebop_type_t)
  | TDefined (name : Z) (resolved : option def_ptr).

Definition type_kind (t : bebop_type_t) : bebop_type_kind_t :=
  match t with
  | TNull => BEBOP_TYPE_UNKNOWN
  | TScalar kind => kind
  | TArray _ => BEBOP_TYPE_ARRAY
  | TFixedArray _ _ => BEBOP_TYPE_FIXED_ARRAY
  | TMap _ _ => BEBOP_TYPE_MAP
  | TDefined _ _ => BEBOP_TYPE_DEFINED
  end.

(** The value of a literal; its constructor is the kind. A double is a [spec_float] of 53 bits
    of precision. *)
Inductive literal_value : Type :=
  | LitBool (b : bool)
  | LitInt (i : Z)
  | LitFloat (f : spec_float)
  | LitString (s : Z)
  | LitUuid (bytes : list Z)
  | LitTimestamp (seconds nanos offset_ms : Z)
  | LitDuration (seconds nanos : Z)
  | LitBytes (data : list Z).
Record bebop_literal_t : Type := mkLiteral {
  lt_span : bebop_span_t; lt_has_env_var : bool; lt_raw_value : Z; lt_value : literal_value
}.

(** What points back from a part to the definition it belongs to is left out. *)
Record bebop_decorator_arg_t : Type := mkArg { da_name : Z; da_span : bebop_span_t; da_value : bebop_literal_t }.
Record bebop_decorator_t : Type := mkDecorator {
  dc_name : Z; dc_span : bebop_span_t; dc_args : list bebop_decorator_arg_t; dc_resolved : option def_ptr
}.
Record bebop_field_t : Type := mkField {
  fd_name : Z; fd_span : bebop_span_t; fd_name_span : bebop_span_t; fd_documentation : Z;
  fd_type : bebop_type_t; fd_index : Z; fd_decorators : list bebop_decorator_t
}.
Record bebop_enum_member_t : Type := mkMember {
  em_name : Z; em_span : bebop_span_t; em_name_span : bebop_span_t; em_value_span : bebop_span_t; em_value_expr : Z;
  em_documentation : Z; em_value : Z; em_decorators : list bebop_decorator_t
}.
Record bebop_union_branch_t : Type := mkBranch {
  br_discriminator : Z; br_span : bebop_span_t; br_name : Z; br_name_span : bebop_span_t; br_documentation : Z;
  br_def : option def_ptr; br_type_ref : bebop_type_t; br_decorators : list bebop_decorator_t
}.
Inductive bebop_method_type_t : Set :=
  BEBOP_METHOD_UNARY | BEBOP_METHOD_SERVER_STREAM | BEBOP_METHOD_CLIENT_STREAM | BEBOP_METHOD_DUPLEX_STREAM.
Record bebop_method_t : Type := mkMethod {
  me_name : Z; me_span : bebop_span_t; me_name_span : bebop_span_t; me_documentation : Z;
  me_request_type : bebop_type_t; me_response_type : bebop_type_t; me_method_type : bebop_method_type_t; me_id : Z;
  me_decorators : list bebop_decorator_t
}.
Record bebop_macro_param_def_t : Type := mkMacroParam {
  mp_name : Z; mp_description : Z; mp_type : bebop_type_kind_t; mp_required : bool;
  mp_default_value : option bebop_literal_t; mp_allowed_values : list bebop_literal_t; mp_span : bebop_span_t
}.
(** What a decorator may stand before. *)
Definition BEBOP_TARGET_NONE : Z := 0.
Definition BEBOP_TARGET_ENUM : Z := Z.shiftl 1 0.
Definition BEBOP_TARGET_STRUCT : Z := Z.shiftl 1 1.
Definition BEBOP_TARGET_MESSAGE : Z := Z.shiftl 1 2.
Definition BEBOP_TARGET_UNION : Z := Z.shiftl 1 3.
Definition BEBOP_TARGET_FIELD : Z := Z.shiftl 1 4.
Definition BEBOP_TARGET_SERVICE : Z := Z.shiftl 1 5.
Definition BEBOP_TARGET_METHOD : Z := Z.shiftl 1 6.
Definition BEBOP_TARGET_BRANCH : Z := Z.shiftl 1 7.
Definition BEBOP_TARGET_ALL : Z := 0xFF.

(** A decorator: what it may stand before (a mask), and its blocks of Lua. *)
Record decorator_def_t : Type := mkDecoratorDef {
  dd_targets : Z; dd_allow_multiple : bool; dd_params : list bebop_macro_param_def_t;
  dd_validate_span : bebop_span_t; dd_export_span : bebop_span_t; dd_validate_level : Z; dd_export_level : Z
}.

(** The same parts with other types, and parts that have nothing but their types. *)
Definition set_field_type (t : bebop_type_t) (f : bebop_field_t) : bebop_field_t :=
  mkField (fd_name f) (fd_span f) (fd_name_span f) (fd_documentation f) t (fd_index f) (fd_decorators f).
Definition set_method_types (request response : bebop_type_t) (m : bebop_method_t) : bebop_method_t :=
  mkMethod (me_name m) (me_span m) (me_name_span m) (me_documentation m) request response (me_method_type m) (me_id m) (me_decorators m).
Definition set_branch_type (t : bebop_type_t) (b : bebop_union_branch_t) : bebop_union_branch_t :=
  mkBranch (br_discriminator b) (br_span b) (br_name b) (br_name_span b) (br_documentation b) (br_def b) t (br_decorators b).
Definition plain_field (t : bebop_type_t) : bebop_field_t := mkField 0 no_span no_span 0 t 0 [].
Definition plain_branch (def : option def_ptr) : bebop_union_branch_t := mkBranch 1 no_span 0 no_span 0 def TNull [].
Definition plain_method (name : Z) : bebop_method_t := mkMethod name no_span no_span 0 TNull TNull BEBOP_METHOD_UNARY 0 [].
Definition plain_member (name value : Z) : bebop_enum_member_t := mkMember name no_span no_span no_span 0 0 value [].
Definition plain_decorator (name : Z) (resolved : option def_ptr) : bebop_decorator_t := mkDecorator name no_span [] resolved.

Inductive def_body : Type :=
  | UnknownDef
  | EnumDef (base_type : bebop_type_kind_t) (members : list bebop_enum_member_t)
  | StructDef (fields : list bebop_field_t) (is_mutable : bool) (fixed_size : Z)
  | MessageDef (fields : list bebop_field_t)
  | UnionDef (branches : list bebop_union_branch_t)
  | ServiceDef (methods : list bebop_method_t) (mixins : list bebop_type_t)
  | ConstDef (type : bebop_type_t) (value : bebop_literal_t)
  | DecoratorDef (decorator_def : decorator_def_t).

Record bebop_def_t : Type := mkDef {
  df_name : Z;
  df_fqn : Z;
  df_span : bebop_span_t;
  df_name_span : bebop_span_t;
  df_documentation : Z;
  df_decorators : list bebop_decorator_t;
  df_schema : option schema_ptr;
  df_parent : option def_ptr;
  df_visibility : bebop_visibility_t;
  df_nested_defs : list def_ptr;
  df_dependents : list def_ptr;
  df_dependents_capacity : Z;
  df_body : def_body
}.

Definition def_kind (d : bebop_def_t) : bebop_def_kind_t :=
  match df_body d with
  | UnknownDef => BEBOP_DEF_UNKNOWN
  | EnumDef _ _ => BEBOP_DEF_ENUM
  | StructDef _ _ _ => BEBOP_DEF_STRUCT
  | MessageDef _ => BEBOP_DEF_MESSAGE
  | UnionDef _ => BEBOP_DEF_UNION
  | ServiceDef _ _ => BEBOP_DEF_SERVICE
  | ConstDef _ _ => BEBOP_DEF_CONST
  | DecoratorDef _ => BEBOP_DEF_DECORATOR
  end.

(** A hash map of cwisstable, third-party code that the repository vendors under [vendor/cwisstable]
    and that is not modelled, whose keys are names: a class with the laws of a map. An insertion of
    a name that is present keeps its entry. A map that cannot be made or an insertion without memory
    is [None]: [bebop__cwiss_alloc] ends the process, and nothing behind the call runs. *)
Class DefMap (V : Type) := {
  bebop_defmap : Type;
  bebop_defmap_new : option bebop_defmap;
  bebop_defmap_cfind : bebop_defmap → Z → option V;
  bebop_defmap_insert : bebop_defmap → Z → V → option bebop_defmap;
  bebop_defmap_clear : bebop_defmap → bebop_defmap
}.
Class DefMapOk `{DefMap V} : Prop := {
  defmap_find_new : ∀ m k, bebop_defmap_new = Some m → bebop_defmap_cfind m k = None;
  defmap_find_clear : ∀ m k, bebop_defmap_cfind (bebop_defmap_clear m) k = None;
  defmap_find_insert : ∀ m k v m' k', bebop_defmap_insert m k v = Some m' →
    bebop_defmap_cfind m' k' =
      match bebop_defmap_cfind m k' with Some v' => Some v' | None => if k' =? k then Some v else None end
}.

(** A concrete map. *)
Definition gmap_def_insert {V} (m : gmap Z V) (k : Z) (v : V) : option (gmap Z V) :=
  Some (match m !! k with Some _ => m | None => <[k := v]> m end).
#[export] Instance gmap_defmap {V} : DefMap V := {
  bebop_defmap := gmap Z V;
  bebop_defmap_new := Some ∅;
  bebop_defmap_cfind := λ m k, m !! k;
  bebop_defmap_insert := gmap_def_insert;
  bebop_defmap_clear := λ _, ∅
}.
#[export] Instance gmap_defmap_ok {V} : @DefMapOk V gmap_defmap.
Proof.
  split.
  - intros m k [= <-]. apply lookup_empty.
  - intros m k. apply lookup_empty.
  - intros m k v m' k' Em. cbn in *. injection Em as <-. destruct (Z.eqb_spec k' k) as [Heq|Hne].
    + subst k'. destruct (m !! k) as [v'|] eqn:E; [by rewrite E|apply lookup_insert_eq].
    + destruct (m !! k); [|rewrite lookup_insert_ne by done]; by destruct (m !! k').
Qed.

(** The store of definitions. *)
Abbreviation heap := (list bebop_def_t).

(** ** Sizes on the wire *)

Definition BEBOP_ADD_WOULD_OVERFLOW_U32 (a b : Z) : bool := UINT32_MAX - a <? b.
Definition BEBOP_MUL_WOULD_OVERFLOW_U32 (a b : Z) : bool := negb (b =? 0) && (UINT32_MAX / b <? a).

Definition bebop__scalar_fixed_size (kind : bebop_type_kind_t) : Z :=
  match kind with
  | BEBOP_TYPE_BOOL | BEBOP_TYPE_BYTE | BEBOP_TYPE_INT8 => 1
  | BEBOP_TYPE_INT16 | BEBOP_TYPE_UINT16 => 2
  | BEBOP_TYPE_INT32 | BEBOP_TYPE_UINT32 => 4
  | BEBOP_TYPE_INT64 | BEBOP_TYPE_UINT64 => 8
  | BEBOP_TYPE_INT128 | BEBOP_TYPE_UINT128 => 16
  | BEBOP_TYPE_FLOAT16 => 2
  | BEBOP_TYPE_FLOAT32 => 4
  | BEBOP_TYPE_FLOAT64 => 8
  | BEBOP_TYPE_BFLOAT16 => 2
  | BEBOP_TYPE_UUID => 16
  | BEBOP_TYPE_TIMESTAMP => 16
  | BEBOP_TYPE_DURATION => 12
  | _ => 0
  end.

(** The size a resolved definition contributes, 0 when it is not fixed; nothing for a
    pointer to no definition. *)
Definition def_base_size (h : heap) (p : def_ptr) : option Z :=
  d ← h !! p;
  Some (match df_body d with
        | EnumDef base_type _ => bebop__scalar_fixed_size base_type
        | StructDef _ _ fixed_size => fixed_size
        | _ => 0
        end).

(** The loop over nested fixed arrays with the product of their sizes so far. *)
Fixpoint type_fixed_size_loop (h : heap) (type : bebop_type_t) (multiplier : Z) : option Z :=
  let scaled (base : Z) := Some (if BEBOP_MUL_WOULD_OVERFLOW_U32 base multiplier then 0 else base * multiplier) in
  match type with
  | TNull => Some 0
  | TScalar kind =>
      let scalar_size := bebop__scalar_fixed_size kind in
      if 0 <? scalar_size then scaled scalar_size else Some 0
  | TFixedArray element size =>
      if BEBOP_MUL_WOULD_OVERFLOW_U32 multiplier size then Some 0
      else type_fixed_size_loop h element (multiplier * size)
  | TDefined _ (Some p) =>
      base ← def_base_size h p;
      if base =? 0 then Some 0 else scaled base
  | TDefined _ None | TArray _ | TMap _ _ => Some 0
  end.
Definition bebop_type_fixed_size (h : heap) (type : bebop_type_t) : option Z := type_fixed_size_loop h type 1.

Fixpoint bebop_type_is_fixed (h : heap) (type : bebop_type_t) : option bool :=
  match type with
  | TNull => Some false
  | TScalar (BEBOP_TYPE_BOOL | BEBOP_TYPE_BYTE | BEBOP_TYPE_INT8 | BEBOP_TYPE_INT16 | BEBOP_TYPE_UINT16 | BEBOP_TYPE_INT32
      | BEBOP_TYPE_UINT32 | BEBOP_TYPE_INT64 | BEBOP_TYPE_UINT64 | BEBOP_TYPE_INT128 | BEBOP_TYPE_UINT128 | BEBOP_TYPE_FLOAT16
      | BEBOP_TYPE_FLOAT32 | BEBOP_TYPE_FLOAT64 | BEBOP_TYPE_BFLOAT16 | BEBOP_TYPE_UUID | BEBOP_TYPE_TIMESTAMP
      | BEBOP_TYPE_DURATION) => Some true
  | TScalar BEBOP_TYPE_STRING => Some false
  | TScalar _ => None
  | TArray _ | TMap _ _ => Some false
  | TFixedArray element _ => bebop_type_is_fixed h element
  | TDefined _ None => Some false
  | TDefined _ (Some p) =>
      d ← h !! p;
      Some (match df_body d with EnumDef _ _ => true | StructDef _ _ fixed_size => 0 <? fixed_size | _ => false end)
  end.

(** The loop of the least size; multiplications without a test wrap. *)
Fixpoint type_min_wire_size_loop (h : heap) (type : bebop_type_t) (multiplier : Z) : option Z :=
  match type with
  | TNull => Some 0
  | _ =>
      fixed ← bebop_type_fixed_size h type;
      if 0 <? fixed then Some (if BEBOP_MUL_WOULD_OVERFLOW_U32 fixed multiplier then 0 else fixed * multiplier)
      else
        match type with
        | TScalar BEBOP_TYPE_STRING => Some (u32 (5 * multiplier))
        | TArray _ | TMap _ _ => Some (u32 (4 * multiplier))
        | TFixedArray element size =>
            if BEBOP_MUL_WOULD_OVERFLOW_U32 multiplier size then Some 0
            else type_min_wire_size_loop h element (multiplier * size)
        | TDefined _ (Some p) =>
            d ← h !! p;
            Some (match df_body d with MessageDef _ => u32 (4 * multiplier) | UnionDef _ => u32 (5 * multiplier) | _ => 0 end)
        | _ => Some 0
        end
  end.
Definition bebop_type_min_wire_size (h : heap) (type : bebop_type_t) : option Z := type_min_wire_size_loop h type 1.

(** *** Sizes of structs *)

(** The inner loop: the total of the fields, 0 when one of them is not fixed. *)
Fixpoint fields_fixed_size (h : heap) (fields : list bebop_field_t) (total : Z) : option Z :=
  match fields with
  | [] => Some total
  | f :: fields =>
      field_size ← bebop_type_fixed_size h (fd_type f);
      if field_size =? 0 then Some 0
      else if BEBOP_ADD_WOULD_OVERFLOW_U32 total field_size then Some 0
      else fields_fixed_size h fields (total + field_size)
  end.

Definition set_body (b : def_body) (d : bebop_def_t) : bebop_def_t :=
  mkDef (df_name d) (df_fqn d) (df_span d) (df_name_span d) (df_documentation d) (df_decorators d) (df_schema d) (df_parent d) (df_visibility d)
    (df_nested_defs d) (df_dependents d) (df_dependents_capacity d) b.

Definition compute_fixed_size (h : heap) (p : def_ptr) : option heap :=
  d ← h !! p;
  match df_body d with
  | StructDef fields is_mutable _ =>
      total ← fields_fixed_size h fields 0;
      Some (<[p := set_body (StructDef fields is_mutable total) d]> h)
  | _ => Some h
  end.

Fixpoint bebop__validate_compute_fixed_sizes (h : heap) (sorted : list def_ptr) : option heap :=
  match sorted with
  | [] => Some h
  | p :: sorted => h ← compute_fixed_size h p; bebop__validate_compute_fixed_sizes h sorted
  end.

(** ** What the sizes mean *)

(** The wire sizes of scalars that docs/WIRE.md lists; a string has none. *)
Definition wire_bytes (kind : bebop_type_kind_t) : option Z :=
  match kind with
  | BEBOP_TYPE_BOOL | BEBOP_TYPE_BYTE | BEBOP_TYPE_INT8 => Some 1
  | BEBOP_TYPE_INT16 | BEBOP_TYPE_UINT16 | BEBOP_TYPE_FLOAT16 | BEBOP_TYPE_BFLOAT16 => Some 2
  | BEBOP_TYPE_INT32 | BEBOP_TYPE_UINT32 | BEBOP_TYPE_FLOAT32 => Some 4
  | BEBOP_TYPE_INT64 | BEBOP_TYPE_UINT64 | BEBOP_TYPE_FLOAT64 => Some 8
  | BEBOP_TYPE_INT128 | BEBOP_TYPE_UINT128 | BEBOP_TYPE_UUID | BEBOP_TYPE_TIMESTAMP => Some 16
  | BEBOP_TYPE_DURATION => Some 12
  | _ => None
  end.
Lemma wire_bytes_fixed kind n : wire_bytes kind = Some n ↔ bebop__scalar_fixed_size kind = n ∧ 0 < n.
Proof. destruct kind; cbn; split; try (intros [= <-]; split; [done|lia]); try (intros (<-&_); done); try done; intros (<-&?); lia. Qed.

(** The encoding of a type has always the same, positive number of bytes: scalars that are
    not strings, enums, arrays of a fixed positive length of such types, and structs of one
    or more fields of such types. *)
Inductive exact_size (h : heap) : bebop_type_t → Z → Prop :=
  | exact_scalar kind n : wire_bytes kind = Some n → exact_size h (TScalar kind) n
  | exact_array element size n : exact_size h element n → 0 < size → exact_size h (TFixedArray element size) (size * n)
  | exact_enum name p d base members n :
      h !! p = Some d → df_body d = EnumDef base members → wire_bytes base = Some n → exact_size h (TDefined name (Some p)) n
  | exact_struct name p d fields mu s n :
      h !! p = Some d → df_body d = StructDef fields mu s → fields ≠ [] → exact_sizes h fields n →
      exact_size h (TDefined name (Some p)) n
with exact_sizes (h : heap) : list bebop_field_t → Z → Prop :=
  | exact_nil : exact_sizes h [] 0
  | exact_cons f fields m n : exact_size h (fd_type f) m → exact_sizes h fields n → exact_sizes h (f :: fields) (m + n).

Scheme exact_size_mind := Induction for exact_size Sort Prop
  with exact_sizes_mind := Induction for exact_sizes Sort Prop.
Combined Scheme exact_mutind from exact_size_mind, exact_sizes_mind.

Definition exact_def (h : heap) (p : def_ptr) (n : Z) : Prop := exact_size h (TDefined 0 (Some p)) n.

(** Array lengths are 32-bit numbers, and pointers point to definitions. *)
Fixpoint type_wf (h : heap) (t : bebop_type_t) : Prop :=
  match t with
  | TNull | TScalar _ | TDefined _ None => True
  | TArray e => type_wf h e
  | TFixedArray e size => 0 ≤ size ≤ UINT32_MAX ∧ type_wf h e
  | TMap k v => type_wf h k ∧ type_wf h v
  | TDefined _ (Some p) => is_Some (h !! p)
  end.
Definition fields_wf (h : heap) (fields : list bebop_field_t) : Prop := Forall (λ f, type_wf h (fd_type f)) fields.

(** The definition a type embeds, through fixed arrays, into what contains it. *)
Fixpoint embedded (t : bebop_type_t) : option def_ptr :=
  match t with
  | TFixedArray e _ => embedded e
  | TDefined _ (Some p) => Some p
  | _ => None
  end.
Definition embeds (h : heap) (p q : def_ptr) : Prop :=
  ∃ d fields mu s f, h !! p = Some d ∧ df_body d = StructDef fields mu s ∧ f ∈ fields ∧ embedded (fd_type f) = Some q.

(** Two stores that differ in the sizes of structs only. *)
Definition same_body (b b' : def_body) : Prop :=
  match b, b' with StructDef fields m _, StructDef fields' m' _ => fields = fields' ∧ m = m' | _, _ => b = b' end.
Definition same_shape (h h' : heap) : Prop := Forall2 (λ d d', same_body (df_body d) (df_body d')) h h'.

#[export] Instance same_body_equiv : Equivalence same_body.
Proof.
  split.
  - by intros [].
  - intros [] []; cbn; naive_solver.
  - intros [] [] []; cbn; naive_solver congruence.
Qed.
#[export] Instance same_shape_equiv : Equivalence same_shape.
Proof.
  split.
  - intros h. unfold same_shape. induction h; constructor; [reflexivity|done].
  - intros h h' H. unfold same_shape in *. induction H; constructor; [by symmetry|done].
  - intros h1 h2 h3 H1. revert h3. unfold same_shape. induction H1 as [|d1 d2 h1 h2 E1 H1 IH]; intros h3 H2; inversion H2; subst; constructor.
    + by transitivity (df_body d2).
    + by apply IH.
Qed.

Lemma same_shape_lookup h h' p d : same_shape h h' → h !! p = Some d → ∃ d', h' !! p = Some d' ∧ same_body (df_body d) (df_body d').
Proof. intros H E. apply (Forall2_lookup_l _ _ _ _ _ H E). Qed.

Lemma exact_same_shape h h' : same_shape h h' →
  (∀ t n, exact_size h t n → exact_size h' t n) ∧ (∀ fs n, exact_sizes h fs n → exact_sizes h' fs n).
Proof.
  intros Hs. apply (exact_mutind h (λ t n _, exact_size h' t n) (λ fs n _, exact_sizes h' fs n)).
  - by constructor.
  - by constructor.
  - intros name p d base members n E Eb Hb. destruct (same_shape_lookup _ _ _ _ Hs E) as (d'&E'&Hd). rewrite Eb in Hd.
    eapply exact_enum; [exact E'| |done]. cbn in Hd. by rewrite <- Hd.
  - intros name p d fields mu s n E Eb Hne _ IH. destruct (same_shape_lookup _ _ _ _ Hs E) as (d'&E'&Hd). rewrite Eb in Hd.
    destruct (df_body d') as [| |fields' mu' s'| | | | |] eqn:Eb'; try done. cbn in Hd. destruct Hd as (<-&<-). by eapply exact_struct.
  - constructor.
  - by constructor.
Qed.

Lemma exact_positive h :
  (∀ t n, exact_size h t n → 0 < n) ∧ (∀ fs n, exact_sizes h fs n → 0 ≤ n ∧ (fs ≠ [] → 0 < n)).
Proof.
  apply (exact_mutind h (λ t n _, 0 < n) (λ fs n _, 0 ≤ n ∧ (fs ≠ [] → 0 < n))); try done; try lia; try naive_solver lia.
  - by intros kind n (_&?)%wire_bytes_fixed.
  - by intros name p d base members n _ _ (_&?)%wire_bytes_fixed.
Qed.

Lemma exact_deterministic h :
  (∀ t n, exact_size h t n → ∀ m, exact_size h t m → n = m) ∧ (∀ fs n, exact_sizes h fs n → ∀ m, exact_sizes h fs m → n = m).
Proof.
  apply (exact_mutind h (λ t n _, ∀ m, exact_size h t m → n = m) (λ fs n _, ∀ m, exact_sizes h fs m → n = m)).
  - intros kind n Hn m H. inversion H. congruence.
  - intros e size n _ IH _ m H. inversion H; subst. f_equal. by apply IH.
  - intros name p d base members n E Eb Hn m H. inversion H; simplify_eq; congruence.
  - intros name p d fields mu s n E Eb _ _ IH m H. inversion H; simplify_eq; [congruence|]. apply IH. congruence.
  - intros m H. by inversion H.
  - intros f fields m n _ IH1 _ IH2 k H. inversion H; subst. f_equal; [by apply IH1|by apply IH2].
Qed.

Lemma exact_name h name p n : exact_size h (TDefined name (Some p)) n ↔ exact_def h p n.
Proof. unfold exact_def. split; inversion 1; subst; by econstructor. Qed.

(** The size recorded for a struct is its exact size, or 0 when it has none of 32 bits. *)
Definition size_right (h : heap) (p : def_ptr) : Prop :=
  ∀ d fields mu s, h !! p = Some d → df_body d = StructDef fields mu s →
    0 ≤ s ≤ UINT32_MAX ∧ (0 < s → exact_def h p s) ∧ (∀ n, exact_def h p n → n ≤ UINT32_MAX → s = n).

Lemma def_base_size_right h p :
  is_Some (h !! p) → size_right h p →
  ∃ b, def_base_size h p = Some b ∧ 0 ≤ b ≤ UINT32_MAX ∧ (0 < b → exact_def h p b) ∧ (∀ n, exact_def h p n → n ≤ UINT32_MAX → b = n).
Proof.
  intros (d&Ed) Hr. unfold def_base_size. rewrite Ed. cbn [mbind option_bind].
  assert (Hnone : ∀ n, exact_def h p n → (∃ base ms, df_body d = EnumDef base ms ∧ n = bebop__scalar_fixed_size base) ∨ (∃ fs mu s, df_body d = StructDef fs mu s)).
  { intros n H. inversion H; simplify_eq; [|eauto]. left. eexists _, _. split; [done|]. symmetry. by apply wire_bytes_fixed. }
  eexists; split; [done|]. destruct (df_body d) as [|base ms|fs mu s| | | | |] eqn:Eb;
    try (split; [unfold UINT32_MAX; lia|]; split; [lia|]; intros n H; destruct (Hnone n H) as [(?&?&?&_)|(?&?&?&?)]; done).
  - split; [destruct base; cbn; unfold UINT32_MAX; lia|]. split; [intros Hb; eapply exact_enum; [done|done|by apply wire_bytes_fixed]|].
    intros n H _. destruct (Hnone n H) as [(?&?&E&->)|(?&?&?&?)]; [|done]. by simplify_eq.
  - by apply (Hr d fs mu s).
Qed.

Lemma mul_overflow a b : 0 ≤ a → 0 ≤ b → BEBOP_MUL_WOULD_OVERFLOW_U32 a b = (UINT32_MAX <? a * b).
Proof.
  intros Ha Hb. unfold BEBOP_MUL_WOULD_OVERFLOW_U32. assert (HM : 0 ≤ UINT32_MAX) by (unfold UINT32_MAX; lia). revert HM. generalize UINT32_MAX as M. intros M HM.
  destruct (Z.eqb_spec b 0) as [->|Hb0]; cbn [negb andb].
  - rewrite Z.mul_0_r. by destruct (Z.ltb_spec M 0); [lia|].
  - destruct (Z.ltb_spec (M / b) a), (Z.ltb_spec M (a * b)); try done; exfalso; Z.div_mod_to_equations; nia.
Qed.

Lemma exact_array_inv h e size n : exact_size h (TFixedArray e size) n → ∃ k, n = size * k ∧ exact_size h e k ∧ 0 < size ∧ 0 < k.
Proof. inversion 1 as [|? ? k He Hs| |]; subst. exists k. split_and!; try done. by eapply (proj1 (exact_positive h)). Qed.

Lemma type_fixed_size_right h t m :
  type_wf h t → (∀ q, embedded t = Some q → size_right h q) → 0 ≤ m ≤ UINT32_MAX →
  ∃ r, type_fixed_size_loop h t m = Some r ∧ 0 ≤ r ≤ UINT32_MAX ∧ (0 < r → ∃ n, exact_size h t n ∧ r = m * n) ∧
    (∀ n, exact_size h t n → 0 < m → m * n ≤ UINT32_MAX → r = m * n).
Proof.
  revert m. assert (HM : 0 < UINT32_MAX) by (unfold UINT32_MAX; lia).
  induction t as [|kind|e _|e IH size|k _ v _|name [p|]]; intros m Hwf Hq Hm; cbn [type_fixed_size_loop].
  - exists 0. split_and!; [done|lia..|]. intros n H. inversion H.
  - destruct (Z.ltb_spec 0 (bebop__scalar_fixed_size kind)) as [Hk|Hk].
    + rewrite mul_overflow by lia. destruct (Z.ltb_spec UINT32_MAX (bebop__scalar_fixed_size kind * m)); eexists; (split; [done|]).
      * split_and!; [lia..|]. intros n H'. inversion H' as [? ? Hn| | |]; subst. apply wire_bytes_fixed in Hn as (?&?). lia.
      * split_and!; [lia..|intros _; eexists; split; [by constructor; apply wire_bytes_fixed|lia]|]. intros n H'. inversion H' as [? ? Hn| | |]; subst. apply wire_bytes_fixed in Hn as (?&?). lia.
    + exists 0. split_and!; [done|lia..|]. intros n H. inversion H as [? ? Hn| | |]; subst. apply wire_bytes_fixed in Hn as (?&?). lia.
  - exists 0. split_and!; [done|lia..|]. intros n H. inversion H.
  - destruct Hwf as (Hs&Hwf). rewrite mul_overflow by lia. destruct (Z.ltb_spec UINT32_MAX (m * size)).
    + exists 0. split_and!; [done|lia..|]. intros n (k&->&_&?&?)%exact_array_inv Hm0 Hle. nia.
    + destruct (IH (m * size)) as (r&E&Hr&H1&H2); [done|done|nia|]. exists r. split_and!; [done|lia..| |].
      * intros Hpos. destruct (H1 Hpos) as (n&Hn&->). exists (size * n). split; [|lia]. constructor; [done|].
        pose proof (proj1 (exact_positive h) _ _ Hn). nia.
      * intros n (k&->&Hk&?&?)%exact_array_inv Hm0 Hle. rewrite Z.mul_assoc. apply H2; [done|nia|lia].
  - exists 0. split_and!; [done|lia..|]. intros n H. inversion H.
  - destruct (def_base_size_right h p) as (b&->&Hb&Hb1&Hb2); [done|by apply Hq|]. cbn [mbind option_bind].
    destruct (Z.eqb_spec b 0) as [->|Hb0].
    + exists 0. split_and!; [done|lia..|]. intros n H Hm0 Hle. apply exact_name in H. pose proof (proj1 (exact_positive h) _ _ H).
      rewrite <- (Hb2 n); [lia|done|nia].
    + rewrite mul_overflow by lia. destruct (Z.ltb_spec UINT32_MAX (b * m)); eexists; (split; [done|]).
      * split_and!; [lia..|]. intros n H' Hm0 Hle. apply exact_name in H'. pose proof (proj1 (exact_positive h) _ _ H').
        pose proof (Hb2 n H' ltac:(nia)). subst b. lia.
      * split_and!; [lia..| |].
        -- intros _. exists b. split; [|lia]. apply exact_name, Hb1. lia.
        -- intros n H' Hm0 Hle. apply exact_name in H'. pose proof (proj1 (exact_positive h) _ _ H'). pose proof (Hb2 n H' ltac:(nia)). subst b. lia.
  - exists 0. split_and!; [done|lia..|]. intros n H. inversion H.
Qed.

Lemma fields_fixed_size_right h fields total :
  fields_wf h fields → (∀ f q, f ∈ fields → embedded (fd_type f) = Some q → size_right h q) → 0 ≤ total ≤ UINT32_MAX →
  ∃ r, fields_fixed_size h fields total = Some r ∧ 0 ≤ r ≤ UINT32_MAX ∧
    (0 < r → ∃ n, exact_sizes h fields n ∧ r = total + n) ∧
    (∀ n, exact_sizes h fields n → total + n ≤ UINT32_MAX → r = total + n).
Proof.
  revert total. induction fields as [|f fields IH]; intros total Hwf Hq Ht; cbn [fields_fixed_size].
  - exists total. split_and!; [done|lia..| |].
    + intros _. exists 0. split; [constructor|lia].
    + intros n H. inversion H. lia.
  - apply Forall_cons in Hwf as (Hf&Hwf).
    destruct (type_fixed_size_right h (fd_type f) 1) as (k&E&Hk&Hk1&Hk2);
      [done|intros q; apply Hq; set_solver|unfold UINT32_MAX; lia|]. unfold bebop_type_fixed_size. rewrite E. cbn [mbind option_bind].
    assert (Hinv : ∀ n, exact_sizes h (f :: fields) n → ∃ a b, n = a + b ∧ exact_size h (fd_type f) a ∧ exact_sizes h fields b ∧ 0 < a ∧ 0 ≤ b).
    { intros n H. inversion H as [|? ? a b Ha Hb]; subst. exists a, b. pose proof (proj1 (exact_positive h) _ _ Ha).
      by pose proof (proj2 (exact_positive h) _ _ Hb) as (?&_). }
    destruct (Z.eqb_spec k 0) as [->|Hk0].
    { exists 0. split_and!; [done|unfold UINT32_MAX; lia..|]. intros n (a&b&->&Ha&_&?&?)%Hinv Hle.
      pose proof (Hk2 a Ha ltac:(lia) ltac:(lia)). lia. }
    unfold BEBOP_ADD_WOULD_OVERFLOW_U32. destruct (Z.ltb_spec (UINT32_MAX - total) k) as [Ho|Ho].
    { exists 0. split_and!; [done|unfold UINT32_MAX; lia..|]. intros n (a&b&->&Ha&_&?&?)%Hinv Hle.
      pose proof (Hk2 a Ha ltac:(lia) ltac:(lia)). lia. }
    destruct (IH (total + k)) as (r&Er&Hr&Hr1&Hr2); [done|intros f' q Hf'; apply Hq; set_solver|lia|].
    exists r. split_and!; [done|lia..| |].
    + intros Hpos. destruct (Hr1 Hpos) as (n&Hn&->). destruct (Hk1 ltac:(lia)) as (a&Ha&Ea). rewrite Z.mul_1_l in Ea. subst a.
      exists (k + n). split; [by constructor|lia].
    + intros n (a&b&->&Ha&Hb&?&?)%Hinv Hle. pose proof (Hk2 a Ha ltac:(lia) ltac:(lia)). rewrite (Hr2 b); [lia|done|lia].
Qed.

(** Every definition's types are well formed. *)
Definition heap_wf (h : heap) : Prop :=
  ∀ p d fields mu s, h !! p = Some d → df_body d = StructDef fields mu s → fields_wf h fields.

Lemma same_shape_set h p d fields mu s s' :
  h !! p = Some d → df_body d = StructDef fields mu s → same_shape h (<[p := set_body (StructDef fields mu s') d]> h).
Proof.
  intros E Eb. unfold same_shape. apply Forall2_same_length_lookup. split; [by rewrite length_insert|].
  intros i x y Hx Hy. destruct (decide (i = p)) as [->|Hne].
  - rewrite list_lookup_insert_eq in Hy by (by eapply lookup_lt_Some). simplify_eq. by rewrite Eb.
  - rewrite list_lookup_insert_ne in Hy by done. simplify_eq. reflexivity.
Qed.

Lemma type_wf_same_shape h h' t : same_shape h h' → type_wf h t → type_wf h' t.
Proof.
  intros Hs. induction t as [|kind|e IH|e IH size|k IHk v IHv|name [p|]]; cbn; try naive_solver.
  intros (d&E). destruct (same_shape_lookup _ _ _ _ Hs E) as (d'&E'&_). by exists d'.
Qed.

Lemma heap_wf_same_shape h h' : same_shape h h' → heap_wf h → heap_wf h'.
Proof.
  intros Hs Hwf p d' fields mu s E Eb. symmetry in Hs. destruct (same_shape_lookup _ _ _ _ Hs E) as (d&E'&Hd). rewrite Eb in Hd.
  destruct (df_body d) as [| |fields' mu' s'| | | | |] eqn:Eb'; try done. cbn in Hd. destruct Hd as (<-&<-).
  eapply Forall_impl; [exact (Hwf _ _ _ _ _ E' Eb')|]. intros f. apply type_wf_same_shape. by symmetry.
Qed.

Lemma exact_def_same_shape h h' p n : same_shape h h' → exact_def h p n ↔ exact_def h' p n.
Proof. intros Hs. split; apply (exact_same_shape _ _); [done|by symmetry]. Qed.

(** One struct, when what it embeds is done. *)
Lemma compute_fixed_size_right h p :
  heap_wf h → is_Some (h !! p) → (∀ q, embeds h p q → size_right h q) →
  ∃ h', compute_fixed_size h p = Some h' ∧ same_shape h h' ∧ size_right h' p ∧
    ∀ q, q ≠ p → h' !! q = h !! q.
Proof.
  intros Hwf (d&E) Hq. unfold compute_fixed_size. rewrite E. cbn [mbind option_bind].
  destruct (df_body d) as [|base ms|fields mu s| | | | |] eqn:Eb;
    try (exists h; split_and!; [done|reflexivity| |done]; intros d' fields' mu' s' E' Eb'; simplify_eq; congruence).
  destruct (fields_fixed_size_right h fields 0) as (r&Er&Hr&Hr1&Hr2);
    [by eapply Hwf| |unfold UINT32_MAX; lia|].
  { intros f q Hf Hemb. apply Hq. by exists d, fields, mu, s, f. }
  rewrite Er. cbn [mbind option_bind]. pose proof (same_shape_set h p d fields mu s r E Eb) as Hs.
  eexists. split_and!; [done|exact Hs| |intros q Hne; by apply list_lookup_insert_ne].
  intros d' fields' mu' s' E' Eb'. rewrite list_lookup_insert_eq in E' by (by eapply lookup_lt_Some). injection E' as <-.
  cbn in Eb'. injection Eb' as <- <- <-. split; [done|].
  assert (Hdef : ∀ n, exact_def h p n ↔ fields ≠ [] ∧ exact_sizes h fields n).
  { intros n. split; [intros H; inversion H; simplify_eq; [congruence|]|intros (?&?); by eapply exact_struct].
    match goal with H1 : df_body _ = StructDef ?fs _ _ |- _ => rewrite Eb in H1; injection H1 as <- <- <- end. done. }
  split.
  - intros Hpos. destruct (Hr1 Hpos) as (n&Hn&->). rewrite Z.add_0_l in *. apply (exact_def_same_shape _ _ _ _ Hs), Hdef.
    split; [|done]. intros ->. inversion Hn. lia.
  - intros n Hn Hle. apply (exact_def_same_shape _ _ _ _ Hs), Hdef in Hn as (_&Hn). rewrite (Hr2 n); [lia|done|lia].
Qed.

Lemma size_right_kept h h' p : same_shape h h' → h' !! p = h !! p → size_right h p → size_right h' p.
Proof.
  intros Hs E Hr d fields mu s Ed Eb. rewrite E in Ed. destruct (Hr d fields mu s Ed Eb) as (H1&H2&H3). split; [done|]. split.
  - intros Hpos. by apply (exact_def_same_shape _ _ _ _ Hs), H2.
  - intros n Hn. apply H3. by apply (exact_def_same_shape _ _ _ _ Hs).
Qed.

Lemma embeds_same_shape h h' p q : same_shape h h' → embeds h p q → embeds h' p q.
Proof.
  intros Hs (d&fields&mu&s&f&E&Eb&Hf&He). destruct (same_shape_lookup _ _ _ _ Hs E) as (d'&E'&Hd). rewrite Eb in Hd.
  destruct (df_body d') as [| |fields' mu' s'| | | | |] eqn:Eb'; try done. cbn in Hd. destruct Hd as (<-&<-). by exists d', fields, mu, s', f.
Qed.

(** What a definition embeds stands before it. *)
Definition in_order (h : heap) (l : list def_ptr) : Prop :=
  ∀ i p q, l !! i = Some p → embeds h p q → ∃ j, (j < i)%nat ∧ l !! j = Some q.

Lemma compute_fixed_sizes_from sorted : ∀ seen h,
  heap_wf h → Forall (λ p, is_Some (h !! p)) sorted → NoDup (seen ++ sorted) → in_order h (seen ++ sorted) →
  (∀ p, p ∈ seen → size_right h p) →
  ∃ h', bebop__validate_compute_fixed_sizes h sorted = Some h' ∧ same_shape h h' ∧ ∀ p, p ∈ seen ++ sorted → size_right h' p.
Proof.
  induction sorted as [|p sorted IH]; intros seen h Hwf Hp Hnd Ho Hseen; cbn [bebop__validate_compute_fixed_sizes].
  - exists h. split_and!; [done|reflexivity|]. by rewrite app_nil_r.
  - apply Forall_cons in Hp as (Hp&Hps).
    destruct (compute_fixed_size_right h p Hwf Hp) as (h1&E1&Hs1&Hr1&Hk1).
    { intros q Hq. apply Hseen. destruct (Ho (length seen) p q) as (j&Hj&Ej); [by apply list_lookup_middle|done|].
      rewrite lookup_app_l in Ej by done. by eapply list_elem_of_lookup_2. }
    rewrite E1. cbn [mbind option_bind]. replace (seen ++ p :: sorted) with ((seen ++ [p]) ++ sorted) in * by by rewrite <- app_assoc.
    destruct (IH (seen ++ [p]) h1) as (h2&E2&Hs2&Hr2).
    + by eapply heap_wf_same_shape.
    + eapply Forall_impl; [exact Hps|]. intros q (d&E). destruct (same_shape_lookup _ _ _ _ Hs1 E) as (d'&E'&_). by exists d'.
    + done.
    + intros i x q Hx Hq. apply (Ho i x q Hx). eapply embeds_same_shape; [symmetry; exact Hs1|exact Hq].
    + intros q [Hq|Hq]%elem_of_app.
      * apply NoDup_app in Hnd as (Hnd&_&_). apply NoDup_app in Hnd as (_&Hnp&_).
        apply (size_right_kept h); [done| |by apply Hseen]. apply Hk1. intros ->. apply (Hnp p Hq). set_solver.
      * apply list_elem_of_singleton in Hq as ->. done.
    + exists h2. split_and!; [done|by transitivity h1|done].
Qed.

(** What the pass may change: the size in the body of a struct. *)
Definition only_sizes (h h' : heap) (sorted : list def_ptr) : Prop :=
  Forall2 (λ d d', d' = set_body (df_body d') d ∧ same_body (df_body d) (df_body d')) h h' ∧ ∀ p, p ∉ sorted → h' !! p = h !! p.
Lemma compute_fixed_sizes_only sorted : ∀ h h', bebop__validate_compute_fixed_sizes h sorted = Some h' → only_sizes h h' sorted.
Proof.
  induction sorted as [|p sorted IH]; intros h h'; cbn [bebop__validate_compute_fixed_sizes].
  { intros [= <-]. split; [|done]. apply Forall2_same_length_lookup. split; [done|]. intros i d d' E E'. simplify_eq. split; [by destruct d|reflexivity]. }
  unfold compute_fixed_size. destruct (h !! p) as [d|] eqn:E; cbn [mbind option_bind]; [|done].
  destruct (df_body d) as [|base ms|fields mu s| | | | |] eqn:Eb; cbn [mbind option_bind];
    try (intros (H1&H2)%IH; split; [done|]; intros q (_&Hq)%not_elem_of_cons; by apply H2).
  destruct (fields_fixed_size h fields 0) as [total|]; cbn [mbind option_bind]; [|done]. intros (H1&H2)%IH. split.
  - apply Forall2_same_length_lookup. apply Forall2_same_length_lookup in H1 as (Hl&H1). rewrite length_insert in Hl. split; [done|]. intros i x y Ex Ey.
    destruct (decide (i = p)) as [->|Hne].
    + simplify_eq. destruct (H1 p _ y (list_lookup_insert_eq _ _ _ (lookup_lt_Some _ _ _ E)) Ey) as (Hy&Hb). split; [by rewrite Hy at 1|].
      rewrite Eb. etransitivity; [|exact Hb]. by split.
    + apply (H1 i); [by rewrite list_lookup_insert_ne|done].
  - intros q (Hne&Hq)%not_elem_of_cons. rewrite H2, list_lookup_insert_ne by done. done.
Qed.

(** C13: sizes of structs. In an order in which every definition follows the definitions it
    embeds, the pass records for every struct the number of bytes of its encoding by
    docs/WIRE.md, when the struct has one or more fields, each a scalar other than a string, an
    enum, an array of a fixed positive length or a struct of that kind again, and when that number
    has 32 bits; for every other struct it records 0, also for the empty struct and for structs
    that contain it, whose encodings are of a constant length too. Nothing else of any definition
    changes. *)
Theorem compute_fixed_sizes_correct h sorted :
  heap_wf h → Forall (λ p, is_Some (h !! p)) sorted → NoDup sorted → in_order h sorted →
  ∃ h', bebop__validate_compute_fixed_sizes h sorted = Some h' ∧ only_sizes h h' sorted ∧ ∀ p, p ∈ sorted → size_right h' p.
Proof.
  intros Hwf Hp Hnd Ho. destruct (compute_fixed_sizes_from sorted [] h) as (h'&E&_&Hr); try done.
  { intros p Hp'. by apply not_elem_of_nil in Hp'. }
  exists h'. split_and!; [done|by apply compute_fixed_sizes_only|done].
Qed.

(** [struct A { int32; B }] and [struct B { int16\[4\] }]: 12 and 8 bytes. *)
Definition two_structs : heap :=
  let def_of body := mkDef 1 1 no_span no_span 0 [] None None BEBOP_VIS_DEFAULT [] [] 0 body in
  let field := plain_field in
  [def_of (StructDef [field (TScalar BEBOP_TYPE_INT32); field (TDefined 0 (Some 1%nat))] false 0);
   def_of (StructDef [field (TFixedArray (TScalar BEBOP_TYPE_INT16) 4)] false 0)].
Lemma compute_fixed_sizes_correct_witness :
  option_map (map (λ d, match df_body d with StructDef _ _ s => s | _ => 0 end)) (bebop__validate_compute_fixed_sizes two_structs [1; 0]%nat) = Some [12; 8] ∧
  ∃ h', bebop__validate_compute_fixed_sizes two_structs [1; 0]%nat = Some h' ∧ only_sizes two_structs h' [1; 0]%nat ∧ ∀ p, p ∈ [1; 0]%nat → size_right h' p.
Proof.
  split; [vm_compute; reflexivity|]. apply compute_fixed_sizes_correct.
  - intros [|[|p]] d fields mu s E Eb; cbn in E; simplify_eq; cbn in Eb; simplify_eq; unfold fields_wf, UINT32_MAX;
      repeat (apply Forall_cons; split; [cbn; first [done | lia | by eexists]|]); by apply Forall_nil.
  - repeat constructor; by eexists.
  - repeat constructor; set_solver.
  - intros [|[|i]] p q E (d&fields&mu&s&f&Ed&Eb&Hf&Eq); cbn in E; simplify_eq; cbn in Ed; simplify_eq; cbn in Eb; simplify_eq.
    + apply list_elem_of_singleton in Hf as ->. done.
    + repeat (apply elem_of_cons in Hf as [->|Hf]; [cbn in Eq; simplify_eq; try (exists 0%nat; split; [lia|done])|]). by apply not_elem_of_nil in Hf.
Defined.
