(* ===== verification/Toposort.v ===== *)
(** The order of definitions ([bebop/src/bebop_validate.c]): the definitions each definition
    depends on, the graph they form, the order by Kahn's algorithm, and the search for a
    cycle to report.

    The arena is a stream of answers: [grants n] says whether the [n]-th request of this
    pass is granted ([CArena] has the arena itself; fresh memory is zeroed).  An array that
    grows by doubling is a list with its capacity. *)
From stdpp Require Import list.
From S2P Require Import Prelude.
From S2P Require Import Scanner.
From S2P Require Import Schema.

(** ** State *)

Record bebop_validator_t : Type := mkValidator {
  va_alloc_failed : bool;
  va_requests : nat;
  va_in_degree : list Z;
  va_adjacency : list (list nat);
  va_adj_capacities : list Z;
  va_queue : list nat;
  va_queue_head : nat;
  va_queue_capacity : nat
}.

Definition set_failed (v : bebop_validator_t) : bebop_validator_t :=
  mkValidator true (va_requests v) (va_in_degree v) (va_adjacency v) (va_adj_capacities v) (va_queue v) (va_queue_head v) (va_queue_capacity v).
Definition set_requests (n : nat) (v : bebop_validator_t) : bebop_validator_t :=
  mkValidator (va_alloc_failed v) n (va_in_degree v) (va_adjacency v) (va_adj_capacities v) (va_queue v) (va_queue_head v) (va_queue_capacity v).
Definition set_in_degree (l : list Z) (v : bebop_validator_t) : bebop_validator_t :=
  mkValidator (va_alloc_failed v) (va_requests v) l (va_adjacency v) (va_adj_capacities v) (va_queue v) (va_queue_head v) (va_queue_capacity v).
Definition set_adjacency (l : list (list nat)) (c : list Z) (v : bebop_validator_t) : bebop_validator_t :=
  mkValidator (va_alloc_failed v) (va_requests v) (va_in_degree v) l c (va_queue v) (va_queue_head v) (va_queue_capacity v).
Definition set_queue (q : list nat) (h : nat) (v : bebop_validator_t) : bebop_validator_t :=
  mkValidator (va_alloc_failed v) (va_requests v) (va_in_degree v) (va_adjacency v) (va_adj_capacities v) q h (va_queue_capacity v).

Definition BEBOP_VALIDATE_TYPE_STACK_SIZE : nat := 128.
Definition BEBOP_DOUBLE_CAPACITY_U32 (cap : Z) : Z :=
  if cap =? 0 then 16 else if UINT32_MAX / 2 <? cap then 0 else cap * 2.

Section Validator.
Context (grants : nat → bool).
Context (h : heap) (all_defs : list def_ptr).
(** [bebop_idxmap_find] on the map from the names of definitions to their indices *)
Context (name_to_idx : Z → option nat).
(** [BEBOP_STR] *)
Context (str_get : Z → list Z).

Abbreviation CV := (C bebop_validator_t).

(** One request to the arena. *)
Definition request : CV bool :=
  n ← gets va_requests; modify (set_requests (S n));; mret (grants n).
Definition fail : CV unit := modify set_failed.

(** A pointer to a definition. *)
Definition deref (p : def_ptr) : CV bebop_def_t := lift (h !! p).
Definition def_at (i : nat) : CV bebop_def_t := p ← lift (all_defs !! i); deref p.

(** ** Dependencies *)

Record bebop__dep_list_t : Type := mkDeps { dl_items : list Z; dl_capacity : Z }.

(** [bebop__array_push]: the capacity with room for one more element of [elem_size] bytes
    behind [count] of them, or a refusal. *)
Definition bebop__array_push (elem_size count cap : Z) : CV (option Z) :=
  if cap <=? count then
    if UINT32_MAX / 2 <? cap then mret None
    else
      let new_cap := if cap =? 0 then 16 else cap * 2 in
      if SIZE_MAX / elem_size <? new_cap then mret None
      else granted ← request; mret (if (granted : bool) then Some new_cap else None)
  else mret (Some cap).

Definition bebop__deps_contains (deps : list Z) (fqn : Z) : bool := existsb (λ d, bebop_str_eq d fqn) deps.

(** Pushes a name unless it is there; false when the arena refuses. *)
Definition push_dep (dl : bebop__dep_list_t) (fqn : Z) : CV (bool * bebop__dep_list_t) :=
  cap ← bebop__array_push 4 (zlen (dl_items dl)) (dl_capacity dl);
  match cap with
  | Some cap => mret (true, mkDeps (dl_items dl ++ [fqn]) cap)
  | None => fail;; mret (false, dl)
  end.
Definition push_resolved (dl : bebop__dep_list_t) (resolved : option def_ptr) : CV (bool * bebop__dep_list_t) :=
  match resolved with
  | None => mret (true, dl)
  | Some p =>
      d ← deref p;
      if bebop_str_is_null (df_fqn d) then mret (true, dl)
      else if bebop__deps_contains (dl_items dl) (df_fqn d) then mret (true, dl)
      else push_dep dl (df_fqn d)
  end.

(** The loop over a stack of types, its top first. Fuel: the number of types in it. *)
Fixpoint collect_loop (fuel : nat) (stack : list (bebop_type_t * Z)) (dl : bebop__dep_list_t) : CV bebop__dep_list_t :=
  match stack with
  | [] => mret dl
  | (t, depth) :: stack =>
      match fuel with
      | O => ub
      | S fuel =>
          match t with
          | TNull => collect_loop fuel stack dl
          | _ =>
              if BEBOP_MAX_TYPE_DEPTH <=? depth then fail;; mret dl
              else
                match t with
                | TArray e | TFixedArray e _ =>
                    collect_loop fuel
                      (if (length stack <? BEBOP_VALIDATE_TYPE_STACK_SIZE)%nat then (e, depth + 1) :: stack else stack) dl
                | TMap k v =>
                    collect_loop fuel
                      (if (length stack + 2 <=? BEBOP_VALIDATE_TYPE_STACK_SIZE)%nat
                       then (k, depth + 1) :: (v, depth + 1) :: stack else stack) dl
                | TDefined _ resolved =>
                    '(ok, dl) ← push_resolved dl resolved;
                    if (ok : bool) then collect_loop fuel stack dl else mret dl
                | _ => collect_loop fuel stack dl
                end
          end
      end
  end.

Fixpoint type_size (t : bebop_type_t) : nat :=
  match t with TArray e | TFixedArray e _ => S (type_size e) | TMap k v => S (type_size k + type_size v) | _ => 1 end.

Definition bebop__validate_collect_type_deps (t : bebop_type_t) (dl : bebop__dep_list_t) : CV bebop__dep_list_t :=
  collect_loop (type_size t) [(t, 0)] dl.

Fixpoint collect_types (ts : list bebop_type_t) (dl : bebop__dep_list_t) : CV bebop__dep_list_t :=
  match ts with
  | [] => mret dl
  | t :: ts => dl ← bebop__validate_collect_type_deps t dl; collect_types ts dl
  end.

(** The branches of a union: false when the arena refuses. *)
Fixpoint collect_branches (bs : list bebop_union_branch_t) (dl : bebop__dep_list_t) : CV (bool * bebop__dep_list_t) :=
  match bs with
  | [] => mret (true, dl)
  | b :: bs =>
      '(ok, dl) ←
        (match br_def b with
         | None => mret (true, dl)
         | Some p => d ← deref p; if bebop_str_is_null (df_name d) then mret (true, dl) else push_dep dl (df_name d)
         end);
      if (ok : bool) then
        dl ← bebop__validate_collect_type_deps (br_type_ref b) dl;
        collect_branches bs dl
      else mret (false, dl)
  end.

(** [COLLECT_CHAIN_DEPS] *)
Fixpoint collect_chain (chain : list bebop_decorator_t) (dl : bebop__dep_list_t) : CV (bool * bebop__dep_list_t) :=
  match chain with
  | [] => mret (true, dl)
  | dec :: chain =>
      '(ok, dl) ← push_resolved dl (dc_resolved dec);
      if (ok : bool) then collect_chain chain dl else mret (false, dl)
  end.

(** The types of a definition, and the decorators of its parts. *)
Definition body_types (b : def_body) : list bebop_type_t :=
  match b with
  | StructDef fields _ _ | MessageDef fields => map fd_type fields
  | ServiceDef methods mixins => concat (map (λ m, [me_request_type m; me_response_type m]) methods) ++ mixins
  | _ => []
  end.
Definition part_decorators (b : def_body) : list bebop_decorator_t :=
  match b with
  | StructDef fields _ _ | MessageDef fields => concat (map fd_decorators fields)
  | UnionDef branches => concat (map br_decorators branches)
  | EnumDef _ members => concat (map em_decorators members)
  | ServiceDef methods _ => concat (map me_decorators methods)
  | _ => []
  end.

(** The list of dependencies, empty when the arena refuses in a union or a chain. *)
Definition bebop__validate_get_deps (d : bebop_def_t) : CV (list Z) :=
  '(ok, dl) ←
    (match df_body d with
     | UnknownDef => ub
     | UnionDef branches => collect_branches branches (mkDeps [] 0)
     | b => dl ← collect_types (body_types b) (mkDeps [] 0); mret (true, dl)
     end);
  if (ok : bool) then
    '(ok, dl) ← collect_chain (df_decorators d ++ part_decorators (df_body d)) dl;
    mret (if (ok : bool) then dl_items dl else [])
  else mret [].

(** ** The graph *)

Definition bebop__validate_find_def_index (name : Z) : option nat :=
  if bebop_str_is_null name then None
  else i ← name_to_idx name; if Z.of_nat i <? 2 ^ 31 then Some i else None.

Definition def_count : nat := length all_defs.

(** Five arrays of zeros, requested whether or not the one before was granted. *)
Definition bebop__validate_init_toposort : CV bool :=
  if (def_count =? 0)%nat then mret true
  else
    g1 ← request; g2 ← request; g3 ← request; g4 ← request; g5 ← request;
    if negb ((g1 : bool) && g2 && g3 && g4 && g5) then mret false
    else
      modify (λ v, mkValidator (va_alloc_failed v) (va_requests v) (replicate def_count 0) (replicate def_count [])
                     (replicate def_count 0) [] 0 def_count);;
      mret true.

(** Writes the edge into the array of its source, which has room. *)
Definition append_edge (dep_idx def_idx : nat) (adj : list (list nat)) (edges : list nat) (caps : list Z) : CV unit :=
  degrees ← gets va_in_degree; degree ← lift (degrees !! def_idx);
  modify (set_adjacency (<[dep_idx := edges ++ [def_idx]]> adj) caps);;
  modify (set_in_degree (<[def_idx := u32 (degree + 1)]> degrees)).

Definition bebop__validate_add_edge (dep_idx def_idx : nat) : CV unit :=
  adj ← gets va_adjacency; caps ← gets va_adj_capacities;
  edges ← lift (adj !! dep_idx); old_cap ← lift (caps !! dep_idx);
  if old_cap <=? zlen edges then
    let new_cap := if old_cap =? 0 then 4 else BEBOP_DOUBLE_CAPACITY_U32 old_cap in
    if new_cap =? 0 then fail
    else
      granted ← request;
      if (granted : bool) then append_edge dep_idx def_idx adj edges (<[dep_idx := new_cap]> caps) else fail
  else append_edge dep_idx def_idx adj edges caps.

(** Whether the message [def], at [pdef], is a branch of the union [dep], at [pdep]. *)
Definition bebop__validate_is_message_branch_of (pdef : def_ptr) (def : bebop_def_t) (pdep : def_ptr) (dep : bebop_def_t) : bool :=
  match df_body dep, df_body def with
  | UnionDef branches, MessageDef _ =>
      bool_decide (df_parent def = Some pdep) ||
      existsb (λ b, match br_type_ref b with TDefined _ (Some p) => bool_decide (p = pdef) | _ => false end) branches
  | _, _ => false
  end.

(** The edge into definition [i] from the definition of a name. *)
Definition add_dependency (i : nat) (pdef : def_ptr) (def : bebop_def_t) (name : Z) : CV unit :=
  match bebop__validate_find_def_index name with
  | None => mret tt
  | Some dep_idx =>
      pdep ← lift (all_defs !! dep_idx); dep ← deref pdep;
      if bool_decide (dep_idx = i) && match def_kind def with BEBOP_DEF_MESSAGE | BEBOP_DEF_UNION => true | _ => false end
      then mret tt
      else if bebop__validate_is_message_branch_of pdef def pdep dep then mret tt
      else if bebop__validate_is_message_branch_of pdep dep pdef def then mret tt
      else bebop__validate_add_edge dep_idx i
  end.

(** The edges into definition [i] from its dependencies. *)
Fixpoint add_edges (i : nat) (pdef : def_ptr) (def : bebop_def_t) (deps : list Z) : CV unit :=
  match deps with
  | [] => mret tt
  | name :: deps =>
      failed ← gets va_alloc_failed;
      if (failed : bool) then mret tt
      else add_dependency i pdef def name;; add_edges i pdef def deps
  end.

Fixpoint build_graph (i : nat) (ps : list def_ptr) : CV unit :=
  match ps with
  | [] => mret tt
  | p :: ps =>
      failed ← gets va_alloc_failed;
      if (failed : bool) then mret tt
      else
        def ← deref p;
        deps ← bebop__validate_get_deps def;
        add_edges i p def deps;;
        build_graph (S i) ps
  end.

(** ** The order *)

(** The definitions without an open dependency, from [i] on, enter the queue. *)
Fixpoint enqueue_roots (i : nat) (n : nat) : CV unit :=
  match n with
  | O => mret tt
  | S n =>
      degrees ← gets va_in_degree; d ← lift (degrees !! i);
      (if d =? 0 then q ← gets va_queue; hd ← gets va_queue_head; modify (set_queue (q ++ [i]) hd) else mret tt);;
      enqueue_roots (S i) n
  end.

(** The successors of a sorted definition; false when the queue is full. *)
Fixpoint release (successors : list nat) : CV bool :=
  match successors with
  | [] => mret true
  | x :: successors =>
      degrees ← gets va_in_degree; d ← lift (degrees !! x);
      let d := u32 (d - 1) in
      modify (set_in_degree (<[x := d]> degrees));;
      if d =? 0 then
        q ← gets va_queue; hd ← gets va_queue_head; cap ← gets va_queue_capacity;
        if (cap <=? length q)%nat then fail;; mret false
        else modify (set_queue (q ++ [x]) hd);; release successors
      else release successors
  end.

(** The main loop; fuel: the number of definitions. *)
Fixpoint kahn_loop (fuel : nat) (sorted : list nat) : CV (option (list nat)) :=
  q ← gets va_queue; hd ← gets va_queue_head;
  match q !! hd with
  | None => mret (Some sorted)
  | Some idx =>
      match fuel with
      | O => ub
      | S fuel =>
          modify (set_queue q (S hd));;
          adj ← gets va_adjacency; successors ← lift (adj !! idx);
          ok ← release successors;
          if (ok : bool) then kahn_loop fuel (sorted ++ [idx]) else mret None
      end
  end.

(** ** A cycle to report *)

Inductive search_end : Type := CycleAt (path : list nat) (start : nat) | NoCycle.

(** The first successor on the path or not yet visited. *)
Fixpoint next_successor (visited : list Z) (successors : list nat) : option (option (Z * nat)) :=
  match successors with
  | [] => Some None
  | x :: successors =>
      c ← visited !! x;
      if (c =? 1) || (c =? 0) then Some (Some (c, x)) else next_successor visited successors
  end.

(** The search: the marks, the path and the stack, its top last. Fuel: two turns for each
    definition. *)
Fixpoint cycle_loop (fuel : nat) (adj : list (list nat)) (visited : list Z) (path stack : list nat) : option search_end :=
  match last stack with
  | None => Some NoCycle
  | Some idx =>
      match fuel with
      | O => None
      | S fuel =>
          mark ← visited !! idx;
          if (mark =? 0) && (def_count <=? length path)%nat then Some NoCycle
          else
            let '(visited, path) := if mark =? 0 then (<[idx := 1]> visited, path ++ [idx]) else (visited, path) in
            successors ← adj !! idx;
            next ← next_successor visited successors;
            match next with
            | Some (c, x) =>
                if c =? 1 then Some (CycleAt path x)
                else if (def_count <=? length stack)%nat then Some NoCycle
                else cycle_loop fuel adj visited path (stack ++ [x])
            | None => cycle_loop fuel adj (<[idx := 2]> visited) (removelast path) (removelast stack)
            end
      end
  end.

(** The part of the path from a definition on. *)
Fixpoint path_from (start : nat) (path : list nat) : list nat :=
  match path with
  | [] => []
  | x :: path => if bool_decide (x = start) then x :: path else path_from start path
  end.

(** The cycle: the whole path when the definition is not on it. *)
Definition cycle_part (start : nat) (path : list nat) : list nat :=
  match path_from start path with [] => path | part => part end.

Definition name_of (i : nat) : option (list Z) := p ← all_defs !! i; d ← h !! p; Some (str_get (df_name d)).
Definition arrow : list Z := [32; 45; 62; 32].

(** The names on the cycle with arrows between them, or the name of the definition the
    search began at. *)
Definition bebop__validate_find_cycle_path (start_idx : nat) : CV (list Z) :=
  fallback ← lift (name_of start_idx);
  g1 ← request; g2 ← request; g3 ← request;
  if negb ((g1 : bool) && g2 && g3) then fail;; mret fallback
  else
    adj ← gets va_adjacency;
    r ← lift (cycle_loop (2 * def_count + 1) adj (replicate def_count 0) [] [start_idx]);
    match r with
    | NoCycle => mret fallback
    | CycleAt path cycle_start =>
        names ← lift (mapM name_of (cycle_part cycle_start path)); start_name ← lift (name_of cycle_start);
        let text := concat (map (λ n, n ++ arrow) names) ++ start_name in
        if SIZE_MAX <? zlen text + 1 then mret fallback
        else
          granted ← request;
          if (granted : bool) then mret text else fail;; mret fallback
    end.

(** The first definition with an open dependency. *)
Fixpoint first_open (degrees : list Z) (i : nat) : option nat :=
  match degrees with
  | [] => None
  | d :: degrees => if 0 <? d then Some i else first_open degrees (S i)
  end.

(** The order, or the definition a cycle is reported for and the text of the report, or
    neither: there are no definitions, or the arena refused. *)
Inductive toposort_result : Type :=
  | Sorted (order : list def_ptr)
  | Cyclic (def_idx : nat) (text : list Z)
  | Unsorted.

Definition bebop__validate_toposort : CV toposort_result :=
  if (def_count =? 0)%nat then mret Unsorted
  else
    ok ← bebop__validate_init_toposort;
    if negb (ok : bool) then fail;; mret Unsorted
    else
      build_graph 0 all_defs;;
      failed ← gets va_alloc_failed;
      if (failed : bool) then mret Unsorted
      else
        enqueue_roots 0 def_count;;
        granted ← request;
        if negb (granted : bool) then fail;; mret Unsorted
        else
          r ← kahn_loop def_count [];
          match r with
          | None => mret Unsorted
          | Some sorted =>
              if (length sorted =? def_count)%nat then order ← lift (mapM (λ i, all_defs !! i) sorted); mret (Sorted order)
              else
                degrees ← gets va_in_degree;
                match first_open degrees 0 with
                | None => mret Unsorted
                | Some i => text ← bebop__validate_find_cycle_path i; mret (Cyclic i text)
                end
          end.

(** ** Dependencies, without the arena *)

Definition fqn_of (p : def_ptr) : Z := from_option df_fqn 0 (h !! p).
Definition simple_name_of (p : def_ptr) : Z := from_option df_name 0 (h !! p).

(** The definitions a type refers to, from left to right. *)
Fixpoint type_refs (t : bebop_type_t) : list def_ptr :=
  match t with
  | TArray e | TFixedArray e _ => type_refs e
  | TMap k v => type_refs k ++ type_refs v
  | TDefined _ (Some p) => [p]
  | _ => []
  end.

Definition add_ref (l : list Z) (p : def_ptr) : list Z :=
  if bebop_str_is_null (fqn_of p) || bebop__deps_contains l (fqn_of p) then l else l ++ [fqn_of p].
Definition add_type (l : list Z) (t : bebop_type_t) : list Z := fold_left add_ref (type_refs t) l.
Definition add_branch (l : list Z) (b : bebop_union_branch_t) : list Z :=
  add_type
    (match br_def b with
     | Some p => if bebop_str_is_null (simple_name_of p) then l else l ++ [simple_name_of p]
     | None => l
     end) (br_type_ref b).
Definition add_decorator (l : list Z) (dec : bebop_decorator_t) : list Z :=
  match dc_resolved dec with Some p => add_ref l p | None => l end.

Definition deps_of (d : bebop_def_t) : list Z :=
  fold_left add_decorator (df_decorators d ++ part_decorators (df_body d))
    (match df_body d with
     | UnionDef branches => fold_left add_branch branches []
     | b => fold_left add_type (body_types b) []
     end).

(** Levels of nesting; pointers that are followed point to definitions. *)
Fixpoint type_levels (t : bebop_type_t) : Z :=
  match t with
  | TNull => 0
  | TArray e | TFixedArray e _ => 1 + type_levels e
  | TMap k v => 1 + Z.max (type_levels k) (type_levels v)
  | _ => 1
  end.
Definition valid_ptr (p : option def_ptr) : Prop := match p with Some p => is_Some (h !! p) | None => True end.
Definition refs_ok (t : bebop_type_t) : Prop := type_levels t ≤ 64 ∧ Forall (λ p, is_Some (h !! p)) (type_refs t).
Definition decorators_ok (l : list bebop_decorator_t) : Prop := Forall (λ dec, valid_ptr (dc_resolved dec)) l.
Definition def_ok (d : bebop_def_t) : Prop :=
  decorators_ok (df_decorators d ++ part_decorators (df_body d)) ∧
  match df_body d with
  | UnknownDef => False
  | UnionDef branches => Forall (λ b, valid_ptr (br_def b) ∧ refs_ok (br_type_ref b)) branches
  | b => Forall refs_ok (body_types b)
  end.

(** ** Collecting *)

(** What collecting leaves as it was. *)
Definition quiet (v v' : bebop_validator_t) : Prop :=
  va_in_degree v' = va_in_degree v ∧ va_adjacency v' = va_adjacency v ∧ va_adj_capacities v' = va_adj_capacities v ∧
  va_queue v' = va_queue v ∧ va_queue_head v' = va_queue_head v ∧ va_queue_capacity v' = va_queue_capacity v ∧
  (va_alloc_failed v = true → va_alloc_failed v' = true).

Lemma quiet_refl v : quiet v v.
Proof. done. Qed.
Lemma quiet_trans v1 v2 v3 : quiet v1 v2 → quiet v2 v3 → quiet v1 v3.
Proof. unfold quiet. intros (?&?&?&?&?&?&?) (?&?&?&?&?&?&?). split_and!; try congruence. auto. Qed.
Lemma quiet_failed v : quiet v (set_failed v).
Proof. done. Qed.
Lemma quiet_requests v n : quiet v (set_requests n v).
Proof. done. Qed.

Definition dl_ok (dl : bebop__dep_list_t) : Prop := zlen (dl_items dl) ≤ dl_capacity dl ≤ UINT32_MAX.

(** A piece of the collection: it is defined, touches nothing else, and does to the list
    what [f] does, or the arena has refused. *)
Definition adds (c : bebop__dep_list_t → CV bebop__dep_list_t) (f : list Z → list Z) : Prop :=
  ∀ dl v, dl_ok dl → ∃ dl' v', c dl v = Some (dl', v') ∧ quiet v v' ∧ dl_ok dl' ∧
    (va_alloc_failed v' = true ∨ dl_items dl' = f (dl_items dl) ∧ va_alloc_failed v' = va_alloc_failed v).
Definition adds_or_stops (c : bebop__dep_list_t → CV (bool * bebop__dep_list_t)) (f : list Z → list Z) : Prop :=
  ∀ dl v, dl_ok dl → ∃ ok dl' v', c dl v = Some ((ok, dl'), v') ∧ quiet v v' ∧ dl_ok dl' ∧
    (va_alloc_failed v' = true ∨ ok = true ∧ dl_items dl' = f (dl_items dl) ∧ va_alloc_failed v' = va_alloc_failed v).

Lemma request_eq v : request v = Some (grants (va_requests v), set_requests (S (va_requests v)) v).
Proof. done. Qed.

Lemma C_assoc {S A B D} (c : C S A) (k : A → C S B) (k' : B → C S D) s :
  (c ≫= λ a, k a ≫= k') s = ((c ≫= k) ≫= k') s.
Proof. unfold mbind, C_bind. by destruct (c s) as [[a s']|]. Qed.

(** Room for one more element, or a refusal. *)
Lemma array_push_correct elem_size count cap v :
  1 ≤ elem_size ≤ 2 ^ 16 → 0 ≤ count ≤ cap → cap ≤ UINT32_MAX →
  ∃ r v', bebop__array_push elem_size count cap v = Some (r, v') ∧ quiet v v' ∧ va_alloc_failed v' = va_alloc_failed v ∧
    match r with Some cap' => count < cap' ≤ UINT32_MAX | None => True end.
Proof.
  intros He Hc Hcap. unfold bebop__array_push. destruct (Z.leb_spec cap count).
  - destruct (Z.ltb_spec (UINT32_MAX / 2) cap); [by eexists None, _|].
    set (new_cap := if cap =? 0 then 16 else cap * 2).
    assert (Hnew : cap < new_cap ≤ UINT32_MAX).
    { subst new_cap. change (UINT32_MAX / 2) with 2147483647 in *. unfold UINT32_MAX in *. destruct (Z.eqb_spec cap 0); lia. }
    destruct (Z.ltb_spec (SIZE_MAX / elem_size) new_cap); [by eexists None, _|].
    rewrite (C_bind_Some _ _ _ _ _ (request_eq v)). eexists _, _. split; [reflexivity|]. split_and!; [apply quiet_requests|done|].
    destruct (grants (va_requests v)); [lia|done].
  - eexists (Some cap), v. split_and!; (done || lia).
Qed.

Lemma push_dep_adds x : adds_or_stops (λ dl, push_dep dl x) (λ l, l ++ [x]).
Proof.
  intros [items cap] v (Hlen&Hcap). cbn [dl_items dl_capacity] in *. unfold push_dep. cbn [dl_items dl_capacity].
  assert (Hz : zlen (items ++ [x]) = zlen items + 1) by (unfold zlen; rewrite length_app; cbn; lia).
  destruct (array_push_correct 4 (zlen items) cap v) as (r&v'&E&Hq&Hf&Hr); [lia|pose proof (zlen_nonneg items); lia|done|].
  rewrite (C_bind_Some _ _ _ _ _ E). destruct r as [cap'|].
  - eexists true, _, _. split_and!; [reflexivity|done| |by right]. split; cbn [dl_items dl_capacity]; lia.
  - eexists false, _, _. split_and!; [reflexivity|by eapply quiet_trans|done|by left].
Qed.

Lemma push_resolved_adds p :
  valid_ptr p → adds_or_stops (λ dl, push_resolved dl p) (λ l, match p with Some p => add_ref l p | None => l end).
Proof.
  intros Hp dl v Hdl. unfold push_resolved. destruct p as [p|].
  2: { eexists true, _, _. split_and!; [done|done|done|by right]. }
  destruct Hp as (d&Ed). unfold deref, add_ref, fqn_of. rewrite Ed. cbn [from_option]. unfold mbind, C_bind, lift.
  destruct (bebop_str_is_null (df_fqn d)); cbn [orb].
  { eexists true, _, _. split_and!; [done|done|done|by right]. }
  destruct (bebop__deps_contains (dl_items dl) (df_fqn d)).
  { eexists true, _, _. split_and!; [done|done|done|by right]. }
  by apply push_dep_adds.
Qed.

(** The stack of the loop: at each place no more entries below than levels above the type,
    so that the 128 places always suffice. *)
Fixpoint stack_ok (stack : list (bebop_type_t * Z)) : Prop :=
  match stack with
  | [] => True
  | (t, depth) :: stack =>
      Z.of_nat (length stack) ≤ depth ∧ type_levels t + depth ≤ 64 ∧ Forall (λ p, is_Some (h !! p)) (type_refs t) ∧ stack_ok stack
  end.
Definition stack_refs (stack : list (bebop_type_t * Z)) : list def_ptr := concat (map (λ e, type_refs e.1) stack).
Definition stack_size (stack : list (bebop_type_t * Z)) : nat := sum_list_with (λ e, type_size e.1) stack.

Lemma type_levels_nonneg t : 0 ≤ type_levels t.
Proof. induction t; cbn; lia. Qed.
Lemma type_levels_pos t : t ≠ TNull → 1 ≤ type_levels t.
Proof.
  destruct t as [|kind|e|e size|k w|name p]; cbn; intros; try done; try lia.
  - pose proof (type_levels_nonneg e). lia.
  - pose proof (type_levels_nonneg e). lia.
  - pose proof (type_levels_nonneg k). lia.
Qed.
Lemma type_size_pos t : (0 < type_size t)%nat.
Proof. destruct t; cbn; lia. Qed.

(** One step of the loop on a type that is not null. *)
Lemma collect_loop_adds fuel : ∀ stack, stack_ok stack → (stack_size stack ≤ fuel)%nat →
  adds (collect_loop fuel stack) (fold_left add_ref (stack_refs stack)).
Proof.
  assert (Hdone : ∀ fuel, adds (collect_loop fuel []) (fold_left add_ref [])).
  { intros f dl v Hdl. exists dl, v. split_and!; [by destruct f|done|done|by right]. }
  induction fuel as [|fuel IH]; intros stack Hok Hfuel; (destruct stack as [|[t depth] stack]; [apply Hdone|]).
  { unfold stack_size in Hfuel. cbn in Hfuel. pose proof (type_size_pos t). lia. }
  destruct Hok as (Hlen&Hlev&Hrefs&Hok). unfold stack_size in Hfuel. cbn in Hfuel. fold (stack_size stack) in Hfuel.
  pose proof (type_levels_nonneg t) as Hpos. unfold stack_refs. cbn [map concat fst].
  assert (Hdeep : t ≠ TNull → (BEBOP_MAX_TYPE_DEPTH <=? depth) = false).
  { intros Hne. apply Z.leb_gt. unfold BEBOP_MAX_TYPE_DEPTH. pose proof (type_levels_pos t Hne). lia. }
  destruct t as [|kind|e|e size|k w|name p]; cbn [collect_loop type_refs type_size type_levels] in *.
  - apply IH; [done|lia].
  - rewrite Hdeep by done. apply IH; [done|lia].
  - rewrite Hdeep by done. pose proof (type_levels_nonneg e).
    destruct (Nat.ltb_spec (length stack) BEBOP_VALIDATE_TYPE_STACK_SIZE) as [_|Hbig]; [|unfold BEBOP_VALIDATE_TYPE_STACK_SIZE in Hbig; lia].
    apply (IH ((e, depth + 1) :: stack)); [cbn; split_and!; (done || lia)|unfold stack_size; cbn; fold (stack_size stack); lia].
  - rewrite Hdeep by done. pose proof (type_levels_nonneg e).
    destruct (Nat.ltb_spec (length stack) BEBOP_VALIDATE_TYPE_STACK_SIZE) as [_|Hbig]; [|unfold BEBOP_VALIDATE_TYPE_STACK_SIZE in Hbig; lia].
    apply (IH ((e, depth + 1) :: stack)); [cbn; split_and!; (done || lia)|unfold stack_size; cbn; fold (stack_size stack); lia].
  - rewrite Hdeep by done. pose proof (type_levels_nonneg k). pose proof (type_levels_nonneg w). apply Forall_app in Hrefs as (Hk&Hw).
    destruct (Nat.leb_spec (length stack + 2) BEBOP_VALIDATE_TYPE_STACK_SIZE) as [_|Hbig]; [|unfold BEBOP_VALIDATE_TYPE_STACK_SIZE in Hbig; lia].
    pose proof (IH ((k, depth + 1) :: (w, depth + 1) :: stack)) as IH'. unfold stack_refs in IH'. cbn [map concat fst] in IH'.
    rewrite <- app_assoc. apply IH'; [cbn; split_and!; (done || lia)|unfold stack_size; cbn; fold (stack_size stack); lia].
  - rewrite Hdeep by done. intros dl v Hdl.
    assert (Hp : valid_ptr p) by (destruct p; [by apply Forall_cons in Hrefs as (?&_)|done]).
    destruct (push_resolved_adds p Hp dl v Hdl) as (ok&dl1&v1&E1&Hq1&Hdl1&Hr1). rewrite (C_bind_Some _ _ _ _ _ E1).
    destruct ok.
    + destruct (IH stack Hok ltac:(lia) dl1 v1 Hdl1) as (dl2&v2&E2&Hq2&Hdl2&Hr2). exists dl2, v2.
      split_and!; [done|by eapply quiet_trans|done|]. destruct Hr1 as [Hf|(_&Ei&Ef)]; [left; by apply Hq2|].
      destruct Hr2 as [Hf|(Ei2&Ef2)]; [by left|]. right. split; [|congruence]. rewrite Ei2, Ei. by destruct p.
    + exists dl1, v1. split_and!; [done..|]. destruct Hr1 as [Hf|(?&_)]; [by left|done].
Qed.

Lemma adds_bind c1 f1 c2 f2 :
  adds c1 f1 → adds c2 f2 → adds (λ dl, dl' ← c1 dl; c2 dl') (λ l, f2 (f1 l)).
Proof.
  intros H1 H2 dl v Hdl. destruct (H1 dl v Hdl) as (dl1&v1&E1&Hq1&Hd1&Hr1). destruct (H2 dl1 v1 Hd1) as (dl2&v2&E2&Hq2&Hd2&Hr2).
  exists dl2, v2. rewrite (C_bind_Some _ _ _ _ _ E1). split_and!; [done|by eapply quiet_trans|done|].
  destruct Hr1 as [Hf|(Ei1&Ef1)]; [left; by apply Hq2|]. destruct Hr2 as [Hf|(Ei2&Ef2)]; [by left|]. right. split; congruence.
Qed.

Lemma adds_or_stops_bind c1 f1 c2 f2 :
  adds_or_stops c1 f1 → adds_or_stops c2 f2 →
  adds_or_stops (λ dl, '(ok, dl') ← c1 dl; if (ok : bool) then c2 dl' else mret (false, dl')) (λ l, f2 (f1 l)).
Proof.
  intros H1 H2 dl v Hdl. destruct (H1 dl v Hdl) as (ok&dl1&v1&E1&Hq1&Hd1&Hr1). rewrite (C_bind_Some _ _ _ _ _ E1). destruct ok.
  - destruct (H2 dl1 v1 Hd1) as (ok2&dl2&v2&E2&Hq2&Hd2&Hr2). exists ok2, dl2, v2. split_and!; [done|by eapply quiet_trans|done|].
    destruct Hr1 as [Hf|(_&Ei1&Ef1)]; [left; by apply Hq2|]. destruct Hr2 as [Hf|(?&Ei2&Ef2)]; [by left|]. right. split_and!; congruence.
  - exists false, dl1, v1. split_and!; [done..|]. destruct Hr1 as [Hf|(?&_)]; [by left|done].
Qed.

Lemma adds_lifts c f : adds c f → adds_or_stops (λ dl, dl' ← c dl; mret (true, dl')) f.
Proof.
  intros H dl v Hdl. destruct (H dl v Hdl) as (dl1&v1&E1&Hq1&Hd1&Hr1). exists true, dl1, v1. rewrite (C_bind_Some _ _ _ _ _ E1).
  split_and!; [done..|]. destruct Hr1 as [?|(?&?)]; [by left|by right].
Qed.

Lemma collect_type_deps_adds t : refs_ok t → adds (bebop__validate_collect_type_deps t) (λ l, add_type l t).
Proof.
  intros (Hlev&Hrefs). unfold bebop__validate_collect_type_deps, add_type. pose proof (collect_loop_adds (type_size t) [(t, 0)]) as H.
  unfold stack_refs, stack_size in H. cbn in H. rewrite app_nil_r in H. apply H; [split_and!; (done || lia)|lia].
Qed.

Lemma collect_types_adds ts : Forall refs_ok ts → adds (collect_types ts) (fold_left add_type ts).
Proof.
  induction 1 as [|t ts Ht Hts IH]; cbn [collect_types fold_left].
  - intros dl v Hdl. exists dl, v. split_and!; [done..|by right].
  - apply (adds_bind _ (λ l, add_type l t) _ (fold_left add_type ts)); [by apply collect_type_deps_adds|done].
Qed.

Lemma collect_branches_adds bs :
  Forall (λ b, valid_ptr (br_def b) ∧ refs_ok (br_type_ref b)) bs → adds_or_stops (collect_branches bs) (fold_left add_branch bs).
Proof.
  induction 1 as [|b bs (Hd&Ht) Hbs IH]; cbn [collect_branches fold_left].
  - intros dl v Hdl. exists true, dl, v. split_and!; [done..|by right].
  - set (push := λ l, match br_def b with
      | Some p => if bebop_str_is_null (simple_name_of p) then l else l ++ [simple_name_of p] | None => l end).
    apply (adds_or_stops_bind _ push _ (λ l, fold_left add_branch bs (add_type l (br_type_ref b)))).
    + intros dl v Hdl. subst push. destruct (br_def b) as [p|].
      * destruct Hd as (d&Ed). unfold simple_name_of, deref. rewrite Ed. cbn [from_option]. unfold mbind, C_bind, lift.
        destruct (bebop_str_is_null (df_name d)); [exists true, dl, v; split_and!; [done..|by right]|by apply push_dep_adds].
      * exists true, dl, v. split_and!; [done..|by right].
    + intros dl v Hdl. destruct (collect_type_deps_adds _ Ht dl v Hdl) as (dl1&v1&E1&Hq1&Hd1&Hr1). rewrite (C_bind_Some _ _ _ _ _ E1).
      destruct (IH dl1 v1 Hd1) as (ok2&dl2&v2&E2&Hq2&Hd2&Hr2). exists ok2, dl2, v2. split_and!; [done|by eapply quiet_trans|done|].
      destruct Hr1 as [Hf|(Ei1&Ef1)]; [left; by apply Hq2|]. destruct Hr2 as [Hf|(?&Ei2&Ef2)]; [by left|]. right. split_and!; congruence.
Qed.

Lemma collect_chain_adds chain : decorators_ok chain → adds_or_stops (collect_chain chain) (fold_left add_decorator chain).
Proof.
  induction 1 as [|dec chain Hdec Hch IH]; cbn [collect_chain fold_left].
  - intros dl v Hdl. exists true, dl, v. split_and!; [done..|by right].
  - apply (adds_or_stops_bind _ (λ l, add_decorator l dec) _ (fold_left add_decorator chain)); [|done]. by apply push_resolved_adds.
Qed.

(** The dependencies of a definition, unless the arena refuses. *)
Lemma get_deps_correct d v :
  def_ok d → ∃ deps v', bebop__validate_get_deps d v = Some (deps, v') ∧ quiet v v' ∧
    (va_alloc_failed v' = true ∨ deps = deps_of d ∧ va_alloc_failed v' = va_alloc_failed v ∧ zlen deps ≤ UINT32_MAX).
Proof.
  intros (Hdec&Hbody). unfold bebop__validate_get_deps, deps_of.
  set (f := match df_body d with UnionDef branches => fold_left add_branch branches | b => fold_left add_type (body_types b) end).
  assert (H1 : adds_or_stops (λ dl, match df_body d with
     | UnknownDef => ub
     | UnionDef branches => collect_branches branches dl
     | b => dl ← collect_types (body_types b) dl; mret (true, dl)
     end) f).
  { subst f. destruct (df_body d); try done; try (apply adds_lifts; by apply collect_types_adds). by apply collect_branches_adds. }
  destruct (H1 (mkDeps [] 0) v) as (ok1&dl1&v1&E1&Hq1&Hd1&Hr1); [split; unfold zlen, UINT32_MAX; cbn; lia|].
  cbn [dl_items] in Hr1. rewrite (C_bind_Some _ _ _ _ _ E1). destruct ok1.
  - destruct (collect_chain_adds _ Hdec dl1 v1 Hd1) as (ok2&dl2&v2&E2&Hq2&(Hl1&Hl2)&Hr2). rewrite (C_bind_Some _ _ _ _ _ E2).
    eexists _, v2. split_and!; [done|by eapply quiet_trans|]. destruct Hr1 as [Hf|(_&Ei1&Ef1)]; [left; by apply Hq2|].
    destruct Hr2 as [Hf|(->&Ei2&Ef2)]; [by left|]. right. split_and!; [|congruence|lia].
    rewrite Ei2, Ei1. subst f. by destruct (df_body d).
  - eexists _, v1. split_and!; [done..|]. destruct Hr1 as [Hf|(?&_)]; [by left|done].
Qed.

End Validator.
