(* ===== verification/TopoProps.v ===== *)
(** Correctness of the order of definitions ([Toposort]): the graph that is built, Kahn's
    algorithm on it, and the search for a cycle. *)
From stdpp Require Import list relations finite.
From S2P Require Import Prelude.
From S2P Require Import Schema.
From S2P Require Import Toposort.

(** ** Counting edges *)

Fixpoint occ (x : nat) (l : list nat) : nat :=
  match l with [] => 0 | y :: l => (if decide (y = x) then 1 else 0) + occ x l end.

(** The edges into [x] from nodes outside of [P], counted with multiplicity; [adj] lists the
    successors of the nodes from [u] on. *)
Fixpoint open_from (P : list nat) (x u : nat) (adj : list (list nat)) : nat :=
  match adj with
  | [] => 0
  | es :: adj => (if decide (u ∈ P) then 0 else occ x es) + open_from P x (S u) adj
  end.
Definition open (P : list nat) (x : nat) (adj : list (list nat)) : nat := open_from P x 0 adj.

#[global] Arguments open : simpl never.

Definition edge (adj : list (list nat)) (u x : nat) : Prop := ∃ es, adj !! u = Some es ∧ x ∈ es.

Lemma occ_app x l l' : occ x (l ++ l') = (occ x l + occ x l')%nat.
Proof. induction l as [|y l IH]; cbn; [done|]. rewrite IH. lia. Qed.

Lemma occ_zero x l : occ x l = 0%nat ↔ x ∉ l.
Proof.
  induction l as [|y l IH]; cbn; [split; [intros _; apply not_elem_of_nil|done]|]. rewrite not_elem_of_cons, <- IH.
  destruct (decide (y = x)) as [->|Hne]; [split; [lia|naive_solver]|]. split; [intros; split; [congruence|lia]|naive_solver lia].
Qed.

Lemma open_from_zero P x u adj :
  open_from P x u adj = 0%nat ↔ ∀ i es, adj !! i = Some es → (u + i)%nat ∉ P → x ∉ es.
Proof.
  revert u. induction adj as [|es adj IH]; intros u; cbn [open_from].
  - split; [intros _ i es H; by rewrite lookup_nil in H|done].
  - rewrite Nat.eq_add_0, IH. split.
    + intros (H0&H) [|i] es' E Hi.
      * cbn in E. injection E as ->. rewrite Nat.add_0_r in Hi. rewrite decide_False in H0 by done. by apply occ_zero.
      * apply (H i); [done|]. by replace (S u + i)%nat with (u + S i)%nat by lia.
    + intros H. split.
      * destruct (decide (u ∈ P)); [done|]. apply occ_zero. apply (H 0%nat); [done|by rewrite Nat.add_0_r].
      * intros i es' E Hi. apply (H (S i)); [done|]. by replace (u + S i)%nat with (S u + i)%nat by lia.
Qed.

Lemma open_zero P x adj : open P x adj = 0%nat ↔ ∀ u, edge adj u x → u ∈ P.
Proof.
  unfold open. rewrite open_from_zero. split.
  - intros H u (es&E&Hx). destruct (decide (u ∈ P)) as [|Hn]; [done|]. by destruct (H u es E Hn).
  - intros H i es E Hi Hx. apply Hi, H. by exists es.
Qed.

(** One more node is done: its edges are not counted any more. *)
Lemma open_from_done P x u adj i es :
  adj !! i = Some es → (u + i)%nat ∉ P → open_from P x u adj = (open_from (P ++ [(u + i)%nat]) x u adj + occ x es)%nat.
Proof.
  revert u i. induction adj as [|es0 adj IH]; intros u i E Hi; [done|]. cbn [open_from]. destruct i as [|i].
  - cbn in E. injection E as ->. rewrite Nat.add_0_r in *. rewrite decide_False by done. rewrite decide_True by set_solver.
    assert (Hsame : ∀ adj v, (u < v)%nat → open_from P x v adj = open_from (P ++ [u]) x v adj).
    { clear. intros adj. induction adj as [|es adj IH]; intros v Hv; [done|]. cbn. rewrite <- IH by lia. f_equal.
      destruct (decide (v ∈ P)) as [Hv'|Hv']; [by rewrite decide_True by set_solver|]. rewrite decide_False; [done|].
      rewrite elem_of_app, list_elem_of_singleton. intros [?|?]; [done|lia]. }
    rewrite (Hsame adj (S u)) by lia. lia.
  - replace (u + S i)%nat with (S u + i)%nat in * by lia. rewrite (IH (S u) i E Hi).
    destruct (decide (u ∈ P)) as [Hu|Hu]; [rewrite decide_True by set_solver; lia|]. rewrite decide_False; [lia|].
    rewrite elem_of_app, list_elem_of_singleton. intros [?|?]; [done|lia].
Qed.

Lemma open_done P x adj i es :
  adj !! i = Some es → i ∉ P → open P x adj = (open (P ++ [i]) x adj + occ x es)%nat.
Proof. intros E Hi. by apply (open_from_done P x 0 adj i es). Qed.

(** One more edge. *)
Lemma open_from_insert x y u adj i es :
  adj !! i = Some es → open_from [] x u (<[i := es ++ [y]]> adj) = (open_from [] x u adj + if decide (y = x) then 1 else 0)%nat.
Proof.
  revert u i. induction adj as [|es0 adj IH]; intros u i E; [done|]. destruct i as [|i]; cbn in *.
  - injection E as ->. rewrite !decide_False by apply not_elem_of_nil. rewrite occ_app. cbn. lia.
  - rewrite IH by done. lia.
Qed.

(** ** Building the graph *)

Section Build.
Context (grants : nat → bool) (h : heap) (all_defs : list def_ptr) (name_to_idx : Z → option nat).

Abbreviation n := (length all_defs).
Hypothesis Hidx : ∀ name i, name_to_idx name = Some i → (i < n)%nat.
Hypothesis Hdefs : Forall (λ p, ∃ d, h !! p = Some d ∧ def_ok h d) all_defs.

(** The definition a name of [deps_of] leads an edge from, if it does. *)
Definition edge_source (i : nat) (pdef : def_ptr) (def : bebop_def_t) (name : Z) : option nat :=
  dep_idx ← bebop__validate_find_def_index name_to_idx name;
  pdep ← all_defs !! dep_idx; dep ← h !! pdep;
  if bool_decide (dep_idx = i) && match def_kind def with BEBOP_DEF_MESSAGE | BEBOP_DEF_UNION => true | _ => false end then None
  else if bebop__validate_is_message_branch_of pdef def pdep dep then None
  else if bebop__validate_is_message_branch_of pdep dep pdef def then None
  else Some dep_idx.

(** Definition [x] depends on definition [u]. *)
Definition depends (u x : nat) : Prop :=
  ∃ pdef def name, all_defs !! x = Some pdef ∧ h !! pdef = Some def ∧ name ∈ deps_of h def ∧ edge_source x pdef def name = Some u.

(** A graph on the definitions with its degrees. *)
Definition graph_ok (v : bebop_validator_t) : Prop :=
  length (va_adjacency v) = n ∧ length (va_adj_capacities v) = n ∧ length (va_in_degree v) = n ∧
  (∀ x d, va_in_degree v !! x = Some d → d = Z.of_nat (open [] x (va_adjacency v))) ∧
  ∀ x, Z.of_nat (open [] x (va_adjacency v)) ≤ UINT32_MAX.
Definition same_queue (v v' : bebop_validator_t) : Prop :=
  va_queue v' = va_queue v ∧ va_queue_head v' = va_queue_head v ∧ va_queue_capacity v' = va_queue_capacity v.

Lemma edge_insert adj i es y u x :
  adj !! i = Some es → edge (<[i := es ++ [y]]> adj) u x ↔ edge adj u x ∨ u = i ∧ x = y.
Proof.
  intros E. unfold edge. destruct (decide (u = i)) as [->|Hne].
  - rewrite list_lookup_insert_eq by (by eapply lookup_lt_Some). split.
    + intros (es'&[= <-]&[Hx|Hx%list_elem_of_singleton]%elem_of_app); [left; by exists es|by right].
    + intros [(es'&E'&Hx)|(_&->)]; eexists; (split; [done|]); [simplify_eq|]; set_solver.
  - rewrite list_lookup_insert_ne by done. naive_solver.
Qed.

Lemma add_edge_correct dep_idx def_idx v :
  graph_ok v → (dep_idx < n)%nat → (def_idx < n)%nat → Z.of_nat (open [] def_idx (va_adjacency v)) < UINT32_MAX →
  ∃ v', bebop__validate_add_edge grants dep_idx def_idx v = Some (tt, v') ∧
    (va_alloc_failed v' = true ∨
     va_alloc_failed v' = va_alloc_failed v ∧ graph_ok v' ∧ same_queue v v' ∧
     (∀ u x, edge (va_adjacency v') u x ↔ edge (va_adjacency v) u x ∨ u = dep_idx ∧ x = def_idx) ∧
     ∀ x, open [] x (va_adjacency v') = (open [] x (va_adjacency v) + if decide (def_idx = x) then 1 else 0)%nat).
Proof.
  intros (Hl1&Hl2&Hl3&Hdeg&Hall) Hdep Hdef Hmax. unfold bebop__validate_add_edge.
  destruct (lookup_lt_is_Some_2 (va_adjacency v) dep_idx) as (es&Ees); [lia|].
  destruct (lookup_lt_is_Some_2 (va_adj_capacities v) dep_idx) as (cap&Ecap); [lia|].
  destruct (lookup_lt_is_Some_2 (va_in_degree v) def_idx) as (d&Ed); [lia|].
  rewrite !(C_bind_Some (gets _) _ _ _ _ eq_refl). rewrite (C_lift_bind _ _ _ _ Ees), (C_lift_bind _ _ _ _ Ecap).
  assert (Happend : ∀ caps w, va_in_degree w = va_in_degree v → va_alloc_failed w = va_alloc_failed v → same_queue v w → length caps = n →
    ∃ v', append_edge dep_idx def_idx (va_adjacency v) es caps w = Some (tt, v') ∧ va_alloc_failed v' = va_alloc_failed v ∧ graph_ok v' ∧ same_queue v v' ∧
     (∀ u x, edge (va_adjacency v') u x ↔ edge (va_adjacency v) u x ∨ u = dep_idx ∧ x = def_idx) ∧
     ∀ x, open [] x (va_adjacency v') = (open [] x (va_adjacency v) + if decide (def_idx = x) then 1 else 0)%nat).
  { intros caps w Hw Hf Hq Hc. unfold append_edge. rewrite (C_bind_Some (gets _) _ _ _ _ eq_refl), Hw, (C_lift_bind _ _ _ _ Ed).
    assert (Hopen : ∀ x, open [] x (<[dep_idx := es ++ [def_idx]]> (va_adjacency v)) = (open [] x (va_adjacency v) + if decide (def_idx = x) then 1 else 0)%nat)
      by (intros x; by apply open_from_insert).
    eexists. split; [reflexivity|]. cbn. split_and!; [done| |done|intros u x; by apply edge_insert|exact Hopen].
    unfold graph_ok. cbn. rewrite !length_insert.
    split_and!; [done..| |intros x; rewrite Hopen; specialize (Hall x); destruct (decide (def_idx = x)); [subst|]; lia]. intros x d'. pose proof (Hdeg _ _ Ed) as Hd. rewrite Hopen.
    destruct (decide (def_idx = x)) as [->|Hne].
    - rewrite list_lookup_insert_eq by lia. intros [= <-]. rewrite u32_small by (unfold UINT32_MAX in *; lia). lia.
    - rewrite list_lookup_insert_ne by done. intros E'. rewrite (Hdeg _ _ E'). lia. }
  destruct (cap <=? zlen es).
  - destruct ((if cap =? 0 then 4 else BEBOP_DOUBLE_CAPACITY_U32 cap) =? 0); [eexists; split; [reflexivity|by left]|].
    rewrite (C_bind_Some _ _ _ _ _ (request_eq grants v)). destruct (grants (va_requests v)).
    + destruct (Happend (<[dep_idx := if cap =? 0 then 4 else BEBOP_DOUBLE_CAPACITY_U32 cap]> (va_adj_capacities v)) (set_requests (S (va_requests v)) v))
        as (v'&E&H); [done..|by rewrite length_insert|]. exists v'. split; [exact E|by right].
    + eexists; split; [reflexivity|by left].
  - destruct (Happend (va_adj_capacities v) v) as (v'&E&H); [done..|]. exists v'. split; [exact E|by right].
Qed.

Lemma same_queue_trans v1 v2 v3 : same_queue v1 v2 → same_queue v2 v3 → same_queue v1 v3.
Proof. unfold same_queue. intros (?&?&?) (?&?&?). split_and!; congruence. Qed.

Lemma find_def_index_lt name i : bebop__validate_find_def_index name_to_idx name = Some i → (i < n)%nat.
Proof.
  unfold bebop__validate_find_def_index. destruct (bebop_str_is_null name); [done|].
  destruct (name_to_idx name) as [j|] eqn:E; [|done]. cbn. case_match; [|done]. intros [= <-]. by eapply Hidx.
Qed.

Lemma def_lookup i : (i < n)%nat → ∃ p d, all_defs !! i = Some p ∧ h !! p = Some d ∧ def_ok h d.
Proof.
  intros Hi. destruct (lookup_lt_is_Some_2 all_defs i Hi) as (p&E). rewrite Forall_lookup in Hdefs.
  destruct (Hdefs i p E) as (d&Ed&Hd). by exists p, d.
Qed.

Lemma add_dependency_eq i pdef def name v :
  add_dependency grants h all_defs name_to_idx i pdef def name v =
    match edge_source i pdef def name with
    | None => Some (tt, v)
    | Some u => bebop__validate_add_edge grants u i v
    end.
Proof.
  unfold add_dependency, edge_source. destruct (bebop__validate_find_def_index name_to_idx name) as [dep_idx|] eqn:Eidx; [|done].
  destruct (def_lookup dep_idx (find_def_index_lt _ _ Eidx)) as (pdep&dep&Ep&Ed&_). cbn [mbind option_bind].
  rewrite (C_lift_bind _ _ _ _ Ep), Ep. cbn [mbind option_bind]. unfold deref. rewrite (C_lift_bind _ _ _ _ Ed), Ed. cbn [mbind option_bind].
  destruct (bool_decide (dep_idx = i) && _); [done|]. destruct (bebop__validate_is_message_branch_of pdef def pdep dep); [done|].
  by destruct (bebop__validate_is_message_branch_of pdep dep pdef def).
Qed.

Lemma edge_source_lt i pdef def name u : edge_source i pdef def name = Some u → (u < n)%nat.
Proof.
  unfold edge_source. destruct (bebop__validate_find_def_index name_to_idx name) as [dep_idx|] eqn:Eidx; [|done].
  destruct (def_lookup dep_idx (find_def_index_lt _ _ Eidx)) as (pdep&dep&Ep&Ed&_). cbn [mbind option_bind]. rewrite Ep. cbn [mbind option_bind].
  rewrite Ed. cbn [mbind option_bind]. intros Hu. assert (dep_idx = u) as <- by (repeat case_match; congruence). by eapply find_def_index_lt.
Qed.

(** The edges into one definition. *)
Lemma add_edges_correct i pdef def deps : ∀ v,
  graph_ok v → va_alloc_failed v = false → (i < n)%nat → Z.of_nat (open [] i (va_adjacency v)) + zlen deps ≤ UINT32_MAX →
  ∃ v', add_edges grants h all_defs name_to_idx i pdef def deps v = Some (tt, v') ∧
    (va_alloc_failed v' = true ∨
     va_alloc_failed v' = false ∧ graph_ok v' ∧ same_queue v v' ∧
     (∀ u x, edge (va_adjacency v') u x ↔
        edge (va_adjacency v) u x ∨ x = i ∧ ∃ name, name ∈ deps ∧ edge_source i pdef def name = Some u) ∧
     ∀ x, x ≠ i → open [] x (va_adjacency v') = open [] x (va_adjacency v)).
Proof.
  induction deps as [|name deps IH]; intros v Hg Hf Hi Hmax; cbn [add_edges].
  { exists v. split; [done|]. right. split_and!; [done..| |done]. intros u x. split; [by left|]. intros [?|(_&name&Hn&_)]; [done|].
    by apply not_elem_of_nil in Hn. }
  rewrite (C_bind_Some (gets _) _ _ _ _ eq_refl), Hf. assert (Hz : zlen (name :: deps) = zlen deps + 1) by (unfold zlen; cbn; lia).
  pose proof (zlen_nonneg deps) as Hzn. pose proof (add_dependency_eq i pdef def name v) as Hstep.
  destruct (edge_source i pdef def name) as [u0|] eqn:Esrc.
  - destruct (add_edge_correct u0 i v Hg (edge_source_lt _ _ _ _ _ Esrc) Hi ltac:(lia)) as (v1&E1&H1). rewrite E1 in Hstep.
    rewrite (C_bind_Some _ _ _ _ _ Hstep). destruct H1 as [Hf1|(Hf1&Hg1&Hq1&He1&Ho1)].
    { exists v1. split; [|by left]. destruct deps; cbn [add_edges]; [done|]. by rewrite (C_bind_Some (gets _) _ _ _ _ eq_refl), Hf1. }
    destruct (IH v1) as (v2&E2&H2); [done|congruence|done|rewrite Ho1, decide_True by done; lia|]. exists v2. split; [done|].
    destruct H2 as [?|(Hf2&Hg2&Hq2&He2&Ho2)]; [by left|right]. split_and!; [done|done|by eapply same_queue_trans| |].
    + intros u x. rewrite He2, He1. set_unfold. naive_solver.
    + intros x Hx. rewrite Ho2, Ho1, decide_False by done. lia.
  - rewrite (C_bind_Some _ _ _ _ _ Hstep). destruct (IH v Hg Hf Hi ltac:(lia)) as (v2&E2&H2). exists v2. split; [done|].
    destruct H2 as [?|(Hf2&Hg2&Hq2&He2&Ho2)]; [by left|right]. split_and!; [done..| |done].
    intros u x. rewrite He2. set_unfold. naive_solver congruence.
Qed.

(** All edges, into the definitions from [i] on. *)
Lemma build_graph_correct ps : ∀ i v,
  drop i all_defs = ps → graph_ok v → va_alloc_failed v = false →
  (∀ x, (i ≤ x)%nat → open [] x (va_adjacency v) = 0%nat) → (∀ u x, edge (va_adjacency v) u x ↔ (x < i)%nat ∧ depends u x) →
  ∃ v', build_graph grants h all_defs name_to_idx i ps v = Some (tt, v') ∧
    (va_alloc_failed v' = true ∨
     va_alloc_failed v' = false ∧ graph_ok v' ∧ same_queue v v' ∧ ∀ u x, edge (va_adjacency v') u x ↔ depends u x).
Proof.
  induction ps as [|p ps IH]; intros i v Hps Hg Hf Hzero Hedge; cbn [build_graph].
  { exists v. split; [done|]. right. split_and!; [done..|]. intros u x. rewrite Hedge. split; [by intros (_&?)|]. intros Hd. split; [|done].
    destruct Hd as (pdef&def&name&Ex&_). apply lookup_lt_Some in Ex. apply (f_equal length) in Hps. rewrite length_drop in Hps. cbn in Hps. lia. }
  rewrite (C_bind_Some (gets _) _ _ _ _ eq_refl), Hf.
  assert (Ep : all_defs !! i = Some p) by (rewrite <- (Nat.add_0_r i), <- lookup_drop, Hps; done).
  assert (Hi : (i < n)%nat) by (by eapply lookup_lt_Some). destruct (def_lookup i Hi) as (p'&d&Ep'&Ed&Hdok). simplify_eq.
  unfold deref. rewrite (C_lift_bind _ _ _ _ Ed). destruct (get_deps_correct grants h d v Hdok) as (deps&v1&E1&Hq1&H1).
  rewrite (C_bind_Some _ _ _ _ _ E1). destruct Hq1 as (Q1&Q2&Q3&Q4&Q5&Q6&Q7).
  assert (Hstop : ∀ w ps' j, va_alloc_failed w = true → build_graph grants h all_defs name_to_idx j ps' w = Some (tt, w)).
  { intros w [|p' ps'] j Hw; cbn [build_graph]; [done|]. by rewrite (C_bind_Some (gets _) _ _ _ _ eq_refl), Hw. }
  destruct H1 as [Hf1|(->&Hf1&Hlen)].
  { exists v1. split; [|by left]. assert (Hae : add_edges grants h all_defs name_to_idx i p d deps v1 = Some (tt, v1)).
    { destruct deps; cbn [add_edges]; [done|]. by rewrite (C_bind_Some (gets _) _ _ _ _ eq_refl), Hf1. }
    rewrite (C_bind_Some _ _ _ _ _ Hae). by apply Hstop. }
  destruct (add_edges_correct i p d (deps_of h d) v1) as (v2&E2&H2).
  { unfold graph_ok in *. by rewrite Q1, Q2, Q3. }
  { congruence. }
  { done. }
  { rewrite Q2, Hzero by lia. lia. }
  rewrite (C_bind_Some _ _ _ _ _ E2). destruct H2 as [Hf2|(Hf2&Hg2&Hq2&He2&Ho2)].
  { exists v2. split; [by apply Hstop|by left]. }
  destruct (IH (S i) v2) as (v3&E3&H3); [|done|done| | |].
  - rewrite <- Nat.add_1_r, <- drop_drop, Hps. done.
  - intros x Hx. rewrite Ho2 by lia. rewrite Q2. apply Hzero. lia.
  - intros u x. rewrite He2, Q2, Hedge. split.
    + intros [(Hx&?)|(->&name&Hn&Hs)]; [split; [lia|done]|]. split; [lia|]. by exists p, d, name.
    + intros (Hx&Hd). destruct (decide (x = i)) as [->|Hne]; [right|left; split; [lia|done]].
      destruct Hd as (pdef&def&name&Ex&Ed'&Hn&Hs). simplify_eq. split; [done|]. by exists name.
  - exists v3. split; [done|]. destruct H3 as [?|(Hf3&Hg3&Hq3&He3)]; [by left|right]. split_and!; [done|done| |done].
    apply (same_queue_trans v v2 v3); [|done]. apply (same_queue_trans v v1 v2); [|done]. done.
Qed.

End Build.

(** ** Kahn's algorithm *)

Section Kahn.
Context (n : nat) (adj : list (list nat)).
Hypothesis Hlen : length adj = n.
Hypothesis Hrange : ∀ u x, edge adj u x → (x < n)%nat.
Hypothesis Hmax : ∀ x, (x < n)%nat → Z.of_nat (open [] x adj) ≤ UINT32_MAX.

(** Every node stands behind the nodes with an edge to it. *)
Definition ordered (l : list nat) : Prop :=
  ∀ i x u, l !! i = Some x → edge adj u x → ∃ j, (j < i)%nat ∧ l !! j = Some u.

(** The state of the loop when the nodes of [P] are done but for the edges to [rest]. *)
Definition kahn_ok (P rest : list nat) (v : bebop_validator_t) : Prop :=
  va_adjacency v = adj ∧ va_queue_capacity v = n ∧ take (va_queue_head v) (va_queue v) = P ∧ (va_queue_head v ≤ length (va_queue v))%nat ∧
  length (va_in_degree v) = n ∧
  (∀ x d, va_in_degree v !! x = Some d → d = Z.of_nat (open P x adj + occ x rest)) ∧
  NoDup (va_queue v) ∧ (∀ x, x ∈ va_queue v ↔ (x < n)%nat ∧ (open P x adj + occ x rest = 0)%nat) ∧ ordered (va_queue v).

Lemma open_mono P x : (open P x adj ≤ open [] x adj)%nat.
Proof.
  assert (H : ∀ a u, (open_from P x u a ≤ open_from [] x u a)%nat); [|apply H].
  induction a as [|es a IH]; intros u; cbn [open_from]; [done|]. specialize (IH (S u)).
  rewrite (decide_False (P := u ∈ [])) by apply not_elem_of_nil. destruct (decide (u ∈ P)); lia.
Qed.

Lemma nodup_bounded (l : list nat) : NoDup l → (∀ x, x ∈ l → (x < n)%nat) → (length l ≤ n)%nat.
Proof.
  intros Hnd Hl. rewrite <- (length_seq n 0). apply submseteq_length, NoDup_submseteq; [done|].
  intros x Hx. apply elem_of_seq. specialize (Hl x Hx). lia.
Qed.

(** The degrees of the successors go down. *)
Lemma release_correct P es : ∀ v,
  kahn_ok P es v → va_alloc_failed v = false → (∀ x, x ∈ es → (x < n)%nat) →
  (∀ x, x ∈ es → Z.of_nat (open P x adj + occ x es) ≤ UINT32_MAX) →
  ∃ v', release es v = Some (true, v') ∧ kahn_ok P [] v' ∧ va_alloc_failed v' = false ∧ va_queue_head v' = va_queue_head v.
Proof.
  induction es as [|x es IH]; intros v Hk Hf Hes Hbound; cbn [release]; [by exists v|].
  destruct Hk as (Ha&Hc&HP&Hh&Hl&Hdeg&Hnd&Hq&Ho). assert (Hx : (x < n)%nat) by (apply Hes; set_solver).
  destruct (lookup_lt_is_Some_2 (va_in_degree v) x) as (d&Ed); [lia|].
  rewrite (C_bind_Some (gets _) _ _ _ _ eq_refl), (C_lift_bind _ _ _ _ Ed). pose proof (Hdeg _ _ Ed) as Hd.
  assert (Hx1 : occ x (x :: es) = S (occ x es)) by (cbn; by rewrite decide_True).
  pose proof (Hbound x ltac:(set_solver)) as Hb. rewrite Hx1 in Hd, Hb.
  assert (Ed1 : u32 (d - 1) = Z.of_nat (open P x adj + occ x es)) by (rewrite u32_small by (unfold UINT32_MAX in *; lia); lia).
  assert (Hocc : ∀ y, y ≠ x → occ y (x :: es) = occ y es) by (intros y Hy; cbn; by rewrite decide_False).
  assert (Hdeg' : ∀ y e, <[x := u32 (d - 1)]> (va_in_degree v) !! y = Some e → e = Z.of_nat (open P y adj + occ y es)).
  { intros y e. destruct (decide (y = x)) as [->|Hne].
    - rewrite list_lookup_insert_eq by lia. by intros [= <-].
    - rewrite list_lookup_insert_ne by done. intros E. rewrite <- Hocc by done. by apply Hdeg. }
  assert (Hbound' : ∀ y, y ∈ es → Z.of_nat (open P y adj + occ y es) ≤ UINT32_MAX).
  { intros y Hy. specialize (Hbound y ltac:(set_solver)). cbn in Hbound. lia. }
  assert (Hnotin : x ∉ va_queue v) by (rewrite Hq, Hx1; lia).
  rewrite (C_bind_Some (modify _) _ _ _ _ eq_refl). destruct (Z.eqb_spec (u32 (d - 1)) 0) as [E0|E0].
  - rewrite !(C_bind_Some (gets _) _ _ _ _ eq_refl). cbn [set_in_degree va_queue va_queue_head va_queue_capacity].
    assert (Hfull : (length (va_queue v ++ [x]) ≤ n)%nat).
    { apply nodup_bounded; [apply NoDup_app; split_and!; [done|set_solver|apply NoDup_singleton]|].
      intros y [Hy%Hq|Hy%list_elem_of_singleton]%elem_of_app; [by destruct Hy|by subst]. }
    rewrite length_app in Hfull. cbn in Hfull. rewrite Hc. destruct (Nat.leb_spec n (length (va_queue v))); [lia|].
    rewrite (C_bind_Some (modify _) _ _ _ _ eq_refl).
    destruct (IH (set_queue (va_queue v ++ [x]) (va_queue_head v) (set_in_degree (<[x := u32 (d - 1)]> (va_in_degree v)) v))) as (v'&E'&Hk'&Hf'&Hh');
      [|done|intros y Hy; apply Hes; set_solver|done|by exists v'].
    unfold kahn_ok. cbn. rewrite length_insert, length_app. split_and!; try done; try lia.
    + by rewrite take_app_le by done.
    + apply NoDup_app. split_and!; [done|set_solver|apply NoDup_singleton].
    + intros y. rewrite elem_of_app, list_elem_of_singleton, Hq. destruct (decide (y = x)) as [->|Hne]; [|rewrite Hocc by done; naive_solver].
      rewrite Hx1. split; [intros [?|_]; [lia|]|by right]. split; [done|lia].
    + intros i y u Ey Hu. apply lookup_app_Some in Ey as [Ey|(Hi&Ey)].
      * destruct (Ho i y u Ey Hu) as (j&Hj&Ej). exists j. split; [done|]. by apply lookup_app_l_Some.
      * assert (y = x) as -> by (destruct (i - length (va_queue v))%nat as [|[]]; cbn in Ey; congruence).
        assert (Hopen0 : open P x adj = 0%nat) by lia. pose proof (proj1 (open_zero P x adj) Hopen0 u Hu) as HuP. rewrite <- HP in HuP.
        apply list_elem_of_lookup in HuP as (j&Ej). apply lookup_take_Some in Ej as (Ej&_). exists j. apply lookup_lt_Some in Ej as Hj.
        split; [lia|]. by apply lookup_app_l_Some.
  - destruct (IH (set_in_degree (<[x := u32 (d - 1)]> (va_in_degree v)) v)) as (v'&E'&Hk'&Hf'&Hh');
      [|done|intros y Hy; apply Hes; set_solver|done|by exists v'].
    unfold kahn_ok. cbn. rewrite length_insert. split_and!; try done.
    intros y. rewrite Hq. destruct (decide (y = x)) as [->|Hne]; [|by rewrite Hocc by done]. rewrite Hx1. split; [lia|]. intros (_&?). lia.
Qed.

Lemma kahn_loop_correct fuel : ∀ P v,
  kahn_ok P [] v → va_alloc_failed v = false → (n ≤ fuel + va_queue_head v)%nat →
  ∃ q v', kahn_loop fuel P v = Some (Some q, v') ∧ kahn_ok q [] v' ∧ va_queue v' = q ∧ va_alloc_failed v' = false.
Proof.
  induction fuel as [|fuel IH]; intros P v Hk Hf Hfuel; cbn [kahn_loop]; rewrite !(C_bind_Some (gets _) _ _ _ _ eq_refl);
    pose proof Hk as (Ha&Hc&HP&Hh&Hl&Hdeg&Hnd&Hq&Ho);
    (destruct (va_queue v !! va_queue_head v) as [idx|] eqn:Ei;
      [|apply lookup_ge_None in Ei; rewrite firstn_all2 in HP by done; exists P, v; split_and!; done]).
  { apply lookup_lt_Some in Ei. assert (length (va_queue v) ≤ n)%nat; [|lia]. apply nodup_bounded; [done|]. intros x Hx. by apply Hq in Hx as (?&_). }
  rewrite (C_bind_Some (modify _) _ _ _ _ eq_refl), (C_bind_Some (gets _) _ _ _ _ eq_refl).
  assert (Hidx : (idx < n)%nat) by (apply list_elem_of_lookup_2 in Ei; by apply Hq in Ei as (?&_)).
  assert (HidxP : idx ∉ P).
  { rewrite <- HP. intros Hin. apply list_elem_of_lookup in Hin as (j&Ej). apply lookup_take_Some in Ej as (Ej&Hj).
    pose proof (NoDup_lookup _ _ _ _ Hnd Ej Ei). lia. }
  destruct (lookup_lt_is_Some_2 adj idx) as (es&Ees); [lia|]. cbn [set_queue va_adjacency]. rewrite Ha, (C_lift_bind _ _ _ _ Ees).
  assert (Hsplit : ∀ x, (open (P ++ [idx]) x adj + occ x es = open P x adj)%nat) by (intros x; symmetry; by apply open_done).
  assert (Hes : ∀ x, x ∈ es → (x < n)%nat) by (intros x Hx; apply (Hrange idx); by exists es).
  apply lookup_lt_Some in Ei as Hi.
  destruct (release_correct (P ++ [idx]) es (set_queue (va_queue v) (S (va_queue_head v)) v)) as (v1&E1&Hk1&Hf1&Hh1).
  { unfold kahn_ok. cbn. split_and!; try done.
    - rewrite (take_S_r _ _ _ Ei). by rewrite HP.
    - intros x d Ed. rewrite Hsplit. rewrite (Hdeg _ _ Ed). cbn. lia.
    - intros x. rewrite Hsplit, Hq. cbn. by rewrite Nat.add_0_r. }
  { done. }
  { done. }
  { intros x Hx. rewrite Hsplit. pose proof (open_mono P x). specialize (Hmax x (Hes x Hx)). lia. }
  rewrite (C_bind_Some _ _ _ _ _ E1). apply IH; [done|done|]. rewrite Hh1. cbn. lia.
Qed.

(** *** The end of the loop *)

Lemma kahn_end q v : kahn_ok q [] v → va_queue v = q → NoDup q ∧ ordered q ∧ ∀ x, x ∈ q ↔ (x < n)%nat ∧ ∀ u, edge adj u x → u ∈ q.
Proof.
  intros (Ha&Hc&HP&Hh&Hl&Hdeg&Hnd&Hq&Ho) E. rewrite E in *. split_and!; [done..|]. intros x. rewrite Hq. cbn. rewrite Nat.add_0_r, open_zero. done.
Qed.

(** No cycle goes through the nodes in order. *)
Lemma ordered_path l : ordered l → ∀ u x, tc (edge adj) u x → ∀ i, l !! i = Some x → ∃ j, (j < i)%nat ∧ l !! j = Some u.
Proof.
  intros Ho u x. induction 1 as [u x Hux|u y x Huy Hyx IH]; intros i Ei.
  - by apply (Ho i x u).
  - destruct (IH i Ei) as (j&Hj&Ej). destruct (Ho j y u Ej Huy) as (k&Hk&Ek). exists k. split; [lia|done].
Qed.

(** Consecutive nodes of a walk are joined by edges. *)
Definition walk (l : list nat) : Prop := ∀ i u x, l !! i = Some u → l !! S i = Some x → edge adj u x.

Lemma walk_tc l : walk l → ∀ i j u x, (i < j)%nat → l !! i = Some u → l !! j = Some x → tc (edge adj) u x.
Proof.
  intros Hw i j. induction j as [|j IH]; intros u x Hij Eu Ex; [lia|].
  destruct (lookup_lt_is_Some_2 l j) as (y&Ey); [apply lookup_lt_Some in Ex; lia|]. pose proof (Hw j y x Ey Ex) as He.
  destruct (decide (i = j)) as [->|Hne]; [simplify_eq; by apply tc_once|].
  eapply tc_r; [|exact He]. apply IH; [lia|done|done].
Qed.

(** A node that stays outside of [q] is on or behind a cycle. *)
Lemma cycle_of_rest (q : list nat) x :
  (∀ y, y ∈ q ↔ (y < n)%nat ∧ ∀ u, edge adj u y → u ∈ q) → (x < n)%nat → x ∉ q → ∃ c, tc (edge adj) c c.
Proof.
  intros Hq Hx Hnot. assert (Hpred : ∀ y, (y < n)%nat → y ∉ q → ∃ u, edge adj u y ∧ (u < n)%nat ∧ u ∉ q).
  { intros y Hy Hyq. destruct (decide (Exists (λ u, u ∉ q ∧ y ∈ default [] (adj !! u)) (seq 0 n))) as [Hsome|Hnone].
    - apply Exists_exists in Hsome as (u&Hu&Huq&Hy'). apply elem_of_seq in Hu. exists u. split_and!; [|lia|done].
      destruct (adj !! u) as [es|] eqn:E; [by exists es|by apply not_elem_of_nil in Hy'].
    - destruct Hyq. apply Hq. split; [done|]. intros u (es&E&Hes). destruct (decide (u ∈ q)) as [|Huq]; [done|].
      destruct Hnone. apply Exists_exists. exists u. split; [|by rewrite E]. apply elem_of_seq. apply lookup_lt_Some in E. lia. }
  assert (Hwalk : ∀ k, ∃ l, length l = S k ∧ walk l ∧ ∀ y, y ∈ l → (y < n)%nat ∧ y ∉ q).
  { induction k as [|k (l&Hl&Hw&Hin)].
    - exists [x]. split_and!; [done| |by intros y ->%list_elem_of_singleton]. intros i u y _ E. by destruct i.
    - destruct l as [|y l]; [done|]. destruct (Hin y) as (Hy&Hyq); [set_solver|]. destruct (Hpred y Hy Hyq) as (u&Hu&Hun&Huq).
      exists (u :: y :: l). split_and!; [cbn in *; lia| |intros z [->|Hz]%elem_of_cons; [done|by apply Hin]].
      intros [|i] a b Ea Eb; [cbn in Ea, Eb; by simplify_eq|]. by apply (Hw i a b). }
  destruct (Hwalk n) as (l&Hl&Hw&Hin). destruct (list_pigeonhole l (seq 0 n)) as (i&j&c&Hij&Ei&Ej).
  - intros y Hy. apply elem_of_seq. destruct (Hin y Hy) as (?&_). lia.
  - rewrite length_seq. lia.
  - exists c. by apply (walk_tc l Hw i j).
Qed.

(** *** The roots *)

(** The state when the nodes below [i] have been looked at. *)
Definition roots_ok (i : nat) (v : bebop_validator_t) : Prop :=
  va_adjacency v = adj ∧ va_queue_capacity v = n ∧ va_queue_head v = 0%nat ∧ length (va_in_degree v) = n ∧
  (∀ x d, va_in_degree v !! x = Some d → d = Z.of_nat (open [] x adj)) ∧
  NoDup (va_queue v) ∧ (∀ x, x ∈ va_queue v ↔ (x < i)%nat ∧ open [] x adj = 0%nat) ∧ va_alloc_failed v = false.

Lemma enqueue_roots_correct k : ∀ i v,
  roots_ok i v → (i + k = n)%nat → ∃ v', enqueue_roots i k v = Some (tt, v') ∧ roots_ok n v'.
Proof.
  induction k as [|k IH]; intros i v Hr Hi; cbn [enqueue_roots].
  { exists v. split; [done|]. by replace n with i by lia. }
  destruct Hr as (Ha&Hc&Hh&Hl&Hdeg&Hnd&Hq&Hf). destruct (lookup_lt_is_Some_2 (va_in_degree v) i) as (d&Ed); [lia|].
  rewrite (C_bind_Some (gets _) _ _ _ _ eq_refl), (C_lift_bind _ _ _ _ Ed). pose proof (Hdeg _ _ Ed) as Hd.
  destruct (Z.eqb_spec d 0) as [E0|E0].
  - assert (Hstep : (q ← gets va_queue; hd ← gets va_queue_head; modify (set_queue (q ++ [i]) hd)) v = Some (tt, set_queue (va_queue v ++ [i]) (va_queue_head v) v)) by done.
    rewrite (C_bind_Some _ _ _ _ _ Hstep). apply IH; [|lia]. unfold roots_ok. cbn. split_and!; try done.
    + apply NoDup_app. split_and!; [done|intros y Hy ->%list_elem_of_singleton; apply Hq in Hy; lia|apply NoDup_singleton].
    + intros x. rewrite elem_of_app, list_elem_of_singleton, Hq. destruct (decide (x = i)) as [->|Hne].
      * split; [intros _; lia|by right].
      * split; [intros [?|?]; [lia|done]|intros (?&?); left; lia].
  - rewrite (C_bind_Some (mret tt) _ _ _ _ eq_refl). apply IH; [|lia]. unfold roots_ok. split_and!; try done.
    intros x. rewrite Hq. destruct (decide (x = i)) as [->|Hne]; lia.
Qed.

Lemma roots_kahn v : roots_ok n v → kahn_ok [] [] v.
Proof.
  intros (Ha&Hc&Hh&Hl&Hdeg&Hnd&Hq&Hf). unfold kahn_ok. rewrite Hh. split_and!; try done; try lia.
  - intros x d E. rewrite (Hdeg _ _ E). cbn. lia.
  - intros x. rewrite Hq. cbn. by rewrite Nat.add_0_r.
  - intros i x u Ex Hu. apply list_elem_of_lookup_2, Hq in Ex as (_&Ex). pose proof (proj1 (open_zero [] x adj) Ex u Hu) as Hin.
    by apply not_elem_of_nil in Hin.
Qed.

End Kahn.

(** ** The search for a cycle *)

Section Search.
Context (all_defs : list def_ptr) (adj : list (list nat)).

Abbreviation n := (length all_defs).
Hypothesis Hlen : length adj = n.
Hypothesis Hrange : ∀ u x, edge adj u x → (x < n)%nat.

(** Where the search is: [fin] lists the finished nodes; the stack is the path, or the path
    and a node that is not marked yet. *)
Record search_ok (start : nat) (fin : list nat) (visited : list Z) (path stack : list nat) : Prop := {
  so_len : length visited = n;
  so_nodup : NoDup (fin ++ stack);
  so_lt : ∀ x, x ∈ fin ++ stack → (x < n)%nat;
  so_start : start ∈ fin ++ stack;
  so_stack : stack = path ∨ ∃ x, stack = path ++ [x];
  so_marks : ∀ x m, visited !! x = Some m → m = if decide (x ∈ fin) then 2 else if decide (x ∈ path) then 1 else 0;
  so_walk : walk adj stack;
  so_fin : ∀ i u x, fin !! i = Some u → edge adj u x → ∃ j, (j < i)%nat ∧ fin !! j = Some x
}.

Lemma next_successor_correct visited es :
  (∀ x, x ∈ es → ∃ m, visited !! x = Some m ∧ (m = 0 ∨ m = 1 ∨ m = 2)) →
  ∃ r, next_successor visited es = Some r ∧
    match r with
    | Some (c, x) => x ∈ es ∧ visited !! x = Some c ∧ (c = 0 ∨ c = 1)
    | None => ∀ x, x ∈ es → visited !! x = Some 2
    end.
Proof.
  induction es as [|x es IH]; intros Hes; cbn [next_successor].
  - exists None. split; [done|]. intros x Hx. by apply not_elem_of_nil in Hx.
  - destruct (Hes x) as (m&Em&Hm); [set_solver|]. rewrite Em. cbn [mbind option_bind].
    destruct Hm as [-> | [-> | ->]]; cbn [Z.eqb Pos.eqb orb].
    + exists (Some (0, x)). split; [done|]. split_and!; [set_solver|done|by left].
    + exists (Some (1, x)). split; [done|]. split_and!; [set_solver|done|by right].
    + destruct IH as (r&Er&Hr); [intros y Hy; apply Hes; set_solver|]. exists r. split; [done|]. destruct r as [[c y]|].
      * destruct Hr as (Hy&?&?). split_and!; [set_solver|done|done].
      * intros y [->|Hy]%elem_of_cons; [done|by apply Hr].
Qed.

Lemma walk_snoc l u x : walk adj (l ++ [u]) → edge adj u x → walk adj (l ++ [u; x]).
Proof.
  intros Hw He i a b Ea Eb. destruct (decide (S i < length (l ++ [u]))%nat) as [Hi|Hi].
  - replace (l ++ [u; x]) with ((l ++ [u]) ++ [x]) in * by by rewrite <- app_assoc.
    rewrite lookup_app_l in Ea by lia. rewrite lookup_app_l in Eb by lia. by apply (Hw i).
  - rewrite length_app in Hi. cbn in Hi. apply lookup_lt_Some in Eb as Hb. rewrite length_app in Hb. cbn in Hb.
    assert (i = length l) as -> by lia. rewrite list_lookup_middle in Ea by done. rewrite lookup_app_r in Eb by lia.
    replace (S (length l) - length l)%nat with 1%nat in Eb by lia. cbn in Eb. by simplify_eq.
Qed.

Lemma walk_prefix l l' : walk adj (l ++ l') → walk adj l.
Proof. intros Hw i a b Ea Eb. apply (Hw i); by apply lookup_app_l_Some. Qed.

(** What the search finds. *)
Definition search_result (start : nat) (r : search_end) : Prop :=
  match r with
  | CycleAt path x => NoDup path ∧ x ∈ path ∧ walk adj path ∧ ∃ u, last path = Some u ∧ edge adj u x
  | NoCycle => ∀ c, (start = c ∨ tc (edge adj) start c) → ¬ tc (edge adj) c c
  end.

(** The node on top gets its mark. *)
Lemma search_mark start fin visited path stack idx :
  search_ok start fin visited path stack → last stack = Some idx →
  ∃ mark, visited !! idx = Some mark ∧ (mark =? 0) && (n <=? length path)%nat = false ∧
    ∃ path' visited', (if mark =? 0 then (<[idx := 1]> visited, path ++ [idx]) else (visited, path)) = (visited', path') ∧
      stack = path' ∧ search_ok start fin visited' path' path' ∧ NoDup path'.
Proof.
  intros [Hl Hnd Hlt Hst Hstack Hm Hw Hfin] Hlast.
  assert (Hin : idx ∈ stack) by (apply last_Some in Hlast as (l&->); set_solver).
  assert (Hidx : (idx < n)%nat) by (apply Hlt; set_solver). destruct (lookup_lt_is_Some_2 visited idx) as (mark&Emark); [lia|].
  exists mark. split; [done|]. pose proof (Hm _ _ Emark) as Hmark.
  apply NoDup_app in Hnd as Hnd'. destruct Hnd' as (Hndf&Hdisj&Hnds).
  rewrite decide_False in Hmark by (intros ?; by apply (Hdisj idx)).
  destruct Hstack as [->|(x&->)].
  - rewrite decide_True in Hmark by done. subst mark. split; [done|]. exists path, visited. split_and!; try done. constructor; try done. by left.
  - rewrite last_snoc in Hlast. injection Hlast as ->. apply NoDup_app in Hnds as Hp. destruct Hp as (Hndp&Hdp&_).
    assert (Hnp : idx ∉ path) by (intros H; by apply (Hdp idx H); set_solver). rewrite decide_False in Hmark by done. subst mark. cbn [Z.eqb andb].
    assert (Hfull : (length (path ++ [idx]) ≤ n)%nat).
    { rewrite <- (length_seq n 0). apply submseteq_length, NoDup_submseteq; [done|]. intros y Hy. apply elem_of_seq.
      specialize (Hlt y ltac:(set_solver)). lia. }
    rewrite length_app in Hfull. cbn in Hfull. split; [apply Nat.leb_gt; lia|]. exists (path ++ [idx]), (<[idx := 1]> visited). split_and!; try done.
    constructor; try done; [by rewrite length_insert|by left|].
    intros y m. destruct (decide (y = idx)) as [->|Hne].
    + rewrite list_lookup_insert_eq by lia. intros [= <-]. rewrite decide_False by (intros ?; by apply (Hdisj idx)).
      by rewrite decide_True by set_solver.
    + rewrite list_lookup_insert_ne by done. intros E. rewrite (Hm _ _ E). destruct (decide (y ∈ fin)); [done|].
      destruct (decide (y ∈ path)); [by rewrite decide_True by set_solver|]. rewrite decide_False; [done|]. set_solver.
Qed.

Lemma removelast_snoc {A} (l : list A) x : removelast (l ++ [x]) = l.
Proof. rewrite removelast_app by done. cbn. by rewrite app_nil_r. Qed.

(** The node on top is finished when its successors are. *)
Lemma search_pop start fin visited path idx :
  search_ok start fin visited (path ++ [idx]) (path ++ [idx]) → (∀ x, edge adj idx x → visited !! x = Some 2) →
  search_ok start (fin ++ [idx]) (<[idx := 2]> visited) path path.
Proof.
  intros [Hl Hnd Hlt Hst Hstack Hm Hw Hfin] Hsucc. assert (Hidx : (idx < n)%nat) by (apply Hlt; set_solver).
  assert (Hfin2 : ∀ x, visited !! x = Some 2 → x ∈ fin).
  { intros x E. pose proof (Hm _ _ E) as H. destruct (decide (x ∈ fin)); [done|]. by destruct (decide (x ∈ path ++ [idx])). }
  assert (Hperm : (fin ++ [idx]) ++ path ≡ₚ fin ++ path ++ [idx]) by (rewrite <- app_assoc; apply Permutation_app_head, Permutation_app_comm).
  apply NoDup_app in Hnd as Hnd'. destruct Hnd' as (_&Hdisj&Hnds). apply NoDup_app in Hnds as (_&Hdp&_).
  constructor.
  - by rewrite length_insert.
  - by rewrite Hperm.
  - intros x Hx. apply Hlt. by rewrite <- Hperm.
  - by rewrite Hperm.
  - by left.
  - intros x m. destruct (decide (x = idx)) as [->|Hne].
    + rewrite list_lookup_insert_eq by lia. intros [= <-]. by rewrite decide_True by set_solver.
    + rewrite list_lookup_insert_ne by done. intros E. rewrite (Hm _ _ E).
      destruct (decide (x ∈ fin)) as [Hf|Hf]; [by rewrite decide_True by set_solver|].
      rewrite (decide_False (P := x ∈ fin ++ [idx])) by set_solver.
      destruct (decide (x ∈ path)) as [Hp|Hp]; [by rewrite decide_True by set_solver|]. by rewrite decide_False by set_solver.
  - by eapply walk_prefix.
  - intros i u x Ei He. apply lookup_app_Some in Ei as [Ei|(Hi&Ei)].
    + destruct (Hfin i u x Ei He) as (j&Hj&Ej). exists j. split; [done|]. by apply lookup_app_l_Some.
    + assert (u = idx) as -> by (destruct (i - length fin)%nat as [|[]]; cbn in Ei; congruence).
      pose proof (Hfin2 x (Hsucc x He)) as Hx. apply list_elem_of_lookup in Hx as (j&Ej). exists j.
      apply lookup_lt_Some in Ej as Hj. split; [lia|]. by apply lookup_app_l_Some.
Qed.

(** Finished nodes lead to finished nodes only, and to no cycle. *)
Lemma search_finished start fin visited : search_ok start fin visited [] [] → search_result start NoCycle.
Proof.
  intros [Hl Hnd Hlt Hst Hstack Hm Hw Hfin]. rewrite app_nil_r in *.
  assert (Hback : ∀ u x, tc (edge adj) u x → ∀ i, fin !! i = Some u → ∃ j, (j < i)%nat ∧ fin !! j = Some x).
  { intros u x. induction 1 as [u x Hux|u y x Huy Hyx IH]; intros i Ei; [by apply (Hfin i u)|].
    destruct (Hfin i u y Ei Huy) as (j&Hj&Ej). destruct (IH j Ej) as (k&Hk&Ek). exists k. split; [lia|done]. }
  apply list_elem_of_lookup in Hst as (i&Ei). intros c Hc Hcyc.
  assert (Hin : ∃ k, fin !! k = Some c) by (destruct Hc as [<-|Hc]; [by exists i|destruct (Hback _ _ Hc i Ei) as (k&_&?); by exists k]).
  destruct Hin as (k&Ek). destruct (Hback c c Hcyc k Ek) as (j&Hj&Ej). pose proof (NoDup_lookup _ _ _ _ Hnd Ej Ek). lia.
Qed.

Lemma cycle_loop_correct start fuel : ∀ fin visited path stack,
  search_ok start fin visited path stack → (2 * n ≤ fuel + 2 * length fin + length stack)%nat →
  ∃ r, cycle_loop all_defs fuel adj visited path stack = Some r ∧ search_result start r.
Proof.
  induction fuel as [|fuel IH]; intros fin visited path stack Hok Hfuel; cbn [cycle_loop];
    (destruct (last stack) as [idx|] eqn:Elast;
      [|apply last_None in Elast as ->; exists NoCycle; split; [done|]; eapply search_finished;
        destruct Hok as [? ? ? ? [<-|(?&H)] ? ? ?]; [by constructor; try left|by destruct path]]).
  { exfalso. destruct Hok as [Hl Hnd Hlt _ _ _ _ _]. assert (Hle : (length (fin ++ stack) ≤ n)%nat).
    { rewrite <- (length_seq n 0). apply submseteq_length, NoDup_submseteq; [done|]. intros y Hy. apply elem_of_seq. specialize (Hlt y Hy). lia. }
    rewrite length_app in Hle. apply last_Some in Elast as (l&->). rewrite length_app in *. cbn in *. lia. }
  destruct (search_mark start fin visited path stack idx Hok Elast) as (mark&Emark&Hguard&path'&visited'&Emk&->&Hok'&Hndp).
  rewrite Emark. cbn [mbind option_bind]. unfold def_count. rewrite Hguard, Emk.
  assert (Hidx : (idx < n)%nat) by (destruct Hok as [? ? Hlt ? ? ? ? ?]; apply Hlt; apply last_Some in Elast as (l&->); set_solver).
  destruct (lookup_lt_is_Some_2 adj idx) as (es&Ees); [lia|]. rewrite Ees. cbn [mbind option_bind].
  destruct (next_successor_correct visited' es) as (r&Er&Hr).
  { intros x Hx. pose proof Hok' as [Hl' _ _ _ _ Hm' _ _]. destruct (lookup_lt_is_Some_2 visited' x) as (m&Em); [rewrite Hl'; apply (Hrange idx); by exists es|].
    exists m. split; [done|]. rewrite (Hm' _ _ Em). repeat case_decide; auto. }
  rewrite Er. cbn [mbind option_bind]. apply last_Some in Elast as Elast'. destruct Elast' as (l&El).
  destruct r as [[c x]|].
  - destruct Hr as (Hx&Ex&Hc). assert (He : edge adj idx x) by by exists es. destruct Hc as [-> | ->]; cbn [Z.eqb Pos.eqb].
    + assert (Hnew : x ∉ fin ++ path').
      { destruct Hok' as [_ _ _ _ _ Hm' _ _]. pose proof (Hm' _ _ Ex) as Hm0. repeat case_decide; try lia. set_solver. }
      assert (Hok2 : search_ok start fin visited' path' (path' ++ [x])).
      { destruct Hok' as [Hl Hnd Hlt Hst Hstack Hm Hw Hfin]. constructor; try done.
        - rewrite app_assoc. apply NoDup_app. split_and!; [done|intros y Hy ->%list_elem_of_singleton; done|apply NoDup_singleton].
        - intros y. rewrite app_assoc, elem_of_app, list_elem_of_singleton. intros [?| ->]; [by apply Hlt|by apply (Hrange idx)].
        - set_solver.
        - right. by exists x.
        - subst path'. rewrite <- app_assoc. by apply walk_snoc. }
      assert (Hle : (length (fin ++ path' ++ [x]) ≤ n)%nat).
      { destruct Hok2 as [_ Hnd Hlt _ _ _ _ _]. rewrite <- (length_seq n 0). apply submseteq_length, NoDup_submseteq; [done|].
        intros y Hy. apply elem_of_seq. specialize (Hlt y Hy). lia. }
      rewrite !length_app in Hle. cbn in Hle. destruct (Nat.leb_spec n (length path')); [lia|].
      apply (IH fin visited' path' (path' ++ [x])); [done|]. rewrite length_app. cbn. lia.
    + exists (CycleAt path' x). split; [done|]. destruct Hok' as [_ _ _ _ _ Hm' Hw' _]. split_and!; [done| |done|by exists idx].
      pose proof (Hm' _ _ Ex) as H1. by repeat case_decide.
  - subst path'. rewrite removelast_snoc. apply (IH (fin ++ [idx])).
    + apply search_pop; [done|]. intros x (es'&E'&Hx'). simplify_eq. by apply Hr.
    + rewrite !length_app in *. cbn in *. lia.
Qed.

Lemma cycle_search_correct start :
  (start < n)%nat → ∃ r, cycle_loop all_defs (2 * n + 1) adj (replicate n 0) [] [start] = Some r ∧ search_result start r.
Proof.
  intros Hs. apply (cycle_loop_correct start _ []); [|cbn; lia]. constructor; cbn.
  - by rewrite length_replicate.
  - apply NoDup_singleton.
  - by intros x ->%list_elem_of_singleton.
  - set_solver.
  - right. by exists start.
  - intros x m E. apply lookup_replicate in E as (->&_). repeat case_decide; set_solver.
  - intros i u x _ E. by destruct i.
  - intros i u x E. by rewrite lookup_nil in E.
Qed.

(** The names of a report: a walk that ends where it began. *)
Lemma cycle_part_correct path x :
  NoDup path → x ∈ path → walk adj path → (∃ u, last path = Some u ∧ edge adj u x) →
  head (cycle_part x path) = Some x ∧ walk adj (cycle_part x path ++ [x]).
Proof.
  intros Hnd Hx Hw (u&Hu&He). assert (Hsplit : ∃ a b, path = a ++ x :: b ∧ cycle_part x path = x :: b).
  { unfold cycle_part. clear Hw Hu He Hnd. induction path as [|y path IH]; [by apply not_elem_of_nil in Hx|]. cbn [path_from].
    case_bool_decide as Hy; [subst; by exists [], path|]. apply elem_of_cons in Hx as [->|Hx]; [done|].
    destruct (IH Hx) as (a&b&->&Ec). exists (y :: a), b. split; [done|]. destruct (path_from x (a ++ x :: b)) as [|z p] eqn:E; [|done].
    exfalso. clear -E. induction a as [|w a IH]; cbn in E; [by case_bool_decide|]. case_bool_decide; [done|by apply IH]. }
  destruct Hsplit as (a&b&->&->). split; [done|].
  assert (Hw2 : walk adj (x :: b)) by (intros i p q Ep Eq; apply (Hw (length a + i)%nat p q); rewrite lookup_app_r by lia;
    [replace (length a + i - length a)%nat with i by lia|replace (S (length a + i) - length a)%nat with (S i) by lia]; done).
  assert (Hlast : last (x :: b) = Some u) by (rewrite last_app in Hu; destruct (last (x :: b)) eqn:E; [done|by apply last_None in E]).
  apply last_Some in Hlast as (l&El). rewrite El in Hw2 |- *. rewrite <- app_assoc. by apply walk_snoc.
Qed.
End Search.

(** ** The whole pass *)

Section Order.
Context (grants : nat → bool) (h : heap) (all_defs : list def_ptr) (name_to_idx : Z → option nat) (str_get : Z → list Z).

Abbreviation n := (length all_defs).
Hypothesis Hidx : ∀ name i, name_to_idx name = Some i → (i < n)%nat.
Hypothesis Hdefs : Forall (λ p, ∃ d, h !! p = Some d ∧ def_ok h d) all_defs.

Abbreviation dep := (depends h all_defs name_to_idx).

Lemma depends_lt u x : dep u x → (u < n)%nat ∧ (x < n)%nat.
Proof.
  intros (pdef&def&name&Ex&Ed&_&Hs). split; [by eapply (edge_source_lt h all_defs name_to_idx)|by eapply lookup_lt_Some].
Qed.

(** The graph, unless the arena refuses. *)
Lemma init_build_correct v :
  va_alloc_failed v = false → n ≠ 0%nat →
  (∃ v', bebop__validate_init_toposort grants all_defs v = Some (false, v')) ∨
  ∃ v1 v2, bebop__validate_init_toposort grants all_defs v = Some (true, v1) ∧
    build_graph grants h all_defs name_to_idx 0 all_defs v1 = Some (tt, v2) ∧
    (va_alloc_failed v2 = true ∨
     va_alloc_failed v2 = false ∧ graph_ok all_defs v2 ∧ va_queue v2 = [] ∧ va_queue_head v2 = 0%nat ∧ va_queue_capacity v2 = n ∧
     ∀ u x, edge (va_adjacency v2) u x ↔ dep u x).
Proof.
  intros Hf Hn. unfold bebop__validate_init_toposort, def_count. destruct (Nat.eqb_spec n 0) as [|_]; [done|].
  do 5 rewrite (C_bind_Some _ _ _ _ _ (request_eq grants _)).
  match goal with |- context [negb ?b] => destruct b end; cbn [negb]; [right|left; by eexists].
  rewrite (C_bind_Some (modify _) _ _ _ _ eq_refl).
  set (v1 := mkValidator _ _ _ _ _ _ _ _).
  assert (Hzero : ∀ x, open [] x (replicate n []) = 0%nat).
  { intros x. apply open_zero. intros u (es&E&Hx). apply lookup_replicate in E as (->&_). by apply not_elem_of_nil in Hx. }
  destruct (build_graph_correct grants h all_defs name_to_idx Hidx Hdefs all_defs 0 v1) as (v2&E2&H2).
  - done.
  - unfold graph_ok. cbn. rewrite !length_replicate. split_and!; [done..| |].
    + intros x d E. apply lookup_replicate in E as (->&_). by rewrite Hzero.
    + intros x. rewrite Hzero. unfold UINT32_MAX. lia.
  - done.
  - intros x _. apply Hzero.
  - intros u x. split; [|intros (?&_); lia]. intros (es&E&Hx). cbn in E. apply lookup_replicate in E as (->&_). by apply not_elem_of_nil in Hx.
  - exists v1, v2. split_and!; [done|done|]. destruct H2 as [?|(Hf2&Hg2&(Q1&Q2&Q3)&He2)]; [by left|right].
    rewrite Q1, Q2, Q3. done.
Qed.

Lemma tc_edge_dep adj : (∀ u x, edge adj u x ↔ dep u x) → ∀ u x, tc (edge adj) u x ↔ tc dep u x.
Proof.
  intros He u x. split; induction 1 as [u x H|u y x H _ IH]; try (apply tc_once; by apply He); (eapply tc_l; [by apply He|done]).
Qed.

Definition dep_walk (l : list nat) : Prop := ∀ i u x, l !! i = Some u → l !! S i = Some x → dep u x.

(** The text for a cycle: its names with arrows, the first one again at the end. *)
Definition cycle_text (part : list nat) (x : nat) : option (list Z) :=
  names ← mapM (name_of h all_defs str_get) part; first ← name_of h all_defs str_get x;
  Some (concat (map (λ nm, nm ++ arrow) names) ++ first).

(** What the report says: a cycle, or the name of the definition when no cycle begins
    there, or when there is no memory for more. *)
Definition report_ok (i : nat) (text : list Z) (failed : bool) : Prop :=
  (∃ part x, head part = Some x ∧ dep_walk (part ++ [x]) ∧ cycle_text part x = Some text) ∨
  name_of h all_defs str_get i = Some text ∧
    ((∀ c, (i = c ∨ tc dep i c) → ¬ tc dep c c) ∨ failed = true ∨
     ∃ part x long, cycle_text part x = Some long ∧ SIZE_MAX < zlen long + 1).

Lemma name_of_total i : (i < n)%nat → ∃ name, name_of h all_defs str_get i = Some name.
Proof.
  intros Hi. destruct (def_lookup h all_defs Hdefs i Hi) as (p&d&Ep&Ed&_). unfold name_of. rewrite Ep. cbn [mbind option_bind].
  rewrite Ed. cbn. eauto.
Qed.

Lemma names_total l : (∀ x, x ∈ l → (x < n)%nat) → ∃ names, mapM (name_of h all_defs str_get) l = Some names.
Proof.
  intros Hl. induction l as [|x l IH]; [by exists []|]. destruct (name_of_total x) as (name&E); [apply Hl; set_solver|].
  destruct IH as (names&E'); [intros y Hy; apply Hl; set_solver|]. exists (name :: names). cbn. rewrite E. cbn. by rewrite E'.
Qed.

Lemma find_cycle_path_correct v i :
  length (va_adjacency v) = n → (∀ u x, edge (va_adjacency v) u x ↔ dep u x) → (i < n)%nat →
  ∃ text v', bebop__validate_find_cycle_path grants h all_defs str_get i v = Some (text, v') ∧ report_ok i text (va_alloc_failed v').
Proof.
  intros Hl He Hi. unfold bebop__validate_find_cycle_path. destruct (name_of_total i Hi) as (name&Ename).
  rewrite (C_lift_bind _ _ _ _ Ename). do 3 rewrite (C_bind_Some _ _ _ _ _ (request_eq grants _)).
  match goal with |- context [negb ?b] => destruct b end; cbn [negb].
  2: { eexists _, _. split; [reflexivity|]. right. split; [done|]. right. by left. }
  rewrite (C_bind_Some (gets _) _ _ _ _ eq_refl). cbn [va_adjacency set_requests].
  destruct (cycle_search_correct all_defs (va_adjacency v) Hl) with (start := i) as (r&Er&Hr).
  { intros u x Hux. by apply He, depends_lt in Hux as (_&?). }
  { done. }
  unfold def_count. rewrite (C_lift_bind _ _ _ _ Er). destruct r as [path x|].
  - destruct Hr as (Hnd&Hx&Hw&Hlast). destruct (cycle_part_correct all_defs _ Hl path x Hnd Hx Hw Hlast) as (Hhead&Hwalk).
    assert (Hin : ∀ y, y ∈ cycle_part x path ++ [x] → (y < n)%nat).
    { assert (Hpath : ∀ y, y ∈ path → (y < n)%nat).
      { intros y Hy. destruct (decide ((y < n)%nat)) as [|Hn]; [done|]. exfalso. apply list_elem_of_lookup in Hy as (k&Ek).
        destruct (path !! S k) as [z|] eqn:Ez.
        - pose proof (Hw k y z Ek Ez) as Hyz. apply He, depends_lt in Hyz as (?&_). lia.
        - destruct Hlast as (u&Hu&Hux). rewrite last_lookup in Hu. apply lookup_lt_Some in Ek as Hk. apply lookup_ge_None in Ez.
          replace (pred (length path)) with k in Hu by lia. simplify_eq. apply He, depends_lt in Hux as (?&_). lia. }
      intros y [Hy|Hy%list_elem_of_singleton]%elem_of_app; [|subst; by apply Hpath]. apply Hpath. unfold cycle_part in Hy.
      destruct (path_from x path) as [|z l] eqn:Ep; [done|]. revert Hy. rewrite <- Ep. clear. induction path as [|w path IH]; cbn; [done|].
      case_bool_decide; [done|]. intros Hy. apply elem_of_cons. right. by apply IH. }
    destruct (names_total (cycle_part x path)) as (names&Enames); [intros y Hy; apply Hin; set_solver|].
    destruct (name_of_total x) as (first&Efirst); [apply Hin; set_solver|].
    rewrite (C_lift_bind _ _ _ _ Enames), (C_lift_bind _ _ _ _ Efirst). cbv zeta.
    assert (Etext : cycle_text (cycle_part x path) x = Some (concat (map (λ nm, nm ++ arrow) names) ++ first)).
    { unfold cycle_text. rewrite Enames. cbn [mbind option_bind]. by rewrite Efirst. }
    destruct (Z.ltb_spec SIZE_MAX (zlen (concat (map (λ nm, nm ++ arrow) names) ++ first) + 1)) as [Hbig|_].
    { eexists _, _. split; [reflexivity|]. right. split; [done|]. right; right. by eexists _, _, _. }
    rewrite (C_bind_Some _ _ _ _ _ (request_eq grants _)). destruct (grants _).
    + eexists _, _. split; [reflexivity|]. left. exists (cycle_part x path), x. split_and!; [done| |done].
      intros k u y Eu Ey. apply He. by apply (Hwalk k).
    + eexists _, _. split; [reflexivity|]. right. split; [done|]. right. by left.
  - eexists _, _. split; [reflexivity|]. right. split; [done|]. left. intros c Hc Hcc.
    apply (Hr c); [|by apply (tc_edge_dep _ He)]. destruct Hc as [?|Hc]; [by left|right]. by apply (tc_edge_dep _ He).
Qed.

Lemma first_open_correct degrees i : ∀ k d, degrees !! k = Some d → 0 < d → ∃ j, first_open degrees i = Some j ∧ (i ≤ j < i + length degrees)%nat.
Proof.
  revert i. induction degrees as [|e degrees IH]; intros i k d E Hd; [done|]. cbn [first_open length].
  destruct (Z.ltb_spec 0 e); [exists i; split; [done|lia]|]. destruct k as [|k]; cbn in E; [simplify_eq; lia|].
  destruct (IH (S i) k d E Hd) as (j&->&Hj). exists j. split; [done|lia].
Qed.

(** What the pass returns. *)
Definition toposort_ok (r : toposort_result) (failed : bool) : Prop :=
  match r with
  | Sorted order =>
      (∃ l, l ≡ₚ seq 0 n ∧ mapM (λ i, all_defs !! i) l = Some order ∧
         ∀ i x u, l !! i = Some x → dep u x → ∃ j, (j < i)%nat ∧ l !! j = Some u) ∧
      ∀ c, ¬ tc dep c c
  | Cyclic i text => (∃ c, tc dep c c) ∧ (i < n)%nat ∧ report_ok i text failed
  | Unsorted => n = 0%nat ∨ failed = true
  end.

(** The graph an order leaves behind. *)
Definition graph_left (r : toposort_result) (v : bebop_validator_t) : Prop :=
  match r with
  | Sorted _ => va_alloc_failed v = false ∧ length (va_adjacency v) = n ∧ ∀ u x, edge (va_adjacency v) u x ↔ dep u x
  | _ => True
  end.

Lemma toposort_spec v :
  va_alloc_failed v = false →
  ∃ r v', bebop__validate_toposort grants h all_defs name_to_idx str_get v = Some (r, v') ∧
    toposort_ok r (va_alloc_failed v') ∧ graph_left r v'.
Proof.
  intros Hf. unfold bebop__validate_toposort, def_count. destruct (Nat.eqb_spec n 0) as [E0|Hn0]; [eexists _, _; split; [reflexivity|split; [by left|done]]|].
  destruct (init_build_correct v Hf Hn0) as [(v'&E)|(v1&v2&E1&E2&H2)].
  { rewrite (C_bind_Some _ _ _ _ _ E). eexists _, _. split; [reflexivity|split; [by right|done]]. }
  rewrite (C_bind_Some _ _ _ _ _ E1). cbn [negb]. rewrite (C_bind_Some _ _ _ _ _ E2), (C_bind_Some (gets _) _ _ _ _ eq_refl).
  destruct H2 as [Hf2|(Hf2&(Hl&_&Hd&Hdeg&Hmax)&Q1&Q2&Q3&He)]; [rewrite Hf2; eexists _, _; split; [reflexivity|split; [by right|done]]|]. rewrite Hf2.
  set (adj := va_adjacency v2) in *. assert (Hrange : ∀ u x, edge adj u x → (x < n)%nat) by (intros u x H; by apply He, depends_lt in H as (_&?)).
  destruct (enqueue_roots_correct n adj Hl n 0 v2) as (v3&E3&H3).
  { unfold roots_ok. rewrite Q1, Q2, Q3. split_and!; try done; [apply NoDup_nil_2|]. intros x. split; [by intros ?%not_elem_of_nil|lia]. }
  { lia. }
  rewrite (C_bind_Some _ _ _ _ _ E3), (C_bind_Some _ _ _ _ _ (request_eq grants _)).
  destruct (grants (va_requests v3)); cbn [negb]; [|eexists _, _; split; [reflexivity|split; [by right|done]]].
  pose proof H3 as (_&_&Hh3&_&_&_&_&Hf3).
  destruct (kahn_loop_correct n adj Hl Hrange (λ x _, Hmax x) n [] (set_requests (S (va_requests v3)) v3)) as (q&v4&E4&Hk4&Hq4&Hf4).
  { pose proof (roots_kahn n adj Hl v3 H3) as Hk. exact Hk. }
  { done. }
  { cbn. lia. }
  rewrite (C_bind_Some _ _ _ _ _ E4). destruct (kahn_end n adj q v4 Hk4 Hq4) as (Hnd&Hord&Hq). cbv zeta.
  assert (Hle : (length q ≤ n)%nat) by (apply (nodup_bounded n adj Hl); [done|by intros x (?&_)%Hq]).
  destruct (Nat.eqb_spec (length q) n) as [Elen|Elen].
  - assert (Hperm : q ≡ₚ seq 0 n).
    { apply submseteq_length_Permutation; [|rewrite length_seq; lia]. apply NoDup_submseteq; [done|]. intros x (Hx&_)%Hq. apply elem_of_seq. lia. }
    assert (Horder : ∃ order, mapM (λ i, all_defs !! i) q = Some order).
    { apply mapM_is_Some. apply Forall_forall. intros x (Hx&_)%Hq. by apply lookup_lt_is_Some_2. }
    destruct Horder as (order&Eo). rewrite (C_lift_bind _ _ _ _ Eo). eexists _, _. split; [reflexivity|]. split; [split|].
    3: { destruct Hk4 as (Ha4&_). split_and!; [done|by rewrite Ha4|intros u y; rewrite Ha4; apply He]. }
    + exists q. split_and!; [done|done|]. intros i x u Ex Hu. apply (Hord i x u Ex). by apply He.
    + intros c Hc. apply (tc_edge_dep _ He) in Hc as Hc'. assert (Hcn : (c < n)%nat).
      { inversion Hc' as [? ? H|? ? ? H]; subst; apply He, depends_lt in H as (?&_); done. }
      assert (Hin : c ∈ q) by (rewrite Hperm; apply elem_of_seq; lia). apply list_elem_of_lookup in Hin as (i&Ei).
      destruct (ordered_path n adj Hl q Hord c c Hc' i Ei) as (j&Hj&Ej). pose proof (NoDup_lookup _ _ _ _ Hnd Ej Ei). lia.
  - rewrite (C_bind_Some (gets _) _ _ _ _ eq_refl).
    assert (Hrest : ∃ x, (x < n)%nat ∧ x ∉ q).
    { destruct (decide (Exists (λ x, x ∉ q) (seq 0 n))) as [Hs|Hs].
      - apply Exists_exists in Hs as (x&Hx&?). apply elem_of_seq in Hx. exists x. split; [lia|done].
      - exfalso. assert (Hsub : seq 0 n ⊆+ q); [|apply submseteq_length in Hsub; rewrite length_seq in Hsub; lia].
        apply NoDup_submseteq; [apply NoDup_seq|]. intros x Hx. destruct (decide (x ∈ q)); [done|]. destruct Hs. apply Exists_exists. by exists x. }
    destruct Hrest as (x&Hx&Hxq). destruct Hk4 as (Ha4&_&_&_&Hl4&Hdeg4&_&Hq4'&_).
    destruct (lookup_lt_is_Some_2 (va_in_degree v4) x) as (d&Ed); [lia|]. pose proof (Hdeg4 _ _ Ed) as Hd4.
    assert (Hpos : 0 < d).
    { destruct (decide (open q x adj = 0%nat)) as [E0|]; [|cbn in Hd4; lia]. exfalso. apply Hxq, Hq. split; [done|]. by apply open_zero. }
    destruct (first_open_correct _ 0 x d Ed Hpos) as (i&Ei&Hi). rewrite Ei.
    destruct (find_cycle_path_correct v4 i) as (text&v5&E5&H5).
    { by rewrite Ha4. }
    { by rewrite Ha4. }
    { lia. }
    rewrite (C_bind_Some _ _ _ _ _ E5). eexists _, _. split; [reflexivity|]. split; [|done]. split_and!; [|lia|done].
    destruct (cycle_of_rest n adj Hl Hrange (λ x _, Hmax x) q x Hq Hx Hxq) as (c&Hc). exists c. by apply (tc_edge_dep _ He).
Qed.

End Order.
