(* ===== verification/Validate.v ===== *)
(** The end of [bebop_validate] ([bebop/src/bebop_validate.c]): the map from names to
    definitions, their order ([Toposort]), the sizes of structs ([Schema]), the dependents
    of each definition, and the definitions of each schema in order. *)
From stdpp Require Import list gmap relations.
From S2P Require Import Prelude.
From S2P Require Import Scanner.
From S2P Require Import Schema.
From S2P Require Import Toposort.
From S2P Require Import TopoProps.

(** ** The map of names *)

(** A hash map of cwisstable, third-party code that the repository vendors under [vendor/cwisstable]
    and that is not modelled: a class with the laws of a map. An insertion leaves an entry that is
    there; it never fails, because [bebop__cwiss_alloc] ends the process when the arena has no
    memory for a table, so that a call that returns has inserted. *)
Class IdxMap := {
  bebop_idxmap : Type;
  bebop_idxmap_new : bebop_idxmap;
  bebop_idxmap_find : bebop_idxmap → Z → option nat;
  bebop_idxmap_insert : bebop_idxmap → Z → nat → bebop_idxmap
}.
Class IdxMapOk `{IdxMap} : Prop := {
  idxmap_find_new : ∀ k, bebop_idxmap_find bebop_idxmap_new k = None;
  idxmap_find_insert : ∀ m k v k', bebop_idxmap_find (bebop_idxmap_insert m k v) k' =
    match bebop_idxmap_find m k' with Some v' => Some v' | None => if k' =? k then Some v else None end
}.

(** ** Schemas *)

(** The sorted definitions of a schema: the array, or null, and its counts. *)
Record bebop_schema_t : Type := mkSchema {
  sc_validated : bool;
  sc_sorted_defs : option (list def_ptr);
  sc_sorted_count : Z;
  sc_sorted_capacity : Z
}.

Section Validate.
Context `{IdxMap} (grants : nat → bool).

(** The loop that gives every definition its index under its name and its full name; an
    earlier definition of the same name keeps it. *)
Fixpoint register_names (h : heap) (i : nat) (ps : list def_ptr) (m : bebop_idxmap) : option bebop_idxmap :=
  match ps with
  | [] => Some m
  | p :: ps =>
      d ← h !! p;
      let m := if bebop_str_is_null (df_name d) then m else bebop_idxmap_insert m (df_name d) i in
      let m :=
        if negb (bebop_str_is_null (df_fqn d)) && negb (df_fqn d =? df_name d) then bebop_idxmap_insert m (df_fqn d) i else m in
      register_names h (S i) ps m
  end.

(** ** Dependents *)

Definition set_dependents (l : list def_ptr) (cap : Z) (d : bebop_def_t) : bebop_def_t :=
  mkDef (df_name d) (df_fqn d) (df_span d) (df_name_span d) (df_documentation d) (df_decorators d) (df_schema d) (df_parent d) (df_visibility d)
    (df_nested_defs d) l cap (df_body d).

Definition bebop__validate_add_dependent (h : heap) (def dependent : def_ptr) : C bebop_validator_t heap :=
  d ← lift (h !! def);
  cap ← bebop__array_push grants 8 (zlen (df_dependents d)) (df_dependents_capacity d);
  match cap with
  | Some cap => mret (<[def := set_dependents (df_dependents d ++ [dependent]) cap d]> h)
  | None => fail;; mret h
  end.

Fixpoint add_dependents (all_defs : list def_ptr) (h : heap) (def : def_ptr) (dependents : list nat) : C bebop_validator_t heap :=
  match dependents with
  | [] => mret h
  | idx :: dependents =>
      dependent ← lift (all_defs !! idx);
      h ← bebop__validate_add_dependent h def dependent;
      add_dependents all_defs h def dependents
  end.
Fixpoint record_dependents (all_defs : list def_ptr) (h : heap) (ps : list def_ptr) (adj : list (list nat)) : C bebop_validator_t heap :=
  match ps, adj with
  | [], _ => mret h
  | p :: ps, es :: adj => h ← add_dependents all_defs h p es; record_dependents all_defs h ps adj
  | _ :: _, [] => ub
  end.

(** ** The definitions of each schema *)

Definition schema_of (h : heap) (p : def_ptr) : option (option schema_ptr) := d ← h !! p; Some (df_schema d).

Fixpoint count_defs (h : heap) (sorted : list def_ptr) (schemas : list bebop_schema_t) : option (list bebop_schema_t) :=
  match sorted with
  | [] => Some schemas
  | p :: sorted =>
      s ← schema_of h p;
      match s with
      | None => count_defs h sorted schemas
      | Some s =>
          sc ← schemas !! s;
          count_defs h sorted
            (<[s := mkSchema (sc_validated sc) (sc_sorted_defs sc) (u32 (sc_sorted_count sc + 1)) (sc_sorted_capacity sc)]> schemas)
      end
  end.

(** An array for every schema with definitions; a refusal of the arena leaves null. *)
Fixpoint allocate_sorted (schemas : list bebop_schema_t) : C bebop_validator_t (list bebop_schema_t) :=
  match schemas with
  | [] => mret []
  | sc :: schemas =>
      sc ←
        (if sc_sorted_count sc =? 0 then mret sc
         else
           granted ← request grants;
           mret (if (granted : bool) then mkSchema (sc_validated sc) (Some []) 0 (sc_sorted_count sc)
                 else mkSchema (sc_validated sc) None 0 0));
      rest ← allocate_sorted schemas;
      mret (sc :: rest)
  end.

Fixpoint fill_sorted (h : heap) (sorted : list def_ptr) (schemas : list bebop_schema_t) : option (list bebop_schema_t) :=
  match sorted with
  | [] => Some schemas
  | p :: sorted =>
      s ← schema_of h p;
      match s with
      | None => fill_sorted h sorted schemas
      | Some s =>
          sc ← schemas !! s;
          match sc_sorted_defs sc with
          | None => fill_sorted h sorted schemas
          | Some l =>
              if sc_sorted_capacity sc <=? zlen l then None
              else
                fill_sorted h sorted
                  (<[s := mkSchema (sc_validated sc) (Some (l ++ [p])) (u32 (sc_sorted_count sc + 1)) (sc_sorted_capacity sc)]> schemas)
          end
      end
  end.

Definition distribute (h : heap) (sorted : list def_ptr) (schemas : list bebop_schema_t) : C bebop_validator_t (list bebop_schema_t) :=
  schemas ← lift (count_defs h sorted (map (λ _, mkSchema true None 0 0) schemas));
  schemas ← allocate_sorted schemas;
  lift (fill_sorted h sorted schemas).

(** ** The pass *)

(** From the definitions with resolved types to their order: the definitions, the schemas
    and the order of all definitions, or the report of a cycle. *)
Definition order_definitions (str_get : Z → list Z) (h : heap) (all_defs : list def_ptr) (schemas : list bebop_schema_t) :
    C bebop_validator_t (heap * list bebop_schema_t * toposort_result) :=
  names ← lift (register_names h 0 all_defs bebop_idxmap_new);
  r ← bebop__validate_toposort grants h all_defs (bebop_idxmap_find names) str_get;
  match r with
  | Sorted sorted =>
      h ← lift (bebop__validate_compute_fixed_sizes h sorted);
      adj ← gets va_adjacency;
      h ← record_dependents all_defs h all_defs adj;
      schemas ← distribute h sorted schemas;
      mret (h, schemas, r)
  | _ => mret (h, schemas, r)
  end.

End Validate.

(** ** A concrete map *)

Definition gmap_insert_new (m : gmap Z nat) (k : Z) (v : nat) : gmap Z nat :=
  match m !! k with Some _ => m | None => <[k := v]> m end.
Lemma lookup_insert_new (m : gmap Z nat) k v k' :
  gmap_insert_new m k v !! k' = match m !! k' with Some v' => Some v' | None => if k' =? k then Some v else None end.
Proof.
  unfold gmap_insert_new. destruct (m !! k) as [v0|] eqn:E.
  - destruct (m !! k') as [v'|] eqn:E'; [done|]. by destruct (Z.eqb_spec k' k); [congruence|].
  - destruct (Z.eqb_spec k' k) as [->|Hne]; [by rewrite lookup_insert_eq, E|]. rewrite lookup_insert_ne by done. by destruct (m !! k').
Qed.
#[export] Instance gmap_idxmap : IdxMap := {
  bebop_idxmap := gmap Z nat;
  bebop_idxmap_new := ∅;
  bebop_idxmap_find := λ m k, m !! k;
  bebop_idxmap_insert := gmap_insert_new
}.
#[export] Instance gmap_idxmap_ok : IdxMapOk.
Proof. split; [intros k; apply lookup_empty|exact lookup_insert_new]. Qed.
