(* ===== verification/ValidateProps.v ===== *)
(** Correctness of the end of [bebop_validate] ([Validate]). *)
From stdpp Require Import list gmap relations.
From S2P Require Import Prelude.
From S2P Require Import Scanner.
From S2P Require Import Schema.
From S2P Require Import Toposort.
From S2P Require Import TopoProps.
From S2P Require Import Validate.

Section Props.
Context {names_map : IdxMap} {names_ok : IdxMapOk} (grants : nat → bool).

(** ** Names *)

(** Whether a key is one of the names of a definition. *)
Definition owns (h : heap) (p : def_ptr) (k : Z) : bool :=
  negb (bebop_str_is_null k) && match h !! p with Some d => (df_name d =? k) || (df_fqn d =? k) | None => false end.

(** The first definition of a name. *)
Fixpoint owner (h : heap) (i : nat) (ps : list def_ptr) (k : Z) : option nat :=
  match ps with
  | [] => None
  | p :: ps => if owns h p k then Some i else owner h (S i) ps k
  end.

Lemma register_names_correct h ps : ∀ i m,
  Forall (λ p, is_Some (h !! p)) ps →
  ∃ m', register_names h i ps m = Some m' ∧
    ∀ k, bebop_idxmap_find m' k = match bebop_idxmap_find m k with Some v => Some v | None => owner h i ps k end.
Proof.
  induction ps as [|p ps IH]; intros i m Hps; cbn [register_names owner].
  - exists m. split; [done|]. intros k. by destruct (bebop_idxmap_find m k).
  - apply Forall_cons in Hps as ((d&Ed)&Hps). rewrite Ed. cbn [mbind option_bind].
    set (m1 := if bebop_str_is_null (df_name d) then m else bebop_idxmap_insert m (df_name d) i).
    set (m2 := if negb _ && negb _ then bebop_idxmap_insert m1 (df_fqn d) i else m1).
    destruct (IH (S i) m2 Hps) as (m'&E&Hm'). exists m'. split; [done|]. intros k. rewrite Hm'.
    assert (H1 : ∀ k, bebop_idxmap_find m1 k = match bebop_idxmap_find m k with Some v => Some v | None =>
      if negb (bebop_str_is_null k) && (df_name d =? k) then Some i else None end).
    { intros k1. subst m1. unfold bebop_str_is_null. destruct (Z.eqb_spec (df_name d) 0) as [E0|E0].
      - rewrite E0. destruct (Z.eqb_spec k1 0) as [->|]; cbn [negb andb]; [by destruct (bebop_idxmap_find m 0)|].
        destruct (Z.eqb_spec 0 k1); [congruence|]. cbn [negb andb]. by destruct (bebop_idxmap_find m k1) as [?|].
      - rewrite idxmap_find_insert. destruct (bebop_idxmap_find m k1); [done|].
        destruct (Z.eqb_spec k1 (df_name d)) as [->|Hne]; [destruct (Z.eqb_spec (df_name d) 0); [done|]; cbn [negb andb]; by rewrite Z.eqb_refl|].
        destruct (Z.eqb_spec (df_name d) k1); [congruence|]. by rewrite andb_false_r. }
    assert (H2 : bebop_idxmap_find m2 k = match bebop_idxmap_find m k with Some v => Some v | None => if owns h p k then Some i else None end).
    { subst m2. unfold owns. rewrite Ed. unfold bebop_str_is_null in *.
      destruct (negb (df_fqn d =? 0) && negb (df_fqn d =? df_name d)) eqn:Et.
      - apply andb_prop in Et as (Hz%negb_true_iff%Z.eqb_neq&Hne%negb_true_iff%Z.eqb_neq).
        rewrite idxmap_find_insert, H1. destruct (bebop_idxmap_find m k); [done|]. destruct (Z.eqb_spec k 0) as [->|Hk]; cbn [negb andb].
        + destruct (Z.eqb_spec 0 (df_fqn d)); [congruence|done].
        + destruct (Z.eqb_spec (df_name d) k), (Z.eqb_spec k (df_fqn d)), (Z.eqb_spec (df_fqn d) k); cbn; congruence.
      - rewrite H1. destruct (bebop_idxmap_find m k); [done|]. destruct (Z.eqb_spec k 0) as [->|Hk]; cbn [negb andb]; [done|].
        destruct (Z.eqb_spec (df_name d) k), (Z.eqb_spec (df_fqn d) k) as [Hf|]; cbn; try done. exfalso.
        apply andb_false_iff in Et as [Et|Et]; apply negb_false_iff, Z.eqb_eq in Et; congruence. }
    rewrite H2. destruct (bebop_idxmap_find m k); [done|]. by destruct (owns h p k).
Qed.

Lemma owner_Some h i ps k j : owner h i ps k = Some j → ∃ p, (i ≤ j)%nat ∧ ps !! (j - i)%nat = Some p ∧ owns h p k = true.
Proof.
  revert i. induction ps as [|p ps IH]; intros i; cbn [owner]; [done|]. destruct (owns h p k) eqn:Eo.
  - intros [= ->]. exists p. by rewrite Nat.sub_diag.
  - intros (q&Hj&Eq&Hq)%IH. exists q. split_and!; [lia| |done]. by replace (j - i)%nat with (S (j - S i)) by lia.
Qed.

Lemma owner_unique h ps k : ∀ i j p,
  ps !! j = Some p → owns h p k = true → (∀ j' p', ps !! j' = Some p' → owns h p' k = true → j' = j) →
  owner h i ps k = Some (i + j)%nat.
Proof.
  induction ps as [|q ps IH]; intros i j p Ep Ho Hu; [done|]. cbn [owner]. destruct j as [|j]; cbn in Ep.
  - simplify_eq. rewrite Ho. f_equal. lia.
  - destruct (owns h q k) eqn:Eq; [by specialize (Hu 0%nat q eq_refl Eq)|]. rewrite (IH (S i) j p Ep Ho).
    + f_equal. lia.
    + intros j' p' Ej' Ho'. specialize (Hu (S j') p' Ej' Ho'). lia.
Qed.

(** ** Dependents *)

(** Two stores that differ in the dependents of definitions only. *)
Definition but_dependents (h h' : heap) : Prop :=
  Forall2 (λ d d', ∃ l cap, d' = set_dependents l cap d) h h'.

#[export] Instance but_dependents_preorder : PreOrder but_dependents.
Proof.
  split.
  - intros h. unfold but_dependents. induction h as [|d h IH]; constructor; [|done]. exists (df_dependents d), (df_dependents_capacity d). by destruct d.
  - intros h1 h2 h3 H1. revert h3. unfold but_dependents. induction H1 as [|d1 d2 h1 h2 (l1&c1&->) H1 IH]; intros h3 H2; inversion H2 as [|? d3 ? h3' (l2&c2&->) H2']; subst; constructor.
    + by exists l2, c2.
    + by apply IH.
Qed.

Lemma but_dependents_lookup h h' p d : but_dependents h h' → h !! p = Some d → ∃ l cap, h' !! p = Some (set_dependents l cap d).
Proof. intros Hb E. destruct (Forall2_lookup_l _ _ _ _ _ Hb E) as (d'&E'&(l&cap&->)). by exists l, cap. Qed.

Lemma but_dependents_shape h h' : but_dependents h h' → same_shape h h'.
Proof. intros Hb. unfold same_shape. eapply Forall2_impl; [exact Hb|]. intros d d' (l&cap&->). reflexivity. Qed.

Lemma but_dependents_size h h' p : but_dependents h h' → size_right h p → size_right h' p.
Proof.
  intros Hb Hr d' fields mu s Ed' Eb'. destruct (Forall2_lookup_r _ _ _ _ _ Hb Ed') as (d&Ed&(l&cap&->)). cbn in Eb'.
  destruct (Hr d fields mu s Ed Eb') as (H1&H2&H3). pose proof (but_dependents_shape _ _ Hb) as Hs. split; [done|]. split.
  - intros Hpos. by apply (exact_def_same_shape _ _ _ _ Hs), H2.
  - intros n Hn. apply H3. by apply (exact_def_same_shape _ _ _ _ Hs).
Qed.

(** ** What a struct embeds it depends on *)

Lemma contains_elem l x : bebop__deps_contains l x = true ↔ x ∈ l.
Proof.
  unfold bebop__deps_contains. rewrite existsb_exists. split.
  - intros (y&Hy&E). apply Z.eqb_eq in E as ->. by apply list_elem_of_In.
  - intros Hx. exists x. split; [by apply list_elem_of_In|apply Z.eqb_refl].
Qed.

(** Collecting keeps what is there and adds what each part brings. *)
Lemma fold_elem {A} (step : list Z → A → list Z) (P : A → Z → Prop) (Hstep : ∀ l a x, x ∈ step l a ↔ x ∈ l ∨ P a x) bs : ∀ l x,
  x ∈ fold_left step bs l ↔ x ∈ l ∨ ∃ a, a ∈ bs ∧ P a x.
Proof.
  induction bs as [|b bs IH]; intros l x; cbn [fold_left].
  - split; [by left|intros [?|(a&Ha&_)]; [done|by apply not_elem_of_nil in Ha]].
  - rewrite IH, Hstep. setoid_rewrite elem_of_cons. naive_solver.
Qed.
Lemma add_ref_elem h l p x : x ∈ add_ref h l p ↔ x ∈ l ∨ x = fqn_of h p ∧ fqn_of h p ≠ 0.
Proof.
  unfold add_ref, bebop_str_is_null. destruct (Z.eqb_spec (fqn_of h p) 0); cbn [orb]; [naive_solver|].
  destruct (bebop__deps_contains l (fqn_of h p)) eqn:E.
  - apply contains_elem in E. naive_solver.
  - rewrite elem_of_app, list_elem_of_singleton. naive_solver.
Qed.
Lemma add_type_elem h l t x : x ∈ add_type h l t ↔ x ∈ l ∨ ∃ p, p ∈ type_refs t ∧ x = fqn_of h p ∧ fqn_of h p ≠ 0.
Proof. apply (fold_elem (add_ref h) (λ p x, x = fqn_of h p ∧ fqn_of h p ≠ 0)). intros. apply add_ref_elem. Qed.
Definition branch_brings (h : heap) (b : bebop_union_branch_t) (x : Z) : Prop :=
  (∃ p, br_def b = Some p ∧ x = simple_name_of h p ∧ simple_name_of h p ≠ 0) ∨
  ∃ p, p ∈ type_refs (br_type_ref b) ∧ x = fqn_of h p ∧ fqn_of h p ≠ 0.
Lemma add_branch_elem h l b x : x ∈ add_branch h l b ↔ x ∈ l ∨ branch_brings h b x.
Proof.
  unfold add_branch, branch_brings, bebop_str_is_null. rewrite add_type_elem. destruct (br_def b) as [p|]; [|naive_solver].
  destruct (Z.eqb_spec (simple_name_of h p) 0); [naive_solver congruence|]. rewrite elem_of_app, list_elem_of_singleton. naive_solver.
Qed.
Lemma add_decorator_elem h l dec x : x ∈ add_decorator h l dec ↔ x ∈ l ∨ ∃ p, dc_resolved dec = Some p ∧ x = fqn_of h p ∧ fqn_of h p ≠ 0.
Proof. unfold add_decorator. destruct (dc_resolved dec) as [p|]; [rewrite add_ref_elem|]; naive_solver. Qed.

(** ** What a definition refers to

    The definitions that its types, the branches of a union and its decorators lead to, by the
    pointers that resolution has set, whatever their names. *)
Definition mentions (d : bebop_def_t) (q : def_ptr) : Prop :=
  (∃ dec, dec ∈ df_decorators d ++ part_decorators (df_body d) ∧ dc_resolved dec = Some q) ∨
  match df_body d with
  | UnionDef branches => ∃ b, b ∈ branches ∧ (br_def b = Some q ∨ q ∈ type_refs (br_type_ref b))
  | body => ∃ t, t ∈ body_types body ∧ q ∈ type_refs t
  end.
(** The union [u] has the message [m] as a branch, its own or one that it refers to. *)
Definition has_branch (h : heap) (u m : def_ptr) : Prop :=
  ∃ du dm branches fields, h !! u = Some du ∧ h !! m = Some dm ∧ df_body du = UnionDef branches ∧ df_body dm = MessageDef fields ∧
    (df_parent dm = Some u ∨ ∃ b name, b ∈ branches ∧ br_type_ref b = TDefined name (Some m)).
(** A definition has to stand behind what it refers to, except that messages and unions may
    refer to themselves, and unions and their messages to each other. *)
Definition needs (h : heap) (p q : def_ptr) : Prop :=
  ∃ d, h !! p = Some d ∧ mentions d q ∧ ¬ (p = q ∧ match df_body d with MessageDef _ | UnionDef _ => True | _ => False end) ∧
    ¬ has_branch h p q ∧ ¬ has_branch h q p.
(** No name of a branch that is a definition is also another one's, and everything that is
    referred to is part of the program. *)
Definition branches_named_apart (h : heap) (all_defs : list def_ptr) : Prop :=
  ∀ p d, p ∈ all_defs → h !! p = Some d →
    (∀ q, mentions d q → q ∈ all_defs) ∧
    ∀ branches b q, df_body d = UnionDef branches → b ∈ branches → br_def b = Some q →
      simple_name_of h q ≠ 0 ∧ ∀ r, r ∈ all_defs → owns h r (simple_name_of h q) = true → r = q.

Lemma embedded_refs t q : embedded t = Some q → q ∈ type_refs t.
Proof. induction t as [|kind|e _|e IH size|k _ v _|name [p|]]; cbn; try done. intros [= ->]. by apply list_elem_of_singleton. Qed.

(** The definitions of a program whose names have been resolved: each has a full name that
    no other one has, as its name or its full name. *)
Record program_ok (h : heap) (all_defs : list def_ptr) : Prop := {
  po_defs : Forall (λ p, ∃ d, h !! p = Some d ∧ def_ok h d) all_defs;
  po_nodup : NoDup all_defs;
  po_heap : heap_wf h;
  po_count : Z.of_nat (length all_defs) < 2 ^ 31;
  po_closed : ∀ p q, p ∈ all_defs → embeds h p q → q ∈ all_defs;
  po_fqn : ∀ p, p ∈ all_defs → fqn_of h p ≠ 0;
  po_unique : ∀ p q, p ∈ all_defs → q ∈ all_defs → owns h q (fqn_of h p) = true → q = p
}.

Section Program.
Context (h : heap) (all_defs : list def_ptr).
Hypothesis Hok : program_ok h all_defs.

(** The name of one definition only leads to it. *)
Lemma name_leads names k i p :
  register_names h 0 all_defs bebop_idxmap_new = Some names → all_defs !! i = Some p → owns h p k = true →
  (∀ r, r ∈ all_defs → owns h r k = true → r = p) → bebop_idxmap_find names k = Some i.
Proof.
  intros E Ep Ho Hu. destruct Hok as [Hdefs Hnd _ _ _ _ _]. destruct (register_names_correct h all_defs 0 bebop_idxmap_new) as (names'&E'&Hn).
  { eapply Forall_impl; [exact Hdefs|]. intros r (d&Ed&_). by exists d. }
  simplify_eq. rewrite Hn, idxmap_find_new. apply (owner_unique h all_defs _ 0 i p Ep Ho).
  intros j r Ej Hr. assert (r = p) as -> by (apply Hu; [by eapply list_elem_of_lookup_2|done]). by eapply NoDup_lookup.
Qed.
Lemma names_of_program :
  ∃ names, register_names h 0 all_defs bebop_idxmap_new = Some names ∧
    (∀ k i, bebop_idxmap_find names k = Some i → (i < length all_defs)%nat) ∧
    ∀ i p, all_defs !! i = Some p → bebop_idxmap_find names (fqn_of h p) = Some i.
Proof.
  destruct Hok as [Hdefs Hnd _ _ _ Hfqn Huniq]. destruct (register_names_correct h all_defs 0 bebop_idxmap_new) as (names&E&Hn).
  { eapply Forall_impl; [exact Hdefs|]. intros p (d&Ed&_). by exists d. }
  exists names. split_and!; [done| |].
  - intros k i. rewrite Hn, idxmap_find_new. intros (p&_&Ep&_)%owner_Some. rewrite Nat.sub_0_r in Ep. by eapply lookup_lt_Some.
  - intros i p Ep. assert (Hp : p ∈ all_defs) by (by eapply list_elem_of_lookup_2). rewrite Hn, idxmap_find_new.
    apply (owner_unique h all_defs _ 0 i p Ep).
    + unfold owns, fqn_of, bebop_str_is_null. pose proof (Hfqn p Hp) as Hz. rewrite Forall_lookup in Hdefs. destruct (Hdefs i p Ep) as (d&Ed&_).
      unfold fqn_of in Hz. rewrite Ed in *. cbn [from_option] in *. destruct (Z.eqb_spec (df_fqn d) 0); [done|]. cbn [negb andb]. by rewrite Z.eqb_refl, orb_true_r.
    + intros j p' Ej Ho. assert (p' = p) as -> by (apply Huniq; [done|by eapply list_elem_of_lookup_2|done]).
      by eapply NoDup_lookup.
Qed.

Lemma embeds_depends names p q x u :
  (∀ i p, all_defs !! i = Some p → bebop_idxmap_find names (fqn_of h p) = Some i) →
  embeds h p q → all_defs !! x = Some p → all_defs !! u = Some q → depends h all_defs (bebop_idxmap_find names) u x.
Proof.
  intros Hnames (d&fields&mu&s&f&Ed&Eb&Hf&Hq) Ex Eu. destruct Hok as [Hdefs Hnd _ Hcount _ Hfqn _].
  exists p, d, (fqn_of h q). split_and!; [done|done| |].
  - unfold deps_of. rewrite Eb. cbn [body_types]. rewrite (fold_elem _ _ (add_decorator_elem h)), (fold_elem _ _ (add_type_elem h)). left. right. exists (fd_type f).
    split; [apply list_elem_of_fmap; by exists f|]. exists q. split_and!; [by apply embedded_refs|done|]. apply Hfqn. by eapply list_elem_of_lookup_2.
  - rewrite Forall_lookup in Hdefs. destruct (Hdefs u q Eu) as (dq&Edq&_).
    unfold edge_source, bebop__validate_find_def_index, bebop_str_is_null. pose proof (Hfqn q ltac:(by eapply list_elem_of_lookup_2)) as Hz.
    destruct (Z.eqb_spec (fqn_of h q) 0); [done|]. rewrite (Hnames u q Eu). cbn [mbind option_bind].
    apply lookup_lt_Some in Eu as Hu. destruct (Z.ltb_spec (Z.of_nat u) (2 ^ 31)); [|lia]. cbn [mbind option_bind]. rewrite Eu. cbn [mbind option_bind]. rewrite Edq. cbn [mbind option_bind].
    assert (Hkind : def_kind d = BEBOP_DEF_STRUCT) by (unfold def_kind; by rewrite Eb). rewrite Hkind, andb_false_r.
    assert (Hm1 : bebop__validate_is_message_branch_of p d q dq = false) by (unfold bebop__validate_is_message_branch_of; rewrite Eb; by destruct (df_body dq)).
    assert (Hm2 : bebop__validate_is_message_branch_of q dq p d = false) by (unfold bebop__validate_is_message_branch_of; by rewrite Eb).
    by rewrite Hm1, Hm2.
Qed.

(** The code's test for branches. *)
Lemma branch_test p dp q dq : h !! p = Some dp → h !! q = Some dq →
  bebop__validate_is_message_branch_of p dp q dq = true ↔ has_branch h q p.
Proof.
  intros Ep Eq. unfold bebop__validate_is_message_branch_of, has_branch. split.
  - destruct (df_body dq) as [| | | |branches| | |] eqn:Eb; try done. destruct (df_body dp) as [| | |fields| | | |] eqn:Eb'; try done.
    intros [H|H]%orb_true_iff; exists dq, dp, branches, fields; split_and!; try done; [left; by apply bool_decide_eq_true in H|right].
    apply existsb_exists in H as (b&Hb%list_elem_of_In&Ht). destruct (br_type_ref b) as [| | | | |name [r|]] eqn:Et; try done.
    apply bool_decide_eq_true in Ht as ->. by exists b, name.
  - intros (du&dm&branches&fields&E1&E2&Eb&Eb'&H). simplify_eq. rewrite Eb, Eb'. apply orb_true_iff. destruct H as [H|(b&name&Hb&Et)].
    + left. by apply bool_decide_eq_true.
    + right. apply existsb_exists. exists b. split; [by apply list_elem_of_In|]. rewrite Et. by apply bool_decide_eq_true.
Qed.

(** When branches are named apart, the names of [deps_of] are names of the definitions that are
    referred to, and each of these has one. *)
Lemma deps_mention p d : branches_named_apart h all_defs → p ∈ all_defs → h !! p = Some d →
  (∀ x, x ∈ deps_of h d → ∃ q, mentions d q ∧ owns h q x = true ∧ ∀ r, r ∈ all_defs → owns h r x = true → r = q) ∧
  (∀ q, mentions d q → ∃ x, x ∈ deps_of h d ∧ owns h q x = true ∧ ∀ r, r ∈ all_defs → owns h r x = true → r = q).
Proof.
  intros Hapart Hp Ed. destruct (Hapart p d Hp Ed) as (Hin&Hbr). destruct Hok as [Hdefs _ _ _ _ Hfqn Huniq].
  assert (Hone : ∀ q, q ∈ all_defs → owns h q (fqn_of h q) = true ∧ ∀ r, r ∈ all_defs → owns h r (fqn_of h q) = true → r = q).
  { intros q Hq. split; [|intros r Hr; by apply Huniq]. pose proof (Hfqn q Hq) as Hz. rewrite Forall_forall in Hdefs. destruct (Hdefs q Hq) as (dq&Edq&_).
    unfold owns, fqn_of, bebop_str_is_null in *. rewrite Edq in *. cbn [from_option] in *. destruct (Z.eqb_spec (df_fqn dq) 0); [done|]. by rewrite Z.eqb_refl, orb_true_r. }
  assert (Hsimple : ∀ branches b q, df_body d = UnionDef branches → b ∈ branches → br_def b = Some q →
    owns h q (simple_name_of h q) = true ∧ ∀ r, r ∈ all_defs → owns h r (simple_name_of h q) = true → r = q).
  { intros branches b q Eb Hb Eq. destruct (Hbr branches b q Eb Hb Eq) as (Hz&Hr). split; [|done].
    unfold owns, simple_name_of, bebop_str_is_null in *. destruct (h !! q) as [dq|]; [|done]. cbn [from_option] in *.
    destruct (Z.eqb_spec (df_name dq) 0); [done|]. by rewrite Z.eqb_refl. }
  unfold deps_of. split.
  - intros x [Hx|(dec&Hdec&q&Eq&->&_)]%(fold_elem _ _ (add_decorator_elem h)).
    + destruct (df_body d) as [|base ms|fields mu s|fields|branches|methods mixins|ty val|dd] eqn:Eb;
        try (apply (fold_elem _ _ (add_type_elem h)) in Hx as [Hx|(t&Ht&q&Hq&->&_)]; [by apply not_elem_of_nil in Hx|];
             assert (Hm : mentions d q) by (right; rewrite Eb; by exists t); exists q; split; [done|]; by apply Hone, Hin).
      apply (fold_elem _ _ (add_branch_elem h)) in Hx as [Hx|(b&Hb&[(q&Eq&->&_)|(q&Hq&->&_)])]; [by apply not_elem_of_nil in Hx| |].
      * exists q. split; [right; rewrite Eb; exists b; by split; [|left]|]. by eapply Hsimple.
      * assert (Hm : mentions d q) by (right; rewrite Eb; exists b; by split; [|right]). exists q. split; [done|]. by apply Hone, Hin.
    + assert (Hm : mentions d q) by (left; by exists dec). exists q. split; [done|]. by apply Hone, Hin.
  - intros q Hm. pose proof (Hin q Hm) as Hq. setoid_rewrite (fold_elem _ _ (add_decorator_elem h)).
    destruct Hm as [(dec&Hdec&Eq)|Hm]; [exists (fqn_of h q); split; [right; exists dec; split; [done|]; exists q; split_and!; [done|done|by apply Hfqn]|by apply Hone]|].
    destruct (df_body d) as [|base ms|fields mu s|fields|branches|methods mixins|ty val|dd] eqn:Eb;
      try (destruct Hm as (t&Ht&Hr); exists (fqn_of h q); split; [left; apply (fold_elem _ _ (add_type_elem h)); right; exists t; split; [done|];
             exists q; split_and!; [done|done|by apply Hfqn]|by apply Hone]).
    destruct Hm as (b&Hb&[Eq|Hr]).
    + exists (simple_name_of h q). split; [|by eapply Hsimple]. left. apply (fold_elem _ _ (add_branch_elem h)). right. exists b. split; [done|].
      left. exists q. split_and!; [done|done|]. by eapply Hbr.
    + exists (fqn_of h q). split; [|by apply Hone]. left. apply (fold_elem _ _ (add_branch_elem h)). right. exists b. split; [done|].
      right. exists q. split_and!; [done|done|by apply Hfqn].
Qed.

(** Then the dependencies the pass works with are the references of the program. *)
Lemma depends_needs names : register_names h 0 all_defs bebop_idxmap_new = Some names → branches_named_apart h all_defs →
  ∀ u x p q, all_defs !! x = Some p → all_defs !! u = Some q → depends h all_defs (bebop_idxmap_find names) u x ↔ needs h p q.
Proof.
  intros En Hapart u x p q Ex Eu.
  assert (Hp : p ∈ all_defs) by (by eapply list_elem_of_lookup_2). assert (Hq : q ∈ all_defs) by (by eapply list_elem_of_lookup_2).
  pose proof (po_defs _ _ Hok) as Hdefs. rewrite Forall_forall in Hdefs. destruct (Hdefs p Hp) as (d&Ed&_), (Hdefs q Hq) as (dq&Edq&_).
  destruct (deps_mention p d Hapart Hp Ed) as (Hto&Hfrom).
  assert (Hsource : ∀ name, owns h q name = true → (∀ r, r ∈ all_defs → owns h r name = true → r = q) →
    edge_source h all_defs (bebop_idxmap_find names) x p d name = Some u ↔
      ¬ (p = q ∧ match df_body d with MessageDef _ | UnionDef _ => True | _ => False end) ∧ ¬ has_branch h p q ∧ ¬ has_branch h q p).
  { intros name Ho Hone. unfold edge_source, bebop__validate_find_def_index.
    assert (Hz : bebop_str_is_null name = false) by (unfold owns in Ho; by destruct (bebop_str_is_null name)).
    rewrite Hz, (name_leads names name u q En Eu Ho Hone). cbn [mbind option_bind]. apply lookup_lt_Some in Eu as Hu. pose proof (po_count _ _ Hok).
    destruct (Z.ltb_spec (Z.of_nat u) (2 ^ 31)); [|lia]. cbn [mbind option_bind]. rewrite Eu. cbn [mbind option_bind]. rewrite Edq. cbn [mbind option_bind].
    rewrite <- (branch_test p d q dq Ed Edq), <- (branch_test q dq p d Edq Ed).
    assert (Hself : u = x ↔ p = q).
    { split; [intros ->; congruence|intros ->]. eapply NoDup_lookup; [apply (po_nodup _ _ Hok)|done|done]. }
    unfold def_kind. case_bool_decide as Hux.
    - apply Hself in Hux. destruct (df_body d), (bebop__validate_is_message_branch_of p d q dq), (bebop__validate_is_message_branch_of q dq p d); cbn; naive_solver.
    - cbn [andb]. rewrite Hself in Hux. destruct (bebop__validate_is_message_branch_of p d q dq), (bebop__validate_is_message_branch_of q dq p d); naive_solver. }
  split.
  - intros (p'&d'&name&Ex'&Ed'&Hname&Hs). simplify_eq. destruct (Hto name Hname) as (q'&Hm&Ho&Hone).
    assert (q' = q) as ->.
    { assert (Hq' : q' ∈ all_defs) by (by apply (Hapart p d Hp Ed)). apply list_elem_of_lookup in Hq' as (u'&Eu').
      unfold edge_source, bebop__validate_find_def_index in Hs. destruct (bebop_str_is_null name); [done|].
      rewrite (name_leads names name u' q' En Eu' Ho Hone) in Hs. cbn [mbind option_bind] in Hs. destruct (Z.of_nat u' <? 2 ^ 31); [|done]. cbn [mbind option_bind] in Hs.
      rewrite Eu' in Hs. cbn [mbind option_bind] in Hs. destruct (h !! q'); [|done]. cbn [mbind option_bind] in Hs. repeat case_match; simplify_eq; done. }
    exists d. split_and!; [done|done|by apply (Hsource name)..].
  - intros (d'&Ed'&Hm&Hrest). simplify_eq. destruct (Hfrom q Hm) as (name&Hname&Ho&Hone). exists p, d, name. split_and!; [done..|]. by apply Hsource.
Qed.

(** An order of the indices is an order of the definitions. *)
Lemma order_in_order names l order :
  (∀ i p, all_defs !! i = Some p → bebop_idxmap_find names (fqn_of h p) = Some i) →
  l ≡ₚ seq 0 (length all_defs) → mapM (λ i, all_defs !! i) l = Some order →
  (∀ i x u, l !! i = Some x → depends h all_defs (bebop_idxmap_find names) u x → ∃ j, (j < i)%nat ∧ l !! j = Some u) →
  order ≡ₚ all_defs ∧ in_order h order.
Proof.
  intros Hnames Hperm Hmap Hord. apply mapM_Some in Hmap.
  assert (Hlookup : ∀ i p, order !! i = Some p ↔ ∃ x, l !! i = Some x ∧ all_defs !! x = Some p).
  { intros i p. split.
    - intros Ep. destruct (Forall2_lookup_r _ _ _ _ _ Hmap Ep) as (x&Ex&E). by exists x.
    - intros (x&Ex&E). destruct (Forall2_lookup_l _ _ _ _ _ Hmap Ex) as (p'&Ep'&E'). congruence. }
  assert (Hndl : NoDup l) by (rewrite Hperm; apply NoDup_seq).
  assert (Hlen : length order = length all_defs) by (rewrite <- (Forall2_length _ _ _ Hmap), Hperm, length_seq; done).
  assert (Hin : ∀ p, p ∈ order → p ∈ all_defs).
  { intros p (i&Ei)%list_elem_of_lookup. apply Hlookup in Ei as (x&_&E). by eapply list_elem_of_lookup_2. }
  assert (Hndo : NoDup order).
  { apply NoDup_alt. intros i j p Ei Ej. apply Hlookup in Ei as (x&Ex&E1). apply Hlookup in Ej as (y&Ey&E2).
    assert (x = y) as -> by (eapply NoDup_lookup; [apply (po_nodup _ _ Hok)|done|done]). by eapply NoDup_lookup. }
  split; [apply submseteq_length_Permutation; [by apply NoDup_submseteq|lia]|].
  intros i p q Ei Hpq. apply Hlookup in Ei as (x&Ex&Ep).
  assert (Hq : q ∈ all_defs) by (eapply (po_closed _ _ Hok); [by eapply list_elem_of_lookup_2|done]).
  apply list_elem_of_lookup in Hq as (u&Eu). destruct (Hord i x u Ex) as (j&Hj&Ej); [by eapply embeds_depends|].
  exists j. split; [done|]. apply Hlookup. by exists u.
Qed.
End Program.

(** ** Recording dependents *)

Definition room_ok (d : bebop_def_t) : Prop := zlen (df_dependents d) ≤ df_dependents_capacity d ≤ UINT32_MAX.

Lemma set_dependents_twice l c l' c' d : set_dependents l c (set_dependents l' c' d) = set_dependents l c d.
Proof. by destruct d. Qed.
Lemma set_dependents_same d : set_dependents (df_dependents d) (df_dependents_capacity d) d = d.
Proof. by destruct d. Qed.

Lemma add_dependents_correct all_defs p es : ∀ h d v,
  h !! p = Some d → room_ok d → (∀ x, x ∈ es → (x < length all_defs)%nat) →
  ∃ l cap v', add_dependents grants all_defs h p es v = Some (<[p := set_dependents l cap d]> h, v') ∧ quiet v v' ∧ zlen l ≤ cap ≤ UINT32_MAX ∧
    (va_alloc_failed v' = true ∨
     va_alloc_failed v' = va_alloc_failed v ∧ ∃ ds, mapM (λ i, all_defs !! i) es = Some ds ∧ l = df_dependents d ++ ds).
Proof.
  induction es as [|x es IH]; intros h d v Ed Hroom Hes; cbn [add_dependents].
  - exists (df_dependents d), (df_dependents_capacity d), v. rewrite set_dependents_same, list_insert_id by done.
    split_and!; [done|done|apply Hroom|apply Hroom|]. right. split; [done|]. exists []. by rewrite app_nil_r.
  - destruct (lookup_lt_is_Some_2 all_defs x) as (px&Ex); [apply Hes; set_solver|]. rewrite (C_lift_bind _ _ _ _ Ex).
    unfold bebop__validate_add_dependent. rewrite <- C_assoc, (C_lift_bind _ _ _ _ Ed).
    destruct Hroom as (Hr1&Hr2). destruct (array_push_correct grants 8 (zlen (df_dependents d)) (df_dependents_capacity d) v) as (r&v1&E1&Hq1&Hf1&Hr);
      [lia|pose proof (zlen_nonneg (df_dependents d)); lia|done|]. rewrite <- C_assoc, (C_bind_Some _ _ _ _ _ E1). destruct r as [cap|].
    + rewrite (C_bind_Some (mret _) _ _ _ _ eq_refl). set (d1 := set_dependents (df_dependents d ++ [px]) cap d).
      assert (Ed1 : <[p := d1]> h !! p = Some d1) by (apply list_lookup_insert_eq; by eapply lookup_lt_Some).
      destruct (IH (<[p := d1]> h) d1 v1 Ed1) as (l&cap'&v2&E2&Hq2&Hl&H2).
      { split; cbn; [unfold zlen in *; rewrite length_app; cbn; lia|lia]. }
      { intros y Hy. apply Hes. set_solver. }
      exists l, cap', v2. rewrite list_insert_insert_eq in E2. subst d1. rewrite set_dependents_twice in E2.
      split_and!; [done|by eapply quiet_trans|apply Hl|apply Hl|]. destruct H2 as [?|(Hf2&ds&Eds&->)]; [by left|right].
      split; [congruence|]. exists (px :: ds). cbn. rewrite Ex. cbn. rewrite Eds. cbn. by rewrite <- app_assoc.
    + assert (Hfail : ∀ w, (fail ≫= λ _, mret h) w = Some (h, set_failed w)) by done. rewrite (C_bind_Some _ _ _ _ _ (Hfail v1)).
      destruct (IH h d (set_failed v1) Ed) as (l&cap'&v2&E2&Hq2&Hl&H2); [done|intros y Hy; apply Hes; set_solver|].
      exists l, cap', v2. split_and!; [done| |apply Hl|apply Hl|left; by apply Hq2]. eapply quiet_trans; [exact Hq1|]. eapply quiet_trans; [apply quiet_failed|done].
Qed.

Lemma but_dependents_insert h p d l cap : h !! p = Some d → but_dependents h (<[p := set_dependents l cap d]> h).
Proof.
  intros Ed. unfold but_dependents. apply Forall2_same_length_lookup. split; [by rewrite length_insert|]. intros i x y Ex Ey.
  destruct (decide (i = p)) as [->|Hne].
  - rewrite list_lookup_insert_eq in Ey by (by eapply lookup_lt_Some). simplify_eq. by exists l, cap.
  - rewrite list_lookup_insert_ne in Ey by done. simplify_eq. exists (df_dependents x), (df_dependents_capacity x). by rewrite set_dependents_same.
Qed.

Lemma record_dependents_correct all_defs ps : ∀ h adj v,
  NoDup ps → length adj = length ps → Forall (λ p, ∃ d, h !! p = Some d ∧ room_ok d) ps →
  (∀ u x, edge adj u x → (x < length all_defs)%nat) →
  ∃ h' v', record_dependents grants all_defs h ps adj v = Some (h', v') ∧ quiet v v' ∧ but_dependents h h' ∧
    (∀ p, p ∉ ps → h' !! p = h !! p) ∧
    (va_alloc_failed v' = true ∨
     va_alloc_failed v' = va_alloc_failed v ∧
     ∀ i p d es, ps !! i = Some p → h !! p = Some d → adj !! i = Some es →
       ∃ ds cap, mapM (λ i, all_defs !! i) es = Some ds ∧ h' !! p = Some (set_dependents (df_dependents d ++ ds) cap d)).
Proof.
  induction ps as [|p ps IH]; intros h adj v Hnd Hlen Hps Hadj; cbn [record_dependents].
  - exists h, v. split_and!; [done|done|reflexivity|done|]. by right.
  - destruct adj as [|es adj]; [done|]. apply Forall_cons in Hps as ((d&Ed&Hroom)&Hps). apply NoDup_cons in Hnd as (Hp&Hnd).
    destruct (add_dependents_correct all_defs p es h d v Ed Hroom) as (l&cap&v1&E1&Hq1&Hl&H1).
    { intros x Hx. apply (Hadj 0%nat). by exists es. }
    rewrite (C_bind_Some _ _ _ _ _ E1). set (h1 := <[p := set_dependents l cap d]> h).
    assert (Hother : ∀ q, q ≠ p → h1 !! q = h !! q) by (intros q Hq; by apply list_lookup_insert_ne).
    destruct (IH h1 adj v1 Hnd) as (h2&v2&E2&Hq2&Hb2&Hk2&H2).
    { cbn in Hlen. lia. }
    { rewrite Forall_forall in Hps |- *. intros q Hq. rewrite Hother by (intros ->; done). by apply Hps. }
    { intros u x (es'&E'&Hx). apply (Hadj (S u)). by exists es'. }
    exists h2, v2. split_and!; [done|by eapply quiet_trans|etransitivity; [by apply but_dependents_insert|done]| |].
    + intros q Hq. apply not_elem_of_cons in Hq as (Hqp&Hq). rewrite Hk2 by done. by apply Hother.
    + destruct H1 as [Hf1|(Hf1&ds&Eds&->)]; [left; by apply Hq2|]. destruct H2 as [?|(Hf2&H2)]; [by left|right].
      split; [congruence|]. intros [|i] q dq es' Eq Edq Ees; cbn in Eq, Ees; simplify_eq.
      * exists ds, cap. split; [done|]. rewrite Hk2 by done. apply list_lookup_insert_eq. by eapply lookup_lt_Some.
      * apply (H2 i q dq es' Eq); [|done]. rewrite Hother; [done|]. intros ->. apply Hp. by eapply list_elem_of_lookup_2.
Qed.

(** ** The definitions of each schema *)

Definition of_schema (h : heap) (s : schema_ptr) (p : def_ptr) : bool := bool_decide (schema_of h p = Some (Some s)).
Definition mine (h : heap) (s : schema_ptr) (sorted : list def_ptr) : list def_ptr := filter (λ p, of_schema h s p = true) sorted.

(** Every definition's schema is one of [k]. *)
Definition schemas_ok (h : heap) (k : nat) (sorted : list def_ptr) : Prop :=
  Forall (λ p, ∃ d, h !! p = Some d ∧ match df_schema d with Some s => (s < k)%nat | None => True end) sorted.

Lemma mine_cons h s p sorted :
  mine h s (p :: sorted) = if of_schema h s p then p :: mine h s sorted else mine h s sorted.
Proof.
  unfold mine. rewrite filter_cons. destruct (of_schema h s p) eqn:E; [by rewrite decide_True|by rewrite decide_False].
Qed.

Lemma mine_le h s sorted : zlen (mine h s sorted) ≤ zlen sorted.
Proof. unfold mine, zlen. pose proof (length_filter (λ p, of_schema h s p = true) sorted). lia. Qed.

Lemma count_defs_correct h sorted : ∀ schemas,
  schemas_ok h (length schemas) sorted → (∀ s sc, schemas !! s = Some sc → 0 ≤ sc_sorted_count sc ∧ sc_sorted_count sc + zlen sorted < 2 ^ 32) →
  ∃ schemas', count_defs h sorted schemas = Some schemas' ∧ length schemas' = length schemas ∧
    ∀ s sc, schemas !! s = Some sc →
      schemas' !! s = Some (mkSchema (sc_validated sc) (sc_sorted_defs sc) (sc_sorted_count sc + zlen (mine h s sorted)) (sc_sorted_capacity sc)).
Proof.
  induction sorted as [|p sorted IH]; intros schemas Hok Hcount; cbn [count_defs].
  - exists schemas. split_and!; [done..|]. intros s sc E. rewrite E. f_equal. destruct sc. cbn. f_equal. unfold zlen. cbn. lia.
  - apply Forall_cons in Hok as ((d&Ed&Hs)&Hok). unfold schema_of at 1. rewrite Ed. cbn [mbind option_bind].
    assert (Hz : zlen (p :: sorted) = zlen sorted + 1) by (unfold zlen; cbn; lia).
    assert (Hmine : ∀ s, of_schema h s p = bool_decide (df_schema d = Some s)).
    { intros s. unfold of_schema, schema_of. rewrite Ed. cbn. apply bool_decide_ext. split; [by intros [=]|by intros ->]. }
    destruct (df_schema d) as [s0|].
    + destruct (lookup_lt_is_Some_2 schemas s0 Hs) as (sc0&E0). rewrite E0. cbn [mbind option_bind].
      destruct (Hcount _ _ E0) as (Hc0&Hc1). pose proof (zlen_nonneg sorted). rewrite u32_small by lia.
      set (sc1 := mkSchema _ _ _ _). destruct (IH (<[s0 := sc1]> schemas)) as (schemas'&E'&Hlen&H').
      * by rewrite length_insert.
      * intros s sc E. destruct (decide (s = s0)) as [->|Hne].
        -- rewrite list_lookup_insert_eq in E by done. injection E as <-. cbn. lia.
        -- rewrite list_lookup_insert_ne in E by done. destruct (Hcount _ _ E). lia.
      * exists schemas'. rewrite length_insert in Hlen. split_and!; [done|done|]. intros s sc E. rewrite mine_cons, Hmine.
        destruct (decide (s = s0)) as [->|Hne].
        -- simplify_eq. rewrite bool_decide_true by done. rewrite (H' s0 sc1) by (by apply list_lookup_insert_eq). subst sc1. cbn.
           do 2 f_equal. unfold zlen. cbn. lia.
        -- rewrite bool_decide_false by congruence. apply H'. by rewrite list_lookup_insert_ne.
    + destruct (IH schemas Hok) as (schemas'&E'&Hlen&H'); [intros s sc E; destruct (Hcount _ _ E); lia|].
      exists schemas'. split_and!; [done|done|]. intros s sc E. rewrite mine_cons, Hmine, bool_decide_false by done. by apply H'.
Qed.

Lemma allocate_sorted_correct schemas : ∀ v,
  ∃ schemas' v', allocate_sorted grants schemas v = Some (schemas', v') ∧ quiet v v' ∧ va_alloc_failed v' = va_alloc_failed v ∧
    length schemas' = length schemas ∧
    ∀ s sc, schemas !! s = Some sc →
      schemas' !! s = Some sc ∧ sc_sorted_count sc = 0 ∨
      sc_sorted_count sc ≠ 0 ∧
      (schemas' !! s = Some (mkSchema (sc_validated sc) (Some []) 0 (sc_sorted_count sc)) ∨
       schemas' !! s = Some (mkSchema (sc_validated sc) None 0 0) ∧ ∃ k, grants k = false).
Proof.
  induction schemas as [|sc schemas IH]; intros v; cbn [allocate_sorted].
  - exists [], v. split_and!; [done..|]. intros s sc E. by rewrite lookup_nil in E.
  - destruct (Z.eqb_spec (sc_sorted_count sc) 0) as [E0|E0].
    + rewrite (C_bind_Some (mret sc) _ _ _ _ eq_refl). destruct (IH v) as (schemas'&v'&E&Hq&Hf&Hl&H'). rewrite (C_bind_Some _ _ _ _ _ E).
      eexists _, v'. split; [reflexivity|]. split_and!; [done|done|cbn; lia|]. intros [|s] sc' E'; cbn in E'; [simplify_eq; by left|by apply H'].
    + rewrite <- C_assoc, (C_bind_Some _ _ _ _ _ (request_eq grants v)). destruct (grants (va_requests v)) eqn:Eg; rewrite (C_bind_Some (mret _) _ _ _ _ eq_refl);
        destruct (IH (set_requests (S (va_requests v)) v)) as (schemas'&v'&E&Hq&Hf&Hl&H'); rewrite (C_bind_Some _ _ _ _ _ E);
        (eexists _, v'; split; [reflexivity|]; split_and!; [done|done|cbn; lia|]; intros [|s] sc' E'; cbn in E'; [simplify_eq; right; split; [done|]|by apply H']).
      * by left.
      * right. split; [done|]. by exists (va_requests v).
Qed.

(** What filling a schema does. *)
Definition filled_with (sc : bebop_schema_t) (l : list def_ptr) : bebop_schema_t :=
  match sc_sorted_defs sc with
  | None => sc
  | Some old => mkSchema (sc_validated sc) (Some (old ++ l)) (sc_sorted_count sc + zlen l) (sc_sorted_capacity sc)
  end.

Lemma fill_sorted_correct h sorted : ∀ schemas,
  schemas_ok h (length schemas) sorted →
  (∀ s sc, schemas !! s = Some sc → 0 ≤ sc_sorted_count sc ∧ sc_sorted_count sc + zlen sorted < 2 ^ 32 ∧
     match sc_sorted_defs sc with Some old => zlen old + zlen (mine h s sorted) ≤ sc_sorted_capacity sc | None => True end) →
  ∃ schemas', fill_sorted h sorted schemas = Some schemas' ∧
    ∀ s sc, schemas !! s = Some sc → schemas' !! s = Some (filled_with sc (mine h s sorted)).
Proof.
  induction sorted as [|p sorted IH]; intros schemas Hok Hcount; cbn [fill_sorted].
  - exists schemas. split; [done|]. intros s sc E. rewrite E. unfold filled_with. destruct sc as [va [l|] c cap]; cbn; [|done].
    rewrite app_nil_r. do 2 f_equal. unfold zlen. cbn. lia.
  - apply Forall_cons in Hok as ((d&Ed&Hs)&Hok). unfold schema_of at 1. rewrite Ed. cbn [mbind option_bind].
    assert (Hz : zlen (p :: sorted) = zlen sorted + 1) by (unfold zlen; cbn; lia). pose proof (zlen_nonneg sorted) as Hzn.
    assert (Hmine : ∀ s, of_schema h s p = bool_decide (df_schema d = Some s)).
    { intros s. unfold of_schema, schema_of. rewrite Ed. cbn. apply bool_decide_ext. split; [by intros [=]|by intros ->]. }
    assert (Hkeep : ∀ s, df_schema d ≠ Some s → mine h s (p :: sorted) = mine h s sorted).
    { intros s Hne. by rewrite mine_cons, Hmine, bool_decide_false. }
    destruct (df_schema d) as [s0|].
    + destruct (lookup_lt_is_Some_2 schemas s0 Hs) as (sc0&E0). rewrite E0. cbn [mbind option_bind].
      assert (Hm0 : mine h s0 (p :: sorted) = p :: mine h s0 sorted) by (by rewrite mine_cons, Hmine, bool_decide_true).
      destruct (Hcount _ _ E0) as (Hc0&Hc1&Hc2). rewrite Hm0 in Hc2. destruct (sc_sorted_defs sc0) as [old|] eqn:Eold.
      * assert (Hcap : zlen old + 1 + zlen (mine h s0 sorted) ≤ sc_sorted_capacity sc0) by (unfold zlen in *; cbn in Hc2; lia).
        pose proof (zlen_nonneg (mine h s0 sorted)). destruct (Z.leb_spec (sc_sorted_capacity sc0) (zlen old)); [lia|]. rewrite u32_small by lia.
        set (sc1 := mkSchema _ _ _ _). destruct (IH (<[s0 := sc1]> schemas)) as (schemas'&E'&H').
        -- by rewrite length_insert.
        -- intros s sc E. destruct (decide (s = s0)) as [->|Hne].
           ++ rewrite list_lookup_insert_eq in E by done. injection E as <-. subst sc1. cbn. split_and!; [lia|lia|]. unfold zlen in *. rewrite length_app. cbn. lia.
           ++ rewrite list_lookup_insert_ne in E by done. destruct (Hcount _ _ E) as (?&?&Hc). split_and!; [lia|lia|]. rewrite Hkeep in Hc by congruence. done.
        -- exists schemas'. split; [done|]. intros s sc E. destruct (decide (s = s0)) as [->|Hne].
           ++ simplify_eq. rewrite (H' s0 sc1) by (by apply list_lookup_insert_eq). rewrite Hm0. subst sc1. unfold filled_with. cbn. rewrite Eold.
              f_equal. f_equal; [by rewrite <- app_assoc|]. unfold zlen. cbn. lia.
           ++ rewrite Hkeep by congruence. apply H'. by rewrite list_lookup_insert_ne.
      * destruct (IH schemas Hok) as (schemas'&E'&H').
        -- intros s sc E. destruct (Hcount _ _ E) as (?&?&Hc). split_and!; [lia|lia|]. destruct (decide (s = s0)) as [->|Hne]; [simplify_eq; by rewrite Eold|].
           rewrite Hkeep in Hc by congruence. done.
        -- exists schemas'. split; [done|]. intros s sc E. destruct (decide (s = s0)) as [->|Hne].
           ++ simplify_eq. rewrite (H' _ _ E0). unfold filled_with. by rewrite Eold.
           ++ rewrite Hkeep by congruence. by apply H'.
    + destruct (IH schemas Hok) as (schemas'&E'&H').
      * intros s sc E. destruct (Hcount _ _ E) as (?&?&Hc). split_and!; [lia|lia|]. by rewrite Hkeep in Hc.
      * exists schemas'. split; [done|]. intros s sc E. rewrite Hkeep by done. by apply H'.
Qed.

(** A schema with its definitions in order; null when it has none, or when the arena refused
    the array. *)
Definition distributed (h : heap) (sorted : list def_ptr) (s : schema_ptr) (sc : bebop_schema_t) : Prop :=
  sc_validated sc = true ∧
  (sc_sorted_defs sc = Some (mine h s sorted) ∧ sc_sorted_count sc = zlen (mine h s sorted) ∨
   sc_sorted_defs sc = None ∧ sc_sorted_count sc = 0 ∧ (mine h s sorted = [] ∨ ∃ k, grants k = false)).

Lemma distribute_correct h sorted schemas v :
  schemas_ok h (length schemas) sorted → zlen sorted < 2 ^ 32 →
  ∃ schemas' v', distribute grants h sorted schemas v = Some (schemas', v') ∧ va_alloc_failed v' = va_alloc_failed v ∧
    ∀ s, (s < length schemas)%nat → ∃ sc, schemas' !! s = Some sc ∧ distributed h sorted s sc.
Proof.
  intros Hok Hlen. unfold distribute. pose proof (zlen_nonneg sorted).
  set (empty := map (λ _ : bebop_schema_t, mkSchema true None 0 0) schemas).
  assert (Hempty : ∀ s sc, empty !! s = Some sc → sc = mkSchema true None 0 0).
  { intros s sc E. unfold empty in E. rewrite list_lookup_fmap in E. destruct (schemas !! s); [by injection E as <-|done]. }
  assert (Hle : length empty = length schemas) by apply length_map.
  destruct (count_defs_correct h sorted empty) as (schemas1&E1&Hl1&H1); [by rewrite Hle|intros s sc E; rewrite (Hempty _ _ E); cbn; lia|].
  rewrite (C_lift_bind _ _ _ _ E1). destruct (allocate_sorted_correct schemas1 v) as (schemas2&v2&E2&Hq2&Hf2&Hl2&H2). rewrite (C_bind_Some _ _ _ _ _ E2).
  assert (Hshape : ∀ s, (s < length schemas)%nat → ∃ sc, schemas2 !! s = Some sc ∧
    (sc = mkSchema true None 0 0 ∧ (mine h s sorted = [] ∨ ∃ k, grants k = false) ∨
     sc = mkSchema true (Some []) 0 (zlen (mine h s sorted)))).
  { intros s Hs. destruct (lookup_lt_is_Some_2 empty s) as (sc&Esc); [by rewrite Hle|]. pose proof (H1 _ _ Esc) as E. rewrite (Hempty _ _ Esc) in E. cbn in E.
    destruct (H2 _ _ E) as [(E'&Hz)|(Hz&[E'|(E'&Hg)])]; cbn in Hz, E'.
    - eexists. split; [exact E'|]. left. rewrite Hz. split; [done|]. left. destruct (mine h s sorted); [done|unfold zlen in Hz; cbn in Hz; lia].
    - eexists. split; [exact E'|]. by right.
    - eexists. split; [exact E'|]. left. split; [done|by right]. }
  destruct (fill_sorted_correct h sorted schemas2) as (schemas3&E3&H3).
  { by rewrite Hl2, Hl1, Hle. }
  { intros s sc E. apply lookup_lt_Some in E as Hs. rewrite Hl2, Hl1, Hle in Hs. destruct (Hshape s Hs) as (sc'&E'&Hsc). simplify_eq.
    destruct Hsc as [(->&_)| ->]; cbn; [lia|]. unfold zlen at 2. cbn. lia. }
  exists schemas3, v2. rewrite E3. split_and!; [done|done|]. intros s Hs. destruct (Hshape s Hs) as (sc&E&Hsc). rewrite (H3 _ _ E). eexists. split; [done|].
  destruct Hsc as [(->&Hn)| ->]; unfold distributed, filled_with; cbn; (split; [done|]); [by right|left; split; [done|lia]].
Qed.

(** ** Sizes *)

(** Two stores that differ in the bodies of definitions only. *)
Definition but_bodies (h h' : heap) : Prop := Forall2 (λ d d', ∃ b, d' = set_body b d) h h'.

Lemma but_bodies_refl h : but_bodies h h.
Proof. unfold but_bodies. induction h as [|d h IH]; constructor; [|done]. exists (df_body d). by destruct d. Qed.

Lemma compute_fixed_size_keeps h p h' : compute_fixed_size h p = Some h' → but_bodies h h'.
Proof.
  unfold compute_fixed_size. destruct (h !! p) as [d|] eqn:E; cbn [mbind option_bind]; [|done].
  destruct (df_body d); try (intros [= <-]; by apply but_bodies_refl).
  destruct (fields_fixed_size h fields 0) as [total|]; cbn [mbind option_bind]; [|done]. intros [= <-].
  unfold but_bodies. apply Forall2_same_length_lookup. split; [by rewrite length_insert|]. intros i x y Ex Ey.
  destruct (decide (i = p)) as [->|Hne].
  - rewrite list_lookup_insert_eq in Ey by (by eapply lookup_lt_Some). simplify_eq. by eexists.
  - rewrite list_lookup_insert_ne in Ey by done. simplify_eq. exists (df_body x). by destruct x.
Qed.

Lemma compute_fixed_sizes_keep sorted : ∀ h h', bebop__validate_compute_fixed_sizes h sorted = Some h' → but_bodies h h'.
Proof.
  induction sorted as [|p sorted IH]; intros h h'; cbn [bebop__validate_compute_fixed_sizes]; [intros [= <-]; apply but_bodies_refl|].
  destruct (compute_fixed_size h p) as [h1|] eqn:E1; cbn [mbind option_bind]; [|done].
  intros H2%IH. apply compute_fixed_size_keeps in E1. unfold but_bodies in *. revert h' H2.
  induction E1 as [|d1 d2 h h1 (b1&->) E1 IH1]; intros h3 H2; inversion H2 as [|? d3 ? h3' (b2&->) H2']; subst; constructor; [by exists b2|by apply IH1].
Qed.

Lemma but_bodies_lookup h h' p d : but_bodies h h' → h !! p = Some d → ∃ b, h' !! p = Some (set_body b d).
Proof. intros Hb E. destruct (Forall2_lookup_l _ _ _ _ _ Hb E) as (d'&E'&(b&->)). by exists b. Qed.

Lemma schemas_ok_bodies h h' k l : but_bodies h h' → schemas_ok h k l → schemas_ok h' k l.
Proof.
  intros Hb Hok. unfold schemas_ok in *. eapply Forall_impl; [exact Hok|]. intros p (d&Ed&Hd).
  destruct (but_bodies_lookup _ _ _ _ Hb Ed) as (b&E). by exists (set_body b d).
Qed.
Lemma schemas_ok_dependents h h' k l : but_dependents h h' → schemas_ok h k l → schemas_ok h' k l.
Proof.
  intros Hb Hok. unfold schemas_ok in *. eapply Forall_impl; [exact Hok|]. intros p (d&Ed&Hd).
  destruct (but_dependents_lookup _ _ _ _ Hb Ed) as (l'&c&E). by exists (set_dependents l' c d).
Qed.

(** ** The whole of it *)

(** The list of a definition's dependents got the definitions that depend on it. *)
Definition dependents_right (h h' : heap) (all_defs : list def_ptr) (names : Z → option nat) : Prop :=
  ∀ i p d, all_defs !! i = Some p → h !! p = Some d →
    ∃ d' ds, h' !! p = Some d' ∧ df_dependents d' = df_dependents d ++ ds ∧
      ∀ q, q ∈ ds ↔ ∃ x, all_defs !! x = Some q ∧ depends h all_defs names i x.

Definition program_ordered (h : heap) (schemas : list bebop_schema_t) (all_defs : list def_ptr) (names : Z → option nat)
    (str_get : Z → list Z) (h' : heap) (schemas' : list bebop_schema_t) (r : toposort_result) (failed : bool) : Prop :=
  match r with
  | Sorted order =>
      order ≡ₚ all_defs ∧ in_order h order ∧
      (∀ i p u x, order !! i = Some p → all_defs !! x = Some p → depends h all_defs names u x →
         ∃ j q, (j < i)%nat ∧ order !! j = Some q ∧ all_defs !! u = Some q) ∧
      (∀ c, ¬ tc (depends h all_defs names) c c) ∧
      same_shape h h' ∧ (∀ p, p ∈ all_defs → size_right h' p) ∧
      (failed = true ∨ dependents_right h h' all_defs names) ∧
      ∀ s, (s < length schemas)%nat → ∃ sc, schemas' !! s = Some sc ∧ distributed h' order s sc
  | Cyclic i text =>
      h' = h ∧ schemas' = schemas ∧ (∃ c, tc (depends h all_defs names) c c) ∧
      report_ok h all_defs names str_get i text failed
  | Unsorted => h' = h ∧ schemas' = schemas ∧ (all_defs = [] ∨ failed = true)
  end.

Section Whole.
Context (h : heap) (all_defs : list def_ptr) (schemas : list bebop_schema_t) (str_get : Z → list Z).
Hypothesis Hok : program_ok h all_defs.
Hypothesis Hrooms : Forall (λ p, ∃ d, h !! p = Some d ∧ room_ok d) all_defs.
Hypothesis Hschemas : schemas_ok h (length schemas) all_defs.

(** Recording dependents after the sizes have been computed. *)
Lemma dependents_after_sizes h1 names v :
  but_bodies h h1 → length (va_adjacency v) = length all_defs →
  (∀ u x, edge (va_adjacency v) u x ↔ depends h all_defs names u x) →
  (∀ u x, depends h all_defs names u x → (x < length all_defs)%nat) →
  ∃ h2 v', record_dependents grants all_defs h1 all_defs (va_adjacency v) v = Some (h2, v') ∧ but_dependents h1 h2 ∧
    (va_alloc_failed v' = true ∨ dependents_right h h2 all_defs names).
Proof.
  intros Hb Hlen He Hlt.
  destruct (record_dependents_correct all_defs all_defs h1 (va_adjacency v) v (po_nodup _ _ Hok) Hlen) as (h2&v'&E&_&Hb2&_&H2).
  { eapply Forall_impl; [exact Hrooms|]. intros p (d&Ed&Hr). destruct (but_bodies_lookup _ _ _ _ Hb Ed) as (b&E). by exists (set_body b d). }
  { intros u x H%He. by eapply Hlt. }
  exists h2, v'. split_and!; [done|done|]. destruct H2 as [?|(_&H2)]; [by left|right]. intros i p d Ei Ed.
  destruct (but_bodies_lookup _ _ _ _ Hb Ed) as (b&Ed1). destruct (lookup_lt_is_Some_2 (va_adjacency v) i) as (es&Ees).
  { rewrite Hlen. by eapply lookup_lt_Some. }
  destruct (H2 i p _ es Ei Ed1 Ees) as (ds&cap&Eds&E2). eexists _, ds. split_and!; [exact E2|done|]. intros q. apply mapM_Some in Eds. split.
  - intros (k&Ek)%list_elem_of_lookup. destruct (Forall2_lookup_r _ _ _ _ _ Eds Ek) as (x&Ex&Eq). exists x. split; [done|].
    apply He. exists es. split; [done|]. by eapply list_elem_of_lookup_2.
  - intros (x&Eq&(es'&Ees'&Hx)%He). simplify_eq. apply list_elem_of_lookup in Hx as (k&Ek).
    destruct (Forall2_lookup_l _ _ _ _ _ Eds Ek) as (q'&Eq'&E'). simplify_eq. by eapply list_elem_of_lookup_2.
Qed.

(** The passes after the order. *)
Lemma after_order names order l v :
  (∀ i p, all_defs !! i = Some p → bebop_idxmap_find names (fqn_of h p) = Some i) →
  (∀ k i, bebop_idxmap_find names k = Some i → (i < length all_defs)%nat) →
  l ≡ₚ seq 0 (length all_defs) → mapM (λ i, all_defs !! i) l = Some order →
  (∀ i x u, l !! i = Some x → depends h all_defs (bebop_idxmap_find names) u x → ∃ j, (j < i)%nat ∧ l !! j = Some u) →
  (∀ c, ¬ tc (depends h all_defs (bebop_idxmap_find names)) c c) →
  length (va_adjacency v) = length all_defs →
  (∀ u x, edge (va_adjacency v) u x ↔ depends h all_defs (bebop_idxmap_find names) u x) →
  ∃ h' schemas' v',
    (h ← lift (bebop__validate_compute_fixed_sizes h order); adj ← gets va_adjacency; h ← record_dependents grants all_defs h all_defs adj;
     schemas ← distribute grants h order schemas; mret (h, schemas, Sorted order)) v = Some ((h', schemas', Sorted order), v') ∧
    program_ordered h schemas all_defs (bebop_idxmap_find names) str_get h' schemas' (Sorted order) (va_alloc_failed v').
Proof.
  intros Hnames Hidx Hperm Hmap Hord Hac Hlen He. destruct (order_in_order h all_defs Hok names l order Hnames Hperm Hmap Hord) as (Hp&Hin).
  assert (Hdefs : Forall (λ p, is_Some (h !! p)) order).
  { rewrite Hp. eapply Forall_impl; [exact (po_defs _ _ Hok)|]. intros p (d&Ed&_). by exists d. }
  destruct (compute_fixed_sizes_from order [] h (po_heap _ _ Hok) Hdefs) as (h1&E1&Hs1&Hr1).
  { cbn. rewrite Hp. apply (po_nodup _ _ Hok). } { done. } { intros p Hp'. by apply not_elem_of_nil in Hp'. }
  rewrite (C_lift_bind _ _ _ _ E1), (C_bind_Some (gets _) _ _ _ _ eq_refl). apply compute_fixed_sizes_keep in E1 as Hb1.
  destruct (dependents_after_sizes h1 (bebop_idxmap_find names) v Hb1 Hlen He) as (h2&v2&E2&Hb2&Hd2).
  { intros u x Hux. by destruct (depends_lt h all_defs _ Hidx (po_defs _ _ Hok) u x Hux). }
  rewrite (C_bind_Some _ _ _ _ _ E2).
  destruct (distribute_correct h2 order schemas v2) as (schemas'&v3&E3&Hf3&H3).
  { eapply schemas_ok_dependents; [exact Hb2|]. eapply schemas_ok_bodies; [exact Hb1|]. unfold schemas_ok. rewrite Hp. exact Hschemas. }
  { unfold zlen. rewrite Hp. pose proof (po_count _ _ Hok). lia. }
  rewrite (C_bind_Some _ _ _ _ _ E3). exists h2, schemas', v3. split; [done|]. apply mapM_Some in Hmap. split_and!; [done|done| |done| | | |done].
  - intros i p u x Ei Ex Hux. destruct (Forall2_lookup_r _ _ _ _ _ Hmap Ei) as (y&Ey&Ey').
    pose proof (NoDup_lookup _ _ _ _ (po_nodup _ _ Hok) Ey' Ex) as ->.
    destruct (Hord i x u Ey Hux) as (j&Hj&Ej). destruct (Forall2_lookup_l _ _ _ _ _ Hmap Ej) as (q&Eq&E'). by exists j, q.
  - etransitivity; [exact Hs1|]. by apply but_dependents_shape.
  - intros p Hp'. apply (but_dependents_size h1 h2 p Hb2), Hr1. cbn. by rewrite Hp.
  - rewrite Hf3. exact Hd2.
Qed.

(** C11: the end of validation. For definitions with resolved types and unique full names,
    and schemas that own them, the pass is defined whatever the arena refuses, and it ends
    in one of three ways. Either every definition comes after those it depends on, so there
    is no cycle of dependencies; each struct has the size of its encoding by docs/WIRE.md, when
    that is fixed, positive and fits 32 bits, and 0 otherwise; each definition has the
    definitions that depend on it as dependents unless the arena refused room; and each schema has
    its own definitions in that order (none when the arena refused the array). Or there is a cycle
    of dependencies, nothing has changed, and the report shows a cycle, or names a definition from
    which none can be reached. Or there were no definitions, or the arena refused. Dependencies
    are found by name: when no name of a union's own branch is that of another definition too,
    they are exactly the references of the program, except those of messages and unions to
    themselves and between unions and their messages; otherwise a branch may be taken for another
    one of its name, so that a cycle may be reported that the references do not have
    (Examples.same_branch_name). *)
Theorem order_definitions_correct v :
  va_alloc_failed v = false →
  ∃ names h' schemas' r v', register_names h 0 all_defs bebop_idxmap_new = Some names ∧
    order_definitions grants str_get h all_defs schemas v = Some ((h', schemas', r), v') ∧
    program_ordered h schemas all_defs (bebop_idxmap_find names) str_get h' schemas' r (va_alloc_failed v') ∧
    (branches_named_apart h all_defs → ∀ u x p q, all_defs !! x = Some p → all_defs !! u = Some q →
       depends h all_defs (bebop_idxmap_find names) u x ↔ needs h p q).
Proof.
  intros Hf. destruct (names_of_program h all_defs Hok) as (names&En&Hidx&Hnames). exists names.
  destruct (toposort_spec grants h all_defs (bebop_idxmap_find names) str_get Hidx (po_defs _ _ Hok) v Hf) as (r&v1&E1&H1&G1).
  pose proof (depends_needs h all_defs Hok names En) as Hneeds.
  unfold order_definitions. rewrite (C_lift_bind _ _ _ _ En), (C_bind_Some _ _ _ _ _ E1). destruct r as [order|i text|].
  - destruct H1 as ((l&Hp&Hm&Ho)&Hac), G1 as (_&Hlen&He).
    destruct (after_order names order l v1 Hnames Hidx Hp Hm Ho Hac Hlen He) as (h'&schemas'&v'&E&H). by exists h', schemas', (Sorted order), v'.
  - exists h, schemas, (Cyclic i text), v1. split_and!; [done|done| |done]. by destruct H1 as (?&_&?).
  - exists h, schemas, Unsorted, v1. split_and!; [done|done| |done]. cbn. split_and!; [done|done|]. destruct H1 as [H1|?]; [left|by right].
    by apply nil_length_inv.
Qed.
End Whole.
End Props.

(** ** The order alone *)

(** C12: the order of definitions. For any map from names to indices of definitions, and
    definitions whose types nest at most 64 levels and whose resolved pointers are valid,
    the sort ends whatever the arena refuses: with an order that has every definition once
    and behind those it depends on, and then there is no cycle; or with a report, and then
    there is a cycle; or with neither, when there are no definitions or the arena refused. *)
Theorem toposort_correct grants h all_defs name_to_idx str_get v :
  (∀ name i, name_to_idx name = Some i → (i < length all_defs)%nat) →
  Forall (λ p, ∃ d, h !! p = Some d ∧ def_ok h d) all_defs → va_alloc_failed v = false →
  ∃ r v', bebop__validate_toposort grants h all_defs name_to_idx str_get v = Some (r, v') ∧
    toposort_ok h all_defs name_to_idx str_get r (va_alloc_failed v').
Proof.
  intros Hidx Hdefs Hf. destruct (toposort_spec grants h all_defs name_to_idx str_get Hidx Hdefs v Hf) as (r&v'&E&Hr&_). by exists r, v'.
Qed.

(** ** Concrete programs *)

Module Examples.
Definition no_span : bebop_span_t := mkSpan 0 0 0 0 0 0.
Definition def_of (name fqn : Z) (parent : option def_ptr) (body : def_body) : bebop_def_t :=
  mkDef name fqn no_span no_span 0 [] (Some 0%nat) parent BEBOP_VIS_DEFAULT [] [] 0 body.
Abbreviation field := plain_field.
Definition ref (p : def_ptr) : bebop_type_t := TDefined 0 (Some p).
Definition start : bebop_validator_t := mkValidator false 0 [] [] [] [] 0 0.
Definition one_schema : list bebop_schema_t := [mkSchema false None 0 0].
Definition run (h : heap) : option (toposort_result * list (option Z) * list (list def_ptr)) :=
  r ← order_definitions (λ _, true) (λ k, [k]) h (seq 0 (length h)) one_schema start;
  let '(h', schemas', r, _) := r in
  Some (r, map (λ d, match df_body d with StructDef _ _ s => Some s | _ => None end) h', map df_dependents h').

(** [struct A { int32; B }], [struct B { int16\[4\] }], [message M { A; M }] *)
Definition small : heap :=
  [def_of 1 2 None (StructDef [field (TScalar BEBOP_TYPE_INT32); field (ref 1)] false 0);
   def_of 3 4 None (StructDef [field (TFixedArray (TScalar BEBOP_TYPE_INT16) 4)] false 0);
   def_of 5 6 None (MessageDef [field (ref 0); field (ref 2)])].
Example small_run : run small = Some (Sorted [1; 0; 2]%nat, [Some 12; Some 8; None], [[2]; [0]; []]%nat).
Proof. vm_compute. reflexivity. Qed.

(** Two unions with an inline message branch of the same name: [U1 { Msg { U2 } }] and
    [U2 { Msg {} }]. The branch of [U2] is looked up by its simple name, which leads to the
    one of [U1], and a cycle is reported that is not there. *)
Example same_branch_name :
  run [def_of 10 11 (Some 1%nat) (MessageDef [field (ref 3)]); def_of 12 12 None (UnionDef [plain_branch (Some 0%nat)]);
       def_of 10 13 (Some 3%nat) (MessageDef []); def_of 14 14 None (UnionDef [plain_branch (Some 2%nat)])]
  = Some (Cyclic 0 ([10] ++ [32; 45; 62; 32] ++ [14] ++ [32; 45; 62; 32] ++ [10]), [None; None; None; None], [[]; []; []; []]).
Proof. vm_compute. reflexivity. Qed.

(** [struct D { A }], [struct A { B }], [struct B { A }]: the report names [D], which is on no
    cycle and from which no edge leads to one. *)
Example report_downstream :
  run [def_of 1 1 None (StructDef [field (ref 1)] false 0); def_of 2 2 None (StructDef [field (ref 2)] false 0);
       def_of 3 3 None (StructDef [field (ref 1)] false 0)]
  = Some (Cyclic 0 [1], [Some 0; Some 0; Some 0], [[]; []; []]).
Proof. vm_compute. reflexivity. Qed.

(** [struct p.Foo {}], [struct Bar { Foo }], [struct Foo { Baz }], [struct Baz { int32 }]: the
    full name of [Foo], which has no package, is the simple name of [p.Foo]; [Bar] is ordered
    before the [Foo] it contains and does not get its size. *)
Example captured_name :
  run [def_of 5 6 None (StructDef [] false 0); def_of 7 7 None (StructDef [field (ref 2)] false 0);
       def_of 5 5 None (StructDef [field (ref 3)] false 0); def_of 8 8 None (StructDef [field (TScalar BEBOP_TYPE_INT32)] false 0)]
  = Some (Sorted [0; 3; 1; 2]%nat, [Some 0; Some 0; Some 4; Some 4], [[1]; []; []; [2]]%nat).
Proof. vm_compute. reflexivity. Qed.

(** [struct A { A }] *)
Definition loop : heap := [def_of 1 1 None (StructDef [field (ref 0)] false 0)].
Definition loop_names (name : Z) : option nat := if name =? 1 then Some 0%nat else None.
Lemma toposort_correct_witness :
  ∃ r v', bebop__validate_toposort (λ _, true) loop [0%nat] loop_names (λ k, [k]) start = Some (r, v') ∧
    toposort_ok loop [0%nat] loop_names (λ k, [k]) r (va_alloc_failed v').
Proof.
  apply toposort_correct; [| |done].
  - intros name i. unfold loop_names. destruct (name =? 1); [intros [= <-]; cbn; lia|done].
  - constructor; [|constructor]. eexists. split; [reflexivity|]. unfold def_ok, decorators_ok, refs_ok; cbn.
    repeat first [done | lia | by eexists | constructor].
Defined.

Lemma small_ok : program_ok small (seq 0 3).
Proof.
  assert (Hin : ∀ p, p ∈ seq 0 3 → (p = 0 ∨ p = 1 ∨ p = 2)%nat) by (intros p Hp; apply elem_of_seq in Hp; lia).
  assert (Hz : ∀ p, p ∈ seq 0 3 → ∃ d, small !! p = Some d ∧ def_ok small d).
  { intros p Hp. destruct (Hin p Hp) as [->|[->| ->]]; (eexists; split; [reflexivity|]); unfold def_ok, decorators_ok, refs_ok; cbn;
      repeat first [done | lia | by eexists | constructor]. }
  split.
  - by apply Forall_forall.
  - apply NoDup_seq.
  - intros [|[|[|p]]] d fields mu s E Eb; cbn in E; simplify_eq; cbn in Eb; simplify_eq; unfold fields_wf, UINT32_MAX;
      repeat (apply Forall_cons; split; [cbn; first [done | lia | by eexists]|]); by apply Forall_nil.
  - cbn. lia.
  - intros p q Hp (d&fields&mu&s&f&E&Eb&Hf&Eq). destruct (Hin p Hp) as [->|[->| ->]]; cbn in E; simplify_eq; cbn in Eb; simplify_eq;
      repeat (apply elem_of_cons in Hf as [->|Hf]; [cbn in Eq; simplify_eq; apply elem_of_seq; lia|]); by apply not_elem_of_nil in Hf.
  - intros p Hp. by destruct (Hin p Hp) as [->|[->| ->]].
  - intros p q Hp Hq. destruct (Hin p Hp) as [->|[->| ->]], (Hin q Hq) as [->|[->| ->]]; done.
Qed.

Lemma small_apart : branches_named_apart small (seq 0 3).
Proof.
  intros p d Hp Ed. destruct p as [|[|[|p]]]; cbn in Ed; simplify_eq; (split; [|done]);
    intros q [(dec&Hdec&_)|(t&Ht&Hq)]; cbn in *; try (by apply not_elem_of_nil in Hdec);
    repeat (apply elem_of_cons in Ht as [->|Ht]; [cbn in Hq; repeat (apply elem_of_cons in Hq as [->|Hq]; [vm_compute; set_solver|]); by apply not_elem_of_nil in Hq|]);
    by apply not_elem_of_nil in Ht.
Qed.

Lemma order_definitions_correct_witness :
  run small = Some (Sorted [1; 0; 2]%nat, [Some 12; Some 8; None], [[2]; [0]; []]%nat) ∧
  ∃ names h' schemas' r v', register_names small 0 (seq 0 3) bebop_idxmap_new = Some names ∧
    order_definitions (λ _, true) (λ k, [k]) small (seq 0 3) one_schema start = Some ((h', schemas', r), v') ∧
    program_ordered (λ _, true) small one_schema (seq 0 3) (bebop_idxmap_find names) (λ k, [k]) h' schemas' r (va_alloc_failed v') ∧
    (depends small (seq 0 3) (bebop_idxmap_find names) 1 0 ↔ needs small 0%nat 1%nat).
Proof.
  split; [exact small_run|].
  destruct (order_definitions_correct (λ _, true) small (seq 0 3) one_schema (λ k, [k]) small_ok) with (v := start)
    as (names&h'&schemas'&r&v'&En&E&Hp&Hneeds); [| |done|].
  - repeat constructor; (eexists; split; [reflexivity|]; unfold room_ok; cbn; unfold zlen, UINT32_MAX; cbn; lia).
  - repeat constructor; (eexists; split; [reflexivity|]; cbn; lia).
  - exists names, h', schemas', r, v'. split_and!; [exact En|exact E|exact Hp|]. by apply (Hneeds small_apart).
Defined.
End Examples.
