(* ===== verification/Diagnostics.v ===== *)
(** The diagnostics of a schema ([bebop/src/bebop_schema.c]): they are added until there are
    a hundred, labels go to the last one, and the counts of errors and warnings decide what
    validation returns.

    The text of messages, hints and labels is left out; the arena's answers are a stream, as
    in [Toposort]. *)
From stdpp Require Import list.
From S2P Require Import Prelude.
From S2P Require Import Scanner.
From S2P Require Import Schema.

(** ** State *)

Inductive bebop_diag_severity_t : Set := BEBOP_DIAG_INFO | BEBOP_DIAG_WARNING | BEBOP_DIAG_ERROR.
#[export] Instance severity_eq : EqDecision bebop_diag_severity_t.
Proof. solve_decision. Defined.

Record bebop_diagnostic_t : Type := mkDiagnostic {
  di_severity : bebop_diag_severity_t;
  di_code : Z;
  di_span : bebop_span_t;
  di_labels : list bebop_span_t
}.

(** The part of a schema that belongs to its diagnostics; the array has [ds_capacity] places. *)
Record diagnostics_t : Type := mkDiagnostics {
  ds_diagnostics : list bebop_diagnostic_t;
  ds_capacity : Z;
  ds_error_count : Z;
  ds_warning_count : Z;
  ds_requests : nat
}.
Definition no_diagnostics : diagnostics_t := mkDiagnostics [] 0 0 0 0.

Definition BEBOP_MAX_DIAGNOSTICS : Z := 100.
Definition bebop__DIAGNOSTIC_INITIAL_CAPACITY : Z := 16.

Section Diagnostics.
Context (grants : nat → bool).

Definition ask : C diagnostics_t bool := λ s,
  Some (grants (ds_requests s),
        mkDiagnostics (ds_diagnostics s) (ds_capacity s) (ds_error_count s) (ds_warning_count s) (S (ds_requests s))).

(** ** Adding *)

(** Room for one more diagnostic; false when the arena refuses. *)
Definition grow_diagnostics : C diagnostics_t bool :=
  count ← gets (λ s, zlen (ds_diagnostics s)); capacity ← gets ds_capacity;
  if capacity <=? count then
    let new_capacity := if capacity =? 0 then bebop__DIAGNOSTIC_INITIAL_CAPACITY else u32 (capacity * 2) in
    granted ← ask;
    if (granted : bool) then
      modify (λ s, mkDiagnostics (ds_diagnostics s) new_capacity (ds_error_count s) (ds_warning_count s) (ds_requests s));;
      mret true
    else mret false
  else mret true.

(** The entry and the counts. *)
Definition push_diagnostic (severity : bebop_diag_severity_t) (code : Z) (span : bebop_span_t) (s : diagnostics_t) : diagnostics_t :=
  mkDiagnostics (ds_diagnostics s ++ [mkDiagnostic severity code span []]) (ds_capacity s)
    (match severity with BEBOP_DIAG_ERROR => u32 (ds_error_count s + 1) | _ => ds_error_count s end)
    (match severity with BEBOP_DIAG_WARNING => u32 (ds_warning_count s + 1) | _ => ds_warning_count s end)
    (ds_requests s).

(** The copies of the message and the hint may be refused, which leaves them null. *)
Definition bebop__schema_add_diagnostic (severity : bebop_diag_severity_t) (code : Z) (span : bebop_span_t) (hint : bool) : C diagnostics_t unit :=
  count ← gets (λ s, zlen (ds_diagnostics s));
  if BEBOP_MAX_DIAGNOSTICS <=? count then mret tt
  else
    ok ← grow_diagnostics;
    if negb (ok : bool) then mret tt
    else
      ask;;
      (if hint then ask;; mret tt else mret tt);;
      modify (push_diagnostic severity code span).

(** ** Labels *)

Definition add_label (span : bebop_span_t) (d : bebop_diagnostic_t) : bebop_diagnostic_t :=
  mkDiagnostic (di_severity d) (di_code d) (di_span d) (di_labels d ++ [span]).

Definition bebop__schema_diag_add_label (span : bebop_span_t) : C diagnostics_t unit :=
  diags ← gets ds_diagnostics;
  match last diags with
  | None => mret tt
  | Some d =>
      granted ← ask;
      if negb (granted : bool) then mret tt
      else
        ask;;
        modify (λ s, mkDiagnostics (removelast diags ++ [add_label span d]) (ds_capacity s) (ds_error_count s) (ds_warning_count s) (ds_requests s))
  end.

End Diagnostics.

(** ** The outcome *)

Inductive bebop_status_t : Set := BEBOP_OK | BEBOP_OK_WITH_WARNINGS | BEBOP_ERROR | BEBOP_FATAL.

Fixpoint total_count (count : diagnostics_t → Z) (total : Z) (schemas : list diagnostics_t) : Z :=
  match schemas with
  | [] => total
  | s :: schemas => total_count count (u32 (total + count s)) schemas
  end.

(** The end of [bebop_validate]. *)
Definition validation_status (alloc_failed : bool) (schemas : list diagnostics_t) : bebop_status_t :=
  if alloc_failed then BEBOP_FATAL
  else if 0 <? total_count ds_error_count 0 schemas then BEBOP_ERROR
  else if 0 <? total_count ds_warning_count 0 schemas then BEBOP_OK_WITH_WARNINGS
  else BEBOP_OK.

(** ** Invariant *)

Definition of_severity (severity : bebop_diag_severity_t) (l : list bebop_diagnostic_t) : Z :=
  zlen (filter (λ d, di_severity d = severity) l).

Record diagnostics_ok (s : diagnostics_t) : Prop := {
  dso_count : zlen (ds_diagnostics s) ≤ BEBOP_MAX_DIAGNOSTICS;
  dso_room : zlen (ds_diagnostics s) ≤ ds_capacity s ≤ 256;
  dso_errors : ds_error_count s = of_severity BEBOP_DIAG_ERROR (ds_diagnostics s);
  dso_warnings : ds_warning_count s = of_severity BEBOP_DIAG_WARNING (ds_diagnostics s)
}.

Lemma of_severity_app sev l l' : of_severity sev (l ++ l') = of_severity sev l + of_severity sev l'.
Proof. unfold of_severity, zlen. rewrite filter_app, length_app. lia. Qed.
Lemma of_severity_bound sev l : 0 ≤ of_severity sev l ≤ zlen l.
Proof. unfold of_severity, zlen. pose proof (length_filter (λ d, di_severity d = sev) l). lia. Qed.
Lemma of_severity_one sev d : of_severity sev [d] = if bool_decide (di_severity d = sev) then 1 else 0.
Proof. unfold of_severity. rewrite filter_cons. by destruct (decide (di_severity d = sev)); [rewrite bool_decide_true|rewrite bool_decide_false]. Qed.

Lemma no_diagnostics_ok : diagnostics_ok no_diagnostics.
Proof. by split; cbn. Qed.

Section Correct.
Context (grants : nat → bool).

(** A full array, or a refusal, is the only reason for which a diagnostic is not added. *)
Definition dropped (s : diagnostics_t) : Prop :=
  zlen (ds_diagnostics s) = BEBOP_MAX_DIAGNOSTICS ∨ ∃ k, grants k = false.

Lemma grow_diagnostics_ok s :
  diagnostics_ok s → zlen (ds_diagnostics s) < BEBOP_MAX_DIAGNOSTICS →
  ∃ ok s', grow_diagnostics grants s = Some (ok, s') ∧ diagnostics_ok s' ∧ ds_diagnostics s' = ds_diagnostics s ∧
    if (ok : bool) then zlen (ds_diagnostics s) < ds_capacity s' else ∃ k, grants k = false.
Proof.
  intros [Hc (Hr1&Hr2) He Hw] Hlt. unfold BEBOP_MAX_DIAGNOSTICS in *. unfold grow_diagnostics. rewrite !(C_bind_Some (gets _) _ _ _ _ eq_refl).
  pose proof (zlen_nonneg (ds_diagnostics s)). destruct (Z.leb_spec (ds_capacity s) (zlen (ds_diagnostics s))) as [Hle|Hgt].
  2: { exists true, s. by split_and!. }
  rewrite (C_bind_Some (ask grants) _ _ _ _ eq_refl). destruct (grants (ds_requests s)) eqn:Eg.
  - eexists true, _. split; [reflexivity|].
    assert (Hnew : zlen (ds_diagnostics s) < (if ds_capacity s =? 0 then bebop__DIAGNOSTIC_INITIAL_CAPACITY else u32 (ds_capacity s * 2)) ≤ 256).
    { unfold bebop__DIAGNOSTIC_INITIAL_CAPACITY. destruct (Z.eqb_spec (ds_capacity s) 0) as [E0|E0]; [lia|]. rewrite u32_small; lia. }
    split_and!; [split; cbn|done|cbn]; unfold BEBOP_MAX_DIAGNOSTICS; try done; lia.
  - eexists false, _. split_and!; [reflexivity|by split|done|by eexists].
Qed.

Lemma push_diagnostic_ok sev code span s :
  diagnostics_ok s → zlen (ds_diagnostics s) < BEBOP_MAX_DIAGNOSTICS → zlen (ds_diagnostics s) < ds_capacity s →
  diagnostics_ok (push_diagnostic sev code span s).
Proof.
  intros [Hc Hr He Hw] Hlt Hcap. unfold BEBOP_MAX_DIAGNOSTICS in *.
  pose proof (of_severity_bound BEBOP_DIAG_ERROR (ds_diagnostics s)). pose proof (of_severity_bound BEBOP_DIAG_WARNING (ds_diagnostics s)).
  assert (Hz : zlen (ds_diagnostics s ++ [mkDiagnostic sev code span []]) = zlen (ds_diagnostics s) + 1) by (unfold zlen; rewrite length_app; cbn; lia).
  split; cbn; unfold BEBOP_MAX_DIAGNOSTICS; [lia|lia| |]; rewrite of_severity_app, of_severity_one; cbn; destruct sev; case_bool_decide; try done; rewrite ?u32_small; lia.
Qed.

Lemma add_diagnostic_ok sev code span hint s :
  diagnostics_ok s →
  ∃ s', bebop__schema_add_diagnostic grants sev code span hint s = Some (tt, s') ∧ diagnostics_ok s' ∧
    (ds_diagnostics s' = ds_diagnostics s ++ [mkDiagnostic sev code span []] ∨ ds_diagnostics s' = ds_diagnostics s ∧ dropped s).
Proof.
  intros Hok. unfold bebop__schema_add_diagnostic. rewrite (C_bind_Some (gets _) _ _ _ _ eq_refl).
  destruct (Z.leb_spec BEBOP_MAX_DIAGNOSTICS (zlen (ds_diagnostics s))) as [Hfull|Hlt].
  { exists s. split_and!; [done|done|]. right. split; [done|]. left. pose proof (dso_count _ Hok). lia. }
  destruct (grow_diagnostics_ok s Hok Hlt) as (ok&s1&E1&Hok1&El&H1). rewrite (C_bind_Some _ _ _ _ _ E1). destruct ok; cbn [negb].
  2: { exists s1. split_and!; [done|done|]. right. split; [done|by right]. }
  rewrite (C_bind_Some (ask grants) _ _ _ _ eq_refl).
  assert (Hpush : ∀ n, diagnostics_ok (push_diagnostic sev code span
    (mkDiagnostics (ds_diagnostics s1) (ds_capacity s1) (ds_error_count s1) (ds_warning_count s1) n))).
  { intros n. apply push_diagnostic_ok; cbn; [by destruct Hok1; split|by rewrite El|by rewrite El]. }
  destruct hint; (eexists; split; [reflexivity|]; split; [apply Hpush|]; left; cbn; by rewrite El).
Qed.

(** A label goes to the last diagnostic, whichever that is. *)
Lemma add_label_ok span s :
  diagnostics_ok s →
  ∃ s', bebop__schema_diag_add_label grants span s = Some (tt, s') ∧ diagnostics_ok s' ∧ ds_error_count s' = ds_error_count s ∧
    (ds_diagnostics s' = ds_diagnostics s ∧ (ds_diagnostics s = [] ∨ ∃ k, grants k = false) ∨
     ∃ l d, ds_diagnostics s = l ++ [d] ∧ ds_diagnostics s' = l ++ [add_label span d]).
Proof.
  intros Hok. unfold bebop__schema_diag_add_label. rewrite (C_bind_Some (gets _) _ _ _ _ eq_refl).
  destruct (ds_diagnostics s) as [|d l _] eqn:El using rev_ind.
  { exists s. split_and!; [done..|]. left. split; [done|by left]. }
  rewrite last_snoc, (C_bind_Some (ask grants) _ _ _ _ eq_refl). destruct (grants (ds_requests s)) eqn:Eg; cbn [negb].
  2: { eexists. split; [reflexivity|]. cbn. destruct Hok. split_and!; [by split|done|]. left. rewrite El. split; [done|right; by eexists]. }
  rewrite (C_bind_Some (ask grants) _ _ _ _ eq_refl), removelast_last. eexists. split; [reflexivity|]. split_and!; [|done|right; by exists l, d].
  destruct Hok as [Hc Hr He Hw]. rewrite El in *.
  assert (Hz : zlen (l ++ [add_label span d]) = zlen (l ++ [d])) by (unfold zlen; rewrite !length_app; done).
  split; cbn; [by rewrite Hz|by rewrite Hz| |]; rewrite ?He, ?Hw, !of_severity_app, !of_severity_one; done.
Qed.

End Correct.

(** ** The status *)

Lemma total_count_sum count schemas : ∀ total,
  0 ≤ total → Forall (λ s, 0 ≤ count s ≤ BEBOP_MAX_DIAGNOSTICS) schemas → total + BEBOP_MAX_DIAGNOSTICS * zlen schemas < 2 ^ 32 →
  total ≤ total_count count total schemas ∧ (total_count count total schemas = total ↔ Forall (λ s, count s = 0) schemas).
Proof.
  unfold BEBOP_MAX_DIAGNOSTICS. induction schemas as [|s schemas IH]; intros total H0 Hall Hlen; cbn [total_count]; [by split|].
  apply Forall_cons in Hall as (Hs&Hall). assert (Hz : zlen (s :: schemas) = zlen schemas + 1) by (unfold zlen; cbn; lia).
  pose proof (zlen_nonneg schemas). rewrite u32_small by lia. destruct (IH (total + count s)) as (Hle&Heq); [lia|done|lia|].
  split; [lia|]. rewrite Forall_cons. destruct (decide (count s = 0)) as [E|E].
  - rewrite E, Z.add_0_r in *. rewrite Heq. by split; [split|intros (_&?)].
  - split; [lia|by intros (?&_)].
Qed.

Lemma of_severity_zero sev l : of_severity sev l = 0 ↔ ¬ ∃ d, d ∈ l ∧ di_severity d = sev.
Proof.
  unfold of_severity, zlen. split.
  - intros H (d&Hd&Hs). assert (Hin : d ∈ filter (λ d, di_severity d = sev) l) by (by apply list_elem_of_filter).
    destruct (filter _ l); [by apply not_elem_of_nil in Hin|cbn in H; lia].
  - intros H. destruct (filter (λ d, di_severity d = sev) l) as [|d l'] eqn:E; [done|]. exfalso. apply H. exists d.
    assert (Hin : d ∈ filter (λ d, di_severity d = sev) l) by (rewrite E; set_solver). apply list_elem_of_filter in Hin as (?&?). by split.
Qed.

Definition recorded (sev : bebop_diag_severity_t) (schemas : list diagnostics_t) : Prop :=
  ∃ s d, s ∈ schemas ∧ d ∈ ds_diagnostics s ∧ di_severity d = sev.

Lemma recorded_total sev count schemas :
  (∀ s, s ∈ schemas → count s = of_severity sev (ds_diagnostics s)) → Forall diagnostics_ok schemas → zlen schemas < 2 ^ 25 →
  (0 <? total_count count 0 schemas) = true ↔ recorded sev schemas.
Proof.
  intros Hcount Hok Hlen. unfold BEBOP_MAX_DIAGNOSTICS in *. destruct (total_count_sum count schemas 0) as (Hle&Heq); [done| | |].
  - rewrite Forall_forall in Hok |- *. intros s Hs. rewrite Hcount by done. pose proof (of_severity_bound sev (ds_diagnostics s)). pose proof (dso_count _ (Hok _ Hs)). lia.
  - unfold BEBOP_MAX_DIAGNOSTICS. lia.
  - rewrite Z.ltb_lt. split.
    + intros Hpos. destruct (decide (Exists (λ s, count s ≠ 0) schemas)) as [Hex|Hno].
      * apply Exists_exists in Hex as (s&Hs&Hn). rewrite Hcount in Hn by done.
        destruct (filter (λ d, di_severity d = sev) (ds_diagnostics s)) as [|d l] eqn:E; [by unfold of_severity in Hn; rewrite E in Hn|].
        assert (Hin : d ∈ filter (λ d, di_severity d = sev) (ds_diagnostics s)) by (rewrite E; set_solver).
        apply list_elem_of_filter in Hin as (?&?). by exists s, d.
      * assert (total_count count 0 schemas = 0); [|lia]. apply Heq, Forall_forall. intros s Hs. destruct (decide (count s = 0)); [done|].
        destruct Hno. apply Exists_exists. by exists s.
    + intros (s&d&Hs&Hd&Hsev). destruct (decide (total_count count 0 schemas = 0)) as [E|]; [|lia]. apply Heq in E. rewrite Forall_forall in E.
      specialize (E s Hs). rewrite Hcount, of_severity_zero in E by done. destruct E. by exists d.
Qed.

(** The outcome of validation. When the counts of every schema have been kept, the
    status is an error exactly when some schema has recorded an error; a warning when none
    has and some schema has recorded a warning; and success else. *)
Theorem validation_status_correct schemas :
  Forall diagnostics_ok schemas → zlen schemas < 2 ^ 25 →
  (validation_status false schemas = BEBOP_ERROR ↔ recorded BEBOP_DIAG_ERROR schemas) ∧
  (validation_status false schemas = BEBOP_OK_WITH_WARNINGS ↔ ¬ recorded BEBOP_DIAG_ERROR schemas ∧ recorded BEBOP_DIAG_WARNING schemas) ∧
  (validation_status false schemas = BEBOP_OK ↔ ¬ recorded BEBOP_DIAG_ERROR schemas ∧ ¬ recorded BEBOP_DIAG_WARNING schemas).
Proof.
  intros Hok Hlen. rewrite Forall_forall in Hok. pose proof (recorded_total BEBOP_DIAG_ERROR ds_error_count schemas) as He.
  pose proof (recorded_total BEBOP_DIAG_WARNING ds_warning_count schemas) as Hw. rewrite <- Forall_forall in Hok.
  specialize (He ltac:(intros s Hs; rewrite Forall_forall in Hok; apply (dso_errors _ (Hok _ Hs))) Hok Hlen).
  specialize (Hw ltac:(intros s Hs; rewrite Forall_forall in Hok; apply (dso_warnings _ (Hok _ Hs))) Hok Hlen).
  unfold validation_status. rewrite <- He, <- Hw. destruct (0 <? total_count ds_error_count 0 schemas), (0 <? total_count ds_warning_count 0 schemas); naive_solver.
Qed.

(** A hundred warnings leave no room for an error, and the status is that of a success. *)
Definition many_warnings (n : nat) : diagnostics_t :=
  let w := mkDiagnostic BEBOP_DIAG_WARNING 203 (mkSpan 0 0 0 0 0 0) [] in
  mkDiagnostics (replicate n w) 128 0 (Z.of_nat n) 0.
Example errors_hidden :
  option_map (λ r, validation_status false [r.2])
    (bebop__schema_add_diagnostic (λ _, true) BEBOP_DIAG_ERROR 112 (mkSpan 0 0 0 0 0 0) false (many_warnings 100))
  = Some BEBOP_OK_WITH_WARNINGS.
Proof. vm_compute. reflexivity. Qed.

(** The label of a diagnostic that was not added goes to another one. *)
Example label_misplaced :
  option_map (λ r, option_map di_labels (last (ds_diagnostics r.2)))
    ((bebop__schema_add_diagnostic (λ _, true) BEBOP_DIAG_ERROR 112 (mkSpan 7 0 0 0 0 0) false;;
      bebop__schema_diag_add_label (λ _, true) (mkSpan 5 0 0 0 0 0)) (many_warnings 100))
  = Some (Some [mkSpan 5 0 0 0 0 0]).
Proof. vm_compute. reflexivity. Qed.

Lemma validation_status_witness :
  validation_status false [many_warnings 3; no_diagnostics] = BEBOP_OK_WITH_WARNINGS ∧
  (validation_status false [many_warnings 3; no_diagnostics] = BEBOP_ERROR ↔ recorded BEBOP_DIAG_ERROR [many_warnings 3; no_diagnostics]).
Proof.
  split; [reflexivity|]. apply (validation_status_correct [many_warnings 3; no_diagnostics]); [|done].
  repeat constructor; cbn; unfold BEBOP_MAX_DIAGNOSTICS; (done || (split; done)).
Defined.
