(* ===== verification/Sema.v ===== *)
(** The checks made while a definition is parsed ([bebop/src/bebop_sema.c]): names and
    indices of its parts, values of enums, keys of maps, references of a struct to itself,
    types of methods. Each check answers whether it passed, and reports what did not. *)
From stdpp Require Import list gmap.
From S2P Require Import Prelude.
From S2P Require Import Scanner.
From S2P Require Import Schema.
From S2P Require Import Diagnostics.

(** ** State *)

Definition BEBOP_DIAG_INVALID_MAP_KEY_TYPE : Z := 111.
Definition BEBOP_DIAG_DUPLICATE_FIELD : Z := 112.
Definition BEBOP_DIAG_CYCLIC_DEFINITIONS : Z := 116.
Definition BEBOP_DIAG_DUPLICATE_FIELD_INDEX : Z := 117.
Definition BEBOP_DIAG_INVALID_FIELD_INDEX : Z := 118.
Definition BEBOP_DIAG_DUPLICATE_ENUM_VALUE : Z := 120.
Definition BEBOP_DIAG_ENUM_VALUE_OVERFLOW : Z := 121.
Definition BEBOP_DIAG_INVALID_SERVICE_TYPE : Z := 132.
Definition BEBOP_DIAG_ENUM_MISSING_ZERO_VALUE : Z := 135.

Definition BEBOP_MAX_FIELD_INDEX : Z := 255.
Definition BEBOP_MAX_DECORATOR_CHAIN_LENGTH : nat := 1000.
Definition no_span : bebop_span_t := mkSpan 0 0 0 0 0 0.

Section Sema.
(** The names of a definition: a null pointer when the arena refused the copy of a span. *)
Context `{DefMap (option bebop_span_t)} (grants : nat → bool).
(** [BEBOP_STR] *)
Context (str_get : Z → option (list Z)).

(** The analyser with the parts of the schema and the context it changes: the diagnostics,
    and whether an error of the context has been set. The current definition is its name
    and its kind. *)
Record bebop_sema_t : Type := mkSema {
  se_schema : diagnostics_t;
  se_ctx_error : bool;
  se_current_def : option (Z * bebop_def_kind_t);
  se_name_scope : bebop_defmap;
  se_seen_indices : list Z;
  se_seen_index_spans : list bebop_span_t
}.

Abbreviation M := (C bebop_sema_t).

Definition on_schema {A} (c : C diagnostics_t A) : M A := λ s,
  match c (se_schema s) with
  | Some (a, d) => Some (a, mkSema d (se_ctx_error s) (se_current_def s) (se_name_scope s) (se_seen_indices s) (se_seen_index_spans s))
  | None => None
  end.
Definition bebop__context_set_error : M unit :=
  modify (λ s, mkSema (se_schema s) true (se_current_def s) (se_name_scope s) (se_seen_indices s) (se_seen_index_spans s)).
Definition set_scope (m : bebop_defmap) : M unit :=
  modify (λ s, mkSema (se_schema s) (se_ctx_error s) (se_current_def s) m (se_seen_indices s) (se_seen_index_spans s)).

Definition BEBOP_ERROR_FMT (code : Z) (span : bebop_span_t) : M unit :=
  on_schema (bebop__schema_add_diagnostic grants BEBOP_DIAG_ERROR code span false).
Definition BEBOP_DIAG_ADD_LABEL (span : bebop_span_t) : M unit := on_schema (bebop__schema_diag_add_label grants span).

Definition bebop_sema_init (schema : diagnostics_t) (error : bool) : bool * option bebop_sema_t :=
  match bebop_defmap_new with
  | Some m => (true, Some (mkSema schema error None m (replicate 256 0) (replicate 256 no_span)))
  | None => (false, None)
  end.

Definition switch_def (def : option (Z * bebop_def_kind_t)) (s : bebop_sema_t) : bebop_sema_t :=
  mkSema (se_schema s) (se_ctx_error s) def (bebop_defmap_clear (se_name_scope s)) (replicate 256 0) (replicate 256 no_span).
Definition bebop_sema_enter_def (name : Z) (kind : bebop_def_kind_t) : M unit := modify (switch_def (Some (name, kind))).
Definition bebop_sema_exit_def : M unit := modify (switch_def None).

(** ** Enums *)

(** The least and the greatest value, and whether the base type is unsigned. *)
Definition bebop__sema_int_range (kind : bebop_type_kind_t) : Z * Z * bool :=
  match kind with
  | BEBOP_TYPE_BYTE => (0, 255, true)
  | BEBOP_TYPE_INT8 => (-128, 127, false)
  | BEBOP_TYPE_INT16 => (-32768, 32767, false)
  | BEBOP_TYPE_UINT16 => (0, 65535, true)
  | BEBOP_TYPE_INT32 => (-2147483648, 2147483647, false)
  | BEBOP_TYPE_UINT32 => (0, 4294967295, true)
  | BEBOP_TYPE_INT64 => (- 2 ^ 63, 2 ^ 63 - 1, false)
  | BEBOP_TYPE_UINT64 => (0, 2 ^ 64 - 1, true)
  | _ => (0, 0, false)
  end.

Definition s64 (z : Z) : Z := if z <? 2 ^ 63 then z else z - 2 ^ 64.

(** The tests of the range on the 64 bits of a value. *)
Definition enum_value_in_range (kind : bebop_type_kind_t) (value : Z) : bool :=
  let '(min_val, max_val, is_unsigned) := bebop__sema_int_range kind in
  if is_unsigned then negb (max_val <? value)
  else if 2 ^ 63 - 1 <? value then negb (s64 value <? min_val)
  else negb ((s64 value <? min_val) || (s64 max_val <? s64 value)).

(** "flags" *)
Definition flags_name : list Z := [102; 108; 97; 103; 115].
Inductive flags_result : Set := HasFlags | NoFlags | ChainTooLong.
Fixpoint find_flags (count : nat) (decorators : list bebop_decorator_t) : flags_result :=
  match decorators with
  | [] => NoFlags
  | dec :: decorators =>
      if (BEBOP_MAX_DECORATOR_CHAIN_LENGTH <? S count)%nat then ChainTooLong
      else if bool_decide (str_get (dc_name dec) = Some flags_name) then HasFlags
      else find_flags (S count) decorators
  end.

(** The first other member of the same value. *)
Fixpoint find_same_value (i idx : nat) (value : Z) (members : list bebop_enum_member_t) : option bebop_enum_member_t :=
  match members with
  | [] => None
  | existing :: members =>
      if negb (i =? idx)%nat && (em_value existing =? value) then Some existing else find_same_value (S i) idx value members
  end.

(** The check of the member at [idx] of the array of members so far. *)
Definition bebop_sema_check_enum_member
    (base_type : bebop_type_kind_t) (decorators : list bebop_decorator_t) (members : list bebop_enum_member_t) (idx : nat) : M bool :=
  member ← lift (members !! idx);
  if negb (enum_value_in_range base_type (em_value member)) then
    BEBOP_ERROR_FMT BEBOP_DIAG_ENUM_VALUE_OVERFLOW (em_span member);; mret false
  else
    match find_flags 0 decorators with
    | HasFlags => mret true
    | ChainTooLong => bebop__context_set_error;; mret false
    | NoFlags =>
        match find_same_value 0 idx (em_value member) members with
        | Some existing =>
            BEBOP_ERROR_FMT BEBOP_DIAG_DUPLICATE_ENUM_VALUE (em_span member);;
            BEBOP_DIAG_ADD_LABEL (em_span existing);;
            mret false
        | None => mret true
        end
    end.

Definition bebop_sema_check_enum_complete (span : bebop_span_t) (members : list bebop_enum_member_t) : M bool :=
  if existsb (λ m, em_value m =? 0) members then mret true
  else if (0 <? length members)%nat then BEBOP_ERROR_FMT BEBOP_DIAG_ENUM_MISSING_ZERO_VALUE span;; mret false
  else mret true.

(** ** Names and indices *)

Definition bebop_sema_check_duplicate_name (name : Z) (span : bebop_span_t) : M bool :=
  if bebop_str_is_null name then mret true
  else
    scope ← gets se_name_scope;
    match bebop_defmap_cfind scope name with
    | Some orig_span =>
        BEBOP_ERROR_FMT BEBOP_DIAG_DUPLICATE_FIELD span;;
        (match orig_span with Some orig => BEBOP_DIAG_ADD_LABEL orig | None => mret tt end);;
        mret false
    | None =>
        granted ← on_schema (ask grants);
        match bebop_defmap_insert scope name (if (granted : bool) then Some span else None) with
        | Some scope => set_scope scope;; mret true
        | None => bebop__context_set_error;; mret false
        end
    end.

Definition bebop_sema_check_field_index (index : Z) (span : bebop_span_t) : M bool :=
  if index =? 0 then BEBOP_ERROR_FMT BEBOP_DIAG_INVALID_FIELD_INDEX span;; mret false
  else if BEBOP_MAX_FIELD_INDEX <? index then BEBOP_ERROR_FMT BEBOP_DIAG_INVALID_FIELD_INDEX span;; mret false
  else
    seen ← gets se_seen_indices; spans ← gets se_seen_index_spans;
    mark ← lift (seen !! Z.to_nat index);
    if negb (mark =? 0) then
      BEBOP_ERROR_FMT BEBOP_DIAG_DUPLICATE_FIELD_INDEX span;;
      first ← lift (spans !! Z.to_nat index);
      BEBOP_DIAG_ADD_LABEL first;;
      mret false
    else
      modify (λ s, mkSema (se_schema s) (se_ctx_error s) (se_current_def s) (se_name_scope s)
                     (<[Z.to_nat index := 1]> seen) (<[Z.to_nat index := span]> spans));;
      mret true.

(** ** Types *)

Definition bebop__sema_valid_map_keys : list bebop_type_kind_t :=
  [BEBOP_TYPE_BOOL; BEBOP_TYPE_BYTE; BEBOP_TYPE_INT8; BEBOP_TYPE_INT16; BEBOP_TYPE_UINT16; BEBOP_TYPE_INT32; BEBOP_TYPE_UINT32;
   BEBOP_TYPE_INT64; BEBOP_TYPE_UINT64; BEBOP_TYPE_INT128; BEBOP_TYPE_UINT128; BEBOP_TYPE_STRING; BEBOP_TYPE_UUID].

Definition bebop_sema_check_map_key_type (key_type : bebop_type_t) (span : bebop_span_t) : M bool :=
  match key_type with
  | TNull => BEBOP_ERROR_FMT BEBOP_DIAG_INVALID_MAP_KEY_TYPE span;; mret false
  | _ =>
      if existsb (λ k, bool_decide (type_kind key_type = k)) bebop__sema_valid_map_keys then mret true
      else
        on_schema (bebop__schema_add_diagnostic grants BEBOP_DIAG_ERROR BEBOP_DIAG_INVALID_MAP_KEY_TYPE span true);; mret false
  end.

Definition bebop_sema_check_self_reference (type : bebop_type_t) (span : bebop_span_t) : M bool :=
  current ← gets se_current_def;
  match type, current with
  | TDefined name _, Some (def_name, kind) =>
      if bebop_str_eq name def_name then
        match kind with
        | BEBOP_DEF_STRUCT => BEBOP_ERROR_FMT BEBOP_DIAG_CYCLIC_DEFINITIONS span;; mret false
        | _ => mret true
        end
      else mret true
  | _, _ => mret true
  end.

Definition bebop_sema_check_service_type (type : bebop_type_t) (span : bebop_span_t) : M bool :=
  match type with
  | TDefined _ _ => mret true
  | _ => BEBOP_ERROR_FMT BEBOP_DIAG_INVALID_SERVICE_TYPE span;; mret false
  end.

End Sema.
