(* ===== verification/SemaProps.v ===== *)
(** What the checks of [Sema] let pass: a body passes without an error exactly when its
    parts are as the language wants them. *)
From stdpp Require Import list gmap.
From S2P Require Import Prelude.
From S2P Require Import Scanner.
From S2P Require Import Schema.
From S2P Require Import Diagnostics.
From S2P Require Import Sema.

(** ** Calls *)

(** The calls the parser makes; it goes on whatever they answer. A member of an enum is
    checked right after it was added to those before it. *)
Inductive sema_call : Type :=
  | EnterDef (name : Z) (kind : bebop_def_kind_t)
  | ExitDef
  | CheckName (name : Z) (span : bebop_span_t)
  | CheckIndex (index : Z) (span : bebop_span_t)
  | CheckSelf (type : bebop_type_t) (span : bebop_span_t)
  | CheckMapKey (type : bebop_type_t) (span : bebop_span_t)
  | CheckServiceType (type : bebop_type_t) (span : bebop_span_t)
  | CheckMember (base : bebop_type_kind_t) (decorators : list bebop_decorator_t) (before : list bebop_enum_member_t) (member : bebop_enum_member_t)
  | CheckEnum (span : bebop_span_t) (members : list bebop_enum_member_t).

Section Calls.
Context {scope_map : DefMap (option bebop_span_t)} (grants : nat → bool) (str_get : Z → option (list Z)).

Definition run_call (c : sema_call) : C bebop_sema_t unit :=
  match c with
  | EnterDef name kind => bebop_sema_enter_def name kind
  | ExitDef => bebop_sema_exit_def
  | CheckName name span => bebop_sema_check_duplicate_name grants name span;; mret tt
  | CheckIndex index span => bebop_sema_check_field_index grants index span;; mret tt
  | CheckSelf type span => bebop_sema_check_self_reference grants type span;; mret tt
  | CheckMapKey type span => bebop_sema_check_map_key_type grants type span;; mret tt
  | CheckServiceType type span => bebop_sema_check_service_type grants type span;; mret tt
  | CheckMember base decorators before member =>
      bebop_sema_check_enum_member grants str_get base decorators (before ++ [member]) (length before);; mret tt
  | CheckEnum span members => bebop_sema_check_enum_complete grants span members;; mret tt
  end.
Fixpoint run_calls (cs : list sema_call) : C bebop_sema_t unit :=
  match cs with [] => mret tt | c :: cs => run_call c;; run_calls cs end.
End Calls.

(** ** What is allowed *)

(** What a body has so far: the definition it belongs to, its names, its indices. *)
Record body : Type := mkBody { bo_def : option (Z * bebop_def_kind_t); bo_names : list Z; bo_indices : list Z }.

Definition next_body (b : body) (c : sema_call) : body :=
  match c with
  | EnterDef name kind => mkBody (Some (name, kind)) [] []
  | ExitDef => mkBody None [] []
  | CheckName name _ => mkBody (bo_def b) (name :: bo_names b) (bo_indices b)
  | CheckIndex index _ => mkBody (bo_def b) (bo_names b) (index :: bo_indices b)
  | _ => b
  end.

Definition is_map_key (t : bebop_type_t) : bool :=
  match t with
  | TScalar (BEBOP_TYPE_BOOL | BEBOP_TYPE_BYTE | BEBOP_TYPE_INT8 | BEBOP_TYPE_INT16 | BEBOP_TYPE_UINT16 | BEBOP_TYPE_INT32
      | BEBOP_TYPE_UINT32 | BEBOP_TYPE_INT64 | BEBOP_TYPE_UINT64 | BEBOP_TYPE_INT128 | BEBOP_TYPE_UINT128 | BEBOP_TYPE_STRING
      | BEBOP_TYPE_UUID) => true
  | _ => false
  end.

(** The values of an integer type: the least, the one behind the greatest. *)
Definition int_range (kind : bebop_type_kind_t) : option (Z * Z) :=
  match kind with
  | BEBOP_TYPE_BYTE => Some (0, 2 ^ 8)
  | BEBOP_TYPE_INT8 => Some (- 2 ^ 7, 2 ^ 7)
  | BEBOP_TYPE_INT16 => Some (- 2 ^ 15, 2 ^ 15)
  | BEBOP_TYPE_UINT16 => Some (0, 2 ^ 16)
  | BEBOP_TYPE_INT32 => Some (- 2 ^ 31, 2 ^ 31)
  | BEBOP_TYPE_UINT32 => Some (0, 2 ^ 32)
  | BEBOP_TYPE_INT64 => Some (- 2 ^ 63, 2 ^ 63)
  | BEBOP_TYPE_UINT64 => Some (0, 2 ^ 64)
  | _ => None
  end.

(** 64 bits hold a value of an integer type, signed ones in two's complement. *)
Definition holds_value (kind : bebop_type_kind_t) (bits : Z) : Prop :=
  ∃ lo hi v, int_range kind = Some (lo, hi) ∧ lo ≤ v < hi ∧ bits = v mod 2 ^ 64.

Section Allowed.
Context (str_get : Z → option (list Z)).

Definition is_flags (decorators : list bebop_decorator_t) : Prop :=
  ∃ dec, dec ∈ decorators ∧ str_get (dc_name dec) = Some flags_name.

Definition allowed (b : body) (c : sema_call) : Prop :=
  match c with
  | EnterDef _ _ | ExitDef => True
  | CheckName name _ => name = 0 ∨ name ∉ bo_names b
  | CheckIndex index _ => 1 ≤ index ≤ 255 ∧ index ∉ bo_indices b
  | CheckSelf t _ => ∀ name, bo_def b = Some (name, BEBOP_DEF_STRUCT) → ∀ p, t ≠ TDefined name p
  | CheckMapKey t _ => is_map_key t = true
  | CheckServiceType t _ => ∃ name p, t = TDefined name p
  | CheckMember base decorators before member =>
      holds_value base (em_value member) ∧ (is_flags decorators ∨ em_value member ∉ map em_value before)
  | CheckEnum _ members => members = [] ∨ 0 ∈ map em_value members
  end.

(** Every call is allowed after those before it. *)
Fixpoint all_allowed (b : body) (cs : list sema_call) : Prop :=
  match cs with [] => True | c :: cs => allowed b c ∧ all_allowed (next_body b c) cs end.

(** What the calls hand over: bits of 64-bit values, unsigned indices, integer base types,
    chains of decorators no longer than the limit. *)
Definition call_ok (c : sema_call) : Prop :=
  match c with
  | CheckIndex index _ => 0 ≤ index
  | CheckMember base decorators _ member =>
      is_Some (int_range base) ∧ 0 ≤ em_value member < 2 ^ 64 ∧ (length decorators ≤ BEBOP_MAX_DECORATOR_CHAIN_LENGTH)%nat
  | _ => True
  end.
End Allowed.

Section Exact.
Context {scope_map : DefMap (option bebop_span_t)} {scope_ok : DefMapOk} (grants : nat → bool) (str_get : Z → option (list Z)).
(** The allocator of the table ends the program rather than refuse, so an insertion is never
    left without its entry. *)
Hypothesis Hinsert : ∀ m k v, bebop_defmap_cfind m k = None → is_Some (bebop_defmap_insert m k v).

(** ** Reports *)

Definition set_schema (d : diagnostics_t) (s : bebop_sema_t) : bebop_sema_t :=
  mkSema d (se_ctx_error s) (se_current_def s) (se_name_scope s) (se_seen_indices s) (se_seen_index_spans s).

(** Diagnostics were lost: the array is full, or the arena has refused. *)
Definition lost (d : diagnostics_t) : Prop := zlen (ds_diagnostics d) = BEBOP_MAX_DIAGNOSTICS ∨ ∃ k, grants k = false.
Definition kept (d d' : diagnostics_t) : Prop :=
  zlen (ds_diagnostics d) ≤ zlen (ds_diagnostics d') ∧ ds_error_count d ≤ ds_error_count d'.
Definition reported (d d' : diagnostics_t) : Prop := ds_error_count d < ds_error_count d' ∨ lost d'.

Lemma kept_trans d1 d2 d3 : kept d1 d2 → kept d2 d3 → kept d1 d3.
Proof. unfold kept. lia. Qed.
Lemma lost_kept d d' : diagnostics_ok d' → kept d d' → lost d → lost d'.
Proof. intros Hok (Hl&_) [H|H]; [left|by right]. pose proof (dso_count _ Hok). lia. Qed.
Lemma reported_kept d1 d2 d3 : diagnostics_ok d3 → kept d2 d3 → reported d1 d2 → reported d1 d3.
Proof. intros Hok Hk [H|H]; [left; destruct Hk; lia|right; by eapply lost_kept]. Qed.

Lemma diag_ok_error code span hint s :
  diagnostics_ok (se_schema s) →
  ∃ d, on_schema (bebop__schema_add_diagnostic grants BEBOP_DIAG_ERROR code span hint) s = Some (tt, set_schema d s) ∧
    diagnostics_ok d ∧ kept (se_schema s) d ∧ reported (se_schema s) d.
Proof.
  intros Hok. destruct (add_diagnostic_ok grants BEBOP_DIAG_ERROR code span hint (se_schema s) Hok) as (d&E&Hd&H). exists d.
  unfold on_schema. rewrite E. split; [done|]. split; [done|]. unfold kept, reported, lost.
  rewrite (dso_errors _ Hd), (dso_errors _ Hok). destruct H as [->|(->&H)].
  - rewrite of_severity_app, of_severity_one. cbn. rewrite bool_decide_true by done. unfold zlen. rewrite length_app. cbn. split; [lia|left; lia].
  - split; [lia|]. by right.
Qed.

Lemma error_correct code span s :
  diagnostics_ok (se_schema s) →
  ∃ d, BEBOP_ERROR_FMT grants code span s = Some (tt, set_schema d s) ∧ diagnostics_ok d ∧ kept (se_schema s) d ∧ reported (se_schema s) d.
Proof. apply diag_ok_error. Qed.

Lemma label_correct span s :
  diagnostics_ok (se_schema s) →
  ∃ d, BEBOP_DIAG_ADD_LABEL grants span s = Some (tt, set_schema d s) ∧ diagnostics_ok d ∧ kept (se_schema s) d.
Proof.
  intros Hok. destruct (add_label_ok grants span (se_schema s) Hok) as (d&E&Hd&He&H). exists d. unfold BEBOP_DIAG_ADD_LABEL, on_schema. rewrite E.
  split; [done|]. split; [done|]. unfold kept. destruct H as [(->&_)|(l&x&->&->)]; [lia|]. unfold zlen. rewrite !length_app. cbn. lia.
Qed.

(** A report with its label, if it has one. *)
Lemma labelled_correct {A} code span (label : option bebop_span_t) (a : A) s :
  diagnostics_ok (se_schema s) →
  ∃ d, (BEBOP_ERROR_FMT grants code span;; (match label with Some l => BEBOP_DIAG_ADD_LABEL grants l | None => mret tt end);; mret a) s
         = Some (a, set_schema d s) ∧
    diagnostics_ok d ∧ kept (se_schema s) d ∧ reported (se_schema s) d.
Proof.
  intros Hok. destruct (error_correct code span s Hok) as (d1&E1&Hd1&Hk1&Hr1). rewrite (C_bind_Some _ _ _ _ _ E1). destruct label as [l|].
  - destruct (label_correct l (set_schema d1 s) Hd1) as (d2&E2&Hd2&Hk2). rewrite (C_bind_Some _ _ _ _ _ E2). exists d2.
    split_and!; [done|done|by eapply kept_trans|by eapply reported_kept].
  - by exists d1.
Qed.

(** ** One call *)

Record sema_ok (b : body) (s : bebop_sema_t) : Prop := {
  so_diagnostics : diagnostics_ok (se_schema s);
  so_def : se_current_def s = bo_def b;
  so_names : ∀ k, k ≠ 0 → is_Some (bebop_defmap_cfind (se_name_scope s) k) ↔ k ∈ bo_names b;
  so_seen : length (se_seen_indices s) = 256%nat;
  so_spans : length (se_seen_index_spans s) = 256%nat;
  so_indices : ∀ i, 1 ≤ i ≤ 255 → ∃ x, se_seen_indices s !! Z.to_nat i = Some x ∧ (x = 0 ↔ i ∉ bo_indices b)
}.

(** The answer of a check: when it passed nothing was reported and the context is as it was;
    else something was. *)
Definition answers {A} (c : C bebop_sema_t A) (b' : body) (P : Prop) (s : bebop_sema_t) : Prop :=
  ∃ a s', c s = Some (a, s') ∧ sema_ok b' s' ∧ kept (se_schema s) (se_schema s') ∧ se_ctx_error s' = se_ctx_error s ∧
    (ds_error_count (se_schema s') = ds_error_count (se_schema s) ∧ P ∨ ¬ P ∧ reported (se_schema s) (se_schema s')).

Lemma answers_void {A} (c : C bebop_sema_t A) b P s : answers c b P s → answers (c;; mret tt) b P s.
Proof. intros (a&s'&E&H). exists tt, s'. by rewrite (C_bind_Some _ _ _ _ _ E). Qed.

Lemma sema_ok_schema b s d : sema_ok b s → diagnostics_ok d → sema_ok b (set_schema d s).
Proof. intros []. by split. Qed.

(** A check that answers after a report, and one that passes and leaves everything. *)
Lemma answers_reported {A} (c : C bebop_sema_t A) a b P s d :
  c s = Some (a, set_schema d s) → sema_ok b s → ¬ P → diagnostics_ok d ∧ kept (se_schema s) d ∧ reported (se_schema s) d → answers c b P s.
Proof. intros E Hs HP (Hd&Hk&Hr). exists a, (set_schema d s). split_and!; [done|by apply sema_ok_schema|done|done|by right]. Qed.
Lemma answers_passed {A} (c : C bebop_sema_t A) a b (P : Prop) s : c s = Some (a, s) → sema_ok b s → P → answers c b P s.
Proof. intros E Hs HP. exists a, s. split_and!; [done|done|by split|done|by left]. Qed.
Lemma error_answers {A} code span (a : A) b (P : Prop) s :
  sema_ok b s → ¬ P → answers (BEBOP_ERROR_FMT grants code span;; mret a) b P s.
Proof.
  intros Hs HP. destruct (labelled_correct code span None a s (so_diagnostics _ _ Hs)) as (d&E&H). by eapply answers_reported.
Qed.

Lemma enter_answers def b s : sema_ok b s → answers (modify (switch_def def)) (mkBody def [] []) True s.
Proof.
  intros [Hd _ _ _ _ _]. eexists _, _. split; [reflexivity|]. split_and!; [|by split|done|by left]. split; cbn [bo_def bo_names bo_indices]; try done.
  - intros k _. cbn. rewrite defmap_find_clear. split; [by intros [? ?]|by intros ?%not_elem_of_nil].
  - intros i Hi. exists 0. split; [|split; [set_solver|done]]. cbn [se_seen_indices switch_def]. apply lookup_replicate_2. lia.
Qed.

Lemma name_answers name span b s :
  sema_ok b s → answers (bebop_sema_check_duplicate_name grants name span) (next_body b (CheckName name span)) (name = 0 ∨ name ∉ bo_names b) s.
Proof.
  intros Hs. unfold bebop_sema_check_duplicate_name, bebop_str_is_null.
  assert (Hold : name = 0 ∨ name ∈ bo_names b → sema_ok (next_body b (CheckName name span)) s).
  { intros Hin. destruct Hs as [? ? Hnames ? ? ?]. split; try done. intros k Hk. rewrite Hnames by done. cbn. set_solver. }
  destruct (Z.eqb_spec name 0) as [->|Hn]; [eapply answers_passed; [done|apply Hold|]; by left|].
  destruct (bebop_defmap_cfind (se_name_scope s) name) as [orig|] eqn:Ef.
  - assert (Hin : name ∈ bo_names b) by (apply (so_names _ _ Hs); [done|by eexists]).
    destruct (labelled_correct BEBOP_DIAG_DUPLICATE_FIELD span orig false s (so_diagnostics _ _ Hs)) as (d&E&H).
    eapply answers_reported; [|apply Hold; by right| |exact H]; [|by intros [?|?]].
    rewrite (C_bind_Some (gets _) _ _ _ _ eq_refl), Ef. exact E.
  - assert (Hin : name ∉ bo_names b) by (rewrite <- (so_names _ _ Hs) by done; rewrite Ef; by intros [? ?]).
    destruct (Hinsert (se_name_scope s) name (if grants (ds_requests (se_schema s)) then Some span else None) Ef) as (m&Em).
    eexists true, _. split.
    { rewrite (C_bind_Some (gets _) _ _ _ _ eq_refl), Ef. erewrite (C_bind_Some (on_schema (ask grants))) by reflexivity. cbn [se_name_scope]. rewrite Em. reflexivity. }
    split_and!; [|by split|done|left; split; [done|by right]].
    destruct Hs as [Hd Hdef Hnames Hs1 Hs2 Hi]. split; cbn; try done.
    + by destruct Hd; split.
    + intros k Hk. rewrite (defmap_find_insert _ _ _ _ k Em). destruct (Z.eqb_spec k name) as [->|Hne].
      * rewrite Ef. split; [set_solver|by eexists].
      * rewrite elem_of_cons, <- Hnames by done. destruct (bebop_defmap_cfind _ k) eqn:Ek; [split; [by right|by eexists]|].
        split; [intros [? [=]]|intros [?|[? [=]]]; done].
Qed.

Lemma index_answers index span b s :
  sema_ok b s → 0 ≤ index →
  answers (bebop_sema_check_field_index grants index span) (next_body b (CheckIndex index span)) (1 ≤ index ≤ 255 ∧ index ∉ bo_indices b) s.
Proof.
  intros Hs H0. unfold bebop_sema_check_field_index, BEBOP_MAX_FIELD_INDEX.
  assert (Hold : ¬ 1 ≤ index ≤ 255 ∨ index ∈ bo_indices b → sema_ok (next_body b (CheckIndex index span)) s).
  { intros Hin. destruct Hs as [? ? ? ? ? Hi]. split; try done. intros i Hi'. destruct (Hi i Hi') as (x&Ex&Hx). exists x. split; [done|]. rewrite Hx. cbn.
    rewrite not_elem_of_cons. split; [|naive_solver]. intros Hni. split; [|done]. intros ->. naive_solver. }
  destruct (Z.eqb_spec index 0) as [->|Hz]; [apply error_answers; [apply Hold; left; lia|lia]|].
  destruct (Z.ltb_spec 255 index); [apply error_answers; [apply Hold; left; lia|lia]|].
  destruct (so_indices _ _ Hs index) as (x&Ex&Hx); [lia|].
  destruct (Z.eqb_spec x 0) as [E0|E0].
  - subst x. eexists true, _. split.
    { rewrite !(C_bind_Some (gets _) _ _ _ _ eq_refl), (C_lift_bind _ _ _ _ Ex). reflexivity. }
    apply proj1 in Hx. specialize (Hx eq_refl). split_and!; [|by split|done|left; split; [done|split; [lia|done]]].
    destruct Hs as [Hd Hdef Hnames Hs1 Hs2 Hi]. split; cbn; rewrite ?length_insert; try done.
    intros i Hi'. destruct (decide (i = index)) as [->|Hne].
    + exists 1. rewrite list_lookup_insert_eq by lia. split; [done|]. split; [done|set_solver].
    + destruct (Hi i Hi') as (y&Ey&Hy). exists y. rewrite list_lookup_insert_ne by lia. split; [done|]. rewrite Hy. set_solver.
  - assert (Hin : index ∈ bo_indices b) by (destruct (decide (index ∈ bo_indices b)); [done|tauto]).
    destruct (lookup_lt_is_Some_2 (se_seen_index_spans s) (Z.to_nat index)) as (first&Efirst); [rewrite (so_spans _ _ Hs); lia|].
    destruct (labelled_correct BEBOP_DIAG_DUPLICATE_FIELD_INDEX span (Some first) false s (so_diagnostics _ _ Hs)) as (d&E&Hrep).
    eapply answers_reported; [|apply Hold; by right| |exact Hrep]; [|by intros (_&?)].
    rewrite !(C_bind_Some (gets _) _ _ _ _ eq_refl), (C_lift_bind _ _ _ _ Ex). destruct (Z.eqb_spec x 0); [done|]. cbn [negb].
    destruct (BEBOP_ERROR_FMT grants BEBOP_DIAG_DUPLICATE_FIELD_INDEX span s) as [[u s1]|] eqn:E1; [|by unfold mbind, C_bind in E; rewrite E1 in E].
    rewrite (C_bind_Some _ _ _ _ _ E1) in E. rewrite (C_bind_Some _ _ _ _ _ E1).
    rewrite (C_lift_bind _ _ _ _ Efirst). exact E.
Qed.

(** ** Types and enums *)

Lemma self_answers t span b s :
  sema_ok b s → answers (bebop_sema_check_self_reference grants t span) b (allowed str_get b (CheckSelf t span)) s.
Proof.
  intros Hs. unfold bebop_sema_check_self_reference. pose proof (so_def _ _ Hs) as Hdef. cbn [allowed]. rewrite <- Hdef.
  assert (Hpass : ∀ c, c s = Some (true, s) → (∀ name, se_current_def s = Some (name, BEBOP_DEF_STRUCT) → ∀ p, t ≠ TDefined name p) →
    answers c b (∀ name, se_current_def s = Some (name, BEBOP_DEF_STRUCT) → ∀ p, t ≠ TDefined name p) s).
  { intros c E H. by eapply answers_passed. }
  destruct t as [|kind|e|e size|k w|name p]; try (apply Hpass; [done|naive_solver]).
  destruct (se_current_def s) as [[def_name kind]|] eqn:Ed; [|apply Hpass; [unfold mbind, C_bind, gets; by rewrite Ed|naive_solver]].
  unfold bebop_str_eq. destruct (Z.eqb_spec name def_name) as [->|Hne].
  2: { apply Hpass; [unfold mbind, C_bind, gets; rewrite Ed; by destruct (Z.eqb_spec name def_name)|naive_solver]. }
  destruct (decide (kind = BEBOP_DEF_STRUCT)) as [->|Hk].
  - destruct (labelled_correct BEBOP_DIAG_CYCLIC_DEFINITIONS span None false s (so_diagnostics _ _ Hs)) as (d&E&H).
    eapply answers_reported; [|done| |exact H]; [|intros Hn; by eapply Hn]. unfold gets. unfold mbind at 1, C_bind at 1. rewrite Ed, Z.eqb_refl. exact E.
  - apply Hpass; [unfold mbind, C_bind, gets; rewrite Ed, Z.eqb_refl; by destruct kind|naive_solver].
Qed.

Lemma map_key_answers t span b s :
  sema_ok b s → answers (bebop_sema_check_map_key_type grants t span) b (is_map_key t = true) s.
Proof.
  intros Hs. unfold bebop_sema_check_map_key_type.
  assert (Hkeys : t ≠ TNull → existsb (λ k, bool_decide (type_kind t = k)) bebop__sema_valid_map_keys = is_map_key t).
  { intros _. destruct t as [|kind| | | |]; try done. by destruct kind. }
  assert (Hrep : ∀ hint, is_map_key t ≠ true →
    answers (on_schema (bebop__schema_add_diagnostic grants BEBOP_DIAG_ERROR BEBOP_DIAG_INVALID_MAP_KEY_TYPE span hint);; mret false) b (is_map_key t = true) s).
  { intros hint Hn. destruct (diag_ok_error BEBOP_DIAG_INVALID_MAP_KEY_TYPE span hint s (so_diagnostics _ _ Hs)) as (d&E&H).
    eapply answers_reported; [by rewrite (C_bind_Some _ _ _ _ _ E)|done|done|exact H]. }
  destruct t; [by apply (Hrep false)|..]; rewrite Hkeys by done; destruct (is_map_key _) eqn:Ek; try (by eapply answers_passed); by apply (Hrep true).
Qed.

Lemma service_type_answers t span b s :
  sema_ok b s → answers (bebop_sema_check_service_type grants t span) b (∃ name p, t = TDefined name p) s.
Proof.
  intros Hs. destruct t; try (apply error_answers; [done|by intros (?&?&?)]). eapply answers_passed; [done|done|by eexists _, _].
Qed.

Lemma complete_answers span members b s :
  sema_ok b s → answers (bebop_sema_check_enum_complete grants span members) b (members = [] ∨ 0 ∈ map em_value members) s.
Proof.
  intros Hs. unfold bebop_sema_check_enum_complete. destruct (existsb (λ m, em_value m =? 0) members) eqn:Ex.
  - eapply answers_passed; [done|done|]. right. apply existsb_exists in Ex as (m&Hm&Hz%Z.eqb_eq). rewrite <- Hz. apply list_elem_of_fmap. exists m. by rewrite list_elem_of_In.
  - assert (Hno : 0 ∉ map em_value members).
    { intros (m&Hz&Hm)%list_elem_of_fmap. rewrite <- not_true_iff_false in Ex. apply Ex, existsb_exists. exists m. rewrite <- list_elem_of_In. by rewrite <- Hz. }
    destruct members as [|m ms]; [eapply answers_passed; [done|done|by left]|]. apply error_answers; [done|]. by intros [?|?].
Qed.

Lemma in_range_exact base bits :
  is_Some (int_range base) → 0 ≤ bits < 2 ^ 64 → enum_value_in_range base bits = true ↔ holds_value base bits.
Proof.
  intros (r&Er) Hb. unfold enum_value_in_range, holds_value.
  assert (Hs64 : s64 bits mod 2 ^ 64 = bits).
  { unfold s64. destruct (Z.ltb_spec bits (2 ^ 63)); [by apply Z.mod_small|]. rewrite <- (Z.mod_add _ 1) by done. rewrite Z.mod_small; lia. }
  assert (Hinv : ∀ v, - 2 ^ 63 ≤ v < 2 ^ 63 → bits = v mod 2 ^ 64 → v = s64 bits).
  { intros v Hv ->. unfold s64. destruct (decide (0 ≤ v)).
    - rewrite Z.mod_small by lia. destruct (Z.ltb_spec v (2 ^ 63)); lia.
    - rewrite <- (Z.mod_add _ 1), Z.mod_small by lia. destruct (Z.ltb_spec (v + 1 * 2 ^ 64) (2 ^ 63)); lia. }
  assert (Hrange : - 2 ^ 63 ≤ s64 bits < 2 ^ 63) by (unfold s64; destruct (Z.ltb_spec bits (2 ^ 63)); lia).
  assert (Hu : ∀ v, 0 ≤ v < 2 ^ 64 → bits = v mod 2 ^ 64 ↔ v = bits) by (intros v Hv; rewrite Z.mod_small by done; naive_solver).
  assert (Hsg : 2 ^ 63 - 1 < bits ↔ s64 bits < 0) by (unfold s64; destruct (Z.ltb_spec bits (2 ^ 63)); lia).
  assert (Hunsigned : ∀ hi, hi ≤ 2 ^ 64 → negb (hi - 1 <? bits) = true ↔ ∃ v, 0 ≤ v < hi ∧ bits = v mod 2 ^ 64).
  { intros hi Hhi. rewrite negb_true_iff, Z.ltb_ge. split.
    - intros H. exists bits. split; [lia|]. by apply Hu.
    - intros (v&Hv&->%Hu); lia. }
  assert (Hsigned : ∀ lo hi, - 2 ^ 63 ≤ lo → lo < 0 → 0 < hi → hi ≤ 2 ^ 63 →
    (if 2 ^ 63 - 1 <? bits then negb (s64 bits <? lo) else negb ((s64 bits <? lo) || (s64 (hi - 1) <? s64 bits))) = true ↔
      ∃ v, lo ≤ v < hi ∧ bits = v mod 2 ^ 64).
  { intros lo hi H1 H2 H3 H4. assert (Eh : s64 (hi - 1) = hi - 1) by (unfold s64; destruct (Z.ltb_spec (hi - 1) (2 ^ 63)); lia). rewrite Eh. split.
    - intros H. exists (s64 bits). split; [|done]. destruct (Z.ltb_spec (2 ^ 63 - 1) bits) as [Hb'|Hb'].
      + apply negb_true_iff, Z.ltb_ge in H. apply Hsg in Hb'. lia.
      + apply negb_true_iff, orb_false_iff in H as (?%Z.ltb_ge&?%Z.ltb_ge). lia.
    - intros (v&Hv&E). apply Hinv in E as ->; [|lia]. destruct (Z.ltb_spec (2 ^ 63 - 1) bits) as [Hb'|Hb'];
        rewrite negb_true_iff, ?orb_false_iff, ?Z.ltb_ge; lia. }
  destruct base; cbn in Er; try done; cbn [bebop__sema_int_range int_range];
    (etransitivity; [first [apply (Hunsigned (2 ^ 8)); done | apply (Hunsigned (2 ^ 16)); done | apply (Hunsigned (2 ^ 32)); done | apply (Hunsigned (2 ^ 64)); done
      | apply (Hsigned (- 2 ^ 7) (2 ^ 7)); done | apply (Hsigned (- 2 ^ 15) (2 ^ 15)); done | apply (Hsigned (- 2 ^ 31) (2 ^ 31)); done | apply (Hsigned (- 2 ^ 63) (2 ^ 63)); done]|]);
    (split; [intros (v&?&?); by eexists _, _, v|intros (?&?&v&[= <- <-]&?&?); by exists v]).
Qed.

Lemma find_flags_correct decorators : ∀ count, (count + length decorators ≤ BEBOP_MAX_DECORATOR_CHAIN_LENGTH)%nat →
  (find_flags str_get count decorators = HasFlags ∧ is_flags str_get decorators) ∨
  (find_flags str_get count decorators = NoFlags ∧ ¬ is_flags str_get decorators).
Proof.
  induction decorators as [|dec decorators IH]; intros count Hlen; cbn [find_flags length] in *.
  - right. split; [done|]. intros (?&Hd&_). by apply not_elem_of_nil in Hd.
  - destruct (Nat.ltb_spec BEBOP_MAX_DECORATOR_CHAIN_LENGTH (S count)); [lia|]. case_bool_decide as E.
    + left. split; [done|]. exists dec. split; [set_solver|done].
    + destruct (IH (S count)) as [(->&d&Hd&Ed)|(->&Hn)]; [lia| |].
      * left. split; [done|]. exists d. split; [set_solver|done].
      * right. split; [done|]. intros (d&[->|Hd]%elem_of_cons&Ed); [done|]. apply Hn. by exists d.
Qed.

Lemma find_same_value_correct member before : ∀ i,
  match find_same_value i (i + length before) (em_value member) (before ++ [member]) with
  | Some _ => em_value member ∈ map em_value before
  | None => em_value member ∉ map em_value before
  end.
Proof.
  induction before as [|m before IH]; intros i; cbn [find_same_value length app map].
  - rewrite Nat.add_0_r, Nat.eqb_refl. cbn. apply not_elem_of_nil.
  - destruct (Nat.eqb_spec i (i + S (length before))); [lia|]. cbn [negb andb]. destruct (Z.eqb_spec (em_value m) (em_value member)) as [->|Hne]; [set_solver|].
    specialize (IH (S i)). replace (i + S (length before))%nat with (S i + length before)%nat by lia. destruct (find_same_value _ _ _ _); set_solver.
Qed.

Lemma member_answers base decorators before member b s :
  sema_ok b s → call_ok (CheckMember base decorators before member) →
  answers (bebop_sema_check_enum_member grants str_get base decorators (before ++ [member]) (length before)) b
    (allowed str_get b (CheckMember base decorators before member)) s.
Proof.
  intros Hs (Hbase&Hbits&Hlen). unfold bebop_sema_check_enum_member. cbn [allowed].
  assert (Em : (before ++ [member]) !! length before = Some member) by (by apply list_lookup_middle).
  set (P := holds_value base (em_value member) ∧ (is_flags str_get decorators ∨ em_value member ∉ map em_value before)).
  assert (Hlift : ∀ c : bebop_enum_member_t → C bebop_sema_t bool, answers (c member) b P s → answers (lift ((before ++ [member]) !! length before) ≫= c) b P s).
  { intros c (a&s'&E&H). exists a, s'. by rewrite (C_lift_bind _ _ _ _ Em). }
  apply Hlift. pose proof (in_range_exact base (em_value member) Hbase Hbits) as Hr. destruct (enum_value_in_range base (em_value member)); cbn [negb].
  2: { apply error_answers; [done|]. intros (Hv&_). by apply Hr in Hv. }
  assert (Hv : holds_value base (em_value member)) by (by apply Hr).
  destruct (find_flags_correct decorators 0) as [(->&Hf)|(->&Hf)]; [done| |]; [eapply answers_passed; [done|done|by split; [|left]]|].
  pose proof (find_same_value_correct member before 0) as Hsame. cbn [Nat.add] in Hsame. destruct (find_same_value _ _ _ _) as [existing|].
  - destruct (labelled_correct BEBOP_DIAG_DUPLICATE_ENUM_VALUE (em_span member) (Some (em_span existing)) false s (so_diagnostics _ _ Hs)) as (d&E&H).
    eapply answers_reported; [exact E|done| |exact H]. by intros (_&[?|?]).
  - eapply answers_passed; [done|done|]. by split; [|right].
Qed.

(** ** All calls *)

Lemma call_answers c b s :
  sema_ok b s → call_ok c → answers (run_call grants str_get c) (next_body b c) (allowed str_get b c) s.
Proof.
  intros Hs Hc. destruct c; cbn [run_call next_body allowed].
  - by apply enter_answers with b.
  - by apply enter_answers with b.
  - by apply answers_void, name_answers.
  - by apply answers_void, index_answers.
  - by apply answers_void, self_answers.
  - by apply answers_void, map_key_answers.
  - by apply answers_void, service_type_answers.
  - by apply answers_void, member_answers.
  - by apply answers_void, complete_answers.
Qed.

Lemma calls_answer cs : ∀ b s, sema_ok b s → Forall call_ok cs →
  ∃ s', run_calls grants str_get cs s = Some (tt, s') ∧ sema_ok (fold_left next_body cs b) s' ∧ kept (se_schema s) (se_schema s') ∧
    se_ctx_error s' = se_ctx_error s ∧
    (all_allowed str_get b cs ∧ ds_error_count (se_schema s') = ds_error_count (se_schema s) ∨
     ¬ all_allowed str_get b cs ∧ reported (se_schema s) (se_schema s')).
Proof.
  induction cs as [|c cs IH]; intros b s Hs Hcs; cbn [run_calls fold_left all_allowed].
  - exists s. split_and!; [done|done|by split|done|by left].
  - apply Forall_cons in Hcs as (Hc&Hcs). destruct (call_answers c b s Hs Hc) as ([]&s1&E1&Hs1&Hk1&Hx1&H1).
    destruct (IH _ _ Hs1 Hcs) as (s2&E2&Hs2&Hk2&Hx2&H2). exists s2. rewrite (C_bind_Some _ _ _ _ _ E1).
    split_and!; [done|done|by eapply kept_trans|congruence|]. destruct H1 as [(He1&Ha)|(Ha&Hr1)].
    + destruct H2 as [(?&?)|(?&Hr2)]; [left; split; [by split|congruence]|right]. split; [naive_solver|].
      unfold reported in *. by rewrite <- He1.
    + right. split; [naive_solver|]. eapply reported_kept; [apply (so_diagnostics _ _ Hs2)|exact Hk2|exact Hr1].
Qed.
End Exact.

(** ** Bodies *)

Lemma all_allowed_app str_get cs1 : ∀ cs2 b,
  all_allowed str_get b (cs1 ++ cs2) ↔ all_allowed str_get b cs1 ∧ all_allowed str_get (fold_left next_body cs1 b) cs2.
Proof. induction cs1 as [|c cs1 IH]; intros cs2 b; cbn; [naive_solver|]. rewrite IH. naive_solver. Qed.

(** The checks of the fields of a message: index and name of each. *)
Definition message_calls (fields : list (Z * bebop_span_t * Z * bebop_span_t)) : list sema_call :=
  concat (map (λ '(index, ispan, name, nspan), [CheckIndex index ispan; CheckName name nspan]) fields).
Definition indices_of (fields : list (Z * bebop_span_t * Z * bebop_span_t)) : list Z := map (λ '(index, _, _, _), index) fields.
Definition names_of (fields : list (Z * bebop_span_t * Z * bebop_span_t)) : list Z := map (λ '(_, _, name, _), name) fields.

Lemma message_calls_allowed str_get fields : ∀ b,
  Forall (λ name, name ≠ 0) (names_of fields) →
  all_allowed str_get b (message_calls fields) ↔
    Forall (λ index, 1 ≤ index ≤ 255) (indices_of fields) ∧ NoDup (indices_of fields) ∧ NoDup (names_of fields) ∧
    (∀ i, i ∈ indices_of fields → i ∉ bo_indices b) ∧ (∀ n, n ∈ names_of fields → n ∉ bo_names b).
Proof.
  induction fields as [|[[[index ispan] name] nspan] fields IH]; intros b Hn.
  - cbn. split; [|done]. intros _. split_and!; [done|constructor|constructor|set_solver|set_solver].
  - apply Forall_cons in Hn as (Hn0&Hn). unfold message_calls. cbn [map concat app all_allowed allowed next_body]. fold (message_calls fields).
    rewrite (IH _ Hn). cbn [bo_indices bo_names indices_of names_of map]. rewrite Forall_cons, !NoDup_cons.
    fold (indices_of fields) (names_of fields). set_solver.
Qed.

(** An enum: each member is checked behind those before it, and at the end all of them. *)
Fixpoint member_calls (base : bebop_type_kind_t) (decorators : list bebop_decorator_t) (before members : list bebop_enum_member_t) : list sema_call :=
  match members with
  | [] => []
  | m :: members => CheckName (em_name m) (em_name_span m) :: CheckMember base decorators before m :: member_calls base decorators (before ++ [m]) members
  end.
Definition enum_calls (name : Z) (span : bebop_span_t) (base : bebop_type_kind_t) (decorators : list bebop_decorator_t) (members : list bebop_enum_member_t) : list sema_call :=
  EnterDef name BEBOP_DEF_ENUM :: member_calls base decorators [] members ++ [ExitDef; CheckEnum span members].

Definition enum_ok (str_get : Z → option (list Z)) (base : bebop_type_kind_t) (decorators : list bebop_decorator_t) (members : list bebop_enum_member_t) : Prop :=
  NoDup (map em_name members) ∧ Forall (λ m, holds_value base (em_value m)) members ∧
  (is_flags str_get decorators ∨ NoDup (map em_value members)) ∧ (members = [] ∨ 0 ∈ map em_value members).

Lemma member_calls_allowed str_get base decorators members : ∀ before b,
  Forall (λ m, em_name m ≠ 0) members →
  all_allowed str_get b (member_calls base decorators before members) ↔
    NoDup (map em_name members) ∧ (∀ n, n ∈ map em_name members → n ∉ bo_names b) ∧ Forall (λ m, holds_value base (em_value m)) members ∧
    (is_flags str_get decorators ∨ NoDup (map em_value members) ∧ ∀ v, v ∈ map em_value members → v ∉ map em_value before).
Proof.
  induction members as [|m members IH]; intros before b Hn; cbn [member_calls all_allowed allowed next_body map].
  - split; [|done]. intros _. split_and!; [constructor|set_solver|done|right; split; [constructor|set_solver]].
  - apply Forall_cons in Hn as (Hn0&Hn). rewrite (IH _ _ Hn), !NoDup_cons, Forall_cons, map_app. cbn [bo_names map]. set_solver.
Qed.

Lemma enum_calls_allowed str_get name span base decorators members b :
  Forall (λ m, em_name m ≠ 0) members →
  all_allowed str_get b (enum_calls name span base decorators members) ↔ enum_ok str_get base decorators members.
Proof.
  intros Hn. unfold enum_calls, enum_ok. cbn [all_allowed allowed next_body]. rewrite all_allowed_app, member_calls_allowed by done. cbn [all_allowed allowed bo_names map]. set_solver.
Qed.

Section Bodies.
Context {scope_map : DefMap (option bebop_span_t)} {scope_ok : DefMapOk} (grants : nat → bool) (str_get : Z → option (list Z)).
Hypothesis Hinsert : ∀ m k v, bebop_defmap_cfind m k = None → is_Some (bebop_defmap_insert m k v).

(** C28: the checks of a definition's parts. Any sequence of calls is defined; it sets no error
    of the context; and unless a diagnostic was lost (there were a hundred, or the arena
    refused) it adds no error exactly when each call is allowed after those before it. *)
Theorem checks_exact cs b s :
  sema_ok b s → Forall call_ok cs →
  ∃ s', run_calls grants str_get cs s = Some (tt, s') ∧ sema_ok (fold_left next_body cs b) s' ∧ se_ctx_error s' = se_ctx_error s ∧
    ds_error_count (se_schema s) ≤ ds_error_count (se_schema s') ∧
    (lost grants (se_schema s') ∨ (ds_error_count (se_schema s') = ds_error_count (se_schema s) ↔ all_allowed str_get b cs)).
Proof.
  intros Hs Hcs. destruct (calls_answer grants str_get Hinsert cs b s Hs Hcs) as (s'&E&Hs'&(_&Hk)&Hx&H). exists s'.
  split_and!; [done|done|done|done|]. destruct H as [(Ha&He)|(Ha&[He|Hl])]; [right; by split|right|by left]. split; [lia|done].
Qed.

(** Enums. Unless a diagnostic was lost, the checks of an enum add no error exactly when its
    names are distinct, its values are ones of its base type, distinct unless it is a set of
    flags, and one of them is 0 unless it has no members. docs/GRAMMAR.md wants a member of
    value 0 in every enum. *)
Theorem enum_checks_exact name span base decorators members b s :
  sema_ok b s → is_Some (int_range base) → (length decorators ≤ BEBOP_MAX_DECORATOR_CHAIN_LENGTH)%nat →
  Forall (λ m, em_name m ≠ 0 ∧ 0 ≤ em_value m < 2 ^ 64) members →
  ∃ s', run_calls grants str_get (enum_calls name span base decorators members) s = Some (tt, s') ∧
    (lost grants (se_schema s') ∨ (ds_error_count (se_schema s') = ds_error_count (se_schema s) ↔ enum_ok str_get base decorators members)).
Proof.
  intros Hs Hbase Hdecs Hms.
  destruct (calls_answer grants str_get Hinsert (enum_calls name span base decorators members) b s Hs) as (s'&E&_&_&_&H).
  { unfold enum_calls. constructor; [done|]. apply Forall_app. split; [|by repeat constructor].
    generalize (@nil bebop_enum_member_t) as before. induction Hms as [|m ms (_&Hm) Hms IH]; intros before; cbn [member_calls]; [done|].
    constructor; [done|]. constructor; [by split|]. apply IH. }
  exists s'. split; [done|]. rewrite enum_calls_allowed in H by (eapply Forall_impl; [exact Hms|]; by intros m (?&_)).
  destruct H as [(Ha&He)|(Ha&[He|Hl])]; [right; by split|right|by left]. split; [lia|done].
Qed.

(** Messages. Unless a diagnostic was lost, the checks of a message's fields, with no definition
    between them, add no error exactly when their indices are distinct numbers from 1 to 255 and
    their names are distinct. *)
Theorem message_checks_exact name fields b s :
  sema_ok b s → Forall (λ index, 0 ≤ index) (indices_of fields) → Forall (λ name, name ≠ 0) (names_of fields) →
  ∃ s', run_calls grants str_get (EnterDef name BEBOP_DEF_MESSAGE :: message_calls fields ++ [ExitDef]) s = Some (tt, s') ∧
    (lost grants (se_schema s') ∨
     (ds_error_count (se_schema s') = ds_error_count (se_schema s) ↔
        Forall (λ index, 1 ≤ index ≤ 255) (indices_of fields) ∧ NoDup (indices_of fields) ∧ NoDup (names_of fields))).
Proof.
  intros Hs Hi Hn. destruct (calls_answer grants str_get Hinsert (EnterDef name BEBOP_DEF_MESSAGE :: message_calls fields ++ [ExitDef]) b s Hs) as (s'&E&_&_&_&H).
  { constructor; [done|]. apply Forall_app. split; [|by repeat constructor]. unfold indices_of in Hi. rewrite Forall_map in Hi. unfold message_calls.
    clear Hn. induction Hi as [|[[[index ispan] fname] nspan] fs Hf Hfs IH]; [done|]. cbn. by repeat constructor. }
  exists s'. split; [done|]. cbn [all_allowed allowed next_body] in H. rewrite all_allowed_app, message_calls_allowed in H by done. cbn [bo_indices bo_names all_allowed allowed] in H.
  assert (Hiff : (True ∧ (Forall (λ index, 1 ≤ index ≤ 255) (indices_of fields) ∧ NoDup (indices_of fields) ∧ NoDup (names_of fields) ∧
     (∀ i, i ∈ indices_of fields → i ∉ @nil Z) ∧ (∀ n, n ∈ names_of fields → n ∉ @nil Z)) ∧ True ∧ True) ↔
     Forall (λ index, 1 ≤ index ≤ 255) (indices_of fields) ∧ NoDup (indices_of fields) ∧ NoDup (names_of fields)) by set_solver.
  rewrite Hiff in H. destruct H as [(Ha&He)|(Ha&[He|Hl])]; [right; by split|right|by left]. split; [lia|done].
Qed.

(** C29: a definition inside of a message makes the analyser forget the fields before it. When
    the fields before it, its own parts and the fields behind it are each allowed, no error
    is added, whatever indices and names the two groups of fields share. *)
Theorem nested_definition_forgets name fields nested_name nested_kind nested fields' b s :
  sema_ok b s → Forall call_ok nested → Forall (λ name, name ≠ 0) (names_of (fields ++ fields')) →
  (∀ fs, fs = fields ∨ fs = fields' → Forall (λ index, 1 ≤ index ≤ 255) (indices_of fs) ∧ NoDup (indices_of fs) ∧ NoDup (names_of fs)) →
  all_allowed str_get (mkBody (Some (nested_name, nested_kind)) [] []) nested →
  ∃ s', run_calls grants str_get
      (EnterDef name BEBOP_DEF_MESSAGE :: message_calls fields ++ (EnterDef nested_name nested_kind :: nested ++ [ExitDef]) ++ message_calls fields' ++ [ExitDef]) s = Some (tt, s') ∧
    ds_error_count (se_schema s') = ds_error_count (se_schema s).
Proof.
  intros Hs Hnested Hn Hfs Hall. unfold names_of in Hn. rewrite map_app in Hn. apply Forall_app in Hn as (Hn&Hn').
  set (cs := EnterDef name BEBOP_DEF_MESSAGE :: _).
  assert (Hcalls : ∀ fs, fs = fields ∨ fs = fields' → Forall call_ok (message_calls fs)).
  { intros fs Hf. apply Hfs in Hf as (Hi&_). unfold indices_of in Hi. rewrite Forall_map in Hi. unfold message_calls.
    induction Hi as [|[[[index ispan] fname] nspan] fs' Hf Hfs' IH]; [done|]. cbn. repeat constructor; [cbn; lia|exact IH]. }
  destruct (calls_answer grants str_get Hinsert cs b s Hs) as (s'&E&_&_&_&H).
  { subst cs. constructor; [done|]. apply Forall_app. split; [apply Hcalls; by left|]. apply Forall_app. split.
    - constructor; [done|]. apply Forall_app. by split; [|repeat constructor].
    - apply Forall_app. split; [apply Hcalls; by right|by repeat constructor]. }
  exists s'. split; [done|]. destruct H as [(_&?)|(Hno&_)]; [done|]. destruct Hno. subst cs. cbn [all_allowed allowed next_body].
  destruct (Hfs fields) as (H1&H2&H3); [by left|]. destruct (Hfs fields') as (H1'&H2'&H3'); [by right|].
  split; [done|]. rewrite all_allowed_app, message_calls_allowed by done. split; [cbn; set_solver|].
  cbn [app all_allowed allowed next_body]. split; [done|]. rewrite <- !app_assoc, !all_allowed_app. split; [done|].
  cbn [app fold_left all_allowed allowed next_body]. split; [done|]. rewrite message_calls_allowed by done. cbn. set_solver.
Qed.
End Bodies.

(** ** Concrete bodies *)

Definition fresh : bebop_sema_t := mkSema no_diagnostics false None ∅ (replicate 256 0) (replicate 256 no_span).
Lemma fresh_ok : sema_ok (mkBody None [] []) fresh.
Proof.
  split; cbn [bo_def bo_names bo_indices]; try done.
  - intros k _. cbn. rewrite lookup_empty. split; [by intros [? ?]|by intros ?%not_elem_of_nil].
  - intros i Hi. exists 0. split; [|split; [set_solver|done]]. cbn [se_seen_indices fresh]. apply lookup_replicate_2. lia.
Qed.
Lemma gmap_inserts (m : @bebop_defmap (option bebop_span_t) _) k v : bebop_defmap_cfind m k = None → is_Some (bebop_defmap_insert m k v).
Proof. intros _. by eexists. Qed.

Definition errors_of (r : option (unit * bebop_sema_t)) : option Z := option_map (λ r, ds_error_count (se_schema r.2)) r.
Definition no_strings (k : Z) : option (list Z) := if k =? 9 then Some flags_name else None.

(** Fields [a(1)], [b(2)], [a(2)]: a name and an index twice. *)
Definition three_fields : list (Z * bebop_span_t * Z * bebop_span_t) := [(1, no_span, 5, no_span); (2, no_span, 6, no_span); (2, no_span, 5, no_span)].
(** Members [A = 0], [B = 200], [C = 200]. *)
Definition three_members : list bebop_enum_member_t := [plain_member 5 0; plain_member 6 200; plain_member 7 200].

Lemma checks_exact_witness :
  errors_of (run_calls (λ _, true) no_strings (CheckIndex 256 no_span :: message_calls three_fields) fresh) = Some 3 ∧
  ∃ s', run_calls (λ _, true) no_strings (CheckIndex 256 no_span :: message_calls three_fields) fresh = Some (tt, s') ∧
    sema_ok (fold_left next_body (CheckIndex 256 no_span :: message_calls three_fields) (mkBody None [] [])) s' ∧ se_ctx_error s' = false ∧
    0 ≤ ds_error_count (se_schema s') ∧
    (lost (λ _, true) (se_schema s') ∨
     (ds_error_count (se_schema s') = 0 ↔ all_allowed no_strings (mkBody None [] []) (CheckIndex 256 no_span :: message_calls three_fields))).
Proof.
  split; [vm_compute; reflexivity|]. apply (checks_exact (λ _, true) no_strings gmap_inserts _ _ fresh); [exact fresh_ok|].
  by repeat constructor.
Defined.

Lemma enum_checks_exact_witness :
  errors_of (run_calls (λ _, true) no_strings (enum_calls 4 no_span BEBOP_TYPE_INT8 [] three_members) fresh) = Some 2 ∧
  errors_of (run_calls (λ _, true) no_strings (enum_calls 4 no_span BEBOP_TYPE_BYTE [plain_decorator 9 None] three_members) fresh) = Some 0 ∧
  ∃ s', run_calls (λ _, true) no_strings (enum_calls 4 no_span BEBOP_TYPE_BYTE [plain_decorator 9 None] three_members) fresh = Some (tt, s') ∧
    (lost (λ _, true) (se_schema s') ∨ (ds_error_count (se_schema s') = 0 ↔ enum_ok no_strings BEBOP_TYPE_BYTE [plain_decorator 9 None] three_members)).
Proof.
  split; [vm_compute; reflexivity|]. split; [vm_compute; reflexivity|].
  apply (enum_checks_exact (λ _, true) no_strings gmap_inserts 4 no_span BEBOP_TYPE_BYTE [plain_decorator 9 None] three_members (mkBody None [] []) fresh); [exact fresh_ok|by eexists|unfold BEBOP_MAX_DECORATOR_CHAIN_LENGTH; cbn; lia|].
  repeat constructor; cbn; lia.
Defined.

Lemma message_checks_exact_witness :
  errors_of (run_calls (λ _, true) no_strings (EnterDef 4 BEBOP_DEF_MESSAGE :: message_calls three_fields ++ [ExitDef]) fresh) = Some 2 ∧
  ∃ s', run_calls (λ _, true) no_strings (EnterDef 4 BEBOP_DEF_MESSAGE :: message_calls three_fields ++ [ExitDef]) fresh = Some (tt, s') ∧
    (lost (λ _, true) (se_schema s') ∨
     (ds_error_count (se_schema s') = 0 ↔
        Forall (λ index, 1 ≤ index ≤ 255) (indices_of three_fields) ∧ NoDup (indices_of three_fields) ∧ NoDup (names_of three_fields))).
Proof.
  split; [vm_compute; reflexivity|].
  apply (message_checks_exact (λ _, true) no_strings gmap_inserts 4 three_fields (mkBody None [] []) fresh); [exact fresh_ok| |]; by repeat constructor.
Defined.

(** [message M { a(1); struct N {}; a(1) }] passes. *)
Lemma nested_definition_forgets_witness :
  ∃ s', run_calls (λ _, true) no_strings
      (EnterDef 4 BEBOP_DEF_MESSAGE :: message_calls [(1, no_span, 5, no_span)] ++ (EnterDef 8 BEBOP_DEF_STRUCT :: [] ++ [ExitDef]) ++
       message_calls [(1, no_span, 5, no_span)] ++ [ExitDef]) fresh = Some (tt, s') ∧
    ds_error_count (se_schema s') = 0.
Proof.
  apply (nested_definition_forgets (λ _, true) no_strings gmap_inserts 4 [(1, no_span, 5, no_span)] 8 BEBOP_DEF_STRUCT [] [(1, no_span, 5, no_span)] (mkBody None [] []) fresh);
    [exact fresh_ok|done|by repeat constructor| |done].
  intros fs [-> | ->]; (split; [by repeat constructor|]; split; repeat constructor; set_solver).
Defined.
