(* ===== verification/Services.v ===== *)
(** The checks of services ([bebop/src/bebop_validate.c]): the number of methods, what
    is mixed in, names that collide, and the types of requests and responses.

    The checks are the list of their reports, in order; a report says by indices what it is
    about. *)
From stdpp Require Import list relations.
From S2P Require Import Prelude.
From S2P Require Import Scanner.
From S2P Require Import Schema.

Definition BEBOP_MAX_SERVICE_METHODS : Z := 255.

(** What is reported: the index of a mixin, of its method, of a method of the service, of
    another mixin. *)
Inductive service_report : Type :=
  | TooManyMethods
  | MixinNotService (mixin : nat)
  | ConflictOwn (mixin mixin_method method : nat)
  | ConflictMixin (mixin mixin_method other : nat)
  | BadRequest (method : nat)
  | BadResponse (method : nat).

Definition BEBOP_DIAG_MIXIN_NOT_SERVICE : Z := 149.
Definition BEBOP_DIAG_CONFLICTING_MIXIN_METHOD : Z := 151.
Definition report_code (r : service_report) : Z :=
  match r with
  | TooManyMethods => BEBOP_DIAG_INVALID_FIELD
  | MixinNotService _ => BEBOP_DIAG_MIXIN_NOT_SERVICE
  | ConflictOwn _ _ _ | ConflictMixin _ _ _ => BEBOP_DIAG_CONFLICTING_MIXIN_METHOD
  | BadRequest _ | BadResponse _ => 132
  end.

Section Services.
Context (h : heap).

(** The service a mixin was resolved to: nothing when it has not been resolved to one. *)
Definition mixin_of (t : bebop_type_t) : option (option (def_ptr * bebop_def_t)) :=
  match t with
  | TDefined _ (Some p) => d ← h !! p; Some (Some (p, d))
  | _ => Some None
  end.
Definition methods_of (d : bebop_def_t) : list bebop_method_t := match df_body d with ServiceDef methods _ => methods | _ => [] end.
Definition mixins_of (d : bebop_def_t) : list bebop_type_t := match df_body d with ServiceDef _ mixins => mixins | _ => [] end.

(** The first index of a method of a name. *)
Fixpoint find_method (methods : list bebop_method_t) (name : Z) (i : nat) : option nat :=
  match methods with
  | [] => None
  | m :: methods => if bebop_str_eq (me_name m) name then Some i else find_method methods name (S i)
  end.

(** The loop over the mixins, given how one of them is asked. *)
Fixpoint has_in_mixins (has : bebop_def_t → option bool) (mixins : list bebop_type_t) : option bool :=
  match mixins with
  | [] => Some false
  | t :: mixins =>
      m ← mixin_of t;
      match m with
      | Some (_, mixin) =>
          match df_body mixin with
          | ServiceDef _ _ => b ← has mixin; if (b : bool) then Some true else has_in_mixins has mixins
          | _ => has_in_mixins has mixins
          end
      | None => has_in_mixins has mixins
      end
  end.

(** Whether a service has a method, in itself or in what it mixes in, at any depth. The
    recursion of the code has no bound: fuel that runs out is a stack that overflows. *)
Fixpoint bebop__validate_service_has_method (fuel : nat) (service : bebop_def_t) (name : Z) : option bool :=
  match fuel with
  | O => None
  | S fuel =>
      match find_method (methods_of service) name 0 with
      | Some _ => Some true
      | None => has_in_mixins (λ mixin, bebop__validate_service_has_method fuel mixin name) (mixins_of service)
      end
  end.

(** ** The reports *)

(** A method of mixin [i] against the mixins behind it, the first of which is [m]. *)
Fixpoint check_other_mixins (fuel : nat) (i j : nat) (name : Z) (m : nat) (others : list bebop_type_t) : option (list service_report) :=
  match others with
  | [] => Some []
  | t :: others =>
      other ← mixin_of t;
      here ←
        (match other with
         | Some (_, d) =>
             match df_body d with
             | ServiceDef _ _ => b ← bebop__validate_service_has_method fuel d name; Some (if (b : bool) then [ConflictMixin i j m] else [])
             | _ => Some []
             end
         | None => Some []
         end);
      rest ← check_other_mixins fuel i j name (S m) others;
      Some (here ++ rest)
  end.

(** The methods of mixin [i], from its method [j] on. *)
Fixpoint check_mixin_methods (fuel : nat) (own : list bebop_method_t) (i j : nat) (methods : list bebop_method_t) (others : list bebop_type_t) :
    option (list service_report) :=
  match methods with
  | [] => Some []
  | mixin_method :: methods =>
      let conflict := match find_method own (me_name mixin_method) 0 with Some k => [ConflictOwn i j k] | None => [] end in
      here ← check_other_mixins fuel i j (me_name mixin_method) (S i) others;
      rest ← check_mixin_methods fuel own i (S j) methods others;
      Some (conflict ++ here ++ rest)
  end.

(** The mixins from the [i]-th on. *)
Fixpoint check_mixins (fuel : nat) (own : list bebop_method_t) (i : nat) (mixins : list bebop_type_t) : option (list service_report) :=
  match mixins with
  | [] => Some []
  | t :: mixins =>
      m ← mixin_of t;
      here ←
        (match m with
         | Some (_, d) =>
             match df_body d with
             | ServiceDef methods _ => check_mixin_methods fuel own i 0 methods mixins
             | _ => Some [MixinNotService i]
             end
         | None => Some []
         end);
      rest ← check_mixins fuel own (S i) mixins;
      Some (here ++ rest)
  end.

(** Whether a type was resolved to something that is no record. *)
Definition not_record (t : bebop_type_t) : option bool :=
  m ← mixin_of t;
  Some (match m with
        | Some (_, d) => match df_body d with StructDef _ _ _ | MessageDef _ | UnionDef _ => false | _ => true end
        | None => false
        end).
Fixpoint check_methods (k : nat) (methods : list bebop_method_t) : option (list service_report) :=
  match methods with
  | [] => Some []
  | m :: methods =>
      bad_request ← not_record (me_request_type m);
      bad_response ← not_record (me_response_type m);
      rest ← check_methods (S k) methods;
      Some ((if (bad_request : bool) then [BadRequest k] else []) ++ (if (bad_response : bool) then [BadResponse k] else []) ++ rest)
  end.

Definition bebop__validate_service (fuel : nat) (d : bebop_def_t) : option (list service_report) :=
  mixins ← check_mixins fuel (methods_of d) 0 (mixins_of d);
  methods ← check_methods 0 (methods_of d);
  Some ((if BEBOP_MAX_SERVICE_METHODS <? zlen (methods_of d) then [TooManyMethods] else []) ++ mixins ++ methods).

(** ** What is meant *)

Definition service_at (p : def_ptr) : option bebop_def_t :=
  d ← h !! p; match df_body d with ServiceDef _ _ => Some d | _ => None end.

(** Service [p] mixes in service [q]. *)
Definition mixes (p q : def_ptr) : Prop :=
  ∃ d name, service_at p = Some d ∧ TDefined name (Some q) ∈ mixins_of d ∧ is_Some (service_at q).

Definition has_method (p : def_ptr) (name : Z) : Prop :=
  ∃ d, service_at p = Some d ∧ name ∈ map me_name (methods_of d).

(** Pointers lead to definitions. *)
Definition ptr_ok (t : bebop_type_t) : Prop := match t with TDefined _ (Some p) => is_Some (h !! p) | _ => True end.
Definition service_ptrs_ok (d : bebop_def_t) : Prop :=
  Forall ptr_ok (mixins_of d) ∧ Forall (λ m, ptr_ok (me_request_type m) ∧ ptr_ok (me_response_type m)) (methods_of d).

(** No mixin leads back to a service it was mixed into, and how deep they go. *)
Definition mixin_depth (depth : def_ptr → nat) : Prop := ∀ p q, mixes p q → (depth q < depth p)%nat.
End Services.

Lemma find_method_spec ms name : ∀ i,
  match find_method ms name i with Some _ => name ∈ map me_name ms | None => name ∉ map me_name ms end.
Proof.
  induction ms as [|m ms IH]; intros i; cbn [find_method map]; [apply not_elem_of_nil|]. unfold bebop_str_eq.
  destruct (Z.eqb_spec (me_name m) name) as [->|Hne]; [set_solver|]. specialize (IH (S i)). destruct (find_method ms name (S i)); set_solver.
Qed.

Lemma service_at_Some h p d : service_at h p = Some d → h !! p = Some d ∧ ∃ methods mixins, df_body d = ServiceDef methods mixins.
Proof.
  unfold service_at. destruct (h !! p) as [d'|]; cbn [mbind option_bind]; [|done]. destruct (df_body d') eqn:E; try done. intros [= <-]. split; [done|eauto].
Qed.

(** What an answer of the mixins tells about each of them. *)
Lemma has_in_mixins_inv h has mixins b :
  has_in_mixins h has mixins = Some b →
  if b then ∃ name q d, TDefined name (Some q) ∈ mixins ∧ service_at h q = Some d ∧ has d = Some true
  else ∀ name q d, TDefined name (Some q) ∈ mixins → service_at h q = Some d → has d = Some false.
Proof.
  induction mixins as [|t mixins IH]; cbn [has_in_mixins]; [intros [= <-] ? ? ? ?%not_elem_of_nil; done|].
  assert (Hskip : (∀ name q, t = TDefined name (Some q) → service_at h q = None) → has_in_mixins h has mixins = Some b →
    if b then ∃ name q d, TDefined name (Some q) ∈ t :: mixins ∧ service_at h q = Some d ∧ has d = Some true
    else ∀ name q d, TDefined name (Some q) ∈ t :: mixins → service_at h q = Some d → has d = Some false).
  { intros Hno E. specialize (IH E). destruct b.
    - destruct IH as (name&q&d&Hq&H). exists name, q, d. split; [set_solver|done].
    - intros name q d [Hq|Hq]%elem_of_cons Hd; [|by eapply IH]. symmetry in Hq. apply Hno in Hq. congruence. }
  destruct t as [|kind|e|e size|k w|name [q|]]; cbn [mixin_of mbind option_bind]; try (apply Hskip; congruence).
  destruct (h !! q) as [d|] eqn:Ed; cbn [mbind option_bind]; [|done]. destruct (df_body d) as [| | | | |methods sub| |] eqn:Eb;
    try (apply Hskip; intros name' q' [= _ <-]; unfold service_at; rewrite Ed; cbn; by rewrite Eb).
  assert (Hd : service_at h q = Some d) by (unfold service_at; rewrite Ed; cbn; by rewrite Eb).
  destruct (has d) as [[]|] eqn:Eh; cbn [mbind option_bind]; [| |done].
  - intros [= <-]. exists name, q, d. split; [set_solver|done].
  - intros E. specialize (IH E). destruct b.
    + destruct IH as (name'&q'&d'&Hq&H). exists name', q', d'. split; [set_solver|done].
    + intros name' q' d' [[= _ ->]|Hq]%elem_of_cons Hd'; [congruence|by eapply IH].
Qed.

(** A method that is found is there. *)
Lemma has_method_sound h name : ∀ fuel p d,
  service_at h p = Some d → bebop__validate_service_has_method h fuel d name = Some true → ∃ q, rtc (mixes h) p q ∧ has_method h q name.
Proof.
  induction fuel as [|fuel IH]; intros p d Hp E; [done|]. cbn [bebop__validate_service_has_method] in E.
  pose proof (find_method_spec (methods_of d) name 0) as Hf. destruct (find_method (methods_of d) name 0); [exists p; split; [done|by exists d]|].
  apply has_in_mixins_inv in E as (name'&q&dq&Hq&Hdq&E). destruct (IH q dq Hdq E) as (q'&Hr&Hm). exists q'. split; [|done].
  eapply rtc_l; [|exact Hr]. exists d, name'. split_and!; [done|done|by exists dq].
Qed.

(** A search that ends without the method has ended on every mixin, one step earlier. *)
Lemma has_method_mixes h fuel name p d q dq b :
  service_at h p = Some d → bebop__validate_service_has_method h (S fuel) d name = Some b →
  (∀ q', rtc (mixes h) p q' → ¬ has_method h q' name) → mixes h p q → service_at h q = Some dq →
  bebop__validate_service_has_method h fuel dq name = Some false.
Proof.
  intros Hp E Hno (d'&name'&Hd'&Hq&Hs) Hdq. assert (d' = d) as -> by congruence.
  destruct b. { destruct (has_method_sound h name _ p d Hp E) as (q'&Hr&Hm). by destruct (Hno q' Hr). }
  cbn [bebop__validate_service_has_method] in E. destruct (find_method (methods_of d) name 0); [done|]. apply has_in_mixins_inv in E. by eapply E.
Qed.

(** On a cycle of mixins the search of a name that is not there does not end. *)
Lemma has_method_diverges_from h name : ∀ fuel p d,
  service_at h p = Some d → (∃ q, rtc (mixes h) p q ∧ tc (mixes h) q q) → (∀ q, rtc (mixes h) p q → ¬ has_method h q name) →
  bebop__validate_service_has_method h fuel d name = None.
Proof.
  induction fuel as [|fuel IH]; intros p d Hp (q&Hr&Hc) Hno; [done|].
  destruct (bebop__validate_service_has_method h (S fuel) d name) as [b|] eqn:E; [|done]. exfalso.
  assert (Hstep : ∃ p', mixes h p p' ∧ ∃ q, rtc (mixes h) p' q ∧ tc (mixes h) q q).
  { apply rtc_inv in Hr as [->|(p'&Hp'&Hr)]; [|exists p'; split; [done|by exists q]].
    inversion Hc as [? ? Hqq|? p' ? Hp' Ht]; subst.
    - exists q. split; [done|]. by exists q.
    - exists p'. split; [done|]. exists q. split; [by apply tc_rtc|done]. }
  destruct Hstep as (p'&Hp'&Hcyc). assert (Hs : is_Some (service_at h p')) by (by destruct Hp' as (?&?&_&_&?)). destruct Hs as (d'&Hd').
  pose proof (has_method_mixes h fuel name p d p' d' b Hp E Hno Hp' Hd') as E'.
  rewrite (IH p' d' Hd' Hcyc) in E'; [done|]. intros q' Hq'. apply Hno. by eapply rtc_l.
Qed.

Section Correct.
Context (h : heap).
Hypothesis Hptrs : ∀ p d, service_at h p = Some d → service_ptrs_ok h d.

(** Asking the mixins, when each one answers. *)
Lemma has_in_mixins_correct has (P : def_ptr → Prop) mixins :
  Forall (ptr_ok h) mixins →
  (∀ name q d, TDefined name (Some q) ∈ mixins → service_at h q = Some d → ∃ b, has d = Some b ∧ (b = true ↔ P q)) →
  ∃ b, has_in_mixins h has mixins = Some b ∧ (b = true ↔ ∃ name q, TDefined name (Some q) ∈ mixins ∧ is_Some (service_at h q) ∧ P q).
Proof.
  induction mixins as [|t mixins IH]; intros Hok Hhas; cbn [has_in_mixins].
  { exists false. split; [done|]. split; [done|]. intros (?&?&?%not_elem_of_nil&_). done. }
  apply Forall_cons in Hok as (Ht&Hok). destruct IH as (b&E&Hb); [done|intros; by eapply Hhas; [apply elem_of_cons; right|]|].
  assert (Hskip : (∀ name q, t = TDefined name (Some q) → service_at h q = None) →
    ∃ b0, has_in_mixins h has mixins = Some b0 ∧
      (b0 = true ↔ ∃ name q, TDefined name (Some q) ∈ t :: mixins ∧ is_Some (service_at h q) ∧ P q)).
  { intros Hno. exists b. split; [done|]. rewrite Hb. split.
    - intros (name&q&Hq&H). exists name, q. split; [set_solver|done].
    - intros (name&q&[Hq|Hq]%elem_of_cons&(d&Hd)&H); [|by exists name, q; split_and!; [|by exists d|]]. symmetry in Hq. apply Hno in Hq. congruence. }
  destruct t as [|kind|e|e size|k w|name [q|]]; cbn [mixin_of mbind option_bind]; try (apply Hskip; congruence).
  destruct Ht as (d&Ed). rewrite Ed. cbn [mbind option_bind]. destruct (df_body d) as [| | | | |methods sub| |] eqn:Eb;
    try (apply Hskip; intros name' q' [= _ <-]; unfold service_at; rewrite Ed; cbn; by rewrite Eb).
  assert (Hd : service_at h q = Some d) by (unfold service_at; rewrite Ed; cbn; by rewrite Eb).
  destruct (Hhas name q d) as (b0&E0&Hb0); [set_solver|done|]. rewrite E0. cbn [mbind option_bind]. destruct b0.
  - exists true. split; [done|]. split; [|done]. intros _. exists name, q. split_and!; [set_solver|by exists d|by apply Hb0].
  - exists b. split; [done|]. rewrite Hb. split.
    + intros (name'&q'&Hq&H). exists name', q'. split; [set_solver|done].
    + intros (name'&q'&[[= _ ->]|Hq]%elem_of_cons&Hs&H); [|by exists name', q']. apply Hb0 in H. done.
Qed.

(** With mixins that do not lead back, the search ends with the right answer. *)
Lemma has_method_correct depth fuel name : mixin_depth h depth → ∀ p d,
  service_at h p = Some d → (depth p < fuel)%nat →
  ∃ b, bebop__validate_service_has_method h fuel d name = Some b ∧ (b = true ↔ ∃ q, rtc (mixes h) p q ∧ has_method h q name).
Proof.
  intros Hdepth. induction fuel as [|fuel IH]; intros p d Hp Hfuel; [lia|]. cbn [bebop__validate_service_has_method].
  pose proof (find_method_spec (methods_of d) name 0) as Hf. destruct (find_method (methods_of d) name 0) as [i|].
  { exists true. split; [done|]. split; [|done]. intros _. exists p. split; [done|]. by exists d. }
  destruct (has_in_mixins_correct (λ mixin, bebop__validate_service_has_method h fuel mixin name)
    (λ q, ∃ q', rtc (mixes h) q q' ∧ has_method h q' name) (mixins_of d)) as (b&E&Hb).
  { by apply (Hptrs p d). }
  { intros name' q dq Hq Hdq. apply IH; [done|]. assert (Hpq : mixes h p q) by (exists d, name'; split_and!; [done|done|by exists dq]). apply Hdepth in Hpq. lia. }
  exists b. split; [done|]. rewrite Hb. split.
  - intros (name'&q&Hq&Hs&q'&Hr&Hm). exists q'. split; [|done]. eapply rtc_l; [|exact Hr]. by exists d, name'.
  - intros (q'&Hr&Hm). apply rtc_inv in Hr as [->|(q&(d'&name'&Hd'&Hq&Hs)&Hr)].
    + destruct Hm as (d'&Hd'&Hin). congruence.
    + assert (d' = d) as -> by congruence. exists name', q. split_and!; [done|done|by exists q'].
Qed.

End Correct.

(** ** The reports of a service *)

(** A name that a service has, in itself or through what it mixes in. *)
Definition provides (h : heap) (q : def_ptr) (name : Z) : Prop := ∃ q', rtc (mixes h) q q' ∧ has_method h q' name.

(** A type that was resolved leads to a struct, a message or a union. *)
Definition record_type (h : heap) (t : bebop_type_t) : Prop :=
  ∀ name q d, t = TDefined name (Some q) → h !! q = Some d → match df_body d with StructDef _ _ _ | MessageDef _ | UnionDef _ => True | _ => False end.

Record service_ok (h : heap) (d : bebop_def_t) : Prop := {
  sv_count : zlen (methods_of d) ≤ 255;
  sv_mixins : ∀ name q, TDefined name (Some q) ∈ mixins_of d → is_Some (service_at h q);
  sv_own : ∀ name q m, TDefined name (Some q) ∈ mixins_of d → has_method h q m → m ∉ map me_name (methods_of d);
  sv_others : ∀ i j ni nj qi qj m, mixins_of d !! i = Some (TDefined ni (Some qi)) → mixins_of d !! j = Some (TDefined nj (Some qj)) → (i < j)%nat →
    has_method h qi m → provides h qj m → False;
  sv_types : ∀ m, m ∈ methods_of d → record_type h (me_request_type m) ∧ record_type h (me_response_type m)
}.

Section Reports.
Context (h : heap) (depth : def_ptr → nat) (fuel : nat).
Hypothesis Hptrs : ∀ p d, service_at h p = Some d → service_ptrs_ok h d.
Hypothesis Hdepth : mixin_depth h depth.
Hypothesis Hfuel : ∀ p, is_Some (service_at h p) → (depth p < fuel)%nat.

(** What a mixin was resolved to. *)
Lemma mixin_cases t : ptr_ok h t →
  (mixin_of h t = Some None ∧ ∀ name q, t ≠ TDefined name (Some q)) ∨
  ∃ name q d, t = TDefined name (Some q) ∧ h !! q = Some d ∧ mixin_of h t = Some (Some (q, d)).
Proof.
  destruct t as [|kind|e|e size|k w|name [q|]]; cbn; intros Ht; try (left; by split). right. destruct Ht as (d&Ed). exists name, q, d. by rewrite Ed.
Qed.

Lemma check_other_mixins_correct i j name others : ∀ m,
  Forall (ptr_ok h) others →
  ∃ r, check_other_mixins h fuel i j name m others = Some r ∧
    (r = [] ↔ ∀ name' q, TDefined name' (Some q) ∈ others → ¬ provides h q name).
Proof.
  induction others as [|t others IH]; intros m Hok; cbn [check_other_mixins].
  { exists []. split; [done|]. split; [|done]. intros _ ? ? ?%not_elem_of_nil. done. }
  apply Forall_cons in Hok as (Ht&Hok). destruct (IH (S m) Hok) as (r&E&Hr). rewrite E.
  assert (Hskip : (∀ name' q, t = TDefined name' (Some q) → ¬ provides h q name) →
    r = [] ↔ ∀ name' q, TDefined name' (Some q) ∈ t :: others → ¬ provides h q name).
  { intros Hno. rewrite Hr. split; [|set_solver]. intros H name' q [Hq|Hq]%elem_of_cons; [by eapply Hno|by eapply H]. }
  destruct (mixin_cases t Ht) as [(Em&Hno)|(name1&q&d&->&Ed&Em)]; rewrite Em; cbn [mbind option_bind].
  { exists r. split; [done|]. apply Hskip. intros name' q ->. by destruct (Hno name' q). }
  destruct (service_at h q) as [d'|] eqn:Hs.
  - pose proof (service_at_Some _ _ _ Hs) as (Ed'&methods&sub&Eb). assert (d = d') as -> by congruence. rewrite Eb.
    destruct (has_method_correct h Hptrs depth fuel name Hdepth q d' Hs) as (b&Eh&Hb); [apply Hfuel; by exists d'|]. rewrite Eh. cbn [mbind option_bind].
    exists ((if b then [ConflictMixin i j m] else []) ++ r). split; [done|]. destruct b.
    + split; [done|]. intros H. destruct (H name1 q); [set_solver|]. by apply Hb.
    + cbn. rewrite Hskip; [done|]. intros name' q' [= _ <-] Hp. apply Hb in Hp. done.
  - exists r. assert (Hnp : ¬ provides h q name).
    { intros (q'&Hq'&Hm). apply rtc_inv in Hq' as [->|(q2&(d2&n2&Hd2&_)&_)]; [|congruence]. destruct Hm as (d2&Hd2&_). congruence. }
    split; [|apply Hskip; by intros name' q' [= _ <-]].
    destruct (df_body d) as [| | | | |methods sub| |] eqn:Eb; try done. unfold service_at in Hs. rewrite Ed in Hs. cbn in Hs. by rewrite Eb in Hs.
Qed.

Lemma check_mixin_methods_correct own i others methods : ∀ j,
  Forall (ptr_ok h) others →
  ∃ r, check_mixin_methods h fuel own i j methods others = Some r ∧
    (r = [] ↔ ∀ m, m ∈ map me_name methods → m ∉ map me_name own ∧ ∀ name' q, TDefined name' (Some q) ∈ others → ¬ provides h q m).
Proof.
  induction methods as [|m methods IH]; intros j Hok; cbn [check_mixin_methods map].
  { exists []. split; [done|]. split; [|done]. intros _ ? ?%not_elem_of_nil. done. }
  destruct (check_other_mixins_correct i j (me_name m) others (S i) Hok) as (r1&E1&Hr1). destruct (IH (S j) Hok) as (r2&E2&Hr2).
  rewrite E1, E2. cbn [mbind option_bind]. eexists. split; [reflexivity|]. pose proof (find_method_spec own (me_name m) 0) as Hf.
  destruct (find_method own (me_name m) 0) as [k|]; cbn [app].
  - split; [done|]. intros H. destruct (H (me_name m)); [set_solver|done].
  - split.
    + intros [-> ->]%app_eq_nil m' [->|Hm']%elem_of_cons; [split; [done|by apply Hr1]|by apply Hr2].
    + intros H. rewrite (proj2 Hr1), (proj2 Hr2); [done| |]; [intros m' Hm'; apply H; set_solver|apply H; set_solver].
Qed.

Lemma check_mixins_correct own mixins : ∀ i,
  Forall (ptr_ok h) mixins →
  ∃ r, check_mixins h fuel own i mixins = Some r ∧
    (r = [] ↔ (∀ name q, TDefined name (Some q) ∈ mixins → is_Some (service_at h q) ∧ ∀ m, has_method h q m → m ∉ map me_name own) ∧
       ∀ a b na nb qa qb m, mixins !! a = Some (TDefined na (Some qa)) → mixins !! b = Some (TDefined nb (Some qb)) → (a < b)%nat →
         has_method h qa m → provides h qb m → False).
Proof.
  induction mixins as [|t mixins IH]; intros i Hok; cbn [check_mixins].
  { exists []. split; [done|]. split; [|done]. intros _. split; [intros ? ? ?%not_elem_of_nil; done|]. intros a b ? ? ? ? ? E. by rewrite lookup_nil in E. }
  apply Forall_cons in Hok as (Ht&Hok). destruct (IH (S i) Hok) as (r&E&Hr). rewrite E.
  set (Good := λ mixins : list bebop_type_t, (∀ name q, TDefined name (Some q) ∈ mixins → is_Some (service_at h q) ∧ ∀ m, has_method h q m → m ∉ map me_name own) ∧
       ∀ a b na nb qa qb m, mixins !! a = Some (TDefined na (Some qa)) → mixins !! b = Some (TDefined nb (Some qb)) → (a < b)%nat →
         has_method h qa m → provides h qb m → False).
  change (r = [] ↔ Good mixins) in Hr.
  match goal with |- ∃ x, ?e = Some x ∧ _ => change (∃ x, e = Some x ∧ (x = [] ↔ Good (t :: mixins))) end.
  assert (Hcons : ∀ P : Prop, (∀ name q, t = TDefined name (Some q) →
      P ↔ (is_Some (service_at h q) ∧ ∀ m, has_method h q m → m ∉ map me_name own ∧ ∀ name' q', TDefined name' (Some q') ∈ mixins → ¬ provides h q' m)) →
    ((∀ name q, t ≠ TDefined name (Some q)) → P) → (P ∧ Good mixins ↔ Good (t :: mixins))).
  { intros P HP Hno. unfold Good. split.
    - intros (Hp&H1&H2). split.
      + intros name q [Hq|Hq]%elem_of_cons; [|by eapply H1]. symmetry in Hq. apply (HP _ _ Hq) in Hp as (Hs&Hm). split; [done|]. intros m Hm'. by apply Hm.
      + intros [|a] [|b] na nb qa qb m Ea Eb Hab Ha Hb; cbn in Ea, Eb; [lia| |lia|eapply H2; [exact Ea|exact Eb|lia|exact Ha|exact Hb]].
        simplify_eq. apply (HP na qa eq_refl) in Hp as (_&Hm). destruct (Hm m Ha) as (_&Hx). eapply Hx; [|exact Hb]. by eapply list_elem_of_lookup_2.
    - intros (H1&H2). split; [|split].
      + destruct t as [|kind|e|e size|k w|name [q|]]; try (by apply Hno). apply (HP name q eq_refl). destruct (H1 name q) as (Hs&Hm); [set_solver|].
        split; [done|]. intros m Hm'. split; [by apply Hm|]. intros name' q' (b&Eb)%list_elem_of_lookup Hp. by apply (H2 0%nat (S b) name name' q q' m eq_refl Eb ltac:(lia) Hm').
      + intros name q Hq. apply (H1 name). set_solver.
      + intros a b na nb qa qb m Ea Eb Hab. apply (H2 (S a) (S b) na nb qa qb m Ea Eb). lia. }
  destruct (mixin_cases t Ht) as [(Em&Hno)|(name1&q&d&->&Ed&Em)]; rewrite Em; cbn [mbind option_bind].
  { exists r. split; [done|]. rewrite Hr, <- (Hcons True); [naive_solver| |done]. intros name q ->. by destruct (Hno name q). }
  destruct (service_at h q) as [d'|] eqn:Hs.
  - pose proof (service_at_Some _ _ _ Hs) as (Ed'&methods&sub&Eb). assert (d = d') as -> by congruence. rewrite Eb.
    destruct (check_mixin_methods_correct own i mixins methods 0 Hok) as (r1&E1&Hr1). rewrite E1. cbn [mbind option_bind]. exists (r1 ++ r). split; [done|].
    assert (Hhas : ∀ m, has_method h q m ↔ m ∈ map me_name methods).
    { intros m. unfold has_method. rewrite Hs. assert (Em' : methods_of d' = methods) by (unfold methods_of; by rewrite Eb). rewrite <- Em'. split; [intros (x&Hx&?); congruence|by exists d']. }
    rewrite <- (Hcons (r1 = [])); [rewrite <- Hr; split; [by intros [-> ->]%app_eq_nil|by intros (->&->)]| |].
    + intros name' q' [= _ <-]. rewrite Hr1. split; [intros H; split; [by exists d'|]; intros m Hm; apply H; by apply Hhas|intros (_&H) m Hm; apply H; by apply Hhas].
    + intros Hno. by destruct (Hno name1 q).
  - assert (Hbody : match df_body d with ServiceDef methods _ => check_mixin_methods h fuel own i 0 methods mixins | _ => Some [MixinNotService i] end = Some [MixinNotService i]).
    { destruct (df_body d) as [| | | | |methods sub| |] eqn:Eb; try done. unfold service_at in Hs. rewrite Ed in Hs. cbn in Hs. by rewrite Eb in Hs. }
    rewrite Hbody. cbn [mbind option_bind]. eexists. split; [reflexivity|]. rewrite <- (Hcons False); [cbn; naive_solver| |].
    + intros name' q' [= _ <-]. rewrite Hs. split; [done|]. intros ((?&?)&_). done.
    + intros Hno. by destruct (Hno name1 q).
Qed.
End Reports.

(** ** What the checks find *)

Lemma not_record_correct h t : ptr_ok h t → ∃ b, not_record h t = Some b ∧ (b = false ↔ record_type h t).
Proof.
  intros Ht. unfold not_record, record_type. destruct (mixin_cases h t Ht) as [(Em&Hno)|(name&q&d&->&Ed&Em)]; rewrite Em; cbn [mbind option_bind].
  - exists false. split; [done|]. split; [|done]. intros _ name q d ->. by destruct (Hno name q).
  - eexists. split; [reflexivity|]. split.
    + intros Hb name' q' d' [= _ <-] Ed'. assert (d' = d) as -> by congruence. by destruct (df_body d).
    + intros H. specialize (H name q d eq_refl Ed). by destruct (df_body d).
Qed.

Lemma check_methods_correct h methods : ∀ k,
  Forall (λ m, ptr_ok h (me_request_type m) ∧ ptr_ok h (me_response_type m)) methods →
  ∃ r, check_methods h k methods = Some r ∧
    (r = [] ↔ ∀ m, m ∈ methods → record_type h (me_request_type m) ∧ record_type h (me_response_type m)).
Proof.
  induction methods as [|m methods IH]; intros k Hok; cbn [check_methods].
  { exists []. split; [done|]. split; [|done]. intros _ ? ?%not_elem_of_nil. done. }
  apply Forall_cons in Hok as ((Hq&Hs)&Hok). destruct (IH (S k) Hok) as (r&E&Hr).
  destruct (not_record_correct h _ Hq) as (b1&E1&H1), (not_record_correct h _ Hs) as (b2&E2&H2). rewrite E1. cbn [mbind option_bind]. rewrite E2. cbn [mbind option_bind].
  rewrite E. cbn [mbind option_bind]. eexists. split; [reflexivity|]. destruct b1; cbn [app]; [split; [done|]; intros H; destruct (H m) as (Ha&_); [set_solver|by apply H1 in Ha]|].
  destruct b2; cbn [app]; [split; [done|]; intros H; destruct (H m) as (_&Ha); [set_solver|by apply H2 in Ha]|]. rewrite Hr. split.
  - intros H m' [->|Hm']%elem_of_cons; [split; [by apply H1|by apply H2]|by apply H].
  - intros H m' Hm'. apply H. set_solver.
Qed.

(** C26: services. When no mixin leads back to a service it was mixed into, the checks end; they
    report nothing exactly when the service has at most 255 methods, every mixin that resolution
    led to a definition is a service, no method declared by a mixin has the name of an own one
    or of one that a mixin behind it provides, itself or through mixins of its own, and every
    request and response type that resolution led to a definition leads to a struct, a message or
    a union. Types that lead to no definition are not looked at here: resolution reports names
    that lead nowhere, and [bebop_sema_check_service_type] the types that are no names. The
    condition on names is weaker than the one of docs/GRAMMAR.md, unique names across all composed
    services: what an earlier mixin has from mixins of its own is compared with nothing behind it,
    nor are the mixins of mixins with the own methods ([collision_missed]). *)
Theorem service_checks_exact h depth fuel p d :
  (∀ p d, service_at h p = Some d → service_ptrs_ok h d) → mixin_depth h depth → (∀ p, is_Some (service_at h p) → (depth p < fuel)%nat) →
  service_at h p = Some d →
  ∃ reports, bebop__validate_service h fuel d = Some reports ∧ (reports = [] ↔ service_ok h d).
Proof.
  intros Hptrs Hdepth Hfuel Hp. destruct (Hptrs p d Hp) as (Hm&Ht).
  destruct (check_mixins_correct h depth fuel Hptrs Hdepth Hfuel (methods_of d) (mixins_of d) 0 Hm) as (r1&E1&H1).
  destruct (check_methods_correct h (methods_of d) 0 Ht) as (r2&E2&H2). unfold bebop__validate_service, BEBOP_MAX_SERVICE_METHODS.
  rewrite E1. cbn [mbind option_bind]. rewrite E2. cbn [mbind option_bind]. eexists. split; [reflexivity|].
  destruct (Z.ltb_spec 255 (zlen (methods_of d))) as [Hn|Hn]; cbn [app].
  - split; [done|]. intros []. lia.
  - split.
    + intros [Hr1 Hr2]%app_eq_nil. destruct (proj1 H1 Hr1) as (Ha&Hb). pose proof (proj1 H2 Hr2) as Hc. split; [done|intros name q Hq; by apply (Ha name)|intros name q m Hq; by apply (Ha name)|exact Hb|done].
    + intros [_ Hs Ho Hx Hy]. rewrite (proj2 H1), (proj2 H2); [done|done|]. split; [|exact Hx]. intros name q Hq. split; [by eapply Hs|]. intros m. by eapply Ho.
Qed.

(** Mixins in a circle. The search of a method that a service does not provide does not
    end when one of the services it leads to mixes itself in through others: whatever the
    fuel, it runs out. *)
Theorem has_method_diverges h name fuel p d q :
  service_at h p = Some d → rtc (mixes h) p q → tc (mixes h) q q → ¬ provides h p name →
  bebop__validate_service_has_method h fuel d name = None.
Proof. intros Hp Hr Hc Hno. apply (has_method_diverges_from h name fuel p d Hp); [by exists q|]. intros q' Hq' Hm. apply Hno. by exists q'. Qed.

(** ** Concrete services *)

Module Examples.
Definition service (methods : list Z) (mixins : list def_ptr) : bebop_def_t :=
  mkDef 1 1 no_span no_span 0 [] None None BEBOP_VIS_DEFAULT [] [] 0
    (ServiceDef (map plain_method methods) (map (λ p, TDefined 0 (Some p)) mixins)).

(** [A with X, B], [B with C], [C with B], [X { 7 }]: the mixins behind [X] are searched for
    its method, and [B] and [C] lead to each other. *)
Definition circle : heap := [service [] [3; 1]%nat; service [] [2%nat]; service [] [1%nat]; service [7] []].
Lemma circle_reach p q : rtc (mixes circle) p q → (p = 1 ∨ p = 2)%nat → (q = 1 ∨ q = 2)%nat.
Proof.
  assert (Hq : ∀ p q, mixes circle p q → (p = 0 ∧ (q = 3 ∨ q = 1) ∨ p = 1 ∧ q = 2 ∨ p = 2 ∧ q = 1)%nat).
  { intros [|[|[|[|p']]]] q' (d&name&Hd&Hq&_); cbn in Hd; simplify_eq; unfold mixins_of in Hq; cbn in Hq;
      repeat (apply elem_of_cons in Hq as [[= _ ->]|Hq]; [lia|]); by apply not_elem_of_nil in Hq. }
  induction 1 as [|p' q' r Hpq Hqr IH]; [done|]. intros Hp. apply IH. apply Hq in Hpq. lia.
Qed.
Lemma circle_diverges fuel : option_bind _ _ (bebop__validate_service circle fuel) (service_at circle 0%nat) = None.
Proof.
  assert (Hd : bebop__validate_service_has_method circle fuel (service [] [2%nat]) 7 = None).
  { assert (H12 : mixes circle 1 2) by (eexists _, 0; split_and!; [reflexivity|by left|by eexists]).
    assert (H21 : mixes circle 2 1) by (eexists _, 0; split_and!; [reflexivity|by left|by eexists]).
    apply (has_method_diverges circle 7 fuel 1 _ 1); [done|done|by eapply tc_l; [exact H12|apply tc_once]|].
    intros (q&Hq'&d&Hd&Hin). destruct (circle_reach _ _ Hq') as [->| ->]; [by left|..]; cbn in Hd; simplify_eq; by apply not_elem_of_nil in Hin. }
  cbn [service_at circle lookup list_lookup mbind option_bind]. unfold bebop__validate_service. cbn. rewrite Hd. done.
Qed.

(** [A with X, Y] and [A with Y, X] for [X { 7 }], [Y with Z], [Z { 7 }]: the collision is
    found only when the mixin that has the method itself is the first one. *)
Definition two_orders (mixins : list def_ptr) : heap := [service [] mixins; service [7] []; service [] [3%nat]; service [7] []].
Example collision_found : bebop__validate_service (two_orders [1; 2]%nat) 4 (service [] [1; 2]%nat) = Some [ConflictMixin 0 0 1].
Proof. vm_compute. reflexivity. Qed.
Example collision_missed : bebop__validate_service (two_orders [2; 1]%nat) 4 (service [] [2; 1]%nat) = Some [].
Proof. vm_compute. reflexivity. Qed.

Lemma two_orders_mixes p q : mixes (two_orders [1; 2]%nat) p q → (p = 0 ∧ (q = 1 ∨ q = 2) ∨ p = 2 ∧ q = 3)%nat.
Proof.
  intros (d&name&Hd&Hq&_). destruct p as [|[|[|[|p]]]]; cbn in Hd; simplify_eq; unfold mixins_of in Hq; cbn in Hq;
    repeat (apply elem_of_cons in Hq as [[= _ ->]|Hq]; [lia|]); by apply not_elem_of_nil in Hq.
Qed.
Lemma service_checks_exact_witness :
  ∃ reports, bebop__validate_service (two_orders [1; 2]%nat) 4 (service [] [1; 2]%nat) = Some reports ∧
    (reports = [] ↔ service_ok (two_orders [1; 2]%nat) (service [] [1; 2]%nat)).
Proof.
  apply (service_checks_exact (two_orders [1; 2]%nat) (λ p, match p with 0 => 2 | 2 => 1 | _ => 0 end)%nat 4 0).
  - intros p d Hd. destruct p as [|[|[|[|p]]]]; cbn in Hd; simplify_eq; unfold service_ptrs_ok, mixins_of, methods_of; cbn;
      (split; repeat (apply Forall_cons; split; [first [by eexists | by split]|]); by apply Forall_nil).
  - intros p q [(->&[->| ->])|(->&->)]%two_orders_mixes; lia.
  - intros [|[|[|p]]] _; lia.
  - reflexivity.
Defined.

Lemma has_method_diverges_witness : bebop__validate_service_has_method circle 1000 (service [] [2%nat]) 7 = None.
Proof.
  assert (H12 : mixes circle 1 2) by (eexists _, 0; split_and!; [reflexivity|by left|by eexists]).
  assert (H21 : mixes circle 2 1) by (eexists _, 0; split_and!; [reflexivity|by left|by eexists]).
  apply (has_method_diverges circle 7 1000 1 _ 1); [done|done|by eapply tc_l; [exact H12|apply tc_once]|].
  intros (q&Hq'&d&Hd&Hin). destruct (circle_reach _ _ Hq') as [->| ->]; [by left|..]; cbn in Hd; simplify_eq; by apply not_elem_of_nil in Hin.
Defined.
End Examples.
