(* ===== verification/Imports.v ===== *)
(** The resolution of imports ([bebop/src/bebop_validate.c]): an import leads to a schema
    whose path is the one it was resolved to, or ends with it, or is an end of it. An index
    by the last parts of paths makes the search fast; without memory for it all schemas
    are searched.

    A path is its bytes, without the zero at the end. *)
From stdpp Require Import list sorting.
From S2P Require Import Prelude.
From S2P Require Import Scanner.
From S2P Require Import Schema.

(** ** Paths *)

Definition slash : Z := 47.

(** [strcmp] on unsigned bytes. *)
Fixpoint strcmp (a b : list Z) : comparison :=
  match a, b with
  | [], [] => Eq
  | [], _ :: _ => Lt
  | _ :: _, [] => Gt
  | x :: a, y :: b => match (x ?= y)%Z with Eq => strcmp a b | c => c end
  end.

Definition bebop__validate_paths_equal (a b : option (list Z)) : bool :=
  match a, b with
  | Some a, Some b =>
      match strcmp a b with
      | Eq => true
      | _ =>
          let la := length a in
          let lb := length b in
          if (la =? 0)%nat || (lb =? 0)%nat then false
          else
            let shorter := if (la <? lb)%nat then a else b in
            let longer := if (la <? lb)%nat then b else a in
            let ls := if (la <? lb)%nat then la else lb in
            let ll := if (la <? lb)%nat then lb else la in
            if (ls <? ll)%nat && bool_decide (longer !! (ll - ls - 1)%nat = Some slash) then
              match strcmp (drop (ll - ls) longer) shorter with Eq => true | _ => false end
            else false
      end
  | _, _ => false
  end.

Fixpoint path_base_loop (base p : list Z) : list Z :=
  match p with
  | [] => base
  | c :: p => path_base_loop (if c =? slash then p else base) p
  end.
Definition bebop__validate_path_base (path : list Z) : list Z := path_base_loop path path.

(** ** Schemas and their imports *)

Record bebop_import_t : Type := mkImport {
  im_path : Z; im_span : bebop_span_t; im_resolved_path : option (list Z); im_schema : option schema_ptr
}.
Record source_t : Type := mkSource { so_path : option (list Z); so_imports : list bebop_import_t }.

(** The result's array of schemas, with null pointers. *)
Abbreviation sources := (list (option source_t)).

Definition set_target (t : schema_ptr) (imp : bebop_import_t) : bebop_import_t := mkImport (im_path imp) (im_span imp) (im_resolved_path imp) (Some t).

Section Imports.
(** [qsort] with [bebop__schema_path_entry_cmp] *)
Context (qsort : list (list Z * schema_ptr) → list (list Z * schema_ptr)).

(** The entries of the index: the last part of the path of each schema that has one. *)
Fixpoint index_entries (s : nat) (schemas : sources) : list (list Z * schema_ptr) :=
  match schemas with
  | [] => []
  | Some (mkSource (Some path) _) :: schemas => (bebop__validate_path_base path, s) :: index_entries (S s) schemas
  | _ :: schemas => index_entries (S s) schemas
  end.

(** The first entry not below a key. Fuel: the number of entries. *)
Fixpoint lower_bound (fuel : nat) (index : list (list Z * schema_ptr)) (base : list Z) (lo hi : nat) : option nat :=
  if (lo <? hi)%nat then
    match fuel with
    | O => None
    | S fuel =>
        let mid := (lo + (hi - lo) / 2)%nat in
        e ← index !! mid;
        match strcmp e.1 base with
        | Lt => lower_bound fuel index base (S mid) hi
        | _ => lower_bound fuel index base lo mid
        end
    end
  else Some lo.

(** Whether schema [t] is one that schema [s] means by a path. *)
Definition is_target (schemas : sources) (s : schema_ptr) (path : list Z) (t : schema_ptr) : bool :=
  match schemas !! t with
  | Some (Some target) => negb (t =? s)%nat && bebop__validate_paths_equal (so_path target) (Some path)
  | _ => false
  end.

(** The entries of the same key from a place on. *)
Fixpoint scan_index (schemas : sources) (s : schema_ptr) (path base : list Z) (index : list (list Z * schema_ptr)) : option schema_ptr :=
  match index with
  | [] => None
  | (b, t) :: index =>
      match strcmp b base with
      | Eq => if is_target schemas s path t then Some t else scan_index schemas s path base index
      | _ => None
      end
  end.

(** All schemas. *)
Fixpoint scan_all (schemas : sources) (s : schema_ptr) (path : list Z) (ts : list schema_ptr) : option schema_ptr :=
  match ts with
  | [] => None
  | t :: ts => if is_target schemas s path t then Some t else scan_all schemas s path ts
  end.

Definition find_target (index : option (list (list Z * schema_ptr))) (schemas : sources) (s : schema_ptr) (path : list Z) : option (option schema_ptr) :=
  match index with
  | Some index =>
      let base := bebop__validate_path_base path in
      lo ← lower_bound (length index) index base 0 (length index);
      Some (scan_index schemas s path base (drop lo index))
  | None => Some (scan_all schemas s path (seq 0 (length schemas)))
  end.

Definition resolve_import (index : option (list (list Z * schema_ptr))) (schemas : sources) (s : schema_ptr) (imp : bebop_import_t) : option bebop_import_t :=
  match im_resolved_path imp with
  | None => Some imp
  | Some path => t ← find_target index schemas s path; Some (match t with Some t => set_target t imp | None => imp end)
  end.

Fixpoint resolve_sources (index : option (list (list Z * schema_ptr))) (all : sources) (s : nat) (schemas : sources) : option sources :=
  match schemas with
  | [] => Some []
  | None :: schemas => rest ← resolve_sources index all (S s) schemas; Some (None :: rest)
  | Some src :: schemas =>
      imports ← mapM (resolve_import index all s) (so_imports src);
      rest ← resolve_sources index all (S s) schemas;
      Some (Some (mkSource (so_path src) imports) :: rest)
  end.

(** With an index when there are schemas and the arena grants the array. *)
Definition bebop__validate_resolve_imports (granted : bool) (schemas : sources) : option sources :=
  let index := if (0 <? length schemas)%nat && granted then Some (qsort (index_entries 0 schemas)) else None in
  resolve_sources index schemas 0 schemas.

End Imports.

(** ** Comparison of strings *)

Lemma strcmp_refl a : strcmp a a = Eq.
Proof. induction a as [|x a IH]; [done|]. cbn. by rewrite Z.compare_refl. Qed.
Lemma strcmp_eq a b : strcmp a b = Eq ↔ a = b.
Proof.
  split; [|intros ->; apply strcmp_refl]. revert b. induction a as [|x a IH]; intros [|y b]; cbn; try done.
  destruct (Z.compare_spec x y) as [->| |]; try done. by intros ->%IH.
Qed.
Lemma strcmp_antisym a b : strcmp b a = CompOpp (strcmp a b).
Proof. revert b. induction a as [|x a IH]; intros [|y b]; cbn; try done. rewrite Z.compare_antisym. destruct (x ?= y)%Z; cbn; [apply IH|done|done]. Qed.
Lemma strcmp_lt_trans a b c : strcmp a b = Lt → strcmp b c = Lt → strcmp a c = Lt.
Proof.
  revert b c. induction a as [|x a IH]; intros [|y b] [|z c]; cbn; try done.
  destruct (Z.compare_spec x y), (Z.compare_spec y z), (Z.compare_spec x z); try done; try lia; subst. by apply IH.
Qed.

Definition not_above (e e' : list Z * schema_ptr) : Prop := strcmp e.1 e'.1 ≠ Gt.
Lemma not_above_lt e e' base : not_above e e' → strcmp e'.1 base = Lt → strcmp e.1 base = Lt.
Proof.
  unfold not_above. intros H1 H2. destruct (strcmp e.1 e'.1) eqn:E; [|by eapply strcmp_lt_trans|done]. apply strcmp_eq in E as ->. done.
Qed.

(** ** Ends of paths *)

(** One of the paths is the other one, or what is behind some slash in it. *)
Definition ends_with (longer shorter : list Z) : Prop := shorter ≠ [] ∧ ∃ front, longer = front ++ slash :: shorter.
Definition same_file (a b : list Z) : Prop := a = b ∨ ends_with a b ∨ ends_with b a.

Lemma ends_with_correct longer shorter :
  shorter ≠ [] → (length shorter < length longer)%nat →
  longer !! (length longer - length shorter - 1)%nat = Some slash ∧ drop (length longer - length shorter) longer = shorter ↔ ends_with longer shorter.
Proof.
  intros Hs Hlen. split.
  - intros (Hl&Hd). split; [done|]. exists (take (length longer - length shorter - 1) longer).
    rewrite <- (take_drop_middle _ _ _ Hl) at 1. f_equal. f_equal. transitivity (drop (length longer - length shorter) longer); [f_equal; lia|exact Hd].
  - intros (_&front&->). rewrite length_app in *. cbn [length] in *.
    replace (length front + S (length shorter) - length shorter - 1)%nat with (length front) by lia.
    replace (length front + S (length shorter) - length shorter)%nat with (S (length front)) by lia.
    split; [by apply list_lookup_middle|]. rewrite drop_app, drop_ge by lia. by replace (S (length front) - length front)%nat with 1%nat by lia.
Qed.

Lemma paths_equal_correct a b : bebop__validate_paths_equal (Some a) (Some b) = true ↔ same_file a b.
Proof.
  unfold same_file.
  assert (Hew : ∀ x y, ends_with x y → (length y < length x)%nat) by (intros x y (_&front&->); rewrite length_app; cbn; lia).
  assert (Hne : ∀ x y, ends_with x y → y ≠ []) by (by intros x y (?&_)).
  cbn [bebop__validate_paths_equal]. destruct (decide (a = b)) as [->|Hab]; [rewrite strcmp_refl; naive_solver|].
  assert (Hcase : ∀ r : bool, match strcmp a b with Eq => true | _ => r end = r) by (intros r; destruct (strcmp a b) eqn:E; [by apply strcmp_eq in E|done..]).
  rewrite Hcase. destruct (Nat.eqb_spec (length a) 0) as [Ea|Ea]; cbn [orb].
  { apply nil_length_inv in Ea as ->. split; [done|]. intros [?|[?%Hew|?%Hne]]; [done|cbn in *; lia|done]. }
  destruct (Nat.eqb_spec (length b) 0) as [Eb|Eb].
  { apply nil_length_inv in Eb as ->. split; [done|]. intros [?|[?%Hne|?%Hew]]; [done|done|cbn in *; lia]. }
  assert (Hmain : ∀ x y : list Z, y ≠ [] → (length y < length x)%nat →
    (if (length y <? length x)%nat && bool_decide (x !! (length x - length y - 1)%nat = Some slash)
     then match strcmp (drop (length x - length y) x) y with Eq => true | _ => false end else false) = true ↔ ends_with x y).
  { intros x y Hy Hlen. rewrite <- ends_with_correct by done. rewrite (proj2 (Nat.ltb_lt _ _) Hlen). cbn [andb]. case_bool_decide as Hs; [|naive_solver].
    rewrite <- strcmp_eq. destruct (strcmp _ y); naive_solver. }
  assert (a ≠ [] ∧ b ≠ []) as (Ha&Hb) by (split; intros ->; done).
  destruct (Nat.ltb_spec (length a) (length b)) as [Hlt|Hge].
  - rewrite Hmain by done. split; [naive_solver|]. intros [?|[?%Hew|?]]; [done|lia|done].
  - destruct (decide (length a = length b)) as [El|Hn].
    + rewrite El, Nat.ltb_irrefl. cbn. split; [done|]. intros [?|[?%Hew|?%Hew]]; [done|lia|lia].
    + rewrite Hmain by (done || lia). split; [naive_solver|]. intros [?|[?|?%Hew]]; [done|done|lia].
Qed.

(** ** The index *)

Lemma path_base_loop_slash front rest : ∀ base, path_base_loop base (front ++ slash :: rest) = path_base_loop rest rest.
Proof. induction front as [|c front IH]; intros base; cbn [path_base_loop app]; [done|apply IH]. Qed.
Lemma ends_with_base a b : ends_with a b → bebop__validate_path_base a = bebop__validate_path_base b.
Proof. intros (_&front&->). apply path_base_loop_slash. Qed.
Lemma same_file_base a b : same_file a b → bebop__validate_path_base a = bebop__validate_path_base b.
Proof. intros [->|[?%ends_with_base|?%ends_with_base]]; done. Qed.

Lemma elem_of_index schemas t base : ∀ s,
  (base, t) ∈ index_entries s schemas ↔ ∃ i path imports, t = (s + i)%nat ∧ schemas !! i = Some (Some (mkSource (Some path) imports)) ∧ base = bebop__validate_path_base path.
Proof.
  induction schemas as [|o schemas IH]; intros s; cbn [index_entries].
  { split; [by intros ?%not_elem_of_nil|]. by intros (i&path&imports&_&E&_). }
  assert (Hshift : (∃ i path imports, t = (S s + i)%nat ∧ schemas !! i = Some (Some (mkSource (Some path) imports)) ∧ base = bebop__validate_path_base path) ↔
    ∃ i path imports, t = (s + S i)%nat ∧ (o :: schemas) !! S i = Some (Some (mkSource (Some path) imports)) ∧ base = bebop__validate_path_base path).
  { split; intros (i&path&imports&->&E&Hb); exists i, path, imports; (split_and!; [lia|done|done]). }
  assert (Hskip : (∀ path imports, o ≠ Some (mkSource (Some path) imports)) → (base, t) ∈ index_entries (S s) schemas ↔
    ∃ i path imports, t = (s + i)%nat ∧ (o :: schemas) !! i = Some (Some (mkSource (Some path) imports)) ∧ base = bebop__validate_path_base path).
  { intros Hno. rewrite IH, Hshift. split; [intros (i&H); by exists (S i)|]. intros ([|i]&path&imports&Ht&E&Hb); [|by exists i, path, imports].
    cbn in E. simplify_eq. by destruct (Hno path imports). }
  destruct o as [[[path|] imports]|]; try (apply Hskip; congruence). rewrite elem_of_cons, IH, Hshift. split.
  - intros [[= -> ->]|(i&H)]; [|by exists (S i)]. exists 0%nat, path, imports. by rewrite Nat.add_0_r.
  - intros ([|i]&path'&imports'&->&E&->); [left; cbn in E; simplify_eq; f_equal; lia|right; by exists i, path', imports'].
Qed.

Lemma sorted_lookup (index : list (list Z * schema_ptr)) i j e e' :
  StronglySorted not_above index → (i < j)%nat → index !! i = Some e → index !! j = Some e' → not_above e e'.
Proof.
  intros Hs. revert i j. induction Hs as [|x l Hs IH Hx]; intros [|i] [|j] Hij Ei Ej; cbn in *; simplify_eq; try lia.
  - rewrite Forall_forall in Hx. apply Hx. by eapply list_elem_of_lookup_2.
  - apply (IH i j); [lia|done|done].
Qed.

Lemma lower_bound_correct index base fuel : ∀ lo hi,
  StronglySorted not_above index → (lo ≤ hi ≤ length index)%nat → (hi - lo ≤ fuel)%nat →
  (∀ i e, (i < lo)%nat → index !! i = Some e → strcmp e.1 base = Lt) → (∀ i e, (hi ≤ i)%nat → index !! i = Some e → strcmp e.1 base ≠ Lt) →
  ∃ r, lower_bound fuel index base lo hi = Some r ∧
    (∀ i e, (i < r)%nat → index !! i = Some e → strcmp e.1 base = Lt) ∧ (∀ i e, (r ≤ i)%nat → index !! i = Some e → strcmp e.1 base ≠ Lt).
Proof.
  induction fuel as [|fuel IH]; intros lo hi Hs Hr Hf Hlo Hhi; cbn [lower_bound]; destruct (Nat.ltb_spec lo hi) as [Hlt|Hge]; try lia;
    try (exists lo; split_and!; [done|done|by assert (lo = hi) as -> by lia]).
  set (mid := (lo + (hi - lo) / 2)%nat). assert (Hmid : (lo ≤ mid < hi)%nat) by (subst mid; pose proof (Nat.div_lt (hi - lo) 2); pose proof (Nat.Div0.div_le_mono 0 (hi - lo) 2); lia).
  destruct (lookup_lt_is_Some_2 index mid) as (e&Ee); [lia|]. rewrite Ee. cbn [mbind option_bind].
  assert (Hbelow : strcmp e.1 base = Lt → ∀ i e', (i < S mid)%nat → index !! i = Some e' → strcmp e'.1 base = Lt).
  { intros He i e' Hi Ei. destruct (decide (i = mid)) as [->|]; [congruence|]. apply (not_above_lt e' e); [|done]. apply (sorted_lookup index i mid); [done|lia|done|done]. }
  assert (Habove : strcmp e.1 base ≠ Lt → ∀ i e', (mid ≤ i)%nat → index !! i = Some e' → strcmp e'.1 base ≠ Lt).
  { intros He i e' Hi Ei H. apply He. destruct (decide (i = mid)) as [->|]; [congruence|]. apply (not_above_lt e e'); [|done]. apply (sorted_lookup index mid i); [done|lia|done|done]. }
  destruct (strcmp e.1 base) eqn:Ec.
  - apply IH; [done|lia|lia|done|by apply Habove].
  - apply IH; [done|lia|lia|by apply Hbelow|done].
  - apply IH; [done|lia|lia|done|by apply Habove].
Qed.

Lemma scan_index_correct schemas s path base index :
  StronglySorted not_above index → (∀ e, e ∈ index → strcmp e.1 base ≠ Lt) →
  match scan_index schemas s path base index with
  | Some t => is_target schemas s path t = true
  | None => ∀ t, (base, t) ∈ index → is_target schemas s path t = false
  end.
Proof.
  induction index as [|[b t] index IH]; intros Hs Hb; cbn [scan_index]; [by intros t ?%not_elem_of_nil|].
  apply StronglySorted_inv in Hs as (Hs&Hx). rewrite Forall_forall in Hx. destruct (strcmp b base) eqn:Ec.
  - apply strcmp_eq in Ec as ->. destruct (is_target schemas s path t) eqn:Et; [done|].
    specialize (IH Hs ltac:(intros e He; apply Hb; set_solver)). destruct (scan_index _ _ _ _ _); [done|]. intros t' [[= ->]|Ht]%elem_of_cons; [done|by apply IH].
  - destruct (Hb (b, t)); [set_solver|done].
  - intros t' [[= -> ->]|Ht]%elem_of_cons; [by rewrite strcmp_refl in Ec|]. specialize (Hx _ Ht). unfold not_above in Hx. cbn in Hx. by destruct Hx.
Qed.

Lemma scan_all_correct schemas s path ts :
  match scan_all schemas s path ts with
  | Some t => is_target schemas s path t = true
  | None => ∀ t, t ∈ ts → is_target schemas s path t = false
  end.
Proof.
  induction ts as [|t ts IH]; cbn [scan_all]; [by intros t ?%not_elem_of_nil|]. destruct (is_target schemas s path t) eqn:Et; [done|].
  destruct (scan_all _ _ _ ts); [done|]. intros t' [->|Ht]%elem_of_cons; [done|by apply IH].
Qed.

(** ** Imports *)

(** Schema [t] is one that schema [s] may mean by a path. *)
Definition candidate (schemas : sources) (s : schema_ptr) (path : list Z) (t : schema_ptr) : Prop :=
  ∃ target path', schemas !! t = Some (Some target) ∧ t ≠ s ∧ so_path target = Some path' ∧ same_file path' path.

Lemma is_target_candidate schemas s path t : is_target schemas s path t = true ↔ candidate schemas s path t.
Proof.
  unfold is_target, candidate. destruct (schemas !! t) as [[target|]|] eqn:E; [|naive_solver|naive_solver].
  rewrite andb_true_iff, negb_true_iff, Nat.eqb_neq. split.
  - intros (Hne&Hp). destruct (so_path target) as [path'|] eqn:Ep; [|done]. exists target, path'. split_and!; [done|done|done|].
    revert Hp. generalize (paths_equal_correct path' path). naive_solver.
  - intros (target'&path'&[= <-]&Hne&Ep&Hsame). split; [done|]. rewrite Ep. by apply paths_equal_correct.
Qed.

(** [bebop__validate_paths_equal] is true exactly when the paths are equal, or the shorter
    one is not empty and is what stands behind a slash at the end of the longer one. *)
Theorem paths_equal_exact a b : bebop__validate_paths_equal (Some a) (Some b) = true ↔ same_file a b.
Proof. apply paths_equal_correct. Qed.

(** An import after the pass: it leads to a schema it may mean, if there is one. *)
Definition import_resolved (schemas : sources) (s : schema_ptr) (imp imp' : bebop_import_t) : Prop :=
  match im_resolved_path imp with
  | None => imp' = imp
  | Some path => (∃ t, candidate schemas s path t ∧ imp' = set_target t imp) ∨ (∀ t, ¬ candidate schemas s path t) ∧ imp' = imp
  end.

Section Correct.
Context (qsort : list (list Z * schema_ptr) → list (list Z * schema_ptr)).
Hypothesis Hqsort : ∀ l, qsort l ≡ₚ l ∧ StronglySorted not_above (qsort l).

Lemma find_target_correct (indexed : bool) schemas s path :
  ∃ r, find_target (if indexed then Some (qsort (index_entries 0 schemas)) else None) schemas s path = Some r ∧
    match r with Some t => candidate schemas s path t | None => ∀ t, ¬ candidate schemas s path t end.
Proof.
  destruct indexed; unfold find_target.
  - set (index := qsort (index_entries 0 schemas)). destruct (Hqsort (index_entries 0 schemas)) as (Hp&Hs). fold index in Hp, Hs.
    set (base := bebop__validate_path_base path).
    destruct (lower_bound_correct index base (length index) 0 (length index) Hs) as (lo&E&Hlo&Hhi); [lia|lia|intros; lia|intros i e Hi Ei; apply lookup_lt_Some in Ei; lia|].
    rewrite E. cbn [mbind option_bind]. eexists. split; [reflexivity|].
    pose proof (scan_index_correct schemas s path base (drop lo index)) as H.
    assert (Hsd : StronglySorted not_above (drop lo index)).
    { rewrite <- (take_drop lo index) in Hs. clear -Hs. induction (take lo index) as [|x l IH]; [done|]. apply IH. by apply StronglySorted_inv in Hs as (?&_). }
    specialize (H Hsd). destruct (scan_index _ _ _ _ _) as [t|].
    + apply is_target_candidate, H. intros e (i&Ei)%list_elem_of_lookup. rewrite lookup_drop in Ei. eapply Hhi; [|exact Ei]. lia.
    + intros t Hc. pose proof Hc as (target&path'&Et&_&Ep&Hsame). apply is_target_candidate in Hc. rewrite H in Hc; [done| |].
      * intros e (i&Ei)%list_elem_of_lookup. rewrite lookup_drop in Ei. eapply Hhi; [|exact Ei]. lia.
      * assert (Hin : (base, t) ∈ index).
        { rewrite Hp. apply (elem_of_index schemas t base 0). destruct target as [path0 imports]. cbn in Ep. subst path0. exists t, path', imports.
          split_and!; [done|done|]. symmetry. by apply same_file_base. }
        apply list_elem_of_lookup in Hin as (i&Ei). apply list_elem_of_lookup. exists (i - lo)%nat. rewrite lookup_drop.
        destruct (decide (i < lo)%nat) as [Hi|Hi]; [|by replace (lo + (i - lo))%nat with i by lia].
        specialize (Hlo i _ Hi Ei). cbn in Hlo. by rewrite strcmp_refl in Hlo.
  - eexists. split; [reflexivity|]. pose proof (scan_all_correct schemas s path (seq 0 (length schemas))) as H.
    destruct (scan_all _ _ _ _) as [t|]; [by apply is_target_candidate|]. intros t Hc. pose proof Hc as (target&path'&Et&_).
    apply is_target_candidate in Hc. rewrite H in Hc; [done|]. apply elem_of_seq. apply lookup_lt_Some in Et. lia.
Qed.

Lemma resolve_sources_correct (indexed : bool) all schemas : ∀ s,
  ∃ schemas', resolve_sources (if indexed then Some (qsort (index_entries 0 all)) else None) all s schemas = Some schemas' ∧ length schemas' = length schemas ∧
    ∀ i, match schemas !! i with
         | Some (Some src) => ∃ imports, schemas' !! i = Some (Some (mkSource (so_path src) imports)) ∧ Forall2 (import_resolved all (s + i)) (so_imports src) imports
         | o => schemas' !! i = o
         end.
Proof.
  induction schemas as [|o schemas IH]; intros s; cbn [resolve_sources]; [by exists []|]. destruct (IH (S s)) as (rest&E&Hl&H).
  assert (Hrest : ∀ x i, match schemas !! i with
     | Some (Some src) => ∃ imports, (x :: rest) !! S i = Some (Some (mkSource (so_path src) imports)) ∧ Forall2 (import_resolved all (s + S i)) (so_imports src) imports
     | o => (x :: rest) !! S i = o end).
  { intros x i. specialize (H i). cbn. by replace (s + S i)%nat with (S s + i)%nat by lia. }
  destruct o as [[path imports]|].
  - assert (Himp : ∃ imports', mapM (resolve_import (if indexed then Some (qsort (index_entries 0 all)) else None) all s) imports = Some imports' ∧
      Forall2 (import_resolved all s) imports imports').
    { clear -Hqsort. induction imports as [|imp imports IH]; [by exists []|]. destruct IH as (imports'&E'&HF). cbn. rewrite E'.
      unfold resolve_import at 1. destruct (im_resolved_path imp) as [path'|] eqn:Ep; cbn.
      - destruct (find_target_correct indexed all s path') as (r&Er&Hr). rewrite Er. cbn. eexists. split; [reflexivity|]. constructor; [|done].
        unfold import_resolved. rewrite Ep. destruct r as [t|]; [left; by exists t|by right].
      - eexists. split; [reflexivity|]. constructor; [|done]. unfold import_resolved. by rewrite Ep. }
    destruct Himp as (imports'&E'&HF). cbn [so_imports so_path]. rewrite E'. cbn [mbind option_bind]. rewrite E. cbn [mbind option_bind]. eexists. split; [reflexivity|].
    split; [cbn; lia|]. intros [|i]; [|apply Hrest]. cbn. exists imports'. rewrite Nat.add_0_r. done.
  - rewrite E. cbn [mbind option_bind]. eexists. split; [reflexivity|]. split; [cbn; lia|]. intros [|i]; [done|apply Hrest].
Qed.

(** C27: imports. For every sort that orders the index, and with or without memory for it, the
    pass is defined and changes nothing but the targets of imports. An import with a path leads to
    some schema other than its own whose path is that path, or one of the two paths is an end of
    the other behind a separator, whenever there is such a schema, and is left as it was
    otherwise and without a path. Which of several such schemas it is is not said: a schema with
    the path itself does not come before one with an end of it ([exact_path_not_preferred]). *)
Theorem resolve_imports_correct granted schemas :
  ∃ schemas', bebop__validate_resolve_imports qsort granted schemas = Some schemas' ∧ length schemas' = length schemas ∧
    ∀ s, match schemas !! s with
         | Some (Some src) => ∃ imports, schemas' !! s = Some (Some (mkSource (so_path src) imports)) ∧ Forall2 (import_resolved schemas s) (so_imports src) imports
         | o => schemas' !! s = o
         end.
Proof. unfold bebop__validate_resolve_imports. apply (resolve_sources_correct ((0 <? length schemas)%nat && granted) schemas schemas 0). Qed.
End Correct.

(** ** A concrete run *)

(** Insertion by comparison, as a sort. *)
Fixpoint insert_entry (e : list Z * schema_ptr) (l : list (list Z * schema_ptr)) : list (list Z * schema_ptr) :=
  match l with [] => [e] | x :: l => match strcmp e.1 x.1 with Gt => x :: insert_entry e l | _ => e :: x :: l end end.
Definition insertion_sort (l : list (list Z * schema_ptr)) : list (list Z * schema_ptr) := fold_right insert_entry [] l.

Lemma insert_entry_perm e l : insert_entry e l ≡ₚ e :: l.
Proof. induction l as [|x l IH]; cbn; [done|]. destruct (strcmp e.1 x.1); [done|done|]. rewrite IH. apply Permutation_swap. Qed.
Lemma insert_entry_sorted e l : StronglySorted not_above l → StronglySorted not_above (insert_entry e l).
Proof.
  induction 1 as [|x l Hl IH Hx]; cbn; [by repeat constructor|].
  assert (Hle : strcmp e.1 x.1 ≠ Gt → StronglySorted not_above (e :: x :: l)).
  { intros H. constructor; [by constructor|]. constructor; [done|]. eapply Forall_impl; [exact Hx|]. intros y Hy. unfold not_above in *.
    destruct (strcmp e.1 x.1) eqn:E1; [apply strcmp_eq in E1; by rewrite E1| |done]. destruct (strcmp x.1 y.1) eqn:E2; [apply strcmp_eq in E2; by rewrite <- E2, E1| |done].
    by rewrite (strcmp_lt_trans _ _ _ E1 E2). }
  destruct (strcmp e.1 x.1) eqn:E; [by apply Hle|by apply Hle|]. constructor; [done|]. rewrite insert_entry_perm. constructor; [|done].
  unfold not_above. by rewrite strcmp_antisym, E.
Qed.
Lemma insertion_sort_ok l : insertion_sort l ≡ₚ l ∧ StronglySorted not_above (insertion_sort l).
Proof.
  induction l as [|e l (Hp&Hs)]; cbn; [split; [done|constructor]|]. split; [rewrite insert_entry_perm; by rewrite Hp|by apply insert_entry_sorted].
Qed.

(** Schemas [b], [x/b] and one that imports [x/b]: the first of them is taken, since its path
    is an end of the one looked for. *)
Definition three_sources : sources :=
  [Some (mkSource (Some [98]) []); Some (mkSource (Some [120; 47; 98]) []); Some (mkSource (Some [97]) [mkImport 0 (mkSpan 0 0 0 0 0 0) (Some [120; 47; 98]) None])].
Example exact_path_not_preferred :
  option_map (λ l, l !! 2%nat) (bebop__validate_resolve_imports insertion_sort true three_sources)
  = Some (Some (Some (mkSource (Some [97]) [mkImport 0 (mkSpan 0 0 0 0 0 0) (Some [120; 47; 98]) (Some 0%nat)]))).
Proof. vm_compute. reflexivity. Qed.

Lemma resolve_imports_correct_witness :
  ∃ schemas', bebop__validate_resolve_imports insertion_sort true three_sources = Some schemas' ∧ length schemas' = 3%nat ∧
    ∀ s, match three_sources !! s with
         | Some (Some src) => ∃ imports, schemas' !! s = Some (Some (mkSource (so_path src) imports)) ∧ Forall2 (import_resolved three_sources s) (so_imports src) imports
         | o => schemas' !! s = o
         end.
Proof. apply (resolve_imports_correct insertion_sort insertion_sort_ok true three_sources). Defined.
