(* ===== verification/Registry.v ===== *)
(** Schemas, their definitions and names ([bebop/src/bebop_schema.c], [bebop_result.c]): how
    definitions are added to a schema or to the definition that contains them, how they get
    their full names, and how they are found again.

    Strings and arrays come from the context of the scanner's class [Context], which may
    refuse. A list that the code links through its elements is a list of pointers; the code
    relies on each definition being added once. *)
From stdpp Require Import list gmap strings.
From S2P Require Import Prelude.
From S2P Require Import Scanner.
From S2P Require Import Schema.
From S2P Require Import Imports.

Definition bebop__IMPORT_INITIAL_CAPACITY : Z := 8.
Definition bebop__SORTED_DEFS_INITIAL_CAPACITY : Z := 16.
Definition bebop__SCHEMA_INITIAL_CAPACITY : Z := 4.
Definition dot : Z := 46.

Definition set_fqn (fqn : Z) (d : bebop_def_t) : bebop_def_t :=
  mkDef (df_name d) fqn (df_span d) (df_name_span d) (df_documentation d) (df_decorators d) (df_schema d) (df_parent d) (df_visibility d)
    (df_nested_defs d) (df_dependents d) (df_dependents_capacity d) (df_body d).
Definition set_owner (schema : option schema_ptr) (parent : option def_ptr) (d : bebop_def_t) : bebop_def_t :=
  mkDef (df_name d) (df_fqn d) (df_span d) (df_name_span d) (df_documentation d) (df_decorators d) schema parent (df_visibility d)
    (df_nested_defs d) (df_dependents d) (df_dependents_capacity d) (df_body d).
Definition set_nested (nested : list def_ptr) (d : bebop_def_t) : bebop_def_t :=
  mkDef (df_name d) (df_fqn d) (df_span d) (df_name_span d) (df_documentation d) (df_decorators d) (df_schema d) (df_parent d) (df_visibility d)
    nested (df_dependents d) (df_dependents_capacity d) (df_body d).

Section Registry.
Context `{Context, DefMap def_ptr}.

(** The parts of a schema that deal with names. *)
Record schema_t : Type := mkSchemaT {
  sch_package : Z;
  sch_package_span : bebop_span_t;
  sch_definitions : list def_ptr;
  sch_def_table : bebop_defmap;
  sch_sorted_defs : list def_ptr;
  sch_sorted_defs_capacity : Z;
  sch_imports : list bebop_import_t;
  sch_import_capacity : Z;
  sch_error_count : Z;
  sch_warning_count : Z
}.

Record bebop_parse_result : Type := mkResult {
  re_schemas : list schema_ptr;
  re_schema_capacity : Z;
  re_def_table : bebop_defmap;
  re_total_error_count : Z;
  re_total_warning_count : Z
}.

(** The context and the stores of definitions and schemas. *)
Record registry_t : Type := mkRegistry { rg_ctx : ctx; rg_defs : heap; rg_schemas : list schema_t }.
Abbreviation M := (C registry_t).

Definition set_ctx (c : ctx) (r : registry_t) : registry_t := mkRegistry c (rg_defs r) (rg_schemas r).
Definition set_defs (h : heap) (r : registry_t) : registry_t := mkRegistry (rg_ctx r) h (rg_schemas r).
Definition set_schemas (l : list schema_t) (r : registry_t) : registry_t := mkRegistry (rg_ctx r) (rg_defs r) l.

Definition alloc_n (size n align : Z) : M (option Z) := λ r,
  let '(p, c) := ctx_alloc_n size n align (rg_ctx r) in Some (p, set_ctx c r).
Definition bebop_intern_n (str : list Z) : M Z := λ r,
  let '(i, c) := ctx_intern_n str (rg_ctx r) in Some (i, set_ctx c r).
(** [BEBOP_STR] with [BEBOP_STR_LEN] *)
Definition str_of (s : Z) : M (list Z) := gets (λ r, default [] (ctx_str (rg_ctx r) s)).
Definition deref (p : def_ptr) : M bebop_def_t := λ r, d ← rg_defs r !! p; Some (d, r).
Definition schema_at (s : schema_ptr) : M schema_t := λ r, sc ← rg_schemas r !! s; Some (sc, r).
Definition put_def (p : def_ptr) (d : bebop_def_t) : M unit := modify (λ r, set_defs (<[p := d]> (rg_defs r)) r).
Definition put_schema (s : schema_ptr) (sc : schema_t) : M unit := modify (λ r, set_schemas (<[s := sc]> (rg_schemas r)) r).

(** ** Full names *)

Definition bebop__join_dotted (prefix name : list Z) : M (option (list Z)) :=
  buf ← alloc_n 1 (u64 (zlen prefix + 1 + zlen name + 1)) 1;
  mret (match buf with Some _ => Some (prefix ++ dot :: name) | None => None end).

(** The full name of [p] behind a prefix. *)
Definition qualify (p : def_ptr) (prefix : Z) (name : Z) : M Z :=
  pre ← str_of prefix;
  nm ← str_of name;
  buf ← bebop__join_dotted pre nm;
  match buf with
  | None => mret 0
  | Some fqn_buf =>
      fqn ← bebop_intern_n fqn_buf;
      d ← deref p;
      put_def p (set_fqn fqn d);; mret fqn
  end.

(** Fuel: the number of definitions around [p]. *)
Fixpoint bebop__def_compute_fqn (fuel : nat) (p : def_ptr) : M Z :=
  d ← deref p;
  if bebop_str_is_null (df_name d) then mret 0
  else
    match df_parent d with
    | Some q =>
        parent ← deref q;
        (if bebop_str_is_null (df_fqn parent) then
           match fuel with
           | O => ub
           | S fuel => bebop__def_compute_fqn fuel q;; mret tt
           end
         else mret tt);;
        parent ← deref q;
        qualify p (df_fqn parent) (df_name d)
    | None =>
        s ← lift (df_schema d);
        schema ← schema_at s;
        if bebop_str_is_null (sch_package schema) then
          put_def p (set_fqn (df_name d) d);; mret (df_name d)
        else qualify p (sch_package schema) (df_name d)
    end.

(** ** Adding definitions *)

Definition push_sorted (p : def_ptr) (cap : Z) (sc : schema_t) : schema_t :=
  mkSchemaT (sch_package sc) (sch_package_span sc) (sch_definitions sc) (sch_def_table sc) (sch_sorted_defs sc ++ [p]) cap
    (sch_imports sc) (sch_import_capacity sc) (sch_error_count sc) (sch_warning_count sc).

Definition bebop__schema_register_def (fuel : nat) (s : schema_ptr) (p : def_ptr) : M unit :=
  bebop__def_compute_fqn fuel p;;
  sc ← schema_at s;
  let cap := sch_sorted_defs_capacity sc in
  if cap <=? zlen (sch_sorted_defs sc) then
    let new_capacity := if cap =? 0 then bebop__SORTED_DEFS_INITIAL_CAPACITY else u32 (cap * 2) in
    new_arr ← alloc_n 8 new_capacity 8;
    match new_arr with
    | None => mret tt
    | Some _ => put_schema s (push_sorted p new_capacity sc)
    end
  else put_schema s (push_sorted p cap sc).

Definition push_definition (p : def_ptr) (sc : schema_t) : schema_t :=
  mkSchemaT (sch_package sc) (sch_package_span sc) (sch_definitions sc ++ [p]) (sch_def_table sc) (sch_sorted_defs sc) (sch_sorted_defs_capacity sc)
    (sch_imports sc) (sch_import_capacity sc) (sch_error_count sc) (sch_warning_count sc).
Definition set_table (m : bebop_defmap) (sc : schema_t) : schema_t :=
  mkSchemaT (sch_package sc) (sch_package_span sc) (sch_definitions sc) m (sch_sorted_defs sc) (sch_sorted_defs_capacity sc)
    (sch_imports sc) (sch_import_capacity sc) (sch_error_count sc) (sch_warning_count sc).

Definition bebop__schema_add_def (fuel : nat) (s : schema_ptr) (p : def_ptr) : M unit :=
  d ← deref p;
  put_def p (set_owner (Some s) (df_parent d) d);;
  sc ← schema_at s;
  put_schema s (push_definition p sc);;
  bebop__schema_register_def fuel s p;;
  if bebop_str_is_null (df_name d) then mret tt
  else
    sc ← schema_at s;
    m ← lift (bebop_defmap_insert (sch_def_table sc) (df_name d) p);
    put_schema s (set_table m sc).

Definition bebop__def_add_nested (fuel : nat) (parent nested : def_ptr) : M unit :=
  dp ← deref parent;
  d ← deref nested;
  put_def nested (set_owner (df_schema dp) (Some parent) d);;
  dp ← deref parent;
  put_def parent (set_nested (df_nested_defs dp ++ [nested]) dp);;
  s ← lift (df_schema dp);
  bebop__schema_register_def fuel s nested.

Definition bebop__schema_add_import (s : schema_ptr) (path : Z) (span : bebop_span_t) : M unit :=
  sc ← schema_at s;
  let cap := sch_import_capacity sc in
  let push cap := put_schema s (mkSchemaT (sch_package sc) (sch_package_span sc) (sch_definitions sc) (sch_def_table sc) (sch_sorted_defs sc)
      (sch_sorted_defs_capacity sc) (sch_imports sc ++ [mkImport path span None None]) cap (sch_error_count sc) (sch_warning_count sc)) in
  if cap <=? zlen (sch_imports sc) then
    let new_capacity := if cap =? 0 then bebop__IMPORT_INITIAL_CAPACITY else u32 (cap * 2) in
    new_imports ← alloc_n 48 new_capacity 8;
    match new_imports with
    | None => mret tt
    | Some _ => push new_capacity
    end
  else push cap.

(** ** Finding definitions *)

Definition bebop__schema_find_def (sc : schema_t) (name : Z) : option def_ptr :=
  if bebop_str_is_null name then None else bebop_defmap_cfind (sch_def_table sc) name.

(** The loop over the list of nested definitions. *)
Fixpoint find_named (h : heap) (ps : list def_ptr) (name : Z) : option (option def_ptr) :=
  match ps with
  | [] => Some None
  | p :: ps => d ← h !! p; if df_name d =? name then Some (Some p) else find_named h ps name
  end.
Definition bebop__def_find_nested (h : heap) (parent : def_ptr) (name : Z) : option (option def_ptr) :=
  d ← h !! parent;
  if bebop_str_is_null name then Some None else find_named h (df_nested_defs d) name.

(** Fuel: the number of definitions around [p], and one. *)
Fixpoint bebop__def_is_accessible (fuel : nat) (h : heap) (p : def_ptr) : option bool :=
  match fuel with
  | O => None
  | S fuel =>
      d ← h !! p;
      let is_exported :=
        match df_visibility d with
        | BEBOP_VIS_EXPORT => true
        | BEBOP_VIS_LOCAL => false
        | BEBOP_VIS_DEFAULT => match df_parent d with Some _ => false | None => true end
        end in
      if is_exported then match df_parent d with Some q => bebop__def_is_accessible fuel h q | None => Some true end
      else Some false
  end.

Definition bebop__schema_has_visibility (r : registry_t) (source target : option schema_ptr) : option bool :=
  match source, target with
  | Some s, Some t =>
      if decide (s = t) then Some true
      else sc ← rg_schemas r !! s; Some (existsb (λ imp, bool_decide (im_schema imp = Some t)) (sch_imports sc))
  | _, _ => Some false
  end.

(** ** The result of a compilation *)

Definition insert_fqns (h : heap) : list def_ptr → bebop_defmap → option bebop_defmap :=
  fix go ps m :=
    match ps with
    | [] => Some m
    | p :: ps =>
        d ← h !! p;
        m ← (if bebop_str_is_null (df_fqn d) then Some m else bebop_defmap_insert m (df_fqn d) p);
        go ps m
    end.

(** Adds a schema; a schema that does not fit is reported and left out. *)
Definition bebop__result_add_schema (result : bebop_parse_result) (s : schema_ptr) : M bebop_parse_result :=
  let cap := re_schema_capacity result in
  let add cap : M bebop_parse_result :=
    sc ← schema_at s;
    h ← gets rg_defs;
    m ← lift (insert_fqns h (sch_sorted_defs sc) (re_def_table result));
    mret (mkResult (re_schemas result ++ [s]) cap m (u32 (re_total_error_count result + sch_error_count sc))
      (u32 (re_total_warning_count result + sch_warning_count sc))) in
  if cap <=? zlen (re_schemas result) then
    let new_capacity := if cap =? 0 then bebop__SCHEMA_INITIAL_CAPACITY else u32 (cap * 2) in
    new_schemas ← alloc_n 8 new_capacity 8;
    match new_schemas with
    | None => modify (λ r, set_ctx (ctx_out_of_memory "Failed to grow schema list"%string (rg_ctx r)) r);; mret result
    | Some _ => add new_capacity
    end
  else add cap.

Definition bebop__result_find_def (result : bebop_parse_result) (name : list Z) : M (option def_ptr) :=
  interned ← bebop_intern_n name;
  mret (if bebop_str_is_null interned then None else bebop_defmap_cfind (re_def_table result) interned).

End Registry.
