(* ===== verification/RegistryProps.v ===== *)
(** The invariant of schemas and definitions, preserved by every operation of [Registry], and
    the full names that definitions get. *)
From stdpp Require Import list gmap strings.
From S2P Require Import Prelude.
From S2P Require Import Scanner.
From S2P Require Import Schema.
From S2P Require Import Imports.
From S2P Require Import Registry.

Section Invariant.
Context `{Hctx : Context, Htable : DefMap def_ptr}.

(** A schema's lists and its table hold definitions of the schema, those of the table under
    their names; its imports lead to schemas, of which there are [n]. *)
Record schema_ok (h : heap) (n : nat) (s : schema_ptr) (sc : schema_t) : Prop := {
  so_definitions : ∀ p, p ∈ sch_definitions sc → ∃ d, h !! p = Some d ∧ df_schema d = Some s ∧ df_parent d = None;
  so_sorted : ∀ p, p ∈ sch_sorted_defs sc → ∃ d, h !! p = Some d ∧ df_schema d = Some s;
  so_table : ∀ k p, bebop_defmap_cfind (sch_def_table sc) k = Some p → p ∈ sch_definitions sc ∧ ∃ d, h !! p = Some d ∧ df_name d = k;
  so_imports : ∀ imp t, imp ∈ sch_imports sc → im_schema imp = Some t → (t < n)%nat
}.

(** Definitions belong to schemas; parents come before the definitions they contain, in the
    same schema; nested definitions know their parent. *)
Record registry_ok (r : registry_t) : Prop := {
  ro_schema : ∀ p d, rg_defs r !! p = Some d → ∃ s, df_schema d = Some s ∧ is_Some (rg_schemas r !! s);
  ro_parent : ∀ p d q, rg_defs r !! p = Some d → df_parent d = Some q →
    (q < p)%nat ∧ ∃ dq, rg_defs r !! q = Some dq ∧ df_schema dq = df_schema d;
  ro_nested : ∀ p d q, rg_defs r !! p = Some d → q ∈ df_nested_defs d →
    ∃ dq, rg_defs r !! q = Some dq ∧ df_parent dq = Some p ∧ df_schema dq = df_schema d;
  ro_schemas : ∀ s sc, rg_schemas r !! s = Some sc → schema_ok (rg_defs r) (length (rg_schemas r)) s sc
}.

(** Two stores that differ in full names only. *)
Definition fqn_only (d d' : bebop_def_t) : Prop := d' = set_fqn (df_fqn d') d.
Abbreviation renamed := (Forall2 fqn_only).
#[local] Instance fqn_only_preorder : PreOrder fqn_only.
Proof.
  split; [by intros []|]. intros [] [] [] H1 H2. unfold fqn_only in *. cbn in *. injection H1. injection H2. intros. by subst.
Qed.
Lemma renamed_lookup h h' p d : renamed h h' → h !! p = Some d → ∃ f, h' !! p = Some (set_fqn f d).
Proof. intros Hr E. destruct (Forall2_lookup_l _ _ _ _ _ Hr E) as (d'&E'&Hd). exists (df_fqn d'). by rewrite E', <- Hd. Qed.
Lemma renamed_lookup_r h h' p d' : renamed h h' → h' !! p = Some d' → ∃ d, h !! p = Some d ∧ d' = set_fqn (df_fqn d') d.
Proof. intros Hr E. by destruct (Forall2_lookup_r _ _ _ _ _ Hr E) as (d&E'&Hd); eauto. Qed.
Lemma renamed_insert h p d f : h !! p = Some d → renamed h (<[p := set_fqn f d]> h).
Proof.
  intros E. rewrite <- (list_insert_id h p d E) at 1. apply Forall2_insert; [|by destruct d].
  reflexivity.
Qed.

(** Two stores whose definitions have the same names, places, visibility and kinds. *)
Record same_place (d d' : bebop_def_t) : Prop := {
  sp_name : df_name d' = df_name d;
  sp_schema : df_schema d' = df_schema d;
  sp_parent : df_parent d' = df_parent d;
  sp_nested : df_nested_defs d' = df_nested_defs d;
  sp_visibility : df_visibility d' = df_visibility d;
  sp_kind : def_kind d' = def_kind d
}.
#[local] Instance same_place_preorder : PreOrder same_place.
Proof. split; [by split|]. intros d1 d2 d3 [] []. split; congruence. Qed.
Lemma fqn_only_same d d' : fqn_only d d' → same_place d d'.
Proof. intros ->. by destruct d. Qed.

Lemma registry_ok_same r r' :
  registry_ok r → Forall2 same_place (rg_defs r) (rg_defs r') → rg_schemas r' = rg_schemas r → registry_ok r'.
Proof.
  intros Hr Hn Hs.
  assert (Hup : ∀ p d, rg_defs r !! p = Some d → ∃ d', rg_defs r' !! p = Some d' ∧ df_name d' = df_name d ∧
      df_schema d' = df_schema d ∧ df_parent d' = df_parent d ∧ df_nested_defs d' = df_nested_defs d).
  { intros p d E. destruct (Forall2_lookup_l _ _ _ _ _ Hn E) as (d'&E'&[]). eauto 10. }
  assert (Hdown : ∀ p d', rg_defs r' !! p = Some d' → ∃ d, rg_defs r !! p = Some d ∧ df_schema d = df_schema d' ∧
      df_parent d = df_parent d' ∧ df_nested_defs d = df_nested_defs d').
  { intros p d' E'. destruct (Forall2_lookup_r _ _ _ _ _ Hn E') as (d&E&[]). eauto 10. }
  destruct Hr as [Hsch Hpar Hnest Hscs]. split; rewrite ?Hs.
  - intros p d' (d&E&<-&_)%Hdown. eauto.
  - intros p d' q (d&E&<-&<-&_)%Hdown Hq. destruct (Hpar _ _ _ E Hq) as (?&dq&(dq'&?&_&Hsq&_)%Hup&?). rewrite <- Hsq in *. eauto.
  - intros p d' q (d&E&<-&_&<-)%Hdown Hq. destruct (Hnest _ _ _ E Hq) as (dq&(dq'&?&_&Hsq&Hpq&_)%Hup&?&?).
    exists dq'. by rewrite Hsq, Hpq.
  - intros s sc E. destruct (Hscs s sc E) as [Hd Hso Ht Hi]. split; [..|done].
    + intros p Hp. destruct (Hd p Hp) as (d&(d'&?&_&Hsd&Hpd&_)%Hup&?&?). exists d'. by rewrite Hsd, Hpd.
    + intros p Hp. destruct (Hso p Hp) as (d&(d'&?&_&Hsd&_)%Hup&?). exists d'. by rewrite Hsd.
    + intros k p Hp. destruct (Ht k p Hp) as (?&d&(d'&?&Hnd&_)%Hup&?). split; [done|]. exists d'. by rewrite Hnd.
Qed.
Lemma registry_ok_renamed r r' :
  registry_ok r → renamed (rg_defs r) (rg_defs r') → rg_schemas r' = rg_schemas r → registry_ok r'.
Proof. intros Hr Hn. apply registry_ok_same; [done|]. eapply Forall2_impl; [exact Hn|]. apply fqn_only_same. Qed.
End Invariant.

Section Operations.
Context {cc : Context} {Hcc : ContextOk} {dm : DefMap def_ptr} {Hdm : DefMapOk}.

(** What requests to the context do to a registry. *)
Definition asked (r r' : registry_t) : Prop :=
  rg_defs r' = rg_defs r ∧ rg_schemas r' = rg_schemas r ∧ ctx_le (rg_ctx r) (rg_ctx r').
#[export] Instance asked_preorder : PreOrder asked.
Proof.
  split; [intros r; by split_and!|]. intros r r' r'' (?&?&?) (?&?&?). split_and!; [congruence..|]. by etrans.
Qed.

Lemma computes_alloc size n k Q r :
  0 ≤ k < 64 → (∀ p r', asked r r' → Q p r') → computes (alloc_n size n (2 ^ k)) Q r.
Proof.
  intros Hk HQ. unfold alloc_n. destruct (ctx_alloc_n size n (2 ^ k) (rg_ctx r)) as [p c] eqn:E. exists p, (set_ctx c r).
  rewrite E. split; [done|]. apply HQ. split_and!; [done..|]. cbn. pose proof (ctx_alloc_n_ok size n k (rg_ctx r) Hk) as Hle. by rewrite E in Hle.
Qed.
Lemma computes_intern str Q r : (∀ i r', asked r r' → Q i r') → computes (bebop_intern_n str) Q r.
Proof.
  intros HQ. unfold bebop_intern_n. destruct (ctx_intern_n str (rg_ctx r)) as [i c] eqn:E. exists i, (set_ctx c r).
  rewrite E. split; [done|]. apply HQ. split_and!; [done..|]. cbn. pose proof (ctx_intern_n_ok str (rg_ctx r)) as Hle. by rewrite E in Hle.
Qed.
Lemma computes_deref p d (Q : bebop_def_t → registry_t → Prop) r : rg_defs r !! p = Some d → Q d r → computes (deref p) Q r.
Proof. intros E HQ. exists d, r. unfold deref. by rewrite E. Qed.
Lemma computes_schema_at s sc (Q : schema_t → registry_t → Prop) r : rg_schemas r !! s = Some sc → Q sc r → computes (schema_at s) Q r.
Proof. intros E HQ. exists sc, r. unfold schema_at. by rewrite E. Qed.

Lemma computes_join prefix name Q r :
  (∀ buf r', asked r r' → (buf = None ∨ buf = Some (prefix ++ dot :: name)) → Q buf r') → computes (bebop__join_dotted prefix name) Q r.
Proof.
  intros HQ. unfold bebop__join_dotted. eapply computes_bind; [apply (computes_alloc 1 _ 0 (λ _ r', asked r r')); [lia|done]|].
  intros p r' Hr. apply computes_ret, HQ; [done|]. destruct p; auto.
Qed.

(** What the computation of full names does to a registry. *)
Definition fqn_step (r r' : registry_t) : Prop :=
  Forall2 fqn_only (rg_defs r) (rg_defs r') ∧ rg_schemas r' = rg_schemas r ∧ ctx_le (rg_ctx r) (rg_ctx r').
#[export] Instance fqn_step_preorder : PreOrder fqn_step.
Proof.
  pose proof fqn_only_preorder. split; [intros r; by split_and!|].
  intros r r' r'' (?&?&?) (?&?&?). split_and!; [by etrans|congruence|]. by etrans.
Qed.
Lemma asked_fqn_step r r' : asked r r' → fqn_step r r'.
Proof. pose proof fqn_only_preorder. unfold fqn_step. intros (->&->&?). by split_and!. Qed.
Lemma fqn_step_ok r r' : registry_ok r → fqn_step r r' → registry_ok r'.
Proof. intros Hr (?&?&_). by eapply registry_ok_renamed. Qed.
Lemma fqn_step_lookup r r' p d : fqn_step r r' → rg_defs r !! p = Some d → ∃ f, rg_defs r' !! p = Some (set_fqn f d).
Proof. intros (Hn&_) E. by eapply renamed_lookup. Qed.
Lemma put_fqn_step r p d f : rg_defs r !! p = Some d → fqn_step r (set_defs (<[p := set_fqn f d]> (rg_defs r)) r).
Proof. intros E. split_and!; [by apply renamed_insert|done..]. Qed.

Lemma qualify_step p prefix name r : is_Some (rg_defs r !! p) → computes (qualify p prefix name) (λ _ r', fqn_step r r') r.
Proof.
  intros (d&E). unfold qualify. eapply computes_bind; [by apply (computes_gets _ (λ _ r', r' = r))|]. intros pre _ ->.
  eapply computes_bind; [by apply (computes_gets _ (λ _ r', r' = r))|]. intros nm _ ->.
  eapply computes_bind; [by apply (computes_join _ _ (λ _ r', asked r r'))|]. intros [buf|] r1 H1; [|by apply computes_ret, asked_fqn_step].
  eapply computes_bind; [by apply (computes_intern _ (λ _ r', asked r1 r'))|]. intros fqn r2 H2.
  assert (H02 : asked r r2) by (by etrans). assert (E2 : rg_defs r2 !! p = Some d) by (destruct H02 as (->&_); done).
  eapply computes_bind; [by apply (computes_deref p d (λ d' r', d' = d ∧ r' = r2))|]. intros ? ? (->&->).
  eapply computes_bind; [by apply (computes_modify _ (λ _ r', r' = set_defs (<[p := set_fqn fqn d]> (rg_defs r2)) r2))|]. intros _ r3 ->.
  apply computes_ret. etrans; [by apply asked_fqn_step|]. by apply put_fqn_step.
Qed.

(** Full names are computed for every definition; parents come first in the store, so that
    the number of a definition is fuel enough. *)
Lemma compute_fqn_step fuel : ∀ p r,
  registry_ok r → is_Some (rg_defs r !! p) → (p ≤ fuel)%nat →
  computes (bebop__def_compute_fqn fuel p) (λ _ r', fqn_step r r') r.
Proof.
  induction fuel as [|fuel IH]; intros p r Hr (d&E) Hp; cbn [bebop__def_compute_fqn];
    (eapply computes_bind; [by apply (computes_deref p d (λ d' r', d' = d ∧ r' = r))|]; intros ? ? (->&->));
    (destruct (bebop_str_is_null (df_name d)); [by apply computes_ret|]);
    (destruct (df_parent d) as [q|] eqn:Eq;
     [destruct (ro_parent r Hr _ _ _ E Eq) as (Hlt&dq&Edq&_)
     |destruct (ro_schema r Hr _ _ E) as (s&Es&(sc&Esc)); rewrite Es;
      eapply computes_bind; [by apply (computes_lift _ s (λ s' r', s' = s ∧ r' = r))|]; intros ? ? (->&->);
      eapply computes_bind; [by apply (computes_schema_at s sc (λ sc' r', sc' = sc ∧ r' = r))|]; intros ? ? (->&->);
      destruct (bebop_str_is_null (sch_package sc)); [|by apply qualify_step];
      eapply computes_bind; [by apply (computes_modify _ (λ _ r', fqn_step r r')), put_fqn_step|]; intros; by apply computes_ret]);
    [lia|].
  eapply computes_bind; [by apply (computes_deref q dq (λ d' r', d' = dq ∧ r' = r))|]. intros ? ? (->&->).
  eapply (computes_bind _ _ (λ _ r', fqn_step r r')).
  { destruct (bebop_str_is_null (df_fqn dq)); [|by apply computes_ret]. eapply computes_bind; [apply IH; [done|by eexists|lia]|]. intros; by apply computes_ret. }
  intros _ r1 H1. destruct (fqn_step_lookup _ _ _ _ H1 Edq) as (f&Edq1). destruct (fqn_step_lookup _ _ _ _ H1 E) as (f'&E1).
  eapply computes_bind; [by apply (computes_deref q _ (λ _ r', r' = r1) _ Edq1)|]. intros ? ? ->.
  eapply computes_weaken; [by apply qualify_step; eexists|]. intros ? r2 H2. by etrans.
Qed.

(** *** Changes of a schema and of a definition *)

Lemma put_schema_ok r s sc :
  registry_ok r → schema_ok (rg_defs r) (length (rg_schemas r)) s sc → registry_ok (set_schemas (<[s := sc]> (rg_schemas r)) r).
Proof.
  intros [Hsch Hpar Hnest Hscs] Hsc. split; cbn; [|done|done|].
  - intros p d E. destruct (Hsch p d E) as (s'&?&?). exists s'. split; [done|]. rewrite lookup_lt_is_Some, length_insert. by apply lookup_lt_is_Some.
  - intros s' sc' E. rewrite length_insert. destruct (decide (s' = s)) as [->|Hne].
    + apply list_lookup_insert_Some in E as [(_&->&_)|(?&_)]; done.
    + rewrite list_lookup_insert_ne in E by done. by apply Hscs.
Qed.

Lemma elem_of_snoc {A} (l : list A) x y : y ∈ l ++ [x] ↔ y ∈ l ∨ y = x.
Proof. set_solver. Qed.

(** Two states of a schema that differ in the definitions that have been registered. *)
Definition registers (mine : Prop) (p : def_ptr) (sc sc' : schema_t) : Prop :=
  sch_definitions sc' = sch_definitions sc ∧ sch_def_table sc' = sch_def_table sc ∧ sch_imports sc' = sch_imports sc ∧
  sch_package sc' = sch_package sc ∧ (sch_sorted_defs sc' = sch_sorted_defs sc ∨ mine ∧ sch_sorted_defs sc' = sch_sorted_defs sc ++ [p]).

Record registered (s : schema_ptr) (p : def_ptr) (r r' : registry_t) : Prop := {
  rd_ok : registry_ok r';
  rd_defs : Forall2 fqn_only (rg_defs r) (rg_defs r');
  rd_ctx : ctx_le (rg_ctx r) (rg_ctx r');
  rd_length : length (rg_schemas r') = length (rg_schemas r);
  rd_schemas : ∀ s' sc, rg_schemas r !! s' = Some sc → ∃ sc', rg_schemas r' !! s' = Some sc' ∧ registers (s' = s) p sc sc'
}.

Lemma registered_fqn s p r r' : registry_ok r → fqn_step r r' → registered s p r r'.
Proof.
  intros Hr H. pose proof (fqn_step_ok _ _ Hr H). destruct H as (?&Hs&?). split; [done..|by rewrite Hs|].
  intros s' sc E. rewrite Hs. exists sc. split; [done|]. unfold registers. split_and!; try done. by left.
Qed.

Lemma push_sorted_ok s p cap r r1 sc d :
  registry_ok r → fqn_step r r1 → rg_schemas r1 !! s = Some sc → rg_defs r1 !! p = Some d → df_schema d = Some s →
  computes (put_schema s (push_sorted p cap sc)) (λ _ r', registered s p r r') r1.
Proof.
  intros Hr H Esc E Es. pose proof (fqn_step_ok _ _ Hr H) as Hr1. destruct H as (Hn&Hs&Hc). apply computes_modify. split; [..|done|done| |].
  - apply put_schema_ok; [done|]. destruct (ro_schemas r1 Hr1 s sc Esc) as [H1 H2 H3 H4]. split; [done| |done..].
    cbn. intros q [?| ->]%elem_of_snoc; [auto|]. by exists d.
  - cbn. by rewrite length_insert, Hs.
  - intros s' sc0 E0. cbn. rewrite Hs in *. destruct (decide (s' = s)) as [->|Hne].
    + rewrite list_lookup_insert_eq by (by eapply lookup_lt_Some). assert (sc0 = sc) as -> by congruence. eexists; split; [done|].
      unfold registers. split_and!; try done. by right.
    + rewrite list_lookup_insert_ne by done. eexists; split; [done|]. unfold registers. split_and!; try done. by left.
Qed.

(** The registration of a definition of a schema. *)
Lemma register_def_ok fuel s p r d :
  registry_ok r → rg_defs r !! p = Some d → df_schema d = Some s → (p ≤ fuel)%nat →
  computes (bebop__schema_register_def fuel s p) (λ _ r', registered s p r r') r.
Proof.
  intros Hr E Es Hp. unfold bebop__schema_register_def.
  eapply computes_bind; [apply compute_fqn_step; [done|by eexists|done]|]. intros ? r1 H1.
  pose proof (fqn_step_ok _ _ Hr H1) as Hr1. destruct (fqn_step_lookup _ _ _ _ H1 E) as (f&E1).
  destruct (ro_schema r1 Hr1 _ _ E1) as (s'&Es'&(sc&Esc)). cbn in Es'. assert (s' = s) as -> by congruence.
  eapply computes_bind; [by apply (computes_schema_at s sc (λ sc' r', sc' = sc ∧ r' = r1))|]. intros ? ? (->&->).
  destruct (_ <=? _); [|by eapply push_sorted_ok].
  eapply computes_bind; [by apply (computes_alloc 8 _ 3 (λ _ r', asked r1 r'))|]. intros [arr|] r2 H2.
  - assert (H02 : fqn_step r r2) by (etrans; [exact H1|by apply asked_fqn_step]). destruct H2 as (Hd2&Hs2&_).
    eapply push_sorted_ok; [done..|by rewrite Hs2|by rewrite Hd2|done].
  - apply computes_ret, registered_fqn; [done|]. etrans; [exact H1|by apply asked_fqn_step].
Qed.

(** *** The operations *)

(** Definitions stay where they are, and so does what is fixed when they are made. *)
Record stays (d d' : bebop_def_t) : Prop := {
  st_schema : df_schema d' = df_schema d;
  st_parent : df_parent d' = df_parent d;
  st_kind : def_kind d' = def_kind d
}.
#[export] Instance stays_preorder : PreOrder stays.
Proof. split; [by split|]. intros d1 d2 d3 [] []. split; congruence. Qed.
Record settled (r r' : registry_t) : Prop := {
  se_registry : registry_ok r';
  se_ctx : ctx_le (rg_ctx r) (rg_ctx r');
  se_schemas : length (rg_schemas r') = length (rg_schemas r);
  se_defs : ∀ q d, rg_defs r !! q = Some d → ∃ d', rg_defs r' !! q = Some d' ∧ stays d d'
}.
Lemma settled_refl r : registry_ok r → settled r r.
Proof. intros Hr. split; try done. intros q d E. by exists d. Qed.
Lemma settled_trans r r1 r2 : settled r r1 → settled r1 r2 → settled r r2.
Proof.
  intros [_ C1 S1 D1] [O2 C2 S2 D2]. split; [done|by etrans|congruence|]. intros q d E. destruct (D1 q d E) as (d1&E1&H1). destruct (D2 q d1 E1) as (d2&E2&H2).
  exists d2. split; [done|by etrans].
Qed.
Lemma same_place_stays d d' : same_place d d' → stays d d'.
Proof. intros []. by split. Qed.
Lemma settled_defs r h : registry_ok (set_defs h r) → Forall2 same_place (rg_defs r) h → settled r (set_defs h r).
Proof.
  intros Hr Hh. split; [done..|]. intros q d E. destruct (Forall2_lookup_l _ _ _ _ _ Hh E) as (d'&E'&H). exists d'. split; [done|by apply same_place_stays].
Qed.
Lemma settled_schemas r l : registry_ok (set_schemas l r) → length l = length (rg_schemas r) → settled r (set_schemas l r).
Proof. intros Hr Hl. split; [done..|]. intros q d E. by exists d. Qed.
Lemma registered_settled s p r r' : registered s p r r' → settled r r'.
Proof.
  intros [H1 H2 H3 H4 _]. split; [done..|]. intros q d E. destruct (Forall2_lookup_l _ _ _ _ _ H2 E) as (d'&E'&H). exists d'.
  split; [done|by apply same_place_stays, fqn_only_same].
Qed.

(** A definition that an operation may add: it belongs to the schema [s] and to [parent]. *)
Definition to_add (r : registry_t) (s : schema_ptr) (parent : option def_ptr) (p : def_ptr) : Prop :=
  ∃ d, rg_defs r !! p = Some d ∧ df_schema d = Some s ∧ df_parent d = parent.

Lemma set_owner_id s parent d : df_schema d = s → df_parent d = parent → set_owner s parent d = d.
Proof. by destruct d; cbn; intros -> ->. Qed.
Lemma put_same_def r p d : rg_defs r !! p = Some d → set_defs (<[p := d]> (rg_defs r)) r = r.
Proof. intros E. unfold set_defs. rewrite list_insert_id by done. by destruct r. Qed.

(** Adding a definition to a schema, up to its entry in the table. *)
Lemma add_def_until fuel s p r d :
  registry_ok r → rg_defs r !! p = Some d → df_schema d = Some s → df_parent d = None → (p ≤ fuel)%nat →
  ∃ r2 sc2 f, settled r r2 ∧ rg_schemas r2 !! s = Some sc2 ∧ p ∈ sch_definitions sc2 ∧ rg_defs r2 !! p = Some (set_fqn f d) ∧
    bebop__schema_add_def fuel s p r =
      if bebop_str_is_null (df_name d) then Some (tt, r2)
      else match bebop_defmap_insert (sch_def_table sc2) (df_name d) p with
           | Some m => Some (tt, set_schemas (<[s := set_table m sc2]> (rg_schemas r2)) r2)
           | None => None
           end.
Proof.
  intros Hr E Es Ep Hp. destruct (ro_schema r Hr _ _ E) as (s'&Es'&(sc&Esc)). assert (s' = s) as -> by congruence.
  set (r1 := set_schemas (<[s := push_definition p sc]> (rg_schemas r)) r).
  assert (Hr1 : registry_ok r1).
  { apply put_schema_ok; [done|]. destruct (ro_schemas r Hr s sc Esc) as [H1 H2 H3 H4]. split; [|done| |done].
    - cbn. intros q [?| ->]%elem_of_snoc; [auto|]. by exists d.
    - cbn. intros k q Hq. destruct (H3 k q Hq) as (?&?). split; [|done]. apply elem_of_snoc. by left. }
  assert (E1 : rg_schemas r1 !! s = Some (push_definition p sc)) by (cbn; apply list_lookup_insert_eq; by eapply lookup_lt_Some).
  assert (H01 : settled r r1) by (apply settled_schemas; [done|by rewrite length_insert]).
  destruct (register_def_ok fuel s p r1 d) as ([]&r2&E2&H12); try done.
  pose proof (settled_trans _ _ _ H01 (registered_settled _ _ _ _ H12)) as H02. destruct H12 as [Hr2 Hd2 _ _ Hs2].
  destruct (Hs2 s _ E1) as (sc2&Esc2&Hdefs&Htab&_). assert (Hin : p ∈ sch_definitions sc2) by (rewrite Hdefs; cbn; set_solver).
  destruct (renamed_lookup _ _ _ _ Hd2 E) as (f&Ed2). exists r2, sc2, f. split_and!; [done..|].
  unfold bebop__schema_add_def, deref, put_def, put_schema, schema_at, modify, lift. unfold mbind, C_bind. unfold mbind, option_bind. rewrite E, Ep, set_owner_id by done.
  rewrite (put_same_def r p d E), Esc. change (set_schemas _ r) with r1. rewrite E2.
  destruct (bebop_str_is_null (df_name d)); [done|]. rewrite Esc2. by destruct (bebop_defmap_insert (sch_def_table sc2) (df_name d) p).
Qed.
(** The entry in the table. *)
Lemma table_settled s p r d sc m :
  registry_ok r → rg_defs r !! p = Some d → rg_schemas r !! s = Some sc → p ∈ sch_definitions sc →
  bebop_defmap_insert (sch_def_table sc) (df_name d) p = Some m → settled r (set_schemas (<[s := set_table m sc]> (rg_schemas r)) r).
Proof.
  intros Hr E Esc Hin Em. apply settled_schemas; [|by rewrite length_insert].
  apply put_schema_ok; [done|]. destruct (ro_schemas r Hr s sc Esc) as [H1 H2 H3 H4]. split; [done..| |done].
  cbn. intros k q. rewrite (defmap_find_insert _ _ _ _ k Em). destruct (bebop_defmap_cfind (sch_def_table sc) k) as [q'|] eqn:Ek.
  - intros [= <-]. auto.
  - destruct (Z.eqb_spec k (df_name d)) as [->|]; [|done]. intros [= <-]. split; [done|]. eexists. by split.
Qed.
(** Whenever the call returns. *)
Lemma add_def_returns fuel s p r a r' :
  registry_ok r → to_add r s None p → (p ≤ fuel)%nat → bebop__schema_add_def fuel s p r = Some (a, r') →
  settled r r' ∧ ∃ sc, rg_schemas r' !! s = Some sc ∧ p ∈ sch_definitions sc.
Proof.
  intros Hr (d&E&Es&Ep) Hp Er. destruct (add_def_until fuel s p r d Hr E Es Ep Hp) as (r2&sc2&f&H2&Esc2&Hin&E2&Eq). rewrite Eq in Er.
  destruct (bebop_str_is_null (df_name d)); [simplify_eq; eauto|].
  destruct (bebop_defmap_insert (sch_def_table sc2) (df_name d) p) as [m|] eqn:Em; [|done]. simplify_eq. split.
  - eapply settled_trans; [exact H2|]. apply (table_settled s p r2 (set_fqn f d)); [apply H2|done..].
  - cbn. exists (set_table m sc2). split; [apply list_lookup_insert_eq; by eapply lookup_lt_Some|done].
Qed.
Lemma add_def_settled fuel s p r :
  registry_ok r → to_add r s None p → (p ≤ fuel)%nat → (∀ m k v, is_Some (bebop_defmap_insert m k v)) →
  computes (bebop__schema_add_def fuel s p) (λ _ r', settled r r' ∧ ∃ sc, rg_schemas r' !! s = Some sc ∧ p ∈ sch_definitions sc) r.
Proof.
  intros Hr Ha Hp Hins. pose proof Ha as (d&E&Es&Ep). destruct (add_def_until fuel s p r d Hr E Es Ep Hp) as (r2&sc2&f&_&_&_&_&Eq).
  assert (Hsome : ∃ a r', bebop__schema_add_def fuel s p r = Some (a, r')).
  { rewrite Eq. destruct (bebop_str_is_null (df_name d)); [eauto|]. destruct (Hins (sch_def_table sc2) (df_name d) p) as (m&->). eauto. }
  destruct Hsome as (a&r'&Er). exists a, r'. split; [done|]. by eapply add_def_returns.
Qed.

Theorem add_def_ok fuel s p r :
  registry_ok r → to_add r s None p → (p ≤ fuel)%nat → (∀ m k v, is_Some (bebop_defmap_insert m k v)) →
  computes (bebop__schema_add_def fuel s p) (λ _ r', registry_ok r' ∧ ∃ sc, rg_schemas r' !! s = Some sc ∧ p ∈ sch_definitions sc) r.
Proof. intros Hr Hp Hf Hi. eapply computes_weaken; [by apply add_def_settled|]. intros _ r' ([]&H). by split. Qed.

Lemma put_nested_ok r p d q dq :
  registry_ok r → rg_defs r !! p = Some d → rg_defs r !! q = Some dq → df_parent dq = Some p → df_schema dq = df_schema d →
  registry_ok (set_defs (<[p := set_nested (df_nested_defs d ++ [q]) d]> (rg_defs r)) r).
Proof.
  intros [Hsch Hpar Hnest Hscs] E Eq Hp Hs. set (d' := set_nested (df_nested_defs d ++ [q]) d).
  assert (Hup : ∀ p0 d0, rg_defs r !! p0 = Some d0 → ∃ d1, <[p := d']> (rg_defs r) !! p0 = Some d1 ∧ df_schema d1 = df_schema d0 ∧
      df_parent d1 = df_parent d0 ∧ df_name d1 = df_name d0).
  { intros p0 d0 E0. destruct (decide (p0 = p)) as [->|Hne].
    - exists d'. rewrite list_lookup_insert_eq by (by eapply lookup_lt_Some). by simplify_eq.
    - exists d0. by rewrite list_lookup_insert_ne. }
  assert (Hdown : ∀ p0 d1, <[p := d']> (rg_defs r) !! p0 = Some d1 → ∃ d0, rg_defs r !! p0 = Some d0 ∧ df_schema d1 = df_schema d0 ∧
      df_parent d1 = df_parent d0 ∧ (df_nested_defs d1 = df_nested_defs d0 ∨ p0 = p ∧ d1 = d')).
  { intros p0 d1 E1. destruct (decide (p0 = p)) as [->|Hne].
    - apply list_lookup_insert_Some in E1 as [(_&<-&_)|(?&_)]; [|done]. exists d. by split_and!; [..|right].
    - rewrite list_lookup_insert_ne in E1 by done. exists d1. by split_and!; [..|left]. }
  split; cbn.
  - intros p0 d1 (d0&E0&->&_)%Hdown. eauto.
  - intros p0 d1 q0 (d0&E0&->&->&_)%Hdown Hq0. destruct (Hpar _ _ _ E0 Hq0) as (?&dq0&(d2&?&Hs2&_)%Hup&?). split; [done|]. exists d2. by rewrite Hs2.
  - intros p0 d1 q0 (d0&E0&->&_&[->|(->&->)])%Hdown Hq0.
    + destruct (Hnest _ _ _ E0 Hq0) as (dq0&(d2&?&Hs2&Hp2&_)%Hup&?&?). exists d2. by rewrite Hs2, Hp2.
    + assert (d0 = d) as -> by congruence. apply elem_of_snoc in Hq0 as [Hq0| ->].
      * destruct (Hnest _ _ _ E Hq0) as (dq0&(d2&?&Hs2&Hp2&_)%Hup&?&?). exists d2. by rewrite Hs2, Hp2.
      * destruct (Hup _ _ Eq) as (d2&?&Hs2&Hp2&_). exists d2. by rewrite Hs2, Hp2.
  - intros s sc Esc. destruct (Hscs s sc Esc) as [H1 H2 H3 H4]. split; [..|done].
    + intros p0 Hp0. destruct (H1 p0 Hp0) as (d0&(d2&?&Hs2&Hp2&_)%Hup&?&?). exists d2. by rewrite Hs2, Hp2.
    + intros p0 Hp0. destruct (H2 p0 Hp0) as (d0&(d2&?&Hs2&_)%Hup&?). exists d2. by rewrite Hs2.
    + intros k p0 Hp0. destruct (H3 k p0 Hp0) as (?&d0&(d2&?&_&_&Hn2)%Hup&?). split; [done|]. exists d2. by rewrite Hn2.
Qed.

Lemma add_nested_settled fuel parent q s r :
  registry_ok r → to_add r s (Some parent) q → (q ≤ fuel)%nat →
  computes (bebop__def_add_nested fuel parent q) (λ _ r', settled r r' ∧ ∃ d, rg_defs r' !! parent = Some d ∧ q ∈ df_nested_defs d) r.
Proof.
  intros Hr (dq&Eq&Es&Ep) Hq. unfold bebop__def_add_nested. destruct (ro_parent r Hr _ _ _ Eq Ep) as (Hlt&d&E&Hsd).
  eapply computes_bind; [by apply (computes_deref parent d (λ d' r', d' = d ∧ r' = r))|]. intros ? ? (->&->).
  eapply computes_bind; [by apply (computes_deref q dq (λ d' r', d' = dq ∧ r' = r))|]. intros ? ? (->&->).
  rewrite set_owner_id by congruence.
  eapply computes_bind; [apply (computes_modify _ (λ _ r', r' = r)); by apply put_same_def|]. intros ? ? ->.
  eapply computes_bind; [by apply (computes_deref parent d (λ d' r', d' = d ∧ r' = r))|]. intros ? ? (->&->).
  set (r1 := set_defs (<[parent := set_nested (df_nested_defs d ++ [q]) d]> (rg_defs r)) r).
  eapply computes_bind; [by apply (computes_modify _ (λ _ r', r' = r1))|]. intros ? ? ->.
  eapply computes_bind; [by apply (computes_lift _ s (λ s' r', s' = s ∧ r' = r1)); [congruence|]|]. intros ? ? (->&->).
  assert (Hr1 : registry_ok r1) by (by eapply put_nested_ok).
  assert (Eq1 : rg_defs r1 !! q = Some dq) by (cbn; by rewrite list_lookup_insert_ne by lia).
  assert (H01 : settled r r1).
  { split; [done..|]. intros q0 d0 E0. cbn. destruct (decide (q0 = parent)) as [->|Hne].
    - rewrite list_lookup_insert_eq by (by eapply lookup_lt_Some). eexists. split; [done|]. assert (d0 = d) as -> by congruence. by split.
    - rewrite list_lookup_insert_ne by done. by exists d0. }
  eapply computes_weaken; [by apply (register_def_ok fuel s q r1 dq)|]. intros ? r2 H12.
  split; [exact (settled_trans _ _ _ H01 (registered_settled _ _ _ _ H12))|]. destruct H12 as [_ Hd2 _ _ _].
  assert (E1 : rg_defs r1 !! parent = Some (set_nested (df_nested_defs d ++ [q]) d)) by (cbn; apply list_lookup_insert_eq; by eapply lookup_lt_Some).
  destruct (renamed_lookup _ _ _ _ Hd2 E1) as (f&E2). eexists; split; [done|]. cbn. set_solver.
Qed.
Theorem add_nested_ok fuel parent q s r :
  registry_ok r → to_add r s (Some parent) q → (q ≤ fuel)%nat →
  computes (bebop__def_add_nested fuel parent q) (λ _ r', registry_ok r' ∧ ∃ d, rg_defs r' !! parent = Some d ∧ q ∈ df_nested_defs d) r.
Proof. intros Hr Hp Hf. eapply computes_weaken; [by eapply add_nested_settled|]. intros _ r' ([]&H). by split. Qed.
End Operations.

(** ** Reachable registries *)

Section Reachable.
Context {cc : Context} {Hcc : ContextOk} {dm : DefMap def_ptr} {Hdm : DefMapOk}.

(** What a parser does to a registry: it makes a definition of a schema, inside of one made
    before or at the top, and adds it later, when it is complete; or it makes a definition
    without an owner and adds it at once, as those of decorators; and it adds imports. *)
Definition push_def (d : bebop_def_t) (r : registry_t) : registry_t := set_defs (rg_defs r ++ [d]) r.
Inductive registry_step : registry_t → registry_t → Prop :=
  | step_new r d s :
      df_schema d = Some s → is_Some (rg_schemas r !! s) → df_nested_defs d = [] →
      (∀ q, df_parent d = Some q → ∃ dq, rg_defs r !! q = Some dq ∧ df_schema dq = Some s) →
      registry_step r (push_def d r)
  | step_add_def r s p r' :
      to_add r s None p → bebop__schema_add_def p s p r = Some (tt, r') → registry_step r r'
  | step_add_nested r s parent p r' :
      to_add r s (Some parent) p → bebop__def_add_nested p parent p r = Some (tt, r') → registry_step r r'
  | step_make_def r s d r' :
      is_Some (rg_schemas r !! s) → df_nested_defs d = [] → df_parent d = None →
      bebop__schema_add_def (length (rg_defs r)) s (length (rg_defs r)) (push_def d r) = Some (tt, r') → registry_step r r'
  | step_make_nested r parent d r' :
      is_Some (rg_defs r !! parent) → df_nested_defs d = [] →
      bebop__def_add_nested (length (rg_defs r)) parent (length (rg_defs r)) (push_def d r) = Some (tt, r') → registry_step r r'
  | step_add_import r s path span r' :
      is_Some (rg_schemas r !! s) → bebop__schema_add_import s path span r = Some (tt, r') → registry_step r r'.

Lemma computes_Some {S A} (c : C S A) Q s a s' : computes c Q s → c s = Some (a, s') → Q a s'.
Proof. intros (b&s''&E&HQ) E'. by simplify_eq. Qed.

Lemma new_def_ok r d s :
  registry_ok r → df_schema d = Some s → is_Some (rg_schemas r !! s) → df_nested_defs d = [] →
  (∀ q, df_parent d = Some q → ∃ dq, rg_defs r !! q = Some dq ∧ df_schema dq = Some s) →
  registry_ok (push_def d r).
Proof.
  intros [Hsch Hpar Hnest Hscs] Hs Hsome Hn Hp.
  assert (Hup : ∀ p d0, rg_defs r !! p = Some d0 → (rg_defs r ++ [d]) !! p = Some d0) by (intros; by apply lookup_app_l_Some).
  split; cbn.
  - intros p d0 [(_&E)|(_&->)]%lookup_snoc_Some; eauto.
  - intros p d0 q [(Hlt&E)|(->&->)]%lookup_snoc_Some Hq.
    + destruct (Hpar _ _ _ E Hq) as (?&dq&?&?). eauto.
    + destruct (Hp q Hq) as (dq&Eq&Esq). split; [by eapply lookup_lt_Some|]. exists dq. split; [auto|congruence].
  - intros p d0 q [(Hlt&E)|(_&->)]%lookup_snoc_Some Hq.
    + destruct (Hnest _ _ _ E Hq) as (dq&?&?&?). eauto.
    + rewrite Hn in Hq. by apply not_elem_of_nil in Hq.
  - intros s0 sc0 E0. destruct (Hscs s0 sc0 E0) as [H1 H2 H3 H4]. split; [..|done].
    + intros p Hp0. destruct (H1 p Hp0) as (d0&?&?&?). eauto.
    + intros p Hp0. destruct (H2 p Hp0) as (d0&?&?). eauto.
    + intros k p Hp0. destruct (H3 k p Hp0) as (?&d0&?&?). eauto.
Qed.

Lemma asked_settled r r' : registry_ok r → asked r r' → settled r r'.
Proof. intros Hr H. pose proof (fqn_step_ok _ _ Hr (asked_fqn_step _ _ H)). destruct H as (Hd&Hs&Hc). split; [done..|by rewrite Hs|]. rewrite Hd. intros q d E. by exists d. Qed.
Lemma add_import_settled r s path span :
  registry_ok r → is_Some (rg_schemas r !! s) → computes (bebop__schema_add_import s path span) (λ _ r', settled r r') r.
Proof.
  intros Hr (sc&Esc). unfold bebop__schema_add_import.
  eapply computes_bind; [by apply (computes_schema_at s sc (λ sc' r', sc' = sc ∧ r' = r))|]. intros ? ? (->&->).
  assert (Hpush : ∀ r1 cap, asked r r1 → settled r (set_schemas (<[s := mkSchemaT (sch_package sc) (sch_package_span sc) (sch_definitions sc) (sch_def_table sc)
      (sch_sorted_defs sc) (sch_sorted_defs_capacity sc) (sch_imports sc ++ [mkImport path span None None]) cap (sch_error_count sc) (sch_warning_count sc)]> (rg_schemas r1)) r1)).
  { intros r1 cap H1. pose proof (asked_settled _ _ Hr H1) as H01. eapply settled_trans; [exact H01|]. apply settled_schemas; [|by rewrite length_insert].
    apply put_schema_ok; [apply H01|]. destruct H1 as (->&->&_).
    destruct (ro_schemas r Hr s sc Esc) as [H1 H2 H3 H4]. split; [done..|]. cbn. intros imp t [?| ->]%elem_of_snoc; [eauto|done]. }
  destruct (_ <=? _); [|by apply computes_modify, Hpush].
  eapply computes_bind; [by apply (computes_alloc 48 _ 3 (λ _ r', asked r r'))|]. intros [arr|] r1 H1; [by apply computes_modify, Hpush|].
  by apply computes_ret, asked_settled.
Qed.
Lemma add_import_ok r s path span :
  registry_ok r → is_Some (rg_schemas r !! s) → computes (bebop__schema_add_import s path span) (λ _ r', registry_ok r') r.
Proof. intros Hr Hs. eapply computes_weaken; [by apply add_import_settled|]. by intros _ r' []. Qed.

(** The owner a definition had before makes no difference: adding it writes the owner. *)
Lemma push_def_at d r : rg_defs (push_def d r) !! length (rg_defs r) = Some d.
Proof. by apply list_lookup_middle. Qed.
Lemma deref_pushed d r : deref (length (rg_defs r)) (push_def d r) = Some (d, push_def d r).
Proof. unfold deref. by rewrite push_def_at. Qed.
Lemma put_pushed d e r : put_def (length (rg_defs r)) e (push_def d r) = Some (tt, push_def e r).
Proof. unfold put_def, modify, push_def, set_defs. cbn. by rewrite insert_app_r_alt, Nat.sub_diag by lia. Qed.
Lemma owned_add_def fuel s r d :
  let p := length (rg_defs r) in
  bebop__schema_add_def fuel s p (push_def d r) = bebop__schema_add_def fuel s p (push_def (set_owner (Some s) (df_parent d) d) r).
Proof.
  cbv zeta. unfold bebop__schema_add_def.
  rewrite (C_bind_Some _ _ _ _ _ (deref_pushed d r)), (C_bind_Some _ _ _ _ _ (put_pushed d _ r)).
  by rewrite (C_bind_Some _ _ _ _ _ (deref_pushed (set_owner _ _ d) r)), (C_bind_Some _ _ _ _ _ (put_pushed (set_owner _ _ d) _ r)).
Qed.
Lemma add_nested_owner fuel parent r d dp :
  let q := length (rg_defs r) in rg_defs r !! parent = Some dp →
  bebop__def_add_nested fuel parent q (push_def d r) = bebop__def_add_nested fuel parent q (push_def (set_owner (df_schema dp) (Some parent) d) r).
Proof.
  cbv zeta. intros Ep. assert (Hp : ∀ d', deref parent (push_def d' r) = Some (dp, push_def d' r)).
  { intros d'. unfold deref, push_def. cbn. by rewrite (lookup_app_l_Some _ _ _ _ Ep). }
  assert (H : ∀ e, bebop__def_add_nested fuel parent (length (rg_defs r)) (push_def e r) =
    (dp ← deref parent; put_def parent (set_nested (df_nested_defs dp ++ [length (rg_defs r)]) dp);;
     s ← lift (df_schema dp); bebop__schema_register_def fuel s (length (rg_defs r))) (push_def (set_owner (df_schema dp) (Some parent) e) r)).
  { intros e. unfold bebop__def_add_nested.
    by rewrite (C_bind_Some _ _ _ _ _ (Hp e)), (C_bind_Some _ _ _ _ _ (deref_pushed e r)), (C_bind_Some _ _ _ _ _ (put_pushed e _ r)). }
  by rewrite (H d), (H (set_owner _ _ d)).
Qed.

Lemma step_ok r r' : registry_ok r → registry_step r r' → registry_ok r'.
Proof.
  intros Hr H. destruct H as [r0 d s Hs Hsome Hn Hp|r0 s p r1 Hp E|r0 s parent p r1 Hp E|r0 s d r1 Hs Hn Hp E|r0 parent d r1 (dp&Edp) Hn E|r0 s path span r1 Hs E].
  - by eapply new_def_ok.
  - by destruct (add_def_returns p s p r0 _ _ Hr Hp ltac:(lia) E) as ([]&_).
  - by eapply (computes_Some _ _ _ _ _ (add_nested_ok p parent p s r0 Hr Hp ltac:(lia))).
  - rewrite owned_add_def in E. set (d' := set_owner (Some s) (df_parent d) d) in *.
    assert (Hr0 : registry_ok (push_def d' r0)) by (apply (new_def_ok r0 d' s); cbn; try done; by rewrite Hp).
    assert (Ha : to_add (push_def d' r0) s None (length (rg_defs r0))) by (exists d'; split_and!; [by apply list_lookup_middle|done|done]).
    by destruct (add_def_returns _ _ _ _ _ _ Hr0 Ha (Nat.le_refl _) E) as ([]&_).
  - rewrite (add_nested_owner _ _ _ _ dp Edp) in E. set (d' := set_owner (df_schema dp) (Some parent) d) in *.
    destruct (ro_schema r0 Hr _ _ Edp) as (s&Es&Hsome).
    assert (Hr0 : registry_ok (push_def d' r0)).
    { apply (new_def_ok r0 d' s); [done|done|done|done|]. intros q [= <-]. by exists dp. }
    assert (Ha : to_add (push_def d' r0) s (Some parent) (length (rg_defs r0))) by (exists d'; split_and!; [by apply list_lookup_middle|done|done]).
    by eapply (computes_Some _ _ _ _ _ (add_nested_ok _ _ _ _ _ Hr0 Ha (Nat.le_refl _))).
  - by eapply (computes_Some _ _ _ _ _ (add_import_ok r0 s path span Hr Hs)).
Qed.
Lemma reachable_ok r r' : registry_ok r → rtc registry_step r r' → registry_ok r'.
Proof. intros Hr H. induction H as [|r r1 r2 H _ IH]; [done|]. apply IH. by eapply step_ok. Qed.

(** C22: the invariant of schemas. In every registry that is reached from a well-formed one by
    making definitions, adding them and adding imports, whatever memory the context refuses, and
    whatever owner a definition had before it was added: each definition of a schema's list and
    table belongs to that schema and to no other definition, each nested one to the definition it
    was added to, which was made before it, and to the schema of that one; definitions made
    without being added yet belong to a schema and to a definition before them in it; and the
    table of a schema holds definitions of its list, each under its name. (An insertion into the
    table for which there is no memory ends the process.) *)
Theorem registry_reachable_ok r r' : registry_ok r → rtc registry_step r r' → registry_ok r'.
Proof. apply reachable_ok. Qed.
End Reachable.

(** ** Full names *)

Section Names.
Context {cc : Context} {Hcc : ContextOk} {dm : DefMap def_ptr} {Hdm : DefMapOk}.
(** A context that refuses nothing. *)
Hypothesis Halloc : ∀ size n align c, is_Some (ctx_alloc_n size n align c).1.
Hypothesis Hintern : ∀ str c, (ctx_intern_n str c).1 ≠ 0.

(** The names of the definitions around a definition, behind the package of its schema,
    with dots between them. *)
Inductive full_name (r : registry_t) : def_ptr → list Z → Prop :=
  | full_top p d s sc t :
      rg_defs r !! p = Some d → df_parent d = None → df_schema d = Some s → rg_schemas r !! s = Some sc → sch_package sc = 0 →
      ctx_str (rg_ctx r) (df_name d) = Some t → full_name r p t
  | full_packaged p d s sc pkg t :
      rg_defs r !! p = Some d → df_parent d = None → df_schema d = Some s → rg_schemas r !! s = Some sc → sch_package sc ≠ 0 →
      ctx_str (rg_ctx r) (sch_package sc) = Some pkg → ctx_str (rg_ctx r) (df_name d) = Some t → full_name r p (pkg ++ dot :: t)
  | full_nested p d q tq t :
      rg_defs r !! p = Some d → df_parent d = Some q → full_name r q tq → ctx_str (rg_ctx r) (df_name d) = Some t →
      full_name r p (tq ++ dot :: t).

(** Names are strings of the pool, and full names that are there are right. *)
Record names_ok (r : registry_t) : Prop := {
  no_names : ∀ p d, rg_defs r !! p = Some d → df_name d ≠ 0 ∧ is_Some (ctx_str (rg_ctx r) (df_name d));
  no_packages : ∀ s sc, rg_schemas r !! s = Some sc → sch_package sc ≠ 0 → is_Some (ctx_str (rg_ctx r) (sch_package sc));
  no_fqns : ∀ p d, rg_defs r !! p = Some d → df_fqn d ≠ 0 → ∃ t, ctx_str (rg_ctx r) (df_fqn d) = Some t ∧ full_name r p t
}.

Lemma full_name_step r r' p t :
  fqn_step r r' → ctx_ok (rg_ctx r) → ctx_ended (rg_ctx r') = false → full_name r p t → full_name r' p t.
Proof.
  intros H Hok He. pose proof H as (_&Hs&Hc). destruct (Hc Hok) as (_&Hc'). destruct (Hc' He) as (_&Hstr).
  induction 1 as [p d s sc t E|p d s sc pkg t E|p d q tq t E Hq _ IH Ht]; destruct (fqn_step_lookup _ _ _ _ H E) as (f&E').
  - eapply full_top; [done|done|done|by rewrite Hs|done|]. cbn. auto.
  - eapply full_packaged; [done|done|done|by rewrite Hs|done|auto|]. cbn. auto.
  - eapply full_nested; [done|done|done|]. cbn. auto.
Qed.

(** The names of a registry in which a definition got its full name. *)
Lemma names_ok_put r p d i t :
  names_ok r → rg_defs r !! p = Some d → ctx_str (rg_ctx r) i = Some t → full_name r p t →
  ctx_ok (rg_ctx r) → ctx_ended (rg_ctx r) = false → names_ok (set_defs (<[p := set_fqn i d]> (rg_defs r)) r).
Proof.
  intros [H1 H2 H3] E Et Hn Hok He. set (r' := set_defs (<[p := set_fqn i d]> (rg_defs r)) r).
  assert (Hs : fqn_step r r') by (by apply put_fqn_step).
  assert (Hdown : ∀ p0 d1, rg_defs r' !! p0 = Some d1 → ∃ d0, rg_defs r !! p0 = Some d0 ∧ df_name d1 = df_name d0 ∧ (df_fqn d1 = df_fqn d0 ∨ p0 = p ∧ df_fqn d1 = i)).
  { intros p0 d1 E1. cbn in E1. destruct (decide (p0 = p)) as [->|Hne].
    - apply list_lookup_insert_Some in E1 as [(_&<-&_)|(?&_)]; [|done]. exists d. split_and!; [done..|by right].
    - rewrite list_lookup_insert_ne in E1 by done. exists d1. split_and!; [done..|by left]. }
  split.
  - intros p0 d1 (d0&E0&->&_)%Hdown. eauto.
  - done.
  - intros p0 d1 E1 Hf. destruct (Hdown _ _ E1) as (d0&E0&_&[Heq|(->&->)]).
    + rewrite Heq in *. destruct (H3 _ _ E0 Hf) as (t0&?&?). exists t0. split; [done|]. by eapply full_name_step.
    + exists t. split; [done|]. by eapply full_name_step.
Qed.

Lemma names_ok_asked r r' : names_ok r → asked r r' → ctx_ok (rg_ctx r) → ctx_ended (rg_ctx r') = false → names_ok r'.
Proof.
  intros [H1 H2 H3] H Hok He. pose proof (asked_fqn_step _ _ H) as Hs. destruct H as (Hd&Hsc&Hc). destruct (Hc Hok) as (_&Hc').
  destruct (Hc' He) as (_&Hstr). split; rewrite ?Hd, ?Hsc.
  - intros p d E. destruct (H1 p d E) as (?&t&?). split; [done|]. exists t. auto.
  - intros s sc E Hp. destruct (H2 s sc E Hp) as (t&?). exists t. auto.
  - intros p d E Hf. destruct (H3 p d E Hf) as (t&?&?). exists t. split; [auto|]. by eapply full_name_step.
Qed.

(** What is true of a name that has been computed, unless the process has ended. *)
Definition named (r : registry_t) (p : def_ptr) (fqn : Z) (r' : registry_t) : Prop :=
  fqn_step r r' ∧ ctx_ok (rg_ctx r') ∧ (ctx_ended (rg_ctx r') = false → names_ok r' ∧ fqn ≠ 0 ∧
    ∃ d t, rg_defs r' !! p = Some d ∧ df_fqn d = fqn ∧ ctx_str (rg_ctx r') fqn = Some t ∧ full_name r' p t).

Lemma qualify_named r p d prefix pre nm :
  ctx_ok (rg_ctx r) → rg_defs r !! p = Some d →
  (ctx_ended (rg_ctx r) = false → names_ok r ∧ ctx_str (rg_ctx r) prefix = Some pre ∧ ctx_str (rg_ctx r) (df_name d) = Some nm ∧ full_name r p (pre ++ dot :: nm)) →
  computes (qualify p prefix (df_name d)) (named r p) r.
Proof.
  intros Hok E Hpre. unfold qualify, str_of.
  eapply computes_bind; [by apply (computes_gets _ (λ x r', x = default [] (ctx_str (rg_ctx r) prefix) ∧ r' = r))|]. intros ? ? (->&->).
  eapply computes_bind; [by apply (computes_gets _ (λ x r', x = default [] (ctx_str (rg_ctx r) (df_name d)) ∧ r' = r))|]. intros ? ? (->&->).
  set (full := default [] (ctx_str (rg_ctx r) prefix) ++ dot :: default [] (ctx_str (rg_ctx r) (df_name d))).
  eapply (computes_bind _ _ (λ buf r', asked r r' ∧ buf = Some full)).
  { unfold bebop__join_dotted. eapply (computes_bind _ _ (λ buf r', asked r r' ∧ is_Some buf)).
    - unfold alloc_n. pose proof (Halloc 1 (u64 (zlen (default [] (ctx_str (rg_ctx r) prefix)) + 1 + zlen (default [] (ctx_str (rg_ctx r) (df_name d))) + 1)) 1 (rg_ctx r)) as Ha.
      pose proof (ctx_alloc_n_ok 1 (u64 (zlen (default [] (ctx_str (rg_ctx r) prefix)) + 1 + zlen (default [] (ctx_str (rg_ctx r) (df_name d))) + 1)) 0 (rg_ctx r) ltac:(lia)) as Hle.
      change (2 ^ 0) with 1 in Hle. destruct (ctx_alloc_n _ _ _ _) as [a c] eqn:Ea. exists a, (set_ctx c r). rewrite Ea. split; [done|]. cbn in *. by split_and!.
    - intros buf r' (?&(?&->)). by apply computes_ret. }
  intros ? r1 (H1&->).
  eapply (computes_bind _ _ (λ i r', asked r1 r' ∧ i ≠ 0 ∧ ctx_ok (rg_ctx r') ∧ (ctx_ended (rg_ctx r') = false → ctx_str (rg_ctx r') i = Some full))).
  { assert (Hok1 : ctx_ok (rg_ctx r1)) by (destruct H1 as (_&_&Hc); apply (Hc Hok)).
    unfold bebop_intern_n. pose proof (Hintern full (rg_ctx r1)) as Hi. pose proof (ctx_intern_n_ok full (rg_ctx r1)) as Hle.
    pose proof (ctx_intern_n_str full (rg_ctx r1) Hok1) as Hs. destruct (ctx_intern_n full (rg_ctx r1)) as [i c] eqn:Ei.
    exists i, (set_ctx c r1). rewrite Ei. split; [done|]. cbn in *. split_and!; [by split_and!|done|by apply Hle|auto]. }
  intros i r2 (H2&Hi&Hok2&Hs2). assert (H02 : asked r r2) by (by etrans).
  assert (E2 : rg_defs r2 !! p = Some d) by (destruct H02 as (->&_); done).
  eapply computes_bind; [by apply (computes_deref p d (λ d' r', d' = d ∧ r' = r2))|]. intros ? ? (->&->).
  eapply computes_bind; [by apply (computes_modify _ (λ _ r', r' = set_defs (<[p := set_fqn i d]> (rg_defs r2)) r2))|]. intros ? r3 ->.
  assert (H23 : fqn_step r2 (set_defs (<[p := set_fqn i d]> (rg_defs r2)) r2)) by (by apply put_fqn_step).
  apply computes_ret. split_and!; [etrans; [exact (asked_fqn_step _ _ H02)|done]|done|]. cbn. intros He2.
  destruct H02 as (Hd02&Hs02&Hc02). destruct (Hc02 Hok) as (_&Hc). destruct (Hc He2) as (He&_). destruct (Hpre He) as (Hn&Ep&En&Hf).
  assert (Hfull : full = pre ++ dot :: nm) by (unfold full; by rewrite Ep, En).
  assert (Hf2 : full_name r2 p full) by (rewrite Hfull; apply (full_name_step r r2); [by apply asked_fqn_step, (conj Hd02)|done..]).
  split_and!; [|done|].
  - eapply names_ok_put; [|done|by apply Hs2|done..]. by apply (names_ok_asked r r2).
  - eexists _, full. split_and!; [apply list_lookup_insert_eq; by eapply lookup_lt_Some|done|by apply Hs2|]. by eapply full_name_step.
Qed.

Lemma top_named p d s sc r :
  registry_ok r → ctx_ok (rg_ctx r) → (ctx_ended (rg_ctx r) = false → names_ok r) → df_name d ≠ 0 →
  rg_defs r !! p = Some d → df_parent d = None → df_schema d = Some s → rg_schemas r !! s = Some sc →
  computes (if bebop_str_is_null (sch_package sc) then put_def p (set_fqn (df_name d) d);; mret (df_name d)
        else qualify p (sch_package sc) (df_name d)) (named r p) r.
Proof.
  intros Hr Hok Hn Hname E Eq Es Esc. unfold bebop_str_is_null. destruct (Z.eqb_spec (sch_package sc) 0) as [Hp|Hp].
  - set (r1 := set_defs (<[p := set_fqn (df_name d) d]> (rg_defs r)) r).
    eapply computes_bind; [by apply (computes_modify _ (λ _ r', r' = r1))|]. intros ? ? ->.
    assert (Hs : fqn_step r r1) by (by apply put_fqn_step). apply computes_ret. split_and!; [done..|]. cbn. intros He. specialize (Hn He).
    destruct (no_names r Hn p d E) as (_&t&Et). assert (Hf : full_name r p t) by (by eapply full_top).
    split_and!; [by eapply names_ok_put|done|]. eexists _, t.
    split_and!; [apply list_lookup_insert_eq; by eapply lookup_lt_Some|done|done|by eapply full_name_step].
  - destruct (ctx_ended (rg_ctx r)) eqn:He.
    + apply (qualify_named r p d _ [] []); [done..|]. by rewrite He.
    + specialize (Hn eq_refl). destruct (no_names r Hn p d E) as (_&t&Et). destruct (no_packages r Hn s sc Esc Hp) as (pkg&Epkg).
      apply (qualify_named r p d _ pkg t); [done..|]. intros _. split_and!; [done..|]. by eapply full_packaged.
Qed.

Lemma full_names_from fuel : ∀ p r,
  registry_ok r → ctx_ok (rg_ctx r) → (ctx_ended (rg_ctx r) = false → names_ok r) → (∀ q d, rg_defs r !! q = Some d → df_name d ≠ 0) →
  is_Some (rg_defs r !! p) → (p ≤ fuel)%nat → computes (bebop__def_compute_fqn fuel p) (named r p) r.
Proof.
  induction fuel as [|fuel IH]; intros p r Hr Hok Hn Hnames (d&E) Hp; cbn [bebop__def_compute_fqn];
    (eapply computes_bind; [by apply (computes_deref p d (λ d' r', d' = d ∧ r' = r))|]; intros ? ? (->&->));
    (replace (bebop_str_is_null (df_name d)) with false by (symmetry; apply Z.eqb_neq; eauto));
    (destruct (df_parent d) as [q|] eqn:Eq;
     [destruct (ro_parent r Hr _ _ _ E Eq) as (Hlt&dq&Edq&_)
     |destruct (ro_schema r Hr _ _ E) as (s&Es&(sc&Esc)); rewrite Es;
      eapply computes_bind; [by apply (computes_lift _ s (λ s' r', s' = s ∧ r' = r))|]; intros ? ? (->&->);
      eapply computes_bind; [by apply (computes_schema_at s sc (λ sc' r', sc' = sc ∧ r' = r))|]; intros ? ? (->&->);
      apply (top_named p d s sc); eauto]); [lia|].
  eapply computes_bind; [by apply (computes_deref q dq (λ d' r', d' = dq ∧ r' = r))|]. intros ? ? (->&->).
  (* the name of the parent is there, or is computed *)
  eapply (computes_bind _ _ (λ _ r', fqn_step r r' ∧ ctx_ok (rg_ctx r') ∧ (ctx_ended (rg_ctx r') = false → names_ok r' ∧
    ∃ dq' t, rg_defs r' !! q = Some dq' ∧ df_fqn dq' ≠ 0 ∧ ctx_str (rg_ctx r') (df_fqn dq') = Some t ∧ full_name r' q t))).
  { unfold bebop_str_is_null. destruct (Z.eqb_spec (df_fqn dq) 0) as [Hz|Hz].
    - eapply computes_bind; [apply IH; [done..|by eexists|lia]|]. intros fqn r1 (H1&Hok1&H1'). apply computes_ret. split_and!; [done..|].
      intros He. destruct (H1' He) as (?&?&dq'&t&?&Hfq&?&?). split; [done|]. exists dq', t. by rewrite Hfq.
    - apply computes_ret. split_and!; [done..|]. intros He. split; [auto|]. destruct (no_fqns r (Hn He) q dq Edq Hz) as (t&?&?). eauto 10. }
  intros ? r1 (H1&Hok1&H1').
  destruct (fqn_step_lookup _ _ _ _ H1 Edq) as (f&Edq1). destruct (fqn_step_lookup _ _ _ _ H1 E) as (f'&E1).
  eapply computes_bind; [by apply (computes_deref q _ (λ d' r', d' = set_fqn f dq ∧ r' = r1) _ Edq1)|]. intros ? ? (->&->).
  eapply (computes_weaken _ (named r1 p)).
  - destruct (ctx_ended (rg_ctx r1)) eqn:He.
    + apply (qualify_named r1 p (set_fqn f' d) _ [] []); [done..|]. by rewrite He.
    + destruct (H1' eq_refl) as (Hn1&dq'&t&Edq'&_&Et&Hft). assert (dq' = set_fqn f dq) as -> by congruence.
      destruct (no_names r1 Hn1 p _ E1) as (_&nm&Enm).
      apply (qualify_named r1 p (set_fqn f' d) _ t nm); [done..|]. intros _. split_and!; [done..|]. by eapply full_nested.
  - intros fqn r2 (H2&Hok2&H2'). split_and!; [by etrans|done..].
Qed.

(** C25: full names. In a well-formed registry whose names are strings of the pool, and in a
    context that refuses nothing, the computation of a full name ends, with the recursion no
    deeper than the definition's number; the full name it stores and returns is the string
    made of the package of the schema, the names of the definitions around it and its own
    name, joined by dots; and full names that were there before stay right, as handles of the
    same strings. (That the context ends the process is the one other outcome.) *)
Theorem compute_fqn_correct p r :
  registry_ok r → ctx_ok (rg_ctx r) → names_ok r → is_Some (rg_defs r !! p) →
  ∃ fqn r', bebop__def_compute_fqn p p r = Some (fqn, r') ∧ registry_ok r' ∧
    (ctx_ended (rg_ctx r') = false → names_ok r' ∧
      ∃ d t, rg_defs r' !! p = Some d ∧ df_fqn d = fqn ∧ fqn ≠ 0 ∧ ctx_str (rg_ctx r') fqn = Some t ∧ full_name r' p t).
Proof.
  intros Hr Hok Hn Hp. destruct (full_names_from p p r) as (fqn&r'&E&H1&_&H2); [done..| |done|done|].
  { intros q d Eq. by eapply no_names. }
  exists fqn, r'. split_and!; [done|by eapply fqn_step_ok|]. intros He. destruct (H2 He) as (?&?&d&t&?&?&?&?). eauto 10.
Qed.
End Names.

(** ** A concrete context and a small program *)

(** A pool that never refuses: a handle is the place of a string, from 1. *)
Fixpoint place_of (str : list Z) (pool : list (list Z)) (i : Z) : option Z :=
  match pool with
  | [] => None
  | s :: pool => if bool_decide (s = str) then Some i else place_of str pool (i + 1)
  end.
Definition list_intern (str : list Z) (pool : list (list Z)) : Z * list (list Z) :=
  match place_of str pool 1 with Some i => (i, pool) | None => (zlen pool + 1, pool ++ [str]) end.
Definition list_str (pool : list (list Z)) (i : Z) : option (list Z) := if i <=? 0 then None else pool !! Z.to_nat (i - 1).
Definition list_context : Context := {|
  ctx := list (list Z);
  ctx_alloc_n := λ _ _ _ c, (Some 16, c);
  ctx_realloc := λ _ _ _ c, (Some 16, c);
  ctx_intern_n := list_intern;
  ctx_str := list_str;
  ctx_out_of_memory := λ _ c, c;
  ctx_add_diagnostic := λ _ c, c;
  ctx_ended := λ _, false;
  ctx_ok := λ _, True
|}.

Lemma place_of_Some str pool : ∀ i j, place_of str pool i = Some j → i ≤ j ∧ pool !! Z.to_nat (j - i) = Some str.
Proof.
  induction pool as [|s pool IH]; intros i j; cbn; [done|]. case_bool_decide as Hs.
  - intros [= <-]. split; [lia|]. by rewrite Z.sub_diag, Hs.
  - intros (?&E)%IH. split; [lia|]. replace (Z.to_nat (j - i)) with (S (Z.to_nat (j - (i + 1)))) by lia. done.
Qed.
Lemma list_intern_str str pool : list_str (list_intern str pool).2 (list_intern str pool).1 = Some str ∧ (list_intern str pool).1 ≠ 0.
Proof.
  unfold list_intern. destruct (place_of str pool 1) as [j|] eqn:E; cbn; unfold list_str.
  - apply place_of_Some in E as (?&E). destruct (Z.leb_spec j 0); [lia|]. split; [done|lia].
  - destruct (Z.leb_spec (zlen pool + 1) 0); [unfold zlen in *; lia|]. split; [|unfold zlen; lia].
    replace (Z.to_nat (zlen pool + 1 - 1)) with (length pool) by (unfold zlen; lia). by apply list_lookup_middle.
Qed.
#[local] Existing Instance list_context.
Lemma list_intern_le str (c : ctx) : ctx_le c (ctx_intern_n str c).2.
Proof.
  intros _. split; [done|]. intros _. split; [done|]. intros i t. cbn. unfold list_intern, list_str.
  destruct (place_of str c 1); [done|]. cbn. destruct (i <=? 0); [done|]. intros E. by apply lookup_app_l_Some.
Qed.
Lemma list_context_ok : ContextOk.
Proof.
  split; try (intros; by reflexivity).
  - intros. apply list_intern_le.
  - intros str c _ _ _. apply list_intern_str.
Qed.

Module Examples.
(** A schema of package "p" with a message "A" that contains a message "B". *)
Definition pool : list (list Z) := map chars ["p"; "A"; "B"]%string.
Definition message (name : Z) (parent : option def_ptr) : bebop_def_t :=
  mkDef name 0 no_span no_span 0 [] (Some 0%nat) parent BEBOP_VIS_DEFAULT [] [] 0 (MessageDef []).
Definition empty : registry_t := mkRegistry (pool : ctx) [] [mkSchemaT 1 no_span [] ∅ [] 0 [] 0 0 0].
Definition made : registry_t := mkRegistry (pool : ctx) [message 2 None; message 3 (Some 0%nat)] (rg_schemas empty).
Definition after (o : option (unit * registry_t)) (r : registry_t) : registry_t := match o with Some (_, r') => r' | None => r end.
Definition nested : registry_t := after (bebop__def_add_nested 1 0%nat 1%nat made) made.
Definition added : registry_t := after (bebop__schema_add_def 0 0%nat 0%nat nested) nested.

Lemma empty_ok : registry_ok empty.
Proof.
  split; [by intros [] d|by intros [] d q|by intros [] d q|]. intros [|s] sc E; [|destruct s; discriminate E]. injection E as <-.
  split; cbn; [by intros p ?%not_elem_of_nil..| |by intros imp t ?%not_elem_of_nil]. intros k p E. cbn in E. by rewrite lookup_empty in E.
Qed.

Lemma made_reachable : rtc registry_step empty made.
Proof.
  apply (rtc_l _ _ (push_def (message 2 None) empty)).
  - by apply (step_new empty (message 2 None) 0).
  - apply rtc_once. apply (step_new (push_def (message 2 None) empty) (message 3 (Some 0%nat)) 0); [done..|].
    intros q [= <-]. by eexists.
Qed.

(** Two definitions that belong to nothing yet. *)
Definition unowned (name : Z) : bebop_def_t := set_owner None None (message name None).
Definition with_nested : registry_t := after (bebop__def_add_nested 2 0%nat 2%nat (push_def (unowned 3) added)) added.
Definition with_both : registry_t := after (bebop__schema_add_def 3 0%nat 3%nat (push_def (unowned 2) with_nested)) with_nested.

Lemma registry_reachable_ok_witness :
  registry_ok with_both ∧ option_map (λ d, (df_schema d, df_parent d)) (rg_defs with_both !! 2%nat) = Some (Some 0%nat, Some 0%nat) ∧
  option_map (λ d, (df_schema d, df_parent d)) (rg_defs with_both !! 3%nat) = Some (Some 0%nat, None).
Proof.
  split; [|split; vm_compute; reflexivity].
  apply (@registry_reachable_ok _ list_context_ok _ _ empty); [apply empty_ok|].
  etrans; [apply made_reachable|].
  apply (rtc_l _ _ nested); [|apply (rtc_l _ _ added); [|apply (rtc_l _ _ with_nested); [|apply rtc_once]]].
  - apply (step_add_nested _ 0%nat 0%nat 1%nat); [by eexists|vm_compute; reflexivity].
  - apply (step_add_def _ 0%nat 0%nat); [by eexists|vm_compute; reflexivity].
  - apply (step_make_nested _ 0%nat (unowned 3)); [by eexists|done|vm_compute; reflexivity].
  - apply (step_make_def _ 0%nat (unowned 2)); [by eexists|done|done|vm_compute; reflexivity].
Defined.

(** "p.A.B", and with it the full name of the message around it, "p.A". *)
Lemma compute_fqn_correct_witness :
  ∃ r', bebop__def_compute_fqn 1 1%nat made = Some (5, r') ∧ ctx_str (rg_ctx r') 5 = Some (chars "p.A.B") ∧ full_name r' 1%nat (chars "p.A.B").
Proof.
  assert (Hm : registry_ok made) by (apply (@reachable_ok _ list_context_ok _ _ empty); [apply empty_ok|apply made_reachable]).
  destruct (@compute_fqn_correct _ list_context_ok _ (λ _ _ _ _, ltac:(by eexists)) (λ str c, proj2 (list_intern_str str c)) 1%nat made Hm I) as (fqn&r'&E&_&H).
  - split.
    + intros [|[|p]] d E; [injection E as <-; by split; [|eexists]..|destruct p; discriminate E].
    + intros [|s] sc E _; [|destruct s; discriminate E]. injection E as <-. by eexists.
    + intros [|[|p]] d E; [injection E as <-; done..|destruct p; discriminate E].
  - by eexists.
  - destruct (H eq_refl) as (_&d&t&_&_&_&Et&Hf). vm_compute in E. injection E as <- <-.
    eexists; split; [vm_compute; reflexivity|]. split; [reflexivity|]. assert (t = chars "p.A.B") as -> by (vm_compute in Et; by injection Et). exact Hf.
Defined.
End Examples.
