(* ===== verification/Resolve.v ===== *)
(** The resolution of names ([bebop/src/bebop_result.c], [bebop_validate.c]): from the names
    in the types of definitions to the definitions they mean.

    A pointer into a type is a path from its root. Reports and references are a list of
    events; the text of reports is left out, and what they say besides it is the event's. *)
From stdpp Require Import list gmap strings.
From S2P Require Import Prelude.
From S2P Require Import Scanner.
From S2P Require Import Schema.
From S2P Require Import Toposort.
From S2P Require Import Fuzzy.
From S2P Require Import Imports.
From S2P Require Import Registry.

Definition BEBOP_VALIDATE_DEF_STACK_SIZE : nat := 64.

Inductive bebop__resolve_kind_t : Set := RESOLVE_FIELD_TYPE | RESOLVE_MIXIN_TYPE.
#[export] Instance resolve_kind_eq : EqDecision bebop__resolve_kind_t.
Proof. solve_decision. Defined.

(** What resolution reports, for a place in a type: an unknown name with the suggestion made
    for it, a name that two imports define, a definition that is not a type, one that is
    internal to a union, nesting that is too deep, and a branch of a union that is no record. *)
Inductive suggestion_t : Set := NoName | UseTimestamp | NoSuggestion | Suggest (name : list Z).
Inductive report_t : Set :=
  | UnknownType (suggestion : suggestion_t)
  | AmbiguousReference (resolved other : nat)
  | NotAFieldType (resolved : nat)
  | UnionInternal (resolved : nat)
  | TooDeep.
(** What is reported of a decorator: an unknown name, a name that two imports define, one
    that may not stand there, an argument without a parameter (by name or by place) or of
    another kind or value than its parameter's, and a parameter without an argument. *)
Inductive decorator_report_t : Set :=
  | UnknownDecorator (suggestion : option (list Z))
  | AmbiguousDecorator (resolved other : nat)
  | NotApplicable
  | UnknownParameter (suggestion : option (list Z))
  | TooManyArguments
  | WrongKind (param : Z)
  | NotAllowed (param : Z)
  | MissingParameter (param : Z).
(** The part of a definition that a decorator stands before. *)
Inductive bebop_decorated_t : Set :=
  | DecoratedDef (def : nat) | DecoratedField (def field : nat) | DecoratedEnumMember (def member : nat)
  | DecoratedBranch (def branch : nat) | DecoratedMethod (def method : nat).
(** Reports go to a schema, that of a branch of a union, of a definition whose full name
    another one has, of a decorator; references are added to a definition; the blocks of a decorator
    are run for a part of a definition. *)
Inductive event_t : Set :=
  | Report (schema : nat) (path : list nat) (report : report_t)
  | Reference (def : nat) (path : list nat)
  | BadBranch (schema : nat) (branch : nat) (union : bool)
  | MultipleDefinitions (schema : nat) (def existing : nat)
  | DecoratorReport (schema : nat) (span : bebop_span_t) (report : decorator_report_t)
  | DecoratorReference (def : nat) (span : bebop_span_t)
  | RunValidate (def : nat) (target : bebop_decorated_t)
  | RunExport (def : nat) (target : bebop_decorated_t).
#[export] Instance span_eq : EqDecision bebop_span_t.
Proof. solve_decision. Defined.
#[export] Instance decorator_report_eq : EqDecision decorator_report_t.
Proof. solve_decision. Defined.
#[export] Instance decorated_eq : EqDecision bebop_decorated_t.
Proof. solve_decision. Defined.
#[export] Instance suggestion_eq : EqDecision suggestion_t.
Proof. solve_decision. Defined.
#[export] Instance report_eq : EqDecision report_t.
Proof. solve_decision. Defined.
#[export] Instance event_eq : EqDecision event_t.
Proof. solve_decision. Defined.

(** The text up to the first dot, and what is behind it. *)
Fixpoint split_dot (name : list Z) : list Z * option (list Z) :=
  match name with
  | [] => ([], None)
  | c :: name => if c =? dot then ([], Some name) else let '(part, rest) := split_dot name in (c :: part, rest)
  end.

Section Resolve.
Context `{Context, DefMap def_ptr}.
Abbreviation M := (C registry_t).

(** ** Names *)

(** The definition of a name in [p] or in the definitions around it. Fuel: their number. *)
Fixpoint find_around (fuel : nat) (h : heap) (p : def_ptr) (name : Z) : option (option def_ptr) :=
  nested ← bebop__def_find_nested h p name;
  match nested with
  | Some q => Some (Some q)
  | None =>
      d ← h !! p;
      match df_parent d, fuel with
      | None, _ => Some None
      | Some parent, S fuel => find_around fuel h parent name
      | Some _, O => None
      end
  end.

Definition find_in_import (schemas : list schema_t) (imp : bebop_import_t) (name : Z) : option (option def_ptr) :=
  match im_schema imp with
  | None => Some None
  | Some s => sc ← schemas !! s; Some (bebop__schema_find_def sc name)
  end.
Fixpoint find_in_imports (schemas : list schema_t) (imports : list bebop_import_t) (name : Z) : option (option (def_ptr * list bebop_import_t)) :=
  match imports with
  | [] => Some None
  | imp :: imports =>
      found ← find_in_import schemas imp name;
      match found with
      | Some p => Some (Some (p, imports))
      | None => find_in_imports schemas imports name
      end
  end.

Definition bebop__is_visible (from : schema_ptr) (p : def_ptr) : M bool := λ r,
  d ← rg_defs r !! p; b ← bebop__schema_has_visibility r (Some from) (df_schema d); Some (b, r).

(** A definition of a full name, if it is visible. *)
Definition find_visible (result : bebop_parse_result) (s : schema_ptr) (name : list Z) : M (option def_ptr) :=
  found ← bebop__result_find_def result name;
  match found with
  | None => mret None
  | Some p => visible ← bebop__is_visible s p; mret (if (visible : bool) then Some p else None)
  end.

(** The name with the package of the schema before it. *)
Definition find_in_package (result : bebop_parse_result) (s : schema_ptr) (name : list Z) : M (option def_ptr) :=
  sc ← schema_at s;
  if bebop_str_is_null (sch_package sc) then mret None
  else
    pkg ← str_of (sch_package sc);
    buf ← bebop__join_dotted pkg name;
    match buf with
    | Some fqn_buf => find_visible result s fqn_buf
    | None => mret None
    end.

(** A name without dots: the definition, and another one of the same name in a later import. *)
Definition resolve_part (fuel : nat) (result : bebop_parse_result) (s : schema_ptr) (context_def : option def_ptr) (name : list Z) :
    M (option def_ptr * option def_ptr) :=
  interned ← bebop_intern_n name;
  if bebop_str_is_null interned then mret (None, None)
  else
    h ← gets rg_defs;
    around ← lift (match context_def with Some p => find_around fuel h p interned | None => Some None end);
    match around with
    | Some p => mret (Some p, None)
    | None =>
        sc ← schema_at s;
        match bebop__schema_find_def sc interned with
        | Some p => mret (Some p, None)
        | None =>
            schemas ← gets rg_schemas;
            imported ← lift (find_in_imports schemas (sch_imports sc) interned);
            match imported with
            | Some (p, later) =>
                other ← lift (find_in_imports schemas later interned);
                mret (Some p, fst <$> other)
            | None =>
                packaged ← find_in_package result s name;
                match packaged with
                | Some p => mret (Some p, None)
                | None => found ← find_visible result s name; mret (found, None)
                end
            end
        end
    end.

Definition bebop__find_nested_by_name (parent : def_ptr) (name : list Z) : M (option def_ptr) :=
  match name with
  | [] => mret None
  | _ =>
      interned ← bebop_intern_n name;
      if bebop_str_is_null interned then mret None
      else h ← gets rg_defs; lift (bebop__def_find_nested h parent interned)
  end.

(** The parts behind the first dot. Fuel: their number of bytes. *)
Fixpoint resolve_rest (fuel : nat) (p : def_ptr) (remaining : list Z) : M (option def_ptr) :=
  match remaining, fuel with
  | [], _ => mret (Some p)
  | _, O => ub
  | _, S fuel =>
      let '(part, rest) := split_dot remaining in
      nested ← bebop__find_nested_by_name p part;
      match nested, rest with
      | Some q, Some rest => resolve_rest fuel q rest
      | nested, _ => mret nested
      end
  end.

(** The name is a null pointer or a C string, without its terminator. *)
Definition bebop__result_resolve_type (fuel : nat) (result : bebop_parse_result) (s : schema_ptr) (context_def : option def_ptr)
    (name : option (list Z)) : M (option def_ptr * option def_ptr) :=
  match name with
  | None | Some [] => mret (None, None)
  | Some name =>
      match split_dot name with
      | (_, None) => resolve_part fuel result s context_def name
      | (first, Some remaining) =>
          first_part ← alloc_n 1 (u64 (zlen first + 1)) 1;
          match first_part with
          | None => mret (None, None)
          | Some _ =>
              resolved ← match first with [] => mret (None, None) | _ => resolve_part fuel result s context_def first end;
              match resolved.1 with
              | None => found ← find_visible result s name; mret (found, None)
              | Some p => q ← resolve_rest (length remaining) p remaining; mret (q, None)
              end
          end
      end
  end.

(** ** Suggestions for unknown names *)

(** The loop over the candidates: the best so far and its distance. *)
Fixpoint suggest_loop (type_name : list Z) (candidates : list (option (list Z))) (best : option (list Z)) (best_dist : Z) : option (option (list Z)) :=
  match candidates with
  | [] => Some best
  | None :: candidates => suggest_loop type_name candidates best best_dist
  | Some c :: candidates =>
      dist ← bebop_util_levenshtein type_name c (u32 (best_dist - 1));
      if dist <? best_dist then suggest_loop type_name candidates (Some c) dist
      else suggest_loop type_name candidates best best_dist
  end.

Definition builtin_types : list (list Z) :=
  map chars ["bool"; "byte"; "int8"; "int16"; "uint16"; "int32"; "uint32"; "int64"; "uint64"; "int128"; "uint128"; "float16";
    "float32"; "float64"; "bfloat16"; "string"; "uuid"; "timestamp"; "duration"]%string.

(** The names of the definitions of all schemas, those at the top only. *)
Definition candidates (result : bebop_parse_result) (r : registry_t) : option (list (option (list Z))) :=
  schemas ← mapM (λ s, rg_schemas r !! s) (re_schemas result);
  defs ← mapM (λ p, rg_defs r !! p) (concat (map sch_definitions schemas));
  Some (map Some builtin_types ++ map (λ d, ctx_str (rg_ctx r) (df_name d)) defs).

Definition suggest (result : bebop_parse_result) (type_name : option (list Z)) : M suggestion_t := λ r,
  match type_name with
  | None => Some (NoName, r)
  | Some name =>
      if bool_decide (name = chars "date") then Some (UseTimestamp, r)
      else cs ← candidates result r; best ← suggest_loop name cs None 3;
        Some (match best with Some b => Suggest b | None => NoSuggestion end, r)
  end.

(** ** Types *)

(** The type a path leads to. *)
Fixpoint type_at (t : bebop_type_t) (path : list nat) : option bebop_type_t :=
  match path, t with
  | [], _ => Some t
  | O :: path, TArray e => type_at e path
  | O :: path, TFixedArray e _ => type_at e path
  | O :: path, TMap k _ => type_at k path
  | S O :: path, TMap _ v => type_at v path
  | _, _ => None
  end.
(** [t->defined.resolved = p] for the type [t] of a path. *)
Fixpoint set_resolved (t : bebop_type_t) (path : list nat) (p : def_ptr) : bebop_type_t :=
  match path, t with
  | [], TDefined name _ => TDefined name (Some p)
  | O :: path, TArray e => TArray (set_resolved e path p)
  | O :: path, TFixedArray e n => TFixedArray (set_resolved e path p) n
  | O :: path, TMap k v => TMap (set_resolved k path p) v
  | S O :: path, TMap k v => TMap k (set_resolved v path p)
  | _, t => t
  end.

(** The array of references of a definition: its place, what it holds and can hold. *)
Record refs_t : Type := mkRefs { rf_arr : option Z; rf_count : Z; rf_capacity : Z }.

Record resolver_t : Type := mkResolver {
  rv_registry : registry_t;
  rv_references : gmap nat refs_t;
  rv_alloc_failed : bool;
  rv_events : list event_t
}.
Abbreviation R := (C resolver_t).

Definition in_registry {A} (c : M A) : R A := λ v,
  match c (rv_registry v) with
  | Some (a, r) => Some (a, mkResolver r (rv_references v) (rv_alloc_failed v) (rv_events v))
  | None => None
  end.
Definition emit (e : event_t) : R unit :=
  modify (λ v, mkResolver (rv_registry v) (rv_references v) (rv_alloc_failed v) (rv_events v ++ [e])).
Definition alloc_failed : R unit :=
  modify (λ v, mkResolver (rv_registry v) (rv_references v) true (rv_events v)).
Definition put_refs (p : def_ptr) (rf : refs_t) : R unit :=
  modify (λ v, mkResolver (rv_registry v) (<[p := rf]> (rv_references v)) (rv_alloc_failed v) (rv_events v)).

Definition realloc (p : option Z) (old new : Z) : M (option Z) := λ r,
  let '(q, c) := ctx_realloc p old new (rg_ctx r) in Some (q, set_ctx c r).

(** The event says where the reference is. Spans have 24 bytes. *)
Definition bebop__validate_add_reference (p : def_ptr) (place : event_t) : R unit :=
  refs ← gets rv_references;
  let rf := default (mkRefs None 0 0) (refs !! p) in
  if rf_capacity rf <=? rf_count rf then
    if UINT32_MAX / 2 <? rf_capacity rf then alloc_failed
    else
      let new_cap := if rf_capacity rf =? 0 then 16 else rf_capacity rf * 2 in
      new_arr ← in_registry (realloc (rf_arr rf) (rf_capacity rf * 24) (new_cap * 24));
      match new_arr with
      | None => alloc_failed
      | Some _ => put_refs p (mkRefs new_arr (rf_count rf + 1) new_cap);; emit place
      end
  else put_refs p (mkRefs (rf_arr rf) (rf_count rf + 1) (rf_capacity rf));; emit place.

Definition bebop__validate_get_schema (p : def_ptr) : R schema_ptr := d ← in_registry (deref p); lift (df_schema d).

Section Types.
Context (result : bebop_parse_result) (fuel : nat) (context_def : def_ptr) (resolve_kind : bebop__resolve_kind_t).

Definition report (path : list nat) (r : report_t) : R unit :=
  s ← bebop__validate_get_schema context_def; emit (Report s path r).

(** Whether [p] is internal to a union that [context_def] is not in. *)
Definition union_internal (p : def_ptr) : R bool :=
  d ← in_registry (deref p);
  match df_parent d with
  | None => mret false
  | Some q =>
      parent ← in_registry (deref q);
      cd ← in_registry (deref context_def);
      mret (bool_decide (def_kind parent = BEBOP_DEF_UNION) && negb (bool_decide (df_parent cd = Some q))
            && negb (bool_decide (df_visibility d = BEBOP_VIS_EXPORT)))
  end.

(** A named type: whether it has been resolved to a definition that may stand there, and the
    definition it now has. *)
Definition resolve_named (path : list nat) (name : Z) (old : option def_ptr) : R (bool * option def_ptr) :=
  s ← bebop__validate_get_schema context_def;
  type_name ← in_registry (gets (λ r, ctx_str (rg_ctx r) name));
  answer ← in_registry (bebop__result_resolve_type fuel result s (Some context_def) type_name);
  match answer with
  | (None, _) =>
      suggestion ← in_registry (suggest result type_name);
      report path (UnknownType suggestion);; mret (false, old)
  | (Some p, Some other) => report path (AmbiguousReference p other);; mret (false, old)
  | (Some p, None) =>
      bebop__validate_add_reference p (Reference p path);;
      d ← in_registry (deref p);
      let no_field := bool_decide (resolve_kind = RESOLVE_FIELD_TYPE) && bool_decide (def_kind d = BEBOP_DEF_SERVICE) in
      if bool_decide (def_kind d = BEBOP_DEF_DECORATOR) || no_field then report path (NotAFieldType p);; mret (false, Some p)
      else
        internal ← union_internal p;
        if (internal : bool) then report path (UnionInternal p);; mret (false, Some p) else mret (true, Some p)
  end.

(** The loop over the stack of types, its top first; a type is a path into [root]. Fuel: the
    number of types in it. *)
Fixpoint resolve_type_loop (steps : nat) (root : bebop_type_t) (stack : list (list nat * Z)) : R (bool * bebop_type_t) :=
  match stack with
  | [] => mret (true, root)
  | (path, depth) :: stack =>
      match steps with
      | O => ub
      | S steps =>
          t ← lift (type_at root path);
          let push (children : list (list nat)) :=
            if (length stack + length children <=? BEBOP_VALIDATE_TYPE_STACK_SIZE)%nat
            then resolve_type_loop steps root (map (λ c, (c, depth + 1)) children ++ stack)
            else resolve_type_loop steps root stack in
          match t with
          | TNull => resolve_type_loop steps root stack
          | _ =>
              if BEBOP_MAX_TYPE_DEPTH <=? depth then report path TooDeep;; mret (false, root)
              else
                match t with
                | TArray _ | TFixedArray _ _ => push [path ++ [0%nat]]
                | TMap _ _ => push [path ++ [0%nat]; path ++ [1%nat]]
                | TDefined name old =>
                    answer ← resolve_named path name old;
                    let '(ok, p) := answer in
                    let root := match p with Some p => set_resolved root path p | None => root end in
                    if (ok : bool) then resolve_type_loop steps root stack else mret (false, root)
                | _ => resolve_type_loop steps root stack
                end
          end
      end
  end.

(** The number of types in a type. *)
Fixpoint type_nodes (t : bebop_type_t) : nat :=
  match t with
  | TArray e | TFixedArray e _ => S (type_nodes e)
  | TMap k v => S (type_nodes k + type_nodes v)
  | _ => 1
  end.

Definition bebop__validate_resolve_type (t : bebop_type_t) : R (bool * bebop_type_t) :=
  match t with
  | TNull => mret (true, TNull)
  | _ => resolve_type_loop (type_nodes t) t [([], 0)]
  end.
End Types.

(** ** Definitions *)

Section Definitions.
Context (result : bebop_parse_result).
(** The number of definitions around a definition is bounded by the number of all. *)
Definition chain_fuel : R nat := gets (λ v, length (rg_defs (rv_registry v))).

Definition resolve_in (p : def_ptr) (kind : bebop__resolve_kind_t) (t : bebop_type_t) : R bebop_type_t :=
  fuel ← chain_fuel;
  answer ← bebop__validate_resolve_type result fuel p kind t;
  mret answer.2.

Fixpoint each {A} (f : A → R A) (l : list A) : R (list A) :=
  match l with
  | [] => mret []
  | a :: l => a ← f a; l ← each f l; mret (a :: l)
  end.

Definition resolve_field (p : def_ptr) (f : bebop_field_t) : R bebop_field_t :=
  t ← resolve_in p RESOLVE_FIELD_TYPE (fd_type f); mret (set_field_type t f).
Definition resolve_method (p : def_ptr) (m : bebop_method_t) : R bebop_method_t :=
  request ← resolve_in p RESOLVE_FIELD_TYPE (me_request_type m);
  response ← resolve_in p RESOLVE_FIELD_TYPE (me_response_type m);
  mret (set_method_types request response m).

(** What a branch refers to must be a struct or a message. *)
Definition check_branch (p : def_ptr) (i : nat) (t : bebop_type_t) : R unit :=
  match t with
  | TDefined _ (Some q) =>
      d ← in_registry (deref q);
      match def_kind d with
      | BEBOP_DEF_UNION => s ← bebop__validate_get_schema p; emit (BadBranch s i true)
      | BEBOP_DEF_ENUM | BEBOP_DEF_SERVICE | BEBOP_DEF_CONST | BEBOP_DEF_DECORATOR =>
          s ← bebop__validate_get_schema p; emit (BadBranch s i false)
      | _ => mret tt
      end
  | _ => mret tt
  end.

(** The branches from the [i]-th on, and the stack with the definitions they contain. *)
Fixpoint resolve_branches (p : def_ptr) (depth : Z) (i : nat) (branches : list bebop_union_branch_t) (stack : list (def_ptr * Z)) :
    R (list bebop_union_branch_t * list (def_ptr * Z)) :=
  match branches with
  | [] => mret ([], stack)
  | b :: branches =>
      let stack :=
        match br_def b with
        | Some q => if (length stack <? BEBOP_VALIDATE_DEF_STACK_SIZE)%nat then (q, depth + 1) :: stack else stack
        | None => stack
        end in
      t ← match br_type_ref b with
          | TNull => mret TNull
          | t => t ← resolve_in p RESOLVE_FIELD_TYPE t; check_branch p i t;; mret t
          end;
      rest ← resolve_branches p depth (S i) branches stack;
      mret (set_branch_type t b :: rest.1, rest.2)
  end.

Definition set_body_of (p : def_ptr) (b : def_body) : R unit := in_registry (d ← deref p; put_def p (set_body b d)).

(** One definition: the stack with what it contains. *)
Definition resolve_one (p : def_ptr) (depth : Z) (stack : list (def_ptr * Z)) : R (list (def_ptr * Z)) :=
  d ← in_registry (deref p);
  match df_body d with
  | StructDef fields is_mutable size => fields ← each (resolve_field p) fields; set_body_of p (StructDef fields is_mutable size);; mret stack
  | MessageDef fields => fields ← each (resolve_field p) fields; set_body_of p (MessageDef fields);; mret stack
  | UnionDef branches =>
      answer ← resolve_branches p depth 0 branches stack;
      set_body_of p (UnionDef answer.1);; mret answer.2
  | ServiceDef methods mixins =>
      methods ← each (resolve_method p) methods;
      mixins ← each (resolve_in p RESOLVE_MIXIN_TYPE) mixins;
      set_body_of p (ServiceDef methods mixins);; mret stack
  | EnumDef _ _ | ConstDef _ _ | DecoratorDef _ => mret stack
  | UnknownDef => ub
  end.

(** The loop over the stack of definitions, its top first. *)
Fixpoint resolve_def_loop (fuel : nat) (stack : list (def_ptr * Z)) : R unit :=
  match stack with
  | [] => mret tt
  | (p, depth) :: stack =>
      match fuel with
      | O => ub
      | S fuel =>
          if BEBOP_MAX_TYPE_DEPTH <=? depth then alloc_failed
          else stack ← resolve_one p depth stack; resolve_def_loop fuel stack
      end
  end.
Definition bebop__validate_resolve_def (fuel : nat) (p : def_ptr) : R unit := resolve_def_loop fuel [(p, 0)].

(** The loop of [bebop_validate] over all definitions. *)
Fixpoint resolve_all (fuel : nat) (all_defs : list def_ptr) : R unit :=
  match all_defs with
  | [] => mret tt
  | p :: all_defs => bebop__validate_resolve_def fuel p;; resolve_all fuel all_defs
  end.
End Definitions.
End Resolve.
