(* ===== verification/ResolveProps.v ===== *)
(** What the resolution of names promises: every name leads to a definition that the schema
    of its place can see, or is reported; and when nothing is reported, every type of the
    program leads to definitions that may stand there. *)
From stdpp Require Import list gmap strings.
From S2P Require Import Prelude.
From S2P Require Import Scanner.
From S2P Require Import Schema.
From S2P Require Import Toposort.
From S2P Require Import Fuzzy.
From S2P Require Import Imports.
From S2P Require Import Registry.
From S2P Require Import RegistryProps.
From S2P Require Import Resolve.

Section Names.
Context {cc : Context} {Hcc : ContextOk} {dm : DefMap def_ptr} {Hdm : DefMapOk}.

(** ** Visibility *)

(** [p] belongs to [s] or to a schema that [s] imports. *)
Definition sees (r : registry_t) (s : schema_ptr) (p : def_ptr) : Prop :=
  ∃ d t, rg_defs r !! p = Some d ∧ df_schema d = Some t ∧
    (t = s ∨ ∃ sc imp, rg_schemas r !! s = Some sc ∧ imp ∈ sch_imports sc ∧ im_schema imp = Some t).

(** The schemas and the table of full names of a result. *)
Record result_ok (r : registry_t) (result : bebop_parse_result) : Prop := {
  rs_schemas : ∀ s, s ∈ re_schemas result → is_Some (rg_schemas r !! s);
  rs_table : ∀ k p, bebop_defmap_cfind (re_def_table result) k = Some p → is_Some (rg_defs r !! p)
}.

Lemma asked_ok r r' : registry_ok r → asked r r' → registry_ok r'.
Proof. intros Hr H. by eapply fqn_step_ok, asked_fqn_step. Qed.
Lemma asked_result r r' result : result_ok r result → asked r r' → result_ok r' result.
Proof. intros [H1 H2] (Hd&Hs&_). split; by rewrite ?Hd, ?Hs. Qed.
Lemma asked_sees r r' s p : sees r s p → asked r r' → sees r' s p.
Proof. unfold sees. by intros H (->&->&_). Qed.

Lemma asked_sees_back r r' s p : asked r r' → sees r' s p → sees r s p.
Proof. unfold sees. by intros (->&->&_). Qed.

Lemma find_named_ok h ps name :
  Forall (λ p, is_Some (h !! p)) ps → ∃ o, find_named h ps name = Some o ∧ ∀ q, o = Some q → q ∈ ps.
Proof.
  induction 1 as [|p ps (d&E) _ (o&IH&Ho)]; cbn; [by eexists|]. rewrite E. cbn.
  destruct (_ =? _); eexists; (split; [done|]); intros q; [intros [= <-]; set_solver|]. intros ?%Ho. set_solver.
Qed.
Lemma find_nested_ok r p d name :
  registry_ok r → rg_defs r !! p = Some d →
  ∃ o, bebop__def_find_nested (rg_defs r) p name = Some o ∧ ∀ q, o = Some q → ∃ dq, rg_defs r !! q = Some dq ∧ df_parent dq = Some p ∧ df_schema dq = df_schema d.
Proof.
  intros Hr E. unfold bebop__def_find_nested. rewrite E. cbn. destruct (bebop_str_is_null name); [by eexists|].
  destruct (find_named_ok (rg_defs r) (df_nested_defs d) name) as (o&Ho&Hin).
  - apply Forall_forall. intros q Hq. destruct (ro_nested r Hr p d q E Hq) as (dq&?&_). by eexists.
  - exists o. split; [done|]. intros q ->. eapply ro_nested; eauto.
Qed.
Lemma find_around_ok r name fuel : ∀ p d,
  registry_ok r → rg_defs r !! p = Some d → (p ≤ fuel)%nat →
  ∃ o, find_around fuel (rg_defs r) p name = Some o ∧ ∀ q, o = Some q → ∃ dq, rg_defs r !! q = Some dq ∧ df_schema dq = df_schema d.
Proof.
  induction fuel as [|fuel IH]; intros p d Hr E Hp; cbn [find_around];
    destruct (find_nested_ok r p d name Hr E) as ([q|]&->&Hq); cbn [mbind option_bind];
    try (eexists; split; [done|]; intros ? [= <-]; destruct (Hq q eq_refl) as (dq&?&?&?); by eauto);
    rewrite E; cbn [mbind option_bind]; destruct (df_parent d) as [q|] eqn:Eq; try by eexists.
  - destruct (ro_parent r Hr _ _ _ E Eq). lia.
  - destruct (ro_parent r Hr _ _ _ E Eq) as (?&dq&Edq&<-). apply IH; [done..|lia].
Qed.

Lemma find_in_imports_ok r name imports :
  registry_ok r → Forall (λ imp, ∀ t, im_schema imp = Some t → is_Some (rg_schemas r !! t)) imports →
  ∃ o, find_in_imports (rg_schemas r) imports name = Some o ∧
    match o with
    | Some (p, later) => ∃ before imp t d, imports = before ++ imp :: later ∧ im_schema imp = Some t ∧ rg_defs r !! p = Some d ∧ df_schema d = Some t
    | None => True
    end.
Proof.
  intros Hr. induction imports as [|imp imports IH]; intros Himp; cbn [find_in_imports]; [by eexists|].
  apply Forall_cons in Himp as (Hi&Himp). unfold find_in_import. destruct (im_schema imp) as [t|] eqn:Et.
  - destruct (Hi t eq_refl) as (sc&Esc). rewrite Esc. cbn [mbind option_bind]. unfold bebop__schema_find_def.
    destruct (bebop_str_is_null name).
    { destruct (IH Himp) as (o&->&Ho). exists o. split; [done|]. destruct o as [[p later]|]; [|done].
      destruct Ho as (before&imp'&t'&d&->&?). by exists (imp :: before), imp', t', d. }
    destruct (bebop_defmap_cfind (sch_def_table sc) name) as [p|] eqn:Ep.
    + eexists; split; [done|]. cbn. destruct (so_table _ _ _ _ (ro_schemas r Hr t sc Esc) name p Ep) as (Hin&_).
      destruct (so_definitions _ _ _ _ (ro_schemas r Hr t sc Esc) p Hin) as (d&?&?&_). by exists [], imp, t, d.
    + destruct (IH Himp) as (o&->&Ho). exists o. split; [done|]. destruct o as [[q later]|]; [|done].
      destruct Ho as (before&imp'&t'&d&->&?). by exists (imp :: before), imp', t', d.
  - cbn [mbind option_bind]. destruct (IH Himp) as (o&->&Ho). exists o. split; [done|]. destruct o as [[q later]|]; [|done].
    destruct Ho as (before&imp'&t'&d&->&?). by exists (imp :: before), imp', t', d.
Qed.

(** ** Names *)

(** What an answer of the resolution may be. *)
Definition answer_ok (r : registry_t) (s : schema_ptr) (a : option def_ptr * option def_ptr) : Prop :=
  (∀ q, a.1 = Some q → sees r s q) ∧ (∀ q, a.2 = Some q → is_Some (rg_defs r !! q)).
Abbreviation answers c r s := (computes c (λ a r', asked r r' ∧ answer_ok r s a) r).
Abbreviation finds c r s := (computes c (λ o r', asked r r' ∧ ∀ q : def_ptr, o = Some q → sees r s q) r).

Lemma computes_asked {A} (c : C registry_t A) (Q : A → Prop) r r1 :
  asked r r1 → computes c (λ a r', asked r1 r' ∧ Q a) r1 → computes c (λ a r', asked r r' ∧ Q a) r1.
Proof. intros H1 H. eapply computes_weaken; [exact H|]. intros a r2 (?&?). split; [by etrans|done]. Qed.

Lemma has_visibility_ok r s t :
  is_Some (rg_schemas r !! s) → ∃ b, bebop__schema_has_visibility r (Some s) (Some t) = Some b ∧
    (b = true → t = s ∨ ∃ sc imp, rg_schemas r !! s = Some sc ∧ imp ∈ sch_imports sc ∧ im_schema imp = Some t).
Proof.
  intros (sc&Esc). unfold bebop__schema_has_visibility. case_decide as Hst; [by eauto|]. rewrite Esc. cbn. eexists; split; [done|].
  intros (imp&Hin&Ht)%existsb_exists. apply bool_decide_eq_true in Ht. right. exists sc, imp. split_and!; [done|by apply list_elem_of_In|done].
Qed.

Lemma find_visible_ok result r s name :
  registry_ok r → result_ok r result → is_Some (rg_schemas r !! s) → finds (find_visible result s name) r s.
Proof.
  intros Hr Hres Hs. unfold find_visible, bebop__result_find_def.
  eapply (computes_bind _ _ (λ o r', asked r r' ∧ ∀ q, o = Some q → is_Some (rg_defs r !! q))).
  { eapply computes_bind; [by apply (computes_intern _ (λ _ r', asked r r'))|]. intros i r1 H1. apply computes_ret. split; [done|].
    intros q. destruct (bebop_str_is_null i); [done|]. apply (rs_table r result Hres). }
  intros [p|] r1 (H1&Hp); [|by apply computes_ret]. destruct (Hp p eq_refl) as (d&E). destruct (ro_schema r Hr p d E) as (t&Et&_).
  destruct (has_visibility_ok r1 s t) as (b&Eb&Hb); [by destruct H1 as (_&->&_)|].
  eapply (computes_bind _ _ (λ b' r', b' = b ∧ r' = r1)).
  { exists b, r1. split; [|done]. unfold bebop__is_visible. destruct H1 as (->&_). rewrite E. cbn [mbind option_bind]. rewrite Et. by rewrite Eb. }
  intros ? ? (->&->). apply computes_ret. split; [done|]. intros q. destruct b; [|done]. intros [= <-]. exists d, t. split_and!; [done..|].
  destruct H1 as (_&Hs1&_). rewrite <- Hs1. auto.
Qed.

Lemma find_in_package_ok result r s name :
  registry_ok r → result_ok r result → is_Some (rg_schemas r !! s) → finds (find_in_package result s name) r s.
Proof.
  intros Hr Hres (sc&Esc). unfold find_in_package.
  eapply computes_bind; [by apply (computes_schema_at s sc (λ sc' r', sc' = sc ∧ r' = r))|]. intros ? ? (->&->).
  destruct (bebop_str_is_null (sch_package sc)); [by apply computes_ret|].
  eapply computes_bind; [by apply (computes_gets _ (λ _ r', r' = r))|]. intros pkg ? ->.
  eapply computes_bind; [by apply (computes_join _ _ (λ _ r', asked r r'))|]. intros [buf|] r1 H1; [|by apply computes_ret].
  apply computes_asked; [done|]. eapply computes_weaken; [apply (find_visible_ok result r1 s buf); [by eapply asked_ok|by eapply asked_result|]|].
  - destruct H1 as (_&->&_). by eexists.
  - intros o r2 (?&Ho). split; [done|]. intros q Hq. eapply asked_sees_back; [exact H1|]. by apply Ho.
Qed.

Lemma sees_own r s p d : rg_defs r !! p = Some d → df_schema d = Some s → sees r s p.
Proof. intros E Es. exists d, s. eauto. Qed.

(** A schema, and a definition in it when the search starts at one. *)
Definition starts_at (r : registry_t) (fuel : nat) (s : schema_ptr) (context_def : option def_ptr) : Prop :=
  is_Some (rg_schemas r !! s) ∧
  match context_def with Some p => (∃ d, rg_defs r !! p = Some d ∧ df_schema d = Some s) ∧ (p ≤ fuel)%nat | None => True end.
Lemma starts_in r fuel p d s : registry_ok r → rg_defs r !! p = Some d → df_schema d = Some s → (p ≤ fuel)%nat → starts_at r fuel s (Some p).
Proof. intros Hr E Es Hp. destruct (ro_schema r Hr p d E) as (s'&Es'&Hs). assert (s' = s) as -> by congruence. split; [done|]. split; [by exists d|done]. Qed.
Lemma asked_starts r r' fuel s context_def : asked r r' → starts_at r fuel s context_def → starts_at r' fuel s context_def.
Proof. unfold starts_at. by intros (->&->&_). Qed.

Lemma resolve_part_ok fuel result r s context_def name :
  registry_ok r → result_ok r result → starts_at r fuel s context_def →
  answers (resolve_part fuel result s context_def name) r s.
Proof.
  intros Hr Hres ((sc&Esc)&Hstart). unfold resolve_part. eapply computes_bind; [by apply (computes_intern _ (λ _ r', asked r r'))|]. intros i r1 H1.
  assert (Hnone : answer_ok r s (None, None)) by (by split).
  destruct (bebop_str_is_null i); [by apply computes_ret|].
  pose proof (asked_ok _ _ Hr H1) as Hr1. pose proof H1 as (Hd1&Hs1&_).
  eapply computes_bind; [by apply (computes_gets _ (λ h r', h = rg_defs r1 ∧ r' = r1))|]. intros ? ? (->&->).
  assert (Haround : ∃ o, match context_def with Some p => find_around fuel (rg_defs r1) p i | None => Some None end = Some o ∧
    ∀ q, o = Some q → ∃ dq, rg_defs r1 !! q = Some dq ∧ df_schema dq = Some s).
  { destruct context_def as [p|]; [|by eexists]. destruct Hstart as ((d&E&Es)&Hp). rewrite <- Es. apply find_around_ok; [done|by rewrite Hd1|done]. }
  destruct Haround as (o&Eo&Ho). rewrite Eo.
  eapply computes_bind; [by apply (computes_lift _ o (λ o' r', o' = o ∧ r' = r1))|]. intros ? ? (->&->).
  destruct o as [q|].
  { apply computes_ret. split; [done|]. split; [|done]. intros ? [= <-]. destruct (Ho q eq_refl) as (dq&Eq&Esq). rewrite Hd1 in Eq.
    eapply sees_own; [done|congruence]. }
  eapply computes_bind; [apply (computes_schema_at s sc (λ sc' r', sc' = sc ∧ r' = r1)); [by rewrite Hs1|done]|]. intros ? ? (->&->).
  pose proof (ro_schemas r Hr s sc Esc) as Hsc.
  destruct (bebop__schema_find_def sc i) as [q|] eqn:Eq.
  { apply computes_ret. split; [done|]. split; [|done]. intros ? [= <-]. unfold bebop__schema_find_def in Eq. destruct (bebop_str_is_null i); [done|].
    destruct (so_table _ _ _ _ Hsc i q Eq) as (Hin&_). destruct (so_definitions _ _ _ _ Hsc q Hin) as (dq&?&?&_). by eapply sees_own. }
  eapply computes_bind; [by apply (computes_gets _ (λ l r', l = rg_schemas r1 ∧ r' = r1))|]. intros ? ? (->&->).
  assert (Himp : ∀ l, (∀ imp, imp ∈ l → imp ∈ sch_imports sc) → Forall (λ imp, ∀ t, im_schema imp = Some t → is_Some (rg_schemas r1 !! t)) l).
  { intros l Hl. apply Forall_forall. intros imp Hin t Ht. rewrite Hs1. apply lookup_lt_is_Some. eapply so_imports; eauto. }
  destruct (find_in_imports_ok r1 i (sch_imports sc) Hr1 ltac:(by apply Himp)) as (o&Eo'&Ho'). rewrite Eo'.
  eapply computes_bind; [by apply (computes_lift _ o (λ o' r', o' = o ∧ r' = r1))|]. intros ? ? (->&->).
  destruct o as [[q later]|].
  { destruct Ho' as (before&imp&t&dq&Els&Et&Edq&Esq).
    destruct (find_in_imports_ok r1 i later Hr1) as (o2&Eo2&Ho2); [apply Himp; rewrite Els; set_solver|]. rewrite Eo2.
    eapply computes_bind; [by apply (computes_lift _ o2 (λ o' r', o' = o2 ∧ r' = r1))|]. intros ? ? (->&->).
    apply computes_ret. split; [done|]. split.
    - intros ? [= <-]. rewrite Hd1 in Edq. exists dq, t. split_and!; [done..|]. right. exists sc, imp. split_and!; [done| |done]. rewrite Els. set_solver.
    - intros q'. destruct o2 as [[q2 later2]|]; cbn; [|done]. intros [= <-]. destruct Ho2 as (?&?&?&d2&_&_&E2&_). rewrite <- Hd1. by eexists. }
  apply computes_asked; [done|].
  eapply computes_bind; [apply (find_in_package_ok result r1 s name); [done|by eapply asked_result|rewrite Hs1; by eexists]|].
  assert (Hsees : ∀ q, sees r1 s q → sees r s q) by (unfold sees; by rewrite Hd1, Hs1).
  intros [q|] r2 (H2&Hq).
  - apply computes_ret. split; [done|]. split; [|done]. intros ? [= <-]. auto.
  - assert (H02 : asked r r2) by (etrans; [exact H1|exact H2]).
    eapply computes_bind; [apply (find_visible_ok result r2 s name); [by eapply asked_ok|by eapply asked_result|destruct H02 as (_&->&_); by eexists]|].
    intros found r3 (H3&Hf). apply computes_ret. split; [etrans; [exact H2|exact H3]|]. split; [|done]. intros q Hq'. eapply asked_sees_back; [exact H02|]. by apply Hf.
Qed.

Lemma sees_schema r s p : sees r s p → ∃ d, rg_defs r !! p = Some d ∧ ∀ q dq, rg_defs r !! q = Some dq → df_schema dq = df_schema d → sees r s q.
Proof. intros (d&t&E&Et&Hv). exists d. split; [done|]. intros q dq Eq Hs. exists dq, t. split_and!; [done|congruence|done]. Qed.

Lemma nested_by_name_ok r s p name : registry_ok r → sees r s p → finds (bebop__find_nested_by_name p name) r s.
Proof.
  intros Hr Hs. unfold bebop__find_nested_by_name. destruct name as [|c name]; [by apply computes_ret|].
  eapply computes_bind; [by apply (computes_intern _ (λ _ r', asked r r'))|]. intros i r1 H1. destruct (bebop_str_is_null i); [by apply computes_ret|].
  eapply computes_bind; [by apply (computes_gets _ (λ h r', h = rg_defs r1 ∧ r' = r1))|]. intros ? ? (->&->).
  destruct (sees_schema r s p Hs) as (d&E&Hsame). destruct H1 as (Hd1&Hs1&Hc1). rewrite Hd1.
  destruct (find_nested_ok r p d i Hr E) as (o&->&Ho). apply (computes_lift _ o); [done|]. split; [by split_and!|].
  intros q ->. destruct (Ho q eq_refl) as (dq&?&_&?). by eapply Hsame.
Qed.

Lemma split_dot_shorter name part rest : split_dot name = (part, Some rest) → (length rest < length name)%nat.
Proof.
  revert part rest. induction name as [|c name IH]; intros part rest; cbn; [done|]. destruct (c =? dot); [intros [= <- <-]; lia|].
  destruct (split_dot name) as [part' [rest'|]] eqn:E; intros [= <- <-]. specialize (IH _ _ eq_refl). lia.
Qed.

Lemma resolve_rest_ok s fuel : ∀ r p remaining,
  registry_ok r → sees r s p → (length remaining ≤ fuel)%nat → finds (resolve_rest fuel p remaining) r s.
Proof.
  induction fuel as [|fuel IH]; intros r p [|c remaining] Hr Hs Hlen; cbn [resolve_rest length] in *;
    try (apply computes_ret; split; [done|]; by intros ? [= <-]); [lia|].
  destruct (split_dot (c :: remaining)) as [part rest] eqn:Esp.
  eapply computes_bind; [by apply nested_by_name_ok|]. intros [q|] r1 (H1&Hq); [|by apply computes_ret]. specialize (Hq q eq_refl).
  destruct rest as [rest|].
  - apply computes_asked; [done|]. eapply computes_weaken; [apply (IH r1 q rest)|].
    + by eapply asked_ok.
    + by eapply asked_sees.
    + apply split_dot_shorter in Esp. cbn in Esp. lia.
    + intros o r2 (?&Ho). split; [done|]. intros q' Hq'. eapply asked_sees_back; [exact H1|]. by apply Ho.
  - apply computes_ret. split; [done|]. by intros ? [= <-].
Qed.

Lemma found_answer (c : C registry_t (option def_ptr)) (r r1 : registry_t) s :
  asked r r1 → finds c r1 s → computes (o ← c; mret (o, None : option def_ptr)) (λ a r', asked r r' ∧ answer_ok r s a) r1.
Proof.
  intros H1 Hc. eapply computes_bind; [exact Hc|]. intros o r2 (H2&Ho). apply computes_ret. split; [etrans; [exact H1|exact H2]|].
  split; [|done]. intros q Hq. eapply asked_sees_back; [exact H1|]. by apply Ho.
Qed.

Lemma resolve_type_ok fuel result r s context_def name :
  registry_ok r → result_ok r result → starts_at r fuel s context_def →
  answers (bebop__result_resolve_type fuel result s context_def name) r s.
Proof.
  intros Hr Hres Hstart. assert (Hnone : ∀ r', asked r r' → asked r r' ∧ answer_ok r s (None, None)) by (by split).
  pose proof Hstart as (Hsc&_).
  unfold bebop__result_resolve_type. destruct name as [[|c name]|]; [by apply computes_ret, Hnone| |by apply computes_ret, Hnone].
  destruct (split_dot (c :: name)) as [first [remaining|]]; [|by apply resolve_part_ok].
  eapply computes_bind; [by apply (computes_alloc 1 _ 0 (λ _ r', asked r r'))|]. intros [a|] r1 H1; [|by apply computes_ret, Hnone].
  pose proof (asked_ok _ _ Hr H1) as Hr1. pose proof H1 as (Hd1&Hs1&_).
  eapply (computes_bind _ _ (λ a r', asked r1 r' ∧ answer_ok r1 s a)).
  { destruct first; [by apply computes_ret; split|]. apply resolve_part_ok; [done|by eapply asked_result|by eapply asked_starts]. }
  intros [[q|] o] r2 (H2&Ha); assert (H02 : asked r r2) by (etrans; [exact H1|exact H2]); cbn.
  - apply (found_answer _ r r2 s); [done|]. apply resolve_rest_ok; [by eapply asked_ok| |done].
    eapply asked_sees; [|exact H2]. by apply Ha.
  - apply (found_answer _ r r2 s); [done|]. apply find_visible_ok; [by eapply asked_ok|by eapply asked_result|by destruct H02 as (_&->&_)].
Qed.
End Names.

(** ** Types *)

(** A type without what its names lead to. *)
Fixpoint erase (t : bebop_type_t) : bebop_type_t :=
  match t with
  | TArray e => TArray (erase e)
  | TFixedArray e n => TFixedArray (erase e) n
  | TMap k v => TMap (erase k) (erase v)
  | TDefined name _ => TDefined name None
  | t => t
  end.
(** What is true of every name in a type. *)
Fixpoint all_names (P : option def_ptr → Prop) (t : bebop_type_t) : Prop :=
  match t with
  | TArray e | TFixedArray e _ => all_names P e
  | TMap k v => all_names P k ∧ all_names P v
  | TDefined _ o => P o
  | _ => True
  end.

Lemma type_at_nil t : type_at t [] = Some t.
Proof. by destruct t. Qed.
Lemma erase_set_resolved path p : ∀ t, erase (set_resolved t path p) = erase t.
Proof.
  induction path as [|[|[|i]] path IH]; intros []; cbn; f_equal; auto.
Qed.
Lemma type_at_erase path : ∀ t, type_at (erase t) path = erase <$> type_at t path.
Proof. induction path as [|[|[|i]] path IH]; intros []; cbn; auto. Qed.
Lemma type_nodes_erase t : type_nodes (erase t) = type_nodes t.
Proof. induction t; cbn; congruence. Qed.
Lemma type_nodes_positive t : (1 ≤ type_nodes t)%nat.
Proof. destruct t; cbn; lia. Qed.
Lemma type_at_app path path' : ∀ t u, type_at t path = Some u → type_at t (path ++ path') = type_at u path'.
Proof. induction path as [|[|[|i]] path IH]; intros [] u; cbn; try done; try (by intros [= <-]); auto. Qed.

(** The names of a type are those that its paths lead to. *)
Lemma all_names_paths P t : all_names P t ↔ ∀ path name o, type_at t path = Some (TDefined name o) → P o.
Proof.
  split.
  - intros H path. revert t H. induction path as [|[|[|i]] path IH]; intros [] H name' o; cbn in *; try done; try (by intros [= <- <-]);
      try (by apply IH); destruct H as (H1&H2); by apply IH.
  - induction t; intros H; cbn; try done.
    + apply IHt. intros path. apply (H (0%nat :: path)).
    + apply IHt. intros path. apply (H (0%nat :: path)).
    + split; [apply IHt1|apply IHt2]; intros path; [apply (H (0%nat :: path))|apply (H (1%nat :: path))].
    + by apply (H [] name).
Qed.

(** A change at one place leaves the names at other places. *)
Lemma type_at_set_resolved path0 p : ∀ t path name o,
  type_at (set_resolved t path0 p) path = Some (TDefined name o) →
  path ≠ path0 ∧ type_at t path = Some (TDefined name o) ∨ path = path0 ∧ o = Some p.
Proof.
  assert (Hcons : ∀ (i : nat) path path' (P Q : Prop), path ≠ path' ∧ P ∨ path = path' ∧ Q → i :: path ≠ i :: path' ∧ P ∨ i :: path = i :: path' ∧ Q).
  { intros i path path' P Q [(?&?)|(->&?)]; [left|by right]. split; [by intros [=]|done]. }
  induction path0 as [|[|[|i0]] path0 IH]; intros [] [|[|[|i]] path] name' o; cbn; try done; try (by auto); try (by intros [= <- <-]; auto);
    intros H; apply Hcons; by apply IH.
Qed.

(** ** Stacks *)

(** Places of a stack lead to types, none of them below another; the deeper a place, the
    lower it stands at most; and what is left to do. *)
Fixpoint stack_depths (stack : list (list nat * Z)) : Prop :=
  match stack with [] => True | (_, depth) :: stack => zlen stack ≤ depth ∧ stack_depths stack end.
Definition work (root : bebop_type_t) (stack : list (list nat * Z)) : nat :=
  sum_list_with (λ e : list nat * Z, match type_at root e.1 with Some t => type_nodes t | None => 0%nat end) stack.
Definition on_stack (stack : list (list nat * Z)) (path : list nat) : Prop := ∃ (e : list nat * Z) rest, e ∈ stack ∧ path = e.1 ++ rest.

Lemma work_erase root root' stack : erase root = erase root' → work root stack = work root' stack.
Proof.
  intros He. unfold work. induction stack as [|[path depth] stack IH]; cbn; [done|]. f_equal; [|done].
  pose proof (type_at_erase path root) as H1. pose proof (type_at_erase path root') as H2. rewrite He, H2 in H1.
  destruct (type_at root path), (type_at root' path); try done. injection H1 as H1. rewrite <- (type_nodes_erase b), <- (type_nodes_erase b0). by rewrite H1.
Qed.
Lemma erase_at root root' path : erase root = erase root' → is_Some (type_at root path) → is_Some (type_at root' path).
Proof.
  intros He (t&E). pose proof (type_at_erase path root) as H1. pose proof (type_at_erase path root') as H2. rewrite E, He, H2 in H1.
  destruct (type_at root' path); [by eexists|done].
Qed.

Section Types.
Context {cc : Context} {Hcc : ContextOk} {dm : DefMap def_ptr} {Hdm : DefMapOk}.

(** *** Suggestions *)

Lemma levenshtein_total a b max_dist : is_Some (bebop_util_levenshtein a b max_dist).
Proof.
  unfold bebop_util_levenshtein. destruct (_ =? _); [by eexists|]. destruct (_ =? _); [by eexists|]. destruct (_ <? _); [by eexists|].
  destruct (Z.ltb_spec 64 (zlen a + 1)); [by eexists|]. destruct (Z.ltb_spec 64 (zlen b + 1)); [by eexists|]. cbn [orb].
  destruct (levenshtein_table a b) as (d1&d2&d3&->&E2&E3&n&E4&_); [unfold zlen in *; lia..|]. cbn [mbind option_bind]. rewrite E2.
  cbn [mbind option_bind]. rewrite E3. cbn [mbind option_bind]. rewrite E4. by eexists.
Qed.
Lemma suggest_loop_total name cs : ∀ best dist, is_Some (suggest_loop name cs best dist).
Proof.
  induction cs as [|[c|] cs IH]; intros best dist; cbn; [by eexists| |done].
  destruct (levenshtein_total name c (u32 (dist - 1))) as (n&->). cbn. by destruct (_ <? _).
Qed.
Lemma candidates_total result r : registry_ok r → result_ok r result → is_Some (candidates result r).
Proof.
  intros Hr Hres. unfold candidates.
  destruct (mapM (λ s, rg_schemas r !! s) (re_schemas result)) as [scs|] eqn:Es.
  - cbn. apply mapM_Some_1 in Es. destruct (mapM (λ p, rg_defs r !! p) (concat (map sch_definitions scs))) as [ds|] eqn:Ed; [by eexists|].
    exfalso. apply mapM_None_1, Exists_exists in Ed as (p&Hp&E). apply list_elem_of_In, in_concat in Hp as (l&Hl&Hp).
    apply in_map_iff in Hl as (sc&<-&Hsc). apply list_elem_of_In in Hp, Hsc. apply list_elem_of_lookup in Hsc as (i&Hi).
    destruct (Forall2_lookup_r _ _ _ _ _ Es Hi) as (s&_&Esc).
    destruct (so_definitions _ _ _ _ (ro_schemas r Hr s sc Esc) p Hp) as (d&?&_). congruence.
  - exfalso. apply mapM_None_1, Exists_exists in Es as (s&Hs&E). destruct (rs_schemas r result Hres s Hs) as (?&?). congruence.
Qed.
Lemma suggest_ok result r name : registry_ok r → result_ok r result → computes (suggest result name) (λ _ r', r' = r) r.
Proof.
  intros Hr Hres. unfold suggest. destruct name as [name|]; [|by eexists _, r]. case_bool_decide; [by eexists _, r|].
  destruct (candidates_total result r Hr Hres) as (cs&Ecs). destruct (suggest_loop_total name cs None 3) as (best&Eb).
  eexists _, r. split; [|done]. rewrite Ecs. cbn [mbind option_bind]. rewrite Eb. reflexivity.
Qed.

(** *** One name *)

Definition is_reference (e : event_t) : Prop := match e with Reference _ _ => True | _ => False end.
Abbreviation quiet := (Forall is_reference).

(** [v'] follows [v] with more events. *)
Definition follows (v v' : resolver_t) (l : list event_t) : Prop :=
  asked (rv_registry v) (rv_registry v') ∧ rv_events v' = rv_events v ++ l.
Lemma follows_refl v : follows v v [].
Proof. split; [reflexivity|by rewrite app_nil_r]. Qed.
Lemma follows_trans v v1 v2 l1 l2 : follows v v1 l1 → follows v1 v2 l2 → follows v v2 (l1 ++ l2).
Proof. intros (H1&E1) (H2&E2). split; [etrans; [exact H1|exact H2]|]. by rewrite E2, E1, app_assoc. Qed.

(** What a name in a type of [p] may lead to. *)
Record usable (r : registry_t) (p : def_ptr) (kind : bebop__resolve_kind_t) (q : def_ptr) : Prop := {
  us_seen : ∃ d s, rg_defs r !! p = Some d ∧ df_schema d = Some s ∧ sees r s q;
  us_kind : ∀ d, rg_defs r !! q = Some d → def_kind d ≠ BEBOP_DEF_DECORATOR ∧ (kind = RESOLVE_FIELD_TYPE → def_kind d ≠ BEBOP_DEF_SERVICE);
  us_union : ∀ d u du cd, rg_defs r !! q = Some d → df_parent d = Some u → rg_defs r !! u = Some du → rg_defs r !! p = Some cd →
    def_kind du = BEBOP_DEF_UNION → df_visibility d = BEBOP_VIS_EXPORT ∨ df_parent cd = Some u
}.

Definition type_resolved (r : registry_t) (p : def_ptr) (kind : bebop__resolve_kind_t) : bebop_type_t → Prop :=
  all_names (λ o, ∃ q, o = Some q ∧ usable r p kind q).

Lemma asked_usable r r' p kind q : asked r r' → usable r p kind q ↔ usable r' p kind q.
Proof.
  intros (Hd&Hs&_). split; intros [H1 H2 H3]; split; unfold sees in *; rewrite ?Hd, ?Hs in *; done.
Qed.

Lemma computes_in_registry {A} (c : C registry_t A) Q v :
  computes c (λ a r', Q a (mkResolver r' (rv_references v) (rv_alloc_failed v) (rv_events v))) (rv_registry v) → computes (in_registry c) Q v.
Proof. intros (a&r'&E&HQ). eexists a, _. unfold in_registry. rewrite E. by split. Qed.

Lemma computes_realloc q old new r : computes (realloc q old new) (λ _ r', asked r r') r.
Proof.
  unfold realloc. pose proof (ctx_realloc_ok q old new (rg_ctx r)) as Hle. destruct (ctx_realloc q old new (rg_ctx r)) as [a c] eqn:E.
  exists a, (set_ctx c r). rewrite E. split; [done|]. by split_and!.
Qed.
(** At most the event of the reference is added. *)
Lemma add_reference_ok p e v : computes (bebop__validate_add_reference p e) (λ _ v', ∃ l, follows v v' l ∧ Forall (eq e) l) v.
Proof.
  unfold bebop__validate_add_reference. eapply computes_bind; [by apply (computes_gets _ (λ _ v', v' = v))|]. intros refs ? ->.
  set (rf := default _ _).
  assert (Hpush : ∀ v1 rf', asked (rv_registry v) (rv_registry v1) → rv_events v1 = rv_events v →
    computes (put_refs p rf';; emit e) (λ _ v', ∃ l, follows v v' l ∧ Forall (eq e) l) v1).
  { intros v1 rf' H1 He. eapply computes_bind; [by apply (computes_modify _ (λ _ v', asked (rv_registry v) (rv_registry v') ∧ rv_events v' = rv_events v))|].
    intros ? v2 (H2&He2). apply computes_modify. exists [e]. split; [|by repeat constructor]. split; [done|]. cbn. by rewrite He2. }
  assert (Hfail : ∀ v1, asked (rv_registry v) (rv_registry v1) → rv_events v1 = rv_events v →
    computes alloc_failed (λ _ v', ∃ l, follows v v' l ∧ Forall (eq e) l) v1).
  { intros v1 H1 He. apply computes_modify. exists []. split; [|done]. split; [done|]. by rewrite app_nil_r. }
  destruct (_ <=? _); [|by apply Hpush]. destruct (_ <? _); [by apply Hfail|].
  eapply (computes_bind _ _ (λ _ v1, asked (rv_registry v) (rv_registry v1) ∧ rv_events v1 = rv_events v)).
  - apply computes_in_registry. eapply computes_weaken; [apply computes_realloc|]. by intros.
  - intros [arr|] v1 (H1&He); [by apply Hpush|by apply Hfail].
Qed.

Section InDefinition.
Context (result : bebop_parse_result) (fuel : nat) (p : def_ptr) (kind : bebop__resolve_kind_t).

(** What the resolution has done when it goes on ([true]) or has reported something. *)
Definition outcome (v v' : resolver_t) (ok : bool) : Prop :=
  ∃ l, follows v v' l ∧ if ok then quiet l else ¬ quiet l.
Lemma outcome_refl v : outcome v v true.
Proof. exists []. split; [apply follows_refl|constructor]. Qed.
Lemma outcome_trans v v1 v2 b : outcome v v1 true → outcome v1 v2 b → outcome v v2 b.
Proof.
  intros (l1&H1&Hq1) (l2&H2&Hq2). exists (l1 ++ l2). split; [by eapply follows_trans|]. destruct b; rewrite Forall_app; naive_solver.
Qed.

Definition place_ok (v : resolver_t) : Prop :=
  registry_ok (rv_registry v) ∧ result_ok (rv_registry v) result ∧ is_Some (rg_defs (rv_registry v) !! p).
Lemma place_ok_asked v v' : place_ok v → asked (rv_registry v) (rv_registry v') → place_ok v'.
Proof. intros (H1&H2&H3) H. split_and!; [by eapply asked_ok|by eapply asked_result|]. by destruct H as (->&_). Qed.

Lemma get_schema_ok v : place_ok v →
  computes (bebop__validate_get_schema p) (λ s v', v' = v ∧ ∃ d, rg_defs (rv_registry v) !! p = Some d ∧ df_schema d = Some s) v.
Proof.
  intros (Hr&_&(d&E)). unfold bebop__validate_get_schema. destruct (ro_schema _ Hr p d E) as (s&Es&_).
  eapply (computes_bind _ _ (λ d' v', d' = d ∧ v' = v)).
  - apply computes_in_registry, (computes_deref p d); [done|]. split; [done|]. by destruct v.
  - intros ? ? (->&->). apply (computes_lift _ s); [done|]. eauto.
Qed.
Lemma report_ok path rep v : place_ok v → computes (report p path rep) (λ _ v', outcome v v' false) v.
Proof.
  intros Hv. unfold report. eapply computes_bind; [by apply get_schema_ok|]. intros s ? (->&_). apply computes_modify.
  exists [Report s path rep]. split; [by split|]. by intros (H&_)%Forall_cons.
Qed.
Lemma report_then {A} path rep (a : A) v : place_ok v → computes (report p path rep;; mret a) (λ a' v', a' = a ∧ outcome v v' false) v.
Proof. intros Hv. eapply computes_bind; [by apply report_ok|]. intros ? v1 H1. by apply computes_ret. Qed.
Lemma computes_in_deref q d (Q : bebop_def_t → resolver_t → Prop) v :
  rg_defs (rv_registry v) !! q = Some d → Q d v → computes (in_registry (deref q)) Q v.
Proof. intros E HQ. apply computes_in_registry, (computes_deref q d); [done|]. by destruct v. Qed.

Lemma union_internal_ok q d v :
  place_ok v → rg_defs (rv_registry v) !! q = Some d →
  computes (union_internal p q) (λ b v', v' = v ∧ (b = false → ∀ u du cd, df_parent d = Some u → rg_defs (rv_registry v) !! u = Some du →
    rg_defs (rv_registry v) !! p = Some cd → def_kind du = BEBOP_DEF_UNION → df_visibility d = BEBOP_VIS_EXPORT ∨ df_parent cd = Some u)) v.
Proof.
  intros (Hr&_&(cd&Ecd)) E. unfold union_internal.
  eapply computes_bind; [by apply (computes_in_deref q d (λ d' v', d' = d ∧ v' = v))|]. intros ? ? (->&->).
  destruct (df_parent d) as [u|] eqn:Eu; [|by apply computes_ret]. destruct (ro_parent _ Hr q d u E Eu) as (_&du&Edu&_).
  eapply computes_bind; [by apply (computes_in_deref u du (λ d' v', d' = du ∧ v' = v))|]. intros ? ? (->&->).
  eapply computes_bind; [by apply (computes_in_deref p cd (λ d' v', d' = cd ∧ v' = v))|]. intros ? ? (->&->).
  apply computes_ret. split; [done|]. intros Hb u' du' cd' [= <-] E1 E2 Hk.
  assert (du' = du) as -> by congruence. assert (cd' = cd) as -> by congruence.
  rewrite (bool_decide_eq_true_2 _ Hk) in Hb. cbn in Hb. destruct (decide (df_parent cd = Some u)); [by right|]. left.
  rewrite bool_decide_eq_false_2 in Hb by done. cbn in Hb. apply negb_false_iff, bool_decide_eq_true in Hb. done.
Qed.

Lemma computes_in_gets {A} (f : registry_t → A) (Q : A → resolver_t → Prop) v : Q (f (rv_registry v)) v → computes (in_registry (gets f)) Q v.
Proof. intros HQ. apply computes_in_registry, computes_gets. by destruct v. Qed.

Lemma resolve_named_ok path name old v :
  place_ok v → (p ≤ fuel)%nat → (∀ q, old = Some q → is_Some (rg_defs (rv_registry v) !! q)) →
  computes (resolve_named result fuel p kind path name old) (λ a v', outcome v v' a.1 ∧
    (∀ q, a.2 = Some q → is_Some (rg_defs (rv_registry v) !! q)) ∧ (a.1 = true → ∃ q, a.2 = Some q ∧ usable (rv_registry v) p kind q)) v.
Proof.
  intros Hv Hp Hold. unfold resolve_named.
  eapply computes_bind; [by apply get_schema_ok|]. intros s ? (->&d&E&Es).
  eapply computes_bind; [by apply (computes_in_gets _ (λ _ v', v' = v))|]. intros type_name ? ->. pose proof Hv as (Hr&Hres&_).
  eapply (computes_bind _ _ (λ a v', follows v v' [] ∧ answer_ok (rv_registry v) s a)).
  { apply computes_in_registry. eapply computes_weaken; [by apply resolve_type_ok, (starts_in _ _ _ _ _ Hr E Es)|]. intros a r' (H1&Ha). split; [|done]. split; [done|]. by rewrite app_nil_r. }
  intros [[q|] other] v1 (H1&Ha); pose proof H1 as (Has&_); pose proof (place_ok_asked _ _ Hv Has) as Hv1;
    assert (H01 : outcome v v1 true) by (by exists []).
  - assert (Hs : sees (rv_registry v) s q) by (by apply Ha). pose proof Hs as (dq&t&Eq&_).
    destruct other as [other|].
    { eapply computes_weaken; [by apply report_then|]. intros ? v2 (->&H2). split_and!; [by eapply outcome_trans|done|done]. }
    eapply computes_bind; [apply add_reference_ok|]. intros ? v2 (l&H2&Hall).
    assert (Hl : quiet l) by (eapply Forall_impl; [exact Hall|]; by intros ? <-). pose proof H2 as (Has2&_).
    assert (H02 : outcome v v2 true) by (eapply outcome_trans; [exact H01|by exists l]).
    pose proof (place_ok_asked _ _ Hv1 Has2) as Hv2.
    assert (H02a : asked (rv_registry v) (rv_registry v2)) by (etrans; [exact Has|exact Has2]).
    assert (Eq2 : rg_defs (rv_registry v2) !! q = Some dq) by (by destruct H02a as (->&_)).
    eapply computes_bind; [by apply (computes_in_deref q dq (λ d' v', d' = dq ∧ v' = v2))|]. intros ? ? (->&->).
    assert (Hbad : ∀ rep v3, v3 = v2 → computes (report p path rep;; mret (false, Some q)) (λ a v', outcome v v' a.1 ∧
      (∀ q, a.2 = Some q → is_Some (rg_defs (rv_registry v) !! q)) ∧ (a.1 = true → ∃ q, a.2 = Some q ∧ usable (rv_registry v) p kind q)) v3).
    { intros rep ? ->. eapply computes_weaken; [by apply report_then|]. intros ? v3 (->&H3). split_and!; [by eapply outcome_trans| |done]. intros ? [= <-]. by eexists. }
    destruct (bool_decide (def_kind dq = BEBOP_DEF_DECORATOR)) eqn:Ed; [by apply Hbad|].
    destruct (bool_decide (kind = RESOLVE_FIELD_TYPE) && bool_decide (def_kind dq = BEBOP_DEF_SERVICE)) eqn:Ef; cbn [orb]; [by apply Hbad|].
    eapply computes_bind; [by apply (union_internal_ok q dq v2)|]. intros b ? (->&Hu). destruct b; [by apply Hbad|].
    apply computes_ret. split_and!; [done|intros ? [= <-]; by eexists|]. intros _. exists q. split; [done|]. apply (asked_usable _ _ _ _ _ H02a).
    apply bool_decide_eq_false in Ed. split.
    + exists d, s. split_and!; [by destruct H02a as (->&_)|done|by eapply asked_sees].
    + intros d' E'. assert (d' = dq) as -> by congruence. split; [done|]. intros ->. rewrite bool_decide_eq_true_2 in Ef by done. by apply bool_decide_eq_false in Ef.
    + intros d' u du cd E' Ep Eu Ec. assert (d' = dq) as -> by congruence. by apply (Hu eq_refl u du cd).
  - eapply (computes_bind _ _ (λ _ v', v' = v1)).
    { apply computes_in_registry. destruct Hv1 as (?&?&_). eapply computes_weaken; [by apply suggest_ok|]. intros ? ? ->. by destruct v1. }
    intros sg ? ->. eapply computes_weaken; [by apply report_then|]. intros ? v2 (->&H2). split_and!; [by eapply outcome_trans|done|done].
Qed.

(** *** The stack *)

Lemma place_ok_quiet v v' b : place_ok v → outcome v v' b → place_ok v'.
Proof. intros Hv (l&(H&_)&_). by eapply place_ok_asked. Qed.

(** The loop over the stack goes through the whole type: no place is left out because the
    stack is full, and none is looked at twice. *)
Definition ptrs_ok (v : resolver_t) : bebop_type_t → Prop := all_names (λ o, ∀ q, o = Some q → is_Some (rg_defs (rv_registry v) !! q)).
Definition done_or_waiting (v : resolver_t) (root : bebop_type_t) (stack : list (list nat * Z)) : Prop :=
  ∀ path name o, type_at root path = Some (TDefined name o) →
    (∃ q, o = Some q ∧ usable (rv_registry v) p kind q) ∨ on_stack stack path.

Lemma ptrs_ok_set v root path q : ptrs_ok v root → is_Some (rg_defs (rv_registry v) !! q) → ptrs_ok v (set_resolved root path q).
Proof.
  unfold ptrs_ok. rewrite !all_names_paths. intros H Hq path' name o [(_&E)|(_&->)]%type_at_set_resolved; [by eapply H|]. by intros ? [= <-].
Qed.
Lemma type_resolved_asked v v' t : asked (rv_registry v) (rv_registry v') → type_resolved (rv_registry v') p kind t → type_resolved (rv_registry v) p kind t.
Proof.
  intros Ha. unfold type_resolved. rewrite !all_names_paths. intros H path name o E. destruct (H path name o E) as (q&?&?). exists q.
  split; [done|]. by apply (asked_usable _ _ _ _ _ Ha).
Qed.
Lemma ptrs_ok_asked v v' root : asked (rv_registry v) (rv_registry v') → ptrs_ok v root ↔ ptrs_ok v' root.
Proof.
  unfold ptrs_ok. rewrite !all_names_paths. intros (Hd&_). split; intros H path name o E q Hq; [rewrite Hd|rewrite <- Hd]; by eapply H.
Qed.

(** The places below a place. *)
Definition children (t : bebop_type_t) (path : list nat) : list (list nat) :=
  match t with
  | TArray _ | TFixedArray _ _ => [path ++ [0%nat]]
  | TMap _ _ => [path ++ [0%nat]; path ++ [1%nat]]
  | _ => []
  end.

Lemma work_children root path t stack depth :
  type_at root path = Some t →
  (work root (map (λ c, (c, depth)) (children t path) ++ stack) < work root ((path, depth) :: stack))%nat ∧
  Forall (λ e : list nat * Z, is_Some (type_at root e.1)) (map (λ c, (c, depth)) (children t path)).
Proof.
  intros E. unfold work. rewrite sum_list_with_app. cbn [sum_list_with fst]. rewrite E.
  assert (Hc : ∀ i, type_at root (path ++ [i]) = type_at t [i]) by (intros i; by apply type_at_app).
  pose proof (type_nodes_positive t). destruct t; cbn [children map sum_list_with fst type_nodes];
    rewrite ?Hc; cbn [type_at]; rewrite ?type_at_nil; (split; [cbn [type_nodes]; lia|]); rewrite ?Forall_cons, ?Forall_nil; cbn [fst];
    rewrite ?Hc; cbn [type_at]; rewrite ?type_at_nil; eauto.
Qed.

Lemma waiting_children v root path t stack depth depth' :
  type_at root path = Some t → match t with TDefined _ _ => False | _ => True end →
  done_or_waiting v root ((path, depth) :: stack) → done_or_waiting v root (map (λ c, (c, depth')) (children t path) ++ stack).
Proof.
  intros E Ht H path' name o E'. destruct (H path' name o E') as [?|(e&rest&He&->)]; [by left|right].
  apply elem_of_cons in He as [->|He]; [|exists e, rest; split; [set_solver|done]]. cbn in E'.
  rewrite (type_at_app path rest root t E) in E'.
  destruct t, rest as [|[|[|i]] rest]; cbn in E'; try done;
    [exists (path ++ [0%nat], depth'), rest..|exists (path ++ [1%nat], depth'), rest]; (split; [cbn; set_solver|cbn; by rewrite <- app_assoc]).
Qed.

Lemma done_or_waiting_asked v v' root stack :
  asked (rv_registry v) (rv_registry v') → done_or_waiting v root stack → done_or_waiting v' root stack.
Proof.
  intros Ha H path name o E. destruct (H path name o E) as [(q&?&?)|?]; [left|by right]. exists q. split; [done|]. by apply (asked_usable (rv_registry v)).
Qed.

Lemma resolve_type_loop_ok steps : ∀ v root stack,
  place_ok v → (p ≤ fuel)%nat → ptrs_ok v root → stack_depths stack → (work root stack ≤ steps)%nat →
  Forall (λ e : list nat * Z, is_Some (type_at root e.1)) stack → done_or_waiting v root stack →
  computes (resolve_type_loop result fuel p kind steps root stack) (λ a v', outcome v v' a.1 ∧ erase a.2 = erase root ∧ ptrs_ok v a.2 ∧
    (a.1 = true → type_resolved (rv_registry v) p kind a.2)) v.
Proof.
  induction steps as [|steps IH]; intros v root [|[path depth] stack] Hv Hp Hptrs Hdepths Hwork Hat Hwait; cbn [resolve_type_loop].
  - apply computes_ret. split_and!; [apply outcome_refl|done|done|]. intros _. apply all_names_paths.
    intros path name o E. destruct (Hwait path name o E) as [?|(e&rest&He&_)]; [done|by apply not_elem_of_nil in He].
  - exfalso. apply Forall_cons in Hat as ((t&E)&_). cbn in E. unfold work in Hwork. cbn in Hwork. rewrite E in Hwork.
    pose proof (type_nodes_positive t). lia.
  - apply computes_ret. split_and!; [apply outcome_refl|done|done|]. intros _. apply all_names_paths.
    intros path name o E. destruct (Hwait path name o E) as [?|(e&rest&He&_)]; [done|by apply not_elem_of_nil in He].
  - apply Forall_cons in Hat as ((t&E)&Hat). cbn in E. destruct Hdepths as (Hd&Hdepths).
    eapply computes_bind; [by apply (computes_lift _ t (λ t' v', t' = t ∧ v' = v))|]. intros ? ? (->&->).
    destruct (work_children root path t stack (depth + 1) E) as (Hw&Hc). unfold work in Hw at 2. cbn [sum_list_with fst] in Hw.
    unfold work in Hwork. cbn [sum_list_with fst] in Hwork.
    fold (work root stack) in Hw, Hwork. rewrite E in Hw, Hwork.
    assert (Hskip : match t with TDefined _ _ | TArray _ | TFixedArray _ _ | TMap _ _ => False | _ => True end →
      computes (resolve_type_loop result fuel p kind steps root stack) (λ a v', outcome v v' a.1 ∧ erase a.2 = erase root ∧ ptrs_ok v a.2 ∧
        (a.1 = true → type_resolved (rv_registry v) p kind a.2)) v).
    { intros Ht. apply IH; try done; [destruct t; cbn [type_nodes] in Hwork; try done; lia|].
      pose proof (waiting_children v root path t stack depth (depth + 1) E ltac:(by destruct t) Hwait) as H'. by destruct t. }
    assert (Hdeep : computes (report p path TooDeep;; mret (false, root)) (λ a v', outcome v v' a.1 ∧ erase a.2 = erase root ∧ ptrs_ok v a.2 ∧
        (a.1 = true → type_resolved (rv_registry v) p kind a.2)) v).
    { eapply computes_weaken; [by apply report_then|]. intros ? v1 (->&H1). by split_and!. }
    destruct (Z.leb_spec BEBOP_MAX_TYPE_DEPTH depth) as [Hlong|Hshort]; [by destruct t; try apply Hdeep; apply Hskip|].
    assert (Hpush : (length stack + length (children t path) ≤ BEBOP_VALIDATE_TYPE_STACK_SIZE)%nat).
    { unfold BEBOP_VALIDATE_TYPE_STACK_SIZE, BEBOP_MAX_TYPE_DEPTH in *. unfold zlen in Hd. destruct t; cbn [children length]; lia. }
    assert (Hgo : match t with TDefined _ _ => False | _ => True end →
      computes (resolve_type_loop result fuel p kind steps root (map (λ c, (c, depth + 1)) (children t path) ++ stack)) (λ a v', outcome v v' a.1 ∧
        erase a.2 = erase root ∧ ptrs_ok v a.2 ∧ (a.1 = true → type_resolved (rv_registry v) p kind a.2)) v).
    { intros Ht. apply IH; try done; [|lia|by apply Forall_app|by eapply waiting_children].
      destruct t; cbn [children map app stack_depths]; unfold zlen in *; cbn [length]; split_and?; try done; lia. }
    apply Nat.leb_le in Hpush. destruct t as [|sk|e|e n|k vt|name old]; try (by apply Hskip); cbn [children] in *; try (rewrite Hpush; by apply Hgo).
    clear Hskip Hdeep Hgo Hpush.
    eapply computes_bind; [apply (resolve_named_ok path name old v); [done|done|]|].
    { intros q ->. by apply (proj1 (all_names_paths _ _) Hptrs path name (Some q) E). }
    intros [ok q] v1 (H1&Hq&Hok). cbn [fst snd] in *. pose proof H1 as (l&(Ha&_)&_).
    set (root' := match q with Some p => set_resolved root path p | None => root end).
    assert (He : erase root' = erase root) by (subst root'; destruct q; [apply erase_set_resolved|done]).
    assert (Hp' : ptrs_ok v root') by (subst root'; destruct q as [q|]; [apply ptrs_ok_set; auto|done]).
    destruct ok; [|by apply computes_ret; split_and!].
    destruct (Hok eq_refl) as (q'&Hq'&Hu). assert (q = Some q') as -> by done.
    eapply computes_weaken; [apply (IH v1 root' stack); [by eapply place_ok_asked|done|by apply (ptrs_ok_asked v)|done| | |]|].
    + rewrite (work_erase root' root) by done. cbn [type_nodes] in Hwork. lia.
    + eapply Forall_impl; [exact Hat|]. intros e. by apply erase_at.
    + apply (done_or_waiting_asked v); [done|]. intros path' name' o E'. apply type_at_set_resolved in E' as [(Hne&E')|(->&->)]; [|left; eauto].
      destruct (Hwait path' name' o E') as [?|(e&rest&Hin&->)]; [by left|]. apply elem_of_cons in Hin as [->|Hin]; [|right; by exists e, rest].
      left. cbn in E'. rewrite (type_at_app path rest root _ E) in E'. destruct rest as [|[|[|i]] rest]; [|done..]. cbn in Hne. by rewrite app_nil_r in Hne.
    + intros [ok2 root2] v2 (H2&He2&Hp2&Hr2). cbn in *. split_and!; [by eapply outcome_trans|congruence| |].
      * by apply (ptrs_ok_asked v v1).
      * intros ->. by apply (type_resolved_asked _ _ root2 Ha), Hr2.
Qed.
End InDefinition.
End Types.

(** ** Definitions *)

Section Definitions.
Context {cc : Context} {Hcc : ContextOk} {dm : DefMap def_ptr} {Hdm : DefMapOk}.
Context (result : bebop_parse_result).

(** The types in a definition, and how their names are used. *)
Definition body_types (b : def_body) : list (bebop__resolve_kind_t * bebop_type_t) :=
  match b with
  | StructDef fields _ _ | MessageDef fields => map (λ f, (RESOLVE_FIELD_TYPE, fd_type f)) fields
  | UnionDef branches => map (λ b, (RESOLVE_FIELD_TYPE, br_type_ref b)) branches
  | ServiceDef methods mixins =>
      concat (map (λ m, [(RESOLVE_FIELD_TYPE, me_request_type m); (RESOLVE_FIELD_TYPE, me_response_type m)]) methods) ++
      map (λ t, (RESOLVE_MIXIN_TYPE, t)) mixins
  | _ => []
  end.
Definition branches_of (b : def_body) : list bebop_union_branch_t := match b with UnionDef branches => branches | _ => [] end.

(** Every name leads to a definition that may stand there, and branches to structs and
    messages. *)
Definition branch_resolved (r : registry_t) (t : bebop_type_t) : Prop :=
  ∀ name q, t = TDefined name (Some q) → ∃ d, rg_defs r !! q = Some d ∧ (def_kind d = BEBOP_DEF_STRUCT ∨ def_kind d = BEBOP_DEF_MESSAGE).
Definition body_resolved (r : registry_t) (p : def_ptr) (b : def_body) : Prop :=
  Forall (λ kt, type_resolved r p kt.1 kt.2) (body_types b) ∧ Forall (λ br, branch_resolved r (br_type_ref br)) (branches_of b).

(** Definitions that the parser made: pointers lead to definitions, and the definitions in
    the branches of a union come after it. *)
Record body_ok (h : heap) (p : def_ptr) (b : def_body) : Prop := {
  bo_known : b ≠ UnknownDef;
  bo_ptrs : Forall (λ kt, all_names (λ o, ∀ q, o = Some q → is_Some (h !! q)) kt.2) (body_types b);
  bo_branches : Forall (λ br, ∀ q, br_def br = Some q → (p < q)%nat ∧ is_Some (h !! q)) (branches_of b)
}.
Record program_ok (v : resolver_t) : Prop := {
  po_registry : registry_ok (rv_registry v);
  po_result : result_ok (rv_registry v) result;
  po_bodies : ∀ p d, rg_defs (rv_registry v) !! p = Some d → body_ok (rg_defs (rv_registry v)) p (df_body d)
}.

(** Definitions keep their places and kinds. *)
Definition kept (r r' : registry_t) : Prop := Forall2 same_place (rg_defs r) (rg_defs r') ∧ rg_schemas r' = rg_schemas r.
#[local] Instance kept_preorder : PreOrder kept.
Proof.
  pose proof same_place_preorder. split; [intros r; split; [reflexivity|done]|]. intros r r' r'' (?&?) (?&?). split; [by etrans|congruence].
Qed.
Lemma asked_kept r r' : asked r r' → kept r r'.
Proof. pose proof same_place_preorder. unfold kept. intros (->&->&_). by split. Qed.
Lemma kept_up r r' p d : kept r r' → rg_defs r !! p = Some d → ∃ d', rg_defs r' !! p = Some d' ∧ same_place d d'.
Proof. intros (H&_) E. destruct (Forall2_lookup_l _ _ _ _ _ H E) as (d'&?&?). eauto. Qed.
Lemma kept_down r r' p d' : kept r r' → rg_defs r' !! p = Some d' → ∃ d, rg_defs r !! p = Some d ∧ same_place d d'.
Proof. intros (H&_) E. destruct (Forall2_lookup_r _ _ _ _ _ H E) as (d&?&?). eauto. Qed.
Lemma kept_some r r' p : kept r r' → is_Some (rg_defs r !! p) → is_Some (rg_defs r' !! p).
Proof. intros H (d&E). destruct (kept_up _ _ _ _ H E) as (d'&?&_). by eexists. Qed.

Lemma kept_sees r r' s p : kept r r' → sees r s p → sees r' s p.
Proof.
  intros H (d&t&E&Et&Hv). destruct (kept_up _ _ _ _ H E) as (d'&E'&[]). exists d', t. split_and!; [done|congruence|].
  destruct H as (_&->). done.
Qed.
Lemma kept_usable r r' p kind q : kept r r' → usable r p kind q → usable r' p kind q.
Proof.
  intros H [(d&s&E&Es&Hs) H2 H3]. destruct (kept_up _ _ _ _ H E) as (d'&E'&Hd'). split.
  - exists d', s. split_and!; [done|by rewrite (sp_schema _ _ Hd')|by eapply kept_sees].
  - intros dq Eq. destruct (kept_down _ _ _ _ H Eq) as (dq0&Eq0&Hq). rewrite (sp_kind _ _ Hq). eauto.
  - intros dq u du cd Eq Ep Eu Ec Hk. destruct (kept_down _ _ _ _ H Eq) as (dq0&Eq0&Hq). destruct (kept_down _ _ _ _ H Eu) as (du0&Eu0&Hu).
    destruct (kept_down _ _ _ _ H Ec) as (cd0&Ec0&Hc). rewrite (sp_parent _ _ Hq) in Ep. rewrite (sp_kind _ _ Hu) in Hk.
    rewrite (sp_visibility _ _ Hq), (sp_parent _ _ Hc). by apply (H3 dq0 u du0 cd0).
Qed.
Lemma kept_type_resolved r r' p kind t : kept r r' → type_resolved r p kind t → type_resolved r' p kind t.
Proof.
  intros H. unfold type_resolved. rewrite !all_names_paths. intros Ht path name o E. destruct (Ht path name o E) as (q&?&?).
  exists q. split; [done|]. by eapply kept_usable.
Qed.
Lemma kept_body_resolved r r' p b : kept r r' → body_resolved r p b → body_resolved r' p b.
Proof.
  intros H (H1&H2). split.
  - eapply Forall_impl; [exact H1|]. intros kt. by apply kept_type_resolved.
  - eapply Forall_impl; [exact H2|]. intros br Hbr name q E. destruct (Hbr name q E) as (d&Ed&Hd).
    destruct (kept_up _ _ _ _ H Ed) as (d'&?&Hs). exists d'. split; [done|]. by rewrite (sp_kind _ _ Hs).
Qed.
Lemma kept_body_ok r r' p b : kept r r' → body_ok (rg_defs r) p b → body_ok (rg_defs r') p b.
Proof.
  intros H [H1 H2 H3]. split; [done|..].
  - eapply Forall_impl; [exact H2|]. intros kt. rewrite !all_names_paths. intros Ht path name o E q Hq. eapply kept_some; [done|]. by eapply Ht.
  - eapply Forall_impl; [exact H3|]. intros br Hbr q Hq. destruct (Hbr q Hq). split; [done|]. by eapply kept_some.
Qed.
Lemma kept_result r r' : kept r r' → result_ok r result → result_ok r' result.
Proof.
  intros H [H1 H2]. split; [by destruct H as (_&->)|]. intros k p E. eapply kept_some; [done|]. by eapply H2.
Qed.

(** *** The types of one definition *)

Section OneDefinition.
Context (v0 : resolver_t) (p : def_ptr) (Hv0 : program_ok v0) (Hp : is_Some (rg_defs (rv_registry v0) !! p)).
Abbreviation r0 := (rv_registry v0).
Abbreviation valid := (all_names (λ o, ∀ q, o = Some q → is_Some (rg_defs r0 !! q))).

(** A computation on parts of the definition: a part stays valid, and is right when nothing
    was reported. *)
Definition treats {B} (c : C resolver_t B) (ok : B → Prop) (right : B → Prop) : Prop :=
  ∀ v, asked r0 (rv_registry v) → computes c (λ b v', ∃ l, follows v v' l ∧ ok b ∧ (Forall is_reference l → right b)) v.

Lemma treats_bind {B B'} (c : C resolver_t B) (k : B → C resolver_t B') ok right ok' right' :
  treats c ok right → (∀ b, ok b → treats (k b) ok' (λ b', right b → right' b')) → treats (c ≫= k) ok' right'.
Proof.
  intros Hc Hk v Hv. eapply computes_bind; [by apply Hc|]. intros b v1 (l1&H1&Hok&Hr).
  assert (Hv1 : asked r0 (rv_registry v1)) by (etrans; [exact Hv|apply H1]).
  eapply computes_weaken; [by apply Hk|]. intros b' v2 (l2&H2&Hok'&Hr'). exists (l1 ++ l2). split; [by eapply follows_trans|]. split; [done|].
  intros (Hl1&Hl2)%Forall_app. auto.
Qed.
Lemma treats_ret {B} (b : B) (ok right : B → Prop) : ok b → right b → treats (mret b) ok right.
Proof. intros Hok Hr v Hv. apply computes_ret. exists []. split; [apply follows_refl|done]. Qed.

Lemma place_ok_here v : asked r0 (rv_registry v) → place_ok result p v.
Proof. intros Hv. apply (place_ok_asked result p v0); [|done]. destruct Hv0. by split_and!. Qed.

Lemma resolve_in_treats kind t :
  valid t → treats (resolve_in result p kind t) (λ t', erase t' = erase t ∧ valid t') (type_resolved r0 p kind).
Proof.
  intros Ht v Hv. unfold resolve_in, chain_fuel.
  eapply computes_bind; [by apply (computes_gets _ (λ n v', n = length (rg_defs (rv_registry v)) ∧ v' = v))|]. intros ? ? (->&->).
  assert (Hlt : (p ≤ length (rg_defs (rv_registry v)))%nat).
  { destruct Hp as (d&E). apply lookup_lt_Some in E. destruct Hv as (->&_). lia. }
  eapply (computes_bind _ _ (λ a v', outcome v v' a.1 ∧ erase a.2 = erase t ∧ valid a.2 ∧ (a.1 = true → type_resolved r0 p kind a.2))).
  - assert (Hloop : computes (resolve_type_loop result (length (rg_defs (rv_registry v))) p kind (type_nodes t) t [([], 0)])
      (λ a v', outcome v v' a.1 ∧ erase a.2 = erase t ∧ valid a.2 ∧ (a.1 = true → type_resolved r0 p kind a.2)) v).
    { eapply computes_weaken; [apply resolve_type_loop_ok; [by apply place_ok_here|done|by apply (ptrs_ok_asked v0 v)|by split| | |]|].
      - unfold work. cbn. rewrite type_at_nil. lia.
      - apply Forall_singleton. cbn. rewrite type_at_nil. by eexists.
      - intros path name' o E. right. exists ([], 0), path. split; [set_solver|done].
      - intros a v' (H1&H2&H3&H4). split_and!; [done..|by apply (ptrs_ok_asked v0 v)|]. intros Ha. apply (type_resolved_asked p kind v0 v _ Hv). auto. }
    unfold bebop__validate_resolve_type. by destruct t.
  - intros [ok t'] v1 ((l&H1&Hl)&He&Hval&Hr). apply computes_ret. exists l. split; [done|]. split; [done|]. cbn in *. intros Hq. destruct ok; auto.
Qed.

Lemma each_treats {A} (f : A → C resolver_t A) (ok : A → A → Prop) (right : A → Prop) l :
  (∀ a, a ∈ l → treats (f a) (ok a) right) → treats (each f l) (Forall2 ok l) (Forall right).
Proof.
  induction l as [|a l IH]; intros H; cbn [each]; [by apply treats_ret|].
  eapply treats_bind; [apply H; set_solver|]. intros a' Ha'. eapply treats_bind; [apply IH; intros; apply H; set_solver|].
  intros l' Hl'. apply treats_ret; [by constructor|]. intros Hr Hr'. by constructor.
Qed.
Lemma treats_weaken {B} (c : C resolver_t B) (ok right ok' right' : B → Prop) :
  treats c ok right → (∀ b, ok b → ok' b ∧ (right b → right' b)) → treats c ok' right'.
Proof.
  intros Hc H v Hv. eapply computes_weaken; [by apply Hc|]. intros b v' (l&?&Hok&Hr). exists l. destruct (H b Hok). split_and!; auto.
Qed.

Definition kept_type (t t' : bebop_type_t) : Prop := erase t' = erase t ∧ valid t'.

Lemma resolve_field_treats f : valid (fd_type f) →
  treats (resolve_field result p f) (λ f', kept_type (fd_type f) (fd_type f')) (λ f', type_resolved r0 p RESOLVE_FIELD_TYPE (fd_type f')).
Proof. intros Hf. eapply treats_bind; [by apply resolve_in_treats|]. intros t' Ht'. by apply treats_ret. Qed.

Lemma resolve_method_treats m : valid (me_request_type m) → valid (me_response_type m) →
  treats (resolve_method result p m) (λ m', kept_type (me_request_type m) (me_request_type m') ∧ kept_type (me_response_type m) (me_response_type m'))
    (λ m', type_resolved r0 p RESOLVE_FIELD_TYPE (me_request_type m') ∧ type_resolved r0 p RESOLVE_FIELD_TYPE (me_response_type m')).
Proof.
  intros H1 H2. eapply treats_bind; [by apply resolve_in_treats|]. intros t1 Ht1. eapply treats_bind; [by apply resolve_in_treats|].
  intros t2 Ht2. by apply treats_ret.
Qed.

Lemma check_branch_treats i t : valid t → treats (check_branch p i t) (λ _, True) (λ _, branch_resolved r0 t).
Proof.
  intros Ht v Hv. pose proof (place_ok_here v Hv) as Hpl. unfold check_branch.
  destruct t as [| | | | |name [q|]];
    try (apply computes_ret; exists []; split; [apply follows_refl|]; split; [done|]; by intros _ name0 q0 [=]).
  destruct (Ht q eq_refl) as (d&E).
  eapply computes_bind; [apply (computes_in_deref q d (λ d' v', d' = d ∧ v' = v)); [by destruct Hv as (->&_)|done]|]. intros ? ? (->&->).
  assert (Hbad : ∀ b, computes (s ← bebop__validate_get_schema p; emit (BadBranch s i b)) (λ _ v', ∃ l, follows v v' l ∧ True ∧ (Forall is_reference l → branch_resolved r0 (TDefined name (Some q)))) v).
  { intros b. eapply computes_bind; [by apply (get_schema_ok result p)|]. intros s ? (->&_). apply computes_modify. exists [BadBranch s i b].
    split; [by split|]. split; [done|]. by intros (?&_)%Forall_cons. }
  assert (Hgood : def_kind d = BEBOP_DEF_STRUCT ∨ def_kind d = BEBOP_DEF_MESSAGE →
    computes (mret tt) (λ _ v', ∃ l, follows v v' l ∧ True ∧ (Forall is_reference l → branch_resolved r0 (TDefined name (Some q)))) v).
  { intros Hk. apply computes_ret. exists []. split; [apply follows_refl|]. split; [done|]. intros _ name0 q0 [= <- <-]. eauto. }
  destruct (def_kind d) eqn:Ek; try apply Hbad; try (apply Hgood; by auto).
  exfalso. apply (bo_known _ _ _ (po_bodies _ Hv0 q d E)). unfold def_kind in Ek. by destruct (df_body d).
Qed.

(** The branches of a union, and the definitions they contain, which wait on the stack. *)
Definition stacked (new : list def_ptr) (stack stack' : list (def_ptr * Z)) : Prop :=
  (∀ e : def_ptr * Z, e ∈ stack' → e ∈ stack ∨ e.1 ∈ new) ∧
  ∀ w : def_ptr → nat, (sum_list_with (λ e : def_ptr * Z, w e.1) stack' ≤ sum_list_with w new + sum_list_with (λ e : def_ptr * Z, w e.1) stack)%nat.
Lemma stacked_refl stack : stacked [] stack stack.
Proof. split; [by left|done]. Qed.

Lemma push_branch_stacked (o : option def_ptr) depth stack :
  stacked (option_list o) stack
    (match o with
     | Some q => if (length stack <? BEBOP_VALIDATE_DEF_STACK_SIZE)%nat then (q, depth + 1) :: stack else stack
     | None => stack
     end).
Proof.
  destruct o as [q|]; [|apply stacked_refl]. destruct (_ <? _)%nat; split; cbn; try set_solver; intros w; lia.
Qed.
Lemma stacked_trans new1 new2 s s1 s2 : stacked new1 s s1 → stacked new2 s1 s2 → stacked (new1 ++ new2) s s2.
Proof.
  intros (H1&W1) (H2&W2). split.
  - intros e He. destruct (H2 e He) as [?|?]; [|set_solver]. destruct (H1 e) as [?|?]; set_solver.
  - intros w. rewrite sum_list_with_app. specialize (W1 w). specialize (W2 w). lia.
Qed.

Lemma resolve_branches_treats depth branches : ∀ i stack,
  Forall (λ b, valid (br_type_ref b)) branches →
  treats (resolve_branches result p depth i branches stack)
    (λ a, Forall2 (λ b b', br_def b' = br_def b ∧ kept_type (br_type_ref b) (br_type_ref b')) branches a.1 ∧ stacked (omap br_def branches) stack a.2)
    (λ a, Forall (λ b, type_resolved r0 p RESOLVE_FIELD_TYPE (br_type_ref b) ∧ branch_resolved r0 (br_type_ref b)) a.1).
Proof.
  induction branches as [|b branches IH]; intros i stack Hb; cbn [resolve_branches].
  - apply treats_ret; [split; [done|apply stacked_refl]|done].
  - apply Forall_cons in Hb as (Hb&Hbs). set (stack1 := match br_def b with Some q => _ | None => stack end).
    assert (Hst : stacked (option_list (br_def b)) stack stack1) by apply push_branch_stacked.
    eapply (treats_bind _ _ (kept_type (br_type_ref b)) (λ t', type_resolved r0 p RESOLVE_FIELD_TYPE t' ∧ branch_resolved r0 t')).
    { assert (Hsome : treats (t ← resolve_in result p RESOLVE_FIELD_TYPE (br_type_ref b); check_branch p i t;; mret t) (kept_type (br_type_ref b))
        (λ t', type_resolved r0 p RESOLVE_FIELD_TYPE t' ∧ branch_resolved r0 t')).
      { eapply treats_bind; [by apply resolve_in_treats|]. intros t' Ht'. eapply treats_bind; [apply check_branch_treats; apply Ht'|].
        intros ? _. apply treats_ret; [done|]. intros Hc Hr. by split. }
      destruct (br_type_ref b); exact Hsome. }
    intros t' Ht'. eapply treats_bind; [by apply (IH (S i) stack1)|]. intros [bs' stack'] (Hbs'&Hst'). cbn [fst snd] in *.
    apply treats_ret.
    + split; [by constructor|]. replace (omap br_def (b :: branches)) with (option_list (br_def b) ++ omap br_def branches) by (cbn; by destruct (br_def b)).
      by eapply stacked_trans.
    + intros Hr (?&?). by constructor.
Qed.

(** What the resolution of the definition does to the program. *)
Definition kids_of (r : registry_t) (q : def_ptr) : list def_ptr :=
  match rg_defs r !! q with Some d => omap br_def (branches_of (df_body d)) | None => [] end.
Record resolves_one (v' : resolver_t) (l : list event_t) : Prop := {
  ro_kept : kept r0 (rv_registry v');
  ro_events : rv_events v' = rv_events v0 ++ l;
  ro_program : program_ok v';
  ro_others : ∀ q, q ≠ p → rg_defs (rv_registry v') !! q = rg_defs r0 !! q;
  ro_kids : ∀ q, kids_of (rv_registry v') q = kids_of r0 q;
  ro_right : Forall is_reference l → ∀ d, rg_defs (rv_registry v') !! p = Some d → body_resolved r0 p (df_body d)
}.

Definition same_kind (b b' : def_body) : Prop := ∀ d, def_kind (set_body b' d) = def_kind (set_body b d).

Lemma set_body_resolves v l d b' :
  follows v0 v l → rg_defs r0 !! p = Some d → same_kind (df_body d) b' → body_ok (rg_defs r0) p b' →
  omap br_def (branches_of b') = omap br_def (branches_of (df_body d)) → (Forall is_reference l → body_resolved r0 p b') →
  computes (set_body_of p b') (λ _ v', resolves_one v' l) v.
Proof.
  intros ((Hd&Hs&Hc)&He) E Hk Hb Hkids Hr. unfold set_body_of. apply computes_in_registry.
  eapply computes_bind; [apply (computes_deref p d (λ d' r', d' = d ∧ r' = rv_registry v)); [by rewrite Hd|done]|]. intros ? ? (->&->). apply computes_modify.
  set (h' := <[p := set_body b' d]> (rg_defs (rv_registry v))).
  assert (Hlt : (p < length (rg_defs (rv_registry v)))%nat) by (rewrite Hd; by eapply lookup_lt_Some).
  assert (Hat : h' !! p = Some (set_body b' d)) by (by apply list_lookup_insert_eq).
  assert (Hother : ∀ q, q ≠ p → h' !! q = rg_defs r0 !! q) by (intros q Hq; unfold h'; by rewrite list_lookup_insert_ne, Hd).
  assert (Hkept : kept r0 (set_defs h' (rv_registry v))).
  { split; [|done]. cbn. unfold h'. rewrite Hd. rewrite <- (list_insert_id _ p d E) at 1. apply Forall2_insert.
    - pose proof same_place_preorder. reflexivity.
    - split; try done; specialize (Hk d); by destruct d. }
  split; cbn; try done.
  - split; [|by eapply kept_result, po_result|].
    + destruct Hkept as (?&?). eapply registry_ok_same; [by apply po_registry|done|done].
    + cbn. intros q dq Eq. eapply (kept_body_ok r0 (set_defs h' (rv_registry v))); [done|]. destruct (decide (q = p)) as [->|Hne].
      * rewrite Hat in Eq. by injection Eq as <-.
      * rewrite Hother in Eq by done. by apply (po_bodies v0).
  - intros q. unfold kids_of. cbn. destruct (decide (q = p)) as [->|Hne]; [by rewrite Hat, E|by rewrite Hother].
  - intros Hq d' Ed'. rewrite Hat in Ed'. injection Ed' as <-. auto.
Qed.

(** *** The parts of each kind of definition *)

Lemma fields_resolved fields : Forall (λ f, valid (fd_type f)) fields →
  treats (each (resolve_field result p) fields) (Forall2 (λ f f', kept_type (fd_type f) (fd_type f')) fields)
    (Forall (λ f, type_resolved r0 p RESOLVE_FIELD_TYPE (fd_type f))).
Proof. intros Hf. apply each_treats. intros f Hin. apply resolve_field_treats. by eapply (proj1 (Forall_forall _ _) Hf). Qed.
Lemma fields_valid fields fields' :
  Forall2 (λ f f', kept_type (fd_type f) (fd_type f')) fields fields' → Forall (λ f, valid (fd_type f)) fields'.
Proof. intros H. apply Forall_forall. intros f' Hin. apply list_elem_of_lookup in Hin as (i&Ei). by destruct (Forall2_lookup_r _ _ _ _ _ H Ei) as (f&_&_&?). Qed.

Lemma methods_resolved methods : Forall (λ m, valid (me_request_type m) ∧ valid (me_response_type m)) methods →
  treats (each (resolve_method result p) methods)
    (Forall2 (λ m m', kept_type (me_request_type m) (me_request_type m') ∧ kept_type (me_response_type m) (me_response_type m')) methods)
    (Forall (λ m, type_resolved r0 p RESOLVE_FIELD_TYPE (me_request_type m) ∧ type_resolved r0 p RESOLVE_FIELD_TYPE (me_response_type m))).
Proof.
  intros Hm. apply each_treats. intros m Hin. destruct (proj1 (Forall_forall _ _) Hm m Hin). by apply resolve_method_treats.
Qed.
Lemma mixins_resolved mixins : Forall valid mixins →
  treats (each (resolve_in result p RESOLVE_MIXIN_TYPE) mixins) (Forall2 kept_type mixins) (Forall (type_resolved r0 p RESOLVE_MIXIN_TYPE)).
Proof. intros Hm. apply each_treats. intros t Hin. apply resolve_in_treats. by apply (proj1 (Forall_forall _ _) Hm). Qed.

(** What is true of the types of a definition. *)
Lemma field_types (P : bebop__resolve_kind_t * bebop_type_t → Prop) fields :
  Forall P (map (λ f, (RESOLVE_FIELD_TYPE, fd_type f)) fields) ↔ Forall (λ f, P (RESOLVE_FIELD_TYPE, fd_type f)) fields.
Proof. by rewrite Forall_map. Qed.
Lemma branch_types (P : bebop__resolve_kind_t * bebop_type_t → Prop) branches :
  Forall P (map (λ b, (RESOLVE_FIELD_TYPE, br_type_ref b)) branches) ↔ Forall (λ b, P (RESOLVE_FIELD_TYPE, br_type_ref b)) branches.
Proof. by rewrite Forall_map. Qed.
Lemma service_types (P : bebop__resolve_kind_t * bebop_type_t → Prop) methods mixins :
  Forall P (body_types (ServiceDef methods mixins)) ↔
  Forall (λ m, P (RESOLVE_FIELD_TYPE, me_request_type m) ∧ P (RESOLVE_FIELD_TYPE, me_response_type m)) methods ∧ Forall (λ t, P (RESOLVE_MIXIN_TYPE, t)) mixins.
Proof.
  cbn. rewrite Forall_app, Forall_map. apply and_iff_compat_r.
  induction methods as [|m ms IH]; cbn; [done|]. rewrite !Forall_cons, IH. naive_solver.
Qed.

Lemma resolve_one_ok depth stack :
  computes (resolve_one result p depth stack) (λ stack' v', ∃ l, resolves_one v' l ∧ stacked (kids_of r0 p) stack stack') v0.
Proof.
  destruct Hp as (d&E). unfold resolve_one. eapply computes_bind; [by apply (computes_in_deref p d (λ d' v', d' = d ∧ v' = v0))|]. intros ? ? (->&->).
  pose proof (po_bodies v0 Hv0 p d E) as [Hkn Hptrs Hbrs].
  assert (Hnone : ∀ b, df_body d = b → body_types b = [] → branches_of b = [] →
    computes (mret stack) (λ stack' v', ∃ l, resolves_one v' l ∧ stacked (kids_of r0 p) stack stack') v0).
  { intros b Eb Ht Hb. apply computes_ret. exists []. split.
    - split; [split; [pose proof same_place_preorder; reflexivity|done]|by rewrite app_nil_r|done|done|done|]. intros _ d' Ed'. assert (d' = d) as -> by congruence.
      rewrite Eb. unfold body_resolved. by rewrite Ht, Hb.
    - unfold kids_of. rewrite E, Eb, Hb. apply stacked_refl. }
  assert (Hput : ∀ l v stack' b', follows v0 v l → same_kind (df_body d) b' → body_ok (rg_defs r0) p b' →
    omap br_def (branches_of b') = omap br_def (branches_of (df_body d)) → (Forall is_reference l → body_resolved r0 p b') →
    stacked (omap br_def (branches_of (df_body d))) stack stack' →
    computes (set_body_of p b';; mret stack') (λ stack' v', ∃ l, resolves_one v' l ∧ stacked (kids_of r0 p) stack stack') v).
  { intros l v stack' b' H1 H2 H3 H4 H5 H6. eapply computes_bind; [by eapply set_body_resolves|]. intros ? v' Hv'. apply computes_ret. exists l.
    split; [done|]. unfold kids_of. by rewrite E. }
  destruct (df_body d) as [|base members|fields size|fields|branches|methods mixins| |] eqn:Eb; [done|by eapply (Hnone _ eq_refl)| | | | |by eapply (Hnone _ eq_refl)..].
  - assert (Hf : Forall (λ f, valid (fd_type f)) fields) by (by apply field_types in Hptrs).
    eapply computes_bind; [by apply (fields_resolved fields Hf)|].
    intros fields' v1 (l&H1&Hok&Hr). eapply Hput; [exact H1|by intros []|split; [done|apply field_types; exact (fields_valid _ _ Hok)|done]|done| |apply stacked_refl].
    intros Hl. split; [apply field_types; exact (Hr Hl)|done].
  - assert (Hf : Forall (λ f, valid (fd_type f)) fields) by (by apply field_types in Hptrs).
    eapply computes_bind; [by apply (fields_resolved fields Hf)|].
    intros fields' v1 (l&H1&Hok&Hr). eapply Hput; [exact H1|by intros []|split; [done|apply field_types; exact (fields_valid _ _ Hok)|done]|done| |apply stacked_refl].
    intros Hl. split; [apply field_types; exact (Hr Hl)|done].
  - assert (Hb : Forall (λ b, valid (br_type_ref b)) branches) by (by apply branch_types in Hptrs).
    eapply computes_bind; [by apply (resolve_branches_treats depth branches 0 stack Hb)|].
    intros [branches' stack'] v1 (l&H1&(Hok&Hst)&Hr). cbn [fst snd] in *.
    assert (Hkids : omap br_def branches' = omap br_def branches).
    { clear -Hok. induction Hok as [|b b' bs bs' (Hb&_) _ IH]; cbn; [done|]. by rewrite Hb, IH. }
    eapply Hput; [exact H1|by intros []| |done| |done].
    + split; [done|apply branch_types|]; apply Forall_forall; intros b' Hin; apply list_elem_of_lookup in Hin as (i&Ei);
        destruct (Forall2_lookup_r _ _ _ _ _ Hok Ei) as (b&Eb'&Hdef&Hty); [apply Hty|]. rewrite Hdef. by apply (Forall_lookup_1 _ _ _ _ Hbrs Eb').
    + intros Hl. specialize (Hr Hl). split; [apply branch_types|]; (eapply Forall_impl; [exact Hr|]); by intros b (?&?).
  - apply service_types in Hptrs as (Hm&Hx). cbn [snd] in Hm, Hx.
    eapply computes_bind; [by apply (methods_resolved methods Hm)|]. intros methods' v1 (l1&H1&Hok1&Hr1).
    eapply computes_bind; [apply (mixins_resolved mixins Hx v1), H1|]. intros mixins' v2 (l2&H2&Hok2&Hr2).
    eapply Hput; [by eapply follows_trans|by intros []| |done| |apply stacked_refl].
    + split; [done| |done]. apply service_types. cbn [snd]. split; apply Forall_forall; intros x Hin; apply list_elem_of_lookup in Hin as (i&Ei).
      * by destruct (Forall2_lookup_r _ _ _ _ _ Hok1 Ei) as (m&_&(_&?)&(_&?)).
      * by destruct (Forall2_lookup_r _ _ _ _ _ Hok2 Ei) as (m&_&_&?).
    + intros (Hl1&Hl2)%Forall_app. split; [|done]. apply service_types. split; [by apply Hr1|by apply Hr2].
Qed.
End OneDefinition.

(** *** All definitions *)

(** How many definitions are visited from [p], counting those in the branches of unions; [n]
    bounds how deep they lie. *)
Fixpoint visits (n : nat) (kids : def_ptr → list def_ptr) (p : def_ptr) : nat :=
  match n with O => 1 | S n => S (sum_list_with (visits n kids) (kids p)) end.
Lemma sum_list_with_le {A} (f g : A → nat) l : (∀ x, x ∈ l → f x ≤ g x)%nat → (sum_list_with f l ≤ sum_list_with g l)%nat.
Proof.
  induction l as [|x l IH]; intros H; cbn; [done|]. pose proof (H x ltac:(set_solver)). assert (∀ y, y ∈ l → f y ≤ g y)%nat by (intros; apply H; set_solver).
  specialize (IH ltac:(done)). lia.
Qed.
Lemma visits_mono kids n : ∀ m p, (n ≤ m)%nat → (visits n kids p ≤ visits m kids p)%nat.
Proof.
  induction n as [|n IH]; intros [|m] p Hm; cbn; try lia. apply le_n_S, sum_list_with_le. intros q _. apply IH. lia.
Qed.
Lemma visits_ext kids kids' n : (∀ q, kids q = kids' q) → ∀ p, visits n kids p = visits n kids' p.
Proof. intros Hk. induction n as [|n IH]; intros p; cbn; [done|]. f_equal. rewrite Hk. induction (kids' p) as [|q l IHl]; cbn; [done|]. by rewrite IH, IHl. Qed.

Definition weight (r : registry_t) (p : def_ptr) : nat := visits (length (rg_defs r) - p) (kids_of r) p.

Lemma weight_positive r p : (1 ≤ weight r p)%nat.
Proof. unfold weight. destruct (length (rg_defs r) - p)%nat; cbn; lia. Qed.
Lemma weight_kids v p :
  program_ok v → is_Some (rg_defs (rv_registry v) !! p) →
  (sum_list_with (weight (rv_registry v)) (kids_of (rv_registry v) p) < weight (rv_registry v) p)%nat.
Proof.
  intros Hv (d&E). unfold weight at 2. pose proof (lookup_lt_Some _ _ _ E).
  destruct (length (rg_defs (rv_registry v)) - p)%nat as [|n] eqn:En; [lia|]. cbn. apply Nat.lt_succ_r, sum_list_with_le.
  intros q Hq. apply visits_mono. unfold kids_of in Hq. rewrite E in Hq. apply list_elem_of_omap in Hq as (b&Hb&Hq).
  pose proof (bo_branches _ _ _ (po_bodies v Hv p d E)) as H3. destruct (proj1 (Forall_forall _ _) H3 b Hb q Hq). lia.
Qed.
Lemma kids_exist v p q : program_ok v → q ∈ kids_of (rv_registry v) p → is_Some (rg_defs (rv_registry v) !! q).
Proof.
  intros Hv Hq. unfold kids_of in Hq. destruct (rg_defs (rv_registry v) !! p) as [d|] eqn:E; [|by apply not_elem_of_nil in Hq].
  apply list_elem_of_omap in Hq as (b&Hb&Hq). pose proof (bo_branches _ _ _ (po_bodies v Hv p d E)) as H3.
  by destruct (proj1 (Forall_forall _ _) H3 b Hb q Hq).
Qed.

(** What a number of definitions resolved one after the other do. *)
Definition resolved_at (v : resolver_t) (q : def_ptr) : Prop :=
  ∀ d, rg_defs (rv_registry v) !! q = Some d → body_resolved (rv_registry v) q (df_body d).
Record resolves (v : resolver_t) (done_ : def_ptr → Prop) (v' : resolver_t) : Prop := {
  rl_kept : kept (rv_registry v) (rv_registry v');
  rl_program : program_ok v';
  rl_kids : ∀ q, kids_of (rv_registry v') q = kids_of (rv_registry v) q;
  rl_events : ∃ l, rv_events v' = rv_events v ++ l ∧
    (Forall is_reference l → ∀ q, done_ q ∨ resolved_at v q → resolved_at v' q)
}.

Lemma resolves_refl v : program_ok v → resolves v (λ _, False) v.
Proof.
  intros Hv. split; [reflexivity|done|done|]. exists []. rewrite app_nil_r. split; [done|]. by intros _ q [?|?].
Qed.
Lemma resolves_trans v v1 v2 (D1 D2 : def_ptr → Prop) : resolves v D1 v1 → resolves v1 D2 v2 → resolves v (λ q, D1 q ∨ D2 q) v2.
Proof.
  intros [H1 _ K1 (l1&E1&R1)] [H2 P2 K2 (l2&E2&R2)]. split; [by etrans|done|intros q; by rewrite K2|].
  exists (l1 ++ l2). split; [by rewrite E2, E1, app_assoc|]. intros (Hl1&Hl2)%Forall_app q Hq. apply R2; [done|].
  destruct Hq as [[?|?]|?]; [right; apply R1; [done|by left]|by left|right; apply R1; [done|by right]].
Qed.
Lemma resolves_weaken v v' (D D' : def_ptr → Prop) : (∀ q, D' q → D q) → resolves v D v' → resolves v D' v'.
Proof. intros HD [H1 P K (l&E&R)]. split; [done..|]. exists l. split; [done|]. intros Hl q [?|?]; apply R; auto. Qed.

Lemma resolves_one_resolves v p v' l : program_ok v → resolves_one v p v' l → resolves v (λ q, q = p) v'.
Proof.
  intros Hv [H1 H2 H3 H4 H5 H6]. split; [done..|]. exists l. split; [done|]. intros Hl q Hq d E. apply (kept_body_resolved (rv_registry v)); [done|].
  destruct (decide (q = p)) as [->|Hne]; [by apply H6|]. rewrite H4 in E by done. destruct Hq as [?|Hq]; [done|]. by apply Hq.
Qed.

Lemma stack_resolved fuel : ∀ v stack,
  program_ok v → (∀ e : def_ptr * Z, e ∈ stack → is_Some (rg_defs (rv_registry v) !! e.1)) →
  (sum_list_with (λ e : def_ptr * Z, weight (rv_registry v) e.1) stack ≤ fuel)%nat →
  computes (resolve_def_loop result fuel stack)
    (λ _ v', resolves v (λ q, match stack with (p, depth) :: _ => q = p ∧ depth < BEBOP_MAX_TYPE_DEPTH | [] => False end) v') v.
Proof.
  induction fuel as [|fuel IH]; intros v [|[p depth] stack] Hv Hst Hw; cbn [resolve_def_loop]; try (by apply computes_ret, resolves_refl).
  - cbn in Hw. pose proof (weight_positive (rv_registry v) p). lia.
  - destruct (Z.leb_spec BEBOP_MAX_TYPE_DEPTH depth).
    { apply computes_modify. split; [reflexivity|by destruct Hv|done|]. exists []. rewrite app_nil_r. split; [done|]. intros _ q [(_&?)|?]; [lia|done]. }
    assert (Hp : is_Some (rg_defs (rv_registry v) !! p)) by (by apply (Hst (p, depth)); set_solver).
    eapply computes_bind; [by apply (resolve_one_ok v p Hv Hp)|]. intros stack' v1 (l&H1&Hsub&Hsum).
    pose proof (resolves_one_resolves v p v1 l Hv H1) as Hr1. destruct H1 as [K1 _ P1 _ Kids1 _].
    assert (Hweight : ∀ q, weight (rv_registry v1) q = weight (rv_registry v) q).
    { intros q. unfold weight. rewrite <- (Forall2_length _ _ _ (proj1 K1)). by apply visits_ext. }
    eapply computes_weaken; [apply (IH v1 stack' P1)|].
    + intros e He. eapply kept_some; [exact K1|]. destruct (Hsub e He) as [?|?]; [apply Hst; set_solver|by eapply kids_exist].
    + pose proof (weight_kids v p Hv Hp). specialize (Hsum (weight (rv_registry v))). cbn in Hw.
      assert (sum_list_with (λ e : nat * Z, weight (rv_registry v1) e.1) stack' ≤ sum_list_with (λ e : nat * Z, weight (rv_registry v) e.1) stack')%nat
        by (apply sum_list_with_le; intros; by rewrite Hweight). lia.
    + intros ? v2 H2. eapply resolves_weaken; [|exact (resolves_trans _ _ _ _ _ Hr1 H2)]. intros q (->&_). by left.
Qed.

Lemma all_resolved fuel : ∀ all_defs v,
  program_ok v → Forall (λ p, is_Some (rg_defs (rv_registry v) !! p) ∧ (weight (rv_registry v) p ≤ fuel)%nat) all_defs →
  computes (resolve_all result fuel all_defs) (λ _ v', resolves v (λ q, q ∈ all_defs) v') v.
Proof.
  induction all_defs as [|p all_defs IH]; intros v Hv Hall; cbn [resolve_all].
  - apply computes_ret. eapply resolves_weaken; [|by apply resolves_refl]. by intros q ?%not_elem_of_nil.
  - apply Forall_cons in Hall as ((Hp&Hw)&Hall). unfold bebop__validate_resolve_def.
    eapply computes_bind; [apply (stack_resolved fuel v [(p, 0)] Hv)|].
    + intros e He. apply list_elem_of_singleton in He as ->. done.
    + cbn. lia.
    + intros ? v1 H1. pose proof H1 as [K1 P1 Kids1 _]. eapply computes_weaken; [apply (IH v1 P1)|].
      * eapply Forall_impl; [exact Hall|]. intros q (?&?). split; [by eapply kept_some|]. unfold weight in *.
        rewrite <- (Forall2_length _ _ _ (proj1 K1)). by rewrite (visits_ext _ (kids_of (rv_registry v))).
      * intros ? v2 H2. eapply resolves_weaken; [|exact (resolves_trans _ _ _ _ _ H1 H2)]. intros q [->|?]%elem_of_cons; [left; by split|by right].
Qed.

(** C20: the resolution of types. For every program of well-formed schemas, whatever the
    context refuses, the pass over all definitions ends (its stacks never overflow and leave
    no type out) and keeps the program well-formed; and if it reports nothing, then every
    name in every type of every definition leads to a definition that the definition's schema
    declares or imports, which is no decorator, no service where a value is meant, and not
    internal to a union it is used outside of; and branches of unions lead to structs and
    messages. *)
Theorem resolve_all_correct fuel all_defs v :
  program_ok v → Forall (λ p, is_Some (rg_defs (rv_registry v) !! p) ∧ (weight (rv_registry v) p ≤ fuel)%nat) all_defs →
  ∃ v' l, resolve_all result fuel all_defs v = Some (tt, v') ∧ program_ok v' ∧ rv_events v' = rv_events v ++ l ∧
    (Forall is_reference l → ∀ p d, p ∈ all_defs → rg_defs (rv_registry v') !! p = Some d → body_resolved (rv_registry v') p (df_body d)).
Proof.
  intros Hv Hall. destruct (all_resolved fuel all_defs v Hv Hall) as ([]&v'&E&[H1 H2 H3 (l&H4&H5)]). exists v', l.
  split_and!; [done..|]. intros Hl p d Hp. apply (H5 Hl p). by left.
Qed.
End Definitions.

(** ** Concrete programs *)

Module Examples.
#[local] Existing Instance list_context.
Definition pool : list (list Z) := map chars ["A"; "B"; "date"]%string.
Definition definition (name : Z) (schema : schema_ptr) (parent : option def_ptr) (nested : list def_ptr) (b : def_body) : bebop_def_t :=
  mkDef name name no_span no_span 0 [] (Some schema) parent BEBOP_VIS_DEFAULT nested [] 0 b.
Abbreviation field := plain_field.
Definition schema_of_defs (table : gmap Z nat) (defs : list def_ptr) (imports : list schema_ptr) : schema_t :=
  mkSchemaT 0 no_span defs table [] 0 (map (λ s, mkImport 0 (mkSpan 0 0 0 0 0 0) None (Some s)) imports) 0 0 0.
Definition start (h : heap) (schemas : list schema_t) : resolver_t := mkResolver (mkRegistry (pool : ctx) h schemas) ∅ false [].
Definition one_result : bebop_parse_result := mkResult [0%nat] 0 ∅ 0 0.
Definition run (v : resolver_t) : option (list event_t * heap) :=
  '(_, v') ← resolve_all one_result 10 (seq 0 (length (rg_defs (rv_registry v)))) v; Some (rv_events v', rg_defs (rv_registry v')).

(** A message "A" with an array of "B"s, a message. *)
Definition two_messages : heap :=
  [definition 1 0%nat None [] (MessageDef [field (TArray (TDefined 2 None))]); definition 2 0%nat None [] (MessageDef [])].
Definition two_tables : list schema_t := [schema_of_defs {[1 := 0%nat; 2 := 1%nat]} [0; 1]%nat []].

Lemma two_messages_ok : program_ok one_result (start two_messages two_tables).
Proof.
  assert (Hlook : ∀ p d, two_messages !! p = Some d → p = 0%nat ∧ d = definition 1 0%nat None [] (MessageDef [field (TArray (TDefined 2 None))]) ∨
    p = 1%nat ∧ d = definition 2 0%nat None [] (MessageDef [])).
  { intros [|[|p]] d E; [injection E as <-; by left|injection E as <-; by right|destruct p; discriminate E]. }
  split.
  - split; cbn.
    + intros p d [(->&->)|(->&->)]%Hlook; exists 0%nat; by split; [|eexists].
    + by intros p d q [(->&->)|(->&->)]%Hlook.
    + by intros p d q [(->&->)|(->&->)]%Hlook ?%not_elem_of_nil.
    + intros [|s] sc E; [|destruct s; discriminate E]. injection E as <-. split; cbn.
      * intros p [->|[->| ?%not_elem_of_nil]%elem_of_cons]%elem_of_cons; [| |done]; eexists; by split.
      * by intros p ?%not_elem_of_nil.
      * intros k p [(<-&<-)|(_&(<-&<-)%lookup_singleton_Some)]%lookup_insert_Some; (split; [set_solver|by eexists]).
      * by intros imp t ?%not_elem_of_nil.
  - split; cbn; [intros s ->%list_elem_of_singleton; by eexists|]. intros k p E. by rewrite lookup_empty in E.
  - cbn. intros p d [(->&->)|(->&->)]%Hlook; (split; [done| |done]); repeat constructor. cbn. by intros q [=].
Qed.

Lemma resolve_all_correct_witness :
  ∃ v', resolve_all one_result 10 [0; 1]%nat (start two_messages two_tables) = Some (tt, v') ∧
    rg_defs (rv_registry v') !! 0%nat = Some (definition 1 0%nat None [] (MessageDef [field (TArray (TDefined 2 (Some 1%nat)))])) ∧
    body_resolved (rv_registry v') 0 (MessageDef [field (TArray (TDefined 2 (Some 1%nat)))]).
Proof.
  destruct (@resolve_all_correct _ list_context_ok _ gmap_defmap_ok one_result 10 [0; 1]%nat _ two_messages_ok) as (v'&l&E&_&He&H).
  - repeat constructor; try (by eexists); vm_compute; lia.
  - exists v'. split; [exact E|]. assert (Hd : rg_defs (rv_registry v') !! 0%nat = Some (definition 1 0%nat None [] (MessageDef [field (TArray (TDefined 2 (Some 1%nat)))])))
      by (vm_compute in E; injection E as <-; reflexivity).
    split; [exact Hd|]. apply (H ltac:(vm_compute in E; injection E as <-; cbn in He; subst l; repeat constructor) 0%nat _ ltac:(set_solver) Hd).
Defined.

(** An unknown name is reported, "date" with the type to use instead. *)
Example unknown_name :
  run (start [definition 1 0%nat None [] (MessageDef [field (TDefined 3 None); field (TDefined 2 None)])] [schema_of_defs {[1 := 0%nat]} [0%nat] []])
  = Some ([Report 0 [] (UnknownType UseTimestamp); Report 0 [] (UnknownType (Suggest (chars "A")))],
      [definition 1 0%nat None [] (MessageDef [field (TDefined 3 None); field (TDefined 2 None)])]).
Proof. vm_compute. reflexivity. Qed.

(** A file imported twice: its definitions are reported as ambiguous with themselves. *)
Example imported_twice :
  fst <$> run (start [definition 1 0%nat None [] (MessageDef []); definition 2 1%nat None [] (MessageDef [field (TDefined 1 None)])]
    [schema_of_defs {[1 := 0%nat]} [0%nat] []; schema_of_defs {[2 := 1%nat]} [1%nat] [0; 0]%nat])
  = Some [Report 1 [] (AmbiguousReference 0 0)].
Proof. vm_compute. reflexivity. Qed.

(** A definition in a branch of a union is visited twice: its unknown name is reported
    twice. *)
Example reported_twice :
  fst <$> run (start [definition 1 0%nat None [1%nat] (UnionDef [plain_branch (Some 1%nat)]);
      definition 2 0%nat (Some 0%nat) [] (MessageDef [field (TDefined 3 None)])] [schema_of_defs {[1 := 0%nat]} [0%nat] []])
  = Some [Report 0 [] (UnknownType UseTimestamp); Report 0 [] (UnknownType UseTimestamp)].
Proof. vm_compute. reflexivity. Qed.
End Examples.
