(* ===== verification/FullNames.v ===== *)
(** Full names that several schemas define ([bebop/src/bebop_validate.c], lines 1675 to 1714):
    a definition is compared with the one that the result's table has under its full name. *)
From stdpp Require Import list gmap strings.
From S2P Require Import Prelude.
From S2P Require Import Scanner.
From S2P Require Import Schema.
From S2P Require Import Imports.
From S2P Require Import Registry.
From S2P Require Import RegistryProps.
From S2P Require Import Resolve.
From S2P Require Import ResolveProps.

Section FullNames.
Context `{Context, DefMap def_ptr}.
Context (result : bebop_parse_result).

(** [BEBOP_STR] of the full name, and the definition of that name. *)
Definition existing_of (d : bebop_def_t) : C registry_t (option def_ptr) :=
  fqn ← gets (λ r, ctx_str (rg_ctx r) (df_fqn d));
  match fqn with
  | None => mret None
  | Some fqn => bebop__result_find_def result fqn
  end.

(** Whether two definitions belong to different schemas neither of which imports the other. *)
Definition unrelated (d existing : bebop_def_t) : C registry_t bool := λ r,
  if decide (df_schema existing = df_schema d) then Some (false, r)
  else
    there ← bebop__schema_has_visibility r (df_schema d) (df_schema existing);
    back ← bebop__schema_has_visibility r (df_schema existing) (df_schema d);
    Some (negb there && negb back, r).

Definition check_full_name (p : def_ptr) : C resolver_t unit :=
  d ← in_registry (deref p);
  if bebop_str_is_null (df_fqn d) then mret tt
  else
    existing ← in_registry (existing_of d);
    match existing with
    | None => mret tt
    | Some q =>
        if (q =? p)%nat then mret tt
        else
          dq ← in_registry (deref q);
          several ← in_registry (unrelated d dq);
          if (several : bool) then s ← bebop__validate_get_schema p; emit (MultipleDefinitions s p q) else mret tt
    end.
Fixpoint check_full_names (all_defs : list def_ptr) : C resolver_t unit :=
  match all_defs with
  | [] => mret tt
  | p :: all_defs => check_full_name p;; check_full_names all_defs
  end.
End FullNames.

Section Proofs.
Context {cc : Context} {Hcc : ContextOk} {dm : DefMap def_ptr} {Hdm : DefMapOk}.
Context (result : bebop_parse_result).

(** What a report says. *)
Definition report_right (r : registry_t) (p : def_ptr) (e : event_t) : Prop :=
  ∃ q d dq s t, e = MultipleDefinitions s p q ∧ q ≠ p ∧ rg_defs r !! p = Some d ∧ rg_defs r !! q = Some dq ∧
    df_schema d = Some s ∧ df_schema dq = Some t ∧ t ≠ s ∧
    (∀ sc imp, rg_schemas r !! s = Some sc → imp ∈ sch_imports sc → im_schema imp ≠ Some t) ∧
    (∀ sc imp, rg_schemas r !! t = Some sc → imp ∈ sch_imports sc → im_schema imp ≠ Some s).

Lemma has_visibility_exact r s t sc : s ≠ t → rg_schemas r !! s = Some sc → ∃ b, bebop__schema_has_visibility r (Some s) (Some t) = Some b ∧
  (b = false → ∀ imp, imp ∈ sch_imports sc → im_schema imp ≠ Some t).
Proof.
  intros Hne Es. unfold bebop__schema_has_visibility. case_decide; [done|]. rewrite Es. cbn. eexists; split; [done|]. intros Hb imp Hin Ht.
  assert (Ht' : existsb (λ imp, bool_decide (im_schema imp = Some t)) (sch_imports sc) = true)
    by (apply existsb_exists; exists imp; split; [by apply list_elem_of_In|by apply bool_decide_eq_true]). congruence.
Qed.

Lemma check_full_name_ok p v : program_ok result v → is_Some (rg_defs (rv_registry v) !! p) →
  computes (check_full_name result p) (λ _ v', ∃ l, follows v v' l ∧ Forall (report_right (rv_registry v) p) l) v.
Proof.
  intros [Hr Hres _] (d&E). unfold check_full_name. pose proof (follows_refl v) as Hrefl.
  eapply computes_bind; [by apply (computes_in_deref p d (λ d' v', d' = d ∧ v' = v))|]. intros ? ? (->&->).
  destruct (bebop_str_is_null (df_fqn d)); [by apply computes_ret; exists []|].
  eapply (computes_bind _ _ (λ o v', follows v v' [] ∧ ∀ q, o = Some q → is_Some (rg_defs (rv_registry v) !! q))).
  { apply computes_in_registry. unfold existing_of. eapply computes_bind; [by apply (computes_gets _ (λ _ r', r' = rv_registry v))|].
    intros [fqn|] ? ->; [|by apply computes_ret; split; [split; [|rewrite app_nil_r]|]]. unfold bebop__result_find_def.
    eapply computes_bind; [by apply (computes_intern _ (λ _ r', asked (rv_registry v) r'))|]. intros i r1 H1. apply computes_ret.
    split; [split; [done|by rewrite app_nil_r]|]. intros q. destruct (bebop_str_is_null i); [done|]. apply (rs_table _ result Hres). }
  intros [q|] v1 (H1&Hq); [|by apply computes_ret; exists []]. destruct (Nat.eqb_spec q p) as [->|Hne]; [by apply computes_ret; exists []|].
  destruct (Hq q eq_refl) as (dq&Eq). pose proof H1 as ((Hd1&Hs1&_)&_).
  eapply computes_bind; [apply (computes_in_deref q dq (λ d' v', d' = dq ∧ v' = v1)); [by rewrite Hd1|done]|]. intros ? ? (->&->).
  destruct (ro_schema _ Hr p d E) as (s&Es&(sc&Esc)). destruct (ro_schema _ Hr q dq Eq) as (t&Et&(tc&Etc)).
  eapply (computes_bind _ _ (λ b v', v' = v1 ∧ (b = true → t ≠ s ∧ (∀ imp, imp ∈ sch_imports sc → im_schema imp ≠ Some t) ∧ ∀ imp, imp ∈ sch_imports tc → im_schema imp ≠ Some s))).
  { apply computes_in_registry. unfold computes, unrelated. rewrite Es, Et. case_decide as Hst.
    - eexists _, _. split; [done|]. by destruct v1.
    - assert (Hts : t ≠ s) by congruence.
      destruct (has_visibility_exact (rv_registry v1) s t sc) as (b1&->&Hb1); [done|by rewrite Hs1|].
      destruct (has_visibility_exact (rv_registry v1) t s tc) as (b2&E2&Hb2); [done|by rewrite Hs1|]. cbn [mbind option_bind]. rewrite E2.
      eexists _, _. split; [done|]. split; [by destruct v1|]. intros (?&?)%andb_prop. split_and!; [done|apply Hb1; by apply negb_true_iff|apply Hb2; by apply negb_true_iff]. }
  intros [] v2 (->&Hb); [|by apply computes_ret; exists []]. destruct (Hb eq_refl) as (Hts&Hf&Hback). unfold bebop__validate_get_schema.
  eapply computes_bind.
  { eapply computes_bind; [apply (computes_in_deref p d (λ d' v', d' = d ∧ v' = v1)); [by rewrite Hd1|done]|]. intros ? ? (->&->).
    by apply (computes_lift _ s (λ s' v', s' = s ∧ v' = v1)). }
  intros ? ? (->&->). apply computes_modify. exists [MultipleDefinitions s p q]. split.
  - destruct H1 as (Has&He). split; [done|]. cbn. by rewrite He, app_nil_r.
  - constructor; [|done]. exists q, d, dq, s, t. split_and!; try done.
    + intros sc' imp E'. assert (sc' = sc) as -> by congruence. apply Hf.
    + intros sc' imp E'. assert (sc' = tc) as -> by congruence. apply Hback.
Qed.

(** The pass ends and reports only definitions of schemas that do not import each other, in
    whose schema the table of full names has another definition. *)
Theorem check_full_names_sound all_defs v :
  program_ok result v → Forall (λ p, is_Some (rg_defs (rv_registry v) !! p)) all_defs →
  ∃ v' l, check_full_names result all_defs v = Some (tt, v') ∧ asked (rv_registry v) (rv_registry v') ∧ rv_events v' = rv_events v ++ l ∧
    Forall (λ e, ∃ p, p ∈ all_defs ∧ report_right (rv_registry v) p e) l.
Proof.
  intros Hv Hall. enough (computes (check_full_names result all_defs) (λ _ v', ∃ l, follows v v' l ∧
    Forall (λ e, ∃ p, p ∈ all_defs ∧ report_right (rv_registry v) p e) l) v) as ([]&v'&E&l&(H1&H2)&H3) by (by exists v', l).
  revert v Hv Hall. induction all_defs as [|p ps IH]; intros v Hv Hall; cbn [check_full_names].
  { apply computes_ret. exists []. split; [apply follows_refl|done]. }
  apply Forall_cons in Hall as (Hp&Hps). eapply computes_bind; [by apply check_full_name_ok|]. intros [] v1 (l1&H1&Hl1).
  pose proof H1 as (Has&_). pose proof Has as (Hd&Hs&_).
  assert (Hv1 : program_ok result v1).
  { destruct Hv as [H2 H3 H4]. split; [by eapply asked_ok|by eapply asked_result|]. by rewrite Hd. }
  eapply computes_weaken; [apply (IH v1 Hv1); by rewrite Hd|]. intros [] v2 (l2&H2&Hl2). exists (l1 ++ l2). split; [by eapply follows_trans|].
  apply Forall_app. split; (eapply Forall_impl; [eassumption|]).
  - intros e He. exists p. split; [set_solver|done].
  - intros e (q&Hq&He). exists q. split; [set_solver|]. unfold report_right in *. by rewrite Hd, Hs in He.
Qed.
End Proofs.

(** ** Concrete programs *)

Module FullNameExamples.
#[local] Existing Instance list_context.
Definition pool : list (list Z) := [chars "A"%string].
Definition message (schema : schema_ptr) : bebop_def_t :=
  mkDef 1 1 no_span no_span 0 [] (Some schema) None BEBOP_VIS_DEFAULT [] [] 0 (MessageDef []).
Definition table (p : def_ptr) (imports : list schema_ptr) : schema_t :=
  mkSchemaT 0 no_span [p] {[1 := p]} [] 0 (map (λ s, mkImport 0 no_span None (Some s)) imports) 0 0 0.
Definition events (second_imports : list schema_ptr) : option (list event_t) :=
  '(_, v') ← check_full_names (mkResult [0; 1]%nat 0 {[1 := 0%nat]} 0 0) [0; 1]%nat
    (mkResolver (mkRegistry (pool : ctx) [message 0; message 1] [table 0 []; table 1 second_imports]) ∅ false []);
  Some (rv_events v').

(** Two schemas with a message "A". *)
Example two_schemas : events [] = Some [MultipleDefinitions 1 1 0].
Proof. vm_compute. reflexivity. Qed.
(** When one of them imports the other nothing is reported. *)
Example one_imports : events [0%nat] = Some [].
Proof. vm_compute. reflexivity. Qed.
End FullNameExamples.
