(* ===== verification/Decorate.v ===== *)
(** Decorators ([bebop/src/bebop_validate.c], lines 1144 to 1568): from their names to the
    definitions they mean, and their arguments against the parameters of these.

    What a decorator stands before is given by its definition and a place in it. The Lua of a
    decorator is a parameter: which of its blocks have been compiled. Its calls are events. *)
From stdpp Require Import list gmap strings.
From S2P Require Import Prelude.
From S2P Require Import Scanner.
From S2P Require Import Schema.
From S2P Require Import Fuzzy.
From S2P Require Import Imports.
From S2P Require Import Registry.
From S2P Require Import Resolve.

Inductive bebop_literal_kind_t : Set :=
  | BEBOP_LITERAL_UNKNOWN | BEBOP_LITERAL_BOOL | BEBOP_LITERAL_INT | BEBOP_LITERAL_FLOAT | BEBOP_LITERAL_STRING | BEBOP_LITERAL_UUID
  | BEBOP_LITERAL_BYTES | BEBOP_LITERAL_TIMESTAMP | BEBOP_LITERAL_DURATION.
#[export] Instance literal_kind_eq : EqDecision bebop_literal_kind_t.
Proof. solve_decision. Defined.
Definition literal_kind (v : literal_value) : bebop_literal_kind_t :=
  match v with
  | LitBool _ => BEBOP_LITERAL_BOOL
  | LitInt _ => BEBOP_LITERAL_INT
  | LitFloat _ => BEBOP_LITERAL_FLOAT
  | LitString _ => BEBOP_LITERAL_STRING
  | LitUuid _ => BEBOP_LITERAL_UUID
  | LitTimestamp _ _ _ => BEBOP_LITERAL_TIMESTAMP
  | LitDuration _ _ => BEBOP_LITERAL_DURATION
  | LitBytes _ => BEBOP_LITERAL_BYTES
  end.

Definition bebop__validate_type_to_literal (type : bebop_type_kind_t) : bebop_literal_kind_t :=
  match type with
  | BEBOP_TYPE_BOOL => BEBOP_LITERAL_BOOL
  | BEBOP_TYPE_STRING => BEBOP_LITERAL_STRING
  | BEBOP_TYPE_UUID => BEBOP_LITERAL_UUID
  | BEBOP_TYPE_FLOAT32 | BEBOP_TYPE_FLOAT64 | BEBOP_TYPE_BFLOAT16 => BEBOP_LITERAL_FLOAT
  | _ => BEBOP_LITERAL_INT
  end.

(** [bebop__validate_def_target]: what a definition is; an unknown one is undefined. *)
Definition bebop__validate_def_target (d : bebop_def_t) : option Z :=
  match def_kind d with
  | BEBOP_DEF_ENUM => Some BEBOP_TARGET_ENUM
  | BEBOP_DEF_STRUCT => Some BEBOP_TARGET_STRUCT
  | BEBOP_DEF_MESSAGE => Some BEBOP_TARGET_MESSAGE
  | BEBOP_DEF_UNION => Some BEBOP_TARGET_UNION
  | BEBOP_DEF_SERVICE => Some BEBOP_TARGET_SERVICE
  | BEBOP_DEF_CONST | BEBOP_DEF_DECORATOR => Some BEBOP_TARGET_NONE
  | BEBOP_DEF_UNKNOWN => None
  end.

(** What a decorator stands before: its bit in the mask of targets, and the part. *)
Record bebop__decor_target_t : Type := mkDecorTarget { dt_flag : Z; dt_target : bebop_decorated_t }.

(** The same parts with other decorators. *)
Definition set_decorators (l : list bebop_decorator_t) (d : bebop_def_t) : bebop_def_t :=
  mkDef (df_name d) (df_fqn d) (df_span d) (df_name_span d) (df_documentation d) l (df_schema d) (df_parent d) (df_visibility d)
    (df_nested_defs d) (df_dependents d) (df_dependents_capacity d) (df_body d).
Definition set_field_decorators (l : list bebop_decorator_t) (f : bebop_field_t) : bebop_field_t :=
  mkField (fd_name f) (fd_span f) (fd_name_span f) (fd_documentation f) (fd_type f) (fd_index f) l.
Definition set_member_decorators (l : list bebop_decorator_t) (m : bebop_enum_member_t) : bebop_enum_member_t :=
  mkMember (em_name m) (em_span m) (em_name_span m) (em_value_span m) (em_value_expr m) (em_documentation m) (em_value m) l.
Definition set_branch_decorators (l : list bebop_decorator_t) (b : bebop_union_branch_t) : bebop_union_branch_t :=
  mkBranch (br_discriminator b) (br_span b) (br_name b) (br_name_span b) (br_documentation b) (br_def b) (br_type_ref b) l.
Definition set_method_decorators (l : list bebop_decorator_t) (m : bebop_method_t) : bebop_method_t :=
  mkMethod (me_name m) (me_span m) (me_name_span m) (me_documentation m) (me_request_type m) (me_response_type m) (me_method_type m) (me_id m) l.
Definition set_decorator_resolved (p : def_ptr) (d : bebop_decorator_t) : bebop_decorator_t :=
  mkDecorator (dc_name d) (dc_span d) (dc_args d) (Some p).

Section Decorate.
Context `{Context, DefMap def_ptr}.
Abbreviation M := (C registry_t).
Abbreviation R := (C resolver_t).
(** The result of the parser and the definitions of all its schemas. *)
Context (result : bebop_parse_result) (all_defs : list def_ptr).

(** ** Names *)

Definition bebop__validate_resolve_decorator_name (s : schema_ptr) (name : Z) : M (option def_ptr * option def_ptr) :=
  name_str ← gets (λ r, ctx_str (rg_ctx r) name);
  match name_str with
  | None => mret (None, None)
  | Some _ =>
      answer ← bebop__result_resolve_type 0 result s None name_str;
      match answer.1 with
      | None => mret (None, None)
      | Some p =>
          d ← deref p;
          mret (if bool_decide (def_kind d = BEBOP_DEF_DECORATOR) then answer else (None, None))
      end
  end.

(** The nearest of some names, when the arena has room for the array of candidates. *)
Definition nearest_of (name : list Z) (names : list Z) : M (option (list Z)) :=
  match names with
  | [] => mret None
  | _ =>
      arr ← alloc_n 8 (zlen names) 8;
      match arr with
      | None => mret None
      | Some _ =>
          candidates ← gets (λ r, map (ctx_str (rg_ctx r)) names);
          best ← lift (bebop_util_fuzzy_match name candidates 3);
          mret (i ← best; mjoin (candidates !! i))
      end
  end.

(** The names of all decorators that are defined. *)
Definition decorator_names (h : heap) : option (list Z) :=
  defs ← mapM (λ p, h !! p) all_defs;
  Some (map df_name (filter (λ d, def_kind d = BEBOP_DEF_DECORATOR) defs)).
Definition suggest_decorator (name : Z) : M (option (list Z)) :=
  name_str ← gets (λ r, ctx_str (rg_ctx r) name);
  match name_str with
  | None => mret None
  | Some name_str =>
      h ← gets rg_defs;
      names ← lift (decorator_names h);
      nearest_of name_str names
  end.

(** One decorator of a chain. *)
Definition resolve_decorator (s : schema_ptr) (dec : bebop_decorator_t) : R bebop_decorator_t :=
  match dc_resolved dec with
  | Some _ => mret dec
  | None =>
      answer ← in_registry (bebop__validate_resolve_decorator_name s (dc_name dec));
      match answer with
      | (None, _) =>
          suggestion ← in_registry (suggest_decorator (dc_name dec));
          emit (DecoratorReport s (dc_span dec) (UnknownDecorator suggestion));; mret dec
      | (Some p, Some other) => emit (DecoratorReport s (dc_span dec) (AmbiguousDecorator p other));; mret dec
      | (Some p, None) =>
          bebop__validate_add_reference p (DecoratorReference p (dc_span dec));;
          mret (set_decorator_resolved p dec)
      end
  end.
Definition bebop__validate_resolve_chain (s : schema_ptr) (chain : list bebop_decorator_t) : R (list bebop_decorator_t) :=
  each (resolve_decorator s) chain.

(** The parts of a definition and their decorators. *)
Definition resolve_part_decorators {A} (get : A → list bebop_decorator_t) (put : list bebop_decorator_t → A → A) (s : schema_ptr) (a : A) : R A :=
  chain ← bebop__validate_resolve_chain s (get a); mret (put chain a).
Definition resolve_body_decorators (s : schema_ptr) (b : def_body) : R def_body :=
  match b with
  | StructDef fields is_mutable size =>
      fields ← each (resolve_part_decorators fd_decorators set_field_decorators s) fields; mret (StructDef fields is_mutable size)
  | MessageDef fields =>
      fields ← each (resolve_part_decorators fd_decorators set_field_decorators s) fields; mret (MessageDef fields)
  | EnumDef base members =>
      members ← each (resolve_part_decorators em_decorators set_member_decorators s) members; mret (EnumDef base members)
  | UnionDef branches =>
      branches ← each (resolve_part_decorators br_decorators set_branch_decorators s) branches; mret (UnionDef branches)
  | ServiceDef methods mixins =>
      methods ← each (resolve_part_decorators me_decorators set_method_decorators s) methods; mret (ServiceDef methods mixins)
  | b => mret b
  end.

(** The decorators of a definition and of its parts. *)
Definition resolve_decorators_of (p : def_ptr) : R unit :=
  d ← in_registry (deref p);
  match df_schema d with
  | None => mret tt
  | Some s =>
      chain ← bebop__validate_resolve_chain s (df_decorators d);
      body ← resolve_body_decorators s (df_body d);
      in_registry (d ← deref p; put_def p (set_body body (set_decorators chain d)))
  end.
Fixpoint resolve_decorators_loop (ps : list def_ptr) : R unit :=
  match ps with
  | [] => mret tt
  | p :: ps => resolve_decorators_of p;; resolve_decorators_loop ps
  end.
Definition bebop__validate_resolve_all_decorators : R unit := resolve_decorators_loop all_defs.

(** ** Arguments *)

(** Which blocks of a decorator have been compiled: those of [validate] ([false]) and of
    [export] ([true]). *)
Context (lua : option (def_ptr → bool → bool)).
(** What a literal of another kind holds where an integer and a string are: the members of a
    union share their bytes. *)
Context (int_of string_of : literal_value → Z).

Definition int_val (v : literal_value) : Z := match v with LitInt i => i | v => int_of v end.
Definition string_val (v : literal_value) : Z := match v with LitString s => s | v => string_of v end.

Definition value_allowed (v : literal_value) (allowed : literal_value) : bool :=
  match v with
  | LitInt i => i =? int_val allowed
  | LitString s => s =? string_val allowed
  | _ => false
  end.

(** The value of an argument. *)
Definition check_value (s : schema_ptr) (param : bebop_macro_param_def_t) (arg : bebop_decorator_arg_t) : R unit :=
  let value := lt_value (da_value arg) in
  (if bool_decide (literal_kind value = bebop__validate_type_to_literal (mp_type param)) then mret tt
   else emit (DecoratorReport s (da_span arg) (WrongKind (mp_name param))));;
  match mp_allowed_values param with
  | [] => mret tt
  | allowed =>
      if existsb (λ av, value_allowed value (lt_value av)) allowed then mret tt
      else emit (DecoratorReport s (da_span arg) (NotAllowed (mp_name param)))
  end.

(** The first parameter of a name. *)
Fixpoint find_param (params : list bebop_macro_param_def_t) (name : Z) : option bebop_macro_param_def_t :=
  match params with
  | [] => None
  | param :: params => if mp_name param =? name then Some param else find_param params name
  end.

(** The arguments from the [i]-th on. An argument that is one too many ends the loop. *)
Fixpoint check_args (s : schema_ptr) (params : list bebop_macro_param_def_t) (i : nat) (args : list bebop_decorator_arg_t) : R unit :=
  match args with
  | [] => mret tt
  | arg :: args =>
      if negb (bebop_str_is_null (da_name arg)) then
        match find_param params (da_name arg) with
        | None =>
            arg_name ← in_registry (gets (λ r, ctx_str (rg_ctx r) (da_name arg)));
            suggestion ← (match arg_name with
                          | None => mret None
                          | Some arg_name => in_registry (nearest_of arg_name (map mp_name params))
                          end);
            emit (DecoratorReport s (da_span arg) (UnknownParameter suggestion));;
            check_args s params (S i) args
        | Some param => check_value s param arg;; check_args s params (S i) args
        end
      else
        match params !! i with
        | None => emit (DecoratorReport s (da_span arg) TooManyArguments)
        | Some param => check_value s param arg;; check_args s params (S i) args
        end
  end.

(** Whether the argument at [a] is one for the parameter at [pi]. *)
Definition given_by (param : bebop_macro_param_def_t) (pi a : nat) (arg : bebop_decorator_arg_t) : bool :=
  if bebop_str_is_null (da_name arg) then (a =? pi)%nat else da_name arg =? mp_name param.
Fixpoint is_given (param : bebop_macro_param_def_t) (pi a : nat) (args : list bebop_decorator_arg_t) : bool :=
  match args with
  | [] => false
  | arg :: args => given_by param pi a arg || is_given param pi (S a) args
  end.
Fixpoint check_required (s : schema_ptr) (dec : bebop_decorator_t) (pi : nat) (params : list bebop_macro_param_def_t) : R unit :=
  match params with
  | [] => mret tt
  | param :: params =>
      (if mp_required param && negb (is_given param pi 0 (dc_args dec))
       then emit (DecoratorReport s (dc_span dec) (MissingParameter (mp_name param))) else mret tt);;
      check_required s dec (S pi) params
  end.

(** The definition a resolved decorator leads to is read as one of a decorator. *)
Definition decorator_at (p : def_ptr) : M decorator_def_t :=
  d ← deref p; match df_body d with DecoratorDef dd => mret dd | _ => ub end.

Definition run_macros (p : def_ptr) (target : bebop_decorated_t) : R unit :=
  match lua with
  | None => mret tt
  | Some compiled =>
      (if compiled p false then emit (RunValidate p target) else mret tt);;
      (if compiled p true then emit (RunExport p target) else mret tt)
  end.

Definition validate_usage (s : schema_ptr) (target : bebop__decor_target_t) (dec : bebop_decorator_t) : R unit :=
  match dc_resolved dec with
  | None => mret tt
  | Some p =>
      name ← in_registry (gets (λ r, ctx_str (rg_ctx r) (dc_name dec)));
      match name with
      | None => mret tt
      | Some _ =>
          dd ← in_registry (decorator_at p);
          if Z.land (dd_targets dd) (dt_flag target) =? 0 then emit (DecoratorReport s (dc_span dec) NotApplicable)
          else
            check_args s (dd_params dd) 0 (dc_args dec);;
            check_required s dec 0 (dd_params dd);;
            run_macros p (dt_target target)
      end
  end.

Fixpoint bebop__validate_decorator_chain (s : schema_ptr) (target : bebop__decor_target_t) (chain : list bebop_decorator_t) : R unit :=
  match chain with
  | [] => mret tt
  | dec :: chain => validate_usage s target dec;; bebop__validate_decorator_chain s target chain
  end.

(** The chains of a definition in the order in which they are validated, each with what it
    stands before. *)
Definition part_chains {A} (get : A → list bebop_decorator_t) (flag : Z) (target : nat → bebop_decorated_t) (parts : list A) :
    list (bebop__decor_target_t * list bebop_decorator_t) :=
  imap (λ i a, (mkDecorTarget flag (target i), get a)) parts.
Definition body_chains (p : def_ptr) (b : def_body) : list (bebop__decor_target_t * list bebop_decorator_t) :=
  match b with
  | StructDef fields _ _ | MessageDef fields => part_chains fd_decorators BEBOP_TARGET_FIELD (DecoratedField p) fields
  | EnumDef _ members => part_chains em_decorators BEBOP_TARGET_FIELD (DecoratedEnumMember p) members
  | UnionDef branches => part_chains br_decorators BEBOP_TARGET_BRANCH (DecoratedBranch p) branches
  | ServiceDef methods _ => part_chains me_decorators BEBOP_TARGET_METHOD (DecoratedMethod p) methods
  | _ => []
  end.

Fixpoint validate_chains (s : schema_ptr) (chains : list (bebop__decor_target_t * list bebop_decorator_t)) : R unit :=
  match chains with
  | [] => mret tt
  | (target, chain) :: chains => bebop__validate_decorator_chain s target chain;; validate_chains s chains
  end.

Definition validate_decorators_of (p : def_ptr) : R unit :=
  d ← in_registry (deref p);
  match df_schema d with
  | None => mret tt
  | Some s =>
      flag ← lift (bebop__validate_def_target d);
      validate_chains s ((mkDecorTarget flag (DecoratedDef p), df_decorators d) :: body_chains p (df_body d))
  end.
Fixpoint validate_decorators_loop (ps : list def_ptr) : R unit :=
  match ps with
  | [] => mret tt
  | p :: ps => validate_decorators_of p;; validate_decorators_loop ps
  end.
(** Without a state of Lua nothing is validated. *)
Definition bebop__validate_all_decorators : R unit :=
  match lua with
  | None => alloc_failed
  | Some _ => validate_decorators_loop all_defs
  end.

(** The part of [bebop_validate] that deals with decorators. *)
Definition validate_decorators : R unit :=
  bebop__validate_resolve_all_decorators;; bebop__validate_all_decorators.
End Decorate.
