(* ===== verification/DecorateProps.v ===== *)
(** What the validation of decorators promises: its passes over a program end, change nothing
    of it but what decorators lead to, and report nothing exactly when every decorator leads to
    a definition of a decorator that its schema can see, that may stand there, and whose
    parameters its arguments are for. *)
From Stdlib Require Import SpecFloat.
From stdpp Require Import list gmap strings.
From S2P Require Import Prelude.
From S2P Require Import Scanner.
From S2P Require Import Schema.
From S2P Require Import Fuzzy.
From S2P Require Import Imports.
From S2P Require Import Registry.
From S2P Require Import RegistryProps.
From S2P Require Import Resolve.
From S2P Require Import ResolveProps.
From S2P Require Import Decorate.

(** ** Definitions without what their decorators lead to *)

Definition forget (d : bebop_decorator_t) : bebop_decorator_t := mkDecorator (dc_name d) (dc_span d) (dc_args d) None.
Definition forget_part {A} (get : A → list bebop_decorator_t) (put : list bebop_decorator_t → A → A) (a : A) : A :=
  put (map forget (get a)) a.
Definition forget_body (b : def_body) : def_body :=
  match b with
  | StructDef fields is_mutable size => StructDef (map (forget_part fd_decorators set_field_decorators) fields) is_mutable size
  | MessageDef fields => MessageDef (map (forget_part fd_decorators set_field_decorators) fields)
  | EnumDef base members => EnumDef base (map (forget_part em_decorators set_member_decorators) members)
  | UnionDef branches => UnionDef (map (forget_part br_decorators set_branch_decorators) branches)
  | ServiceDef methods mixins => ServiceDef (map (forget_part me_decorators set_method_decorators) methods) mixins
  | b => b
  end.
Definition forget_def (d : bebop_def_t) : bebop_def_t :=
  set_body (forget_body (df_body d)) (set_decorators (map forget (df_decorators d)) d).

(** The decorators of the parts of a definition. *)
Definition parts_decorators (b : def_body) : list (list bebop_decorator_t) :=
  match b with
  | StructDef fields _ _ | MessageDef fields => map fd_decorators fields
  | EnumDef _ members => map em_decorators members
  | UnionDef branches => map br_decorators branches
  | ServiceDef methods _ => map me_decorators methods
  | _ => []
  end.
Definition chains_of (d : bebop_def_t) : list (list bebop_decorator_t) := df_decorators d :: parts_decorators (df_body d).

(** A definition's chains with what they stand before. *)
Definition usages (p : def_ptr) (d : bebop_def_t) : list (bebop__decor_target_t * list bebop_decorator_t) :=
  (mkDecorTarget (default 0 (bebop__validate_def_target d)) (DecoratedDef p), df_decorators d) :: body_chains p (df_body d).

Lemma part_chains_snd {A} (get : A → list bebop_decorator_t) flag target l : (part_chains get flag target l).*2 = map get l.
Proof. unfold part_chains. apply list_eq. intros i. rewrite !list_lookup_fmap, list_lookup_imap. by destruct (l !! i). Qed.
Lemma usages_chains p d : (usages p d).*2 = chains_of d.
Proof. unfold usages, chains_of, body_chains, parts_decorators. cbn [fmap list_fmap snd]. f_equal. by destruct (df_body d); cbn; rewrite ?part_chains_snd. Qed.

Lemma forget_branches b : map br_def (branches_of (forget_body b)) = map br_def (branches_of b).
Proof. destruct b; cbn; rewrite ?map_map; done. Qed.
Lemma forget_types b : body_types (forget_body b) = body_types b.
Proof. destruct b; cbn; rewrite ?map_map; done. Qed.
Lemma forget_known b : forget_body b = UnknownDef → b = UnknownDef.
Proof. by destruct b. Qed.
Lemma forget_place d d' : forget_def d' = forget_def d → same_place d d'.
Proof.
  intros E. split.
  - exact (f_equal df_name E).
  - exact (f_equal df_schema E).
  - exact (f_equal df_parent E).
  - exact (f_equal df_nested_defs E).
  - exact (f_equal df_visibility E).
  - pose proof (f_equal def_kind E) as Hk. unfold forget_def, def_kind in *. cbn in Hk. by destruct (df_body d), (df_body d').
Qed.
Lemma forget_decorator d d' dd : forget_def d' = forget_def d → df_body d = DecoratorDef dd → df_body d' = DecoratorDef dd.
Proof. intros E Eb. pose proof (f_equal df_body E) as Hb. cbn in Hb. rewrite Eb in Hb. by destruct (df_body d'). Qed.

Lemma forget_decorators b l : forget_body b = l → parts_decorators l = map (map forget) (parts_decorators b).
Proof. intros <-. destruct b; cbn; rewrite ?map_map; done. Qed.

(** ** What is true of a decorator *)

(** The parameter an argument is for: that of its place, or the first of its name. *)
Definition argument_for (params : list bebop_macro_param_def_t) (i : nat) (arg : bebop_decorator_arg_t) (param : bebop_macro_param_def_t) : Prop :=
  if bebop_str_is_null (da_name arg) then params !! i = Some param
  else ∃ j, params !! j = Some param ∧ mp_name param = da_name arg ∧ ∀ k q, (k < j)%nat → params !! k = Some q → mp_name q ≠ da_name arg.

Section Valid.
Context (int_of string_of : literal_value → Z).

(** The value of an argument: of the kind of the parameter, and equal to one of its allowed
    values if it has any. Only integers and strings are equal to one. *)
Definition equal_value (v allowed : literal_value) : Prop :=
  (∃ i, v = LitInt i ∧ int_val int_of allowed = i) ∨ (∃ s, v = LitString s ∧ string_val string_of allowed = s).
Definition value_valid (param : bebop_macro_param_def_t) (v : literal_value) : Prop :=
  literal_kind v = bebop__validate_type_to_literal (mp_type param) ∧
  (mp_allowed_values param ≠ [] → ∃ allowed, allowed ∈ mp_allowed_values param ∧ equal_value v (lt_value allowed)).

Record usage_valid (dd : decorator_def_t) (flag : Z) (dec : bebop_decorator_t) : Prop := {
  uv_target : Z.land (dd_targets dd) flag ≠ 0;
  uv_arguments : ∀ i arg, dc_args dec !! i = Some arg →
    ∃ param, argument_for (dd_params dd) i arg param ∧ value_valid param (lt_value (da_value arg));
  uv_required : ∀ j param, dd_params dd !! j = Some param → mp_required param = true →
    ∃ i arg, dc_args dec !! i = Some arg ∧ if bebop_str_is_null (da_name arg) then i = j else da_name arg = mp_name param
}.

Lemma value_allowed_spec v allowed : value_allowed int_of string_of v allowed = true ↔ equal_value v allowed.
Proof.
  unfold value_allowed, equal_value. destruct v; try (split; [done|intros [(?&?&_)|(?&?&_)]; done]); rewrite Z.eqb_eq; split.
  - intros ->. left. by eexists.
  - by intros [(?&[= <-]&->)|(?&?&_)].
  - intros ->. right. by eexists.
  - by intros [(?&?&_)|(?&[= <-]&->)].
Qed.

Lemma find_param_spec params arg : bebop_str_is_null (da_name arg) = false → ∀ i param,
  find_param params (da_name arg) = Some param ↔ argument_for params i arg param.
Proof.
  intros Hn i param. unfold argument_for. rewrite Hn. induction params as [|q params IH]; cbn [find_param].
  { split; [done|]. by intros (j&?&_). }
  destruct (Z.eqb_spec (mp_name q) (da_name arg)) as [Eq|Hne].
  - split.
    + intros [= ->]. exists 0%nat. split_and!; [done|done|]. lia.
    + intros ([|j]&Ej&En&Hfirst); [done|]. by destruct (Hfirst 0%nat q ltac:(lia) eq_refl).
  - rewrite IH. split; intros (j&Ej&En&Hfirst).
    + exists (S j). split_and!; [done|done|]. intros [|k] q' Hk E; [by injection E as <-|]. apply (Hfirst k); [lia|done].
    + destruct j as [|j]; [injection Ej as ->; done|]. exists j. split_and!; [done|done|]. intros k q' Hk E. apply (Hfirst (S k)); [lia|done].
Qed.

Lemma is_given_spec param pi args : ∀ a,
  is_given param pi a args = true ↔
  ∃ i arg, args !! i = Some arg ∧ if bebop_str_is_null (da_name arg) then (a + i)%nat = pi else da_name arg = mp_name param.
Proof.
  induction args as [|arg args IH]; intros a; cbn [is_given]; [by split; [|intros (?&?&?&_)]|].
  rewrite orb_true_iff, IH. unfold given_by. split.
  - intros [H|(i&arg'&E&H)].
    + exists 0%nat, arg. split; [done|]. rewrite Nat.add_0_r. destruct (bebop_str_is_null _); [by apply Nat.eqb_eq|by apply Z.eqb_eq].
    + exists (S i), arg'. split; [done|]. by rewrite Nat.add_succ_r.
  - intros ([|i]&arg'&E&H).
    + injection E as <-. left. rewrite Nat.add_0_r in H. destruct (bebop_str_is_null _); [by apply Nat.eqb_eq|by apply Z.eqb_eq].
    + right. exists i, arg'. split; [done|]. by rewrite Nat.add_succ_r in H.
Qed.
End Valid.

(** ** Computations that report when something is wrong *)

Section Decorators.
Context {cc : Context} {Hcc : ContextOk} {dm : DefMap def_ptr} {Hdm : DefMapOk}.
Context (result : bebop_parse_result) (all_defs : list def_ptr).

Definition unreported (e : event_t) : Prop :=
  match e with Reference _ _ | DecoratorReference _ _ | RunValidate _ _ | RunExport _ _ => True | _ => False end.
Abbreviation quiet := (Forall unreported).

(** A decorator that has been resolved leads to a definition of a decorator in sight. *)
Definition leads (r : registry_t) (s : schema_ptr) (dec : bebop_decorator_t) : Prop :=
  ∀ q, dc_resolved dec = Some q → sees r s q ∧ ∃ d dd, rg_defs r !! q = Some d ∧ df_body d = DecoratorDef dd.
Abbreviation resolved := (λ dec, is_Some (dc_resolved dec)).

Section Decides.
Context (r0 : registry_t) (Hok : ctx_ok (rg_ctx r0)).
Abbreviation alive v := (ctx_ended (rg_ctx (rv_registry v)) = false).

(** It returns something good and, as long as the process runs, it reports nothing exactly when
    that is right. *)
Definition decides {B} (c : C resolver_t B) (good right : B → Prop) : Prop :=
  ∀ v, asked r0 (rv_registry v) →
  computes c (λ b v', ∃ l, follows v v' l ∧ good b ∧ (alive v' → quiet l ↔ right b)) v.

Lemma alive_before v v' : asked r0 (rv_registry v) → asked (rv_registry v) (rv_registry v') → alive v' → alive v.
Proof. intros (_&_&H0) (_&_&H1) Ha. destruct (H0 Hok) as (Hv&_). by apply (H1 Hv). Qed.

Lemma decides_bind {B B'} (c : C resolver_t B) (k : B → C resolver_t B') good right good' right' good'' right'' :
  decides c good right → (∀ b, good b → decides (k b) (good' b) (right' b)) →
  (∀ b b', good b → good' b b' → good'' b' ∧ (right b ∧ right' b b' ↔ right'' b')) → decides (c ≫= k) good'' right''.
Proof.
  intros Hc Hk Hr v Hv. eapply computes_bind; [by apply Hc|]. intros b v1 (l1&H1&Hb&Hr1).
  assert (Hv1 : asked r0 (rv_registry v1)) by (etrans; [exact Hv|apply H1]).
  eapply computes_weaken; [by apply Hk|]. intros b' v2 (l2&H2&Hb'&Hr2). destruct (Hr b b' Hb Hb') as (Hgood&Hright).
  exists (l1 ++ l2). split; [by eapply follows_trans|]. split; [done|].
  intros Ha. rewrite Forall_app, <- Hright, Hr2 by done. rewrite Hr1; [done|]. eapply alive_before; [done|apply H2|done].
Qed.
Lemma decides_ret {B} (b : B) (good right : B → Prop) : good b → right b → decides (mret b) good right.
Proof. intros Hg Hr v Hv. apply computes_ret. exists []. split; [apply follows_refl|]. by split_and!. Qed.
Lemma decides_report {B} e (b : B) (good right : B → Prop) : ¬ unreported e → good b → ¬ right b → decides (emit e;; mret b) good right.
Proof.
  intros He Hg Hr v Hv. eapply computes_bind; [by apply (computes_modify _ (λ _ v', follows v v' [e]))|]. intros ? v1 H1. apply computes_ret.
  exists [e]. split_and!; [done|done|]. intros _. by rewrite Forall_singleton.
Qed.
Lemma decides_quiet {B} e (b : B) (good right : B → Prop) : unreported e → good b → right b → decides (emit e;; mret b) good right.
Proof.
  intros He Hg Hr v Hv. eapply computes_bind; [by apply (computes_modify _ (λ _ v', follows v v' [e]))|]. intros ? v1 H1. apply computes_ret.
  exists [e]. split_and!; [done|done|]. intros _. by rewrite Forall_singleton.
Qed.
(** A question to the registry, which reports nothing. *)
Lemma decides_asks {B B'} (c : C registry_t B) (k : B → C resolver_t B') (Q : B → Prop) good right :
  (∀ r, asked r0 r → computes c (λ b r', asked r r' ∧ Q b) r) → (∀ b, Q b → decides (k b) good right) →
  decides (in_registry c ≫= k) good right.
Proof.
  intros Hc Hk. apply (decides_bind _ _ Q (λ _, True) (λ _, good) (λ _, right)); [|done|intros b b' _ Hb; split; [done|tauto]].
  intros v Hv. apply computes_in_registry. eapply computes_weaken; [by apply Hc|]. intros b r' (H1&Hb). exists [].
  split; [split; [done|by rewrite app_nil_r]|]. split; [done|]. intros _. by split; [|constructor].
Qed.
Lemma decides_weaken {B} (c : C resolver_t B) (good right good' right' : B → Prop) :
  decides c good right → (∀ b, good b → good' b ∧ (right b ↔ right' b)) → decides c good' right'.
Proof.
  intros Hc H v Hv. eapply computes_weaken; [by apply Hc|]. intros b v' (l&?&Hg&Hr). exists l. destruct (H b Hg) as (?&<-). by split_and!.
Qed.
Lemma decides_each {A} (f : A → C resolver_t A) (good : A → A → Prop) (right : A → Prop) l :
  (∀ a, a ∈ l → decides (f a) (good a) right) → decides (each f l) (Forall2 good l) (Forall right).
Proof.
  induction l as [|a l IH]; intros H; cbn [each]; [by apply decides_ret|].
  apply (decides_bind _ _ (good a) right (λ a' l', ∃ l1, l' = a' :: l1 ∧ Forall2 good l l1) (λ _ l', Forall right (tail l'))).
  - apply H. set_solver.
  - intros a' _. apply (decides_bind _ _ (Forall2 good l) (Forall right) (λ l1 l', l' = a' :: l1) (λ _ _, True)).
    + apply IH. intros. apply H. set_solver.
    + intros l1 _. by apply decides_ret.
    + intros l1 ? Hl ->. split; [by exists l1|]. cbn. tauto.
  - intros a' ? Ha (l1&->&Hl). split; [by constructor|]. by rewrite Forall_cons.
Qed.
Lemma decides_map {B B'} (c : C resolver_t B) (f : B → B') good right good' right' :
  decides c good right → (∀ b, good b → good' (f b) ∧ (right b ↔ right' (f b))) → decides (b ← c; mret (f b)) good' right'.
Proof.
  intros Hc Hf. apply (decides_bind _ _ good right (λ b b', b' = f b) (λ _ _, True)); [done|intros b _; by apply decides_ret|].
  intros b ? Hb ->. destruct (Hf b Hb). split; [done|tauto].
Qed.

(** ** Names *)

Section Names.
Context (Hr : registry_ok r0) (Hres : result_ok r0 result) (Hall : Forall (λ p, is_Some (rg_defs r0 !! p)) all_defs).

Lemma nearest_of_ok name names r : computes (nearest_of name names) (λ _ r', asked r r') r.
Proof.
  unfold nearest_of. destruct names as [|n names]; [by apply computes_ret|].
  eapply computes_bind; [by apply (computes_alloc 8 _ 3 (λ _ r', asked r r'))|]. intros [a|] r1 H1; [|by apply computes_ret].
  eapply computes_bind; [by apply (computes_gets _ (λ _ r', r' = r1))|]. intros candidates ? ->.
  destruct (fuzzy_defined name candidates) as (best&E). eapply computes_bind; [by apply (computes_lift _ best (λ _ r', r' = r1))|].
  intros ? ? ->. by apply computes_ret.
Qed.
Lemma decorator_names_total : is_Some (decorator_names all_defs (rg_defs r0)).
Proof.
  unfold decorator_names. assert (Hd : is_Some (mapM (λ p, rg_defs r0 !! p) all_defs)) by (by apply mapM_is_Some_2).
  destruct Hd as (defs&->). by eexists.
Qed.
Lemma suggest_decorator_ok name r : asked r0 r → computes (suggest_decorator all_defs name) (λ _ r', asked r r' ∧ True) r.
Proof.
  intros H. unfold suggest_decorator. eapply computes_bind; [by apply (computes_gets _ (λ _ r', r' = r))|]. intros [name_str|] ? ->; [|by apply computes_ret].
  eapply computes_bind; [by apply (computes_gets _ (λ h r', h = rg_defs r ∧ r' = r))|]. intros ? ? (->&->).
  destruct decorator_names_total as (names&E). destruct H as (Hd&_). rewrite <- Hd in E.
  eapply computes_bind; [by apply (computes_lift _ names (λ n r', r' = r))|]. intros names' ? ->.
  eapply computes_weaken; [apply nearest_of_ok|]. by intros.
Qed.

Lemma decorator_body d : def_kind d = BEBOP_DEF_DECORATOR → ∃ dd, df_body d = DecoratorDef dd.
Proof. unfold def_kind. destruct (df_body d); try done. by eexists. Qed.

Lemma resolve_name_ok s name r : asked r0 r → is_Some (rg_schemas r0 !! s) →
  computes (bebop__validate_resolve_decorator_name result s name) (λ a r', asked r r' ∧
    ∀ q, a.1 = Some q → sees r0 s q ∧ ∃ d dd, rg_defs r0 !! q = Some d ∧ df_body d = DecoratorDef dd) r.
Proof.
  intros H Hs. unfold bebop__validate_resolve_decorator_name.
  eapply computes_bind; [by apply (computes_gets _ (λ _ r', r' = r))|]. intros [name_str|] ? ->; [|by apply computes_ret].
  eapply computes_bind; [apply (resolve_type_ok 0 result r s None); [by eapply asked_ok|by eapply asked_result|]|].
  { split; [|done]. by destruct H as (_&->&_). }
  intros [[q|] other] r1 (H1&Ha&_); cbn [fst]; [|by apply computes_ret]. specialize (Ha q eq_refl).
  apply (asked_sees_back r0) in Ha; [|done]. pose proof Ha as (d&t&E&_).
  eapply computes_bind; [apply (computes_deref q d (λ d' r', d' = d ∧ r' = r1)); [|done]|]; [by destruct H1 as (->&_); destruct H as (->&_)|].
  intros ? ? (->&->). apply computes_ret. split; [done|]. case_bool_decide as Hk; [|done]. intros ? [= <-]. split; [done|].
  destruct (decorator_body d Hk) as (dd&?). by exists d, dd.
Qed.

Abbreviation good_chain s chain := (λ chain', map forget chain' = map forget chain ∧ Forall (leads r0 s) chain').

Lemma resolve_decorator_decides s dec : is_Some (rg_schemas r0 !! s) → leads r0 s dec →
  decides (resolve_decorator result all_defs s dec) (λ dec', forget dec' = forget dec ∧ leads r0 s dec') resolved.
Proof.
  intros Hs Hdec. unfold resolve_decorator. destruct (dc_resolved dec) as [q|] eqn:Eq; [by apply decides_ret; [|rewrite Eq; eexists]|].
  apply (decides_asks _ _ (λ a, ∀ q, a.1 = Some q → sees r0 s q ∧ ∃ d dd, rg_defs r0 !! q = Some d ∧ df_body d = DecoratorDef dd));
    [intros; by apply resolve_name_ok|].
  assert (Hnot : ¬ is_Some (dc_resolved dec)) by (rewrite Eq; by intros (?&?)).
  intros [[q|] [other|]] Ha; cbn [fst] in Ha.
  - by apply decides_report; [intros []|..].
  - apply (decides_bind _ _ (λ _, True) (λ _, True) (λ _ dec', dec' = set_decorator_resolved q dec) (λ _ _, True)).
    + intros v Hv. eapply computes_weaken; [apply add_reference_ok|]. intros [] v' (l&H1&Hl). exists l. split_and!; [done|done|]. intros _. split; [done|].
      intros _. eapply Forall_impl; [exact Hl|]. by intros ? <-.
    + intros _ _. by apply decides_ret.
    + intros [] ? _ ->. split; [split; [done|]|split; [by eexists|done]]. intros ? [= <-]. by apply Ha.
  - apply (decides_asks _ _ (λ _, True)); [intros; by apply suggest_decorator_ok|]. intros. by apply decides_report; [intros []|..].
  - apply (decides_asks _ _ (λ _, True)); [intros; by apply suggest_decorator_ok|]. intros. by apply decides_report; [intros []|..].
Qed.

Lemma resolve_chain_decides s chain : is_Some (rg_schemas r0 !! s) → Forall (leads r0 s) chain →
  decides (bebop__validate_resolve_chain result all_defs s chain) (good_chain s chain) (Forall resolved).
Proof.
  intros Hs Hchain. eapply decides_weaken; [apply (decides_each _ (λ dec dec', forget dec' = forget dec ∧ leads r0 s dec') resolved)|].
  - intros dec Hin. apply resolve_decorator_decides; [done|]. by eapply (proj1 (Forall_forall _ _) Hchain).
  - intros chain' H. split; [|done]. clear Hchain. induction H as [|dec dec' ? ? (E&?) _ (IH&?)]; cbn; [done|]. rewrite E, IH. by split; [|constructor].
Qed.

Section Parts.
Context {A : Type} (get : A → list bebop_decorator_t) (put : list bebop_decorator_t → A → A).
Context (Hget : ∀ l a, get (put l a) = l) (Hput : ∀ l l' a, put l (put l' a) = put l a).

Lemma parts_decides s l : is_Some (rg_schemas r0 !! s) → Forall (Forall (leads r0 s)) (map get l) →
  decides (each (resolve_part_decorators result all_defs get put s) l)
    (λ l', map (forget_part get put) l' = map (forget_part get put) l ∧ Forall (Forall (leads r0 s)) (map get l'))
    (λ l', Forall (Forall resolved) (map get l')).
Proof.
  intros Hs Hl. rewrite Forall_map in Hl.
  eapply decides_weaken; [apply (decides_each _ (λ a a', forget_part get put a' = forget_part get put a ∧ Forall (leads r0 s) (get a')) (λ a', Forall resolved (get a')))|].
  - intros a Hin. unfold resolve_part_decorators. eapply decides_map; [apply resolve_chain_decides; [done|by apply (proj1 (Forall_forall _ _) Hl)]|].
    intros chain (Hf&Hlead). unfold forget_part. rewrite !Hget, Hput, Hf. done.
  - intros l' H. split; [|by rewrite Forall_map]. clear Hl. induction H as [|a a' ? ? (E&?) _ (IH&?)]; cbn; [done|]. rewrite E, IH. by split; [|constructor].
Qed.
End Parts.

Lemma resolve_body_decides s b : is_Some (rg_schemas r0 !! s) → Forall (Forall (leads r0 s)) (parts_decorators b) →
  decides (resolve_body_decorators result all_defs s b)
    (λ b', forget_body b' = forget_body b ∧ Forall (Forall (leads r0 s)) (parts_decorators b')) (λ b', Forall (Forall resolved) (parts_decorators b')).
Proof.
  intros Hs Hb. destruct b; cbn in Hb |- *; try (by apply decides_ret);
    (eapply decides_map; [apply parts_decides; [by intros; destruct a|by intros; destruct a|done..]|]; intros ? (E&?); cbn; by rewrite E).
Qed.
End Names.
End Decides.

(** ** The names of all decorators *)

(** What the passes do to a program. *)
Definition redecorated (r r' : registry_t) : Prop :=
  forget_def <$> rg_defs r' = forget_def <$> rg_defs r ∧ rg_schemas r' = rg_schemas r ∧ ctx_le (rg_ctx r) (rg_ctx r').
#[local] Instance redecorated_preorder : PreOrder redecorated.
Proof. split; [intros r; by split_and!|]. intros r1 r2 r3 (?&?&?) (?&?&?). split_and!; [congruence..|by etrans]. Qed.
Lemma asked_redecorated r r' : asked r r' → redecorated r r'.
Proof. intros (Hd&Hs&?). unfold redecorated. by rewrite Hd. Qed.

Lemma redecorated_down r r' p d' : redecorated r r' → rg_defs r' !! p = Some d' → ∃ d, rg_defs r !! p = Some d ∧ forget_def d' = forget_def d.
Proof.
  intros (H&_) E. pose proof (f_equal (.!! p) H) as Hp. cbn beta in Hp. rewrite !list_lookup_fmap, E in Hp.
  destruct (rg_defs r !! p) as [d|]; [|done]. exists d. split; [done|]. exact (Some_inj _ _ Hp).
Qed.
Lemma redecorated_up r r' p d : redecorated r r' → rg_defs r !! p = Some d → ∃ d', rg_defs r' !! p = Some d' ∧ forget_def d' = forget_def d.
Proof.
  intros (H&_) E. pose proof (f_equal (.!! p) H) as Hp. cbn beta in Hp. rewrite !list_lookup_fmap, E in Hp.
  destruct (rg_defs r' !! p) as [d'|]; [|done]. exists d'. split; [done|]. exact (Some_inj _ _ Hp).
Qed.
Lemma redecorated_kept r r' : redecorated r r' → kept r r'.
Proof.
  intros H. split; [|apply H]. apply Forall2_same_length_lookup_2.
  - pose proof (f_equal length (proj1 H)) as Hl. by rewrite !length_fmap in Hl.
  - intros p d d' E E'. destruct (redecorated_down r r' p d' H E') as (d0&E0&Hf). apply forget_place. congruence.
Qed.
Lemma redecorated_program v v' : program_ok result v → redecorated (rv_registry v) (rv_registry v') → program_ok result v'.
Proof.
  intros [H1 H2 H3] H. pose proof (redecorated_kept _ _ H) as Hk. split.
  - destruct Hk. by eapply registry_ok_same.
  - by eapply kept_result.
  - intros p d' E'. destruct (redecorated_down _ _ p d' H E') as (d&E&Hf). apply (f_equal df_body) in Hf. cbn in Hf.
    eapply kept_body_ok; [exact Hk|]. destruct (H3 p d E) as [B1 B2 B3]. split.
    + intros Hb. rewrite Hb in Hf. by destruct (df_body d).
    + by rewrite <- (forget_types (df_body d')), Hf, forget_types.
    + pose proof (forget_branches (df_body d')) as Hb. rewrite Hf, forget_branches in Hb.
      rewrite <- (Forall_map br_def (λ o, ∀ q, o = Some q → (p < q)%nat ∧ is_Some (rg_defs (rv_registry v) !! q))) in B3 |- *. by rewrite <- Hb.
Qed.
Lemma redecorated_leads r r' s dec : redecorated r r' → leads r s dec → leads r' s dec.
Proof.
  intros H Hl q Eq. destruct (Hl q Eq) as (Hs&d&dd&E&Eb). split; [by eapply kept_sees, Hs; apply redecorated_kept|].
  destruct (redecorated_up r r' q d H E) as (d'&E'&Hf). exists d', dd. split; [done|]. by eapply forget_decorator.
Qed.

(** Every decorator that has been resolved leads to a decorator. *)
Definition decorators_lead (r : registry_t) : Prop :=
  ∀ p d s, rg_defs r !! p = Some d → df_schema d = Some s → Forall (Forall (leads r s)) (chains_of d).
(** The name of every decorator is a string, as long as the process runs. *)
Definition has_name (r : registry_t) (dec : bebop_decorator_t) : Prop :=
  ctx_ended (rg_ctx r) = false → is_Some (ctx_str (rg_ctx r) (dc_name dec)).
Definition decorators_named (r : registry_t) : Prop := ∀ p d, rg_defs r !! p = Some d → Forall (Forall (has_name r)) (chains_of d).
Abbreviation all_resolved v p := (∀ d, rg_defs (rv_registry v) !! p = Some d → Forall (Forall resolved) (chains_of d)).

Record decorated (v : resolver_t) (here : def_ptr → Prop) (v' : resolver_t) : Prop := {
  de_registry : redecorated (rv_registry v) (rv_registry v');
  de_lead : decorators_lead (rv_registry v');
  de_others : ∀ q, ¬ here q → rg_defs (rv_registry v') !! q = rg_defs (rv_registry v) !! q;
  de_events : ∃ l, rv_events v' = rv_events v ++ l ∧
    (ctx_ended (rg_ctx (rv_registry v')) = false → quiet l ↔ ∀ q, here q → all_resolved v' q)
}.

Lemma forget_set d chain body :
  map forget chain = map forget (df_decorators d) → forget_body body = forget_body (df_body d) →
  forget_def (set_body body (set_decorators chain d)) = forget_def d.
Proof. intros Hc Hb. unfold forget_def. cbn. by rewrite Hc, Hb. Qed.

Lemma resolve_decorators_of_ok p v :
  program_ok result v → ctx_ok (rg_ctx (rv_registry v)) → decorators_lead (rv_registry v) →
  Forall (λ p, is_Some (rg_defs (rv_registry v) !! p)) all_defs → is_Some (rg_defs (rv_registry v) !! p) →
  computes (resolve_decorators_of result all_defs p) (λ _ v', decorated v (eq p) v') v.
Proof.
  intros Hv Hok Hlead Hall (d&E). pose proof Hv as [Hr Hres _]. destruct (ro_schema _ Hr p d E) as (s&Es&Hs).
  unfold resolve_decorators_of. eapply computes_bind; [by apply (computes_in_deref p d (λ d' v', d' = d ∧ v' = v))|]. intros ? ? (->&->). rewrite Es.
  pose proof (Hlead p d s E Es) as (Hc&Hb)%Forall_cons.
  eapply computes_bind; [apply (resolve_chain_decides (rv_registry v) Hok Hr Hres Hall s _ Hs Hc); reflexivity|].
  intros chain v1 (l1&(H1&He1)&(Hf1&Hl1)&Hr1).
  eapply computes_bind; [by apply (resolve_body_decides (rv_registry v) Hok Hr Hres Hall s _ Hs Hb)|].
  intros body v2 (l2&(H2&He2)&(Hf2&Hl2)&Hr2). assert (H02 : asked (rv_registry v) (rv_registry v2)) by (etrans; [exact H1|exact H2]). pose proof H02 as (Hd&Hss&Hctx).
  apply computes_in_registry. eapply computes_bind; [apply (computes_deref p d (λ d' r', d' = d ∧ r' = rv_registry v2)); [by rewrite Hd|done]|].
  intros ? ? (->&->). apply computes_modify.
  set (d' := set_body body (set_decorators chain d)). set (h' := <[p := d']> (rg_defs (rv_registry v2))).
  assert (Hlt : (p < length (rg_defs (rv_registry v2)))%nat) by (rewrite Hd; by eapply lookup_lt_Some).
  assert (Hat : h' !! p = Some d') by (by apply list_lookup_insert_eq).
  assert (Hre : redecorated (rv_registry v) (set_defs h' (rv_registry v2))).
  { split_and!; [|done|done]. cbn. unfold h'. rewrite Hd, list_fmap_insert. apply list_insert_id. rewrite list_lookup_fmap, E. cbn. f_equal. symmetry. by apply forget_set. }
  split; cbn; [done| | |].
  - intros q dq t Eq Et. cbn in Eq. destruct (decide (q = p)) as [->|Hne].
    + rewrite Hat in Eq. injection Eq as <-. assert (t = s) as -> by (cbn in Et; congruence). unfold chains_of. cbn.
      constructor; [eapply Forall_impl; [exact Hl1|]|eapply Forall_impl; [exact Hl2|]; intros ch Hch; eapply Forall_impl; [exact Hch|]];
        intros dec; by apply redecorated_leads.
    + unfold h' in Eq. rewrite list_lookup_insert_ne, Hd in Eq by done. eapply Forall_impl; [by apply (Hlead q dq t)|]. intros ch Hch.
      eapply Forall_impl; [exact Hch|]. intros dec. by apply redecorated_leads.
  - intros q Hne. unfold h'. by rewrite list_lookup_insert_ne, Hd.
  - exists (l1 ++ l2). split; [by rewrite He2, He1, app_assoc|]. intros Ha. rewrite Forall_app, Hr2 by done.
    rewrite Hr1 by (by apply (alive_before _ Hok v1 v2)). split.
    + intros (?&?) q <- dq. rewrite Hat. intros [= <-]. by constructor.
    + intros Hq. by apply (Hq p eq_refl d'), Forall_cons in Hat.
Qed.

Lemma resolve_decorators_loop_ok ps : ∀ v,
  program_ok result v → ctx_ok (rg_ctx (rv_registry v)) → decorators_lead (rv_registry v) →
  Forall (λ p, is_Some (rg_defs (rv_registry v) !! p)) all_defs → NoDup ps → Forall (λ p, is_Some (rg_defs (rv_registry v) !! p)) ps →
  computes (resolve_decorators_loop result all_defs ps) (λ _ v', decorated v (λ q, q ∈ ps) v') v.
Proof.
  induction ps as [|p ps IH]; intros v Hv Hok Hlead Hall Hnd Hps; cbn [resolve_decorators_loop].
  { apply computes_ret. split; [reflexivity|done|done|]. exists []. split; [by rewrite app_nil_r|]. intros _. split; [|constructor]. by intros _ q ?%not_elem_of_nil. }
  apply NoDup_cons in Hnd as (Hnp&Hnd). apply Forall_cons in Hps as (Hp&Hps).
  eapply computes_bind; [by apply resolve_decorators_of_ok|]. intros [] v1 [R1 L1 O1 (l1&E1&Q1)].
  assert (Hkeep : ∀ q, is_Some (rg_defs (rv_registry v) !! q) → is_Some (rg_defs (rv_registry v1) !! q)).
  { intros q (d&E). destruct (redecorated_up _ _ q d R1 E) as (d'&?&_). by exists d'. }
  pose proof R1 as (_&_&C1). pose proof (C1 Hok) as (Hok1&_).
  eapply computes_weaken; [apply (IH v1); [by eapply redecorated_program|done|done| |done|]; (eapply Forall_impl; [eassumption|done])|].
  intros [] v2 [R2 L2 O2 (l2&E2&Q2)]. split; [by etrans|done| |].
  - intros q Hq. rewrite O2, O1; [done|..]; set_solver.
  - exists (l1 ++ l2). split; [by rewrite E2, E1, app_assoc|]. intros Ha. rewrite Forall_app, Q2 by done. pose proof R2 as (_&_&C2).
    destruct (C2 Hok1) as (_&Ha1). rewrite Q1 by (by apply Ha1). split.
    + intros (H1&H2) q [->|Hq]%elem_of_cons; [|by apply H2]. rewrite O2 by done. by apply H1.
    + intros H. split; [|intros q Hq; apply H; set_solver]. intros q <-. rewrite <- O2 by done. apply H. set_solver.
Qed.

(** ** The arguments of all decorators *)

Section Arguments.
Context (lua : option (def_ptr → bool → bool)) (int_of string_of : literal_value → Z).
Context (r0 : registry_t) (Hok : ctx_ok (rg_ctx r0)).
Abbreviation reports_unless c P := (decides r0 c (λ _ : unit, True) (λ _, P)).

Lemma reports_emit e P : ¬ unreported e → ¬ P → reports_unless (emit e) P.
Proof.
  intros He HP v Hv. apply (computes_modify _ (λ _ v', ∃ l, follows v v' l ∧ True ∧ _)). exists [e]. split; [done|]. split; [done|]. intros _.
  by rewrite Forall_singleton.
Qed.
Lemma quiet_emit e (P : Prop) : unreported e → P → reports_unless (emit e) P.
Proof.
  intros He HP v Hv. apply (computes_modify _ (λ _ v', ∃ l, follows v v' l ∧ True ∧ _)). exists [e]. split; [done|]. split; [done|]. intros _.
  by rewrite Forall_singleton.
Qed.
Lemma reports_ret (P : Prop) : P → reports_unless (mret tt) P.
Proof. intros HP. by apply decides_ret. Qed.
Lemma reports_seq c c' P P' (Q : Prop) : reports_unless c P → reports_unless c' P' → (P ∧ P' ↔ Q) → reports_unless (c;; c') Q.
Proof. intros H H' HQ. by apply (decides_bind r0 Hok _ _ (λ _, True) (λ _, P) (λ _ _, True) (λ _ _, P')). Qed.
Lemma reports_check (b : bool) e (P : Prop) : (b = true ↔ P) → ¬ unreported e → reports_unless (if b then mret tt else emit e) P.
Proof. intros HP He. destruct b; [by apply reports_ret, HP|]. apply reports_emit; [done|]. by intros ?%HP. Qed.
Lemma reports_iff c P Q : reports_unless c P → (P ↔ Q) → reports_unless c Q.
Proof. intros H HPQ. by eapply decides_weaken. Qed.

Abbreviation valid_value param arg := (value_valid int_of string_of param (lt_value (da_value arg))).

Lemma check_value_reports s param arg : reports_unless (check_value int_of string_of s param arg) (valid_value param arg).
Proof.
  unfold check_value, value_valid. eapply reports_seq; [by apply reports_check; [apply bool_decide_eq_true|intros []]| |reflexivity].
  destruct (mp_allowed_values param) as [|a allowed] eqn:Ea; [by apply reports_ret|]. rewrite <- Ea. apply reports_check; [|intros []].
  rewrite existsb_exists. setoid_rewrite value_allowed_spec. split.
  - intros (x&?&?) _. exists x. by rewrite list_elem_of_In.
  - intros H. destruct H as (x&?&?); [by rewrite Ea|]. exists x. by rewrite <- list_elem_of_In.
Qed.

Lemma check_args_reports s params args : ∀ i,
  reports_unless (check_args int_of string_of s params i args)
    (∀ j arg, args !! j = Some arg → ∃ param, argument_for params (i + j) arg param ∧ valid_value param arg).
Proof.
  induction args as [|arg args IH]; intros i; cbn [check_args]; [by apply reports_ret|].
  set (Q := ∀ j arg', _).
  assert (Hcons : ∀ P : Prop, (P ↔ ∃ param, argument_for params i arg param ∧ valid_value param arg) →
    P ∧ (∀ j arg', args !! j = Some arg' → ∃ param, argument_for params (S i + j) arg' param ∧ valid_value param arg') ↔ Q).
  { intros P ->. unfold Q. split.
    - intros (H&H') [|j] arg' E; [injection E as <-; by rewrite Nat.add_0_r|]. rewrite Nat.add_succ_r. by apply H'.
    - intros H. split; [specialize (H 0%nat arg eq_refl); by rewrite Nat.add_0_r in H|]. intros j arg' E. specialize (H (S j) arg' E). by rewrite Nat.add_succ_r in H. }
  assert (Hyes : ∀ param, (∀ q, argument_for params i arg q ↔ q = param) →
    reports_unless (check_value int_of string_of s param arg;; check_args int_of string_of s params (S i) args) Q).
  { intros param Hq. eapply reports_seq; [apply check_value_reports|apply IH|]. apply Hcons. split.
    - intros H. exists param. by rewrite Hq.
    - by intros (q&->%Hq&H). }
  destruct (bebop_str_is_null (da_name arg)) eqn:En; cbn [negb].
  - destruct (params !! i) as [param|] eqn:Ep.
    + apply Hyes. intros q. unfold argument_for. rewrite En, Ep. split; congruence.
    + apply reports_emit; [intros []|]. intros H. destruct (H 0%nat arg eq_refl) as (q&Hq&_). unfold argument_for in Hq. rewrite En, Nat.add_0_r in Hq. congruence.
  - destruct (find_param params (da_name arg)) as [param|] eqn:Ep.
    + apply Hyes. intros q. rewrite <- find_param_spec by done. split; congruence.
    + apply (decides_asks r0 Hok _ _ (λ _, True)); [intros r Hr; by apply computes_gets|]. intros arg_name _.
      assert (Hreport : ∀ suggestion, reports_unless (emit (DecoratorReport s (da_span arg) (UnknownParameter suggestion));; check_args int_of string_of s params (S i) args) Q).
      { intros suggestion. eapply reports_seq; [apply (reports_emit _ False); [intros []|tauto]|apply IH|]. apply Hcons. split; [done|].
        intros (q&Hq&_). apply find_param_spec in Hq; [congruence|done]. }
      destruct arg_name as [arg_name|].
      * apply (decides_asks r0 Hok _ _ (λ _, True)); [|by intros]. intros r Hr. eapply computes_weaken; [apply nearest_of_ok|]. by intros.
      * apply (decides_bind r0 Hok _ _ (λ _, True) (λ _, True) (λ _ _, True) (λ _ _, Q)); [by apply decides_ret|by intros|]. intros; split; [done|tauto].
Qed.

Lemma check_required_reports s dec params : ∀ pi,
  reports_unless (check_required s dec pi params)
    (∀ j param, params !! j = Some param → mp_required param = true →
      ∃ i arg, dc_args dec !! i = Some arg ∧ if bebop_str_is_null (da_name arg) then i = (pi + j)%nat else da_name arg = mp_name param).
Proof.
  induction params as [|param params IH]; intros pi; cbn [check_required]; [by apply reports_ret|].
  eapply reports_seq; [|apply IH|].
  - instantiate (1 := mp_required param = true → is_given param pi 0 (dc_args dec) = true).
    destruct (mp_required param); cbn [andb]; [|by apply reports_ret]. destruct (is_given param pi 0 (dc_args dec)); cbn [negb]; [by apply reports_ret|].
    apply reports_emit; [intros []|]. intros H. by specialize (H eq_refl).
  - rewrite is_given_spec. split.
    + intros (H&H') [|j] q E; [injection E as <-; rewrite Nat.add_0_r; by apply H|]. rewrite Nat.add_succ_r. by apply H'.
    + intros H. split; [intros Hreq; specialize (H 0%nat param eq_refl Hreq); by rewrite Nat.add_0_r in H|].
      intros j q E Hreq. specialize (H (S j) q E Hreq). by rewrite Nat.add_succ_r in H.
Qed.

Lemma run_macros_reports p target : reports_unless (run_macros lua p target) True.
Proof.
  unfold run_macros. destruct lua as [compiled|]; [|by apply reports_ret].
  eapply (reports_seq _ _ True True); [| |tauto]; (destruct (compiled _ _); [by apply quiet_emit|by apply reports_ret]).
Qed.

Abbreviation named dec := (has_name r0 dec).
Definition usage_right (flag : Z) (dec : bebop_decorator_t) : Prop :=
  ∀ q d dd, dc_resolved dec = Some q → rg_defs r0 !! q = Some d → df_body d = DecoratorDef dd → usage_valid int_of string_of dd flag dec.

Lemma validate_usage_reports s target dec : named dec → leads r0 s dec →
  reports_unless (validate_usage lua int_of string_of s target dec) (usage_right (dt_flag target) dec).
Proof.
  intros Hname Hdec. unfold validate_usage. destruct (dc_resolved dec) as [q|] eqn:Eq; [|apply reports_ret; unfold usage_right; by rewrite Eq].
  destruct (Hdec q Eq) as (_&d&dd&E&Eb). intros v Hv.
  eapply computes_bind; [by apply (computes_in_gets _ (λ n v', n = ctx_str (rg_ctx (rv_registry v)) (dc_name dec) ∧ v' = v))|]. intros name ? (->&->).
  destruct (ctx_str (rg_ctx (rv_registry v)) (dc_name dec)) as [name|] eqn:En.
  2:{ apply computes_ret. exists []. split; [apply follows_refl|]. split; [done|]. intros Ha. destruct Hv as (_&_&Hc).
      destruct (Hc Hok) as (_&Hc'). destruct (Hc' Ha) as (Ha0&Hs). destruct (Hname Ha0) as (t&Ht). apply Hs in Ht. congruence. }
  assert (Hdd : decides r0 (dd ← in_registry (decorator_at q); (if Z.land (dd_targets dd) (dt_flag target) =? 0 then emit (DecoratorReport s (dc_span dec) NotApplicable)
    else check_args int_of string_of s (dd_params dd) 0 (dc_args dec);; check_required s dec 0 (dd_params dd);; run_macros lua q (dt_target target)))
    (λ _, True) (λ _, usage_right (dt_flag target) dec)); [|by apply Hdd].
  apply (decides_asks r0 Hok _ _ (λ dd', dd' = dd)).
  { intros r (Hd&_). unfold decorator_at. eapply computes_bind; [apply (computes_deref q d (λ d' r', d' = d ∧ r' = r)); [by rewrite Hd|done]|].
    intros ? ? (->&->). rewrite Eb. by apply computes_ret. }
  intros ? ->. assert (Hright : usage_right (dt_flag target) dec ↔ usage_valid int_of string_of dd (dt_flag target) dec).
  { unfold usage_right. split; [by intros H; eapply H|]. intros H q' d' dd' E1 E2 E3. congruence. }
  destruct (Z.eqb_spec (Z.land (dd_targets dd) (dt_flag target)) 0) as [Ez|Hne].
  - apply reports_emit; [intros []|]. rewrite Hright. by intros [? _ _].
  - eapply reports_seq; [apply check_args_reports|eapply reports_seq; [apply check_required_reports|apply run_macros_reports|reflexivity]|].
    rewrite Hright. split; [intros (?&?&_); by split|intros [_ H1 H2]; by split_and!].
Qed.

Lemma chain_reports s target chain : Forall (λ dec, named dec ∧ leads r0 s dec) chain →
  reports_unless (bebop__validate_decorator_chain lua int_of string_of s target chain) (Forall (usage_right (dt_flag target)) chain).
Proof.
  induction 1 as [|dec chain (?&?) _ IH]; cbn [bebop__validate_decorator_chain]; [apply reports_ret; constructor|].
  eapply reports_seq; [by apply validate_usage_reports|exact IH|]. by rewrite Forall_cons.
Qed.
Lemma chains_report s chains : Forall (Forall (λ dec, named dec ∧ leads r0 s dec)) chains.*2 →
  reports_unless (validate_chains lua int_of string_of s chains) (Forall (λ u, Forall (usage_right (dt_flag u.1)) u.2) chains).
Proof.
  induction chains as [|[target chain] chains IH]; cbn [validate_chains fmap list_fmap snd]; [intros; apply reports_ret; constructor|].
  intros (?&?)%Forall_cons. eapply reports_seq; [by apply chain_reports|by apply IH|]. by rewrite Forall_cons.
Qed.

Definition def_right (p : def_ptr) : Prop :=
  ∀ d, rg_defs r0 !! p = Some d → Forall (λ u, Forall (usage_right (dt_flag u.1)) u.2) (usages p d).
Lemma def_reports v0 p : rv_registry v0 = r0 → program_ok result v0 → decorators_lead r0 → decorators_named r0 → is_Some (rg_defs r0 !! p) →
  reports_unless (validate_decorators_of lua int_of string_of p) (def_right p).
Proof.
  intros E0 [Hr _ Hb] Hlead Hnamed (d&E). rewrite E0 in Hr, Hb. destruct (ro_schema _ Hr p d E) as (s&Es&_). unfold validate_decorators_of.
  apply (decides_asks r0 Hok _ _ (λ d', d' = d)); [intros r (Hd&_); apply (computes_deref p d); [by rewrite Hd|done]|]. intros ? ->. rewrite Es.
  assert (Hf : bebop__validate_def_target d = Some (default 0 (bebop__validate_def_target d))).
  { pose proof (bo_known _ _ _ (Hb p d E)). unfold bebop__validate_def_target, def_kind. by destruct (df_body d). }
  intros v Hv. eapply computes_bind; [by apply (computes_lift _ _ (λ f v', f = default 0 (bebop__validate_def_target d) ∧ v' = v) _ Hf)|]. intros ? ? (->&->).
  revert v Hv. change (reports_unless (validate_chains lua int_of string_of s (usages p d)) (def_right p)).
  eapply reports_iff; [apply chains_report|].
  - rewrite usages_chains. specialize (Hlead p d s E Es). specialize (Hnamed p d E). rewrite Forall_forall in Hlead, Hnamed. apply Forall_forall. intros ch Hin.
    apply Forall_and. split; [by apply Hnamed|by apply Hlead].
  - unfold def_right. split; [|by intros H; apply H]. intros H d' E'. by assert (d' = d) as -> by congruence.
Qed.

Lemma defs_report v0 ps : rv_registry v0 = r0 → program_ok result v0 → decorators_lead r0 → decorators_named r0 →
  Forall (λ p, is_Some (rg_defs r0 !! p)) ps →
  reports_unless (validate_decorators_loop lua int_of string_of ps) (∀ p, p ∈ ps → def_right p).
Proof.
  intros E0 Hv Hl Hn. induction 1 as [|p ps Hp _ IH]; cbn [validate_decorators_loop].
  - apply reports_ret. by intros ? ?%not_elem_of_nil.
  - eapply reports_seq; [by apply (def_reports v0)|exact IH|]. set_solver.
Qed.
End Arguments.

(** ** The passes together *)

Lemma forget_chains d : chains_of (forget_def d) = map (map forget) (chains_of d).
Proof. unfold chains_of. cbn. f_equal. by apply forget_decorators. Qed.
Lemma redecorated_named r r' : ctx_ok (rg_ctx r) → redecorated r r' → decorators_named r → decorators_named r'.
Proof.
  intros Hok H Hn p d' E'. destruct (redecorated_down r r' p d' H E') as (d&E&Hf). destruct H as (_&_&Hc). destruct (Hc Hok) as (_&Hstr).
  specialize (Hn p d E). apply (f_equal chains_of) in Hf. rewrite !forget_chains in Hf.
  assert (Hall : Forall (Forall (has_name r)) (map (map forget) (chains_of d))).
  { rewrite Forall_map. eapply Forall_impl; [exact Hn|]. intros ch Hch. by rewrite Forall_map. }
  rewrite <- Hf, Forall_map in Hall. eapply Forall_impl; [exact Hall|]. intros ch Hch. rewrite Forall_map in Hch.
  eapply Forall_impl; [exact Hch|]. intros dec Hdec Ha. destruct (Hstr Ha) as (Ha0&Hs). destruct (Hdec Ha0) as (t&Ht). exists t. by apply Hs.
Qed.

Section Correct.
Context (lua : option (def_ptr → bool → bool)) (int_of string_of : literal_value → Z).

(** A decorator of [d], before something of the bit [flag], that is as it has to be. *)
Definition decorator_valid (r : registry_t) (d : bebop_def_t) (flag : Z) (dec : bebop_decorator_t) : Prop :=
  ∃ q dq dd s, dc_resolved dec = Some q ∧ rg_defs r !! q = Some dq ∧ df_body dq = DecoratorDef dd ∧ df_schema d = Some s ∧ sees r s q ∧
    usage_valid int_of string_of dd flag dec.
Definition decorators_valid (r : registry_t) (p : def_ptr) (d : bebop_def_t) : Prop :=
  Forall (λ u, Forall (decorator_valid r d (dt_flag u.1)) u.2) (usages p d).

Lemma valid_iff r p d s : df_schema d = Some s → Forall (Forall (leads r s)) (chains_of d) →
  decorators_valid r p d ↔
  Forall (Forall resolved) (chains_of d) ∧ Forall (λ u, Forall (usage_right int_of string_of r (dt_flag u.1)) u.2) (usages p d).
Proof.
  intros Es Hl. rewrite <- (usages_chains p d), Forall_map in *. rewrite <- Forall_and. unfold decorators_valid. rewrite !Forall_forall in *.
  apply forall_proper. intros u. split; intros H Hu; specialize (H Hu); specialize (Hl u Hu).
  - split; eapply Forall_impl; [exact H| |exact H|]; intros dec (q&dq&dd&t&E1&E2&E3&_&_&Hu'); [by exists q|]. intros q' d' dd' E1' E2' E3'. congruence.
  - destruct H as (H1&H2). rewrite !Forall_forall in *. intros dec Hin. destruct (H1 dec Hin) as (q&Eq). destruct (Hl dec Hin q Eq) as (Hs&dq&dd&E&Eb).
    exists q, dq, dd, s. split_and!; [done..|]. by eapply (H2 dec Hin).
Qed.

End Correct.
End Decorators.

(** ** Concrete programs *)

Module DecorateExamples.
#[local] Existing Instance list_context.
(** The strings with the handles 1 to 5. *)
Definition pool : list (list Z) := map chars ["tag"; "A"; "x"; "y"; "tga"]%string.
Definition definition (name : Z) (schema : schema_ptr) (decorators : list bebop_decorator_t) (b : def_body) : bebop_def_t :=
  mkDef name name no_span no_span 0 decorators (Some schema) None BEBOP_VIS_DEFAULT [] [] 0 b.
Definition literal (v : literal_value) : bebop_literal_t := mkLiteral no_span false 0 v.
Definition parameter (name : Z) (type : bebop_type_kind_t) (required : bool) (allowed : list literal_value) : bebop_macro_param_def_t :=
  mkMacroParam name 0 type required None (map literal allowed) no_span.
Definition decorator (targets : Z) (params : list bebop_macro_param_def_t) : def_body :=
  DecoratorDef (mkDecoratorDef targets false params no_span no_span 0 0).
Definition argument (name : Z) (v : literal_value) : bebop_decorator_arg_t := mkArg name no_span (literal v).
Definition use (name : Z) (args : list bebop_decorator_arg_t) : bebop_decorator_t := mkDecorator name no_span args None.

(** One schema: the decorator "tag" and a message "A". *)
Definition program (targets : Z) (params : list bebop_macro_param_def_t) (decorators : list bebop_decorator_t) : heap :=
  [definition 1 0%nat [] (decorator targets params); definition 2 0%nat decorators (MessageDef [])].
Definition table (names : gmap Z nat) (defs : list def_ptr) (imports : list schema_ptr) : schema_t :=
  mkSchemaT 0 no_span defs names [] 0 (map (λ s, mkImport 0 no_span None (Some s)) imports) 0 0 0.
Definition tables : list schema_t := [table {[1 := 0%nat; 2 := 1%nat]} [0; 1]%nat []].
Definition start (h : heap) (schemas : list schema_t) : resolver_t := mkResolver (mkRegistry (pool : ctx) h schemas) ∅ false [].
Definition one_result : bebop_parse_result := mkResult [0%nat] 0 ∅ 0 0.
(** Lua has compiled the block [validate] of every decorator. *)
Definition compiled : def_ptr → bool → bool := λ _ export, negb export.
Abbreviation validated all_defs := (validate_decorators one_result all_defs (Some compiled) (λ _, 0) (λ _, 0)).
Definition events (h : heap) : option (list event_t) :=
  '(_, v') ← validated [0; 1]%nat (start h tables); Some (rv_events v').

Definition good_program : heap :=
  program BEBOP_TARGET_MESSAGE [parameter 3 BEBOP_TYPE_INT32 true [LitInt 1; LitInt 2]] [use 1 [argument 0 (LitInt 2)]].

Lemma good_program_lookup p d : good_program !! p = Some d →
  p = 0%nat ∧ Some d = good_program !! 0%nat ∨ p = 1%nat ∧ Some d = good_program !! 1%nat.
Proof. destruct p as [|[|p]]; intros E; [by left|by right|destruct p; discriminate E]. Qed.
Lemma good_program_ok : program_ok one_result (start good_program tables).
Proof.
  split.
  - split; cbn.
    + intros p d [(->&[= ->])|(->&[= ->])]%good_program_lookup; exists 0%nat; by split; [|eexists].
    + by intros p d q [(->&[= ->])|(->&[= ->])]%good_program_lookup.
    + by intros p d q [(->&[= ->])|(->&[= ->])]%good_program_lookup ?%not_elem_of_nil.
    + intros [|s] sc E; [|destruct s; discriminate E]. injection E as <-. split; cbn.
      * intros p [->|[->| ?%not_elem_of_nil]%elem_of_cons]%elem_of_cons; [| |done]; eexists; by split.
      * by intros p ?%not_elem_of_nil.
      * intros k p [(<-&<-)|(_&(<-&<-)%lookup_singleton_Some)]%lookup_insert_Some; (split; [set_solver|by eexists]).
      * by intros imp t ?%not_elem_of_nil.
  - split; cbn; [intros s ->%list_elem_of_singleton; by eexists|]. intros k p E. by rewrite lookup_empty in E.
  - cbn. intros p d [(->&[= ->])|(->&[= ->])]%good_program_lookup; (split; [done| |done]); repeat constructor.
Qed.


(** Names and values that are not right are reported, with a name that is near. *)
Example reported :
  events (program BEBOP_TARGET_MESSAGE [parameter 3 BEBOP_TYPE_INT32 true [LitInt 1; LitInt 2]] [use 5 []; use 1 [argument 4 (LitInt 1)]; use 1 [argument 0 (LitInt 3); argument 0 (LitInt 1)]])
  = Some [DecoratorReport 0 no_span (UnknownDecorator (Some (chars "tag"))); DecoratorReference 0 no_span; DecoratorReference 0 no_span;
      DecoratorReport 0 no_span (UnknownParameter (Some (chars "x"))); DecoratorReport 0 no_span (MissingParameter 3); RunValidate 0 (DecoratedDef 1);
      DecoratorReport 0 no_span (NotAllowed 3); DecoratorReport 0 no_span TooManyArguments; RunValidate 0 (DecoratedDef 1)].
Proof. vm_compute. reflexivity. Qed.

(** A decorator that may not be repeated stands twice before a message, with two values for
    one parameter: nothing is reported. *)
Example used_twice :
  events (program BEBOP_TARGET_MESSAGE [parameter 3 BEBOP_TYPE_INT32 true []] [use 1 [argument 0 (LitInt 1); argument 3 (LitInt 2)]; use 1 [argument 0 (LitInt 1)]])
  = Some [DecoratorReference 0 no_span; DecoratorReference 0 no_span; RunValidate 0 (DecoratedDef 1); RunValidate 0 (DecoratedDef 1)].
Proof. vm_compute. reflexivity. Qed.

(** The one value that a boolean parameter allows is not allowed. *)
Example allowed_true :
  events (program BEBOP_TARGET_MESSAGE [parameter 3 BEBOP_TYPE_BOOL true [LitBool true]] [use 1 [argument 0 (LitBool true)]])
  = Some [DecoratorReference 0 no_span; DecoratorReport 0 no_span (NotAllowed 3); RunValidate 0 (DecoratedDef 1)].
Proof. vm_compute. reflexivity. Qed.

(** A parameter of the type float16 takes integers, and no floating-point values. *)
Example half_floats :
  events (program BEBOP_TARGET_MESSAGE [parameter 3 BEBOP_TYPE_FLOAT16 true []] [use 1 [argument 0 (LitInt 1)]; use 1 [argument 0 (LitFloat (S754_zero false))]])
  = Some [DecoratorReference 0 no_span; DecoratorReference 0 no_span; RunValidate 0 (DecoratedDef 1); DecoratorReport 0 no_span (WrongKind 3);
      RunValidate 0 (DecoratedDef 1)].
Proof. vm_compute. reflexivity. Qed.

(** A message hides the decorator of its name that is imported. *)
Example hidden_decorator :
  (λ '(_, v'), rv_events v') <$> validated [0; 1]%nat
    (start [definition 1 0%nat [] (decorator BEBOP_TARGET_MESSAGE []); definition 1 1%nat [use 1 []] (MessageDef [])]
       [table {[1 := 0%nat]} [0%nat] []; table {[1 := 1%nat]} [1%nat] [0%nat]])
  = Some [DecoratorReport 1 no_span (UnknownDecorator (Some (chars "tag")))].
Proof. vm_compute. reflexivity. Qed.
End DecorateExamples.
