(* ===== verification/Parser.v ===== *)
(** The base of the parser of schemas ([bebop/src/bebop_parser.c], to line 448): its cursor
    over the tokens, errors and panic mode, the tokens at which it takes up again behind an
    error, spans from token to token, reserved names and documentation comments.

    The tokens, the source and the trivia are those of the scanner and do not change. *)
From stdpp Require Import list gmap strings.
From S2P Require Import Prelude.
From S2P Require Import Unicode.
From S2P Require Import Scanner.
From S2P Require Import Schema.
From S2P Require Import Fuzzy.
From S2P Require Import Diagnostics.
From S2P Require Import Sema.
From S2P Require Import Registry.

Definition BEBOP_DIAG_MULTIPLE_DEFINITIONS : Z := 101.
Definition BEBOP_DIAG_RESERVED_IDENTIFIER : Z := 102.
Definition BEBOP_DIAG_UNEXPECTED_TOKEN : Z := 104.
Definition BEBOP_DIAG_UNRECOGNIZED_TYPE : Z := 105.
Definition BEBOP_DIAG_INVALID_LITERAL : Z := 123.
Definition BEBOP_DIAG_INVALID_NUMBER : Z := 127.
Definition BEBOP_DIAG_INVALID_UUID : Z := 128.
Definition BEBOP_DIAG_ENV_VAR_NOT_FOUND : Z := 129.
Definition BEBOP_DIAG_DUPLICATE_METHOD_ID : Z := 131.
Definition BEBOP_DIAG_INVALID_QUALIFIED_NAME : Z := 142.
Definition BEBOP_DIAG_INVALID_MACRO : Z := 143.

(** [BEBOP_RESERVED_IDENTIFIERS] *)
Definition bebop__reserved_identifiers : list (string * string) := [("Array", "List")]%string.
Fixpoint reserved_in (table : list (string * string)) (name : list Z) : option (list Z) :=
  match table with
  | [] => None
  | (s, sug) :: table => if bool_decide (c_string name = chars s) then Some (chars sug) else reserved_in table name
  end.
Definition bebop__check_reserved_identifier (name : list Z) : option (list Z) := reserved_in bebop__reserved_identifiers name.

Definition bebop__fuzzy_keywords : list (list Z) := map (chars ∘ fst) bebop__keywords.
Definition bebop__decorator_body_items : list (list Z) :=
  map chars ["targets"; "multiple"; "param"; "validate"; "export"]%string.

(** From one token to another; the null pointer is [None]. *)
Definition bebop__parse_span_from_tokens (first last : option bebop_span_t) : bebop_span_t :=
  match first with
  | None => Sema.no_span
  | Some first =>
      match last with
      | None => first
      | Some last =>
          let last_end := u32 (off last + len last) in
          if last_end <? off last then first
          else
            let n := if off first <=? last_end then last_end - off first else len first in
            mkSpan (off first) n (start_line first) (start_col first) (end_line last) (end_col last)
      end
  end.

Definition is_keyword_kind (kind : bebop_token_kind_t) : bool := existsb (λ e, bool_decide (e.2 = kind)) bebop__keywords.
(** The keywords are the kinds from [BEBOP_TOKEN_ENUM] to [BEBOP_TOKEN_CONST], and [with]. *)
Definition bebop__token_is_ident_or_keyword (kind : bebop_token_kind_t) : bool :=
  bool_decide (kind = BEBOP_TOKEN_IDENTIFIER) || is_keyword_kind kind && negb (bool_decide (kind = BEBOP_TOKEN_WITH)).

(** ** Comments *)

Definition BEBOP_IS_BLANK (c : Z) : bool := BEBOP_IS_WHITESPACE c || BEBOP_IS_NEWLINE c.

Fixpoint drop_while (p : Z → bool) (s : list Z) : list Z :=
  match s with
  | [] => []
  | c :: s' => if p c then drop_while p s' else s
  end.
(** The loops that shorten a text from its end. *)
Definition trim_end (p : Z → bool) (s : list Z) : list Z := rev (drop_while p (rev s)).

(** At the start of a line: blanks, an asterisk and one space are left out. *)
Definition skip_line_start (src : list Z) : list Z :=
  match drop_while BEBOP_IS_WHITESPACE src with
  | 42 :: 32 :: src => src
  | 42 :: src => src
  | src => src
  end.
(** The text of a block comment. Fuel: its length. *)
Fixpoint block_doc (fuel : nat) (src : list Z) (at_line_start : bool) : list Z :=
  match fuel with
  | O => []
  | S fuel =>
      match (if at_line_start then skip_line_start src else src) with
      | [] => []
      | c :: src => if BEBOP_IS_NEWLINE c then 10 :: block_doc fuel src true else c :: block_doc fuel src false
      end
  end.

(** The text of a line comment: three slashes and a space before it, blanks behind it. *)
Definition line_doc (text : list Z) : list Z :=
  trim_end BEBOP_IS_WHITESPACE
    match text with
    | 47 :: 47 :: 47 :: 32 :: src => src
    | 47 :: 47 :: 47 :: src => src
    | src => src
    end.
Definition append_line (out line : list Z) : list Z :=
  match line with
  | [] => out
  | _ => match out with [] => line | _ => out ++ 10 :: line end
  end.

(** The first and the last of the comments at the end of a list of trivia; [n] of them are
    still to be seen. *)
Fixpoint doc_range (items : list bebop_trivia_t) (n : nat) (doc_start doc_end : Z) : option (Z * Z) :=
  match n with
  | O => Some (doc_start, doc_end)
  | S i =>
      t ← items !! i;
      match tv_kind t with
      | BEBOP_TRIVIA_DOC_COMMENT => doc_range items i (Z.of_nat i) (if doc_end <? 0 then Z.of_nat i else doc_end)
      | BEBOP_TRIVIA_NEWLINE | BEBOP_TRIVIA_WHITESPACE => doc_range items i doc_start doc_end
      | _ => Some (doc_start, doc_end)
      end
  end.

(** ** State *)

(** How far the file has got. *)
Inductive bebop_preamble_state_t : Set :=
  BEBOP_PREAMBLE_START | BEBOP_PREAMBLE_EDITION | BEBOP_PREAMBLE_PACKAGE | BEBOP_PREAMBLE_IMPORTS | BEBOP_PREAMBLE_DONE.
Definition preamble_rank (s : bebop_preamble_state_t) : Z :=
  match s with
  | BEBOP_PREAMBLE_START => 0
  | BEBOP_PREAMBLE_EDITION => 1
  | BEBOP_PREAMBLE_PACKAGE => 2
  | BEBOP_PREAMBLE_IMPORTS => 3
  | BEBOP_PREAMBLE_DONE => 4
  end.

Section Parser.
Context {cc : Context} {dm : DefMap def_ptr} {ns : DefMap (option bebop_span_t)} (grants : nat → bool).
(** [stream], [source] and the trivia of the stream *)
Context (tokens : list bebop_token_t) (source : list Z) (trivia : list bebop_trivia_t).

(** The flags are three booleans. The analyser holds the diagnostics of the schema. *)
Record bebop_parser_t : Type := mkParser {
  pr_current : Z;
  pr_had_error : bool;
  pr_panic : bool;
  pr_fatal : bool;
  pr_sema : bebop_sema_t;
  pr_registry : registry_t;
  pr_preamble : bebop_preamble_state_t
}.
Abbreviation M := (C bebop_parser_t).

Definition set_current (i : Z) (p : bebop_parser_t) : bebop_parser_t :=
  mkParser i (pr_had_error p) (pr_panic p) (pr_fatal p) (pr_sema p) (pr_registry p) (pr_preamble p).
Definition set_flags (had_error panic fatal : bool) (p : bebop_parser_t) : bebop_parser_t :=
  mkParser (pr_current p) had_error panic fatal (pr_sema p) (pr_registry p) (pr_preamble p).
Definition set_preamble (s : bebop_preamble_state_t) (p : bebop_parser_t) : bebop_parser_t :=
  mkParser (pr_current p) (pr_had_error p) (pr_panic p) (pr_fatal p) (pr_sema p) (pr_registry p) s.
Definition on_sema {A} (c : C bebop_sema_t A) : M A := λ p,
  '(a, s) ← c (pr_sema p); Some (a, mkParser (pr_current p) (pr_had_error p) (pr_panic p) (pr_fatal p) s (pr_registry p) (pr_preamble p)).
Definition on_registry {A} (c : C registry_t A) : M A := λ p,
  '(a, r) ← c (pr_registry p); Some (a, mkParser (pr_current p) (pr_had_error p) (pr_panic p) (pr_fatal p) (pr_sema p) r (pr_preamble p)).

Definition str_get (s : Z) : M (option (list Z)) := gets (λ p, ctx_str (rg_ctx (pr_registry p)) s).
(** A function of the analyser, which looks at names through the context. *)
Definition sema {A} (c : (Z → option (list Z)) → C bebop_sema_t A) : M A := λ p,
  on_sema (c (ctx_str (rg_ctx (pr_registry p)))) p.

(** ** Tokens *)

Definition token_at (i : Z) : M bebop_token_t := if i <? 0 then ub else lift (tokens !! Z.to_nat i).
Definition BEBOP_PARSE_CURRENT : M bebop_token_t := i ← gets pr_current; token_at i.
Definition BEBOP_PARSE_PREVIOUS : M bebop_token_t := i ← gets pr_current; token_at (i - 1).
Definition BEBOP_PARSE_CHECK (k : bebop_token_kind_t) : M bool :=
  tok ← BEBOP_PARSE_CURRENT; mret (bool_decide (tk_kind tok = k)).
Definition BEBOP_PARSE_AT_END : M bool := BEBOP_PARSE_CHECK BEBOP_TOKEN_EOF.
Definition BEBOP_PARSE_ADVANCE : M unit :=
  at_end ← BEBOP_PARSE_AT_END; if (at_end : bool) then mret tt else modify (λ p, set_current (u32 (pr_current p + 1)) p).

(** The token [n] behind the current one, or the last one. *)
Definition bebop__parse_peek (n : Z) : M (option bebop_token_t) :=
  let count := zlen tokens in
  if count =? 0 then mret None
  else
    current ← gets pr_current;
    let idx := if UINT32_MAX - current <? n then count - 1
               else if count <=? current + n then count - 1 else current + n in
    tok ← token_at idx; mret (Some tok).

(** ** Errors *)

Definition bebop__parse_fatal : M unit :=
  modify (λ p, set_flags (pr_had_error p) (pr_panic p) true p);; on_sema bebop__context_set_error.

Definition add_diagnostic (severity : bebop_diag_severity_t) (code : Z) (span : bebop_span_t) (hint : bool) : M unit :=
  on_sema (on_schema (bebop__schema_add_diagnostic grants severity code span hint)).
Definition add_label (span : bebop_span_t) : M unit := on_sema (on_schema (bebop__schema_diag_add_label grants span)).

(** [bebop__PARSE_ERROR_HINT_FMT], with a hint or without *)
Definition report_error (span : bebop_span_t) (code : Z) (hint : bool) : M unit :=
  quiet ← gets (λ p, pr_panic p || pr_fatal p);
  if (quiet : bool) then mret tt
  else
    modify (λ p, set_flags true true (pr_fatal p) p);;
    add_diagnostic BEBOP_DIAG_ERROR code span hint.
Definition bebop__parse_error_at (span : bebop_span_t) (code : Z) : M unit := report_error span code false.
Definition BEBOP_PARSE_ERROR_CURRENT (code : Z) : M unit := tok ← BEBOP_PARSE_CURRENT; bebop__parse_error_at (tk_span tok) code.
Definition BEBOP_PARSE_ERROR (code : Z) : M unit := tok ← BEBOP_PARSE_PREVIOUS; bebop__parse_error_at (tk_span tok) code.
Definition BEBOP_PARSE_WARNING (span : bebop_span_t) (code : Z) : M unit := add_diagnostic BEBOP_DIAG_WARNING code span false.

Definition BEBOP_PARSE_CONSUME (k : bebop_token_kind_t) : M bool :=
  here ← BEBOP_PARSE_CHECK k;
  if (here : bool) then BEBOP_PARSE_ADVANCE;; mret true
  else BEBOP_PARSE_ERROR_CURRENT BEBOP_DIAG_UNEXPECTED_TOKEN;; mret false.
Definition BEBOP_PARSE_CONSUME_AFTER (k : bebop_token_kind_t) : M bool :=
  here ← BEBOP_PARSE_CHECK k;
  if (here : bool) then BEBOP_PARSE_ADVANCE;; mret true
  else BEBOP_PARSE_ERROR BEBOP_DIAG_UNEXPECTED_TOKEN;; mret false.
Definition BEBOP_PARSE_MATCH (k : bebop_token_kind_t) : M bool :=
  here ← BEBOP_PARSE_CHECK k; if (here : bool) then BEBOP_PARSE_ADVANCE;; mret true else mret false.
Definition BEBOP_PARSE_CONSUME_NAME : M bool :=
  tok ← BEBOP_PARSE_CURRENT;
  if bebop__token_is_ident_or_keyword (tk_kind tok) then BEBOP_PARSE_ADVANCE;; mret true
  else BEBOP_PARSE_ERROR_CURRENT BEBOP_DIAG_UNEXPECTED_TOKEN;; mret false.

(** ** Where parsing takes up again *)

(** The number of tokens bounds every loop that advances in each round. *)
Definition parse_fuel : nat := S (length tokens).

Definition clear_panic : M unit := modify (λ p, set_flags (pr_had_error p) false (pr_fatal p) p).

Definition starts_statement (kind : bebop_token_kind_t) : bool :=
  match kind with
  | BEBOP_TOKEN_ENUM | BEBOP_TOKEN_STRUCT | BEBOP_TOKEN_MESSAGE | BEBOP_TOKEN_UNION | BEBOP_TOKEN_SERVICE
  | BEBOP_TOKEN_CONST | BEBOP_TOKEN_MUT | BEBOP_TOKEN_READONLY | BEBOP_TOKEN_IMPORT | BEBOP_TOKEN_PACKAGE
  | BEBOP_TOKEN_EXPORT | BEBOP_TOKEN_LOCAL | BEBOP_TOKEN_AT => true
  | _ => false
  end.
Fixpoint synchronize_loop (fuel : nat) (stop : bebop_token_kind_t → bool) : M unit :=
  match fuel with
  | O => ub
  | S fuel =>
      at_end ← BEBOP_PARSE_AT_END;
      if (at_end : bool) then mret tt
      else
        prev ← BEBOP_PARSE_PREVIOUS;
        if bool_decide (tk_kind prev = BEBOP_TOKEN_SEMICOLON) then mret tt
        else
          tok ← BEBOP_PARSE_CURRENT;
          if stop (tk_kind tok) then mret tt
          else BEBOP_PARSE_ADVANCE;; synchronize_loop fuel stop
  end.
Definition bebop__parse_synchronize : M unit :=
  clear_panic;; BEBOP_PARSE_ADVANCE;; synchronize_loop parse_fuel starts_statement.

Definition ends_part (kind : bebop_token_kind_t) : bool :=
  match kind with BEBOP_TOKEN_RBRACE | BEBOP_TOKEN_AT => true | _ => false end.
Definition bebop__parse_synchronize_in_block : M unit :=
  clear_panic;; BEBOP_PARSE_ADVANCE;; synchronize_loop parse_fuel ends_part.

Definition bebop__is_decorator_body_item : M bool :=
  tok ← BEBOP_PARSE_CURRENT;
  if negb (bool_decide (tk_kind tok = BEBOP_TOKEN_IDENTIFIER)) then mret false
  else
    name ← str_get (tk_lexeme tok);
    mret (match name with
          | Some name => bool_decide (name ∈ bebop__decorator_body_items)
          | None => false
          end).
Fixpoint decorator_sync_loop (fuel : nat) (depth : Z) : M unit :=
  match fuel with
  | O => ub
  | S fuel =>
      tok ← BEBOP_PARSE_CURRENT;
      let kind := tk_kind tok in
      if bool_decide (kind = BEBOP_TOKEN_EOF) then mret tt
      else
        let depth := if bool_decide (kind = BEBOP_TOKEN_LBRACE) then depth + 1 else depth in
        if bool_decide (kind = BEBOP_TOKEN_RBRACE) && negb (0 <? depth) then mret tt
        else
          let depth := if bool_decide (kind = BEBOP_TOKEN_RBRACE) then depth - 1 else depth in
          if bool_decide (kind = BEBOP_TOKEN_RBRACKET) then
            BEBOP_PARSE_ADVANCE;;
            again ← BEBOP_PARSE_CHECK BEBOP_TOKEN_RBRACKET;
            if (again : bool) then BEBOP_PARSE_ADVANCE else decorator_sync_loop fuel depth
          else
            item ← (if depth =? 0 then bebop__is_decorator_body_item else mret false);
            if (item : bool) then mret tt
            else BEBOP_PARSE_ADVANCE;; decorator_sync_loop fuel depth
  end.
Definition bebop__parse_synchronize_in_decorator : M unit := clear_panic;; decorator_sync_loop parse_fuel 0.

(** ** Names *)

(** A label with the nearest candidate, if one is near enough. *)
Definition suggest_nearest (candidates : list (list Z)) (input : list Z) (span : bebop_span_t) : M unit :=
  best ← lift (bebop_util_fuzzy_match input (map Some candidates) 3);
  match best with Some _ => add_label span | None => mret tt end.
Definition bebop__suggest_keyword : list Z → bebop_span_t → M unit := suggest_nearest bebop__fuzzy_keywords.
Definition bebop__suggest_decorator_item : list Z → bebop_span_t → M unit := suggest_nearest bebop__decorator_body_items.

(** A null string is compared, which is undefined. *)
Definition bebop__check_reserved_name (span : bebop_span_t) (name : Z) : M unit :=
  text ← str_get name;
  text ← lift text;
  match bebop__check_reserved_identifier text with
  | Some _ => bebop__parse_error_at span BEBOP_DIAG_RESERVED_IDENTIFIER;; add_label span
  | None => mret tt
  end.

(** ** Documentation *)

Definition trivia_items (l : bebop_trivia_list_t) : list bebop_trivia_t :=
  take (Z.to_nat (tl_count l)) (drop (Z.to_nat (tl_off l)) trivia).
Definition comment_text (t : bebop_trivia_t) : option (list Z) := load_bytes source (off (tv_span t)) (len (tv_span t)).

Definition intern_text (out : list Z) : M Z :=
  match out with [] => mret 0 | _ => on_registry (bebop_intern_n out) end.

(** The comments among the items, joined; others are left out. *)
Fixpoint line_docs (items : list bebop_trivia_t) (out : list Z) : option (list Z) :=
  match items with
  | [] => Some out
  | t :: items =>
      match tv_kind t with
      | BEBOP_TRIVIA_DOC_COMMENT => text ← comment_text t; line_docs items (append_line out (line_doc text))
      | _ => line_docs items out
      end
  end.
Definition doc_length (items : list bebop_trivia_t) : Z :=
  foldr (λ t n, match tv_kind t with BEBOP_TRIVIA_DOC_COMMENT => len (tv_span t) + 1 + n | _ => n end) 0 items.

Definition bebop__parse_extract_doc (l : bebop_trivia_list_t) : M Z :=
  if tl_count l =? 0 then mret 0
  else
    let items := trivia_items l in
    range ← lift (doc_range items (Z.to_nat (tl_count l)) (-1) (-1));
    let '(doc_start, doc_end) := range in
    if doc_end <? 0 then mret 0
    else
      first ← lift (items !! Z.to_nat doc_start);
      text ← lift (comment_text first);
      match text with
      | 47 :: 42 :: 42 :: src =>
          if len (tv_span first) <? 5 then mret 0
          else
            let src := take (Z.to_nat (len (tv_span first) - 5)) src in
            buf ← on_registry (alloc_n 1 (zlen src + 1) 1);
            match buf with
            | None => mret 0
            | Some _ => intern_text (trim_end BEBOP_IS_BLANK (block_doc (S (length src)) src true))
            end
      | _ =>
          let docs := take (Z.to_nat (doc_end - doc_start + 1)) (drop (Z.to_nat doc_start) items) in
          buf ← on_registry (alloc_n 1 (doc_length docs + 1) 1);
          match buf with
          | None => mret 0
          | Some _ => out ← lift (line_docs docs []); intern_text out
          end
      end.

End Parser.
