(* ===== verification/ParserProps.v ===== *)
(** What the operations of [Parser] promise: they stay inside of the stream, never go back,
    keep what has been reported, and take up again behind an error. *)
From stdpp Require Import list gmap strings.
From S2P Require Import Prelude.
From S2P Require Import Scanner.
From S2P Require Import Schema.
From S2P Require Import Fuzzy.
From S2P Require Import Diagnostics.
From S2P Require Import Sema.
From S2P Require Import SemaProps.
From S2P Require Import Registry.
From S2P Require Import Parser.

(** What the scanner makes: one token of the end, at the end ([ScannerSpec]). *)
Definition stream_ends (tokens : list bebop_token_t) : Prop :=
  zlen tokens < 2 ^ 32 ∧
  ∃ init eof, tokens = init ++ [eof] ∧ tk_kind eof = BEBOP_TOKEN_EOF ∧ Forall (λ tok, tk_kind tok ≠ BEBOP_TOKEN_EOF) init.

Existing Class stream_ends.

(** The token at a position, the last one outside of the stream. *)
Definition tok_at (tokens : list bebop_token_t) (i : Z) : bebop_token_t := default eof_token (tokens !! Z.to_nat i).
Definition kind_at (tokens : list bebop_token_t) (i : Z) : bebop_token_kind_t := tk_kind (tok_at tokens i).

Lemma stream_kind tokens i : stream_ends tokens → 0 ≤ i < zlen tokens → kind_at tokens i = BEBOP_TOKEN_EOF ↔ i = zlen tokens - 1.
Proof.
  intros (_&init&eof&->&He&Hi) Hr. rewrite zlen_app, zlen_cons, zlen_nil in *. unfold kind_at, tok_at. split.
  - intros Hk. destruct (decide (i < zlen init)) as [Hlt|]; [|lia].
    rewrite lookup_app_l in Hk by (unfold zlen in *; lia). destruct (lookup_lt_is_Some_2 init (Z.to_nat i)) as (t&Ht); [unfold zlen in *; lia|].
    rewrite Ht in Hk. by destruct (Forall_lookup_1 _ _ _ _ Hi Ht).
  - intros ->. rewrite lookup_app_r by (unfold zlen; lia). by replace (Z.to_nat (zlen init + (1 + 0) - 1) - length init)%nat with 0%nat by (unfold zlen; lia).
Qed.

Section ParserProps.
Context {cc : Context} {Hcc : ContextOk} {dm : DefMap def_ptr} {ns : DefMap (option bebop_span_t)} (grants : nat → bool).
Context (tokens : list bebop_token_t) (source : list Z) (trivia : list bebop_trivia_t).
Context {Hends : stream_ends tokens}.
Abbreviation M := (C bebop_parser_t).
Abbreviation tok := (tok_at tokens).
Abbreviation kind := (kind_at tokens).
Abbreviation diags p := (se_schema (pr_sema p)).
Abbreviation pctx p := (rg_ctx (pr_registry p)).

(** ** The invariant *)

Definition inside (p : bebop_parser_t) : Prop := 0 ≤ pr_current p < zlen tokens.

(** An error that was flagged is among the diagnostics, unless the array was full or the arena
    refused. *)
Definition flagged (p : bebop_parser_t) : Prop :=
  (pr_panic p = true → pr_had_error p = true) ∧
  (pr_had_error p = true → 0 < ds_error_count (diags p) ∨ lost grants (diags p)).

Record parser_ok (p : bebop_parser_t) : Prop := {
  pk_inside : inside p;
  pk_sema : ∃ b, sema_ok b (pr_sema p);
  pk_flagged : flagged p
}.

(** What an operation on the tokens leaves as it was: it does not go back, errors stay, names
    stay, definitions and schemas are untouched, and diagnostics are only added. *)
Record parser_le (p p' : bebop_parser_t) : Prop := {
  pl_ok : parser_ok p → parser_ok p';
  pl_current : parser_ok p → pr_current p ≤ pr_current p';
  pl_had_error : pr_had_error p = true → pr_had_error p' = true;
  pl_fatal : pr_fatal p = true → pr_fatal p' = true;
  pl_ctx : ctx_le (pctx p) (pctx p');
  pl_defs : rg_defs (pr_registry p') = rg_defs (pr_registry p);
  pl_schemas : rg_schemas (pr_registry p') = rg_schemas (pr_registry p)
}.

#[export] Instance parser_le_preorder : PreOrder parser_le.
Proof.
  split.
  - intros p. by split.
  - intros p1 p2 p3 H H'. destruct H as [O1 C1 E1 F1 X1 D1 S1], H' as [O2 C2 E2 F2 X2 D2 S2].
    split; [auto|intros Hp; specialize (C1 Hp); specialize (C2 (O1 Hp)); lia|auto|auto|by etrans|congruence..].
Qed.

Lemma pk_diags p : parser_ok p → diagnostics_ok (diags p).
Proof. intros [_ (b&Hb) _]. apply Hb. Qed.

(** ** Reading tokens *)

Lemma token_at_inside i p : 0 ≤ i < zlen tokens → token_at tokens i p = Some (tok i, p).
Proof.
  intros Hi. unfold token_at, tok_at. destruct (Z.ltb_spec i 0); [lia|].
  destruct (lookup_lt_is_Some_2 tokens (Z.to_nat i)) as (t&Ht); [unfold zlen in *; lia|]. unfold lift. by rewrite Ht.
Qed.
Lemma current_eq p : inside p → BEBOP_PARSE_CURRENT tokens p = Some (tok (pr_current p), p).
Proof. intros Hp. by apply token_at_inside. Qed.
Lemma previous_eq p : inside p → 0 < pr_current p → BEBOP_PARSE_PREVIOUS tokens p = Some (tok (pr_current p - 1), p).
Proof. intros Hp Hc. apply token_at_inside. unfold inside in *. lia. Qed.
Lemma check_eq k p : inside p → BEBOP_PARSE_CHECK tokens k p = Some (bool_decide (kind (pr_current p) = k), p).
Proof. intros Hp. unfold BEBOP_PARSE_CHECK. by rewrite (C_bind_Some _ _ _ _ _ (current_eq p Hp)). Qed.

Lemma not_last p : inside p → kind (pr_current p) ≠ BEBOP_TOKEN_EOF → pr_current p + 1 < zlen tokens.
Proof. intros Hp Hk. rewrite stream_kind in Hk by done. unfold inside in Hp. lia. Qed.
Lemma advance_eq p : inside p →
  BEBOP_PARSE_ADVANCE tokens p =
    Some (tt, if bool_decide (kind (pr_current p) = BEBOP_TOKEN_EOF) then p else set_current (pr_current p + 1) p).
Proof.
  intros Hp. unfold BEBOP_PARSE_ADVANCE, BEBOP_PARSE_AT_END. rewrite (C_bind_Some _ _ _ _ _ (check_eq _ p Hp)).
  case_bool_decide as Hk; [done|]. pose proof (not_last p Hp Hk). destruct Hends as (Hn&_). unfold inside in Hp. unfold modify. by rewrite u32_small by lia.
Qed.

Lemma flagged_same p p' : pr_panic p' = pr_panic p → pr_had_error p' = pr_had_error p → diags p' = diags p → flagged p → flagged p'.
Proof. unfold flagged. by intros -> -> ->. Qed.
Lemma set_current_le i p : pr_current p ≤ i → (parser_ok p → i < zlen tokens) → parser_le p (set_current i p).
Proof.
  intros Hi Hlt. split; try done. intros Hp. pose proof (Hlt Hp). destruct Hp as [Hin Hs Hf]. split; [|done|done]. unfold inside in *. cbn. lia.
Qed.

Lemma advance_computes p (Q : unit → bebop_parser_t → Prop) : parser_ok p →
  (∀ p', parser_le p p' → (kind (pr_current p) = BEBOP_TOKEN_EOF ∧ p' = p ∨ kind (pr_current p) ≠ BEBOP_TOKEN_EOF ∧ p' = set_current (pr_current p + 1) p) → Q tt p') →
  computes (BEBOP_PARSE_ADVANCE tokens) Q p.
Proof.
  intros Hp HQ. pose proof (pk_inside _ Hp) as Hin. eexists _, _. split; [by apply advance_eq|]. case_bool_decide as Hk; [apply HQ; [done|by left]|].
  apply HQ; [|by right]. apply set_current_le; [lia|]. intros _. by apply not_last.
Qed.

(** ** Errors *)

Definition failed (p : bebop_parser_t) : Prop := pr_panic p = true ∨ pr_fatal p = true.

(** A change of the analyser that reports at most. *)
Lemma on_sema_computes {A} (c : C bebop_sema_t A) a s' (Q : A → bebop_parser_t → Prop) p :
  parser_ok p → c (pr_sema p) = Some (a, s') → (∃ b', sema_ok b' s') → kept (diags p) (se_schema s') →
  (∀ p', parser_le p p' → pr_current p' = pr_current p → pr_panic p' = pr_panic p → pr_had_error p' = pr_had_error p →
    pr_fatal p' = pr_fatal p → pr_sema p' = s' → Q a p') →
  computes (on_sema c) Q p.
Proof.
  intros Hp E (b'&Hb') Hk HQ. eexists a, _. unfold on_sema. rewrite E. split; [done|]. apply HQ; try done. split; try done.
  intros _. destruct Hp as [Hi Hs (Hf1&Hf2)]. split; [done|by exists b'|]. split; [done|]. cbn. intros He.
  destruct (Hf2 He) as [Hc|Hl]; [left; destruct Hk; lia|right; eapply lost_kept; [apply Hb'|exact Hk|exact Hl]].
Qed.

Lemma answers_computes {A} (c : C bebop_sema_t A) (next : body → body) (P : body → Prop) (Q : A → bebop_parser_t → Prop) p :
  parser_ok p → (∀ b, sema_ok b (pr_sema p) → answers grants c (next b) (P b) (pr_sema p)) →
  (∀ a p', parser_le p p' → pr_current p' = pr_current p → pr_panic p' = pr_panic p → pr_had_error p' = pr_had_error p →
    pr_fatal p' = pr_fatal p → Q a p') →
  computes (on_sema c) Q p.
Proof.
  intros Hp Hans HQ. pose proof Hp as [_ (b&Hb) _]. destruct (Hans b Hb) as (a&s'&E&Hs'&Hk&_).
  eapply on_sema_computes; [done|done|by eexists|done|]. intros p' ? ? ? ? ? _. by apply HQ.
Qed.

Lemma add_diagnostic_computes sev code span hint (Q : unit → bebop_parser_t → Prop) p :
  parser_ok p →
  (∀ p', parser_le p p' → pr_current p' = pr_current p → pr_panic p' = pr_panic p → pr_had_error p' = pr_had_error p →
    pr_fatal p' = pr_fatal p → Q tt p') →
  computes (add_diagnostic grants sev code span hint) Q p.
Proof.
  intros Hp HQ. pose proof Hp as [_ (b&Hb) _]. destruct (add_diagnostic_ok grants sev code span hint (diags p)) as (d&E&Hd&Hcase); [by apply pk_diags|].
  eapply (on_sema_computes _ tt (set_schema d (pr_sema p))); [done|by unfold on_schema; rewrite E|exists b; by apply sema_ok_schema| |].
  - unfold kept. cbn. rewrite (dso_errors _ Hd), (dso_errors _ (pk_diags _ Hp)). destruct Hcase as [->|(->&_)]; [|lia].
    rewrite of_severity_app. pose proof (of_severity_bound BEBOP_DIAG_ERROR [mkDiagnostic sev code span []]). unfold zlen. rewrite length_app. lia.
  - intros p' ? ? ? ? ? _. by apply HQ.
Qed.
Lemma add_label_computes span (Q : unit → bebop_parser_t → Prop) p :
  parser_ok p →
  (∀ p', parser_le p p' → pr_current p' = pr_current p → pr_panic p' = pr_panic p → pr_had_error p' = pr_had_error p →
    pr_fatal p' = pr_fatal p → Q tt p') →
  computes (add_label grants span) Q p.
Proof.
  intros Hp HQ. pose proof Hp as [_ (b&Hb) _]. destruct (label_correct grants span (pr_sema p)) as (d&E&Hd&Hk); [by apply pk_diags|].
  eapply on_sema_computes; [done|exact E|exists b; by apply sema_ok_schema|done|]. intros p' ? ? ? ? ? _. by apply HQ.
Qed.

(** After a report the parser is in panic mode, or it has stopped for good. *)
Definition error_post (p p' : bebop_parser_t) : Prop := parser_le p p' ∧ pr_current p' = pr_current p ∧ failed p'.

Lemma report_error_computes span code hint (Q : unit → bebop_parser_t → Prop) p :
  parser_ok p → (∀ p', error_post p p' → (failed p → p' = p) → Q tt p') → computes (report_error grants span code hint) Q p.
Proof.
  intros Hp HQ. unfold report_error. eapply computes_bind; [by apply (computes_gets _ (λ b p', b = (pr_panic p || pr_fatal p) ∧ p' = p))|].
  intros b ? (->&->). destruct (pr_panic p || pr_fatal p) eqn:Eq.
  - apply computes_ret, HQ; [|done]. split_and!; [done|done|]. by apply orb_true_iff in Eq.
  - apply orb_false_iff in Eq as (E1&E2). pose proof Hp as [Hin (b&Hb) (Hf1&Hf2)].
    destruct (diag_ok_error grants code span hint (pr_sema p) (pk_diags _ Hp)) as (d&E&Hd&Hk&Hr).
    eexists tt, (mkParser _ true true _ (set_schema d (pr_sema p)) _ _). unfold modify at 1. unfold mbind, C_bind, add_diagnostic, on_sema. cbn [pr_sema set_flags].
    rewrite E. split; [done|]. apply HQ; [|intros [?|?]; congruence]. split_and!; [|done|by left]. split; try done.
    intros _. split; [done|exists b; by apply sema_ok_schema|]. split; [done|]. intros _. cbn. destruct Hr as [?|?]; [left|by right].
    pose proof (dso_errors _ (pk_diags _ Hp)). pose proof (of_severity_bound BEBOP_DIAG_ERROR (ds_diagnostics (diags p))). lia.
Qed.
Lemma error_at_computes span code (Q : unit → bebop_parser_t → Prop) p :
  parser_ok p → (∀ p', error_post p p' → Q tt p') → computes (bebop__parse_error_at grants span code) Q p.
Proof. intros Hp HQ. apply report_error_computes; [done|]. intros p' H _. by apply HQ. Qed.
Lemma error_current_computes code (Q : unit → bebop_parser_t → Prop) p :
  parser_ok p → (∀ p', error_post p p' → Q tt p') → computes (BEBOP_PARSE_ERROR_CURRENT grants tokens code) Q p.
Proof.
  intros Hp HQ. unfold BEBOP_PARSE_ERROR_CURRENT. eapply computes_step; [apply current_eq, Hp|]. by apply error_at_computes.
Qed.
Lemma error_computes code (Q : unit → bebop_parser_t → Prop) p :
  parser_ok p → 0 < pr_current p → (∀ p', error_post p p' → Q tt p') → computes (BEBOP_PARSE_ERROR grants tokens code) Q p.
Proof.
  intros Hp Hc HQ. unfold BEBOP_PARSE_ERROR. eapply computes_step; [apply previous_eq; [apply Hp|done]|]. by apply error_at_computes.
Qed.
Lemma fatal_computes (Q : unit → bebop_parser_t → Prop) p :
  parser_ok p → (∀ p', error_post p p' → pr_fatal p' = true → Q tt p') → computes bebop__parse_fatal Q p.
Proof.
  intros Hp HQ. eexists _, _. split; [reflexivity|]. apply HQ; [|done]. split_and!; [|done|by right]. split; try done.
  intros _. destruct Hp as [Hi (b&Hb) Hf]. split; [done| |done]. exists b. by destruct Hb; split.
Qed.

(** ** Tokens that are expected *)

Definition next (p : bebop_parser_t) : bebop_parser_t := set_current (pr_current p + 1) p.

Lemma advance_next p : inside p → kind (pr_current p) ≠ BEBOP_TOKEN_EOF → BEBOP_PARSE_ADVANCE tokens p = Some (tt, next p).
Proof. intros Hp Hk. rewrite advance_eq by done. by rewrite bool_decide_false. Qed.
Lemma next_le p : kind (pr_current p) ≠ BEBOP_TOKEN_EOF → parser_le p (next p).
Proof. intros Hk. apply set_current_le; [lia|]. intros Hp. by apply not_last; [apply Hp|]. Qed.
Lemma next_ok p : parser_ok p → kind (pr_current p) ≠ BEBOP_TOKEN_EOF → parser_ok (next p).
Proof. intros Hp Hk. by apply (pl_ok _ _ (next_le p Hk)). Qed.

Lemma match_eq k p : k ≠ BEBOP_TOKEN_EOF → inside p →
  BEBOP_PARSE_MATCH tokens k p = Some (if bool_decide (kind (pr_current p) = k) then (true, next p) else (false, p)).
Proof.
  intros Hk Hp. unfold BEBOP_PARSE_MATCH. rewrite (C_bind_Some _ _ _ _ _ (check_eq k p Hp)). case_bool_decide as E; [|done].
  by rewrite (C_bind_Some _ _ _ _ _ (advance_next p Hp ltac:(congruence))).
Qed.
Lemma match_computes k (Q : bool → bebop_parser_t → Prop) p : k ≠ BEBOP_TOKEN_EOF → parser_ok p →
  (kind (pr_current p) = k → parser_le p (next p) → Q true (next p)) → (kind (pr_current p) ≠ k → Q false p) →
  computes (BEBOP_PARSE_MATCH tokens k) Q p.
Proof.
  intros Hk Hp Ht Hf. unfold computes. rewrite match_eq by (done || apply Hp). case_bool_decide as E.
  - eexists _, _. split; [done|]. apply Ht; [done|]. apply next_le. congruence.
  - eexists _, _. split; [done|]. by apply Hf.
Qed.

Lemma consume_computes k (Q : bool → bebop_parser_t → Prop) p : k ≠ BEBOP_TOKEN_EOF → parser_ok p →
  (kind (pr_current p) = k → parser_le p (next p) → Q true (next p)) →
  (∀ p', kind (pr_current p) ≠ k → error_post p p' → Q false p') → computes (BEBOP_PARSE_CONSUME grants tokens k) Q p.
Proof.
  intros Hk Hp Ht Hf. unfold BEBOP_PARSE_CONSUME. eapply computes_step; [apply check_eq, Hp|]. case_bool_decide as E.
  - eapply computes_step; [apply advance_next; [apply Hp|congruence]|]. apply computes_ret, Ht; [done|]. apply next_le. congruence.
  - eapply computes_bind; [by eapply (error_current_computes _ (λ _ p', error_post p p'))|]. intros [] p' H. by apply computes_ret, Hf.
Qed.
Lemma consume_after_computes k (Q : bool → bebop_parser_t → Prop) p : k ≠ BEBOP_TOKEN_EOF → parser_ok p → 0 < pr_current p →
  (kind (pr_current p) = k → parser_le p (next p) → Q true (next p)) →
  (∀ p', kind (pr_current p) ≠ k → error_post p p' → Q false p') → computes (BEBOP_PARSE_CONSUME_AFTER grants tokens k) Q p.
Proof.
  intros Hk Hp Hc Ht Hf. unfold BEBOP_PARSE_CONSUME_AFTER. eapply computes_step; [apply check_eq, Hp|]. case_bool_decide as E.
  - eapply computes_step; [apply advance_next; [apply Hp|congruence]|]. apply computes_ret, Ht; [done|]. apply next_le. congruence.
  - eapply computes_bind; [by eapply (error_computes _ (λ _ p', error_post p p'))|]. intros [] p' H. by apply computes_ret, Hf.
Qed.

Lemma not_eof_name k : bebop__token_is_ident_or_keyword k = true → k ≠ BEBOP_TOKEN_EOF.
Proof. by intros H ->. Qed.
Lemma consume_name_computes (Q : bool → bebop_parser_t → Prop) p : parser_ok p →
  (bebop__token_is_ident_or_keyword (kind (pr_current p)) = true → parser_le p (next p) → Q true (next p)) →
  (∀ p', bebop__token_is_ident_or_keyword (kind (pr_current p)) = false → error_post p p' → Q false p') →
  computes (BEBOP_PARSE_CONSUME_NAME grants tokens) Q p.
Proof.
  intros Hp Ht Hf. unfold BEBOP_PARSE_CONSUME_NAME. eapply computes_step; [apply current_eq, Hp|].
  change (tk_kind (tok (pr_current p))) with (kind (pr_current p)). destruct (bebop__token_is_ident_or_keyword _) eqn:E.
  - pose proof (not_eof_name _ E). eapply computes_step; [apply advance_next; [apply Hp|done]|]. apply computes_ret, Ht; [done|]. by apply next_le.
  - eapply computes_bind; [by eapply (error_current_computes _ (λ _ p', error_post p p'))|]. intros [] p' H. by apply computes_ret, Hf.
Qed.

(** ** Taking up again *)

(** The first token from [i] on that is the end, follows a semicolon or is one to stop at. *)
Definition resumes (stop : bebop_token_kind_t → bool) (i : Z) : Prop :=
  kind i = BEBOP_TOKEN_EOF ∨ kind (i - 1) = BEBOP_TOKEN_SEMICOLON ∨ stop (kind i) = true.
Definition first_resuming (stop : bebop_token_kind_t → bool) (i j : Z) : Prop :=
  i ≤ j < zlen tokens ∧ resumes stop j ∧ ∀ m, i ≤ m < j → ¬ resumes stop m.

Lemma first_resuming_ext stop stop' i j : (∀ k, stop k = stop' k) → first_resuming stop i j → first_resuming stop' i j.
Proof.
  intros H (Hj&Hr&Hno). assert (Hi : ∀ m, resumes stop m ↔ resumes stop' m) by (intros m; unfold resumes; by rewrite H).
  split; [done|]. split; [by apply Hi|]. intros m Hm Hr'. by apply (Hno m Hm), Hi.
Qed.

Lemma synchronize_loop_exact stop fuel : ∀ p,
  inside p → 0 < pr_current p ∨ kind (pr_current p) = BEBOP_TOKEN_EOF → zlen tokens - pr_current p ≤ Z.of_nat fuel →
  ∃ j, synchronize_loop tokens fuel stop p = Some (tt, set_current j p) ∧ first_resuming stop (pr_current p) j.
Proof.
  induction fuel as [|fuel IH]; intros p Hp Hc Hf; [unfold inside in Hp; lia|]. cbn [synchronize_loop].
  assert (Hhere : resumes stop (pr_current p) → Some (tt, p) = Some (tt, set_current (pr_current p) p) ∧ first_resuming stop (pr_current p) (pr_current p)).
  { intros Hr. split; [by destruct p|]. split; [unfold inside in Hp; lia|]. split; [done|lia]. }
  unfold BEBOP_PARSE_AT_END. rewrite (C_bind_Some _ _ _ _ _ (check_eq _ p Hp)). case_bool_decide as Hk; [exists (pr_current p); apply Hhere; by left|].
  destruct Hc as [Hc|]; [|done]. rewrite (C_bind_Some _ _ _ _ _ (previous_eq p Hp Hc)). case_bool_decide as Hs; [exists (pr_current p); apply Hhere; right; by left|].
  rewrite (C_bind_Some _ _ _ _ _ (current_eq p Hp)). change (tk_kind (tok (pr_current p))) with (kind (pr_current p)).
  destruct (stop (kind (pr_current p))) eqn:Est; [exists (pr_current p); apply Hhere; by do 2 right|].
  rewrite (C_bind_Some _ _ _ _ _ (advance_next p Hp Hk)). pose proof (not_last p Hp Hk).
  destruct (IH (next p)) as (j&E&Hj&Hr&Hno); [unfold inside in *; cbn; lia|left; cbn; unfold inside in Hp; lia|cbn; lia|].
  exists j. split; [exact E|]. cbn in Hj, Hno. split; [lia|]. split; [done|]. intros m Hm. destruct (decide (m = pr_current p)) as [->|]; [|apply Hno; lia].
  unfold resumes. change (kind (pr_current p - 1)) with (tk_kind (tok (pr_current p - 1))). naive_solver congruence.
Qed.

(** What a statement of a schema starts with, and where a part of a body ends. *)
Definition statement_kinds : list bebop_token_kind_t :=
  [BEBOP_TOKEN_ENUM; BEBOP_TOKEN_STRUCT; BEBOP_TOKEN_MESSAGE; BEBOP_TOKEN_UNION; BEBOP_TOKEN_SERVICE; BEBOP_TOKEN_CONST; BEBOP_TOKEN_MUT;
   BEBOP_TOKEN_READONLY; BEBOP_TOKEN_IMPORT; BEBOP_TOKEN_PACKAGE; BEBOP_TOKEN_EXPORT; BEBOP_TOKEN_LOCAL; BEBOP_TOKEN_AT].
Definition part_kinds : list bebop_token_kind_t := [BEBOP_TOKEN_RBRACE; BEBOP_TOKEN_AT].
Definition one_of (l : list bebop_token_kind_t) (k : bebop_token_kind_t) : bool := bool_decide (k ∈ l).
Lemma starts_statement_kinds k : starts_statement k = one_of statement_kinds k.
Proof. by destruct k. Qed.
Lemma ends_part_kinds k : ends_part k = one_of part_kinds k.
Proof. by destruct k. Qed.

Definition cleared (p : bebop_parser_t) : bebop_parser_t := set_flags (pr_had_error p) false (pr_fatal p) p.

(** Behind an error, in a file: the next token at the earliest. *)
Lemma synchronize_exact stop p :
  inside p →
  ∃ j, (clear_panic;; BEBOP_PARSE_ADVANCE tokens;; synchronize_loop tokens (parse_fuel tokens) stop) p = Some (tt, set_current j (cleared p)) ∧
    if bool_decide (kind (pr_current p) = BEBOP_TOKEN_EOF) then j = pr_current p else first_resuming stop (pr_current p + 1) j.
Proof.
  intros Hp. erewrite (C_bind_Some clear_panic) by reflexivity. fold (cleared p).
  rewrite (C_bind_Some _ _ _ _ _ (advance_eq (cleared p) Hp)). change (pr_current (cleared p)) with (pr_current p). unfold parse_fuel. unfold inside in Hp.
  case_bool_decide as Hk.
  - destruct (synchronize_loop_exact stop (S (length tokens)) (cleared p)) as (j&E&Hj&Hr&Hno); [done|by right|cbn; unfold zlen; lia|].
    exists j. split; [done|]. cbn in Hj, Hno. destruct (decide (j = pr_current p)); [done|]. exfalso. apply (Hno (pr_current p)); [lia|by left].
  - pose proof (not_last p Hp Hk).
    destruct (synchronize_loop_exact stop (S (length tokens)) (set_current (pr_current p + 1) (cleared p))) as (j&E&Hj); [unfold inside; cbn; lia|left; cbn; lia|cbn; unfold zlen; lia|].
    exists j. by split.
Qed.

Lemma cleared_le p : parser_le p (cleared p).
Proof. split; try done. intros [Hi Hs (Hf1&Hf2)]. by split. Qed.

(** The search in the body of a decorator ends, and does not go back. *)
Lemma decorator_sync_loop_computes fuel : ∀ depth p, parser_ok p → zlen tokens - pr_current p ≤ Z.of_nat fuel →
  computes (decorator_sync_loop tokens fuel depth) (λ _ p', parser_le p p' ∧ pr_panic p' = pr_panic p) p.
Proof.
  induction fuel as [|fuel IH]; intros depth p Hp Hf; pose proof (pk_inside _ Hp) as Hin; [unfold inside in Hin; lia|]. cbn [decorator_sync_loop].
  eapply computes_step; [by apply current_eq|]. change (tk_kind (tok (pr_current p))) with (kind (pr_current p)).
  assert (Hdone : computes (mret tt : M unit) (λ _ p', parser_le p p' ∧ pr_panic p' = pr_panic p) p) by (by apply computes_ret).
  case_bool_decide as Hk; [done|]. destruct (_ && _); [done|]. pose proof (next_ok p Hp Hk) as Hn. pose proof (next_le p Hk) as Hle.
  assert (Hmore : ∀ d, computes (decorator_sync_loop tokens fuel d) (λ _ p', parser_le p p' ∧ pr_panic p' = pr_panic p) (next p)).
  { intros d. eapply computes_weaken; [apply IH; [done|cbn; lia]|]. intros [] p' (Hle'&Hpa). split; [by etrans|done]. }
  set (d := if bool_decide (kind (pr_current p) = BEBOP_TOKEN_RBRACE) then _ else _). case_bool_decide as Hb.
  - eapply computes_step; [by apply advance_next|]. eapply computes_step; [by apply check_eq, Hn|]. case_bool_decide as Hb2; [|apply Hmore].
    eexists _, _. split; [apply advance_next; [apply Hn|congruence]|]. split; [|done]. etrans; [exact Hle|]. apply next_le. congruence.
  - assert (Hitem : computes (if d =? 0 then bebop__is_decorator_body_item tokens else mret false) (λ _ p', p' = p) p).
    { destruct (d =? 0); [|by apply computes_ret]. unfold bebop__is_decorator_body_item. eapply computes_step; [by apply current_eq|].
      destruct (negb _); [by apply computes_ret|]. eapply computes_step; [reflexivity|]. by apply computes_ret. }
    eapply computes_bind; [exact Hitem|]. intros [] q ->; [done|]. eapply computes_step; [by apply advance_next|]. apply Hmore.
Qed.
End ParserProps.

(** C19: behind an error.  From every state inside of the stream the parser takes up again: it
    leaves panic mode and goes, from the next token on, to the first one that ends the stream,
    follows a semicolon or starts a statement; in a body, that ends the body or starts a
    decorator instead.  At the end of the stream it stays.  In the body of a decorator
    definition it does not go back, and ends. *)
Theorem synchronize_resumes `{ContextOk} {dm : DefMap def_ptr} {ns : DefMap (option bebop_span_t)} grants tokens p :
  stream_ends tokens → parser_ok grants tokens p →
  let resumed (stops : list bebop_token_kind_t) (c : C bebop_parser_t unit) :=
    ∃ j, c p = Some (tt, set_current j (set_flags (pr_had_error p) false (pr_fatal p) p)) ∧
      (kind_at tokens (pr_current p) = BEBOP_TOKEN_EOF → j = pr_current p) ∧
      (kind_at tokens (pr_current p) ≠ BEBOP_TOKEN_EOF → first_resuming tokens (one_of stops) (pr_current p + 1) j) in
  resumed statement_kinds (bebop__parse_synchronize tokens) ∧ resumed part_kinds (bebop__parse_synchronize_in_block tokens) ∧
  ∃ p', bebop__parse_synchronize_in_decorator tokens p = Some (tt, p') ∧ parser_ok grants tokens p' ∧
    pr_current p ≤ pr_current p' ∧ pr_panic p' = false.
Proof.
  intros Hends Hp resumed. pose proof (pk_inside _ _ _ Hp) as Hin.
  assert (Hres : ∀ stops stop, (∀ k, stop k = one_of stops k) → resumed stops (clear_panic;; BEBOP_PARSE_ADVANCE tokens;; synchronize_loop tokens (parse_fuel tokens) stop)).
  { intros stops stop Hs. destruct (synchronize_exact grants tokens stop p Hin) as (j&E&Hj). exists j. split; [exact E|].
    case_bool_decide; (split; [done|]); intros ?; [done|by eapply first_resuming_ext]. }
  split; [apply Hres, starts_statement_kinds|]. split; [apply Hres, ends_part_kinds|]. set (q := cleared p). assert (Hq : parser_ok grants tokens q) by (by apply (pl_ok _ _ _ _ (cleared_le grants tokens p))).
  destruct (decorator_sync_loop_computes grants tokens (parse_fuel tokens) 0 q Hq) as ([]&p'&E&Hle&Hpa).
  { unfold parse_fuel, zlen. unfold inside in Hin. cbn. lia. }
  exists p'. split; [by unfold bebop__parse_synchronize_in_decorator; erewrite (C_bind_Some clear_panic) by reflexivity|].
  split; [by apply (pl_ok _ _ _ _ Hle)|]. split; [apply (pl_current _ _ _ _ Hle Hq)|done].
Qed.
