(* ===== verification/ParseType.v ===== *)
(** The parser of types ([bebop__parse_type], [bebop/src/bebop_parser.c], lines 450-851): a
    machine with a stack of frames, a recursive parser of the same types, and the proof that
    they do the same to every stream of tokens.

    A pointer to a type is a type with its span, or null. *)
From stdpp Require Import list gmap strings.
From S2P Require Import Prelude.
From S2P Require Import Scanner.
From S2P Require Import Schema.
From S2P Require Import Literals.
From S2P Require Import Diagnostics.
From S2P Require Import Sema.
From S2P Require Import Registry.
From S2P Require Import Parser.

Definition BEBOP_TYPE_STACK_SIZE : Z := 128.
Definition BEBOP_MAX_FIXED_ARRAY_SIZE : Z := 65535.
Definition sizeof_name_buf : Z := 512.
Definition sizeof_type : Z := 48.

(** ** Scalars *)

(** [BEBOP_SCALAR_TYPES]: the name, the size on the wire, whether it is an integer *)
Definition BEBOP_SCALAR_TYPES : list (bebop_type_kind_t * string * Z * bool) :=
  [(BEBOP_TYPE_BOOL, "bool", 1, false); (BEBOP_TYPE_BYTE, "byte", 1, true); (BEBOP_TYPE_INT8, "int8", 1, true);
   (BEBOP_TYPE_INT16, "int16", 2, true); (BEBOP_TYPE_UINT16, "uint16", 2, true); (BEBOP_TYPE_INT32, "int32", 4, true);
   (BEBOP_TYPE_UINT32, "uint32", 4, true); (BEBOP_TYPE_INT64, "int64", 8, true); (BEBOP_TYPE_UINT64, "uint64", 8, true);
   (BEBOP_TYPE_INT128, "int128", 16, true); (BEBOP_TYPE_UINT128, "uint128", 16, true);
   (BEBOP_TYPE_FLOAT16, "float16", 2, false); (BEBOP_TYPE_FLOAT32, "float32", 4, false);
   (BEBOP_TYPE_FLOAT64, "float64", 8, false); (BEBOP_TYPE_BFLOAT16, "bfloat16", 2, false);
   (BEBOP_TYPE_STRING, "string", 0, false); (BEBOP_TYPE_UUID, "uuid", 16, false);
   (BEBOP_TYPE_TIMESTAMP, "timestamp", 12, false); (BEBOP_TYPE_DURATION, "duration", 12, false)]%string.
Definition BEBOP_TYPE_ALIASES : list (string * bebop_type_kind_t) :=
  [("uint8", BEBOP_TYPE_BYTE); ("sbyte", BEBOP_TYPE_INT8); ("half", BEBOP_TYPE_FLOAT16); ("bf16", BEBOP_TYPE_BFLOAT16);
   ("guid", BEBOP_TYPE_UUID)]%string.
Definition bebop__scalar_types : list (list Z * bebop_type_kind_t) :=
  map (λ '(kind, str, _, _), (chars str, kind)) BEBOP_SCALAR_TYPES ++ map (λ '(str, kind), (chars str, kind)) BEBOP_TYPE_ALIASES.

Fixpoint lookup_scalar_in (table : list (list Z * bebop_type_kind_t)) (name : list Z) : option bebop_type_kind_t :=
  match table with
  | [] => None
  | (s, kind) :: table => if bool_decide (s = name) then Some kind else lookup_scalar_in table name
  end.
Definition bebop__parse_lookup_scalar (name : list Z) : option bebop_type_kind_t := lookup_scalar_in bebop__scalar_types name.

Fixpoint scalar_row (table : list (bebop_type_kind_t * string * Z * bool)) (kind : bebop_type_kind_t) : option (Z * bool) :=
  match table with
  | [] => None
  | (k, _, size, is_int) :: table => if bool_decide (k = kind) then Some (size, is_int) else scalar_row table kind
  end.
Definition bebop__parse_is_integer_type (kind : bebop_type_kind_t) : bool :=
  match scalar_row BEBOP_SCALAR_TYPES kind with Some (_, is_int) => is_int | None => false end.
Definition bebop__parse_scalar_wire_size (kind : bebop_type_kind_t) : Z :=
  match scalar_row BEBOP_SCALAR_TYPES kind with Some (size, _) => size | None => 0 end.

(** ** Frames *)

Record parsed_type : Type := mkParsed { pt_type : bebop_type_t; pt_span : bebop_span_t }.
Definition type_of (t : option parsed_type) : bebop_type_t := match t with Some t => pt_type t | None => TNull end.

Inductive bebop_type_state_t : Set :=
  TYPE_STATE_BASE | TYPE_STATE_MAP_KEY | TYPE_STATE_MAP_VALUE | TYPE_STATE_ARRAY_SUFFIX | TYPE_STATE_DONE.
Record bebop_type_frame_t : Type := mkFrame {
  tf_state : bebop_type_state_t;
  tf_result : option parsed_type;
  tf_map_key : option parsed_type;
  tf_start : bebop_span_t;
  tf_depth : Z
}.

Section ParseType.
Context {cc : Context} {dm : DefMap def_ptr} {ns : DefMap (option bebop_span_t)} (grants : nat → bool).
Context (tokens : list bebop_token_t).
Abbreviation M := (C bebop_parser_t).
Abbreviation CURRENT := (BEBOP_PARSE_CURRENT tokens).
Abbreviation PREVIOUS := (BEBOP_PARSE_PREVIOUS tokens).
Abbreviation CHECK := (BEBOP_PARSE_CHECK tokens).
Abbreviation ADVANCE := (BEBOP_PARSE_ADVANCE tokens).
Abbreviation ERROR := (BEBOP_PARSE_ERROR grants tokens).
Abbreviation ERROR_CURRENT := (BEBOP_PARSE_ERROR_CURRENT grants tokens).
Abbreviation CONSUME := (BEBOP_PARSE_CONSUME grants tokens).
Abbreviation CONSUME_AFTER := (BEBOP_PARSE_CONSUME_AFTER grants tokens).
Abbreviation MATCH := (BEBOP_PARSE_MATCH tokens).

(** [bebop__parse_make_scalar_type] and its like *)
Definition make_type (type : bebop_type_t) (span : bebop_span_t) : M (option parsed_type) :=
  p ← on_registry (alloc_n sizeof_type 1 8);
  match p with
  | Some _ => mret (Some (mkParsed type span))
  | None => bebop__parse_fatal;; mret None
  end.

(** The parts of a name behind its first one; the result is the name and its last part. Fuel:
    the number of tokens. *)
Fixpoint qualified_loop (fuel : nat) (name_buf : list Z) (last_tok : bebop_span_t) : M (option (list Z * bebop_span_t)) :=
  match fuel with
  | O => ub
  | S fuel =>
      more ← MATCH BEBOP_TOKEN_DOT;
      if negb (more : bool) then mret (Some (name_buf, last_tok))
      else
        ok ← CONSUME_AFTER BEBOP_TOKEN_IDENTIFIER;
        if negb (ok : bool) then mret None
        else
          part ← PREVIOUS;
          text ← str_get (tk_lexeme part);
          let part_str := default [] text in
          if sizeof_name_buf <=? zlen name_buf + 1 + zlen part_str then ERROR BEBOP_DIAG_INVALID_QUALIFIED_NAME;; mret None
          else qualified_loop fuel (name_buf ++ dot :: part_str) (tk_span part)
  end.

(** A type that is a name. The outer option is the return with a null pointer. *)
Definition named_type (tok : bebop_token_t) : M (option (option parsed_type)) :=
  lex ← str_get (tk_lexeme tok);
  match lex with
  | None => ERROR_CURRENT BEBOP_DIAG_UNRECOGNIZED_TYPE;; mret None
  | Some lex =>
      match bebop__parse_lookup_scalar lex with
      | Some kind =>
          ADVANCE;;
          t ← make_type (TScalar kind) (tk_span tok); mret (Some t)
      | None =>
          ADVANCE;;
          dotted ← CHECK BEBOP_TOKEN_DOT;
          if (dotted : bool) then
            if sizeof_name_buf <=? zlen lex then ERROR BEBOP_DIAG_INVALID_QUALIFIED_NAME;; mret None
            else
              name ← qualified_loop (parse_fuel tokens) lex (tk_span tok);
              match name with
              | None => mret None
              | Some (name_buf, last_tok) =>
                  qualified_name ← on_registry (bebop_intern_n name_buf);
                  let span := bebop__parse_span_from_tokens (Some (tk_span tok)) (Some last_tok) in
                  t ← make_type (TDefined qualified_name None) span; mret (Some t)
              end
          else t ← make_type (TDefined (tk_lexeme tok) None) (tk_span tok); mret (Some t)
      end
  end.

(** What is behind a bracket: the size of a fixed array, and the closing bracket. *)
Definition array_suffix (start : bebop_span_t) (element : option parsed_type) : M (option (option parsed_type)) :=
  fixed ← CHECK BEBOP_TOKEN_NUMBER;
  if (fixed : bool) then
    ADVANCE;;
    size_tok ← PREVIOUS;
    text ← str_get (tk_lexeme size_tok);
    size ← lift (bebop_util_parse_int (default [] text));
    let size_val := default 0 size in
    if (size_val <? 1) || (BEBOP_MAX_FIXED_ARRAY_SIZE <? size_val) then
      bebop__parse_error_at grants (tk_span size_tok) BEBOP_DIAG_INVALID_FIELD;; mret None
    else
      ok ← CONSUME BEBOP_TOKEN_RBRACKET;
      if negb (ok : bool) then mret None
      else
        last ← PREVIOUS;
        t ← make_type (TFixedArray (type_of element) size_val) (bebop__parse_span_from_tokens (Some start) (Some (tk_span last)));
        mret (Some t)
  else
    ok ← CONSUME BEBOP_TOKEN_RBRACKET;
    if negb (ok : bool) then mret None
    else
      last ← PREVIOUS;
      t ← make_type (TArray (type_of element)) (bebop__parse_span_from_tokens (Some start) (Some (tk_span last)));
      mret (Some t).

(** ** The machine *)

(** The frame at the top, those below it, and the result of the frame that was above it. *)
Record type_machine : Type := mkMachine {
  tm_frame : bebop_type_frame_t;
  tm_below : list bebop_type_frame_t;
  tm_child : option parsed_type
}.
(** A step ends with a new state of the machine, or with what the function returns. *)
Definition outcome : Type := type_machine + option parsed_type.
Definition go (frame : bebop_type_frame_t) (m : type_machine) : M outcome := mret (inl (mkMachine frame (tm_below m) (tm_child m))).
Definition returns (t : option parsed_type) : M outcome := mret (inr t).
Definition with_state (state : bebop_type_state_t) (f : bebop_type_frame_t) : bebop_type_frame_t :=
  mkFrame state (tf_result f) (tf_map_key f) (tf_start f) (tf_depth f).
Definition with_result (state : bebop_type_state_t) (result : option parsed_type) (f : bebop_type_frame_t) : bebop_type_frame_t :=
  mkFrame state result (tf_map_key f) (tf_start f) (tf_depth f).

(** A new frame on the stack, above [f]. *)
Definition push_frame (f : bebop_type_frame_t) (m : type_machine) : M outcome :=
  if BEBOP_TYPE_STACK_SIZE <=? zlen (tm_below m) + 1 then ERROR BEBOP_DIAG_INVALID_FIELD;; returns None
  else
    start ← CURRENT;
    mret (inl (mkMachine (mkFrame TYPE_STATE_BASE None None (tk_span start) (tf_depth f + 1)) (f :: tm_below m) (tm_child m))).

Definition step_base (m : type_machine) : M outcome :=
  let frame := tm_frame m in
  tok ← CURRENT;
  match tk_kind tok with
  | BEBOP_TOKEN_MAP =>
      ADVANCE;;
      ok ← CONSUME_AFTER BEBOP_TOKEN_LBRACKET;
      if negb (ok : bool) then returns None
      else push_frame (with_state TYPE_STATE_MAP_KEY frame) m
  | BEBOP_TOKEN_ARRAY => ERROR_CURRENT BEBOP_DIAG_UNEXPECTED_TOKEN;; returns None
  | BEBOP_TOKEN_IDENTIFIER =>
      t ← named_type tok;
      match t with
      | None => returns None
      | Some t => go (with_result TYPE_STATE_ARRAY_SUFFIX t frame) m
      end
  | _ => ERROR_CURRENT BEBOP_DIAG_UNRECOGNIZED_TYPE;; returns None
  end.

(** The key's span is read through its pointer. *)
Definition step_map_key (m : type_machine) : M outcome :=
  let frame := tm_frame m in
  key ← lift (tm_child m);
  sema (λ str_get, bebop_sema_check_map_key_type grants (pt_type key) (pt_span key));;
  ok ← CONSUME BEBOP_TOKEN_COMMA;
  if negb (ok : bool) then returns None
  else push_frame (mkFrame TYPE_STATE_MAP_VALUE (tf_result frame) (Some key) (tf_start frame) (tf_depth frame)) m.

Definition step_map_value (m : type_machine) : M outcome :=
  let frame := tm_frame m in
  ok ← CONSUME_AFTER BEBOP_TOKEN_RBRACKET;
  if negb (ok : bool) then returns None
  else
    last ← PREVIOUS;
    let span := bebop__parse_span_from_tokens (Some (tf_start frame)) (Some (tk_span last)) in
    t ← make_type (TMap (type_of (tf_map_key frame)) (type_of (tm_child m))) span;
    go (with_result TYPE_STATE_ARRAY_SUFFIX t frame) m.

Definition step_array_suffix (m : type_machine) : M outcome :=
  let frame := tm_frame m in
  more ← MATCH BEBOP_TOKEN_LBRACKET;
  if (more : bool) then
    let depth := tf_depth frame + 1 in
    if BEBOP_MAX_TYPE_DEPTH <? depth then ERROR BEBOP_DIAG_INVALID_FIELD;; returns None
    else
      t ← array_suffix (tf_start frame) (tf_result frame);
      match t with
      | None => returns None
      | Some t => go (mkFrame TYPE_STATE_ARRAY_SUFFIX t (tf_map_key frame) (tf_start frame) depth) m
      end
  else go (with_state TYPE_STATE_DONE frame) m.

Definition step_done (m : type_machine) : M outcome :=
  match tm_below m with
  | [] => returns (tf_result (tm_frame m))
  | f :: below => mret (inl (mkMachine f below (tf_result (tm_frame m))))
  end.

Definition type_step (m : type_machine) : M outcome :=
  if BEBOP_MAX_TYPE_DEPTH <? tf_depth (tm_frame m) then ERROR BEBOP_DIAG_INVALID_FIELD;; returns None
  else
    match tf_state (tm_frame m) with
    | TYPE_STATE_BASE => step_base m
    | TYPE_STATE_MAP_KEY => step_map_key m
    | TYPE_STATE_MAP_VALUE => step_map_value m
    | TYPE_STATE_ARRAY_SUFFIX => step_array_suffix m
    | TYPE_STATE_DONE => step_done m
    end.

Fixpoint type_run (fuel : nat) (m : type_machine) : M (option parsed_type) :=
  match fuel with
  | O => ub
  | S fuel => o ← type_step m; match o with inl m => type_run fuel m | inr t => mret t end
  end.

(** Every token is looked at in at most three rounds. *)
Definition type_fuel : nat := 3 * parse_fuel tokens.

Definition bebop__parse_type : M (option parsed_type) :=
  start ← CURRENT;
  type_run type_fuel (mkMachine (mkFrame TYPE_STATE_BASE None None (tk_span start) 0) [] None).

(** ** The recursive parser *)

(** The brackets behind a type, [levels] of them at most. *)
Fixpoint suffixes (levels : nat) (start : bebop_span_t) (t : option parsed_type) : M (option (option parsed_type)) :=
  more ← MATCH BEBOP_TOKEN_LBRACKET;
  if negb (more : bool) then mret (Some t)
  else
    match levels with
    | O => ERROR BEBOP_DIAG_INVALID_FIELD;; mret None
    | S levels =>
        t ← array_suffix start t;
        match t with
        | None => mret None
        | Some t => suffixes levels start t
        end
    end.

(** A type of at most [levels] levels. *)
Fixpoint type_spec (levels : nat) : M (option (option parsed_type)) :=
  tok ← CURRENT;
  match levels with
  | O => ERROR BEBOP_DIAG_INVALID_FIELD;; mret None
  | S levels =>
      base ← match tk_kind tok with
             | BEBOP_TOKEN_MAP =>
                 ADVANCE;;
                 ok ← CONSUME_AFTER BEBOP_TOKEN_LBRACKET;
                 if negb (ok : bool) then mret None
                 else
                   key ← type_spec levels;
                   match key with
                   | None => mret None
                   | Some key =>
                       key ← lift key;
                       sema (λ str_get, bebop_sema_check_map_key_type grants (pt_type key) (pt_span key));;
                       ok ← CONSUME BEBOP_TOKEN_COMMA;
                       if negb (ok : bool) then mret None
                       else
                         value ← type_spec levels;
                         match value with
                         | None => mret None
                         | Some value =>
                             ok ← CONSUME_AFTER BEBOP_TOKEN_RBRACKET;
                             if negb (ok : bool) then mret None
                             else
                               last ← PREVIOUS;
                               t ← make_type (TMap (pt_type key) (type_of value))
                                     (bebop__parse_span_from_tokens (Some (tk_span tok)) (Some (tk_span last)));
                               mret (Some t)
                         end
                   end
             | BEBOP_TOKEN_ARRAY => ERROR_CURRENT BEBOP_DIAG_UNEXPECTED_TOKEN;; mret None
             | BEBOP_TOKEN_IDENTIFIER => named_type tok
             | _ => ERROR_CURRENT BEBOP_DIAG_UNRECOGNIZED_TYPE;; mret None
             end;
      match base with
      | None => mret None
      | Some t => suffixes levels (tk_span tok) t
      end
  end.

End ParseType.
