(* ===== verification/ParseTypeProps.v ===== *)
(** The parser of types: its machine ends, does what the recursive parser does, and reads
    exactly the types of the language. *)
From stdpp Require Import list gmap strings.
From S2P Require Import Prelude.
From S2P Require Import Scanner.
From S2P Require Import Schema.
From S2P Require Import Literals.
From S2P Require Import Diagnostics.
From S2P Require Import Sema.
From S2P Require Import SemaProps.
From S2P Require Import Registry.
From S2P Require Import RegistryProps.
From S2P Require Import Parser.
From S2P Require Import ParserProps.
From S2P Require Import ParseType.

Section ParseTypeProps.
Context {cc : Context} {Hcc : ContextOk} {dm : DefMap def_ptr} {ns : DefMap (option bebop_span_t)} (grants : nat → bool).
Context (tokens : list bebop_token_t).
Context {Hends : stream_ends tokens}.
Abbreviation M := (C bebop_parser_t).
Abbreviation tok := (tok_at tokens).
Abbreviation kind := (kind_at tokens).
Abbreviation parser_ok := (parser_ok grants tokens).
Abbreviation parser_le := (parser_le grants tokens).
Abbreviation error_post := (error_post grants tokens).

(** ** Parts *)

Lemma on_registry_computes {A} (c : C registry_t A) a r' (Q : A → bebop_parser_t → Prop) p :
  c (pr_registry p) = Some (a, r') → asked (pr_registry p) r' →
  (∀ p', parser_le p p' → pr_current p' = pr_current p → pr_panic p' = pr_panic p → pr_fatal p' = pr_fatal p → pr_sema p' = pr_sema p →
    pr_registry p' = r' → Q a p') →
  computes (on_registry c) Q p.
Proof.
  intros E (Hd&Hs&Hc) HQ. eexists a, _. unfold on_registry. rewrite E. split; [done|]. apply HQ; try done. split; try done.
  intros [Hi Hb Hf]. by split.
Qed.

Lemma make_type_computes t span (Q : option parsed_type → bebop_parser_t → Prop) p :
  parser_ok p →
  (∀ p', parser_le p p' → pr_current p' = pr_current p → pr_panic p' = pr_panic p → pr_fatal p' = pr_fatal p → Q (Some (mkParsed t span)) p') →
  (∀ p', error_post p p' → pr_fatal p' = true → Q None p') →
  computes (make_type t span) Q p.
Proof.
  intros Hp Hs Hn. unfold make_type.
  destruct (computes_alloc sizeof_type 1 3 (λ _ r', asked (pr_registry p) r') (pr_registry p)) as (addr&r'&E&Hr); [lia|done|].
  eapply computes_bind; [eapply (on_registry_computes _ _ _ (λ a p', a = addr ∧ parser_le p p' ∧ pr_current p' = pr_current p ∧ pr_panic p' = pr_panic p ∧ pr_fatal p' = pr_fatal p) _ E Hr)|];
    [intros; by split_and!|]. intros a p1 (->&Hle&Hc&Hpa&Hf). destruct addr.
  - apply computes_ret. by apply Hs.
  - eapply computes_bind; [eapply (fatal_computes _ _ (λ _ p', error_post p1 p' ∧ pr_fatal p' = true)); [by apply (pl_ok _ _ _ _ Hle)|by intros; split]|].
    intros [] p2 ((Hle2&Hc2&Hf2)&Hft). apply computes_ret, Hn; [|done]. split_and!; [by etrans|congruence|done].
Qed.

Definition typed_post (p : bebop_parser_t) (r : option (option parsed_type)) (p' : bebop_parser_t) : Prop :=
  parser_le p p' ∧
  match r with
  | None => failed p'
  | Some t => pr_current p + 1 ≤ pr_current p' ∧ (t = None → pr_fatal p' = true)
  end.

(** Reached from [p0], at [i] or behind it. *)
Definition at_least (p0 : bebop_parser_t) (i : Z) (p : bebop_parser_t) : Prop := parser_ok p ∧ parser_le p0 p ∧ i ≤ pr_current p.

Lemma at_least_ok p0 i p : at_least p0 i p → parser_ok p.
Proof. by intros (Hp&_). Qed.
Lemma at_least_from p0 i p : at_least p0 i p → parser_le p0 p.
Proof. by intros (_&H&_). Qed.
Lemma at_least_inside p0 i p : at_least p0 i p → inside tokens p.
Proof. intros (Hp&_). apply Hp. Qed.
Lemma at_least_le p0 i p p' : at_least p0 i p → parser_le p p' → at_least p0 i p'.
Proof.
  intros (Hp&Hle&Hi) H. pose proof (pl_current _ _ _ _ H Hp). split_and!; [by apply (pl_ok _ _ _ _ H)|by etrans|lia].
Qed.
Lemma at_least_weaken p0 i j p : at_least p0 i p → j ≤ i → at_least p0 j p.
Proof. intros (?&?&?) ?. split_and!; [done..|lia]. Qed.
Lemma at_least_next p0 i j p : at_least p0 i p → j ≤ i + 1 → parser_le p (next p) → at_least p0 j (next p).
Proof. intros H Hj Hn. destruct (at_least_le _ _ _ _ H Hn) as (?&?&_). destruct H as (_&_&Hi). split_and!; [done..|cbn; lia]. Qed.
Lemma at_least_error p0 i j p p' : at_least p0 i p → j ≤ i → error_post p p' → at_least p0 j p' ∧ failed p'.
Proof. intros H Hj (Hle&_&Hf). split; [|done]. eapply at_least_weaken; [by eapply at_least_le|done]. Qed.
Lemma at_least_typed p0 i p r : parser_ok p0 → at_least p0 i p → pr_current p0 + 1 ≤ i ∨ r = None →
  match r with None => failed p | Some t => t = None → pr_fatal p = true end → typed_post p0 r p.
Proof. intros Hp0 (Hp&Hle&Hi) Hcur Hr. split; [done|]. destruct r as [t|]; [|done]. destruct Hcur as [?|[=]]. split; [lia|done]. Qed.

Lemma qualified_loop_computes fuel p0 : ∀ name last i p (Q : _ → bebop_parser_t → Prop),
  at_least p0 i p → 0 < i → zlen tokens - pr_current p < Z.of_nat fuel →
  (∀ r p', at_least p0 i p' → (r = None → failed p') → Q r p') →
  computes (qualified_loop grants tokens fuel name last) Q p.
Proof.
  induction fuel as [|fuel IH]; intros name last i p Q Hp Hi Hf HQ; [pose proof (pk_inside _ _ _ (proj1 Hp)); unfold inside in *; lia|].
  cbn [qualified_loop]. pose proof Hp as (Hok&_&Hcur).
  eapply computes_bind; [eapply (match_computes grants _ _ (λ b p', if (b : bool) then at_least p0 i p' ∧ pr_current p' = pr_current p + 1 else at_least p0 i p')); [done|done| |done]|].
  { intros _ Hn. split; [|done]. eapply at_least_next; [done|lia|done]. }
  intros [] p1 H1; cbn [negb]; [|by apply computes_ret, HQ].
  destruct H1 as (H1&Hc1). pose proof H1 as (Hok1&_&Hcur1).
  eapply computes_bind; [eapply (consume_after_computes grants _ _ (λ b p', if (b : bool) then at_least p0 i p' ∧ pr_current p < pr_current p' else at_least p0 i p' ∧ failed p')); [done|done|lia| |]|].
  { intros _ Hn. split; [eapply at_least_next; [done|lia|done]|cbn; lia]. }
  { intros p' _ H. by eapply at_least_error. }
  intros [] p2 H2; cbn [negb]; [|apply computes_ret, HQ; [apply H2|intros _; apply H2]].
  destruct H2 as (H2&Hc2). pose proof H2 as (Hok2&_&Hcur2).
  eapply computes_step; [apply (previous_eq tokens); [by eapply at_least_inside|lia]|]. eapply computes_step; [reflexivity|]. case_match.
  - eapply computes_bind; [eapply (error_computes _ _ _ (λ _ p', error_post p2 p')); [done|lia|done]|]. intros [] p3 H3.
    eapply at_least_error in H3 as (?&?); [|done|reflexivity]. by apply computes_ret, HQ.
  - eapply IH; [done|done|lia|done].
Qed.

Lemma intern_computes text (Q : Z → bebop_parser_t → Prop) p :
  parser_ok p → (∀ a p', parser_le p p' → pr_current p' = pr_current p → pr_panic p' = pr_panic p → pr_fatal p' = pr_fatal p → Q a p') →
  computes (on_registry (bebop_intern_n text)) Q p.
Proof.
  intros Hp HQ. destruct (computes_intern text (λ _ r', asked (pr_registry p) r') (pr_registry p)) as (a&r'&E&Hr); [done|].
  eapply on_registry_computes; [exact E|done|]. intros p' ? ? ? ? _ _. by apply HQ.
Qed.

(** A new type, or a parser that has stopped. *)
Lemma new_type_computes p0 i t span p (Q : option (option parsed_type) → bebop_parser_t → Prop) :
  parser_ok p0 → at_least p0 i p → pr_current p0 + 1 ≤ i → (∀ r p', typed_post p0 r p' → Q r p') →
  computes (t ← make_type t span; mret (Some t)) Q p.
Proof.
  intros Hp0 Hp Hi HQ. eapply computes_bind.
  { apply (make_type_computes t span (λ t p', at_least p0 i p' ∧ (t = None → pr_fatal p' = true)) p (proj1 Hp)).
    - intros p' Hle _ _ _. split; [by eapply at_least_le|done].
    - intros p' (Hle&_&_) Hf. split; [by eapply at_least_le|done]. }
  intros r p' (H&Hf). apply computes_ret, HQ. eapply at_least_typed; [done|exact H|by left|done].
Qed.
Lemma error_typed p0 i code p (Q : option (option parsed_type) → bebop_parser_t → Prop) :
  parser_ok p0 → at_least p0 i p → 0 < i → (∀ r p', typed_post p0 r p' → Q r p') →
  computes (BEBOP_PARSE_ERROR grants tokens code;; mret None) Q p.
Proof.
  intros Hp0 Hp Hi HQ. pose proof Hp as (Hok&_&Hc).
  eapply computes_bind; [eapply (error_computes grants tokens _ (λ _ p', error_post p p')); [done|lia|done]|].
  intros [] p1 (Hle&_&Hf). apply computes_ret, HQ. split; [|done]. destruct Hp as (_&Hle0&_). by etrans.
Qed.

Lemma named_type_computes (Q : option (option parsed_type) → bebop_parser_t → Prop) p :
  parser_ok p → kind (pr_current p) = BEBOP_TOKEN_IDENTIFIER → (∀ r p', typed_post p r p' → Q r p') →
  computes (named_type grants tokens (tok (pr_current p))) Q p.
Proof.
  intros Hp Hk HQ. unfold named_type. eapply computes_step; [reflexivity|].
  assert (Hk' : kind (pr_current p) ≠ BEBOP_TOKEN_EOF) by congruence. pose proof (next_le grants tokens p Hk') as Hn.
  pose proof (pk_inside _ _ _ Hp) as Hin. unfold inside in Hin.
  assert (H1 : at_least p (pr_current p + 1) (next p)) by (split_and!; [by apply (pl_ok _ _ _ _ Hn)|done|done]). set (name := tk_lexeme _).
  destruct (ctx_str _ name) as [lex|].
  2: { eapply computes_bind; [eapply (error_current_computes grants tokens _ (λ _ p', error_post p p')); done|].
       intros [] p' (Hle&_&Hf). apply computes_ret, HQ. by split. }
  destruct (bebop__parse_lookup_scalar lex) as [k|]; (eapply computes_step; [by apply (advance_next tokens); [apply Hp|]|]).
  { eapply new_type_computes; [done|exact H1|lia|done]. }
  eapply computes_step; [by eapply (check_eq tokens), at_least_inside|]. case_bool_decide as Hdot; [|eapply new_type_computes; [done|exact H1|lia|done]].
  destruct (_ <=? _); [eapply error_typed; [done|exact H1|lia|done]|].
  eapply computes_bind.
  { apply (qualified_loop_computes _ p _ _ (pr_current p + 1) _ (λ r p', at_least p (pr_current p + 1) p' ∧ (r = None → failed p')) H1); [lia| |done].
    unfold parse_fuel, zlen. cbn. lia. }
  intros [[name_buf last]|] p2 (H2&Hf).
  2: { apply computes_ret, HQ. split; [by eapply at_least_from|by apply Hf]. }
  eapply computes_bind; [eapply (intern_computes _ (λ _ p', at_least p (pr_current p + 1) p')); [by eapply at_least_ok|]|].
  { intros a p' Hle _ _ _. by eapply at_least_le. }
  intros q p3 H3. eapply new_type_computes; [done|exact H3|lia|done].
Qed.


Lemma array_suffix_computes start element p0 i (Q : option (option parsed_type) → bebop_parser_t → Prop) p :
  parser_ok p0 → at_least p0 i p → pr_current p0 + 1 ≤ i → 0 < i →
  is_Some (bebop_util_parse_int (default [] (ctx_str (rg_ctx (pr_registry p)) (tk_lexeme (tok (pr_current p)))))) →
  (∀ r p', typed_post p0 r p' → Q r p') →
  computes (array_suffix grants tokens start element) Q p.
Proof.
  intros Hp0 Hp Hi Hi0 (size&Hint) HQ. unfold array_suffix. eapply computes_step; [by eapply (check_eq tokens), at_least_inside|].
  assert (Hclose : ∀ q, at_least p0 i q →
    computes (BEBOP_PARSE_CONSUME grants tokens BEBOP_TOKEN_RBRACKET) (λ b q', if (b : bool) then at_least p0 i q' ∧ 0 < pr_current q' else at_least p0 i q' ∧ failed q') q).
  { intros q (Hq&Hle&Hiq). apply (consume_computes grants tokens); [done|done| |].
    - intros _ Hn. split; [eapply at_least_next; [by split_and!|lia|done]|cbn; lia].
    - intros q' _ H. eapply at_least_error; [by split_and!|done|done]. }
  assert (Hend : ∀ t q, at_least p0 i q →
    computes (BEBOP_PARSE_CONSUME grants tokens BEBOP_TOKEN_RBRACKET ≫= λ ok : bool,
      if negb ok then mret None
      else last ← BEBOP_PARSE_PREVIOUS tokens;
           t ← make_type t (bebop__parse_span_from_tokens (Some start) (Some (tk_span last))); mret (Some t)) Q q).
  { intros t q Hq. eapply computes_bind; [by apply Hclose|]. intros [] q' Hq'; cbn [negb].
    - destruct Hq' as (Hq'&Hc). eapply computes_step; [apply (previous_eq tokens); [by eapply at_least_inside|done]|]. by eapply new_type_computes.
    - apply computes_ret, HQ. destruct Hq' as (Hq'&Hf). split; [by eapply at_least_from|done]. }
  case_bool_decide as Hnum; [|by apply Hend]. pose proof Hp as (Hok&_&Hc).
  assert (Hk : kind (pr_current p) ≠ BEBOP_TOKEN_EOF) by congruence. pose proof (next_le grants tokens p Hk) as Hn.
  assert (H1 : at_least p0 i (next p)) by (eapply at_least_next; [done|lia|done]).
  eapply computes_step; [by apply (advance_next tokens); [by eapply at_least_inside|]|].
  eapply computes_step; [apply (previous_eq tokens); [by eapply at_least_inside|cbn; lia]|]. eapply computes_step; [reflexivity|].
  replace (pr_current (next p) - 1) with (pr_current p) by (cbn; lia). change (pr_registry (next p)) with (pr_registry p).
  eapply computes_step; [unfold lift; by rewrite Hint|].
  destruct (_ || _).
  - eapply computes_bind; [eapply (error_at_computes grants tokens _ _ (λ _ p', error_post (next p) p')); [by eapply at_least_ok|done]|].
    intros [] p2 (Hle&_&Hf). apply computes_ret, HQ. split; [|done]. by eapply at_least_from, (at_least_le _ _ _ _ H1).
  - by apply Hend.
Qed.

(** ** Termination *)

Definition weight (state : bebop_type_state_t) : Z := match state with TYPE_STATE_DONE => 0 | _ => 1 end.
Definition measure (m : type_machine) (p : bebop_parser_t) : Z :=
  3 * (zlen tokens - pr_current p) + 2 * zlen (tm_below m) + weight (tf_state (tm_frame m)).

(** A step goes down, or it ends with a flag set or a type. *)
Definition step_post (m : type_machine) (p : bebop_parser_t) (o : outcome) (p' : bebop_parser_t) : Prop :=
  parser_le p p' ∧
  match o with
  | inl m' => 0 < pr_current p' ∧ measure m' p' < measure m p
  | inr t => t = None → failed p'
  end.

Lemma step_fails m p0 i p : at_least p0 i p → failed p → step_post m p0 (inr None) p.
Proof. intros (_&Hle&_) Hf. by split. Qed.
Lemma step_error m p0 i code p :
  at_least p0 i p → 0 < pr_current p → computes (BEBOP_PARSE_ERROR grants tokens code;; returns None) (step_post m p0) p.
Proof.
  intros Hp Hc. eapply computes_bind; [eapply (error_computes grants tokens _ (λ _ p', at_least p0 i p' ∧ failed p')); [by eapply at_least_ok|done|]|].
  { intros p' H. by eapply at_least_error. }
  intros [] p1 (H1&Hf). by eapply computes_ret, step_fails.
Qed.
Lemma step_error_current m code p : parser_ok p → computes (BEBOP_PARSE_ERROR_CURRENT grants tokens code;; returns None) (step_post m p) p.
Proof.
  intros Hp. eapply computes_bind; [eapply (error_current_computes grants tokens _ (λ _ p', error_post p p')); done|].
  intros [] p1 (Hle&_&Hf). apply computes_ret. by split.
Qed.

Lemma push_frame_computes f m m0 p0 i p :
  at_least p0 i p → 0 < i → 3 * (zlen tokens - i) + 2 * zlen (tm_below m) + 3 < measure m0 p0 →
  computes (push_frame grants tokens f m) (step_post m0 p0) p.
Proof.
  intros Hp Hi Hm. pose proof Hp as (_&Hle&Hc). unfold push_frame. destruct (_ <=? _); [eapply step_error; [done|lia]|].
  eapply computes_step; [by eapply (current_eq tokens), at_least_inside|]. apply computes_ret. split; [done|]. split; [lia|].
  unfold measure at 1. cbn [tm_below tm_frame tf_state weight]. rewrite zlen_cons. lia.
Qed.

Lemma step_base_computes m p :
  parser_ok p → tf_state (tm_frame m) = TYPE_STATE_BASE → computes (step_base grants tokens m) (step_post m p) p.
Proof.
  intros Hp Hst. unfold step_base. pose proof (pk_inside _ _ _ Hp) as Hin. unfold inside in Hin.
  eapply computes_step; [by apply (current_eq tokens)|]. change (tk_kind (tok (pr_current p))) with (kind (pr_current p)).
  assert (Hm : measure m p = 3 * (zlen tokens - pr_current p) + 2 * zlen (tm_below m) + 1) by (unfold measure; by rewrite Hst).
  destruct (kind (pr_current p)) eqn:Hk; try (by apply step_error_current).
  - assert (Hk' : kind (pr_current p) ≠ BEBOP_TOKEN_EOF) by congruence. pose proof (next_le grants tokens p Hk') as Hn.
    assert (H1 : at_least p (pr_current p + 1) (next p)) by (eapply (at_least_next _ (pr_current p)); [by split_and!|lia|done]).
    eapply computes_step; [by apply (advance_next tokens)|].
    eapply computes_bind; [eapply (consume_after_computes grants _ _ (λ b p', if (b : bool) then at_least p (pr_current p + 2) p' else failed p' ∧ at_least p (pr_current p) p')); [done|by eapply at_least_ok|cbn; lia| |]|].
    { intros _ Hn2. eapply at_least_next; [done|lia|done]. }
    { intros p' _ H. eapply (at_least_error _ _ (pr_current p)) in H as (?&?); [by split|done|lia]. }
    intros [] p2 H2; cbn [negb]; [|destruct H2; by eapply computes_ret, step_fails]. eapply push_frame_computes; [done|lia|]. rewrite Hm. lia.
  - eapply computes_bind; [by eapply (named_type_computes (typed_post p))|]. intros [t|] p' (Hle&H); apply computes_ret; (split; [done|]); [|done].
    destruct H as (Hc&_). split; [lia|]. rewrite Hm. unfold measure. cbn. lia.
Qed.

Lemma step_map_key_computes m key p :
  parser_ok p → tf_state (tm_frame m) = TYPE_STATE_MAP_KEY → tm_child m = Some key → computes (step_map_key grants tokens m) (step_post m p) p.
Proof.
  intros Hp Hst Hkey. unfold step_map_key. pose proof (pk_inside _ _ _ Hp) as Hin. unfold inside in Hin.
  assert (Hm : measure m p = 3 * (zlen tokens - pr_current p) + 2 * zlen (tm_below m) + 1) by (unfold measure; by rewrite Hst).
  eapply computes_step; [unfold lift; by rewrite Hkey|].
  eapply computes_bind.
  { unfold sema. apply (answers_computes grants tokens _ id (λ _, is_map_key (pt_type key) = true) (λ _ p', at_least p (pr_current p) p')); [done|intros b Hb; exact (map_key_answers grants _ _ b _ Hb)|].
    intros a p' Hle _ _ _ _. by eapply at_least_le. }
  intros a p1 (H1&Hle1&Hc1). assert (Ha : at_least p (pr_current p) p1) by (by split_and!).
  eapply computes_bind; [eapply (consume_computes grants _ _ (λ b p', if (b : bool) then at_least p (pr_current p + 1) p' else failed p' ∧ at_least p (pr_current p) p')); [done|by eapply at_least_ok| |]|].
  { intros _ Hn2. eapply at_least_next; [done|lia|done]. }
  { intros p' _ H. eapply (at_least_error _ _ (pr_current p)) in H as (?&?); [by split|done|lia]. }
  intros [] p2 H2; cbn [negb]; [|destruct H2; by eapply computes_ret, step_fails]. eapply push_frame_computes; [done|lia|]. rewrite Hm. lia.
Qed.

Lemma step_map_value_computes m p :
  parser_ok p → 0 < pr_current p → tf_state (tm_frame m) = TYPE_STATE_MAP_VALUE → computes (step_map_value grants tokens m) (step_post m p) p.
Proof.
  intros Hp Hc Hst. unfold step_map_value. pose proof (pk_inside _ _ _ Hp) as Hin. unfold inside in Hin.
  assert (Hm : measure m p = 3 * (zlen tokens - pr_current p) + 2 * zlen (tm_below m) + 1) by (unfold measure; by rewrite Hst).
  assert (H0 : at_least p (pr_current p) p) by (by split_and!).
  eapply computes_bind; [eapply (consume_after_computes grants _ _ (λ b p', if (b : bool) then at_least p (pr_current p + 1) p' else at_least p (pr_current p) p' ∧ failed p')); [done|done|done| |]|].
  { intros _ Hn. eapply at_least_next; [done|lia|done]. }
  { intros p' _ H. by eapply at_least_error. }
  intros [] p1 H1; cbn [negb]; [|destruct H1; by eapply computes_ret, step_fails]. destruct H1 as (Hok1&Hle1&Hc1).
  eapply computes_step; [apply (previous_eq tokens); [by apply Hok1|lia]|].
  assert (H1 : at_least p (pr_current p + 1) p1) by (by split_and!).
  eapply computes_bind; [apply (make_type_computes _ _ (λ _ p', at_least p (pr_current p + 1) p')); [done|..]|].
  { intros p' Hle _ _ _. by eapply at_least_le. }
  { intros p' (Hle&_&_) _. by eapply at_least_le. }
  intros t p2 (_&Hle2&Hc2). apply computes_ret. split; [done|]. split; [lia|]. rewrite Hm. unfold measure. cbn. lia.
Qed.

Lemma array_suffix_defined start element p r :
  parser_ok p → 0 < pr_current p → array_suffix grants tokens start element p = Some r →
  is_Some (bebop_util_parse_int (default [] (ctx_str (rg_ctx (pr_registry p)) (tk_lexeme (tok (pr_current p)))))) ∨ kind (pr_current p) ≠ BEBOP_TOKEN_NUMBER.
Proof.
  intros Hp Hc E. destruct (decide (kind (pr_current p) = BEBOP_TOKEN_NUMBER)) as [Hk|]; [left|by right]. pose proof (pk_inside _ _ _ Hp) as Hin.
  unfold array_suffix in E. rewrite (C_bind_Some _ _ _ _ _ (check_eq tokens _ _ Hin)), bool_decide_true in E by done.
  rewrite (C_bind_Some _ _ _ _ _ (advance_next tokens _ Hin ltac:(congruence))) in E.
  assert (Hin2 : inside tokens (next p)) by (apply (pk_inside grants), (next_ok grants tokens); [done|congruence]).
  rewrite (C_bind_Some _ _ _ _ _ (previous_eq tokens _ Hin2 ltac:(cbn; lia))) in E. erewrite (C_bind_Some (str_get _)) in E by reflexivity.
  replace (pr_current (next p) - 1) with (pr_current p) in E by (cbn; lia). change (pr_registry (next p)) with (pr_registry p) in E.
  unfold mbind at 1, C_bind at 1, lift in E. destruct (bebop_util_parse_int _); [by eexists|done].
Qed.

Lemma array_suffix_post start element p0 i p r p' :
  parser_ok p0 → at_least p0 i p → pr_current p0 + 1 ≤ i → 0 < i → array_suffix grants tokens start element p = Some (r, p') → typed_post p0 r p'.
Proof.
  intros Hp0 Hp Hi H0 E. pose proof Hp as (Hok&_&Hc). destruct (array_suffix_defined _ _ _ _ Hok ltac:(lia) E) as [Hint|Hk].
  - eapply computes_Some; [|exact E]. by eapply (array_suffix_computes _ _ p0 i (typed_post p0)).
  - eapply computes_Some; [|exact E]. pose proof (pk_inside _ _ _ Hok). unfold array_suffix. eapply computes_step; [by apply (check_eq tokens)|].
    rewrite bool_decide_false by done.
    eapply computes_bind; [eapply (consume_computes grants _ _ (λ b p', if (b : bool) then at_least p0 i p' ∧ 0 < pr_current p' else at_least p0 i p' ∧ failed p')); [done|done| |]|].
    { intros _ Hn. split; [eapply at_least_next; [done|lia|done]|cbn; lia]. }
    { intros q _ H'. by eapply at_least_error. }
    intros [] q Hq; cbn [negb].
    + destruct Hq as (Hq&Hcq). eapply computes_step; [apply (previous_eq tokens); [by eapply at_least_inside|done]|]. by eapply (new_type_computes p0 i).
    + destruct Hq as (Hq&Hf). apply computes_ret. split; [by eapply at_least_from|done].
Qed.

Lemma step_array_suffix_post m p o p' :
  parser_ok p → 0 < pr_current p → tf_state (tm_frame m) = TYPE_STATE_ARRAY_SUFFIX →
  step_array_suffix grants tokens m p = Some (o, p') → step_post m p o p'.
Proof.
  intros Hp Hc Hst E. unfold step_array_suffix in E. pose proof (pk_inside _ _ _ Hp) as Hin.
  assert (Hm : measure m p = 3 * (zlen tokens - pr_current p) + 2 * zlen (tm_below m) + 1) by (unfold measure; by rewrite Hst).
  pose proof (match_eq tokens BEBOP_TOKEN_LBRACKET p ltac:(done) Hin) as Ematch. case_bool_decide as Hk; rewrite (C_bind_Some _ _ _ _ _ Ematch) in E.
  2: { injection E as <- <-. split; [done|]. split; [done|]. rewrite Hm. unfold measure. cbn. lia. }
  assert (Hk' : kind (pr_current p) ≠ BEBOP_TOKEN_EOF) by congruence. pose proof (next_le grants tokens p Hk') as Hn.
  assert (H1 : at_least p (pr_current p + 1) (next p)) by (eapply (at_least_next _ (pr_current p)); [by split_and!|lia|done]).
  destruct (_ <? _).
  { eapply computes_Some; [|exact E]. eapply step_error; [done|]. cbn. lia. }
  destruct (array_suffix grants tokens (tf_start (tm_frame m)) (tf_result (tm_frame m)) (next p)) as [[r q]|] eqn:Es; [|by unfold mbind, C_bind in E; rewrite Es in E].
  rewrite (C_bind_Some _ _ _ _ _ Es) in E. destruct (array_suffix_post _ _ p (pr_current p + 1) (next p) _ _ Hp H1 ltac:(lia) ltac:(lia) Es) as (Hle&Hr).
  destruct r as [t|]; injection E as <- <-; (split; [done|]); [|done]. destruct Hr as (Hcq&_). split; [lia|]. rewrite Hm. unfold measure. cbn. lia.
Qed.

(** The token of the first frame may be the first of the stream. *)
Definition begun (m : type_machine) (p : bebop_parser_t) : Prop :=
  0 < pr_current p ∨ tf_state (tm_frame m) = TYPE_STATE_BASE ∧ tf_depth (tm_frame m) ≤ BEBOP_MAX_TYPE_DEPTH.

Lemma type_step_down m m' p p' :
  parser_ok p → begun m p → type_step grants tokens m p = Some (inl m', p') →
  parser_le p p' ∧ 0 < pr_current p' ∧ measure m' p' < measure m p.
Proof.
  intros Hp Hbegun E. unfold type_step in E. destruct (Z.ltb_spec BEBOP_MAX_TYPE_DEPTH (tf_depth (tm_frame m))) as [Hd|Hd].
  { assert (Hc : 0 < pr_current p) by (destruct Hbegun as [?|(_&?)]; [done|lia]).
    refine (computes_Some _ (step_post m p) _ _ _ _ E). eapply (step_error _ _ (pr_current p)); [by split_and!|done]. }
  destruct (tf_state (tm_frame m)) eqn:Hst; (destruct Hbegun as [Hc|(Hb&_)]; [|try congruence]).
  - refine (computes_Some _ (step_post m p) _ _ _ _ E). by apply step_base_computes.
  - refine (computes_Some _ (step_post m p) _ _ _ _ E). by apply step_base_computes.
  - destruct (tm_child m) as [key|] eqn:Hkey.
    + refine (computes_Some _ (step_post m p) _ _ _ _ E). by eapply step_map_key_computes.
    + unfold step_map_key in E. rewrite Hkey in E. done.
  - refine (computes_Some _ (step_post m p) _ _ _ _ E). by apply step_map_value_computes.
  - by apply step_array_suffix_post in E.
  - unfold step_done in E. destruct (tm_below m) as [|f below] eqn:Eb; [by inversion E|]. injection E as <- <-. split; [done|]. split; [done|].
    unfold measure. rewrite Hst, Eb, zlen_cons. cbn. destruct (tf_state f); cbn; lia.
Qed.

(** Fuel above the measure is enough: more of it changes nothing. *)
Lemma type_run_enough fuel : ∀ m p k,
  parser_ok p → begun m p → measure m p < Z.of_nat fuel → type_run grants tokens (fuel + k) m p = type_run grants tokens fuel m p.
Proof.
  induction fuel as [|fuel IH]; intros m p k Hp Hb Hf.
  { exfalso. pose proof (pk_inside _ _ _ Hp) as Hin. unfold inside in Hin. unfold measure in Hf. pose proof (zlen_nonneg (tm_below m)). destruct (tf_state (tm_frame m)); cbn in Hf; lia. }
  cbn [Nat.add type_run]. unfold mbind, C_bind. destruct (type_step grants tokens m p) as [[[m'|t] p']|] eqn:E; [|done|done].
  destruct (type_step_down m m' p p' Hp Hb E) as (Hle&Hc&Hm). apply IH; [by apply (pl_ok _ _ _ _ Hle)|by left|lia].
Qed.

(** ** The machine and the recursive parser *)

Abbreviation run := (type_run grants tokens).

(** After some steps the machine is in another state, or it has ended. *)
Definition leads (m : type_machine) (p : bebop_parser_t) (m' : type_machine) (p' : bebop_parser_t) : Prop :=
  ∃ k, ∀ f, run (k + f) m p = run f m' p'.
Definition ends (m : type_machine) (p : bebop_parser_t) (r : option (option parsed_type * bebop_parser_t)) : Prop :=
  ∃ k, ∀ f, run (k + f) m p = r.

Lemma leads_trans m1 p1 m2 p2 m3 p3 : leads m1 p1 m2 p2 → leads m2 p2 m3 p3 → leads m1 p1 m3 p3.
Proof. intros (k&Hk) (l&Hl). exists (k + l)%nat. intros f. by rewrite <- Nat.add_assoc, Hk. Qed.
Lemma leads_ends m1 p1 m2 p2 r : leads m1 p1 m2 p2 → ends m2 p2 r → ends m1 p1 r.
Proof. intros (k&Hk) (l&Hl). exists (k + l)%nat. intros f. by rewrite <- Nat.add_assoc, Hk. Qed.
Lemma leads_step m p m' p' : type_step grants tokens m p = Some (inl m', p') → leads m p m' p'.
Proof. intros E. exists 1%nat. intros f. cbn [Nat.add type_run]. by rewrite (C_bind_Some _ _ _ _ _ E). Qed.
Lemma ends_step m p t p' : type_step grants tokens m p = Some (inr t, p') → ends m p (Some (t, p')).
Proof. intros E. exists 1%nat. intros f. cbn [Nat.add type_run]. by rewrite (C_bind_Some _ _ _ _ _ E). Qed.
Lemma ends_ub m p : type_step grants tokens m p = None → ends m p None.
Proof. intros E. exists 1%nat. intros f. cbn [Nat.add type_run]. unfold mbind, C_bind. by rewrite E. Qed.

(** What the machine does with the frame at its top, above [below], when the recursive parser
    answers [r]: it comes to the end of the frame with the type, or it returns. *)
Definition agrees (below : list bebop_type_frame_t) (m : type_machine) (p : bebop_parser_t)
    (r : option (option (option parsed_type) * bebop_parser_t)) : Prop :=
  match r with
  | None => ends m p None
  | Some (None, p') => ends m p (Some (None, p'))
  | Some (Some t, p') =>
      ∃ f child, tf_state f = TYPE_STATE_DONE ∧ tf_result f = t ∧ tf_depth f ≤ BEBOP_MAX_TYPE_DEPTH ∧ leads m p (mkMachine f below child) p'
  end.
Definition step_agrees (below : list bebop_type_frame_t) (o : option (outcome * bebop_parser_t))
    (r : option (option (option parsed_type) * bebop_parser_t)) : Prop :=
  match o with
  | None => r = None
  | Some (inr t, p') => t = None ∧ r = Some (None, p')
  | Some (inl m', p') => agrees below m' p' r
  end.

Lemma agrees_leads below m p m' p' r : leads m p m' p' → agrees below m' p' r → agrees below m p r.
Proof.
  intros Hl. destruct r as [[[t|] q]|]; cbn; [|by apply leads_ends..].
  intros (f&child&H1&H2&H3&H4). exists f, child. split_and!; [done..|by eapply leads_trans].
Qed.
Lemma agrees_step below m p r : step_agrees below (type_step grants tokens m p) r → agrees below m p r.
Proof.
  destruct (type_step grants tokens m p) as [[[m'|t] p']|] eqn:E; cbn.
  - by apply agrees_leads, leads_step.
  - intros (->&->). by apply ends_step.
  - intros ->. by apply ends_ub.
Qed.
Lemma step_agrees_bind {A} below (c : M A) (k1 : A → M outcome) (k2 : A → M (option (option parsed_type))) p :
  (∀ a p1, c p = Some (a, p1) → step_agrees below (k1 a p1) (k2 a p1)) → step_agrees below ((c ≫= k1) p) ((c ≫= k2) p).
Proof. intros H. unfold mbind, C_bind. destruct (c p) as [[a p1]|]; [by apply H|done]. Qed.
Lemma step_agrees_error below code p :
  step_agrees below ((BEBOP_PARSE_ERROR grants tokens code;; returns None) p) ((BEBOP_PARSE_ERROR grants tokens code;; mret None) p).
Proof. by apply step_agrees_bind. Qed.
Lemma step_agrees_error_current below code p :
  step_agrees below ((BEBOP_PARSE_ERROR_CURRENT grants tokens code;; returns None) p) ((BEBOP_PARSE_ERROR_CURRENT grants tokens code;; mret None) p).
Proof. by apply step_agrees_bind. Qed.

Lemma type_step_at m : tf_depth (tm_frame m) ≤ BEBOP_MAX_TYPE_DEPTH →
  type_step grants tokens m =
    match tf_state (tm_frame m) with
    | TYPE_STATE_BASE => step_base grants tokens m
    | TYPE_STATE_MAP_KEY => step_map_key grants tokens m
    | TYPE_STATE_MAP_VALUE => step_map_value grants tokens m
    | TYPE_STATE_ARRAY_SUFFIX => step_array_suffix grants tokens m
    | TYPE_STATE_DONE => step_done m
    end.
Proof. intros H. unfold type_step. by destruct (Z.ltb_spec BEBOP_MAX_TYPE_DEPTH (tf_depth (tm_frame m))); [lia|]. Qed.

Lemma suffixes_agree levels : ∀ frame below child p,
  tf_state frame = TYPE_STATE_ARRAY_SUFFIX → tf_depth frame + Z.of_nat levels = BEBOP_MAX_TYPE_DEPTH →
  agrees below (mkMachine frame below child) p (suffixes grants tokens levels (tf_start frame) (tf_result frame) p).
Proof.
  induction levels as [|levels IH]; intros frame below child p Hst Hd; apply agrees_step; rewrite type_step_at by (cbn; lia); cbn [tm_frame]; rewrite Hst;
    apply step_agrees_bind; intros [] p1 _; cbn [negb].
  - cbn [tm_frame]. destruct (Z.ltb_spec BEBOP_MAX_TYPE_DEPTH (tf_depth frame + 1)); [|lia]. apply step_agrees_error.
  - exists (with_state TYPE_STATE_DONE frame), child. split_and!; [done|done|cbn; lia|by exists 0%nat].
  - cbn [tm_frame]. destruct (Z.ltb_spec BEBOP_MAX_TYPE_DEPTH (tf_depth frame + 1)); [lia|].
    apply step_agrees_bind. intros [t|] p2 _; [|done]. by apply IH; [|cbn; lia].
  - exists (with_state TYPE_STATE_DONE frame), child. split_and!; [done|done|cbn; lia|by exists 0%nat].
Qed.

Lemma current_same t q p : BEBOP_PARSE_CURRENT tokens p = Some (t, q) → q = p.
Proof.
  unfold BEBOP_PARSE_CURRENT, mbind, C_bind, gets, token_at. destruct (_ <? _); [done|]. unfold lift. destruct (tokens !! _); [|done]. by intros [= _ <-].
Qed.

(** A frame of so many levels is at its start. *)
Definition base_frame (levels : nat) (m : type_machine) (p : bebop_parser_t) : Prop :=
  tf_state (tm_frame m) = TYPE_STATE_BASE ∧ tf_depth (tm_frame m) + Z.of_nat levels = BEBOP_MAX_TYPE_DEPTH + 1 ∧
  zlen (tm_below m) + Z.of_nat levels < BEBOP_TYPE_STACK_SIZE ∧
  ∃ t, BEBOP_PARSE_CURRENT tokens p = Some (t, p) ∧ tf_start (tm_frame m) = tk_span t.
Definition levels_agree (levels : nat) : Prop :=
  ∀ m p, base_frame levels m p → agrees (tm_below m) m p (type_spec grants tokens levels p).

(** A frame that is pushed for a part of a type. *)
Lemma agrees_push levels f m p (k : option (option parsed_type) → M (option (option parsed_type))) :
  levels_agree levels → tf_depth f + Z.of_nat levels = BEBOP_MAX_TYPE_DEPTH → zlen (tm_below m) + 1 + Z.of_nat levels < BEBOP_TYPE_STACK_SIZE →
  k None = mret None →
  (∀ t p', type_spec grants tokens levels p = Some (Some t, p') → agrees (tm_below m) (mkMachine f (tm_below m) t) p' (k (Some t) p')) →
  step_agrees (tm_below m) (push_frame grants tokens f m p) ((type_spec grants tokens levels ≫= k) p).
Proof.
  intros IH Hd Hroom Hnone Hk. unfold push_frame. pose proof (zlen_nonneg (tm_below m)).
  destruct (Z.leb_spec BEBOP_TYPE_STACK_SIZE (zlen (tm_below m) + 1)); [lia|].
  destruct (BEBOP_PARSE_CURRENT tokens p) as [[start q]|] eqn:Ec.
  2: { unfold mbind, C_bind. rewrite Ec. destruct levels; cbn [type_spec]; unfold mbind, C_bind; by rewrite Ec. }
  pose proof (current_same _ _ _ Ec) as ->. rewrite (C_bind_Some _ _ _ _ _ Ec). cbn [step_agrees mret C_ret].
  set (child := mkMachine _ (f :: _) _).
  assert (Hchild : agrees (f :: tm_below m) child p (type_spec grants tokens levels p)).
  { apply (IH child). split_and!; [done|cbn; lia|cbn [tm_below child]; rewrite zlen_cons; lia|by exists start]. }
  unfold mbind, C_bind. destruct (type_spec grants tokens levels p) as [[[t|] p']|] eqn:Es; [|by rewrite Hnone|done].
  destruct Hchild as (g&c&Hg1&Hg2&Hg3&Hl). eapply agrees_leads; [exact Hl|]. apply agrees_step. rewrite type_step_at by done. cbn [tm_frame]. rewrite Hg1.
  cbn. rewrite Hg2. by apply Hk.
Qed.

Lemma bind_bind {A B D} (c : M A) (k : A → M B) (l : B → M D) p : ((c ≫= k) ≫= l) p = (c ≫= λ a, k a ≫= l) p.
Proof. unfold mbind, C_bind. by destruct (c p) as [[a p']|]. Qed.
Tactic Notation "agree_bind" simple_intropattern(x) := rewrite ?bind_bind; apply step_agrees_bind; intros x ? _.

Lemma type_levels_agree levels : levels_agree levels.
Proof.
  induction levels as [|levels IH]; intros [frame below child] p (Hst&Hd&Hroom&t&Ec&Hstart); cbn [tm_frame tm_below] in *; apply agrees_step.
  { cbn [type_spec]. unfold type_step. cbn [tm_frame]. destruct (Z.ltb_spec BEBOP_MAX_TYPE_DEPTH (tf_depth frame)); [|lia].
    rewrite (C_bind_Some _ _ _ _ _ Ec). apply step_agrees_error. }
  cbn [type_spec]. rewrite type_step_at by (cbn; lia). cbn [tm_frame]. rewrite Hst. unfold step_base.
  rewrite !(C_bind_Some _ _ _ _ _ Ec). cbn [tm_frame].
  assert (Hsuffix : ∀ f q c, tf_start f = tk_span t → tf_state f = TYPE_STATE_ARRAY_SUFFIX → tf_depth f = tf_depth frame →
    agrees below (mkMachine f below c) q (suffixes grants tokens levels (tk_span t) (tf_result f) q)).
  { intros f q c <- Hf Hdf. apply suffixes_agree; [done|lia]. }
  destruct (tk_kind t); try (by agree_bind ?).
  - agree_bind _. agree_bind ok. destruct ok; cbn [negb]; [|done]. cbn [tm_below].
    rewrite bind_bind. apply (agrees_push levels _ (mkMachine frame below child)); [done|cbn; lia|cbn; lia|done|].
    intros key ? _. cbn [tm_below]. apply agrees_step. rewrite type_step_at by (cbn; lia). cbn [tm_frame with_state tf_state].
    unfold step_map_key. cbn [tm_child tm_frame]. agree_bind k. agree_bind _. agree_bind ok. destruct ok; cbn [negb]; [|done].
    rewrite bind_bind. match goal with |- step_agrees _ (push_frame _ _ ?f ?m _) _ => apply (agrees_push levels f m) end; [done|cbn; lia|cbn; lia|done|].
    intros value ? _. cbn [tm_below]. apply agrees_step. rewrite type_step_at by (cbn; lia). cbn [tm_frame tf_state].
    unfold step_map_value. cbn [tm_child tm_frame tf_start tf_map_key with_state type_of]. agree_bind ok. destruct ok; cbn [negb]; [|done].
    agree_bind last. rewrite Hstart. agree_bind r. by apply Hsuffix.
  - agree_bind r. destruct r as [r|]; [|done]. by apply Hsuffix.
Qed.

Lemma parse_type_is_recursive_eq p :
  parser_ok p →
  bebop__parse_type grants tokens p = (r ← type_spec grants tokens 65; mret (default None r)) p.
Proof.
  intros Hp. pose proof (pk_inside _ _ _ Hp) as Hin. unfold bebop__parse_type. pose proof (current_eq tokens p Hin) as Ec.
  rewrite (C_bind_Some _ _ _ _ _ Ec). set (m := mkMachine _ _ _).
  assert (Hends' : ∀ r, ends m p r → run (type_fuel tokens) m p = r).
  { intros r (k&Hk). rewrite <- (Hk (type_fuel tokens)), Nat.add_comm. symmetry. apply type_run_enough; [done|right; by split|].
    unfold measure, type_fuel, parse_fuel, inside in *. cbn. unfold zlen in *. cbn. lia. }
  assert (Hm : agrees [] m p (type_spec grants tokens 65 p)).
  { apply (type_levels_agree 65 m p). split_and!; [done|done|done|by exists (tok (pr_current p))]. }
  unfold mbind at 1, C_bind at 1. destruct (type_spec grants tokens 65 p) as [[[t|] p']|] eqn:Es; [|by apply Hends'..].
  destruct Hm as (f&child&Hf1&<-&Hf3&Hl). apply Hends'. eapply leads_ends; [exact Hl|]. apply ends_step. rewrite type_step_at by done.
  cbn [tm_frame]. by rewrite Hf1.
Qed.

End ParseTypeProps.

(** The machine of types is a recursive parser.  From every state of a parser that is in
    its stream, [bebop__parse_type] returns what the recursive parser [type_spec] of 65 levels
    returns, with the same tokens consumed, the same diagnostics, flags and names, and it is
    undefined exactly when that is: its rounds end, and its stack of 128 frames is never full. *)
Theorem parse_type_is_recursive `{ContextOk} {dm : DefMap def_ptr} {ns : DefMap (option bebop_span_t)} grants tokens p :
  stream_ends tokens → parser_ok grants tokens p →
  bebop__parse_type grants tokens p = (r ← type_spec grants tokens 65; mret (default None r)) p.
Proof. intros Hends Hp. by apply parse_type_is_recursive_eq. Qed.
