(* ===== verification/ParseTypeSpec.v ===== *)
(** The types of the language as a grammar of tokens, and the proof that the parser of types
    reads exactly them.

    The context is one that refuses nothing; what happens when it does is in the equivalence
    of [ParseTypeProps]. *)
From stdpp Require Import list gmap strings.
From S2P Require Import Prelude.
From S2P Require Import Scanner.
From S2P Require Import Schema.
From S2P Require Import Literals.
From S2P Require Import Diagnostics.
From S2P Require Import Sema.
From S2P Require Import SemaProps.
From S2P Require Import Registry.
From S2P Require Import RegistryProps.
From S2P Require Import Parser.
From S2P Require Import ParserProps.
From S2P Require Import ParseType.
From S2P Require Import ParseTypeProps.

(** A context that never refuses and does not end the process. *)
Class ContextGrants `{Context} : Prop := {
  cg_alloc : ∀ size n align c, is_Some (ctx_alloc_n size n align c).1;
  cg_intern : ∀ str c, (ctx_intern_n str c).1 ≠ 0;
  cg_ended : ∀ c, ctx_ended c = false
}.

(** ** Types without pointers *)

Inductive shape : Type :=
  | ShScalar (kind : bebop_type_kind_t)
  | ShName (name : list Z)
  | ShArray (element : shape)
  | ShFixed (element : shape) (size : Z)
  | ShMap (key value : shape).

(** A type of the parser whose names are those of a shape. *)
Fixpoint has_shape (str_get : Z → option (list Z)) (t : bebop_type_t) (s : shape) : Prop :=
  match t, s with
  | TScalar k, ShScalar k' => k = k'
  | TDefined name None, ShName text => str_get name = Some text
  | TArray e, ShArray s => has_shape str_get e s
  | TFixedArray e n, ShFixed s n' => has_shape str_get e s ∧ n = n'
  | TMap k v, ShMap sk sv => has_shape str_get k sk ∧ has_shape str_get v sv
  | _, _ => False
  end.
Lemma has_shape_mono f g t : (∀ i s, f i = Some s → g i = Some s) → ∀ s, has_shape f t s → has_shape g t s.
Proof. intros Hfg. induction t; intros [] H; cbn in *; try done; try (destruct H; split; auto); auto. destruct resolved; auto. Qed.

(** ** The grammar *)

Section Grammar.
Context (tokens : list bebop_token_t) (str_get : Z → option (list Z)).
Abbreviation kind := (kind_at tokens).

Definition text (i : Z) : list Z := default [] (str_get (tk_lexeme (tok_at tokens i))).

(** The parts of a name behind its first ones, which are [name]. *)
Inductive dotted_at : Z → list Z → Z → list Z → Prop :=
  | dotted_end i name : kind i ≠ BEBOP_TOKEN_DOT → dotted_at i name i name
  | dotted_part i name j name' :
      kind i = BEBOP_TOKEN_DOT → kind (i + 1) = BEBOP_TOKEN_IDENTIFIER → zlen name + 1 + zlen (text (i + 1)) < sizeof_name_buf →
      dotted_at (i + 2) (name ++ dot :: text (i + 1)) j name' → dotted_at i name j name'.

(** A name: a scalar type, or the name of a definition, whose buffer has a size. *)
Inductive name_at : Z → Z → shape → Prop :=
  | name_scalar i k : bebop__parse_lookup_scalar (text i) = Some k → name_at i (i + 1) (ShScalar k)
  | name_defined i j name :
      bebop__parse_lookup_scalar (text i) = None → (kind (i + 1) = BEBOP_TOKEN_DOT → zlen (text i) < sizeof_name_buf) →
      dotted_at (i + 1) (text i) j name → name_at i j (ShName name).

(** The brackets behind a type, at most so many. *)
Inductive suffix_at : nat → Z → shape → Z → shape → Prop :=
  | suffix_end l i s : kind i ≠ BEBOP_TOKEN_LBRACKET → suffix_at l i s i s
  | suffix_array l i s j s' :
      kind i = BEBOP_TOKEN_LBRACKET → kind (i + 1) = BEBOP_TOKEN_RBRACKET →
      suffix_at l (i + 2) (ShArray s) j s' → suffix_at (S l) i s j s'
  | suffix_fixed l i s n j s' :
      kind i = BEBOP_TOKEN_LBRACKET → kind (i + 1) = BEBOP_TOKEN_NUMBER → kind (i + 2) = BEBOP_TOKEN_RBRACKET →
      bebop_util_parse_int (text (i + 1)) = Some (Some n) → 1 ≤ n ≤ BEBOP_MAX_FIXED_ARRAY_SIZE →
      suffix_at l (i + 3) (ShFixed s n) j s' → suffix_at (S l) i s j s'.

(** The tokens from [i] to [j] are a type of at most so many levels, and the longest. *)
Inductive type_at : nat → Z → Z → shape → Prop :=
  | type_named l i m s j s' :
      kind i = BEBOP_TOKEN_IDENTIFIER → name_at i m s → suffix_at l m s j s' → type_at (S l) i j s'
  | type_map l i m k n v j s :
      kind i = BEBOP_TOKEN_MAP → kind (i + 1) = BEBOP_TOKEN_LBRACKET → type_at l (i + 2) m k → kind m = BEBOP_TOKEN_COMMA →
      type_at l (m + 1) n v → kind n = BEBOP_TOKEN_RBRACKET → suffix_at l (n + 1) (ShMap k v) j s → type_at (S l) i j s.

Lemma dotted_det i t j n : dotted_at i t j n → ∀ j' n', dotted_at i t j' n' → j' = j ∧ n' = n.
Proof. induction 1; intros j' n' H'; inversion H'; subst; try done; auto. Qed.
Lemma name_det i j s j' s' : name_at i j s → name_at i j' s' → j' = j ∧ s' = s.
Proof.
  intros [a k Hk|a b name Hk Hl Hd] H'; inversion H'; subst; try congruence; [split; congruence|].
  match goal with H : dotted_at _ _ _ ?n |- context [ShName ?n] => destruct (dotted_det _ _ _ _ Hd _ _ H) as (->&->) end. done.
Qed.
Lemma suffix_det l i s j t : suffix_at l i s j t → ∀ j' t', suffix_at l i s j' t' → j' = j ∧ t' = t.
Proof.
  induction 1; intros j' t' H'; inversion H'; subst; try done; try congruence; auto.
  match goal with H1 : bebop_util_parse_int ?t = Some (Some ?n), H2 : bebop_util_parse_int ?t = Some (Some ?n') |- _ => rewrite H1 in H2; injection H2 as <- end.
  auto.
Qed.
Lemma type_det l i j s : type_at l i j s → ∀ j' s', type_at l i j' s' → j' = j ∧ s' = s.
Proof.
  induction 1 as [l i m s j s' Hk Hn Hs|l i m k n v j s Hk Hb Hkey IHk Hc Hv IHv He Hs]; intros j' t' H'; inversion H'; subst; try congruence.
  - match goal with H : name_at i _ _ |- _ => destruct (name_det _ _ _ _ _ Hn H) as (->&->) end. by eapply suffix_det.
  - match goal with H : type_at l (i + 2) _ _ |- _ => destruct (IHk _ _ H) as (->&->) end.
    match goal with H : type_at l (m + 1) _ _ |- _ => destruct (IHv _ _ H) as (->&->) end. by eapply suffix_det.
Qed.
End Grammar.

Section Exact.
Context {cc : Context} {Hcc : ContextOk} {Hg : ContextGrants} {dm : DefMap def_ptr} {ns : DefMap (option bebop_span_t)} (grants : nat → bool).
Context (tokens : list bebop_token_t) {Hends : stream_ends tokens} (c0 : ctx) (Hc0 : ctx_ok c0).
Abbreviation M := (C bebop_parser_t).
Abbreviation tok := (tok_at tokens).
Abbreviation kind := (kind_at tokens).
Abbreviation parser_ok := (parser_ok grants tokens).
Abbreviation parser_le := (parser_le grants tokens).
Abbreviation error_post := (error_post grants tokens).
Abbreviation text := (text tokens (ctx_str c0)).
Abbreviation pctx p := (rg_ctx (pr_registry p)).

(** The scanner's promises about the texts of tokens: names and numbers have one, and that of
    a number does not start with a minus. *)
Definition texts_known : Prop :=
  ∀ i, 0 ≤ i < zlen tokens →
    (kind i = BEBOP_TOKEN_IDENTIFIER ∨ kind i = BEBOP_TOKEN_NUMBER → ctx_str c0 (tk_lexeme (tok i)) = Some (text i)) ∧
    (kind i = BEBOP_TOKEN_NUMBER → bebop_util_parse_int (text i) ≠ None).
Context (Htexts : texts_known).

Definition ready (p : bebop_parser_t) : Prop := parser_ok p ∧ ctx_le c0 (pctx p).

Lemma ready_str p h t : ready p → ctx_str c0 h = Some t → ctx_str (pctx p) h = Some t.
Proof. intros (_&Hle) E. destruct (Hle Hc0) as (_&H). destruct (H (cg_ended _)) as (_&Hs). by apply Hs. Qed.
Lemma ready_le p p' : ready p → parser_le p p' → ready p'.
Proof. intros (Hp&Hc) Hle. split; [by apply (pl_ok _ _ _ _ Hle)|]. etrans; [exact Hc|apply (pl_ctx _ _ _ _ Hle)]. Qed.
Lemma ready_inside p : ready p → inside tokens p.
Proof. intros (Hp&_). apply Hp. Qed.
Lemma ready_ctx p : ready p → ctx_ok (pctx p).
Proof. intros (_&Hc). by apply Hc. Qed.
Lemma ctx_le_str c c' i s : ctx_ok c → ctx_le c c' → ctx_str c i = Some s → ctx_str c' i = Some s.
Proof. intros Hc Hle. destruct (Hle Hc) as (_&H). destruct (H (cg_ended _)) as (_&Hs). apply Hs. Qed.
Lemma le_shape p p' t s : ready p → parser_le p p' → has_shape (ctx_str (pctx p)) t s → has_shape (ctx_str (pctx p')) t s.
Proof. intros Hp Hle. apply has_shape_mono. intros i u. apply ctx_le_str; [by apply ready_ctx|apply (pl_ctx _ _ _ _ Hle)]. Qed.

(** Nothing went wrong on the way. *)
Definition fine (p p' : bebop_parser_t) : Prop := ready p ∧ parser_le p p' ∧ pr_panic p' = pr_panic p ∧ pr_fatal p' = pr_fatal p.
Lemma fine_ready p p' : fine p p' → ready p'.
Proof. intros (Hp&Hle&_). by eapply ready_le. Qed.
Lemma fine_trans p p1 p2 : fine p p1 → fine p1 p2 → fine p p2.
Proof. intros (H1&H2&H3&H4) (_&H6&H7&H8). split_and!; [done|by etrans|congruence|congruence]. Qed.
Lemma fine_refl p : ready p → fine p p.
Proof. intros Hp. by split_and!. Qed.
Lemma fine_next p : ready p → kind (pr_current p) ≠ BEBOP_TOKEN_EOF → fine p (next p).
Proof. intros Hp Hk. split_and!; [done|by apply next_le|done|done]. Qed.

(** What a parser of a thing answers: the thing, or a failure when there is none. *)
Definition outcome_of {A} (p : bebop_parser_t) (good : A → bebop_parser_t → Prop) (none : Prop) (r : option A) (p' : bebop_parser_t) : Prop :=
  match r with
  | Some a => fine p p' ∧ good a p'
  | None => parser_le p p' ∧ failed p' ∧ none
  end.

(** A result with a type of a shape, and where it ends. *)
Definition typed (sh : shape → Z → Prop) (t : option parsed_type) (p : bebop_parser_t) : Prop :=
  ∃ ty s, t = Some ty ∧ has_shape (ctx_str (pctx p)) (pt_type ty) s ∧ sh s (pr_current p).

Lemma make_type_fine t span (Q : option parsed_type → bebop_parser_t → Prop) p :
  ready p → (∀ p', fine p p' → pr_current p' = pr_current p → Q (Some (mkParsed t span)) p') → computes (make_type t span) Q p.
Proof.
  intros Hp HQ. unfold make_type. destruct (ctx_alloc_n sizeof_type 1 8 (pctx p)) as [a c] eqn:Ea.
  pose proof (cg_alloc sizeof_type 1 8 (pctx p)) as Hsome. pose proof (ctx_alloc_n_ok sizeof_type 1 3 (pctx p) ltac:(lia)) as Hle. change (2 ^ 3) with 8 in Hle.
  rewrite Ea in Hsome, Hle. cbn in Hsome, Hle. destruct Hsome as (addr&->).
  assert (E : alloc_n sizeof_type 1 8 (pr_registry p) = Some (Some addr, set_ctx c (pr_registry p))) by (unfold alloc_n; by rewrite Ea).
  eapply computes_bind.
  { apply (on_registry_computes grants tokens _ _ _ (λ b p', b = Some addr ∧ fine p p' ∧ pr_current p' = pr_current p) _ E); [by split_and!|].
    intros. by split_and!. }
  intros b p' (->&Hf&Hc). by apply computes_ret, HQ.
Qed.

Lemma intern_fine name (Q : Z → bebop_parser_t → Prop) p :
  ready p → (∀ i p', fine p p' → pr_current p' = pr_current p → ctx_str (pctx p') i = Some name → Q i p') → computes (on_registry (bebop_intern_n name)) Q p.
Proof.
  intros Hp HQ. pose proof (ctx_intern_n_ok name (pctx p)) as Hle. pose proof (ctx_intern_n_str name (pctx p) (ready_ctx p Hp) (cg_ended _) (cg_intern _ _)) as Hstr.
  destruct (ctx_intern_n name (pctx p)) as [i c] eqn:Ei. cbn in Hle, Hstr.
  assert (E : bebop_intern_n name (pr_registry p) = Some (i, set_ctx c (pr_registry p))) by (unfold bebop_intern_n; by rewrite Ei).
  apply (on_registry_computes grants tokens _ _ _ Q _ E); [by split_and!|]. intros p' ? ? ? ? _ Er. apply HQ; [by split_and!|done|]. by rewrite Er.
Qed.

(** ** Names *)

Lemma dotted_exact fuel p0 : ∀ name last p (Q : _ → bebop_parser_t → Prop),
  fine p0 p → 0 < pr_current p → zlen tokens - pr_current p < Z.of_nat fuel →
  (∀ r p', outcome_of p0 (λ a p', dotted_at tokens (ctx_str c0) (pr_current p) name (pr_current p') a.1)
     (∀ j n, ¬ dotted_at tokens (ctx_str c0) (pr_current p) name j n) r p' → Q r p') →
  computes (qualified_loop grants tokens fuel name last) Q p.
Proof.
  induction fuel as [|fuel IH]; intros name last p Q Hp Hc Hf HQ; pose proof (fine_ready _ _ Hp) as Hr; pose proof (ready_inside _ Hr) as Hin; unfold inside in Hin; [lia|].
  cbn [qualified_loop]. pose proof (match_eq tokens BEBOP_TOKEN_DOT p ltac:(done) Hin) as Em.
  case_bool_decide as Hdot; (eapply computes_step; [exact Em|]); cbn [negb].
  2: { apply computes_ret, HQ. split; [done|]. by constructor. }
  assert (Hk : kind (pr_current p) ≠ BEBOP_TOKEN_EOF) by congruence. pose proof (fine_next p Hr Hk) as H1. pose proof (fine_ready _ _ H1) as Hr1.
  assert (H01 : fine p0 (next p)) by (by eapply fine_trans).
  eapply computes_bind.
  { eapply (consume_after_computes grants tokens _ (λ b p', if (b : bool) then kind (pr_current p + 1) = BEBOP_TOKEN_IDENTIFIER ∧ fine p0 p' ∧ pr_current p' = pr_current p + 2
      else kind (pr_current p + 1) ≠ BEBOP_TOKEN_IDENTIFIER ∧ parser_le p0 p' ∧ failed p')); [done|apply Hr1|cbn; lia| |].
    - intros Hk2 Hn. split; [exact Hk2|]. split; [|cbn; lia]. eapply fine_trans; [exact H01|]. apply fine_next; [done|]. cbn in *. congruence.
    - intros p' Hk2 (Hle&_&Hfail). split_and!; [done| |done]. destruct H01 as (_&H01&_). by etrans. }
  intros [] p2 H2; cbn [negb].
  2: { destruct H2 as (Hk2&Hle&Hfail). apply computes_ret, HQ. split_and!; [done|done|]. intros j n H. inversion H; subst; congruence. }
  destruct H2 as (Hk2&H2&Hc2). pose proof (fine_ready _ _ H2) as Hr2. pose proof (ready_inside _ Hr2) as Hin2.
  eapply computes_step; [apply (previous_eq tokens); [done|lia]|]. replace (pr_current p2 - 1) with (pr_current p + 1) by lia.
  eapply computes_step; [reflexivity|].
  assert (Ht : ctx_str (pctx p2) (tk_lexeme (tok (pr_current p + 1))) = Some (text (pr_current p + 1))).
  { eapply ready_str; [done|]. apply Htexts; [unfold inside in Hin2; lia|by left]. }
  rewrite Ht. cbn [from_option id]. destruct (Z.leb_spec sizeof_name_buf (zlen name + 1 + zlen (text (pr_current p + 1)))) as [Hlong|Hshort].
  - eapply computes_bind; [eapply (error_computes grants tokens _ (λ _ p', error_post p2 p')); [apply Hr2|lia|done]|]. intros [] p3 (Hle&_&Hfail).
    apply computes_ret, HQ. destruct H2 as (_&H02&_). split_and!; [by etrans|done|]. intros j n H. inversion H; subst; [congruence|lia].
  - apply IH; [done|lia|lia|]. intros r p' H. apply HQ. rewrite Hc2 in H. destruct r as [a|]; cbn in H |- *.
    + destruct H as (Hfine&H). split; [done|]. by apply dotted_part.
    + destruct H as (Hle&Hfail&H). split_and!; [done|done|]. intros j n H'. inversion H'; subst; [congruence|by eapply H].
Qed.

Abbreviation name_at := (name_at tokens (ctx_str c0)).
Abbreviation suffix_at := (suffix_at tokens (ctx_str c0)).
Abbreviation type_at := (type_at tokens (ctx_str c0)).

Lemma new_type_fine p0 p ty span s (good : shape → Z → Prop) (none : Prop) :
  fine p0 p → has_shape (ctx_str (pctx p)) ty s → good s (pr_current p) →
  computes (t ← make_type ty span; mret (Some t)) (outcome_of p0 (typed good) none) p.
Proof.
  intros Hp Hs Hgood. pose proof (fine_ready _ _ Hp) as Hr. eapply computes_bind.
  { apply (make_type_fine ty span (λ t p', t = Some (mkParsed ty span) ∧ fine p p' ∧ pr_current p' = pr_current p)); [done|]. intros. by split_and!. }
  intros t p' (->&Hf&Hc). apply computes_ret. split; [by eapply fine_trans|]. exists (mkParsed ty span), s. split; [done|]. rewrite Hc. split; [|done].
  cbn. eapply le_shape; [exact Hr|by apply Hf|done].
Qed.

Lemma known_text p i : ready p → 0 ≤ i < zlen tokens → kind i = BEBOP_TOKEN_IDENTIFIER ∨ kind i = BEBOP_TOKEN_NUMBER →
  ctx_str (pctx p) (tk_lexeme (tok i)) = Some (text i).
Proof. intros Hp Hi Hk. eapply ready_str; [done|]. by apply Htexts. Qed.

Lemma named_exact p :
  ready p → kind (pr_current p) = BEBOP_TOKEN_IDENTIFIER →
  computes (named_type grants tokens (tok (pr_current p)))
    (outcome_of p (typed (λ s j, name_at (pr_current p) j s)) (∀ j s, ¬ name_at (pr_current p) j s)) p.
Proof.
  intros Hp Hk. pose proof (ready_inside _ Hp) as Hin. unfold named_type. eapply computes_step; [reflexivity|].
  rewrite (known_text p _ Hp Hin) by (by left). assert (Hk' : kind (pr_current p) ≠ BEBOP_TOKEN_EOF) by congruence.
  pose proof (fine_next p Hp Hk') as H1. pose proof (fine_ready _ _ H1) as Hr1.
  destruct (bebop__parse_lookup_scalar (text (pr_current p))) as [k|] eqn:Es; (eapply computes_step; [by apply (advance_next tokens)|]).
  { eapply (new_type_fine _ _ _ _ (ShScalar k)); [done|done|by constructor]. }
  eapply computes_step; [by apply (check_eq tokens), ready_inside|]. change (pr_current (next p)) with (pr_current p + 1). case_bool_decide as Hdot.
  2: { eapply (new_type_fine _ _ _ _ (ShName (text (pr_current p)))); [done| |].
       - eapply ready_str; [done|]. apply Htexts; [done|by left].
       - by apply name_defined, dotted_end. }
  destruct (Z.leb_spec sizeof_name_buf (zlen (text (pr_current p)))) as [Hlong|Hshort].
  { eapply computes_bind; [eapply (error_computes grants tokens _ (λ _ p', error_post (next p) p')); [apply Hr1|cbn; unfold inside in Hin; lia|done]|].
    intros [] p2 (Hle&_&Hf). apply computes_ret. destruct H1 as (_&H1&_). split_and!; [by etrans|done|]. intros j s H. inversion H; subst; [congruence|].
    match goal with H : kind _ = _ → _ |- _ => specialize (H Hdot) end. lia. }
  eapply computes_bind.
  { apply (dotted_exact _ p _ _ (next p) (outcome_of p (λ a p', dotted_at tokens (ctx_str c0) (pr_current p + 1) (text (pr_current p)) (pr_current p') a.1)
      (∀ j n, ¬ dotted_at tokens (ctx_str c0) (pr_current p + 1) (text (pr_current p)) j n))); [done|cbn; unfold inside in Hin; lia|unfold parse_fuel, zlen; cbn; unfold inside in Hin; lia|done]. }
  intros [[name last]|] p2 H2; cbn in H2.
  2: { apply computes_ret. destruct H2 as (Hle2&Hf2&Hno). split_and!; [done..|]. intros j s H. inversion H; subst; [congruence|]. by eapply Hno. }
  destruct H2 as (H2&Hd). pose proof (fine_ready _ _ H2) as Hr2. eapply computes_bind.
  { apply (intern_fine name (λ i p', fine p p' ∧ pr_current p' = pr_current p2 ∧ ctx_str (pctx p') i = Some name)); [done|].
    intros i p' ? ? ?. split_and!; [by eapply fine_trans|done|done]. }
  intros i p3 (H3&Hc3&Hi). eapply (new_type_fine _ _ _ _ (ShName name)); [done|done|]. rewrite Hc3. by apply name_defined.
Qed.

(** ** Brackets *)

(** One pair of brackets. *)
Definition bracket_at (i : Z) (s : shape) (j : Z) (s' : shape) : Prop :=
  kind i = BEBOP_TOKEN_RBRACKET ∧ j = i + 1 ∧ s' = ShArray s ∨
  ∃ n, kind i = BEBOP_TOKEN_NUMBER ∧ kind (i + 1) = BEBOP_TOKEN_RBRACKET ∧ bebop_util_parse_int (text i) = Some (Some n) ∧
    1 ≤ n ≤ BEBOP_MAX_FIXED_ARRAY_SIZE ∧ j = i + 2 ∧ s' = ShFixed s n.

Lemma closing_exact p0 p ty span s (good : shape → Z → Prop) (none : Prop) :
  fine p0 p → has_shape (ctx_str (pctx p)) ty s → 0 < pr_current p →
  (kind (pr_current p) = BEBOP_TOKEN_RBRACKET → good s (pr_current p + 1)) → (kind (pr_current p) ≠ BEBOP_TOKEN_RBRACKET → none) →
  computes (ok ← BEBOP_PARSE_CONSUME grants tokens BEBOP_TOKEN_RBRACKET;
            if negb ok then mret None
            else last ← BEBOP_PARSE_PREVIOUS tokens;
                 t ← make_type ty (bebop__parse_span_from_tokens (Some span) (Some (tk_span last))); mret (Some t))
    (outcome_of p0 (typed good) none) p.
Proof.
  intros Hp Hs Hc Hgood Hnone. pose proof (fine_ready _ _ Hp) as Hr. eapply computes_bind.
  { apply (consume_computes grants tokens _ (λ b p', if (b : bool) then good s (pr_current p') ∧ fine p p' ∧ 0 < pr_current p' else none ∧ parser_le p0 p' ∧ failed p')); [done|apply Hr| |].
    - intros Hk Hn. split; [by apply Hgood|]. split; [|cbn; lia]. apply fine_next; [done|congruence].
    - intros p' Hk (Hle&_&Hf). split_and!; [by apply Hnone| |done]. destruct Hp as (_&Hp&_). by etrans. }
  intros [] p1 H1; cbn [negb].
  - destruct H1 as (Hg1&H1&Hc1). eapply computes_step; [apply (previous_eq tokens); [by eapply ready_inside, fine_ready|done]|].
    eapply new_type_fine; [by eapply fine_trans|eapply le_shape; [exact Hr|by apply H1|done]|done].
  - apply computes_ret. destruct H1 as (?&?&?). by split_and!.
Qed.

Lemma array_suffix_exact p0 p start e s :
  fine p0 p → has_shape (ctx_str (pctx p)) (pt_type e) s → 0 < pr_current p →
  computes (array_suffix grants tokens start (Some e))
    (outcome_of p0 (typed (λ s' j, bracket_at (pr_current p) s j s')) (∀ j s', ¬ bracket_at (pr_current p) s j s')) p.
Proof.
  intros Hp Hs Hc. pose proof (fine_ready _ _ Hp) as Hr. pose proof (ready_inside _ Hr) as Hin. unfold array_suffix.
  eapply computes_step; [by apply (check_eq tokens)|]. case_bool_decide as Hnum.
  2: { eapply (closing_exact p0 p (TArray (pt_type e)) start (ShArray s)); [done|done|done|by left|]. intros Hk j s' [(?&_)|(n&?&_)]; congruence. }
  assert (Hk : kind (pr_current p) ≠ BEBOP_TOKEN_EOF) by congruence. pose proof (fine_next p Hr Hk) as H1. pose proof (fine_ready _ _ H1) as Hr1.
  eapply computes_step; [by apply (advance_next tokens)|]. eapply computes_step; [apply (previous_eq tokens); [by apply ready_inside|cbn; lia]|].
  replace (pr_current (next p) - 1) with (pr_current p) by (cbn; lia). eapply computes_step; [reflexivity|].
  rewrite (known_text (next p) _ Hr1 Hin) by (by right). cbn [from_option id].
  destruct (bebop_util_parse_int (text (pr_current p))) as [size|] eqn:Ei; [|by apply Htexts in Ei].
  eapply computes_step; [reflexivity|].
  destruct (Z.ltb_spec (default 0 size) 1) as [Hlo|Hlo]; [|destruct (Z.ltb_spec BEBOP_MAX_FIXED_ARRAY_SIZE (default 0 size)) as [Hhi|Hhi]]; cbn [orb].
  3: { eapply (closing_exact p0 (next p) (TFixedArray (pt_type e) (default 0 size)) start (ShFixed s (default 0 size)));
         [by eapply fine_trans|by split; [eapply le_shape; [exact Hr|by apply H1|done]|]|cbn; lia| |].
       - intros Hb. right. exists (default 0 size). destruct size as [n|]; cbn in *; [|lia]. split_and!; [done..|lia|done].
       - intros Hb j s' [(?&_)|(n&?&Hb'&_)]; [congruence|]. by cbn in Hb. }
  all: eapply computes_bind; [eapply (error_at_computes grants tokens _ _ (λ _ p', error_post (next p) p')); [apply Hr1|done]|];
    intros [] p2 (Hle&_&Hf); apply computes_ret; destruct Hp as (_&Hp&_), H1 as (_&H1&_); (split_and!; [by etrans; [|etrans]|done|]);
    intros j s' [(?&_)|(n&_&_&En&Hn&_)]; [congruence|]; rewrite En in Ei; injection Ei as <-; cbn in *; lia.
Qed.

Lemma suffix_more l i s k s1 j s' :
  kind i = BEBOP_TOKEN_LBRACKET → bracket_at (i + 1) s k s1 → suffix_at l k s1 j s' → suffix_at (S l) i s j s'.
Proof.
  intros Hi [(Hk&->&->)|(n&Hk&Hk2&En&Hn&->&->)] Hs.
  - eapply suffix_array; [done|done|]. by replace (i + 2) with (i + 1 + 1) by lia.
  - eapply suffix_fixed; [done|done|by replace (i + 2) with (i + 1 + 1) by lia|done|done|]. by replace (i + 3) with (i + 1 + 2) by lia.
Qed.
Lemma suffix_first l i s j s' : kind i = BEBOP_TOKEN_LBRACKET → suffix_at l i s j s' →
  ∃ l' k s1, l = S l' ∧ bracket_at (i + 1) s k s1 ∧ suffix_at l' k s1 j s'.
Proof.
  intros Hi H. inversion H; subst; [done|..].
  - eexists _, (i + 2), _. split; [done|]. split; [left; split_and!; try done; lia|done].
  - eexists _, (i + 3), _. split; [done|]. split; [right; exists n|done]. replace (i + 1 + 1) with (i + 2) by lia. split_and!; try done; lia.
Qed.
Lemma bracket_det i s j s1 j' s1' : bracket_at i s j s1 → bracket_at i s j' s1' → j' = j ∧ s1' = s1.
Proof.
  intros [(?&->&->)|(n&?&_&E&_&->&->)] [(?&->&->)|(n'&?&_&E'&_&->&->)]; try congruence; [done|]. rewrite E in E'. by injection E' as <-.
Qed.

Lemma suffixes_exact levels p0 start : ∀ e s p,
  fine p0 p → has_shape (ctx_str (pctx p)) (pt_type e) s → 0 < pr_current p →
  computes (suffixes grants tokens levels start (Some e))
    (outcome_of p0 (typed (λ s' j, suffix_at levels (pr_current p) s j s')) (∀ j s', ¬ suffix_at levels (pr_current p) s j s')) p.
Proof.
  induction levels as [|levels IH]; intros e s p Hp Hs Hc; pose proof (fine_ready _ _ Hp) as Hr; pose proof (ready_inside _ Hr) as Hin;
    cbn [suffixes]; pose proof (match_eq tokens BEBOP_TOKEN_LBRACKET p ltac:(done) Hin) as Em;
    case_bool_decide as Hb; (eapply computes_step; [exact Em|]); cbn [negb].
  2, 4: apply computes_ret; split; [done|]; exists e, s; split_and!; [done..|by constructor].
  - assert (Hk : kind (pr_current p) ≠ BEBOP_TOKEN_EOF) by congruence. pose proof (fine_next p Hr Hk) as H1. pose proof (fine_ready _ _ H1) as Hr1.
    eapply computes_bind; [eapply (error_computes grants tokens _ (λ _ p', error_post (next p) p')); [apply Hr1|cbn; lia|done]|].
    intros [] p2 (Hle&_&Hf). apply computes_ret. destruct Hp as (_&Hp&_), H1 as (_&H1&_). split_and!; [by etrans; [|etrans]|done|].
    intros j s' H. by apply suffix_first in H as (?&?&?&?&_).
  - assert (Hk : kind (pr_current p) ≠ BEBOP_TOKEN_EOF) by congruence. pose proof (fine_next p Hr Hk) as H1. pose proof (fine_ready _ _ H1) as Hr1.
    eapply computes_bind; [apply (array_suffix_exact p0 (next p) start e s); [by eapply fine_trans|eapply le_shape; [exact Hr|by apply H1|done]|cbn; lia]|].
    intros [t|] p2 H2; cbn in H2.
    + destruct H2 as (H2&ty&s1&->&Hs1&Hbr). eapply computes_weaken; [apply (IH ty s1 p2); [done|done|]|].
      { destruct Hbr as [(_&->&_)|(n&_&_&_&_&->&_)]; lia. }
      intros r p3 H3. destruct r as [t|]; cbn in H3 |- *.
      * destruct H3 as (H3&ty'&s'&->&Hs'&Hsuf). split; [done|]. exists ty', s'. split_and!; [done|done|]. by eapply suffix_more.
      * destruct H3 as (?&?&Hno). split_and!; [done|done|]. intros j s' Hj. apply suffix_first in Hj as (l'&k&s1'&[= <-]&Hbr'&Hsuf); [|done].
        destruct (bracket_det _ _ _ _ _ _ Hbr Hbr') as (->&->). by eapply Hno.
    + apply computes_ret. destruct H2 as (?&?&Hno). split_and!; [done|done|]. intros j s' Hj.
      apply suffix_first in Hj as (l'&k&s1'&_&Hbr&_); [|done]. by eapply Hno.
Qed.

Lemma fine_fails p0 p p' : fine p0 p → parser_le p p' → parser_le p0 p'.
Proof. intros (_&Hp&_) Hle. by etrans. Qed.
Lemma outcome_later {A} p0 p (good : A → bebop_parser_t → Prop) none r p' : fine p0 p → outcome_of p good none r p' → outcome_of p0 good none r p'.
Proof.
  intros Hp. destruct r as [a|]; cbn; [intros (?&?); split; [by eapply fine_trans|done]|]. intros (?&?&?). split_and!; [by eapply fine_fails|done|done].
Qed.
Lemma typed_later (g g' : shape → Z → Prop) t p : (∀ s j, g s j → g' s j) → typed g t p → typed g' t p.
Proof. intros H (ty&s&?&?&?). exists ty, s. auto. Qed.

(** A token that must be there. *)
Lemma consume_fine k p0 p (none : Prop) : k ≠ BEBOP_TOKEN_EOF → fine p0 p → (kind (pr_current p) ≠ k → none) →
  computes (BEBOP_PARSE_CONSUME grants tokens k)
    (λ b p', if (b : bool) then kind (pr_current p) = k ∧ fine p0 p' ∧ pr_current p' = pr_current p + 1 else none ∧ parser_le p0 p' ∧ failed p') p.
Proof.
  intros Hk Hp Hn. pose proof (fine_ready _ _ Hp) as Hr. apply (consume_computes grants tokens); [done|apply Hr| |].
  - intros E _. split_and!; [done| |done]. eapply fine_trans; [exact Hp|]. apply fine_next; [done|congruence].
  - intros p' E (Hle&_&Hf). split_and!; [by apply Hn|by eapply fine_fails|done].
Qed.
Lemma consume_after_fine k p0 p (none : Prop) : k ≠ BEBOP_TOKEN_EOF → fine p0 p → 0 < pr_current p → (kind (pr_current p) ≠ k → none) →
  computes (BEBOP_PARSE_CONSUME_AFTER grants tokens k)
    (λ b p', if (b : bool) then kind (pr_current p) = k ∧ fine p0 p' ∧ pr_current p' = pr_current p + 1 else none ∧ parser_le p0 p' ∧ failed p') p.
Proof.
  intros Hk Hp Hc Hn. pose proof (fine_ready _ _ Hp) as Hr. apply (consume_after_computes grants tokens); [done|apply Hr|done| |].
  - intros E _. split_and!; [done| |done]. eapply fine_trans; [exact Hp|]. apply fine_next; [done|congruence].
  - intros p' E (Hle&_&Hf). split_and!; [by apply Hn|by eapply fine_fails|done].
Qed.
Lemma map_key_fine t span p0 p : fine p0 p →
  computes (sema (λ str_get, bebop_sema_check_map_key_type grants t span)) (λ _ p', fine p0 p' ∧ pr_current p' = pr_current p) p.
Proof.
  intros Hp. pose proof (fine_ready _ _ Hp) as Hr.
  apply (answers_computes grants tokens _ id (λ _, is_map_key t = true)); [apply Hr|intros b Hb; exact (map_key_answers grants _ _ b _ Hb)|].
  intros a p' ? ? ? ? ?. split; [|done]. eapply fine_trans; [done|]. by split_and!.
Qed.

Lemma dotted_forward i t j n : dotted_at tokens (ctx_str c0) i t j n → i ≤ j.
Proof. induction 1; lia. Qed.
Lemma name_forward i j s : name_at i j s → i < j.
Proof. intros H. inversion H; subst; [lia|]. match goal with H : dotted_at _ _ _ _ _ _ |- _ => apply dotted_forward in H end. lia. Qed.
Lemma suffix_forward l i s j s' : suffix_at l i s j s' → i ≤ j.
Proof. induction 1; lia. Qed.
Lemma type_forward l i j s : type_at l i j s → i < j.
Proof.
  induction 1; match goal with H : suffix_at _ _ _ _ _ |- _ => apply suffix_forward in H end; [|lia].
  match goal with H : name_at _ _ _ |- _ => apply name_forward in H end. lia.
Qed.

(** The brackets behind a type whose base is known. *)
Lemma rest_exact levels i p0 start ty s p :
  fine p0 p → 0 < pr_current p → has_shape (ctx_str (pctx p)) (pt_type ty) s →
  (∀ j s', type_at (S levels) i j s' ↔ suffix_at levels (pr_current p) s j s') →
  computes (suffixes grants tokens levels start (Some ty))
    (outcome_of p0 (typed (λ s j, type_at (S levels) i j s)) (∀ j s, ¬ type_at (S levels) i j s)) p.
Proof.
  intros Hp Hc Hs Hiff. eapply computes_weaken; [by apply (suffixes_exact levels p0 start ty s)|]. intros [t|] p'; cbn.
  - intros (Hf&Ht). split; [done|]. eapply typed_later; [|exact Ht]. intros s' j. by apply Hiff.
  - intros (?&?&Hno). split_and!; [done..|]. intros j s' Hj. by eapply Hno, Hiff.
Qed.

Lemma type_exact levels : ∀ p, ready p → levels ≠ O ∨ 0 < pr_current p →
  computes (type_spec grants tokens levels)
    (outcome_of p (typed (λ s j, type_at levels (pr_current p) j s)) (∀ j s, ¬ type_at levels (pr_current p) j s)) p.
Proof.
  induction levels as [|levels IH]; intros p Hp Hc; pose proof (ready_inside _ Hp) as Hin; cbn [type_spec];
    (eapply computes_step; [by apply (current_eq tokens)|]).
  { destruct Hc as [?|Hc]; [done|]. eapply computes_bind; [eapply (error_computes grants tokens _ (λ _ p', error_post p p')); [apply Hp|done|done]|].
    intros [] p1 (Hle&_&Hf). apply computes_ret. split_and!; [done|done|]. intros j s H. inversion H. }
  clear Hc. change (tk_kind (tok (pr_current p))) with (kind (pr_current p)). remember (pr_current p) as i eqn:Ei.
  eapply computes_bind; [|intros r q H; exact H].
  assert (Hfail : ∀ q, parser_le p q → failed q → (∀ j s, ¬ type_at (S levels) i j s) →
    computes (mret None : M (option (option parsed_type)))
      (λ r q, computes (match r with None => mret None | Some t => suffixes grants tokens levels (tk_span (tok i)) t end)
        (outcome_of p (typed (λ s j, type_at (S levels) i j s)) (∀ j s, ¬ type_at (S levels) i j s)) q) q).
  { intros q Hle Hf Hno. by apply computes_ret, computes_ret. }
  assert (Hother : ∀ code, kind i ≠ BEBOP_TOKEN_IDENTIFIER → kind i ≠ BEBOP_TOKEN_MAP →
    computes (BEBOP_PARSE_ERROR_CURRENT grants tokens code;; mret None)
      (λ r q, computes (match r with None => mret None | Some t => suffixes grants tokens levels (tk_span (tok i)) t end)
        (outcome_of p (typed (λ s j, type_at (S levels) i j s)) (∀ j s, ¬ type_at (S levels) i j s)) q) p).
  { intros code H1 H2. eapply computes_bind; [eapply (error_current_computes grants tokens _ (λ _ p', error_post p p')); [apply Hp|done]|].
    intros [] p1 (Hle&_&Hf). apply Hfail; [done|done|]. intros j s H. inversion H; congruence. }
  destruct (kind i) eqn:Hk; try (by apply Hother); clear Hother.
  - assert (Hk' : kind (pr_current p) ≠ BEBOP_TOKEN_EOF) by congruence. pose proof (fine_next p Hp Hk') as H1. pose proof Hin as Hin2. unfold inside in Hin2. rewrite <- Ei in Hin2.
    eapply computes_step; [by apply (advance_next tokens)|].
    eapply computes_bind; [apply (consume_after_fine _ p (next p) (∀ j s, ¬ type_at (S levels) i j s)); [done|done|cbn; lia|]|].
    { cbn. rewrite <- Ei. intros Hn j s Ht. inversion Ht; subst; congruence. }
    intros [] p2 H2; cbn [negb]; [|destruct H2 as (?&?&?); by apply Hfail].
    destruct H2 as (Hb&H2&Hc2). cbn in Hb, Hc2. rewrite <- Ei in Hb, Hc2. pose proof (fine_ready _ _ H2) as Hr2.
    eapply computes_bind; [apply (IH p2); [done|right; lia]|]. replace (pr_current p2) with (i + 2) by lia.
    intros [key|] p3 H3; apply (outcome_later _ _ _ _ _ _ H2) in H3; cbn in H3.
    2: { destruct H3 as (?&?&Hno). apply Hfail; [done|done|]. intros j s Ht. inversion Ht; subst; [congruence|]. by eapply Hno. }
    destruct H3 as (H3&kty&k&->&Hks&Hkey). pose proof (fine_ready _ _ H3) as Hr3. pose proof (type_forward _ _ _ _ Hkey).
    eapply computes_step; [reflexivity|]. eapply computes_bind; [by apply (map_key_fine _ _ p3), fine_refl|]. intros passed p4 (H4&Hc4).
    eapply computes_bind; [apply (consume_fine _ p3 p4 (∀ j s, ¬ type_at (S levels) i j s)); [done|done|]|].
    { rewrite Hc4. intros Hn j s Ht. inversion Ht; subst; [congruence|].
      match goal with H : type_at levels (_ + 2) _ _ |- _ => destruct (type_det _ _ _ _ _ _ Hkey _ _ H) as (->&->) end. congruence. }
    intros [] p5 H5; cbn [negb]; [|destruct H5 as (?&?&?); apply Hfail; [by eapply fine_fails|done|done]].
    destruct H5 as (Hcomma&H5&Hc5). rewrite Hc4 in Hcomma, Hc5. pose proof (fine_ready _ _ H5) as Hr5.
    eapply computes_bind; [apply (IH p5); [done|right; lia]|]. rewrite Hc5.
    intros [value|] p6 H6; apply (outcome_later _ _ _ _ _ _ H5) in H6; cbn in H6.
    2: { destruct H6 as (?&?&Hno). apply Hfail; [by eapply fine_fails|done|]. intros j s Ht. inversion Ht; subst; [congruence|].
         match goal with H : type_at levels (_ + 2) _ _ |- _ => destruct (type_det _ _ _ _ _ _ Hkey _ _ H) as (->&->) end. by eapply Hno. }
    destruct H6 as (H6&vty&v&->&Hvs&Hvalue). pose proof (fine_ready _ _ H6) as Hr6. pose proof (type_forward _ _ _ _ Hvalue).
    eapply computes_bind; [apply (consume_after_fine _ p6 p6 (∀ j s, ¬ type_at (S levels) i j s)); [done|by apply fine_refl|lia|]|].
    { intros Hn j s Ht. inversion Ht; subst; [congruence|].
      match goal with H : type_at levels (_ + 2) _ _ |- _ => destruct (type_det _ _ _ _ _ _ Hkey _ _ H) as (->&->) end.
      match goal with H : type_at levels (_ + 1) _ _ |- _ => destruct (type_det _ _ _ _ _ _ Hvalue _ _ H) as (->&->) end. congruence. }
    intros [] p7 H7; cbn [negb]; [|destruct H7 as (?&?&?); apply Hfail; [eapply fine_fails; [done|by eapply fine_fails]|done|done]].
    destruct H7 as (Hclose&H7&Hc7). pose proof (fine_ready _ _ H7) as Hr7.
    eapply computes_step; [apply (previous_eq tokens); [by apply ready_inside|lia]|].
    set (ty := TMap _ _). eapply computes_bind.
    { apply (make_type_fine ty _ (λ t p', ∃ span, t = Some (mkParsed ty span) ∧ fine p6 p' ∧ pr_current p' = pr_current p7)); [done|].
      intros p' ? ?. eexists. split_and!; [done|by eapply fine_trans|done]. }
    intros t p8 (span&->&H8&Hc8). apply computes_ret. rewrite Ei.
    apply (rest_exact levels (pr_current p) p _ (mkParsed ty span) (ShMap k v)).
    + eapply fine_trans; [exact H3|]. by eapply fine_trans.
    + lia.
    + split; [|by eapply le_shape; [exact Hr6|apply H8|]]. eapply (le_shape p3); [exact Hr3| |done]. etrans; [apply H6|apply H8].
    + intros j s'. rewrite <- Ei, Hc8, Hc7. split.
      * intros Ht. inversion Ht; subst; [congruence|].
        match goal with H : type_at levels (_ + 2) _ _ |- _ => destruct (type_det _ _ _ _ _ _ Hkey _ _ H) as (->&->) end.
        match goal with H : type_at levels (_ + 1) _ _ |- _ => destruct (type_det _ _ _ _ _ _ Hvalue _ _ H) as (->&->) end. done.
      * intros Hsuf. by eapply type_map.
  - subst i. eapply computes_weaken; [by apply named_exact|]. intros [t|] p1 H1; cbn in H1.
    + destruct H1 as (H1&ty&s&->&Hs&Hname).
      pose proof (name_forward _ _ _ Hname).
      eapply rest_exact; [done|unfold inside in Hin; lia|done|]. intros j s'. split.
      * intros Ht. inversion Ht; subst; [|congruence]. match goal with H : name_at _ _ _ |- _ => destruct (name_det _ _ _ _ _ _ _ Hname H) as (->&->) end. done.
      * intros Hsuf. by eapply type_named.
    + apply computes_ret. destruct H1 as (?&?&Hno). split_and!; [done..|]. intros j s Ht. inversion Ht; subst; [|congruence]. by eapply Hno.
Qed.
Lemma parse_type_result p :
  ready p →
  computes (bebop__parse_type grants tokens)
    (λ t p', parser_le p p' ∧
       match t with
       | Some ty => pr_panic p' = pr_panic p ∧ pr_fatal p' = pr_fatal p ∧
                    ∃ s, type_at 65 (pr_current p) (pr_current p') s ∧ has_shape (ctx_str (pctx p')) (pt_type ty) s
       | None => failed p' ∧ ∀ j s, ¬ type_at 65 (pr_current p) j s
       end) p.
Proof.
  intros Hp. destruct (type_exact 65 p Hp ltac:(by left)) as (r&p'&E&H). exists (default None r), p'.
  rewrite (parse_type_is_recursive_eq grants tokens p (proj1 Hp)), (C_bind_Some _ _ _ _ _ E). split; [done|]. destruct r as [t|]; cbn in H |- *.
  - destruct H as ((_&?&?&?)&ty&s&->&?&?). split_and!; [done..|by exists s].
  - destruct H as (?&?&?). by split_and!.
Qed.
End Exact.

(** C14: types, exactly.  At any place of a stream whose names and numbers have their texts,
    in a context that refuses nothing, [bebop__parse_type] answers: either with a type,
    and the tokens it consumed are that type in the grammar of the language, at most 64 levels
    deep and the longest one there, with no error flagged; or with null, and then an error is
    flagged and no tokens from there on are a type. *)
Theorem parse_type_exact `{ContextOk} `{!ContextGrants} {dm : DefMap def_ptr} {ns : DefMap (option bebop_span_t)} grants tokens p :
  stream_ends tokens → parser_ok grants tokens p → ctx_ok (rg_ctx (pr_registry p)) → texts_known tokens (rg_ctx (pr_registry p)) →
  let type_at := type_at tokens (ctx_str (rg_ctx (pr_registry p))) 65 (pr_current p) in
  ∃ t p', bebop__parse_type grants tokens p = Some (t, p') ∧
    match t with
    | Some ty => pr_panic p' = pr_panic p ∧ pr_fatal p' = pr_fatal p ∧
                 ∃ s, type_at (pr_current p') s ∧ has_shape (ctx_str (rg_ctx (pr_registry p'))) (pt_type ty) s
    | None => failed p' ∧ ∀ j s, ¬ type_at j s
    end.
Proof.
  intros Hends Hp Hc Ht type_at. destruct (parse_type_result grants tokens _ Hc Ht p) as (t&p'&E&_&H'); [by split|]. by exists t, p'.
Qed.

(** ** A stream *)

Module TypeExample.
(** map[string, a.B[]][3]; *)
Definition pool : list (list Z) := map chars ["string"; "a"; "B"; "3"]%string.
Definition at_ (i : Z) : bebop_span_t := mkSpan i 1 1 i 1 (i + 1).
Definition number_tokens (l : list (bebop_token_kind_t * Z)) : list bebop_token_t :=
  imap (λ i '(k, h), token k (at_ (Z.of_nat i)) h) l.
Definition stream : list bebop_token_t :=
  number_tokens
    [(BEBOP_TOKEN_MAP, 0); (BEBOP_TOKEN_LBRACKET, 0); (BEBOP_TOKEN_IDENTIFIER, 1); (BEBOP_TOKEN_COMMA, 0); (BEBOP_TOKEN_IDENTIFIER, 2);
     (BEBOP_TOKEN_DOT, 0); (BEBOP_TOKEN_IDENTIFIER, 3); (BEBOP_TOKEN_LBRACKET, 0); (BEBOP_TOKEN_RBRACKET, 0); (BEBOP_TOKEN_RBRACKET, 0);
     (BEBOP_TOKEN_LBRACKET, 0); (BEBOP_TOKEN_NUMBER, 4); (BEBOP_TOKEN_RBRACKET, 0); (BEBOP_TOKEN_SEMICOLON, 0); (BEBOP_TOKEN_EOF, 0)].
#[local] Existing Instance list_context.
#[local] Existing Instance list_context_ok.
Definition start : bebop_parser_t := mkParser 0 false false false SemaProps.fresh (mkRegistry (pool : ctx) [] []) BEBOP_PREAMBLE_START.

Definition result : option (bebop_type_t * Z) :=
  option_map (λ r, (type_of r.1, pr_current r.2)) (bebop__parse_type (λ _, true) stream start).
Example parsed_map :
  result = Some (TFixedArray (TMap (TScalar BEBOP_TYPE_STRING) (TArray (TDefined 5 None))) 3, 13).
Proof. vm_compute. reflexivity. Qed.

Lemma stream_ends_here : stream_ends stream.
Proof. split; [done|]. exists (take 14 stream), (token BEBOP_TOKEN_EOF (at_ 14) 0). split; [done|]. split; [done|]. by repeat constructor. Qed.
Lemma type_start_ok : parser_ok (λ _, true) stream start.
Proof. split; [done|exists (mkBody None [] []); apply fresh_ok|done]. Qed.
Lemma list_context_grants : @ContextGrants list_context.
Proof. split; [by eexists| |done]. intros str c. apply list_intern_str. Qed.
Lemma texts : texts_known stream (pool : ctx).
Proof.
  intros i Hi. assert (Hn : ∃ n, i = Z.of_nat n ∧ (n < 15)%nat) by (exists (Z.to_nat i); unfold zlen in Hi; cbn in Hi; lia). destruct Hn as (n&->&Hn).
  do 15 (destruct n as [|n]; [vm_compute; split; [by intros [?|?]|done]|]). lia.
Qed.

Lemma parse_type_exact_witness :
  ∃ t p', bebop__parse_type (λ _, true) stream start = Some (t, p') ∧
    match t with
    | Some ty => pr_panic p' = false ∧ pr_fatal p' = false ∧
                 ∃ s, type_at stream (ctx_str (pool : ctx)) 65 0 (pr_current p') s ∧ has_shape (ctx_str (rg_ctx (pr_registry p'))) (pt_type ty) s
    | None => failed p' ∧ ∀ j s, ¬ type_at stream (ctx_str (pool : ctx)) 65 0 j s
    end.
Proof. apply (@parse_type_exact _ _ list_context_grants _ _ (λ _, true) stream start); [apply stream_ends_here|apply type_start_ok|done|apply texts]. Defined.

Lemma parse_type_is_recursive_witness :
  bebop__parse_type (λ _, true) stream start = (r ← type_spec (λ _, true) stream 65; mret (default None r)) start.
Proof. apply parse_type_is_recursive; [apply stream_ends_here|apply type_start_ok]. Defined.

(** The statements behind this type: from its start the parser goes to the token behind the
    semicolon. *)
Lemma synchronize_resumes_witness :
  (∃ j, bebop__parse_synchronize stream start = Some (tt, set_current j (set_flags false false false start)) ∧
     first_resuming stream (one_of statement_kinds) 1 j) ∧
  bebop__parse_synchronize stream start = Some (tt, set_current 14 start).
Proof.
  split; [|by vm_compute].
  destruct (synchronize_resumes (λ _, true) stream start stream_ends_here type_start_ok) as ((j&E&_&Hj)&_).
  exists j. split; [exact E|]. apply Hj. done.
Defined.

(** An arena that refuses the key of a map: its span is read through the null pointer. *)
Definition refusing_context : Context := {|
  ctx := list (list Z);
  ctx_alloc_n := λ _ _ _ c, (None, c);
  ctx_realloc := λ _ _ _ c, (None, c);
  ctx_intern_n := list_intern;
  ctx_str := list_str;
  ctx_out_of_memory := λ _ c, c;
  ctx_add_diagnostic := λ _ c, c;
  ctx_ended := λ _, false;
  ctx_ok := λ _, True
|}.
Definition refusing_start : @bebop_parser_t refusing_context _ _ :=
  @mkParser refusing_context _ _ 0 false false false SemaProps.fresh (@mkRegistry refusing_context _ pool [] []) BEBOP_PREAMBLE_START.
Example refused_key : @bebop__parse_type refusing_context _ _ (λ _, true) stream refusing_start = None.
Proof. vm_compute. reflexivity. Qed.
End TypeExample.
