(* ===== verification/ParseExpr.v ===== *)
(** The values of enum members ([bebop__parse_expression], [bebop/src/bebop_parser.c], lines
    1346-1588): numbers and members of the same enum under minus, or, and, shift and
    parentheses, evaluated with a stack of frames that have a stack of values and one of
    operators each.

    A value is an [int64_t]. [None] is undefined behaviour: a shift of a negative value, one
    whose result has no 63 bits, and the negation of the least value. *)
From stdpp Require Import list gmap strings.
From S2P Require Import Prelude.
From S2P Require Import Scanner.
From S2P Require Import Schema.
From S2P Require Import Literals.
From S2P Require Import Diagnostics.
From S2P Require Import Sema.
From S2P Require Import Registry.
From S2P Require Import Parser.

Definition bebop__EXPR_STACK_SIZE : Z := 32.

Inductive bebop__op_t : Set := bebop__OP_NONE | bebop__OP_OR | bebop__OP_AND | bebop__OP_SHIFT.
#[export] Instance op_eq : EqDecision bebop__op_t.
Proof. solve_decision. Defined.
(** The value of the enumerator, by which operators are compared. *)
Definition op_rank (op : bebop__op_t) : Z :=
  match op with bebop__OP_NONE => 0 | bebop__OP_OR => 1 | bebop__OP_AND => 2 | bebop__OP_SHIFT => 3 end.

(** [a << b] of an [int64_t] *)
Definition shift_left (a b : Z) : option Z := if (a <? 0) || (2 ^ 63 <=? Z.shiftl a b) then None else Some (Z.shiftl a b).
Definition bebop__parse_apply_op (a b : Z) (op : bebop__op_t) : option Z :=
  match op with
  | bebop__OP_OR => Some (Z.lor a b)
  | bebop__OP_AND => Some (Z.land a b)
  | bebop__OP_SHIFT => if (b <? 0) || (64 <=? b) then Some 0 else shift_left a b
  | bebop__OP_NONE => Some 0
  end.
Definition negated (val : Z) : option Z := if val =? - 2 ^ 63 then None else Some (- val).

(** The members of the enum that is parsed; a null string is equal to itself. *)
Fixpoint bebop__parse_lookup_enum_member (members : list bebop_enum_member_t) (name : Z) : option Z :=
  match members with
  | [] => None
  | m :: members => if bebop_str_eq (em_name m) name then Some (to_signed 64 (em_value m)) else bebop__parse_lookup_enum_member members name
  end.

(** ** Frames *)

(** The tops of the stacks come first. *)
Record bebop__expr_frame_t : Type := mkExprFrame { xf_values : list Z; xf_ops : list bebop__op_t; xf_negate_next : bool }.
Definition empty_frame : bebop__expr_frame_t := mkExprFrame [] [] false.

(** The loops that apply operators from the top as long as [more]; the inner option is an
    operand that is missing. *)
Fixpoint reduce (more : bebop__op_t → bool) (values : list Z) (ops : list bebop__op_t) : option (option (list Z * list bebop__op_t)) :=
  match ops with
  | [] => Some (Some (values, []))
  | op :: rest =>
      if more op then
        match values with
        | b :: a :: values => v ← bebop__parse_apply_op a b op; reduce more (v :: values) rest
        | _ => Some None
        end
      else Some (Some (values, ops))
  end.

Inductive bebop__expr_state_t : Set := EXPR_STATE_OPERAND | EXPR_STATE_OPERATOR.
Record expr_machine : Type := mkExpr {
  xm_state : bebop__expr_state_t;
  xm_frame : bebop__expr_frame_t;
  xm_below : list bebop__expr_frame_t
}.

Section ParseExpr.
Context {cc : Context} {dm : DefMap def_ptr} {ns : DefMap (option bebop_span_t)} (grants : nat → bool).
Context (tokens : list bebop_token_t).
Abbreviation M := (C bebop_parser_t).
Abbreviation PREVIOUS := (BEBOP_PARSE_PREVIOUS tokens).
Abbreviation CHECK := (BEBOP_PARSE_CHECK tokens).
Abbreviation ADVANCE := (BEBOP_PARSE_ADVANCE tokens).
Abbreviation ERROR := (BEBOP_PARSE_ERROR grants tokens).
Abbreviation ERROR_CURRENT := (BEBOP_PARSE_ERROR_CURRENT grants tokens).
Abbreviation CONSUME := (BEBOP_PARSE_CONSUME grants tokens).
Abbreviation MATCH := (BEBOP_PARSE_MATCH tokens).

Definition expr_outcome : Type := expr_machine + Z.
(** Errors return zero. *)
Definition expr_fails (code : Z) : M expr_outcome := ERROR code;; mret (inr 0).

(** A value at the top of a frame's stack. *)
Definition push_value (val : Z) (f : bebop__expr_frame_t) (below : list bebop__expr_frame_t) : M expr_outcome :=
  if bebop__EXPR_STACK_SIZE <=? zlen (xf_values f) then expr_fails BEBOP_DIAG_INVALID_LITERAL
  else mret (inl (mkExpr EXPR_STATE_OPERATOR (mkExprFrame (val :: xf_values f) (xf_ops f) (xf_negate_next f)) below)).

(** A number or the name of a member; none when an error was reported. *)
Definition expr_primary (members : list bebop_enum_member_t) : M (option Z) :=
  number ← CHECK BEBOP_TOKEN_NUMBER;
  if (number : bool) then
    ADVANCE;;
    tok ← PREVIOUS;
    str ← str_get (tk_lexeme tok);
    match str with
    | None => ERROR BEBOP_DIAG_INVALID_NUMBER;; mret None
    | Some str =>
        val ← lift (bebop_util_parse_int str);
        match val with
        | None => ERROR BEBOP_DIAG_INVALID_NUMBER;; mret None
        | Some val => mret (Some val)
        end
    end
  else
    ident ← CHECK BEBOP_TOKEN_IDENTIFIER;
    if (ident : bool) then
      ADVANCE;;
      tok ← PREVIOUS;
      match bebop__parse_lookup_enum_member members (tk_lexeme tok) with
      | None => bebop__parse_error_at grants (tk_span tok) BEBOP_DIAG_INVALID_LITERAL;; mret None
      | Some val => mret (Some val)
      end
    else ERROR_CURRENT BEBOP_DIAG_INVALID_LITERAL;; mret None.

Definition expr_operand (members : list bebop_enum_member_t) (m : expr_machine) : M expr_outcome :=
  let f := xm_frame m in
  minus ← MATCH BEBOP_TOKEN_MINUS;
  let negate := if (minus : bool) then negb (xf_negate_next f) else xf_negate_next f in
  paren ← MATCH BEBOP_TOKEN_LPAREN;
  if (paren : bool) then
    if bebop__EXPR_STACK_SIZE <=? zlen (xm_below m) + 1 then expr_fails BEBOP_DIAG_INVALID_LITERAL
    else mret (inl (mkExpr EXPR_STATE_OPERAND empty_frame (mkExprFrame (xf_values f) (xf_ops f) negate :: xm_below m)))
  else
    val ← expr_primary members;
    match val with
    | None => mret (inr 0)
    | Some val =>
        val ← lift (if negate then negated val else Some val);
        push_value val (mkExprFrame (xf_values f) (xf_ops f) false) (xm_below m)
    end.

(** The operator at the current token. *)
Definition next_op : M bebop__op_t :=
  pipe ← CHECK BEBOP_TOKEN_PIPE;
  if (pipe : bool) then mret bebop__OP_OR
  else
    ampersand ← CHECK BEBOP_TOKEN_AMPERSAND;
    if (ampersand : bool) then mret bebop__OP_AND
    else
      peek_tok ← bebop__parse_peek tokens 1;
      langle ← CHECK BEBOP_TOKEN_LANGLE;
      mret (if langle && match peek_tok with Some t => bool_decide (tk_kind t = BEBOP_TOKEN_LANGLE) | None => false end
            then bebop__OP_SHIFT else bebop__OP_NONE).

(** The value of a frame, for the frame below it or for the caller. *)
Definition close_frame (m : expr_machine) (values : list Z) : M expr_outcome :=
  let result := default 0 (last values) in
  match xm_below m with
  | [] => mret (inr result)
  | f :: below =>
      CONSUME BEBOP_TOKEN_RPAREN;;
      result ← lift (if xf_negate_next f then negated result else Some result);
      push_value result (mkExprFrame (xf_values f) (xf_ops f) false) below
  end.

Definition expr_operator (m : expr_machine) : M expr_outcome :=
  let f := xm_frame m in
  op ← next_op;
  reduced ← lift (reduce (λ top, op_rank op <=? op_rank top) (xf_values f) (xf_ops f));
  match reduced with
  | None => expr_fails BEBOP_DIAG_INVALID_LITERAL
  | Some (values, ops) =>
      if bool_decide (op = bebop__OP_NONE) then close_frame m values
      else if bebop__EXPR_STACK_SIZE <=? zlen ops then expr_fails BEBOP_DIAG_INVALID_LITERAL
      else
        (if bool_decide (op = bebop__OP_SHIFT) then ADVANCE;; ADVANCE else ADVANCE);;
        mret (inl (mkExpr EXPR_STATE_OPERAND (mkExprFrame values (op :: ops) (xf_negate_next f)) (xm_below m)))
  end.

Definition expr_step (members : list bebop_enum_member_t) (m : expr_machine) : M expr_outcome :=
  match xm_state m with EXPR_STATE_OPERAND => expr_operand members m | EXPR_STATE_OPERATOR => expr_operator m end.
Fixpoint expr_run (fuel : nat) (members : list bebop_enum_member_t) (m : expr_machine) : M Z :=
  match fuel with
  | O => ub
  | S fuel => o ← expr_step members m; match o with inl m => expr_run fuel members m | inr v => mret v end
  end.

(** Every token is looked at in at most two rounds, and there are so many frames to close. *)
Definition expr_fuel : nat := 2 * parse_fuel tokens.
Definition bebop__parse_expression (members : list bebop_enum_member_t) : M Z :=
  expr_run expr_fuel members (mkExpr EXPR_STATE_OPERAND empty_frame []).

End ParseExpr.
