(* ===== verification/ParseExprProps.v ===== *)
(** The values of enum members: a grammar of expressions with their values, in which the
    operators bind as in C, and the proof that the machine computes it. *)
From stdpp Require Import list gmap strings.
From S2P Require Import Prelude.
From S2P Require Import Scanner.
From S2P Require Import Schema.
From S2P Require Import Literals.
From S2P Require Import Diagnostics.
From S2P Require Import Sema.
From S2P Require Import SemaProps.
From S2P Require Import Registry.
From S2P Require Import RegistryProps.
From S2P Require Import Parser.
From S2P Require Import ParserProps.
From S2P Require Import ParseExpr.

(** ** Operators *)

(** How tight an operator binds; [bebop__OP_NONE] stands for operands, which bind tightest. *)
Definition level (op : bebop__op_t) : Z := match op with bebop__OP_NONE => 4 | _ => op_rank op end.
Definition tighter (op : bebop__op_t) : bebop__op_t :=
  match op with bebop__OP_OR => bebop__OP_AND | bebop__OP_AND => bebop__OP_SHIFT | _ => bebop__OP_NONE end.
Definition real (op : bebop__op_t) : Prop := op ≠ bebop__OP_NONE.

Lemma level_real op : real op → level op = op_rank op ∧ 1 ≤ op_rank op ≤ 3 ∧ level (tighter op) = level op + 1.
Proof. by destruct op. Qed.
Lemma level_range op : 1 ≤ level op ≤ 4.
Proof. by destruct op. Qed.
Lemma level_inj op op' : level op = level op' → op = op'.
Proof. by destruct op, op'. Qed.

(** ** The grammar *)

Section Grammar.
Context (tokens : list bebop_token_t) (str_get : Z → option (list Z)) (members : list bebop_enum_member_t).
Abbreviation kind := (kind_at tokens).
Abbreviation lexeme i := (tk_lexeme (tok_at tokens i)).

(** The operator's tokens, from [i] up to [j]. *)
Definition op_at (op : bebop__op_t) (i j : Z) : Prop :=
  match op with
  | bebop__OP_OR => kind i = BEBOP_TOKEN_PIPE ∧ j = i + 1
  | bebop__OP_AND => kind i = BEBOP_TOKEN_AMPERSAND ∧ j = i + 1
  | bebop__OP_SHIFT => kind i = BEBOP_TOKEN_LANGLE ∧ kind (i + 1) = BEBOP_TOKEN_LANGLE ∧ j = i + 2
  | bebop__OP_NONE => False
  end.
(** A minus, or none. *)
Definition minus_at (i j : Z) (minus : bool) : Prop :=
  if minus then kind i = BEBOP_TOKEN_MINUS ∧ j = i + 1 else kind i ≠ BEBOP_TOKEN_MINUS ∧ j = i.
Definition with_sign (minus : bool) (v : Z) : option Z := if minus then negated v else Some v.
Definition primary_at (i v : Z) : Prop :=
  (kind i = BEBOP_TOKEN_NUMBER ∧ ∃ s, str_get (lexeme i) = Some s ∧ bebop_util_parse_int s = Some (Some v)) ∨
  (kind i = BEBOP_TOKEN_IDENTIFIER ∧ bebop__parse_lookup_enum_member members (lexeme i) = Some v).

(** What the operators mean, bit by bit and by powers of two. A shift by fewer than 0 or more
    than 63 places gives 0; others have a value when the number is not negative and the result
    is one of 64 bits with a sign. *)
Definition combines (op : bebop__op_t) (a b v : Z) : Prop :=
  match op with
  | bebop__OP_OR => ∀ i, 0 ≤ i → Z.testbit v i = Z.testbit a i || Z.testbit b i
  | bebop__OP_AND => ∀ i, 0 ≤ i → Z.testbit v i = Z.testbit a i && Z.testbit b i
  | bebop__OP_SHIFT => (b < 0 ∨ 63 < b) ∧ v = 0 ∨ 0 ≤ b ≤ 63 ∧ 0 ≤ a ∧ v = a * 2 ^ b ∧ v < 2 ^ 63
  | bebop__OP_NONE => False
  end.
Definition signed (minus : bool) (v w : Z) : Prop := if minus then w = - v ∧ v ≠ - 2 ^ 63 else w = v.
Lemma combines_apply op a b v : real op → combines op a b v ↔ bebop__parse_apply_op a b op = Some v.
Proof.
  destruct op; intros Hr; [done|..]; cbn [combines bebop__parse_apply_op].
  - split; [intros H; f_equal; apply Z.bits_inj'; intros i Hi; by rewrite Z.lor_spec, H|intros [= <-] i _; apply Z.lor_spec].
  - split; [intros H; f_equal; apply Z.bits_inj'; intros i Hi; by rewrite Z.land_spec, H|intros [= <-] i _; apply Z.land_spec].
  - unfold shift_left. destruct (Z.ltb_spec b 0), (Z.leb_spec 64 b); cbn [orb]; try (split; [intros [(_&->)|?]; [done|lia]|intros [= <-]; left; lia]).
    rewrite Z.shiftl_mul_pow2 by lia. destruct (Z.ltb_spec a 0), (Z.leb_spec (2 ^ 63) (a * 2 ^ b)); cbn [orb];
      (split; [intros [?|(?&?&->&?)]; [lia|]; done || lia|intros [= <-]; right; split_and!; done || lia]).
Qed.
Lemma signed_with minus v w : signed minus v w ↔ with_sign minus v = Some w.
Proof.
  destruct minus; cbn; [|split; [by intros ->|by intros [= ->]]]. unfold negated. destruct (Z.eqb_spec v (- 2 ^ 63)) as [->|H].
  - split; [by intros (_&?)|done].
  - split; [by intros (->&_)|by intros [= <-]].
Qed.

(** The tokens from [i] to [j] are an expression of the value [v], with at most [l]
    parentheses inside of each other, whose operators outside of parentheses bind as tight
    as [op] or tighter. *)
Inductive expr_at : nat → bebop__op_t → Z → Z → Z → Prop :=
  | expr_primary_at l i k minus v w :
      minus_at i k minus → primary_at k v → signed minus v w → expr_at l bebop__OP_NONE i (k + 1) w
  | expr_paren_at l i k minus j v w :
      minus_at i k minus → kind k = BEBOP_TOKEN_LPAREN → expr_at l bebop__OP_OR (k + 1) j v → kind j = BEBOP_TOKEN_RPAREN →
      signed minus v w → expr_at (S l) bebop__OP_NONE i (j + 1) w
  | expr_one l op i j v : real op → expr_at l (tighter op) i j v → expr_at l op i j v
  | expr_more l op i m n j a b v :
      real op → expr_at l op i m a → op_at op m n → expr_at l (tighter op) n j b → combines op a b v →
      expr_at l op i j v.

Definition no_op_at (i : Z) : Prop := ∀ op j, ¬ op_at op i j.

Lemma expr_weaken l op op' i j v : level op' ≤ level op → expr_at l op i j v → expr_at l op' i j v.
Proof.
  intros Hle H. assert (Hn : ∃ n : nat, level op = level op' + Z.of_nat n) by (exists (Z.to_nat (level op - level op')); lia). destruct Hn as (n&Hn). revert op' Hle Hn.
  induction n as [|n IH]; intros op' Hle Hn; [replace op' with op by (apply level_inj; lia); done|].
  assert (Hr : real op') by (intros ->; pose proof (level_range op); cbn in *; lia). apply expr_one; [done|].
  pose proof (level_real op' Hr). apply IH; lia.
Qed.
End Grammar.

(** ** The stacks of a frame *)

Section Reduce.
Abbreviation below_level k := (Forall (λ op, op_rank op < k)).

(** The operators of a frame bind tighter towards the top. *)
Inductive ops_ok : list bebop__op_t → Prop :=
  | ops_nil : ops_ok []
  | ops_cons op ops : real op → below_level (op_rank op) ops → ops_ok ops → ops_ok (op :: ops).

Lemma ops_few ops : ops_ok ops → ∀ k, below_level k ops → 0 < k → zlen ops < k.
Proof.
  induction 1 as [|op ops Hr Hb Hok IH]; intros k Hk H0; [done|]. apply Forall_cons in Hk as (Hk&_). rewrite zlen_cons.
  pose proof (level_real op Hr). specialize (IH (op_rank op) Hb ltac:(lia)). lia.
Qed.
Lemma ops_at_most_three ops : ops_ok ops → zlen ops ≤ 3.
Proof. intros H. assert (zlen ops < 4); [|lia]. apply ops_few; [done| |lia]. clear H. induction ops as [|[] ops IH]; constructor; done || lia. Qed.

Lemma below_weaken k k' ops : k ≤ k' → below_level k ops → below_level k' ops.
Proof. intros Hk H. eapply Forall_impl; [exact H|]. cbn. lia. Qed.

Lemma reduce_stops k vs ops : below_level k ops → reduce (λ top, k <=? op_rank top) vs ops = Some (Some (vs, ops)).
Proof. intros H. destruct ops as [|op ops]; [done|]. apply Forall_cons in H as (H&_). cbn. by destruct (Z.leb_spec k (op_rank op)); [lia|]. Qed.
Lemma reduce_further k k' vs ops vs' ops' : k' ≤ k →
  reduce (λ top, k <=? op_rank top) vs ops = Some (Some (vs', ops')) →
  reduce (λ top, k' <=? op_rank top) vs ops = reduce (λ top, k' <=? op_rank top) vs' ops'.
Proof.
  intros Hk. revert vs. induction ops as [|op ops IH]; intros vs; cbn; [by intros [= -> <-]|].
  destruct (Z.leb_spec k (op_rank op)); [|by intros [= -> <-]].
  destruct (Z.leb_spec k' (op_rank op)); [|lia]. destruct vs as [|b [|a vs]]; [done..|]. destruct (bebop__parse_apply_op a b op); [|done]. apply IH.
Qed.
End Reduce.

(** ** Steps *)

Section ParseExprProps.
Context {cc : Context} {Hcc : ContextOk} {dm : DefMap def_ptr} {ns : DefMap (option bebop_span_t)} (grants : nat → bool).
Context (tokens : list bebop_token_t) {Hends : stream_ends tokens} (members : list bebop_enum_member_t).
Abbreviation M := (C bebop_parser_t).
Abbreviation kind := (kind_at tokens).
Abbreviation parser_ok := (parser_ok grants tokens).
Abbreviation parser_le := (parser_le grants tokens).

(** Panic mode is not left. *)
Definition keeps (p p' : bebop_parser_t) : Prop := parser_ok p' ∧ parser_le p p' ∧ (failed p → failed p').
Lemma keeps_trans p1 p2 p3 : keeps p1 p2 → keeps p2 p3 → keeps p1 p3.
Proof. intros (?&?&?) (?&?&?). split_and!; [done|by etrans|auto]. Qed.
Lemma keeps_refl p : parser_ok p → keeps p p.
Proof. intros Hp. by split_and!. Qed.
Lemma keeps_next p : parser_ok p → kind (pr_current p) ≠ BEBOP_TOKEN_EOF → keeps p (next p).
Proof. intros Hp Hk. split_and!; [by apply (next_ok grants tokens)|by apply (next_le grants tokens)|done]. Qed.
Lemma keeps_error p p' : parser_ok p → error_post grants tokens p p' → keeps p p'.
Proof. intros Hp (Hle&_&Hf). split_and!; [by apply (pl_ok _ _ _ _ Hle)|done|done]. Qed.

Lemma error_ensures code p : parser_ok p →
  ensures (BEBOP_PARSE_ERROR grants tokens code) (λ _ p', keeps p p' ∧ pr_current p' = pr_current p ∧ failed p') p.
Proof.
  intros Hp. destruct (decide (0 < pr_current p)) as [Hc|Hc].
  - apply computes_ensures, (error_computes grants tokens); [done|done|]. intros p' H. split; [by apply keeps_error|]. by destruct H as (_&?&?).
  - intros [] p' E. unfold BEBOP_PARSE_ERROR, BEBOP_PARSE_PREVIOUS, mbind, C_bind, gets, token_at in E. destruct (Z.ltb_spec (pr_current p - 1) 0); [done|lia].
Qed.

(** ** Every step goes down *)

Definition expr_measure (m : expr_machine) (p : bebop_parser_t) : Z := 2 * (zlen tokens - pr_current p) + zlen (xm_below m).
Definition expr_down (m : expr_machine) (p : bebop_parser_t) (o : expr_outcome) (p' : bebop_parser_t) : Prop :=
  keeps p p' ∧ match o with inl m' => expr_measure m' p' < expr_measure m p | inr _ => True end.

Lemma fails_ensures code m p p' : keeps p p' → ensures (expr_fails grants tokens code) (expr_down m p) p'.
Proof.
  intros Hk. eapply ensures_bind; [exact (error_ensures _ _ (proj1 Hk))|]. intros [] q (Hq&_&_). apply ensures_ret. split; [by eapply keeps_trans|done].
Qed.
Lemma push_value_ensures v f below m p p' : keeps p p' → 2 * (zlen tokens - pr_current p') + zlen below < expr_measure m p →
  ensures (push_value grants tokens v f below) (expr_down m p) p'.
Proof. intros Hk Hm. unfold push_value. destruct (_ <=? _); [by apply fails_ensures|]. by apply ensures_ret. Qed.

Lemma primary_ensures p : parser_ok p →
  ensures (expr_primary grants tokens members) (λ r p', keeps p p' ∧ match r with Some _ => pr_current p < pr_current p' | None => True end) p.
Proof.
  intros Hp. unfold expr_primary. pose proof (pk_inside _ _ _ Hp) as Hin.
  assert (Herr : ∀ code q, keeps p q → ensures (BEBOP_PARSE_ERROR grants tokens code;; mret (None : option Z))
    (λ r p', keeps p p' ∧ match r with Some _ => pr_current p < pr_current p' | None => True end) q).
  { intros code q Hq. eapply ensures_bind; [exact (error_ensures _ _ (proj1 Hq))|]. intros [] q' (Hq'&_&_). apply ensures_ret. split; [by eapply keeps_trans|done]. }
  eapply ensures_step; [by apply (check_eq tokens)|]. case_bool_decide as Hn.
  - assert (Hk : kind (pr_current p) ≠ BEBOP_TOKEN_EOF) by congruence. pose proof (keeps_next p Hp Hk) as H1. pose proof (proj1 H1) as Hok1.
    eapply ensures_step; [by apply (advance_next tokens)|]. eapply ensures_step; [apply (previous_eq tokens); [apply Hok1|unfold inside in Hin; cbn; lia]|].
    eapply ensures_step; [reflexivity|]. destruct (ctx_str _ _) as [str|]; [|by apply Herr]. apply ensures_lift. intros [val|] _; [|by apply Herr].
    apply ensures_ret. split; [done|cbn; lia].
  - eapply ensures_step; [by apply (check_eq tokens)|]. case_bool_decide as Hi.
    + assert (Hk : kind (pr_current p) ≠ BEBOP_TOKEN_EOF) by congruence. pose proof (keeps_next p Hp Hk) as H1. pose proof (proj1 H1) as Hok1.
      eapply ensures_step; [by apply (advance_next tokens)|]. eapply ensures_step; [apply (previous_eq tokens); [apply Hok1|unfold inside in Hin; cbn; lia]|].
      destruct (bebop__parse_lookup_enum_member _ _) as [val|]; [apply ensures_ret; split; [done|cbn; lia]|].
      eapply ensures_bind; [eapply computes_ensures, (error_at_computes grants tokens _ _ (λ _ q, keeps p q)); [done|]|].
      { intros q Hq. eapply keeps_trans; [exact H1|]. by apply keeps_error. }
      intros [] q Hq. by apply ensures_ret.
    + eapply ensures_bind; [eapply computes_ensures, (error_current_computes grants tokens _ (λ _ q, keeps p q)); [done|]|].
      { intros q Hq. by apply keeps_error. }
      intros [] q Hq. by apply ensures_ret.
Qed.

Lemma match_ensures k p : k ≠ BEBOP_TOKEN_EOF → parser_ok p →
  ensures (BEBOP_PARSE_MATCH tokens k) (λ b p', keeps p p' ∧ pr_current p' = pr_current p + (if (b : bool) then 1 else 0)) p.
Proof.
  intros Hk Hp. apply computes_ensures, (match_computes grants tokens); [done|done| |].
  - intros E _. split; [by apply keeps_next; [|congruence]|done].
  - intros _. split; [by apply keeps_refl|lia].
Qed.

Lemma operand_ensures m p : parser_ok p → ensures (expr_operand grants tokens members m) (expr_down m p) p.
Proof.
  intros Hp. unfold expr_operand. eapply ensures_bind; [by apply match_ensures|]. intros minus p1 (H1&Hc1).
  eapply ensures_bind; [apply match_ensures; [done|exact (proj1 H1)]|]. intros paren p2 (H2&Hc2). pose proof (keeps_trans _ _ _ H1 H2) as H02. destruct paren.
  - destruct (_ <=? _); [by apply fails_ensures|]. apply ensures_ret. split; [done|]. unfold expr_measure. cbn [xm_below]. rewrite zlen_cons. destruct minus; lia.
  - eapply ensures_bind; [exact (primary_ensures _ (proj1 H2))|]. intros [val|] p3 (H3&Hc3); [|apply ensures_ret; split; [by eapply keeps_trans|done]].
    apply ensures_lift. intros v _. apply push_value_ensures; [by eapply keeps_trans|]. unfold expr_measure. destruct minus; lia.
Qed.
(** The operator at a place. *)
Definition op_here (i : Z) : bebop__op_t :=
  if bool_decide (kind i = BEBOP_TOKEN_PIPE) then bebop__OP_OR
  else if bool_decide (kind i = BEBOP_TOKEN_AMPERSAND) then bebop__OP_AND
  else if bool_decide (kind i = BEBOP_TOKEN_LANGLE ∧ kind (i + 1) = BEBOP_TOKEN_LANGLE) then bebop__OP_SHIFT
  else bebop__OP_NONE.

Lemma next_op_eq p : inside tokens p → next_op tokens p = Some (op_here (pr_current p), p).
Proof.
  intros Hin. unfold next_op, op_here. rewrite (C_bind_Some _ _ _ _ _ (check_eq tokens _ p Hin)). case_bool_decide as H1; [done|].
  rewrite (C_bind_Some _ _ _ _ _ (check_eq tokens _ p Hin)). case_bool_decide as H2; [done|].
  assert (Hpeek : ∃ t, bebop__parse_peek tokens 1 p = Some (Some t, p) ∧ (kind (pr_current p) = BEBOP_TOKEN_LANGLE → t = tok_at tokens (pr_current p + 1))).
  { unfold bebop__parse_peek. unfold inside in Hin. destruct (Z.eqb_spec (zlen tokens) 0); [lia|]. unfold mbind, C_bind, gets.
    pose proof (proj1 Hends) as Hlen. set (idx := if _ <? _ then _ else _).
    assert (Hidx : 0 ≤ idx < zlen tokens) by (unfold idx; destruct (_ <? _); [lia|]; destruct (Z.leb_spec (zlen tokens) (pr_current p + 1)); lia).
    rewrite (token_at_inside tokens idx p Hidx). eexists. split; [reflexivity|]. intros Hl.
    pose proof (not_last tokens p Hin ltac:(congruence)). unfold idx. unfold UINT32_MAX. destruct (Z.ltb_spec (2 ^ 32 - 1 - pr_current p) 1); [lia|].
    by destruct (Z.leb_spec (zlen tokens) (pr_current p + 1)); [lia|]. }
  destruct Hpeek as (t&Ep&Ht). rewrite (C_bind_Some _ _ _ _ _ Ep), (C_bind_Some _ _ _ _ _ (check_eq tokens _ p Hin)).
  unfold mret, C_ret. do 2 f_equal. destruct (decide (kind (pr_current p) = BEBOP_TOKEN_LANGLE)) as [Hl|Hl].
  - rewrite (bool_decide_true (_ = _)) by done. cbn [andb]. rewrite (Ht Hl). fold (kind (pr_current p + 1)). by repeat case_bool_decide; try tauto.
  - rewrite (bool_decide_false (_ = _)) by done. cbn [andb]. rewrite bool_decide_false; [done|tauto].
Qed.

Lemma op_here_at i : match op_here i with bebop__OP_NONE => no_op_at tokens i | op => ∃ j, op_at tokens op i j end.
Proof.
  unfold op_here, no_op_at. repeat case_bool_decide; [by eexists|by eexists|naive_solver|]. intros [] j; cbn; tauto.
Qed.
Lemma op_at_here op i j : op_at tokens op i j → op_here i = op.
Proof. unfold op_here. destruct op; cbn; intros H; try done; repeat case_bool_decide; naive_solver congruence. Qed.

(** Past an operator. *)
Lemma op_advance op j p : inside tokens p → op_at tokens op (pr_current p) j →
  (if bool_decide (op = bebop__OP_SHIFT) then BEBOP_PARSE_ADVANCE tokens;; BEBOP_PARSE_ADVANCE tokens else BEBOP_PARSE_ADVANCE tokens) p
    = Some (tt, set_current j p) ∧ pr_current p < j < zlen tokens.
Proof.
  intros Hin Hop. assert (Hk : kind (pr_current p) ≠ BEBOP_TOKEN_EOF) by (destruct op; cbn in Hop; [done|by destruct Hop as (->&_)..]).
  pose proof (not_last tokens p Hin Hk) as Hl. unfold inside in Hin. case_bool_decide as Hs.
  - subst op. destruct Hop as (_&E2&->). rewrite (C_bind_Some _ _ _ _ _ (advance_next tokens p Hin Hk)).
    assert (Hin2 : inside tokens (next p)) by (unfold inside; cbn; lia). assert (Hk2 : kind (pr_current (next p)) ≠ BEBOP_TOKEN_EOF) by (cbn; congruence).
    pose proof (not_last tokens (next p) Hin2 Hk2) as Hl2. cbn in Hl2. rewrite (advance_next tokens _ Hin2 Hk2).
    split; [|lia]. by replace (pr_current p + 2) with (pr_current p + 1 + 1) by lia.
  - rewrite (advance_next tokens p Hin Hk). destruct op; cbn in Hop; try done; destruct Hop as (_&->); (split; [done|lia]).
Qed.

Lemma operator_ensures m p : parser_ok p → ensures (expr_operator grants tokens m) (expr_down m p) p.
Proof.
  intros Hp. pose proof (pk_inside _ _ _ Hp) as Hin. unfold expr_operator. eapply ensures_step; [by apply next_op_eq|].
  apply ensures_lift. intros [[values ops]|] _; [|by apply fails_ensures, keeps_refl]. case_bool_decide as Hnone.
  - unfold close_frame. destruct (xm_below m) as [|f below] eqn:Eb; [by apply ensures_ret; split; [apply keeps_refl|]|].
    eapply ensures_bind.
    { eapply computes_ensures, (consume_computes grants tokens _ (λ _ q, keeps p q ∧ pr_current p ≤ pr_current q)); [done|done| |].
      - intros E _. split; [apply keeps_next; [done|congruence]|cbn; lia].
      - intros q _ H. split; [by apply keeps_error|]. destruct H as (_&->&_). lia. }
    intros _ q (Hq&Hc). apply ensures_lift. intros v _. apply push_value_ensures; [done|]. unfold expr_measure. rewrite Eb, zlen_cons. lia.
  - destruct (_ <=? _); [by apply fails_ensures, keeps_refl|]. pose proof (op_here_at (pr_current p)) as Hop.
    assert (Hj : ∃ j, op_at tokens (op_here (pr_current p)) (pr_current p) j) by (destruct (op_here (pr_current p)); done).
    destruct Hj as (j&Hj). destruct (op_advance _ _ _ Hin Hj) as (Ea&Hr). eapply ensures_step; [exact Ea|]. apply ensures_ret. split.
    + assert (Hle : parser_le p (set_current j p)) by (apply (set_current_le grants tokens); lia). split_and!; [by apply (pl_ok _ _ _ _ Hle)|done|done].
    + unfold expr_measure. cbn. lia.
Qed.

Lemma step_ensures m p : parser_ok p → ensures (expr_step grants tokens members m) (expr_down m p) p.
Proof. intros Hp. unfold expr_step. destruct (xm_state m); [by apply operand_ensures|by apply operator_ensures]. Qed.

Abbreviation run := (λ fuel, expr_run grants tokens fuel members).

Lemma expr_run_enough fuel : ∀ m p k, parser_ok p → expr_measure m p < Z.of_nat fuel → run (fuel + k)%nat m p = run fuel m p.
Proof.
  induction fuel as [|fuel IH]; intros m p k Hp Hf.
  { pose proof (pk_inside _ _ _ Hp) as Hin. unfold inside in Hin. unfold expr_measure in Hf. pose proof (zlen_nonneg (xm_below m)). lia. }
  cbn [Nat.add expr_run]. unfold mbind, C_bind. destruct (expr_step grants tokens members m p) as [[[m'|v] p']|] eqn:E; [|done|done].
  destruct (step_ensures m p Hp _ _ E) as (Hk&Hm). apply IH; [exact (proj1 Hk)|lia].
Qed.
(** ** Every expression is computed *)

Definition leads (m : expr_machine) (p : bebop_parser_t) (m' : expr_machine) (p' : bebop_parser_t) : Prop :=
  ∃ k, ∀ f, run (k + f)%nat m p = run f m' p'.
Lemma expr_leads_refl m p : leads m p m p.
Proof. by exists 0%nat. Qed.
Lemma expr_leads_trans m1 p1 m2 p2 m3 p3 : leads m1 p1 m2 p2 → leads m2 p2 m3 p3 → leads m1 p1 m3 p3.
Proof. intros (k&Hk) (l&Hl). exists (k + l)%nat. intros f. by rewrite <- Nat.add_assoc, Hk. Qed.
Lemma expr_leads_step m p m' p' : expr_step grants tokens members m p = Some (inl m', p') → leads m p m' p'.
Proof. intros E. exists 1%nat. intros f. cbn [Nat.add expr_run]. by rewrite (C_bind_Some _ _ _ _ _ E). Qed.

Section From.
Context (p0 : bebop_parser_t) (Hp0 : parser_ok p0).
Abbreviation at_ i := (set_current i p0).
Abbreviation expr_at := (expr_at tokens (ctx_str (rg_ctx (pr_registry p0))) members).
Abbreviation primary_at := (primary_at tokens (ctx_str (rg_ctx (pr_registry p0))) members).
Abbreviation minus_at := (minus_at tokens).

Lemma at_inside i : 0 ≤ i < zlen tokens → inside tokens (at_ i).
Proof. done. Qed.
Lemma kind_further i : 0 ≤ i < zlen tokens → kind i ≠ BEBOP_TOKEN_EOF → 0 ≤ i + 1 < zlen tokens.
Proof. intros Hi Hk. pose proof (not_last tokens (at_ i) Hi Hk). cbn in *. lia. Qed.
Lemma at_advance i : 0 ≤ i < zlen tokens → kind i ≠ BEBOP_TOKEN_EOF → BEBOP_PARSE_ADVANCE tokens (at_ i) = Some (tt, at_ (i + 1)).
Proof. intros Hi Hk. exact (advance_next tokens (at_ i) Hi Hk). Qed.
Lemma at_match k i : k ≠ BEBOP_TOKEN_EOF → 0 ≤ i < zlen tokens →
  BEBOP_PARSE_MATCH tokens k (at_ i) = Some (if bool_decide (kind i = k) then (true, at_ (i + 1)) else (false, at_ i)).
Proof. intros Hk Hi. exact (match_eq tokens k (at_ i) Hk Hi). Qed.

Lemma primary_eq k v : 0 ≤ k < zlen tokens → primary_at k v →
  expr_primary grants tokens members (at_ k) = Some (Some v, at_ (k + 1)) ∧ 0 ≤ k + 1 < zlen tokens ∧ kind k ≠ BEBOP_TOKEN_LPAREN.
Proof.
  intros Hk Hv. assert (Hne : kind k ≠ BEBOP_TOKEN_EOF) by (destruct Hv as [(?&_)|(?&_)]; congruence). pose proof (kind_further k Hk Hne) as Hk1.
  assert (Hprev : BEBOP_PARSE_PREVIOUS tokens (at_ (k + 1)) = Some (tok_at tokens k, at_ (k + 1))).
  { rewrite (previous_eq tokens (at_ (k + 1)) Hk1 ltac:(cbn; lia)). cbn [pr_current set_current]. by replace (k + 1 - 1) with k by lia. }
  split_and!; [|lia|lia|destruct Hv as [(?&_)|(?&_)]; congruence].
  unfold expr_primary. rewrite (C_bind_Some _ _ _ _ _ (check_eq tokens _ _ (at_inside k Hk))). cbn [pr_current set_current].
  destruct Hv as [(Hn&str&Es&Ev)|(Hn&Ev)].
  - rewrite bool_decide_true by done. rewrite (C_bind_Some _ _ _ _ _ (at_advance k Hk Hne)), (C_bind_Some _ _ _ _ _ Hprev).
    erewrite (C_bind_Some (str_get _)) by reflexivity. cbn [pr_registry set_current]. rewrite Es. by rewrite (C_lift_bind _ _ _ _ Ev).
  - rewrite bool_decide_false by congruence. rewrite (C_bind_Some _ _ _ _ _ (check_eq tokens _ _ (at_inside k Hk))). cbn [pr_current set_current].
    rewrite bool_decide_true by done. rewrite (C_bind_Some _ _ _ _ _ (at_advance k Hk Hne)), (C_bind_Some _ _ _ _ _ Hprev). by rewrite Ev.
Qed.

(** An operand behind its sign. *)
Definition signed_operand (minus : bool) (vs : list Z) (os : list bebop__op_t) (below : list bebop__expr_frame_t) : M expr_outcome :=
  paren ← BEBOP_PARSE_MATCH tokens BEBOP_TOKEN_LPAREN;
  if (paren : bool) then
    if bebop__EXPR_STACK_SIZE <=? zlen below + 1 then expr_fails grants tokens BEBOP_DIAG_INVALID_LITERAL
    else mret (inl (mkExpr EXPR_STATE_OPERAND empty_frame (mkExprFrame vs os minus :: below)))
  else
    val ← expr_primary grants tokens members;
    match val with
    | None => mret (inr 0)
    | Some val => val ← lift (with_sign minus val); push_value grants tokens val (mkExprFrame vs os false) below
    end.
Lemma operand_sign i k minus vs os below : 0 ≤ i < zlen tokens → minus_at i k minus →
  0 ≤ k < zlen tokens ∧
  expr_operand grants tokens members (mkExpr EXPR_STATE_OPERAND (mkExprFrame vs os false) below) (at_ i) = signed_operand minus vs os below (at_ k).
Proof.
  intros Hi Hm. unfold expr_operand. pose proof (at_match BEBOP_TOKEN_MINUS i ltac:(done) Hi) as Em. destruct minus; destruct Hm as (Hk&->).
  - split; [apply kind_further; [done|congruence]|]. rewrite bool_decide_true in Em by done. by rewrite (C_bind_Some _ _ _ _ _ Em).
  - split; [done|]. rewrite bool_decide_false in Em by done. by rewrite (C_bind_Some _ _ _ _ _ Em).
Qed.

Lemma push_value_eq v vs os below p : ops_ok os → length vs = length os →
  push_value grants tokens v (mkExprFrame vs os false) below p = Some (inl (mkExpr EXPR_STATE_OPERATOR (mkExprFrame (v :: vs) os false) below), p).
Proof.
  intros Hos Hlen. pose proof (ops_at_most_three os Hos). unfold push_value. cbn [xf_values xf_ops].
  destruct (Z.leb_spec bebop__EXPR_STACK_SIZE (zlen vs)); [unfold bebop__EXPR_STACK_SIZE, zlen in *; lia|done].
Qed.

(** From an operand to the operator behind it: there the frame's value is [v] once the
    operators as tight as [op] are applied. *)
Definition evaluates (op : bebop__op_t) (i j v : Z) (vs : list Z) (os : list bebop__op_t) (below : list bebop__expr_frame_t) : Prop :=
  ∃ vs' os', leads (mkExpr EXPR_STATE_OPERAND (mkExprFrame vs os false) below) (at_ i) (mkExpr EXPR_STATE_OPERATOR (mkExprFrame vs' os' false) below) (at_ j) ∧
    0 ≤ j < zlen tokens ∧ ops_ok os' ∧ length vs' = S (length os') ∧
    reduce (λ top, level op <=? op_rank top) vs' os' = Some (Some (v :: vs, os)).

Lemma all_below_operand os : Forall (λ op, op_rank op < 4) os.
Proof. induction os as [|[] os IH]; constructor; done || (cbn; lia). Qed.

Lemma evaluates_primary i k minus v w vs os below :
  0 ≤ i < zlen tokens → minus_at i k minus → primary_at k v → with_sign minus v = Some w → ops_ok os → length vs = length os →
  evaluates bebop__OP_NONE i (k + 1) w vs os below.
Proof.
  intros Hi Hm Hv Hw Hos Hlen. destruct (operand_sign i k minus vs os below Hi Hm) as (Hk&E). destruct (primary_eq k v Hk Hv) as (Ep&Hk1&Hnp).
  exists (w :: vs), os. split_and!; [|lia|lia|done|cbn; lia|apply reduce_stops, all_below_operand].
  apply expr_leads_step. cbn [expr_step xm_state]. rewrite E. unfold signed_operand. pose proof (at_match BEBOP_TOKEN_LPAREN k ltac:(done) Hk) as Em. rewrite bool_decide_false in Em by done.
  rewrite (C_bind_Some _ _ _ _ _ Em), (C_bind_Some _ _ _ _ _ Ep), (C_lift_bind _ _ _ _ Hw). by apply push_value_eq.
Qed.

(** A frame at the operator behind its value [v], applied entirely: what closing it does. *)
Lemma close_inner minus j v w vs os vs' os' below :
  0 ≤ j < zlen tokens → kind j = BEBOP_TOKEN_RPAREN → with_sign minus v = Some w → ops_ok os → length vs = length os → ops_ok os' →
  reduce (λ top, level bebop__OP_OR <=? op_rank top) vs' os' = Some (Some ([v], [])) →
  leads (mkExpr EXPR_STATE_OPERATOR (mkExprFrame vs' os' false) (mkExprFrame vs os minus :: below)) (at_ j)
    (mkExpr EXPR_STATE_OPERATOR (mkExprFrame (w :: vs) os false) below) (at_ (j + 1)).
Proof.
  intros Hj Hk Hw Hos Hlen Hos' Hr. apply expr_leads_step. cbn [expr_step xm_state]. unfold expr_operator. cbn [xm_frame xf_values xf_ops].
  rewrite (C_bind_Some _ _ _ _ _ (next_op_eq (at_ j) Hj)). cbn [pr_current set_current].
  assert (Hop : op_here j = bebop__OP_NONE) by (unfold op_here; rewrite Hk; done). rewrite Hop.
  rewrite (reduce_further (level bebop__OP_OR) (op_rank bebop__OP_NONE) _ _ _ _ ltac:(done) Hr), reduce_stops by constructor.
  erewrite C_lift_bind by reflexivity. cbn beta iota. rewrite bool_decide_true by done. unfold close_frame. cbn [xm_below last default from_option].
  assert (Hne : kind j ≠ BEBOP_TOKEN_EOF) by congruence.
  assert (Ec : BEBOP_PARSE_CONSUME grants tokens BEBOP_TOKEN_RPAREN (at_ j) = Some (true, at_ (j + 1))).
  { unfold BEBOP_PARSE_CONSUME. rewrite (C_bind_Some _ _ _ _ _ (check_eq tokens _ _ (at_inside j Hj))). cbn [pr_current set_current].
    rewrite bool_decide_true by done. by rewrite (C_bind_Some _ _ _ _ _ (at_advance j Hj Hne)). }
  rewrite (C_bind_Some _ _ _ _ _ Ec). cbn [xf_negate_next id]. fold (with_sign minus v). rewrite (C_lift_bind _ _ _ _ Hw). by apply push_value_eq.
Qed.

Lemma expr_evaluates l op i j v : expr_at l op i j v → ∀ vs os below,
  0 ≤ i < zlen tokens → zlen below + Z.of_nat l < bebop__EXPR_STACK_SIZE → ops_ok os → length vs = length os →
  Forall (λ o, op_rank o < level op) os → evaluates op i j v vs os below.
Proof.
  induction 1 as [l i k minus v w Hm Hv Hw|l i k minus j v w Hm Hk _ IH Hr Hw|l op i j v Hreal _ IH|l op i m n j a b v Hreal _ IHa Hop _ IHb Hv];
    intros vs os below Hi Hb Hos Hlen Hlow.
  - apply signed_with in Hw. by eapply evaluates_primary.
  - apply signed_with in Hw. destruct (operand_sign i k minus vs os below Hi Hm) as (Hki&E). assert (Hne : kind k ≠ BEBOP_TOKEN_EOF) by congruence.
    destruct (IH [] [] (mkExprFrame vs os minus :: below)) as (vs'&os'&Hl&Hj&Hos'&Hlen'&Hred); [by apply kind_further|rewrite zlen_cons; lia|constructor|done|constructor|].
    exists (w :: vs), os. split_and!; [|by apply kind_further; [|congruence]..|done|cbn; lia|apply reduce_stops, all_below_operand].
    eapply expr_leads_trans; [|eapply expr_leads_trans; [exact Hl|by eapply close_inner]]. apply expr_leads_step. cbn [expr_step xm_state]. rewrite E. unfold signed_operand.
    pose proof (at_match BEBOP_TOKEN_LPAREN k ltac:(done) Hki) as Em. rewrite bool_decide_true in Em by done. rewrite (C_bind_Some _ _ _ _ _ Em).
    destruct (Z.leb_spec bebop__EXPR_STACK_SIZE (zlen below + 1)); [lia|done].
  - destruct (level_real op Hreal) as (_&_&Hlev). destruct (IH vs os below) as (vs'&os'&Hl&Hj&Hos'&Hlen'&Hred); [done..|eapply below_weaken; [|exact Hlow]; lia|].
    exists vs', os'. split_and!; [done|lia|lia|done|done|]. rewrite (reduce_further (level (tighter op)) (level op) _ _ _ _ ltac:(lia) Hred). by apply reduce_stops.
  - apply combines_apply in Hv; [|done]. destruct (level_real op Hreal) as (Hlr&Hrange&Hlev). destruct (IHa vs os below) as (vs1&os1&Hl1&Hm&Hos1&Hlen1&Hred1); [done..|].
    destruct (op_advance op n (at_ m) Hm Hop) as (Ea&Hn). cbn [pr_current set_current] in Ea, Hn.
    assert (Hos2 : ops_ok (op :: os)) by (constructor; [done|by rewrite <- Hlr|done]).
    destruct (IHb (a :: vs) (op :: os) below) as (vs2&os2&Hl2&Hj&Hok2&Hlen2&Hred2); [lia|done|done|cbn; lia| |].
    { constructor; [lia|]. eapply below_weaken; [|exact Hlow]. lia. }
    exists vs2, os2. split_and!; [|lia|lia|done|done|].
    + eapply expr_leads_trans; [exact Hl1|]. eapply expr_leads_trans; [|exact Hl2]. apply expr_leads_step. cbn [expr_step xm_state]. unfold expr_operator. cbn [xm_frame xf_values xf_ops].
      rewrite (C_bind_Some _ _ _ _ _ (next_op_eq (at_ m) Hm)). cbn [pr_current set_current]. rewrite (op_at_here op m n Hop), <- Hlr.
      erewrite C_lift_bind by exact Hred1. cbn beta iota. rewrite bool_decide_false by done. pose proof (ops_at_most_three os Hos).
      destruct (Z.leb_spec bebop__EXPR_STACK_SIZE (zlen os)); [unfold bebop__EXPR_STACK_SIZE in *; lia|]. by rewrite (C_bind_Some _ _ _ _ _ Ea).
    + rewrite (reduce_further (level (tighter op)) (level op) _ _ _ _ ltac:(lia) Hred2). cbn [reduce]. rewrite Hlr. destruct (Z.leb_spec (op_rank op) (op_rank op)); [|lia].
      rewrite Hv. cbn [mbind option_bind]. rewrite <- Hlr. by apply reduce_stops.
Qed.
(** ** Every value is that of an expression *)

(** The stacks of a frame that starts at [s], before an operand at [i]: values of expressions
    with the operators behind them, which bind tighter towards the top. *)
Inductive pending (l : nat) (s : Z) : list Z → list bebop__op_t → Z → Prop :=
  | pending_start : pending l s [] [] s
  | pending_op vs os i op m n a :
      pending l s vs os i → real op → Forall (λ o, op_rank o < op_rank op) os → expr_at l op i m a → op_at tokens op m n →
      pending l s (a :: vs) (op :: os) n.
(** The frames below one that starts at [s] and has [l] levels left: each is before a
    parenthesis. *)
Inductive frames_at (l0 : nat) (s0 : Z) : nat → list bebop__expr_frame_t → Z → Prop :=
  | frames_none : frames_at l0 s0 l0 [] s0
  | frames_paren l s below vs os i k minus :
      frames_at l0 s0 (S l) below s → pending (S l) s vs os i → minus_at i k minus → kind k = BEBOP_TOKEN_LPAREN →
      frames_at l0 s0 l (mkExprFrame vs os minus :: below) (k + 1).
Definition machine_at (l0 : nat) (s0 : Z) (m : expr_machine) (i : Z) : Prop :=
  ∃ l s, frames_at l0 s0 l (xm_below m) s ∧ xf_negate_next (xm_frame m) = false ∧
    match xm_state m with
    | EXPR_STATE_OPERAND => pending l s (xf_values (xm_frame m)) (xf_ops (xm_frame m)) i
    | EXPR_STATE_OPERATOR =>
        ∃ i0 v vs, xf_values (xm_frame m) = v :: vs ∧ pending l s vs (xf_ops (xm_frame m)) i0 ∧ expr_at l bebop__OP_NONE i0 i v
    end.

Lemma pending_ops l s vs os i : pending l s vs os i → ops_ok os ∧ length vs = length os.
Proof. induction 1 as [|vs os i op m n a _ (Hos&Hlen)]; [by split; [constructor|]|]. split; [by constructor|cbn; lia]. Qed.
Lemma frames_levels l0 s0 l below s : frames_at l0 s0 l below s → zlen below + Z.of_nat l = Z.of_nat l0.
Proof. induction 1; [done|]. rewrite zlen_cons. lia. Qed.

Lemma reduce_sound r l s os : ∀ vs i0 lev i v out,
  pending l s vs os i0 → Forall (λ o, op_rank o < level lev) os → expr_at l lev i0 i v → r ≤ level lev →
  reduce (λ top, r <=? op_rank top) (v :: vs) os = Some out →
  ∃ w vs' os' i1 lev', out = Some (w :: vs', os') ∧ pending l s vs' os' i1 ∧ Forall (λ o, op_rank o < r) os' ∧
    r ≤ level lev' ∧ expr_at l lev' i1 i w.
Proof.
  induction os as [|op os IH]; intros vs i0 lev i v out Hpend Hlow Hv Hr; cbn.
  - intros [= <-]. exists v, vs, [], i0, lev. split_and!; [done|done|constructor|done|done].
  - inversion Hpend as [|vs1 os1 i1 op' m n a Hpend1 Hreal Hbelow Ha Hop]; subst. apply Forall_cons in Hlow as (Hlow&_). destruct (level_real op Hreal) as (Hlr&Hrange&Hlev).
    destruct (Z.leb_spec r (op_rank op)) as [Hle|Hgt].
    + destruct (bebop__parse_apply_op a v op) as [w|] eqn:Ew; [|done]. cbn. intros E.
      eapply (IH vs1 i1 op i w out Hpend1); [by rewrite Hlr| |lia|exact E].
      eapply expr_more; [done|exact Ha|exact Hop| |by apply combines_apply]. eapply expr_weaken; [|exact Hv]. lia.
    + intros [= <-]. exists v, (a :: vs1), (op :: os), i0, lev. split_and!; [done|done| |done|done].
      constructor; [done|]. eapply below_weaken; [|exact Hbelow]. lia.
Qed.

(** What a step promises: a failure, or the next state of the machine, or the value. *)
Definition step_good (l0 : nat) (s0 : Z) (o : expr_outcome) (p' : bebop_parser_t) : Prop :=
  failed p' ∨ ∃ i', p' = at_ i' ∧ 0 ≤ i' < zlen tokens ∧
    match o with
    | inl m' => machine_at l0 s0 m' i'
    | inr v => expr_at l0 bebop__OP_OR s0 i' v ∧ no_op_at tokens i'
    end.

Lemma at_ok i : 0 ≤ i < zlen tokens → parser_ok (at_ i).
Proof. intros Hi. destruct Hp0 as [_ Hs Hf]. by split. Qed.

Lemma primary_sound k : 0 ≤ k < zlen tokens →
  ensures (expr_primary grants tokens members)
    (λ r p', failed p' ∧ r = None ∨ ∃ v, r = Some v ∧ primary_at k v ∧ p' = at_ (k + 1) ∧ 0 ≤ k + 1 < zlen tokens) (at_ k).
Proof.
  intros Hk. unfold expr_primary. eapply ensures_step; [by apply (check_eq tokens)|]. cbn [pr_current set_current].
  assert (Herr : ∀ code q, parser_ok q → ensures (BEBOP_PARSE_ERROR grants tokens code;; mret (None : option Z))
    (λ r p', failed p' ∧ r = None ∨ ∃ v, r = Some v ∧ primary_at k v ∧ p' = at_ (k + 1) ∧ 0 ≤ k + 1 < zlen tokens) q).
  { intros code q Hq. eapply ensures_bind; [by apply error_ensures|]. intros [] q' (_&_&Hf). apply ensures_ret. by left. }
  assert (Hprev : kind k ≠ BEBOP_TOKEN_EOF → BEBOP_PARSE_PREVIOUS tokens (at_ (k + 1)) = Some (tok_at tokens k, at_ (k + 1)) ∧ 0 ≤ k + 1 < zlen tokens).
  { intros Hne. pose proof (kind_further k Hk Hne) as Hk1. split; [|done]. rewrite (previous_eq tokens (at_ (k + 1)) Hk1 ltac:(cbn; lia)).
    cbn [pr_current set_current]. by replace (k + 1 - 1) with k by lia. }
  case_bool_decide as Hn.
  - destruct (Hprev ltac:(congruence)) as (Ep&Hk1). eapply ensures_step; [by apply at_advance; [|congruence]|]. eapply ensures_step; [exact Ep|].
    eapply ensures_step; [reflexivity|]. cbn [pr_registry set_current]. destruct (ctx_str _ _) as [str|] eqn:Es; [|apply Herr, at_ok, Hk1].
    apply ensures_lift. intros [v|] Ev; [|apply Herr, at_ok, Hk1]. apply ensures_ret. right. exists v. split_and!; [done| |done|lia|lia].
    left. split; [done|]. by exists str.
  - eapply ensures_step; [by apply (check_eq tokens)|]. cbn [pr_current set_current]. case_bool_decide as Hi.
    + destruct (Hprev ltac:(congruence)) as (Ep&Hk1). eapply ensures_step; [by apply at_advance; [|congruence]|]. eapply ensures_step; [exact Ep|].
      destruct (bebop__parse_lookup_enum_member _ _) as [v|] eqn:Ev.
      * apply ensures_ret. right. exists v. split_and!; [done| |done|lia|lia]. by right.
      * eapply ensures_bind; [eapply computes_ensures, (error_at_computes grants tokens _ _ (λ _ q, failed q)); [by apply at_ok|by intros q (_&_&?)]|].
        intros [] q Hf. apply ensures_ret. by left.
    + eapply ensures_bind; [eapply computes_ensures, (error_current_computes grants tokens _ (λ _ q, failed q)); [by apply at_ok|by intros q (_&_&?)]|].
      intros [] q Hf. apply ensures_ret. by left.
Qed.

Lemma fails_good l0 s0 code p : parser_ok p → ensures (expr_fails grants tokens code) (step_good l0 s0) p.
Proof. intros Hp. eapply ensures_bind; [by apply error_ensures|]. intros [] q (_&_&Hf). apply ensures_ret. by left. Qed.

Lemma operand_sound l0 s0 m i : 0 ≤ i < zlen tokens → Z.of_nat l0 = bebop__EXPR_STACK_SIZE - 1 → machine_at l0 s0 m i → xm_state m = EXPR_STATE_OPERAND →
  ensures (expr_operand grants tokens members m) (step_good l0 s0) (at_ i).
Proof.
  intros Hi Hl0 (l&s&Hframes&Hneg&Hm) Hst. destruct m as [state [vs os neg] below]. cbn in Hst, Hneg, Hframes, Hm. subst state neg.
  destruct (pending_ops _ _ _ _ _ Hm) as (Hos&Hlen).
  assert (Hsign : ∃ k minus, minus_at i k minus).
  { destruct (decide (kind i = BEBOP_TOKEN_MINUS)) as [E|E]; [by exists (i + 1), true|by exists i, false]. }
  destruct Hsign as (k&minus&Hsign). destruct (operand_sign i k minus vs os below Hi Hsign) as (Hk&E). intros o p'. rewrite E. revert o p'.
  change (ensures (signed_operand minus vs os below) (step_good l0 s0) (at_ k)). unfold signed_operand.
  pose proof (at_match BEBOP_TOKEN_LPAREN k ltac:(done) Hk) as Em. case_bool_decide as Hp; (eapply ensures_step; [exact Em|]).
  - assert (Hk1 : 0 ≤ k + 1 < zlen tokens) by (apply kind_further; [done|congruence]).
    destruct (Z.leb_spec bebop__EXPR_STACK_SIZE (zlen below + 1)) as [Hfull|Hroom]; [by apply fails_good, at_ok|].
    apply ensures_ret. right. exists (k + 1). split_and!; [done|lia|lia|]. pose proof (frames_levels _ _ _ _ _ Hframes).
    destruct l as [|l]; [lia|]. exists l, (k + 1). split_and!; [by eapply frames_paren|done|constructor].
  - eapply ensures_bind; [by apply primary_sound|]. intros r q [(Hf&->)|(v&->&Hv&->&Hk1)]; [apply ensures_ret; by left|].
    apply ensures_lift. intros w Hw o p' E'. rewrite push_value_eq in E' by done. injection E' as <- <-. right. exists (k + 1). split_and!; [done|lia|lia|].
    exists l, s. split_and!; [done|done|]. exists i, w, vs. split_and!; [done|done|]. apply signed_with in Hw. by eapply expr_primary_at.
Qed.

Lemma operator_sound l0 s0 m i : 0 ≤ i < zlen tokens → machine_at l0 s0 m i → xm_state m = EXPR_STATE_OPERATOR →
  ensures (expr_operator grants tokens m) (step_good l0 s0) (at_ i).
Proof.
  intros Hi (l&s&Hframes&Hneg&Hm) Hst. destruct m as [state [values os neg] below]. cbn in Hst, Hneg, Hframes, Hm. subst state neg.
  destruct Hm as (i0&v&vs&->&Hpend&Hv). unfold expr_operator. cbn [xm_frame xf_values xf_ops xf_negate_next].
  eapply ensures_step; [by apply next_op_eq|]. cbn [pr_current set_current]. apply ensures_lift. intros out Eout.
  assert (Hrange : op_rank (op_here i) ≤ level bebop__OP_NONE) by (by destruct (op_here i)).
  destruct (reduce_sound _ l s os vs i0 bebop__OP_NONE i v out Hpend (all_below_operand os) Hv Hrange Eout) as (w&vs'&os'&i1&lev&->&Hpend'&Hlow&Hle&Hw).
  destruct (pending_ops _ _ _ _ _ Hpend') as (Hos'&Hlen'). case_bool_decide as Hop.
  - rewrite Hop in *. assert (os' = []) as ->.
    { destruct os' as [|op os']; [done|]. apply Forall_cons in Hlow as (Hl&_). by destruct op. }
    inversion Hpend'; subst. clear Hpend'. assert (Hor : expr_at l bebop__OP_OR i1 i w) by (eapply expr_weaken; [|exact Hw]; pose proof (level_range lev); done || (cbn; lia)).
    unfold close_frame. cbn [xm_below last default from_option id]. destruct below as [|f below].
    + apply ensures_ret. right. exists i. inversion Hframes; subst. split_and!; [done|lia|lia|done|]. pose proof (op_here_at i) as H. by rewrite Hop in H.
    + inversion Hframes as [|l' s' below' vs2 os2 i2 k minus Hframes' Hpend2 Hsign Hparen]; subst.
      destruct (pending_ops _ _ _ _ _ Hpend2) as (Hos2&Hlen2). eapply ensures_bind.
      { eapply computes_ensures, (consume_computes grants tokens _ (λ _ q, failed q ∧ keeps (at_ i) q ∨ kind i = BEBOP_TOKEN_RPAREN ∧ q = at_ (i + 1))); [done|by apply at_ok| |].
        - intros E _. by right.
        - intros q _ H. left. split; [apply H|]. by apply keeps_error; [apply at_ok|]. }
      intros _ q [(Hf&Hq)|(Hr&->)]; apply ensures_lift; intros w' Hw'.
      * eapply ensures_weaken; [apply (push_value_ensures _ _ _ (mkExpr EXPR_STATE_OPERAND empty_frame (empty_frame :: empty_frame :: below)) q q); [exact (keeps_refl q (proj1 Hq))|]|].
        { unfold expr_measure. cbn [xm_below]. rewrite !zlen_cons. lia. }
        intros o p' ((_&_&Hkeep)&_). left. by apply Hkeep.
      * intros o p' E'. cbn [xf_values xf_ops xf_negate_next] in E', Hw'. rewrite push_value_eq in E' by done. injection E' as <- <-.
        right. exists (i + 1). assert (0 ≤ i + 1 < zlen tokens) by (apply kind_further; [done|congruence]). split_and!; [done|lia|lia|].
        exists (S l), s'. split_and!; [done|done|]. exists i2, w', vs2. split_and!; [done|done|]. apply signed_with in Hw'. by eapply expr_paren_at.
  - pose proof (ops_at_most_three os' Hos'). destruct (Z.leb_spec bebop__EXPR_STACK_SIZE (zlen os')); [unfold bebop__EXPR_STACK_SIZE in *; lia|].
    pose proof (op_here_at i) as Hj. assert (Hj' : ∃ j, op_at tokens (op_here i) i j) by (destruct (op_here i); done). clear Hj. destruct Hj' as (j&Hj).
    destruct (op_advance _ _ (at_ i) Hi Hj) as (Ea&Hr). eapply ensures_step; [exact Ea|]. apply ensures_ret. right. exists j. cbn in Hr. split_and!; [done|lia|lia|].
    exists l, s. split_and!; [done|done|]. destruct (level_real (op_here i) Hop) as (Hlr&_&_).
    eapply pending_op; [exact Hpend'|done|done| |exact Hj]. eapply expr_weaken; [|exact Hw]. lia.
Qed.

Lemma run_sound l0 s0 fuel : Z.of_nat l0 = bebop__EXPR_STACK_SIZE - 1 → ∀ m p,
  parser_ok p → failed p ∨ (∃ i, p = at_ i ∧ 0 ≤ i < zlen tokens ∧ machine_at l0 s0 m i) →
  ensures (run fuel m) (λ v p', failed p' ∨ ∃ j, p' = at_ j ∧ 0 ≤ j < zlen tokens ∧ expr_at l0 bebop__OP_OR s0 j v ∧ no_op_at tokens j) p.
Proof.
  intros Hl0. induction fuel as [|fuel IH]; intros m p Hp Hm; [done|]. cbn [expr_run].
  eapply (ensures_bind _ _ (λ o p', parser_ok p' ∧ (failed p' ∨ ∃ i, p' = at_ i ∧ 0 ≤ i < zlen tokens ∧
      match o with inl m' => machine_at l0 s0 m' i | inr v => expr_at l0 bebop__OP_OR s0 i v ∧ no_op_at tokens i end))).
  - intros o p' E. destruct (step_ensures m p Hp _ _ E) as ((Hp'&_&Hkeep)&_). split; [done|]. destruct Hm as [Hf|(i&->&Hi&Hm)]; [by left; apply Hkeep|].
    assert (Hgood : step_good l0 s0 o p').
    { unfold expr_step in E. destruct (xm_state m) eqn:Hst; [by eapply operand_sound|by eapply operator_sound]. }
    exact Hgood.
  - intros [m'|v] p' (Hp'&H); [by apply IH|]. by apply ensures_ret.
Qed.
End From.

(** ** The result *)

Lemma parse_expression_sound p v p' : parser_ok p →
  bebop__parse_expression grants tokens members p = Some (v, p') → ¬ failed p' →
  expr_at tokens (ctx_str (rg_ctx (pr_registry p))) members 31 bebop__OP_OR (pr_current p) (pr_current p') v ∧ no_op_at tokens (pr_current p').
Proof.
  intros Hp E Hf. pose proof (pk_inside _ _ _ Hp) as Hin.
  destruct (run_sound p Hp 31 (pr_current p) (expr_fuel tokens) eq_refl (mkExpr EXPR_STATE_OPERAND empty_frame []) p Hp) with v p' as [?|(j&->&Hj&Hv&Hno)]; [|done|done|by split].
  right. exists (pr_current p). split_and!; [by destruct p|apply Hin|apply Hin|]. exists 31%nat, (pr_current p). split_and!; [constructor|done|constructor].
Qed.

Lemma parse_expression_complete p j v : parser_ok p →
  expr_at tokens (ctx_str (rg_ctx (pr_registry p))) members 31 bebop__OP_OR (pr_current p) j v → no_op_at tokens j →
  bebop__parse_expression grants tokens members p = Some (v, set_current j p).
Proof.
  intros Hp Hv Hno. pose proof (pk_inside _ _ _ Hp) as Hin.
  destruct (expr_evaluates p _ _ _ _ _ Hv [] [] []) as (vs'&os'&(k&Hk)&Hj&Hos'&Hlen'&Hred); [done|done|constructor|done|constructor|].
  unfold bebop__parse_expression. set (m := mkExpr _ _ _). rewrite <- (expr_run_enough (expr_fuel tokens) m p (S k) Hp).
  2: { unfold expr_measure, expr_fuel, parse_fuel, inside, m in *. cbn [xm_below]. unfold zlen in *. cbn [length]. lia. }
  replace (expr_fuel tokens + S k)%nat with (k + S (expr_fuel tokens))%nat by lia.
  replace p with (set_current (pr_current p) p) at 1 by (by destruct p). unfold m, empty_frame. rewrite Hk. cbn [expr_run expr_step xm_state].
  unfold expr_operator. cbn [xm_frame xf_values xf_ops xf_negate_next].
  assert (Hop : op_here j = bebop__OP_NONE). { pose proof (op_here_at j) as H. destruct (op_here j); [done|by destruct H as (n&?%Hno)..]. }
  unfold mbind at 1, C_bind at 1. rewrite (C_bind_Some _ _ _ _ _ (next_op_eq (set_current j p) Hj)). cbn [pr_current set_current]. rewrite Hop.
  rewrite (reduce_further (level bebop__OP_OR) (op_rank bebop__OP_NONE) _ _ _ _ ltac:(done) Hred), reduce_stops by constructor. done.
Qed.
End ParseExprProps.

(** C18: the values of enum members.  At every place of a stream, when
    [bebop__parse_expression] returns without an error flagged, the tokens it consumed are an
    expression of the language that the parser knows, the longest one, and what it returns is
    its value. That language has the operators left shift, and, or, in this order of precedence
    and all to the left, parentheses, numerals, members of the enum for their values, and a minus
    before an operand; a shift by places outside of 0 to 63 gives 0. And every such expression
    with at most 31 parentheses inside of each other, that no operator follows, is read and
    evaluated, with nothing else changed: no stack of 32 places is too small. (docs/GRAMMAR.md
    lists the operators not, right shift, plus and binary minus as well; the parser has none of
    them, and stops before them.) *)
Theorem parse_expression_exact `{ContextOk} {dm : DefMap def_ptr} {ns : DefMap (option bebop_span_t)} grants tokens members p :
  stream_ends tokens → parser_ok grants tokens p →
  let expression j v :=
    expr_at tokens (ctx_str (rg_ctx (pr_registry p))) members 31 bebop__OP_OR (pr_current p) j v ∧ no_op_at tokens j in
  (∀ v p', bebop__parse_expression grants tokens members p = Some (v, p') → ¬ failed p' → expression (pr_current p') v) ∧
  (∀ j v, expression j v → bebop__parse_expression grants tokens members p = Some (v, set_current j p)).
Proof.
  intros Hends Hp expression. split.
  - intros v p' E Hf. by eapply (parse_expression_sound grants tokens members p v p').
  - intros j v (Hv&Hno). by apply parse_expression_complete.
Qed.

(** ** Enums *)

Module ExprExample.
#[local] Existing Instance list_context.
#[local] Existing Instance list_context_ok.
Definition pool : list (list Z) := map chars ["1"; "4"; "6"; "Read"; "63"]%string.
Definition members : list bebop_enum_member_t := [plain_member 4 3].
Definition tokens_of (l : list (bebop_token_kind_t * Z)) : list bebop_token_t :=
  imap (λ i '(k, h), token k (mkSpan (Z.of_nat i) 1 1 0 1 0) h) l.
Definition start : bebop_parser_t := mkParser 0 false false false SemaProps.fresh (mkRegistry (pool : ctx) [] []) BEBOP_PREAMBLE_START.
Definition value (l : list (bebop_token_kind_t * Z)) : option (Z * Z) :=
  option_map (λ r, (r.1, pr_current r.2)) (bebop__parse_expression (λ _, true) (tokens_of l) members start).

(** 1 << 4 | Read & -(6); *)
Definition masks : list (bebop_token_kind_t * Z) :=
  [(BEBOP_TOKEN_NUMBER, 1); (BEBOP_TOKEN_LANGLE, 0); (BEBOP_TOKEN_LANGLE, 0); (BEBOP_TOKEN_NUMBER, 2); (BEBOP_TOKEN_PIPE, 0);
   (BEBOP_TOKEN_IDENTIFIER, 4); (BEBOP_TOKEN_AMPERSAND, 0); (BEBOP_TOKEN_MINUS, 0); (BEBOP_TOKEN_LPAREN, 0); (BEBOP_TOKEN_NUMBER, 3);
   (BEBOP_TOKEN_RPAREN, 0); (BEBOP_TOKEN_SEMICOLON, 0); (BEBOP_TOKEN_EOF, 0)].
Example masks_value : value masks = Some (18, 11).
Proof. vm_compute. reflexivity. Qed.

(** 1 << 63; the highest flag of 64 bits is undefined. *)
Example highest_flag :
  value [(BEBOP_TOKEN_NUMBER, 1); (BEBOP_TOKEN_LANGLE, 0); (BEBOP_TOKEN_LANGLE, 0); (BEBOP_TOKEN_NUMBER, 5); (BEBOP_TOKEN_SEMICOLON, 0);
         (BEBOP_TOKEN_EOF, 0)] = None.
Proof. vm_compute. reflexivity. Qed.

Lemma masks_end : stream_ends (tokens_of masks).
Proof. split; [done|]. exists (take 12 (tokens_of masks)), (token BEBOP_TOKEN_EOF (mkSpan 12 1 1 0 1 0) 0). split; [done|]. split; [done|]. by repeat constructor. Qed.
Lemma expr_start_ok : parser_ok (λ _, true) (tokens_of masks) start.
Proof. split; [done|exists (mkBody None [] []); apply fresh_ok|done]. Qed.

Lemma parse_expression_exact_witness :
  expr_at (tokens_of masks) (ctx_str (pool : ctx)) members 31 bebop__OP_OR 0 11 18 ∧
  bebop__parse_expression (λ _, true) (tokens_of masks) members start = Some (18, set_current 11 start).
Proof.
  destruct (parse_expression_exact (λ _, true) (tokens_of masks) members start masks_end expr_start_ok) as (Hs&_).
  destruct (bebop__parse_expression (λ _, true) (tokens_of masks) members start) as [[v p']|] eqn:E; [|by vm_compute in E].
  assert (Ev : v = 18 ∧ p' = set_current 11 start) by (vm_compute in E; injection E as <- <-; done). destruct Ev as (->&->).
  split; [|done]. apply (Hs 18 (set_current 11 start) eq_refl). by intros [?|?].
Defined.
End ExprExample.
