(* ===== verification/FloatText.v ===== *)
(** Floating-point literals of the schema compiler ([bebop_util_parse_float] of
    [bebop/src/bebop_utils.c]) over [strtod] of the C library in the C locale.

    A double is a [spec_float] of the Standard Library, of 53 bits of precision; the value of
    a numeral is the double nearest to it, ties to even. *)
From stdpp Require Import list strings.
From Stdlib Require Import SpecFloat.
From S2P Require Import Prelude.
From S2P Require Import Unicode.
From S2P Require Import Scanner.
From S2P Require Import Literals.

(** ** [strtod] *)

(** Where the C standard leaves a choice: whether a result below the normal numbers that is
    not exact is reported in [errno]. *)
Class Libc := { strtod_reports_underflow : bool }.

(** [isspace] *)
Definition is_space (c : Z) : bool := (c =? 32) || ((9 <=? c) && (c <=? 13)).
Fixpoint skip_space (s : list Z) : list Z :=
  match s with
  | c :: s' => if is_space c then skip_space s' else s
  | [] => []
  end.

Definition BEBOP_TOLOWER (c : Z) : Z := if (65 <=? c) && (c <=? 90) then c + 32 else c.
(** The text behind a word, in whatever case, at the start of a text. *)
Fixpoint behind_word (word s : list Z) : option (list Z) :=
  match word, s with
  | [], _ => Some s
  | c :: word, d :: s => if BEBOP_TOLOWER c =? BEBOP_TOLOWER d then behind_word word s else None
  | _, [] => None
  end.

(** Digits at the start of a text: their value behind [acc], their number, and the rest. *)
Fixpoint take_digits (base : Z) (s : list Z) (acc : Z) (n : nat) : Z * nat * list Z :=
  match s with
  | c :: s' => if digit_val c <? base then take_digits base s' (acc * base + digit_val c) (S n) else (acc, n, s)
  | [] => (acc, n, [])
  end.

(** Digits with a point among them, before them or behind them: all digits as one number, the
    number of digits behind the point, and the rest. *)
Definition take_mantissa (base : Z) (s : list Z) : option (Z * nat * list Z) :=
  let '(whole, n, s1) := take_digits base s 0 0 in
  let '(m, k, s2) :=
    match s1 with
    | 46 :: s' => take_digits base s' whole 0
    | _ => (whole, 0%nat, s1)
    end in
  if (n + k =? 0)%nat then None else Some (m, k, s2).

(** An exponent behind one of two letters, if digits follow. *)
Definition take_exponent (lower upper : Z) (s : list Z) : Z * list Z :=
  match s with
  | c :: s1 =>
      if (c =? lower) || (c =? upper) then
        let '(neg, s2) := match s1 with 45 :: s2 => (true, s2) | 43 :: s2 => (false, s2) | _ => (false, s1) end in
        let '(e, n, s3) := take_digits 10 s2 0 0 in
        if (n =? 0)%nat then (0, s) else (if neg then - e else e, s3)
      else (0, s)
  | [] => (0, [])
  end.

Definition double_prec : Z := 53.
Definition double_emax : Z := 1024.

(** The double nearest to [m * base ^ e]. *)
Definition nearest (m base e : Z) : spec_float :=
  match m with
  | Zpos p =>
      if 0 <=? e then binary_normalize double_prec double_emax (m * base ^ e) 0 false
      else
        match base ^ (- e) with
        | Zpos q => SFdiv double_prec double_emax (S754_finite false p 0) (S754_finite false q 0)
        | _ => S754_nan
        end
  | _ => S754_zero false
  end.
(** [errno] becomes [ERANGE]: the result is infinite, or below the normal numbers and
    not [m * base ^ e]. *)
Definition out_of_range `{Libc} (m base e : Z) (d : spec_float) : bool :=
  let exact m' e' :=
    m * base ^ Z.max e 0 * 2 ^ Z.max (- e') 0 =? m' * 2 ^ Z.max e' 0 * base ^ Z.max (- e) 0 in
  match d with
  | S754_infinity _ => true
  | S754_zero _ => strtod_reports_underflow && negb (m =? 0)
  | S754_finite _ m' e' => strtod_reports_underflow && (Zpos m' <? 2 ^ 52) && negb (exact (Zpos m') e')
  | S754_nan => false
  end.

(** The characters of a nan's payload, up to the closing parenthesis. *)
Fixpoint behind_payload (s : list Z) : option (list Z) :=
  match s with
  | c :: s' => if c =? 41 then Some s' else if BEBOP_IS_IDENT_CHAR c then behind_payload s' else None
  | [] => None
  end.

(** An unsigned number: its value, whether [errno] is set, and the rest. *)
Definition strtod_unsigned `{Libc} (s : list Z) : option (spec_float * bool * list Z) :=
  let numeral m base e rest := let d := nearest m base e in Some (d, out_of_range m base e d, rest) in
  let decimal :=
    '(m, k, s1) ← take_mantissa 10 s;
    let '(e, s2) := take_exponent 101 69 s1 in numeral m 10 (e - Z.of_nat k) s2 in
  match behind_word (chars "infinity") s with
  | Some s1 => Some (S754_infinity false, false, s1)
  | None =>
      match behind_word (chars "inf") s with
      | Some s1 => Some (S754_infinity false, false, s1)
      | None =>
          match behind_word (chars "nan") s with
          | Some s1 => Some (S754_nan, false, match s1 with 40 :: s2 => default s1 (behind_payload s2) | _ => s1 end)
          | None =>
              match behind_word (chars "0x") s ≫= take_mantissa 16 with
              | Some (m, k, s1) => let '(e, s2) := take_exponent 112 80 s1 in numeral m 2 (e - 4 * Z.of_nat k) s2
              | None => decimal
              end
          end
      end
  end.

(** [strtod]: the value, whether [errno] is set, and the text from [endptr] on. *)
Definition strtod `{Libc} (buf : list Z) : spec_float * bool * list Z :=
  let s := skip_space buf in
  let '(neg, s) := match s with 45 :: s' => (true, s') | 43 :: s' => (false, s') | _ => (false, s) end in
  match strtod_unsigned s with
  | Some (d, e, rest) => (if neg then SFopp d else d, e, rest)
  | None => (S754_zero false, false, buf)
  end.

(** ** Literals *)

(** [bebop_streqni] *)
Definition bebop_streqni (nul_str buf : list Z) : bool := bool_decide (map BEBOP_TOLOWER nul_str = map BEBOP_TOLOWER buf).

Definition sizeof_float_buf : Z := 64.

Definition bebop_util_parse_float `{Libc} (str : list Z) : option spec_float :=
  if zlen str =? 0 then None
  else if bebop_streqni (chars "inf") str then Some (S754_infinity false)
  else if bebop_streqni (chars "nan") str then Some S754_nan
  else if bebop_streqni (chars "-inf") str then Some (S754_infinity true)
  else if bebop_streqni (chars "+inf") str then Some (S754_infinity false)
  else if sizeof_float_buf <=? zlen str then None
  else
    let '(val, errno, rest) := strtod (c_string str) in
    (* the buffer ends with a zero byte: [endptr] is its end when all of it was read *)
    if errno || negb ((zlen (c_string str) =? zlen str) && (zlen rest =? 0)) then None else Some val.

(** ** Concrete texts *)

#[export] Instance glibc : Libc := { strtod_reports_underflow := true }.
Module FloatExamples.
(** The double nearest to a tenth. *)
Example tenth : bebop_util_parse_float (chars "0.1") = Some (S754_finite false 0x1999999999999a (-56)).
Proof. vm_compute. reflexivity. Qed.
(** The least odd integer that is not a double: the tie goes to the even neighbour. *)
Example tie_to_even : bebop_util_parse_float (chars "9007199254740993") = Some (S754_finite false (2 ^ 52) 1).
Proof. vm_compute. reflexivity. Qed.
(** Beyond the greatest double; the least double above zero, which is none of the numerals. *)
Example too_great : bebop_util_parse_float (chars "1e309") = None.
Proof. vm_compute. reflexivity. Qed.
Example least_refused : bebop_util_parse_float (chars "4.9e-324") = None.
Proof. vm_compute. reflexivity. Qed.
Example words : map (bebop_util_parse_float ∘ chars) ["inf"; "-INF"; "nan"; "0x"; "1e"; "."]%string =
  [Some (S754_infinity false); Some (S754_infinity true); Some S754_nan; None; None; None].
Proof. vm_compute. reflexivity. Qed.
End FloatExamples.
