(* ===== verification/ParseLiteral.v ===== *)
(** Literals, decorators and their arguments ([bebop/src/bebop_parser.c], lines 853 to 1344):
    environment variables in strings, numbers, the value of each kind of token. *)
From stdpp Require Import list gmap strings.
From Stdlib Require Import SpecFloat.
From S2P Require Import Prelude.
From S2P Require Import Scanner.
From S2P Require Import Schema.
From S2P Require Import Literals.
From S2P Require Import Calendar.
From S2P Require Import FloatText.
From S2P Require Import Diagnostics.
From S2P Require Import Sema.
From S2P Require Import Registry.
From S2P Require Import Parser.
From S2P Require Import ParseType.

Definition BEBOP_MAX_ENV_VAR_NAME : Z := 256.
Definition BEBOP_SMALL_BUF_SIZE : Z := 128.
Definition sizeof_decorator_arg : Z := 104.
Definition sizeof_decorator : Z := 80.

(** The variables of the host, strings of C; both may be null. *)
Abbreviation env_t := (list (option (list Z) * option (list Z))).

(** The value of the first variable of a name. *)
Fixpoint env_value (env : env_t) (var_name : list Z) : option (list Z) :=
  match env with
  | [] => None
  | (Some key, value) :: env => if bool_decide (c_string key = c_string var_name) then value else env_value env var_name
  | (None, _) :: env => env_value env var_name
  end.

(** Whether a dollar sign and a parenthesis stand anywhere in a text. *)
Fixpoint has_reference (text : list Z) : bool :=
  match text with
  | 36 :: 40 :: _ => true
  | _ :: text => has_reference text
  | [] => false
  end.

(** What is before the first closing parenthesis, and what is behind it. *)
Fixpoint split_reference (text : list Z) : option (list Z * list Z) :=
  match text with
  | [] => None
  | 41 :: rest => Some ([], rest)
  | c :: text => '(var, rest) ← split_reference text; Some (c :: var, rest)
  end.

(** The buffer for the result: its address, its capacity, and what has been written. *)
Record buffer_t : Type := mkBuffer { bf_address : option Z; bf_cap : Z; bf_text : list Z }.

Section ParseLiteral.
Context {cc : Context} {dm : DefMap def_ptr} {ns : DefMap (option bebop_span_t)} `{Libc} (grants : nat → bool).
Context (env : env_t) (tokens : list bebop_token_t).
Abbreviation M := (C bebop_parser_t).
Abbreviation CURRENT := (BEBOP_PARSE_CURRENT tokens).
Abbreviation PREVIOUS := (BEBOP_PARSE_PREVIOUS tokens).
Abbreviation CHECK := (BEBOP_PARSE_CHECK tokens).
Abbreviation AT_END := (BEBOP_PARSE_AT_END tokens).
Abbreviation ADVANCE := (BEBOP_PARSE_ADVANCE tokens).
Abbreviation ERROR := (BEBOP_PARSE_ERROR grants tokens).
Abbreviation ERROR_CURRENT := (BEBOP_PARSE_ERROR_CURRENT grants tokens).
Abbreviation CONSUME := (BEBOP_PARSE_CONSUME grants tokens).
Abbreviation CONSUME_AFTER := (BEBOP_PARSE_CONSUME_AFTER grants tokens).
Abbreviation MATCH := (BEBOP_PARSE_MATCH tokens).

(** [BEBOP_STR] with [BEBOP_STR_LEN], for a use that the null string is as good as empty. *)
Definition text_of (s : Z) : M (list Z) := text ← str_get s; mret (default [] text).

(** ** Storage *)

Definition arena_realloc (p : option Z) (old new : Z) : M (option Z) :=
  on_registry (λ r, let '(q, c) := ctx_realloc p old new (rg_ctx r) in Some (q, set_ctx c r)).
(** [bebop__array_push] on an array of the parser: its address and its capacity, with room
    for one more element. *)
Record array_t : Type := mkArray { ar_address : option Z; ar_cap : Z }.
Definition empty_array : array_t := mkArray None 0.
Definition array_push (elem_size count : Z) (a : array_t) : M (option array_t) :=
  if ar_cap a <=? count then
    if UINT32_MAX / 2 <? ar_cap a then mret None
    else
      let new_cap := if ar_cap a =? 0 then 16 else ar_cap a * 2 in
      if SIZE_MAX / elem_size <? new_cap then mret None
      else
        new_arr ← arena_realloc (ar_address a) (ar_cap a * elem_size) (new_cap * elem_size);
        mret (match new_arr with Some p => Some (mkArray (Some p) new_cap) | None => None end)
  else mret (Some a).

(** ** Environment variables *)

(** The loop of [NEED_SPACE]; [None] is the jump to [fail]. Fuel: the doublings of a capacity. *)
Fixpoint grow_buffer (fuel : nat) (need : Z) (b : buffer_t) : M (option buffer_t) :=
  match fuel with
  | O => ub
  | S fuel =>
      if bf_cap b <=? zlen (bf_text b) + need then
        if SIZE_MAX / 2 <? bf_cap b then mret None
        else
          let cap := bf_cap b * 2 in
          p ← arena_realloc (bf_address b) (bf_cap b) cap;
          match p with
          | None => mret None
          | Some p => grow_buffer fuel need (mkBuffer (Some p) cap (bf_text b))
          end
      else mret (Some b)
  end.
Definition NEED_SPACE (need : Z) (b : buffer_t) : M (option buffer_t) :=
  if SIZE_MAX - zlen (bf_text b) <? need then mret None else grow_buffer 65 need b.
(** [memcpy] to the end of what has been written: undefined outside of the buffer. *)
Definition append_text (text : list Z) (b : buffer_t) : option buffer_t :=
  if zlen (bf_text b) + zlen text <=? bf_cap b then Some (mkBuffer (bf_address b) (bf_cap b) (bf_text b ++ text)) else None.
Definition put_text (text : list Z) (b : buffer_t) : M (option buffer_t) :=
  b ← NEED_SPACE (zlen text) b;
  match b with
  | None => mret None
  | Some b => b ← lift (append_text text b); mret (Some b)
  end.

(** The text from [str] on, and whether something has been substituted; the buffer is [None]
    after a jump to [fail]. Fuel: the length of the text. *)
Fixpoint substitute_loop (fuel : nat) (str : list Z) (b : buffer_t) (had : bool) : M (option buffer_t * bool) :=
  match fuel with
  | O => ub
  | S fuel =>
      match str with
      | [] => mret (Some b, had)
      | 36 :: 40 :: after =>
          match split_reference after with
          | None => ERROR BEBOP_DIAG_INVALID_LITERAL;; mret (None, had)
          | Some (var_name, rest) =>
              if BEBOP_MAX_ENV_VAR_NAME <=? zlen var_name then ERROR BEBOP_DIAG_INVALID_LITERAL;; mret (None, had)
              else
                match env_value env var_name with
                | Some value =>
                    b ← put_text (c_string value) b;
                    match b with Some b => substitute_loop fuel rest b true | None => mret (None, had) end
                | None =>
                    ERROR BEBOP_DIAG_ENV_VAR_NOT_FOUND;;
                    b ← put_text (36 :: 40 :: var_name ++ [41]) b;
                    match b with Some b => substitute_loop fuel rest b had | None => mret (None, had) end
                end
          end
      | c :: rest =>
          b ← put_text [c] b;
          match b with Some b => substitute_loop fuel rest b had | None => mret (None, had) end
      end
  end.

(** The string and whether a variable was put into it. *)
Definition bebop__parse_substitute_env_vars (src : Z) : M (Z * bool) :=
  text ← text_of src;
  if negb (has_reference text) then mret (src, false)
  else if SIZE_MAX - BEBOP_MAX_ENV_VAR_NAME <? zlen text then mret (src, false)
  else
    let result_cap := zlen text + BEBOP_MAX_ENV_VAR_NAME in
    result ← on_registry (alloc_n 1 result_cap 1);
    match result with
    | None => mret (src, false)
    | Some p =>
        '(b, had) ← substitute_loop (S (length text)) text (mkBuffer (Some p) result_cap []) false;
        match b with
        | Some b => if had : bool then s ← on_registry (bebop_intern_n (bf_text b)); mret (s, true) else mret (src, false)
        | None => mret (src, had)
        end
    end.

(** ** Values *)

Definition bebop__parse_number (str : list Z) (expected_type : bebop_type_kind_t) : M (option literal_value) :=
  let wants_float := bool_decide (expected_type = BEBOP_TYPE_FLOAT32) || bool_decide (expected_type = BEBOP_TYPE_FLOAT64) in
  match (if wants_float then bebop_util_parse_float str else None) with
  | Some val => mret (Some (LitFloat val))
  | None =>
      ival ← lift (bebop_util_parse_int str);
      match ival with
      | Some ival => mret (Some (LitInt ival))
      | None =>
          match bebop_util_parse_float str with
          | Some fval => mret (Some (LitFloat fval))
          | None => ERROR BEBOP_DIAG_INVALID_NUMBER;; mret None
          end
      end
  end.

(** A copy of the bytes of a string. *)
Definition bytes_literal (str : list Z) : M (option literal_value) :=
  data ← on_registry (alloc_n 1 (zlen str) 1);
  match data with
  | Some _ => mret (Some (LitBytes str))
  | None => if 0 <? zlen str then ERROR BEBOP_DIAG_INVALID_LITERAL;; mret None else mret (Some (LitBytes []))
  end.

(** The value of a string where a type is expected. *)
Definition string_literal (expected_type : bebop_type_kind_t) (string_val : Z) : M (option literal_value) :=
  str ← text_of string_val;
  match expected_type with
  | BEBOP_TYPE_UUID =>
      uuid ← lift (bebop_util_parse_uuid str);
      match uuid with
      | Some uuid => mret (Some (LitUuid uuid))
      | None => ERROR BEBOP_DIAG_INVALID_UUID;; mret None
      end
  | BEBOP_TYPE_TIMESTAMP =>
      match bebop_util_parse_timestamp str with
      | Some (seconds, nanos, offset_ms) => mret (Some (LitTimestamp seconds nanos offset_ms))
      | None => ERROR BEBOP_DIAG_INVALID_LITERAL;; mret None
      end
  | BEBOP_TYPE_DURATION =>
      duration ← lift (bebop_util_parse_duration str);
      match duration with
      | Some (seconds, nanos) => mret (Some (LitDuration seconds nanos))
      | None => ERROR BEBOP_DIAG_INVALID_LITERAL;; mret None
      end
  | BEBOP_TYPE_BYTE => bytes_literal str
  | _ => mret (Some (LitString string_val))
  end.

(** A literal of a value, if there is one. *)
Definition literal_of (span : bebop_span_t) (has_env_var : bool) (raw_value : Z) (value : option literal_value) : option bebop_literal_t :=
  match value with Some value => Some (mkLiteral span has_env_var raw_value value) | None => None end.

(** Behind a minus sign. *)
Definition negative_literal (minus : bebop_token_t) (expected_type : bebop_type_kind_t) : M (option bebop_literal_t) :=
  num_tok ← CURRENT;
  lex ← str_get (tk_lexeme num_tok);
  let span_to_previous : M bebop_span_t :=
    last ← PREVIOUS; mret (bebop__parse_span_from_tokens (Some (tk_span minus)) (Some (tk_span last))) in
  match tk_kind num_tok, lex with
  | BEBOP_TOKEN_IDENTIFIER, lex =>
      if bebop_streqni (chars "inf") (default [] lex) then
        ADVANCE;;
        span ← span_to_previous;
        raw ← on_registry (bebop_intern_n (chars "-inf"));
        mret (Some (mkLiteral span false raw (LitFloat (S754_infinity true))))
      else ERROR_CURRENT BEBOP_DIAG_INVALID_LITERAL;; mret None
  | BEBOP_TOKEN_NUMBER, None => ADVANCE;; on_sema bebop__context_set_error;; mret None
  | BEBOP_TOKEN_NUMBER, Some str =>
      ADVANCE;;
      if BEBOP_SMALL_BUF_SIZE - 2 <? zlen str then ERROR BEBOP_DIAG_INVALID_NUMBER;; mret None
      else
        let buf := 45 :: str in
        span ← span_to_previous;
        raw ← on_registry (bebop_intern_n buf);
        value ← bebop__parse_number buf expected_type;
        mret (literal_of span false raw value)
  | _, _ => ERROR_CURRENT BEBOP_DIAG_INVALID_LITERAL;; mret None
  end.

Definition bebop__parse_literal (expected_type : bebop_type_kind_t) : M (option bebop_literal_t) :=
  tok ← CURRENT;
  let span := tk_span tok in
  match tk_kind tok with
  | BEBOP_TOKEN_TRUE => ADVANCE;; mret (Some (mkLiteral span false 0 (LitBool true)))
  | BEBOP_TOKEN_FALSE => ADVANCE;; mret (Some (mkLiteral span false 0 (LitBool false)))
  | BEBOP_TOKEN_STRING =>
      ADVANCE;;
      '(string_val, had_subst) ← bebop__parse_substitute_env_vars (tk_lexeme tok);
      value ← string_literal expected_type string_val;
      mret (literal_of span had_subst (tk_lexeme tok) value)
  | BEBOP_TOKEN_BYTES =>
      ADVANCE;;
      str ← text_of (tk_lexeme tok);
      value ← bytes_literal str;
      mret (literal_of span false 0 value)
  | BEBOP_TOKEN_NUMBER =>
      ADVANCE;;
      str ← str_get (tk_lexeme tok);
      match str with
      | None => ERROR BEBOP_DIAG_INVALID_NUMBER;; mret None
      | Some str =>
          value ← bebop__parse_number str expected_type;
          mret (literal_of span false (tk_lexeme tok) value)
      end
  | BEBOP_TOKEN_IDENTIFIER =>
      lex ← text_of (tk_lexeme tok);
      if bebop_streqni (chars "inf") lex || bebop_streqni (chars "nan") lex then
        ADVANCE;;
        match bebop_util_parse_float lex with
        | Some val => mret (Some (mkLiteral span false (tk_lexeme tok) (LitFloat val)))
        | None => ERROR_CURRENT BEBOP_DIAG_INVALID_LITERAL;; mret None
        end
      else ERROR_CURRENT BEBOP_DIAG_INVALID_LITERAL;; mret None
  | BEBOP_TOKEN_MINUS => ADVANCE;; negative_literal tok expected_type
  | _ => ERROR_CURRENT BEBOP_DIAG_INVALID_LITERAL;; mret None
  end.

(** ** Decorators *)

(** A name and a colon before an argument. *)
Definition argument_name : M (option (Z * bebop_span_t)) :=
  peek_tok ← bebop__parse_peek tokens 1;
  named ← CHECK BEBOP_TOKEN_IDENTIFIER;
  if (named : bool) && match peek_tok with Some t => bool_decide (tk_kind t = BEBOP_TOKEN_COLON) | None => false end then
    ADVANCE;;
    name_tok ← PREVIOUS;
    ADVANCE;;
    mret (Some (tk_lexeme name_tok, tk_span name_tok))
  else mret None.
Definition make_argument (name : option (Z * bebop_span_t)) (value : bebop_literal_t) : bebop_decorator_arg_t :=
  match name with
  | Some (arg_name, name_span) =>
      if bebop_str_is_null arg_name then mkArg 0 (lt_span value) value
      else mkArg arg_name (bebop__parse_span_from_tokens (Some name_span) (Some (lt_span value))) value
  | None => mkArg 0 (lt_span value) value
  end.

(** The arguments behind [args], up to the closing parenthesis. Fuel: the number of tokens. *)
Fixpoint args_loop (fuel : nat) (args : list bebop_decorator_arg_t) (a : array_t) : M (list bebop_decorator_arg_t) :=
  match fuel with
  | O => ub
  | S fuel =>
      close ← CHECK BEBOP_TOKEN_RPAREN;
      at_end ← AT_END;
      if (close : bool) || (at_end : bool) then mret args
      else
        go_on ← (if 0 <? zlen args then CONSUME BEBOP_TOKEN_COMMA else mret true);
        if negb (go_on : bool) then mret args
        else
          name ← argument_name;
          value ← bebop__parse_literal BEBOP_TYPE_STRING;
          match value with
          | None => mret args
          | Some value =>
              a ← array_push sizeof_decorator_arg (zlen args) a;
              match a with
              | None => mret args
              | Some a => args_loop fuel (args ++ [make_argument name value]) a
              end
          end
  end.
Definition bebop__parse_decorator_args : M (list bebop_decorator_arg_t) := args_loop (parse_fuel tokens) [] empty_array.

(** Behind an at sign without a name. Fuel: the number of tokens. *)
Definition starts_definition (kind : bebop_token_kind_t) : bool :=
  match kind with
  | BEBOP_TOKEN_AT | BEBOP_TOKEN_STRUCT | BEBOP_TOKEN_MESSAGE | BEBOP_TOKEN_ENUM | BEBOP_TOKEN_UNION | BEBOP_TOKEN_SERVICE
  | BEBOP_TOKEN_CONST => true
  | _ => false
  end.
Fixpoint skip_decorator (fuel : nat) : M unit :=
  match fuel with
  | O => ub
  | S fuel =>
      at_end ← AT_END;
      tok ← CURRENT;
      if (at_end : bool) || starts_definition (tk_kind tok) then mret tt else ADVANCE;; skip_decorator fuel
  end.

(** The name of a decorator; [None] ends the list. *)
Definition decorator_name (name : bebop_token_t) : M (option Z) :=
  dotted ← CHECK BEBOP_TOKEN_DOT;
  if negb (dotted : bool) then mret (Some (tk_lexeme name))
  else
    first_str ← text_of (tk_lexeme name);
    if sizeof_name_buf <=? zlen first_str then ERROR BEBOP_DIAG_INVALID_QUALIFIED_NAME;; mret None
    else
      full ← qualified_loop grants tokens (parse_fuel tokens) first_str (tk_span name);
      match full with
      | None => mret None
      | Some (name_buf, _) => s ← on_registry (bebop_intern_n name_buf); mret (Some s)
      end.

(** The arguments in parentheses; [None] ends the list. *)
Definition decorator_arguments : M (option (list bebop_decorator_arg_t)) :=
  open ← MATCH BEBOP_TOKEN_LPAREN;
  if negb (open : bool) then mret (Some [])
  else
    args ← bebop__parse_decorator_args;
    ok ← CONSUME_AFTER BEBOP_TOKEN_RPAREN;
    mret (if ok : bool then Some args else None).

(** Fuel: the number of tokens. *)
Fixpoint decorators_loop (fuel : nat) (decorators : list bebop_decorator_t) : M (list bebop_decorator_t) :=
  match fuel with
  | O => ub
  | S fuel =>
      more ← CHECK BEBOP_TOKEN_AT;
      if negb (more : bool) then mret decorators
      else
        ADVANCE;;
        at_tok ← PREVIOUS;
        named ← CONSUME BEBOP_TOKEN_IDENTIFIER;
        if negb (named : bool) then skip_decorator (parse_fuel tokens);; decorators_loop fuel decorators
        else
          name ← PREVIOUS;
          dec_name ← decorator_name name;
          match dec_name with
          | None => mret decorators
          | Some dec_name =>
              args ← decorator_arguments;
              match args with
              | None => mret decorators
              | Some args =>
                  dec ← on_registry (alloc_n sizeof_decorator 1 8);
                  match dec with
                  | None => bebop__parse_fatal;; mret decorators
                  | Some _ =>
                      last ← PREVIOUS;
                      let span := bebop__parse_span_from_tokens (Some (tk_span at_tok)) (Some (tk_span last)) in
                      decorators_loop fuel (decorators ++ [mkDecorator dec_name span args None])
                  end
              end
          end
  end.
Definition bebop__parse_decorators : M (list bebop_decorator_t) := decorators_loop (parse_fuel tokens) [].
End ParseLiteral.
