(* ===== verification/ParseMember.v ===== *)
(** The parts of definitions ([bebop/src/bebop_parser.c], lines 1632 to 2034): where a nested
    definition starts, members of enums, fields, methods and their identifiers
    ([bebop_util_hash_method_id] of [bebop_utils.c]).

    The parts of a definition are collected in lists; the code collects them in the array of
    the definition, whose count it sets when the body ends (for an enum with each member). *)
From stdpp Require Import list gmap strings.
From S2P Require Import Prelude.
From S2P Require Import Scanner.
From S2P Require Import Schema.
From S2P Require Import Literals.
From S2P Require Import FloatText.
From S2P Require Import Diagnostics.
From S2P Require Import Sema.
From S2P Require Import Registry.
From S2P Require Import Parser.
From S2P Require Import ParseType.
From S2P Require Import ParseLiteral.
From S2P Require Import ParseExpr.

Definition sizeof_member : Z := 112.
Definition sizeof_field : Z := 88.
Definition sizeof_method : Z := 96.
Definition sizeof_path_buf : Z := 512.

(** ** Identifiers of methods *)

Definition bebop__HASH_SEED : Z := 0x5AFE5EED.
Definition bebop__HASH_C1 : Z := 0xcc9e2d51.
Definition bebop__HASH_C2 : Z := 0x1b873593.
Definition bebop__HASH_N : Z := 0xe6546b64.

Definition rotl32 (x r : Z) : Z := Z.lor (u32 (Z.shiftl x r)) (Z.shiftr x (32 - r)).
Definition hash_word (k : Z) : Z := u32 (rotl32 (u32 (k * bebop__HASH_C1)) 15 * bebop__HASH_C2).
Definition hash_step (hash block : Z) : Z :=
  u32 (rotl32 (Z.lxor hash (hash_word block)) 13 * 5 + bebop__HASH_N).
Definition hash_finish (hash : Z) : Z :=
  let hash := Z.lxor hash (Z.shiftr hash 16) in
  let hash := u32 (hash * 0x7feb352d) in
  let hash := Z.lxor hash (Z.shiftr hash 15) in
  let hash := u32 (hash * 0x846ca68b) in
  Z.lxor hash (Z.shiftr hash 16).
(** Blocks of four bytes, and up to three bytes behind them. *)
Fixpoint hash_blocks (input : list Z) (hash : Z) : Z :=
  match input with
  | a :: b :: c :: d :: input => hash_blocks input (hash_step hash (le_value [a; b; c; d]))
  | [] => hash
  | tail => Z.lxor hash (hash_word (le_value tail))
  end.
Definition bebop_util_hash_method_id (input : list Z) : Z := hash_finish (hash_blocks input bebop__HASH_SEED).

Definition bebop__is_def_keyword (kind : bebop_token_kind_t) : bool :=
  match kind with BEBOP_TOKEN_STRUCT | BEBOP_TOKEN_MESSAGE | BEBOP_TOKEN_ENUM | BEBOP_TOKEN_UNION => true | _ => false end.
Definition method_type_of (request_stream response_stream : bool) : bebop_method_type_t :=
  match request_stream, response_stream with
  | false, false => BEBOP_METHOD_UNARY
  | false, true => BEBOP_METHOD_SERVER_STREAM
  | true, false => BEBOP_METHOD_CLIENT_STREAM
  | true, true => BEBOP_METHOD_DUPLEX_STREAM
  end.

(** An array of parts: the parts, and its storage. *)
Record parts_t (A : Type) : Type := mkParts { pa_items : list A; pa_array : array_t }.
Arguments mkParts {_}.
Arguments pa_items {_}.
Arguments pa_array {_}.
Definition no_parts {A} : parts_t A := mkParts [] empty_array.

Section ParseMember.
Context {cc : Context} {dm : DefMap def_ptr} {ns : DefMap (option bebop_span_t)} `{Libc} (grants : nat → bool).
Context (env : env_t) (tokens : list bebop_token_t) (source : list Z) (trivia : list bebop_trivia_t) (schema : schema_ptr).
Abbreviation M := (C bebop_parser_t).
Abbreviation CURRENT := (BEBOP_PARSE_CURRENT tokens).
Abbreviation PREVIOUS := (BEBOP_PARSE_PREVIOUS tokens).
Abbreviation CHECK := (BEBOP_PARSE_CHECK tokens).
Abbreviation AT_END := (BEBOP_PARSE_AT_END tokens).
Abbreviation ADVANCE := (BEBOP_PARSE_ADVANCE tokens).
Abbreviation ERROR := (BEBOP_PARSE_ERROR grants tokens).
Abbreviation CONSUME := (BEBOP_PARSE_CONSUME grants tokens).
Abbreviation CONSUME_AFTER := (BEBOP_PARSE_CONSUME_AFTER grants tokens).
Abbreviation CONSUME_NAME := (BEBOP_PARSE_CONSUME_NAME grants tokens).
Abbreviation MATCH := (BEBOP_PARSE_MATCH tokens).
Abbreviation extract_doc tok := (bebop__parse_extract_doc source trivia (tk_leading tok)).
Abbreviation parse_type := (bebop__parse_type grants tokens).

(** ** Arrays of parts *)

(** A part behind the others, if there is room for it. *)
Definition push_part {A} (elem_size : Z) (parts : parts_t A) (make : M A) : M (parts_t A) :=
  a ← array_push elem_size (zlen (pa_items parts)) (pa_array parts);
  match a with
  | None => mret parts
  | Some a => part ← make; mret (mkParts (pa_items parts ++ [part]) a)
  end.

(** The span of a part, from its first decorator or from its first token to the last token. *)
Definition part_span (decorators : list bebop_decorator_t) (first : bebop_span_t) : M bebop_span_t :=
  last ← PREVIOUS;
  mret (bebop__parse_span_from_tokens (Some (match decorators with dec :: _ => dc_span dec | [] => first end)) (Some (tk_span last))).

(** ** Nested definitions *)

(** The tokens behind an at sign, up to what is decorated: the state is the depth of
    parentheses and whether a name is expected. Fuel: the number of tokens. *)
Fixpoint decorated_loop (fuel : nat) (depth : Z) (after_at : bool) : M bool :=
  match fuel with
  | O => ub
  | S fuel =>
      at_end ← AT_END;
      if (at_end : bool) then mret false
      else
        tok ← CURRENT;
        let kind := tk_kind tok in
        if bool_decide (kind = BEBOP_TOKEN_AT) && (depth =? 0) then ADVANCE;; decorated_loop fuel depth true
        else if after_at && bool_decide (kind = BEBOP_TOKEN_IDENTIFIER) && (depth =? 0) then ADVANCE;; decorated_loop fuel depth after_at
        else if bool_decide (kind = BEBOP_TOKEN_DOT) && (depth =? 0) then ADVANCE;; decorated_loop fuel depth true
        else if bool_decide (kind = BEBOP_TOKEN_LPAREN) then ADVANCE;; decorated_loop fuel (depth + 1) false
        else if bool_decide (kind = BEBOP_TOKEN_RPAREN) then
          ADVANCE;; decorated_loop fuel (depth - 1) (if depth - 1 =? 0 then false else after_at)
        else if 0 <? depth then ADVANCE;; decorated_loop fuel depth after_at
        else mret (bebop__is_def_keyword kind || bool_decide (kind ∈ [BEBOP_TOKEN_EXPORT; BEBOP_TOKEN_LOCAL; BEBOP_TOKEN_MUT]))
  end.

Definition bebop__parse_is_nested_def_start : M bool :=
  tok ← CURRENT;
  let kind := tk_kind tok in
  if bebop__is_def_keyword kind then mret true
  else if bool_decide (kind ∈ [BEBOP_TOKEN_EXPORT; BEBOP_TOKEN_LOCAL]) then
    current ← gets pr_current;
    if u32 (current + 1) <? zlen tokens then
      next ← token_at tokens (u32 (current + 1));
      mret (bebop__is_def_keyword (tk_kind next) || bool_decide (tk_kind next = BEBOP_TOKEN_MUT))
    else mret false
  else if bool_decide (kind = BEBOP_TOKEN_MUT) then mret true
  else if bool_decide (kind = BEBOP_TOKEN_AT) then
    save_pos ← gets pr_current;
    is_def ← decorated_loop (parse_fuel tokens) 0 false;
    modify (set_current save_pos);;
    mret is_def
  else mret false.

(** The name of a definition, the null pointer without one. *)
Definition bebop__parse_def_name : M (option bebop_token_t) :=
  ok ← CONSUME BEBOP_TOKEN_IDENTIFIER;
  if ok : bool then name ← PREVIOUS; mret (Some name) else mret None.

Definition bebop__parse_check_duplicate_def (def : def_ptr) : M unit :=
  d ← on_registry (deref def);
  if bebop_str_is_null (df_name d) then mret tt
  else
    sc ← on_registry (schema_at schema);
    match bebop__schema_find_def sc (df_name d) with
    | None => mret tt
    | Some existing =>
        e ← on_registry (deref existing);
        bebop__parse_error_at grants (df_name_span d) BEBOP_DIAG_MULTIPLE_DEFINITIONS;;
        add_label grants (df_name_span e)
    end.

(** ** Members of enums *)

(** The value of a member and the span of its expression. *)
Definition member_value (members : list bebop_enum_member_t) : M (Z * bebop_span_t) :=
  start ← gets pr_current;
  value_start ← CURRENT;
  value ← bebop__parse_expression grants tokens members;
  current ← gets pr_current;
  last ← PREVIOUS;
  mret (value, if current - 1 <? start then tk_span value_start
               else bebop__parse_span_from_tokens (Some (tk_span value_start)) (Some (tk_span last))).

Definition make_member (name : bebop_token_t) (decorators : list bebop_decorator_t) (doc value : Z) (value_span : bebop_span_t) : M bebop_enum_member_t :=
  span ← part_span decorators (tk_span name);
  text ← lift (load_bytes source (off value_span) (len value_span));
  value_expr ← on_registry (bebop_intern_n text);
  mret (mkMember (tk_lexeme name) span (tk_span name) value_span value_expr doc (u64 value) decorators).

(** The members of the definition are updated with each one. *)
Definition set_members (def : def_ptr) (members : list bebop_enum_member_t) : M unit :=
  d ← on_registry (deref def);
  on_registry (put_def def (set_body (match df_body d with EnumDef base_type _ => EnumDef base_type members | b => b end) d)).

Definition bebop__parse_enum_member_inline (def : def_ptr) (parts : parts_t bebop_enum_member_t) : M (parts_t bebop_enum_member_t) :=
  decorators ← bebop__parse_decorators grants env tokens;
  named ← CONSUME_NAME;
  if negb (named : bool) then mret parts
  else
    name ← PREVIOUS;
    bebop__check_reserved_name grants (tk_span name) (tk_lexeme name);;
    on_sema (bebop_sema_check_duplicate_name grants (tk_lexeme name) (tk_span name));;
    doc ← extract_doc name;
    equals ← CONSUME_AFTER BEBOP_TOKEN_EQUALS;
    if negb (equals : bool) then mret parts
    else
      '(value, value_span) ← member_value (pa_items parts);
      semicolon ← CONSUME_AFTER BEBOP_TOKEN_SEMICOLON;
      if negb (semicolon : bool) then mret parts
      else
        parts' ← push_part sizeof_member parts (make_member name decorators doc value value_span);
        if (length (pa_items parts') =? length (pa_items parts))%nat then mret parts'
        else
          set_members def (pa_items parts');;
          d ← on_registry (deref def);
          match df_body d with
          | EnumDef base_type members =>
              sema (λ strings, bebop_sema_check_enum_member grants strings base_type (df_decorators d) members (length (pa_items parts)));; mret parts'
          | _ => ub
          end.

(** ** Fields *)

(** The index of a field of a message, in parentheses; [None] is a return without a field. *)
Definition field_index : M (option Z) :=
  open ← CONSUME_AFTER BEBOP_TOKEN_LPAREN;
  if negb (open : bool) then mret None
  else
    number ← CONSUME BEBOP_TOKEN_NUMBER;
    if negb (number : bool) then mret None
    else
      idx_tok ← PREVIOUS;
      idx_str ← text_of (tk_lexeme idx_tok);
      idx_val ← lift (bebop_util_parse_int idx_str);
      match idx_val with
      | None => ERROR BEBOP_DIAG_INVALID_FIELD_INDEX;; mret None
      | Some idx_val =>
          if (idx_val <? 1) || (BEBOP_MAX_FIELD_INDEX <? idx_val) then ERROR BEBOP_DIAG_INVALID_FIELD_INDEX;; mret None
          else
            on_sema (bebop_sema_check_field_index grants idx_val (tk_span idx_tok));;
            close ← CONSUME_AFTER BEBOP_TOKEN_RPAREN;
            mret (if close : bool then Some idx_val else None)
      end.

(** Behind the name and the index: the type, the checks of the name, and the end. *)
Definition field_rest (parent : bebop_def_t) (fields : parts_t bebop_field_t) (decorators : list bebop_decorator_t)
    (name : bebop_token_t) (index : Z) (is_message : bool) : M (parts_t bebop_field_t) :=
  colon ← CONSUME_AFTER BEBOP_TOKEN_COLON;
  if negb (colon : bool) then mret fields
  else
    type ← parse_type;
    match type with
    | None => mret fields
    | Some type =>
        (if negb is_message && bool_decide (def_kind parent = BEBOP_DEF_STRUCT) then
           on_sema (bebop_sema_check_self_reference grants (pt_type type) (pt_span type));; mret tt
         else mret tt);;
        (if bebop_str_eq (tk_lexeme name) (df_name parent) then
           bebop__parse_error_at grants (tk_span name) BEBOP_DIAG_RESERVED_IDENTIFIER
         else mret tt);;
        bebop__check_reserved_name grants (tk_span name) (tk_lexeme name);;
        on_sema (bebop_sema_check_duplicate_name grants (tk_lexeme name) (tk_span name));;
        doc ← extract_doc name;
        semicolon ← CONSUME_AFTER BEBOP_TOKEN_SEMICOLON;
        if negb (semicolon : bool) then mret fields
        else
          push_part sizeof_field fields
            (span ← part_span decorators (tk_span name);
             mret (mkField (tk_lexeme name) span (tk_span name) doc (pt_type type) index decorators))
    end.

Definition bebop__parse_field_inline (parent : def_ptr) (fields : parts_t bebop_field_t) (is_message : bool) : M (parts_t bebop_field_t) :=
  decorators ← bebop__parse_decorators grants env tokens;
  named ← CONSUME_NAME;
  if negb (named : bool) then mret fields
  else
    name ← PREVIOUS;
    index ← (if is_message then field_index else mret (Some 0));
    match index with
    | None => mret fields
    | Some index => d ← on_registry (deref parent); field_rest d fields decorators name index is_message
    end.

(** ** Methods *)

(** A type that may be a stream of its values. *)
Definition method_part : M (option (bool * parsed_type)) :=
  stream ← MATCH BEBOP_TOKEN_STREAM;
  type ← parse_type;
  match type with
  | None => mret None
  | Some type => on_sema (bebop_sema_check_service_type grants (pt_type type) (pt_span type));; mret (Some (stream, type))
  end.

(** [/service/method] and its hash; 0 for a path that is too long. *)
Definition method_id_of (service : Z) (name : bebop_token_t) : M Z :=
  svc_name ← text_of service;
  mth_name ← text_of (tk_lexeme name);
  let path := 47 :: c_string svc_name ++ 47 :: c_string mth_name in
  if zlen path <? sizeof_path_buf then mret (bebop_util_hash_method_id path)
  else bebop__parse_error_at grants (tk_span name) BEBOP_DIAG_INVALID_FIELD;; mret 0.

Fixpoint find_method_id (methods : list bebop_method_t) (id : Z) : option bebop_method_t :=
  match methods with
  | [] => None
  | m :: methods => if me_id m =? id then Some m else find_method_id methods id
  end.

Definition bebop__parse_method_inline (service : def_ptr) (methods : parts_t bebop_method_t) : M (parts_t bebop_method_t) :=
  decorators ← bebop__parse_decorators grants env tokens;
  named ← CONSUME_NAME;
  if negb (named : bool) then mret methods
  else
    name ← PREVIOUS;
    bebop__check_reserved_name grants (tk_span name) (tk_lexeme name);;
    on_sema (bebop_sema_check_duplicate_name grants (tk_lexeme name) (tk_span name));;
    doc ← extract_doc name;
    open ← CONSUME_AFTER BEBOP_TOKEN_LPAREN;
    if negb (open : bool) then mret methods
    else
      request ← method_part;
      match request with
      | None => mret methods
      | Some (request_stream, request_type) =>
          close ← CONSUME_AFTER BEBOP_TOKEN_RPAREN;
          if negb (close : bool) then mret methods
          else
            colon ← CONSUME_AFTER BEBOP_TOKEN_COLON;
            if negb (colon : bool) then mret methods
            else
              response ← method_part;
              match response with
              | None => mret methods
              | Some (response_stream, response_type) =>
                  semicolon ← CONSUME_AFTER BEBOP_TOKEN_SEMICOLON;
                  if negb (semicolon : bool) then mret methods
                  else
                    d ← on_registry (deref service);
                    method_id ← method_id_of (df_name d) name;
                    match find_method_id (pa_items methods) method_id with
                    | Some other =>
                        bebop__parse_error_at grants (tk_span name) BEBOP_DIAG_DUPLICATE_METHOD_ID;;
                        add_label grants (me_name_span other);;
                        mret methods
                    | None =>
                        push_part sizeof_method methods
                          (span ← part_span decorators (tk_span name);
                           mret (mkMethod (tk_lexeme name) span (tk_span name) doc (pt_type request_type) (pt_type response_type)
                                   (method_type_of request_stream response_stream) method_id decorators))
                    end
              end
      end.
End ParseMember.
