(* ===== verification/ParseMacro.v ===== *)
(** Definitions of decorators ([bebop/src/bebop_parser.c], lines 2036 to 2513): targets,
    parameters, and blocks of Lua, of which the place is kept. *)
From stdpp Require Import list gmap strings.
From S2P Require Import Prelude.
From S2P Require Import Scanner.
From S2P Require Import Schema.
From S2P Require Import FloatText.
From S2P Require Import Fuzzy.
From S2P Require Import Diagnostics.
From S2P Require Import Sema.
From S2P Require Import Registry.
From S2P Require Import Parser.
From S2P Require Import ParseType.
From S2P Require Import ParseLiteral.
From S2P Require Import ParseMember.

Definition BEBOP_DIAG_DUPLICATE_MACRO_DECORATOR : Z := 146.
Definition sizeof_literal : Z := 64.
Definition sizeof_macro_param : Z := 64.
Definition sizeof_def : Z := 248.
(** [params\[32\]] *)
Definition max_params : Z := 32.

Definition BEBOP_DECORATOR_TARGETS : list (string * Z) :=
  [("ENUM", 0); ("STRUCT", 1); ("MESSAGE", 2); ("UNION", 3); ("FIELD", 4); ("SERVICE", 5); ("METHOD", 6); ("BRANCH", 7)]%string.
Definition bebop__target_constants : list (list Z * Z) :=
  map (λ t, (chars t.1, Z.shiftl 1 t.2)) BEBOP_DECORATOR_TARGETS ++ [(chars "ALL", BEBOP_TARGET_ALL)].
Definition bebop__target_names : list (list Z) := map fst bebop__target_constants.
Fixpoint target_in (table : list (list Z * Z)) (name : list Z) : Z :=
  match table with
  | [] => BEBOP_TARGET_NONE
  | (s, target) :: table => if bool_decide (s = name) then target else target_in table name
  end.
Definition bebop__parse_target_constant (name : list Z) : Z := target_in bebop__target_constants name.

(** The names of types that a parameter may have. *)
Definition bebop__param_type_names : list (list Z) := map fst bebop__scalar_types ++ [chars "type"].

(** [bebop__is_keyword_kind] is [is_keyword_kind]. *)
Definition bebop__is_name_token (tok : bebop_token_t) : bool :=
  bool_decide (tk_kind tok = BEBOP_TOKEN_IDENTIFIER) || is_keyword_kind (tk_kind tok).

(** The body of a decorator as far as it has been read. *)
Record macro_body : Type := mkMacro {
  mb_targets : option Z;
  mb_allow_multiple : bool;
  mb_params : list bebop_macro_param_def_t;
  mb_validate : bebop_span_t * Z;
  mb_export : bebop_span_t * Z
}.
Definition no_body : macro_body := mkMacro None false [] (Sema.no_span, 0) (Sema.no_span, 0).
Definition with_targets (t : Z) (b : macro_body) : macro_body := mkMacro (Some t) (mb_allow_multiple b) (mb_params b) (mb_validate b) (mb_export b).
Definition with_multiple (m : bool) (b : macro_body) : macro_body := mkMacro (mb_targets b) m (mb_params b) (mb_validate b) (mb_export b).
Definition with_param (p : bebop_macro_param_def_t) (b : macro_body) : macro_body :=
  mkMacro (mb_targets b) (mb_allow_multiple b) (mb_params b ++ [p]) (mb_validate b) (mb_export b).
Definition with_validate (s : bebop_span_t * Z) (b : macro_body) : macro_body := mkMacro (mb_targets b) (mb_allow_multiple b) (mb_params b) s (mb_export b).
Definition with_export (s : bebop_span_t * Z) (b : macro_body) : macro_body := mkMacro (mb_targets b) (mb_allow_multiple b) (mb_params b) (mb_validate b) s.

Section ParseMacro.
Context {cc : Context} {dm : DefMap def_ptr} {ns : DefMap (option bebop_span_t)} `{Libc} (grants : nat → bool).
Context (env : env_t) (tokens : list bebop_token_t) (source : list Z) (trivia : list bebop_trivia_t) (schema : schema_ptr).
Abbreviation M := (C bebop_parser_t).
Abbreviation CURRENT := (BEBOP_PARSE_CURRENT tokens).
Abbreviation PREVIOUS := (BEBOP_PARSE_PREVIOUS tokens).
Abbreviation CHECK := (BEBOP_PARSE_CHECK tokens).
Abbreviation AT_END := (BEBOP_PARSE_AT_END tokens).
Abbreviation ADVANCE := (BEBOP_PARSE_ADVANCE tokens).
Abbreviation ERROR_CURRENT := (BEBOP_PARSE_ERROR_CURRENT grants tokens).
Abbreviation CONSUME := (BEBOP_PARSE_CONSUME grants tokens).
Abbreviation CONSUME_AFTER := (BEBOP_PARSE_CONSUME_AFTER grants tokens).
Abbreviation MATCH := (BEBOP_PARSE_MATCH tokens).
Abbreviation extract_doc tok := (bebop__parse_extract_doc source trivia (tk_leading tok)).
Abbreviation parse_literal := (bebop__parse_literal grants env tokens).

(** A definition in the arena; without room for it the parser gives up. *)
Definition new_def (d : bebop_def_t) : M (option def_ptr) :=
  addr ← on_registry (alloc_n sizeof_def 1 8);
  match addr with
  | None => bebop__parse_fatal;; mret None
  | Some _ => on_registry (λ r, Some (Some (length (rg_defs r)), set_defs (rg_defs r ++ [d]) r))
  end.
(** Fuel for full names: the number of definitions. *)
Definition with_depth {A} (c : nat → M A) : M A := n ← gets (λ p, length (rg_defs (pr_registry p))); c n.
Definition add_def (def : def_ptr) : M unit := with_depth (λ n, on_registry (bebop__schema_add_def n schema def)).
Definition add_nested (parent def : def_ptr) : M unit := with_depth (λ n, on_registry (bebop__def_add_nested n parent def)).

(** ** Targets *)

Definition bebop__suggest_target : list Z → bebop_span_t → M unit := suggest_nearest grants bebop__target_names.
Definition bebop__suggest_param_type : list Z → bebop_span_t → M unit := suggest_nearest grants bebop__param_type_names.

(** The target that was just read; without one of that name, a report. *)
Definition target_here : M Z :=
  tok ← PREVIOUS;
  name ← text_of (tk_lexeme tok);
  let target := bebop__parse_target_constant name in
  if target =? BEBOP_TARGET_NONE then
    bebop__parse_error_at grants (tk_span tok) BEBOP_DIAG_INVALID_MACRO;;
    bebop__suggest_target name (tk_span tok);;
    mret BEBOP_TARGET_NONE
  else mret target.

(** Fuel: the number of tokens. *)
Fixpoint targets_loop (fuel : nat) (result : Z) : M Z :=
  match fuel with
  | O => ub
  | S fuel =>
      more ← MATCH BEBOP_TOKEN_PIPE;
      if negb (more : bool) then mret result
      else
        named ← CONSUME_AFTER BEBOP_TOKEN_IDENTIFIER;
        if negb (named : bool) then mret result
        else
          target ← target_here;
          if target =? BEBOP_TARGET_NONE then mret result else targets_loop fuel (Z.lor result target)
  end.
Definition bebop__parse_target_expr : M Z :=
  named ← CONSUME BEBOP_TOKEN_IDENTIFIER;
  if negb (named : bool) then mret BEBOP_TARGET_NONE
  else
    target ← target_here;
    if target =? BEBOP_TARGET_NONE then mret BEBOP_TARGET_NONE else targets_loop (parse_fuel tokens) target.

(** ** Blocks of Lua *)

(** The place of the text between the brackets, and the number of equals signs in them. *)
Definition bebop__parse_lua_block : M (option (bebop_span_t * Z)) :=
  tok ← CURRENT;
  if negb (bool_decide (tk_kind tok = BEBOP_TOKEN_RAW_BLOCK)) then ERROR_CURRENT BEBOP_DIAG_INVALID_MACRO;; mret None
  else
    ADVANCE;;
    content ← str_get (tk_lexeme tok);
    match content with
    | None => mret None
    | Some content =>
        let level := u32 (u64 (len (tk_span tok) - zlen content - 4) / 2) in
        mret (Some (mkSpan (u32 (off (tk_span tok) + 2 + level)) (u32 (zlen content)) (start_line (tk_span tok))
                      (u32 (start_col (tk_span tok) + 2 + level)) 0 0, level))
    end.

(** ** Parameters *)

Definition param_type : M (option bebop_type_kind_t) :=
  named ← CONSUME BEBOP_TOKEN_IDENTIFIER;
  if negb (named : bool) then mret None
  else
    type_tok ← PREVIOUS;
    type_name ← text_of (tk_lexeme type_tok);
    if bool_decide (type_name = chars "type") then mret (Some BEBOP_TYPE_DEFINED)
    else
      match bebop__parse_lookup_scalar type_name with
      | Some kind => mret (Some kind)
      | None =>
          bebop__parse_error_at grants (tk_span type_tok) BEBOP_DIAG_INVALID_MACRO;;
          bebop__suggest_param_type type_name (tk_span type_tok);;
          mret None
      end.

(** The outer option is a return without a parameter. *)
Definition param_default (type : bebop_type_kind_t) : M (option (option bebop_literal_t)) :=
  given ← CHECK BEBOP_TOKEN_EQUALS;
  if negb (given : bool) then mret (Some None)
  else
    ADVANCE;;
    slot ← on_registry (alloc_n sizeof_literal 1 8);
    match slot with
    | None => mret None
    | Some _ =>
        value ← parse_literal type;
        match value with
        | Some value => mret (Some (Some value))
        | None => ERROR_CURRENT BEBOP_DIAG_INVALID_MACRO;; mret None
        end
    end.

(** Fuel: the number of tokens. *)
Fixpoint values_loop (fuel : nat) (type : bebop_type_kind_t) (values : parts_t bebop_literal_t) : M (option (list bebop_literal_t)) :=
  match fuel with
  | O => ub
  | S fuel =>
      close ← CHECK BEBOP_TOKEN_RBRACKET;
      at_end ← AT_END;
      if (close : bool) || (at_end : bool) then mret (Some (pa_items values))
      else
        slot ← array_push sizeof_literal (zlen (pa_items values)) (pa_array values);
        match slot with
        | None => mret None
        | Some a =>
            value ← parse_literal type;
            match value with
            | None => ERROR_CURRENT BEBOP_DIAG_INVALID_MACRO;; mret None
            | Some value =>
                close ← CHECK BEBOP_TOKEN_RBRACKET;
                go_on ← (if close : bool then mret true else CONSUME BEBOP_TOKEN_COMMA);
                if negb (go_on : bool) then mret None else values_loop fuel type (mkParts (pa_items values ++ [value]) a)
            end
        end
  end.
Definition param_values (type : bebop_type_kind_t) : M (option (list bebop_literal_t)) :=
  tok ← CURRENT;
  kw ← text_of (tk_lexeme tok);
  if bool_decide (tk_kind tok = BEBOP_TOKEN_IDENTIFIER) && bool_decide (kw = chars "in") then
    ADVANCE;;
    open ← CONSUME_AFTER BEBOP_TOKEN_LBRACKET;
    if negb (open : bool) then mret None
    else
      values ← values_loop (parse_fuel tokens) type no_parts;
      match values with
      | None => mret None
      | Some values => close ← CONSUME BEBOP_TOKEN_RBRACKET; mret (if close : bool then Some values else None)
      end
  else mret (Some []).

(** Whether a parameter is required; [None] is a report. *)
Definition param_modifier : M (option bool) :=
  tok ← CURRENT;
  match tk_kind tok with
  | BEBOP_TOKEN_BANG => ADVANCE;; mret (Some true)
  | BEBOP_TOKEN_QUESTION => ADVANCE;; mret (Some false)
  | _ => ERROR_CURRENT BEBOP_DIAG_INVALID_MACRO;; mret None
  end.

Definition bebop__parse_macro_param : M (option bebop_macro_param_def_t) :=
  param_keyword ← PREVIOUS;
  description ← extract_doc param_keyword;
  name ← CURRENT;
  if negb (bebop__is_name_token name) then ERROR_CURRENT BEBOP_DIAG_INVALID_MACRO;; mret None
  else
    ADVANCE;;
    required ← param_modifier;
    match required with
    | None => mret None
    | Some required =>
        colon ← CONSUME_AFTER BEBOP_TOKEN_COLON;
        if negb (colon : bool) then mret None
        else
          type ← param_type;
          match type with
          | None => mret None
          | Some type =>
              default_value ← param_default type;
              match default_value with
              | None => mret None
              | Some default_value =>
                  values ← param_values type;
                  match values with
                  | None => mret None
                  | Some values =>
                      mret (Some (mkMacroParam (tk_lexeme name) description type required default_value values (tk_span param_keyword)))
                  end
              end
          end
    end.

(** ** The body *)

(** An item of a body that was read, or the search for the next one. *)
Definition item_or_skip (read : option (macro_body → macro_body)) (b : macro_body) : M macro_body :=
  match read with
  | Some read => mret (read b)
  | None => bebop__parse_synchronize_in_decorator tokens;; mret b
  end.
(** An item behind an equals sign. *)
Definition behind_equals (item : M (option (macro_body → macro_body))) : M (option (macro_body → macro_body)) :=
  equals ← CONSUME_AFTER BEBOP_TOKEN_EQUALS; if equals : bool then item else mret None.
Definition multiple_item : M (option (macro_body → macro_body)) :=
  tok ← CURRENT;
  match tk_kind tok with
  | BEBOP_TOKEN_TRUE => ADVANCE;; mret (Some (with_multiple true))
  | BEBOP_TOKEN_FALSE => ADVANCE;; mret (Some (with_multiple false))
  | _ => ERROR_CURRENT BEBOP_DIAG_INVALID_MACRO;; mret None
  end.
Definition param_item (b : macro_body) : M (option (macro_body → macro_body)) :=
  if max_params <=? zlen (mb_params b) then ERROR_CURRENT BEBOP_DIAG_INVALID_MACRO;; mret None
  else param ← bebop__parse_macro_param; mret (match param with Some param => Some (with_param param) | None => None end).

Definition body_item (b : macro_body) : M macro_body :=
  item_tok ← CURRENT;
  if negb (bebop__is_name_token item_tok) then
    bebop__parse_error_at grants (tk_span item_tok) BEBOP_DIAG_INVALID_MACRO;;
    item_or_skip None b
  else
    item_name ← text_of (tk_lexeme item_tok);
    if bool_decide (item_name = chars "targets") then
      ADVANCE;;
      item ← behind_equals (targets ← bebop__parse_target_expr; mret (Some (with_targets targets)));
      item_or_skip item b
    else if bool_decide (item_name = chars "multiple") then
      ADVANCE;; item ← behind_equals multiple_item; item_or_skip item b
    else if bool_decide (item_name = chars "param") then
      ADVANCE;; item ← param_item b; item_or_skip item b
    else if bool_decide (item_name = chars "validate") then
      ADVANCE;; block ← bebop__parse_lua_block; item_or_skip (with_validate <$> block) b
    else if bool_decide (item_name = chars "export") then
      ADVANCE;; block ← bebop__parse_lua_block; item_or_skip (with_export <$> block) b
    else
      bebop__parse_error_at grants (tk_span item_tok) BEBOP_DIAG_INVALID_MACRO;;
      bebop__suggest_decorator_item grants item_name (tk_span item_tok);;
      item_or_skip None b.

(** Fuel: the number of tokens. *)
Fixpoint body_loop (fuel : nat) (b : macro_body) : M macro_body :=
  match fuel with
  | O => ub
  | S fuel =>
      close ← CHECK BEBOP_TOKEN_RBRACE;
      at_end ← AT_END;
      if (close : bool) || (at_end : bool) then mret b else b ← body_item b; body_loop fuel b
  end.

(** ** The definition *)

(** The definition of a body that was read. *)
Definition macro_definition (hash_tok name_tok close_brace : bebop_token_t) (description : Z) (b : macro_body) (targets : Z) : bebop_def_t :=
  mkDef (tk_lexeme name_tok) 0 (bebop__parse_span_from_tokens (Some (tk_span hash_tok)) (Some (tk_span close_brace)))
    (tk_span name_tok) description [] None None BEBOP_VIS_DEFAULT [] [] 0
    (DecoratorDef (mkDecoratorDef targets (mb_allow_multiple b) (mb_params b) (mb_validate b).1 (mb_export b).1 (mb_validate b).2 (mb_export b).2)).

Definition macro_body_and_end (hash_tok name_tok : bebop_token_t) (description : Z) : M unit :=
  b ← body_loop (parse_fuel tokens) no_body;
  close ← CONSUME BEBOP_TOKEN_RBRACE;
  if negb (close : bool) then mret tt
  else
    close_brace ← PREVIOUS;
    match mb_targets b with
    | None => bebop__parse_error_at grants (tk_span name_tok) BEBOP_DIAG_INVALID_MACRO
    | Some targets =>
        def ← new_def (macro_definition hash_tok name_tok close_brace description b targets);
        match def with
        | None => mret tt
        | Some def =>
            params ← (if 0 <? zlen (mb_params b) then on_registry (alloc_n sizeof_macro_param (zlen (mb_params b)) 8) else mret (Some 0));
            match params with
            | None => mret tt
            | Some _ => add_def def
            end
        end
    end.

(** The head: [#decorator(name) {]; [None] when it was not there, with the search for the next
    statement done. *)
Definition macro_head : M (option bebop_token_t) :=
  let stop : M (option bebop_token_t) := bebop__parse_synchronize tokens;; mret None in
  decorator_kw ← CURRENT;
  kw_str ← text_of (tk_lexeme decorator_kw);
  if negb (bool_decide (tk_kind decorator_kw = BEBOP_TOKEN_IDENTIFIER) && bool_decide (kw_str = chars "decorator")) then
    ERROR_CURRENT BEBOP_DIAG_INVALID_MACRO;; stop
  else
    ADVANCE;;
    open ← CONSUME_AFTER BEBOP_TOKEN_LPAREN;
    if negb (open : bool) then stop
    else
      named ← CONSUME BEBOP_TOKEN_IDENTIFIER;
      if negb (named : bool) then stop
      else
        name_tok ← PREVIOUS;
        sc ← on_registry (schema_at schema);
        match bebop__schema_find_def sc (tk_lexeme name_tok) with
        | Some existing =>
            e ← on_registry (deref existing);
            bebop__parse_error_at grants (tk_span name_tok) BEBOP_DIAG_DUPLICATE_MACRO_DECORATOR;;
            add_label grants (df_name_span e);;
            stop
        | None =>
            close ← CONSUME_AFTER BEBOP_TOKEN_RPAREN;
            if negb (close : bool) then stop
            else
              brace ← CONSUME_AFTER BEBOP_TOKEN_LBRACE;
              if negb (brace : bool) then stop else mret (Some name_tok)
        end.

Definition bebop__parse_macro_decorator : M unit :=
  ADVANCE;;
  hash_tok ← PREVIOUS;
  description ← extract_doc hash_tok;
  name_tok ← macro_head;
  match name_tok with
  | None => mret tt
  | Some name_tok => macro_body_and_end hash_tok name_tok description
  end.
End ParseMacro.
