(* ===== verification/ParseFile.v ===== *)
(** The parser of files ([bebop/src/bebop_parser.c], lines 1590 to 1632 and 2515 to 3823): a
    machine with a stack of frames, one for the file and one for each definition that is open
    around the cursor.

    The frame on top is the argument of each handler, those below it are the rest of the
    stack; a handler answers with the new stack. *)
From stdpp Require Import list gmap strings.
From S2P Require Import Prelude.
From S2P Require Import Scanner.
From S2P Require Import Schema.
From S2P Require Import Literals.
From S2P Require Import FloatText.
From S2P Require Import Diagnostics.
From S2P Require Import Sema.
From S2P Require Import Registry.
From S2P Require Import Parser.
From S2P Require Import ParseType.
From S2P Require Import ParseLiteral.
From S2P Require Import ParseMember.
From S2P Require Import ParseMacro.

Definition BEBOP_DIAG_INVALID_UNION_BRANCH : Z := 113.
Definition BEBOP_DIAG_DUPLICATE_UNION_DISCRIMINATOR : Z := 114.
Definition BEBOP_DIAG_EMPTY_UNION : Z := 115.
Definition BEBOP_DIAG_INVALID_CONST_TYPE : Z := 122.
Definition BEBOP_DIAG_INVALID_EDITION : Z := 136.
Definition BEBOP_DIAG_DUPLICATE_PACKAGE : Z := 137.
Definition BEBOP_DIAG_PACKAGE_AFTER_IMPORT : Z := 138.
Definition BEBOP_DIAG_PACKAGE_AFTER_DEFINITION : Z := 139.
Definition BEBOP_DIAG_UNION_REF_INVALID_TYPE : Z := 141.
Definition BEBOP_DIAG_DEPRECATED_FEATURE_WARNING : Z := 200.
Definition BEBOP_DIAG_REDUNDANT_EXPORT_WARNING : Z := 202.
Definition BEBOP_DIAG_REDUNDANT_LOCAL_WARNING : Z := 203.

Definition BEBOP_PARSE_STACK_SIZE : Z := 64.
Definition BEBOP_MIN_DISCRIMINATOR : Z := 1.
Definition BEBOP_MAX_DISCRIMINATOR : Z := 255.
Definition sizeof_branch : Z := 96.

Inductive bebop_parse_state_t : Set :=
  | PARSE_STATE_FILE | PARSE_STATE_DEFINITION | PARSE_STATE_IMPORT | PARSE_STATE_EDITION | PARSE_STATE_PACKAGE
  | PARSE_STATE_ENUM_START | PARSE_STATE_ENUM_BODY | PARSE_STATE_ENUM_MEMBER
  | PARSE_STATE_STRUCT_START | PARSE_STATE_STRUCT_BODY | PARSE_STATE_STRUCT_FIELD
  | PARSE_STATE_MESSAGE_START | PARSE_STATE_MESSAGE_BODY | PARSE_STATE_MESSAGE_FIELD
  | PARSE_STATE_UNION_START | PARSE_STATE_UNION_BODY | PARSE_STATE_UNION_BRANCH
  | PARSE_STATE_SERVICE_START | PARSE_STATE_SERVICE_BODY | PARSE_STATE_SERVICE_METHOD
  | PARSE_STATE_CONST_START.

(** The parts of a definition under construction, of which it has one kind; the code counts
    them and keeps the capacity of their array. *)
Record bebop_parse_frame_t : Type := mkParseFrame {
  fr_state : bebop_parse_state_t;
  fr_def : option def_ptr;
  fr_keyword : bebop_span_t;
  fr_decorators : list bebop_decorator_t;
  fr_is_mutable : bool;
  fr_visibility : bebop_visibility_t;
  fr_nested_parent : option def_ptr;
  fr_members : parts_t bebop_enum_member_t;
  fr_fields : parts_t bebop_field_t;
  fr_branches : parts_t bebop_union_branch_t;
  fr_methods : parts_t bebop_method_t
}.
Definition new_frame (state : bebop_parse_state_t) (nested_parent : option def_ptr) : bebop_parse_frame_t :=
  mkParseFrame state None Sema.no_span [] false BEBOP_VIS_DEFAULT nested_parent no_parts no_parts no_parts no_parts.
Definition in_state (state : bebop_parse_state_t) (f : bebop_parse_frame_t) : bebop_parse_frame_t :=
  mkParseFrame state (fr_def f) (fr_keyword f) (fr_decorators f) (fr_is_mutable f) (fr_visibility f) (fr_nested_parent f)
    (fr_members f) (fr_fields f) (fr_branches f) (fr_methods f).
(** A definition has begun, without parts. *)
Definition in_body (state : bebop_parse_state_t) (def : def_ptr) (keyword : bebop_span_t) (f : bebop_parse_frame_t) : bebop_parse_frame_t :=
  mkParseFrame state (Some def) keyword (fr_decorators f) (fr_is_mutable f) (fr_visibility f) (fr_nested_parent f) no_parts no_parts no_parts no_parts.
(** A definition at the top has ended. *)
Definition back_in_file (f : bebop_parse_frame_t) : bebop_parse_frame_t :=
  mkParseFrame PARSE_STATE_FILE None (fr_keyword f) [] (fr_is_mutable f) (fr_visibility f) (fr_nested_parent f)
    (fr_members f) (fr_fields f) (fr_branches f) (fr_methods f).
Definition with_modifiers (state : bebop_parse_state_t) (decorators : list bebop_decorator_t) (is_mutable : bool)
    (visibility : bebop_visibility_t) (f : bebop_parse_frame_t) : bebop_parse_frame_t :=
  mkParseFrame state (fr_def f) (fr_keyword f) decorators is_mutable visibility (fr_nested_parent f)
    (fr_members f) (fr_fields f) (fr_branches f) (fr_methods f).
Definition with_members (l : parts_t bebop_enum_member_t) (f : bebop_parse_frame_t) : bebop_parse_frame_t :=
  mkParseFrame (fr_state f) (fr_def f) (fr_keyword f) (fr_decorators f) (fr_is_mutable f) (fr_visibility f) (fr_nested_parent f)
    l (fr_fields f) (fr_branches f) (fr_methods f).
Definition with_fields (l : parts_t bebop_field_t) (f : bebop_parse_frame_t) : bebop_parse_frame_t :=
  mkParseFrame (fr_state f) (fr_def f) (fr_keyword f) (fr_decorators f) (fr_is_mutable f) (fr_visibility f) (fr_nested_parent f)
    (fr_members f) l (fr_branches f) (fr_methods f).
Definition with_branches (l : parts_t bebop_union_branch_t) (f : bebop_parse_frame_t) : bebop_parse_frame_t :=
  mkParseFrame (fr_state f) (fr_def f) (fr_keyword f) (fr_decorators f) (fr_is_mutable f) (fr_visibility f) (fr_nested_parent f)
    (fr_members f) (fr_fields f) l (fr_methods f).
Definition with_methods (l : parts_t bebop_method_t) (f : bebop_parse_frame_t) : bebop_parse_frame_t :=
  mkParseFrame (fr_state f) (fr_def f) (fr_keyword f) (fr_decorators f) (fr_is_mutable f) (fr_visibility f) (fr_nested_parent f)
    (fr_members f) (fr_fields f) (fr_branches f) l.

Definition set_span (span : bebop_span_t) (d : bebop_def_t) : bebop_def_t :=
  mkDef (df_name d) (df_fqn d) span (df_name_span d) (df_documentation d) (df_decorators d) (df_schema d) (df_parent d) (df_visibility d)
    (df_nested_defs d) (df_dependents d) (df_dependents_capacity d) (df_body d).

Definition is_byte_array (type : bebop_type_t) : bool :=
  match type with TArray (TScalar BEBOP_TYPE_BYTE) => true | _ => false end.

(** The values a constant of a type may have. *)
Definition literal_matches (type : bebop_type_t) (value : literal_value) : bool :=
  match type_kind type, value with
  | BEBOP_TYPE_ARRAY, LitBytes _ => true
  | BEBOP_TYPE_ARRAY, _ => negb (is_byte_array type)
  | BEBOP_TYPE_BOOL, LitBool _ => true
  | BEBOP_TYPE_BOOL, _ => false
  | (BEBOP_TYPE_BYTE | BEBOP_TYPE_INT8 | BEBOP_TYPE_INT16 | BEBOP_TYPE_UINT16 | BEBOP_TYPE_INT32 | BEBOP_TYPE_UINT32
    | BEBOP_TYPE_INT64 | BEBOP_TYPE_UINT64 | BEBOP_TYPE_INT128 | BEBOP_TYPE_UINT128), LitInt _ => true
  | (BEBOP_TYPE_BYTE | BEBOP_TYPE_INT8 | BEBOP_TYPE_INT16 | BEBOP_TYPE_UINT16 | BEBOP_TYPE_INT32 | BEBOP_TYPE_UINT32
    | BEBOP_TYPE_INT64 | BEBOP_TYPE_UINT64 | BEBOP_TYPE_INT128 | BEBOP_TYPE_UINT128), _ => false
  | (BEBOP_TYPE_FLOAT16 | BEBOP_TYPE_FLOAT32 | BEBOP_TYPE_FLOAT64 | BEBOP_TYPE_BFLOAT16), (LitFloat _ | LitInt _) => true
  | (BEBOP_TYPE_FLOAT16 | BEBOP_TYPE_FLOAT32 | BEBOP_TYPE_FLOAT64 | BEBOP_TYPE_BFLOAT16), _ => false
  | BEBOP_TYPE_STRING, LitString _ => true
  | BEBOP_TYPE_STRING, _ => false
  | BEBOP_TYPE_UUID, LitUuid _ => true
  | BEBOP_TYPE_UUID, _ => false
  | BEBOP_TYPE_TIMESTAMP, LitTimestamp _ _ _ => true
  | BEBOP_TYPE_TIMESTAMP, _ => false
  | BEBOP_TYPE_DURATION, LitDuration _ _ => true
  | BEBOP_TYPE_DURATION, _ => false
  | _, _ => true
  end.

(** The state in which a definition starts. *)
Definition start_of (kind : bebop_token_kind_t) : option bebop_parse_state_t :=
  match kind with
  | BEBOP_TOKEN_ENUM => Some PARSE_STATE_ENUM_START
  | BEBOP_TOKEN_STRUCT => Some PARSE_STATE_STRUCT_START
  | BEBOP_TOKEN_MESSAGE => Some PARSE_STATE_MESSAGE_START
  | BEBOP_TOKEN_UNION => Some PARSE_STATE_UNION_START
  | BEBOP_TOKEN_SERVICE => Some PARSE_STATE_SERVICE_START
  | BEBOP_TOKEN_CONST => Some PARSE_STATE_CONST_START
  | _ => None
  end.

Section ParseFile.
Context {cc : Context} {dm : DefMap def_ptr} {ns : DefMap (option bebop_span_t)} `{Libc} (grants : nat → bool).
Context (env : env_t) (tokens : list bebop_token_t) (source : list Z) (trivia : list bebop_trivia_t) (schema : schema_ptr).
Abbreviation M := (C bebop_parser_t).
Abbreviation CURRENT := (BEBOP_PARSE_CURRENT tokens).
Abbreviation PREVIOUS := (BEBOP_PARSE_PREVIOUS tokens).
Abbreviation CHECK := (BEBOP_PARSE_CHECK tokens).
Abbreviation AT_END := (BEBOP_PARSE_AT_END tokens).
Abbreviation ADVANCE := (BEBOP_PARSE_ADVANCE tokens).
Abbreviation ERROR := (BEBOP_PARSE_ERROR grants tokens).
Abbreviation ERROR_CURRENT := (BEBOP_PARSE_ERROR_CURRENT grants tokens).
Abbreviation WARNING := (BEBOP_PARSE_WARNING grants).
Abbreviation CONSUME := (BEBOP_PARSE_CONSUME grants tokens).
Abbreviation CONSUME_AFTER := (BEBOP_PARSE_CONSUME_AFTER grants tokens).
Abbreviation CONSUME_NAME := (BEBOP_PARSE_CONSUME_NAME grants tokens).
Abbreviation MATCH := (BEBOP_PARSE_MATCH tokens).
Abbreviation extract_doc := (bebop__parse_extract_doc source trivia).
Abbreviation parse_type := (bebop__parse_type grants tokens).
Abbreviation parse_decorators := (bebop__parse_decorators grants env tokens).
Abbreviation parse_field := (bebop__parse_field_inline grants env tokens source trivia).
Abbreviation stack := (list bebop_parse_frame_t).

(** In panic mode, on to where parsing takes up again. *)
Definition recover : M unit :=
  panic ← gets pr_panic; if panic : bool then bebop__parse_synchronize tokens else mret tt.
Definition recover_in_block : M unit :=
  panic ← gets pr_panic; if panic : bool then bebop__parse_synchronize_in_block tokens else mret tt.

(** Back in the file after an error. *)
Definition back_to_file (f : bebop_parse_frame_t) (below : stack) : M stack :=
  recover;; mret (in_state PARSE_STATE_FILE f :: below).

(** ** The file *)

Definition raise_preamble (s : bebop_preamble_state_t) : M unit :=
  modify (λ p, if preamble_rank (pr_preamble p) <? preamble_rank s then set_preamble s p else p).
(** An error when the file has got as far as [s]. *)
Definition not_after (s : bebop_preamble_state_t) (code : Z) : M unit :=
  here ← gets pr_preamble; if preamble_rank s <=? preamble_rank here then ERROR_CURRENT code else mret tt.

Definition step_file (f : bebop_parse_frame_t) (below : stack) : M stack :=
  tok ← CURRENT;
  match tk_kind tok with
  | BEBOP_TOKEN_EOF => mret below
  | BEBOP_TOKEN_IMPORT => raise_preamble BEBOP_PREAMBLE_IMPORTS;; mret (in_state PARSE_STATE_IMPORT f :: below)
  | BEBOP_TOKEN_EDITION =>
      not_after BEBOP_PREAMBLE_IMPORTS BEBOP_DIAG_INVALID_EDITION;;
      not_after BEBOP_PREAMBLE_PACKAGE BEBOP_DIAG_INVALID_EDITION;;
      mret (in_state PARSE_STATE_EDITION f :: below)
  | BEBOP_TOKEN_PACKAGE =>
      not_after BEBOP_PREAMBLE_IMPORTS BEBOP_DIAG_PACKAGE_AFTER_IMPORT;;
      not_after BEBOP_PREAMBLE_DONE BEBOP_DIAG_PACKAGE_AFTER_DEFINITION;;
      mret (in_state PARSE_STATE_PACKAGE f :: below)
  | BEBOP_TOKEN_HASH =>
      raise_preamble BEBOP_PREAMBLE_DONE;;
      bebop__parse_macro_decorator grants env tokens source trivia schema;; mret (f :: below)
  | _ => raise_preamble BEBOP_PREAMBLE_DONE;; mret (in_state PARSE_STATE_DEFINITION f :: below)
  end.

Definition step_import (f : bebop_parse_frame_t) (below : stack) : M stack :=
  ADVANCE;;
  ok ← CONSUME BEBOP_TOKEN_STRING;
  (if ok : bool then
     path_tok ← PREVIOUS; on_registry (bebop__schema_add_import schema (tk_lexeme path_tok) (tk_span path_tok))
   else mret tt);;
  MATCH BEBOP_TOKEN_SEMICOLON;;
  back_to_file f below.

(** The edition of a schema is that of 2026 from the start. *)
Definition step_edition (f : bebop_parse_frame_t) (below : stack) : M stack :=
  ADVANCE;;
  CONSUME_AFTER BEBOP_TOKEN_EQUALS;;
  ok ← CONSUME BEBOP_TOKEN_STRING;
  (if ok : bool then
     year_tok ← PREVIOUS;
     year_str ← str_get (tk_lexeme year_tok);
     if bool_decide (year_str = Some (chars "2026")) then mret tt
     else bebop__parse_error_at grants (tk_span year_tok) BEBOP_DIAG_INVALID_EDITION
   else mret tt);;
  modify (set_preamble BEBOP_PREAMBLE_EDITION);;
  MATCH BEBOP_TOKEN_SEMICOLON;;
  back_to_file f below.

(** The parts of a package behind the first; an error ends the loop only. Fuel: the number of
    tokens. *)
Fixpoint package_loop (fuel : nat) (pkg_buf : list Z) (last_tok : bebop_span_t) : M (list Z * bebop_span_t) :=
  match fuel with
  | O => ub
  | S fuel =>
      more ← MATCH BEBOP_TOKEN_DOT;
      if negb (more : bool) then mret (pkg_buf, last_tok)
      else
        part ← CURRENT;
        if negb (bebop__token_is_ident_or_keyword (tk_kind part)) then
          ERROR_CURRENT BEBOP_DIAG_UNEXPECTED_TOKEN;; recover;; mret (pkg_buf, last_tok)
        else
          ADVANCE;;
          part_str ← text_of (tk_lexeme part);
          if sizeof_name_buf <=? zlen pkg_buf + 1 + zlen part_str then
            ERROR BEBOP_DIAG_INVALID_QUALIFIED_NAME;; mret (pkg_buf, last_tok)
          else package_loop fuel (pkg_buf ++ dot :: part_str) (tk_span part)
  end.
Definition set_package (package : Z) (span : bebop_span_t) : M unit :=
  on_registry (sc ← schema_at schema;
    put_schema schema (mkSchemaT package span (sch_definitions sc) (sch_def_table sc) (sch_sorted_defs sc) (sch_sorted_defs_capacity sc)
      (sch_imports sc) (sch_import_capacity sc) (sch_error_count sc) (sch_warning_count sc))).

Definition package_name (pkg_tok first_tok : bebop_token_t) (first_str : list Z) : M unit :=
  '(pkg_buf, last_tok) ← package_loop (parse_fuel tokens) first_str (tk_span first_tok);
  panic ← gets pr_panic;
  if panic : bool then mret tt
  else
    MATCH BEBOP_TOKEN_SEMICOLON;;
    package ← on_registry (bebop_intern_n pkg_buf);
    set_package package (bebop__parse_span_from_tokens (Some (tk_span pkg_tok)) (Some last_tok));;
    modify (set_preamble BEBOP_PREAMBLE_PACKAGE).

Definition step_package (f : bebop_parse_frame_t) (below : stack) : M stack :=
  ADVANCE;;
  pkg_tok ← PREVIOUS;
  sc ← on_registry (schema_at schema);
  if negb (bebop_str_is_null (sch_package sc)) then
    bebop__parse_error_at grants (tk_span pkg_tok) BEBOP_DIAG_DUPLICATE_PACKAGE;;
    add_label grants (sch_package_span sc);;
    back_to_file f below
  else
    named ← CONSUME BEBOP_TOKEN_IDENTIFIER;
    if negb (named : bool) then back_to_file f below
    else
      first_tok ← PREVIOUS;
      first_str ← text_of (tk_lexeme first_tok);
      if sizeof_name_buf <=? zlen first_str then
        ERROR BEBOP_DIAG_INVALID_QUALIFIED_NAME;; mret (in_state PARSE_STATE_FILE f :: below)
      else package_name pkg_tok first_tok first_str;; back_to_file f below.

(** ** Modifiers of a definition *)

Definition definition_visibility (is_nested : bool) : M bebop_visibility_t :=
  tok ← CURRENT;
  match tk_kind tok with
  | BEBOP_TOKEN_EXPORT =>
      ADVANCE;;
      (if is_nested then mret tt else WARNING (tk_span tok) BEBOP_DIAG_REDUNDANT_EXPORT_WARNING);;
      mret BEBOP_VIS_EXPORT
  | BEBOP_TOKEN_LOCAL =>
      ADVANCE;;
      (if is_nested then WARNING (tk_span tok) BEBOP_DIAG_REDUNDANT_LOCAL_WARNING else mret tt);;
      mret BEBOP_VIS_LOCAL
  | _ => mret BEBOP_VIS_DEFAULT
  end.
Definition skip_readonly : M unit :=
  tok ← CURRENT;
  if bool_decide (tk_kind tok = BEBOP_TOKEN_READONLY) then WARNING (tk_span tok) BEBOP_DIAG_DEPRECATED_FEATURE_WARNING;; ADVANCE
  else mret tt.

(** What is there is not a definition. *)
Definition not_a_definition (tok : bebop_token_t) : M unit :=
  if bool_decide (tk_kind tok = BEBOP_TOKEN_IDENTIFIER) then
    bebop__parse_error_at grants (tk_span tok) BEBOP_DIAG_UNEXPECTED_TOKEN;;
    lex ← text_of (tk_lexeme tok);
    bebop__suggest_keyword grants (c_string lex) (tk_span tok)
  else ERROR_CURRENT BEBOP_DIAG_UNEXPECTED_TOKEN.

Definition step_definition (f : bebop_parse_frame_t) (below : stack) : M stack :=
  decorators ← parse_decorators;
  visibility ← definition_visibility (bool_decide (fr_nested_parent f ≠ None));
  is_mutable ← MATCH BEBOP_TOKEN_MUT;
  skip_readonly;;
  tok ← CURRENT;
  (if is_mutable && negb (bool_decide (tk_kind tok = BEBOP_TOKEN_STRUCT)) then
     bebop__parse_error_at grants (tk_span tok) BEBOP_DIAG_INVALID_FIELD
   else mret tt);;
  match start_of (tk_kind tok) with
  | Some state => mret (with_modifiers state decorators is_mutable visibility f :: below)
  | None => not_a_definition tok;; back_to_file (with_modifiers PARSE_STATE_FILE decorators is_mutable visibility f) below
  end.

(** ** The start of a definition *)

(** The definition of a frame, without parts; services and constants have no parent. *)
Definition definition_of (f : bebop_parse_frame_t) (parent : option def_ptr) (name : bebop_token_t) (doc : Z) (body : def_body) : bebop_def_t :=
  mkDef (tk_lexeme name) 0 Sema.no_span (tk_span name) doc (fr_decorators f) (Some schema) parent (fr_visibility f) [] [] 0 body.

(** The keyword, the name, what is between the name and the body ([head]), and the brace. *)
Definition start_definition (state : bebop_parse_state_t) (kind : bebop_def_kind_t) (parent : option def_ptr) (body : def_body)
    (head : def_ptr → M unit) (f : bebop_parse_frame_t) (below : stack) : M stack :=
  ADVANCE;;
  keyword ← PREVIOUS;
  doc ← extract_doc (tk_leading keyword);
  name ← bebop__parse_def_name grants tokens;
  match name with
  | None => back_to_file f below
  | Some name =>
      def ← new_def (definition_of f parent name doc body);
      match def with
      | None => mret (f :: below)
      | Some def =>
          bebop__check_reserved_name grants (tk_span name) (tk_lexeme name);;
          head def;;
          brace ← CONSUME_AFTER BEBOP_TOKEN_LBRACE;
          if negb (brace : bool) then back_to_file f below
          else
            on_sema (bebop_sema_enter_def (tk_lexeme name) kind);;
            mret (in_body state def (tk_span keyword) f :: below)
      end
  end.

Definition set_def_body (def : def_ptr) (body : def_body) : M unit :=
  d ← on_registry (deref def); on_registry (put_def def (set_body body d)).

(** The base type of an enum behind a colon. *)
Definition enum_base (def : def_ptr) : M unit :=
  colon ← MATCH BEBOP_TOKEN_COLON;
  if negb (colon : bool) then mret tt
  else
    named ← CONSUME_AFTER BEBOP_TOKEN_IDENTIFIER;
    if negb (named : bool) then mret tt
    else
      base_tok ← PREVIOUS;
      base_str ← str_get (tk_lexeme base_tok);
      match base_str ≫= bebop__parse_lookup_scalar with
      | Some base_kind =>
          if negb (bebop__parse_is_integer_type base_kind) then ERROR BEBOP_DIAG_UNRECOGNIZED_TYPE
          else if bool_decide (base_kind = BEBOP_TYPE_INT128) || bool_decide (base_kind = BEBOP_TYPE_UINT128) then ERROR BEBOP_DIAG_UNRECOGNIZED_TYPE
          else set_def_body def (EnumDef base_kind [])
      | None => ERROR BEBOP_DIAG_UNRECOGNIZED_TYPE
      end.

(** The mixins of a service behind [with]. Fuel: the number of tokens. *)
Fixpoint mixins_loop (fuel : nat) (mixins : parts_t bebop_type_t) : M (list bebop_type_t) :=
  match fuel with
  | O => ub
  | S fuel =>
      mixin_type ← parse_type;
      match mixin_type with
      | None => mret (pa_items mixins)
      | Some mixin_type =>
          mixins ← match pt_type mixin_type with
                   | TDefined _ _ => push_part 8 mixins (mret (pt_type mixin_type))
                   | _ => ERROR BEBOP_DIAG_INVALID_SERVICE_TYPE;; mret mixins
                   end;
          more ← MATCH BEBOP_TOKEN_COMMA;
          if more : bool then mixins_loop fuel mixins else mret (pa_items mixins)
      end
  end.
Definition service_mixins (def : def_ptr) : M unit :=
  with_mixins ← MATCH BEBOP_TOKEN_WITH;
  if with_mixins : bool then mixins ← mixins_loop (parse_fuel tokens) no_parts; set_def_body def (ServiceDef [] mixins)
  else mret tt.

(** ** The end of a definition *)

(** The definition with its parts and its span. *)
Definition finish_def (def : def_ptr) (keyword : bebop_span_t) (rbrace : bebop_span_t) (finish : def_body → def_body) : M unit :=
  d ← on_registry (deref def);
  on_registry (put_def def (set_span (bebop__parse_span_from_tokens (Some keyword) (Some rbrace)) (set_body (finish (df_body d)) d))).

(** [check] is what is checked before and behind the span is known. *)
Definition end_definition (before : M unit) (finish : def_body → def_body) (check : def_ptr → M unit) (service : bool)
    (f : bebop_parse_frame_t) (below : stack) : M stack :=
  CONSUME_AFTER BEBOP_TOKEN_RBRACE;;
  rbrace ← PREVIOUS;
  on_sema bebop_sema_exit_def;;
  before;;
  def ← lift (fr_def f);
  finish_def def (fr_keyword f) (tk_span rbrace) finish;;
  check def;;
  bebop__parse_check_duplicate_def grants schema def;;
  match fr_nested_parent f with
  | Some parent =>
      if service then add_def schema def;; mret (back_in_file f :: below)
      else add_nested parent def;; mret below
  | None => add_def schema def;; mret (back_in_file f :: below)
  end.
(** [body_or_end]: the end of a body, or what is in it. *)
Definition body_or_end (the_end inside : M stack) : M stack :=
  close ← CHECK BEBOP_TOKEN_RBRACE;
  at_end ← AT_END;
  if (close : bool) || (at_end : bool) then the_end else inside.
(** A definition inside of another one. *)
Definition nested_or (inside : M stack) (f : bebop_parse_frame_t) (below : stack) : M stack :=
  nested ← bebop__parse_is_nested_def_start tokens;
  if nested : bool then
    if BEBOP_PARSE_STACK_SIZE <=? zlen below + 1 then bebop__parse_fatal;; mret (f :: below)
    else mret (new_frame PARSE_STATE_DEFINITION (fr_def f) :: f :: below)
  else inside.

(** ** Enums, structs, messages, services *)

Definition check_enum (def : def_ptr) : M unit :=
  d ← on_registry (deref def);
  match df_body d with
  | EnumDef _ members => on_sema (bebop_sema_check_enum_complete grants (df_span d) members);; mret tt
  | _ => ub
  end.
Definition step_enum_body (f : bebop_parse_frame_t) (below : stack) : M stack :=
  body_or_end
    (end_definition (mret tt) (λ b, match b with EnumDef base _ => EnumDef base (pa_items (fr_members f)) | _ => b end) check_enum false f below)
    (def ← lift (fr_def f);
     members ← bebop__parse_enum_member_inline grants env tokens source trivia def (fr_members f);
     recover_in_block;; mret (with_members members f :: below)).

Definition step_field (is_message : bool) (f : bebop_parse_frame_t) (below : stack) : M stack :=
  def ← lift (fr_def f);
  fields ← parse_field def (fr_fields f) is_message;
  recover_in_block;; mret (with_fields fields f :: below).
Definition set_fields (fields : list bebop_field_t) (b : def_body) : def_body :=
  match b with
  | StructDef _ is_mutable fixed_size => StructDef fields is_mutable fixed_size
  | MessageDef _ => MessageDef fields
  | b => b
  end.
Definition step_struct_body (f : bebop_parse_frame_t) (below : stack) : M stack :=
  body_or_end (end_definition (mret tt) (set_fields (pa_items (fr_fields f))) (λ _, mret tt) false f below)
    (nested_or (step_field false f below) f below).
Definition step_message_body (f : bebop_parse_frame_t) (below : stack) : M stack :=
  body_or_end (end_definition (mret tt) (set_fields (pa_items (fr_fields f))) (λ _, mret tt) false f below)
    (nested_or (step_field true f below) f below).

Definition step_service_body (f : bebop_parse_frame_t) (below : stack) : M stack :=
  body_or_end
    (end_definition (mret tt) (λ b, match b with ServiceDef _ mixins => ServiceDef (pa_items (fr_methods f)) mixins | _ => b end) (λ _, mret tt) true f below)
    (def ← lift (fr_def f);
     methods ← bebop__parse_method_inline grants env tokens source trivia def (fr_methods f);
     recover_in_block;; mret (with_methods methods f :: below)).

(** ** Unions *)

Definition step_union_body (f : bebop_parse_frame_t) (below : stack) : M stack :=
  body_or_end
    (end_definition (if zlen (pa_items (fr_branches f)) =? 0 then ERROR BEBOP_DIAG_EMPTY_UNION else mret tt)
       (λ b, match b with UnionDef _ => UnionDef (pa_items (fr_branches f)) | _ => b end) (λ _, mret tt) false f below)
    (nested_or (mret (in_state PARSE_STATE_UNION_BRANCH f :: below)) f below).

(** The first token of a branch: its span and the comments before it, of which a decorator
    has none. *)
Record branch_head_t : Type := mkBranchHead {
  bh_decorators : list bebop_decorator_t;
  bh_first : bebop_span_t;
  bh_visibility : bebop_visibility_t;
  bh_name : bebop_token_t;
  bh_discriminator : Z;
  bh_doc : Z;
  bh_is_mutable : bool
}.

Definition no_branch {A} : M (option A) := recover_in_block;; mret None.
(** Goes on when a token was there. *)
Definition or_no_branch {A} (expected : M bool) (go_on : M (option A)) : M (option A) :=
  ok ← expected; if ok : bool then go_on else no_branch.

Definition branch_visibility : M bebop_visibility_t :=
  tok ← CURRENT;
  match tk_kind tok with
  | BEBOP_TOKEN_EXPORT => ADVANCE;; mret BEBOP_VIS_EXPORT
  | BEBOP_TOKEN_LOCAL => ADVANCE;; WARNING (tk_span tok) BEBOP_DIAG_REDUNDANT_LOCAL_WARNING;; mret BEBOP_VIS_LOCAL
  | _ => mret BEBOP_VIS_DEFAULT
  end.

Fixpoint find_discriminator (branches : list bebop_union_branch_t) (disc : Z) : option bebop_union_branch_t :=
  match branches with
  | [] => None
  | b :: branches => if br_discriminator b =? disc then Some b else find_discriminator branches disc
  end.
Definition branch_discriminator (branches : list bebop_union_branch_t) : M (option Z) :=
  disc_tok ← PREVIOUS;
  disc_str ← text_of (tk_lexeme disc_tok);
  disc_val ← lift (bebop_util_parse_int disc_str);
  match disc_val with
  | None => ERROR BEBOP_DIAG_INVALID_UNION_BRANCH;; no_branch
  | Some disc_val =>
      if (disc_val <? BEBOP_MIN_DISCRIMINATOR) || (BEBOP_MAX_DISCRIMINATOR <? disc_val) then ERROR BEBOP_DIAG_INVALID_UNION_BRANCH;; no_branch
      else
        match find_discriminator branches (u8 disc_val) with
        | Some other =>
            bebop__parse_error_at grants (tk_span disc_tok) BEBOP_DIAG_DUPLICATE_UNION_DISCRIMINATOR;;
            add_label grants (br_span other);;
            no_branch
        | None => mret (Some (u8 disc_val))
        end
  end.

Definition branch_head (branches : list bebop_union_branch_t) : M (option branch_head_t) :=
  decorators ← parse_decorators;
  first_tok ← CURRENT;
  let '(first, leading) := match decorators with
                           | dec :: _ => (dc_span dec, mkTriviaList 0 0)
                           | [] => (tk_span first_tok, tk_leading first_tok)
                           end in
  visibility ← branch_visibility;
  or_no_branch CONSUME_NAME
    (name ← PREVIOUS;
     or_no_branch (CONSUME_AFTER BEBOP_TOKEN_LPAREN)
       (or_no_branch (CONSUME BEBOP_TOKEN_NUMBER)
          (disc ← branch_discriminator branches;
           match disc with
           | None => mret None
           | Some disc =>
               or_no_branch (CONSUME_AFTER BEBOP_TOKEN_RPAREN)
                 (or_no_branch (CONSUME_AFTER BEBOP_TOKEN_COLON)
                    (doc ← extract_doc leading;
                     is_mutable ← MATCH BEBOP_TOKEN_MUT;
                     mret (Some (mkBranchHead decorators first visibility name disc doc is_mutable))))
           end))).

(** The fields of a definition in a branch. The code has no bound here; fuel: the number of
    tokens. *)
Fixpoint branch_fields (fuel : nat) (def : def_ptr) (is_message : bool) (fields : parts_t bebop_field_t) : M (parts_t bebop_field_t) :=
  match fuel with
  | O => ub
  | S fuel =>
      close ← CHECK BEBOP_TOKEN_RBRACE;
      at_end ← AT_END;
      if (close : bool) || (at_end : bool) then mret fields
      else
        fields ← parse_field def fields is_message;
        recover_in_block;;
        branch_fields fuel def is_message fields
  end.

(** The definition in a branch, from the brace on. *)
Definition branch_definition (h : branch_head_t) (parent : option def_ptr) (start : bebop_span_t) (is_message : bool) : M (option (option def_ptr * bebop_type_t)) :=
  let name := bh_name h in
  def ← new_def (mkDef (tk_lexeme name) 0 Sema.no_span (tk_span name) (bh_doc h) [] (Some schema) parent (bh_visibility h) [] [] 0
                  (if is_message then MessageDef [] else StructDef [] (bh_is_mutable h) 0));
  match def with
  | None => mret None
  | Some def =>
      on_sema (bebop_sema_enter_def (tk_lexeme name) (if is_message then BEBOP_DEF_MESSAGE else BEBOP_DEF_STRUCT));;
      fields ← branch_fields (parse_fuel tokens) def is_message no_parts;
      CONSUME_AFTER BEBOP_TOKEN_RBRACE;;
      rbrace ← PREVIOUS;
      on_sema bebop_sema_exit_def;;
      finish_def def start (tk_span rbrace) (set_fields (pa_items fields));;
      mret (Some (Some def, TNull))
  end.

(** What a branch carries: a definition of its own, or a type. *)
Definition branch_body (h : branch_head_t) (parent : option def_ptr) : M (option (option def_ptr * bebop_type_t)) :=
  tok ← CURRENT;
  match tk_kind tok with
  | BEBOP_TOKEN_LBRACE =>
      bebop__check_reserved_name grants (tk_span (bh_name h)) (tk_lexeme (bh_name h));;
      ADVANCE;;
      branch_definition h parent (tk_span tok) false
  | BEBOP_TOKEN_MESSAGE =>
      bebop__check_reserved_name grants (tk_span (bh_name h)) (tk_lexeme (bh_name h));;
      (if bh_is_mutable h then ERROR_CURRENT BEBOP_DIAG_INVALID_UNION_BRANCH else mret tt);;
      ADVANCE;;
      or_no_branch (CONSUME_AFTER BEBOP_TOKEN_LBRACE) (branch_definition h parent (tk_span tok) true)
  | BEBOP_TOKEN_IDENTIFIER =>
      (if bool_decide (bh_visibility h = BEBOP_VIS_DEFAULT) then mret tt else ERROR_CURRENT BEBOP_DIAG_INVALID_UNION_BRANCH);;
      (if bh_is_mutable h then ERROR_CURRENT BEBOP_DIAG_INVALID_UNION_BRANCH else mret tt);;
      type_ref ← parse_type;
      match type_ref with
      | None => no_branch
      | Some type_ref =>
          match pt_type type_ref with
          | TDefined _ _ => mret (Some (None, pt_type type_ref))
          | _ => ERROR BEBOP_DIAG_UNION_REF_INVALID_TYPE;; mret None
          end
      end
  | _ => ERROR_CURRENT BEBOP_DIAG_INVALID_UNION_BRANCH;; mret None
  end.

(** The branches with the one at the cursor, if it is well-formed. *)
Definition union_branch (f : bebop_parse_frame_t) : M (parts_t bebop_union_branch_t) :=
  head ← branch_head (pa_items (fr_branches f));
  match head with
  | None => mret (fr_branches f)
  | Some h =>
      body ← branch_body h (fr_def f);
      match body with
      | None => mret (fr_branches f)
      | Some (branch_def, type_ref) =>
          semicolon ← CONSUME_AFTER BEBOP_TOKEN_SEMICOLON;
          if negb (semicolon : bool) then mret (fr_branches f)
          else
            (match branch_def with
             | Some branch_def => parent ← lift (fr_def f); add_nested parent branch_def
             | None => mret tt
             end);;
            push_part sizeof_branch (fr_branches f)
              (last ← PREVIOUS;
               mret (mkBranch (bh_discriminator h) (bebop__parse_span_from_tokens (Some (bh_first h)) (Some (tk_span last)))
                       (tk_lexeme (bh_name h)) (tk_span (bh_name h)) (bh_doc h) branch_def type_ref (bh_decorators h)))
      end
  end.
Definition step_union_branch (f : bebop_parse_frame_t) (below : stack) : M stack :=
  branches ← union_branch f; mret (in_state PARSE_STATE_UNION_BODY (with_branches branches f) :: below).

(** ** Constants *)

(** The report of a type that a constant cannot have, with the nearest scalar. *)
Definition check_const_type (type : parsed_type) : M unit :=
  let t := pt_type type in
  match t with
  | TArray _ => if is_byte_array t then mret tt else ERROR BEBOP_DIAG_INVALID_CONST_TYPE
  | TFixedArray _ _ | TMap _ _ => ERROR BEBOP_DIAG_INVALID_CONST_TYPE
  | TDefined name _ =>
      ERROR BEBOP_DIAG_INVALID_CONST_TYPE;;
      type_name ← str_get name;
      match type_name with
      | Some type_name => suggest_nearest grants (map fst bebop__scalar_types) (c_string type_name) (pt_span type)
      | None => mret tt
      end
  | _ => mret tt
  end.

Definition step_const (f : bebop_parse_frame_t) (below : stack) : M stack :=
  ADVANCE;;
  keyword ← PREVIOUS;
  doc ← extract_doc (tk_leading keyword);
  type ← parse_type;
  match type with
  | None => back_to_file f below
  | Some type =>
      let t := pt_type type in
      check_const_type type;;
      named ← CONSUME_NAME;
      if negb (named : bool) then back_to_file f below
      else
        name ← PREVIOUS;
        equals ← CONSUME_AFTER BEBOP_TOKEN_EQUALS;
        if negb (equals : bool) then back_to_file f below
        else
          value ← bebop__parse_literal grants env tokens
                    (if is_byte_array t then BEBOP_TYPE_BYTE else type_kind t);
          match value with
          | None => back_to_file f below
          | Some value =>
              (if literal_matches t (lt_value value) then mret tt else ERROR BEBOP_DIAG_INVALID_LITERAL);;
              semicolon ← CONSUME_AFTER BEBOP_TOKEN_SEMICOLON;
              if negb (semicolon : bool) then back_to_file f below
              else
                last ← PREVIOUS;
                def ← new_def (set_span (bebop__parse_span_from_tokens (Some (tk_span keyword)) (Some (tk_span last)))
                                (definition_of f None name doc (ConstDef t value)));
                match def with
                | None => mret (f :: below)
                | Some def =>
                    bebop__parse_check_duplicate_def grants schema def;;
                    add_def schema def;;
                    mret (with_modifiers PARSE_STATE_FILE [] (fr_is_mutable f) (fr_visibility f) f :: below)
                end
          end
  end.

(** ** The machine *)

Definition file_step (f : bebop_parse_frame_t) (below : stack) : M stack :=
  match fr_state f with
  | PARSE_STATE_FILE => step_file f below
  | PARSE_STATE_IMPORT => step_import f below
  | PARSE_STATE_EDITION => step_edition f below
  | PARSE_STATE_PACKAGE => step_package f below
  | PARSE_STATE_DEFINITION => step_definition f below
  | PARSE_STATE_ENUM_START =>
      start_definition PARSE_STATE_ENUM_BODY BEBOP_DEF_ENUM (fr_nested_parent f) (EnumDef BEBOP_TYPE_UINT32 []) enum_base f below
  | PARSE_STATE_STRUCT_START =>
      start_definition PARSE_STATE_STRUCT_BODY BEBOP_DEF_STRUCT (fr_nested_parent f) (StructDef [] (fr_is_mutable f) 0) (λ _, mret tt) f below
  | PARSE_STATE_MESSAGE_START =>
      start_definition PARSE_STATE_MESSAGE_BODY BEBOP_DEF_MESSAGE (fr_nested_parent f) (MessageDef []) (λ _, mret tt) f below
  | PARSE_STATE_UNION_START =>
      start_definition PARSE_STATE_UNION_BODY BEBOP_DEF_UNION (fr_nested_parent f) (UnionDef []) (λ _, mret tt) f below
  | PARSE_STATE_SERVICE_START =>
      start_definition PARSE_STATE_SERVICE_BODY BEBOP_DEF_SERVICE None (ServiceDef [] []) service_mixins f below
  | PARSE_STATE_CONST_START => step_const f below
  | PARSE_STATE_ENUM_BODY => step_enum_body f below
  | PARSE_STATE_STRUCT_BODY => step_struct_body f below
  | PARSE_STATE_MESSAGE_BODY => step_message_body f below
  | PARSE_STATE_UNION_BODY => step_union_body f below
  | PARSE_STATE_UNION_BRANCH => step_union_branch f below
  | PARSE_STATE_SERVICE_BODY => step_service_body f below
  | PARSE_STATE_ENUM_MEMBER | PARSE_STATE_STRUCT_FIELD | PARSE_STATE_MESSAGE_FIELD | PARSE_STATE_SERVICE_METHOD => mret below
  end.

Fixpoint file_run (fuel : nat) (st : stack) : M unit :=
  match st with
  | [] => mret tt
  | f :: below =>
      fatal ← gets pr_fatal;
      if fatal : bool then mret tt
      else
        match fuel with
        | O => ub
        | S fuel => st ← file_step f below; file_run fuel st
        end
  end.

(** A step consumes a token or comes closer to a state that does, and there are at most 64
    frames. *)
Definition file_fuel : nat := 8 * parse_fuel tokens + 256.
Definition bebop__parse_file : M unit := file_run file_fuel [new_frame PARSE_STATE_FILE None].
End ParseFile.

(** The parser of a schema, when its analyser could be made. *)
Definition bebop__parse_tokens_into {cc : Context} {dm : DefMap def_ptr} {ns : DefMap (option bebop_span_t)} `{Libc} (grants : nat → bool)
    (env : env_t) (tokens : list bebop_token_t) (source : list Z) (trivia : list bebop_trivia_t) (schema : schema_ptr)
    (diagnostics : diagnostics_t) (error : bool) (r : registry_t) : option (option bebop_parser_t) :=
  match tokens with
  | [] => Some None
  | _ =>
      match bebop_sema_init diagnostics error with
      | (true, Some sema) =>
          '(_, p) ← bebop__parse_file grants env tokens source trivia schema (mkParser 0 false false false sema r BEBOP_PREAMBLE_START);
          Some (Some p)
      | _ => Some None
      end
  end.
