(* ===== verification/ParseSteps.v ===== *)
(** The parts of the parser when memory does not run out: each one returns, in a state from
    which the next one can go on, at least as far in the stream, with the definitions it found
    still in their places.  The rules are backward: what has to hold behind a part is the last
    premise of its rule. *)
From stdpp Require Import list gmap strings.
From S2P Require Import Prelude.
From S2P Require Import Scanner.
From S2P Require Import ScannerSpec.
From S2P Require Import Schema.
From S2P Require Import Fuzzy.
From S2P Require Import Literals.
From S2P Require Import Diagnostics.
From S2P Require Import Sema.
From S2P Require Import SemaProps.
From S2P Require Import Registry.
From S2P Require Import RegistryProps.
From S2P Require Import Parser.
From S2P Require Import ParserProps.
From S2P Require Import ParseType.
From S2P Require Import ParseTypeProps.
From S2P Require Import ParseTypeSpec.
From S2P Require Import ParseExpr.
From S2P Require Import ParseExprProps.

(** A computation that returns with [Q], or runs into an operation that C leaves undefined. *)
Definition meets (undefined : Prop) {S A} (c : C S A) (Q : A → S → Prop) (s : S) : Prop :=
  match c s with Some (a, s') => Q a s' | None => undefined end.

Section Meets.
Context (undefined : Prop) {S : Type}.
Lemma meets_bind {A B} (c : C S A) (k : A → C S B) Q s : meets undefined c (λ a s', meets undefined (k a) Q s') s → meets undefined (c ≫= k) Q s.
Proof. unfold meets, mbind, C_bind. by destruct (c s) as [[a s']|]. Qed.
Lemma meets_ret {A} (a : A) (Q : A → S → Prop) s : Q a s → meets undefined (mret a) Q s.
Proof. done. Qed.
Lemma meets_gets {A} (f : S → A) (Q : A → S → Prop) s : Q (f s) s → meets undefined (gets f) Q s.
Proof. done. Qed.
Lemma meets_modify (f : S → S) (Q : unit → S → Prop) s : Q tt (f s) → meets undefined (modify f) Q s.
Proof. done. Qed.
Lemma meets_computes {A} (c : C S A) (P Q : A → S → Prop) s : computes c P s → (∀ a s', P a s' → Q a s') → meets undefined c Q s.
Proof. intros (a&s'&E&HP) HQ. unfold meets. rewrite E. auto. Qed.
Lemma meets_eq {A} (c : C S A) a s' (Q : A → S → Prop) s : c s = Some (a, s') → Q a s' → meets undefined c Q s.
Proof. intros E HQ. unfold meets. by rewrite E. Qed.
Lemma meets_weaken {A} (c : C S A) (P Q : A → S → Prop) s : meets undefined c P s → (∀ a s', P a s' → Q a s') → meets undefined c Q s.
Proof. unfold meets. destruct (c s) as [[a s']|]; auto. Qed.
Lemma meets_lift {A} (o : option A) (Q : A → S → Prop) s : is_Some o → (∀ a, o = Some a → Q a s) → meets undefined (lift o) Q s.
Proof. intros (a&->) HQ. by apply HQ. Qed.
End Meets.

(** ** The fatal flag *)

Create HintDb goes_on.
Section Fatal.
Context {cc : Context} {Hg : ContextGrants} {dm : DefMap def_ptr} {ns : DefMap (option bebop_span_t)} (grants : nat → bool).
Context (tokens : list bebop_token_t).
Abbreviation M := (C bebop_parser_t).

(** A part that does not stop the parser for good. *)
Definition goes_on {A} (c : M A) : Prop := ∀ p a p', c p = Some (a, p') → pr_fatal p' = pr_fatal p.

Lemma goes_on_bind {A B} (c : M A) (k : A → M B) : goes_on c → (∀ a, goes_on (k a)) → goes_on (c ≫= k).
Proof. intros Hc Hk p b p' E. unfold mbind, C_bind in E. destruct (c p) as [[a q]|] eqn:Ec; [|done]. rewrite (Hk _ _ _ _ E). by eapply Hc. Qed.
Lemma goes_on_ret {A} (a : A) : goes_on (mret a).
Proof. by intros p b p' [= <- <-]. Qed.
Lemma goes_on_ub {A} : goes_on (ub : M A).
Proof. by intros p b p' E. Qed.
Lemma goes_on_gets {A} (f : bebop_parser_t → A) : goes_on (gets f).
Proof. by intros p b p' [= <- <-]. Qed.
Lemma goes_on_lift {A} (o : option A) : goes_on (lift o).
Proof. intros p b p' E. unfold lift in E. destruct o; [|done]. by simplify_eq. Qed.
Lemma goes_on_sema {A} (c : C bebop_sema_t A) : goes_on (on_sema c).
Proof. intros p b p' E. unfold on_sema in E. destruct (c (pr_sema p)) as [[a s]|]; cbn in E; [by simplify_eq|done]. Qed.
Lemma goes_on_registry {A} (c : C registry_t A) : goes_on (on_registry c).
Proof. intros p b p' E. unfold on_registry in E. destruct (c (pr_registry p)) as [[a s]|]; cbn in E; [by simplify_eq|done]. Qed.
Lemma goes_on_current i : goes_on (modify (set_current i)).
Proof. by intros p b p' [= <- <-]. Qed.
Lemma goes_on_token i : goes_on (token_at tokens i).
Proof. unfold token_at. destruct (i <? 0); [apply goes_on_ub|apply goes_on_lift]. Qed.
Lemma goes_on_sema_of {A} (c : (Z → option (list Z)) → C bebop_sema_t A) : goes_on (sema c).
Proof. intros p b p' E. by eapply goes_on_sema. Qed.
Lemma goes_on_str s : goes_on (str_get s).
Proof. apply goes_on_gets. Qed.

#[local] Hint Resolve goes_on_ret goes_on_ub goes_on_gets goes_on_lift goes_on_sema goes_on_registry goes_on_current goes_on_token goes_on_sema_of goes_on_str : goes_on.
Ltac goes_on := repeat first [solve [auto 1 with goes_on] | apply goes_on_bind; [|intros ?] | case_match].

Lemma goes_on_CURRENT : goes_on (BEBOP_PARSE_CURRENT tokens).
Proof. unfold BEBOP_PARSE_CURRENT. goes_on. Qed.
Lemma goes_on_PREVIOUS : goes_on (BEBOP_PARSE_PREVIOUS tokens).
Proof. unfold BEBOP_PARSE_PREVIOUS. goes_on. Qed.
#[local] Hint Resolve goes_on_CURRENT goes_on_PREVIOUS : goes_on.
Lemma goes_on_CHECK k : goes_on (BEBOP_PARSE_CHECK tokens k).
Proof. unfold BEBOP_PARSE_CHECK. goes_on. Qed.
#[local] Hint Resolve goes_on_CHECK : goes_on.
Lemma goes_on_ADVANCE : goes_on (BEBOP_PARSE_ADVANCE tokens).
Proof. unfold BEBOP_PARSE_ADVANCE, BEBOP_PARSE_AT_END. goes_on. by intros p b p' [= <- <-]. Qed.
#[local] Hint Resolve goes_on_ADVANCE : goes_on.
Lemma goes_on_report span code hint : goes_on (report_error grants span code hint).
Proof. unfold report_error, add_diagnostic. goes_on. by intros p b p' [= <- <-]. Qed.
#[local] Hint Resolve goes_on_report : goes_on.
Lemma goes_on_error_at span code : goes_on (bebop__parse_error_at grants span code).
Proof. apply goes_on_report. Qed.
#[local] Hint Resolve goes_on_error_at : goes_on.
Lemma goes_on_ERROR code : goes_on (BEBOP_PARSE_ERROR grants tokens code).
Proof. unfold BEBOP_PARSE_ERROR. goes_on. Qed.
Lemma goes_on_ERROR_CURRENT code : goes_on (BEBOP_PARSE_ERROR_CURRENT grants tokens code).
Proof. unfold BEBOP_PARSE_ERROR_CURRENT. goes_on. Qed.
#[local] Hint Resolve goes_on_ERROR goes_on_ERROR_CURRENT : goes_on.
Lemma goes_on_CONSUME k : goes_on (BEBOP_PARSE_CONSUME grants tokens k).
Proof. unfold BEBOP_PARSE_CONSUME. goes_on. Qed.
Lemma goes_on_CONSUME_AFTER k : goes_on (BEBOP_PARSE_CONSUME_AFTER grants tokens k).
Proof. unfold BEBOP_PARSE_CONSUME_AFTER. goes_on. Qed.
Lemma goes_on_CONSUME_NAME : goes_on (BEBOP_PARSE_CONSUME_NAME grants tokens).
Proof. unfold BEBOP_PARSE_CONSUME_NAME. goes_on. Qed.
Lemma goes_on_MATCH k : goes_on (BEBOP_PARSE_MATCH tokens k).
Proof. unfold BEBOP_PARSE_MATCH. goes_on. Qed.
#[local] Hint Resolve goes_on_CONSUME goes_on_CONSUME_AFTER goes_on_CONSUME_NAME goes_on_MATCH : goes_on.

Lemma goes_on_make_type t span : goes_on (make_type t span).
Proof.
  intros p b p' E. unfold make_type, mbind, C_bind, on_registry, alloc_n in E. destruct (cg_alloc sizeof_type 1 8 (rg_ctx (pr_registry p))) as (a&Ea).
  destruct (ctx_alloc_n sizeof_type 1 8 _) as [o c]. cbn in Ea, E. subst o.
  by injection E as <- <-.
Qed.
#[local] Hint Resolve goes_on_make_type : goes_on.
Lemma goes_on_qualified fuel : ∀ name last, goes_on (qualified_loop grants tokens fuel name last).
Proof. induction fuel as [|fuel IH]; intros name last; cbn [qualified_loop]; goes_on. Qed.
#[local] Hint Resolve goes_on_qualified : goes_on.
Lemma goes_on_type_step m : goes_on (type_step grants tokens m).
Proof.
  unfold type_step, step_base, step_map_key, step_map_value, step_array_suffix, step_done, push_frame, named_type, array_suffix, go, returns. goes_on.
Qed.
Lemma goes_on_parse_type : goes_on (bebop__parse_type grants tokens).
Proof.
  unfold bebop__parse_type. apply goes_on_bind; [goes_on|]. intros start. generalize (type_fuel tokens), (mkMachine (mkFrame TYPE_STATE_BASE None None (tk_span start) 0) [] None).
  intros fuel. induction fuel as [|fuel IH]; intros m; cbn [type_run]; [apply goes_on_ub|]. apply goes_on_bind; [apply goes_on_type_step|]. intros []; goes_on.
Qed.
Lemma goes_on_expr_step members m : goes_on (expr_step grants tokens members m).
Proof.
  unfold expr_step, expr_operand, expr_operator, expr_primary, next_op, close_frame, push_value, expr_fails, bebop__parse_peek. goes_on.
Qed.
Lemma goes_on_parse_expression members : goes_on (bebop__parse_expression grants tokens members).
Proof.
  unfold bebop__parse_expression. generalize (expr_fuel tokens), (mkExpr EXPR_STATE_OPERAND empty_frame []). intros fuel.
  induction fuel as [|fuel IH]; intros m; cbn [expr_run]; [apply goes_on_ub|]. apply goes_on_bind; [apply goes_on_expr_step|]. intros []; goes_on.
Qed.
End Fatal.

(** ** Rules *)

(** A list of trivia whose comments have a text. *)
Definition comments_in (source : list Z) (trivia : list bebop_trivia_t) (l : bebop_trivia_list_t) : Prop :=
  slice_in trivia l ∧ ∀ t, t ∈ trivia_items trivia l → tv_kind t = BEBOP_TRIVIA_DOC_COMMENT → is_Some (comment_text source t).

(** What the parser relies on of the scanner's work: the stream ends, its names have texts and
    its numbers are numbers, spans are in the order of the source and inside of it, and so are
    the comments before each token. *)
Record scanned `{Context} (tokens : list bebop_token_t) (source : list Z) (trivia : list bebop_trivia_t) (c : ctx) : Prop := {
  sk_ends : stream_ends tokens;
  sk_source : zlen source < 2 ^ 32;
  sk_ctx : ctx_ok c;
  sk_texts : texts_known tokens c;
  sk_names : ∀ i, 0 ≤ i < zlen tokens → bebop__token_is_ident_or_keyword (kind_at tokens i) = true → is_Some (ctx_str c (tk_lexeme (tok_at tokens i)));
  sk_spans : ∀ i, 0 ≤ i < zlen tokens →
    let s := tk_span (tok_at tokens i) in 0 ≤ off s ∧ 0 ≤ len s ∧ off s + len s ≤ zlen source;
  sk_order : ∀ i j, 0 ≤ i ≤ j → j < zlen tokens → off (tk_span (tok_at tokens i)) ≤ off (tk_span (tok_at tokens j));
  sk_leading : ∀ i, 0 ≤ i < zlen tokens → comments_in source trivia (tk_leading (tok_at tokens i))
}.

Existing Class scanned.
(** A table that never refuses an entry: its allocator ends the program rather. *)
Class Inserts `(dm : DefMap V) : Prop := inserts : ∀ m k v, is_Some (@bebop_defmap_insert _ dm m k v).

Section Rules.
Context {cc : Context} {Hcc : ContextOk} {Hg : ContextGrants}.
Context {dm : DefMap def_ptr} {Hdm : DefMapOk} {Hdefs : Inserts dm}.
Context {ns : DefMap (option bebop_span_t)} {Hns : DefMapOk} {Hnames : Inserts ns}.
Context (grants : nat → bool) (tokens : list bebop_token_t) (source : list Z) (trivia : list bebop_trivia_t) (schema : schema_ptr) (c0 : ctx).
Context {Hsk : scanned tokens source trivia c0} (undefined : Prop).
Abbreviation M := (C bebop_parser_t).
Abbreviation tok := (tok_at tokens).
Abbreviation kind := (kind_at tokens).
Abbreviation pctx p := (rg_ctx (pr_registry p)).
Abbreviation defs p := (rg_defs (pr_registry p)).
Abbreviation meets := (ParseSteps.meets undefined).
#[local] Instance ends_here : stream_ends tokens := sk_ends _ _ _ _ Hsk.

(** The state between two parts. *)
Record ok (p : bebop_parser_t) : Prop := {
  ok_parser : parser_ok grants tokens p;
  ok_ctx : ctx_le c0 (pctx p);
  ok_fatal : pr_fatal p = false;
  ok_registry : registry_ok (pr_registry p);
  ok_schema : is_Some (rg_schemas (pr_registry p) !! schema)
}.
Record goes (p p' : bebop_parser_t) : Prop := {
  go_ok : ok p';
  go_current : pr_current p ≤ pr_current p';
  go_had_error : pr_had_error p = true → pr_had_error p' = true;
  go_defs : ∀ q d, defs p !! q = Some d → ∃ d', defs p' !! q = Some d' ∧ stays d d'
}.
Lemma goes_refl p : ok p → goes p p.
Proof. intros Hp. split; try done. intros q d E. by exists d. Qed.
Lemma goes_trans p p1 p2 : goes p p1 → goes p1 p2 → goes p p2.
Proof.
  intros [_ C1 E1 D1] [O2 C2 E2 D2]. split; [done|lia|auto|]. intros q d E. destruct (D1 q d E) as (d1&Ed1&H1). destruct (D2 q d1 Ed1) as (d2&Ed2&H2).
  exists d2. split; [done|by etrans].
Qed.

Lemma ok_inside p : ok p → inside tokens p.
Proof. intros [Hp _ _ _ _]. apply Hp. Qed.
Lemma ok_ready p : ok p → ready grants tokens c0 p.
Proof. by intros []. Qed.
Lemma ok_str p h t : ok p → ctx_str c0 h = Some t → ctx_str (pctx p) h = Some t.
Proof. intros Hp. apply (ready_str grants tokens c0 (sk_ctx _ _ _ _ Hsk)). by apply ok_ready. Qed.

Lemma registry_ok_eq r r' : rg_defs r' = rg_defs r → rg_schemas r' = rg_schemas r → registry_ok r → registry_ok r'.
Proof. destruct r, r'. cbn. intros -> -> [H1 H2 H3 H4]. by split. Qed.
(** A part of the parser that leaves the definitions alone. *)
Lemma goes_le p p' : ok p → parser_le grants tokens p p' → pr_fatal p' = false → goes p p'.
Proof.
  intros [Hp Hc Hf Hr Hs] [Ho Hcur He _ Hx Hd Hsc] Hf'. split; [split; [auto|by etrans|done|by eapply registry_ok_eq|by rewrite Hsc]|auto|done|].
  rewrite Hd. intros q d E. by exists d.
Qed.
Lemma goes_next p : ok p → kind (pr_current p) ≠ BEBOP_TOKEN_EOF → goes p (next p).
Proof. intros Hp Hk. apply goes_le; [done|by apply (next_le grants tokens)|apply Hp]. Qed.

(** *** Reading tokens *)

Lemma w_current (Q : _ → _ → Prop) p : ok p → Q (tok (pr_current p)) p → meets (BEBOP_PARSE_CURRENT tokens) Q p.
Proof. intros Hp. by apply meets_eq, current_eq, ok_inside. Qed.
Lemma w_previous (Q : _ → _ → Prop) p : ok p → 0 < pr_current p → Q (tok (pr_current p - 1)) p → meets (BEBOP_PARSE_PREVIOUS tokens) Q p.
Proof. intros Hp Hc. by apply meets_eq, previous_eq; [apply ok_inside|]. Qed.
Lemma w_check k (Q : bool → _ → Prop) p : ok p → Q (bool_decide (kind (pr_current p) = k)) p → meets (BEBOP_PARSE_CHECK tokens k) Q p.
Proof. intros Hp. apply meets_eq. by apply (check_eq tokens), ok_inside. Qed.
Lemma w_at_end (Q : bool → _ → Prop) p : ok p → Q (bool_decide (kind (pr_current p) = BEBOP_TOKEN_EOF)) p → meets (BEBOP_PARSE_AT_END tokens) Q p.
Proof. apply w_check. Qed.
Lemma w_advance (Q : unit → _ → Prop) p : ok p → kind (pr_current p) ≠ BEBOP_TOKEN_EOF → (goes p (next p) → Q tt (next p)) → meets (BEBOP_PARSE_ADVANCE tokens) Q p.
Proof. intros Hp Hk HQ. eapply meets_eq; [apply (advance_next tokens); [by apply ok_inside|done]|]. by apply HQ, goes_next. Qed.
Lemma w_match k (Q : bool → _ → Prop) p : ok p → k ≠ BEBOP_TOKEN_EOF →
  (kind (pr_current p) = k → goes p (next p) → Q true (next p)) → (kind (pr_current p) ≠ k → Q false p) → meets (BEBOP_PARSE_MATCH tokens k) Q p.
Proof.
  intros Hp Hk Ht Hf. pose proof (ok_inside _ Hp) as Hin.
  unfold ParseSteps.meets. rewrite (match_eq tokens) by done. case_bool_decide as E; [|by apply Hf].
  apply Ht; [done|]. apply goes_next; [done|congruence].
Qed.
Lemma w_peek n (Q : _ → _ → Prop) p : ok p → 0 ≤ n → (∀ t, Q t p) → meets (bebop__parse_peek tokens n) Q p.
Proof.
  intros Hp Hn HQ. pose proof (ok_inside _ Hp) as Hin. unfold inside in Hin. unfold bebop__parse_peek. destruct (Z.eqb_spec (zlen tokens) 0); [apply HQ|].
  apply meets_bind, meets_gets, meets_bind. eapply meets_eq; [apply token_at_inside|apply HQ].
  destruct (_ <? _); [lia|]. destruct (Z.leb_spec (zlen tokens) (pr_current p + n)); lia.
Qed.

(** *** Reports *)

(** The state behind a report, which is in panic mode. *)
Definition erred (p p' : bebop_parser_t) : Prop := goes p p' ∧ pr_current p' = pr_current p ∧ pr_panic p' = true.
(** The state behind a part that reads no tokens. *)
Definition here (p p' : bebop_parser_t) : Prop := goes p p' ∧ pr_current p' = pr_current p ∧ (pr_panic p = true → pr_panic p' = true).

Lemma erred_post c p p' : ok p → goes_on c → c p = Some (tt, p') → error_post grants tokens p p' → erred p p'.
Proof.
  intros Hp Hf E (Hle&Hc&Hfail). pose proof (Hf _ _ _ E) as Hfa. rewrite (ok_fatal _ Hp) in Hfa. split_and!; [by apply goes_le|done|].
  destruct Hfail; congruence.
Qed.
Lemma w_erred c (Q : unit → _ → Prop) p : ok p → goes_on c → computes c (λ _ p', error_post grants tokens p p') p →
  (∀ p', erred p p' → Q tt p') → meets c Q p.
Proof. intros Hp Hf ([]&p'&E&H) HQ. eapply meets_eq; [exact E|]. apply HQ. by eapply erred_post. Qed.
Lemma w_error_at span code (Q : unit → _ → Prop) p : ok p → (∀ p', erred p p' → Q tt p') → meets (bebop__parse_error_at grants span code) Q p.
Proof. intros Hp. apply w_erred; [done|apply goes_on_error_at|]. by apply (error_at_computes grants tokens); [apply Hp|]. Qed.
Lemma w_error_current code (Q : unit → _ → Prop) p : ok p → (∀ p', erred p p' → Q tt p') → meets (BEBOP_PARSE_ERROR_CURRENT grants tokens code) Q p.
Proof. intros Hp. apply w_erred; [done|apply goes_on_ERROR_CURRENT|]. by apply (error_current_computes grants tokens); [apply Hp|]. Qed.
Lemma w_error code (Q : unit → _ → Prop) p : ok p → 0 < pr_current p → (∀ p', erred p p' → Q tt p') → meets (BEBOP_PARSE_ERROR grants tokens code) Q p.
Proof. intros Hp Hc. apply w_erred; [done|apply goes_on_ERROR|]. by apply (error_computes grants tokens); [apply Hp| |]. Qed.

Lemma w_here {A} (c : M A) (Q : A → _ → Prop) p : ok p →
  (∀ Q' : A → bebop_parser_t → Prop, (∀ a p', parser_le grants tokens p p' → pr_current p' = pr_current p → pr_panic p' = pr_panic p → pr_had_error p' = pr_had_error p →
    pr_fatal p' = pr_fatal p → Q' a p') → computes c Q' p) →
  (∀ a p', here p p' → Q a p') → meets c Q p.
Proof.
  intros Hp Hc HQ. eapply meets_computes; [apply (Hc (λ _ p', here p p'))|auto]. intros a p' Hle Hcur Hpa _ Hf.
  split_and!; [apply goes_le; [done..|rewrite Hf; apply Hp]|done|congruence].
Qed.
Lemma w_label span (Q : unit → _ → Prop) p : ok p → (∀ p', here p p' → Q tt p') → meets (add_label grants span) Q p.
Proof.
  intros Hp HQ. apply w_here; [done| |intros []; exact HQ]. intros Q' H'. apply (add_label_computes grants tokens); [apply Hp|]. intros; by apply H'.
Qed.
Lemma w_warning span code (Q : unit → _ → Prop) p : ok p → (∀ p', here p p' → Q tt p') → meets (BEBOP_PARSE_WARNING grants span code) Q p.
Proof.
  intros Hp HQ. apply w_here; [done| |intros []; exact HQ]. intros Q' H'. apply (add_diagnostic_computes grants tokens); [apply Hp|]. intros; by apply H'.
Qed.
Lemma w_sema {A} (c : C bebop_sema_t A) (next : body → body) (P : body → Prop) (Q : A → _ → Prop) p : ok p →
  (∀ b, sema_ok b (pr_sema p) → answers grants c (next b) (P b) (pr_sema p)) → (∀ a p', here p p' → Q a p') → meets (on_sema c) Q p.
Proof. intros Hp Hc HQ. apply w_here; [done| |done]. intros Q' H'. by eapply (answers_computes grants tokens); [apply Hp|exact Hc|]. Qed.

(** *** Tokens that are expected *)

Lemma w_consume k (Q : bool → _ → Prop) p : ok p → k ≠ BEBOP_TOKEN_EOF →
  (kind (pr_current p) = k → goes p (next p) → Q true (next p)) → (∀ p', erred p p' → Q false p') → meets (BEBOP_PARSE_CONSUME grants tokens k) Q p.
Proof.
  intros Hp Hk Ht Hf. unfold BEBOP_PARSE_CONSUME. apply meets_bind, w_check; [done|]. case_bool_decide as E.
  - apply meets_bind, w_advance; [done|congruence|]. intros H. by apply meets_ret, Ht.
  - apply meets_bind, w_error_current; [done|]. intros p' H. by apply meets_ret, Hf.
Qed.
Lemma w_consume_after k (Q : bool → _ → Prop) p : ok p → 0 < pr_current p → k ≠ BEBOP_TOKEN_EOF →
  (kind (pr_current p) = k → goes p (next p) → Q true (next p)) → (∀ p', erred p p' → Q false p') → meets (BEBOP_PARSE_CONSUME_AFTER grants tokens k) Q p.
Proof.
  intros Hp Hc Hk Ht Hf. unfold BEBOP_PARSE_CONSUME_AFTER. apply meets_bind, w_check; [done|]. case_bool_decide as E.
  - apply meets_bind, w_advance; [done|congruence|]. intros H. by apply meets_ret, Ht.
  - apply meets_bind, w_error; [done..|]. intros p' H. by apply meets_ret, Hf.
Qed.
Lemma w_consume_name (Q : bool → _ → Prop) p : ok p →
  (bebop__token_is_ident_or_keyword (kind (pr_current p)) = true → goes p (next p) → Q true (next p)) → (∀ p', erred p p' → Q false p') →
  meets (BEBOP_PARSE_CONSUME_NAME grants tokens) Q p.
Proof.
  intros Hp Ht Hf. unfold BEBOP_PARSE_CONSUME_NAME. apply meets_bind, w_current; [done|]. change (tk_kind (tok (pr_current p))) with (kind (pr_current p)).
  destruct (bebop__token_is_ident_or_keyword _) eqn:E.
  - apply meets_bind, w_advance; [done|by apply not_eof_name|]. intros H. by apply meets_ret, Ht.
  - apply meets_bind, w_error_current; [done|]. intros p' H. by apply meets_ret, Hf.
Qed.
End Rules.
