(* ===== verification/ParseRules.v ===== *)
(** More rules of the parser's parts: taking up again, names and comments, types and
    expressions, the store of definitions and schemas. *)
From stdpp Require Import list gmap strings.
From S2P Require Import Prelude.
From S2P Require Import Scanner.
From S2P Require Import ScannerSpec.
From S2P Require Import Schema.
From S2P Require Import Fuzzy.
From S2P Require Import Literals.
From S2P Require Import Diagnostics.
From S2P Require Import Sema.
From S2P Require Import SemaProps.
From S2P Require Import Registry.
From S2P Require Import RegistryProps.
From S2P Require Import Parser.
From S2P Require Import ParserProps.
From S2P Require Import ParseType.
From S2P Require Import ParseTypeProps.
From S2P Require Import ParseTypeSpec.
From S2P Require Import ParseExpr.
From S2P Require Import ParseExprProps.
From S2P Require Import ParseLiteral.
From S2P Require Import ParseMember.
From S2P Require Import ParseMacro.
From S2P Require Import ParseFile.
From S2P Require Import ParseSteps.

Section Rules.
Context {cc : Context} {Hcc : ContextOk} {Hg : ContextGrants}.
Context {dm : DefMap def_ptr} {Hdm : DefMapOk} {Hdefs : Inserts dm}.
Context {ns : DefMap (option bebop_span_t)} {Hns : DefMapOk} {Hnames : Inserts ns}.
Context (grants : nat → bool) (tokens : list bebop_token_t) (source : list Z) (trivia : list bebop_trivia_t) (schema : schema_ptr) (c0 : ctx).
Context {Hsk : scanned tokens source trivia c0} (undefined : Prop).
Abbreviation M := (C bebop_parser_t).
Abbreviation tok := (tok_at tokens).
Abbreviation kind := (kind_at tokens).
Abbreviation pctx p := (rg_ctx (pr_registry p)).
Abbreviation defs p := (rg_defs (pr_registry p)).
Abbreviation meets := (ParseSteps.meets undefined).
Abbreviation ok := (ParseSteps.ok grants tokens schema c0).
Abbreviation goes := (ParseSteps.goes grants tokens schema c0).
Abbreviation erred := (ParseSteps.erred grants tokens schema c0).
Abbreviation here := (ParseSteps.here grants tokens schema c0).
#[local] Instance ends_here : stream_ends tokens := sk_ends _ _ _ _ Hsk.

(** ** Taking up again *)

(** Behind an error: panic mode is left, and some token with it unless the stream has ended. *)
Definition resumed (p p' : bebop_parser_t) : Prop :=
  goes p p' ∧ (pr_panic p = true → kind (pr_current p) ≠ BEBOP_TOKEN_EOF → pr_current p < pr_current p').

Lemma w_synchronize stop (Q : unit → _ → Prop) p : ok p →
  (∀ p', goes p p' → (kind (pr_current p) ≠ BEBOP_TOKEN_EOF → pr_current p < pr_current p') → Q tt p') →
  meets (clear_panic;; BEBOP_PARSE_ADVANCE tokens;; synchronize_loop tokens (parse_fuel tokens) stop) Q p.
Proof.
  intros Hp HQ. pose proof (ok_inside _ _ _ _ _ Hp) as Hin. destruct (synchronize_exact grants tokens stop p Hin) as (j&E&Hj).
  eapply meets_eq; [exact E|]. unfold inside in Hin. apply HQ.
  - apply goes_le; [done| |apply Hp]. etrans; [apply cleared_le|]. case_bool_decide; [subst j|destruct Hj as (?&_)]; apply set_current_le; cbn; lia.
  - intros Hk. rewrite bool_decide_false in Hj by done. destruct Hj as (?&_). cbn. lia.
Qed.
Lemma w_recover (Q : unit → _ → Prop) p : ok p → (∀ p', resumed p p' → Q tt p') → meets (recover tokens) Q p.
Proof.
  intros Hp HQ. unfold recover. apply meets_bind, meets_gets. destruct (pr_panic p) eqn:Epa.
  - apply w_synchronize; [done|]. intros p' H1 H2. apply HQ. by split.
  - apply meets_ret, HQ. split; [by apply goes_refl|congruence].
Qed.
Lemma w_recover_in_block (Q : unit → _ → Prop) p : ok p → (∀ p', resumed p p' → Q tt p') → meets (recover_in_block tokens) Q p.
Proof.
  intros Hp HQ. unfold recover_in_block. apply meets_bind, meets_gets. destruct (pr_panic p) eqn:Epa.
  - apply w_synchronize; [done|]. intros p' H1 H2. apply HQ. by split.
  - apply meets_ret, HQ. split; [by apply goes_refl|congruence].
Qed.

(** The token that was just passed. *)
Lemma w_previous_next (Q : _ → _ → Prop) p : ok (next p) → 0 ≤ pr_current p → Q (tok (pr_current p)) (next p) → meets (BEBOP_PARSE_PREVIOUS tokens) Q (next p).
Proof. intros Hp Hc HQ. eapply w_previous; [exact Hp|cbn; lia|]. by replace (pr_current (next p) - 1) with (pr_current p) by (cbn; lia). Qed.
Lemma next_current p : pr_current (next p) = pr_current p + 1.
Proof. done. Qed.
Lemma ok_range p : ok p → 0 ≤ pr_current p < zlen tokens.
Proof. intros Hp. by apply (ok_inside grants tokens schema c0). Qed.

(** ** Strings and storage *)

Lemma w_str_get s (Q : _ → _ → Prop) p : Q (ctx_str (pctx p) s) p → meets (str_get s) Q p.
Proof. done. Qed.
Lemma w_text_of s (Q : list Z → _ → Prop) p : (∀ t, t = default [] (ctx_str (pctx p) s) → Q t p) → meets (text_of s) Q p.
Proof. intros HQ. by apply HQ. Qed.

Lemma w_asked {A} (c : C registry_t A) a r' (Q : A → bebop_parser_t → Prop) p : ok p →
  c (pr_registry p) = Some (a, r') → asked (pr_registry p) r' → (∀ p', here p p' → pr_panic p' = pr_panic p → Q a p') → meets (on_registry c) Q p.
Proof.
  intros Hp E Hr HQ.
  apply (meets_computes _ _ (λ a' p', a' = a ∧ here p p' ∧ pr_panic p' = pr_panic p)); [|intros ? p' (->&?&?); by apply HQ].
  apply (on_registry_computes grants tokens c a r'); [done..|]. intros p' Hle Hc Hpa Hf _ _. split_and!; [done| |done].
  split_and!; [|done|congruence]. apply goes_le; [done..|rewrite Hf; apply Hp].
Qed.
Lemma w_alloc size n k (Q : option Z → _ → Prop) p : ok p → 0 ≤ k < 64 → (∀ a p', here p p' → pr_panic p' = pr_panic p → Q (Some a) p') →
  meets (on_registry (alloc_n size n (2 ^ k))) Q p.
Proof.
  intros Hp Hk HQ. destruct (computes_alloc size n k (λ a r', asked (pr_registry p) r') (pr_registry p) Hk) as (a&r'&E&Hr); [done|].
  assert (Ha : is_Some a).
  { unfold alloc_n in E. destruct (cg_alloc size n (2 ^ k) (rg_ctx (pr_registry p))) as (x&Ex). destruct (ctx_alloc_n _ _ _ _) as [o c]. cbn in Ex. subst. by simplify_eq. }
  destruct Ha as (x&->). eapply w_asked; [done..|]. intros p' H ?. by apply (HQ x).
Qed.
Lemma w_intern text (Q : Z → _ → Prop) p : ok p → (∀ a p', here p p' → pr_panic p' = pr_panic p → Q a p') → meets (on_registry (bebop_intern_n text)) Q p.
Proof.
  intros Hp HQ. destruct (computes_intern text (λ _ r', asked (pr_registry p) r') (pr_registry p)) as (a&r'&E&Hr); [done|].
  eapply w_asked; [done..|]. intros p' H ?. by apply (HQ a).
Qed.
Lemma w_realloc a old new (Q : option Z → _ → Prop) p : ok p → (∀ a p', here p p' → pr_panic p' = pr_panic p → Q a p') → meets (arena_realloc a old new) Q p.
Proof.
  intros Hp HQ. unfold arena_realloc. destruct (ctx_realloc a old new (pctx p)) as [b c] eqn:E.
  eapply (w_asked _ b (set_ctx c (pr_registry p))); [done|by rewrite E| |intros p' H ?; by apply HQ].
  split_and!; [done..|]. cbn. pose proof (ctx_realloc_ok a old new (pctx p)) as Hle. by rewrite E in Hle.
Qed.

(** ** Names *)

Lemma w_suggest candidates input span (Q : unit → _ → Prop) p : ok p → (∀ p', here p p' → Q tt p') → meets (suggest_nearest grants candidates input span) Q p.
Proof.
  intros Hp HQ. unfold suggest_nearest. apply meets_bind, meets_lift; [apply fuzzy_defined|]. intros [i|] _.
  - by eapply w_label.
  - apply meets_ret, HQ. by split_and!; [apply goes_refl|..].
Qed.
Lemma here_trans p p1 p2 : here p p1 → here p1 p2 → here p p2.
Proof. intros (H1&C1&P1) (H2&C2&P2). split_and!; [by eapply goes_trans|congruence|auto]. Qed.
Lemma here_erred p p1 : erred p p1 → here p p1.
Proof. intros (H&C&P). by split_and!. Qed.
Lemma here_refl p : ok p → here p p.
Proof. intros Hp. split_and!; [by apply goes_refl|done..]. Qed.
Lemma here_ok p p' : here p p' → ok p'.
Proof. intros (H&_). apply H. Qed.

Lemma w_reserved span i (Q : unit → _ → Prop) p : ok p → 0 ≤ i < zlen tokens → bebop__token_is_ident_or_keyword (kind i) = true →
  (∀ p', here p p' → Q tt p') → meets (bebop__check_reserved_name grants span (tk_lexeme (tok i))) Q p.
Proof.
  intros Hp Hi Hk HQ. unfold bebop__check_reserved_name. apply meets_bind, w_str_get, meets_bind.
  destruct (sk_names _ _ _ _ Hsk i Hi Hk) as (t&Et). rewrite (ok_str grants tokens source trivia schema c0 p _ t Hp Et). apply meets_lift; [by eexists|]. intros ? [= <-].
  case_match; [|by apply meets_ret, HQ, here_refl].
  apply meets_bind. eapply w_error_at; [exact Hp|]. intros p1 H1%here_erred. eapply w_label; [by eapply here_ok|]. intros p2 H2. by apply HQ; eapply here_trans.
Qed.

(** ** Comments *)

Definition is_doc (t : bebop_trivia_t) : Prop := tv_kind t = BEBOP_TRIVIA_DOC_COMMENT.
Lemma doc_range_defined items n : ∀ a b, (n ≤ length items)%nat → (b < 0 ∨ ∃ t, items !! Z.to_nat a = Some t ∧ is_doc t) →
  ∃ a' b', doc_range items n a b = Some (a', b') ∧ (b' < 0 ∨ ∃ t, items !! Z.to_nat a' = Some t ∧ is_doc t).
Proof.
  induction n as [|n IH]; intros a b Hn H; cbn [doc_range]; [by eexists _, _|].
  destruct (lookup_lt_is_Some_2 items n) as (t&Et); [lia|]. rewrite Et. cbn [mbind option_bind].
  destruct (tv_kind t) eqn:Ek; try (by eexists _, _); try (apply IH; [lia|done]).
  apply IH; [lia|]. right. exists t. by rewrite Nat2Z.id.
Qed.
Lemma line_docs_defined items : ∀ out, (∀ t, t ∈ items → is_doc t → is_Some (comment_text source t)) → is_Some (line_docs source items out).
Proof.
  induction items as [|t items IH]; intros out H; cbn [line_docs]; [by eexists|].
  assert (Hrest : ∀ out, is_Some (line_docs source items out)) by (intros o; apply IH; intros; apply H; [by right|done]).
  destruct (tv_kind t) eqn:Ek; try done. destruct (H t) as (text&->); [by left|done|]. cbn. apply Hrest.
Qed.

Lemma w_intern_text out (Q : Z → _ → Prop) p : ok p → (∀ a p', here p p' → pr_panic p' = pr_panic p → Q a p') → meets (intern_text out) Q p.
Proof. intros Hp HQ. destruct out; [apply meets_ret, HQ; [by apply here_refl|done]|by apply w_intern]. Qed.
Lemma w_extract_doc l (Q : Z → _ → Prop) p : ok p → comments_in source trivia l → (∀ a p', here p p' → Q a p') → meets (bebop__parse_extract_doc source trivia l) Q p.
Proof.
  intros Hp ((Ho&Hn&Hl)&Hin) HQ. unfold bebop__parse_extract_doc. destruct (tl_count l =? 0); [by apply meets_ret, HQ, here_refl|].
  set (items := trivia_items trivia l) in *.
  assert (Hlen : length items = Z.to_nat (tl_count l)) by (unfold items, trivia_items; rewrite length_take, length_drop; unfold zlen in Hl; lia).
  destruct (doc_range_defined items (Z.to_nat (tl_count l)) (-1) (-1)) as (a&b&E&Hab); [lia|left; lia|]. rewrite E.
  apply meets_bind, meets_lift; [by eexists|]. intros ? [= <-]. destruct (Z.ltb_spec b 0); [by apply meets_ret, HQ, here_refl|].
  destruct Hab as [?|(first&Ef&Hfirst)]; [lia|]. apply meets_bind, meets_lift; [by eexists|]. intros ? E1. rewrite Ef in E1. injection E1 as <-.
  apply meets_bind, meets_lift; [apply Hin; [by eapply list_elem_of_lookup_2|done]|]. intros text _.
  assert (Hlines : meets (buf ← on_registry (alloc_n 1 (doc_length (take (Z.to_nat (b - a + 1)) (drop (Z.to_nat a) items)) + 1) 1);
    match buf with None => mret 0 | Some _ => out ← lift (line_docs source (take (Z.to_nat (b - a + 1)) (drop (Z.to_nat a) items)) []); intern_text out end) Q p).
  { apply meets_bind, (w_alloc 1 _ 0); [done|lia|]. intros x p1 H1 _. apply meets_bind, meets_lift.
    - apply line_docs_defined. intros t Ht. apply Hin. apply elem_of_take in Ht as (i&Hi&_). apply list_elem_of_lookup_2 in Hi. by eapply subseteq_drop.
    - intros out _. apply w_intern_text; [by eapply here_ok|]. intros y p2 H2 _. by apply HQ; eapply here_trans. }
  assert (Hblock : ∀ src, meets (buf ← on_registry (alloc_n 1 (zlen src + 1) 1);
    match buf with None => mret 0 | Some _ => intern_text (trim_end BEBOP_IS_BLANK (block_doc (S (length src)) src true)) end) Q p).
  { intros src. apply meets_bind, (w_alloc 1 _ 0); [done|lia|]. intros x p1 H1 _. apply w_intern_text; [by eapply here_ok|].
    intros y p2 H2 _. by apply HQ; eapply here_trans. }
  repeat case_match; try exact Hlines; try apply Hblock. by apply meets_ret, HQ, here_refl.
Qed.

(** ** Types and expressions *)

Lemma w_parse_type (Q : option parsed_type → _ → Prop) p : ok p →
  (∀ t p', goes p p' → pr_current p < pr_current p' → pr_panic p' = pr_panic p → Q (Some t) p') →
  (∀ p', goes p p' → pr_panic p' = true → Q None p') → meets (bebop__parse_type grants tokens) Q p.
Proof.
  intros Hp Hs Hn. destruct (parse_type_result grants tokens c0 (sk_ctx _ _ _ _ Hsk) (sk_texts _ _ _ _ Hsk) p (ok_ready _ _ _ _ _ Hp)) as (t&p'&E&Hle&H).
  eapply meets_eq; [exact E|]. pose proof (goes_on_parse_type grants tokens _ _ _ E) as Hf. rewrite (ok_fatal _ _ _ _ _ Hp) in Hf.
  assert (Hgo : goes p p') by (by apply goes_le). destruct t as [t|].
  - destruct H as (Hpa&_&s&Ht&_). apply Hs; [done| |done]. by eapply type_forward.
  - destruct H as ([?|?]&_); [|congruence]. by apply Hn.
Qed.

Lemma expr_run_keeps members fuel : ∀ m p, parser_ok grants tokens p →
  ensures (expr_run grants tokens fuel members m) (λ _ p', keeps grants tokens p p') p.
Proof.
  induction fuel as [|fuel IH]; intros m p Hp v p' E; cbn [expr_run] in E; [done|]. unfold mbind, C_bind in E.
  destruct (expr_step grants tokens members m p) as [[[m'|w] p1]|] eqn:Es; [| |done].
  - destruct (step_ensures grants tokens members m p Hp _ _ Es) as (H1&_). eapply keeps_trans; [exact H1|]. eapply IH; [exact (proj1 H1)|exact E].
  - destruct (step_ensures grants tokens members m p Hp _ _ Es) as (H1&_). injection E as <- <-. exact H1.
Qed.
Lemma w_parse_expression members (Q : Z → _ → Prop) p : ok p →
  (bebop__parse_expression grants tokens members p = None → undefined) → (∀ v p', goes p p' → Q v p') →
  meets (bebop__parse_expression grants tokens members) Q p.
Proof.
  intros Hp Hu HQ. unfold ParseSteps.meets. destruct (bebop__parse_expression grants tokens members p) as [[v p']|] eqn:E; [|by apply Hu].
  apply HQ. destruct (expr_run_keeps members _ _ p (ok_parser _ _ _ _ _ Hp) _ _ E) as (_&Hle&_). apply goes_le; [done..|].
  pose proof (goes_on_parse_expression grants tokens _ _ _ _ E) as Hf. rewrite Hf. apply Hp.
Qed.

(** ** Definitions *)

(** A change of the registry alone. *)
Definition with_registry (r : registry_t) (p : bebop_parser_t) : bebop_parser_t :=
  mkParser (pr_current p) (pr_had_error p) (pr_panic p) (pr_fatal p) (pr_sema p) r (pr_preamble p).
Lemma settled_here p r' : ok p → settled (pr_registry p) r' → here p (with_registry r' p).
Proof.
  intros [Hp Hc Hf Hr Hs] [H1 H2 H3 H4]. split_and!; [|done..]. split; [|done..|done]. split; [|by etrans|done|done|].
  - destruct Hp as [Hi Hb Hfl]. by split.
  - cbn. apply lookup_lt_is_Some. rewrite H3. by apply lookup_lt_is_Some.
Qed.
Lemma w_changes {A} (c : C registry_t A) a r' (Q : A → _ → Prop) p : ok p → c (pr_registry p) = Some (a, r') → settled (pr_registry p) r' →
  (here p (with_registry r' p) → Q a (with_registry r' p)) → meets (on_registry c) Q p.
Proof. intros Hp E Hch HQ. unfold ParseSteps.meets, on_registry. rewrite E. by apply HQ, settled_here. Qed.

Lemma w_deref q d (Q : _ → _ → Prop) p : defs p !! q = Some d → Q d p → meets (on_registry (deref q)) Q p.
Proof. intros E HQ. unfold ParseSteps.meets, on_registry, deref. rewrite E. cbn. by destruct p. Qed.
Lemma w_schema_at (Q : _ → _ → Prop) p : ok p → (∀ sc, rg_schemas (pr_registry p) !! schema = Some sc → Q sc p) → meets (on_registry (schema_at schema)) Q p.
Proof. intros Hp HQ. destruct (ok_schema _ _ _ _ _ Hp) as (sc&E). unfold ParseSteps.meets, on_registry, schema_at. rewrite E. cbn. destruct p. by apply HQ. Qed.

(** A definition is changed in its place. *)
Lemma w_put_def q d d' (Q : unit → _ → Prop) p : ok p → defs p !! q = Some d → same_place d d' → (∀ p', here p p' → defs p' !! q = Some d' → Q tt p') →
  meets (on_registry (put_def q d')) Q p.
Proof.
  intros Hp E Hd HQ.
  assert (Hin : <[q:=d']> (defs p) !! q = Some d') by (apply list_lookup_insert_eq; by eapply lookup_lt_Some).
  eapply (w_changes _ tt (set_defs (<[q:=d']> (defs p)) (pr_registry p))); [done..| |intros H; by apply HQ].
  assert (Hall : Forall2 same_place (defs p) (<[q:=d']> (defs p))).
  { rewrite <- (list_insert_id (defs p) q d E) at 1. apply Forall2_insert; [|done]. apply Forall_Forall2_diag, Forall_true. by split. }
  apply settled_defs; [|done]. eapply (registry_ok_same (pr_registry p)); [apply Hp|done..].
Qed.
Lemma same_place_body d b : def_kind (set_body b d) = def_kind d → same_place d (set_body b d).
Proof. intros H. by split. Qed.

(** A new definition of the schema. *)
Lemma w_new_def d (Q : option def_ptr → _ → Prop) p : ok p → df_schema d = Some schema → df_nested_defs d = [] →
  (∀ q, df_parent d = Some q → ∃ dq, defs p !! q = Some dq ∧ df_schema dq = Some schema) →
  (∀ q p', here p p' → defs p' !! q = Some d → Q (Some q) p') → meets (new_def d) Q p.
Proof.
  intros Hp Hs Hn Hpar HQ. unfold new_def. apply meets_bind, (w_alloc _ _ 3); [done|lia|]. intros a p1 H1 _.
  pose proof (here_ok _ _ H1) as Hp1. destruct (ok_schema _ _ _ _ _ Hp1) as (sc&Esc).
  eapply (w_changes _ (Some (length (defs p1))) (set_defs (defs p1 ++ [d]) (pr_registry p1))); [done..| |].
  - split; [|done|done|].
    + eapply (new_def_ok (pr_registry p1) d schema); [apply Hp1|done|by eexists|done|]. intros q Eq. destruct (Hpar q Eq) as (dq&E&Hsq).
      destruct H1 as ([_ _ _ Hd]&_). destruct (Hd q dq E) as (dq'&E'&[]). exists dq'. split; [done|congruence].
    + intros q d0 E0. exists d0. split; [by apply lookup_app_l_Some|done].
  - intros H2. apply HQ; [by eapply here_trans|]. cbn. by apply list_lookup_middle.
Qed.

Lemma w_settled {A} (c : C registry_t A) (P : A → registry_t → Prop) (Q : A → _ → Prop) p : ok p →
  computes c (λ a r', settled (pr_registry p) r' ∧ P a r') (pr_registry p) → (∀ a p', here p p' → P a (pr_registry p') → Q a p') → meets (on_registry c) Q p.
Proof. intros Hp (a&r'&E&Hs&HP) HQ. eapply w_changes; [done|exact E|done|]. intros H. by apply HQ. Qed.
Lemma w_add_def q d (Q : unit → _ → Prop) p : ok p → defs p !! q = Some d → df_schema d = Some schema → df_parent d = None →
  (∀ p', here p p' → Q tt p') → meets (add_def schema q) Q p.
Proof.
  intros Hp E Hs Hpar HQ. unfold add_def, with_depth. apply meets_bind, meets_gets. eapply w_settled; [done| |intros [] p' H _; by apply HQ].
  apply add_def_settled; [apply Hp|by exists d| |apply Hdefs]. apply lookup_lt_Some in E. lia.
Qed.
Lemma w_add_nested parent q d (Q : unit → _ → Prop) p : ok p → defs p !! q = Some d → df_schema d = Some schema → df_parent d = Some parent →
  (∀ p', here p p' → Q tt p') → meets (add_nested parent q) Q p.
Proof.
  intros Hp E Hs Hpar HQ. unfold add_nested, with_depth. apply meets_bind, meets_gets. eapply w_settled; [done| |intros [] p' H _; by apply HQ].
  eapply add_nested_settled; [apply Hp|by exists d|]. apply lookup_lt_Some in E. lia.
Qed.
Lemma w_add_import path span (Q : unit → _ → Prop) p : ok p → (∀ p', here p p' → Q tt p') → meets (on_registry (bebop__schema_add_import schema path span)) Q p.
Proof.
  intros Hp HQ. apply (w_settled _ (λ _ _, True)); [done| |intros [] p' H _; by apply HQ]. eapply computes_weaken; [apply add_import_settled; apply Hp|]. done.
Qed.
Lemma w_set_package package span (Q : unit → _ → Prop) p : ok p → (∀ p', here p p' → Q tt p') → meets (set_package schema package span) Q p.
Proof.
  intros Hp HQ. apply (w_settled _ (λ _ _, True)); [done| |intros [] p' H _; by apply HQ].
  destruct (ok_schema _ _ _ _ _ Hp) as (sc&E). eapply computes_bind; [by apply (computes_schema_at schema sc (λ sc' r', sc' = sc ∧ r' = pr_registry p))|]. intros ? ? (->&->).
  apply computes_modify. split; [|done]. apply settled_schemas; [|by rewrite length_insert]. apply put_schema_ok; [apply Hp|].
  destruct (ro_schemas _ (ok_registry _ _ _ _ _ Hp) _ _ E) as [H1 H2 H3 H4]. by split.
Qed.
(** A macro has no owner until it is added. *)
Lemma add_def_owner fuel s p d r : rg_defs r !! p = Some d → df_schema d = None →
  bebop__schema_add_def fuel s p r = bebop__schema_add_def fuel s p (set_defs (<[p := set_owner (Some s) (df_parent d) d]> (rg_defs r)) r).
Proof.
  intros E Hn. set (d' := set_owner (Some s) (df_parent d) d). set (r' := set_defs (<[p := d']> (rg_defs r)) r).
  assert (E' : rg_defs r' !! p = Some d') by (cbn; apply list_lookup_insert_eq; by eapply lookup_lt_Some).
  unfold bebop__schema_add_def. rewrite (C_bind_Some (deref p) _ r d r) by (unfold deref; by rewrite E).
  rewrite (C_bind_Some (deref p) _ r' d' r') by (unfold deref; by rewrite E').
  erewrite !(C_bind_Some (put_def _ _)) by reflexivity. fold d'. replace (set_owner (Some s) (df_parent d') d') with d' by done.
  by rewrite (put_same_def r' p d' E').
Qed.
End Rules.

(** ** What C leaves undefined *)

(** What C leaves undefined of the literals of a stream: the negation of the least integer. *)
Class MinusDefined `{Context} (tokens : list bebop_token_t) (c : ctx) (undefined : Prop) : Prop :=
  minus_defined : ∀ i, 0 < i < zlen tokens → kind_at tokens (i - 1) = BEBOP_TOKEN_MINUS → kind_at tokens i = BEBOP_TOKEN_NUMBER →
    bebop_util_parse_int (45 :: ParseTypeSpec.text tokens (ctx_str c) i) = None → undefined.

(** What C leaves undefined of the expressions behind the equals signs of a stream: shifts and
    sums that leave 64 bits. *)
Class ExpressionsDefined {cc : Context} {Hg : ContextGrants} {dm : DefMap def_ptr} {ns : DefMap (option bebop_span_t)}
    (grants : nat → bool) (tokens : list bebop_token_t) (schema : schema_ptr) (c0 : ctx) (undefined : Prop) : Prop :=
  expressions_defined : ∀ members p, ParseSteps.ok grants tokens schema c0 p → 0 < pr_current p → kind_at tokens (pr_current p - 1) = BEBOP_TOKEN_EQUALS →
    bebop__parse_expression grants tokens members p = None → undefined.

(** ** Automation *)

(** What a step says of the state behind it. *)
Ltac learn H :=
  lazymatch type of H with
  | ParseSteps.goes _ _ _ _ ?a ?b =>
      let Ho := fresh "Ho" in let Hc := fresh "Hc" in
      pose proof (go_ok _ _ _ _ _ _ H) as Ho; pose proof (go_current _ _ _ _ _ _ H) as Hc;
      let Hr := fresh "Hr" in pose proof (ok_range _ _ _ _ _ Ho) as Hr;
      rewrite ?next_current in Hc; rewrite ?next_current in Hr
  | ParseSteps.erred _ _ _ _ ?a ?b =>
      let Hg := fresh "Hg" in let He := fresh "He" in let Hp := fresh "Hp" in destruct H as (Hg&He&Hp); rewrite ?next_current in He; learn Hg
  | ParseSteps.here _ _ _ _ ?a ?b =>
      let Hg := fresh "Hg" in let He := fresh "He" in let Hp := fresh "Hp" in destruct H as (Hg&He&Hp); rewrite ?next_current in He; learn Hg
  | resumed _ _ _ _ ?a ?b =>
      let Hg := fresh "Hg" in let Hp := fresh "Hp" in destruct H as (Hg&Hp); learn Hg
  end.
(** The states in between. *)
Ltac chain :=
  lazymatch goal with
  | |- ParseSteps.goes _ _ _ _ ?a ?a => apply goes_refl; assumption
  | H : ParseSteps.goes _ _ _ _ ?a ?b |- ParseSteps.goes _ _ _ _ ?a ?b => exact H
  | H : ParseSteps.goes _ _ _ _ ?c ?b |- ParseSteps.goes _ _ _ _ ?a ?b => apply (goes_trans _ _ _ _ a c b); [chain|exact H]
  end.
Ltac kinds := solve [done | congruence | eassumption].

(** A rule for a scanned stream. *)
Tactic Notation "rule" uconstr(r) := eapply r; try lazymatch goal with |- scanned _ _ _ _ => eassumption | |- MinusDefined _ _ _ => eassumption | |- ExpressionsDefined _ _ _ _ _ => eassumption end.
(** A place behind the start. *)
Ltac pos := rewrite ?next_current in *; lia.
Ltac mrule :=
  lazymatch goal with
  | |- ParseSteps.meets _ (mret _) _ _ => apply meets_ret
  | |- ParseSteps.meets _ (_ ≫= _) _ _ => apply meets_bind; mrule
  | |- ParseSteps.meets _ (gets _) _ _ => apply meets_gets
  | |- ParseSteps.meets _ (BEBOP_PARSE_CURRENT _) _ _ => rule w_current; [eassumption|]
  | |- ParseSteps.meets _ (BEBOP_PARSE_PREVIOUS _) _ (next _) => rule w_previous_next; [eassumption|pos|]
  | |- ParseSteps.meets _ (BEBOP_PARSE_PREVIOUS _) _ _ => rule w_previous; [eassumption|pos|]
  | |- ParseSteps.meets _ (BEBOP_PARSE_CHECK _ _) _ _ => rule w_check; [eassumption|]; case_bool_decide
  | |- ParseSteps.meets _ (BEBOP_PARSE_AT_END _) _ _ => rule w_at_end; [eassumption|]; case_bool_decide
  | |- ParseSteps.meets _ (BEBOP_PARSE_ADVANCE _) _ _ => rule w_advance; [eassumption|kinds|let H := fresh "H" in intros H; learn H]
  | |- ParseSteps.meets _ (BEBOP_PARSE_MATCH _ _) _ _ => rule w_match; [eassumption|done|let E := fresh "E" in let H := fresh "H" in intros E H; learn H|intros ?]
  | |- ParseSteps.meets _ (BEBOP_PARSE_CONSUME _ _ _) _ _ =>
      rule w_consume; [eassumption|done|let E := fresh "E" in let H := fresh "H" in intros E H; learn H|let q := fresh "q" in let H := fresh "H" in intros q H; learn H]
  | |- ParseSteps.meets _ (BEBOP_PARSE_CONSUME_AFTER _ _ _) _ _ =>
      rule w_consume_after; [eassumption|pos|done|let E := fresh "E" in let H := fresh "H" in intros E H; learn H|let q := fresh "q" in let H := fresh "H" in intros q H; learn H]
  | |- ParseSteps.meets _ (BEBOP_PARSE_CONSUME_NAME _ _) _ _ =>
      rule w_consume_name; [eassumption|let E := fresh "E" in let H := fresh "H" in intros E H; learn H|let q := fresh "q" in let H := fresh "H" in intros q H; learn H]
  | |- ParseSteps.meets _ (bebop__parse_peek _ _) _ _ => rule w_peek; [eassumption|pos|intros ?]
  | |- ParseSteps.meets _ (BEBOP_PARSE_ERROR _ _ _) _ _ => rule w_error; [eassumption|pos|let q := fresh "q" in let H := fresh "H" in intros q H; learn H]
  | |- ParseSteps.meets _ (BEBOP_PARSE_ERROR_CURRENT _ _ _) _ _ => rule w_error_current; [eassumption|let q := fresh "q" in let H := fresh "H" in intros q H; learn H]
  | |- ParseSteps.meets _ (bebop__parse_error_at _ _ _) _ _ => rule w_error_at; [eassumption|let q := fresh "q" in let H := fresh "H" in intros q H; learn H]
  | |- ParseSteps.meets _ (add_label _ _) _ _ => rule w_label; [eassumption|let q := fresh "q" in let H := fresh "H" in intros q H; learn H]
  | |- ParseSteps.meets _ (BEBOP_PARSE_WARNING _ _ _) _ _ => rule w_warning; [eassumption|let q := fresh "q" in let H := fresh "H" in intros q H; learn H]
  | |- ParseSteps.meets _ (suggest_nearest _ _ _ _) _ _ => rule w_suggest; [eassumption|let q := fresh "q" in let H := fresh "H" in intros q H; learn H]
  | |- ParseSteps.meets _ (recover _) _ _ => rule w_recover; [eassumption|let q := fresh "q" in let H := fresh "H" in intros q H; learn H]
  | |- ParseSteps.meets _ (recover_in_block _) _ _ => rule w_recover_in_block; [eassumption|let q := fresh "q" in let H := fresh "H" in intros q H; learn H]
  | |- ParseSteps.meets _ (str_get _) _ _ => apply w_str_get
  | |- ParseSteps.meets _ (text_of _) _ _ => apply w_text_of; let E := fresh "Et" in intros ? E
  | |- ParseSteps.meets _ (on_registry (bebop_intern_n _)) _ _ => rule w_intern; [eassumption|let q := fresh "q" in let H := fresh "H" in intros ? q H ?; learn H]
  | |- ParseSteps.meets _ (arena_realloc _ _ _) _ _ => rule w_realloc; [eassumption|let q := fresh "q" in let H := fresh "H" in intros ? q H ?; learn H]
  | |- ParseSteps.meets _ (on_registry (alloc_n _ _ 8)) _ _ => rule (w_alloc _ _ _ _ _ _ _ 3); [eassumption|pos|let q := fresh "q" in let H := fresh "H" in intros ? q H ?; learn H]
  | |- ParseSteps.meets _ (on_registry (alloc_n _ _ 1)) _ _ => rule (w_alloc _ _ _ _ _ _ _ 0); [eassumption|pos|let q := fresh "q" in let H := fresh "H" in intros ? q H ?; learn H]
  | |- ParseSteps.meets _ (bebop__parse_type _ _) _ _ =>
      rule w_parse_type; [eassumption|let q := fresh "q" in let H := fresh "H" in intros ? q H ? ?; learn H|let q := fresh "q" in let H := fresh "H" in intros q H ?; learn H]
  end; cbv beta.
(** Steps, as long as they need no decision. *)
Ltac msteps := repeat (progress (first [mrule | progress cbn [negb]])).
