(* ===== verification/ParsePartProps.v ===== *)
(** What the parsers of literals, decorators, members, fields, methods and macros do when
    memory does not run out: each returns, and either it has consumed a token or the parser is
    in panic mode. *)
From stdpp Require Import list gmap strings.
From S2P Require Import Prelude.
From S2P Require Import Scanner.
From S2P Require Import ScannerSpec.
From S2P Require Import Schema.
From S2P Require Import Literals.
From S2P Require Import Calendar.
From S2P Require Import FloatText.
From S2P Require Import Diagnostics.
From S2P Require Import Sema.
From S2P Require Import SemaProps.
From S2P Require Import Registry.
From S2P Require Import RegistryProps.
From S2P Require Import Parser.
From S2P Require Import ParserProps.
From S2P Require Import ParseType.
From S2P Require Import ParseTypeSpec.
From S2P Require Import ParseExpr.
From S2P Require Import ParseLiteral.
From S2P Require Import ParseMember.
From S2P Require Import ParseMacro.
From S2P Require Import ParseFile.
From S2P Require Import ParseSteps.
From S2P Require Import ParseRules.

Lemma parse_uuid_total str : is_Some (bebop_util_parse_uuid str).
Proof.
  assert (Hhex : ∀ l, Forall (λ i, 0 ≤ i ∧ i + 1 < zlen str) l → is_Some (parse_hex_bytes str l)).
  { intros l Hl. destruct (parse_hex_bytes_total str l Hl) as (r&E). by exists r. }
  unfold bebop_util_parse_uuid. destruct (Z.eqb_spec (zlen str) 36) as [E|_].
  - destruct (load_in str 8 ltac:(lia)) as [a ->], (load_in str 13 ltac:(lia)) as [b ->], (load_in str 18 ltac:(lia)) as [c ->], (load_in str 23 ltac:(lia)) as [d ->].
    cbn [mbind option_bind]. case_match; [by eexists|]. apply Hhex. rewrite E. repeat (constructor; [lia|]). constructor.
  - destruct (Z.eqb_spec (zlen str) 32) as [E|_]; [|by eexists]. apply Hhex. rewrite E. repeat (constructor; [lia|]). constructor.
Qed.
Lemma parse_duration_total str : is_Some (bebop_util_parse_duration str).
Proof.
  destruct str as [|c str]; cbn [bebop_util_parse_duration]; [by eexists|]. case_match; [by eexists|].
  match goal with |- context [duration_loop (length ?q) ?q 0 false] => destruct (duration_loop_total (length q) q 0 false ltac:(done)) as (r&->) end.
  cbn [mbind option_bind]. repeat case_match; by eexists.
Qed.

Section Parts.
Context {cc : Context} {Hcc : ContextOk} {Hg : ContextGrants}.
Context {dm : DefMap def_ptr} {Hdm : DefMapOk} {Hdefs : Inserts dm}.
Context {ns : DefMap (option bebop_span_t)} {Hns : DefMapOk} {Hnames : Inserts ns}.
Context {lc : Libc} (grants : nat → bool) (env : env_t) (tokens : list bebop_token_t) (source : list Z) (trivia : list bebop_trivia_t).
Context (schema : schema_ptr) (c0 : ctx) {Hsk : scanned tokens source trivia c0} (undefined : Prop).
Abbreviation M := (C bebop_parser_t).
Abbreviation tok := (tok_at tokens).
Abbreviation kind := (kind_at tokens).
Abbreviation pctx p := (rg_ctx (pr_registry p)).
Abbreviation defs p := (rg_defs (pr_registry p)).
Abbreviation meets := (ParseSteps.meets undefined).
Abbreviation ok := (ParseSteps.ok grants tokens schema c0).
Abbreviation goes := (ParseSteps.goes grants tokens schema c0).
Abbreviation erred := (ParseSteps.erred grants tokens schema c0).
Abbreviation here := (ParseSteps.here grants tokens schema c0).
Abbreviation text := (ParseTypeSpec.text tokens (ctx_str c0)).
Context {Hminus : MinusDefined tokens c0 undefined}.
#[local] Instance ends_here : stream_ends tokens := sk_ends _ _ _ _ Hsk.

(** ** Storage *)

Lemma w_array_push elem count a (Q : option array_t → _ → Prop) p : ok p → (∀ o p', here p p' → pr_panic p' = pr_panic p → Q o p') → meets (array_push elem count a) Q p.
Proof.
  intros Hp HQ. unfold array_push. assert (Hh : here p p) by by apply here_refl. destruct (_ <=? _); [|by apply meets_ret, HQ].
  destruct (_ <? _); [by apply meets_ret, HQ|]. cbv zeta. destruct (_ <? _); [by apply meets_ret, HQ|].
  apply meets_bind. rule w_realloc; [done|]. intros o p1 H1 E1. by apply meets_ret, HQ.
Qed.

Definition buffer_ok (b : buffer_t) : Prop := 1 ≤ bf_cap b ≤ SIZE_MAX.
Definition grown (need : Z) (o : option buffer_t) : Prop :=
  match o with Some b => buffer_ok b ∧ zlen (bf_text b) + need < bf_cap b | None => True end.
Lemma w_grow_buffer fuel : ∀ need b (Q : option buffer_t → _ → Prop) p, ok p → buffer_ok b → (fuel ≤ 65)%nat → 2 ^ (65 - Z.of_nat fuel) ≤ bf_cap b →
  (∀ o p', here p p' → grown need o → Q o p') → meets (grow_buffer fuel need b) Q p.
Proof.
  induction fuel as [|fuel IH]; intros need b Q p Hp Hb Hf Hcap HQ; unfold buffer_ok in Hb; cbn [grow_buffer].
  { exfalso. change SIZE_MAX with (2 ^ 64 - 1) in Hb. change (2 ^ (65 - Z.of_nat 0)) with (2 ^ 65) in Hcap. lia. }
  destruct (Z.leb_spec (bf_cap b) (zlen (bf_text b) + need)).
  - destruct (Z.ltb_spec (SIZE_MAX / 2) (bf_cap b)) as [|Hmax]; [by apply meets_ret, HQ; [apply here_refl|]|]. cbv zeta.
    change (SIZE_MAX / 2) with (2 ^ 63 - 1) in Hmax. change SIZE_MAX with (2 ^ 64 - 1) in *.
    apply meets_bind. rule w_realloc; [done|]. intros [a|] p1 H1 _; [|by apply meets_ret, HQ].
    apply IH; [by eapply here_ok|unfold buffer_ok; cbn [bf_cap]; change SIZE_MAX with (2 ^ 64 - 1); lia|lia| |].
    + cbn [bf_cap]. replace (65 - Z.of_nat fuel) with (65 - Z.of_nat (S fuel) + 1) by lia. rewrite Z.pow_add_r by lia. lia.
    + intros o p2 H2 Ho. apply HQ; [by eapply here_trans|done].
  - apply meets_ret, HQ; [by apply here_refl|]. by split.
Qed.
Lemma w_put_text text b (Q : option buffer_t → _ → Prop) p : ok p → buffer_ok b →
  (∀ o p', here p p' → match o with Some b => buffer_ok b | None => True end → Q o p') → meets (put_text text b) Q p.
Proof.
  intros Hp Hb HQ. unfold put_text, NEED_SPACE. apply meets_bind.
  assert (H : ∀ o p', here p p' → grown (zlen text) o →
    meets (match o with None => mret None | Some b => b ← lift (append_text text b); mret (Some b) end) Q p').
  { intros [b'|] p' Hh Hg'; [|by apply meets_ret, HQ]. destruct Hg' as (Hb'&Hlt). unfold append_text. destruct (Z.leb_spec (zlen (bf_text b') + zlen text) (bf_cap b')); [|lia].
    apply meets_bind, meets_lift; [by eexists|]. intros ? [= <-]. by apply meets_ret, HQ. }
  destruct (_ <? _); [apply meets_ret, (H None); [by apply here_refl|done]|]. apply w_grow_buffer; [done..| |exact H].
  change (2 ^ (65 - Z.of_nat 65)) with 1. apply Hb.
Qed.

(** ** Environment variables *)

Lemma split_reference_length text : ∀ var rest, split_reference text = Some (var, rest) → (length rest < length text)%nat.
Proof.
  induction text as [|c text IH]; intros var rest E; [done|]. cbn [split_reference] in E.
  destruct (decide (c = 41)) as [->|Hc]; [injection E as <- <-; cbn; lia|].
  assert (E' : ('(var, rest) ← split_reference text; Some (c :: var, rest)) = Some (var, rest)).
  { rewrite <- E. repeat (case_match; try done; try congruence). }
  destruct (split_reference text) as [[v r]|]; [|done]. cbn in E'. injection E' as <- <-. specialize (IH _ _ eq_refl). cbn. lia.
Qed.
Lemma w_substitute_loop fuel : ∀ str b had (Q : option buffer_t * bool → _ → Prop) p, ok p → 0 < pr_current p → buffer_ok b → (length str < fuel)%nat →
  (∀ r p', here p p' → Q r p') → meets (substitute_loop grants env tokens fuel str b had) Q p.
Proof.
  induction fuel as [|fuel IH]; intros str b had Q p Hp Hc Hb Hf HQ; [lia|].
  assert (Hput : ∀ text rest had' p1, here p p1 → (length rest < fuel)%nat →
    meets (b ← put_text text b; match b with Some b => substitute_loop grants env tokens fuel rest b had' | None => mret (None, had) end) Q p1).
  { intros text rest had' p1 H1 Hl. apply meets_bind. apply w_put_text; [by eapply here_ok|done|]. intros [b'|] p2 H2 Hb'; [|by apply meets_ret, HQ; eapply here_trans].
    apply IH; [by eapply here_ok|destruct H1 as (_&?&_), H2 as (_&?&_); lia|done|done|]. intros r p3 H3. apply HQ. eapply here_trans; [exact H1|]. by eapply here_trans. }
  cbn [substitute_loop]. destruct str as [|c str]; [by apply meets_ret, HQ, here_refl|]. cbn [length] in Hf.
  assert (Hplain : meets (b ← put_text [c] b; match b with Some b => substitute_loop grants env tokens fuel str b had | None => mret (None, had) end) Q p)
    by (apply Hput; [by apply here_refl|lia]).
  repeat (case_match; try exact Hplain); subst; cbn [length] in Hf.
  all: try match goal with E : split_reference _ = Some _ |- _ => apply split_reference_length in E end.
  all: try (apply Hput; [by apply here_refl|lia]).
  all: apply meets_bind; (eapply w_error; [done..|]); intros p1 H1%here_erred.
  all: try (apply meets_ret; by apply HQ).
  apply Hput; [done|lia].
Qed.
Lemma w_substitute src (Q : Z * bool → _ → Prop) p : ok p → 0 < pr_current p → (∀ r p', here p p' → Q r p') → meets (bebop__parse_substitute_env_vars grants env tokens src) Q p.
Proof.
  intros Hp Hc HQ. unfold bebop__parse_substitute_env_vars. apply meets_bind, w_text_of. intros text _.
  assert (Hh : here p p) by by apply here_refl.
  destruct (negb _); [by apply meets_ret, HQ|]. destruct (Z.ltb_spec (SIZE_MAX - BEBOP_MAX_ENV_VAR_NAME) (zlen text)) as [|Hlen]; [by apply meets_ret, HQ|]. cbv zeta.
  apply meets_bind; rule (w_alloc _ _ _ _ _ _ _ 0); [done|lia|]. intros a p1 H1 _. pose proof (zlen_nonneg text). apply meets_bind.
  apply w_substitute_loop; [by eapply here_ok|destruct H1 as (_&?&_); lia| |lia|].
  { change SIZE_MAX with (2 ^ 64 - 1) in *. unfold buffer_ok, BEBOP_MAX_ENV_VAR_NAME in *. cbn [bf_cap]. change SIZE_MAX with (2 ^ 64 - 1). lia. }
  intros [[b|] []] p2 H2; try (by apply meets_ret, HQ; eapply here_trans).
  apply meets_bind. rule w_intern; [by eapply here_ok|]. intros s p3 H3 _. apply meets_ret, HQ.
  eapply here_trans; [exact H1|]. by eapply here_trans.
Qed.

(** ** Literals *)

(** A part of a literal: it reads no tokens, and without a result there is a report. *)
Definition reads {A} (c : M (option A)) (p : bebop_parser_t) : Prop :=
  ∀ Q : option A → bebop_parser_t → Prop, (∀ v p', here p p' → (v = None → pr_panic p' = true) → Q v p') → meets c Q p.
Lemma reads_some {A} (a : A) p : ok p → reads (mret (Some a)) p.
Proof. intros Hp Q HQ. by apply meets_ret, HQ; [apply here_refl|]. Qed.
Lemma reads_error {A} code p : ok p → 0 < pr_current p → reads (BEBOP_PARSE_ERROR grants tokens code;; mret (@None A)) p.
Proof. intros Hp Hc Q HQ. apply meets_bind. rule w_error; [done..|]. intros p1 H1. apply meets_ret, HQ; [by apply here_erred|intros _; apply H1]. Qed.
#[local] Hint Resolve reads_some reads_error : reads.

Lemma number_reads str type p : ok p → 0 < pr_current p → (bebop_util_parse_int str = None → undefined) → reads (bebop__parse_number grants tokens str type) p.
Proof.
  intros Hp Hc Hu. unfold bebop__parse_number. cbv zeta. destruct (if _ || _ then _ else _); [by apply reads_some|]. intros Q HQ. apply meets_bind. unfold lift.
  destruct (bebop_util_parse_int str) as [ival|]; [|by apply Hu].
  assert (H : reads (match ival with
      | Some ival => mret (Some (LitInt ival))
      | None => match bebop_util_parse_float str with Some fval => mret (Some (LitFloat fval)) | None => BEBOP_PARSE_ERROR grants tokens BEBOP_DIAG_INVALID_NUMBER;; mret None end
      end) p) by (repeat case_match; auto with reads).
  exact (H Q HQ).
Qed.
Lemma bytes_reads str p : ok p → 0 < pr_current p → reads (bytes_literal grants tokens str) p.
Proof.
  intros Hp Hc Q HQ. unfold bytes_literal. apply meets_bind; rule (w_alloc _ _ _ _ _ _ _ 0); [done|lia|]. intros a p1 H1 _. by apply meets_ret, HQ.
Qed.
Lemma string_reads type s p : ok p → 0 < pr_current p → reads (string_literal grants tokens type s) p.
Proof.
  intros Hp Hc Q HQ. unfold string_literal. apply meets_bind, w_text_of. intros str _.
  destruct type; try (by apply reads_some); try (by apply bytes_reads).
  - apply meets_bind, meets_lift; [apply parse_uuid_total|]. intros [uuid|] _; [by apply reads_some|by apply reads_error].
  - destruct (bebop_util_parse_timestamp str) as [[[? ?] ?]|]; [by apply reads_some|by apply reads_error].
  - apply meets_bind, meets_lift; [apply parse_duration_total|]. intros [[? ?]|] _; [by apply reads_some|by apply reads_error].
Qed.

(** The text of a number. *)
Lemma number_text p : ok p → kind (pr_current p) = BEBOP_TOKEN_NUMBER →
  ctx_str (pctx p) (tk_lexeme (tok (pr_current p))) = Some (text (pr_current p)) ∧ bebop_util_parse_int (text (pr_current p)) ≠ None.
Proof.
  intros Hp Hk. destruct (sk_texts _ _ _ _ Hsk (pr_current p)) as (H1&H2); [by apply (ok_inside grants tokens schema c0)|].
  split; [|by apply H2]. apply (ok_str grants tokens source trivia schema c0); [done|]. apply H1. by right.
Qed.
Lemma w_negative minus type (Q : option bebop_literal_t → _ → Prop) p : ok p → 0 < pr_current p → kind (pr_current p - 1) = BEBOP_TOKEN_MINUS →
  (∀ v p', goes p p' → (v = None → pr_panic p' = true) → Q v p') → meets (negative_literal grants tokens minus type) Q p.
Proof.
  intros Hp Hc Hm HQ. unfold negative_literal. apply meets_bind. rule w_current; [done|]. apply meets_bind, w_str_get. cbv zeta.
  assert (Herr : meets (BEBOP_PARSE_ERROR_CURRENT grants tokens BEBOP_DIAG_INVALID_LITERAL;; mret None) Q p).
  { apply meets_bind. rule w_error_current; [done|]. intros p1 (H1&_&H2). by apply meets_ret, HQ. }
  change (tk_kind (tok (pr_current p))) with (kind (pr_current p)). destruct (kind (pr_current p)) eqn:Ek; try exact Herr.
  - destruct (bebop_streqni _ _); [|exact Herr]. msteps; try lia; try congruence.
    apply HQ; [by eapply goes_trans|done].
  - destruct (number_text p Hp Ek) as (Et&Hn). rewrite Et. pose proof (ok_range _ _ _ _ _ Hp).
    apply meets_bind. rule w_advance; [done|congruence|]. intros H1. learn H1. destruct (_ <? _).
    + apply meets_bind. rule w_error; [done|cbn; lia|]. intros p1 (H2&_&H3). apply meets_ret, HQ; [by eapply goes_trans|done].
    + cbv zeta. msteps. apply meets_bind, number_reads; [done|lia|by apply (minus_defined (pr_current p)); [lia|..]|]. intros v p2 H3 Hv. apply meets_ret, HQ.
      * destruct H3 as (H3&_). chain.
      * unfold literal_of. by destruct v; [|auto].
Qed.

(** A part that moves on, or reports. *)
Definition moves_if (b : bool) (p p' : bebop_parser_t) : Prop := goes p p' ∧ (if b then pr_current p < pr_current p' else pr_panic p' = true).
Definition is_some {A} (o : option A) : bool := match o with Some _ => true | None => false end.
Lemma here_goes p p' : here p p' → goes p p'.
Proof. by intros (?&_). Qed.
Lemma erred_moves p p1 p2 : goes p p1 → erred p1 p2 → moves_if false p p2.
Proof. intros H1 (H2&_&?). split; [by eapply goes_trans|done]. Qed.
Lemma next_moves p p' : goes p (next p) → goes (next p) p' → moves_if true p p'.
Proof. intros H1 H2. split; [by eapply goes_trans|]. learn H2. lia. Qed.

Lemma w_literal type (Q : option bebop_literal_t → _ → Prop) p : ok p → (∀ v p', moves_if (is_some v) p p' → Q v p') → meets (bebop__parse_literal grants env tokens type) Q p.
Proof.
  intros Hp HQ. pose proof (ok_range _ _ _ _ _ Hp) as Hin. unfold bebop__parse_literal. apply meets_bind. rule w_current; [done|]. cbv zeta.
  assert (Herr : meets (BEBOP_PARSE_ERROR_CURRENT grants tokens BEBOP_DIAG_INVALID_LITERAL;; mret None) Q p).
  { apply meets_bind. rule w_error_current; [done|]. intros p1 H1. apply meets_ret, HQ. eapply erred_moves; [by apply goes_refl|done]. }
  change (tk_kind (tok (pr_current p))) with (kind (pr_current p)).
  assert (Hvalue : ∀ c span env_var raw p1, reads c p1 → goes p (next p) → goes (next p) p1 → meets (value ← c; mret (literal_of span env_var raw value)) Q p1).
  { intros c span env_var raw p1 Hc H1 H2. apply meets_bind, Hc. intros v p2 H3 Hv. apply meets_ret, HQ.
    assert (H4 : goes (next p) p2) by (eapply goes_trans; [exact H2|by apply here_goes]). pose proof (next_moves _ _ H1 H4) as (H5&H6).
    destruct v; [by split|]. split; [done|exact (Hv eq_refl)]. }
  destruct (kind (pr_current p)) eqn:Ek; try exact Herr.
  - msteps. apply HQ, next_moves; [done|by apply goes_refl].
  - msteps. apply HQ, next_moves; [done|by apply goes_refl].
  - apply meets_bind, w_text_of. intros lex _. destruct (_ || _); [|exact Herr]. apply meets_bind. mrule. case_match.
    + apply meets_ret, HQ, next_moves; [done|by apply goes_refl].
    + apply meets_bind. rule w_error_current; [done|]. intros p1 H1. by apply meets_ret, HQ; eapply erred_moves.
  - msteps. apply meets_bind. apply w_substitute; [done|cbn; lia|]. intros [s had] p1 H1. learn H1. apply Hvalue; [by apply string_reads; [|lia]|done..].
  - msteps. apply Hvalue; [by apply bytes_reads; [|cbn; lia]|done|by apply goes_refl].
  - msteps. destruct (number_text p Hp Ek) as (Et&Hn). change (pctx (next p)) with (pctx p). rewrite Et.
    apply Hvalue; [apply number_reads; [done|cbn; lia|done]|done|by apply goes_refl].
  - msteps. apply w_negative; [done|cbn; lia|cbn; by replace (pr_current p + 1 - 1) with (pr_current p) by lia|].
    intros v p1 H1 Hv. apply HQ. pose proof (next_moves _ _ H H1) as (H2&H3). destruct v; [by split|]. split; [done|exact (Hv eq_refl)].
Qed.

(** ** Decorators *)

(** Enough fuel for a loop that consumes a token in each turn. *)
Definition enough (fuel : nat) (p : bebop_parser_t) : Prop := zlen tokens - pr_current p < Z.of_nat fuel.
Lemma enough_all p : ok p → enough (parse_fuel tokens) p.
Proof. intros Hp. pose proof (ok_range _ _ _ _ _ Hp). unfold enough, parse_fuel, zlen in *. lia. Qed.
Lemma not_enough p : ok p → ¬ enough 0 p.
Proof. intros Hp. pose proof (ok_range _ _ _ _ _ Hp). unfold enough. lia. Qed.
Lemma enough_less fuel p p' : enough (S fuel) p → pr_current p < pr_current p' → enough fuel p'.
Proof. unfold enough. lia. Qed.
Hint Extern 2 (ParseSteps.goes _ _ _ _ _ _) => chain : goes.

Lemma w_advance_any (Q : unit → _ → Prop) p : ok p → (∀ p', goes p p' → Q tt p') → meets (BEBOP_PARSE_ADVANCE tokens) Q p.
Proof.
  intros Hp HQ. destruct (decide (kind (pr_current p) = BEBOP_TOKEN_EOF)) as [Ek|Hk].
  - eapply meets_eq; [|by apply HQ, goes_refl]. rewrite (advance_eq tokens) by by apply (ok_inside grants tokens schema c0). by case_bool_decide.
  - rule w_advance; [done..|]. intros H. by apply HQ.
Qed.

Lemma w_argument_name (Q : option (Z * bebop_span_t) → _ → Prop) p : ok p → (∀ o p', goes p p' → Q o p') → meets (argument_name tokens) Q p.
Proof.
  intros Hp HQ. unfold argument_name. msteps; cbn [andb]; [|by apply meets_ret, HQ, goes_refl]. case_match; [|by apply meets_ret, HQ, goes_refl].
  pose proof (ok_range _ _ _ _ _ Hp). msteps. apply meets_bind, w_advance_any; [done|]. intros p1 Hend. apply meets_ret, HQ. chain.
Qed.
Lemma w_args_loop fuel : ∀ args a (Q : list bebop_decorator_arg_t → _ → Prop) p, ok p → enough fuel p →
  (∀ l p', goes p p' → Q l p') → meets (args_loop grants env tokens fuel args a) Q p.
Proof.
  induction fuel as [|fuel IH]; intros args a Q p Hp Hf HQ; cbn [args_loop]; [by apply not_enough in Hf|].
  msteps; cbn [orb]; try (by apply meets_ret, HQ, goes_refl).
  assert (Hrest : ∀ p1, goes p p1 → meets (name ← argument_name tokens; value ← bebop__parse_literal grants env tokens BEBOP_TYPE_STRING;
    match value with
    | None => mret args
    | Some value =>
        a ← array_push sizeof_decorator_arg (zlen args) a;
        match a with None => mret args | Some a => args_loop grants env tokens fuel (args ++ [make_argument name value]) a end
    end) Q p1).
  { intros p1 H1. learn H1. apply meets_bind, w_argument_name; [done|]. intros name p2 H2. learn H2.
    apply meets_bind, w_literal; [done|]. intros [value|] p3 (H3&Hm); learn H3; [|apply meets_ret, HQ; chain].
    apply meets_bind, w_array_push; [done|]. intros [a'|] p4 H4 _; learn H4; [|apply meets_ret, HQ; chain].
    cbn in Hm. apply IH; [done|eapply enough_less; [done|lia]|]. intros l p5 H5. apply HQ. chain. }
  apply meets_bind. destruct (_ <? _).
  - mrule; cbn [negb]; [by apply Hrest|]. apply meets_ret, HQ. chain.
  - apply meets_ret. cbn [negb]. by apply Hrest, goes_refl.
Qed.
Lemma w_skip_decorator fuel : ∀ (Q : unit → _ → Prop) p, ok p → enough fuel p → (∀ p', goes p p' → Q tt p') → meets (skip_decorator tokens fuel) Q p.
Proof.
  induction fuel as [|fuel IH]; intros Q p Hp Hf HQ; cbn [skip_decorator]; [by apply not_enough in Hf|].
  msteps; cbn [orb]; [by apply meets_ret, HQ, goes_refl|]. case_match; [by apply meets_ret, HQ, goes_refl|].
  msteps. apply IH; [done|eapply enough_less; [done|cbn; lia]|]. intros p1 Hend. apply HQ. chain.
Qed.
Lemma w_qualified_loop fuel : ∀ name last (Q : option (list Z * bebop_span_t) → _ → Prop) p, ok p → enough fuel p → 0 < pr_current p →
  (∀ o p', goes p p' → Q o p') → meets (qualified_loop grants tokens fuel name last) Q p.
Proof.
  induction fuel as [|fuel IH]; intros name last Q p Hp Hf Hc HQ; cbn [qualified_loop]; [by apply not_enough in Hf|].
  msteps; try (apply HQ; chain).
  destruct (_ <=? _).
  - msteps. apply HQ. chain.
  - apply IH; [done|eapply enough_less; [done|pos]|pos|]. intros o p1 Hend. apply HQ. chain.
Qed.
Lemma w_decorator_name name (Q : option Z → _ → Prop) p : ok p → 0 < pr_current p → (∀ o p', goes p p' → Q o p') → meets (decorator_name grants tokens name) Q p.
Proof.
  intros Hp Hc HQ. unfold decorator_name. msteps; [|apply HQ; chain]. case_match.
  - msteps. apply HQ. chain.
  - apply meets_bind, w_qualified_loop; [done|by apply enough_all|done|]. intros [[buf ?]|] p1 G1; learn G1; msteps; apply HQ; chain.
Qed.
Lemma w_decorator_arguments (Q : option (list bebop_decorator_arg_t) → _ → Prop) p : ok p → (∀ o p', goes p p' → Q o p') → meets (decorator_arguments grants env tokens) Q p.
Proof.
  intros Hp HQ. pose proof (ok_range _ _ _ _ _ Hp). unfold decorator_arguments. msteps; [|apply HQ; chain].
  apply meets_bind. unfold bebop__parse_decorator_args. apply w_args_loop; [done|by apply enough_all|]. intros args p1 G1; learn G1.
  msteps; apply HQ; chain.
Qed.
Lemma w_decorators_loop fuel : ∀ ds (Q : list bebop_decorator_t → _ → Prop) p, ok p → enough fuel p →
  (∀ l p', goes p p' → Q l p') → meets (decorators_loop grants env tokens fuel ds) Q p.
Proof.
  induction fuel as [|fuel IH]; intros ds Q p Hp Hf HQ; cbn [decorators_loop]; [by apply not_enough in Hf|].
  pose proof (ok_range _ _ _ _ _ Hp). msteps; [| |apply HQ; chain].
  - apply meets_bind, w_decorator_name; [done|pos|]. intros [name|] p1 G1; learn G1; [|msteps; apply HQ; chain].
    apply meets_bind, w_decorator_arguments; [done|]. intros [args|] p2 G2; learn G2; msteps; [|apply HQ; chain].
    apply IH; [done|eapply enough_less; [done|lia]|]. intros l p3 G3. apply HQ. chain.
  - apply meets_bind, w_skip_decorator; [done|by apply enough_all|]. intros p1 G1; learn G1.
    apply IH; [done|eapply enough_less; [done|lia]|]. intros l p3 G3. apply HQ. chain.
Qed.
Lemma w_decorators (Q : list bebop_decorator_t → _ → Prop) p : ok p → (∀ l p', goes p p' → Q l p') → meets (bebop__parse_decorators grants env tokens) Q p.
Proof. intros Hp. apply w_decorators_loop; [done|by apply enough_all]. Qed.
End Parts.

(** A loop that has run out of fuel had too little, and the fuel for all tokens is enough. *)
Ltac no_fuel := exfalso; eapply not_enough; eassumption.
Ltac all_fuel := eapply enough_all; eassumption.
