(* ===== verification/ParseDefRules.v ===== *)
(** Rules of the parser's parts around definitions: their places in the store, the checks of
    the analyser, spans, where a nested definition starts. *)
From stdpp Require Import list gmap strings.
From S2P Require Import Prelude.
From S2P Require Import Scanner.
From S2P Require Import ScannerSpec.
From S2P Require Import Schema.
From S2P Require Import Literals.
From S2P Require Import Calendar.
From S2P Require Import FloatText.
From S2P Require Import Diagnostics.
From S2P Require Import Sema.
From S2P Require Import SemaProps.
From S2P Require Import Registry.
From S2P Require Import RegistryProps.
From S2P Require Import Parser.
From S2P Require Import ParserProps.
From S2P Require Import ParseType.
From S2P Require Import ParseTypeSpec.
From S2P Require Import ParseExpr.
From S2P Require Import ParseExprProps.
From S2P Require Import ParseLiteral.
From S2P Require Import ParseMember.
From S2P Require Import ParseMacro.
From S2P Require Import ParseFile.
From S2P Require Import ParseSteps.
From S2P Require Import ParseRules.
From S2P Require Import ParsePartProps.

Section DefRules.
Context {cc : Context} {Hcc : ContextOk} {Hg : ContextGrants}.
Context {dm : DefMap def_ptr} {Hdm : DefMapOk} {Hdefs : Inserts dm}.
Context {ns : DefMap (option bebop_span_t)} {Hns : DefMapOk} {Hnames : Inserts ns}.
Context {lc : Libc} (grants : nat → bool) (env : env_t) (tokens : list bebop_token_t) (source : list Z) (trivia : list bebop_trivia_t).
Context (schema : schema_ptr) (c0 : ctx) {Hsk : scanned tokens source trivia c0} (undefined : Prop).
Abbreviation M := (C bebop_parser_t).
Abbreviation tok := (tok_at tokens).
Abbreviation kind := (kind_at tokens).
Abbreviation pctx p := (rg_ctx (pr_registry p)).
Abbreviation defs p := (rg_defs (pr_registry p)).
Abbreviation meets := (ParseSteps.meets undefined).
Abbreviation ok := (ParseSteps.ok grants tokens schema c0).
Abbreviation goes := (ParseSteps.goes grants tokens schema c0).
Abbreviation erred := (ParseSteps.erred grants tokens schema c0).
Abbreviation here := (ParseSteps.here grants tokens schema c0).
Abbreviation text := (ParseTypeSpec.text tokens (ctx_str c0)).
Context {Hminus : MinusDefined tokens c0 undefined}.
#[local] Instance ends_here : stream_ends tokens := sk_ends _ _ _ _ Hsk.

Abbreviation enough := (ParsePartProps.enough tokens).

(** A part that moves on, or fails. *)
Definition moved (p p' : bebop_parser_t) : Prop := goes p p' ∧ (pr_current p < pr_current p' ∨ pr_panic p' = true).
Lemma moved_goes p p1 p2 : goes p p1 → pr_current p < pr_current p1 → goes p1 p2 → moved p p2.
Proof. intros H1 Hlt H2. split; [by eapply goes_trans|]. left. learn H2. lia. Qed.
Lemma moved_erred p p1 p2 : goes p p1 → erred p1 p2 → moved p p2.
Proof. intros H1 (H2&_&?). split; [by eapply goes_trans|by right]. Qed.

(** A part that stays at its token. *)
Definition still {A} (c : M A) (p : bebop_parser_t) : Prop := ∀ Q : A → bebop_parser_t → Prop, (∀ a p', here p p' → Q a p') → meets c Q p.
Lemma still_ret {A} (a : A) p : ok p → still (mret a) p.
Proof. intros Hp Q HQ. by apply meets_ret, HQ, here_refl. Qed.
Lemma still_error_at span code p : ok p → still (bebop__parse_error_at grants span code) p.
Proof. intros Hp Q HQ. eapply w_error_at; [done|]. intros p1 H1. by apply HQ, here_erred. Qed.

(** ** Definitions in their places *)

Definition placed (p : bebop_parser_t) (q : def_ptr) (k : bebop_def_kind_t) (parent : option def_ptr) : Prop :=
  ∃ d, defs p !! q = Some d ∧ df_schema d = Some schema ∧ df_parent d = parent ∧ def_kind d = k.
Lemma placed_goes p p' q k parent : goes p p' → placed p q k parent → placed p' q k parent.
Proof. intros [_ _ _ Hd] (d&E&H1&H2&H3). destruct (Hd q d E) as (d'&E'&[]). exists d'. split_and!; congruence. Qed.
Lemma w_deref_placed q k parent (Q : _ → _ → Prop) p : placed p q k parent →
  (∀ d, defs p !! q = Some d → df_schema d = Some schema → df_parent d = parent → def_kind d = k → Q d p) → meets (on_registry (deref q)) Q p.
Proof. intros (d&E&H1&H2&H3) HQ. by eapply w_deref; [done|apply HQ]. Qed.

(** A check of the analyser. *)
Lemma w_checks {A} (c : C bebop_sema_t A) (Q : A → _ → Prop) p : ok p →
  (∀ b, sema_ok b (pr_sema p) → ∃ a s', c (pr_sema p) = Some (a, s') ∧ (∃ b', sema_ok b' s') ∧ kept (se_schema (pr_sema p)) (se_schema s')) →
  (∀ a p', here p p' → Q a p') → meets (on_sema c) Q p.
Proof.
  intros Hp Hc HQ. apply (w_here grants tokens schema c0); [done| |done]. intros Q' H'. destruct (ok_parser _ _ _ _ _ Hp) as [_ (b&Hb) _].
  destruct (Hc b Hb) as (a&s'&E&Hs'&Hk). eapply (on_sema_computes grants tokens); [apply Hp|exact E|exact Hs'|exact Hk|]. intros; by apply H'.
Qed.
Lemma w_answers {A} (c : C bebop_sema_t A) (next : body → body) (P : body → Prop) (Q : A → _ → Prop) p : ok p →
  (∀ b, sema_ok b (pr_sema p) → answers grants c (next b) (P b) (pr_sema p)) → (∀ a p', here p p' → Q a p') → meets (on_sema c) Q p.
Proof. intros Hp Hc. apply w_checks; [done|]. intros b Hb. destruct (Hc b Hb) as (a&s'&E&Hs'&Hk&_). exists a, s'. by split_and!; [|exists (next b)|]. Qed.
Lemma inserts_scope : ∀ m k (v : option bebop_span_t), bebop_defmap_cfind m k = None → is_Some (bebop_defmap_insert m k v).
Proof. intros m k v _. apply Hnames. Qed.
Lemma w_check_name name span (Q : bool → _ → Prop) p : ok p → (∀ a p', here p p' → Q a p') → meets (on_sema (bebop_sema_check_duplicate_name grants name span)) Q p.
Proof. intros Hp. eapply w_answers; [done|]. intros b Hb. by apply (name_answers grants (λ _, None) inserts_scope). Qed.
Lemma w_check_index index span (Q : bool → _ → Prop) p : ok p → 0 ≤ index → (∀ a p', here p p' → Q a p') → meets (on_sema (bebop_sema_check_field_index grants index span)) Q p.
Proof. intros Hp Hi. eapply w_answers; [done|]. intros b Hb. by apply (index_answers grants (λ _, None) inserts_scope). Qed.
Lemma w_check_self t span (Q : bool → _ → Prop) p : ok p → (∀ a p', here p p' → Q a p') → meets (on_sema (bebop_sema_check_self_reference grants t span)) Q p.
Proof. intros Hp. apply (w_answers _ (λ b, b) (λ b, allowed (λ _, None) b (CheckSelf t span))); [done|]. intros b Hb. by apply self_answers. Qed.
Lemma w_check_service t span (Q : bool → _ → Prop) p : ok p → (∀ a p', here p p' → Q a p') → meets (on_sema (bebop_sema_check_service_type grants t span)) Q p.
Proof. intros Hp. apply (w_answers _ (λ b, b) (λ _, ∃ name p, t = TDefined name p)); [done|]. intros b Hb. by apply service_type_answers. Qed.
Lemma w_check_complete span members (Q : bool → _ → Prop) p : ok p → (∀ a p', here p p' → Q a p') → meets (on_sema (bebop_sema_check_enum_complete grants span members)) Q p.
Proof. intros Hp. apply (w_answers _ (λ b, b) (λ _, members = [] ∨ 0 ∈ map em_value members)); [done|]. intros b Hb. by apply complete_answers. Qed.
Lemma w_switch def (Q : unit → _ → Prop) p : ok p → (∀ p', here p p' → Q tt p') → meets (on_sema (modify (switch_def def))) Q p.
Proof. intros Hp HQ. apply (w_answers _ (λ _, mkBody def [] []) (λ _, True)); [done| |intros []; exact HQ]. intros b Hb. by eapply enter_answers. Qed.

(** ** Spans *)

Lemma span_inside i j : 0 ≤ i ≤ j → j < zlen tokens →
  let s := bebop__parse_span_from_tokens (Some (tk_span (tok i))) (Some (tk_span (tok j))) in is_Some (load_bytes source (off s) (len s)).
Proof.
  intros Hi Hj. pose proof (sk_spans _ _ _ _ Hsk i ltac:(lia)) as (H1&H2&H3). pose proof (sk_spans _ _ _ _ Hsk j ltac:(lia)) as (G1&G2&G3).
  pose proof (sk_order _ _ _ _ Hsk i j Hi Hj) as Ho. pose proof (sk_source _ _ _ _ Hsk). cbv zeta. unfold bebop__parse_span_from_tokens.
  rewrite u32_small by lia. destruct (Z.ltb_spec (off (tk_span (tok j)) + len (tk_span (tok j))) (off (tk_span (tok j)))); [lia|].
  destruct (Z.leb_spec (off (tk_span (tok i))) (off (tk_span (tok j)) + len (tk_span (tok j)))); [|lia]. cbn [off len].
  rewrite load_bytes_in by lia. by eexists.
Qed.
Lemma w_part_span decorators first (Q : bebop_span_t → _ → Prop) p : ok p → 0 < pr_current p → (∀ s, Q s p) → meets (part_span tokens decorators first) Q p.
Proof. intros Hp Hc HQ. unfold part_span. msteps. apply HQ. Qed.

(** ** Nested definitions *)

Lemma w_decorated_loop fuel : ∀ depth after_at (Q : bool → _ → Prop) p, ok p → enough fuel p →
  (∀ b i, pr_current p ≤ i < zlen tokens → Q b (set_current i p)) → meets (decorated_loop tokens fuel depth after_at) Q p.
Proof.
  induction fuel as [|fuel IH]; intros depth after_at Q p Hp Hf HQ; cbn [decorated_loop]; [no_fuel|].
  pose proof (ok_range _ _ _ _ _ Hp) as Hr0.
  assert (Hstop : ∀ b, Q b p) by (intros b; replace p with (set_current (pr_current p) p) by (by destruct p); apply HQ; lia).
  msteps; [by apply Hstop|]. cbv zeta.
  assert (Hrec : ∀ d a, meets (BEBOP_PARSE_ADVANCE tokens;; decorated_loop tokens fuel d a) Q p).
  { intros d a. msteps. apply IH; [done|eapply enough_less; [done|pos]|]. intros b i Hi. cbn in Hi. apply (HQ b i). lia. }
  repeat (case_match; try apply Hrec; try apply meets_ret, Hstop).
Qed.
Lemma w_nested_start (Q : bool → _ → Prop) p : ok p → (∀ b, (b = true → kind (pr_current p) ≠ BEBOP_TOKEN_EOF) → Q b p) → meets (bebop__parse_is_nested_def_start tokens) Q p.
Proof.
  intros Hp HQ. pose proof (ok_range _ _ _ _ _ Hp) as Hr. unfold bebop__parse_is_nested_def_start. msteps. cbv zeta.
  change (tk_kind (tok (pr_current p))) with (kind (pr_current p)).
  assert (Hk : kind (pr_current p) ≠ BEBOP_TOKEN_EOF → ∀ b, Q b p) by (intros; by apply HQ).
  destruct (decide (kind (pr_current p) = BEBOP_TOKEN_EOF)) as [->|Hne]; [exact (HQ false ltac:(done))|]. pose proof (Hk Hne) as Hyes.
  case_match; [by apply meets_ret, Hyes|]. case_bool_decide.
  { msteps. destruct (Z.ltb_spec (u32 (pr_current p + 1)) (zlen tokens)); [|by apply meets_ret, Hyes].
    apply meets_bind. eapply meets_eq; [apply token_at_inside; pose proof (u32_nonneg (pr_current p + 1)); lia|]. by apply meets_ret, Hyes. }
  case_bool_decide; [by apply meets_ret, Hyes|]. case_bool_decide; [|by apply meets_ret, Hyes].
  msteps. apply meets_bind, w_decorated_loop; [done|all_fuel|]. intros b i Hi. apply meets_bind, meets_modify, meets_ret.
  replace (set_current (pr_current p) (set_current i p)) with p by by destruct p. by apply Hyes.
Qed.

(** ** Names of definitions *)

Lemma w_def_name (Q : option bebop_token_t → _ → Prop) p : ok p →
  (bebop__token_is_ident_or_keyword (kind (pr_current p)) = true → goes p (next p) → Q (Some (tok (pr_current p))) (next p)) → (∀ p', erred p p' → Q None p') →
  meets (bebop__parse_def_name grants tokens) Q p.
Proof.
  intros Hp Hs Hn. pose proof (ok_range _ _ _ _ _ Hp). unfold bebop__parse_def_name. apply meets_bind. rule w_consume; [done|done| |].
  - intros E H1. learn H1. msteps. apply Hs; [by rewrite E|done].
  - intros p1 H1. by apply meets_ret, Hn.
Qed.
Lemma w_check_duplicate q k parent (Q : unit → _ → Prop) p : ok p → placed p q k parent → (∀ p', here p p' → Q tt p') →
  meets (bebop__parse_check_duplicate_def grants schema q) Q p.
Proof.
  intros Hp Hq HQ. assert (Hh : here p p) by by apply here_refl. unfold bebop__parse_check_duplicate_def. apply meets_bind. eapply w_deref_placed; [done|]. intros d _ _ _ _.
  case_match; [by apply meets_ret, HQ|]. apply meets_bind; eapply w_schema_at; [done|]. intros sc Esc.
  destruct (bebop__schema_find_def sc (df_name d)) as [existing|] eqn:Ef; [|by apply meets_ret, HQ].
  unfold bebop__schema_find_def in Ef. case_match; [done|]. destruct (so_table _ _ _ _ (ro_schemas _ (ok_registry _ _ _ _ _ Hp) _ _ Esc) _ _ Ef) as (_&e&Ee&_).
  apply meets_bind. eapply w_deref; [exact Ee|]. apply meets_bind. rule w_error_at; [done|]. intros p1 H1%here_erred.
  eapply w_label; [by eapply here_ok|]. intros p2 H2. apply HQ. by eapply here_trans.
Qed.

(** An array of parts. *)
Lemma w_push_part {A} size (parts : parts_t A) (make : M A) (Q : parts_t A → _ → Prop) p : ok p →
  (∀ Q' p', here p p' → (∀ a p'', here p' p'' → Q' a p'') → meets make Q' p') →
  (∀ p', here p p' → Q parts p') → (∀ a ar p', here p p' → Q (mkParts (pa_items parts ++ [a]) ar) p') → meets (push_part size parts make) Q p.
Proof.
  intros Hp Hmake Hno Hyes. unfold push_part. apply meets_bind. eapply w_array_push; [done|]. intros [ar|] p1 H1 _; [|by apply meets_ret, Hno].
  apply meets_bind, Hmake; [done|]. intros a p2 H2. apply meets_ret, Hyes. by eapply here_trans.
Qed.
End DefRules.

(** ** Automation *)

Ltac brule :=
  lazymatch goal with
  | |- ParseSteps.meets _ (bebop__check_reserved_name _ _ _) _ _ => rule w_reserved; [eassumption|pos|kinds|let q := fresh "q" in let H := fresh "H" in intros q H; learn H]
  | |- ParseSteps.meets _ (on_sema (bebop_sema_check_duplicate_name _ _ _)) _ _ => rule w_check_name; [eassumption|let q := fresh "q" in let H := fresh "H" in intros ? q H; learn H]
  | |- ParseSteps.meets _ (on_sema (bebop_sema_check_field_index _ _ _)) _ _ => rule w_check_index; [eassumption|lia|let q := fresh "q" in let H := fresh "H" in intros ? q H; learn H]
  | |- ParseSteps.meets _ (on_sema (bebop_sema_check_self_reference _ _ _)) _ _ => rule w_check_self; [eassumption|let q := fresh "q" in let H := fresh "H" in intros ? q H; learn H]
  | |- ParseSteps.meets _ (on_sema (bebop_sema_check_service_type _ _ _)) _ _ => rule w_check_service; [eassumption|let q := fresh "q" in let H := fresh "H" in intros ? q H; learn H]
  | |- ParseSteps.meets _ (on_sema (bebop_sema_check_enum_complete _ _ _)) _ _ => rule w_check_complete; [eassumption|let q := fresh "q" in let H := fresh "H" in intros ? q H; learn H]
  | |- ParseSteps.meets _ (on_sema (bebop_sema_enter_def _ _)) _ _ => rule w_switch; [eassumption|let q := fresh "q" in let H := fresh "H" in intros q H; learn H]
  | |- ParseSteps.meets _ (on_sema bebop_sema_exit_def) _ _ => rule w_switch; [eassumption|let q := fresh "q" in let H := fresh "H" in intros q H; learn H]
  | |- ParseSteps.meets _ (bebop__parse_extract_doc _ _ _) _ _ =>
      rule w_extract_doc; [eassumption|eapply sk_leading; [eassumption|pos]|let q := fresh "q" in let H := fresh "H" in intros ? q H; learn H]
  | |- ParseSteps.meets _ (bebop__parse_decorators _ _ _) _ _ => rule w_decorators; [eassumption|let q := fresh "q" in let H := fresh "H" in intros ? q H; learn H]
  | |- ParseSteps.meets _ (bebop__parse_literal _ _ _ _) _ _ =>
      rule w_literal; [eassumption|let q := fresh "q" in let H := fresh "H" in let Hm := fresh "Hm" in intros [?|] q (H&Hm); cbn [is_some] in Hm; learn H]
  | |- ParseSteps.meets _ (part_span _ _ _) _ _ => rule w_part_span; [eassumption|pos|intros ?]
  | |- ParseSteps.meets _ (_ ≫= _) _ _ => apply meets_bind; brule
  end; cbv beta.
(** Steps of both kinds. *)
Ltac bsteps := repeat (progress (first [mrule | brule | progress cbn [negb]])).
(** The end of a part that moves on, or fails. *)
Ltac moves := split; [chain|first [left; pos | right; solve [done | auto]]].
