(* ===== verification/ParseBodyProps.v ===== *)
(** What the parsers of members, fields, methods and macros do when memory does not run out:
    each of them returns, and either it has consumed a token or the parser is in panic mode. *)
From stdpp Require Import list gmap strings.
From S2P Require Import Prelude.
From S2P Require Import Scanner.
From S2P Require Import ScannerSpec.
From S2P Require Import Schema.
From S2P Require Import Literals.
From S2P Require Import Calendar.
From S2P Require Import FloatText.
From S2P Require Import Diagnostics.
From S2P Require Import Sema.
From S2P Require Import SemaProps.
From S2P Require Import Registry.
From S2P Require Import RegistryProps.
From S2P Require Import Parser.
From S2P Require Import ParserProps.
From S2P Require Import ParseType.
From S2P Require Import ParseTypeSpec.
From S2P Require Import ParseExpr.
From S2P Require Import ParseExprProps.
From S2P Require Import ParseLiteral.
From S2P Require Import ParseMember.
From S2P Require Import ParseMacro.
From S2P Require Import ParseFile.
From S2P Require Import ParseSteps.
From S2P Require Import ParseRules.
From S2P Require Import ParsePartProps.
From S2P Require Import ParseDefRules.

Section Bodies.
Context {cc : Context} {Hcc : ContextOk} {Hg : ContextGrants}.
Context {dm : DefMap def_ptr} {Hdm : DefMapOk} {Hdefs : Inserts dm}.
Context {ns : DefMap (option bebop_span_t)} {Hns : DefMapOk} {Hnames : Inserts ns}.
Context {lc : Libc} (grants : nat → bool) (env : env_t) (tokens : list bebop_token_t) (source : list Z) (trivia : list bebop_trivia_t).
Context (schema : schema_ptr) (c0 : ctx) {Hsk : scanned tokens source trivia c0} (undefined : Prop).
Abbreviation M := (C bebop_parser_t).
Abbreviation tok := (tok_at tokens).
Abbreviation kind := (kind_at tokens).
Abbreviation pctx p := (rg_ctx (pr_registry p)).
Abbreviation defs p := (rg_defs (pr_registry p)).
Abbreviation meets := (ParseSteps.meets undefined).
Abbreviation ok := (ParseSteps.ok grants tokens schema c0).
Abbreviation goes := (ParseSteps.goes grants tokens schema c0).
Abbreviation erred := (ParseSteps.erred grants tokens schema c0).
Abbreviation here := (ParseSteps.here grants tokens schema c0).
Abbreviation text := (ParseTypeSpec.text tokens (ctx_str c0)).
Context {Hminus : MinusDefined tokens c0 undefined}.
Context {Hexpr : ExpressionsDefined grants tokens schema c0 undefined}.
#[local] Instance ends_here : stream_ends tokens := sk_ends _ _ _ _ Hsk.

Abbreviation enough := (ParsePartProps.enough tokens).

Abbreviation moved := (ParseDefRules.moved grants tokens schema c0).
Abbreviation still := (ParseDefRules.still grants tokens schema c0 undefined).
Abbreviation placed := (ParseDefRules.placed schema).

(** ** Members of enums *)

Lemma w_member_value members (Q : Z * bebop_span_t → _ → Prop) p : ok p → 0 < pr_current p → kind (pr_current p - 1) = BEBOP_TOKEN_EQUALS →
  (∀ v s p', goes p p' → is_Some (load_bytes source (off s) (len s)) → Q (v, s) p') → meets (member_value grants tokens members) Q p.
Proof.
  intros Hp Hc Hk HQ. pose proof (ok_range _ _ _ _ _ Hp). unfold member_value. msteps. apply meets_bind. rule w_parse_expression; [done| |].
  { intros E. by eapply (expressions_defined members p). }
  intros v p1 H1. learn H1. msteps. apply HQ; [done|]. destruct (Z.ltb_spec (pr_current p1 - 1) (pr_current p)).
  - destruct (sk_spans _ _ _ _ Hsk (pr_current p) ltac:(lia)) as (?&?&?). rewrite load_bytes_in by lia. by eexists.
  - rule span_inside; lia.
Qed.
Lemma w_make_member name decorators doc value span (Q : bebop_enum_member_t → _ → Prop) p : ok p → 0 < pr_current p →
  is_Some (load_bytes source (off span) (len span)) → (∀ a p', here p p' → Q a p') → meets (make_member tokens source name decorators doc value span) Q p.
Proof.
  intros Hp Hc Hs HQ. unfold make_member. apply meets_bind. eapply w_part_span; [done..|]. intros s. apply meets_bind, meets_lift; [done|]. intros t _.
  apply meets_bind. rule w_intern; [done|]. intros e p1 H1 _. by apply meets_ret, HQ.
Qed.
Lemma w_set_members q parent members (Q : unit → _ → Prop) p : ok p → placed p q BEBOP_DEF_ENUM parent →
  (∀ p' base, here p p' → (∃ d, defs p' !! q = Some d ∧ df_body d = EnumDef base members) → Q tt p') → meets (set_members q members) Q p.
Proof.
  intros Hp Hq HQ. unfold set_members. apply meets_bind. eapply w_deref_placed; [done|]. intros d Ed _ _ Hk.
  unfold def_kind in Hk. destruct (df_body d) as [| base ms| | | | | |] eqn:Eb; try done.
  eapply w_put_def; [done|done|apply same_place_body; unfold def_kind; by rewrite Eb|]. intros p1 H1 E1. eapply HQ; [done|]. by eexists.
Qed.
Lemma w_check_member base decorators members idx (Q : bool → _ → Prop) p : ok p → (idx < length members)%nat → (∀ a p', here p p' → Q a p') →
  meets (sema (λ strings, bebop_sema_check_enum_member grants strings base decorators members idx)) Q p.
Proof.
  intros Hp Hi HQ. change (meets (on_sema (bebop_sema_check_enum_member grants (ctx_str (pctx p)) base decorators members idx)) Q p). eapply w_checks; [done| |done]. intros b Hb. destruct (lookup_lt_is_Some_2 members idx Hi) as (m&Em).
  unfold bebop_sema_check_enum_member. rewrite (C_lift_bind _ _ _ _ Em).
  assert (Hans : ∀ c P, answers grants c b P (pr_sema p) → ∃ a s', c (pr_sema p) = Some (a : bool, s') ∧ (∃ b', sema_ok b' s') ∧ kept (se_schema (pr_sema p)) (se_schema s')).
  { intros c P (a&s'&E&Hs'&Hk&_). exists a, s'. by split_and!; [|exists b|]. }
  assert (Hpass : ∀ v : bool, ∃ a s', (mret v : C bebop_sema_t bool) (pr_sema p) = Some (a, s') ∧ (∃ b', sema_ok b' s') ∧ kept (se_schema (pr_sema p)) (se_schema s')).
  { intros v. exists v, (pr_sema p). by split_and!; [|exists b|]. }
  case_match; [eapply (Hans _ False), error_answers; [done|tauto]|]. case_match; [apply Hpass| |].
  - case_match; [|apply Hpass].
    destruct (labelled_correct grants BEBOP_DIAG_DUPLICATE_ENUM_VALUE (em_span m) (Some (em_span b0)) false (pr_sema p) (so_diagnostics _ _ Hb)) as (d&E&Hd&Hk&_).
    eexists _, _. split; [exact E|]. split; [exists b; by apply sema_ok_schema|done].
  - eexists _, _. split; [reflexivity|]. split; [|done]. exists b. destruct Hb. by split.
Qed.

Lemma w_enum_member q parent parts (Q : parts_t bebop_enum_member_t → _ → Prop) p : ok p → placed p q BEBOP_DEF_ENUM parent →
  (∀ a p', moved p p' → Q a p') → meets (bebop__parse_enum_member_inline grants env tokens source trivia q parts) Q p.
Proof.
  intros Hp Hq HQ. pose proof (ok_range _ _ _ _ _ Hp). unfold bebop__parse_enum_member_inline.
  bsteps; try (apply HQ; moves). apply meets_bind. rule w_member_value; [done|pos|by replace (pr_current (next q3) - 1) with (pr_current q3) by (rewrite next_current; lia)|].
  intros v s p1 G1 Hs. learn G1. bsteps; [|apply HQ; moves]. apply meets_bind. eapply w_push_part; [done| | |].
  - intros Q' p2 G2 HQ'. learn G2. rule w_make_member; [done|pos|done|done].
  - intros p2 G2. learn G2. rewrite Nat.eqb_refl. apply meets_ret, HQ. moves.
  - intros m ar p2 G2. learn G2. cbn [pa_items]. destruct (Nat.eqb_spec (length (pa_items parts ++ [m])) (length (pa_items parts))) as [E2|_]; [rewrite length_app in E2; cbn in E2; lia|].
    apply meets_bind. eapply w_set_members; [done|eapply placed_goes; [|exact Hq]; chain|]. intros p3 base G3 (d&Ed&Eb). learn G3.
    apply meets_bind. eapply w_deref; [exact Ed|]. rewrite Eb. apply meets_bind. rule w_check_member; [done|rewrite length_app; cbn; lia|].
    intros b p4 G4. learn G4. apply meets_ret, HQ. moves.
Qed.

(** ** Fields *)

(** The number that was just passed. *)
Lemma passed_number p p' t : ok p → ok p' → kind (pr_current p) = BEBOP_TOKEN_NUMBER →
  t = default [] (ctx_str (pctx p') (tk_lexeme (tok (pr_current p)))) → is_Some (bebop_util_parse_int t).
Proof.
  intros Hp Hp' Hk ->. pose proof (ok_range _ _ _ _ _ Hp). destruct (sk_texts _ _ _ _ Hsk (pr_current p)) as (H1&H2); [done|].
  rewrite (ok_str grants tokens source trivia schema c0 p' _ _ Hp' (H1 (or_intror Hk))). cbn. specialize (H2 Hk). by destruct (bebop_util_parse_int _); [eexists|].
Qed.
Lemma w_field_index (Q : option Z → _ → Prop) p : ok p → 0 < pr_current p → (∀ o p', moved p p' → Q o p') → meets (field_index grants tokens) Q p.
Proof.
  intros Hp Hc HQ. unfold field_index. bsteps; try (apply HQ; moves).
  apply meets_bind, meets_lift; [by eapply (passed_number (next p))|]. intros [v|] _; [|bsteps; apply HQ; moves].
  destruct (_ || _) eqn:Ev; [bsteps; apply HQ; moves|]. apply orb_false_iff in Ev as (?%Z.ltb_ge&_). bsteps; apply HQ; moves.
Qed.
Lemma w_field_rest parent fields ds name index is_message (Q : parts_t bebop_field_t → _ → Prop) p i : ok p → 0 ≤ i < pr_current p → name = tok i →
  bebop__token_is_ident_or_keyword (kind i) = true → (∀ o p', moved p p' → Q o p') →
  meets (field_rest grants tokens source trivia parent fields ds name index is_message) Q p.
Proof.
  intros Hp Hi -> Hk HQ. pose proof (ok_range _ _ _ _ _ Hp) as Hr0. unfold field_rest. bsteps; try (apply HQ; moves).
  assert (Hself : still (if negb is_message && bool_decide (def_kind parent = BEBOP_DEF_STRUCT)
    then on_sema (bebop_sema_check_self_reference grants (pt_type t) (pt_span t));; mret tt else mret tt) q).
  { case_match; [|by apply still_ret]. intros Q' HQ'. bsteps. apply HQ'. split_and!; [chain|lia|done]. }
  apply meets_bind, Hself. intros [] p1 G1. learn G1.
  apply meets_bind. match goal with |- ParseSteps.meets _ ?c _ _ => assert (Hname : still c p1) by (destruct (bebop_str_eq _ _); [by apply still_error_at|by apply still_ret]) end.
  apply Hname. intros [] p2 G2. learn G2. bsteps.
  - rule w_push_part; [done|intros Q' p3 G3 HQ'; learn G3; bsteps; apply HQ'; by apply here_refl|intros p3 G3; learn G3; apply HQ; moves|intros a1 ar p3 G3; learn G3; apply HQ; moves].
  - apply HQ. moves.
Qed.
Lemma w_field q k parent fields is_message (Q : parts_t bebop_field_t → _ → Prop) p : ok p → placed p q k parent →
  (∀ o p', moved p p' → Q o p') → meets (bebop__parse_field_inline grants env tokens source trivia q fields is_message) Q p.
Proof.
  intros Hp Hq HQ. pose proof (ok_range _ _ _ _ _ Hp). unfold bebop__parse_field_inline. bsteps; [|apply HQ; moves].
  assert (Hrest : ∀ index p1, goes p p1 → pr_current q0 < pr_current p1 →
    meets (match index with None => mret fields | Some index => d ← on_registry (deref q); field_rest grants tokens source trivia d fields l (tok (pr_current q0)) index is_message end) Q p1).
  { intros [index|] p1 G1 Hlt; learn G1; [|apply meets_ret, HQ; moves]. apply meets_bind. eapply w_deref_placed; [eapply placed_goes; [|exact Hq]; done|]. intros d _ _ _ _.
    eapply w_field_rest; [done| |reflexivity|done|]; [lia|]. intros o p2 (G2&G3). learn G2. apply HQ. moves. }
  apply meets_bind. destruct is_message.
  - apply w_field_index; [done|pos|]. intros o p1 (G1&G2). learn G1. apply Hrest; [chain|lia].
  - apply meets_ret, (Hrest (Some 0)); [chain|pos].
Qed.

(** ** Methods *)

Lemma w_method_part (Q : option (bool * parsed_type) → _ → Prop) p : ok p → (∀ o p', moved p p' → Q o p') → meets (method_part grants tokens) Q p.
Proof.
  intros Hp HQ. pose proof (ok_range _ _ _ _ _ Hp). unfold method_part. bsteps; apply HQ; moves.
Qed.
Lemma method_id_still service name p : ok p → still (method_id_of grants service name) p.
Proof.
  intros Hp Q HQ. unfold method_id_of. msteps. cbv zeta. case_match; [by apply meets_ret, HQ, here_refl|]. msteps. apply HQ. split_and!; [chain|lia|done].
Qed.
Lemma w_method q k parent methods (Q : parts_t bebop_method_t → _ → Prop) p : ok p → placed p q k parent →
  (∀ o p', moved p p' → Q o p') → meets (bebop__parse_method_inline grants env tokens source trivia q methods) Q p.
Proof.
  intros Hp Hq HQ. pose proof (ok_range _ _ _ _ _ Hp). unfold bebop__parse_method_inline. bsteps; try (apply HQ; moves).
  apply meets_bind. rule w_method_part; [done|]. intros [[rs rt]|] p1 (G1&M1); learn G1; [|apply meets_ret, HQ; moves].
  bsteps; try (apply HQ; moves).
  apply meets_bind. rule w_method_part; [done|]. intros [[rs' rt']|] p2 (G2&M2); learn G2; [|apply meets_ret, HQ; moves].
  bsteps; try (apply HQ; moves).
  apply meets_bind. eapply w_deref_placed; [eapply placed_goes; [|exact Hq]; chain|]. intros d _ _ _ _.
  apply meets_bind, method_id_still; [done|]. intros id p3 G3. learn G3. case_match; [bsteps; apply HQ; moves|].
  rule w_push_part; [done|intros Q' p4 G4 HQ'; learn G4; bsteps; apply HQ'; by apply here_refl|intros p4 G4; learn G4; apply HQ; moves|intros a1' ar p4 G4; learn G4; apply HQ; moves].
Qed.
End Bodies.
