(* ===== verification/ParseMacroProps.v ===== *)
(** What the parser of a definition of a decorator does when memory does not run out: it
    returns, and each item of the body takes it on by a token at least. *)
From stdpp Require Import list gmap strings.
From S2P Require Import Prelude.
From S2P Require Import Scanner.
From S2P Require Import ScannerSpec.
From S2P Require Import Schema.
From S2P Require Import Literals.
From S2P Require Import Calendar.
From S2P Require Import FloatText.
From S2P Require Import Diagnostics.
From S2P Require Import Sema.
From S2P Require Import SemaProps.
From S2P Require Import Registry.
From S2P Require Import RegistryProps.
From S2P Require Import Parser.
From S2P Require Import ParserProps.
From S2P Require Import ParseType.
From S2P Require Import ParseTypeSpec.
From S2P Require Import ParseExpr.
From S2P Require Import ParseExprProps.
From S2P Require Import ParseLiteral.
From S2P Require Import ParseMember.
From S2P Require Import ParseMacro.
From S2P Require Import ParseFile.
From S2P Require Import ParseSteps.
From S2P Require Import ParseRules.
From S2P Require Import ParsePartProps.
From S2P Require Import ParseDefRules.

Section Macros.
Context {cc : Context} {Hcc : ContextOk} {Hg : ContextGrants}.
Context {dm : DefMap def_ptr} {Hdm : DefMapOk} {Hdefs : Inserts dm}.
Context {ns : DefMap (option bebop_span_t)} {Hns : DefMapOk} {Hnames : Inserts ns}.
Context {lc : Libc} (grants : nat → bool) (env : env_t) (tokens : list bebop_token_t) (source : list Z) (trivia : list bebop_trivia_t).
Context (schema : schema_ptr) (c0 : ctx) {Hsk : scanned tokens source trivia c0} (undefined : Prop).
Abbreviation M := (C bebop_parser_t).
Abbreviation tok := (tok_at tokens).
Abbreviation kind := (kind_at tokens).
Abbreviation pctx p := (rg_ctx (pr_registry p)).
Abbreviation defs p := (rg_defs (pr_registry p)).
Abbreviation meets := (ParseSteps.meets undefined).
Abbreviation ok := (ParseSteps.ok grants tokens schema c0).
Abbreviation goes := (ParseSteps.goes grants tokens schema c0).
Abbreviation erred := (ParseSteps.erred grants tokens schema c0).
Abbreviation here := (ParseSteps.here grants tokens schema c0).
Abbreviation text := (ParseTypeSpec.text tokens (ctx_str c0)).
Context {Hminus : MinusDefined tokens c0 undefined}.
#[local] Instance ends_here : stream_ends tokens := sk_ends _ _ _ _ Hsk.

Abbreviation enough := (ParsePartProps.enough tokens).

Abbreviation moved := (ParseDefRules.moved grants tokens schema c0).
Abbreviation still := (ParseDefRules.still grants tokens schema c0 undefined).
Abbreviation placed := (ParseDefRules.placed schema).

(** ** Taking up again in a body *)

Lemma cleared_goes p : ok p → goes p (cleared p).
Proof. intros Hp. apply goes_le; [done|apply cleared_le|apply Hp]. Qed.

(** The search stops at a token that may start an item. *)
Definition item_at (i : Z) : Prop := kind i = BEBOP_TOKEN_IDENTIFIER ∧ text i ∈ bebop__decorator_body_items.
Definition skipped (p : bebop_parser_t) : Prop :=
  kind (pr_current p) ≠ BEBOP_TOKEN_EOF ∧ kind (pr_current p) ≠ BEBOP_TOKEN_RBRACE ∧ ¬ item_at (pr_current p).
Lemma name_text p : ok p → kind (pr_current p) = BEBOP_TOKEN_IDENTIFIER → ctx_str (pctx p) (tk_lexeme (tok (pr_current p))) = Some (text (pr_current p)).
Proof.
  intros Hp Hk. destruct (sk_texts _ _ _ _ Hsk (pr_current p)) as (H1&_); [by eapply ok_range|].
  apply (ok_str grants tokens source trivia schema c0); [done|]. apply H1. by left.
Qed.

Lemma w_decorator_sync_loop fuel : ∀ depth (Q : unit → _ → Prop) p, ok p → enough fuel p →
  (∀ p', goes p p' → (skipped p → pr_current p < pr_current p') → Q tt p') → meets (decorator_sync_loop tokens fuel depth) Q p.
Proof.
  induction fuel as [|fuel IH]; intros depth Q p Hp Hf HQ; cbn [decorator_sync_loop]; [no_fuel|].
  pose proof (ok_range _ _ _ _ _ Hp). msteps. cbv zeta. change (tk_kind (tok (pr_current p))) with (kind (pr_current p)).
  assert (Hstay : ¬ skipped p → Q tt p) by (intros Hn; apply HQ; [by apply goes_refl|done]).
  case_bool_decide as He; [apply meets_ret, Hstay; by intros (?&_)|].
  destruct (bool_decide (kind (pr_current p) = BEBOP_TOKEN_RBRACE) && _) eqn:Eb.
  { apply andb_true_iff in Eb as (Eb%bool_decide_eq_true&_). apply meets_ret, Hstay. by intros (_&?&_). }
  assert (Hrest : ∀ d p1, goes p p1 → pr_current p < pr_current p1 → meets (decorator_sync_loop tokens fuel d) Q p1).
  { intros d p1 G1 Hlt. learn G1. apply IH; [done|by eapply enough_less|]. intros p2 G2 _. learn G2. apply HQ; [chain|lia]. }
  set (d := if bool_decide (kind (pr_current p) = BEBOP_TOKEN_RBRACE) then _ else _). clearbody d. clear Eb. case_bool_decide.
  - msteps; [apply HQ; [chain|pos]|]. apply Hrest; [chain|pos].
  - assert (Hitem : meets (if d =? 0 then bebop__is_decorator_body_item tokens else mret false) (λ b p', p' = p ∧ (b = true → item_at (pr_current p))) p).
    { destruct (d =? 0); [|by apply meets_ret]. unfold bebop__is_decorator_body_item. msteps. case_bool_decide as Ek; cbn [negb]; [|by apply meets_ret].
      msteps. split; [done|]. rewrite name_text by done. intros Hin%bool_decide_eq_true. by split. }
    apply meets_bind. eapply meets_weaken; [exact Hitem|]. intros [] ? (->&Hi); [apply meets_ret, Hstay; intros (_&_&Hn); by apply Hn, Hi|].
    msteps. apply Hrest; [chain|pos].
Qed.
Lemma w_decorator_sync (Q : unit → _ → Prop) p : ok p → (∀ p', goes p p' → (skipped p → pr_current p < pr_current p') → Q tt p') →
  meets (bebop__parse_synchronize_in_decorator tokens) Q p.
Proof.
  intros Hp HQ. unfold bebop__parse_synchronize_in_decorator, clear_panic. apply meets_bind, meets_modify. pose proof (cleared_goes p Hp) as H1. learn H1.
  apply w_decorator_sync_loop; [done|all_fuel|]. intros p1 G1 Hs. apply HQ; [by eapply goes_trans|exact Hs].
Qed.

(** ** Targets *)

Lemma target_still p : ok p → 0 < pr_current p → still (target_here grants tokens) p.
Proof.
  intros Hp Hc Q HQ. unfold target_here. msteps. cbv zeta. case_match; [|by apply meets_ret, HQ, here_refl].
  unfold bebop__suggest_target. msteps. apply HQ. split_and!; [chain|lia|auto].
Qed.
Lemma w_targets_loop fuel : ∀ result (Q : Z → _ → Prop) p, ok p → 0 < pr_current p → enough fuel p → (∀ t p', goes p p' → Q t p') → meets (targets_loop grants tokens fuel result) Q p.
Proof.
  induction fuel as [|fuel IH]; intros result Q p Hp Hc Hf HQ; cbn [targets_loop]; [no_fuel|]. msteps; try (apply HQ; chain).
  apply meets_bind, target_still; [done|pos|]. intros t p1 G1. learn G1. case_match; [apply meets_ret, HQ; chain|].
  apply IH; [done|pos|eapply enough_less; [done|pos]|]. intros t' p2 G2. apply HQ. chain.
Qed.
Lemma w_target_expr (Q : Z → _ → Prop) p : ok p → (∀ t p', goes p p' → Q t p') → meets (bebop__parse_target_expr grants tokens) Q p.
Proof.
  intros Hp HQ. pose proof (ok_range _ _ _ _ _ Hp). unfold bebop__parse_target_expr. msteps; try (apply HQ; chain).
  apply meets_bind, target_still; [done|pos|]. intros t p1 G1. learn G1. case_match; [apply meets_ret, HQ; chain|].
  apply w_targets_loop; [done|pos|all_fuel|]. intros t' p2 G2. apply HQ. chain.
Qed.

(** ** Blocks, parameters *)

Lemma w_lua_block (Q : option (bebop_span_t * Z) → _ → Prop) p : ok p → (∀ o p', goes p p' → Q o p') → meets (bebop__parse_lua_block grants tokens) Q p.
Proof.
  intros Hp HQ. unfold bebop__parse_lua_block. msteps. change (tk_kind (tok (pr_current p))) with (kind (pr_current p)). case_bool_decide as Ek; msteps; [|apply HQ; chain].
  case_match; apply meets_ret, HQ; chain.
Qed.
Lemma w_param_type (Q : option bebop_type_kind_t → _ → Prop) p : ok p → (∀ o p', goes p p' → Q o p') → meets (param_type grants tokens) Q p.
Proof.
  intros Hp HQ. pose proof (ok_range _ _ _ _ _ Hp). unfold param_type. msteps; try (apply HQ; chain). case_bool_decide; [apply meets_ret, HQ; chain|].
  case_match; [apply meets_ret, HQ; chain|]. unfold bebop__suggest_param_type. msteps. apply HQ. chain.
Qed.
Lemma w_param_default type (Q : option (option bebop_literal_t) → _ → Prop) p : ok p → (∀ o p', goes p p' → Q o p') → meets (param_default grants env tokens type) Q p.
Proof. intros Hp HQ. unfold param_default. bsteps; apply HQ; chain. Qed.
Lemma w_values_loop fuel : ∀ type values (Q : option (list bebop_literal_t) → _ → Prop) p, ok p → enough fuel p →
  (∀ o p', goes p p' → Q o p') → meets (values_loop grants env tokens fuel type values) Q p.
Proof.
  induction fuel as [|fuel IH]; intros type values Q p Hp Hf HQ; cbn [values_loop]; [no_fuel|].
  msteps; cbn [orb]; try (by apply meets_ret, HQ, goes_refl).
  apply meets_bind. rule w_array_push; [done|]. intros [a|] p1 G1 _; learn G1; [|apply meets_ret, HQ; chain]. bsteps; try (apply HQ; chain).
  - apply IH; [done|eapply enough_less; [done|lia]|]. intros o p2 G2. apply HQ. chain.
  - apply IH; [done|eapply enough_less; [done|pos]|]. intros o p2 G2. apply HQ. chain.
Qed.
Lemma w_param_values type (Q : option (list bebop_literal_t) → _ → Prop) p : ok p → (∀ o p', goes p p' → Q o p') → meets (param_values grants env tokens type) Q p.
Proof.
  intros Hp HQ. pose proof (ok_range _ _ _ _ _ Hp). unfold param_values. msteps. change (tk_kind (tok (pr_current p))) with (kind (pr_current p)).
  destruct (bool_decide (kind (pr_current p) = _) && _) eqn:Ek; [|apply meets_ret, HQ; chain]. apply andb_true_iff in Ek as (Ek%bool_decide_eq_true&_).
  msteps; [|apply HQ; chain]. apply meets_bind. rule w_values_loop; [done|all_fuel|]. intros [values|] p1 G1; learn G1; msteps; apply HQ; chain.
Qed.
Lemma w_param_modifier (Q : option bool → _ → Prop) p : ok p → (∀ o p', goes p p' → (is_some o = true → pr_current p < pr_current p') → Q o p') → meets (param_modifier grants tokens) Q p.
Proof.
  intros Hp HQ. unfold param_modifier. msteps. change (tk_kind (tok (pr_current p))) with (kind (pr_current p)).
  destruct (kind (pr_current p)) eqn:Ek; msteps; (apply HQ; [chain|try done; pos]).
Qed.
Lemma name_token_not_eof i : bebop__is_name_token (tok i) = true → kind i ≠ BEBOP_TOKEN_EOF.
Proof. unfold bebop__is_name_token. change (tk_kind (tok i)) with (kind i). by destruct (kind i). Qed.
Lemma w_macro_param (Q : option bebop_macro_param_def_t → _ → Prop) p : ok p → 0 < pr_current p → (∀ o p', goes p p' → Q o p') → meets (bebop__parse_macro_param grants env tokens source trivia) Q p.
Proof.
  intros Hp Hc HQ. pose proof (ok_range _ _ _ _ _ Hp). unfold bebop__parse_macro_param. bsteps. destruct (bebop__is_name_token _) eqn:En; [apply name_token_not_eof in En|bsteps; apply HQ; chain].
  bsteps. apply meets_bind. rule w_param_modifier; [done|]. intros [required|] p1 G1 Hlt; learn G1; [|apply meets_ret, HQ; chain]. specialize (Hlt eq_refl).
  bsteps; [|apply HQ; chain]. apply meets_bind. rule w_param_type; [done|]. intros [type|] p2 G2; learn G2; [|apply meets_ret, HQ; chain].
  apply meets_bind. rule w_param_default; [done|]. intros [d|] p3 G3; learn G3; [|apply meets_ret, HQ; chain].
  apply meets_bind. rule w_param_values; [done|]. intros [v|] p4 G4; learn G4; apply meets_ret, HQ; chain.
Qed.

(** ** The body *)

Definition passes {A} (c : M A) (p : bebop_parser_t) : Prop := ∀ Q : A → bebop_parser_t → Prop, (∀ a p', goes p p' → Q a p') → meets c Q p.
Lemma w_item_or_skip item b (Q : macro_body → _ → Prop) p : ok p →
  (∀ a p', goes p p' → (item = None → skipped p → pr_current p < pr_current p') → Q a p') → meets (item_or_skip tokens item b) Q p.
Proof.
  intros Hp HQ. unfold item_or_skip. destruct item as [f|]; [apply meets_ret, HQ; [chain|done]|].
  apply meets_bind. rule w_decorator_sync; [done|]. intros p1 G1 Hs. apply meets_ret, HQ; [chain|auto].
Qed.
Lemma w_behind_equals item (Q : option (macro_body → macro_body) → _ → Prop) p : ok p → 0 < pr_current p →
  (∀ p', ok p' → passes item p') → (∀ o p', goes p p' → Q o p') → meets (behind_equals grants tokens item) Q p.
Proof.
  intros Hp Hc Hitem HQ. unfold behind_equals. msteps; [|apply HQ; chain]. apply Hitem; [done|]. intros o p1 G1. apply HQ. chain.
Qed.
Lemma multiple_passes p : ok p → passes (multiple_item grants tokens) p.
Proof.
  intros Hp Q HQ. unfold multiple_item. msteps. change (tk_kind (tok (pr_current p))) with (kind (pr_current p)).
  destruct (kind (pr_current p)) eqn:Ek; msteps; apply HQ; chain.
Qed.
Lemma w_param_item b (Q : option (macro_body → macro_body) → _ → Prop) p : ok p → 0 < pr_current p → (∀ o p', goes p p' → Q o p') →
  meets (param_item grants env tokens source trivia b) Q p.
Proof.
  intros Hp Hc HQ. unfold param_item. case_match; [msteps; apply HQ; chain|]. apply meets_bind. rule w_macro_param; [done|done|]. intros o p1 G1. by apply meets_ret, HQ.
Qed.

(** An item that is none of those there are. *)
Lemma not_an_item p item : ok p → item = default [] (ctx_str (pctx p) (tk_lexeme (tok (pr_current p)))) → item ≠ chars "targets" → item ≠ chars "multiple" →
  item ≠ chars "param" → item ≠ chars "validate" → item ≠ chars "export" → ¬ item_at (pr_current p).
Proof.
  intros Hp -> H1 H2 H3 H4 H5 (Hk&Hin). rewrite name_text in * by done. cbn in H1, H2, H3, H4, H5. unfold bebop__decorator_body_items in Hin. cbn [map] in Hin. set_solver.
Qed.

Lemma w_body_item b (Q : macro_body → _ → Prop) p : ok p → kind (pr_current p) ≠ BEBOP_TOKEN_EOF → kind (pr_current p) ≠ BEBOP_TOKEN_RBRACE →
  (∀ a p', goes p p' → pr_current p < pr_current p' → Q a p') → meets (body_item grants env tokens source trivia b) Q p.
Proof.
  intros Hp He Hr HQ. pose proof (ok_range _ _ _ _ _ Hp). unfold body_item. msteps.
  assert (Hskip : ∀ p1, goes p p1 → pr_current p1 = pr_current p → ¬ item_at (pr_current p) → meets (item_or_skip tokens None b) Q p1).
  { intros p1 G1 Hc Hi. learn G1. rule w_item_or_skip; [done|]. intros a p2 G3 Hlt. learn G3. apply HQ; [chain|]. rewrite <- Hc. apply Hlt; [done|]. unfold skipped. by rewrite Hc. }
  assert (Hitem : ∀ item p1, goes p p1 → pr_current p < pr_current p1 → meets (item_or_skip tokens item b) Q p1).
  { intros item p1 G1 Hlt. learn G1. rule w_item_or_skip; [done|]. intros a p2 G3 _. learn G3. apply HQ; [chain|lia]. }
  destruct (bebop__is_name_token _) eqn:En; cbn [negb].
  2: { msteps. apply Hskip; [chain|done|]. intros (Hk&_). unfold bebop__is_name_token in En. change (tk_kind (tok (pr_current p))) with (kind (pr_current p)) in En. by rewrite Hk in En. }
  msteps. case_bool_decide.
  { msteps. apply meets_bind. rule w_behind_equals; [done|pos| |intros o p1 G1; learn G1; apply Hitem; [chain|pos]].
    intros p1 Ho1 Q' HQ'. apply meets_bind. rule w_target_expr; [done|]. intros v p2 G2. by apply meets_ret, HQ'. }
  case_bool_decide.
  { msteps. apply meets_bind. rule w_behind_equals; [done|pos| |intros o p1 G1; learn G1; apply Hitem; [chain|pos]]. intros p1 Ho1. by apply multiple_passes. }
  case_bool_decide.
  { msteps. apply meets_bind. rule w_param_item; [done|pos|]. intros o p1 G1. learn G1. apply Hitem; [chain|pos]. }
  case_bool_decide.
  { msteps. apply meets_bind. rule w_lua_block; [done|]. intros o p1 G1. learn G1. apply Hitem; [chain|pos]. }
  case_bool_decide.
  { msteps. apply meets_bind. rule w_lua_block; [done|]. intros o p1 G1. learn G1. apply Hitem; [chain|pos]. }
  unfold bebop__suggest_decorator_item. msteps. apply Hskip; [chain|lia|]. by eapply not_an_item.
Qed.
Lemma w_body_loop fuel : ∀ b (Q : macro_body → _ → Prop) p, ok p → enough fuel p → (∀ a p', goes p p' → Q a p') → meets (body_loop grants env tokens source trivia fuel b) Q p.
Proof.
  induction fuel as [|fuel IH]; intros b Q p Hp Hf HQ; cbn [body_loop]; [no_fuel|]. msteps; cbn [orb]; try (apply meets_ret, HQ; chain).
  apply meets_bind. apply w_body_item; [done..|]. intros a p1 G1 Hlt. learn G1. apply IH; [done|by eapply enough_less|]. intros a' p2 G2. apply HQ. chain.
Qed.

(** ** The definition *)

(** A new definition that is added at once; its owner is then the schema. *)
Definition new_macro (d : bebop_def_t) (params : M (option Z)) : M unit :=
  def ← new_def d;
  match def with
  | None => mret tt
  | Some def => params ← params; match params with None => mret tt | Some _ => add_def schema def end
  end.
Lemma new_def_eq p : ∃ c, ∀ d, new_def d p = Some (Some (length (defs p)), with_registry (set_defs (defs p ++ [d]) (set_ctx c (pr_registry p))) p).
Proof.
  destruct (cg_alloc sizeof_def 1 8 (pctx p)) as (a&Ea). destruct (ctx_alloc_n sizeof_def 1 8 (pctx p)) as [o c] eqn:E. cbn in Ea. subst o.
  exists c. intros d. unfold new_def. erewrite C_bind_Some; [|unfold on_registry, alloc_n; rewrite E; reflexivity]. reflexivity.
Qed.
Lemma params_eq count r p : ∃ x c, ∀ l,
  (if 0 <? count then on_registry (alloc_n sizeof_macro_param count 8) else mret (Some 0)) (with_registry (set_defs l r) p) =
    Some (Some x, with_registry (set_defs l (set_ctx c r)) p).
Proof.
  destruct (0 <? count); [|exists 0, (rg_ctx r); by destruct r].
  destruct (cg_alloc sizeof_macro_param count 8 (rg_ctx r)) as (a&Ea). destruct (ctx_alloc_n sizeof_macro_param count 8 (rg_ctx r)) as [o c] eqn:E. cbn in Ea. subst o.
  exists a, c. intros l. unfold on_registry, alloc_n. cbn. by rewrite E.
Qed.
Lemma owner_same d count p : df_schema d = None →
  let params : M (option Z) := if 0 <? count then on_registry (alloc_n sizeof_macro_param count 8) else mret (Some 0) in
  new_macro d params p = new_macro (set_owner (Some schema) (df_parent d) d) params p.
Proof.
  intros Hn. cbv zeta. set (d' := set_owner _ _ _). unfold new_macro. destruct (new_def_eq p) as (c&Edef). rewrite !(C_bind_Some _ _ _ _ _ (Edef _)).
  destruct (params_eq count (set_ctx c (pr_registry p)) p) as (x&c'&Epar).
  rewrite !(C_bind_Some _ _ _ _ _ (Epar _)). unfold add_def, with_depth, mbind, C_bind, gets, on_registry. cbn. rewrite !length_app. cbn [length].
  rewrite (add_def_owner _ _ _ d); [|cbn; by apply list_lookup_middle|done]. f_equal. f_equal. unfold set_defs. cbn. f_equal.
  rewrite insert_app_r_alt by done. by rewrite Nat.sub_diag.
Qed.

Lemma w_new_macro d count (Q : unit → _ → Prop) p : ok p → df_schema d = None → df_parent d = None → df_nested_defs d = [] →
  (∀ p', here p p' → Q tt p') → meets (new_macro d (if 0 <? count then on_registry (alloc_n sizeof_macro_param count 8) else mret (Some 0))) Q p.
Proof.
  intros Hp Hs Hpar Hnest HQ. unfold ParseSteps.meets. rewrite owner_same by done.
  change (meets (new_macro (set_owner (Some schema) (df_parent d) d) (if 0 <? count then on_registry (alloc_n sizeof_macro_param count 8) else mret (Some 0))) Q p).
  rewrite Hpar. set (d' := set_owner (Some schema) None d). unfold new_macro. apply meets_bind. rule w_new_def; [done|done|done|done|].
  intros q p1 G1 E1. learn G1.
  assert (Hadd : ∀ p2, here p1 p2 → meets (add_def schema q) Q p2).
  { intros p2 G2. pose proof G2 as (G3&_&_). destruct (go_defs _ _ _ _ _ _ G3 q d' E1) as (d2&E2&[H1 H2 _]).
    rule w_add_def; [by eapply here_ok|exact E2|by rewrite H1|by rewrite H2|]. intros p3 G4. apply HQ. eapply here_trans; [|exact G4]. eapply here_trans; [|exact G2]. by split_and!. }
  apply meets_bind. destruct (0 <? count).
  - rule (w_alloc _ _ _ _ _ _ _ 3); [done|lia|]. intros a p2 G2 _. by apply Hadd.
  - apply meets_ret. by apply Hadd, here_refl.
Qed.

Lemma w_macro_body hash_tok name_tok description (Q : unit → _ → Prop) p : ok p → (∀ p', goes p p' → Q tt p') →
  meets (macro_body_and_end grants env tokens source trivia schema hash_tok name_tok description) Q p.
Proof.
  intros Hp HQ. unfold macro_body_and_end. apply meets_bind. rule w_body_loop; [done|all_fuel|]. intros b p1 G1. learn G1.
  pose proof (ok_range _ _ _ _ _ Hp). msteps; [|apply HQ; chain]. destruct (mb_targets b) as [targets|]; [|msteps; apply HQ; chain].
  rule w_new_macro; [done..|]. intros p2 G2. learn G2. apply HQ. chain.
Qed.
Lemma w_synchronize_all (Q : unit → _ → Prop) p : ok p → (∀ p', goes p p' → Q tt p') → meets (bebop__parse_synchronize tokens) Q p.
Proof. intros Hp HQ. rule w_synchronize; [done|]. intros p1 G1 _. by apply HQ. Qed.
Lemma w_macro_head (Q : option bebop_token_t → _ → Prop) p : ok p → (∀ o p', goes p p' → Q o p') → meets (macro_head grants tokens schema) Q p.
Proof.
  intros Hp HQ. pose proof (ok_range _ _ _ _ _ Hp). unfold macro_head. cbv zeta.
  assert (Hstop : ∀ p1, goes p p1 → meets (bebop__parse_synchronize tokens;; mret None) Q p1).
  { intros p1 G1. learn G1. apply meets_bind. rule w_synchronize_all; [done|]. intros p2 G2. apply meets_ret, HQ. chain. }
  msteps. change (tk_kind (tok (pr_current p))) with (kind (pr_current p)). destruct (_ && _) eqn:Ek; cbn [negb]; [|msteps; apply Hstop; chain].
  apply andb_true_iff in Ek as (Ek%bool_decide_eq_true&_). msteps; try (apply Hstop; chain). apply meets_bind. eapply w_schema_at; [done|]. intros sc Esc.
  destruct (bebop__schema_find_def sc _) as [existing|] eqn:Ef.
  - unfold bebop__schema_find_def in Ef. case_match; [done|]. destruct (so_table _ _ _ _ (ro_schemas _ (ok_registry _ _ _ _ _ Ho1) _ _ Esc) _ _ Ef) as (_&e&Ee&_).
    apply meets_bind. eapply w_deref; [exact Ee|]. msteps. apply Hstop; chain.
  - msteps; try (apply Hstop; chain). apply HQ. chain.
Qed.
Lemma w_macro (Q : unit → _ → Prop) p : ok p → kind (pr_current p) ≠ BEBOP_TOKEN_EOF → (∀ p', goes p p' → pr_current p < pr_current p' → Q tt p') →
  meets (bebop__parse_macro_decorator grants env tokens source trivia schema) Q p.
Proof.
  intros Hp Hk HQ. pose proof (ok_range _ _ _ _ _ Hp). unfold bebop__parse_macro_decorator. bsteps. apply meets_bind. rule w_macro_head; [done|].
  intros [name_tok|] p1 G1; learn G1; [|apply meets_ret, HQ; [chain|lia]]. rule w_macro_body; [done|]. intros p2 G2. learn G2. apply HQ; [chain|lia].
Qed.
End Macros.
