(* ===== verification/ParseFileProps.v ===== *)
(** The steps of the parser of files when memory does not run out: each one returns with a
    well-formed stack, and takes the machine nearer to its end. *)
From stdpp Require Import list gmap strings.
From S2P Require Import Prelude.
From S2P Require Import Scanner.
From S2P Require Import ScannerSpec.
From S2P Require Import Schema.
From S2P Require Import Literals.
From S2P Require Import Calendar.
From S2P Require Import FloatText.
From S2P Require Import Diagnostics.
From S2P Require Import Sema.
From S2P Require Import SemaProps.
From S2P Require Import Registry.
From S2P Require Import RegistryProps.
From S2P Require Import Parser.
From S2P Require Import ParserProps.
From S2P Require Import ParseType.
From S2P Require Import ParseTypeSpec.
From S2P Require Import ParseExpr.
From S2P Require Import ParseExprProps.
From S2P Require Import ParseLiteral.
From S2P Require Import ParseMember.
From S2P Require Import ParseMacro.
From S2P Require Import ParseFile.
From S2P Require Import ParseSteps.
From S2P Require Import ParseRules.
From S2P Require Import ParsePartProps.
From S2P Require Import ParseDefRules.
From S2P Require Import ParseBodyProps.
From S2P Require Import ParseMacroProps.


(** ** The stack *)

(** What a body defines. *)
Definition body_kind (s : bebop_parse_state_t) : option bebop_def_kind_t :=
  match s with
  | PARSE_STATE_ENUM_BODY => Some BEBOP_DEF_ENUM
  | PARSE_STATE_STRUCT_BODY => Some BEBOP_DEF_STRUCT
  | PARSE_STATE_MESSAGE_BODY => Some BEBOP_DEF_MESSAGE
  | PARSE_STATE_UNION_BODY | PARSE_STATE_UNION_BRANCH => Some BEBOP_DEF_UNION
  | PARSE_STATE_SERVICE_BODY => Some BEBOP_DEF_SERVICE
  | _ => None
  end.
(** How far a state is from the next token that is consumed. *)
Definition weight (s : bebop_parse_state_t) : Z :=
  match s with
  | PARSE_STATE_ENUM_BODY | PARSE_STATE_STRUCT_BODY | PARSE_STATE_MESSAGE_BODY | PARSE_STATE_UNION_BODY | PARSE_STATE_SERVICE_BODY => 3
  | PARSE_STATE_UNION_BRANCH => 2
  | PARSE_STATE_FILE => 1
  | PARSE_STATE_DEFINITION | PARSE_STATE_IMPORT | PARSE_STATE_EDITION | PARSE_STATE_PACKAGE => -1
  | _ => -2
  end.
Lemma weight_range s : -2 ≤ weight s ≤ 3.
Proof. by destruct s. Qed.
(** The states in which there is a token to be consumed. *)
Definition needs_token (s : bebop_parse_state_t) : bool :=
  match s with
  | PARSE_STATE_FILE | PARSE_STATE_ENUM_BODY | PARSE_STATE_STRUCT_BODY | PARSE_STATE_MESSAGE_BODY | PARSE_STATE_UNION_BODY | PARSE_STATE_SERVICE_BODY => false
  | _ => true
  end.
(** The states that the machine does not take. *)
Definition unused (s : bebop_parse_state_t) : bool :=
  match s with
  | PARSE_STATE_ENUM_MEMBER | PARSE_STATE_STRUCT_FIELD | PARSE_STATE_MESSAGE_FIELD | PARSE_STATE_SERVICE_METHOD => true
  | _ => false
  end.

Section Files.
Context {cc : Context} {Hcc : ContextOk} {Hg : ContextGrants}.
Context {dm : DefMap def_ptr} {Hdm : DefMapOk} {Hdefs : Inserts dm}.
Context {ns : DefMap (option bebop_span_t)} {Hns : DefMapOk} {Hnames : Inserts ns}.
Context {lc : Libc} (grants : nat → bool) (env : env_t) (tokens : list bebop_token_t) (source : list Z) (trivia : list bebop_trivia_t).
Context (schema : schema_ptr) (c0 : ctx) {Hsk : scanned tokens source trivia c0} (undefined : Prop).
Abbreviation M := (C bebop_parser_t).
Abbreviation tok := (tok_at tokens).
Abbreviation kind := (kind_at tokens).
Abbreviation pctx p := (rg_ctx (pr_registry p)).
Abbreviation defs p := (rg_defs (pr_registry p)).
Abbreviation meets := (ParseSteps.meets undefined).
Abbreviation ok := (ParseSteps.ok grants tokens schema c0).
Abbreviation goes := (ParseSteps.goes grants tokens schema c0).
Abbreviation erred := (ParseSteps.erred grants tokens schema c0).
Abbreviation here := (ParseSteps.here grants tokens schema c0).
Abbreviation text := (ParseTypeSpec.text tokens (ctx_str c0)).
Context {Hminus : MinusDefined tokens c0 undefined}.
Context {Hexpr : ExpressionsDefined grants tokens schema c0 undefined}.
#[local] Instance ends_here : stream_ends tokens := sk_ends _ _ _ _ Hsk.

Abbreviation enough := (ParsePartProps.enough tokens).

Abbreviation moved := (ParseDefRules.moved grants tokens schema c0).
Abbreviation still := (ParseDefRules.still grants tokens schema c0 undefined).
Abbreviation placed := (ParseDefRules.placed schema).

Abbreviation passes := (ParseMacroProps.passes grants tokens schema c0 undefined).
Abbreviation stack := (list bebop_parse_frame_t).

(** The definition around a frame is one of the schema; so is that of a body. *)
Definition parent_ok (p : bebop_parser_t) (parent : option def_ptr) : Prop :=
  ∀ q, parent = Some q → ∃ d, defs p !! q = Some d ∧ df_schema d = Some schema.
Definition parent_of (k : bebop_def_kind_t) (f : bebop_parse_frame_t) : option def_ptr :=
  match k with BEBOP_DEF_SERVICE => None | _ => fr_nested_parent f end.
Definition body_ok (p : bebop_parser_t) (f : bebop_parse_frame_t) (k : bebop_def_kind_t) : Prop :=
  0 < pr_current p ∧ ∃ q, fr_def f = Some q ∧ placed p q k (parent_of k f).
Record frame_ok (p : bebop_parser_t) (f : bebop_parse_frame_t) : Prop := {
  fo_parent : parent_ok p (fr_nested_parent f);
  fo_used : unused (fr_state f) = false;
  fo_body : ∀ k, body_kind (fr_state f) = Some k → body_ok p f k;
  fo_token : needs_token (fr_state f) = true → kind (pr_current p) ≠ BEBOP_TOKEN_EOF
}.
(** A definition that is nested has a frame below it. *)
Fixpoint grounded (st : stack) : Prop :=
  match st with [] => True | f :: below => (below = [] → fr_nested_parent f = None) ∧ grounded below end.
(** What is below a frame [f]. *)
Definition below_ok (p : bebop_parser_t) (f : bebop_parse_frame_t) (below : stack) : Prop :=
  Forall (λ f, frame_ok p f ∧ weight (fr_state f) = 3) below ∧ grounded (f :: below).
Definition stack_ok (p : bebop_parser_t) (st : stack) : Prop :=
  match st with [] => True | f :: below => frame_ok p f ∧ below_ok p f below end.

Lemma parent_ok_goes p p' parent : goes p p' → parent_ok p parent → parent_ok p' parent.
Proof. intros [_ _ _ Hd] H q Eq. destruct (H q Eq) as (d&E&Hs). destruct (Hd q d E) as (d'&E'&[]). exists d'. split; [done|congruence]. Qed.
Lemma body_ok_goes p p' f k : goes p p' → body_ok p f k → body_ok p' f k.
Proof. intros H (Hc&q&E&Hq). split; [pose proof (go_current _ _ _ _ _ _ H); lia|]. exists q. split; [done|]. by eapply placed_goes. Qed.
Lemma below_ok_goes p p' f f' below : goes p p' → fr_nested_parent f' = fr_nested_parent f → below_ok p f below → below_ok p' f' below.
Proof.
  intros H Hpar (Hb&Hg1&Hg2). split; [|split; [by rewrite Hpar|done]]. eapply Forall_impl; [exact Hb|]. intros g ([H1 H2 H3 H4]&Hw). split; [|done]. split; [by eapply parent_ok_goes|done| |].
  - intros k Hk. eapply body_ok_goes; [done|by apply H3].
  - by destruct (fr_state g).
Qed.

(** How far the machine is from its end, and what a step has to do. *)
Definition measure (st : stack) (p : bebop_parser_t) : Z :=
  match st with
  | [] => 0
  | f :: below => 8 * (zlen tokens - pr_current p) + weight (fr_state f) + 3 * zlen below
  end.
Lemma measure_positive f below p : ok p → 0 < measure (f :: below) p.
Proof. intros Hp. pose proof (ok_range _ _ _ _ _ Hp). pose proof (weight_range (fr_state f)). pose proof (zlen_nonneg below). unfold measure. lia. Qed.
(** The machine is stopped for good. *)
Definition stopped (p p' : bebop_parser_t) : Prop :=
  parser_ok grants tokens p' ∧ registry_ok (pr_registry p') ∧ pr_current p ≤ pr_current p' ∧ pr_fatal p' = true.
Definition nearer (m : Z) (p : bebop_parser_t) (st : stack) (p' : bebop_parser_t) : Prop :=
  stopped p p' ∨ goes p p' ∧ stack_ok p' st ∧ measure st p' < m ∧ (st = [] → kind (pr_current p') = BEBOP_TOKEN_EOF).

(** A frame in a state that asks for nothing. *)
Lemma file_frame_ok p f : parent_ok p (fr_nested_parent f) → fr_state f = PARSE_STATE_FILE → frame_ok p f.
Proof. intros Hp Hs. split; rewrite ?Hs; done. Qed.
Lemma nearer_next m p p' f f' below : goes p p' → below_ok p f below → fr_nested_parent f' = fr_nested_parent f → frame_ok p' f' →
  8 * (zlen tokens - pr_current p') + weight (fr_state f') + 3 * zlen below < m → nearer m p (f' :: below) p'.
Proof. intros H Hb Hpar Hf Hm. right. split; [done|]. split; [split; [done|by eapply below_ok_goes]|]. by split. Qed.
(** A token further on the state does not matter. *)
Lemma nearer_further p p' f f' below : goes p p' → below_ok p f below → fr_nested_parent f' = fr_nested_parent f → frame_ok p' f' → pr_current p < pr_current p' →
  nearer (measure (f :: below) p) p (f' :: below) p'.
Proof.
  intros H Hb Hpar Hf Hlt. eapply nearer_next; [done..|]. unfold measure. pose proof (weight_range (fr_state f)). pose proof (weight_range (fr_state f')). lia.
Qed.
Lemma nearer_pop p p' f below : goes p p' → below_ok p f below → 0 < weight (fr_state f) → (below = [] → kind (pr_current p') = BEBOP_TOKEN_EOF) →
  nearer (measure (f :: below) p) p below p'.
Proof.
  intros H Hb Hw He. pose proof (measure_positive f below p' (go_ok _ _ _ _ _ _ H)) as Hm. pose proof (go_current _ _ _ _ _ _ H). right. split; [done|]. split_and!; [| |done].
  - destruct (below_ok_goes _ _ _ f _ H eq_refl Hb) as (Hall&_&Hgr). destruct below as [|g below]; [done|]. apply Forall_cons in Hall as ((Hg'&_)&Hall). by split.
  - destruct Hb as (Hall&_). destruct below as [|g below]; [cbn [measure zlen length] in *; lia|]. apply Forall_cons in Hall as ((_&Hgw)&_). cbn [measure]. rewrite Hgw. unfold zlen in *. cbn [length]. lia.
Qed.

(** ** Rules *)

Lemma w_back p0 (Q : unit → _ → Prop) p : moved p0 p → kind (pr_current p0) ≠ BEBOP_TOKEN_EOF → (∀ p', goes p p' → pr_current p0 < pr_current p' → Q tt p') →
  meets (recover tokens) Q p ∧ meets (recover_in_block tokens) Q p.
Proof.
  intros (H&Hm) Hk HQ. learn H.
  assert (Hgo : ∀ p', resumed grants tokens schema c0 p p' → Q tt p').
  { intros p' (G&Hlt). learn G. apply HQ; [done|]. destruct (decide (pr_current p0 < pr_current p)); [lia|]. assert (E : pr_current p = pr_current p0) by lia.
    destruct Hm as [?|Hpa]; [lia|]. rewrite <- E. apply Hlt; [done|by rewrite E]. }
  split; [by eapply w_recover|by eapply w_recover_in_block].
Qed.
Lemma w_preamble s (Q : unit → _ → Prop) p : ok p → (∀ p', here p p' → Q tt p') → meets (modify (set_preamble s)) Q p.
Proof. intros Hp HQ. apply meets_modify, HQ. split_and!; [|done..]. apply goes_le; [done| |apply Hp]. split; try done. intros [Hi Hs (Hf1&Hf2)]. by split. Qed.
Lemma w_raise_preamble s (Q : unit → _ → Prop) p : ok p → (∀ p', here p p' → Q tt p') → meets (raise_preamble s) Q p.
Proof.
  intros Hp HQ. unfold raise_preamble. apply meets_modify. case_match; [by apply (w_preamble s Q p)|]. by apply HQ, here_refl.
Qed.
Lemma not_after_still s code p : ok p → still (not_after grants tokens s code) p.
Proof. intros Hp Q HQ. unfold not_after. msteps. case_match; msteps; apply HQ; split_and!; [chain|lia|auto|chain|lia|auto]. Qed.

Section Step.
Context (f : bebop_parse_frame_t) (below : stack) (p : bebop_parser_t).
Context (Hp : ok p) (Hf : frame_ok p f) (Hbelow : below_ok p f below).
Abbreviation Done := (nearer (measure (f :: below) p) p).

(** Back in the file after an error, when a token was consumed or there is one. *)
Lemma w_back_to_file p1 f' : goes p p1 → (pr_current p < pr_current p1 ∨ pr_panic p1 = true ∧ kind (pr_current p) ≠ BEBOP_TOKEN_EOF) → fr_nested_parent f' = fr_nested_parent f →
  meets (back_to_file tokens f' below) Done p1.
Proof.
  intros H1 Hm Hpar. learn H1. unfold back_to_file. apply meets_bind.
  assert (Hend : ∀ p2, goes p1 p2 → pr_current p < pr_current p2 → meets (mret (in_state PARSE_STATE_FILE f' :: below)) Done p2).
  { intros p2 H2 Hlt. apply meets_ret, nearer_further; [chain|done|done| |done]. apply file_frame_ok; [|done]. cbn. rewrite Hpar. eapply parent_ok_goes; [|apply Hf]. chain. }
  destruct Hm as [Hlt|(Hpa&Hk)].
  - rule w_recover; [done|]. intros p2 H2. learn H2. apply Hend; [chain|lia].
  - apply (w_back p); [split; [done|by right]|done|]. done.
Qed.
(** In another state at the same token. *)
Lemma nearer_state s f' p1 : here p p1 → kind (pr_current p) ≠ BEBOP_TOKEN_EOF → fr_state f' = s → fr_nested_parent f' = fr_nested_parent f →
  weight s < weight (fr_state f) → body_kind s = None → unused s = false → Done (f' :: below) p1.
Proof.
  intros (H1&Hc&_) Hk Hs Hpar Hw Hb Hu. eapply nearer_next; [done..| |].
  - split; rewrite ?Hs; [rewrite Hpar; by eapply parent_ok_goes; [|apply Hf]|done|congruence|by rewrite Hc].
  - rewrite Hs, Hc. unfold measure. lia.
Qed.

Lemma w_step_file : fr_state f = PARSE_STATE_FILE → meets (step_file grants env tokens source trivia schema f below) Done p.
Proof.
  intros Hs. unfold step_file. msteps. change (tk_kind (tok (pr_current p))) with (kind (pr_current p)).
  assert (Hgo : ∀ s p1, here p p1 → kind (pr_current p) ≠ BEBOP_TOKEN_EOF → weight s < 1 → body_kind s = None → unused s = false → meets (mret (in_state s f :: below)) Done p1).
  { intros s p1 H1 Hk Hw Hb Hu. apply meets_ret. eapply nearer_state; try done. by rewrite Hs. }
  assert (Hdef : kind (pr_current p) ≠ BEBOP_TOKEN_EOF → meets (raise_preamble BEBOP_PREAMBLE_DONE;; mret (in_state PARSE_STATE_DEFINITION f :: below)) Done p).
  { intros Hk. apply meets_bind. rule w_raise_preamble; [done|]. intros p1 H1. by apply Hgo. }
  destruct (kind (pr_current p)) eqn:Ek; try by apply Hdef.
  - apply meets_bind. rule w_raise_preamble; [done|]. intros p1 H1. by apply Hgo.
  - apply meets_bind, not_after_still; [done|]. intros [] p1 H1. apply meets_bind, not_after_still; [by eapply here_ok|]. intros [] p2 H2.
    apply Hgo; [by eapply here_trans|done..].
  - apply meets_bind, not_after_still; [done|]. intros [] p1 H1. apply meets_bind, not_after_still; [by eapply here_ok|]. intros [] p2 H2.
    apply Hgo; [by eapply here_trans|done..].
  - apply meets_bind. rule w_raise_preamble; [done|]. intros p1 H1. pose proof H1 as H2. learn H2. apply meets_bind. rule w_macro; [done|by rewrite He, Ek|].
    intros p2 H3 Hlt. learn H3. apply meets_ret, nearer_further; [chain|done|done| |lia]. apply file_frame_ok; [|done]. eapply parent_ok_goes; [|apply Hf]. chain.
  - apply meets_ret, nearer_pop; [by apply goes_refl|done|by rewrite Hs|done].
Qed.

Lemma w_step_import : fr_state f = PARSE_STATE_IMPORT → meets (step_import grants tokens schema f below) Done p.
Proof.
  intros Hs. assert (Hk : kind (pr_current p) ≠ BEBOP_TOKEN_EOF) by (apply Hf; by rewrite Hs). pose proof (ok_range _ _ _ _ _ Hp). unfold step_import. msteps; try (apply w_back_to_file; [chain|left; pos|done]).
  rule w_add_import; [done|]. intros p1 G1. learn G1. msteps; (apply w_back_to_file; [chain|left; pos|done]).
Qed.
Lemma w_step_edition : fr_state f = PARSE_STATE_EDITION → meets (step_edition grants tokens f below) Done p.
Proof.
  intros Hs. assert (Hk : kind (pr_current p) ≠ BEBOP_TOKEN_EOF) by (apply Hf; by rewrite Hs). pose proof (ok_range _ _ _ _ _ Hp). unfold step_edition.
  assert (Hend : ∀ p1, goes p p1 → pr_current p < pr_current p1 → meets (modify (set_preamble BEBOP_PREAMBLE_EDITION);; BEBOP_PARSE_MATCH tokens BEBOP_TOKEN_SEMICOLON;; back_to_file tokens f below) Done p1).
  { intros p1 H1 Hlt. learn H1. apply meets_bind. rule w_preamble; [done|]. intros p2 H2. learn H2. msteps; (apply w_back_to_file; [chain|left; pos|done]). }
  msteps; try (apply Hend; [chain|pos]).
  all: case_bool_decide; msteps; (apply Hend; [chain|pos]).
Qed.

(** ** Packages *)

Lemma w_package_loop fuel : ∀ buf last (Q : list Z * bebop_span_t → _ → Prop) p1, ok p1 → enough fuel p1 → (∀ r p', goes p1 p' → Q r p') →
  meets (package_loop grants tokens fuel buf last) Q p1.
Proof.
  induction fuel as [|fuel IH]; intros buf last Q p1 Hp1 Hfu HQ; cbn [package_loop]; [no_fuel|]. pose proof (ok_range _ _ _ _ _ Hp1). msteps; [|apply HQ; chain].
  change (tk_kind (tok (pr_current (next p1)))) with (kind (pr_current (next p1))). destruct (bebop__token_is_ident_or_keyword _) eqn:Ek; [apply not_eof_name in Ek|]; msteps; [|apply HQ; chain].
  case_match; [msteps; apply HQ; chain|]. apply IH; [done|eapply enough_less; [done|pos]|]. intros r p2 G2. apply HQ. chain.
Qed.
Lemma w_package_name pkg first str (Q : unit → _ → Prop) p1 : ok p1 → (∀ p', goes p1 p' → Q tt p') → meets (package_name grants tokens schema pkg first str) Q p1.
Proof.
  intros Hp1 HQ. unfold package_name. apply meets_bind, w_package_loop; [done|all_fuel|]. intros [buf last] p2 G2. learn G2. msteps. destruct (pr_panic p2); [apply meets_ret, HQ; chain|].
  msteps.
  all: apply meets_bind; rule w_set_package; [done|]; intros p3 G3; learn G3; (rule w_preamble; [done|]); intros p4 G4; learn G4; apply HQ; chain.
Qed.
Lemma w_step_package : fr_state f = PARSE_STATE_PACKAGE → meets (step_package grants tokens schema f below) Done p.
Proof.
  intros Hs. assert (Hk : kind (pr_current p) ≠ BEBOP_TOKEN_EOF) by (apply Hf; by rewrite Hs). pose proof (ok_range _ _ _ _ _ Hp). unfold step_package. msteps.
  apply meets_bind. eapply w_schema_at; [done|]. intros sc Esc. destruct (negb (bebop_str_is_null _)).
  { msteps. apply w_back_to_file; [chain|left; pos|done]. }
  msteps; [|apply w_back_to_file; [chain|left; pos|done]]. case_match.
  - msteps. apply nearer_further; [chain|done|done| |pos]. apply file_frame_ok; [|done]. eapply parent_ok_goes; [|apply Hf]. chain.
  - apply meets_bind, w_package_name; [done|]. intros p1 G1. learn G1. apply w_back_to_file; [chain|left; pos|done].
Qed.

(** ** Modifiers *)

Lemma w_visibility nested (Q : bebop_visibility_t → _ → Prop) p1 : ok p1 → (∀ v p', goes p1 p' → Q v p') → meets (definition_visibility grants tokens nested) Q p1.
Proof.
  intros Hp1 HQ. unfold definition_visibility. msteps. change (tk_kind (tok (pr_current p1))) with (kind (pr_current p1)).
  destruct (kind (pr_current p1)) eqn:Ek; try (apply meets_ret, HQ; chain); msteps; destruct nested; msteps; apply HQ; chain.
Qed.
Lemma w_readonly (Q : unit → _ → Prop) p1 : ok p1 → (∀ p', goes p1 p' → Q tt p') → meets (skip_readonly grants tokens) Q p1.
Proof.
  intros Hp1 HQ. unfold skip_readonly. msteps. change (tk_kind (tok (pr_current p1))) with (kind (pr_current p1)). case_bool_decide as Ek; [|apply meets_ret, HQ; chain].
  msteps; try congruence. apply HQ. chain.
Qed.
Lemma not_a_definition_still i p1 : ok p1 → pr_current p1 = i → meets (not_a_definition grants tokens (tok i)) (λ _ p', here p1 p' ∧ pr_panic p' = true) p1.
Proof. intros Hp1 <-. unfold not_a_definition. unfold bebop__suggest_keyword. case_bool_decide; msteps; (split; [split_and!; [chain|lia|auto]|auto]). Qed.
Lemma w_step_definition : fr_state f = PARSE_STATE_DEFINITION → meets (step_definition grants env tokens f below) Done p.
Proof.
  intros Hs. assert (Hk : kind (pr_current p) ≠ BEBOP_TOKEN_EOF) by (apply Hf; by rewrite Hs). unfold step_definition.
  assert (Hend : ∀ l (is_mutable : bool) visibility p1, goes p p1 → meets (tok ← BEBOP_PARSE_CURRENT tokens;
      (if is_mutable && negb (bool_decide (tk_kind tok = BEBOP_TOKEN_STRUCT)) then bebop__parse_error_at grants (tk_span tok) BEBOP_DIAG_INVALID_FIELD else mret tt);;
      match start_of (tk_kind tok) with
      | Some state => mret (with_modifiers state l is_mutable visibility f :: below)
      | None => not_a_definition grants tokens tok;; back_to_file tokens (with_modifiers PARSE_STATE_FILE l is_mutable visibility f) below
      end) Done p1).
  { intros l is_mutable visibility p1 G1. learn G1. msteps. apply meets_bind.
    match goal with |- ParseSteps.meets _ ?c _ _ => assert (Herr : still c p1) by (case_match; [by apply still_error_at|by apply still_ret]) end.
    apply Herr. intros [] p2 G2. learn G2. change (tk_kind (tok (pr_current p1))) with (kind (pr_current p1)).
    destruct (start_of (kind (pr_current p1))) as [state|] eqn:Es.
    - assert (Hst : weight state = -2 ∧ body_kind state = None ∧ unused state = false ∧ kind (pr_current p1) ≠ BEBOP_TOKEN_EOF)
        by (destruct (kind (pr_current p1)); by simplify_eq/=).
      destruct Hst as (Hw&Hb&Hu&Hk1). apply meets_ret. eapply nearer_next; [chain|done|done| |].
      + split; cbn [with_modifiers fr_state fr_nested_parent]; [eapply parent_ok_goes; [|apply Hf]; chain|done|congruence|by rewrite He].
      + cbn [with_modifiers fr_state measure]. rewrite Hw, Hs. cbn [weight]. lia.
    - apply meets_bind. eapply meets_weaken; [apply not_a_definition_still; [done|done]|]. intros [] p3 (G3&Hpa). learn G3. apply w_back_to_file; [chain|by right|done]. }
  bsteps. apply meets_bind. apply w_visibility; [done|]. intros v p1 G1. learn G1. msteps;
    (apply meets_bind; apply w_readonly; [done|]; intros p2 G2; learn G2; apply Hend; chain).
Qed.

(** ** The start of a definition *)

Lemma w_set_body q k parent body (Q : unit → _ → Prop) p1 : ok p1 → placed p1 q k parent → (∀ d, def_kind (set_body body d) = k) →
  (∀ p', here p1 p' → Q tt p') → meets (set_def_body q body) Q p1.
Proof.
  intros Hp1 Hq Hk HQ. unfold set_def_body. apply meets_bind. eapply w_deref_placed; [done|]. intros d Ed _ _ Hd.
  rule w_put_def; [done|exact Ed|apply same_place_body; by rewrite Hk|]. intros p2 G2 _. by apply HQ.
Qed.
Lemma enum_base_passes q parent p1 : ok p1 → 0 < pr_current p1 → placed p1 q BEBOP_DEF_ENUM parent → passes (enum_base grants tokens q) p1.
Proof.
  intros Hp1 Hc Hq Q HQ. unfold enum_base. msteps; try (apply HQ; chain). destruct (_ ≫= _) as [base|]; [|msteps; apply HQ; chain].
  case_match; [msteps; apply HQ; chain|]. case_match; [msteps; apply HQ; chain|].
  rule w_set_body; [done|eapply placed_goes; [|exact Hq]; chain|done|]. intros p2 G2. learn G2. apply HQ. chain.
Qed.
Lemma w_mixins_loop fuel : ∀ mixins (Q : list bebop_type_t → _ → Prop) p1, ok p1 → enough fuel p1 → (∀ l p', goes p1 p' → Q l p') → meets (mixins_loop grants tokens fuel mixins) Q p1.
Proof.
  induction fuel as [|fuel IH]; intros mixins Q p1 Hp1 Hfu HQ; cbn [mixins_loop]; [no_fuel|]. pose proof (ok_range _ _ _ _ _ Hp1). msteps; [|apply HQ; chain].
  apply meets_bind. match goal with |- ParseSteps.meets _ ?c _ _ => assert (Hpush : still c q) end.
  { destruct (pt_type t); try (intros Q' HQ'; msteps; apply HQ'; split_and!; [chain|lia|auto]).
    intros Q' HQ'. rule w_push_part; [done| |intros p2 G2; by apply HQ'|intros a ar p2 G2; by apply HQ']. intros Q2 p2 G2 HQ2. apply meets_ret, HQ2, here_refl. by eapply here_ok. }
  apply Hpush. intros mixins' p2 G2. learn G2. msteps; [|apply HQ; chain]. apply IH; [done|eapply enough_less; [done|pos]|]. intros l p3 G3. apply HQ. chain.
Qed.
Lemma service_mixins_passes q parent p1 : ok p1 → placed p1 q BEBOP_DEF_SERVICE parent → passes (service_mixins grants tokens q) p1.
Proof.
  intros Hp1 Hq Q HQ. unfold service_mixins. msteps; [|apply HQ; chain]. apply meets_bind. apply w_mixins_loop; [done|all_fuel|]. intros l p2 G2. learn G2.
  rule w_set_body; [done|eapply placed_goes; [|exact Hq]; chain|done|]. intros p3 G3. learn G3. apply HQ. chain.
Qed.

Lemma w_start_definition state kind' body head : needs_token (fr_state f) = true → body_kind state = Some kind' → weight state = 3 → unused state = false →
  def_kind (definition_of schema f (parent_of kind' f) (tok 0) 0 body) = kind' →
  (∀ q p1, ok p1 → 0 < pr_current p1 → placed p1 q kind' (parent_of kind' f) → passes (head q) p1) →
  meets (start_definition grants tokens source trivia schema state kind' (parent_of kind' f) body head f below) Done p.
Proof.
  intros Hs Hb Hw Hu Hkind Hhead. assert (Hk : kind (pr_current p) ≠ BEBOP_TOKEN_EOF) by (by apply Hf). pose proof (ok_range _ _ _ _ _ Hp). unfold start_definition. bsteps.
  apply meets_bind. rule w_def_name; [done| |].
  2: { intros p1 G1. learn G1. apply w_back_to_file; [chain|left; pos|done]. }
  intros Hn G1. learn G1. apply meets_bind. rule w_new_def; [done|done|done| |].
  { intros d Ed. cbn in Ed. assert (Hd : fr_nested_parent f = Some d) by (destruct kind'; done). eapply (parent_ok_goes p); [chain|apply Hf|exact Hd]. }
  intros d p2 G2 Ed. learn G2. assert (Hd : placed p2 d kind' (parent_of kind' f)) by (eexists; split_and!; [exact Ed|done..]).
  bsteps. apply meets_bind, Hhead; [done|pos|eapply placed_goes; [|exact Hd]; chain|]. intros [] p3 G3. learn G3.
  bsteps; [|apply w_back_to_file; [chain|left; pos|done]]. apply nearer_further; [chain|done|done| |pos].
  split; cbn [in_body fr_state fr_nested_parent]; [eapply parent_ok_goes; [|apply Hf]; chain|done| |].
  - intros k Ek. rewrite Hb in Ek. injection Ek as <-. split; [pos|]. exists d. split; [done|]. eapply placed_goes; [|exact Hd]. chain.
  - by destruct state.
Qed.

(** ** The end of a definition *)

Lemma w_finish q k parent keyword rbrace finish (Q : unit → _ → Prop) p1 : ok p1 → placed p1 q k parent →
  (∀ d, def_kind d = k → def_kind (set_body (finish (df_body d)) d) = k) → (∀ p', here p1 p' → Q tt p') → meets (finish_def q keyword rbrace finish) Q p1.
Proof.
  intros Hp1 Hq Hk HQ. unfold finish_def. apply meets_bind. eapply w_deref_placed; [done|]. intros d Ed _ _ Hd.
  rule w_put_def; [done|exact Ed| |intros p2 G2 _; by apply HQ]. split; try done. change (def_kind (set_body (finish (df_body d)) d) = def_kind d). rewrite Hd. by apply Hk.
Qed.
Lemma nearer_file p1 : goes p p1 → weight (fr_state f) = 3 → Done (back_in_file f :: below) p1.
Proof.
  intros G1 Hw. eapply nearer_next; [done|done|done| |].
  - apply file_frame_ok; [|done]. eapply parent_ok_goes; [done|apply Hf].
  - cbn [back_in_file fr_state measure]. rewrite Hw. pose proof (go_current _ _ _ _ _ _ G1). cbn [weight]. lia.
Qed.
Lemma w_end_definition before finish check service k : body_kind (fr_state f) = Some k → weight (fr_state f) = 3 → (service = true ↔ k = BEBOP_DEF_SERVICE) →
  (∀ p1, ok p1 → 0 < pr_current p1 → still before p1) → (∀ d, def_kind d = k → def_kind (set_body (finish (df_body d)) d) = k) →
  (∀ q p1, ok p1 → placed p1 q k (parent_of k f) → still (check q) p1) →
  meets (end_definition grants tokens schema before finish check service f below) Done p.
Proof.
  intros Hb Hw Hserv Hbefore Hfin Hcheck. destruct (fo_body _ _ Hf k Hb) as (Hc&q&Eq&Hq). unfold end_definition. rewrite Eq.
  assert (Hrest : ∀ rbrace p1, goes p p1 → meets (on_sema bebop_sema_exit_def;; before;; def ← lift (Some q); finish_def def (fr_keyword f) rbrace finish;; check def;;
      bebop__parse_check_duplicate_def grants schema def;;
      match fr_nested_parent f with
      | Some parent => if service then add_def schema def;; mret (back_in_file f :: below) else add_nested parent def;; mret below
      | None => add_def schema def;; mret (back_in_file f :: below)
      end) Done p1).
  { intros rbrace p1 G1. learn G1. bsteps. apply meets_bind, Hbefore; [done|lia|]. intros [] p2 G2. learn G2. apply meets_bind, meets_lift; [by eexists|]. intros ? [= <-].
    apply meets_bind. eapply w_finish; [done|eapply placed_goes; [|exact Hq]; chain|exact Hfin|]. intros p3 G3. learn G3.
    apply meets_bind, Hcheck; [done|eapply placed_goes; [|exact Hq]; chain|]. intros [] p4 G4. learn G4.
    apply meets_bind. rule w_check_duplicate; [done|eapply placed_goes; [|exact Hq]; chain|]. intros p5 G5. learn G5.
    assert (Hq5 : placed p5 q k (parent_of k f)) by (eapply placed_goes; [|exact Hq]; chain). destruct Hq5 as (d&Ed&Hds&Hdp&Hdk).
    assert (Hadd : parent_of k f = None → meets (add_def schema q;; mret (back_in_file f :: below)) Done p5).
    { intros Hn. apply meets_bind. rule w_add_def; [done|exact Ed|done|congruence|]. intros p6 G6. learn G6. apply meets_ret, nearer_file; [chain|done]. }
    destruct (fr_nested_parent f) as [parent|] eqn:Epar.
    - destruct service; [apply Hadd; destruct Hserv as (Hs1&_); by rewrite Hs1|]. assert (Hdp' : df_parent d = Some parent).
      { rewrite Hdp. destruct k; cbn [parent_of]; try done. destruct Hserv as (_&Hs2). by specialize (Hs2 eq_refl). }
      apply meets_bind. rule w_add_nested; [done|exact Ed|done|done|]. intros p6 G6. learn G6. apply meets_ret, nearer_pop; [chain|done|lia|].
      intros Hnil. destruct Hbelow as (_&Hgr&_). specialize (Hgr Hnil). congruence.
    - apply Hadd. by destruct k. }
  mrule; mrule; apply Hrest; chain.
Qed.

(** A definition inside of another one, or what else is in a body. *)
Lemma w_nested_or inside k : body_kind (fr_state f) = Some k → weight (fr_state f) = 3 → meets inside Done p → meets (nested_or tokens inside f below) Done p.
Proof.
  intros Hb Hw Hin. destruct (fo_body _ _ Hf k Hb) as (Hc&q&Eq&d&Ed&Hds&_). unfold nested_or. apply meets_bind. rule w_nested_start; [done|]. intros [] Hk; [|done].
  specialize (Hk eq_refl). case_match.
  - apply meets_bind. eapply meets_computes; [apply (fatal_computes grants tokens (λ _ p', error_post grants tokens p p' ∧ pr_fatal p' = true)); [apply Hp|by split]|].
    intros [] p1 ((Hle&Hcur&_)&Hfatal). apply meets_ret. left. destruct Hle as [Ho _ _ _ _ Hd Hsc]. split_and!; [by apply Ho, Hp|by eapply registry_ok_eq; [..|apply Hp]|lia|done].
  - apply meets_ret. right. destruct Hbelow as (Hall&Hgr). split; [by apply goes_refl|]. split; [split|split; [|done]].
    + split; cbn [new_frame fr_state fr_nested_parent]; try done. rewrite Eq. intros ? [= <-]. by exists d.
    + split; [|by split]. apply Forall_cons. by split.
    + cbn [new_frame fr_state measure]. rewrite Hw. unfold zlen. cbn [weight length]. lia.
Qed.

(** ** Bodies *)

Lemma w_body_or_end the_end inside : meets the_end Done p → (kind (pr_current p) ≠ BEBOP_TOKEN_EOF → kind (pr_current p) ≠ BEBOP_TOKEN_RBRACE → meets inside Done p) →
  meets (body_or_end tokens the_end inside) Done p.
Proof. intros He Hi. unfold body_or_end. msteps; cbn [orb]; auto. Qed.
(** Behind an item of a body. *)
Lemma w_item_done f' p1 : moved p p1 → kind (pr_current p) ≠ BEBOP_TOKEN_EOF → weight (fr_state f) = 3 →
  fr_state f' = fr_state f → fr_def f' = fr_def f → fr_nested_parent f' = fr_nested_parent f →
  meets (recover_in_block tokens;; mret (f' :: below)) Done p1.
Proof.
  intros Hm Hk Hw E1 E2 E3. pose proof Hm as (H1&_). learn H1. apply meets_bind. apply (w_back p); [done..|]. intros p2 H2 Hlt. learn H2.
  apply meets_ret, nearer_further; [chain|done|done| |done]. destruct Hf as [F1 F2 F3 F4]. split; rewrite ?E1, ?E3; [eapply parent_ok_goes; [|exact F1]; chain|done| |].
  - intros k Hb. destruct (F3 k Hb) as (Hc'&q&Eq&Hq). split; [lia|]. exists q. split; [congruence|]. replace (parent_of k f') with (parent_of k f) by (unfold parent_of; by rewrite E3).
    eapply placed_goes; [|exact Hq]. chain.
  - by destruct (fr_state f).
Qed.

Lemma check_enum_still q parent p1 : ok p1 → placed p1 q BEBOP_DEF_ENUM parent → still (check_enum grants q) p1.
Proof.
  intros Hp1 Hq Q HQ. unfold check_enum. apply meets_bind. eapply w_deref_placed; [done|]. intros d _ _ _ Hk. unfold def_kind in Hk. destruct (df_body d); try done.
  bsteps. apply HQ. split_and!; [chain|lia|auto].
Qed.
Lemma w_step_enum_body : fr_state f = PARSE_STATE_ENUM_BODY → meets (step_enum_body grants env tokens source trivia schema f below) Done p.
Proof.
  intros Hs. destruct (fo_body _ _ Hf BEBOP_DEF_ENUM) as (Hc&q&Eq&Hq); [by rewrite Hs|]. unfold step_enum_body. apply w_body_or_end.
  - eapply w_end_definition; rewrite ?Hs; [done..| | |].
    + intros p1 Hp1 _. by apply still_ret.
    + intros d Hd. unfold def_kind in *. cbn. by destruct (df_body d).
    + intros q1 p1. apply check_enum_still.
  - intros Hk _. apply meets_bind, meets_lift; [by eexists|]. intros ? E. rewrite Eq in E. injection E as <-.
    apply meets_bind. rule w_enum_member; [done|exact Hq|]. intros members p1 Hm. apply w_item_done; rewrite ?Hs; done.
Qed.
Lemma w_step_field is_message : kind (pr_current p) ≠ BEBOP_TOKEN_EOF → weight (fr_state f) = 3 → is_Some (body_kind (fr_state f)) →
  meets (step_field grants env tokens source trivia is_message f below) Done p.
Proof.
  intros Hk Hw (k&Hb). destruct (fo_body _ _ Hf k Hb) as (Hc&q&Eq&Hq). unfold step_field. apply meets_bind, meets_lift; [by eexists|]. intros ? E. rewrite Eq in E. injection E as <-.
  apply meets_bind. rule w_field; [done|exact Hq|]. intros fields p1 Hm. by apply w_item_done.
Qed.
Lemma w_step_struct_body : fr_state f = PARSE_STATE_STRUCT_BODY → meets (step_struct_body grants env tokens source trivia schema f below) Done p.
Proof.
  intros Hs. unfold step_struct_body. apply w_body_or_end.
  - eapply w_end_definition; rewrite ?Hs; [done..|by intros; apply still_ret| |by intros; apply still_ret]. intros d Hd. unfold def_kind in *. cbn. by destruct (df_body d).
  - intros Hk _. eapply w_nested_or; rewrite ?Hs; [done..|]. apply w_step_field; rewrite ?Hs; [done..|by eexists].
Qed.
Lemma w_step_message_body : fr_state f = PARSE_STATE_MESSAGE_BODY → meets (step_message_body grants env tokens source trivia schema f below) Done p.
Proof.
  intros Hs. unfold step_message_body. apply w_body_or_end.
  - eapply w_end_definition; rewrite ?Hs; [done..|by intros; apply still_ret| |by intros; apply still_ret]. intros d Hd. unfold def_kind in *. cbn. by destruct (df_body d).
  - intros Hk _. eapply w_nested_or; rewrite ?Hs; [done..|]. apply w_step_field; rewrite ?Hs; [done..|by eexists].
Qed.
Lemma w_step_service_body : fr_state f = PARSE_STATE_SERVICE_BODY → meets (step_service_body grants env tokens source trivia schema f below) Done p.
Proof.
  intros Hs. destruct (fo_body _ _ Hf BEBOP_DEF_SERVICE) as (Hc&q&Eq&Hq); [by rewrite Hs|]. unfold step_service_body. apply w_body_or_end.
  - eapply w_end_definition; rewrite ?Hs; [done..|by intros; apply still_ret| |by intros; apply still_ret]. intros d Hd. unfold def_kind in *. cbn. by destruct (df_body d).
  - intros Hk _. apply meets_bind, meets_lift; [by eexists|]. intros ? E. rewrite Eq in E. injection E as <-.
    apply meets_bind. rule w_method; [done|exact Hq|]. intros methods p1 Hm. apply w_item_done; rewrite ?Hs; done.
Qed.
End Step.
End Files.
