(* ===== verification/ParseUnionProps.v ===== *)
(** What the parser of the branches of unions and of constants does when memory does not run
    out. *)
From stdpp Require Import list gmap strings.
From S2P Require Import Prelude.
From S2P Require Import Scanner.
From S2P Require Import ScannerSpec.
From S2P Require Import Schema.
From S2P Require Import Literals.
From S2P Require Import Calendar.
From S2P Require Import FloatText.
From S2P Require Import Diagnostics.
From S2P Require Import Sema.
From S2P Require Import SemaProps.
From S2P Require Import Registry.
From S2P Require Import RegistryProps.
From S2P Require Import Parser.
From S2P Require Import ParserProps.
From S2P Require Import ParseType.
From S2P Require Import ParseTypeSpec.
From S2P Require Import ParseExpr.
From S2P Require Import ParseExprProps.
From S2P Require Import ParseLiteral.
From S2P Require Import ParseMember.
From S2P Require Import ParseMacro.
From S2P Require Import ParseFile.
From S2P Require Import ParseSteps.
From S2P Require Import ParseRules.
From S2P Require Import ParsePartProps.
From S2P Require Import ParseDefRules.
From S2P Require Import ParseBodyProps.
From S2P Require Import ParseMacroProps.
From S2P Require Import ParseFileProps.


Section Unions.
Context {cc : Context} {Hcc : ContextOk} {Hg : ContextGrants}.
Context {dm : DefMap def_ptr} {Hdm : DefMapOk} {Hdefs : Inserts dm}.
Context {ns : DefMap (option bebop_span_t)} {Hns : DefMapOk} {Hnames : Inserts ns}.
Context {lc : Libc} (grants : nat → bool) (env : env_t) (tokens : list bebop_token_t) (source : list Z) (trivia : list bebop_trivia_t).
Context (schema : schema_ptr) (c0 : ctx) {Hsk : scanned tokens source trivia c0} (undefined : Prop).
Abbreviation M := (C bebop_parser_t).
Abbreviation tok := (tok_at tokens).
Abbreviation kind := (kind_at tokens).
Abbreviation pctx p := (rg_ctx (pr_registry p)).
Abbreviation defs p := (rg_defs (pr_registry p)).
Abbreviation meets := (ParseSteps.meets undefined).
Abbreviation ok := (ParseSteps.ok grants tokens schema c0).
Abbreviation goes := (ParseSteps.goes grants tokens schema c0).
Abbreviation erred := (ParseSteps.erred grants tokens schema c0).
Abbreviation here := (ParseSteps.here grants tokens schema c0).
Abbreviation text := (ParseTypeSpec.text tokens (ctx_str c0)).
Context {Hminus : MinusDefined tokens c0 undefined}.
Context {Hexpr : ExpressionsDefined grants tokens schema c0 undefined}.
#[local] Instance ends_here : stream_ends tokens := sk_ends _ _ _ _ Hsk.

Abbreviation enough := (ParsePartProps.enough tokens).

Abbreviation moved := (ParseDefRules.moved grants tokens schema c0).
Abbreviation still := (ParseDefRules.still grants tokens schema c0 undefined).
Abbreviation placed := (ParseDefRules.placed schema).

Abbreviation passes := (ParseMacroProps.passes grants tokens schema c0 undefined).
Abbreviation stack := (list bebop_parse_frame_t).

Abbreviation parent_ok := (ParseFileProps.parent_ok schema).
Abbreviation frame_ok := (ParseFileProps.frame_ok tokens schema).
Abbreviation below_ok := (ParseFileProps.below_ok tokens schema).

(** ** The head of a branch *)

Lemma w_no_branch {A} p0 (Q : option A → _ → Prop) p : moved p0 p → kind (pr_current p0) ≠ BEBOP_TOKEN_EOF →
  (∀ p', goes p p' → pr_current p0 < pr_current p' → Q None p') → meets (no_branch tokens) Q p.
Proof.
  intros Hm Hk HQ. pose proof Hm as (H1&_). unfold no_branch. apply meets_bind. eapply (w_back _ _ _ _ _ _ _ p0); [done|done|]. intros p1 G1 Hlt. apply meets_ret, HQ; [chain|done].
Qed.
Lemma w_branch_visibility (Q : bebop_visibility_t → _ → Prop) p : ok p → (∀ v p', goes p p' → Q v p') → meets (branch_visibility grants tokens) Q p.
Proof.
  intros Hp HQ. unfold branch_visibility. msteps. change (tk_kind (tok (pr_current p))) with (kind (pr_current p)).
  destruct (kind (pr_current p)) eqn:Ek; try (apply meets_ret, HQ; chain); msteps; apply HQ; chain.
Qed.
(** The discriminator that was just passed. *)
Lemma w_branch_discriminator branches p0 (Q : option Z → _ → Prop) p : ok (next p) → ok p → kind (pr_current p) = BEBOP_TOKEN_NUMBER →
  goes p0 (next p) → pr_current p0 < pr_current (next p) → kind (pr_current p0) ≠ BEBOP_TOKEN_EOF →
  (∀ o p', goes (next p) p' → Q o p') → meets (branch_discriminator grants tokens branches) Q (next p).
Proof.
  intros Hn Hp Hk H0 Hlt Hk0 HQ. pose proof (ok_range _ _ _ _ _ Hp) as Hr. learn H0. unfold branch_discriminator. msteps. apply meets_bind, meets_lift.
  { rule passed_number; [exact Hp|exact Hn|exact Hk|exact Et]. }
  assert (Hno : ∀ p1, goes (next p) p1 → meets (no_branch tokens) Q p1).
  { intros p1 G1. learn G1. apply (w_no_branch p0); [|done|intros p2 ? ?; apply HQ; chain]. split; [chain|left; pos]. }
  intros [v|] _; [|msteps; apply Hno; chain]. case_match; [msteps; apply Hno; chain|]. case_match; [msteps; apply Hno; chain|].
  apply meets_ret, HQ; chain.
Qed.

(** The name of a branch is a token behind it that may be one. *)
Definition named (h : branch_head_t) (p : bebop_parser_t) : Prop :=
  ∃ i, bh_name h = tok i ∧ 0 ≤ i < pr_current p ∧ bebop__token_is_ident_or_keyword (kind i) = true.
Lemma w_branch_head branches (Q : option branch_head_t → _ → Prop) p : ok p → kind (pr_current p) ≠ BEBOP_TOKEN_EOF →
  (∀ o p', goes p p' → pr_current p < pr_current p' → (∀ h, o = Some h → named h p') → Q o p') → meets (branch_head grants env tokens source trivia branches) Q p.
Proof.
  intros Hp Hk HQ. pose proof (ok_range _ _ _ _ _ Hp). unfold branch_head.
  assert (Hno : ∀ p1, moved p p1 → meets (no_branch tokens) Q p1).
  { intros p1 Hm. pose proof Hm as (G1&_). apply (w_no_branch p); [done|done|]. intros p2 ? ?. apply HQ; [chain|done|by intros]. }
  bsteps. set (first := match l with dec :: _ => _ | [] => _ end).
  assert (Hlead : comments_in source trivia first.2).
  { subst first. destruct l; [apply (sk_leading _ _ _ _ Hsk); lia|]. split; [unfold slice_in; cbn; pose proof (zlen_nonneg trivia); lia|]. by intros t ?%not_elem_of_nil. }
  destruct first as [first leading]. cbn in Hlead. apply meets_bind, w_branch_visibility; [done|]. intros v p1 G1. learn G1. unfold or_no_branch.
  bsteps; try (apply Hno; moves). apply meets_bind. eapply (w_branch_discriminator branches p); [done|done|done|chain|pos|done|]. intros [disc|] p2 G2; learn G2.
  2: { apply meets_ret, HQ; [chain|pos|by intros]. }
  bsteps; try (apply Hno; moves). apply meets_bind. rule w_extract_doc; [done|exact Hlead|]. intros doc p3 G3. learn G3.
  msteps; (apply HQ; [chain|pos|]); intros h [= <-]; exists (pr_current p1); (split_and!; [done|lia|pos|done]).
Qed.

(** ** The definition of a branch *)

Lemma w_branch_fields fuel : ∀ q k parent is_message fields (Q : parts_t bebop_field_t → _ → Prop) p, ok p → enough fuel p → placed p q k parent →
  (∀ a p', goes p p' → Q a p') → meets (branch_fields grants env tokens source trivia fuel q is_message fields) Q p.
Proof.
  induction fuel as [|fuel IH]; intros q k parent is_message fields Q p Hp Hfu Hq HQ; cbn [branch_fields]; [no_fuel|]. msteps; cbn [orb]; try (apply meets_ret, HQ; chain).
  apply meets_bind. rule w_field; [done|exact Hq|]. intros fields' p1 Hm. pose proof Hm as (G1&_). apply meets_bind. eapply (w_back _ _ _ _ _ _ _ p); [exact Hm|done|].
  intros p2 G2 Hlt. learn G2. eapply IH; [done|by eapply enough_less|eapply placed_goes; [|exact Hq]; chain|]. intros a p3 G3. apply HQ. chain.
Qed.
(** What a branch has defined belongs to the union. *)
Definition belongs (parent : option def_ptr) (o : option (option def_ptr * bebop_type_t)) (p : bebop_parser_t) : Prop :=
  ∀ q t, o = Some (Some q, t) → ∃ k, placed p q k parent.
Lemma w_branch_definition h parent start is_message (Q : option (option def_ptr * bebop_type_t) → _ → Prop) p : ok p → 0 < pr_current p → parent_ok p parent →
  (∀ o p', goes p p' → belongs parent o p' → Q o p') → meets (branch_definition grants env tokens source trivia schema h parent start is_message) Q p.
Proof.
  intros Hp Hc Hpar HQ. unfold branch_definition. cbv zeta. apply meets_bind. rule w_new_def; [done|done|done|exact Hpar|]. intros q p1 G1 Ed. learn G1.
  set (k := if is_message then BEBOP_DEF_MESSAGE else BEBOP_DEF_STRUCT).
  assert (Hq : placed p1 q k parent) by (eexists; split_and!; [exact Ed|done|done|subst k; by destruct is_message]).
  bsteps. apply meets_bind. rule w_branch_fields; [done|all_fuel|eapply placed_goes; [|exact Hq]; chain|]. intros fields p2 G2. learn G2.
  assert (Hrest : ∀ rbrace p3, goes p p3 → placed p3 q k parent →
    meets (on_sema bebop_sema_exit_def;; finish_def q start rbrace (set_fields (pa_items fields));; mret (Some (Some q, TNull))) Q p3).
  { intros rbrace p3 G3 Hq3. learn G3. bsteps. apply meets_bind. rule w_finish; [done|eapply placed_goes; [|exact Hq3]; chain| |].
    - intros d Hd. unfold def_kind in *. cbn. by destruct (df_body d).
    - intros p4 G4. learn G4. apply meets_ret, HQ; [chain|]. intros ? ? [= <- <-]. exists k. eapply placed_goes; [|exact Hq3]. chain. }
  mrule; mrule; (apply Hrest; [chain|eapply placed_goes; [|exact Hq]; chain]).
Qed.
Lemma w_branch_body h parent (Q : option (option def_ptr * bebop_type_t) → _ → Prop) p : ok p → 0 < pr_current p → named h p → parent_ok p parent →
  (∀ o p', goes p p' → belongs parent o p' → Q o p') → meets (branch_body grants env tokens source trivia schema h parent) Q p.
Proof.
  intros Hp Hc (i&Ei&Hi&Hik) Hpar HQ. pose proof (ok_range _ _ _ _ _ Hp). unfold branch_body. rewrite Ei.
  assert (Hnone : ∀ p1, goes p p1 → Q None p1) by (intros p1 G1; by apply HQ).
  assert (Hno : ∀ p1, goes p p1 → meets (no_branch tokens) Q p1).
  { intros p1 G1. learn G1. unfold no_branch. msteps. apply Hnone. chain. }
  assert (Hdef : ∀ start is_message p1, goes p p1 → 0 < pr_current p1 → meets (branch_definition grants env tokens source trivia schema h parent start is_message) Q p1).
  { intros start is_message p1 G1 Hlt. learn G1. apply w_branch_definition; [done|done|intros q Eq; by eapply parent_ok_goes; [exact G1|exact Hpar|]|]. intros o p2 G2. apply HQ. chain. }
  msteps. change (tk_kind (tok (pr_current p))) with (kind (pr_current p)).
  destruct (kind (pr_current p)) eqn:Ek; try (msteps; apply Hnone; chain).
  - bsteps. destruct (bh_is_mutable h); unfold or_no_branch; bsteps; try congruence; try (apply Hno; chain); (apply Hdef; [chain|pos]).
  - assert (Herr : ∀ b : bool, ∀ p1, goes p p1 → still (if b then mret tt else BEBOP_PARSE_ERROR_CURRENT grants tokens BEBOP_DIAG_INVALID_UNION_BRANCH) p1).
    { intros [] p1 G1; learn G1; [by apply still_ret|]. intros Q' HQ'. msteps. apply HQ'. split_and!; [chain|lia|auto]. }
    apply meets_bind, Herr; [chain|]. intros [] p1 G1. learn G1.
    assert (Hmut : still (if bh_is_mutable h then BEBOP_PARSE_ERROR_CURRENT grants tokens BEBOP_DIAG_INVALID_UNION_BRANCH else mret tt) p1).
    { pose proof (Herr (negb (bh_is_mutable h)) p1 Hg0) as H'. by destruct (bh_is_mutable h). }
    apply meets_bind, Hmut. intros [] p2 G2. learn G2. bsteps; [|apply Hno; chain].
    destruct (pt_type t); try (msteps; apply Hnone; chain). apply meets_ret, HQ; [chain|]. by intros ? ?.
  - bsteps; try congruence. apply Hdef; [chain|pos].
Qed.

Lemma w_union_branch f q (Q : parts_t bebop_union_branch_t → _ → Prop) p : ok p → kind (pr_current p) ≠ BEBOP_TOKEN_EOF → 0 < pr_current p →
  fr_def f = Some q → placed p q BEBOP_DEF_UNION (fr_nested_parent f) → (∀ o p', goes p p' → pr_current p < pr_current p' → Q o p') →
  meets (union_branch grants env tokens source trivia schema f) Q p.
Proof.
  intros Hp Hk Hc Eq Hq HQ. pose proof (ok_range _ _ _ _ _ Hp). unfold union_branch. apply meets_bind, w_branch_head; [done|done|]. intros [h|] p1 G1 Hlt Hn; learn G1.
  2: { by apply meets_ret, HQ. }
  apply meets_bind. apply w_branch_body; [done|lia|by apply Hn| |].
  { rewrite Eq. intros ? [= <-]. assert (Hq1 : placed p1 q BEBOP_DEF_UNION (fr_nested_parent f)) by (eapply placed_goes; [|exact Hq]; chain). destruct Hq1 as (d&Ed&Hs&_). by exists d. }
  intros [[branch_def type_ref]|] p2 G2 Hbel; learn G2; [|apply meets_ret, HQ; [chain|lia]]. msteps; [|apply HQ; [chain|lia]].
  apply meets_bind. match goal with |- ParseSteps.meets _ ?c _ _ => assert (Hadd : still c (next p2)) end.
  { destruct branch_def as [bd|]; [|by apply still_ret]. intros Q' HQ'. apply meets_bind, meets_lift; [by eexists|]. intros ? E'. rewrite Eq in E'. injection E' as <-.
    destruct (Hbel bd type_ref eq_refl) as (k&Hbd). assert (Hbd2 : placed (next p2) bd k (fr_def f)) by (eapply placed_goes; [|exact Hbd]; chain).
    destruct Hbd2 as (d&Ed&Hs&Hpar&_). rule w_add_nested; [done|exact Ed|done|congruence|]. intros p3 G3. by apply HQ'. }
  apply Hadd. intros [] p3 G3. learn G3.
  rule w_push_part; [done|intros Q' p4 G4 HQ'; learn G4; bsteps; apply HQ'; by apply here_refl|intros p4 G4; learn G4; apply HQ; [chain|lia]|intros a1 ar p4 G4; learn G4; apply HQ; [chain|lia]].
Qed.

(** ** Constants *)

Lemma check_const_still t p : ok p → 0 < pr_current p → still (check_const_type grants tokens t) p.
Proof.
  intros Hp Hc Q HQ. assert (Hret : meets (mret tt) Q p) by by apply meets_ret, HQ, here_refl.
  assert (Herr : meets (BEBOP_PARSE_ERROR grants tokens BEBOP_DIAG_INVALID_CONST_TYPE) Q p) by (msteps; apply HQ; split_and!; [chain|lia|auto]).
  unfold check_const_type. cbv zeta. destruct (pt_type t); try exact Hret; try exact Herr; [case_match; done|]. msteps.
  case_match; [|msteps; apply HQ; split_and!; [chain|lia|auto]]. msteps. apply HQ; split_and!; [chain|lia|auto].
Qed.
Section Step.
Context (f : bebop_parse_frame_t) (below : stack) (p : bebop_parser_t).
Context (Hp : ok p) (Hf : frame_ok p f) (Hbelow : below_ok p f below).
Abbreviation Done := (nearer grants tokens schema c0 (measure tokens (f :: below) p) p).

Lemma w_step_const : fr_state f = PARSE_STATE_CONST_START → meets (step_const grants env tokens source trivia schema f below) Done p.
Proof.
  intros Hs. assert (Hk : kind (pr_current p) ≠ BEBOP_TOKEN_EOF) by (apply Hf; by rewrite Hs). pose proof (ok_range _ _ _ _ _ Hp). unfold step_const.
  assert (Hback : ∀ p1, goes p p1 → pr_current p < pr_current p1 → meets (back_to_file tokens f below) Done p1).
  { intros p1 G1 Hlt. rule w_back_to_file; [done|done|done|by left|done]. }
  bsteps; try (apply Hback; [chain|pos]). apply meets_bind, check_const_still; [done|lia|]. intros [] p1 G1. learn G1.
  bsteps; try (apply Hback; [chain|pos]).
  apply meets_bind. match goal with |- ParseSteps.meets _ ?c _ ?p2 => assert (Hlit : still c p2) end.
  { case_match; [by apply still_ret|]. intros Q' HQ'. msteps. apply HQ'. split_and!; [chain|lia|auto]. }
  apply Hlit. intros [] p3 G3. learn G3. bsteps; try (apply Hback; [chain|pos]).
  apply meets_bind. rule w_new_def; [done|done|done|done|]. intros q2 p4 G4 Ed. learn G4.
  assert (Hq : ∀ p5, goes p4 p5 → placed p5 q2 BEBOP_DEF_CONST None) by (intros p5 G5; eapply placed_goes; [exact G5|]; eexists; split_and!; [exact Ed|done..]).
  apply meets_bind. rule w_check_duplicate; [done|apply Hq; by apply goes_refl|]. intros p5 G5. learn G5. destruct (Hq p5 ltac:(chain)) as (d&Ed5&Hds&Hdp&_).
  apply meets_bind. rule w_add_def; [done|exact Ed5|done|done|]. intros p6 G6. learn G6. apply meets_ret. eapply nearer_further; [chain|done|done| |lia].
  apply file_frame_ok; [|done]. eapply parent_ok_goes; [|apply Hf]. chain.
Qed.
Lemma w_step_union_body : fr_state f = PARSE_STATE_UNION_BODY → meets (step_union_body grants tokens schema f below) Done p.
Proof.
  intros Hs. destruct (fo_body _ _ _ _ Hf BEBOP_DEF_UNION) as (Hc&q&Eq&Hq); [by rewrite Hs|]. unfold step_union_body. rule w_body_or_end; [done| |].
  - rule w_end_definition; [done..|by rewrite Hs|by rewrite Hs|done| | |by intros; apply still_ret].
    + intros p1 Hp1 Hc1. case_match; [|by apply still_ret]. intros Q' HQ'. msteps. apply HQ'. split_and!; [chain|lia|auto].
    + intros d Hd. unfold def_kind in *. cbn. by destruct (df_body d).
  - intros Hk _. rule w_nested_or; [done..|by rewrite Hs|by rewrite Hs|]. apply meets_ret. right. split; [by apply goes_refl|]. split; [split; [|done]|split; [|done]].
    + destruct Hf as [F1 F2 F3 F4]. split; [exact F1|done| |done]. intros k [= <-]. apply F3. by rewrite Hs.
    + cbn [in_state fr_state measure weight]. rewrite Hs. cbn [weight]. lia.
Qed.
Lemma w_step_union_branch : fr_state f = PARSE_STATE_UNION_BRANCH → meets (step_union_branch grants env tokens source trivia schema f below) Done p.
Proof.
  intros Hs. destruct (fo_body _ _ _ _ Hf BEBOP_DEF_UNION) as (Hc&q&Eq&Hq); [by rewrite Hs|]. assert (Hk : kind (pr_current p) ≠ BEBOP_TOKEN_EOF) by (apply Hf; by rewrite Hs).
  unfold step_union_branch. apply meets_bind. eapply w_union_branch; [done..|exact Eq|exact Hq|]. intros branches p1 G1 Hlt. apply meets_ret. eapply nearer_further; [done|done|done| |done].
  destruct Hf as [F1 F2 F3 F4]. split; [by eapply parent_ok_goes|done| |done]. intros k [= <-]. split; [lia|]. exists q. split; [done|]. by eapply placed_goes.
Qed.
End Step.
End Unions.
