(* ===== verification/ParseTotal.v ===== *)
(** The parser of files as a whole: from a scanned stream it returns, at the end of the stream
    unless definitions are nested too deep. *)
From stdpp Require Import list gmap strings.
From S2P Require Import Prelude.
From S2P Require Import Scanner.
From S2P Require Import ScannerSpec.
From S2P Require Import Schema.
From S2P Require Import Literals.
From S2P Require Import Calendar.
From S2P Require Import FloatText.
From S2P Require Import Diagnostics.
From S2P Require Import Sema.
From S2P Require Import SemaProps.
From S2P Require Import Registry.
From S2P Require Import RegistryProps.
From S2P Require Import Parser.
From S2P Require Import ParserProps.
From S2P Require Import ParseType.
From S2P Require Import ParseTypeSpec.
From S2P Require Import ParseExpr.
From S2P Require Import ParseExprProps.
From S2P Require Import ParseLiteral.
From S2P Require Import ParseMember.
From S2P Require Import ParseMacro.
From S2P Require Import ParseFile.
From S2P Require Import ParseSteps.
From S2P Require Import ParseRules.
From S2P Require Import ParsePartProps.
From S2P Require Import ParseDefRules.
From S2P Require Import ParseBodyProps.
From S2P Require Import ParseMacroProps.
From S2P Require Import ParseFileProps.
From S2P Require Import ParseUnionProps.


Section Machine.
Context {cc : Context} {Hcc : ContextOk} {Hg : ContextGrants}.
Context {dm : DefMap def_ptr} {Hdm : DefMapOk} {Hdefs : Inserts dm}.
Context {ns : DefMap (option bebop_span_t)} {Hns : DefMapOk} {Hnames : Inserts ns}.
Context {lc : Libc} (grants : nat → bool) (env : env_t) (tokens : list bebop_token_t) (source : list Z) (trivia : list bebop_trivia_t).
Context (schema : schema_ptr) (c0 : ctx) {Hsk : scanned tokens source trivia c0} (undefined : Prop).
Abbreviation M := (C bebop_parser_t).
Abbreviation tok := (tok_at tokens).
Abbreviation kind := (kind_at tokens).
Abbreviation pctx p := (rg_ctx (pr_registry p)).
Abbreviation defs p := (rg_defs (pr_registry p)).
Abbreviation meets := (ParseSteps.meets undefined).
Abbreviation ok := (ParseSteps.ok grants tokens schema c0).
Abbreviation goes := (ParseSteps.goes grants tokens schema c0).
Abbreviation erred := (ParseSteps.erred grants tokens schema c0).
Abbreviation here := (ParseSteps.here grants tokens schema c0).
Abbreviation text := (ParseTypeSpec.text tokens (ctx_str c0)).
Context {Hminus : MinusDefined tokens c0 undefined}.
Context {Hexpr : ExpressionsDefined grants tokens schema c0 undefined}.
#[local] Instance ends_here : stream_ends tokens := sk_ends _ _ _ _ Hsk.

Abbreviation enough := (ParsePartProps.enough tokens).

Abbreviation moved := (ParseDefRules.moved grants tokens schema c0).
Abbreviation still := (ParseDefRules.still grants tokens schema c0 undefined).
Abbreviation placed := (ParseDefRules.placed schema).

Abbreviation passes := (ParseMacroProps.passes grants tokens schema c0 undefined).
Abbreviation stack := (list bebop_parse_frame_t).

Abbreviation parent_ok := (ParseFileProps.parent_ok schema).
Abbreviation frame_ok := (ParseFileProps.frame_ok tokens schema).
Abbreviation below_ok := (ParseFileProps.below_ok tokens schema).
Abbreviation stack_ok := (ParseFileProps.stack_ok tokens schema).
Abbreviation measure := (ParseFileProps.measure tokens).
Abbreviation nearer := (ParseFileProps.nearer grants tokens schema c0).

Lemma w_file_step f below p : ok p → frame_ok p f → below_ok p f below →
  meets (file_step grants env tokens source trivia schema f below) (nearer (measure (f :: below) p) p) p.
Proof.
  intros Hp Hf Hb. unfold file_step.
  assert (Hret : ∀ p1, ok p1 → ParseMacroProps.passes grants tokens schema c0 undefined (mret tt) p1) by (intros p1 Hp1 Q HQ; apply meets_ret, HQ; by apply goes_refl).
  pose proof (fo_used _ _ _ _ Hf) as Hu. destruct (fr_state f) eqn:Es; try done.
  - by rule w_step_file.
  - by rule w_step_definition.
  - by rule w_step_import.
  - by rule w_step_edition.
  - by rule w_step_package.
  - rule (w_start_definition _ _ _ _ _ _ _ f below p Hp Hf Hb PARSE_STATE_ENUM_BODY BEBOP_DEF_ENUM); rewrite ?Es; try done. intros q p1 Hp1 Hc Hq. by rule enum_base_passes.
  - by rule w_step_enum_body.
  - rule (w_start_definition _ _ _ _ _ _ _ f below p Hp Hf Hb PARSE_STATE_STRUCT_BODY BEBOP_DEF_STRUCT); rewrite ?Es; try done. intros; by apply Hret.
  - by rule w_step_struct_body.
  - rule (w_start_definition _ _ _ _ _ _ _ f below p Hp Hf Hb PARSE_STATE_MESSAGE_BODY BEBOP_DEF_MESSAGE); rewrite ?Es; try done. intros; by apply Hret.
  - by rule w_step_message_body.
  - rule (w_start_definition _ _ _ _ _ _ _ f below p Hp Hf Hb PARSE_STATE_UNION_BODY BEBOP_DEF_UNION); rewrite ?Es; try done. intros; by apply Hret.
  - by rule w_step_union_body.
  - by rule w_step_union_branch.
  - rule (w_start_definition _ _ _ _ _ _ _ f below p Hp Hf Hb PARSE_STATE_SERVICE_BODY BEBOP_DEF_SERVICE); rewrite ?Es; try done. intros q p1 Hp1 Hc Hq. by rule service_mixins_passes.
  - by rule w_step_service_body.
  - by rule w_step_const.
Qed.

(** The machine has ended: the registry is well-formed, what was flagged is reported, and the
    stream has been read to its end unless the parser stopped for good. *)
Definition ended (p : bebop_parser_t) : Prop :=
  parser_ok grants tokens p ∧ registry_ok (pr_registry p) ∧ (pr_fatal p = false → pr_current p = zlen tokens - 1).
Lemma w_file_run fuel : ∀ st p, ok p → stack_ok p st → measure st p ≤ Z.of_nat fuel → (st = [] → kind (pr_current p) = BEBOP_TOKEN_EOF) →
  meets (file_run grants env tokens source trivia schema fuel st) (λ _ p', ended p') p.
Proof.
  induction fuel as [|fuel IH]; intros st p Hp Hst Hm He.
  all: destruct st as [|f below]; cbn [file_run]; [apply meets_ret; split; [apply Hp|split; [apply Hp|intros _]]; apply (stream_kind tokens); [apply Hsk|by apply (ok_inside grants tokens schema c0)|by apply He]|].
  all: msteps; rewrite (ok_fatal _ _ _ _ _ Hp).
  - pose proof (measure_positive grants tokens schema c0 f below p Hp). lia.
  - destruct Hst as (Hf&Hb). apply meets_bind. eapply meets_weaken; [by apply w_file_step|]. intros st p1 [(H1&H2&H3&H4)|(G1&Hst&Hlt&He1)].
    + destruct st as [|f' below']; destruct fuel; cbn [file_run]; try (apply meets_ret; split_and!; [done|done|congruence]);
        (apply meets_bind, meets_gets; rewrite H4; apply meets_ret; split_and!; [done|done|congruence]).
    + learn G1. eapply meets_weaken; [apply IH; [done|done|lia|done]|]. intros [] p2 H2. exact H2.
Qed.

Lemma file_stack_ok p : stack_ok p [new_frame PARSE_STATE_FILE None].
Proof. split; [by split|]. split; [constructor|]. by split. Qed.
Lemma w_parse_file p : ok p → pr_current p = 0 → meets (bebop__parse_file grants env tokens source trivia schema) (λ _ p', ended p') p.
Proof.
  intros Hp Hc. unfold bebop__parse_file. apply w_file_run; [done|apply file_stack_ok| |done].
  unfold file_fuel, parse_fuel. cbn [measure ParseFileProps.measure new_frame fr_state weight]. rewrite Hc. unfold zlen. cbn [length]. lia.
Qed.
End Machine.

(** ** Streams without sums *)

(** A stream without signs and shifts. *)
Definition no_sums (tokens : list bebop_token_t) : Prop := Forall (λ t, tk_kind t ≠ BEBOP_TOKEN_MINUS ∧ tk_kind t ≠ BEBOP_TOKEN_LANGLE) tokens.

Lemma reduce_defined more ops : ∀ values, bebop__OP_SHIFT ∉ ops → ∃ r, reduce more values ops = Some r ∧ (∀ vs os, r = Some (vs, os) → bebop__OP_SHIFT ∉ os).
Proof.
  induction ops as [|op ops IH]; intros values Ho; cbn [reduce]; [eexists; split; [done|intros ? ? [= _ <-]; done]|]. apply not_elem_of_cons in Ho as (Hop&Ho).
  destruct (more op); [|eexists; split; [done|intros ? ? [= _ <-]; by apply not_elem_of_cons]].
  destruct values as [|b [|a values]]; [by eexists..|]. assert (Hv : ∃ v, bebop__parse_apply_op a b op = Some v) by (destruct op; [by eexists..|done]).
  destruct Hv as (v&->). by apply IH.
Qed.

Section Sums.
Context {cc : Context} {Hcc : ContextOk} {Hg : ContextGrants}.
Context {dm : DefMap def_ptr} {Hdm : DefMapOk} {Hdefs : Inserts dm}.
Context {ns : DefMap (option bebop_span_t)} {Hns : DefMapOk} {Hnames : Inserts ns}.
Context (grants : nat → bool) (tokens : list bebop_token_t) (source : list Z) (trivia : list bebop_trivia_t).
Context (schema : schema_ptr) (c0 : ctx) {Hsk : scanned tokens source trivia c0} (Hno : no_sums tokens).
Abbreviation kind := (kind_at tokens).
Abbreviation meets := (ParseSteps.meets False).
Abbreviation ok := (ParseSteps.ok grants tokens schema c0).
Abbreviation goes := (ParseSteps.goes grants tokens schema c0).
#[local] Instance ends_sums : stream_ends tokens := sk_ends _ _ _ _ Hsk.

Lemma kind_no_sum p : ok p → kind (pr_current p) ≠ BEBOP_TOKEN_MINUS ∧ kind (pr_current p) ≠ BEBOP_TOKEN_LANGLE.
Proof.
  intros Hp. pose proof (ok_range grants tokens schema c0 p Hp) as Hr. unfold kind_at, tok_at. destruct (tokens !! Z.to_nat (pr_current p)) as [t|] eqn:E; [|done].
  cbn. unfold no_sums in Hno. rewrite Forall_lookup in Hno. by eapply Hno.
Qed.

Definition plain_frame (f : bebop__expr_frame_t) : Prop := xf_negate_next f = false ∧ bebop__OP_SHIFT ∉ xf_ops f.
Definition plain (m : expr_machine) : Prop := plain_frame (xm_frame m) ∧ Forall plain_frame (xm_below m).
Definition plain_on (p : bebop_parser_t) (o : expr_outcome) (p' : bebop_parser_t) : Prop :=
  ok p' ∧ 0 < pr_current p' ∧ match o with inl m => plain m | inr _ => True end.

Lemma plain_fails code p p' : ok p' → 0 < pr_current p' → meets (expr_fails grants tokens code) (plain_on p) p'.
Proof. intros Hp Hc. unfold expr_fails. msteps. by split_and!; [|lia|]. Qed.
Lemma plain_push v f below p p' : ok p' → 0 < pr_current p' → plain_frame f → Forall plain_frame below → meets (push_value grants tokens v f below) (plain_on p) p'.
Proof. intros Hp Hc Hf Hb. unfold push_value. destruct (_ <=? _); [by apply plain_fails|]. apply meets_ret. by split_and!. Qed.

Lemma plain_primary members p : ok p → 0 < pr_current p → meets (expr_primary grants tokens members) (λ _ p', ok p' ∧ 0 < pr_current p') p.
Proof.
  intros Hp Hc. unfold expr_primary. msteps.
  - pose proof (sk_texts _ _ _ _ Hsk (pr_current p) (ok_range grants tokens schema c0 p Hp)) as (Htext&Hint).
    rewrite (ok_str grants tokens source trivia schema c0 _ _ _ Ho (Htext ltac:(by right))). apply meets_bind, meets_lift; [by apply not_eq_None_Some, Hint|].
    intros [v|] _; msteps; (split; [done|pos]).
  - destruct (bebop__parse_lookup_enum_member _ _); msteps; (split; [done|pos]).
  - by split; [|pos].
Qed.
Lemma plain_operand members m p : ok p → 0 < pr_current p → plain m → meets (expr_operand grants tokens members m) (plain_on p) p.
Proof.
  intros Hp Hc ((Hneg&Hops)&Hbelow). unfold expr_operand. rewrite Hneg. pose proof (kind_no_sum p Hp) as (Hm&_). msteps; [done..| |].
  - destruct (_ <=? _); [by apply plain_fails; [|pos]|]. apply meets_ret. split_and!; [done|pos|]. split; [by split; [|apply not_elem_of_nil]|]. by constructor.
  - apply meets_bind. eapply meets_weaken; [by apply plain_primary|]. intros [v|] p1 (H1&Hc1); msteps; [|by split_and!].
    apply meets_bind, meets_lift; [by eexists|]. intros w _. by apply plain_push.
Qed.
Lemma plain_operator m p : ok p → 0 < pr_current p → plain m → meets (expr_operator grants tokens m) (plain_on p) p.
Proof.
  intros Hp Hc ((Hneg&Hops)&Hbelow). pose proof (ok_inside _ _ _ _ _ Hp) as Hin. unfold expr_operator. apply meets_bind. eapply meets_eq; [apply (next_op_eq tokens _ Hin)|].
  destruct (reduce_defined (λ top, op_rank (op_here tokens (pr_current p)) <=? op_rank top) (xf_ops (xm_frame m)) (xf_values (xm_frame m)) Hops) as (r&Er&Hr).
  apply meets_bind, meets_lift; [by eexists|]. intros r' E'. rewrite Er in E'. injection E' as <-. destruct r as [[vs os]|]; [|by apply plain_fails].
  specialize (Hr _ _ eq_refl). case_bool_decide as Hnone.
  - unfold close_frame. destruct (xm_below m) as [|f below]; [by apply meets_ret; split_and!|]. apply Forall_cons in Hbelow as ((Hf&Hfo)&Hbelow). rewrite Hf.
    msteps; (apply meets_bind, meets_lift; [by eexists|]; intros w _; apply plain_push; [done|pos|done|done]).
  - destruct (_ <=? _); [by apply plain_fails|]. pose proof (op_here_at tokens (pr_current p)) as Hop. destruct (kind_no_sum p Hp) as (_&Hl).
    destruct (op_here tokens (pr_current p)) eqn:Eo; [done| | |destruct Hop as (j&Hj&_); done].
    all: destruct Hop as (j&Hj); destruct (op_advance tokens _ _ _ Hin Hj) as (Ea&Hrange); rewrite bool_decide_false in Ea |- * by done; destruct Hj as (Hk&_).
    all: msteps; split_and!; [done|pos|]; (split; [split; [done|]|done]); cbn [xf_ops xm_frame]; by apply not_elem_of_cons.
Qed.
Lemma plain_step members m p : ok p → 0 < pr_current p → plain m → meets (expr_step grants tokens members m) (plain_on p) p.
Proof. intros. unfold expr_step. destruct (xm_state m); [by apply plain_operand|by apply plain_operator]. Qed.

Lemma plain_run members fuel : ∀ m p, ok p → 0 < pr_current p → plain m → expr_measure tokens m p < Z.of_nat fuel → is_Some (expr_run grants tokens fuel members m p).
Proof.
  induction fuel as [|fuel IH]; intros m p Hp Hc Hm Hf.
  { pose proof (ok_range grants tokens schema c0 p Hp). unfold expr_measure in Hf. pose proof (zlen_nonneg (xm_below m)). lia. }
  cbn [expr_run]. unfold mbind, C_bind. pose proof (plain_step members m p Hp Hc Hm) as Hs. pose proof (step_ensures grants tokens members m p (ok_parser _ _ _ _ _ Hp)) as Hd.
  unfold ParseSteps.meets in Hs. destruct (expr_step grants tokens members m p) as [[[m'|v] p']|] eqn:E; [|by eexists|done].
  destruct Hs as (Hp'&Hc'&Hm'). destruct (Hd _ _ E) as (_&Hlt). by apply IH; [| | |lia].
Qed.

(** Their expressions and their numbers behind signs are in the range of 64 bits. *)
Lemma no_sums_expressions : ExpressionsDefined grants tokens schema c0 False.
Proof.
  intros members p Hp Hc _ E. destruct (plain_run members (expr_fuel tokens) (mkExpr EXPR_STATE_OPERAND empty_frame []) p Hp Hc) as ([v p']&E'); [| |unfold bebop__parse_expression in E; congruence].
  - split; [|done]. split; [done|apply not_elem_of_nil].
  - unfold expr_measure, expr_fuel, parse_fuel. cbn [xm_below]. unfold zlen. cbn [length]. lia.
Qed.
Lemma no_sums_minus : MinusDefined tokens c0 False.
Proof.
  intros i Hi Hk. exfalso. revert Hk. unfold kind_at, tok_at. destruct (tokens !! Z.to_nat (i - 1)) as [t|] eqn:E; [|done]. cbn. intros Hk.
  unfold no_sums in Hno. rewrite Forall_lookup in Hno. by destruct (Hno _ _ E).
Qed.
End Sums.

(** ** The parser *)

(** A value that C does not define is computed for the schema: the negation of a number past
    64 bits, or an expression with a shift or negation that leaves them. *)
Definition leaves_64_bits {cc : Context} {Hg : ContextGrants} {dm : DefMap def_ptr} {ns : DefMap (option bebop_span_t)}
    (grants : nat → bool) (tokens : list bebop_token_t) (schema : schema_ptr) (c : ctx) : Prop :=
  (∃ i, 0 < i < zlen tokens ∧ kind_at tokens (i - 1) = BEBOP_TOKEN_MINUS ∧ kind_at tokens i = BEBOP_TOKEN_NUMBER ∧
    bebop_util_parse_int (45 :: ParseTypeSpec.text tokens (ctx_str c) i) = None) ∨
  (∃ members p, ParseSteps.ok grants tokens schema c p ∧ 0 < pr_current p ∧ kind_at tokens (pr_current p - 1) = BEBOP_TOKEN_EQUALS ∧
    bebop__parse_expression grants tokens members p = None).

Section Parser.
Context {cc : Context} {Hcc : ContextOk} {Hg : ContextGrants}.
Context {dm : DefMap def_ptr} {Hdm : DefMapOk} {Hdefs : Inserts dm}.
Context {ns : DefMap (option bebop_span_t)} {Hns : DefMapOk} {Hnames : Inserts ns}.
Context {lc : Libc} (grants : nat → bool) (env : env_t) (tokens : list bebop_token_t) (source : list Z) (trivia : list bebop_trivia_t).
Context (schema : schema_ptr).

Lemma leaves_minus c : MinusDefined tokens c (leaves_64_bits grants tokens schema c).
Proof. intros i Hi Hm Hn E. left. by exists i. Qed.
Lemma leaves_expressions c : ExpressionsDefined grants tokens schema c (leaves_64_bits grants tokens schema c).
Proof. intros members p Hp Hc Hk E. right. by exists members, p. Qed.
Lemma no_sums_stay c : scanned tokens source trivia c → no_sums tokens → ¬ leaves_64_bits grants tokens schema c.
Proof.
  intros Hsk Hno [(i&Hi&Hm&Hn&E)|(members&p&Hp&Hc&Hk&E)].
  - exact (no_sums_minus tokens c Hno i Hi Hm Hn E).
  - exact (no_sums_expressions grants tokens source trivia schema c Hno members p Hp Hc Hk E).
Qed.

Lemma fresh_sema diagnostics error : diagnostics_ok diagnostics → is_Some bebop_defmap_new →
  ∃ sema, bebop_sema_init diagnostics error = (true, Some sema) ∧ sema_ok (mkBody None [] []) sema ∧ se_schema sema = diagnostics.
Proof.
  intros Hd (m&Em). unfold bebop_sema_init. rewrite Em. eexists. split; [done|]. split; [|done]. split; cbn [bo_def bo_names bo_indices]; try done.
  - intros k _. cbn. rewrite (defmap_find_new m k Em). split; [by intros [? ?]|by intros ?%not_elem_of_nil].
  - intros i Hi. exists 0. split; [|split; [set_solver|done]]. cbn [se_seen_indices]. apply lookup_replicate_2. lia.
Qed.

(** The parser of a scanned stream. *)
Lemma parse_tokens_ends diagnostics error r : scanned tokens source trivia (rg_ctx r) → registry_ok r → is_Some (rg_schemas r !! schema) →
  diagnostics_ok diagnostics → is_Some (@bebop_defmap_new _ ns) →
  (∃ p, bebop__parse_tokens_into grants env tokens source trivia schema diagnostics error r = Some (Some p) ∧ ended grants tokens p) ∨
  leaves_64_bits grants tokens schema (rg_ctx r).
Proof.
  intros Hsk Hr Hs Hd Hnew. destruct (fresh_sema diagnostics error Hd Hnew) as (sema&Ei&Hsema&Ed). unfold bebop__parse_tokens_into.
  pose proof (sk_ends _ _ _ _ Hsk) as (Hlen&init&eof&Htok&_).
  assert (Hpos : 0 < zlen tokens) by (rewrite Htok; unfold zlen; rewrite length_app; cbn [length]; lia).
  destruct tokens as [|t tokens'] eqn:Et; [done|]. rewrite Ei. rewrite <- Et in *.
  set (p0 := mkParser 0 false false false sema r BEBOP_PREAMBLE_START).
  assert (Hok : ParseSteps.ok grants tokens schema (rg_ctx r) p0).
  { split; [split|done..]; [unfold inside; cbn; lia|by eexists|by split]. }
  pose proof (leaves_minus (rg_ctx r)) as Hm. pose proof (leaves_expressions (rg_ctx r)) as He.
  pose proof (w_parse_file grants env tokens source trivia schema (rg_ctx r) _ p0 Hok eq_refl) as H0. unfold ParseSteps.meets in H0.
  destruct (bebop__parse_file grants env tokens source trivia schema p0) as [[[] p]|]; [|by right]. left. exists p. by split.
Qed.
End Parser.
