(* ===== verification/FrontEnd.v ===== *)
(** The scanner and the parser together: the stream of a scan is one that the parser's
    theorems ask for. *)
From Stdlib Require Import String Ascii.
From stdpp Require Import list gmap strings.
From S2P Require Import Prelude.
From S2P Require Import Unicode.
From S2P Require Import Scanner.
From S2P Require Import ScannerProps.
From S2P Require Import ScannerSpec.
From S2P Require Import Schema.
From S2P Require Import Literals.
From S2P Require Import FloatText.
From S2P Require Import Diagnostics.
From S2P Require Import Sema.
From S2P Require Import SemaProps.
From S2P Require Import Registry.
From S2P Require Import RegistryProps.
From S2P Require Import Parser.
From S2P Require Import ParserProps.
From S2P Require Import ParseTypeSpec.
From S2P Require Import ParseExpr.
From S2P Require Import ParseFile.
From S2P Require Import ParseSteps.
From S2P Require Import ParseTotal.

(** ** The stream of a scan *)

Section Stream.
Context {cc : Context} {Hcc : ContextOk} {Hg : ContextGrants}.
Context (source : list Z) (Hsrc : bytes_ok source) (Hlen : zlen source < 2 ^ 32 - 1).
Abbreviation tiles := (ScannerProps.tiles source).
Abbreviation span_ok := (ScannerProps.span_ok source).

Lemma tiles_split l1 l2 : ∀ a c, tiles a (l1 ++ l2) c → ∃ b, tiles a l1 b ∧ tiles b l2 c.
Proof.
  induction l1 as [|sp l1 IH]; intros a c; cbn [app ScannerProps.tiles]; [by exists a|]. intros (Ho&Hs&Ht). destruct (IH _ _ Ht) as (b&H1&H2). by exists b.
Qed.
Lemma tiles_le l : ∀ a b, tiles a l b → a ≤ b.
Proof. induction l as [|sp l IH]; intros a b; cbn [ScannerProps.tiles]; [lia|]. intros (_&(_&Hl&_)&Ht). specialize (IH _ _ Ht). lia. Qed.

(** The tokens of a stream that tiles the source: their spans are in order. *)
Lemma tokens_in_order T tokens : ∀ a b, tiles a (stream_spans T tokens) b →
  (∀ i t, tokens !! i = Some t → a ≤ off (tk_span t) ∧ Forall span_ok (token_spans T t)) ∧
  (∀ i j t u, (i ≤ j)%nat → tokens !! i = Some t → tokens !! j = Some u → off (tk_span t) ≤ off (tk_span u)) ∧
  (Forall (λ t, 0 < len (tk_span t)) tokens → zlen tokens ≤ b - a).
Proof.
  induction tokens as [|t tokens IH]; intros a b Ht.
  { split_and!; [by intros ? ? ?|by intros ? ? ? ? ? ?|]. intros _. change (a = b) in Ht. rewrite zlen_nil. lia. }
  unfold stream_spans in Ht. cbn [map concat] in Ht. apply tiles_split in Ht as (m&H1&H2). destruct (IH m b H2) as (I1&I2&I3).
  assert (Hall : Forall span_ok (token_spans T t)) by (by eapply tiles_spans).
  unfold token_spans in H1. apply tiles_split in H1 as (o&L1&L2). pose proof (tiles_le _ _ _ L1). cbn [ScannerProps.tiles] in L2. destruct L2 as (Eo&(_&Hl&_)&L3).
  pose proof (tiles_le _ _ _ L3). split_and!.
  - intros [|i] u E; cbn in E; [injection E as <-; split; [lia|done]|]. destruct (I1 i u E). split; [lia|done].
  - intros [|i] [|j] u v Hij E1 E2; cbn in E1, E2; simplify_eq; try lia.
    + destruct (I1 j v E2). lia.
    + eapply (I2 i j); [lia|done..].
  - intros [Hpos Hf]%Forall_cons. rewrite zlen_cons. specialize (I3 Hf). lia.
Qed.
Lemma tok_lookup tokens i : 0 ≤ i < zlen tokens → tokens !! Z.to_nat i = Some (tok_at tokens i).
Proof. intros Hi. unfold tok_at. destruct (lookup_lt_is_Some_2 tokens (Z.to_nat i)) as (t&->); [unfold zlen in Hi; lia|done]. Qed.

Lemma digit_parses t : BEBOP_IS_DIGIT (default 0 (head t)) = true → bebop_util_parse_int t ≠ None.
Proof.
  destruct t as [|c t]; [done|]. cbn [head default]. intros Hd. unfold bebop_util_parse_int.
  destruct (Z.eqb_spec c 45) as [->|]; [done|]. cbn [orb]. destruct (parse_magnitude _) as [[v o]|]; [|done]. destruct o; [done|]. by destruct (_ <? _).
Qed.

Lemma scan_scanned tokens s : stream_ok source tokens s → ends_eof source tokens s → scanned tokens source (sc_trivia s) (sc_ctx s).
Proof.
  intros [Hi _ Ht Hsl Htk Hx] (init&eof&->&Hk&_&_&Hno&_). set (tokens := init ++ [eof]) in *. pose proof (iv_pos _ _ Hi).
  destruct (tokens_in_order _ _ _ _ Ht) as (Hspans&Horder&_).
  assert (Hn : zlen init ≤ zlen source).
  { unfold stream_spans, tokens in Ht. rewrite map_app, concat_app in Ht. apply tiles_split in Ht as (b&H1&H2). pose proof (tiles_le _ _ _ H2).
    destruct (tokens_in_order _ _ _ _ H1) as (_&_&Hle). rewrite Hle; [lia|]. apply Forall_app in Htk as (Htk&_). rewrite Forall_forall in Hno, Htk |- *. intros t Hin. apply (Htk t Hin). by apply Hno. }
  assert (Hat : ∀ i, 0 ≤ i < zlen tokens → token_ok source (sc_ctx s) (tok_at tokens i) ∧ slices_in (sc_trivia s) (tok_at tokens i) ∧ Forall span_ok (token_spans (sc_trivia s) (tok_at tokens i))).
  { intros i Hr. pose proof (tok_lookup _ _ Hr) as E. rewrite Forall_lookup in Hsl, Htk. destruct (Hspans _ _ E). split_and!; [by eapply Htk|by eapply Hsl|done]. }
  assert (Htext : ∀ i, 0 ≤ i < zlen tokens → has_lexeme (kind_at tokens i) = true → ∃ t, text_ok source (tk_span (tok_at tokens i)) (kind_at tokens i) t ∧ ctx_str (sc_ctx s) (tk_lexeme (tok_at tokens i)) = Some t).
  { intros i Hr Hh. destruct (Hat i Hr) as ([_ _ Hlex]&_). destruct (Hlex Hh) as (t&Htext&Hres&Hnull). exists t. split; [done|]. apply Hres; [apply cg_ended|]. apply Hnull, cg_intern. }
  split.
  - split; [unfold tokens; rewrite zlen_app, zlen_cons, zlen_nil; lia|]. by exists init, eof.
  - lia.
  - done.
  - intros i Hr. split.
    + intros Hkind. destruct (Htext i Hr) as (t&_&E); [by destruct Hkind as [-> | ->]|]. unfold text. by rewrite E.
    + intros Hkind. destruct (Htext i Hr) as (t&Hok&E); [by rewrite Hkind|]. rewrite Hkind in Hok. unfold text. rewrite E. apply digit_parses, Hok.
  - intros i Hr Hid. destruct (Htext i Hr) as (t&_&E); [|by eexists]. revert Hid. unfold bebop__token_is_ident_or_keyword.
    destruct (kind_at tokens i); vm_compute; congruence.
  - intros i Hr. destruct (Hat i Hr) as (_&_&Hs). unfold token_spans in Hs. apply Forall_app in Hs as (_&((?&?&?&_)&_)%Forall_cons). done.
  - intros i j Hij Hj. eapply (Horder (Z.to_nat i) (Z.to_nat j)); [lia|apply tok_lookup; lia..].
  - intros i Hr. destruct (Hat i Hr) as (_&(Hl&_)&Hs). split; [done|]. intros t Hin Hdoc. unfold token_spans in Hs. apply Forall_app in Hs as (Hs&_).
    rewrite Forall_forall in Hs. destruct (Hs (tv_span t)) as (?&?&?&_). { apply list_elem_of_In, in_map, list_elem_of_In, Hin. }
    unfold comment_text. rewrite load_bytes_in by lia. by eexists.
Qed.
End Stream.

(** ** A schema from its text *)


Module Text.
#[local] Existing Instance list_context.
#[local] Existing Instance list_context_ok.
(** A package, a struct, a union and a message that is not finished. *)
Definition text : list Z := chars "package a; struct P { x: int32; y: P[]; } union U { A(1): { s: string; }; } message"%string.
Definition start : registry_t := mkRegistry ([] : list (list Z)) [] [mkSchemaT 0 no_span [] ∅ [] 0 [] 0 0 0].
Lemma start_ok : registry_ok start.
Proof.
  split; [by intros [] d|by intros [] d q|by intros [] d q|]. intros [|s] sc E; [|destruct s; discriminate E]. injection E as <-.
  split; cbn; [by intros p ?%not_elem_of_nil..| |by intros imp t ?%not_elem_of_nil]. intros k p E. cbn in E. by rewrite lookup_empty in E.
Qed.

(** ** What schemas become *)

(** The full names of the definitions and the handles of their documentation, the codes and
    places of the diagnostics, and the package. *)
Definition outcome (source : string) : option (list (list Z * Z) * list (Z * Z) * list (list Z)) :=
  '(tokens, s) ← bebop__scan_with_schema (chars source) true (rg_ctx start);
  o ← bebop__parse_tokens_into (λ _, true) [] tokens (chars source) (sc_trivia s) 0%nat no_diagnostics false (set_ctx (sc_ctx s) start);
  p ← o;
  let r := pr_registry p in
  let str i := default [] (ctx_str (rg_ctx r) i) in
  Some (map (λ d, (str (df_fqn d), df_documentation d)) (rg_defs r), map (λ d, (di_code d, off (di_span d))) (ds_diagnostics (se_schema (pr_sema p))),
    map (λ sc, str (sch_package sc)) (rg_schemas r)).

(** Two definitions of one full name, without a report. *)
Example nested_twice : outcome "message M { struct A { x: int32; } struct A { y: bool; } }" = Some ([(chars "M", 0); (chars "M.A", 0); (chars "M.A", 0)], [], [[]]).
Proof. vm_compute. reflexivity. Qed.
(** Two definitions with different full names, and a report (101: definition already exists). *)
Example nested_like_outer : outcome "struct A { x: int32; } message M { struct A { y: bool; } }" = Some ([(chars "A", 0); (chars "M", 0); (chars "M.A", 0)], [(101, 42)], [[]]).
Proof. vm_compute. reflexivity. Qed.
(** The comment before [mut] is lost. *)
Example documentation_lost : outcome (String.append "/// d" (String "010" "mut struct B { }")) = Some ([(chars "B", 0)], [], [[]]).
Proof. vm_compute. reflexivity. Qed.
(** Before the keyword it is kept. *)
Example documentation_kept : outcome (String.append "/// d" (String "010" "struct B { }")) = Some ([(chars "B", 3)], [], [[]]).
Proof. vm_compute. reflexivity. Qed.
(** The package of a name that is wrong is the part before the error. *)
Example half_a_package : outcome "package a.b.1; struct P {}" = Some ([(chars "a.b.P", 0)], [(104, 12)], [chars "a.b"]).
Proof. vm_compute. reflexivity. Qed.
(** The head of a nested definition is wrong: what follows is read as a file, and the rest of
    the definition around it is reported. *)
Example nested_head : outcome "message M { struct 5 { y: bool; } a(1): int32; } struct Z { }" =
  Some ([(chars "M", 0); (chars "M.Z", 0)], [(104, 19); (104, 32); (104, 47); (104, 60)], [[]]).
Proof. vm_compute. reflexivity. Qed.
End Text.
