(* ===== verification/Paths.v ===== *)
(** Paths of the compiler driver ([bebopc/src/bebopc_dir.c] and [bebopc/src/bebopc_utils.c]),
    in the build for POSIX hosts.  A path is its bytes, without the zero at the end; a null
    pointer is [None].  Memory comes from the C library, and a request may be refused: the
    state of an operation counts the requests, and a class says which ones are granted. *)
From stdpp Require Import list.
From S2P Require Import Prelude.

(** Which requests for memory the host grants. *)
Class Malloc := malloc_grants : nat → bool.
#[export] Instance malloc_always : Malloc := λ _, true.

Section Requests.
Context {host : Malloc}.
Definition request : C nat bool := λ n, Some (malloc_grants n, S n).
Definition bebopc_strdup (s : option (list Z)) : C nat (option (list Z)) :=
  match s with None => mret None | Some s => ok ← request; mret (if ok : bool then Some s else None) end.
Definition bebopc_strndup (s : option (list Z)) (n : nat) : C nat (option (list Z)) :=
  match s with None => mret None | Some s => ok ← request; mret (if ok : bool then Some (take n s) else None) end.
End Requests.

(** ** Characters *)

Definition is_sep (c : Z) : bool := (c =? 47) || (c =? 92).
Definition BEBOPC_TOLOWER (c : Z) : Z := if (65 <=? c) && (c <=? 90) then c + 32 else c.
Definition BEBOPC_CHAR_IEQ (a b : Z) : bool := BEBOPC_TOLOWER a =? BEBOPC_TOLOWER b.

(** ** Parts of a path *)

(** [while (len > least && keep(path[len - 1])) len--] *)
Fixpoint trim_end (least : nat) (drops : Z → bool) (path : list Z) (len : nat) : nat :=
  match len with
  | O => O
  | S len' => if (least <? len)%nat && drops (nth len' path 0) then trim_end least drops path len' else len
  end.

Definition bebopc_path_is_absolute (path : option (list Z)) : bool :=
  match path with Some (c :: _) => c =? 47 | _ => false end.

(** The string behind the last character that passes [at_]. *)
Fixpoint after_last (at_ : Z → bool) (last p : list Z) : list Z :=
  match p with
  | [] => last
  | c :: p => after_last at_ (if at_ c then p else last) p
  end.
Definition bebopc_path_basename (path : option (list Z)) : option (list Z) :=
  match path with None => None | Some path => Some (after_last is_sep path path) end.

Fixpoint last_dot (dot : option (list Z)) (p : list Z) : option (list Z) :=
  match p with
  | [] => dot
  | c :: p' => last_dot (if c =? 46 then Some p else dot) p'
  end.
Definition _bebopc_path_ext (name : list Z) : list Z :=
  match last_dot None name with Some dot => tail dot | None => [] end.
Definition bebopc_path_extension (path : option (list Z)) : option (list Z) :=
  match bebopc_path_basename path with None => None | Some name => Some (_bebopc_path_ext name) end.

(** Without the attributes of other hosts. *)
Definition bebopc_path_is_hidden (path : option (list Z)) : bool :=
  match bebopc_path_basename path with Some (c :: _) => c =? 46 | _ => false end.
Definition bebopc_path_has_separator (path : option (list Z)) : bool :=
  match path with None => false | Some path => existsb (λ c, c =? 47) path || existsb (λ c, c =? 92) path end.

(** ** New paths *)

Section Paths.
Context {host : Malloc}.

Definition bebopc_path_join (dir file : option (list Z)) : C nat (option (list Z)) :=
  match dir, file with
  | Some dir, Some file =>
      let dir_len := trim_end 0 is_sep dir (length dir) in
      ok ← request;
      mret (if ok : bool then Some (take dir_len dir ++ 47 :: file) else None)
  | _, _ => mret None
  end.

Definition bebopc_path_dirname (path : option (list Z)) : C nat (option (list Z)) :=
  match path with
  | None => mret None
  | Some s =>
      let len := length s in
      if (len =? 0)%nat then bebopc_strdup (Some [46])
      else
        let len := trim_end 0 is_sep s len in
        let len := trim_end 0 (λ c, negb (is_sep c)) s len in
        if (len =? 0)%nat then bebopc_strdup (Some [46])
        else bebopc_strndup path (trim_end 1 is_sep s len)
  end.

(** The loop over the characters; [result] is written from its start. *)
Fixpoint normalize_loop (path result : list Z) : list Z :=
  match path with
  | [] => result
  | c :: path =>
      let c := if c =? 92 then 47 else c in
      if is_sep c && (0 <? length result)%nat && is_sep (nth (length result - 1) result 0) then normalize_loop path result
      else normalize_loop path (result ++ [c])
  end.
Definition bebopc_path_normalize (path : option (list Z)) : C nat (option (list Z)) :=
  match path with
  | None => mret None
  | Some path =>
      ok ← request;
      mret (if ok : bool then
              let result := normalize_loop path [] in
              let j := length result in
              Some (take (if (1 <? j)%nat && is_sep (nth (j - 1) result 0) then j - 1 else j) result)
            else None)
  end.

Fixpoint skip_seps (rel : list Z) : list Z :=
  match rel with
  | c :: rest => if is_sep c then skip_seps rest else rel
  | [] => []
  end.
Definition bebopc_path_relative (base path : option (list Z)) : C nat (option (list Z)) :=
  match base, path with
  | Some base, Some path =>
      let base_len := trim_end 0 is_sep base (length base) in
      if (length path <? base_len)%nat || negb (bool_decide (take base_len path = take base_len base)) then bebopc_strdup (Some path)
      else
        match drop base_len path with
        | c :: _ as rest => if is_sep c then bebopc_strdup (Some (skip_seps rest)) else bebopc_strdup (Some path)
        | [] => bebopc_strdup (Some [])
        end
  | _, _ => mret None
  end.
End Paths.
