(* ===== verification/Glob.v ===== *)
(** Patterns for files ([bebopc/src/bebopc_glob.c]): the match of a segment with wildcards,
    of a path with double stars, patterns that include and exclude, and the search of a
    directory.  Strings are their bytes, without the zero at the end; the directories of the
    host are a parameter. *)
From stdpp Require Import list.
From S2P Require Import Prelude.
From S2P Require Import Paths.

Definition star : Z := 42.
Definition question : Z := 63.

(** ** One segment *)

Definition _glob_char_eq (a b : Z) (case_sensitive : bool) : bool := if case_sensitive then a =? b else BEBOPC_CHAR_IEQ a b.

(** The loop: the rest of the pattern, the rest of the name, and what follows the last star
    together with the rest of the name when it was met.  The answer is the rest of the
    pattern at the end of the name, none for a mismatch. *)
Fixpoint segment_loop (case_sensitive : bool) (fuel : nat) (p n : list Z) (star_at : option (list Z * list Z)) : option (option (list Z)) :=
  match fuel with
  | O => None
  | S fuel =>
      match n with
      | [] => Some (Some p)
      | c :: n' =>
          let retry :=
            match star_at with
            | Some (after, m) => segment_loop case_sensitive fuel after (tail m) (Some (after, tail m))
            | None => Some None
            end in
          match p with
          | a :: p' =>
              if a =? star then segment_loop case_sensitive fuel p' n (Some (p', n))
              else if (a =? question) || _glob_char_eq a c case_sensitive then segment_loop case_sensitive fuel p' n' star_at
              else retry
          | [] => retry
          end
      end
  end.
Fixpoint skip_stars (p : list Z) : list Z :=
  match p with
  | a :: p' => if a =? star then skip_stars p' else p
  | [] => []
  end.
Definition segment_fuel (pattern name : list Z) : nat := S (S (length name) * S (length pattern)).
Definition _glob_match_segment_n (pattern name : list Z) (case_sensitive : bool) : option bool :=
  r ← segment_loop case_sensitive (segment_fuel pattern name) pattern name None;
  Some (match r with Some p => match skip_stars p with [] => true | _ => false end | None => false end).
Definition _glob_match_segment (pattern name : list Z) (case_sensitive : bool) : option bool := _glob_match_segment_n pattern name case_sensitive.

Definition _glob_is_double_star (segment : list Z) : bool := bool_decide (segment = [star; star]).

(** ** Paths *)

(** The segments between separators. *)
Fixpoint split_loop (path segment : list Z) : list (list Z) :=
  match path with
  | [] => [segment]
  | c :: path => if is_sep c then segment :: split_loop path [] else split_loop path (segment ++ [c])
  end.
Definition not_empty (segment : list Z) : bool := (0 <? length segment)%nat.

Section Segments.
Context (pattern_segs path_segs : list (list Z)) (case_sensitive : bool).
(** The answers so far, one byte for each pair of places, when there was memory for them. *)
Abbreviation M := (C (option (list Z))).
Abbreviation path_count := (zlen path_segs).

Definition memo_idx (pi si : nat) : Z := u64 (Z.of_nat pi * (path_count + 1) + Z.of_nat si).
Definition memo_get (i : Z) : M Z := λ memo,
  match memo with None => Some (0, memo) | Some m => b ← m !! Z.to_nat i; Some (b, memo) end.
Definition memo_set (i : Z) (b : Z) : M unit := λ memo,
  match memo with
  | None => Some (tt, memo)
  | Some m => if (Z.to_nat i <? length m)%nat then Some (tt, Some (<[Z.to_nat i := b]> m)) else None
  end.

(** The loop over the segments; [again] is the call at a double star. *)
Fixpoint segments_loop (again : nat → nat → M bool) (fuel : nat) (pi si : nat) : M bool :=
  match fuel with
  | O => ub
  | S fuel =>
      match pattern_segs !! pi, path_segs !! si with
      | Some a, Some x =>
          if _glob_is_double_star a then
            none ← again (S pi) si;
            if (none : bool) then mret true else again pi (S si)
          else
            same ← lift (_glob_match_segment_n a x case_sensitive);
            if (same : bool) then segments_loop again fuel (S pi) (S si) else mret false
      | _, _ =>
          let rest := drop pi pattern_segs in
          mret (forallb _glob_is_double_star rest && (si =? length path_segs)%nat)
      end
  end.
Fixpoint _glob_match_segments (fuel : nat) (pi si : nat) : M bool :=
  match fuel with
  | O => ub
  | S fuel =>
      known ← memo_get (memo_idx pi si);
      if negb (known =? 0) then mret (known =? 1)
      else
        matched ← segments_loop (_glob_match_segments fuel) (S (length path_segs)) pi si;
        memo_set (memo_idx pi si) (if (matched : bool) then 1 else 2);;
        mret matched
  end.
(** A call inside of a call stands further on, in the pattern or in the path. *)
Definition segments_fuel : nat := S (length pattern_segs + length path_segs).
End Segments.

Section Glob.
Context {host : Malloc}.

Definition _glob_split_path (path : option (list Z)) : C nat (list (list Z)) :=
  match path with
  | None | Some [] => mret []
  | Some path =>
      segments ← request;
      lengths ← request;
      mret (if segments && lengths then filter (λ s, Is_true (not_empty s)) (split_loop path []) else [])
  end.

(** ** Patterns *)

Record bebopc_glob_config_t : Type := mkGlobConfig { gc_case_sensitive : bool; gc_preserve_order : bool; gc_follow_symlinks : bool }.
Definition BEBOPC_GLOB_CONFIG_DEFAULT : bebopc_glob_config_t := mkGlobConfig false false false.
Inductive bebopc_glob_pattern_type_t : Set := BEBOPC_GLOB_PATTERN_INCLUDE | BEBOPC_GLOB_PATTERN_EXCLUDE.
#[export] Instance pattern_type_eq : EqDecision bebopc_glob_pattern_type_t.
Proof. solve_decision. Defined.
Record bebopc_glob_pattern_t : Type := mkGlobPattern { gp_pattern : list Z; gp_type : bebopc_glob_pattern_type_t }.
Record bebopc_glob : Type := mkGlob { gl_config : bebopc_glob_config_t; gl_patterns : list bebopc_glob_pattern_t; gl_pattern_capacity : Z }.
Inductive bebopc_error_code_t : Set := BEBOPC_OK | BEBOPC_ERR_INVALID_ARG | BEBOPC_ERR_OUT_OF_MEMORY.
#[export] Instance error_code_eq : EqDecision bebopc_error_code_t.
Proof. solve_decision. Defined.

Definition bebopc_glob_new (config : bebopc_glob_config_t) : C nat (option bebopc_glob) :=
  ok ← request; mret (if ok : bool then Some (mkGlob config [] 0) else None).

(** The glob comes back as it is left. *)
Definition _glob_pattern_add (glob : option bebopc_glob) (pattern : option (list Z)) (type : bebopc_glob_pattern_type_t) : C nat (bebopc_error_code_t * option bebopc_glob) :=
  match glob, pattern with
  | Some g, Some _ =>
      room ← (if gl_pattern_capacity g <=? zlen (gl_patterns g) then
                ok ← request;
                mret (if ok : bool then Some (mkGlob (gl_config g) (gl_patterns g) (if gl_pattern_capacity g =? 0 then 8 else u64 (gl_pattern_capacity g * 2))) else None)
              else mret (Some g));
      match room with
      | None => mret (BEBOPC_ERR_OUT_OF_MEMORY, glob)
      | Some g =>
          copy ← bebopc_strdup pattern;
          match copy with
          | None => mret (BEBOPC_ERR_OUT_OF_MEMORY, Some g)
          | Some copy => mret (BEBOPC_OK, Some (mkGlob (gl_config g) (gl_patterns g ++ [mkGlobPattern copy type]) (gl_pattern_capacity g)))
          end
      end
  | _, _ => mret (BEBOPC_ERR_INVALID_ARG, glob)
  end.
Definition bebopc_glob_include (glob : option bebopc_glob) (pattern : option (list Z)) : C nat (bebopc_error_code_t * option bebopc_glob) :=
  _glob_pattern_add glob pattern BEBOPC_GLOB_PATTERN_INCLUDE.
Definition bebopc_glob_exclude (glob : option bebopc_glob) (pattern : option (list Z)) : C nat (bebopc_error_code_t * option bebopc_glob) :=
  _glob_pattern_add glob pattern BEBOPC_GLOB_PATTERN_EXCLUDE.
Fixpoint add_many (type : bebopc_glob_pattern_type_t) (glob : option bebopc_glob) (patterns : list (option (list Z))) : C nat (bebopc_error_code_t * option bebopc_glob) :=
  match patterns with
  | [] => mret (BEBOPC_OK, glob)
  | pattern :: patterns =>
      '(err, glob) ← _glob_pattern_add glob pattern type;
      if bool_decide (err = BEBOPC_OK) then add_many type glob patterns else mret (err, glob)
  end.
Definition bebopc_glob_include_many := add_many BEBOPC_GLOB_PATTERN_INCLUDE.
Definition bebopc_glob_exclude_many := add_many BEBOPC_GLOB_PATTERN_EXCLUDE.

(** ** Matching *)

(** The byte array for the answers, zeroed. *)
Definition new_memo (pattern_count path_count : Z) : C nat (option (list Z)) :=
  ok ← request; mret (if ok : bool then Some (replicate (Z.to_nat (u64 ((pattern_count + 1) * (path_count + 1)))) 0) else None).
Definition bebopc_glob_match (glob : option bebopc_glob) (pattern path : option (list Z)) : C nat bool :=
  match pattern, path with
  | Some _, Some _ =>
      let case_sensitive := match glob with Some g => gc_case_sensitive (gl_config g) | None => false end in
      pattern_segs ← _glob_split_path pattern;
      path_segs ← _glob_split_path path;
      memo ← new_memo (zlen pattern_segs) (zlen path_segs);
      lift (fst <$> _glob_match_segments pattern_segs path_segs case_sensitive (segments_fuel pattern_segs path_segs) 0 0 memo)
  | _, _ => mret false
  end.
Definition bebopc_glob_match_segment (glob : option bebopc_glob) (pattern name : list Z) : option bool :=
  _glob_match_segment pattern name (match glob with Some g => gc_case_sensitive (gl_config g) | None => false end).

(** Whether a path is included and whether it is excluded, by the last pattern that matches... *)
Fixpoint decide_in_order (glob : bebopc_glob) (patterns : list bebopc_glob_pattern_t) (path : list Z) (included excluded : bool) : C nat (bool * bool) :=
  match patterns with
  | [] => mret (included, excluded)
  | pattern :: patterns =>
      matches ← bebopc_glob_match (Some glob) (Some (gp_pattern pattern)) (Some path);
      if (matches : bool) then
        match gp_type pattern with
        | BEBOPC_GLOB_PATTERN_INCLUDE => decide_in_order glob patterns path true false
        | BEBOPC_GLOB_PATTERN_EXCLUDE => decide_in_order glob patterns path false true
        end
      else decide_in_order glob patterns path included excluded
  end.
(** ... or by any pattern of each type. *)
Fixpoint any_matches (glob : bebopc_glob) (type : bebopc_glob_pattern_type_t) (patterns : list bebopc_glob_pattern_t) (path : list Z) : C nat bool :=
  match patterns with
  | [] => mret false
  | pattern :: patterns =>
      if bool_decide (gp_type pattern = type) then
        matches ← bebopc_glob_match (Some glob) (Some (gp_pattern pattern)) (Some path);
        if (matches : bool) then mret true else any_matches glob type patterns path
      else any_matches glob type patterns path
  end.
Definition glob_decide (glob : bebopc_glob) (path : list Z) : C nat (bool * bool) :=
  if gc_preserve_order (gl_config glob) then decide_in_order glob (gl_patterns glob) path false false
  else
    included ← any_matches glob BEBOPC_GLOB_PATTERN_INCLUDE (gl_patterns glob) path;
    excluded ← (if (included : bool) then any_matches glob BEBOPC_GLOB_PATTERN_EXCLUDE (gl_patterns glob) path else mret false);
    mret (included, excluded).
Definition bebopc_glob_filter (glob : option bebopc_glob) (path : option (list Z)) : C nat bool :=
  match glob, path with
  | Some g, Some s =>
      if zlen (gl_patterns g) =? 0 then mret false
      else '(included, excluded) ← glob_decide g s; mret (included && negb excluded)
  | _, _ => mret false
  end.

(** ** What looks like a pattern *)

(** Whether a bracket is closed. *)
Fixpoint bracket_closes (str : list Z) : bool :=
  match str with
  | [] => false
  | c :: rest =>
      if c =? 93 then true
      else if c =? 92 then match rest with _ :: rest => bracket_closes rest | [] => false end
      else bracket_closes rest
  end.
Fixpoint is_pattern_loop (str : list Z) : bool :=
  match str with
  | [] => false
  | c :: rest =>
      if (c =? 92) && (0 <? length rest)%nat then match rest with _ :: rest => is_pattern_loop rest | [] => false end
      else if (c =? star) || (c =? question) then true
      else if c =? 91 then
        let inside := match rest with d :: inside => if (d =? 33) || (d =? 94) then inside else rest | [] => rest end in
        if bracket_closes inside then true else is_pattern_loop rest
      else is_pattern_loop rest
  end.
Definition bebopc_glob_is_pattern (str : option (list Z)) : bool := match str with None => false | Some str => is_pattern_loop str end.

(** ** The search of a directory *)

Record bebopc_glob_result : Type := mkGlobResult { gr_matches : list (list Z); gr_capacity : Z }.
Definition _glob_result_push (result : bebopc_glob_result) (path : list Z) : C nat bebopc_glob_result :=
  room ← (if gr_capacity result <=? zlen (gr_matches result) then
            ok ← request; mret (if ok : bool then Some (if gr_capacity result =? 0 then 16 else u64 (gr_capacity result * 2)) else None)
          else mret (Some (gr_capacity result)));
  match room with
  | None => mret result
  | Some capacity =>
      copy ← bebopc_strdup (Some path);
      mret (mkGlobResult (match copy with Some copy => gr_matches result ++ [copy] | None => gr_matches result end) capacity)
  end.

Definition BEBOPC_GLOB_MAX_DEPTH : Z := 64.
(** What the host has in a directory, none when it cannot be opened: the name of each entry
    and whether it is a directory itself, none when the entry cannot be read. *)
Context (list_dir : list Z → option (list (option (list Z * bool)))).

Definition is_dot (name : list Z) : bool := bool_decide (name = [46]) || bool_decide (name = [46; 46]).
Definition entry_path (rel_path name : list Z) : C nat (option (list Z)) :=
  match rel_path with [] => bebopc_strdup (Some name) | _ => bebopc_path_join (Some rel_path) (Some name) end.
(** The entries in order; [down] searches a directory. *)
Fixpoint traverse_entries (glob : bebopc_glob) (down : list Z → bebopc_glob_result → C nat bebopc_glob_result) (rel_path : list Z)
    (entries : list (option (list Z * bool))) (result : bebopc_glob_result) : C nat bebopc_glob_result :=
  match entries with
  | [] => mret result
  | None :: entries => traverse_entries glob down rel_path entries result
  | Some (name, is_dir) :: entries =>
      if is_dot name then traverse_entries glob down rel_path entries result
      else
        path ← entry_path rel_path name;
        match path with
        | None => traverse_entries glob down rel_path entries result
        | Some path =>
            '(included, excluded) ← glob_decide glob path;
            result ← (if included && negb excluded && negb is_dir then _glob_result_push result path else mret result);
            result ← (if (is_dir : bool) then down path result else mret result);
            traverse_entries glob down rel_path entries result
        end
  end.
(** The levels that are left: [BEBOPC_GLOB_MAX_DEPTH + 1] at the start. *)
Fixpoint _glob_dir_traverse (levels : nat) (glob : bebopc_glob) (base_dir rel_path : list Z) (result : bebopc_glob_result) : C nat bebopc_glob_result :=
  match levels with
  | O => mret result
  | S levels =>
      full_path ← (match rel_path with [] => bebopc_strdup (Some base_dir) | _ => bebopc_path_join (Some base_dir) (Some rel_path) end);
      match full_path with
      | None => mret result
      | Some full_path =>
          match list_dir full_path with
          | None => mret result
          | Some entries => traverse_entries glob (_glob_dir_traverse levels glob base_dir) rel_path entries result
          end
      end
  end.
Definition bebopc_glob_execute (glob : option bebopc_glob) (directory : option (list Z)) : C nat (option bebopc_glob_result) :=
  match glob, directory with
  | Some g, Some dir =>
      ok ← request;
      if (ok : bool) then result ← _glob_dir_traverse (Z.to_nat (BEBOPC_GLOB_MAX_DEPTH + 1)) g dir [] (mkGlobResult [] 0); mret (Some result) else mret None
  | _, _ => mret None
  end.

Fixpoint join_all (directory : list Z) (matches : list (list Z)) : C nat (option (list (list Z))) :=
  match matches with
  | [] => mret (Some [])
  | m :: matches =>
      path ← bebopc_path_join (Some directory) (Some m);
      match path with
      | None => mret None
      | Some path => paths ← join_all directory matches; mret (option_map (cons path) paths)
      end
  end.
(** Null for no paths. *)
Definition bebopc_glob_paths (glob : option bebopc_glob) (directory : option (list Z)) : C nat (option (list (list Z))) :=
  result ← bebopc_glob_execute glob directory;
  match result, directory with
  | Some result, Some dir =>
      if zlen (gr_matches result) =? 0 then mret None
      else ok ← request; if (ok : bool) then join_all dir (gr_matches result) else mret None
  | _, _ => mret None
  end.

(** ** The files of a compilation ([bebopc/src/cli/bebopc_compile.c]) *)

Record collect_config_t : Type := mkCollectConfig { cc_sources : list (list Z); cc_exclude : list (list Z); cc_project_root : option (list Z) }.

Fixpoint add_all (type : bebopc_glob_pattern_type_t) (patterns : list (list Z)) (glob : option bebopc_glob) : C nat (option bebopc_glob) :=
  match patterns with
  | [] => mret glob
  | pattern :: patterns => '(_, glob) ← _glob_pattern_add glob (Some pattern) type; add_all type patterns glob
  end.
Fixpoint copy_all (files : list (list Z)) : C nat (option (list (list Z))) :=
  match files with
  | [] => mret (Some [])
  | f :: files =>
      copy ← bebopc_strdup (Some f);
      match copy with None => mret None | Some copy => copies ← copy_all files; mret (option_map (cons copy) copies) end
  end.
Definition search (includes excludes : list (list Z)) (root : list Z) : C nat (option (list (list Z))) :=
  glob ← bebopc_glob_new BEBOPC_GLOB_CONFIG_DEFAULT;
  match glob with
  | None => mret None
  | Some _ =>
      glob ← add_all BEBOPC_GLOB_PATTERN_INCLUDE includes glob;
      glob ← add_all BEBOPC_GLOB_PATTERN_EXCLUDE excludes glob;
      bebopc_glob_paths glob (Some root)
  end.
Definition bebopc_collect_files (cfg : option collect_config_t) (cli_files : list (list Z)) : C nat (option (list (list Z))) :=
  match cfg with
  | None => mret None
  | Some cfg =>
      if (0 <? length cli_files)%nat then
        if negb (existsb (λ f, bebopc_glob_is_pattern (Some f)) cli_files) then
          ok ← request; if (ok : bool) then copy_all cli_files else mret None
        else search cli_files (cc_exclude cfg) [46]
      else if zlen (cc_sources cfg) =? 0 then mret None
      else search (cc_sources cfg) (cc_exclude cfg) (default [46] (cc_project_root cfg))
  end.
End Glob.
