(* ===== verification/GlobProps.v ===== *)
(** What [Glob] promises: the loop over a segment with one place to come back to finds a match
    whenever there is one, so do the memoised calls over paths; filters and searches select
    the files they should. *)
From Stdlib Require Import String Ascii.
From stdpp Require Import list.
From S2P Require Import Prelude.
From S2P Require Import Paths.
From S2P Require Import Glob.

(** ** One segment *)

Section Wild.
Context (case_sensitive : bool).

(** A character of a pattern that stands for one character. *)
Definition stands_for (a c : Z) : Prop := a ≠ star ∧ (a = question ∨ _glob_char_eq a c case_sensitive = true).
(** The names that a pattern matches. *)
Inductive wild : list Z → list Z → Prop :=
  | wild_nil : wild [] []
  | wild_skip p n : wild p n → wild (star :: p) n
  | wild_take p c n : wild (star :: p) n → wild (star :: p) (c :: n)
  | wild_one a p c n : stands_for a c → wild p n → wild (a :: p) (c :: n).

Lemma wild_star_iff p n : wild (star :: p) n ↔ wild p n ∨ ∃ c n', n = c :: n' ∧ wild (star :: p) n'.
Proof.
  split.
  - intros H. inversion H as [|? ? Hp|? c n' Hp|? ? c n' (Hs&_)]; subst; [by left|right; by exists c, n'|done].
  - intros [H|(c&n'&->&H)]; by constructor.
Qed.
Lemma wild_one_iff a p c n : a ≠ star → wild (a :: p) (c :: n) ↔ stands_for a c ∧ wild p n.
Proof. intros Ha. split; [intros H; by inversion H|intros (?&?); by constructor]. Qed.
Lemma wild_star_app p x n : wild (star :: p) n → wild (star :: p) (x ++ n).
Proof. intros H. induction x as [|c x IH]; [done|]. by apply wild_take. Qed.
Lemma wild_star_inv p n : wild (star :: p) n → ∃ y z, n = y ++ z ∧ wild p z.
Proof.
  induction n as [|c n IH]; intros [H|(c'&n'&E&H)]%wild_star_iff.
  - by exists [], [].
  - done.
  - by exists [], (c :: n).
  - injection E as <- <-. destruct (IH H) as (y&z&->&Hz). by exists (c :: y), z.
Qed.
Lemma wild_plain a q : star ∉ a → ∀ n, wild (a ++ q) n → ∃ x z, n = x ++ z ∧ length x = length a ∧ wild q z.
Proof.
  induction a as [|b a IH]; intros Ha n H; [by exists [], n|]. apply not_elem_of_cons in Ha as (Hb&Ha). cbn in H.
  inversion H as [| | |? ? c n' _ Hn]; subst; [done..|]. destruct (IH Ha n' Hn) as (x&z&->&El&Hz). exists (c :: x), z. split_and!; [done|cbn; lia|done].
Qed.
Lemma skip_stars_nil p : skip_stars p = [] ↔ wild p [].
Proof.
  induction p as [|a p IH]; cbn [skip_stars]; [by split; [constructor|]|]. destruct (Z.eqb_spec a star) as [->|Ha].
  - rewrite IH, wild_star_iff. naive_solver.
  - split; [done|]. intros H. inversion H; congruence.
Qed.

(** A match from the place to come back to, later than the one that is tried. *)
Definition retries (star_at : option (list Z * list Z)) : Prop := ∃ q c m, star_at = Some (q, c :: m) ∧ wild (star :: q) m.
(** Since the last star as many characters of the pattern as of the name have been passed. *)
Definition since_star (star_at : option (list Z * list Z)) (p n : list Z) : Prop :=
  match star_at with None => True | Some (q, m) => ∃ a x, q = a ++ p ∧ m = x ++ n ∧ length a = length x ∧ star ∉ a end.
Definition accepts (r : option (list Z)) : Prop := match r with Some p => skip_stars p = [] | None => False end.

(** At another star the earlier one is not needed any more. *)
Lemma retries_dominated st p n : since_star st (star :: p) n → retries st → wild (star :: p) n.
Proof.
  intros Hs (q&c&m&->&H). destruct Hs as (a&x&->&Em&Hl&Ha). apply wild_star_inv in H as (y&z&->&H).
  apply wild_plain in H as (u&v&->&Hu&H); [|done]. assert (Hv : ∃ w, n = w ++ v).
  { exists (drop (length x) (c :: y ++ u)). assert (Hle : (length x ≤ length (c :: y ++ u))%nat) by (cbn; rewrite length_app; lia).
    transitivity (drop (length x) (x ++ n)); [by rewrite drop_app_length|]. rewrite <- Em, app_assoc, app_comm_cons. by rewrite drop_app_le. }
  destruct Hv as (w&->). by apply wild_star_app.
Qed.
Lemma retries_end st p : since_star st p [] → ¬ retries st.
Proof.
  intros Hs (q&c&m&->&H). destruct Hs as (a&x&->&Em&Hl&Ha). apply wild_star_inv in H as (y&z&->&H). apply wild_plain in H as (u&v&->&Hu&_); [|done].
  apply (f_equal length) in Em. cbn in Em. rewrite !length_app in Em. cbn in Em. lia.
Qed.

Definition loop_measure (P : nat) (p n : list Z) (st : option (list Z * list Z)) : nat :=
  length (match st with None => n | Some (_, m) => m end) * S P + length p.
Definition within (P : nat) (p : list Z) (st : option (list Z * list Z)) : Prop :=
  (length p ≤ P)%nat ∧ match st with None => True | Some (q, _) => (length q ≤ P)%nat end.

Lemma segment_loop_exact P fuel : ∀ p n st, since_star st p n → within P p st → (loop_measure P p n st < fuel)%nat →
  ∃ r, segment_loop case_sensitive fuel p n st = Some r ∧ (accepts r ↔ wild p n ∨ retries st).
Proof.
  induction fuel as [|fuel IH]; intros p n st Hs (Hp&Hq) Hf; [lia|]. cbn [segment_loop]. destruct n as [|c n].
  { exists (Some p). split; [done|]. cbn [accepts]. rewrite skip_stars_nil. pose proof (retries_end _ _ Hs). tauto. }
  assert (Hretry : (∀ a p', p = a :: p' → a ≠ star ∧ ¬ stands_for a c) →
    ∃ r, match st with Some (after, m) => segment_loop case_sensitive fuel after (tail m) (Some (after, tail m)) | None => Some None end = Some r ∧ (accepts r ↔ wild p (c :: n) ∨ retries st)).
  { intros Hno. assert (Hw : ¬ wild p (c :: n)).
    { intros H. destruct p as [|a p']; [inversion H|]. destruct (Hno a p' eq_refl) as (Ha&Hst). by apply wild_one_iff in H as (?&_). }
    destruct st as [[q m]|]; [|eexists; split; [done|]; cbn; split; [done|intros [?|(?&?&?&?&_)]; done]].
    destruct Hs as (a&x&->&->&Hl&Ha). destruct (IH (a ++ p) (tail (x ++ c :: n)) (Some (a ++ p, tail (x ++ c :: n)))) as (r&E&Hr).
    - exists [], []. split_and!; [done..|apply not_elem_of_nil].
    - by split.
    - unfold loop_measure in *. cbn in Hf |- *. assert (Hx : length (x ++ c :: n) = S (length (tail (x ++ c :: n)))) by (by destruct x). nia.
    - exists r. split; [done|]. rewrite Hr. assert (Hm : ∃ b m', x ++ c :: n = b :: m') by (destruct x; by eexists _, _). destruct Hm as (b&m'&Em). rewrite Em. cbn [tail].
      pose proof (wild_star_iff (a ++ p) m') as Hiff. unfold retries. split.
      + intros H. right. exists (a ++ p), b, m'. split; [done|]. apply Hiff. destruct H as [H|(q'&c'&m''&[= <- ->]&H)]; [by left|right; by exists c', m''].
      + intros [H|(q'&c'&m''&[= <- <- ->]&H)]; [done|]. apply Hiff in H as [H|(c''&m2&->&H)]; [by left|right]. by exists (a ++ p), c'', m2. }
  destruct p as [|a p]; [by apply Hretry|]. destruct (Z.eqb_spec a star) as [->|Ha].
  - destruct (IH p (c :: n) (Some (p, c :: n))) as (r&E&Hr).
    + exists [], []. split_and!; [done..|apply not_elem_of_nil].
    + cbn in Hp. split; lia.
    + unfold loop_measure in *. cbn [length] in Hp, Hf |- *. assert (Hn : (S (length n) ≤ length (match st with None => c :: n | Some (_, m) => m end))%nat).
      { destruct st as [[q m]|]; [|done]. destruct Hs as (?&x&_&->&_). rewrite length_app. cbn. lia. }
      nia.
    + exists r. split; [done|]. rewrite Hr. split.
      * intros [H|(q&c'&m&[= <- <- <-]&H)]; left; [by apply wild_skip|by apply wild_take].
      * intros [H|H]; [|apply (retries_dominated _ _ _ Hs) in H]; (apply wild_star_iff in H as [H|(c'&n'&[= <- <-]&H)]; [by left|right; by exists p, c, n]).
  - destruct ((a =? question) || _glob_char_eq a c case_sensitive) eqn:Em.
    + assert (Hone : stands_for a c). { split; [done|]. apply orb_prop in Em as [?%Z.eqb_eq|?]; auto. }
      destruct (IH p n st) as (r&E&Hr).
      * destruct st as [[q m]|]; [|done]. destruct Hs as (b&x&->&->&Hl&Hb). exists (b ++ [a]), (x ++ [c]). rewrite <- !app_assoc, !length_app. split_and!; [done..|cbn; lia|].
        rewrite elem_of_app, list_elem_of_singleton. naive_solver.
      * cbn in Hp. split; [lia|done].
      * unfold loop_measure in *. destruct st as [[q m]|]; cbn [length] in Hf |- *; nia.
      * exists r. split; [done|]. rewrite Hr. rewrite wild_one_iff by done. tauto.
    + apply Hretry. intros a' p' [= <- <-]. split; [done|]. intros (_&[->|Hc]); [done|]. rewrite Hc, orb_true_r in Em. done.
Qed.

(** A segment is matched exactly when its pattern stands for it. *)
Lemma match_segment_exact p n : ∃ b, _glob_match_segment_n p n case_sensitive = Some b ∧ (b = true ↔ wild p n).
Proof.
  destruct (segment_loop_exact (length p) (segment_fuel p n) p n None) as (r&E&Hr); [done|by split|unfold loop_measure, segment_fuel; cbn; lia|].
  unfold _glob_match_segment_n. rewrite E. eexists. split; [reflexivity|]. transitivity (accepts r).
  - destruct r as [p'|]; [|done]. cbn. by destruct (skip_stars p').
  - rewrite Hr. split; [|by left]. intros [H|(?&?&?&?&_)]; done.
Qed.
End Wild.

(** ** Paths *)

Section PathMatches.
Context (case_sensitive : bool).
(** A double star stands for any number of segments. *)
Inductive path_matches : list (list Z) → list (list Z) → Prop :=
  | path_nil : path_matches [] []
  | path_skip p s : path_matches p s → path_matches ([star; star] :: p) s
  | path_take p x s : path_matches ([star; star] :: p) s → path_matches ([star; star] :: p) (x :: s)
  | path_one a p x s : a ≠ [star; star] → wild case_sensitive a x → path_matches p s → path_matches (a :: p) (x :: s).

Lemma path_star_iff p x s : path_matches ([star; star] :: p) (x :: s) ↔ path_matches p (x :: s) ∨ path_matches ([star; star] :: p) s.
Proof.
  split.
  - intros H. inversion H as [|? ? Hp|? ? ? Hp|? ? ? ? Ha]; subst; [by left|by right|done].
  - intros [H|H]; by constructor.
Qed.
Lemma path_one_iff a p x s : a ≠ [star; star] → path_matches (a :: p) (x :: s) ↔ wild case_sensitive a x ∧ path_matches p s.
Proof. intros Ha. split; [intros H; by inversion H|intros (?&?); by constructor]. Qed.
Lemma path_no_segments p : path_matches p [] ↔ forallb _glob_is_double_star p = true.
Proof.
  induction p as [|a p IH]; cbn [forallb]; [by split; [|constructor]|]. unfold _glob_is_double_star at 1. case_bool_decide as Ha.
  - subst a. cbn [andb]. rewrite <- IH. split; [intros H; by inversion H|by constructor].
  - split; [intros H; by inversion H|done].
Qed.
Lemma path_no_pattern s : path_matches [] s ↔ s = [].
Proof. split; [intros H; by inversion H|intros ->; constructor]. Qed.
End PathMatches.

Section Segments.
Context (pattern_segs path_segs : list (list Z)) (case_sensitive : bool).
Context (Hsize : (zlen pattern_segs + 1) * (zlen path_segs + 1) < 2 ^ 64).
Abbreviation matches_from := (λ pi si, path_matches case_sensitive (drop pi pattern_segs) (drop si path_segs)).
Abbreviation inside := (λ pi si, (pi ≤ length pattern_segs)%nat ∧ (si ≤ length path_segs)%nat).

(** An entry that is written is the answer of its place. *)
Definition memo_ok (memo : option (list Z)) : Prop :=
  ∀ m, memo = Some m → zlen m = (zlen pattern_segs + 1) * (zlen path_segs + 1) ∧
    ∀ pi si b, inside pi si → m !! Z.to_nat (memo_idx path_segs pi si) = Some b → b = 0 ∨ (b = 1 ∧ matches_from pi si) ∨ (b = 2 ∧ ¬ matches_from pi si).

Lemma memo_idx_inside pi si : inside pi si →
  memo_idx path_segs pi si = Z.of_nat pi * (zlen path_segs + 1) + Z.of_nat si ∧
  0 ≤ memo_idx path_segs pi si < (zlen pattern_segs + 1) * (zlen path_segs + 1).
Proof.
  intros (Hp&Hs). assert (Hr : 0 ≤ Z.of_nat pi * (zlen path_segs + 1) + Z.of_nat si < (zlen pattern_segs + 1) * (zlen path_segs + 1)) by (unfold zlen in *; nia).
  assert (E : memo_idx path_segs pi si = Z.of_nat pi * (zlen path_segs + 1) + Z.of_nat si) by (unfold memo_idx, u64; apply Z.mod_small; lia).
  by rewrite E.
Qed.
Lemma memo_idx_inj pi si pi' si' : inside pi si → inside pi' si' → Z.to_nat (memo_idx path_segs pi si) = Z.to_nat (memo_idx path_segs pi' si') → pi = pi' ∧ si = si'.
Proof.
  intros H H' E. destruct (memo_idx_inside pi si H) as (E1&R1). destruct (memo_idx_inside pi' si' H') as (E2&R2).
  assert (Ei : Z.of_nat pi * (zlen path_segs + 1) + Z.of_nat si = Z.of_nat pi' * (zlen path_segs + 1) + Z.of_nat si') by lia.
  clear - H H' Ei. unfold zlen in *. destruct (lt_eq_lt_dec pi pi') as [[?|E]|?]; [nia|subst pi'; lia|nia].
Qed.

Lemma memo_get_computes memo pi si : memo_ok memo → inside pi si →
  computes (memo_get (memo_idx path_segs pi si)) (λ b memo', memo' = memo ∧ (b = 0 ∨ (b = 1 ∧ matches_from pi si) ∨ (b = 2 ∧ ¬ matches_from pi si))) memo.
Proof.
  intros Hm Hin. unfold memo_get. destruct memo as [m|]; [|exists 0, None; by auto]. destruct (Hm m eq_refl) as (Hl&Hb).
  destruct (memo_idx_inside pi si Hin) as (_&Hr). destruct (lookup_lt_is_Some_2 m (Z.to_nat (memo_idx path_segs pi si))) as (b&Eb); [unfold zlen in *; lia|].
  exists b, (Some m). rewrite Eb. split; [done|]. split; [done|]. by apply Hb.
Qed.
Lemma memo_set_computes memo pi si (matched : bool) : memo_ok memo → inside pi si → (matched = true ↔ matches_from pi si) →
  computes (memo_set (memo_idx path_segs pi si) (if matched then 1 else 2)) (λ _ memo', memo_ok memo') memo.
Proof.
  intros Hm Hin Hb. unfold memo_set. destruct memo as [m|]; [|by exists tt, None]. destruct (Hm m eq_refl) as (Hl&Hent).
  destruct (memo_idx_inside pi si Hin) as (_&Hr). assert (Hlt : (Z.to_nat (memo_idx path_segs pi si) < length m)%nat) by (unfold zlen in *; lia).
  exists tt. eexists. rewrite (proj2 (Nat.ltb_lt _ _) Hlt). split; [done|]. intros m' [= <-]. split; [unfold zlen in *; by rewrite length_insert|].
  intros pi' si' b Hin' Eb. destruct (decide (Z.to_nat (memo_idx path_segs pi si) = Z.to_nat (memo_idx path_segs pi' si'))) as [E|Hne].
  - destruct (memo_idx_inj _ _ _ _ Hin Hin' E) as (<-&<-). rewrite list_lookup_insert_eq in Eb by done. injection Eb as <-. right. destruct matched; [left|right]; (split; [done|]); [by apply Hb|].
    intros H. apply Hb in H. done.
  - rewrite list_lookup_insert_ne in Eb by done. by eapply Hent.
Qed.

Abbreviation answers := (λ pi si (b : bool) (memo' : option (list Z)), memo_ok memo' ∧ (b = true ↔ matches_from pi si)).

Lemma segments_loop_exact again fuel : ∀ pi si memo, memo_ok memo → inside pi si → (length path_segs - si < fuel)%nat →
  (∀ pi' si' memo', (pi ≤ pi')%nat → (si ≤ si')%nat → (pi + si < pi' + si')%nat → inside pi' si' → memo_ok memo' → computes (again pi' si') (answers pi' si') memo') →
  computes (segments_loop pattern_segs path_segs case_sensitive again fuel pi si) (answers pi si) memo.
Proof.
  induction fuel as [|fuel IH]; intros pi si memo Hm Hin Hf Hagain; [lia|]. cbn [segments_loop]. destruct Hin as (Hpi&Hsi).
  destruct (pattern_segs !! pi) as [a|] eqn:Ea.
  2: { apply lookup_ge_None_1 in Ea. apply computes_ret. split; [done|]. rewrite (drop_ge pattern_segs) by lia. cbn [forallb andb]. rewrite path_no_pattern, Nat.eqb_eq.
       split; [intros ->; by apply drop_ge|]. intros E. apply (f_equal length) in E. rewrite length_drop in E. cbn in E. lia. }
  destruct (path_segs !! si) as [x|] eqn:Ex.
  2: { apply lookup_ge_None_1 in Ex. apply computes_ret. split; [done|]. rewrite (drop_ge path_segs) by lia. replace si with (length path_segs) by lia. rewrite Nat.eqb_refl, andb_true_r. symmetry. apply path_no_segments. }
  pose proof (lookup_lt_Some _ _ _ Ea) as La. pose proof (lookup_lt_Some _ _ _ Ex) as Lx.
  unfold _glob_is_double_star. case_bool_decide as Hd.
  - subst a. eapply computes_bind; [apply (Hagain (S pi) si memo); [lia..|done]|]. intros [|] m1 (Hm1&H1).
    + apply computes_ret. split; [done|]. split; [intros _|done]. rewrite (drop_S _ _ _ Ea), (drop_S path_segs _ _ Ex). apply path_star_iff. left. rewrite <- (drop_S path_segs _ _ Ex). by apply H1.
    + eapply computes_weaken; [apply (Hagain pi (S si) m1); [lia..|done]|]. intros b m2 (Hm2&H2). split; [done|]. rewrite H2.
      rewrite (drop_S _ _ _ Ea), (drop_S path_segs _ _ Ex), path_star_iff, <- (drop_S path_segs _ _ Ex). split; [by right|]. intros [H|H]; [by apply H1 in H|done].
  - destruct (match_segment_exact case_sensitive a x) as (b&Eb&Hb). eapply computes_bind; [by eapply (computes_lift _ _ (λ b' m', b' = b ∧ m' = memo))|]. intros b' m' (->&->).
    assert (Hiff : matches_from pi si ↔ b = true ∧ matches_from (S pi) (S si)) by (rewrite (drop_S _ _ _ Ea), (drop_S path_segs _ _ Ex), path_one_iff, Hb by done; done).
    destruct b.
    + eapply computes_weaken; [apply IH; [done|lia|lia|]|].
      * intros pi' si' memo' ? ? ? ?. apply Hagain; [lia..|done].
      * intros b m1 (Hm1&H1). split; [done|]. rewrite H1, Hiff. tauto.
    + apply computes_ret. split; [done|]. rewrite Hiff. split; [done|by intros (?&_)].
Qed.

Lemma match_segments_exact fuel : ∀ pi si memo, memo_ok memo → inside pi si → (length pattern_segs + length path_segs < pi + si + fuel)%nat →
  computes (_glob_match_segments pattern_segs path_segs case_sensitive fuel pi si) (answers pi si) memo.
Proof.
  induction fuel as [|fuel IH]; intros pi si memo Hm Hin Hf; [lia|]. cbn [_glob_match_segments]. eapply computes_bind; [by apply memo_get_computes|].
  intros known memo' (->&Hk). destruct (Z.eqb_spec known 0) as [->|Hne]; cbn [negb].
  - eapply computes_bind; [apply (segments_loop_exact _ _ pi si); [done|done|lia|]|].
    + intros pi' si' m' ? ? ? ? ?. apply IH; [done|done|lia].
    + intros b m1 (Hm1&Hb). eapply computes_bind; [by apply memo_set_computes|]. intros [] m2 Hm2. by apply computes_ret.
  - apply computes_ret. split; [done|]. destruct Hk as [?|[(->&H)|(->&H)]]; [done|by split|by split].
Qed.
End Segments.

(** ** Segments of a path *)

Definition segments (path : list Z) : list (list Z) := filter (λ s, Is_true (not_empty s)) (split_loop path []).

Lemma segments_loop_app x c y : is_sep c = true → ∀ seg,
  filter (λ s, Is_true (not_empty s)) (split_loop (x ++ c :: y) seg) = filter (λ s, Is_true (not_empty s)) (split_loop x seg) ++ segments y.
Proof.
  intros Hc. induction x as [|d x IH]; intros seg; cbn [app split_loop].
  - rewrite Hc. rewrite !filter_cons. by destruct (decide _).
  - destruct (is_sep d); [|by apply IH]. rewrite !filter_cons. destruct (decide _); rewrite IH; done.
Qed.
(** A separator separates. *)
Lemma segments_app x c y : is_sep c = true → segments (x ++ c :: y) = segments x ++ segments y.
Proof. intros Hc. by apply segments_loop_app. Qed.
Lemma split_loop_plain name : Forall (λ c, is_sep c = false) name → ∀ seg, split_loop name seg = [seg ++ name].
Proof.
  induction 1 as [|c name Hc _ IH]; intros seg; cbn [split_loop]; [by rewrite app_nil_r|]. rewrite Hc, IH. by rewrite <- app_assoc.
Qed.
Lemma segments_name name : name ≠ [] → Forall (λ c, is_sep c = false) name → segments name = [name].
Proof. intros Hne Hn. unfold segments. rewrite split_loop_plain by done. cbn [app]. rewrite filter_cons. destruct name; [done|]. by rewrite decide_True. Qed.
Lemma split_loop_length path : ∀ seg, (length (split_loop path seg) ≤ S (length path))%nat.
Proof. induction path as [|c path IH]; intros seg; cbn [split_loop length]; [lia|]. destruct (is_sep c); cbn [length]; [specialize (IH [])|specialize (IH (seg ++ [c]))]; lia. Qed.
Lemma segments_length path : zlen (segments path) ≤ zlen path + 1.
Proof. unfold segments, zlen. pose proof (length_filter (λ s, Is_true (not_empty s)) (split_loop path [])). pose proof (split_loop_length path []). lia. Qed.

(** Paths for whose segments the product of the counts is a [size_t]. *)
Definition short (path : list Z) : Prop := zlen path < 2 ^ 32 - 2.

Section Matches.
Context {host : Malloc}.
Definition sensitive (glob : option bebopc_glob) : bool := match glob with Some g => gc_case_sensitive (gl_config g) | None => false end.

Lemma split_computes path n : (malloc_grants n = true ∧ malloc_grants (S n) = true) → ∃ n', _glob_split_path (Some path) n = Some (segments path, n') ∧ (n' ≤ n + 2)%nat.
Proof.
  intros (G1&G2). destruct path as [|c path]; [exists n; by split; [|lia]|]. exists (S (S n)). unfold _glob_split_path, request, mbind, C_bind. rewrite G1, G2. split; [done|lia].
Qed.
Lemma new_memo_ok p s case_sensitive n : ∃ memo, new_memo (zlen p) (zlen s) n = Some (memo, S n) ∧ ((zlen p + 1) * (zlen s + 1) < 2 ^ 64 → memo_ok p s case_sensitive memo).
Proof.
  unfold new_memo, request, mbind, C_bind. destruct (malloc_grants n); [|by exists None]. eexists. split; [done|]. intros Hs m [= <-].
  pose proof (zlen_nonneg p). pose proof (zlen_nonneg s). assert (E : u64 ((zlen p + 1) * (zlen s + 1)) = (zlen p + 1) * (zlen s + 1)) by (apply Z.mod_small; nia).
  rewrite E. split; [unfold zlen; rewrite length_replicate; unfold zlen in *; lia|]. intros pi si b _ Eb. apply lookup_replicate in Eb as (->&_). by left.
Qed.
Lemma glob_match_computes glob pattern path n : short pattern → short path → (∀ i, (n ≤ i < n + 4)%nat → malloc_grants i = true) →
  computes (bebopc_glob_match glob (Some pattern) (Some path)) (λ b _, b = true ↔ path_matches (sensitive glob) (segments pattern) (segments path)) n.
Proof.
  intros Hp Hs Hg. unfold bebopc_glob_match. destruct (split_computes pattern n) as (n1&E1&L1); [split; apply Hg; lia|]. eapply computes_step; [exact E1|].
  assert (Hn1 : (n ≤ n1)%nat). { destruct pattern; [injection E1 as <-; lia|]. unfold _glob_split_path, request, mbind, C_bind in E1. injection E1 as _ <-. lia. }
  destruct (split_computes path n1) as (n2&E2&L2); [split; apply Hg; lia|]. eapply computes_step; [exact E2|].
  destruct (new_memo_ok (segments pattern) (segments path) (sensitive glob) n2) as (memo&E3&Hm). eapply computes_step; [exact E3|].
  assert (Hsize : (zlen (segments pattern) + 1) * (zlen (segments path) + 1) < 2 ^ 64).
  { pose proof (segments_length pattern). pose proof (segments_length path). pose proof (zlen_nonneg (segments pattern)). pose proof (zlen_nonneg (segments path)). unfold short in *. nia. }
  destruct (match_segments_exact (segments pattern) (segments path) (sensitive glob) Hsize (segments_fuel (segments pattern) (segments path)) 0 0 memo) as (b&memo'&E&_&Hb).
  - by apply Hm.
  - lia.
  - unfold segments_fuel. lia.
  - eapply computes_lift; [|exact Hb]. fold (sensitive glob). by rewrite E.
Qed.
End Matches.

(** ** Filters *)

Section Filters.
Context {host : Malloc} (Hhost : ∀ i, malloc_grants i = true).

Definition matches (glob : bebopc_glob) (path : list Z) (pattern : bebopc_glob_pattern_t) : Prop :=
  path_matches (gc_case_sensitive (gl_config glob)) (segments (gp_pattern pattern)) (segments path).
Definition includes (glob : bebopc_glob) (path : list Z) : Prop := ∃ p, p ∈ gl_patterns glob ∧ gp_type p = BEBOPC_GLOB_PATTERN_INCLUDE ∧ matches glob path p.
Definition excludes (glob : bebopc_glob) (path : list Z) : Prop := ∃ p, p ∈ gl_patterns glob ∧ gp_type p = BEBOPC_GLOB_PATTERN_EXCLUDE ∧ matches glob path p.
(** The last pattern that matches includes. *)
Definition included_last (glob : bebopc_glob) (patterns : list bebopc_glob_pattern_t) (path : list Z) : Prop :=
  ∃ before p after, patterns = before ++ p :: after ∧ gp_type p = BEBOPC_GLOB_PATTERN_INCLUDE ∧ matches glob path p ∧ Forall (λ q, ¬ matches glob path q) after.
(** The files that a glob selects. *)
Definition selects (glob : bebopc_glob) (path : list Z) : Prop :=
  if gc_preserve_order (gl_config glob) then included_last glob (gl_patterns glob) path else includes glob path ∧ ¬ excludes glob path.
Definition patterns_short (glob : bebopc_glob) : Prop := Forall (λ p, short (gp_pattern p)) (gl_patterns glob).

Lemma match_pattern_computes glob p path n : short (gp_pattern p) → short path →
  computes (bebopc_glob_match (Some glob) (Some (gp_pattern p)) (Some path)) (λ b _, b = true ↔ matches glob path p) n.
Proof. intros Hp Hs. by apply glob_match_computes. Qed.

Lemma any_matches_computes glob type patterns path n : short path → Forall (λ p, short (gp_pattern p)) patterns →
  computes (any_matches glob type patterns path) (λ b _, b = true ↔ ∃ p, p ∈ patterns ∧ gp_type p = type ∧ matches glob path p) n.
Proof.
  intros Hs Hp. revert n. induction Hp as [|p patterns Hp _ IH]; intros n; cbn [any_matches].
  { apply computes_ret. split; [done|]. by intros (?&?%not_elem_of_nil&_). }
  assert (Hrest : ∀ n, (gp_type p = type → ¬ matches glob path p) →
    computes (any_matches glob type patterns path) (λ b _, b = true ↔ ∃ q, q ∈ p :: patterns ∧ gp_type q = type ∧ matches glob path q) n).
  { intros m Hno. eapply computes_weaken; [apply IH|]. cbn. intros b _ ->. split; intros (q&Hq&Ht&Hm); exists q; (split; [|done]).
    - by right.
    - apply elem_of_cons in Hq as [->|?]; [by destruct (Hno Ht)|done]. }
  case_bool_decide as Ht; [|by apply Hrest]. eapply computes_bind; [by apply match_pattern_computes|]. cbn. intros [|] n1 Hb.
  - apply computes_ret. split; [|done]. intros _. exists p. split; [by left|]. split; [done|by apply Hb].
  - apply Hrest. intros _ H. by apply Hb in H.
Qed.

Lemma included_last_app glob path patterns p : included_last glob (patterns ++ [p]) path ↔
  (gp_type p = BEBOPC_GLOB_PATTERN_INCLUDE ∧ matches glob path p) ∨ (¬ matches glob path p ∧ included_last glob patterns path).
Proof.
  split.
  - intros (before&q&after&E&Ht&Hm&Ha). destruct after as [|q' after] using rev_ind.
    + apply app_inj_tail in E as (->&->). by left.
    + right. clear IHafter. rewrite app_comm_cons, app_assoc in E. apply app_inj_tail in E as (->&->). apply Forall_app in Ha as (Ha&Hlast). apply Forall_cons in Hlast as (Hlast&_).
      split; [exact Hlast|]. by exists before, q, after.
  - intros [(Ht&Hm)|(Hno&before&q&after&->&Ht&Hm&Ha)]; [by exists patterns, p, []|]. exists before, q, (after ++ [p]). split_and!; [by rewrite <- app_assoc|done|done|]. apply Forall_app. by split; [|constructor].
Qed.
Lemma decide_in_order_computes glob patterns path : short path → Forall (λ p, short (gp_pattern p)) patterns → ∀ before inc exc n,
  (inc && negb exc = true ↔ included_last glob before path) →
  computes (decide_in_order glob patterns path inc exc) (λ r _, r.1 && negb r.2 = true ↔ included_last glob (before ++ patterns) path) n.
Proof.
  intros Hs Hp. induction Hp as [|p patterns Hp _ IH]; intros before inc exc n Hb; cbn [decide_in_order]; [by apply computes_ret; rewrite app_nil_r|].
  rewrite (cons_middle p before patterns), app_assoc. eapply computes_bind; [by apply match_pattern_computes|]. cbn. intros matched n1 Hm.
  pose proof (included_last_app glob path before p) as Hl. destruct matched.
  - pose proof (proj1 Hm eq_refl). destruct (gp_type p) eqn:Et; apply IH; rewrite Hl; cbn; [split; [by left|done]|split; [done|intros [(?&_)|(?&_)]; done]].
  - apply IH. rewrite Hl, Hb. assert (¬ matches glob path p) by (intros H; by apply Hm in H). tauto.
Qed.

Lemma glob_decide_computes glob path n : short path → patterns_short glob →
  computes (glob_decide glob path) (λ r _, r.1 && negb r.2 = true ↔ selects glob path) n.
Proof.
  intros Hs Hp. unfold glob_decide, selects. destruct (gc_preserve_order (gl_config glob)).
  - apply (decide_in_order_computes glob (gl_patterns glob) path Hs Hp []). cbn. split; [done|]. intros (before&?&?&E&_). by destruct before.
  - eapply computes_bind; [by apply any_matches_computes|]. cbn. intros [|] n1 Hi.
    + eapply computes_bind; [by apply any_matches_computes|]. cbn. intros exc n2 He. apply computes_ret. cbn. unfold includes, excludes. rewrite <- Hi, <- He. destruct exc; cbn; intuition congruence.
    + eapply computes_step; [reflexivity|]. apply computes_ret. cbn. unfold includes. rewrite <- Hi. split; [done|by intros (?&_)].
Qed.
End Filters.

(** ** Searches *)

(** The sublist of what passes [P]. *)
Inductive kept (P : list Z * bool → Prop) : list (list Z * bool) → list (list Z) → Prop :=
  | kept_nil : kept P [] []
  | kept_yes e l l' : P e → kept P l l' → kept P (e :: l) (e.1 :: l')
  | kept_no e l l' : ¬ P e → kept P l l' → kept P (e :: l) l'.
Lemma kept_app P l1 l2 l1' l2' : kept P l1 l1' → kept P l2 l2' → kept P (l1 ++ l2) (l1' ++ l2').
Proof. induction 1; [done|..]; intros ?; cbn; constructor; auto. Qed.
Lemma kept_iff P Q l l' : (∀ e, P e ↔ Q e) → kept P l l' → kept Q l l'.
Proof. intros H. induction 1; constructor; naive_solver. Qed.

Definition joined (dir file : list Z) : list Z := take (trim_end 0 is_sep dir (length dir)) dir ++ 47 :: file.
Definition beneath (rel name : list Z) : list Z := match rel with [] => name | _ => joined rel name end.

(** What there is in a directory, each directory before what is in it. *)
Section Walk.
Context (list_dir : list Z → option (list (option (list Z * bool)))) (base : list Z).
Definition entries_of (down : list Z → list (list Z * bool)) (rel : list Z) (e : option (list Z * bool)) : list (list Z * bool) :=
  match e with
  | None => []
  | Some (name, is_dir) => if is_dot name then [] else (beneath rel name, is_dir) :: if (is_dir : bool) then down (beneath rel name) else []
  end.
Fixpoint walk (levels : nat) (rel : list Z) : list (list Z * bool) :=
  match levels with
  | O => []
  | S levels => match list_dir (match rel with [] => base | _ => joined base rel end) with None => [] | Some entries => concat (map (entries_of (walk levels) rel) entries) end
  end.
End Walk.

Section Search.
Context {host : Malloc} (Hhost : ∀ i, malloc_grants i = true) (list_dir : list Z → option (list (option (list Z * bool)))).

Lemma strdup_eq s n : bebopc_strdup (Some s) n = Some (Some s, S n).
Proof. unfold bebopc_strdup, request, mbind, C_bind. by rewrite Hhost. Qed.
Lemma join_eq dir file n : bebopc_path_join (Some dir) (Some file) n = Some (Some (joined dir file), S n).
Proof. unfold bebopc_path_join, request, mbind, C_bind. by rewrite Hhost. Qed.
Lemma entry_path_eq rel name n : entry_path rel name n = Some (Some (beneath rel name), S n).
Proof. destruct rel; [apply strdup_eq|apply join_eq]. Qed.
Lemma push_computes result path n : computes (_glob_result_push result path) (λ r _, gr_matches r = gr_matches result ++ [path]) n.
Proof.
  unfold _glob_result_push. eapply computes_bind; [apply (computes_weaken _ (λ room _, ∃ c, room = Some c)); [|by intros ? ? H; exact H]|].
  - destruct (_ <=? _); [|apply computes_ret; by eexists]. eapply computes_step; [unfold request; reflexivity|]. rewrite Hhost. apply computes_ret. by eexists.
  - intros ? n1 (c&->). eapply computes_step; [apply strdup_eq|]. by apply computes_ret.
Qed.

Section Glob.
Context (glob : bebopc_glob) (Hshort : patterns_short glob) (base : list Z).
Abbreviation file_selected := (λ e : list Z * bool, e.2 = false ∧ selects glob e.1).
Abbreviation finds := (λ (result : bebopc_glob_result) (l : list (list Z * bool)) (r : bebopc_glob_result) (_ : nat), ∃ found, gr_matches r = gr_matches result ++ found ∧ kept file_selected l found).

Lemma traverse_entries_computes down sub rel entries : ∀ result n,
  (∀ path r n, Forall (λ e, short e.1) (sub path) → computes (down path r) (finds r (sub path)) n) →
  Forall (λ e, short e.1) (concat (map (entries_of sub rel) entries)) →
  computes (traverse_entries glob down rel entries result) (finds result (concat (map (entries_of sub rel) entries))) n.
Proof.
  induction entries as [|[[name is_dir]|] entries IH]; intros result n Hdown Hs; cbn [traverse_entries map concat entries_of] in *.
  - apply computes_ret. exists []. rewrite app_nil_r. by split; [|constructor].
  - destruct (is_dot name); [by apply IH|]. cbn [app] in Hs. apply Forall_cons in Hs as (Hpath&Hs). apply Forall_app in Hs as (Hsub&Hs). cbn [fst] in Hpath.
    eapply computes_step; [apply entry_path_eq|]. eapply computes_bind; [by apply glob_decide_computes|]. cbn. intros [inc exc] n1 Hsel. cbn [fst snd] in Hsel.
    set (path := beneath rel name) in *.
    eapply (computes_bind _ _ (λ r _, ∃ found, gr_matches r = gr_matches result ++ found ∧ kept file_selected [(path, is_dir)] found)).
    { destruct (inc && negb exc && negb is_dir) eqn:E.
      - apply andb_prop in E as (E&Ed%negb_true_iff). eapply computes_weaken; [apply push_computes|]. cbn. intros r _ ->. exists [path]. split; [done|].
        apply (kept_yes _ (path, is_dir)); [|constructor]. cbn. split; [done|by apply Hsel].
      - apply computes_ret. exists []. rewrite app_nil_r. split; [done|]. apply kept_no; [|constructor]. cbn. intros (->&H). apply Hsel in H. by rewrite H in E. }
    intros r1 n2 (f1&E1&K1). eapply (computes_bind _ _ (finds r1 (if is_dir then sub path else []))).
    { destruct is_dir; [by apply Hdown|]. apply computes_ret. exists []. rewrite app_nil_r. by split; [|constructor]. }
    cbn. intros r2 n3 (f2&E2&K2). eapply computes_weaken; [by apply IH|]. cbn. intros r3 _ (f3&E3&K3). exists (f1 ++ f2 ++ f3).
    split; [by rewrite E3, E2, E1, <- !app_assoc|]. apply (kept_app _ [(path, is_dir)]); [done|]. by apply kept_app.
  - by apply IH.
Qed.
Lemma traverse_computes levels : ∀ rel result n, Forall (λ e, short e.1) (walk list_dir base levels rel) →
  computes (_glob_dir_traverse list_dir levels glob base rel result) (finds result (walk list_dir base levels rel)) n.
Proof.
  induction levels as [|levels IH]; intros rel result n Hs; cbn [_glob_dir_traverse walk] in *.
  - apply computes_ret. exists []. rewrite app_nil_r. by split; [|constructor].
  - set (full := match rel with [] => base | _ => joined base rel end) in *.
    eapply computes_step; [transitivity (Some (Some full, S n)); [|reflexivity]; destruct rel; [apply strdup_eq|apply join_eq]|].
    cbv iota. change (match rel with [] => base | _ => joined base rel end) with full. destruct (list_dir full) as [entries|]; [by apply traverse_entries_computes|]. apply computes_ret. exists []. rewrite app_nil_r. by split; [|constructor].
Qed.

Lemma join_all_computes dir l n : computes (join_all dir l) (λ r _, r = Some (map (joined dir) l)) n.
Proof.
  revert n. induction l as [|m l IH]; intros n; cbn [join_all]; [by apply computes_ret|]. eapply computes_step; [apply join_eq|].
  eapply computes_bind; [apply IH|]. intros ? n1 ->. by apply computes_ret.
Qed.
Lemma glob_paths_computes n : Forall (λ e, short e.1) (walk list_dir base 65 []) →
  computes (bebopc_glob_paths list_dir (Some glob) (Some base))
    (λ r _, ∃ found, kept file_selected (walk list_dir base 65 []) found ∧ r = match found with [] => None | _ => Some (map (joined base) found) end) n.
Proof.
  intros Hs. unfold bebopc_glob_paths, bebopc_glob_execute. eapply (computes_bind _ _ (λ r _, ∃ found res, r = Some res ∧ gr_matches res = found ∧ kept file_selected (walk list_dir base 65 []) found)).
  { eapply computes_step; [unfold request; reflexivity|]. rewrite Hhost. eapply computes_bind; [by apply (traverse_computes 65)|]. cbn. intros r n1 (found&E&Hk). apply computes_ret. by exists found, r. }
  intros ? n1 (found&r&->&E&Hk). rewrite E. destruct (Z.eqb_spec (zlen found) 0) as [Hz|Hz].
  - destruct found; [|done]. apply computes_ret. by exists [].
  - eapply computes_step; [unfold request; reflexivity|]. rewrite Hhost. eapply computes_weaken; [apply join_all_computes|]. cbn. intros ? _ ->. exists found. split; [done|]. by destruct found.
Qed.
End Glob.

Lemma add_computes g pattern type n : computes (_glob_pattern_add (Some g) (Some pattern) type)
  (λ r _, r.1 = BEBOPC_OK ∧ ∃ g', r.2 = Some g' ∧ gl_config g' = gl_config g ∧ gl_patterns g' = gl_patterns g ++ [mkGlobPattern pattern type]) n.
Proof.
  unfold _glob_pattern_add. eapply (computes_bind _ _ (λ room _, ∃ g', room = Some g' ∧ gl_config g' = gl_config g ∧ gl_patterns g' = gl_patterns g)).
  - destruct (_ <=? _); [|apply computes_ret; by exists g]. eapply computes_step; [unfold request; reflexivity|]. rewrite Hhost. apply computes_ret. by eexists.
  - intros ? n1 (g'&->&Ec&Ep). eapply computes_step; [apply strdup_eq|]. apply computes_ret. split; [done|]. eexists. split_and!; [done|done|]. cbn. by rewrite Ep.
Qed.
Lemma add_all_computes type patterns : ∀ g n, computes (add_all type patterns (Some g))
  (λ r _, ∃ g', r = Some g' ∧ gl_config g' = gl_config g ∧ gl_patterns g' = gl_patterns g ++ map (λ p, mkGlobPattern p type) patterns) n.
Proof.
  induction patterns as [|p patterns IH]; intros g n; cbn [add_all map]; [apply computes_ret; exists g; by rewrite app_nil_r|].
  eapply computes_bind; [apply add_computes|]. cbn. intros [err og] n1 (_&g1&E&Ec&Ep). cbn in E. subst og. eapply computes_weaken; [apply IH|]. cbn. intros r _ (g2&->&Ec2&Ep2).
  exists g2. split_and!; [done|by rewrite Ec2|]. by rewrite Ep2, Ep, <- app_assoc.
Qed.

(** A file is wanted that matches one of [includes] and none of [excludes]. *)
Definition wanted (includes excludes : list (list Z)) (e : list Z * bool) : Prop :=
  e.2 = false ∧ (∃ p, p ∈ includes ∧ path_matches false (segments p) (segments e.1)) ∧ ¬ ∃ p, p ∈ excludes ∧ path_matches false (segments p) (segments e.1).

Lemma tagged_iff type incl excl (Q : list Z → Prop) :
  (∃ p, p ∈ map (λ p, mkGlobPattern p BEBOPC_GLOB_PATTERN_INCLUDE) incl ++ map (λ p, mkGlobPattern p BEBOPC_GLOB_PATTERN_EXCLUDE) excl ∧ gp_type p = type ∧ Q (gp_pattern p)) ↔
  ∃ p, p ∈ match type with BEBOPC_GLOB_PATTERN_INCLUDE => incl | BEBOPC_GLOB_PATTERN_EXCLUDE => excl end ∧ Q p.
Proof.
  split.
  - intros (p&Hp&<-&HQ). apply elem_of_app in Hp as [(q&->&Hq)%list_elem_of_fmap|(q&->&Hq)%list_elem_of_fmap]; by exists q.
  - intros (p&Hp&HQ). exists (mkGlobPattern p type). split; [|done]. apply elem_of_app. destruct type; [left|right]; apply list_elem_of_fmap; by exists p.
Qed.
Lemma search_computes incl excl root n : Forall short incl → Forall short excl → Forall (λ e, short e.1) (walk list_dir root 65 []) →
  computes (search list_dir incl excl root)
    (λ r _, ∃ found, kept (wanted incl excl) (walk list_dir root 65 []) found ∧ r = match found with [] => None | _ => Some (map (joined root) found) end) n.
Proof.
  intros Hi He Hs. unfold search, bebopc_glob_new. eapply computes_step; [unfold request, mbind, C_bind; rewrite Hhost; reflexivity|].
  eapply computes_bind; [apply add_all_computes|]. cbn. intros ? n1 (g1&->&Ec1&Ep1). eapply computes_bind; [apply add_all_computes|]. cbn. intros ? n2 (g2&->&Ec2&Ep2).
  rewrite Ep1 in Ep2. rewrite Ec1 in Ec2. cbn [gl_patterns app] in Ep2. eapply computes_weaken; [apply glob_paths_computes; [|done]|].
  - unfold patterns_short. rewrite Ep2. apply Forall_app. by split; apply Forall_map.
  - cbn. intros r _ (found&Hk&->). exists found. split; [|done]. eapply kept_iff; [|exact Hk]. intros [path is_dir]. cbn. unfold wanted, selects, includes, excludes, matches. rewrite Ec2, Ep2. cbn.
    pose proof (tagged_iff BEBOPC_GLOB_PATTERN_INCLUDE incl excl (λ p, path_matches false (segments p) (segments path))) as H1.
    pose proof (tagged_iff BEBOPC_GLOB_PATTERN_EXCLUDE incl excl (λ p, path_matches false (segments p) (segments path))) as H2. cbn in H1, H2. by rewrite H1, H2.
Qed.
End Search.

(** C23: a path matches a pattern exactly when, segment by segment, stars stand for any
    characters, question marks for one, other characters for themselves (or for both cases),
    and double stars for any number of segments; empty segments do not count.  It takes the
    memory for the segments of both to be granted, the first four requests (a finding says what
    happens without).  The search
    with one place to come back to misses no match, the memory of answers changes none and
    may be refused, and the calls end. *)
Theorem glob_match_exact {host : Malloc} glob pattern path n :
  short pattern → short path → (∀ i, (n ≤ i < n + 4)%nat → malloc_grants i = true) →
  ∃ b n', bebopc_glob_match glob (Some pattern) (Some path) n = Some (b, n') ∧
    (b = true ↔ path_matches (sensitive glob) (segments pattern) (segments path)).
Proof. intros Hp Hs Hg. exact (glob_match_computes glob pattern path n Hp Hs Hg). Qed.

(** The patterns and the directory of a compilation. *)
Definition looked_for (cfg : collect_config_t) (cli_files : list (list Z)) : list (list Z) * list Z :=
  match cli_files with [] => (cc_sources cfg, default [46] (cc_project_root cfg)) | _ => (cli_files, [46]) end.


Module GlobExamples.
Definition str (s : string) : list Z := map (λ c, Z.of_N (N_of_ascii c)) (list_ascii_of_string s).

(** "src/**/*.b?p" and "src/x/y/aab.bop". *)
Lemma glob_match_exact_witness :
  bebopc_glob_match None (Some (str "src/**/*B.b?p")) (Some (str "src//x/y/aab.bop")) 0%nat = Some (true, 5%nat) ∧
  path_matches false (segments (str "src/**/*B.b?p")) (segments (str "src//x/y/aab.bop")).
Proof.
  split; [vm_compute; reflexivity|].
  destruct (glob_match_exact None (str "src/**/*B.b?p") (str "src//x/y/aab.bop") 0) as (b&n'&E&H); [done|done|done|].
  apply H. vm_compute in E. by injection E.
Defined.

(** A directory with a schema, a test and a directory with another schema. *)
Definition tree (path : list Z) : option (list (option (list Z * bool))) :=
  if bool_decide (path = str ".") then Some [Some (str ".", true); Some (str "a.bop", false); Some (str "a.test.bop", false); None; Some (str "lib", true)]
  else if bool_decide (path = str "./lib") then Some [Some (str "b.bop", false); Some (str "b.c", false)]
  else None.
Definition config : collect_config_t := mkCollectConfig [str "**/*.bop"] [str "**/*.test.*"] None.


(** With a pattern among them all arguments are patterns, and "." is a segment that no path
    below the directory has: neither the pattern nor the file is found. *)
Example dot_slash_pattern : option_map fst (bebopc_collect_files tree (Some config) [str "./*.bop"] 0%nat) = Some None ∧
  option_map fst (bebopc_collect_files tree (Some config) [str "./lib/b.bop"; str "a.*"] 0%nat) = Some (Some [str "./a.bop"]) ∧
  option_map fst (bebopc_collect_files tree (Some config) [str "./lib/b.bop"] 0%nat) = Some (Some [str "./lib/b.bop"]).
Proof. vm_compute. done. Qed.
(** A bracket makes a pattern, but stands for itself. *)
Example bracket_pattern : bebopc_glob_is_pattern (Some (str "[ab].bop")) = true ∧ option_map fst (bebopc_glob_match None (Some (str "[ab].bop")) (Some (str "a.bop")) 0%nat) = Some false.
Proof. vm_compute. done. Qed.
End GlobExamples.
