(* ===== verification/PathProps.v ===== *)
(** What the operations on paths promise: a joined path has the segments of its parts, and
    its parts come back; a normal form has the same segments, each behind one separator. *)
From Stdlib Require Import String Ascii.
From stdpp Require Import list.
From S2P Require Import Prelude.
From S2P Require Import Paths.
From S2P Require Import Glob.
From S2P Require Import GlobProps.

Abbreviation seps := (Forall (λ c, is_sep c = true)).
(** A path that does not end with a separator. *)
Definition trimmed (x : list Z) : Prop := x = [] ∨ ∃ x' c, x = x' ++ [c] ∧ is_sep c = false.

Lemma trim_end_stop least drops path len : (len ≤ least)%nat ∨ (∃ x c z, path = x ++ c :: z ∧ len = S (length x) ∧ drops c = false) →
  trim_end least drops path len = len.
Proof.
  intros H. destruct len as [|len]; [done|]. cbn [trim_end]. destruct H as [H|(x&c&z&->&[= ->]&Hc)].
  - by destruct (Nat.ltb_spec least (S len)); [lia|].
  - assert (Hn : nth (length x) (x ++ c :: z) 0 = c) by (rewrite app_nth2 by lia; by rewrite Nat.sub_diag). by rewrite Hn, Hc, andb_false_r.
Qed.
Lemma trim_end_app least drops x y z : Forall (λ c, drops c = true) y → (least ≤ length x)%nat →
  trim_end least drops (x ++ y ++ z) (length x + length y) = trim_end least drops (x ++ y ++ z) (length x).
Proof.
  intros Hy Hx. revert z. induction y as [|c y IH] using rev_ind; intros z; [by rewrite Nat.add_0_r|]. apply Forall_app in Hy as (Hy&Hc). apply Forall_cons in Hc as (Hc&_).
  rewrite length_app. cbn [length]. replace (length x + (length y + 1))%nat with (S (length x + length y)) by lia. cbn [trim_end].
  assert (Hn : nth (length x + length y) (x ++ (y ++ [c]) ++ z) 0 = c).
  { rewrite <- app_assoc, app_assoc. rewrite app_nth2 by (rewrite length_app; lia). rewrite length_app, Nat.sub_diag. done. }
  rewrite Hn, Hc. destruct (Nat.ltb_spec least (S (length x + length y))); [|lia]. cbn [andb]. rewrite <- app_assoc. by apply IH.
Qed.
Lemma trim_split d : ∃ x y, d = x ++ y ∧ seps y ∧ trimmed x ∧ trim_end 0 is_sep d (length d) = length x.
Proof.
  induction d as [|c d (x&y&->&Hy&Hx&_)] using rev_ind; [exists [], []; split_and!; [done|constructor|by left|done]|].
  destruct (is_sep c) eqn:Hc.
  - exists x, (y ++ [c]). rewrite app_assoc. split_and!; [done|by apply Forall_app; split; [|constructor]|done|].
    rewrite <- app_assoc. pose proof (trim_end_app 0 is_sep x (y ++ [c]) []) as Ht. rewrite app_nil_r, <- length_app in Ht. rewrite Ht; [|by apply Forall_app; split; [|constructor]|lia].
    apply trim_end_stop. destruct Hx as [->|(x'&e&->&He)]; [by left|]. right. exists x', e. rewrite <- app_assoc, length_app. cbn. eexists. split_and!; [done|lia|done].
  - exists ((x ++ y) ++ [c]), []. rewrite app_nil_r. split_and!; [done|constructor|right; by eexists _, _|].
    apply trim_end_stop. right. exists (x ++ y), c, []. split_and!; [done|rewrite length_app; cbn; lia|done].
Qed.

Lemma segments_seps y : seps y → segments y = [].
Proof. induction 1 as [|c y Hc _ IH]; [done|]. pose proof (segments_app [] c y Hc) as E. cbn [app] in E. by rewrite E, IH. Qed.
Lemma segments_trim x y : seps y → segments (x ++ y) = segments x.
Proof. intros Hy. destruct y as [|c y]; [by rewrite app_nil_r|]. apply Forall_cons in Hy as (Hc&Hy). by rewrite (segments_app _ _ _ Hc), (segments_seps y Hy), app_nil_r. Qed.
(** A joined path, with the directory as it is joined. *)
Lemma joined_split dir file : ∃ x, trimmed x ∧ segments x = segments dir ∧ joined dir file = x ++ 47 :: file ∧ take (length x) dir = x ∧ trim_end 0 is_sep dir (length dir) = length x.
Proof.
  destruct (trim_split dir) as (x&y&->&Hy&Hx&Ht). exists x. unfold joined. rewrite Ht, take_app_length. split_and!; [done|by rewrite segments_trim|done|done|done].
Qed.
Lemma segments_joined dir file : segments (joined dir file) = segments dir ++ segments file.
Proof. destruct (joined_split dir file) as (x&_&<-&->&_). by apply segments_app. Qed.

Lemma after_last_sep x c y : is_sep c = true → ∀ last, after_last is_sep last (x ++ c :: y) = after_last is_sep y y.
Proof. intros Hc. induction x as [|d x IH]; intros last; cbn [app after_last]; [by rewrite Hc|apply IH]. Qed.
Lemma after_last_plain y : Forall (λ c, is_sep c = false) y → ∀ last, after_last is_sep last y = last.
Proof. induction 1 as [|c y Hc _ IH]; intros last; cbn [after_last]; [done|]. by rewrite Hc. Qed.

(** The name of an entry of a directory. *)
Definition plain_name (name : list Z) : Prop := name ≠ [] ∧ Forall (λ c, is_sep c = false) name.
Lemma plain_trimmed x name : plain_name name → trimmed (x ++ name).
Proof.
  intros (Hne&Hp). right. destruct name as [|c name _] using rev_ind; [done|]. apply Forall_app in Hp as (_&Hc). apply Forall_cons in Hc as (Hc&_). exists (x ++ name), c. by rewrite app_assoc.
Qed.
Lemma trim_trimmed x z : trimmed x → trim_end 0 is_sep (x ++ z) (length x) = length x.
Proof.
  intros [->|(x'&c&->&Hc)]; [done|]. apply trim_end_stop. right. exists x', c, z. rewrite <- app_assoc, length_app. split_and!; [done|cbn; lia|done].
Qed.

Lemma skip_seps_plain name : plain_name name → skip_seps name = name.
Proof. intros (Hne&Hp). destruct name as [|c name]; [done|]. apply Forall_cons in Hp as (Hc&_). cbn. by rewrite Hc. Qed.
Lemma dirname_joined {host : Malloc} x name n : trimmed x → plain_name name → malloc_grants n = true →
  bebopc_path_dirname (Some (x ++ 47 :: name)) n = Some (Some (match x with [] => [47] | _ => x end), S n).
Proof.
  intros Hx Hname Hn. unfold bebopc_path_dirname. set (s := x ++ 47 :: name). assert (Hlen : length s = (length x + 1 + length name)%nat) by (unfold s; rewrite length_app; cbn; lia).
  assert (E1 : trim_end 0 is_sep s (length s) = length s).
  { pose proof (trim_trimmed s []) as Ht. rewrite app_nil_r in Ht. apply Ht. unfold s. rewrite (cons_middle 47 x name), app_assoc. by apply plain_trimmed. }
  assert (E2 : trim_end 0 (λ c, negb (is_sep c)) s (length s) = S (length x)).
  { rewrite Hlen. unfold s. rewrite (cons_middle 47 x name), app_assoc. pose proof (trim_end_app 0 (λ c, negb (is_sep c)) (x ++ [47]) name []) as Ht.
    rewrite app_nil_r, length_app in Ht. cbn [length] in Ht. rewrite Ht; [|eapply Forall_impl; [apply Hname|]; cbn; by intros c ->|lia].
    rewrite trim_end_stop; [lia|]. right. exists x, 47, name. split_and!; [by rewrite <- app_assoc|lia|done]. }
  assert (E3 : trim_end 1 is_sep s (S (length x)) = match x with [] => 1%nat | _ => length x end).
  { destruct x as [|b x]; [done|]. pose proof (trim_end_app 1 is_sep (b :: x) [47] name) as Ht. unfold s. cbn [length app] in Ht |- *. rewrite Nat.add_1_r in Ht. rewrite Ht; [|by repeat constructor|lia].
    apply trim_end_stop. destruct Hx as [?|(x'&c&E&Hc)]; [done|]. right. exists x', c, (47 :: name). rewrite app_comm_cons, E, <- app_assoc. split_and!; [done| |done].
    apply (f_equal length) in E. rewrite length_app in E. cbn in E. lia. }
  rewrite E1, E2. destruct (Nat.eqb_spec (length s) 0) as [Hz|_]; [lia|]. cbn [Nat.eqb]. rewrite E3. unfold bebopc_strndup, request, mbind, C_bind. rewrite Hn. unfold mret, C_ret.
  do 3 f_equal. unfold s. destruct x as [|b x]; [done|]. apply take_app_length.
Qed.

(** Joined paths come apart again.  The segments of a joined path are those of the
    directory and those of the file, whatever separators the directory ends with; relative to
    the directory the path is the file, its last part is that of the file, and for the name
    of an entry the directory of the path is the directory without separators at its end. *)
Theorem path_join_roundtrip {host : Malloc} dir file n :
  malloc_grants n = true → malloc_grants (S n) = true →
  ∃ path, bebopc_path_join (Some dir) (Some file) n = Some (Some path, S n) ∧
    segments path = segments dir ++ segments file ∧
    bebopc_path_basename (Some path) = bebopc_path_basename (Some file) ∧
    bebopc_path_relative (Some dir) (Some path) (S n) = Some (Some (skip_seps file), S (S n)) ∧
    (plain_name file → skip_seps file = file ∧
      ∃ d, bebopc_path_dirname (Some path) (S n) = Some (Some d, S (S n)) ∧ segments d = segments dir ∧ (trimmed d ∨ d = [47])).
Proof.
  intros H1 H2. exists (joined dir file). pose proof (segments_joined dir file) as Hseg. destruct (joined_split dir file) as (x&Hx&Ex&Ej&Etake&Etrim). split_and!.
  - unfold bebopc_path_join, request, mbind, C_bind. by rewrite H1.
  - done.
  - rewrite Ej. cbn. by rewrite after_last_sep.
  - rewrite Ej. unfold bebopc_path_relative. rewrite Etrim, Etake, take_app_length, drop_app_length, bool_decide_true by done.
    destruct (Nat.ltb_spec (length (x ++ 47 :: file)) (length x)) as [Hl|_]; [rewrite length_app in Hl; lia|]. cbn -[bebopc_strdup]. unfold bebopc_strdup, request, mbind, C_bind. by rewrite H2.
  - intros Hf. split; [by apply skip_seps_plain|]. rewrite Ej. eexists. split; [by apply dirname_joined|]. destruct x as [|b x]; [by split; [rewrite <- Ex|right]|]. by split; [|left].
Qed.

(** ** Normal forms *)

(** No backslash, and no separator behind another. *)
Definition normal (s : list Z) : Prop := 92 ∉ s ∧ ∀ a c d b, s = a ++ c :: d :: b → is_sep c = true → is_sep d = false.

Lemma normal_app s t : normal (s ++ t) → normal s.
Proof.
  intros (Hb&Hs). split; [intros ?; apply Hb, elem_of_app; by left|]. intros a c d b ->. apply (Hs a c d (b ++ t)). by rewrite <- app_assoc.
Qed.
Lemma last_nth r c : nth (length (r ++ [c]) - 1) (r ++ [c]) 0 = c.
Proof. rewrite length_app. cbn [length]. replace (length r + 1 - 1)%nat with (length r) by lia. rewrite app_nth2 by lia. by rewrite Nat.sub_diag. Qed.
Lemma normal_snoc r c : normal r → c ≠ 92 → (is_sep c = true → trimmed r) → normal (r ++ [c]).
Proof.
  intros (Hb&Hs) Hc Ht. split.
  - rewrite elem_of_app, list_elem_of_singleton. naive_solver.
  - intros a x y b E Hx. destruct b as [|z b _] using rev_ind.
    + rewrite (cons_middle x a [y]), app_assoc in E. apply app_inj_tail in E as (->&->). destruct (is_sep y) eqn:Hy; [|done].
      destruct (Ht eq_refl) as [E|(x'&e&E&He)]; [by destruct a|]. apply app_inj_tail in E as (_&->). congruence.
    + rewrite !app_comm_cons, app_assoc in E. apply app_inj_tail in E as (E&_). by eapply Hs.
Qed.

Lemma normalize_loop_exact path : ∀ r, normal r → normal (normalize_loop path r) ∧ segments (normalize_loop path r) = segments (r ++ path).
Proof.
  induction path as [|c path IH]; intros r Hr; cbn [normalize_loop]; [by rewrite app_nil_r|].
  set (c' := if c =? 92 then 47 else c). assert (Hc' : c' ≠ 92 ∧ is_sep c' = is_sep c ∧ (is_sep c = false → c' = c)).
  { unfold c'. destruct (Z.eqb_spec c 92) as [->|?]; by split_and!. }
  destruct Hc' as (Hne&Hsep&Hsame). assert (Hseg : segments (r ++ c :: path) = segments ((r ++ [c']) ++ path)).
  { rewrite <- app_assoc. cbn [app]. destruct (is_sep c) eqn:Hc; [by rewrite !segments_app|]. by rewrite Hsame. }
  destruct r as [|e r _] using rev_ind.
  - replace (is_sep c' && _ && _) with false by (by destruct (is_sep c')). rewrite Hseg. apply IH, normal_snoc; [done|done|]. intros _. by left.
  - rewrite last_nth. assert (Hpos : (0 <? length (r ++ [e]))%nat = true) by (apply Nat.ltb_lt; rewrite length_app; cbn; lia). rewrite Hpos, andb_true_r.
    destruct (is_sep c') eqn:Hc; cbn [andb]; [|rewrite Hseg; apply IH, normal_snoc; [done|done|congruence]].
    destruct (is_sep e) eqn:He; [|rewrite Hseg; apply IH, normal_snoc; [done|done|]; intros _; right; by exists r, e].
    destruct (IH (r ++ [e]) Hr) as (H1&H2). split; [done|]. rewrite H2, <- !app_assoc. cbn [app]. rewrite !segments_app by done. f_equal. symmetry. apply (segments_app [] c path). by rewrite <- Hsep.
Qed.
Lemma normalize_loop_normal path : ∀ r, normal (r ++ path) → normalize_loop path r = r ++ path.
Proof.
  induction path as [|c path IH]; intros r Hr; cbn [normalize_loop]; [by rewrite app_nil_r|]. destruct Hr as (Hb&Hs).
  assert (Hc : c ≠ 92) by (intros ->; apply Hb, elem_of_app; right; by left). destruct (Z.eqb_spec c 92); [done|].
  replace (is_sep c && (0 <? length r)%nat && is_sep (nth (length r - 1) r 0)) with false.
  - rewrite IH; by rewrite <- app_assoc.
  - symmetry. destruct r as [|e r _] using rev_ind; [by destruct (is_sep c)|]. rewrite last_nth. destruct (is_sep e) eqn:He; [|by rewrite andb_false_r].
    rewrite (Hs r e c path); [done| |done]. by rewrite <- app_assoc.
Qed.

(** The normal form of a path has its segments, each behind at most one slash, and no slash
    at its end unless it is the root; it is its own normal form. *)
Theorem path_normalize_exact {host : Malloc} path n : malloc_grants n = true →
  ∃ r, bebopc_path_normalize (Some path) n = Some (Some r, S n) ∧ segments r = segments path ∧ normal r ∧ (trimmed r ∨ ∃ c, r = [c]) ∧
    ∀ m, malloc_grants m = true → bebopc_path_normalize (Some r) m = Some (Some r, S m).
Proof.
  intros Hn. destruct (normalize_loop_exact path []) as (Hnormal&Hseg); [split; [apply not_elem_of_nil|by intros []]|]. cbn [app] in Hseg.
  set (r := normalize_loop path []) in *. set (cut := λ r : list Z, if (1 <? length r)%nat && is_sep (nth (length r - 1) r 0) then (length r - 1)%nat else length r).
  assert (Hfix : ∀ s, normal s → trimmed s ∨ (∃ c, s = [c]) → ∀ m, malloc_grants m = true → bebopc_path_normalize (Some s) m = Some (Some s, S m)).
  { intros s Hs Ht m Hm. unfold bebopc_path_normalize, request, mbind, C_bind. rewrite Hm, normalize_loop_normal by done. cbn [app]. fold (cut s). unfold mret, C_ret. do 3 f_equal. apply take_ge.
    unfold cut. destruct Ht as [[->|(s'&c&->&Hc)]|(c&->)]; [done| |done]. by rewrite last_nth, Hc, andb_false_r. }
  exists (take (cut r) r). assert (Hcut : ∃ y, r = take (cut r) r ++ y ∧ seps y ∧ (trimmed (take (cut r) r) ∨ ∃ c, take (cut r) r = [c])).
  { unfold cut. destruct r as [|e r' _] using rev_ind; [exists []; split_and!; [done|constructor|by left; left]|]. rewrite last_nth. destruct (is_sep e) eqn:He.
    - destruct (Nat.ltb_spec 1 (length (r' ++ [e]))) as [Hl|Hl]; cbn [andb].
      + rewrite length_app in Hl |- *. cbn [length] in Hl |- *. replace (length r' + 1 - 1)%nat with (length r') by lia. rewrite take_app_length. exists [e]. split_and!; [done|by repeat constructor|].
        left. right. destruct r' as [|x r' _] using rev_ind; [cbn in Hl; lia|]. exists r', x. split; [done|]. destruct (is_sep x) eqn:Hx; [|done]. destruct Hnormal as (_&Hs).
        rewrite (Hs r' x e []) in He; [done| |done]. by rewrite <- app_assoc.
      + exists []. rewrite take_ge by done. rewrite app_nil_r. split_and!; [done|constructor|]. right. rewrite length_app in Hl. cbn in Hl. exists e. destruct r'; [done|cbn in Hl; lia].
    - rewrite andb_false_r, take_ge by done. exists []. rewrite app_nil_r. split_and!; [done|constructor|]. left. right. by exists r', e. }
  destruct Hcut as (y&Er&Hy&Ht). assert (Hnt : normal (take (cut r) r)) by (apply (normal_app _ y); by rewrite <- Er). split_and!; try done.
  - unfold bebopc_path_normalize, request, mbind, C_bind. by rewrite Hn.
  - rewrite <- Hseg. transitivity (segments (take (cut r) r ++ y)); [by rewrite segments_trim|by rewrite <- Er].
  - by apply Hfix.
Qed.

Module PathExamples.
Definition str (s : string) : list Z := map (λ c, Z.of_N (N_of_ascii c)) (list_ascii_of_string s).
(** "lib//" and "a.bop". *)
Lemma path_join_roundtrip_witness :
  ∃ path, bebopc_path_join (Some (str "lib//")) (Some (str "a.bop")) 0%nat = Some (Some path, 1%nat) ∧ path = str "lib/a.bop" ∧
    segments path = segments (str "lib//") ++ segments (str "a.bop") ∧ bebopc_path_relative (Some (str "lib//")) (Some path) 1%nat = Some (Some (str "a.bop"), 2%nat).
Proof.
  destruct (path_join_roundtrip (str "lib//") (str "a.bop") 0%nat) as (path&E&Hseg&_&Hrel&_); [done|done|]. exists path. split_and!; [exact E| |exact Hseg|exact Hrel].
  vm_compute in E. by injection E.
Defined.
Lemma path_normalize_exact_witness : ∃ r, bebopc_path_normalize (Some (str "a\\/b//")) 0%nat = Some (Some r, 1%nat) ∧ r = str "a/b" ∧ segments r = segments (str "a\\/b//").
Proof.
  destruct (path_normalize_exact (str "a\\/b//") 0%nat) as (r&E&Hseg&_); [done|]. exists r. split_and!; [exact E| |exact Hseg]. vm_compute in E. by injection E.
Defined.
(** In an empty directory the path is one of the root. *)
Example join_of_nothing : bebopc_path_join (Some []) (Some (str "a")) 0%nat = Some (Some (str "/a"), 1%nat).
Proof. reflexivity. Qed.
End PathExamples.
