(* ===== verification/Emit.v ===== *)
(** The source emitter ([bebop/src/bebop_emit.c]): from a parsed schema back to its text.

    The text is written to a buffer that grows in the arena of the context; a refused growth
    sets a flag with which nothing is written any more. A text is its bytes without the
    terminator. The source of the schema, its tokens and their trivia are arguments, and so is
    what [printf] writes for a floating-point number ("%g"). *)
From Stdlib Require Import SpecFloat.
From stdpp Require Import list gmap strings.
From S2P Require Import Prelude.
From S2P Require Import Scanner.
From S2P Require Import Schema.
From S2P Require Import Literals.
From S2P Require Import Imports.
From S2P Require Import Registry.
From S2P Require Import Resolve.
From S2P Require Import Parser.

(** ** Texts *)

(** The decimal digits of a number ("%u"). Fuel: their number. *)
Fixpoint decimal_loop (fuel : nat) (n : Z) : list Z :=
  match fuel with
  | O => []
  | S fuel => (if n <? 10 then [] else decimal_loop fuel (n / 10)) ++ [48 + n mod 10]
  end.
Definition decimal (n : Z) : list Z := decimal_loop 20 n.
Definition signed_decimal (n : Z) : list Z := if n <? 0 then 45 :: decimal (- n) else decimal n.
(** A number in a field of a width, filled with zeros ("%0wd"). *)
Definition padded (width : nat) (n : Z) : list Z :=
  let text := decimal (Z.abs n) in
  let sign := if n <? 0 then [45] else [] in
  sign ++ replicate (width - length sign - length text) 48 ++ text.
(** Hexadecimal digits: two of them ("%02x"), and those of a number ("%X"). *)
Definition lower_hex (n : Z) : Z := if n <? 10 then 48 + n else 87 + n.
Definition upper_hex (n : Z) : Z := if n <? 10 then 48 + n else 55 + n.
Definition hex_byte (b : Z) : list Z := [lower_hex (b / 16); lower_hex (b mod 16)].
Definition hex_number (b : Z) : list Z := (if b <? 16 then [] else [upper_hex (b / 16)]) ++ [upper_hex (b mod 16)].

(** [bebop_type_kind_name]; an unknown kind is undefined. *)
Definition bebop_type_kind_name (kind : bebop_type_kind_t) : option (list Z) :=
  chars <$> match kind with
  | BEBOP_TYPE_UNKNOWN => None
  | BEBOP_TYPE_BOOL => Some "bool" | BEBOP_TYPE_BYTE => Some "byte" | BEBOP_TYPE_INT8 => Some "int8" | BEBOP_TYPE_INT16 => Some "int16"
  | BEBOP_TYPE_UINT16 => Some "uint16" | BEBOP_TYPE_INT32 => Some "int32" | BEBOP_TYPE_UINT32 => Some "uint32"
  | BEBOP_TYPE_INT64 => Some "int64" | BEBOP_TYPE_UINT64 => Some "uint64" | BEBOP_TYPE_INT128 => Some "int128"
  | BEBOP_TYPE_UINT128 => Some "uint128" | BEBOP_TYPE_FLOAT16 => Some "float16" | BEBOP_TYPE_FLOAT32 => Some "float32"
  | BEBOP_TYPE_FLOAT64 => Some "float64" | BEBOP_TYPE_BFLOAT16 => Some "bfloat16" | BEBOP_TYPE_STRING => Some "string"
  | BEBOP_TYPE_UUID => Some "uuid" | BEBOP_TYPE_TIMESTAMP => Some "timestamp" | BEBOP_TYPE_DURATION => Some "duration"
  | BEBOP_TYPE_ARRAY => Some "array" | BEBOP_TYPE_FIXED_ARRAY => Some "fixed_array" | BEBOP_TYPE_MAP => Some "map"
  | BEBOP_TYPE_DEFINED => Some "defined"
  end%string.
(** The text of a scalar type in [bebop__emit_type]; others have none. *)
Definition scalar_text (kind : bebop_type_kind_t) : option (list Z) :=
  match kind with
  | BEBOP_TYPE_UNKNOWN | BEBOP_TYPE_ARRAY | BEBOP_TYPE_FIXED_ARRAY | BEBOP_TYPE_MAP | BEBOP_TYPE_DEFINED => None
  | kind => bebop_type_kind_name kind
  end.

(** *** Literals without a text of their own *)

(** One character of a string, and one byte of an array of bytes. *)
Definition escape_common (c : Z) : option (list Z) :=
  if c =? 34 then Some [92; 34] else if c =? 92 then Some [92; 92] else if c =? 10 then Some [92; 110]
  else if c =? 13 then Some [92; 114] else if c =? 9 then Some [92; 116] else if c =? 0 then Some [92; 48] else None.
Definition escape_char (c : Z) : list Z :=
  match escape_common c with
  | Some text => text
  | None => if (c <? 32) || (c =? 127) then [92; 117; 123] ++ hex_number c ++ [125] else [c]
  end.
Definition escape_byte (c : Z) : list Z :=
  match escape_common c with
  | Some text => text
  | None => if (32 <=? c) && (c <? 127) then [c] else [92; 120] ++ hex_byte c
  end.

Definition uuid_order : list nat := [3; 2; 1; 0; 5; 4; 7; 6; 8; 9; 10; 11; 12; 13; 14; 15]%nat.
(** The bytes at the given places, with dashes; outside of the array it is undefined. *)
Definition emitted_uuid (g : list Z) : option (list Z) :=
  bs ← mapM (λ i, g !! i) uuid_order;
  let hex l := concat (map hex_byte l) in
  Some (34 :: hex (take 4 bs) ++ 45 :: hex (take 2 (drop 4 bs)) ++ 45 :: hex (take 2 (drop 6 bs)) ++ 45 :: hex (take 2 (drop 8 bs)) ++
    45 :: hex (drop 10 bs) ++ [34]).

(** The date of a number of days since 1970. Division is that of C. *)
Definition civil_from_days (days : Z) : Z * Z * Z :=
  let days := days + 719468 in
  let era := Z.quot (if 0 <=? days then days else days - 146096) 146097 in
  let doe := days - era * 146097 in
  let yoe := Z.quot (doe - Z.quot doe 1460 + Z.quot doe 36524 - Z.quot doe 146096) 365 in
  let y := to_signed 32 (u32 (yoe + era * 400)) in
  let doy := doe - (365 * yoe + Z.quot yoe 4 - Z.quot yoe 100) in
  let mp := Z.quot (5 * doy + 2) 153 in
  let d := doy - Z.quot (153 * mp + 2) 5 + 1 in
  let m := mp + (if mp <? 10 then 3 else -9) in
  (y + (if m <=? 2 then 1 else 0), m, d).
(** A fraction without the zeros at its end. Fuel: the digits that may go. *)
Fixpoint trim_zeros (fuel : nat) (n : Z) (digits : nat) : Z * nat :=
  match fuel with
  | S fuel => if Z.rem n 10 =? 0 then trim_zeros fuel (Z.quot n 10) (digits - 1) else (n, digits)
  | O => (n, digits)
  end.
Definition emitted_timestamp (secs nanos : Z) : list Z :=
  let days := Z.quot secs 86400 in
  let rem := Z.rem secs 86400 in
  let '(days, rem) := if rem <? 0 then (days - 1, rem + 86400) else (days, rem) in
  let '(year, m, d) := civil_from_days days in
  let fraction :=
    if negb (nanos =? 0) then let '(n, digits) := trim_zeros 8 nanos 9 in 46 :: padded digits n else [] in
  34 :: padded 4 year ++ 45 :: padded 2 m ++ 45 :: padded 2 d ++ 84 :: padded 2 (Z.quot rem 3600) ++
  58 :: padded 2 (Z.quot (Z.rem rem 3600) 60) ++ 58 :: padded 2 (Z.rem rem 60) ++ fraction ++ [90; 34].

(** The pieces of a duration; the negation of a least number is undefined. *)
Definition emitted_duration (secs nanos : Z) : option (list (list Z)) :=
  let negative := (secs <? 0) || (nanos <? 0) in
  if (secs =? - 2 ^ 63) || (nanos =? - 2 ^ 31) then None
  else
    let secs := if negative then Z.abs secs else secs in
    let nanos := if negative then Z.abs nanos else nanos in
    let hours := Z.quot secs 3600 in
    let secs := Z.rem secs 3600 in
    let minutes := Z.quot secs 60 in
    let secs := Z.rem secs 60 in
    let ms := Z.quot nanos 1000000 in
    let us := Z.quot (Z.rem nanos 1000000) 1000 in
    let ns := Z.rem nanos 1000 in
    let part (b : bool) (n : Z) (unit : string) := if b then [signed_decimal n ++ chars unit] else [] in
    Some ((if negative then [[45]] else []) ++
      part (0 <? hours) hours "h"%string ++ part (0 <? minutes) minutes "m"%string ++
      part ((0 <? secs) || (hours =? 0) && (minutes =? 0) && (nanos =? 0)) secs "s"%string ++
      part (0 <? ms) ms "ms"%string ++ part (0 <? us) us "us"%string ++ part (0 <? ns) ns "ns"%string).

(** ** The buffer *)

Section Emit.
Context `{Context, DefMap def_ptr}.
Record bebop__emit_buf_t : Type := mkEmitBuf {
  eb_ctx : ctx;
  eb_ptr : option Z;
  eb_data : list Z;
  eb_capacity : Z;
  eb_indent : Z;
  eb_error : bool;
  eb_last_pos : Z
}.
Abbreviation M := (C bebop__emit_buf_t).
(** The definitions; the source of the schema, its tokens and the trivia they share. *)
Context (format_g : spec_float → list Z) (h : heap) (source : option (list Z)) (tokens : list bebop_token_t) (trivia : list bebop_trivia_t).

Definition bebop__emit_init (c : ctx) : bebop__emit_buf_t := mkEmitBuf c None [] 0 0 false 0.

Definition set_room (c : ctx) (p : option Z) (cap : Z) (b : bebop__emit_buf_t) : bebop__emit_buf_t :=
  mkEmitBuf c p (eb_data b) cap (eb_indent b) (eb_error b) (eb_last_pos b).
Definition set_emitted (data : list Z) (b : bebop__emit_buf_t) : bebop__emit_buf_t :=
  mkEmitBuf (eb_ctx b) (eb_ptr b) data (eb_capacity b) (eb_indent b) (eb_error b) (eb_last_pos b).
Definition set_emit_error (c : ctx) (b : bebop__emit_buf_t) : bebop__emit_buf_t :=
  mkEmitBuf c (eb_ptr b) (eb_data b) (eb_capacity b) (eb_indent b) true (eb_last_pos b).
Definition set_indent (n : Z) (b : bebop__emit_buf_t) : bebop__emit_buf_t :=
  mkEmitBuf (eb_ctx b) (eb_ptr b) (eb_data b) (eb_capacity b) n (eb_error b) (eb_last_pos b).
Definition set_last_pos (n : Z) (b : bebop__emit_buf_t) : bebop__emit_buf_t :=
  mkEmitBuf (eb_ctx b) (eb_ptr b) (eb_data b) (eb_capacity b) (eb_indent b) (eb_error b) n.

(** The doubling of the capacity. Fuel: a size has 64 bits. *)
Fixpoint grown_cap (fuel : nat) (new_cap need : Z) : option Z :=
  if new_cap <? need then match fuel with O => None | S fuel => grown_cap fuel (u64 (new_cap * 2)) need end
  else Some new_cap.
Definition bebop__emit_grow (needed : Z) : M unit :=
  b ← gets id;
  if eb_error b then mret tt
  else
    new_cap ← lift (grown_cap 64 (if eb_capacity b =? 0 then 1024 else eb_capacity b) (u64 (zlen (eb_data b) + needed + 1)));
    if eb_capacity b <? new_cap then
      let '(new_data, c) := ctx_realloc (eb_ptr b) (eb_capacity b) new_cap (eb_ctx b) in
      match new_data with
      | None => modify (set_emit_error c)
      | Some _ => modify (set_room c new_data new_cap)
      end
    else mret tt.

(** The copy of a text behind the data: undefined when there is no room for it. *)
Definition put_emitted (text : list Z) : M unit :=
  b ← gets id;
  if eb_capacity b <? zlen (eb_data b) + zlen text then ub else modify (set_emitted (eb_data b ++ text)).
Definition emit_text (text : list Z) : M unit :=
  bebop__emit_grow (zlen text);;
  b ← gets id;
  if eb_error b then mret tt else put_emitted text.

(** The argument is null or a string. *)
Definition bebop__emit_str (str : option (list Z)) : M unit :=
  b ← gets id;
  match str with
  | None => mret tt
  | Some str => if eb_error b then mret tt else emit_text str
  end.
Definition bebop__emit_str_n (str : list Z) : M unit :=
  b ← gets id;
  if (zlen str =? 0) || eb_error b then mret tt else emit_text str.
Definition bebop__emit_char (c : Z) : M unit := emit_text [c].
Definition piece (text : list Z) : M unit := bebop__emit_str (Some text).
Definition lit (s : string) : M unit := piece (chars s).
Definition bebop__emit_u32 (val : Z) : M unit := bebop__emit_str (Some (decimal val)).
Definition bebop__emit_i64 (val : Z) : M unit := bebop__emit_str (Some (signed_decimal val)).
Definition bebop__emit_u64 (val : Z) : M unit := bebop__emit_str (Some (decimal val)).
Definition bebop__emit_f64 (val : spec_float) : M unit := bebop__emit_str (Some (format_g val)).
Definition bebop__emit_newline : M unit := bebop__emit_char 10.

Fixpoint repeat_emit (n : nat) (c : M unit) : M unit :=
  match n with O => mret tt | S n => c;; repeat_emit n c end.
Definition bebop__emit_raw_delimiter (bracket level : Z) : M unit :=
  bebop__emit_char bracket;; repeat_emit (Z.to_nat level) (bebop__emit_char 61);; bebop__emit_char bracket.
Definition bebop__emit_indent : M unit :=
  b ← gets id; repeat_emit (Z.to_nat (eb_indent b)) (lit "    ").
Definition indented (c : M unit) : M unit :=
  b ← gets id; modify (set_indent (eb_indent b + 1));; c;; b' ← gets id; modify (set_indent (eb_indent b' - 1)).
Fixpoint each_emit {A} (f : A → M unit) (l : list A) : M unit :=
  match l with [] => mret tt | a :: l => f a;; each_emit f l end.

Definition string_of_handle (s : Z) : M (option (list Z)) := gets (λ b, ctx_str (eb_ctx b) s).
(** A string of the pool where a C string is asked for: it ends at its first zero. *)
Definition emit_name (s : Z) : M unit := t ← string_of_handle s; bebop__emit_str (c_string <$> t).

(** ** Comments *)

Definition is_comment (t : bebop_trivia_t) : bool :=
  match tv_kind t with BEBOP_TRIVIA_LINE_COMMENT | BEBOP_TRIVIA_BLOCK_COMMENT => true | _ => false end.
Definition emit_comment (t : bebop_trivia_t) : M unit :=
  bebop__emit_indent;;
  src ← lift source;
  text ← lift (load_bytes src (off (tv_span t)) (len (tv_span t)));
  each_emit bebop__emit_char text;;
  bebop__emit_newline.
(** The trivia before one token. *)
Fixpoint trivia_loop (last_pos target_pos : Z) (items : list bebop_trivia_t) : M unit :=
  match items with
  | [] => mret tt
  | t :: items =>
      if off (tv_span t) <? last_pos then trivia_loop last_pos target_pos items
      else if target_pos <=? off (tv_span t) then mret tt
      else (if is_comment t then emit_comment t else mret tt);; trivia_loop last_pos target_pos items
  end.
Fixpoint tokens_loop (last_pos target_pos : Z) (toks : list bebop_token_t) : M unit :=
  match toks with
  | [] => mret tt
  | tok :: toks =>
      trivia_loop last_pos target_pos (trivia_items trivia (tk_leading tok));;
      if target_pos <=? off (tk_span tok) then mret tt else tokens_loop last_pos target_pos toks
  end.
Definition bebop__emit_trivia_until (target_pos : Z) : M unit :=
  match tokens with
  | [] => mret tt
  | _ => b ← gets id; tokens_loop (eb_last_pos b) target_pos tokens;; modify (set_last_pos target_pos)
  end.

(** ** Literals *)

Definition quoted (c : M unit) : M unit := bebop__emit_char 34;; c;; bebop__emit_char 34.
(** The text as it was written, if there is one. *)
Definition raw_or (raw : list Z) (quotes : bool) (otherwise : M unit) : M unit :=
  match raw with
  | [] => otherwise
  | _ => if quotes then quoted (bebop__emit_str_n raw) else bebop__emit_str_n raw
  end.
Definition bebop__emit_literal (l : bebop_literal_t) : M unit :=
  raw_str ← string_of_handle (lt_raw_value l);
  let raw := default [] raw_str in
  match lt_value l with
  | LitBool b => lit (if b then "true" else "false")
  | LitInt i => raw_or raw false (bebop__emit_i64 i)
  | LitFloat f => raw_or raw false (bebop__emit_f64 f)
  | LitString s =>
      match source with
      | Some src =>
          if 0 <? len (lt_span l) then
            text ← lift (load_bytes src (off (lt_span l)) (len (lt_span l))); bebop__emit_str_n text
          else raw_or raw true (s ← string_of_handle s; quoted (each_emit (λ c, piece (escape_char c)) (default [] s)))
      | None => raw_or raw true (s ← string_of_handle s; quoted (each_emit (λ c, piece (escape_char c)) (default [] s)))
      end
  | LitUuid g => raw_or raw true (text ← lift (emitted_uuid g); piece text)
  | LitBytes data =>
      piece [98; 34];;
      raw_or raw false (each_emit (λ c, piece (escape_byte c)) data);;
      bebop__emit_char 34
  | LitTimestamp secs nanos _ => raw_or raw true (piece (emitted_timestamp secs nanos))
  | LitDuration secs nanos => raw_or raw true (pieces ← lift (emitted_duration secs nanos); quoted (each_emit piece pieces))
  end.

(** ** Decorators and documentation *)

(** What stands before all but the first. *)
Fixpoint separated {A} (f : A → M unit) (first : bool) (l : list A) : M unit :=
  match l with
  | [] => mret tt
  | a :: l => (if first then mret tt else lit ", ");; f a;; separated f false l
  end.
Definition emit_argument (arg : bebop_decorator_arg_t) : M unit :=
  (if bebop_str_is_null (da_name arg) then mret tt else emit_name (da_name arg);; lit ": ");;
  bebop__emit_literal (da_value arg).
Definition emit_decorator (dec : bebop_decorator_t) : M unit :=
  bebop__emit_indent;;
  bebop__emit_char 64;;
  emit_name (dc_name dec);;
  match dc_args dec with
  | [] => mret tt
  | args => bebop__emit_char 40;; separated emit_argument true args;; bebop__emit_char 41
  end;;
  bebop__emit_newline.
Definition bebop__emit_decorators (l : list bebop_decorator_t) : M unit := each_emit emit_decorator l.

(** The text of a comment, each line behind an indentation and three slashes. *)
Fixpoint doc_loop (at_line_start : bool) (text : list Z) : M unit :=
  match text with
  | [] => mret tt
  | c :: text => (if at_line_start then bebop__emit_indent;; lit "/// " else mret tt);; bebop__emit_char c;; doc_loop (c =? 10) text
  end.
Definition bebop__emit_doc (doc : Z) : M unit :=
  if bebop_str_is_null doc then mret tt
  else
    text ← string_of_handle doc;
    match c_string <$> text with
    | None | Some [] => mret tt
    | Some text => doc_loop true text;; bebop__emit_newline
    end.

(** ** Types *)

Inductive bebop__emit_type_frame_t : Type :=
  | EMIT_TYPE_VISIT (type : bebop_type_t) | EMIT_TYPE_ARRAY_SUFFIX | EMIT_TYPE_FIXED_ARRAY_SUFFIX (size : Z)
  | EMIT_TYPE_MAP_COMMA | EMIT_TYPE_MAP_CLOSE.
Definition BEBOP_EMIT_TYPE_STACK_SIZE : nat := 128.

(** The frames that a type leads to, the top first, when the stack has room for the number
    that the code asks for. More frames than there is room for are written behind the array,
    which is undefined. *)
Definition push_frames (asked : nat) (new stack : list bebop__emit_type_frame_t) : M (list bebop__emit_type_frame_t) :=
  if (BEBOP_EMIT_TYPE_STACK_SIZE <? length stack + asked)%nat then mret stack
  else if (BEBOP_EMIT_TYPE_STACK_SIZE <? length stack + length new)%nat then ub
  else mret (new ++ stack).
Definition visit_type (t : bebop_type_t) (stack : list bebop__emit_type_frame_t) : M (list bebop__emit_type_frame_t) :=
  match t with
  | TNull => mret stack
  | TScalar kind => match scalar_text kind with Some text => bebop__emit_str (Some text) | None => mret tt end;; mret stack
  | TArray element => push_frames 2 [EMIT_TYPE_VISIT element; EMIT_TYPE_ARRAY_SUFFIX] stack
  | TFixedArray element size => push_frames 2 [EMIT_TYPE_VISIT element; EMIT_TYPE_FIXED_ARRAY_SUFFIX size] stack
  | TMap key value =>
      lit "map[";;
      push_frames 3 [EMIT_TYPE_VISIT key; EMIT_TYPE_MAP_COMMA; EMIT_TYPE_VISIT value; EMIT_TYPE_MAP_CLOSE] stack
  | TDefined name _ => emit_name name;; mret stack
  end.
Definition emit_frame (frame : bebop__emit_type_frame_t) (stack : list bebop__emit_type_frame_t) : M (list bebop__emit_type_frame_t) :=
  match frame with
  | EMIT_TYPE_VISIT t => visit_type t stack
  | EMIT_TYPE_ARRAY_SUFFIX => lit "[]";; mret stack
  | EMIT_TYPE_FIXED_ARRAY_SUFFIX size => bebop__emit_char 91;; bebop__emit_u32 size;; bebop__emit_char 93;; mret stack
  | EMIT_TYPE_MAP_COMMA => lit ", ";; mret stack
  | EMIT_TYPE_MAP_CLOSE => bebop__emit_char 93;; mret stack
  end.
(** The loop. Fuel: three frames for each part of the type. *)
Fixpoint emit_type_loop (fuel : nat) (stack : list bebop__emit_type_frame_t) : M unit :=
  match stack with
  | [] => mret tt
  | frame :: stack => match fuel with O => ub | S fuel => stack ← emit_frame frame stack; emit_type_loop fuel stack end
  end.
Definition bebop__emit_type (t : bebop_type_t) : M unit :=
  match t with TNull => mret tt | t => emit_type_loop (3 * type_nodes t) [EMIT_TYPE_VISIT t] end.

(** ** Parts of definitions *)

Definition end_of_part : M unit := bebop__emit_char 59;; bebop__emit_newline.
Definition emit_struct_field (f : bebop_field_t) : M unit :=
  bebop__emit_doc (fd_documentation f);; bebop__emit_decorators (fd_decorators f);; bebop__emit_indent;;
  emit_name (fd_name f);; lit ": ";; bebop__emit_type (fd_type f);; end_of_part.
Definition bebop__emit_struct_fields (fields : list bebop_field_t) : M unit := each_emit emit_struct_field fields.
Definition emit_message_field (f : bebop_field_t) : M unit :=
  bebop__emit_doc (fd_documentation f);; bebop__emit_decorators (fd_decorators f);; bebop__emit_indent;;
  emit_name (fd_name f);; bebop__emit_char 40;; bebop__emit_u32 (fd_index f);; lit "): ";; bebop__emit_type (fd_type f);; end_of_part.
Definition bebop__emit_message_fields (fields : list bebop_field_t) : M unit := each_emit emit_message_field fields.

Definition is_signed_type (base : bebop_type_kind_t) : bool :=
  match base with
  | BEBOP_TYPE_INT8 | BEBOP_TYPE_INT16 | BEBOP_TYPE_INT32 | BEBOP_TYPE_INT64 | BEBOP_TYPE_INT128 => true
  | _ => false
  end.
Definition emit_member (base : bebop_type_kind_t) (m : bebop_enum_member_t) : M unit :=
  bebop__emit_doc (em_documentation m);; bebop__emit_decorators (em_decorators m);; bebop__emit_indent;;
  emit_name (em_name m);; lit " = ";;
  (if negb (bebop_str_is_null (em_value_expr m)) then emit_name (em_value_expr m)
   else if is_signed_type base then bebop__emit_i64 (to_signed 64 (em_value m)) else bebop__emit_u64 (em_value m));;
  end_of_part.
Definition bebop__emit_enum_members (members : list bebop_enum_member_t) (base : bebop_type_kind_t) : M unit :=
  each_emit (emit_member base) members.

(** A definition in a branch of a union, a struct or a message: undefined for another one. *)
Definition emit_branch_field (is_message : bool) (f : bebop_field_t) : M unit :=
  bebop__emit_indent;; emit_name (fd_name f);;
  (if is_message then bebop__emit_char 40;; bebop__emit_u32 (fd_index f);; bebop__emit_char 41 else mret tt);;
  lit ": ";; bebop__emit_type (fd_type f);; end_of_part.
Definition emit_branch_def (d : bebop_def_t) : M unit :=
  match df_body d with
  | MessageDef fields => lit "message {";; mret (true, fields)
  | StructDef fields is_mutable _ => (if is_mutable then lit "mut {" else bebop__emit_char 123);; mret (false, fields)
  | _ => ub
  end ≫= λ '(is_message, fields),
  bebop__emit_newline;;
  indented (each_emit (emit_branch_field is_message) fields);;
  bebop__emit_indent;; lit "};";; bebop__emit_newline.
(** The definition of a branch, if it has one of its own; and what is behind its name. *)
Definition branch_def (b : bebop_union_branch_t) : option (option bebop_def_t) :=
  match br_def b with None => Some None | Some q => Some <$> h !! q end.
Definition is_exported (d : option bebop_def_t) : bool :=
  match d with Some d => bool_decide (df_visibility d = BEBOP_VIS_EXPORT) | None => false end.
Definition emit_branch_body (d : option bebop_def_t) (t : bebop_type_t) : M unit :=
  match d, t with
  | Some d, _ => emit_branch_def d
  | None, TNull => mret tt
  | None, t => bebop__emit_type t;; end_of_part
  end.
Definition emit_branch (b : bebop_union_branch_t) : M unit :=
  bebop__emit_doc (br_documentation b);; bebop__emit_decorators (br_decorators b);; bebop__emit_indent;;
  d ← lift (branch_def b);
  (if is_exported d then lit "export " else mret tt);;
  emit_name (br_name b);; bebop__emit_char 40;; bebop__emit_u32 (br_discriminator b);; lit "): ";;
  emit_branch_body d (br_type_ref b).
Definition bebop__emit_union_branches (branches : list bebop_union_branch_t) : M unit := each_emit emit_branch branches.

Definition emit_method (m : bebop_method_t) : M unit :=
  bebop__emit_doc (me_documentation m);; bebop__emit_decorators (me_decorators m);; bebop__emit_indent;;
  emit_name (me_name m);; bebop__emit_char 40;;
  match me_method_type m with BEBOP_METHOD_CLIENT_STREAM | BEBOP_METHOD_DUPLEX_STREAM => lit "stream " | _ => mret tt end;;
  bebop__emit_type (me_request_type m);; lit "): ";;
  match me_method_type m with BEBOP_METHOD_SERVER_STREAM | BEBOP_METHOD_DUPLEX_STREAM => lit "stream " | _ => mret tt end;;
  bebop__emit_type (me_response_type m);; end_of_part.
Definition bebop__emit_methods (methods : list bebop_method_t) : M unit := each_emit emit_method methods.

(** ** Definitions *)

Definition bebop__is_inline_branch_def (parent : bebop_def_t) (nested : def_ptr) : bool :=
  match df_body parent with
  | UnionDef branches => existsb (λ b, bool_decide (br_def b = Some nested)) branches
  | _ => false
  end.
Definition bebop__emit_visibility (d : bebop_def_t) : M unit :=
  match df_parent d, df_visibility d with
  | None, BEBOP_VIS_LOCAL => lit "local "
  | Some _, BEBOP_VIS_EXPORT => lit "export "
  | _, _ => mret tt
  end.

(** What may be around the body of a definition: its head up to the brace, and what closes
    it. *)
Definition emit_block (d : bebop_def_t) (keyword : M unit) (rest_of_head body : M unit) : M unit :=
  bebop__emit_indent;; bebop__emit_visibility d;; keyword;; emit_name (df_name d);; rest_of_head;; lit " {";; bebop__emit_newline;;
  indented body;;
  bebop__emit_indent;; bebop__emit_char 125;; bebop__emit_newline.

Definition emitted_targets : list (Z * string) :=
  [(BEBOP_TARGET_ENUM, "ENUM"); (BEBOP_TARGET_STRUCT, "STRUCT"); (BEBOP_TARGET_MESSAGE, "MESSAGE"); (BEBOP_TARGET_UNION, "UNION");
   (BEBOP_TARGET_FIELD, "FIELD"); (BEBOP_TARGET_SERVICE, "SERVICE"); (BEBOP_TARGET_METHOD, "METHOD"); (BEBOP_TARGET_BRANCH, "BRANCH")]%string.
Fixpoint emit_targets (t : Z) (first : bool) (targets : list (Z * string)) : M unit :=
  match targets with
  | [] => mret tt
  | (bit, name) :: targets =>
      if Z.land t bit =? 0 then emit_targets t first targets
      else (if first then mret tt else lit " | ");; lit name;; emit_targets t false targets
  end.
Definition emit_param (p : bebop_macro_param_def_t) : M unit :=
  bebop__emit_indent;; lit "param ";; emit_name (mp_name p);; bebop__emit_char (if mp_required p then 33 else 63);; lit ": ";;
  (if bool_decide (mp_type p = BEBOP_TYPE_DEFINED) then lit "type"
   else name ← lift (bebop_type_kind_name (mp_type p)); bebop__emit_str (Some name));;
  bebop__emit_newline.
(** A block of Lua, which is taken from the source. *)
Definition emit_lua (keyword : string) (span : bebop_span_t) (level : Z) : M unit :=
  match source with
  | Some src =>
      if 0 <? len span then
        bebop__emit_indent;; lit keyword;; bebop__emit_raw_delimiter 91 level;;
        text ← lift (load_bytes src (off span) (len span)); bebop__emit_str_n text;;
        bebop__emit_raw_delimiter 93 level;; bebop__emit_newline
      else mret tt
  | None => mret tt
  end.
Definition emit_decorator_def (name : Z) (dd : decorator_def_t) : M unit :=
  lit "#decorator(";; emit_name name;; piece (chars ") {" ++ [10]);;
  indented
    (bebop__emit_indent;; lit "targets = ";;
     (if dd_targets dd =? BEBOP_TARGET_ALL then lit "ALL" else emit_targets (dd_targets dd) true emitted_targets);;
     bebop__emit_newline;;
     (if dd_allow_multiple dd then bebop__emit_indent;; piece (chars "multiple = true" ++ [10]) else mret tt);;
     each_emit emit_param (dd_params dd);;
     emit_lua "validate " (dd_validate_span dd) (dd_validate_level dd);;
     emit_lua "export " (dd_export_span dd) (dd_export_level dd));;
  piece (chars "}" ++ [10]).

(** The definition and those nested in it. Fuel: the number of definitions that lie around
    each other. *)
Fixpoint emitter__emit_def (fuel : nat) (p : def_ptr) : M unit :=
  match fuel with
  | O => ub
  | S fuel =>
      d ← lift (h !! p);
      let bebop__emit_nested_defs :=
        each_emit (λ q, if bebop__is_inline_branch_def d q then mret tt else bebop__emit_newline;; emitter__emit_def fuel q) (df_nested_defs d) in
      bebop__emit_doc (df_documentation d);;
      bebop__emit_decorators (df_decorators d);;
      match df_body d with
      | EnumDef base members =>
          emit_block d (lit "enum ")
            (if bool_decide (base = BEBOP_TYPE_UINT32) then mret tt
             else lit " : ";; name ← lift (bebop_type_kind_name base); bebop__emit_str (Some name))
            (bebop__emit_enum_members members base)
      | StructDef fields is_mutable _ =>
          emit_block d ((if is_mutable then lit "mut " else mret tt);; lit "struct ") (mret tt) (bebop__emit_struct_fields fields;; bebop__emit_nested_defs)
      | MessageDef fields => emit_block d (lit "message ") (mret tt) (bebop__emit_message_fields fields;; bebop__emit_nested_defs)
      | UnionDef branches => emit_block d (lit "union ") (mret tt) (bebop__emit_union_branches branches;; bebop__emit_nested_defs)
      | ServiceDef methods _ => emit_block d (lit "service ") (mret tt) (bebop__emit_methods methods)
      | ConstDef type value =>
          bebop__emit_indent;; bebop__emit_visibility d;; lit "const ";; bebop__emit_type type;; bebop__emit_char 32;; emit_name (df_name d);;
          lit " = ";; bebop__emit_literal value;; end_of_part
      | DecoratorDef dd => emit_decorator_def (df_name d) dd
      | UnknownDef => mret tt
      end
  end.

(** ** Schemas *)

Definition path_after (a b : option (list Z)) : bool :=
  match a, b with
  | Some a, Some b => match strcmp a b with Gt => true | _ => false end
  | Some _, None => true
  | None, _ => false
  end.
(** The insertion of a path into the sorted ones before it, from their end. *)
Fixpoint insert_down (key : option (list Z)) (sorted : list (option (list Z))) : list (option (list Z)) :=
  match sorted with
  | [] => [key]
  | path :: sorted => if path_after path key then path :: insert_down key sorted else key :: path :: sorted
  end.
Definition sort_paths (paths : list (option (list Z))) : list (option (list Z)) :=
  rev (fold_left (λ sorted key, insert_down key sorted) paths []).
Definition emit_imports (imports : list bebop_import_t) : M unit :=
  match imports with
  | [] => mret tt
  | _ =>
      b ← gets id;
      let '(idx, c) := ctx_alloc_n 4 (zlen imports) 4 (eb_ctx b) in
      modify (λ b, set_room c (eb_ptr b) (eb_capacity b) b);;
      match idx with
      | None => mret tt
      | Some _ =>
          paths ← gets (λ b, map (λ imp, c_string <$> ctx_str (eb_ctx b) (im_path imp)) imports);
          each_emit (λ path, piece (chars "import " ++ [34]);; bebop__emit_str path;; piece [34; 10]) (sort_paths paths)
      end;;
      bebop__emit_newline
  end.

Definition emit_top_level (fuel : nat) (p : def_ptr) : M unit :=
  d ← lift (h !! p);
  match df_parent d with
  | Some _ => mret tt
  | None => bebop__emit_trivia_until (off (df_span d));; emitter__emit_def fuel p;; bebop__emit_newline
  end.

(** The end of an emission: the text without its terminator, or null. *)
Definition bebop__emit_finish (m : M unit) : C ctx (option (list Z)) := λ c,
  match (m;; bebop__emit_char 0) (bebop__emit_init c) with
  | None => None
  | Some (_, b) => Some (if eb_error b then None else Some (take (length (eb_data b) - 1) (eb_data b)), eb_ctx b)
  end.

(** The text of a definition. *)
Definition bebop_emit_def (p : def_ptr) : C ctx (option (list Z)) := bebop__emit_finish (emitter__emit_def (S (length h)) p).

(** The text of a schema of the edition of 2026, the only one there is. *)
Definition emit_package (package : Z) : M unit :=
  if bebop_str_is_null package then mret tt else lit "package ";; emit_name package;; piece [59; 10; 10].
Definition bebop_emit_schema (sc : schema_t) : C ctx (option (list Z)) :=
  bebop__emit_finish
    (piece (chars "edition = " ++ 34 :: chars "2026" ++ [34; 10; 10]);;
     emit_package (sch_package sc);;
     emit_imports (sch_imports sc);;
     each_emit (emit_top_level (S (length h))) (sch_definitions sc);;
     bebop__emit_trivia_until (match source with Some src => zlen src | None => 0 end)).
End Emit.
