(* ===== verification/EmitSpec.v ===== *)
(** What the source emitter promises: the text of a schema as a function of the schema and
    the strings of the pool, without a buffer, an arena or a stack. Where the emitter reads
    outside of an object, there is no text. *)
From Stdlib Require Import SpecFloat.
From stdpp Require Import list gmap strings.
From S2P Require Import Prelude.
From S2P Require Import Scanner.
From S2P Require Import Schema.
From S2P Require Import Imports.
From S2P Require Import Registry.
From S2P Require Import Resolve.
From S2P Require Import Parser.
From S2P Require Import Emit.

(** Texts that may be undefined, one behind the other. *)
Definition cat (a b : option (list Z)) : option (list Z) := x ← a; y ← b; Some (x ++ y).
Infix "+++" := cat (at level 60, right associativity).
Definition word (s : string) : option (list Z) := Some (chars s).
Definition each_text {A} (f : A → option (list Z)) (l : list A) : option (list Z) := foldr (λ a t, f a +++ t) (Some []) l.
Fixpoint separated_text {A} (f : A → option (list Z)) (first : bool) (l : list A) : option (list Z) :=
  match l with
  | [] => Some []
  | a :: l => Some (if first then [] else chars ", ") +++ f a +++ separated_text f false l
  end.

Section Printer.
Context `{Context, DefMap def_ptr}.
Context (format_g : spec_float → list Z) (h : heap) (source : option (list Z)) (tokens : list bebop_token_t) (trivia : list bebop_trivia_t).
(** The strings of the pool. *)
Context (str : Z → option (list Z)).

Definition name_text (s : Z) : list Z := default [] (c_string <$> str s).
Definition spaces (n : Z) : list Z := concat (replicate (Z.to_nat n) (chars "    ")).
Definition from_source (span : bebop_span_t) : option (list Z) := src ← source; load_bytes src (off span) (len span).

(** ** Types *)

Fixpoint type_text (t : bebop_type_t) : list Z :=
  match t with
  | TNull => []
  | TScalar kind => default [] (scalar_text kind)
  | TArray element => type_text element ++ chars "[]"
  | TFixedArray element size => type_text element ++ 91 :: decimal size ++ [93]
  | TMap key value => chars "map[" ++ type_text key ++ chars ", " ++ type_text value ++ [93]
  | TDefined name _ => name_text name
  end.

(** ** Literals *)

Definition quoted_text (t : option (list Z)) : option (list Z) := Some [34] +++ t +++ Some [34].
Definition own_text (raw : list Z) (quotes : bool) (otherwise : option (list Z)) : option (list Z) :=
  match raw with [] => otherwise | _ => if quotes then quoted_text (Some raw) else Some raw end.
Definition literal_text (l : bebop_literal_t) : option (list Z) :=
  let raw := default [] (str (lt_raw_value l)) in
  match lt_value l with
  | LitBool b => word (if b then "true" else "false")
  | LitInt i => own_text raw false (Some (signed_decimal i))
  | LitFloat f => own_text raw false (Some (format_g f))
  | LitString s =>
      if match source with Some _ => 0 <? len (lt_span l) | None => false end then from_source (lt_span l)
      else own_text raw true (quoted_text (Some (concat (map escape_char (default [] (str s))))))
  | LitUuid g => own_text raw true (emitted_uuid g)
  | LitBytes data => Some [98; 34] +++ own_text raw false (Some (concat (map escape_byte data))) +++ Some [34]
  | LitTimestamp secs nanos _ => own_text raw true (Some (emitted_timestamp secs nanos))
  | LitDuration secs nanos => own_text raw true (quoted_text (@concat Z <$> emitted_duration secs nanos))
  end.

(** ** Decorators, documentation, comments. *)

Definition argument_text (arg : bebop_decorator_arg_t) : option (list Z) :=
  Some (if bebop_str_is_null (da_name arg) then [] else name_text (da_name arg) ++ chars ": ") +++ literal_text (da_value arg).
Definition decorator_text (n : Z) (dec : bebop_decorator_t) : option (list Z) :=
  Some (spaces n ++ 64 :: name_text (dc_name dec)) +++
  match dc_args dec with [] => Some [] | args => Some [40] +++ separated_text argument_text true args +++ Some [41] end +++ Some [10].
Definition decorators_text (n : Z) (l : list bebop_decorator_t) : option (list Z) := each_text (decorator_text n) l.

Fixpoint doc_lines (n : Z) (at_line_start : bool) (text : list Z) : list Z :=
  match text with
  | [] => []
  | c :: text => (if at_line_start then spaces n ++ chars "/// " else []) ++ c :: doc_lines n (c =? 10) text
  end.
Definition doc_text (n doc : Z) : list Z :=
  if bebop_str_is_null doc then []
  else match name_text doc with [] => [] | text => doc_lines n true text ++ [10] end.
(** What stands before a part. *)
Definition above (n doc : Z) (decorators : list bebop_decorator_t) : option (list Z) := Some (doc_text n doc) +++ decorators_text n decorators.

(** The comments between two places of the source. *)
Definition comment_line (n : Z) (t : bebop_trivia_t) : option (list Z) :=
  if is_comment t then Some (spaces n) +++ from_source (tv_span t) +++ Some [10] else Some [].
Fixpoint trivia_text (n last target : Z) (items : list bebop_trivia_t) : option (list Z) :=
  match items with
  | [] => Some []
  | t :: items =>
      if off (tv_span t) <? last then trivia_text n last target items
      else if target <=? off (tv_span t) then Some []
      else comment_line n t +++ trivia_text n last target items
  end.
Fixpoint comments_text (n last target : Z) (toks : list bebop_token_t) : option (list Z) :=
  match toks with
  | [] => Some []
  | tok :: toks =>
      trivia_text n last target (trivia_items trivia (tk_leading tok)) +++
      if target <=? off (tk_span tok) then Some [] else comments_text n last target toks
  end.
Definition last_after (target last : Z) : Z := match tokens with [] => last | _ => target end.

(** ** Parts of definitions *)

Definition struct_field_text (n : Z) (f : bebop_field_t) : option (list Z) :=
  above n (fd_documentation f) (fd_decorators f) +++
  Some (spaces n ++ name_text (fd_name f) ++ chars ": " ++ type_text (fd_type f) ++ [59; 10]).
Definition message_field_text (n : Z) (f : bebop_field_t) : option (list Z) :=
  above n (fd_documentation f) (fd_decorators f) +++
  Some (spaces n ++ name_text (fd_name f) ++ 40 :: decimal (fd_index f) ++ chars "): " ++ type_text (fd_type f) ++ [59; 10]).
Definition member_text (base : bebop_type_kind_t) (n : Z) (m : bebop_enum_member_t) : option (list Z) :=
  above n (em_documentation m) (em_decorators m) +++
  Some (spaces n ++ name_text (em_name m) ++ chars " = " ++
    (if negb (bebop_str_is_null (em_value_expr m)) then name_text (em_value_expr m)
     else if is_signed_type base then signed_decimal (to_signed 64 (em_value m)) else decimal (em_value m)) ++ [59; 10]).
Definition branch_field_text (is_message : bool) (n : Z) (f : bebop_field_t) : list Z :=
  spaces n ++ name_text (fd_name f) ++ (if is_message then 40 :: decimal (fd_index f) ++ [41] else []) ++ chars ": " ++
  type_text (fd_type f) ++ [59; 10].
Definition branch_def_text (n : Z) (d : bebop_def_t) : option (list Z) :=
  '(head, is_message, fields) ← match df_body d with
    | MessageDef fields => Some (chars "message {", true, fields)
    | StructDef fields is_mutable _ => Some (chars (if is_mutable then "mut {" else "{"), false, fields)
    | _ => None
    end;
  Some (head ++ 10 :: concat (map (branch_field_text is_message (n + 1)) fields) ++ spaces n ++ chars "};" ++ [10]).
Definition branch_body_text (n : Z) (d : option bebop_def_t) (t : bebop_type_t) : option (list Z) :=
  match d, t with
  | Some d, _ => branch_def_text n d
  | None, TNull => Some []
  | None, t => Some (type_text t ++ [59; 10])
  end.
Definition branch_text (n : Z) (b : bebop_union_branch_t) : option (list Z) :=
  above n (br_documentation b) (br_decorators b) +++ Some (spaces n) +++
  (d ← branch_def h b;
   Some ((if is_exported d then chars "export " else []) ++ name_text (br_name b) ++ 40 :: decimal (br_discriminator b) ++ chars "): ") +++
   branch_body_text n d (br_type_ref b)).
Definition method_text (n : Z) (m : bebop_method_t) : option (list Z) :=
  above n (me_documentation m) (me_decorators m) +++
  Some (spaces n ++ name_text (me_name m) ++ [40] ++
    match me_method_type m with BEBOP_METHOD_CLIENT_STREAM | BEBOP_METHOD_DUPLEX_STREAM => chars "stream " | _ => [] end ++
    type_text (me_request_type m) ++ chars "): " ++
    match me_method_type m with BEBOP_METHOD_SERVER_STREAM | BEBOP_METHOD_DUPLEX_STREAM => chars "stream " | _ => [] end ++
    type_text (me_response_type m) ++ [59; 10]).

(** ** Definitions *)

Definition visibility_text (d : bebop_def_t) : list Z :=
  match df_parent d, df_visibility d with
  | None, BEBOP_VIS_LOCAL => chars "local "
  | Some _, BEBOP_VIS_EXPORT => chars "export "
  | _, _ => []
  end.
Definition block_text (n : Z) (d : bebop_def_t) (keyword : list Z) (rest_of_head body : option (list Z)) : option (list Z) :=
  Some (spaces n ++ visibility_text d ++ keyword ++ name_text (df_name d)) +++ rest_of_head +++ Some (chars " {" ++ [10]) +++ body +++
  Some (spaces n ++ [125; 10]).

Fixpoint targets_text (t : Z) (first : bool) (targets : list (Z * string)) : list Z :=
  match targets with
  | [] => []
  | (bit, name) :: targets =>
      if Z.land t bit =? 0 then targets_text t first targets
      else (if first then [] else chars " | ") ++ chars name ++ targets_text t false targets
  end.
Definition param_text (n : Z) (p : bebop_macro_param_def_t) : option (list Z) :=
  Some (spaces n ++ chars "param " ++ name_text (mp_name p) ++ (if mp_required p then 33 else 63) :: chars ": ") +++
  (if bool_decide (mp_type p = BEBOP_TYPE_DEFINED) then word "type" else bebop_type_kind_name (mp_type p)) +++ Some [10].
Definition delimiter (bracket level : Z) : list Z := bracket :: replicate (Z.to_nat level) 61 ++ [bracket].
Definition lua_text (n : Z) (keyword : string) (span : bebop_span_t) (level : Z) : option (list Z) :=
  if match source with Some _ => 0 <? len span | None => false end then
    Some (spaces n ++ chars keyword ++ delimiter 91 level) +++ from_source span +++ Some (delimiter 93 level ++ [10])
  else Some [].
Definition decorator_def_text (n name : Z) (dd : decorator_def_t) : option (list Z) :=
  Some (chars "#decorator(" ++ name_text name ++ chars ") {" ++ [10] ++
    spaces (n + 1) ++ chars "targets = " ++
    (if dd_targets dd =? BEBOP_TARGET_ALL then chars "ALL" else targets_text (dd_targets dd) true emitted_targets) ++ [10] ++
    (if dd_allow_multiple dd then spaces (n + 1) ++ chars "multiple = true" ++ [10] else [])) +++
  each_text (param_text (n + 1)) (dd_params dd) +++
  lua_text (n + 1) "validate " (dd_validate_span dd) (dd_validate_level dd) +++
  lua_text (n + 1) "export " (dd_export_span dd) (dd_export_level dd) +++
  Some (chars "}" ++ [10]).

Fixpoint def_text (fuel : nat) (n : Z) (p : def_ptr) : option (list Z) :=
  match fuel with
  | O => None
  | S fuel =>
      d ← h !! p;
      let nested :=
        each_text (λ q, if bebop__is_inline_branch_def d q then Some [] else Some [10] +++ def_text fuel (n + 1) q) (df_nested_defs d) in
      above n (df_documentation d) (df_decorators d) +++
      match df_body d with
      | EnumDef base members =>
          block_text n d (chars "enum ")
            (if bool_decide (base = BEBOP_TYPE_UINT32) then Some [] else word " : " +++ bebop_type_kind_name base)
            (each_text (member_text base (n + 1)) members)
      | StructDef fields is_mutable _ =>
          block_text n d (chars (if is_mutable then "mut struct " else "struct ")) (Some []) (each_text (struct_field_text (n + 1)) fields +++ nested)
      | MessageDef fields => block_text n d (chars "message ") (Some []) (each_text (message_field_text (n + 1)) fields +++ nested)
      | UnionDef branches => block_text n d (chars "union ") (Some []) (each_text (branch_text (n + 1)) branches +++ nested)
      | ServiceDef methods _ => block_text n d (chars "service ") (Some []) (each_text (method_text (n + 1)) methods)
      | ConstDef type value =>
          Some (spaces n ++ visibility_text d ++ chars "const " ++ type_text type ++ 32 :: name_text (df_name d) ++ chars " = ") +++
          literal_text value +++ Some [59; 10]
      | DecoratorDef dd => decorator_def_text n (df_name d) dd
      | UnknownDef => Some []
      end
  end.

(** ** Schemas *)

Definition import_text (path : option (list Z)) : list Z := chars "import " ++ 34 :: default [] path ++ [34; 10].
(** The imports in the order of their paths; they are lost when the arena has no room for that
    order. *)
Definition imports_text (listed : bool) (imports : list bebop_import_t) : list Z :=
  match imports with
  | [] => []
  | _ => (if listed then concat (map import_text (sort_paths (map (λ imp, c_string <$> str (im_path imp)) imports))) else []) ++ [10]
  end.
(** The definitions at the top, with the comments before each of them. *)
Fixpoint top_level_text (last : Z) (defs : list def_ptr) : option (list Z) :=
  match defs with
  | [] => comments_text 0 last (match source with Some src => zlen src | None => 0 end) tokens
  | p :: defs =>
      d ← h !! p;
      match df_parent d with
      | Some _ => top_level_text last defs
      | None =>
          comments_text 0 last (off (df_span d)) tokens +++ def_text (S (length h)) 0 p +++ Some [10] +++
          top_level_text (last_after (off (df_span d)) last) defs
      end
  end.
Definition schema_text (listed : bool) (sc : schema_t) : option (list Z) :=
  Some (chars "edition = " ++ 34 :: chars "2026" ++ [34; 10; 10] ++
    (if bebop_str_is_null (sch_package sc) then [] else chars "package " ++ name_text (sch_package sc) ++ [59; 10; 10]) ++
    imports_text listed (sch_imports sc)) +++
  top_level_text 0 (sch_definitions sc).
End Printer.
