(* ===== verification/EmitProps.v ===== *)
(** The emitter writes the text of its specification: whatever the arena grants, a text that
    comes out is the one of [EmitSpec], and the stack of the type machine is large enough for
    the types that need at most its size. *)
From Stdlib Require Import SpecFloat.
From stdpp Require Import list gmap strings.
From S2P Require Import Prelude.
From S2P Require Import Scanner.
From S2P Require Import Schema.
From S2P Require Import Imports.
From S2P Require Import Registry.
From S2P Require Import Resolve.
From S2P Require Import Parser.
From S2P Require Import Emit.
From S2P Require Import EmitSpec.

(** ** The promise of the context: storage is not the pool's *)

Class ContextKeeps `{Context} : Prop := {
  ck_alloc_n : ∀ size n k c i, 0 ≤ k < 64 → ctx_ok c → ctx_str (ctx_alloc_n size n (2 ^ k) c).2 i = ctx_str c i;
  ck_realloc : ∀ p old new c i, ctx_ok c → ctx_str (ctx_realloc p old new c).2 i = ctx_str c i
}.

Lemma cat_Some a b t : a +++ b = Some t → ∃ x y, a = Some x ∧ b = Some y ∧ t = x ++ y.
Proof. unfold cat. destruct a as [x|]; [|done]. destruct b as [y|]; [|done]. intros [= <-]. by exists x, y. Qed.

(** The doubling of the capacity ends at a size that is large enough. *)
Lemma grown_cap_spec fuel : ∀ cap need, 0 < cap → need ≤ 2 ^ 63 → need ≤ cap * 2 ^ Z.of_nat fuel →
  ∃ cap', grown_cap fuel cap need = Some cap' ∧ need ≤ cap' ∧ cap ≤ cap'.
Proof.
  induction fuel as [|fuel IH]; intros cap need Hcap Hmax Hneed; cbn [grown_cap]; destruct (Z.ltb_spec cap need).
  - cbn in Hneed. lia.
  - by exists cap.
  - rewrite u64_small by lia. rewrite Nat2Z.inj_succ, Z.pow_succ_r in Hneed by lia.
    destruct (IH (cap * 2) need ltac:(lia) Hmax ltac:(lia)) as (cap'&E&Hn&Hc). exists cap'. split; [done|]. split; [done|lia].
  - by exists cap.
Qed.

Section Emits.
Context `{ContextOk, !ContextKeeps} {dm : DefMap def_ptr}.
Context (format_g : spec_float → list Z) (h : heap) (source : option (list Z)) (tokens : list bebop_token_t) (trivia : list bebop_trivia_t).
Context (str : Z → option (list Z)).
Abbreviation S := bebop__emit_buf_t.

(** What every part keeps, and what it writes. *)
Record good (b : S) : Prop := {
  gd_ctx : ctx_ok (eb_ctx b);
  gd_str : ∀ i, ctx_str (eb_ctx b) i = str i;
  gd_cap : eb_capacity b = 0 ∨ 1024 ≤ eb_capacity b
}.
Definition room (b : S) (t : list Z) : Prop := eb_error b = false → zlen (eb_data b) + zlen t < 2 ^ 62.
(** The arena refuses no growth. *)
Definition granting : Prop := ∀ p old new c, is_Some (ctx_realloc p old new c).1.
Record wrote (b : S) (l : Z) (t : list Z) (b' : S) : Prop := {
  wr_good : good b';
  wr_indent : eb_indent b' = eb_indent b;
  wr_last : eb_last_pos b' = l;
  wr_fine : granting → eb_error b = false → eb_error b' = false;
  wr_data : eb_error b' = false → eb_error b = false ∧ eb_data b' = eb_data b ++ t
}.
(** At an indentation and a place of the source, the part writes the text and answers. *)
Definition emits {A} (n l : Z) (t : option (list Z)) (l' : Z) (m : C S A) (a : A) : Prop :=
  ∀ b t', t = Some t' → good b → eb_indent b = n → eb_last_pos b = l → room b t' → ∃ b', m b = Some (a, b') ∧ wrote b l' t' b'.
(** The same of a part that does not look at the place. *)
Definition writes (n : Z) (t : option (list Z)) (m : C S unit) : Prop := ∀ l, emits n l t l m tt.

Lemma emits_ret {A} n l (a : A) : emits n l (Some []) l (mret a) a.
Proof. intros b t' [= <-] Hb <- <- _. exists b. split; [done|]. split; [done..|]. intros He. by rewrite app_nil_r. Qed.

Lemma emits_bind {A B} n l l1 l2 t1 t2 (m : C S A) (k : A → C S B) a b :
  emits n l t1 l1 m a → emits n l1 t2 l2 (k a) b → emits n l (t1 +++ t2) l2 (m ≫= k) b.
Proof.
  intros Hm Hk s t' (x&y&->&->&->)%cat_Some Hs En El Hr. pose proof (zlen_nonneg y).
  destruct (Hm s x eq_refl Hs En El) as (s1&E1&Hw1); [intros He; specialize (Hr He); rewrite zlen_app in Hr; lia|].
  pose proof Hw1 as [Hg1 Hi1 Hl1 Hf1 Hd1].
  destruct (Hk s1 y eq_refl Hg1 ltac:(congruence) Hl1) as (s2&E2&[Hg2 Hi2 Hl2 Hf2 Hd2]).
  { intros He. destruct (Hd1 He) as [He' ->]. specialize (Hr He'). rewrite zlen_app in *. lia. }
  exists s2. split; [unfold mbind, C_bind; by rewrite E1|]. split; [done|congruence|done|auto|].
  intros He. destruct (Hd2 He) as [He1 ->]. destruct (Hd1 He1) as [He0 ->]. by rewrite app_assoc.
Qed.

Lemma emits_eq {A} n l t t0 l' (m : C S A) a : emits n l t0 l' m a → (∀ x, t = Some x → t0 = Some x) → emits n l t l' m a.
Proof. intros Hm Ht b t' E. apply Hm, Ht, E. Qed.

Lemma writes_ret n : writes n (Some []) (mret tt).
Proof. intros l. apply emits_ret. Qed.
Lemma writes_bind n t1 t2 (m k : C S unit) : writes n t1 m → writes n t2 k → writes n (t1 +++ t2) (m;; k).
Proof. intros Hm Hk l. eapply emits_bind; [apply Hm|apply Hk]. Qed.
Lemma writes_eq n t t0 m : writes n t0 m → (∀ x, t = Some x → t0 = Some x) → writes n t m.
Proof. intros Hm Ht l. by eapply emits_eq. Qed.

(** Reading a value, and a computation without state. *)
Lemma emits_gets {A B} n l t l' (f : S → A) (k : A → C S B) v a :
  (∀ b, good b → eb_indent b = n → eb_last_pos b = l → f b = v) → emits n l t l' (k v) a → emits n l t l' (gets f ≫= k) a.
Proof.
  intros Hf Hk b t' E Hb En El Hr. destruct (Hk b t' E Hb En El Hr) as (b'&E'&Hw). exists b'. split; [|done].
  unfold mbind, C_bind, gets. by rewrite (Hf b Hb En El).
Qed.
Lemma emits_lift {A B} n l t l' (o : option A) (k : A → C S B) v a :
  o = Some v → emits n l t l' (k v) a → emits n l t l' (lift o ≫= k) a.
Proof.
  intros -> Hk b t' E Hb En El Hr. destruct (Hk b t' E Hb En El Hr) as (b'&E'&Hw). by exists b'.
Qed.

(** *** Texts *)

Lemma emit_grow_spec b needed : good b → 0 ≤ needed → (eb_error b = false → zlen (eb_data b) + needed < 2 ^ 62) →
  ∃ b', bebop__emit_grow needed b = Some (tt, b') ∧ wrote b (eb_last_pos b) [] b' ∧
    (eb_error b' = false → zlen (eb_data b) + needed ≤ eb_capacity b').
Proof.
  intros Hb Hn Hroom. unfold bebop__emit_grow, mbind, C_bind, gets. cbn [id]. destruct (eb_error b) eqn:He.
  { exists b. split; [done|]. split; [split; try done; by rewrite He|]. by rewrite He. }
  specialize (Hroom eq_refl). pose proof (zlen_nonneg (eb_data b)). pose proof Hb as [Hctx Hstr Hcap].
  rewrite u64_small by lia. set (cap0 := if eb_capacity b =? 0 then 1024 else eb_capacity b).
  assert (Hcap0 : 1024 ≤ cap0 ∧ eb_capacity b ≤ cap0) by (subst cap0; destruct (Z.eqb_spec (eb_capacity b) 0); lia).
  destruct (grown_cap_spec 64 cap0 (zlen (eb_data b) + needed + 1) ltac:(lia) ltac:(lia)) as (cap&->&Hneed&Hle).
  { change (2 ^ Z.of_nat 64) with (2 ^ 64). nia. }
  cbn [lift]. destruct (Z.ltb_spec (eb_capacity b) cap).
  - pose proof (ctx_realloc_ok (eb_ptr b) (eb_capacity b) cap (eb_ctx b) Hctx) as [Hok _].
    pose proof (ck_realloc (eb_ptr b) (eb_capacity b) cap (eb_ctx b)) as Hkeep.
    destruct (ctx_realloc (eb_ptr b) (eb_capacity b) cap (eb_ctx b)) as [[p|] c] eqn:Er; cbn [fst snd] in *; (eexists; split; [reflexivity|]); cbn.
    + split; [split; cbn; [split; cbn; [done| |lia]|done|done|done|]|lia]; [intros i; by rewrite Hkeep|]. intros _. by rewrite app_nil_r.
    + split; [split; cbn; [split; cbn; [done| |done]|done|done| |done]|done]; [intros i; by rewrite Hkeep|]. intros Hall. specialize (Hall (eb_ptr b) (eb_capacity b) cap (eb_ctx b)). rewrite Er in Hall. by destruct Hall.
  - exists b. split; [done|]. split; [split; [done..|]; intros _; by rewrite app_nil_r|lia].
Qed.

Lemma writes_text n t : writes n (Some t) (emit_text t).
Proof.
  intros l b t' [= <-] Hb En El Hr. unfold emit_text. pose proof (zlen_nonneg t).
  destruct (emit_grow_spec b (zlen t) Hb ltac:(lia) Hr) as (b1&E1&[Hg Hi Hl Hf Hd]&Hcap). unfold mbind, C_bind. rewrite E1. unfold gets. cbn [id].
  destruct (eb_error b1) eqn:He.
  { exists b1. split; [done|]. split; [done|done|congruence| |by rewrite He]. intros Hg' He'. by specialize (Hf Hg' He'). }
  destruct (Hd eq_refl) as [He0 Edata]. rewrite app_nil_r in Edata. unfold put_emitted, mbind, C_bind, gets. cbn [id]. rewrite Edata.
  destruct (Z.ltb_spec (eb_capacity b1) (zlen (eb_data b) + zlen t)); [specialize (Hcap eq_refl); lia|].
  eexists. split; [reflexivity|]. destruct Hg. split; [by split|done|cbn; congruence|by intros|]. intros _. by split.
Qed.

Lemma writes_when_fine n t m : writes n (Some t) m → writes n (Some t) (b ← gets id; if eb_error b then mret tt else m).
Proof.
  intros Hm l b t' E Hb En El Hr. unfold mbind, C_bind, gets. cbn [id]. destruct (eb_error b) eqn:He; [|by apply (Hm l b t')].
  exists b. split; [done|]. split; [done..| |]; by rewrite He.
Qed.
Lemma writes_str n t : writes n (Some (default [] t)) (bebop__emit_str t).
Proof.
  destruct t as [t|]; [apply (writes_when_fine n t), writes_text|]. intros l b t' [= <-] Hb <- <- _.
  exists b. split; [done|]. split; [done..|]. intros He. by rewrite app_nil_r.
Qed.
Lemma writes_str_n n t : writes n (Some t) (bebop__emit_str_n t).
Proof.
  intros l b t' [= <-] Hb En El Hr. unfold bebop__emit_str_n, mbind, C_bind, gets. cbn [id].
  destruct (Z.eqb_spec (zlen t) 0) as [E|_]; cbn [orb].
  - assert (t = []) as -> by (destruct t; [done|rewrite zlen_cons in E; pose proof (zlen_nonneg t); lia]).
    exists b. split; [done|]. split; [done..|]. intros He. by rewrite app_nil_r.
  - apply (writes_when_fine n t (emit_text t) (writes_text n t) l b t eq_refl Hb En El Hr).
Qed.
Lemma writes_char n c : writes n (Some [c]) (bebop__emit_char c).
Proof. apply writes_text. Qed.
Lemma writes_piece n t : writes n (Some t) (piece t).
Proof. apply (writes_str n (Some t)). Qed.
Lemma writes_lit n s : writes n (Some (chars s)) (lit s).
Proof. apply writes_piece. Qed.
Lemma writes_name n s : writes n (Some (name_text str s)) (emit_name s).
Proof.
  intros l. unfold emit_name, string_of_handle. apply emits_gets with (v := str s); [by intros b []|]. apply writes_str.
Qed.
Lemma writes_u32 n v : writes n (Some (decimal v)) (bebop__emit_u32 v).
Proof. apply (writes_str n (Some _)). Qed.
Lemma writes_i64 n v : writes n (Some (signed_decimal v)) (bebop__emit_i64 v).
Proof. apply (writes_str n (Some _)). Qed.
Lemma writes_u64 n v : writes n (Some (decimal v)) (bebop__emit_u64 v).
Proof. apply (writes_str n (Some _)). Qed.
Lemma writes_f64 n v : writes n (Some (format_g v)) (bebop__emit_f64 format_g v).
Proof. apply (writes_str n (Some _)). Qed.
Lemma writes_newline n : writes n (Some [10]) bebop__emit_newline.
Proof. apply writes_char. Qed.

Lemma writes_repeat n k t m : writes n (Some t) m → writes n (Some (concat (replicate k t))) (repeat_emit k m).
Proof.
  intros Hm. induction k as [|k IH]; [apply writes_ret|]. cbn [repeat_emit replicate concat].
  eapply writes_eq; [apply writes_bind; [exact Hm|exact IH]|]. by intros x [= <-].
Qed.
Lemma writes_indent n : writes n (Some (spaces n)) bebop__emit_indent.
Proof.
  intros l b t' [= <-] Hb En El Hr. unfold bebop__emit_indent, mbind, C_bind, gets. cbn [id]. rewrite En.
  by apply (writes_repeat n _ _ _ (writes_lit n "    ") l b).
Qed.
Lemma writes_each {A} n (f : A → option (list Z)) (g : A → C S unit) l :
  (∀ a, a ∈ l → writes n (f a) (g a)) → writes n (each_text f l) (each_emit g l).
Proof.
  induction l as [|a l IH]; intros Hf; [apply writes_ret|]. cbn [each_emit each_text foldr].
  apply writes_bind; [apply Hf; by left|]. apply IH. intros x Hx. apply Hf. by right.
Qed.
Lemma writes_indented n t m : writes (n + 1) t m → writes n t (indented m).
Proof.
  intros Hm l b t' E Hb En El Hr. unfold indented, mbind, C_bind, gets, modify. cbn [id].
  destruct (Hm l (set_indent (eb_indent b + 1) b) t' E) as (b1&E1&[[] Hi Hl Hf Hd]); cbn; [by destruct Hb|congruence|done|done|].
  rewrite E1. cbn in *. eexists. split; [reflexivity|]. split; cbn; [by split|lia|done|exact Hf|exact Hd].
Qed.
End Emits.

(** The frames that a type needs besides those below it, and the turns of the loop over it. *)
Fixpoint frames_needed (t : bebop_type_t) : nat :=
  match t with
  | TArray e | TFixedArray e _ => Nat.max 2 (1 + frames_needed e)
  | TMap k v => Nat.max 4 (Nat.max (3 + frames_needed k) (1 + frames_needed v))
  | _ => 0
  end.
Fixpoint type_turns (t : bebop_type_t) : nat :=
  match t with
  | TArray e | TFixedArray e _ => 2 + type_turns e
  | TMap k v => 3 + type_turns k + type_turns v
  | _ => 1
  end.
Lemma type_turns_nodes t : (type_turns t ≤ 3 * type_nodes t)%nat.
Proof. induction t; cbn [type_turns type_nodes]; lia. Qed.

Section Types.
Context `{ContextOk, !ContextKeeps} {dm : DefMap def_ptr} (str : Z → option (list Z)).

Lemma frame_emits {A} n l (m : C bebop__emit_buf_t unit) t (a : A) :
  writes str n (Some t) m → emits str n l (Some t) l (m;; mret a) a.
Proof.
  intros Hm. eapply emits_eq; [eapply emits_bind; [apply Hm|apply emits_ret]|]. intros x [= <-]. cbn. by rewrite app_nil_r.
Qed.
Lemma push_emits n l asked new (stack : list bebop__emit_type_frame_t) :
  (asked ≤ length new)%nat → (length stack + length new ≤ 128)%nat → emits str n l (Some []) l (push_frames asked new stack) (new ++ stack).
Proof.
  intros Ha Hl. unfold push_frames. change BEBOP_EMIT_TYPE_STACK_SIZE with 128%nat.
  destruct (Nat.ltb_spec 128 (length stack + asked)); [lia|]. destruct (Nat.ltb_spec 128 (length stack + length new)); [lia|].
  apply emits_ret.
Qed.

(** One turn of the loop. *)
Lemma turn_writes n t1 t2 t (f : bebop__emit_type_frame_t) fuel stack stack' :
  (∀ l, emits str n l (Some t1) l (emit_frame f stack) stack') → writes str n (Some t2) (emit_type_loop fuel stack') → t = t1 ++ t2 →
  writes str n (Some t) (emit_type_loop (S fuel) (f :: stack)).
Proof.
  intros Hf Hk -> l. cbn [emit_type_loop]. eapply emits_eq; [eapply emits_bind; [apply Hf|apply Hk]|]. by intros x [= <-].
Qed.

(** A type on top of the stack is written, and the frames below it go on. *)
Lemma visit_writes t : ∀ fuel stack n rest,
  (length stack + frames_needed t ≤ 128)%nat → writes str n (Some rest) (emit_type_loop fuel stack) →
  writes str n (Some (type_text str t ++ rest)) (emit_type_loop (type_turns t + fuel) (EMIT_TYPE_VISIT t :: stack)).
Proof.
  induction t as [|kind|e IH|e IH size|k IHk v IHv|name resolved]; intros fuel stack n rest Hl Hrest; cbn [frames_needed type_turns type_text] in *.
  - apply (turn_writes n [] rest _ _ _ _ stack); [|done|done]. intros l. apply emits_ret.
  - apply (turn_writes n (default [] (scalar_text kind)) rest _ _ _ _ stack); [|done|done].
    intros l. cbn [emit_frame visit_type]. destruct (scalar_text kind) as [text|]; apply frame_emits; [apply (writes_str str n (Some text))|apply writes_ret].
  - replace (2 + type_turns e + fuel)%nat with (S (type_turns e + S fuel)) by lia.
    apply (turn_writes n [] (type_text str e ++ chars "[]" ++ rest) _ _ _ _ ([EMIT_TYPE_VISIT e; EMIT_TYPE_ARRAY_SUFFIX] ++ stack)).
    + intros l. apply push_emits; cbn; lia.
    + apply IH; [cbn; lia|]. apply (turn_writes n (chars "[]") rest _ _ _ _ stack); [|done|done]. intros l. apply frame_emits, writes_lit.
    + by rewrite <- app_assoc.
  - replace (2 + type_turns e + fuel)%nat with (S (type_turns e + S fuel)) by lia.
    apply (turn_writes n [] (type_text str e ++ (91 :: decimal size ++ [93]) ++ rest) _ _ _ _ ([EMIT_TYPE_VISIT e; EMIT_TYPE_FIXED_ARRAY_SUFFIX size] ++ stack)).
    + intros l. apply push_emits; cbn; lia.
    + apply IH; [cbn; lia|]. apply (turn_writes n (91 :: decimal size ++ [93]) rest _ _ _ _ stack); [|done|done]. intros l. cbn [emit_frame].
      eapply emits_eq; [eapply emits_bind; [apply writes_char|eapply emits_bind; [apply writes_u32|eapply emits_bind; [apply writes_char|apply emits_ret]]]|].
      intros x [= <-]. done.
    + by rewrite <- app_assoc.
  - replace (3 + type_turns k + type_turns v + fuel)%nat with (S (type_turns k + S (type_turns v + S fuel))) by lia.
    apply (turn_writes n (chars "map[") (type_text str k ++ chars ", " ++ type_text str v ++ [93] ++ rest) _ _ _ _
      ([EMIT_TYPE_VISIT k; EMIT_TYPE_MAP_COMMA; EMIT_TYPE_VISIT v; EMIT_TYPE_MAP_CLOSE] ++ stack)).
    + intros l. cbn [emit_frame visit_type]. eapply emits_eq; [eapply emits_bind; [apply writes_lit|apply push_emits; cbn; lia]|]. by intros x [= <-].
    + apply IHk; [cbn; lia|]. apply (turn_writes n (chars ", ") (type_text str v ++ [93] ++ rest) _ _ _ _ (EMIT_TYPE_VISIT v :: EMIT_TYPE_MAP_CLOSE :: stack)); [|  |done].
      { intros l. apply frame_emits, writes_lit. }
      apply IHv; [cbn; lia|]. apply (turn_writes n [93] rest _ _ _ _ stack); [|done|done]. intros l. apply frame_emits, writes_char.
    + by rewrite <- !app_assoc.
  - apply (turn_writes n (name_text str name) rest _ _ _ _ stack); [|done|done]. intros l. apply frame_emits, writes_name.
Qed.

Lemma writes_type n t : (frames_needed t ≤ 128)%nat → writes str n (Some (type_text str t)) (bebop__emit_type t).
Proof.
  intros Ht. assert (Hloop : writes str n (Some (type_text str t)) (emit_type_loop (3 * type_nodes t) [EMIT_TYPE_VISIT t])).
  { replace (3 * type_nodes t)%nat with (type_turns t + (3 * type_nodes t - type_turns t))%nat by (pose proof (type_turns_nodes t); lia).
    rewrite <- (app_nil_r (type_text str t)). apply visit_writes; [done|]. destruct (3 * type_nodes t - type_turns t)%nat; apply writes_ret. }
  destruct t; try exact Hloop.
Qed.
End Types.

(** ** Parts *)

(** Splits a part into its pieces, and compares their texts with the one that is wanted. *)
Ltac pieces :=
  repeat lazymatch goal with
  | |- writes _ _ _ (mbind (λ _, _) _) => apply writes_bind
  | |- writes _ _ _ bebop__emit_newline => apply writes_newline
  | |- writes _ _ _ (bebop__emit_char _) => apply writes_char
  | |- writes _ _ _ bebop__emit_indent => apply writes_indent
  | |- writes _ _ _ (emit_name _) => apply writes_name
  | |- writes _ _ _ (lit _) => apply writes_lit
  | |- writes _ _ _ (piece _) => apply writes_piece
  | |- writes _ _ _ (bebop__emit_u32 _) => apply writes_u32
  | |- writes _ _ _ (bebop__emit_u64 _) => apply writes_u64
  | |- writes _ _ _ (bebop__emit_i64 _) => apply writes_i64
  | |- writes _ _ _ (bebop__emit_str_n _) => apply writes_str_n
  | |- writes _ _ _ (mret tt) => apply writes_ret
  | H : writes _ _ _ ?m |- writes _ _ _ ?m => exact H
  end.
Ltac same_text :=
  first [by intros|idtac];
  unfold cat, word; cbn [mbind option_bind];
  repeat match goal with
    | |- context [@mbind option _ _ _ _ ?o] =>
        lazymatch o with
        | context [@mbind option] => fail
        | Some _ => fail
        | _ => destruct o; cbn [mbind option_bind]; try done
        end
    end;
  intros ? [= <-]; cbn [mbind option_bind app]; repeat (rewrite <- app_assoc; cbn [app]); try done.
Ltac part := eapply writes_eq; [pieces|same_text].

Section Parts.
Context `{ContextOk, !ContextKeeps} {dm : DefMap def_ptr}.
Context (format_g : spec_float → list Z) (h : heap) (source : option (list Z)) (tokens : list bebop_token_t) (trivia : list bebop_trivia_t).
Context (str : Z → option (list Z)).
Abbreviation writes := (writes str).

Lemma writes_lift {A} n t (o : option A) (k : A → C bebop__emit_buf_t unit) v :
  o = Some v → writes n t (k v) → writes n t (lift o ≫= k).
Proof. intros Ho Hk l. by eapply emits_lift. Qed.

Lemma writes_quoted n t m : writes n t m → writes n (quoted_text t) (quoted m).
Proof. intros Hm. unfold quoted, quoted_text. part. Qed.
Lemma writes_raw_or n raw quotes t m : writes n t m → writes n (own_text raw quotes t) (raw_or raw quotes m).
Proof.
  intros Hm. destruct raw as [|c raw]; [done|]. unfold own_text, raw_or. destruct quotes; [apply writes_quoted|]; apply writes_str_n.
Qed.
Lemma writes_pieces n (f : Z → list Z) l : writes n (Some (concat (map f l))) (each_emit (λ c, piece (f c)) l).
Proof.
  eapply writes_eq; [apply (writes_each str n (λ c, Some (f c))); intros; apply writes_piece|].
  intros x [= <-]. induction l as [|c l IH]; [done|]. cbn [each_text foldr]. fold (each_text (λ c, Some (f c)) l). by rewrite IH.
Qed.

Lemma writes_literal n l : writes n (literal_text format_g source str l) (bebop__emit_literal format_g source l).
Proof.
  intros p. unfold bebop__emit_literal, string_of_handle. apply emits_gets with (v := str (lt_raw_value l)); [by intros b []|]. revert p.
  unfold literal_text. destruct (lt_value l) as [v|i|f|s|g|secs nanos offset|secs nanos|data].
  - destruct v; apply writes_lit.
  - apply writes_raw_or, writes_i64.
  - apply writes_raw_or, writes_f64.
  - assert (Hraw : writes n (own_text (default [] (str (lt_raw_value l))) true (quoted_text (Some (concat (map escape_char (default [] (str s)))))))
      (raw_or (default [] (str (lt_raw_value l))) true (s ← gets (λ b, ctx_str (eb_ctx b) s); quoted (each_emit (λ c, piece (escape_char c)) (default [] s))))).
    { apply writes_raw_or. intros p. apply emits_gets with (v := str s); [by intros b []|]. apply writes_quoted, writes_pieces. }
    unfold from_source. destruct source as [src|]; [|exact Hraw]. destruct (0 <? len (lt_span l)); [|exact Hraw].
    cbn [mbind option_bind]. destruct (load_bytes src (off (lt_span l)) (len (lt_span l))) as [text|] eqn:E; [|by intros p b t'].
    apply (writes_str_n str n text).
  - apply writes_raw_or. destruct (emitted_uuid g) as [text|]; [apply (writes_piece str n text)|by intros p b t'].
  - apply writes_raw_or, writes_piece.
  - apply writes_raw_or. destruct (emitted_duration secs nanos) as [ps|]; [|by intros p b t']. apply (writes_quoted n (Some (concat ps))).
    eapply writes_eq; [apply (writes_each str n (λ c, Some c)); intros; apply writes_piece|].
    intros x [= <-]. induction ps as [|c ps IH]; [done|]. cbn [each_text foldr]. fold (each_text (λ c : list Z, Some c) ps). by rewrite IH.
  - eapply writes_eq; [apply writes_bind; [apply writes_piece|apply writes_bind; [apply writes_raw_or, writes_pieces|apply writes_char]]|done].
Qed.

(** *** Decorators, documentation, comments *)

Lemma writes_separated {A} n (f : A → option (list Z)) (g : A → C bebop__emit_buf_t unit) first l :
  (∀ a, writes n (f a) (g a)) → writes n (separated_text f first l) (separated g first l).
Proof.
  intros Hf. revert first. induction l as [|a l IH]; intros first; [apply writes_ret|]. cbn [separated separated_text].
  destruct first; (eapply writes_eq; [apply writes_bind; [first [apply writes_ret|apply writes_lit]|apply writes_bind; [apply Hf|apply IH]]|by intros]).
Qed.
Lemma writes_argument n arg : writes n (argument_text format_g source str arg) (emit_argument format_g source arg).
Proof.
  unfold emit_argument, argument_text. pose proof (writes_literal n (da_value arg)) as Hl. apply writes_bind; [|exact Hl].
  destruct (bebop_str_is_null (da_name arg)); part.
Qed.
Lemma writes_decorator n dec : writes n (decorator_text format_g source str n dec) (emit_decorator format_g source dec).
Proof.
  unfold emit_decorator, decorator_text. set (args := match dc_args dec with [] => Some [] | _ => _ end).
  assert (Hargs : writes n args (match dc_args dec with [] => mret tt | args => bebop__emit_char 40;; separated (emit_argument format_g source) true args;; bebop__emit_char 41 end)).
  { subst args. destruct (dc_args dec) as [|a l]; [apply writes_ret|].
    apply writes_bind; [apply writes_char|apply writes_bind; [apply writes_separated, writes_argument|apply writes_char]]. }
  clearbody args. part.
Qed.
Lemma writes_decorators n l : writes n (decorators_text format_g source str n l) (bebop__emit_decorators format_g source l).
Proof. apply writes_each. intros a _. apply writes_decorator. Qed.

Lemma writes_doc_loop n text start : writes n (Some (doc_lines n start text)) (doc_loop start text).
Proof.
  revert start. induction text as [|c text IH]; intros start; [apply writes_ret|]. cbn [doc_loop doc_lines]. specialize (IH (c =? 10)).
  destruct start; part.
Qed.
Lemma writes_doc n doc : writes n (Some (doc_text str n doc)) (bebop__emit_doc doc).
Proof.
  unfold bebop__emit_doc, doc_text, name_text, string_of_handle. destruct (bebop_str_is_null doc); [apply writes_ret|].
  intros l. apply emits_gets with (v := str doc); [by intros b []|]. revert l.
  destruct (c_string <$> str doc) as [[|c text]|]; [apply writes_ret| |apply writes_ret].
  pose proof (writes_doc_loop n (c :: text) true). change (default [] (Some (c :: text))) with (c :: text). cbv iota. part.
Qed.
Lemma writes_above n doc decs :
  writes n (above format_g source str n doc decs) (bebop__emit_doc doc;; bebop__emit_decorators format_g source decs).
Proof. apply writes_bind; [apply writes_doc|apply writes_decorators]. Qed.

Lemma writes_comment n t : is_comment t = true → writes n (comment_line source n t) (emit_comment source t).
Proof.
  intros Hc. unfold comment_line, emit_comment, from_source. rewrite Hc. apply writes_bind; [apply writes_indent|].
  destruct source as [src|]; [|by intros l b t']. cbn [mbind option_bind].
  destruct (load_bytes src (off (tv_span t)) (len (tv_span t))) as [text|] eqn:E; [|by intros l b t'].
  eapply writes_lift; [done|]. cbn beta. eapply writes_lift; [exact E|]. cbn beta.
  eapply writes_eq; [apply writes_bind; [apply (writes_each str n (λ c, Some [c])); intros; apply writes_char|apply writes_newline]|].
  intros x [= <-]. assert (Ec : each_text (λ c : Z, Some [c]) text = Some text).
  { clear. induction text as [|c l IH]; [done|]. cbn [each_text foldr]. fold (each_text (λ c : Z, Some [c]) l). by rewrite IH. }
  by rewrite Ec.
Qed.
Lemma writes_trivia n last target items : writes n (trivia_text source n last target items) (trivia_loop source last target items).
Proof.
  induction items as [|t items IH]; [apply writes_ret|]. cbn [trivia_loop trivia_text].
  destruct (off (tv_span t) <? last); [exact IH|]. destruct (target <=? off (tv_span t)); [apply writes_ret|].
  apply writes_bind; [|exact IH]. destruct (is_comment t) eqn:Hc; [by apply writes_comment|]. unfold comment_line. rewrite Hc. apply writes_ret.
Qed.
Lemma writes_tokens n last target toks :
  writes n (comments_text source trivia n last target toks) (tokens_loop source trivia last target toks).
Proof.
  induction toks as [|tok toks IH]; [apply writes_ret|]. cbn [tokens_loop comments_text]. apply writes_bind; [apply writes_trivia|].
  destruct (target <=? off (tk_span tok)); [apply writes_ret|exact IH].
Qed.
Lemma emits_comments n l target :
  emits str n l (comments_text source trivia n l target tokens) (last_after tokens target l) (bebop__emit_trivia_until source tokens trivia target) tt.
Proof.
  unfold bebop__emit_trivia_until, last_after. destruct tokens as [|tok toks]; [apply emits_ret|].
  intros b t' E Hb En El Hr. unfold mbind, C_bind, gets, modify. cbn [id]. rewrite El.
  destruct (writes_tokens n l target (tok :: toks) l b t' E Hb En El Hr) as (b1&->&[[] Hi Hl Hf Hd]).
  eexists. split; [reflexivity|]. split; cbn; [by split|done|done|exact Hf|exact Hd].
Qed.

(** *** Parts of definitions *)

Definition fits (t : bebop_type_t) : Prop := (frames_needed t ≤ 128)%nat.

Lemma writes_end n : writes n (Some [59; 10]) end_of_part.
Proof. unfold end_of_part. part. Qed.

Lemma writes_struct_field n f : fits (fd_type f) → writes n (struct_field_text format_g source str n f) (emit_struct_field format_g source f).
Proof.
  intros Ht. unfold emit_struct_field, struct_field_text, above. pose proof (writes_doc n (fd_documentation f)).
  pose proof (writes_decorators n (fd_decorators f)). pose proof (writes_type str n _ Ht). pose proof (writes_end n). part.
Qed.
Lemma writes_message_field n f : fits (fd_type f) → writes n (message_field_text format_g source str n f) (emit_message_field format_g source f).
Proof.
  intros Ht. unfold emit_message_field, message_field_text, above. pose proof (writes_doc n (fd_documentation f)).
  pose proof (writes_decorators n (fd_decorators f)). pose proof (writes_type str n _ Ht). pose proof (writes_end n). part.
Qed.
Lemma writes_member base n m : writes n (member_text format_g source str base n m) (emit_member format_g source base m).
Proof.
  unfold emit_member, member_text, above. pose proof (writes_doc n (em_documentation m)).
  pose proof (writes_decorators n (em_decorators m)). pose proof (writes_end n).
  destruct (negb (bebop_str_is_null (em_value_expr m))); [|destruct (is_signed_type base)]; part.
Qed.
Lemma writes_branch_field is_message n f : fits (fd_type f) → writes n (Some (branch_field_text str is_message n f)) (emit_branch_field is_message f).
Proof.
  intros Ht. unfold emit_branch_field, branch_field_text. pose proof (writes_type str n _ Ht). pose proof (writes_end n).
  destruct is_message; part.
Qed.
Lemma each_pure {A} (f : A → list Z) l : each_text (λ a, Some (f a)) l = Some (concat (map f l)).
Proof. induction l as [|a l IH]; [done|]. cbn [each_text foldr map concat]. fold (each_text (λ a, Some (f a)) l). by rewrite IH. Qed.

Definition def_types (d : bebop_def_t) : list bebop_type_t :=
  match df_body d with
  | StructDef fields _ _ | MessageDef fields => map fd_type fields
  | UnionDef branches => map br_type_ref branches
  | ServiceDef methods _ => concat (map (λ m, [me_request_type m; me_response_type m]) methods)
  | ConstDef type _ => [type]
  | _ => []
  end.

Lemma writes_branch_def n d : Forall fits (def_types d) → writes n (branch_def_text str n d) (emit_branch_def d).
Proof.
  intros Ht. unfold emit_branch_def, branch_def_text. rewrite Forall_forall in Ht. unfold def_types in Ht.
  assert (Hbody : ∀ is_message fields, (∀ f, f ∈ fields → fits (fd_type f)) →
    writes n (Some (10 :: concat (map (branch_field_text str is_message (n + 1)) fields) ++ spaces n ++ chars "};" ++ [10]))
      (bebop__emit_newline;; indented (each_emit (emit_branch_field is_message) fields);; bebop__emit_indent;; lit "};";; bebop__emit_newline)).
  { intros is_message fields Hf.
    assert (Hin : writes n (Some (concat (map (branch_field_text str is_message (n + 1)) fields))) (indented (each_emit (emit_branch_field is_message) fields))).
    { apply writes_indented. rewrite <- each_pure. apply writes_each. intros f Hin. apply writes_branch_field, Hf, Hin. }
    part. }
  assert (Hhead : ∀ (head : C bebop__emit_buf_t unit) t is_message fields l, writes n (Some t) head → (∀ f, f ∈ fields → fits (fd_type f)) →
    emits str n l (Some (t ++ 10 :: concat (map (branch_field_text str is_message (n + 1)) fields) ++ spaces n ++ chars "};" ++ [10])) l
      ((head;; mret (is_message, fields)) ≫= λ '(is_message, fields), bebop__emit_newline;; indented (each_emit (emit_branch_field is_message) fields);; bebop__emit_indent;; lit "};";; bebop__emit_newline) tt).
  { intros head t is_message fields l Hh Hf. eapply emits_eq.
    - eapply emits_bind; [eapply emits_bind; [apply Hh|apply emits_ret]|]. apply (Hbody is_message fields Hf).
    - intros x [= <-]. cbn. by rewrite app_nil_r. }
  destruct (df_body d) as [| |fields is_mutable |fields| | | |]; try (intros l b t'; done); intros l.
  - apply (Hhead _ (chars (if is_mutable then "mut {" else "{"))).
    + destruct is_mutable; [apply writes_lit|apply writes_char].
    + intros f Hf. apply Ht, list_elem_of_fmap. by exists f.
  - apply (Hhead _ (chars "message {")); [apply writes_lit|]. intros f Hf. apply Ht, list_elem_of_fmap. by exists f.
Qed.

(** Every type of every definition fits the stack. *)
Definition all_fit : Prop := ∀ p d, h !! p = Some d → Forall fits (def_types d).

Lemma writes_branch_body n d t : match d with Some d => Forall fits (def_types d) | None => True end → fits t →
  writes n (branch_body_text str n d t) (emit_branch_body d t).
Proof.
  intros Hd Ht. destruct d as [d|]; [by apply writes_branch_def|]. pose proof (writes_type str n _ Ht). pose proof (writes_end n).
  unfold branch_body_text, emit_branch_body. destruct t; part.
Qed.
Lemma writes_branch n b : all_fit → fits (br_type_ref b) → writes n (branch_text format_g h source str n b) (emit_branch format_g h source b).
Proof.
  intros Hall Ht. unfold emit_branch, branch_text, above.
  assert (Hfit : ∀ d, branch_def h b = Some d → match d with Some d => Forall fits (def_types d) | None => True end).
  { unfold branch_def. intros d. destruct (br_def b) as [q|]; [|by intros [= <-]]. destruct (h !! q) as [e|] eqn:E; [|done].
    intros [= <-]. by apply (Hall q). }
  destruct (branch_def h b) as [d|] eqn:E.
  - specialize (Hfit d eq_refl). pose proof (writes_doc n (br_documentation b)). pose proof (writes_decorators n (br_decorators b)).
    pose proof (writes_branch_body n d _ Hfit Ht).
    assert (Hlift : ∀ t k, writes n t (k d) → writes n t (lift (branch_def h b) ≫= k)) by (intros; by eapply writes_lift). rewrite E in Hlift.
    destruct (is_exported d) eqn:Ex; 
      (eapply writes_eq; [do 3 (apply writes_bind; [by pieces|]); apply Hlift; cbn beta; rewrite Ex; pieces|]);
      cbn [mbind option_bind]; rewrite Ex; same_text.
  - intros l c t' (x&y&_&(x'&y'&_&Hy&_)%cat_Some&_)%cat_Some. done.
Qed.

Lemma writes_method n m : fits (me_request_type m) → fits (me_response_type m) →
  writes n (method_text format_g source str n m) (emit_method format_g source m).
Proof.
  intros Hq Hr. unfold emit_method, method_text, above. pose proof (writes_doc n (me_documentation m)).
  pose proof (writes_decorators n (me_decorators m)). pose proof (writes_type str n _ Hq). pose proof (writes_type str n _ Hr).
  pose proof (writes_end n). destruct (me_method_type m); part.
Qed.
Lemma writes_visibility n d : writes n (Some (visibility_text d)) (bebop__emit_visibility d).
Proof. unfold bebop__emit_visibility, visibility_text. destruct (df_parent d), (df_visibility d); part. Qed.

Lemma writes_block n d keyword rest body t tr tb :
  writes n (Some t) keyword → writes n tr rest → writes (n + 1) tb body →
  writes n (block_text str n d t tr tb) (emit_block d keyword rest body).
Proof.
  intros Hk Hr Hb%writes_indented. unfold emit_block, block_text. pose proof (writes_visibility n d). part.
Qed.

(** *** Definitions of decorators *)

Lemma writes_targets n t first targets : writes n (Some (targets_text t first targets)) (emit_targets t first targets).
Proof.
  revert first. induction targets as [|[bit name] targets IH]; intros first; [apply writes_ret|]. cbn [emit_targets targets_text].
  destruct (Z.land t bit =? 0); [apply IH|]. specialize (IH false). destruct first; part.
Qed.
Lemma writes_param n p : writes n (param_text str n p) (emit_param p).
Proof.
  unfold emit_param, param_text. set (ty := if bool_decide (mp_type p = BEBOP_TYPE_DEFINED) then word "type" else bebop_type_kind_name (mp_type p)).
  assert (Hty : writes n ty (if bool_decide (mp_type p = BEBOP_TYPE_DEFINED) then lit "type"
    else name ← lift (bebop_type_kind_name (mp_type p)); bebop__emit_str (Some name))).
  { subst ty. destruct (bool_decide _); [apply writes_lit|]. destruct (bebop_type_kind_name (mp_type p)) as [text|]; [|by intros l b t'].
    apply (writes_str str n (Some text)). }
  clearbody ty. part.
Qed.
Lemma writes_delimiter n bracket level : writes n (Some (delimiter bracket level)) (bebop__emit_raw_delimiter bracket level).
Proof.
  unfold bebop__emit_raw_delimiter, delimiter. pose proof (writes_repeat str n (Z.to_nat level) _ _ (writes_char str n 61)) as Hr.
  replace (concat (replicate (Z.to_nat level) [61])) with (replicate (Z.to_nat level) 61) in Hr; [part|].
  clear. induction (Z.to_nat level) as [|k IH]; [done|]. cbn. by rewrite IH.
Qed.
Lemma writes_lua n keyword span level : writes n (lua_text source n keyword span level) (emit_lua source keyword span level).
Proof.
  unfold emit_lua, lua_text, from_source. destruct source as [src|]; [|apply writes_ret]. destruct (0 <? len span); [|apply writes_ret].
  cbn [mbind option_bind]. pose proof (writes_delimiter n 91 level). pose proof (writes_delimiter n 93 level).
  destruct (load_bytes src (off span) (len span)) as [text|] eqn:E; [|by intros l b t'].
  assert (Hsrc : ∀ t k, writes n t (k text) → writes n t (lift (load_bytes src (off span) (len span)) ≫= k)) by (intros; by eapply writes_lift).
  eapply writes_eq; [pieces; apply Hsrc; pieces|].
  generalize (delimiter 91 level), (delimiter 93 level). intros d1 d2. same_text.
Qed.
Lemma writes_decorator_def n name dd : writes n (decorator_def_text source str n name dd) (emit_decorator_def source name dd).
Proof.
  unfold emit_decorator_def, decorator_def_text.
  pose proof (writes_lua (n + 1) "validate " (dd_validate_span dd) (dd_validate_level dd)) as H1'.
  pose proof (writes_lua (n + 1) "export " (dd_export_span dd) (dd_export_level dd)) as H2'.
  pose proof (writes_each str (n + 1) (param_text str (n + 1)) emit_param (dd_params dd) ltac:(intros; apply writes_param)) as H3'.
  pose proof (writes_targets (n + 1) (dd_targets dd) true emitted_targets) as H4'.
  assert (H5' : writes (n + 1) (Some (if dd_targets dd =? BEBOP_TARGET_ALL then chars "ALL" else targets_text (dd_targets dd) true emitted_targets))
    (if dd_targets dd =? BEBOP_TARGET_ALL then lit "ALL" else emit_targets (dd_targets dd) true emitted_targets)).
  { destruct (_ =? _); [apply writes_lit|exact H4']. }
  assert (H6' : writes (n + 1) (Some (if dd_allow_multiple dd then spaces (n + 1) ++ chars "multiple = true" ++ [10] else []))
    (if dd_allow_multiple dd then bebop__emit_indent;; piece (chars "multiple = true" ++ [10]) else mret tt)).
  { destruct (dd_allow_multiple dd); part. }
  eapply writes_eq; [pieces; apply writes_indented; pieces|].
  generalize (if dd_allow_multiple dd then spaces (n + 1) ++ chars "multiple = true" ++ [10] else []). intros mult.
  generalize (if dd_targets dd =? BEBOP_TARGET_ALL then chars "ALL" else targets_text (dd_targets dd) true emitted_targets). intros targets. same_text.
Qed.

(** *** Definitions and schemas *)

Lemma fits_of {A} (f : A → bebop_type_t) l a : Forall fits (map f l) → a ∈ l → fits (f a).
Proof. rewrite Forall_forall. intros Hf Ha. apply Hf, list_elem_of_fmap. by exists a. Qed.
Lemma fits_methods l m : Forall fits (concat (map (λ m, [me_request_type m; me_response_type m]) l)) → m ∈ l →
  fits (me_request_type m) ∧ fits (me_response_type m).
Proof.
  induction l as [|a l IH]; cbn [map concat app]; intros Hf Hm; [by apply not_elem_of_nil in Hm|].
  apply Forall_cons in Hf as [Hq Hf]. apply Forall_cons in Hf as [Hr Hf]. apply elem_of_cons in Hm as [->|Hm]; [done|by apply IH].
Qed.

Lemma writes_under n doc decs t m :
  writes n t m → writes n (above format_g source str n doc decs +++ t) (bebop__emit_doc doc;; bebop__emit_decorators format_g source decs;; m).
Proof.
  intros Hm. eapply writes_eq; [apply writes_bind; [apply writes_doc|apply writes_bind; [apply writes_decorators|exact Hm]]|].
  unfold above. same_text.
Qed.

Lemma writes_def fuel : all_fit → ∀ n p,
  writes n (def_text format_g h source str fuel n p) (emitter__emit_def format_g h source fuel p).
Proof.
  intros Hall. induction fuel as [|fuel IH]; intros n p; [by intros l b t'|]. cbn [emitter__emit_def def_text].
  destruct (h !! p) as [d|] eqn:Ed; [|by intros l b t']. cbn [mbind option_bind]. eapply writes_lift; [done|]. cbn beta zeta.
  pose proof (Hall p d Ed) as Hfit. unfold def_types in Hfit.
  set (nt := each_text _ (df_nested_defs d)). set (nm := each_emit _ (df_nested_defs d)).
  assert (Hnested : writes (n + 1) nt nm).
  { apply writes_each. intros q _. destruct (bebop__is_inline_branch_def d q); [apply writes_ret|].
    apply writes_bind; [apply writes_newline|apply IH]. }
  clearbody nt nm. apply writes_under.
  destruct (df_body d) as [|base members|fields is_mutable size|fields|branches|methods mixins|type value|dd]; cbn beta iota.
  - apply writes_ret.
  - apply writes_block; [apply writes_lit| |apply writes_each; intros; apply writes_member].
    destruct (bool_decide (base = BEBOP_TYPE_UINT32)); [apply writes_ret|]. apply writes_bind; [apply writes_lit|].
    destruct (bebop_type_kind_name base) as [text|]; [|by intros l b t']. apply (writes_str str n (Some text)).
  - apply writes_block; [destruct is_mutable; part|apply writes_ret|]. apply writes_bind; [|exact Hnested].
    apply writes_each. intros f Hf. apply writes_struct_field. by apply (fits_of fd_type fields).
  - apply writes_block; [apply writes_lit|apply writes_ret|]. apply writes_bind; [|exact Hnested].
    apply writes_each. intros f Hf. apply writes_message_field. by apply (fits_of fd_type fields).
  - apply writes_block; [apply writes_lit|apply writes_ret|]. apply writes_bind; [|exact Hnested].
    apply writes_each. intros b Hb. apply writes_branch; [done|]. by apply (fits_of br_type_ref branches).
  - apply writes_block; [apply writes_lit|apply writes_ret|]. apply writes_each. intros m Hm.
    destruct (fits_methods methods m Hfit Hm). by apply writes_method.
  - pose proof (writes_visibility n d). pose proof (writes_literal n value). pose proof (writes_end n).
    apply Forall_cons in Hfit as [Hfit _]. pose proof (writes_type str n _ Hfit). part.
  - apply writes_decorator_def.
Qed.

Lemma emits_assoc {A B D} n l t l' (m : C bebop__emit_buf_t A) (k : A → C bebop__emit_buf_t B) (j : B → C bebop__emit_buf_t D) a :
  emits str n l t l' (m ≫= λ x, k x ≫= j) a → emits str n l t l' ((m ≫= k) ≫= j) a.
Proof.
  intros Hm b t' E Hb En El Hr. destruct (Hm b t' E Hb En El Hr) as (b'&Eb&Hw). exists b'. split; [|done]. rewrite <- Eb.
  unfold mbind, C_bind. by destruct (m b) as [[]|].
Qed.

Abbreviation source_end := (match source with Some src => zlen src | None => 0 end).
(** The definitions at the top, and the comments that are left. *)
Lemma emits_top_level defs : all_fit → ∀ l, ∃ l',
  emits str 0 l (top_level_text format_g h source tokens trivia str l defs) l'
    (each_emit (emit_top_level format_g h source tokens trivia (S (length h))) defs;; bebop__emit_trivia_until source tokens trivia source_end) tt.
Proof.
  intros Hall. induction defs as [|p defs IH]; intros l; cbn [each_emit top_level_text]; [eexists; apply emits_comments|].
  destruct (h !! p) as [d|] eqn:Ed; [|by exists l; intros b t']. cbn [mbind option_bind].
  destruct (IH (match df_parent d with Some _ => l | None => last_after tokens (off (df_span d)) l end)) as (l'&Hl). exists l'.
  apply emits_assoc. unfold emit_top_level at 1. apply emits_assoc. eapply emits_lift; [exact Ed|]. cbn beta.
  destruct (df_parent d); [exact Hl|]. apply emits_assoc. eapply emits_bind; [apply emits_comments|].
  apply emits_assoc. eapply emits_bind; [apply writes_def, Hall|]. eapply emits_bind; [apply writes_newline|exact Hl].
Qed.
End Parts.

(** ** Schemas *)

Section Schemas.
Context `{ContextOk, !ContextKeeps} {dm : DefMap def_ptr}.
Context (format_g : spec_float → list Z) (h : heap) (source : option (list Z)) (tokens : list bebop_token_t) (trivia : list bebop_trivia_t).

(** The arena gives the room for the order of the imports. *)
Definition listing : Prop := ∀ n c, is_Some (ctx_alloc_n 4 n 4 c).1.

Lemma writes_import str n path : writes str n (Some (import_text path)) (piece (chars "import " ++ [34]);; bebop__emit_str path;; piece [34; 10]).
Proof. pose proof (writes_str str n path). part. Qed.

(** The imports are written in order, or left out. *)
Lemma imports_run str b imports : good str b → eb_indent b = 0 → (∀ listed, room b (imports_text str listed imports)) →
  ∃ listed b', emit_imports imports b = Some (tt, b') ∧ wrote str b (eb_last_pos b) (imports_text str listed imports) b' ∧ (listing → listed = true).
Proof.
  intros Hb En Hr. unfold emit_imports, imports_text in *. destruct imports as [|imp imports].
  { exists true, b. split; [done|]. split; [|done]. split; [done..|]. intros He. by rewrite app_nil_r. }
  unfold mbind at 1, C_bind at 1, gets at 1. cbn [id]. pose proof Hb as [Hctx Hstr Hcap]. set (all := imp :: imports) in *.
  pose proof (ctx_alloc_n_ok 4 (zlen all) 2 (eb_ctx b) ltac:(lia) Hctx) as [Hok _].
  pose proof (λ i, ck_alloc_n 4 (zlen all) 2 (eb_ctx b) i ltac:(lia) Hctx) as Hkeep. change (2 ^ 2) with 4 in *.
  destruct (ctx_alloc_n 4 (zlen all) 4 (eb_ctx b)) as [idx c] eqn:Ea. cbn [snd] in *. unfold mbind at 1, C_bind at 1, modify at 1.
  set (b1 := set_room c (eb_ptr b) (eb_capacity b) b).
  assert (Hb1 : good str b1) by (split; cbn; [done|intros i; rewrite Hkeep; apply Hstr|done]).
  set (listed := match idx with Some _ => true | None => false end).
  set (lines := if listed then concat (map import_text (sort_paths (map (λ imp, c_string <$> str (im_path imp)) all))) else []).
  assert (Hlines : writes str 0 (Some lines) (match idx with
    | None => mret tt
    | Some _ => paths ← gets (λ b, map (λ imp, c_string <$> ctx_str (eb_ctx b) (im_path imp)) all);
        each_emit (λ path, piece (chars "import " ++ [34]);; bebop__emit_str path;; piece [34; 10]) (sort_paths paths)
    end)).
  { subst lines listed. destruct idx as [q|]; [|apply writes_ret]. intros l.
    apply emits_gets with (v := map (λ imp, c_string <$> str (im_path imp)) all).
    { intros b2 [] _ _. apply map_ext. intros a. by rewrite gd_str0. }
    rewrite <- each_pure. revert l. apply writes_each. intros path _. apply writes_import. }
  destruct (writes_bind str 0 _ _ _ _ Hlines (writes_newline str 0) (eb_last_pos b1) b1 (lines ++ [10]) eq_refl Hb1 En eq_refl (Hr listed))
    as (b'&E'&[Hg Hi Hl Hf Hd]).
  exists listed, b'. split; [exact E'|]. split; [by split|]. intros Hall. specialize (Hall (zlen all) (eb_ctx b)). rewrite Ea in Hall.
  subst listed. cbn [fst] in Hall. by destruct Hall as [q ->].
Qed.

(** The end of an emission from a new buffer. *)
Lemma finish_correct c t (m : C bebop__emit_buf_t unit) b' :
  m (bebop__emit_init c) = Some (tt, b') → wrote (ctx_str c) (bebop__emit_init c) (eb_last_pos b') t b' → zlen t + 1 < 2 ^ 62 →
  ∃ r c', bebop__emit_finish m c = Some (r, c') ∧ (r = None ∨ r = Some t) ∧ (granting → r = Some t) ∧ ctx_ok c' ∧ ∀ i, ctx_str c' i = ctx_str c i.
Proof.
  intros Em [Hg Hi Hl Hf Hd] Ht. destruct (writes_char (ctx_str c) 0 0 (eb_last_pos b') b' [0] eq_refl Hg Hi eq_refl) as (b2&E2&[Hg2 _ _ Hf2 Hd2]).
  { intros He. destruct (Hd He) as [_ ->]. cbn. change (zlen [0]) with 1. lia. }
  unfold bebop__emit_finish, mbind, C_bind. rewrite Em, E2. eexists _, _. split; [reflexivity|]. destruct Hg2 as [Hok Hstr _].
  assert (Hdata : eb_error b2 = false → Some (take (length (eb_data b2) - 1) (eb_data b2)) = Some t).
  { intros He. destruct (Hd2 He) as [He' ->]. destruct (Hd He') as [_ ->]. cbn [eb_data bebop__emit_init app]. f_equal.
    rewrite length_app. cbn [length]. rewrite Nat.add_sub. apply take_app_length. }
  split; [destruct (eb_error b2); [by left|right; by apply Hdata]|]. split; [|by split].
  intros Hall. specialize (Hf2 Hall (Hf Hall eq_refl)). rewrite Hf2. by apply Hdata.
Qed.

Lemma wrote_trans str b l t b1 l' t' b2 : wrote str b l t b1 → wrote str b1 l' t' b2 → wrote str b l' (t ++ t') b2.
Proof.
  intros [Hg Hi Hl Hf Hd] [Hg' Hi' Hl' Hf' Hd']. split; [done|congruence|done|auto|]. intros He. destruct (Hd' He) as [He1 ->].
  destruct (Hd He1) as [He0 ->]. by rewrite app_assoc.
Qed.
Lemma room_after str b l t b1 t' : wrote str b l t b1 → room b (t ++ t') → room b1 t'.
Proof. intros [_ _ _ _ Hd] Hr He. destruct (Hd He) as [He0 ->]. specialize (Hr He0). rewrite zlen_app in *. lia. Qed.

Lemma room_prefix b t t' : room b (t ++ t') → room b t.
Proof. intros Hr He. specialize (Hr He). rewrite zlen_app in Hr. pose proof (zlen_nonneg t'). lia. Qed.

(** What stands before the definitions. *)
Definition head_text (str : Z → option (list Z)) (sc : schema_t) : list Z :=
  chars "edition = " ++ 34 :: chars "2026" ++ [34; 10; 10] ++
  (if bebop_str_is_null (sch_package sc) then [] else chars "package " ++ name_text str (sch_package sc) ++ [59; 10; 10]).
Lemma writes_head str sc n : writes str n (Some (head_text str sc))
  (piece (chars "edition = " ++ 34 :: chars "2026" ++ [34; 10; 10]);; emit_package (sch_package sc)).
Proof. unfold head_text, emit_package. destruct (bebop_str_is_null (sch_package sc)); part. Qed.

(** A text for both cases of the imports, which fits into memory. *)
Definition printable (c : ctx) (sc : schema_t) : Prop :=
  ∀ listed, ∃ t, schema_text format_g h source tokens trivia (ctx_str c) listed sc = Some t ∧ zlen t + 1 < 2 ^ 62.

Lemma schema_run c sc : ctx_ok c → all_fit h → printable c sc →
  ∃ t listed b', schema_text format_g h source tokens trivia (ctx_str c) listed sc = Some t ∧ zlen t + 1 < 2 ^ 62 ∧ (listing → listed = true) ∧
    wrote (ctx_str c) (bebop__emit_init c) (eb_last_pos b') t b' ∧
    (piece (chars "edition = " ++ 34 :: chars "2026" ++ [34; 10; 10]);; emit_package (sch_package sc);; emit_imports (sch_imports sc);;
     each_emit (emit_top_level format_g h source tokens trivia (S (length h))) (sch_definitions sc);;
     bebop__emit_trivia_until source tokens trivia (match source with Some src => zlen src | None => 0 end)) (bebop__emit_init c) = Some (tt, b').
Proof.
  intros Hok Hall Hprint. set (str := ctx_str c). set (b0 := bebop__emit_init c).
  assert (Hsplit : ∀ listed, ∃ t, top_level_text format_g h source tokens trivia str 0 (sch_definitions sc) = Some t ∧
    schema_text format_g h source tokens trivia str listed sc = Some ((head_text str sc ++ imports_text str listed (sch_imports sc)) ++ t) ∧
    zlen ((head_text str sc ++ imports_text str listed (sch_imports sc)) ++ t) + 1 < 2 ^ 62).
  { intros listed. destruct (Hprint listed) as (t&E&Hlen). pose proof E as E'. unfold schema_text in E'. apply cat_Some in E' as (x&y&[= <-]&Ey&->). exists y. split; [done|].
    assert (Eq : head_text str sc ++ imports_text str listed (sch_imports sc) =
      chars "edition = " ++ 34 :: chars "2026" ++ [34; 10; 10] ++
      (if bebop_str_is_null (sch_package sc) then [] else chars "package " ++ name_text str (sch_package sc) ++ [59; 10; 10]) ++ imports_text str listed (sch_imports sc)).
    { unfold head_text. by rewrite <- !app_assoc. }
    rewrite Eq. split; [exact E|exact Hlen]. }
  assert (Hroom : ∀ listed t, top_level_text format_g h source tokens trivia str 0 (sch_definitions sc) = Some t →
    room b0 ((head_text str sc ++ imports_text str listed (sch_imports sc)) ++ t)).
  { intros listed t Et _. destruct (Hsplit listed) as (t'&Et'&_&Hlen). rewrite Et in Et'. injection Et' as <-. change (zlen (eb_data b0)) with 0. lia. }
  destruct (Hsplit true) as (t&Et&_&_). assert (Hg0 : good str b0) by (split; [done|done|by left]).
  destruct (writes_head str sc 0 0 b0 _ eq_refl Hg0 eq_refl eq_refl) as (b1&E1&Hw1).
  { by eapply room_prefix, room_prefix, (Hroom true). }
  destruct (imports_run str b1 (sch_imports sc) (wr_good _ _ _ _ _ Hw1)) as (listed&b2&E2&Hw2&Hlist); [by rewrite (wr_indent _ _ _ _ _ Hw1)| |].
  { intros listed. eapply room_after; [exact Hw1|]. by eapply room_prefix, (Hroom listed). }
  pose proof (wrote_trans _ _ _ _ _ _ _ _ Hw1 Hw2) as Hw12.
  destruct (emits_top_level format_g h source tokens trivia str (sch_definitions sc) Hall 0) as (l'&Htop).
  destruct (Htop b2 t Et (wr_good _ _ _ _ _ Hw12)) as (b3&E3&Hw3).
  { by rewrite (wr_indent _ _ _ _ _ Hw12). } { by rewrite (wr_last _ _ _ _ _ Hw12), (wr_last _ _ _ _ _ Hw1). }
  { eapply room_after; [exact Hw12|]. by apply Hroom. }
  destruct (Hsplit listed) as (t'&Et'&Etext&Hlen). rewrite Et in Et'. injection Et' as <-. exists ((head_text str sc ++ imports_text str listed (sch_imports sc)) ++ t), listed, b3. split; [exact Etext|]. split; [exact Hlen|].
  split; [exact Hlist|]. rewrite (wr_last _ _ _ _ _ Hw3). split; [by eapply wrote_trans|].
  revert E1. unfold mbind, C_bind. destruct (piece _ b0) as [[[] b']|]; [|done]. intros ->. by rewrite E2.
Qed.


(** The same of a single definition. *)
Theorem emit_def_correct c p t : ctx_ok c → all_fit h → def_text format_g h source (ctx_str c) (S (length h)) 0 p = Some t → zlen t + 1 < 2 ^ 62 →
  ∃ r c', bebop_emit_def format_g h source p c = Some (r, c') ∧ (r = None ∨ r = Some t) ∧ (granting → r = Some t) ∧
    ctx_ok c' ∧ ∀ i, ctx_str c' i = ctx_str c i.
Proof.
  intros Hok Hall Et Hlen. destruct (writes_def format_g h source (ctx_str c) (S (length h)) Hall 0 p 0 (bebop__emit_init c) t Et) as (b'&E&Hw).
  { split; [done|done|by left]. } { done. } { done. } { intros _. cbn. change (zlen []) with 0. lia. }
  apply (finish_correct c t _ b' E); [|done]. by rewrite (wr_last _ _ _ _ _ Hw).
Qed.
End Schemas.
