(* ===== verification/EmitLiterals.v ===== *)
(** What the emitter writes for literals that have no text of their own
    ([bebop__emit_literal] of [bebop/src/bebop_emit.c]) reads back: numbers, UUIDs, timestamps
    and durations by the parsers of literals ([bebop/src/bebop_utils.c]), strings and arrays of
    bytes by the loop of the scanner over a quoted literal ([bebop/src/bebop_scanner.c]). *)
From stdpp Require Import list strings.
From S2P Require Import Prelude.
From S2P Require Import Unicode.
From S2P Require Import Scanner.
From S2P Require Import ScannerProps.
From S2P Require Import Literals.
From S2P Require Import Calendar.
From S2P Require Import Emit.

(** ** Numbers *)

Lemma digits_of_0 k : digits_of k 0 = replicate k 48.
Proof.
  induction k as [|k IH]; [done|]. cbn [digits_of]. change (0 / 10) with 0. change (0 mod 10) with 0.
  by rewrite IH, replicate_S_end.
Qed.

(** A decimal text is the digits of its length, and fills a field with zeros. *)
Lemma decimal_loop_digits k : ∀ fuel n, (k < fuel)%nat → 0 ≤ n < 10 ^ Z.of_nat (S k) →
  ∃ w, (1 ≤ w ≤ S k)%nat ∧ decimal_loop fuel n = digits_of w n ∧ n < 10 ^ Z.of_nat w ∧
    replicate (S k - w) 48 ++ digits_of w n = digits_of (S k) n.
Proof.
  induction k as [|k IH]; intros fuel n Hf Hn; (destruct fuel as [|fuel]; [lia|]); cbn [decimal_loop].
  - exists 1%nat. split; [lia|]. destruct (Z.ltb_spec n 10); [done|]. cbn in Hn. lia.
  - destruct (Z.ltb_spec n 10) as [Hlt|Hge].
    + exists 1%nat. split; [lia|]. split; [done|]. split; [done|]. replace (S (S k) - 1)%nat with (S k) by lia.
      change (digits_of (S (S k)) n) with (digits_of (S k) (n / 10) ++ [48 + n mod 10]).
      rewrite (Z.div_small n 10), digits_of_0 by lia. done.
    + rewrite (Nat2Z.inj_succ (S k)), Z.pow_succ_r in Hn by lia.
      destruct (IH fuel (n / 10) ltac:(lia)) as (w&Hw&E&Hlt&Hfill).
      { split; [apply Z.div_pos; lia|apply Z.div_lt_upper_bound; lia]. }
      exists (S w). split; [lia|]. rewrite E. split; [done|]. split.
      { rewrite Nat2Z.inj_succ, Z.pow_succ_r by lia. pose proof (Z.div_mod n 10 ltac:(lia)). pose proof (mod10 n). lia. }
      change (digits_of (S w) n) with (digits_of w (n / 10) ++ [48 + n mod 10]).
      change (digits_of (S (S k)) n) with (digits_of (S k) (n / 10) ++ [48 + n mod 10]).
      rewrite app_assoc. by replace (S (S k) - S w)%nat with (S k - w)%nat by lia; rewrite Hfill.
Qed.

Lemma padded_digits k n : (0 < k ≤ 20)%nat → 0 ≤ n < 10 ^ Z.of_nat k → padded k n = digits_of k n.
Proof.
  intros Hk Hn. destruct k as [|k]; [lia|]. unfold padded. rewrite Z.abs_eq by lia. destruct (Z.ltb_spec n 0); [lia|].
  destruct (decimal_loop_digits k 20 n ltac:(lia) Hn) as (w&Hw&E&_&Hfill). unfold decimal. rewrite E, length_digits_of.
  cbn [length app]. by rewrite Nat.sub_0_r.
Qed.

Lemma decimal_digits n : 0 ≤ n < 2 ^ 64 → ∃ w, (1 ≤ w ≤ 20)%nat ∧ decimal n = digits_of w n ∧ n < 10 ^ Z.of_nat w.
Proof.
  intros Hn. destruct (decimal_loop_digits 19 20 n ltac:(lia)) as (w&Hw&E&Hlt&_); [split; [lia|]; change (10 ^ Z.of_nat 20) with 100000000000000000000; lia|].
  by exists w.
Qed.

Lemma digits_of_value k n acc : 0 ≤ n < 10 ^ Z.of_nat k → value_from 10 acc (digits_of k n) = acc * 10 ^ Z.of_nat k + n.
Proof.
  revert n acc. induction k as [|k IH]; intros n acc Hn; [cbn in *; lia|].
  rewrite Nat2Z.inj_succ, Z.pow_succ_r in * by lia. cbn [digits_of]. unfold value_from in *. rewrite fold_left_app.
  rewrite IH by (split; [apply Z.div_pos; lia|apply Z.div_lt_upper_bound; lia]). cbn [fold_left].
  pose proof (mod10 n). rewrite digit_val_48 by lia. pose proof (Z.div_mod n 10 ltac:(lia)). lia.
Qed.

Lemma digits_of_are_digits k n : Forall (is_digit 10) (digits_of k n).
Proof.
  revert n. induction k as [|k IH]; intros n; [constructor|]. cbn [digits_of]. apply Forall_app. split; [done|].
  constructor; [|constructor]. apply decimal_digit. pose proof (mod10 n). lia.
Qed.

Lemma decimal_magnitude n : 0 ≤ n < 2 ^ 64 → magnitude (decimal n) n.
Proof.
  intros Hn. destruct (decimal_digits n Hn) as (w&Hw&->&Hlt). destruct w as [|w]; [lia|].
  rewrite <- (digits_of_value (S w) n 0) at 2 by lia. apply magnitude_decimal; [|apply digits_of_are_digits].
  intros E. by apply (f_equal length) in E; rewrite length_digits_of in E.
Qed.

(** Integers read back, save the least one, on which the parser is undefined. *)
Lemma emitted_int_reads i : - 2 ^ 63 < i < 2 ^ 63 → bebop_util_parse_int (signed_decimal i) = Some (Some i).
Proof.
  intros Hi. unfold signed_decimal. destruct (Z.ltb_spec i 0).
  - pose proof (decimal_magnitude (- i) ltac:(lia)) as Hm. cbn [bebop_util_parse_int Z.eqb Pos.eqb orb].
    rewrite (parse_magnitude_exact _ _ Hm) by lia. unfold INT64_MAX.
    destruct (Z.ltb_spec (2 ^ 63 - 1 + 1) (- i)); [lia|]. destruct (Z.eqb_spec (- i) (2 ^ 63 - 1 + 1)); [lia|].
    do 2 f_equal. lia.
  - pose proof (decimal_magnitude i ltac:(lia)) as Hm. destruct (magnitude_head _ _ Hm) as (c&p'&E&Hc&Hc'&_).
    pose proof (parse_magnitude_exact _ _ Hm ltac:(lia)) as Hp. rewrite E in *. unfold bebop_util_parse_int.
    destruct (Z.eqb_spec c 45); [lia|]. destruct (Z.eqb_spec c 43); [lia|]. cbn [orb]. rewrite Hp. unfold INT64_MAX.
    destruct (Z.ltb_spec (2 ^ 63 - 1) i); [lia|]. done.
Qed.

(** ** Days *)

Lemma check_range (f : Z → bool) (n : Z) : forallb f (seqZ 0 n) = true → ∀ x, 0 ≤ x < n → f x = true.
Proof. intros Hf x Hx. rewrite forallb_forall in Hf. apply Hf, list_elem_of_In, elem_of_seqZ. lia. Qed.

(** The day of a year that begins in March: the month and the day of the month. *)
Definition month_of_day (doy : Z) : Z * Z :=
  let mp := Z.quot (5 * doy + 2) 153 in (mp + (if mp <? 10 then 3 else -9), doy - Z.quot (153 * mp + 2) 5 + 1).
Definition month_check (doy : Z) : bool :=
  let '(m, d) := month_of_day doy in
  (1 <=? m) && (m <=? 12) && (1 <=? d) && ((153 * (m + (if 2 <? m then -3 else 9)) + 2) / 5 + d - 1 =? doy) &&
  Bool.eqb (m <=? 2) (306 <=? doy) &&
  (d <=? if m =? 2 then (if doy =? 365 then 29 else 28) else default 0 (bebop__month_days !! Z.to_nat (m - 1))).

Lemma month_of_day_ok doy m d : 0 ≤ doy < 366 → month_of_day doy = (m, d) →
  1 ≤ m ≤ 12 ∧ 1 ≤ d ∧ (153 * (m + (if 2 <? m then -3 else 9)) + 2) / 5 + d - 1 = doy ∧ (m <=? 2) = (306 <=? doy) ∧
  (d ≤ if m =? 2 then (if doy =? 365 then 29 else 28) else default 0 (bebop__month_days !! Z.to_nat (m - 1))).
Proof.
  intros Hdoy E. pose proof (check_range month_check 366 ltac:(vm_compute; reflexivity) doy Hdoy) as Hc. unfold month_check in Hc.
  rewrite E in Hc. rewrite !andb_true_iff in Hc. destruct Hc as (((((H1&H2)&H3)&H4)&H5)&H6).
  apply Bool.eqb_prop in H5. zbool. split; [lia|]. split; [lia|]. split; [lia|]. split; [done|]. lia.
Qed.

(** The years of an era: their first days, and the year of a day. *)
Definition year_start (y : Z) : Z := y * 365 + y / 4 - y / 100 + y / 400.
Definition shortened (doe : Z) : Z := doe - Z.quot doe 1460 + Z.quot doe 36524 - Z.quot doe 146096.
Definition year_check (y : Z) : bool :=
  (Z.quot (shortened (year_start y)) 365 =? y) && (Z.quot (shortened (year_start (y + 1) - 1)) 365 =? y).

Lemma shortened_step x : 0 ≤ x < 146096 → shortened x ≤ shortened (x + 1).
Proof.
  intros Hx. unfold shortened. destruct (Z.eqb_spec x 146095) as [->|Hne]; [vm_compute; discriminate|].
  rewrite !Z.quot_div_nonneg by lia. rewrite (Z.div_small x 146096), (Z.div_small (x + 1) 146096) by lia.
  assert (x / 36524 ≤ (x + 1) / 36524) by (apply Z.div_le_mono; lia).
  assert ((x + 1) / 1460 ≤ x / 1460 + 1).
  { rewrite <- (Z.div_add x 1 1460) by lia. apply Z.div_le_mono; lia. }
  lia.
Qed.

Lemma shortened_mono x (k : nat) : 0 ≤ x → x + Z.of_nat k ≤ 146096 → shortened x ≤ shortened (x + Z.of_nat k).
Proof.
  intros Hx. induction k as [|k IH]; intros Hk; [by rewrite Z.add_0_r|]. rewrite Nat2Z.inj_succ in *. etrans; [apply IH; lia|].
  replace (x + Z.succ (Z.of_nat k)) with (x + Z.of_nat k + 1) by lia. apply shortened_step. lia.
Qed.

Lemma shortened_nonneg x : 0 ≤ x ≤ 146096 → 0 ≤ shortened x.
Proof. intros Hx. pose proof (shortened_mono 0 (Z.to_nat x) ltac:(lia)) as Hm. rewrite Z2Nat.id in Hm by lia. change (shortened 0) with 0 in Hm. apply Hm; lia. Qed.

Lemma find_year doe (n : nat) : 0 ≤ doe < year_start (Z.of_nat n) →
  ∃ y, 0 ≤ y < Z.of_nat n ∧ year_start y ≤ doe < year_start (y + 1).
Proof.
  induction n as [|n IH]; intros Hd; [change (year_start (Z.of_nat 0)) with 0 in Hd; lia|]. rewrite Nat2Z.inj_succ in Hd.
  destruct (Z.ltb_spec doe (year_start (Z.of_nat n))) as [Hlt|Hge].
  - destruct (IH ltac:(lia)) as (y&Hy&Hs). exists y. split; [lia|done].
  - exists (Z.of_nat n). split; [lia|]. rewrite Z.add_1_r. lia.
Qed.

Lemma year_of_era doe : 0 ≤ doe < 146097 →
  let y := Z.quot (shortened doe) 365 in 0 ≤ y < 400 ∧ year_start y ≤ doe < year_start (y + 1).
Proof.
  intros Hd. destruct (find_year doe 400 ltac:(change (year_start (Z.of_nat 400)) with 146097; lia)) as (y&Hy&Hs).
  pose proof (check_range year_check 400 ltac:(vm_compute; reflexivity) y ltac:(lia)) as Hc. unfold year_check in Hc.
  rewrite andb_true_iff in Hc. destruct Hc as (E1%Z.eqb_eq&E2%Z.eqb_eq).
  assert (Hstart : 0 ≤ year_start y) by (unfold year_start; Z.div_mod_to_equations; lia).
  assert (Hend : year_start (y + 1) ≤ 146097) by (unfold year_start; Z.div_mod_to_equations; lia).
  pose proof (shortened_mono (year_start y) (Z.to_nat (doe - year_start y)) Hstart) as Hlo.
  pose proof (shortened_mono doe (Z.to_nat (year_start (y + 1) - 1 - doe)) ltac:(lia)) as Hhi.
  rewrite Z2Nat.id in Hlo, Hhi by lia.
  replace (year_start y + (doe - year_start y)) with doe in Hlo by lia.
  replace (doe + (year_start (y + 1) - 1 - doe)) with (year_start (y + 1) - 1) in Hhi by lia.
  specialize (Hlo ltac:(lia)). specialize (Hhi ltac:(lia)).
  pose proof (shortened_nonneg (year_start y) ltac:(lia)).
  assert (E : Z.quot (shortened doe) 365 = y).
  { rewrite Z.quot_div_nonneg in * by lia. pose proof (Z.div_le_mono _ _ 365 ltac:(lia) Hlo). pose proof (Z.div_le_mono _ _ 365 ltac:(lia) Hhi). lia. }
  cbv zeta. rewrite E. by split.
Qed.

Lemma march_days_era era y : 0 ≤ y ≤ 400 → march_days (era * 400 + y) = era * 146097 + year_start y.
Proof.
  intros Hy. unfold march_days, year_start. destruct (Z.eqb_spec y 400) as [->|Hne].
  - replace ((era * 400 + 400) / 400) with (era + 1) by (apply (Z.div_unique_pos _ _ _ 0); lia).
    replace ((era * 400 + 400) mod 400) with 0 by (apply (Z.mod_unique_pos _ _ (era + 1)); lia).
    change (0 / 4) with 0. change (0 / 100) with 0. change (400 / 4) with 100. change (400 / 100) with 4. change (400 / 400) with 1. lia.
  - replace ((era * 400 + y) / 400) with era by (apply (Z.div_unique_pos _ _ _ y); lia).
    replace ((era * 400 + y) mod 400) with y by (apply (Z.mod_unique_pos _ _ era); lia). rewrite (Z.div_small y 400) by lia. lia.
Qed.

Lemma floor_era n : Z.quot (if 0 <=? n then n else n - 146096) 146097 = n / 146097.
Proof.
  destruct (Z.leb_spec 0 n); [by rewrite Z.quot_div_nonneg by lia|].
  replace (n - 146096) with (- (146096 - n)) by lia. rewrite Z.quot_opp_l by lia. rewrite Z.quot_div_nonneg by lia.
  Z.div_mod_to_equations; lia.
Qed.

(** The date of a day that a timestamp can name is the date of that day. *)
Lemma civil_from_days_correct days : -719528 ≤ days ≤ 2932896 →
  let '(y, m, d) := civil_from_days days in valid_day y m d ∧ y ≤ 9999 ∧ bebop__util_days_from_civil y m d = days.
Proof.
  intros Hdays. unfold civil_from_days. cbv zeta. rewrite floor_era. set (era := (days + 719468) / 146097).
  set (doe := days + 719468 - era * 146097).
  assert (Hdoe : 0 ≤ doe < 146097) by (subst doe era; Z.div_mod_to_equations; lia).
  assert (Hera : -1 ≤ era ≤ 24) by (subst era; Z.div_mod_to_equations; lia).
  assert (Hlow : era = -1 → 146037 ≤ doe) by (subst doe; lia).
  assert (Hhigh : era = 24 → doe ≤ 146036) by (subst doe; lia).
  assert (Edays : days = era * 146097 + doe - 719468) by (subst doe; lia). clearbody doe era.
  change (doe - doe ÷ 1460 + doe ÷ 36524 - doe ÷ 146096) with (shortened doe).
  destruct (year_of_era doe Hdoe) as (Hyoe&Hstart). set (yoe := Z.quot (shortened doe) 365) in *. clearbody yoe.
  rewrite !(Z.quot_div_nonneg yoe) by lia. set (doy := doe - (365 * yoe + yoe / 4 - yoe / 100)).
  assert (Edoy : doy = doe - year_start yoe) by (unfold year_start; rewrite (Z.div_small yoe 400) by lia; subst doy; lia). clearbody doy.
  assert (Hdoy : 0 ≤ doy < 366).
  { assert (year_start (yoe + 1) ≤ year_start yoe + 366) by (unfold year_start; Z.div_mod_to_equations; lia). lia. }
  destruct (month_of_day doy) as [m d] eqn:Em. pose proof Em as Em'. unfold month_of_day in Em'. cbv zeta in Em'. injection Em' as E1 E2.
  rewrite E1, E2. clear E1 E2. destruct (month_of_day_ok doy m d Hdoy Em) as (Hm&Hd&Eday&Hmar&Hmax). clear Em.
  assert (Hy399 : era = -1 → yoe = 399).
  { intros H. specialize (Hlow H). assert (Hs : doe < year_start (yoe + 1)) by lia. unfold year_start in Hs. Z.div_mod_to_equations; lia. }
  assert (Hlast : era = 24 → yoe = 399 → doy ≤ 305).
  { intros H ->. specialize (Hhigh H). change (year_start 399) with 145731 in Edoy. lia. }
  assert (E32 : to_signed 32 (u32 (yoe + era * 400)) = yoe + era * 400).
  { apply (to_signed_unsigned 32); [lia|]. change (2 ^ (32 - 1)) with 2147483648. lia. }
  rewrite E32. clear E32. set (y := yoe + era * 400 + (if m <=? 2 then 1 else 0)).
  assert (Hfirst : era = -1 → 306 ≤ doy).
  { intros H. pose proof (Hy399 H); subst yoe. specialize (Hlow H). change (year_start 399) with 145731 in Edoy. lia. }
  assert (Hy : 0 ≤ y ≤ 9999).
  { subst y. rewrite Hmar. destruct (Z.leb_spec 306 doy); lia. }
  assert (Hprev : (if m <=? 2 then y - 1 else y) = era * 400 + yoe) by (subst y; destruct (m <=? 2); lia).
  assert (Hleap : m = 2 → doy = 365 → leap_year y = true).
  { intros -> Ed. change (2 <=? 2) with true in *. cbv iota in *. pose proof (march_days_succ (y - 1)) as Hs.
    replace (y - 1 + 1) with y in Hs by lia. rewrite <- leap_year_mod in Hs by lia. rewrite Hprev in Hs.
    replace y with (era * 400 + (yoe + 1)) in Hs at 1 by lia. rewrite !march_days_era in Hs by lia.
    destruct (leap_year y); [done|lia]. }
  split; [|split; [lia|]].
  - split; [lia|]. split; [done|]. split; [done|]. unfold max_day.
    destruct (Z.eqb_spec m 2) as [->|Hm2]; cbn [andb]; [|exact Hmax]. destruct (Z.eqb_spec doy 365) as [Ed|Ed].
    + by rewrite Hleap.
    + destruct (leap_year y); [lia|]. done.
  - rewrite days_from_civil_eq by lia. rewrite Hprev, march_days_era by lia. lia.
Qed.

(** ** Timestamps *)

Lemma trim_zeros_spec fuel n k : 0 ≤ n → (fuel < k)%nat →
  let '(m, j) := trim_zeros fuel n k in 0 ≤ m ∧ (1 ≤ j ≤ k)%nat ∧ n = m * 10 ^ Z.of_nat (k - j).
Proof.
  revert n k. induction fuel as [|fuel IH]; intros n k Hn Hk; cbn [trim_zeros].
  - split; [done|]. split; [lia|]. rewrite Nat.sub_diag. cbn. lia.
  - destruct (Z.eqb_spec (Z.rem n 10) 0) as [E|_].
    + specialize (IH (Z.quot n 10) (k - 1)%nat ltac:(apply Z.quot_pos; lia) ltac:(lia)).
      destruct (trim_zeros fuel (Z.quot n 10) (k - 1)) as [m j]. destruct IH as (Hm&Hj&Eq). split; [done|]. split; [lia|].
      replace (k - j)%nat with (S (k - 1 - j)) by lia. rewrite Nat2Z.inj_succ, Z.pow_succ_r by lia.
      pose proof (Z.quot_rem' n 10). lia.
    + split; [done|]. split; [lia|]. rewrite Nat.sub_diag. cbn. lia.
Qed.

(** A fraction of at most nine digits, and none. *)
Definition emitted_fraction (nanos : Z) : list Z :=
  if negb (nanos =? 0) then let '(n, digits) := trim_zeros 8 nanos 9 in 46 :: padded digits n else [].

Lemma emitted_fraction_parses nanos : 0 ≤ nanos < 10 ^ 9 →
  parse_fraction (emitted_fraction nanos ++ zone_text Utc) = (nanos, zone_text Utc).
Proof.
  intros Hn. unfold emitted_fraction, parse_fraction. destruct (Z.eqb_spec nanos 0) as [->|Hne]; [done|]. cbn [negb].
  pose proof (trim_zeros_spec 8 nanos 9 ltac:(lia) ltac:(lia)) as Ht. destruct (trim_zeros 8 nanos 9) as [n k].
  destruct Ht as (Hn0&Hk&E). assert (Hlt : n < 10 ^ Z.of_nat k).
  { assert (H9 : 10 ^ 9 = 10 ^ Z.of_nat k * 10 ^ Z.of_nat (9 - k)) by (rewrite <- Z.pow_add_r by lia; f_equal; lia).
    assert (0 < 10 ^ Z.of_nat (9 - k)) by (apply Z.pow_pos_nonneg; lia). nia. }
  rewrite padded_digits by lia. cbn [app is_at Z.eqb Pos.eqb tail].
  replace 9%nat with (k + (9 - k))%nat at 1 by lia. rewrite parse_frac_digits by lia.
  assert (Estop : ∀ j frac, parse_frac j (zone_text Utc) frac = (frac * 10 ^ Z.of_nat j, zone_text Utc)) by (intros [|j] frac; done).
  rewrite Estop. cbn [zone_text skip_digits]. change (digit_val 90 <? 10) with false. cbv iota. f_equal. lia.
Qed.

(** The text of a timestamp between its quotes. *)
Lemma emitted_timestamp_reads secs nanos : -719528 * 86400 ≤ secs < 2932897 * 86400 → 0 ≤ nanos < 10 ^ 9 →
  ∃ text, emitted_timestamp secs nanos = 34 :: text ++ [34] ∧ bebop_util_parse_timestamp text = Some (secs, nanos, 0).
Proof.
  intros Hs Hn. unfold emitted_timestamp. cbv zeta. change (if negb (nanos =? 0) then _ else []) with (emitted_fraction nanos).
  assert (E : (if Z.rem secs 86400 <? 0 then (Z.quot secs 86400 - 1, Z.rem secs 86400 + 86400) else (Z.quot secs 86400, Z.rem secs 86400)) =
              (secs / 86400, secs mod 86400)).
  { destruct (Z.ltb_spec (Z.rem secs 86400) 0); f_equal; Z.quot_rem_to_equations; Z.div_mod_to_equations; lia. }
  rewrite E. clear E. pose proof (civil_from_days_correct (secs / 86400) ltac:(Z.div_mod_to_equations; lia)) as Hc.
  destruct (civil_from_days (secs / 86400)) as [[y m] d]. destruct Hc as (Hday&Hy&Edays). pose proof Hday as (Hy0&Hm&Hd).
  pose proof (max_day_range y m Hm). pose proof (Z.mod_pos_bound secs 86400 ltac:(lia)) as Hrem.
  pose proof (Z.div_mod secs 86400 ltac:(lia)) as Hdiv. set (r := secs mod 86400) in *. clearbody r.
  rewrite !Z.quot_div_nonneg, !Z.rem_mod_nonneg by (rewrite ?Z.rem_mod_nonneg by lia; Z.div_mod_to_equations; lia).
  assert (Hh : 0 ≤ r / 3600 ≤ 23) by (Z.div_mod_to_equations; lia).
  assert (Hmi : 0 ≤ r mod 3600 / 60 ≤ 59) by (Z.div_mod_to_equations; lia).
  assert (Hsec : 0 ≤ r mod 60 ≤ 59) by (Z.div_mod_to_equations; lia).
  rewrite !padded_digits by (cbn; lia).
  exists (date_text y m d (r / 3600) (r mod 3600 / 60) (r mod 60) (emitted_fraction nanos ++ zone_text Utc)). split.
  { unfold date_text. repeat (rewrite <- app_assoc; cbn [app]). done. }
  rewrite (timestamp_parses _ _ _ _ _ _ nanos _ Utc); [|done|lia|lia|lia|lia|done|by apply emitted_fraction_parses].
  rewrite Edays. cbn [zone_seconds]. do 3 f_equal. Z.div_mod_to_equations; lia.
Qed.

(** ** Durations *)

(** One piece of the text, and what it stands for. *)
Definition optional_part (b : bool) (n : Z) (u : dur_unit) : list part :=
  if b then [{| width := length (decimal n); number := n; fraction := None; dunit := u |}] else [].

Lemma optional_part_spec (b : bool) n u : 0 ≤ n < 2 ^ 64 →
  Forall part_ok (optional_part b n u) ∧ parts_text (optional_part b n u) = concat (if b then [signed_decimal n ++ unit_text u] else []) ∧
  parts_nanos (optional_part b n u) = if b then n * unit_nanos u else 0.
Proof.
  intros Hn. destruct b; [|done]. destruct (decimal_digits n Hn) as (w&Hw&E&Hlt). unfold optional_part. rewrite E, length_digits_of. split.
  - constructor; [|constructor]. split; [cbn; lia|]. split; [cbn; lia|]. cbn. lia.
  - split.
    + unfold parts_text, part_text, signed_decimal. destruct (Z.ltb_spec n 0); [lia|]. rewrite E. done.
    + unfold parts_nanos, part_nanos. cbn. rewrite Z.mul_0_l. change (0 / 1000000000) with 0. lia.
Qed.

Lemma parts_nanos_app l l' : parts_nanos (l ++ l') = parts_nanos l + parts_nanos l'.
Proof. induction l as [|c l IH]; [done|]. cbn [app parts_nanos foldr] in *. fold (parts_nanos (l ++ l')) (parts_nanos l). rewrite IH. lia. Qed.

Lemma parts_text_app l l' : parts_text (l ++ l') = parts_text l ++ parts_text l'.
Proof. unfold parts_text. by rewrite map_app, concat_app. Qed.

Definition duration_parts (secs nanos : Z) : list part :=
  let hours := Z.quot secs 3600 in
  let secs := Z.rem secs 3600 in
  let minutes := Z.quot secs 60 in
  let secs := Z.rem secs 60 in
  optional_part (0 <? hours) hours Hours ++ optional_part (0 <? minutes) minutes Minutes ++
  optional_part ((0 <? secs) || (hours =? 0) && (minutes =? 0) && (nanos =? 0)) secs Seconds ++
  optional_part (0 <? Z.quot nanos 1000000) (Z.quot nanos 1000000) Millis ++
  optional_part (0 <? Z.quot (Z.rem nanos 1000000) 1000) (Z.quot (Z.rem nanos 1000000) 1000) Micros ++
  optional_part (0 <? Z.rem nanos 1000) (Z.rem nanos 1000) Nanos.

Lemma duration_parts_spec secs nanos : 0 ≤ secs < 2 ^ 63 → 0 ≤ nanos < 10 ^ 9 →
  Forall part_ok (duration_parts secs nanos) ∧ duration_parts secs nanos ≠ [] ∧
  parts_nanos (duration_parts secs nanos) = secs * 10 ^ 9 + nanos.
Proof.
  intros Hs Hn. change (10 ^ 9) with 1000000000 in *. unfold duration_parts. cbv zeta.
  set (h := Z.quot secs 3600). set (mi := Z.quot (Z.rem secs 3600) 60). set (s := Z.rem (Z.rem secs 3600) 60).
  set (ms := Z.quot nanos 1000000). set (us := Z.quot (Z.rem nanos 1000000) 1000). set (ns := Z.rem nanos 1000).
  assert (Hh : 0 ≤ h < 2 ^ 64) by (subst h; Z.quot_rem_to_equations; lia).
  assert (Hmi : 0 ≤ mi < 2 ^ 64) by (subst mi; Z.quot_rem_to_equations; lia).
  assert (Hss : 0 ≤ s < 2 ^ 64) by (subst s; Z.quot_rem_to_equations; lia).
  assert (Hms : 0 ≤ ms < 2 ^ 64) by (subst ms; Z.quot_rem_to_equations; lia).
  assert (Hus : 0 ≤ us < 2 ^ 64) by (subst us; Z.quot_rem_to_equations; lia).
  assert (Hns : 0 ≤ ns < 2 ^ 64) by (subst ns; Z.quot_rem_to_equations; lia).
  assert (Es : secs = h * 3600 + mi * 60 + s) by (subst h mi s; Z.quot_rem_to_equations; lia).
  assert (En : nanos = ms * 1000000 + us * 1000 + ns) by (subst ms us ns; Z.quot_rem_to_equations; lia).
  clearbody h mi s ms us ns. clear Hs Hn. split; [|split].
  - repeat (apply Forall_app; split); by apply optional_part_spec.
  - intros E. apply (f_equal length) in E. rewrite !length_app in E. unfold optional_part in E.
    destruct (Z.ltb_spec 0 h); [cbn in E; lia|]. destruct (Z.ltb_spec 0 mi); [cbn in E; lia|]. destruct (Z.ltb_spec 0 s); [cbn in E; lia|].
    destruct (Z.eqb_spec h 0); [|lia]. destruct (Z.eqb_spec mi 0); [|lia]. destruct (Z.eqb_spec nanos 0); [cbn in E; lia|].
    destruct (Z.ltb_spec 0 ms); [cbn in E; lia|]. destruct (Z.ltb_spec 0 us); [cbn in E; lia|]. destruct (Z.ltb_spec 0 ns); [cbn in E; lia|]. lia.
  - rewrite !parts_nanos_app. repeat match goal with |- context [parts_nanos (optional_part ?b ?n ?u)] =>
      rewrite (proj2 (proj2 (optional_part_spec b n u ltac:(assumption)))) end.
    cbn [unit_nanos]. change (10 ^ 9) with 1000000000. change (10 ^ 6) with 1000000. change (10 ^ 3) with 1000.
    destruct (Z.ltb_spec 0 h), (Z.ltb_spec 0 mi), (Z.ltb_spec 0 ms), (Z.ltb_spec 0 us), (Z.ltb_spec 0 ns), (Z.ltb_spec 0 s); cbn [orb]; repeat case_match; lia.
Qed.

(** Every duration that the parser may return reads back. *)
Lemma emitted_duration_reads n : - INT64_MAX ≤ n ≤ INT64_MAX →
  let '(secs, nanos) := split_seconds n in
  ∃ pieces, emitted_duration secs nanos = Some pieces ∧ bebop_util_parse_duration (concat pieces) = Some (Some (secs, nanos)).
Proof.
  intros Hn. unfold INT64_MAX in Hn. unfold split_seconds. change (10 ^ 9) with 1000000000. set (secs := Z.quot n 1000000000). set (nanos := Z.rem n 1000000000).
  assert (E : n = secs * 1000000000 + nanos) by (subst secs nanos; Z.quot_rem_to_equations; lia).
  assert (Hsign : (secs <? 0) || (nanos <? 0) = (n <? 0)).
  { subst secs nanos. destruct (Z.ltb_spec (Z.quot n 1000000000) 0), (Z.ltb_spec (Z.rem n 1000000000) 0), (Z.ltb_spec n 0); try done; Z.quot_rem_to_equations; lia. }
  assert (Hsecs : Z.abs secs < 2 ^ 62) by (subst secs; Z.quot_rem_to_equations; lia).
  assert (Hnanos : Z.abs nanos < 1000000000) by (subst nanos; Z.quot_rem_to_equations; lia).
  assert (Hone : (0 ≤ secs ∧ 0 ≤ nanos) ∨ (n < 0 ∧ secs ≤ 0 ∧ nanos ≤ 0)) by (subst secs nanos; Z.quot_rem_to_equations; lia).
  unfold emitted_duration. cbv zeta. rewrite Hsign. destruct (Z.eqb_spec secs (- 2 ^ 63)); [lia|]. destruct (Z.eqb_spec nanos (- 2 ^ 31)); [lia|]. cbn [orb].
  assert (Eabs : (if n <? 0 then Z.abs secs else secs) = Z.abs secs ∧ (if n <? 0 then Z.abs nanos else nanos) = Z.abs nanos).
  { destruct (Z.ltb_spec n 0); lia. }
  destruct Eabs as [-> ->]. eexists. split; [reflexivity|].
  destruct (duration_parts_spec (Z.abs secs) (Z.abs nanos) ltac:(lia) ltac:(lia)) as (Hok&Hne&Esum).
  transitivity (bebop_util_parse_duration (sign_text (if n <? 0 then Minus else NoSign) ++ parts_text (duration_parts (Z.abs secs) (Z.abs nanos)))).
  { f_equal. rewrite concat_app. f_equal; [by destruct (n <? 0)|]. unfold duration_parts. cbv zeta. rewrite !parts_text_app, !concat_app.
    repeat match goal with |- context [parts_text (optional_part ?b ?n ?u)] =>
      destruct (optional_part_spec b n u) as (_&->&_); [Z.quot_rem_to_equations; lia|] end. done. }
  rewrite (proj2 parse_duration_correct) by done. rewrite Esum. change (10 ^ 9) with 1000000000.
  destruct (Z.leb_spec (Z.abs secs * 1000000000 + Z.abs nanos) INT64_MAX) as [_|Hgt]; [|unfold INT64_MAX in Hgt; lia]. do 2 f_equal.
  replace (signed (if n <? 0 then Minus else NoSign) (Z.abs secs * 1000000000 + Z.abs nanos)) with n; [done|].
  destruct (Z.ltb_spec n 0); cbn [signed]; lia.
Qed.

(** ** UUIDs *)

(** The bytes in the order in which the emitter writes them. *)
Definition swapped (g : list Z) : list Z := map (λ i, default 0 (g !! i)) uuid_order.

Lemma lower_hex_digit n : lower_hex n = hex_digit n.
Proof. done. Qed.

Lemma emitted_uuid_reads g : bytes_ok g → zlen g = 16 →
  ∃ text, emitted_uuid g = Some (34 :: text ++ [34]) ∧ bebop_util_parse_uuid text = Some (Some (swapped g)).
Proof.
  intros Hg Hz. assert (Hl : length g = 16%nat) by (unfold zlen in Hz; lia). clear Hz.
  do 16 (destruct g as [|? g]; [done|]). destruct g; [|done]. exists (dashed_text (swapped [z; z0; z1; z2; z3; z4; z5; z6; z7; z8; z9; z10; z11; z12; z13; z14])).
  split; [reflexivity|]. apply parse_uuid_roundtrip; [|done]. rewrite !Forall_cons in Hg.
  destruct Hg as (?&?&?&?&?&?&?&?&?&?&?&?&?&?&?&?&_). repeat (apply Forall_cons_2; [done|]). apply Forall_nil_2.
Qed.

(** ** Characters *)

(** What a reader finds at a place where these bytes are. *)
Lemma load_here pre e post i c : e !! i = Some c → load (pre ++ e ++ post) (zlen pre + Z.of_nat i) = Some c.
Proof.
  intros Hi. apply lookup_lt_Some in Hi as Hlt. unfold load, zlen. destruct (Z.ltb_spec (Z.of_nat (length pre) + Z.of_nat i) 0); [lia|].
  replace (Z.to_nat (Z.of_nat (length pre) + Z.of_nat i)) with (length pre + i)%nat by lia.
  rewrite lookup_app_r by lia. rewrite Nat.add_sub'. by rewrite lookup_app_l.
Qed.

(** An escape sequence behind its backslash that the scanner decodes to the byte. *)
Definition decodes (e : list Z) (c : Z) : Prop :=
  ∀ pre post, bebop_unescape_char (pre ++ e ++ post) (zlen pre) (zlen e + zlen post) = Some (zlen e, [c]).

Lemma decodes_one x c : bebop_unescape_char [x] 0 1 = Some (1, [c]) → x ≠ 120 → x ≠ 117 → decodes [x] c.
Proof.
  intros E Hx Hu pre post. pose proof (zlen_nonneg post). revert E. unfold bebop_unescape_char. change (zlen [x]) with 1.
  destruct (Z.eqb_spec (1 + zlen post) 0); [lia|]. pose proof (load_here pre [x] post 0 x eq_refl) as E0. rewrite Z.add_0_r in E0.
  change (load [x] 0) with (Some x). rewrite E0. cbn [mbind option_bind]. change (1 =? 0) with false. cbv iota.
  destruct (Z.eqb_spec x 120); [done|]. destruct (Z.eqb_spec x 117); [done|]. done.
Qed.

Lemma hex_value_upper n : 0 ≤ n < 16 → BEBOP_HEX_VALUE (upper_hex n) = n ∧ upper_hex n ≠ 125.
Proof.
  intros Hn. pose proof (byte_forall (λ n, implb (n <? 16) ((BEBOP_HEX_VALUE (upper_hex n) =? n) && negb (upper_hex n =? 125)))
    ltac:(vm_compute; reflexivity) n ltac:(unfold byte_ok; lia)) as Hb.
  cbv beta in Hb. destruct (Z.ltb_spec n 16); [|lia]. cbn [implb] in Hb. apply andb_true_iff in Hb as [H1%Z.eqb_eq H2].
  destruct (Z.eqb_spec (upper_hex n) 125); [done|]. done.
Qed.

Lemma decodes_hex c : byte_ok c → decodes (120 :: hex_byte c) c.
Proof.
  intros Hc pre post. pose proof (zlen_nonneg post). unfold bebop_unescape_char.
  change (zlen (120 :: hex_byte c)) with 3. destruct (Z.eqb_spec (3 + zlen post) 0); [lia|].
  pose proof (load_here pre (120 :: hex_byte c) post 0 _ eq_refl) as E0. rewrite Z.add_0_r in E0.
  pose proof (load_here pre (120 :: hex_byte c) post 1 _ eq_refl) as E1. pose proof (load_here pre (120 :: hex_byte c) post 2 _ eq_refl) as E2.
  change (Z.of_nat 1) with 1 in E1. change (Z.of_nat 2) with 2 in E2. rewrite E0. cbn [mbind option_bind Z.eqb Pos.eqb].
  destruct (Z.ltb_spec (3 + zlen post) 3); [lia|]. rewrite E1, E2. cbn [mbind option_bind]. cbv zeta.
  pose proof (byte_forall (λ b, (0 <=? BEBOP_HEX_VALUE (lower_hex (b / 16))) && (0 <=? BEBOP_HEX_VALUE (lower_hex (b mod 16))) &&
    (u8 (Z.lor (Z.shiftl (BEBOP_HEX_VALUE (lower_hex (b / 16))) 4) (BEBOP_HEX_VALUE (lower_hex (b mod 16)))) =? b))
    ltac:(vm_compute; reflexivity) c Hc) as Hall. cbv beta in Hall. zbool.
  destruct (Z.ltb_spec (BEBOP_HEX_VALUE (lower_hex (c / 16))) 0); [lia|].
  destruct (Z.ltb_spec (BEBOP_HEX_VALUE (lower_hex (c mod 16))) 0); [lia|]. cbn [orb]. congruence.
Qed.

(** A code point below 128 in digits between braces, once the digits are read. *)
Lemma decodes_braces e c : 0 ≤ c < 128 → e !! 0%nat = Some 117 → e !! 1%nat = Some 123 → 3 < zlen e →
  (∀ pre post, unescape_digits 8 (pre ++ e ++ post) (zlen pre) (zlen e + zlen post) 2 0 0 = Some (Some (zlen e - 1, c, zlen e - 3)) ∧
     load (pre ++ e ++ post) (zlen pre + (zlen e - 1)) = Some 125) → decodes e c.
Proof.
  intros Hc E0 E1 He Hd pre post. pose proof (zlen_nonneg post). unfold bebop_unescape_char. destruct (Z.eqb_spec (zlen e + zlen post) 0); [lia|].
  pose proof (load_here pre e post 0 117 E0) as L0. rewrite Z.add_0_r in L0. rewrite L0. cbn [mbind option_bind Z.eqb Pos.eqb].
  destruct (Z.ltb_spec (zlen e + zlen post) 3); [lia|]. pose proof (load_here pre e post 1 123 E1) as L1. change (Z.of_nat 1) with 1 in L1.
  rewrite L1. cbn [mbind option_bind Z.eqb Pos.eqb negb].
  assert (Eout : bebop_utf8_encode c = [c]).
  { pose proof (byte_forall (λ c, implb (c <? 128) (match bebop_utf8_encode c with [x] => x =? c | _ => false end)) ltac:(vm_compute; reflexivity) c ltac:(unfold byte_ok; lia)) as Hb.
    cbv beta in Hb. destruct (Z.ltb_spec c 128); [|lia]. cbn [implb] in Hb.
    destruct (bebop_utf8_encode c) as [|x [|]]; [done| |done]. by apply Z.eqb_eq in Hb as ->. }
  destruct (Hd pre post) as [-> Hend]. cbn [mbind option_bind]. destruct (Z.leb_spec (zlen e + zlen post) (zlen e - 1)); [lia|].
  rewrite Hend. cbn [mbind option_bind orb Z.eqb Pos.eqb negb]. destruct (Z.eqb_spec (zlen e - 3) 0); [lia|].
  rewrite Eout. change (zlen [c] =? 0) with false. cbv iota. do 2 f_equal. lia.
Qed.

(** One turn over a digit. *)
Lemma unescape_digit fuel mem s len pos cp digits d : pos < len → digits < 6 → 0 ≤ d < 16 → load mem (s + pos) = Some (upper_hex d) →
  unescape_digits (S fuel) mem s len pos cp digits = unescape_digits fuel mem s len (pos + 1) (Z.lor (u32 (Z.shiftl cp 4)) d) (digits + 1).
Proof.
  intros Hp Hdig Hd E. cbn [unescape_digits]. destruct (Z.ltb_spec pos len); [|lia]. rewrite E. cbn [mbind option_bind].
  destruct (hex_value_upper d Hd) as [Hv Hne]. destruct (Z.eqb_spec (upper_hex d) 125); [done|]. cbv zeta. rewrite Hv.
  destruct (Z.ltb_spec d 0); [lia|]. destruct (Z.ltb_spec 6 (digits + 1)); [lia|]. done.
Qed.
Lemma unescape_brace fuel mem s len pos cp digits : pos < len → load mem (s + pos) = Some 125 →
  unescape_digits fuel mem s len pos cp digits = Some (Some (pos, cp, digits)).
Proof. intros Hp E. destruct fuel; cbn [unescape_digits]; (destruct (Z.ltb_spec pos len); [|lia]); by rewrite E. Qed.

Lemma decodes_unicode c : 0 ≤ c < 128 → decodes ([117; 123] ++ hex_number c ++ [125]) c.
Proof.
  intros Hc. unfold hex_number. destruct (Z.ltb_spec c 16) as [Hlt|Hge]; cbn [app]; apply decodes_braces; try done; intros pre post; pose proof (zlen_nonneg post).
  - rewrite (Z.mod_small c 16) by lia. pose proof (load_here pre [117; 123; upper_hex c; 125] post 2 _ eq_refl) as E2.
    pose proof (load_here pre [117; 123; upper_hex c; 125] post 3 _ eq_refl) as E3. split; [|exact E3].
    change (zlen [117; 123; upper_hex c; 125]) with 4. rewrite (unescape_digit _ _ _ _ _ _ _ c); [|lia..|exact E2].
    change (2 + 1) with 3. rewrite unescape_brace; [done|lia|exact E3].
  - set (e := [117; 123; upper_hex (c / 16); upper_hex (c mod 16); 125]).
    pose proof (load_here pre e post 2 _ eq_refl) as E2. pose proof (load_here pre e post 3 _ eq_refl) as E3. pose proof (load_here pre e post 4 _ eq_refl) as E4.
    split; [|exact E4]. change (zlen e) with 5. rewrite (unescape_digit _ _ _ _ _ _ _ (c / 16)); [|lia|lia|Z.div_mod_to_equations; lia|exact E2].
    change (2 + 1) with 3. rewrite (unescape_digit _ _ _ _ _ _ _ (c mod 16)); [|lia|lia|Z.div_mod_to_equations; lia|exact E3].
    change (3 + 1) with 4. rewrite unescape_brace; [|lia|exact E4].
    pose proof (byte_forall (λ c, Z.lor (u32 (Z.shiftl (Z.lor (u32 (Z.shiftl 0 4)) (c / 16)) 4)) (c mod 16) =? c) ltac:(vm_compute; reflexivity) c ltac:(unfold byte_ok; lia)) as Hb.
    cbv beta in Hb. apply Z.eqb_eq in Hb. by rewrite Hb.
Qed.

(** A byte that stands for itself between quotes. *)
Definition plain (c : Z) : Prop := c ≠ 34 ∧ c ≠ 92 ∧ c ≠ 0 ∧ c ≠ 10 ∧ c ≠ 13.

(** A byte is written as itself or as a sequence that stands for it. *)
Definition reads_back (f : Z → list Z) : Prop :=
  ∀ c, byte_ok c → (f c = [c] ∧ plain c) ∨ ∃ e, f c = 92 :: e ∧ (0 < length e)%nat ∧ Forall (λ x, x ≠ 13 ∧ x ≠ 10) e ∧ decodes e c.

Lemma escape_common_reads c : match escape_common c with
  | Some text => ∃ e, text = 92 :: e ∧ (0 < length e)%nat ∧ Forall (λ x, x ≠ 13 ∧ x ≠ 10) e ∧ decodes e c
  | None => plain c
  end.
Proof.
  unfold escape_common. assert (Hone : ∀ x, bebop_unescape_char [x] 0 1 = Some (1, [c]) → x ≠ 120 → x ≠ 117 → x ≠ 13 → x ≠ 10 →
    ∃ e, [92; x] = 92 :: e ∧ (0 < length e)%nat ∧ Forall (λ x, x ≠ 13 ∧ x ≠ 10) e ∧ decodes e c).
  { intros x E H1 H2 H3 H4. exists [x]. split; [done|]. split; [cbn; lia|]. split; [|by apply decodes_one]. by repeat constructor. }
  destruct (Z.eqb_spec c 34) as [->|]; [by apply Hone|]. destruct (Z.eqb_spec c 92) as [->|]; [by apply Hone|].
  destruct (Z.eqb_spec c 10) as [->|]; [by apply Hone|]. destruct (Z.eqb_spec c 13) as [->|]; [by apply Hone|].
  destruct (Z.eqb_spec c 9) as [->|]; [by apply Hone|]. destruct (Z.eqb_spec c 0) as [->|]; [by apply Hone|]. by split_and!.
Qed.

Lemma hex_digits_fine n : 0 ≤ n < 16 → (upper_hex n ≠ 13 ∧ upper_hex n ≠ 10) ∧ (lower_hex n ≠ 13 ∧ lower_hex n ≠ 10).
Proof. intros Hn. unfold upper_hex, lower_hex. destruct (Z.ltb_spec n 10); lia. Qed.

Lemma escape_char_reads : reads_back escape_char.
Proof.
  intros c Hc. unfold byte_ok in Hc. unfold escape_char. pose proof (escape_common_reads c) as Hcommon. destruct (escape_common c) as [text|]; [by right|].
  destruct ((c <? 32) || (c =? 127)) eqn:E; [right|by left]. assert (Hr : 0 ≤ c < 128).
  { apply orb_true_iff in E as [E%Z.ltb_lt|E%Z.eqb_eq]; lia. }
  exists ([117; 123] ++ hex_number c ++ [125]). split; [done|]. split; [cbn; lia|]. split; [|by apply decodes_unicode].
  unfold hex_number. destruct (hex_digits_fine (c / 16)) as [? _]; [Z.div_mod_to_equations; lia|].
  destruct (hex_digits_fine (c mod 16)) as [? _]; [Z.div_mod_to_equations; lia|].
  destruct (c <? 16); cbn [app]; repeat (constructor; [done|]); constructor.
Qed.
Lemma escape_byte_reads : reads_back escape_byte.
Proof.
  intros c Hc. unfold escape_byte. pose proof (escape_common_reads c) as Hcommon. destruct (escape_common c) as [text|]; [by right|].
  destruct ((32 <=? c) && (c <? 127)) eqn:E; [by left|right]. exists (120 :: hex_byte c). split; [done|]. split; [cbn; lia|].
  split; [|by apply decodes_hex]. unfold byte_ok in Hc.
  destruct (hex_digits_fine (c / 16)) as [_ ?]; [Z.div_mod_to_equations; lia|].
  destruct (hex_digits_fine (c mod 16)) as [_ ?]; [Z.div_mod_to_equations; lia|]. repeat (constructor; [done|]). constructor.
Qed.

(** ** Strings and arrays of bytes *)

Section Read.
Context `{Context} (source : list Z) (schema : bool).
Abbreviation S := bebop__scanner_t.
Abbreviation peek := (bebop__scan_peek_char source).

(** A part that keeps the place; it sets the error when it has no result. *)
Lemma grow_buf_result b (s s' : S) r : bebop__scan_grow_buf b s = Some (r, s') →
  sc_pos s' = sc_pos s ∧ match r with Some b' => buf b' = buf b ∧ sc_error s' = sc_error s | None => sc_error s' = true end.
Proof.
  unfold bebop__scan_grow_buf, mbind, C_bind, on_ctx. cbv zeta. destruct (ctx_alloc_n _ _ _ _) as [[q|] c]; by intros [= <- <-].
Qed.
Lemma push_byte_result c b (s s' : S) r : push_byte c b s = Some (r, s') →
  sc_pos s' = sc_pos s ∧ match r with Some b' => buf b' = buf b ++ [c] ∧ sc_error s' = sc_error s | None => sc_error s' = true end.
Proof.
  unfold push_byte, mbind, C_bind. destruct (buf_cap b <=? zlen (buf b)).
  - destruct (bebop__scan_grow_buf b s) as [[[b1|] s1]|] eqn:E; [| |done]; apply grow_buf_result in E as (Hp&Hr).
    + destruct Hr as [Eb Ee]. destruct (buf_cap b1 <=? zlen (buf b1)); [done|]. intros [= <- <-]. cbn. by rewrite Eb.
    + by intros [= <- <-].
  - cbn. destruct (buf_cap b <=? zlen (buf b)); [done|]. by intros [= <- <-].
Qed.
Lemma grow_for_result fuel n : ∀ b (s s' : S) r, grow_for fuel n b s = Some (r, s') →
  sc_pos s' = sc_pos s ∧ match r with Some b' => buf b' = buf b ∧ sc_error s' = sc_error s | None => sc_error s' = true end.
Proof.
  induction fuel as [|fuel IH]; intros b s s' r; cbn [grow_for]; (destruct (buf_cap b <? zlen (buf b) + n); [|by intros [= <- <-]]); [done|].
  unfold mbind, C_bind. destruct (bebop__scan_grow_buf b s) as [[[b1|] s1]|] eqn:E; [| |done]; apply grow_buf_result in E as (Hp&Hr).
  - intros E'. apply IH in E' as (Hp'&Hr'). split; [congruence|]. destruct Hr as [Eb Ee]. destruct r as [b'|]; [|done]. destruct Hr'. split; congruence.
  - by intros [= <- <-].
Qed.

(** The scanner on the byte behind what it has read. *)
Lemma peek_at pre c post (s : S) : source = pre ++ c :: post → sc_pos s = zlen pre → peek s = c.
Proof. intros -> Hs. unfold bebop__scan_peek_char. by rewrite Hs, load_app. Qed.
Lemma advance_result pre c post (s s' : S) : source = pre ++ c :: post → sc_pos s = zlen pre → c ≠ 13 →
  bebop__scan_advance source s = Some (tt, s') → sc_pos s' = zlen pre + 1 ∧ sc_error s' = sc_error s ∧ sc_ctx s' = sc_ctx s.
Proof.
  intros Hsrc Hs Hc. unfold bebop__scan_advance, modify. intros [= <-]. rewrite (peek_at _ _ _ _ Hsrc Hs). unfold source_len.
  rewrite Hsrc, zlen_app, zlen_cons. pose proof (zlen_nonneg post). destruct (Z.leb_spec (zlen pre + (1 + zlen post)) (sc_pos s)); [lia|].
  destruct (c =? 10); [cbn; by rewrite Hs|]. destruct (Z.eqb_spec c 13); [done|]. cbn. by rewrite Hs.
Qed.
Lemma advance_n_result e : ∀ pre post (s s' : S), source = pre ++ e ++ post → sc_pos s = zlen pre → Forall (λ x, x ≠ 13 ∧ x ≠ 10) e →
  advance_n source (length e) s = Some (tt, s') → sc_pos s' = zlen pre + zlen e ∧ sc_error s' = sc_error s.
Proof.
  induction e as [|c e IH]; intros pre post s s' Hsrc Hs He; cbn [advance_n length].
  - intros [= <-]. change (zlen []) with 0. split; [lia|done].
  - apply Forall_cons in He as [[Hc _] He]. unfold mbind, C_bind. destruct (bebop__scan_advance source s) as [[[] s1]|] eqn:E1; [|done].
    intros E2. destruct (advance_result pre c (e ++ post) s s1 Hsrc Hs Hc E1) as (Hp1&He1&_).
    apply (IH (pre ++ [c]) post) in E2 as (Hp2&He2); [|by rewrite Hsrc, <- app_assoc|rewrite zlen_app; change (zlen [c]) with 1; lia|done].
    rewrite zlen_app in Hp2. change (zlen [c]) with 1 in Hp2. rewrite zlen_cons. split; [lia|congruence].
Qed.

(** One byte of the text: the loop goes on behind it, or memory has run out. *)
Lemma round_reads f pre c post b (s s' : S) r : reads_back f → byte_ok c → source = pre ++ f c ++ post → sc_pos s = zlen pre →
  quoted_round source schema 34 b s = Some (r, s') →
  sc_error s' = true ∨ ∃ b', r = QMore b' ∧ buf b' = buf b ++ [c] ∧ sc_pos s' = zlen (pre ++ f c) ∧ sc_error s' = sc_error s.
Proof.
  intros Hf Hc Hsrc Hs. unfold quoted_round, get, mbind, C_bind, gets. cbn [id]. cbv zeta. destruct (Hf c Hc) as [(Ef&H1&H2&H3&H4&H5)|(e&Ef&Hlen&Hfine&Hdec)]; rewrite Ef in *.
  - rewrite (peek_at pre c post s Hsrc Hs). destruct (Z.eqb_spec c 34); [done|]. destruct (Z.eqb_spec c 92); [done|].
    replace (BEBOP_IS_NEWLINE c) with false by (symmetry; unfold BEBOP_IS_NEWLINE; destruct (Z.eqb_spec c 10), (Z.eqb_spec c 13); done).
    destruct (push_byte c b s) as [[[b1|] s1]|] eqn:E1; [| |done]; apply push_byte_result in E1 as (Hp1&Hr1).
    + destruct (bebop__scan_advance source s1) as [[[] s2]|] eqn:E2; [|done]. intros [= <- <-].
      destruct (advance_result pre c post s1 s2 Hsrc ltac:(congruence) H5 E2) as (Hp2&He2&_). right. exists b1. destruct Hr1.
      split_and!; [done|done|rewrite zlen_app; change (zlen [c]) with 1; lia|congruence].
    + intros [= <- <-]. by left.
  - rewrite (peek_at pre 92 (e ++ post) s Hsrc Hs). change (92 =? 34) with false. change (92 =? 92) with true. cbn beta iota.
    destruct (bebop__scan_advance source s) as [[[] s1]|] eqn:E1; [|done].
    destruct (advance_result pre 92 (e ++ post) s s1 Hsrc Hs ltac:(done) E1) as (Hp1&He1&_).
    assert (Hsrc' : source = (pre ++ [92]) ++ e ++ post) by (by rewrite Hsrc, <- app_assoc).
    assert (Hp1' : sc_pos s1 = zlen (pre ++ [92])) by (rewrite zlen_app; change (zlen [92]) with 1; lia).
    pose proof (Hdec (pre ++ [92]) post) as Edec. rewrite <- Hsrc', <- Hp1' in Edec.
    replace (source_len source - sc_pos s1) with (zlen e + zlen post) by (unfold source_len; rewrite Hsrc' at 1; rewrite !zlen_app in *; lia).
    rewrite Edec. cbn [lift]. destruct (Z.eqb_spec (zlen e) 0) as [E0|_]; [unfold zlen in E0; lia|].
    destruct (grow_for 2 (zlen [c]) b s1) as [[[b1|] s2]|] eqn:E2; [| |done]; apply grow_for_result in E2 as (Hp2&Hr2).
    + replace (Z.to_nat (zlen e)) with (length e) by (unfold zlen; lia). destruct (advance_n source (length e) s2) as [[[] s3]|] eqn:E3; [|done].
      intros [= <- <-]. destruct (advance_n_result e (pre ++ [92]) post s2 s3 Hsrc' ltac:(congruence) Hfine E3) as (Hp3&He3). right. destruct Hr2 as [Eb Ee].
      eexists. split; [done|]. cbn [buf]. split; [by rewrite Eb|]. split; [|congruence]. rewrite Hp3, !zlen_app, !zlen_cons. change (zlen []) with 0. lia.
    + intros [= <- <-]. by left.
Qed.

(** The whole text up to its quote, behind which there is no other one. *)
Lemma loop_reads f str : reads_back f → Forall byte_ok str → ∀ fuel pre post b (s s' : S) r,
  source = pre ++ concat (map f str) ++ 34 :: post → head post ≠ Some 34 → sc_pos s = zlen pre →
  quoted_loop source schema fuel 34 b s = Some (r, s') →
  sc_error s' = true ∨ ∃ b', r = Some b' ∧ buf b' = buf b ++ str ∧ sc_pos s' = zlen pre + zlen (concat (map f str)) + 1.
Proof.
  intros Hf Hstr. induction Hstr as [|c str Hc Hstr IH]; intros fuel pre post b s s' r Hsrc Hpost Hs; cbn [map concat app] in *;
    destruct fuel as [|fuel]; cbn [quoted_loop]; unfold get at 1, mbind at 1, C_bind at 1, gets at 1; cbn [id].
  1, 2: rewrite (peek_at pre 34 post s Hsrc Hs); change (34 =? 0) with false; cbn [orb].
  3, 4: assert (Hne : peek s ≠ 0) by (destruct (Hf c Hc) as [(Ef&_&_&H0&_)|(e&Ef&_)]; rewrite Ef, <- app_assoc in Hsrc; by rewrite (peek_at _ _ _ s Hsrc Hs));
    destruct (Z.eqb_spec (peek s) 0); [done|]; cbn [orb].
  all: destruct (sc_error s) eqn:He; [intros [= <- <-]; by left|]; try done.
  - unfold quoted_round, get, mbind, C_bind, gets. cbn [id]. rewrite (peek_at pre 34 post s Hsrc Hs). change (34 =? 34) with true. cbn beta iota zeta.
    assert (Hnext : (bebop__scan_peek_char_at source 1 s =? 34) = false).
    { unfold bebop__scan_peek_char_at. rewrite Hs. destruct post as [|x post].
      - rewrite Hsrc. unfold load, zlen. rewrite lookup_ge_None_2; [by destruct (_ <? 0)|]. rewrite length_app. cbn. lia.
      - rewrite Hsrc. replace (pre ++ 34 :: x :: post) with ((pre ++ [34]) ++ x :: post) by (by rewrite <- app_assoc).
        replace (zlen pre + 1) with (zlen (pre ++ [34])) by (by rewrite zlen_app). rewrite load_app. cbn.
        destruct (Z.eqb_spec x 34) as [->|]; [by destruct Hpost|done]. }
    rewrite Hnext. destruct (bebop__scan_advance source s) as [[[] s1]|] eqn:E1; [|done]. intros [= <- <-].
    destruct (advance_result pre 34 post s s1 Hsrc Hs ltac:(done) E1) as (Hp1&He1&_). right. exists b. change (zlen []) with 0.
    split_and!; [done|by rewrite app_nil_r|lia].
  - rewrite <- app_assoc in Hsrc. unfold mbind, C_bind. destruct (quoted_round source schema 34 b s) as [[st s1]|] eqn:E1; [|done].
    destruct (round_reads f pre c _ b s s1 st Hf Hc Hsrc Hs E1) as [He1|(b1&->&Eb&Hp1&He1)].
    + intros E2. left. destruct st as [b1|b1|]; [|by injection E2 as _ <-..]. revert E2.
      destruct fuel; cbn [quoted_loop]; unfold get, mbind, C_bind, gets; cbn [id]; rewrite He1, orb_true_r; by intros [= _ <-].
    + intros E2. destruct (IH fuel (pre ++ f c) post b1 s1 s' r) as [He2|(b2&->&Eb2&Hp2)]; [by rewrite Hsrc, <- app_assoc|done|done|done|by left|].
      right. exists b2. split; [done|]. split; [by rewrite Eb2, Eb, <- app_assoc|]. rewrite Hp2, !zlen_app. lia.
Qed.

Lemma skip_keeps_error fuel quote : ∀ s s' : S, skip_lit_to_end source fuel quote s = Some (tt, s') → sc_error s = true → sc_error s' = true.
Proof.
  assert (Hadv : ∀ s s' : S, bebop__scan_advance source s = Some (tt, s') → sc_error s' = sc_error s).
  { intros s s'. unfold bebop__scan_advance, modify. intros [= <-]. repeat case_match; done. }
  induction fuel as [|fuel IH]; intros s s'; cbn [skip_lit_to_end]; unfold mbind at 1, C_bind at 1, get, gets at 1; cbn [id];
    (destruct (peek s =? 0); [by intros [= <-]|]); (destruct (_ && _); [by intros E; rewrite (Hadv _ _ E)|]); [done|].
  unfold mbind, C_bind. destruct (bebop__scan_advance source s) as [[[] s1]|] eqn:E1; [|done]. intros E Hs. apply (IH _ _ E). by rewrite (Hadv _ _ E1).
Qed.

(** The token of a text that was decoded, which is interned unless memory has run out. *)
Lemma literal_token_reads s0 (is_bytes : bool) str b (s s' : S) tok : buf b = str → is_bytes = true ∨ bebop_utf8_valid str 0 (zlen str) = Some true →
  literal_token schema s0 is_bytes b s = Some (tok, s') →
  sc_error s' = true ∨ tk_kind tok = (if is_bytes then BEBOP_TOKEN_BYTES else BEBOP_TOKEN_STRING) ∧ sc_pos s' = sc_pos s ∧
    ∃ c, tk_lexeme tok = (ctx_intern_n str c).1 ∧ sc_ctx s' = (ctx_intern_n str c).2.
Proof.
  intros <- Hvalid. unfold literal_token. unfold mbind at 1, C_bind at 1, get, gets at 1. cbn [id]. destruct (sc_error s) eqn:He.
  { unfold error_token, mbind, C_bind, get, gets, mret, C_ret. cbn [id]. intros [= _ <-]. by left. }
  unfold mbind at 1, C_bind at 1. set (alloc := if buf_cap b <=? zlen (buf b) then _ else _).
  assert (Halloc : ∀ ok s1, alloc s = Some (ok, s1) → (ok = true ∨ sc_error s1 = true) ∧ sc_pos s1 = sc_pos s).
  { intros ok s1. subst alloc. destruct (buf_cap b <=? zlen (buf b)); [|intros [= <- <-]; split; [by left|done]].
    unfold mbind, C_bind, on_ctx. destruct (ctx_alloc_n _ _ _ _) as [[q|] c]; intros [= <- <-]; (split; [by (left + right)|done]). }
  destruct (alloc s) as [[ok s1]|]; [|done]. clear alloc. destruct (Halloc ok s1 eq_refl) as ([->|He1]&<-).
  - cbn [negb]. assert (Hv : (if negb is_bytes && (0 <? zlen (buf b)) then bebop_utf8_valid (buf b) 0 (zlen (buf b)) else Some true) = Some true).
    { destruct Hvalid as [->|Hv]; [done|]. destruct is_bytes; [done|]. cbn [negb andb]. by destruct (0 <? zlen (buf b)). }
    destruct (negb is_bytes && (0 <? zlen (buf b))); [rewrite Hv|]; unfold mbind, C_bind, lift, mret, C_ret, on_ctx; cbn [negb];
      destruct (ctx_intern_n (buf b) (sc_ctx s1)) as [h c] eqn:Ei; intros [= <- <-]; right; (split_and!; [by destruct is_bytes|done|]); exists (sc_ctx s1); by rewrite Ei.
  - destruct ok; cbn [negb].
    + destruct (negb is_bytes && (0 <? zlen (buf b))); unfold mbind, C_bind, lift, mret, C_ret, on_ctx.
      * destruct (bebop_utf8_valid (buf b) 0 (zlen (buf b))) as [[]|]; [| |done]; cbn [negb].
        -- destruct (ctx_intern_n (buf b) (sc_ctx s1)) as [h c]. intros [= <- <-]. by left.
        -- unfold add_diagnostic, error_token, get, gets, modify, mbind, C_bind, mret, C_ret. destruct schema; cbn [id]; intros [= _ <-]; by left.
      * cbn [negb]. destruct (ctx_intern_n (buf b) (sc_ctx s1)) as [h c]. intros [= <- <-]. by left.
    + unfold error_token, mbind, C_bind, get, gets, mret, C_ret. cbn [id]. intros [= _ <-]. by left.
Qed.

(** The token of a literal that the emitter has written. *)
Lemma literal_reads f str (is_bytes : bool) pre post (s s' : S) tok :
  reads_back f → Forall byte_ok str → (is_bytes = true ∨ bebop_utf8_valid str 0 (zlen str) = Some true) →
  source = pre ++ (if is_bytes then [98] else []) ++ 34 :: concat (map f str) ++ 34 :: post → head post ≠ Some 34 → sc_pos s = zlen pre →
  bebop__scan_quoted source schema is_bytes s = Some (tok, s') →
  sc_error s' = true ∨ tk_kind tok = (if is_bytes then BEBOP_TOKEN_BYTES else BEBOP_TOKEN_STRING) ∧ sc_pos s' = zlen source - zlen post ∧
    ∃ c, tk_lexeme tok = (ctx_intern_n str c).1 ∧ sc_ctx s' = (ctx_intern_n str c).2.
Proof.
  intros Hf Hstr Hvalid Hsrc Hpost Hs. unfold bebop__scan_quoted, get. unfold mbind at 1, C_bind at 1, gets at 1. cbn [id]. unfold mbind at 1, C_bind at 1.
  destruct ((if is_bytes then bebop__scan_advance source else mret tt) s) as [[[] s1]|] eqn:E1; [|done].
  assert (H1 : source = (pre ++ (if is_bytes then [98] else [])) ++ 34 :: concat (map f str) ++ 34 :: post ∧
    sc_pos s1 = zlen (pre ++ (if is_bytes then [98] else []))).
  { split; [by rewrite Hsrc, <- app_assoc|]. destruct is_bytes; [|injection E1 as <-; by rewrite app_nil_r].
    destruct (advance_result pre 98 _ s s1 Hsrc Hs ltac:(done) E1) as (->&_). by rewrite zlen_app. }
  destruct H1 as [Hsrc1 Hp1]. set (pre1 := pre ++ (if is_bytes then [98] else [])) in *. unfold mbind at 1, C_bind at 1, gets at 1. cbn [id].
  rewrite (peek_at pre1 34 _ s1 Hsrc1 Hp1). change (is_quote 34) with true. rewrite andb_false_r. cbv zeta. unfold mbind at 1, C_bind at 1.
  destruct (bebop__scan_advance source s1) as [[[] s2]|] eqn:E2; [|done]. destruct (advance_result pre1 34 _ s1 s2 Hsrc1 Hp1 ltac:(done) E2) as (Hp2&_).
  unfold mbind at 1, C_bind at 1. destruct (quoted_loop source schema (scan_fuel source) 34 (mkBuf [] 0) s2) as [[r s3]|] eqn:E3; [|done].
  destruct (loop_reads f str Hf Hstr (scan_fuel source) (pre1 ++ [34]) post (mkBuf [] 0) s2 s3 r) as [He|(b&->&Eb&Hp3)]; try done.
  { by rewrite Hsrc1, <- app_assoc. } { by rewrite zlen_app. }
  - destruct r as [b|]; [|].
    + unfold literal_token, mbind at 1, C_bind at 1, get, gets at 1. cbn [id]. rewrite He. unfold error_token, mbind, C_bind, get, gets, mret, C_ret. cbn [id].
      intros [= _ <-]. by left.
    + unfold mbind, C_bind. destruct (skip_lit_to_end source (scan_fuel source) 34 s3) as [[[] s4]|] eqn:E4; [|done].
      apply skip_keeps_error in E4; [|done]. unfold error_token, mbind, C_bind, get, gets, mret, C_ret. cbn [id]. intros [= _ <-]. by left.
  - intros Et. destruct (literal_token_reads s is_bytes str b s3 s' tok) as [He|(Hk&Hp&Hc)]; [by rewrite Eb|done|done|by left|right].
    split_and!; [done| |done]. rewrite Hp, Hp3, Hsrc1. rewrite !zlen_app, !zlen_cons, zlen_app, zlen_cons, zlen_nil. lia.
Qed.
End Read.

