(* ===== verification/EmitExamples.v ===== *)
(** The emitter on concrete schemas: a text is scanned, parsed and written again. *)
From Stdlib Require Import SpecFloat String Ascii.
From stdpp Require Import list gmap strings.
From S2P Require Import Prelude.
From S2P Require Import Arena.
From S2P Require Import CArena.
From S2P Require Import Intern.
From S2P Require Import Unicode.
From S2P Require Import Scanner.
From S2P Require Import Schema.
From S2P Require Import Literals.
From S2P Require Import Calendar.
From S2P Require Import Diagnostics.
From S2P Require Import Sema.
From S2P Require Import SemaProps.
From S2P Require Import Registry.
From S2P Require Import RegistryProps.
From S2P Require Import FloatText.
From S2P Require Import Parser.
From S2P Require Import ParseFile.
From S2P Require Import FrontEnd.
From S2P Require Import CompilerContext.
From S2P Require Import Emit.
From S2P Require Import EmitSpec.
From S2P Require Import EmitProps.
From S2P Require Import EmitLiterals.

Lemma all_fit_dec (h : heap) : forallb (λ d, forallb (λ t, Nat.leb (frames_needed t) 128) (def_types d)) h = true → all_fit h.
Proof.
  rewrite forallb_forall. intros Hall p d E. apply list_elem_of_lookup_2, list_elem_of_In, Hall in E. rewrite forallb_forall in E.
  apply Forall_forall. intros t Ht%list_elem_of_In%E. by apply Nat.leb_le in Ht.
Qed.

(** The context of the compiler keeps the promise: its arena and its pool do not touch. *)
Section PoolKeeps.
Context `{HostAllocatorOk, InternMapOk}.
#[export] Instance pool_context_keeps : ContextKeeps.
Proof.
  split.
  - intros size n k c i Hk Hc. apply ctx_arena_str; [|exact Hc]. intros s Hs. destruct (alloc_n_kept s k size n Hs Hk) as (r&s'&?&[? _]). eauto.
  - intros p old new c i Hc. apply ctx_arena_str; [|exact Hc]. intros s Hs. by apply arena_realloc_kept.
Qed.
End PoolKeeps.

Module EmitExamples.
#[local] Existing Instance list_context.
#[local] Existing Instance list_context_ok.
Lemma list_context_keeps : ContextKeeps.
Proof. split; done. Qed.

(** The diagnostics of a text, with the registry, the tokens and the trivia of its schema. *)
Definition parsed (source : string) : option (list (Z * Z) * (registry_t * list bebop_token_t * list bebop_trivia_t)) :=
  '(tokens, s) ← bebop__scan_with_schema (chars source) true (rg_ctx Text.start);
  o ← bebop__parse_tokens_into (λ _, true) [] tokens (chars source) (sc_trivia s) 0%nat no_diagnostics false (set_ctx (sc_ctx s) Text.start);
  p ← o;
  Some (map (λ d, (di_code d, off (di_span d))) (ds_diagnostics (se_schema (pr_sema p))), (pr_registry p, tokens, sc_trivia s)).
Definition string_of (l : list Z) : string := string_of_list_ascii (map (λ c, ascii_of_N (Z.to_N c)) l).
Definition formatted (source : string) : option (list (Z * Z) * option string) :=
  match parsed source with
  | Some (diags, (r, tokens, trivia)) =>
      match rg_schemas r !! 0%nat with
      | Some sc =>
          match bebop_emit_schema (λ _, []) (rg_defs r) (Some (chars source)) tokens trivia sc (rg_ctx r) with
          | Some (text, _) => Some (diags, match text with Some t => Some (string_of t) | None => None end)
          | None => None
          end
      | None => None
      end
  | None => None
  end.

Definition newline : string := String "010" EmptyString.
Definition lines (l : list string) : string := String.concat newline l.
Definition sample : string := lines ["package a;"; "// hello"; "struct P { x: int32; y: map[string, P[]][3]; }"; "/// a union";
  "union U { A(1): { s: string; }; B(2): P; }"; "enum E : byte { X = 0; Y = 1 << 2; }"; "service S { get(P): stream P; }"; "const int32 c = 0x10;"; ""].
Definition written : string := lines ["edition = `2026`"; ""; "package a;"; ""; "// hello"; "struct P {"; "    x: int32;"; "    y: map[string, P[]][3];"; "}"; "";
  "/// a union"; "union U {"; "    A(1): {"; "        s: string;"; "    };"; "    B(2): P;"; "}"; ""; "enum E : byte {"; "    X = 0;"; "    Y = 1 << 2;"; "}"; "";
  "service S {"; "    get(P): stream P;"; "}"; ""; "const int32 c = 0x10;"; ""; ""].
(** A text with its quotes, which are written as back quotes above. *)
Definition with_quotes (s : string) : string := string_of (map (λ c, if c =? 96 then 34 else c) (chars s)).

Example sample_written : formatted sample = Some ([], Some (with_quotes written)).
Proof. vm_compute. reflexivity. Qed.
(** The text of the emitter is emitted as it is. *)
Example written_again : formatted (with_quotes written) = Some ([], Some (with_quotes written)).
Proof. vm_compute. reflexivity. Qed.

(** The theorems at the sample. *)
Definition sample_state : registry_t * list bebop_token_t * list bebop_trivia_t :=
  match parsed sample with Some (_, st) => st | None => (Text.start, [], []) end.
Definition sample_schema : schema_t := default (mkSchemaT 0 no_span [] ∅ [] 0 [] 0 0 0) (rg_schemas sample_state.1.1 !! 0%nat).

Definition sample_string : list Z := [34; 97; 10; 7; 195; 169; 0; 36].
Definition quoted_sample : list Z := [] ++ [] ++ 34 :: concat (map escape_char sample_string) ++ [34].
Lemma sample_string_ok : bytes_ok sample_string.
Proof. apply (bool_decide_unpack _). vm_compute. exact I. Qed.
Definition at_start : bebop__scanner_t := mkScanner 0 1 1 ([] : list (list Z)) None [] 0 false.

(** ** Where the text departs from the schema *)

(** A UUID without a text of its own comes back with its first fields turned around. *)
Example uuid_turned_around :
  (text ← emitted_uuid (seqZ 0 16); bebop_util_parse_uuid (take 36 (drop 1 text))) = Some (Some [3; 2; 1; 0; 5; 4; 7; 6; 8; 9; 10; 11; 12; 13; 14; 15]).
Proof. vm_compute. reflexivity. Qed.

(** Maps in arrays in maps in arrays: each level of arrays is bounded, their sum is not. *)
Fixpoint times (n : nat) (s : string) : string := match n with O => EmptyString | S n => String.append s (times n s) end.
Definition nested (inner outer : nat) : string :=
  String.append "struct P { x: map[int32, map[int32, bool]" (String.append (times inner "[]") (String.append "]" (String.append (times outer "[]") "; }"))).
(** The parser reports nothing, and the emitter writes behind its stack: it asks for room for
    three frames and stores four. *)
Theorem nested_map_overflows : (fst <$> parsed (nested 61 63)) = Some [] ∧ formatted (nested 61 63) = None.
Proof. split; vm_compute; reflexivity. Qed.
(** One level more, and the rest of the type is missing. *)
Example nested_map_is_lost : (fst <$> parsed (nested 62 63)) = Some [] ∧
  formatted (nested 62 63) = Some ([], Some (with_quotes (lines ["edition = `2026`"; ""; "struct P {";
    String.append "    x: map[int32, map[" (String.append (times 62 "[]") (String.append "]" (String.append (times 63 "[]") ";"))); "}"; ""; ""]))).
Proof. split; vm_compute; reflexivity. Qed.

(** The services that a service includes are not written. *)
Example mixins_lost : formatted "struct P { } service T { a(P): P; } service S with T { b(P): P; }" =
  Some ([], Some (with_quotes (lines ["edition = `2026`"; ""; "struct P {"; "}"; ""; "service T {"; "    a(P): P;"; "}"; ""; "service S {"; "    b(P): P;"; "}"; ""; ""]))).
Proof. vm_compute. reflexivity. Qed.
(** Nor are the decorators and the documentation of the fields of a branch, *)
Example branch_decorators_lost : formatted (lines ["union U { A(1): {"; "/// doc"; "@deprecated s: string; }; }"]) =
  Some ([], Some (with_quotes (lines ["edition = `2026`"; ""; "union U {"; "    A(1): {"; "        s: string;"; "    };"; "}"; ""; ""]))).
Proof. vm_compute. reflexivity. Qed.
(** the default of a parameter and the values that it allows. *)
Example default_lost : formatted (with_quotes "#decorator(d) { targets = FIELD param p?: string = `a` in [`a`, `b`] }") =
  Some ([], Some (with_quotes (lines ["edition = `2026`"; ""; "#decorator(d) {"; "    targets = FIELD"; "    param p?: string"; "}"; ""; ""]))).
Proof. vm_compute. reflexivity. Qed.
(** The imports are lost when the arena has no room for their order. *)
Definition no_room : Context := {|
  ctx := list (list Z);
  ctx_alloc_n := λ _ _ _ c, (None, c);
  ctx_realloc := λ _ _ _ c, (Some 16, c);
  ctx_intern_n := list_intern;
  ctx_str := list_str;
  ctx_out_of_memory := λ _ c, c;
  ctx_add_diagnostic := λ _ c, c;
  ctx_ended := λ _, false;
  ctx_ok := λ _, True
|}.
Example imports_lost :
  match parsed (with_quotes "import `b.bop`") with
  | Some (_, (r, tokens, trivia)) =>
      match rg_schemas r !! 0%nat with
      | Some sc => option_map (λ o, option_map string_of o.1) (@bebop_emit_schema no_room _ (λ _, []) (rg_defs r) None tokens [] sc (rg_ctx r))
      | None => None
      end
  | None => None
  end = Some (Some (with_quotes (lines ["edition = `2026`"; ""; ""; ""]))).
Proof. vm_compute. reflexivity. Qed.
(** Comments behind something on their line are lost; those inside of a definition are moved
    behind it. *)
Example comments_lost : formatted (lines ["struct P { // one"; "  // two"; "  x: int32; }"; "struct Q { }"]) =
  Some ([], Some (with_quotes (lines ["edition = `2026`"; ""; "struct P {"; "    x: int32;"; "}"; ""; "// two"; "struct Q {"; "}"; ""; ""]))).
Proof. vm_compute. reflexivity. Qed.
End EmitExamples.
